(* ===== verification/_CoqProject ===== *)
-Q . S2P
Prelude.v
Text.v
Wire.v
Money.v
SpendLedger.v
Budget.v
Policy.v
JointConsensus.v
ClusterKey.v
CommitRecord.v
CommitLedger.v
CommitReplay.v
Term.v
QuorumDurable.v
Scheduler.v
TaskLease.v
SideEffects.v
MissionPersist.v
MacPolicy.v
MacSafety.v
FairQueue.v
AntiEntropy.v
LedgerSync.v
Broker.v
KeyArbiter.v
Pacer.v
NonceLedger.v
NetGuard.v
ResponseCache.v
ParallelAdmission.v
WriterIsolation.v
EmergencyStop.v
TaskManager.v
Cancellation.v
WorkerRecovery.v
CapacityAdmission.v
PulseQueue.v
VersionedStore.v
Workflow.v
Control.v
Supervisor.v
Speculative.v
AuditChain.v
AgentTx.v
ServiceSupervision.v
Redact.v
CloudEligibility.v
CloudQuota.v
CloudBudget.v
CloudLockout.v
CloudIntent.v
CloudFailover.v
ParallelDispatch.v
CloudCredentials.v
KeyFile.v
KeyLookup.v
