(* ===== verification/Prelude.v ===== *)
(** * SUSI: a verification development

    SUSI is a host for agents: missions of model calls run under a budget, several nodes
    keep a replicated log of what a quorum decided, and applications act under permissions.
    This library models the parts of it that decide something, file by file, and proves
    what makes them correct.  Paths are relative to [src/].

    ** Parts

    _Spending_ ([crates/susi-harness/src]).  [Money] ([money.rs], [pricing.rs]) is integer
    amounts and the price of a call; [SpendLedger] ([ledger.rs]) the rows calls are settled
    in and the reader that survives a torn row; [Budget] ([budget.rs]) the guard every turn
    reserves its estimate from; [Policy] ([policy.rs], with two functions of [catalog.rs]
    and [providers.rs]) what the ledger teaches about models and the ladder that picks each
    attempt, seated again by [adapter.rs] when a provider drops out; [Scheduler] ([scheduler.rs], [event.rs]) a task's loop and the pool of workers
    of a mission.  [Pacer] ([ratelimit.rs]) decides when a call may start under a
    provider's caps, [ResponseCache] ([cache.rs]) which answers are kept.  The scheduler
    calls the policy and the guard; the guard folds the ledger.

    _Consensus_ ([crates/susi-core/src/commit_log.rs], [crates/susi-config/src/cluster_key.rs],
    [crates/susi-gawd-swarm/src]).  [ClusterKey] is HMAC, member signatures and key
    rotation; [CommitRecord] sealing and verifying one record; [CommitLedger] the intake of
    records and its effects on the roster, the bans and the keys; [CommitReplay] the replay,
    its audits and compaction; [Term] leadership and terms, with a term file that may fail;
    [JointConsensus] ([joint_consensus.rs], [node_enrollment.rs], the roster operations of
    [dag.rs]) bootstrap, enrollment and membership transitions;
    [QuorumDurable] ([quorum_durable.rs], the closures of [amas.rs], the [commit_record] tool
    of [susi-gmcp]) the boundary at which a decision counts as committed; [AntiEntropy]
    ([anti_entropy.rs]) paging through a peer's log, and [LedgerSync]
    ([sync_commit_ledger_from] of [amas.rs]) the catch-up that runs it over the intake.

    _Missions_ ([crates/susi-gawd-swarm/src]).  [TaskLease] ([task_lease.rs]) is ownership
    with fencing tokens; [SideEffects] ([side_effect_journal.rs], [side_effects.rs]) the
    journal of intents; [MissionPersist] ([mission_persist.rs]) the durable record that
    holds both, with recovery, snapshots and rollback; [FairQueue] ([fair_queue.rs]) the
    bounded queue missions wait in.  [ParallelAdmission] ([parallel_admission.rs]) gives the
    nodes of a mission that may run together their tickets, [CapacityAdmission]
    ([capacity_admission.rs], [resource_schedule.rs], [dag.rs]) what the measured host can
    carry; [WriterIsolation] ([writer_isolation.rs]) gives writers their copies of a
    workspace and folds them back; [WorkerRecovery] ([worker_recovery.rs]) fences jobs whose
    worker was replaced; [TaskManager] ([crates/susi-core/src/task_manager.rs]) is the table
    of running tasks and its watchdog, [Cancellation] ([cancel_propagate.rs]) the
    propagation of a cancellation over it.

    _Plans_ ([crates/susi-harness/src]).  [Workflow] ([workflow.rs]) is scopes, dependencies
    and waves; [Control] ([control.rs], [api.rs]) what an operator asks; [Supervisor]
    ([supervisor.rs]) runs a plan wave by wave over both, with the executor a parameter.

    _Access_.  [MacPolicy] ([crates/susi-core/src/mac_policy.rs]) is the mandatory access
    control: capability tokens, the shared store, the privacy posture, the authorization of
    tools; its theorems are [MacSafety].  [Broker] ([crates/susi-core/src/broker.rs]) is
    permissions and messages between applications.  [KeyArbiter]
    ([crates/susi-gemi/src/key_arbitration.rs]) admits requests per credential.
    [NonceLedger] and [NetGuard] ([crates/susi-core/src/net_guard.rs]) are the replay
    ledger of signed requests, the admission of a request and the rate limiter.
    [EmergencyStop] ([crates/susi-core/src/emergency_stop.rs]) is the stop latch,
    [AuditChain] ([crates/susi-sandbox-client/src/audit_chain.rs]) the signed audit log over
    the hashes of [ClusterKey].

    _Host_.  [PulseQueue] ([crates/susi-core/src/queue.rs], [model_health.rs]) is the queue of
    intents with its sleeping consumer, [VersionedStore]
    ([crates/susi-config/src/versioned_store.rs]) the cache over configuration files,
    [AgentTx] ([crates/susi-core/src/agent_tx.rs]) snapshots of files with rollback,
    [Speculative] ([crates/susi-gemi/src/engines/speculative.rs], the generation loop of
    [runtime_native.rs]) greedy decoding, plain and by draft and verification,
    [ServiceSupervision] ([crates/susi-daemon/src/service_supervision.rs], [watchdog.rs]) the
    restarts of the daemon's workers.

    _Cloud targets_.  [CloudEligibility] and [CloudQuota]
    ([crates/susi-vendor-models/src/cloud_eligibility.rs], [cloud_quota.rs]) keep what
    providers' answers say about credentials, models and remaining capacity, with reasons
    masked by [Redact] ([crates/susi-error/src/redact.rs]); [CloudLockout]
    ([crates/susi-gawd-swarm/src/cloud_lockout.rs]) is cooldowns and circuits, [CloudBudget]
    ([crates/susi-gawd-agents/src/cloud_budget.rs]) the spend reserved per account.
    [CloudIntent] ([cloud_intent.rs]) selects and ranks the targets of a request over the
    first two; [CloudFailover] ([cloud_failover.rs]) executes a selection over all four, and
    [ParallelDispatch] ([parallel_dispatch.rs]) a batch of jobs by several workers, under the
    tickets of [ParallelAdmission].

    _Keys_.  [CloudCredentials] ([crates/susi-vendor-models/src/cloud_credentials.rs]) is
    the store of API keys, their spend and their caps; [KeyFile]
    ([crates/susi-config/src/cloud_env.rs], [key_rotation.rs], the registrations and removals
    of [cloud.rs]) the file lookups read; [KeyLookup] ([key_scope.rs], [credential.rs],
    [secret_ref.rs], [extensions.rs], [cloud.rs]) the references, boundaries and lookups that
    resolve a name to a key or an address.  A registration writes both the file and the
    store; lookups read the environment, then the file.

    _Framing_.  [Wire] ([crates/susi-abi/src/wire.rs]) is frames and the incremental decoder.

    [Text] is the [str] methods the code uses, on bytes; this file holds the conventions,
    tactics and lemmas all of them share.

    ** What the theorems show

    - The commit log: intake never holds two records for a slot and only grows by sealed,
      consistent records, whatever a peer sends; a retired key cannot extend a chain; two
      privileged decisions share a signer; the replayed roster is the applied one; a first
      compaction keeps the view; a reported commit is held by every voter it was sent to; a
      catch-up converges to the log of a peer that holds still and pushes exactly what the
      peer lacks; one term has one leader while the term file is read; a mission's roster
      moves by bootstrap, enrollment or joint quorum.
    - Spending: concurrent workers never charge a mission past its limit; every turn was
      admitted; a task ends within its attempt cap, re-seated ladders included, and a mission
      reports every task; the
      pacer keeps every minute within its cap and gives each call the earliest start the
      caps allow; the cache is a bounded least-recently-used list.
    - Missions: a superseded token is never accepted again, after a restart none of the
      earlier ones; an operation is dispatched twice only after it was reconciled as not
      applied; a resumed mission has work; an old waiter is promoted; tickets and measured
      resources are never oversubscribed however missions interleave; isolated writers lose
      no update; a superseded worker is shut out; outcomes of tasks are final, and a
      cancellation reaches what it names.
    - Plans: a schedule partitions the tasks exactly, and what is left over is what a claim
      holds up; the check of dependencies ends and says what is wrong; a run prepares no task
      before all it depends on has landed, nor twice, and reports each task once.
    - Access: a request is permitted exactly on a live signed token that covers it;
      publishing tokens is all or nothing, unless undoing fails and the answer says so;
      switching to local-only sets the posture for every process and leaves the one that
      switched without the elevated grants; a brokered permission rests on consent; quotas,
      rates and concurrency of a credential are respected; a captured request whose nonce was
      written is refused by every process, but for one instant; who is admitted to the network surface; an engaged stop
      refuses what it should and survives a restart; the signed entries of an audit log that
      verifies are the first entries of one its writer wrote.
    - Host: no wake-up of the queue's consumer is lost; the configuration cache answers as if
      it were not there; an abort writes back what was there when the transaction began;
      speculative decoding returns what plain decoding returns where kernels agree; a
      supervised worker never has two live threads.
    - Keys: a save or a registration sets one key and leaves the others; a rotation is atomic
      for the key file; the inventory lists each record once; references are read back as
      printed, and a boundary resolves nothing of another scope.
    - Cloud targets: a failure blocks no more than its scope; a cooldown holds whatever happens
      meanwhile; a selection holds exactly the eligible targets, in order; a run of it is
      bounded, answers with the winner's text, leaves no spend reserved and reaches a target
      that works; a batch ends under every interleaving of its workers, within the spend
      authorized, and shares no pool while another is idle.
    - Framing: decoding inverts encoding, however the stream is cut.

    A theorem that needs something of the environment says so in its comment: what the files
    hold at the start, which writes and reads succeed, which capacities are not reached,
    which names are free of separators, that digests do not collide.  Next to it a lemma
    shows what happens otherwise, where the code lets it happen.

    Where the code and its comments part, a lemma shows the behaviour on a concrete state
    (for instance [MissionPersist.rollback_revives_tokens],
    [CommitReplay.second_compaction_forgets], [NetGuard.mapped_address_evades_the_ban]).

    ** Conventions, bounds and fuel

    Machine integers are [N] with the Rust method's overflow behaviour spelled out (a plain
    [+] wraps: the release profile has no overflow checks).  Critical sections are single
    steps, since the code holds a lock around them; interleavings are sequences of steps,
    given as inductive relations or as lists of operations.  The clock is an argument; a
    theorem over a run says when it assumes that it does not go back.  A file operation that
    can fail is an argument wherever the code handles the failure.

    Loops that do not follow a datatype carry fuel that is shown to suffice:
    [Wire.drain] and [Text.strip_all] the length of their input, [Money.digits_from] the 20
    digits of a [u64], [Scheduler.task_loop] the attempt cap, [AntiEntropy.sweep_loop] the
    scan bound, [ResponseCache.evict] the number of entries; [while_pow] runs up to [2 ^ 64]
    rounds of the quota roll without unfolding them.  [Workflow.search_fuel] is one turn for
    each task and each dependency, [Workflow.build] one round for each task,
    [Supervisor.rounds] and [Supervisor.fail_dependents] one for each task that is left, and
    [Speculative.spec_loop] one for each token, since every round emits one.
    [CloudFailover.loop] is one turn for each ranked target and one more;
    [ParallelDispatch.batch_ends] bounds the steps of a batch.  [FairQueue.horizon] and
    [KeyArbiter.horizon] ([10 ^ 15] seconds) keep ages and resets away from [u64::MAX].

    SHA-256, hexadecimal and Ed25519 are class [ClusterKey.Crypto], and what is relied on of
    them [ClusterKey.CryptoLaws], which the instance [ClusterKey.Toy] satisfies; serde is an
    argument ([CommitRecord.Serde], and the codecs of [SpendLedger] and [ResponseCache]).

    ** Not modelled

    - Effects around the modelled decisions: HTTP servers and clients, TLS, child processes,
      the gateway's streaming, timers, reports.
    - GPU code and numerical kernels, WebAssembly and containers, the lock-free plane bus:
      numerical or memory-model code outside a functional model.
    - Of modelled files: the strict ledger reader, the signed ping messages and pairwise
      encryption of [cluster_key.rs], [collect_endorsements] of [commit_log.rs] (network),
      [url_stays_local], [egress_permitted] and the path confinement of [mac_policy.rs];
      symbolic links and failing disks in [writer_isolation.rs], the telemetry history of
      [task_manager.rs], spawning and killing processes in [cancel_propagate.rs], reading the
      host's figures in [capacity_admission.rs], the native coordinator's files in
      [workflow.rs], the production executor of [supervisor.rs], the redacted query of
      [audit_chain.rs], the tokenizer and the numerical kernels of the engines.
    - Command line, build and release tools, vendored wrappers, tests.
    - Of the cloud stores, their JSON files and the regions read from URLs; the redaction by
      configured patterns of [redact.rs]; what a worker's body does in
      [service_supervision.rs].
    - Of the keys, the catalogue of endpoints and its HTTP providers, the redaction of
      exported text, the table printed for the user.
    - The loop of [adapter.rs] around the ladder, the order of pages and the gate of the
      cluster's own catch-up in [amas.rs], compaction of the nonce ledger while other
      processes read it (modelled as an operation, outside the theorem on replays).
    - The context graph, the service table, the harness queue and its verification, untrusted
      content and mission resumption: they decide something, and would come next. *)

From Stdlib Require Ascii String.
From stdpp Require Export prelude gmap strings sorting list.

(** Shared conventions of the development.

    - [u64], [u32] and [usize] values are [N]; every operation that can leave
      the machine range is one of the functions of section [MachineInts], named
      after the Rust method it stands for.
    - Fallible code returns [result]; [let?] is the [?] operator.
    - A [BTreeMap<String, V>] is a [gmap string V]; where the code iterates, the
      traversal is [btree_entries], in key order. *)

Declare Scope susi_scope.
Delimit Scope susi_scope with susi.

Create HintDb susi.

(** ** Results *)

Inductive result (A E : Type) : Type :=
| Ok (a : A)
| Err (e : E).
Arguments Ok {A E} a.
Arguments Err {A E} e.

#[export] Instance result_eq_dec {A E} `{EqDecision A, EqDecision E} : EqDecision (result A E).
Proof. solve_decision. Defined.

Definition result_bind {A B E} (m : result A E) (k : A -> result B E) : result B E :=
  match m with
  | Ok a => k a
  | Err e => Err e
  end.

Notation "'let?' x ':=' m 'in' k" := (result_bind m (fun x => k))
  (at level 10, x pattern, m at level 100, k at level 200) : susi_scope.

Definition is_ok {A E} (m : result A E) : bool :=
  match m with Ok _ => true | Err _ => false end.

(** ** Machine integers *)

Section MachineInts.
Local Open Scope N_scope.

Definition u64_max : N := 18446744073709551615.
Definition u32_max : N := 4294967295.
Definition u128_max : N := 340282366920938463463374607431768211455.

(** [u64::saturating_add], [u64::saturating_mul]; [u64::saturating_sub] is
    the truncated subtraction of [N]. *)
Definition saturating_add (a b : N) : N := N.min (a + b) u64_max.
Definition saturating_mul (a b : N) : N := N.min (a * b) u64_max.
Definition saturating_add32 (a b : N) : N := N.min (a + b) u32_max.

(** [u64::checked_add], [u64::checked_sub], [u64::checked_mul]. *)
Definition checked_add (a b : N) : option N :=
  if a + b <=? u64_max then Some (a + b) else None.
Definition checked_sub (a b : N) : option N :=
  if b <=? a then Some (a - b) else None.
Definition checked_mul (a b : N) : option N :=
  if a * b <=? u64_max then Some (a * b) else None.
Definition checked_div (a b : N) : option N :=
  if b =? 0 then None else Some (a / b).

(** A release build compiles [a + b] on [u64] without overflow checks. *)
Definition wrapping_add (a b : N) : N := (a + b) mod 2 ^ 64.

Definition div_ceil (a b : N) : N := (a + (b - 1)) / b.

Lemma saturating_add_le a b : saturating_add a b <= u64_max.
Proof. unfold saturating_add. lia. Qed.

Lemma saturating_add_ge a b : a <= u64_max -> a <= saturating_add a b.
Proof. unfold saturating_add. lia. Qed.

Lemma saturating_add_exact a b : a + b <= u64_max -> saturating_add a b = a + b.
Proof. unfold saturating_add. lia. Qed.

Lemma saturating_add_mono a b c d :
  a <= c -> b <= d -> saturating_add a b <= saturating_add c d.
Proof. unfold saturating_add. lia. Qed.

Lemma checked_add_Some a b c : checked_add a b = Some c <-> c = a + b /\ a + b <= u64_max.
Proof. unfold checked_add. destruct (N.leb_spec (a + b) u64_max); intuition (congruence || lia). Qed.

Lemma checked_sub_Some a b c : checked_sub a b = Some c <-> c = a - b /\ b <= a.
Proof. unfold checked_sub. destruct (N.leb_spec b a); intuition (congruence || lia). Qed.

Lemma wrapping_add_exact a b : a + b <= u64_max -> wrapping_add a b = a + b.
Proof. unfold wrapping_add, u64_max. intros. apply N.mod_small. lia. Qed.

Lemma div_ceil_spec a b : 0 < b -> a <= b * div_ceil a b /\ b * div_ceil a b < a + b.
Proof.
  intros Hb. unfold div_ceil.
  pose proof (N.div_mod' (a + (b - 1)) b) as Hdm.
  pose proof (N.mod_lt (a + (b - 1)) b ltac:(lia)) as Hlt.
  set (q := (a + (b - 1)) / b) in *. set (r := (a + (b - 1)) mod b) in *.
  set (p := b * q) in *. clearbody p r. lia.
Qed.

Lemma div_ceil_mono a c b : 0 < b -> a <= c -> div_ceil a b <= div_ceil c b.
Proof. intros Hb Hac. unfold div_ceil. apply N.Div0.div_le_mono. lia. Qed.
End MachineInts.

#[export] Hint Resolve saturating_add_le saturating_add_ge : susi.

(** ** Tactics *)

(** Case on every boolean comparison of [N] or [nat] that a goal or hypothesis tests. *)
Ltac destruct_cmp :=
  repeat match goal with
  | |- context [N.leb ?a ?b] => destruct (N.leb_spec a b)
  | |- context [N.ltb ?a ?b] => destruct (N.ltb_spec a b)
  | |- context [N.eqb ?a ?b] => destruct (N.eqb_spec a b)
  | H : context [N.leb ?a ?b] |- _ => destruct (N.leb_spec a b)
  | H : context [N.ltb ?a ?b] |- _ => destruct (N.ltb_spec a b)
  | H : context [N.eqb ?a ?b] |- _ => destruct (N.eqb_spec a b)
  end.

(** Split the boolean connectives of the hypotheses and turn [bool_decide] into
    propositions. *)
Ltac bool_to_prop :=
  repeat match goal with
  | H : andb _ _ = true |- _ => apply andb_true_iff in H; destruct H
  | H : orb _ _ = false |- _ => apply orb_false_iff in H; destruct H
  | H : negb _ = true |- _ => apply negb_true_iff in H
  | H : negb _ = false |- _ => apply negb_false_iff in H
  | H : bool_decide _ = true |- _ => apply bool_decide_eq_true in H
  | H : bool_decide _ = false |- _ => apply bool_decide_eq_false in H
  end.

(** Break the first [match] or [if] met in hypothesis [H], keeping its equation. *)
Ltac break_in H :=
  match type of H with
  | context [match ?x with _ => _ end] =>
      lazymatch x with
      | context [match _ with _ => _ end] => fail
      | _ => let E := fresh "E" in destruct x eqn:E
      end
  end.

Ltac break_goal :=
  match goal with
  | |- context [match ?x with _ => _ end] =>
      lazymatch x with
      | context [match _ with _ => _ end] => fail
      | _ => let E := fresh "E" in destruct x eqn:E
      end
  end.

(** ** Text *)

(** The bytes of a literal: its scalar values when it is ASCII. *)
Definition bytes_of (s : string) : list N :=
  Stdlib.Strings.Ascii.N_of_ascii <$> Stdlib.Strings.String.list_ascii_of_string s.

(** ** Lists *)

Section Lists.
Context {A : Type}.
Implicit Types (l : list A) (f : A -> bool) (k : A -> N).

(** [iter().max_by_key]: the {e last} element of maximal key. *)
Fixpoint last_max_from (k : A -> N) (best : A) (l : list A) : A :=
  match l with
  | [] => best
  | x :: l' => if (k best <=? k x)%N then last_max_from k x l' else last_max_from k best l'
  end.
Definition last_max_by (k : A -> N) (l : list A) : option A :=
  match l with
  | [] => None
  | x :: l' => Some (last_max_from k x l')
  end.

Lemma last_max_from_spec k l best :
  In (last_max_from k best l) (best :: l) /\
  (forall y, In y (best :: l) -> (k y <= k (last_max_from k best l))%N).
Proof.
  revert best. induction l as [|x l IH]; intros best; simpl.
  - naive_solver lia.
  - destruct (N.leb_spec (k best) (k x)) as [Hle|Hlt].
    + destruct (IH x) as [Hin Hmax]. split; [destruct Hin; naive_solver|].
      pose proof (Hmax x (or_introl eq_refl)).
      intros y [->|[->|Hy]]; [lia|done|]. apply Hmax. by right.
    + destruct (IH best) as [Hin Hmax]. split; [destruct Hin; naive_solver|].
      pose proof (Hmax best (or_introl eq_refl)).
      intros y [->|[->|Hy]]; [done|lia|]. apply Hmax. by right.
Qed.

Lemma last_max_by_Some k l x :
  last_max_by k l = Some x -> In x l /\ (forall y, In y l -> (k y <= k x)%N).
Proof. destruct l as [|a l]; [done|]. intros [= <-]. apply last_max_from_spec. Qed.

Lemma last_max_by_None k l : last_max_by k l = None <-> l = [].
Proof. by destruct l. Qed.

Lemma last_max_from_snoc k l best x :
  last_max_from k best (l ++ [x]) =
  if (k (last_max_from k best l) <=? k x)%N then x else last_max_from k best l.
Proof. revert best. induction l as [|y l IH]; intros best; cbn [app last_max_from]; [done|]. by rewrite !IH; destruct (_ <=? _)%N. Qed.

(** A smaller last element is not the maximum. *)
Lemma last_max_by_snoc_smaller k l m x : last_max_by k l = Some m -> (k x < k m)%N ->
  last_max_by k (l ++ [x]) = Some m.
Proof.
  destruct l as [|a l]; [done|]. cbn [app last_max_by]. intros [= <-] Hlt.
  rewrite last_max_from_snoc. by rewrite (proj2 (N.leb_gt _ _)).
Qed.

(** [iter().map(k).max()]. *)
Definition max_key (k : A -> N) (l : list A) : option N := k <$> last_max_by k l.

Lemma max_key_Some k l m : max_key k l = Some m <->
  (exists x, In x l /\ k x = m) /\ (forall y, In y l -> (k y <= m)%N).
Proof.
  unfold max_key. destruct (last_max_by k l) as [x|] eqn:E; simpl.
  - apply last_max_by_Some in E as [Hin Hmax]. split; [intros [= <-]; eauto|].
    intros [(z & Hz & <-) Hall]. f_equal. specialize (Hmax z Hz). specialize (Hall x Hin). lia.
  - apply last_max_by_None in E as ->. split; [done|]. by intros [(x & [] & _) _].
Qed.

Lemma max_key_None k l : max_key k l = None <-> l = [].
Proof. unfold max_key. rewrite fmap_None. apply last_max_by_None. Qed.

(** The largest key depends on the elements alone. *)
Lemma max_key_elements k l l' : (forall x, In x l <-> In x l') -> max_key k l = max_key k l'.
Proof.
  intros H. destruct (max_key k l') as [m|] eqn:E.
  - apply max_key_Some. apply max_key_Some in E as [(x & Hx & Hm) Hall]. split.
    + exists x. by rewrite H.
    + intros y Hy. apply Hall. by apply H.
  - apply max_key_None in E as ->. apply max_key_None. destruct l as [|x l]; [done|].
    exfalso. apply (proj1 (H x)). by left.
Qed.

(** The largest key does not depend on the order. *)
Lemma max_key_perm k l l' : l ≡ₚ l' -> max_key k l = max_key k l'.
Proof.
  intros Hp. apply max_key_elements. intros x. split; apply Permutation_in; [done|by symmetry].
Qed.

(** [iter().find]: [List.find], with its two characterisations. *)
Lemma find_Some_In f l x : List.find f l = Some x -> In x l /\ f x = true.
Proof. apply List.find_some. Qed.

Lemma find_None_all f l : List.find f l = None <-> (forall x, In x l -> f x = false).
Proof.
  split; [intros H x; by apply (List.find_none _ _ H)|].
  induction l as [|a l IH]; intros H; [done|]. simpl.
  rewrite (H a (or_introl eq_refl)). apply IH. intros x Hx. apply H. by right.
Qed.

Lemma existsb_false f l : existsb f l = false <-> (forall x, In x l -> f x = false).
Proof.
  split.
  - intros H x Hx. destruct (f x) eqn:E; [|done].
    assert (existsb f l = true) by (apply existsb_exists; eauto). congruence.
  - intros H. destruct (existsb f l) eqn:E; [|done].
    apply existsb_exists in E as (x & Hx & Hf). rewrite H in Hf; done.
Qed.

Lemma filter_all f l : (forall x, In x l -> f x = true) -> List.filter f l = l.
Proof.
  induction l as [|a l IH]; intros H; [done|]. simpl.
  rewrite (H a (or_introl eq_refl)). f_equal. apply IH. intros x Hx. apply H. by right.
Qed.

Lemma filter_none f l : (forall x, In x l -> f x = false) -> List.filter f l = [].
Proof.
  induction l as [|a l IH]; intros H; [done|]. simpl.
  rewrite (H a (or_introl eq_refl)). apply IH. intros x Hx. apply H. by right.
Qed.
End Lists.

(** [l.retain(p)] is [List.filter p l]. *)

Lemma filter_every {A} (P : A -> Prop) `{forall x, Decision (P x)} (l : list A) :
  (forall x, x ∈ l -> P x) -> filter P l = l.
Proof.
  induction l as [|x l IH]; intros H1; [done|]. rewrite filter_cons_True by (apply H1; left).
  f_equal. apply IH. intros y Hy. apply H1. by right.
Qed.

Lemma NoDup_filter_fmap {A B} (f : A -> B) (p : A -> bool) l : NoDup (f <$> l) -> NoDup (f <$> List.filter p l).
Proof.
  induction l as [|a l IH]; intros H; [constructor|]. cbn [fmap list_fmap List.filter] in *.
  apply NoDup_cons in H as [Hni H]. destruct (p a); [|by apply IH].
  cbn [fmap list_fmap]. constructor; [|by apply IH]. intros Hin. apply Hni.
  apply list_elem_of_fmap in Hin as (x & -> & Hx). apply list_elem_of_fmap. exists x. split; [done|].
  apply list_elem_of_In. by apply list_elem_of_In, List.filter_In in Hx as [Hx _].
Qed.

Lemma strongly_sorted_filter {A} (R : A -> A -> Prop) (P : A -> Prop) `{forall x, Decision (P x)} (l : list A) :
  StronglySorted R l -> StronglySorted R (filter P l).
Proof.
  induction 1 as [|x l Hs IH Hall]; [constructor|]. destruct (decide (P x)).
  - rewrite filter_cons_True by done. constructor; [done|].
    rewrite Forall_forall in Hall |- *. intros y [_ Hy]%list_elem_of_filter. by apply Hall.
  - by rewrite filter_cons_False.
Qed.

(** ** Ordered maps *)

Section BTreeMap.
Context {V : Type}.
Implicit Types m : gmap string V.

Definition key_le (a b : string * V) : Prop := String.le a.1 b.1.
#[export] Instance key_le_dec : RelDecision key_le.
Proof. intros a b. unfold key_le. apply _. Defined.
#[export] Instance key_le_total : Total key_le.
Proof. intros [a ?] [b ?]. apply (total String.le). Qed.

(** The entries of a [BTreeMap] in iteration (key) order. *)
Definition btree_entries m : list (string * V) := merge_sort key_le (map_to_list m).
Definition btree_values m : list V := (btree_entries m).*2.

Lemma btree_entries_In m k v : In (k, v) (btree_entries m) <-> m !! k = Some v.
Proof.
  unfold btree_entries. rewrite <- list_elem_of_In, merge_sort_Permutation.
  apply elem_of_map_to_list.
Qed.

Lemma btree_values_In m v : In v (btree_values m) <-> exists k, m !! k = Some v.
Proof.
  unfold btree_values. rewrite <- list_elem_of_In, list_elem_of_fmap. split.
  - intros ([k w] & -> & Hin). exists k. apply btree_entries_In. by apply list_elem_of_In.
  - intros [k Hk]. exists (k, v). split; [done|]. by apply list_elem_of_In, btree_entries_In.
Qed.

Lemma btree_entries_NoDup m : NoDup (btree_entries m).*1.
Proof. unfold btree_entries. rewrite merge_sort_Permutation. apply NoDup_fst_map_to_list. Qed.
End BTreeMap.

Lemma nodup_keys_inj {V} (m : list (string * V)) x y : NoDup m.*1 -> x ∈ m -> y ∈ m -> x.1 = y.1 -> x = y.
Proof.
  destruct x as [k v], y as [k' w]. cbn. intros Hn Hx Hy ->.
  apply (elem_of_list_to_map_1 (M := gmap string)) in Hx, Hy; [|done..]. congruence.
Qed.

(** A filtered map is traversed like the map, less what the filter drops. *)
Lemma sorted_sublist {A} (R : A -> A -> Prop) l k : k `sublist_of` l -> StronglySorted R l -> StronglySorted R k.
Proof.
  induction 1 as [|x k l Hkl IH|x k l Hkl IH]; [done|intros [Hl Hx]%StronglySorted_inv..]; [|by apply IH].
  constructor; [by apply IH|]. rewrite Forall_forall in Hx |- *. intros y Hy. apply Hx. by eapply elem_of_submseteq, sublist_submseteq.
Qed.
Lemma sorted_list_filter {A} (R : A -> A -> Prop) (p : A -> bool) l : StronglySorted R l -> StronglySorted R (List.filter p l).
Proof.
  induction 1 as [|x l Hs IH Hall]; cbn; [constructor|]. destruct (p x); [|done]. constructor; [done|].
  rewrite Forall_forall in Hall |- *. intros y Hy%list_elem_of_In. apply List.filter_In in Hy as [Hy _]. by apply Hall, list_elem_of_In.
Qed.
Lemma NoDup_list_filter {A} (p : A -> bool) l : NoDup l -> NoDup (List.filter p l).
Proof.
  induction 1 as [|x l Hx Hn IH]; cbn; [constructor|]. destruct (p x); [|done]. constructor; [|done].
  intros H%list_elem_of_In. apply List.filter_In in H as [H _]. by apply Hx, list_elem_of_In.
Qed.
Lemma btree_entries_sorted {V} (m : gmap string V) : StronglySorted key_le (btree_entries m).
Proof. unfold btree_entries. apply StronglySorted_merge_sort; [|apply _]. intros x y z. unfold key_le. by transitivity (y.1). Qed.
Lemma btree_entries_filter {V} (q : V -> bool) (m : gmap string V) :
  List.filter (fun e => q e.2) (btree_entries m) = btree_entries (filter (fun '(_, v) => q v = true) m).
Proof.
  apply (StronglySorted_unique_strong key_le).
  - intros x y Hx Hy H1 H2. apply (nodup_keys_inj (btree_entries m)); [apply btree_entries_NoDup|..].
    + apply list_elem_of_In in Hx. apply List.filter_In in Hx as [Hx _]. by apply list_elem_of_In.
    + destruct y as [k v]. apply list_elem_of_In, btree_entries_In, map_lookup_filter_Some in Hy as [Hy _].
      by apply list_elem_of_In, btree_entries_In.
    + unfold key_le in *. by apply (anti_symm String.le).
  - apply sorted_list_filter, btree_entries_sorted.
  - apply btree_entries_sorted.
  - apply NoDup_Permutation.
    + apply NoDup_list_filter. apply (NoDup_fmap_1 fst), btree_entries_NoDup.
    + apply (NoDup_fmap_1 fst), btree_entries_NoDup.
    + intros [k v]. rewrite !list_elem_of_In, List.filter_In, !btree_entries_In, map_lookup_filter_Some. done.
Qed.
Lemma btree_values_filter {V} (q : V -> bool) (m : gmap string V) :
  List.filter q (btree_values m) = btree_values (filter (fun '(_, v) => q v = true) m).
Proof.
  unfold btree_values. rewrite <- btree_entries_filter. generalize (btree_entries m) as l.
  induction l as [|[k v] l IH]; [done|]. cbn. rewrite IH. by destruct (q v).
Qed.

(** ** Sums over an index range *)

Section RangeSums.
Local Open Scope N_scope.
Implicit Types (f g : nat -> N) (n : nat).

Fixpoint sumN f n : N :=
  match n with
  | O => 0
  | S k => sumN f k + f k
  end.

Lemma sumN_ext f g n : (forall i, (i < n)%nat -> f i = g i) -> sumN f n = sumN g n.
Proof.
  induction n as [|n IH]; intros H; [done|]. cbn [sumN].
  rewrite H by lia. f_equal. apply IH. intros i Hi. apply H. lia.
Qed.

Lemma sumN_le f g n : (forall i, (i < n)%nat -> f i <= g i) -> sumN f n <= sumN g n.
Proof.
  induction n as [|n IH]; intros H; [done|]. cbn [sumN].
  pose proof (H n ltac:(lia)). pose proof (IH ltac:(intros i Hi; apply H; lia)). lia.
Qed.

Lemma sumN_add f g n : sumN (fun i => f i + g i) n = sumN f n + sumN g n.
Proof. induction n as [|n IH]; cbn [sumN]; lia. Qed.

Lemma sumN_zero n : sumN (fun _ => 0) n = 0.
Proof. induction n as [|n IH]; cbn [sumN]; lia. Qed.

Lemma sumN_point f n i :
  (i < n)%nat -> sumN f n = f i + sumN (fun j => if bool_decide (j = i) then 0 else f j) n.
Proof.
  induction n as [|n IH]; intros Hi; [lia|]. cbn [sumN].
  destruct (decide (i = n)) as [->|Hne].
  - rewrite (bool_decide_true (n = n)) by done.
    rewrite (sumN_ext f (fun j => if bool_decide (j = n) then 0 else f j) n); [lia|].
    intros j Hj. rewrite bool_decide_false by lia. done.
  - rewrite (bool_decide_false (n = i)) by done. rewrite IH by lia. lia.
Qed.

(** Changing one term changes the sum by that term. *)
Lemma sumN_update f g n i : (i < n)%nat -> (forall j, j <> i -> f j = g j) ->
  sumN f n + g i = sumN g n + f i.
Proof.
  intros Hi Hext. rewrite (sumN_point f n i), (sumN_point g n i) by done.
  rewrite (sumN_ext (fun j => if bool_decide (j = i) then 0 else f j)
             (fun j => if bool_decide (j = i) then 0 else g j)); [lia|].
  intros j _. case_bool_decide; [done|]. by apply Hext.
Qed.

Lemma sumN_term f n i : (i < n)%nat -> f i <= sumN f n.
Proof. intros Hi. rewrite (sumN_point f n i) by done. lia. Qed.
End RangeSums.

(** [iter().sum::<u64>()], and the sum it stands for. *)
Definition sum_u64 (l : list N) : N := fold_left wrapping_add l 0%N.
Definition sum_of (l : list N) : N := foldr N.add 0%N l.

Lemma sum_u64_exact l : (sum_of l <= u64_max)%N -> sum_u64 l = sum_of l.
Proof.
  unfold sum_u64. intros H. rewrite <- (N.add_0_l (sum_of l)) in *.
  revert H. generalize 0%N. induction l as [|x l IH]; intros acc H; cbn [fold_left sum_of foldr] in *; [lia|].
  fold (sum_of l) in *. rewrite wrapping_add_exact by lia. rewrite IH by lia. lia.
Qed.

Lemma sum_of_app l l' : sum_of (l ++ l') = (sum_of l + sum_of l')%N.
Proof. unfold sum_of. induction l as [|x l IH]; cbn [foldr app]; [lia|]. rewrite IH. lia. Qed.
Lemma sum_of_perm l l' : l ≡ₚ l' -> sum_of l = sum_of l'.
Proof. induction 1; cbn [sum_of foldr]; unfold sum_of in *; lia. Qed.
Lemma sum_of_update {A} (f : A -> N) l i x y : l !! i = Some x -> (sum_of (f <$> <[i := y]> l) + f x = sum_of (f <$> l) + f y)%N.
Proof.
  revert i. induction l as [|z l IH]; intros [|i]; try done.
  - intros [= ->]. change (<[0%nat := y]> (x :: l)) with (y :: l). rewrite !fmap_cons. unfold sum_of. cbn [foldr]. lia.
  - intros H. specialize (IH i H). change (<[S i := y]> (z :: l)) with (z :: <[i := y]> l). rewrite !fmap_cons. unfold sum_of in *. cbn [foldr]. lia.
Qed.
Lemma sum_of_ge {A} (f : A -> N) l i x : l !! i = Some x -> (f x <= sum_of (f <$> l))%N.
Proof.
  revert i. unfold sum_of. induction l as [|y l IH]; intros [|i] H; try done; cbn in *; [injection H as ->; lia|]. specialize (IH i H). lia.
Qed.

(** A list has at least as many elements as its set. *)
Lemma size_list_to_set_le (l : list string) : size (list_to_set l : gset string) <= length l.
Proof.
  induction l as [|x l IH]; [done|]. rewrite list_to_set_cons. cbn [length].
  destruct (decide (x ∈ (list_to_set l : gset string))) as [Hx|Hx].
  - replace ({[x]} ∪ list_to_set l : gset string) with (list_to_set l : gset string) by set_solver. lia.
  - rewrite size_union, size_singleton by set_solver. lia.
Qed.

(** ** Stable sorting *)

(** [sort_by_key]: a stable sort by an integer key. *)
Section StableSort.
Context {A : Type} (key : A -> N).
Local Open Scope N_scope.

Fixpoint insert_by (x : A) (l : list A) : list A :=
  match l with
  | [] => [x]
  | y :: l' => if key x <=? key y then x :: l else y :: insert_by x l'
  end.
Definition sort_by_key (l : list A) : list A := foldr insert_by [] l.

Lemma insert_by_perm x l : insert_by x l ≡ₚ x :: l.
Proof.
  induction l as [|y l IH]; [done|]. cbn [insert_by]. destruct (_ <=? _); [done|].
  rewrite IH. apply perm_swap.
Qed.

Lemma sort_by_key_perm l : sort_by_key l ≡ₚ l.
Proof. induction l as [|x l IH]; [done|]. cbn [sort_by_key foldr]. by rewrite insert_by_perm, IH. Qed.

Lemma insert_by_sorted x l :
  StronglySorted (fun a b => key a <= key b) l ->
  StronglySorted (fun a b => key a <= key b) (insert_by x l).
Proof.
  induction 1 as [|y l Hs IH Hall]; cbn [insert_by]; [repeat constructor|].
  destruct (N.leb_spec (key x) (key y)) as [Hle|Hgt].
  - constructor; [by constructor|]. constructor; [done|].
    eapply Forall_impl; [exact Hall|]. simpl. intros. lia.
  - constructor; [done|]. rewrite insert_by_perm. constructor; [lia|done].
Qed.

Lemma sort_by_key_sorted l : StronglySorted (fun a b => key a <= key b) (sort_by_key l).
Proof. induction l as [|x l IH]; [constructor|]. by apply insert_by_sorted. Qed.

(** Within one key the order is kept. *)
Lemma insert_by_filter f x l :
  (forall y, f y = true -> f x = true -> key y = key x) ->
  List.filter f (insert_by x l) = List.filter f (x :: l).
Proof.
  intros Hf. induction l as [|y l IH]; [done|]. cbn [insert_by].
  destruct (N.leb_spec (key x) (key y)) as [Hle|Hgt]; [done|].
  cbn [List.filter] in *. rewrite IH. destruct (f y) eqn:Hy, (f x) eqn:Hx; try done.
  pose proof (Hf y Hy eq_refl). lia.
Qed.

Lemma sort_by_key_filter k l :
  List.filter (fun x => key x =? k) (sort_by_key l) = List.filter (fun x => key x =? k) l.
Proof.
  induction l as [|x l IH]; [done|]. cbn [sort_by_key foldr].
  rewrite insert_by_filter.
  - cbn [List.filter]. by rewrite <- IH.
  - intros y Hy Hx. apply N.eqb_eq in Hy, Hx. lia.
Qed.
End StableSort.

(** Replacing one position of a list, as multisets. *)
Lemma insert_rest {A} (l : list A) i p : l !! i = Some p ->
  exists rest, l ≡ₚ p :: rest /\ forall x, <[i := x]> l ≡ₚ x :: rest.
Proof.
  intros H. exists (take i l ++ drop (S i) l). split.
  - rewrite <- (take_drop_middle l i p H) at 1. by rewrite Permutation_middle.
  - intros x. rewrite insert_take_drop by (by eapply lookup_lt_Some). by rewrite Permutation_middle.
Qed.

Lemma bytes_of_app (a b : string) : bytes_of (a +:+ b)%string = bytes_of a ++ bytes_of b.
Proof.
  unfold bytes_of. rewrite <- fmap_app. f_equal.
  induction a as [|c a IH]; [done|]. simpl. by rewrite IH.
Qed.

Lemma bytes_of_inj (s t : string) : bytes_of s = bytes_of t -> s = t.
Proof.
  intros H. unfold bytes_of in H. apply (list_fmap_eq_inj _) in H.
  - apply (f_equal Stdlib.Strings.String.string_of_list_ascii) in H.
    by rewrite !Stdlib.Strings.String.string_of_list_ascii_of_string in H.
  - intros x y Hxy.
    rewrite <- (Stdlib.Strings.Ascii.ascii_N_embedding x), <- (Stdlib.Strings.Ascii.ascii_N_embedding y). by f_equal.
Qed.

(** A part free of the separator that follows it is determined, and the rest with it. *)
Lemma first_part_inj {A} (x : A) a b c d : x ∉ a -> x ∉ c -> a ++ x :: b = c ++ x :: d -> a = c /\ b = d.
Proof.
  revert c. induction a as [|y a IH]; intros [|z c] Ha Hc H; simplify_eq/=; [done|set_solver|set_solver|].
  destruct (IH c) as [-> ->]; [set_solver|set_solver|done|done].
Qed.

(** Texts with one separator before a part free of it: that part is determined. *)
Lemma last_part_inj {A} (x : A) l1 l2 d1 d2 :
  x ∉ d1 -> x ∉ d2 -> l1 ++ x :: d1 = l2 ++ x :: d2 -> d1 = d2.
Proof.
  revert l2. induction l1 as [|y l1 IH]; intros [|z l2] H1 H2 H; simplify_eq/=.
  - done.
  - exfalso. apply H1. set_solver.
  - exfalso. apply H2. set_solver.
  - by eapply IH.
Qed.

(** ** Loops *)

(** [while c { a = f(a) }] for up to [2 ^ n] rounds; it stops at the first state where the
    condition fails ([inr]), and [inl] is a loop that is still running. *)
Fixpoint while_pow {A} (n : nat) (c : A -> bool) (f : A -> A) (a : A) : A + A :=
  match n with
  | O => if c a then inl (f a) else inr a
  | S n' =>
      match while_pow n' c f a with
      | inr a => inr a
      | inl a => while_pow n' c f a
      end
  end.

Section Loops.
Context {A : Type} (c : A -> bool) (f : A -> A) (m : A -> N) (I : A -> Prop).
Hypothesis inv : forall a, I a -> c a = true -> I (f a).
Hypothesis decreases : forall a, I a -> c a = true -> (m (f a) < m a)%N.

(** Either the loop has stopped, or the measure fell by all its rounds. *)
Lemma while_pow_spec n a : I a ->
  match while_pow n c f a with
  | inr b => I b /\ c b = false
  | inl b => I b /\ (m b + 2 ^ N.of_nat n <= m a)%N
  end.
Proof.
  revert a. induction n as [|n IH]; intros a Ha; cbn [while_pow].
  - destruct (c a) eqn:E; [|done]. split; [by apply inv|]. specialize (decreases a Ha E). simpl. lia.
  - specialize (IH a Ha) as H1. destruct (while_pow n c f a) as [b|b]; [|done]. destruct H1 as [Hb Hm].
    specialize (IH b Hb). destruct (while_pow n c f b) as [d|d]; [|done]. destruct IH as [Hd Hm'].
    split; [done|]. rewrite Nat2N.inj_succ, N.pow_succ_r'. lia.
Qed.

(** A loop whose measure fits the rounds stops. *)
Lemma while_pow_stops n a : I a -> (m a < 2 ^ N.of_nat n)%N ->
  exists b, while_pow n c f a = inr b /\ I b /\ c b = false.
Proof.
  intros Ha Hm. pose proof (while_pow_spec n a Ha) as H. destruct (while_pow n c f a) as [b|b].
  - lia.
  - by exists b.
Qed.
End Loops.
