(* ===== verification/Text.v ===== *)
(** * Text: the [str] methods the code uses, on UTF-8 bytes

    A [&str] is a Rocq [string], read as its UTF-8 bytes.  [str::trim] strips the
    encodings of the Unicode [White_Space] characters; the search and ASCII methods act
    on bytes, as they do on UTF-8. *)

From S2P Require Import Prelude.
From Stdlib Require Import Ascii String.
Local Open Scope string_scope.

Definition byte (n : nat) : ascii := ascii_of_nat n.

Fixpoint string_of_bytes (l : list nat) : string :=
  match l with
  | [] => EmptyString
  | b :: l' => String (byte b) (string_of_bytes l')
  end.

(** [str::strip_prefix]. *)
Fixpoint strip_prefix (p s : string) : option string :=
  match p, s with
  | EmptyString, _ => Some s
  | String a p', String b s' => if Ascii.eqb a b then strip_prefix p' s' else None
  | String _ _, EmptyString => None
  end.

Definition starts_with (p s : string) : bool :=
  match strip_prefix p s with Some _ => true | None => false end.

(** [str::contains]. *)
Fixpoint contains (needle s : string) : bool :=
  starts_with needle s ||
  match s with
  | EmptyString => false
  | String _ s' => contains needle s'
  end.

Definition rev_string (s : string) : string :=
  string_of_list_ascii (rev (list_ascii_of_string s)).

Definition strip_suffix (p s : string) : option string :=
  rev_string <$> strip_prefix (rev_string p) (rev_string s).

(** The encodings of [White_Space]. *)
Definition white_space : list string :=
  string_of_bytes <$>
  ([[9]; [10]; [11]; [12]; [13]; [32]; [194; 133]; [194; 160]; [225; 154; 128]] ++
   ((fun b => [226; 128; b]) <$> [128; 129; 130; 131; 132; 133; 134; 135; 136; 137; 138; 168; 169; 175]) ++
   [[226; 129; 159]; [227; 128; 128]])%list.

Fixpoint strip_any (ps : list string) (s : string) : option string :=
  match ps with
  | [] => None
  | p :: ps' => match strip_prefix p s with Some s' => Some s' | None => strip_any ps' s end
  end.

Fixpoint strip_all (fuel : nat) (ps : list string) (s : string) : string :=
  match fuel with
  | O => s
  | S f => match strip_any ps s with Some s' => strip_all f ps s' | None => s end
  end.

(** [str::trim]; a string has at most as many characters as bytes. *)
Definition trim_start (s : string) : string := strip_all (String.length s) white_space s.
Definition trim_end (s : string) : string :=
  rev_string (strip_all (String.length s) (rev_string <$> white_space) (rev_string s)).
Definition trim (s : string) : string := trim_end (trim_start s).

(** ** ASCII *)

Definition blank : ascii := " ".

Definition is_between (lo hi c : ascii) : bool :=
  (nat_of_ascii lo <=? nat_of_ascii c)%nat && (nat_of_ascii c <=? nat_of_ascii hi)%nat.
Definition is_upper : ascii -> bool := is_between "A" "Z".
Definition is_lower : ascii -> bool := is_between "a" "z".
Definition is_digit : ascii -> bool := is_between "0" "9".
Definition is_ascii_alphanumeric (c : ascii) : bool := is_upper c || is_lower c || is_digit c.

Definition lower (c : ascii) : ascii :=
  if is_upper c then ascii_of_nat (nat_of_ascii c + 32) else c.

Fixpoint map_string (f : ascii -> ascii) (s : string) : string :=
  match s with
  | EmptyString => EmptyString
  | String c s' => String (f c) (map_string f s')
  end.
Definition to_ascii_lowercase : string -> string := map_string lower.

(** [split_whitespace] of text whose only white space is the blank. *)
Fixpoint words_from (cur : string) (s : string) : list string :=
  match s with
  | EmptyString => match cur with EmptyString => [] | _ => [rev_string cur] end
  | String c s' =>
      if Ascii.eqb c " " then
        match cur with
        | EmptyString => words_from EmptyString s'
        | _ => rev_string cur :: words_from EmptyString s'
        end
      else words_from (String c cur) s'
  end.
Definition split_blanks (s : string) : list string := words_from EmptyString s.

(** [chars().take(n)] of ASCII text. *)
Definition take_chars (n : nat) (s : string) : string := substring 0 n s.

Example trim_example : trim (String (byte 194) (String (byte 160) " susi/x  ")) = "susi/x".
Proof. reflexivity. Qed.
Example words_example : String.concat " " (split_blanks "  a  bc d ") = "a bc d".
Proof. reflexivity. Qed.

(** ** File names *)

(** [plane_bus_ipc::enc]: a byte that may stand in a file name, or its percent code. *)
Definition hex_digit (n : N) : ascii :=
  if (n <? 10)%N then ascii_of_N (48 + n) else ascii_of_N (55 + n).
Definition plain_byte (c : ascii) : bool :=
  is_ascii_alphanumeric c || Ascii.eqb c "-" || Ascii.eqb c "_" || Ascii.eqb c ".".
Definition percent (c : ascii) : string :=
  String "%" (String (hex_digit (N_of_ascii c / 16)) (String (hex_digit (N_of_ascii c mod 16)) EmptyString)).
Fixpoint enc (key : string) : string :=
  match key with
  | EmptyString => EmptyString
  | String c k => if plain_byte c then String c (enc k) else (percent c ++ enc k)%string
  end.

(** [enc] tells every two keys apart. *)
Lemma hex_digit_inj n m : (n < 16)%N -> (m < 16)%N -> hex_digit n = hex_digit m -> n = m.
Proof.
  intros Hn Hm H. apply (f_equal N_of_ascii) in H. unfold hex_digit in H.
  destruct (N.ltb_spec n 10), (N.ltb_spec m 10); rewrite !N_ascii_embedding in H by lia; lia.
Qed.

Lemma hex_pair_inj c d :
  hex_digit (N_of_ascii c / 16) = hex_digit (N_of_ascii d / 16) ->
  hex_digit (N_of_ascii c mod 16) = hex_digit (N_of_ascii d mod 16) -> c = d.
Proof.
  intros H1 H2. pose proof (N_ascii_bounded c) as Hc. pose proof (N_ascii_bounded d) as Hd.
  apply hex_digit_inj in H1; [|apply N.Div0.div_lt_upper_bound; lia..].
  apply hex_digit_inj in H2; [|by apply N.mod_lt..].
  rewrite <- (ascii_N_embedding c), <- (ascii_N_embedding d). f_equal.
  rewrite (N.div_mod' (N_of_ascii c) 16), (N.div_mod' (N_of_ascii d) 16). lia.
Qed.

Lemma enc_inj a b : enc a = enc b -> a = b.
Proof.
  revert b. induction a as [|c a IH]; intros [|d b]; cbn [enc].
  - done.
  - by destruct (plain_byte d).
  - by destruct (plain_byte c).
  - destruct (plain_byte c) eqn:Hc, (plain_byte d) eqn:Hd; cbn; intros H.
    + injection H as -> H. f_equal. by apply IH.
    + injection H as -> H. done.
    + injection H as <- H. done.
    + injection H as H1 H2 H. f_equal; [by apply hex_pair_inj|by apply IH].
Qed.

(** ** Pieces of text *)

Lemma strip_prefix_Some p s rest : strip_prefix p s = Some rest <-> s = p +:+ rest.
Proof.
  revert s. induction p as [|a p IH]; intros s.
  - split; [by intros [= ->]|by intros ->].
  - destruct s as [|b s]; [done|]. cbn. destruct (Ascii.eqb_spec a b) as [->|Hne].
    + rewrite IH. split; [by intros ->|by intros [= ->]].
    + split; [done|]. intros [= ?]. congruence.
Qed.

Lemma starts_with_iff p s : starts_with p s = true <-> exists rest, s = p +:+ rest.
Proof.
  unfold starts_with. destruct (strip_prefix p s) as [rest|] eqn:E.
  - apply strip_prefix_Some in E. naive_solver.
  - split; [done|]. intros [rest H]. apply strip_prefix_Some in H. congruence.
Qed.

Lemma append_cons c s t : String c s +:+ t = String c (s +:+ t).
Proof. done. Qed.

Lemma append_nil_r s : s +:+ EmptyString = s.
Proof. induction s as [|c s IH]; [done|]. by rewrite append_cons, IH. Qed.

Lemma append_assoc a b c : (a +:+ b) +:+ c = a +:+ (b +:+ c).
Proof. induction a as [|x a IH]; [done|]. by rewrite !append_cons, IH. Qed.

Lemma append_inj_l a b c : a +:+ b = a +:+ c -> b = c.
Proof. induction a as [|x a IH]; [done|]. rewrite !append_cons. intros [= H]. by apply IH. Qed.

Lemma rev_string_app a b : rev_string (a +:+ b) = rev_string b +:+ rev_string a.
Proof.
  assert (Hof : forall l l', string_of_list_ascii (l ++ l')%list = string_of_list_ascii l +:+ string_of_list_ascii l').
  { induction l as [|c l IH]; intros l'; [done|].
    change (String c (string_of_list_ascii (l ++ l')%list) = String c (string_of_list_ascii l +:+ string_of_list_ascii l')).
    f_equal. apply IH. }
  assert (Hto : list_ascii_of_string (a +:+ b) = (list_ascii_of_string a ++ list_ascii_of_string b)%list).
  { induction a as [|c a IH]; [done|]. rewrite append_cons. cbn. f_equal. apply IH. }
  unfold rev_string. by rewrite Hto, rev_app_distr, Hof.
Qed.

Lemma rev_string_rev s : rev_string (rev_string s) = s.
Proof.
  unfold rev_string. rewrite list_ascii_of_string_of_list_ascii, rev_involutive.
  apply string_of_list_ascii_of_string.
Qed.

Lemma strip_suffix_Some p s r : strip_suffix p s = Some r -> s = r +:+ p.
Proof.
  unfold strip_suffix. intros H. apply fmap_Some in H as (x & H & ->). apply strip_prefix_Some in H.
  apply (f_equal rev_string) in H. by rewrite rev_string_app, !rev_string_rev in H.
Qed.

(** ** Paths *)

(** The components of a path, at every slash. *)
Definition slash : ascii := "/"%char.
Definition backslash : ascii := "\"%char.
Definition colon : ascii := ":"%char.
Definition dot : ascii := "."%char.
(** [str::replace('\\', "/")]. *)
Definition replace_backslashes : string -> string := map_string (fun c => if Ascii.eqb c backslash then slash else c).
Fixpoint components (s : string) : list string :=
  match s with
  | EmptyString => [EmptyString]
  | String c s' =>
      if Ascii.eqb c slash then EmptyString :: components s'
      else match components s' with
           | x :: xs => String c x :: xs
           | [] => [String c EmptyString]
           end
  end.
Fixpoint join (l : list string) : string :=
  match l with
  | [] => EmptyString
  | [x] => x
  | x :: l' => x +:+ String slash (join l')
  end.

Lemma components_nonempty s : components s <> [].
Proof.
  induction s as [|c s IH]; [done|]. simpl.
  destruct (Ascii.eqb c slash); [done|]. by destruct (components s).
Qed.

Lemma join_components s : join (components s) = s.
Proof.
  induction s as [|c s IH]; [done|]. cbn [components].
  pose proof (components_nonempty s) as Hne.
  destruct (Ascii.eqb_spec c slash) as [->|_], (components s) as [|x [|y l]]; try done;
    cbn [join] in *; rewrite <- IH; done.
Qed.

Lemma components_slash g r : components (g +:+ String slash r) = (components g ++ components r)%list.
Proof.
  induction g as [|c g IH]; [done|]. rewrite append_cons. cbn [components]. rewrite IH.
  destruct (Ascii.eqb c slash); [done|].
  destruct (components g) eqn:E; [by apply components_nonempty in E|]. done.
Qed.

Lemma join_app l1 l2 : l1 <> [] -> l2 <> [] -> join (l1 ++ l2)%list = join l1 +:+ String slash (join l2).
Proof.
  intros H1 H2. induction l1 as [|x [|y l1] IH]; [done| |].
  - simpl. by destruct l2.
  - change (x +:+ String slash (join ((y :: l1) ++ l2)) = (x +:+ String slash (join (y :: l1))) +:+ String slash (join l2)).
    rewrite IH by done. by rewrite append_assoc.
Qed.

(** Whether [r] is [g] or lies below it. *)
Definition under (g r : string) : bool :=
  if bool_decide (g = r) then true
  else match strip_prefix g r with Some rest => starts_with "/" rest | None => false end.

(** A path lies below another exactly when its components start with the other's: a sibling
    whose name merely extends it does not. *)
Lemma under_components g r : under g r = true <-> components g `prefix_of` components r.
Proof.
  unfold under. case_bool_decide as Heq.
  - subst. naive_solver.
  - destruct (strip_prefix g r) as [rest|] eqn:E; [|split; [done|]].
    + apply strip_prefix_Some in E as ->. rewrite starts_with_iff. split.
      * intros [tail ->]. exists (components tail). apply components_slash.
      * intros [l Hl]. destruct l as [|x l].
        { rewrite app_nil_r in Hl. apply (f_equal join) in Hl. rewrite !join_components in Hl. done. }
        apply (f_equal join) in Hl.
        rewrite join_app, !join_components in Hl by (done || apply components_nonempty).
        apply append_inj_l in Hl as ->. by exists (join (x :: l)).
    + intros [l Hl]. apply (f_equal join) in Hl. destruct l as [|x l].
      { rewrite app_nil_r, !join_components in Hl. done. }
      rewrite join_app, !join_components in Hl by (done || apply components_nonempty).
      apply strip_prefix_Some in Hl. congruence.
Qed.

(** A path joined from parts without slashes has those components. *)
Definition no_slash (s : string) : Prop := components s = [s].
Lemma components_join l : l <> [] -> Forall no_slash l -> components (join l) = l.
Proof.
  intros Hne Hl. induction Hl as [|x l Hx Hl IH]; [done|]. destruct l as [|y l]; [exact Hx|].
  change (components (x +:+ String slash (join (y :: l))) = x :: y :: l). by rewrite components_slash, Hx, IH.
Qed.

Lemma components_no_slash s p : In p (components s) -> no_slash p.
Proof.
  unfold no_slash. revert p. induction s as [|c s IH]; intros p; cbn [components].
  - by intros [<-|[]].
  - destruct (Ascii.eqb c slash) eqn:E.
    + intros [<-|Hin]; [done|by apply IH].
    + pose proof (components_nonempty s). destruct (components s) as [|x xs]; [done|].
      intros [<-|Hin]; [|apply IH; by right]. cbn [components]. rewrite E. by rewrite (IH x) by (by left).
Qed.

(** ** Trimming *)

(** The white space (or another set of encodings) stripped at the front. *)
Definition stripped (ps : list string) (s : string) : string := strip_all (String.length s) ps s.
Definition rev_white_space : list string := rev_string <$> white_space.

Fixpoint all_chars (p : ascii -> bool) (s : string) : bool :=
  match s with EmptyString => true | String c s' => p c && all_chars p s' end.
Definition not_char (c a : ascii) : bool := negb (Ascii.eqb a c).

Lemma length_append (a b : string) : String.length (a +:+ b) = (String.length a + String.length b)%nat.
Proof. induction a as [|c a IH]; [done|]. rewrite append_cons. cbn. by rewrite IH. Qed.
Lemma all_chars_app p a b : all_chars p (a +:+ b) = all_chars p a && all_chars p b.
Proof. induction a as [|c a IH]; [done|]. rewrite append_cons. cbn. by rewrite IH, andb_assoc. Qed.
Lemma all_chars_rev p s : all_chars p (rev_string s) = all_chars p s.
Proof.
  assert (H : forall l, all_chars p (string_of_list_ascii l) = forallb p l) by (induction l as [|c l IH]; cbn; congruence).
  unfold rev_string. rewrite H. transitivity (forallb p (list_ascii_of_string s)).
  - induction (list_ascii_of_string s) as [|c l IH]; cbn; [done|]. rewrite forallb_app, IH. cbn. rewrite andb_true_r. apply andb_comm.
  - clear H. induction s as [|c s IH]; cbn; congruence.
Qed.
Lemma all_chars_impl (p q : ascii -> bool) s : (forall c, p c = true -> q c = true) -> all_chars p s = true -> all_chars q s = true.
Proof. intros H. induction s as [|c s IH]; cbn; [done|]. intros [Hc Hs]%andb_true_iff. by rewrite H, IH. Qed.

Section Strip.
Context (ps : list string) (Hne : Forall (fun p => p <> EmptyString) ps).

Lemma strip_prefix_shorter p s r : p <> EmptyString -> strip_prefix p s = Some r -> (String.length r < String.length s)%nat.
Proof. intros Hp ->%strip_prefix_Some. rewrite length_append. destruct p; [done|]. cbn. lia. Qed.

Lemma strip_any_Some s r : strip_any ps s = Some r -> (String.length r < String.length s)%nat /\ exists p, s = p +:+ r.
Proof.
  clear -Hne. induction ps as [|p l IH]; cbn; [done|]. apply Forall_cons in Hne as [Hp Hl]. destruct (strip_prefix p s) eqn:E.
  - intros [= <-]. split; [by apply (strip_prefix_shorter p)|]. exists p. by apply strip_prefix_Some.
  - by apply IH.
Qed.

Lemma strip_any_empty : strip_any ps EmptyString = None.
Proof. destruct (strip_any ps EmptyString) eqn:E; [|done]. apply strip_any_Some in E as [? _]. cbn in *. lia. Qed.
Lemma strip_all_empty n : strip_all n ps EmptyString = EmptyString.
Proof. destruct n; cbn; [done|]. by rewrite strip_any_empty. Qed.
Lemma strip_all_fuel n m s : (String.length s <= n)%nat -> (String.length s <= m)%nat -> strip_all n ps s = strip_all m ps s.
Proof.
  revert m s. induction n as [|n IH]; intros m s Hn Hm; [destruct s; [by rewrite !strip_all_empty|cbn in Hn; lia]|].
  destruct m as [|m]; [destruct s; [by rewrite !strip_all_empty|cbn in Hm; lia]|]. cbn.
  destruct (strip_any ps s) as [r|] eqn:E; [|done]. apply strip_any_Some in E as [Hr _]. apply IH; lia.
Qed.

Lemma stripped_unfold s : stripped ps s = match strip_any ps s with Some r => stripped ps r | None => s end.
Proof.
  unfold stripped at 1. rewrite (strip_all_fuel _ (S (String.length s))) by lia. cbn.
  destruct (strip_any ps s) as [r|] eqn:E; [|done]. apply strip_any_Some in E as [Hr _]. apply strip_all_fuel; lia.
Qed.

Lemma stripped_ind (P : string -> Prop) :
  (forall s, strip_any ps s = None -> P s) -> (forall s r, strip_any ps s = Some r -> P r -> P s) -> forall s, P s.
Proof.
  intros H1 H2 s. remember (String.length s) as n eqn:E. revert s E. induction n as [n IH] using lt_wf_ind. intros s ->.
  destruct (strip_any ps s) as [r|] eqn:E; [|by apply H1]. apply (H2 s r E). apply strip_any_Some in E as [Hr _]. by apply (IH _ Hr).
Qed.

Lemma stripped_end s : strip_any ps (stripped ps s) = None.
Proof. induction s as [s E|s r E IH] using stripped_ind; rewrite (stripped_unfold s), E; [by rewrite E|done]. Qed.
Lemma stripped_id s : strip_any ps s = None -> stripped ps s = s.
Proof. intros E. by rewrite stripped_unfold, E. Qed.
Lemma stripped_idem s : stripped ps (stripped ps s) = stripped ps s.
Proof. apply stripped_id, stripped_end. Qed.
Lemma stripped_suffix s : exists x, s = x +:+ stripped ps s.
Proof.
  induction s as [s E|s r E [x Hx]] using stripped_ind; rewrite (stripped_unfold s), E; [by exists EmptyString|].
  apply strip_any_Some in E as [_ [p ->]]. exists (p +:+ x). by rewrite append_assoc, <- Hx.
Qed.
Lemma stripped_all_chars p s : all_chars p s = true -> all_chars p (stripped ps s) = true.
Proof. destruct (stripped_suffix s) as [x Hx]. rewrite Hx at 1. rewrite all_chars_app. by intros [_ ?]%andb_true_iff. Qed.

(** A character that is in no encoding, or is one, separates what is stripped. *)
Definition separates (c : ascii) : Prop := Forall (fun p => String.length p = 1%nat \/ all_chars (not_char c) p = true) ps.

Lemma strip_prefix_before p s c t : (String.length p = 1%nat /\ s <> EmptyString) \/ all_chars (not_char c) p = true ->
  strip_prefix p (s +:+ String c t) = (fun r => r +:+ String c t) <$> strip_prefix p s.
Proof.
  intros [[Hp Hs]|Hp].
  - destruct p as [|a [|]]; [done| |done]. destruct s as [|b s]; [done|]. rewrite append_cons. cbn. by destruct (Ascii.eqb a b).
  - revert s Hp. induction p as [|a p IH]; intros s; cbn; [done|]. intros [Ha Hp]%andb_true_iff.
    destruct s as [|b s]; [change (EmptyString +:+ String c t) with (String c t); cbn; apply negb_true_iff in Ha; by rewrite Ha|rewrite append_cons; cbn]. destruct (Ascii.eqb a b); [by apply IH|done].
Qed.

Lemma strip_any_before s c t : separates c -> s <> EmptyString ->
  strip_any ps (s +:+ String c t) = (fun r => r +:+ String c t) <$> strip_any ps s.
Proof.
  unfold separates. clear Hne. intros Hc Hs. induction ps as [|p l IH]; cbn; [done|]. apply Forall_cons in Hc as [Hp Hl].
  rewrite strip_prefix_before by naive_solver. destruct (strip_prefix p s); [done|]. by apply IH.
Qed.

Lemma stripped_before s c t : separates c ->
  stripped ps (s +:+ String c t) = match stripped ps s with EmptyString => stripped ps (String c t) | r => r +:+ String c t end.
Proof.
  intros Hc. induction s as [s E|s r E IH] using stripped_ind.
  - rewrite (stripped_id s) by done. destruct s as [|b s]; [done|]. rewrite stripped_id; [done|]. rewrite strip_any_before by done. by rewrite E.
  - rewrite (stripped_unfold (s +:+ _)), (stripped_unfold s), strip_any_before, E; [exact IH|done|].
    intros ->. apply strip_any_Some in E as [? _]. cbn in *. lia.
Qed.
End Strip.

Lemma white_space_nonempty : Forall (fun p => p <> EmptyString) white_space.
Proof. unfold white_space. repeat (apply Forall_cons; split; [done|]). by apply Forall_nil. Qed.
Lemma rev_white_space_nonempty : Forall (fun p => p <> EmptyString) rev_white_space.
Proof. unfold rev_white_space, white_space. cbn. repeat (apply Forall_cons; split; [done|]). by apply Forall_nil. Qed.
#[global] Hint Resolve white_space_nonempty rev_white_space_nonempty : susi.

Lemma trim_start_stripped s : trim_start s = stripped white_space s.
Proof. done. Qed.
Lemma length_rev_string s : String.length (rev_string s) = String.length s.
Proof.
  unfold rev_string. assert (H : forall l, String.length (string_of_list_ascii l) = List.length l) by (induction l; cbn; congruence).
  rewrite H, length_rev. clear H. induction s; cbn; congruence.
Qed.
Lemma trim_end_stripped s : trim_end s = rev_string (stripped rev_white_space (rev_string s)).
Proof. unfold trim_end, stripped, rev_white_space. by rewrite length_rev_string. Qed.

(** The equals sign is never white space, nor part of an encoding of one. *)
Definition equals : ascii := "="%char.
Definition LF : ascii := byte 10.
Definition CR : ascii := byte 13.
Lemma separates_ws c : c = equals \/ c = CR -> separates white_space c /\ separates rev_white_space c.
Proof.
  intros Hc. unfold separates. rewrite !Forall_forall.
  assert (H : forallb (fun p => (String.length p =? 1)%nat || all_chars (not_char c) p) white_space = true /\
    forallb (fun p => (String.length p =? 1)%nat || all_chars (not_char c) p) rev_white_space = true) by (destruct Hc as [->| ->]; by vm_compute).
  destruct H as [H1 H2]. rewrite forallb_forall in H1, H2.
  split; intros p Hp%list_elem_of_In; [apply H1 in Hp|apply H2 in Hp]; apply orb_true_iff in Hp as [Hp|Hp]; [left; by apply Nat.eqb_eq|by right|left; by apply Nat.eqb_eq|by right].
Qed.
Lemma equals_kept s : strip_any white_space (String equals s) = None /\ strip_any rev_white_space (String equals s) = None.
Proof. split; reflexivity. Qed.

Lemma trim_start_equals a b : trim_start (a +:+ String equals b) = trim_start a +:+ String equals b.
Proof.
  change trim_start with (stripped white_space); rewrite stripped_before by first [by auto with susi|apply separates_ws; by left].
  destruct (stripped white_space a); [|done]. by apply stripped_id; auto with susi.
Qed.
Lemma trim_end_equals a b : trim_end (a +:+ String equals b) = a +:+ String equals (trim_end b).
Proof.
  rewrite !trim_end_stripped, rev_string_app. change (rev_string (String equals b)) with (rev_string (String equals EmptyString +:+ b)).
  rewrite rev_string_app, append_assoc. change (rev_string (String equals EmptyString) +:+ rev_string a) with (String equals (rev_string a)).
  rewrite stripped_before by first [by auto with susi|apply separates_ws; by left].
  assert (H : stripped rev_white_space (String equals (rev_string a)) = String equals (rev_string a)) by (apply stripped_id; by auto with susi).
  destruct (stripped rev_white_space (rev_string b)) eqn:E; [rewrite H|]; rewrite ?append_cons;
    change (String equals (rev_string a)) with (rev_string (String equals EmptyString) +:+ rev_string a);
    [|rewrite <- append_cons]; rewrite !rev_string_app, !rev_string_rev, ?append_assoc; done.
Qed.
Lemma trim_equals a b : trim (a +:+ String equals b) = trim_start a +:+ String equals (trim_end b).
Proof. unfold trim. by rewrite trim_start_equals, trim_end_equals. Qed.

Lemma trim_start_idem s : trim_start (trim_start s) = trim_start s.
Proof. rewrite !trim_start_stripped. apply stripped_idem. auto with susi. Qed.
Lemma trim_end_idem s : trim_end (trim_end s) = trim_end s.
Proof. rewrite !trim_end_stripped, rev_string_rev, stripped_idem by auto with susi. done. Qed.

(** A carriage return at the end is trimmed like the rest. *)
Lemma trim_CR s : trim (s +:+ String CR EmptyString) = trim s.
Proof.
  assert (H : forall x, trim_end (x +:+ String CR EmptyString) = trim_end x).
  { intros x. rewrite !trim_end_stripped, rev_string_app. cbn [rev_string]. change (rev_string (String CR EmptyString) +:+ rev_string x) with (String CR (rev_string x)).
    rewrite stripped_unfold by auto with susi. reflexivity. }
  unfold trim; change trim_start with (stripped white_space); rewrite stripped_before by first [by auto with susi|apply separates_ws; by right].
  destruct (stripped white_space s) eqn:E; [reflexivity|]. by rewrite H.
Qed.

Lemma trim_all_chars p s : all_chars p s = true -> all_chars p (trim s) = true.
Proof.
  intros H. unfold trim. rewrite trim_end_stripped, all_chars_rev. apply stripped_all_chars; auto with susi. rewrite all_chars_rev.
  apply stripped_all_chars; auto with susi.
Qed.
