(* ===== verification/Wire.v ===== *)
(** * Wire: the IPC framing of the cells ([crates/susi-abi/src/wire.rs])

    A frame is a 12-byte header (magic, version, message type, QoS flags and
    payload length, both big-endian) followed by the payload.  [WireFrame.encode] and
    [WireFrame.decode] are the two directions of the format; [FrameStream] is
    the incremental decoder a connection feeds with whatever the transport
    delivers.  Bytes are [N] below 256, [Vec<u8>] is [list N]. *)

From S2P Require Import Prelude.

Local Open Scope N_scope.

(** ** Big-endian machine words *)

Definition byte_ok (b : N) : Prop := b < 256.
Definition bytes_ok (bs : list N) : Prop := Forall byte_ok bs.

Definition u16_to_be_bytes (w : N) : list N := [N.shiftr w 8 `mod` 256; w `mod` 256].
Definition u16_from_be_bytes (b0 b1 : N) : N := N.shiftl b0 8 + b1.

Definition u32_to_be_bytes (w : N) : list N :=
  [N.shiftr w 24 `mod` 256; N.shiftr w 16 `mod` 256; N.shiftr w 8 `mod` 256; w `mod` 256].
Definition u32_from_be_bytes (b0 b1 b2 b3 : N) : N :=
  N.shiftl b0 24 + N.shiftl b1 16 + N.shiftl b2 8 + b3.

Ltac shifts_to_arith :=
  rewrite ?N.shiftr_div_pow2, ?N.shiftl_mul_pow2;
  change (2 ^ 8) with 256; change (2 ^ 16) with 65536; change (2 ^ 24) with 16777216.

(** Division and remainder by a constant, as linear facts. *)
Ltac divmod_facts :=
  repeat match goal with
  | |- context [?a / ?b] =>
      let q := fresh "q" in let r := fresh "r" in
      pose proof (N.div_mod' a b); pose proof (N.mod_lt a b ltac:(lia));
      set (q := a / b) in *; set (r := a `mod` b) in *; clearbody q r
  | |- context [?a `mod` ?b] =>
      let q := fresh "q" in let r := fresh "r" in
      pose proof (N.div_mod' a b); pose proof (N.mod_lt a b ltac:(lia));
      set (r := a `mod` b) in *; set (q := a / b) in *; clearbody q r
  end.

Lemma u16_roundtrip w : w < 65536 ->
  match u16_to_be_bytes w with
  | [b0; b1] => u16_from_be_bytes b0 b1 = w
  | _ => False
  end.
Proof. intros Hw. unfold u16_to_be_bytes, u16_from_be_bytes. shifts_to_arith. divmod_facts. lia. Qed.

Lemma u16_from_to b0 b1 : byte_ok b0 -> byte_ok b1 ->
  u16_to_be_bytes (u16_from_be_bytes b0 b1) = [b0; b1].
Proof.
  unfold byte_ok, u16_to_be_bytes, u16_from_be_bytes. shifts_to_arith. intros H0 H1.
  f_equal; [|f_equal]; divmod_facts; lia.
Qed.

Lemma u32_roundtrip w : w < 4294967296 ->
  match u32_to_be_bytes w with
  | [b0; b1; b2; b3] => u32_from_be_bytes b0 b1 b2 b3 = w
  | _ => False
  end.
Proof. intros Hw. unfold u32_to_be_bytes, u32_from_be_bytes. shifts_to_arith. divmod_facts. lia. Qed.

Lemma u32_from_to b0 b1 b2 b3 : byte_ok b0 -> byte_ok b1 -> byte_ok b2 -> byte_ok b3 ->
  u32_to_be_bytes (u32_from_be_bytes b0 b1 b2 b3) = [b0; b1; b2; b3].
Proof.
  unfold byte_ok, u32_to_be_bytes, u32_from_be_bytes. shifts_to_arith. intros H0 H1 H2 H3.
  f_equal; [|f_equal; [|f_equal; [|f_equal]]]; divmod_facts; lia.
Qed.

(** ** Constants and data *)

Definition SUSI_WIRE_MAGIC : list N := [83; 85; 83; 73].
Definition SUSI_WIRE_VERSION : N := 2.
Definition MAX_WIRE_PAYLOAD_BYTES : N := 32 * 1024 * 1024.
Definition HEADER_SIZE : N := 12.

Inductive WireError : Type :=
| IncompleteHeader
| InvalidMagic (m : list N)
| UnsupportedVersion (v : N)
| UnknownMessageType (t : N)
| PayloadTooLarge (n : N)
| IncompletePayload (expected available : N)
| Serialization (msg : string).

Inductive MessageType : Type :=
| SyscallRequest | SyscallResponse | SwarmPheromone | Heartbeat | RawBytes
| TaskNegotiation | EventLog.

#[export] Instance MessageType_eq_dec : EqDecision MessageType.
Proof. solve_decision. Defined.

(** [msg_type as u8], the [repr(u8)] discriminant. *)
Definition message_type_to_u8 (t : MessageType) : N :=
  match t with
  | SyscallRequest => 1 | SyscallResponse => 2 | SwarmPheromone => 3 | Heartbeat => 4
  | RawBytes => 5 | TaskNegotiation => 6 | EventLog => 7
  end.

Definition from_u8 (val : N) : option MessageType :=
  match val with
  | 1 => Some SyscallRequest
  | 2 => Some SyscallResponse
  | 3 => Some SwarmPheromone
  | 4 => Some Heartbeat
  | 5 => Some RawBytes
  | 6 => Some TaskNegotiation
  | 7 => Some EventLog
  | _ => None
  end.

Lemma from_to_u8 t : from_u8 (message_type_to_u8 t) = Some t.
Proof. by destruct t. Qed.

Lemma from_u8_Some v t : from_u8 v = Some t -> message_type_to_u8 t = v.
Proof. destruct v as [|[[[]|[]|]|[[]|[]|]|]]; simpl; intros [= <-]; reflexivity. Qed.

(** ** Quality-of-service flags *)

Module QosFlags.
Definition BEST_EFFORT : N := 0.
Definition CRITICAL : N := 31.
Definition with_priority (priority : N) : N := N.land priority 7.
Definition priority (q : N) : N := N.land q 7.
Definition is_reliable (q : N) : bool := negb (N.land q 8 =? 0).
Definition is_ordered (q : N) : bool := negb (N.land q 16 =? 0).
Definition is_idempotent (q : N) : bool := negb (N.land q 32 =? 0).
Definition set_reliable (q : N) : N := N.lor q 8.
Definition set_ordered (q : N) : N := N.lor q 16.
Definition set_idempotent (q : N) : N := N.lor q 32.
Definition to_bytes (q : N) : list N := u16_to_be_bytes q.
Definition from_bytes (b0 b1 : N) : N := u16_from_be_bytes b0 b1.

(** A single-bit mask test is [N.testbit]. *)
Lemma mask_testbit q n : negb (N.land q (2 ^ n) =? 0) = N.testbit q n.
Proof.
  destruct (N.testbit q n) eqn:E.
  - apply negb_true_iff, N.eqb_neq. intros H0.
    apply (f_equal (fun x => N.testbit x n)) in H0.
    rewrite N.land_spec, E, N.pow2_bits_true, N.bits_0 in H0. done.
  - apply negb_false_iff, N.eqb_eq, N.bits_inj. intros i.
    rewrite N.land_spec, N.bits_0, N.pow2_bits_eqb.
    destruct (N.eqb_spec n i) as [->|]; [by rewrite E|by rewrite andb_false_r].
Qed.

Lemma set_testbit q n i : N.testbit (N.lor q (2 ^ n)) i = N.testbit q i || (n =? i).
Proof. by rewrite N.lor_spec, N.pow2_bits_eqb. Qed.

Lemma priority_lor_high q n : 3 <= n -> priority (N.lor q (2 ^ n)) = priority q.
Proof.
  intros Hn. unfold priority. apply N.bits_inj. intros i. change 7 with (N.ones 3).
  rewrite !N.land_spec, set_testbit.
  destruct (N.lt_ge_cases i 3).
  - destruct (N.eqb_spec n i); [lia|]. by rewrite orb_false_r.
  - rewrite N.ones_spec_high by lia. by rewrite !andb_false_r.
Qed.
End QosFlags.

(** ** Frames *)

Record WireFrame : Type := mkWireFrame {
  version : N;
  msg_type : MessageType;
  qos : N;
  payload : list N;
}.

#[export] Instance WireFrame_eq_dec : EqDecision WireFrame.
Proof. solve_decision. Defined.

Definition new (t : MessageType) (p : list N) : WireFrame :=
  mkWireFrame SUSI_WIRE_VERSION t QosFlags.BEST_EFFORT p.
Definition with_qos (t : MessageType) (q : N) (p : list N) : WireFrame :=
  mkWireFrame SUSI_WIRE_VERSION t q p.

Definition len (bs : list N) : N := N.of_nat (length bs).

(** [WireFrame::encode].  The [u32::try_from] that follows the bound check has
    its own error branch; [encode_u32_branch_dead] shows it is never taken. *)
Definition encode (f : WireFrame) : result (list N) WireError :=
  if MAX_WIRE_PAYLOAD_BYTES <? len (payload f) then Err (PayloadTooLarge (len (payload f)))
  else if u32_max <? len (payload f) then Err (PayloadTooLarge (len (payload f)))
  else Ok (SUSI_WIRE_MAGIC ++ [version f] ++ [message_type_to_u8 (msg_type f)]
             ++ QosFlags.to_bytes (qos f) ++ u32_to_be_bytes (len (payload f)) ++ payload f).

(** [buf[i]]; only used where the length check has put [i] in range. *)
Definition at_ (buf : list N) (i : nat) : N := nth i buf 0.

Definition decode (buf : list N) : result (WireFrame * N) WireError :=
  if len buf <? HEADER_SIZE then Err IncompleteHeader
  else
    let magic := [at_ buf 0; at_ buf 1; at_ buf 2; at_ buf 3] in
    if negb (bool_decide (magic = SUSI_WIRE_MAGIC)) then Err (InvalidMagic magic)
    else
      let v := at_ buf 4 in
      if negb (v =? SUSI_WIRE_VERSION) then Err (UnsupportedVersion v)
      else
        match from_u8 (at_ buf 5) with
        | None => Err (UnknownMessageType (at_ buf 5))
        | Some t =>
            let q := QosFlags.from_bytes (at_ buf 6) (at_ buf 7) in
            let payload_len :=
              u32_from_be_bytes (at_ buf 8) (at_ buf 9) (at_ buf 10) (at_ buf 11) in
            if MAX_WIRE_PAYLOAD_BYTES <? payload_len then Err (PayloadTooLarge payload_len)
            else
              let total_frame_len := HEADER_SIZE + payload_len in
              if len buf <? total_frame_len
              then Err (IncompletePayload payload_len (len buf - HEADER_SIZE))
              else
                let p := take (N.to_nat payload_len) (drop (N.to_nat HEADER_SIZE) buf) in
                Ok (mkWireFrame v t q p, total_frame_len)
        end.

(** ** Incremental decoding *)

Record FrameStream : Type := mkFrameStream { buf : list N }.

Definition stream_new : FrameStream := mkFrameStream [].
Definition push (s : FrameStream) (bytes : list N) : FrameStream :=
  mkFrameStream (buf s ++ bytes).
Definition buffered (s : FrameStream) : N := len (buf s).

Definition next_frame (s : FrameStream) : result (option WireFrame) WireError * FrameStream :=
  match decode (buf s) with
  | Ok (frame, used) => (Ok (Some frame), mkFrameStream (drop (N.to_nat used) (buf s)))
  | Err (IncompleteHeader | IncompletePayload _ _) => (Ok None, s)
  | Err e => (Err e, s)
  end.

(** The caller's loop: take frames until more bytes are needed. *)
Fixpoint drain (fuel : nat) (s : FrameStream) : result (list WireFrame) WireError * FrameStream :=
  match fuel with
  | O => (Ok [], s)
  | S fuel' =>
      match next_frame s with
      | (Ok None, s') => (Ok [], s')
      | (Ok (Some f), s') =>
          match drain fuel' s' with
          | (Ok fs, s'') => (Ok (f :: fs), s'')
          | (Err e, s'') => (Err e, s'')
          end
      | (Err e, s') => (Err e, s')
      end
  end.

(** A frame takes at least [HEADER_SIZE] bytes, so the buffer's length is fuel
    enough ([drain_complete]). *)
Definition drain_all (s : FrameStream) : result (list WireFrame) WireError * FrameStream :=
  drain (S (length (buf s))) s.

(** Feed the chunks one by one, draining after each, as a reader does. *)
Fixpoint feed (s : FrameStream) (chunks : list (list N))
  : result (list WireFrame) WireError * FrameStream :=
  match chunks with
  | [] => (Ok [], s)
  | c :: cs =>
      match drain_all (push s c) with
      | (Err e, s') => (Err e, s')
      | (Ok fs, s') =>
          match feed s' cs with
          | (Ok fs', s'') => (Ok (fs ++ fs'), s'')
          | (Err e, s'') => (Err e, s'')
          end
      end
  end.

(** ** Facts about one frame *)

(** A frame the current protocol version can carry. *)
Record frame_ok (f : WireFrame) : Prop := {
  frame_version : version f = SUSI_WIRE_VERSION;
  frame_qos : qos f < 65536;
  frame_len : len (payload f) <= MAX_WIRE_PAYLOAD_BYTES;
}.

Definition header (f : WireFrame) : list N :=
  SUSI_WIRE_MAGIC ++ [version f] ++ [message_type_to_u8 (msg_type f)]
    ++ QosFlags.to_bytes (qos f) ++ u32_to_be_bytes (len (payload f)).

(** The bytes of a frame, as [encode] emits them when the payload fits. *)
Definition frame_bytes (f : WireFrame) : list N := header f ++ payload f.

#[local] Arguments header : simpl never.
#[local] Arguments frame_bytes : simpl never.

Lemma header_length f : length (header f) = 12%nat.
Proof. done. Qed.

Lemma encode_fits f :
  len (payload f) <= MAX_WIRE_PAYLOAD_BYTES -> encode f = Ok (frame_bytes f).
Proof.
  intros Hle. unfold encode, frame_bytes, header, MAX_WIRE_PAYLOAD_BYTES, u32_max in *.
  by destruct_cmp; try lia.
Qed.

Lemma encode_u32_branch_dead f :
  len (payload f) <= MAX_WIRE_PAYLOAD_BYTES -> (u32_max <? len (payload f)) = false.
Proof. unfold MAX_WIRE_PAYLOAD_BYTES, u32_max. intros. apply N.ltb_ge. lia. Qed.

Lemma header_at f rest :
  let b := header f ++ rest in
  [at_ b 0; at_ b 1; at_ b 2; at_ b 3] = SUSI_WIRE_MAGIC /\
  at_ b 4 = version f /\ at_ b 5 = message_type_to_u8 (msg_type f) /\
  QosFlags.from_bytes (at_ b 6) (at_ b 7) = u16_from_be_bytes (N.shiftr (qos f) 8 `mod` 256) (qos f `mod` 256) /\
  u32_from_be_bytes (at_ b 8) (at_ b 9) (at_ b 10) (at_ b 11) =
    u32_from_be_bytes (N.shiftr (len (payload f)) 24 `mod` 256)
      (N.shiftr (len (payload f)) 16 `mod` 256) (N.shiftr (len (payload f)) 8 `mod` 256)
      (len (payload f) `mod` 256).
Proof. done. Qed.

(** [decode] on a buffer that starts with the header of [f]. *)
Lemma decode_header f rest : frame_ok f ->
  decode (header f ++ rest) =
    if len rest <? len (payload f)
    then Err (IncompletePayload (len (payload f)) (len rest))
    else Ok (mkWireFrame (version f) (msg_type f) (qos f)
               (take (length (payload f)) rest), HEADER_SIZE + len (payload f)).
Proof.
  intros [Hv Hq Hl]. unfold decode.
  destruct (header_at f rest) as (Hm & H4 & H5 & H67 & Hlen).
  assert (Hlb : len (header f ++ rest) = HEADER_SIZE + len rest).
  { unfold len, HEADER_SIZE. rewrite length_app, header_length. lia. }
  rewrite Hm, H4, H5, from_to_u8, H67, Hlen, Hv, Hlb, (u16_roundtrip (qos f) Hq).
  pose proof (u32_roundtrip (len (payload f))) as Hr. unfold u32_to_be_bytes in Hr.
  unfold MAX_WIRE_PAYLOAD_BYTES in *. rewrite Hr by lia. clear Hr.
  rewrite bool_decide_true by done. simpl negb. cbv iota.
  unfold HEADER_SIZE in *. destruct_cmp; try lia; simpl.
  - do 2 f_equal. lia.
  - do 3 f_equal. unfold len. by rewrite Nat2N.id.
Qed.

Lemma decode_frame_app f rest : frame_ok f ->
  decode (frame_bytes f ++ rest) = Ok (f, len (frame_bytes f)).
Proof.
  intros Hf. unfold frame_bytes. rewrite <- app_assoc, decode_header by done.
  unfold len. rewrite !length_app, header_length. destruct_cmp; try lia.
  rewrite take_app_length. destruct f; do 3 f_equal. unfold HEADER_SIZE. simpl. lia.
Qed.

Definition incomplete {A} (r : result A WireError) : Prop :=
  r = Err IncompleteHeader \/ exists e a, r = Err (IncompletePayload e a).

(** Every strict prefix of a frame asks for more bytes. *)
Lemma decode_strict_prefix f p q : frame_ok f ->
  p ++ q = frame_bytes f -> q <> [] -> incomplete (decode p).
Proof.
  intros Hf Heq Hq.
  destruct (decide (length p < 12)%nat) as [Hlt|Hge].
  - left. unfold decode. destruct (N.ltb_spec (len p) HEADER_SIZE) as [|H]; [done|].
    unfold len, HEADER_SIZE in H. lia.
  - right. assert (Hp : p = header f ++ drop 12 p).
    { rewrite <- (take_drop 12 p) at 1. f_equal.
      apply (f_equal (take 12)) in Heq. unfold frame_bytes in Heq.
      rewrite take_app_le in Heq by lia.
      by rewrite Heq, <- (header_length f), take_app_length. }
    rewrite Hp, decode_header by done.
    assert (len (drop 12 p) < len (payload f)).
    { apply (f_equal length) in Heq. unfold frame_bytes in Heq.
      rewrite !length_app, header_length in Heq. destruct q; [done|]. simpl in Heq.
      unfold len. rewrite length_drop. lia. }
    destruct_cmp; [eauto|lia].
Qed.

Lemma decode_consumes b f used : decode b = Ok (f, used) -> 12 <= used <= len b.
Proof.
  unfold decode, HEADER_SIZE. intros H. repeat break_in H; try discriminate.
  injection H as <- <-. destruct_cmp; try discriminate. lia.
Qed.

(** ** Facts about the stream *)

Lemma next_frame_incomplete s : incomplete (decode (buf s)) -> next_frame s = (Ok None, s).
Proof. unfold next_frame. by intros [->|(? & ? & ->)]. Qed.

Lemma next_frame_frame f rest : frame_ok f ->
  next_frame (mkFrameStream (frame_bytes f ++ rest)) = (Ok (Some f), mkFrameStream rest).
Proof.
  intros Hf. unfold next_frame. cbn [buf]. rewrite decode_frame_app by done.
  unfold len. rewrite Nat2N.id. by rewrite drop_app_length.
Qed.

Lemma frame_bytes_length f : (12 <= length (frame_bytes f))%nat.
Proof. unfold frame_bytes. rewrite length_app, header_length. lia. Qed.

Definition wire (fs : list WireFrame) : list N := concat (frame_bytes <$> fs).

(** A buffer that is a prefix of a well-formed wire holds some complete frames
    and then a strict prefix of the next one. *)
Lemma prefix_split fs p q : p ++ q = wire fs ->
  exists done todo tail, fs = done ++ todo /\ p = wire done ++ tail /\ tail ++ q = wire todo /\
    (todo = [] -> tail = []) /\
    (forall f fs', todo = f :: fs' -> exists u, tail ++ u = frame_bytes f /\ u <> []).
Proof.
  revert p. induction fs as [|f fs IH]; intros p Hpq.
  - apply app_nil in Hpq as [-> ->]. exists [], [], []. by repeat split.
  - change (wire (f :: fs)) with (frame_bytes f ++ wire fs) in Hpq.
    destruct (decide (length (frame_bytes f) <= length p)%nat) as [Hle|Hlt].
    + assert (Hp : p = frame_bytes f ++ drop (length (frame_bytes f)) p).
      { rewrite <- (take_drop (length (frame_bytes f)) p) at 1. f_equal.
        apply (f_equal (take (length (frame_bytes f)))) in Hpq.
        by rewrite take_app_le, take_app_length in Hpq. }
      destruct (IH (drop (length (frame_bytes f)) p)) as (dn & td & tl & -> & Hd & Ht & Hnil & Hcons).
      { rewrite Hp, <- app_assoc in Hpq. by apply app_inv_head in Hpq. }
      exists (f :: dn), td, tl. split; [done|]. split; [|done].
      rewrite Hp, Hd. change (wire (f :: dn)) with (frame_bytes f ++ wire dn).
      by rewrite <- app_assoc.
    + exists [], (f :: fs), p. split; [done|]. split; [done|]. split; [done|]. split; [done|].
      intros f' fs' [= <- <-]. exists (drop (length p) (frame_bytes f)).
      apply (f_equal (take (length (frame_bytes f)))) in Hpq as Htk.
      rewrite take_app_length in Htk.
      rewrite take_app_ge in Htk by lia. split.
      * rewrite <- Htk at 1. rewrite drop_app_length. done.
      * intros Hd. apply (f_equal length) in Hd. rewrite length_drop in Hd.
        change (length (@nil N)) with 0%nat in Hd. lia.
Qed.

(** Draining a buffer [wire done ++ tail], [tail] a strict prefix of a frame. *)
Lemma drain_wire fs fuel tail :
  Forall frame_ok fs -> incomplete (decode tail) ->
  (length fs < fuel)%nat ->
  drain fuel (mkFrameStream (wire fs ++ tail)) = (Ok fs, mkFrameStream tail).
Proof.
  revert fuel. induction fs as [|f fs IH]; intros fuel Hok Htail Hfuel;
    destruct fuel as [|fuel]; simpl in Hfuel; try lia.
  - cbn [drain]. by rewrite next_frame_incomplete.
  - apply Forall_cons in Hok as [Hf Hfs].
    change (wire (f :: fs)) with (frame_bytes f ++ wire fs). rewrite <- app_assoc.
    cbn [drain]. rewrite next_frame_frame by done. rewrite IH by (done || lia). done.
Qed.

Lemma wire_length fs : (12 * length fs <= length (wire fs))%nat.
Proof.
  induction fs as [|f fs IH]; [done|].
  change (wire (f :: fs)) with (frame_bytes f ++ wire fs).
  rewrite length_app. pose proof (frame_bytes_length f). simpl. lia.
Qed.

Lemma drain_all_prefix fs p q : Forall frame_ok fs -> p ++ q = wire fs ->
  exists done todo tail, fs = done ++ todo /\ tail ++ q = wire todo /\
    (q = [] -> todo = [] /\ tail = []) /\
    drain_all (mkFrameStream p) = (Ok done, mkFrameStream tail).
Proof.
  intros Hok Hpq. destruct (prefix_split fs p q Hpq) as (dn & td & tl & -> & -> & Ht & Hnil & Hcons).
  exists dn, td, tl. split; [done|]. split; [done|].
  assert (Hend : q = [] -> td = [] /\ tl = []).
  { intros ->. destruct td as [|f td]; [by rewrite Hnil|].
    destruct (Hcons f td eq_refl) as (u & Hu & Hne).
    change (wire (f :: td)) with (frame_bytes f ++ wire td) in Ht.
    apply (f_equal length) in Ht, Hu. rewrite !length_app in *. simpl in Ht.
    destruct u; [done|]. simpl in Hu. lia. }
  split; [done|].
  apply Forall_app in Hok as [Hdn Htd]. unfold drain_all. simpl buf.
  apply drain_wire; [done| |].
  - destruct td as [|f td]; [rewrite Hnil by done; by left|].
    destruct (Hcons f td eq_refl) as (u & Hu & Hne). apply Forall_cons in Htd as [Hf _].
    by apply (decode_strict_prefix f tl u).
  - pose proof (wire_length dn). rewrite length_app. lia.
Qed.

Lemma feed_wire chunks tail fs : Forall frame_ok fs -> chunks <> [] ->
  tail ++ concat chunks = wire fs ->
  feed (mkFrameStream tail) chunks = (Ok fs, stream_new).
Proof.
  revert tail fs. induction chunks as [|c cs IH]; intros tail fs Hok Hne Hw; [done|].
  simpl in Hw. rewrite app_assoc in Hw. simpl. unfold push. simpl buf.
  destruct (drain_all_prefix fs (tail ++ c) (concat cs) Hok Hw) as (dn & td & tl & -> & Ht & Hend & ->).
  apply Forall_app in Hok as [_ Htd]. destruct cs as [|c' cs].
  - destruct (Hend eq_refl) as [-> ->]. simpl. by rewrite !app_nil_r.
  - by rewrite (IH tl td).
Qed.

(** ** The claims *)

(** C23. Encoding then decoding is the identity: for every well-formed frame the
    encoder accepts, decoding its bytes followed by anything returns that frame and
    consumes exactly its bytes. *)
Theorem decode_encode_roundtrip f bs rest :
  frame_ok f -> encode f = Ok bs -> decode (bs ++ rest) = Ok (f, len bs).
Proof.
  intros Hf. rewrite encode_fits by apply Hf. intros [= <-]. by apply decode_frame_app.
Qed.

Definition example_frame : WireFrame := with_qos Heartbeat QosFlags.CRITICAL [1; 2; 255].

Lemma example_frame_ok : frame_ok example_frame.
Proof. split; vm_compute; done. Qed.

Lemma decode_encode_roundtrip_witness :
  decode ([83; 85; 83; 73; 2; 4; 0; 31; 0; 0; 0; 3; 1; 2; 255] ++ [9]) = Ok (example_frame, 15).
Proof. apply (decode_encode_roundtrip example_frame); [apply example_frame_ok|reflexivity]. Defined.

(** The format is canonical: whatever [decode] accepts from a buffer of bytes is
    a well-formed frame, and re-encoding it gives back exactly the bytes consumed. *)
Theorem decode_canonical b f used :
  bytes_ok b -> decode b = Ok (f, used) ->
  frame_ok f /\ encode f = Ok (take (N.to_nat used) b).
Proof.
  intros Hb H. pose proof (decode_consumes b f used H) as Hused.
  do 12 (destruct b as [|? b]; [unfold len in Hused; simpl in Hused; lia|]).
  rename b into body. unfold bytes_ok in Hb. rewrite !Forall_cons in Hb.
  destruct Hb as (B0 & B1 & B2 & B3 & B4 & B5 & B6 & B7 & B8 & B9 & B10 & B11 & Hbody).
  unfold decode, at_ in H. cbn [nth] in H.
  destruct (_ <? HEADER_SIZE); [done|].
  destruct (bool_decide _) eqn:Em in H; [|done]. bool_to_prop.
  destruct (N.eqb_spec n3 SUSI_WIRE_VERSION) as [->|]; [|done]. simpl negb in H. cbv iota in H.
  destruct (from_u8 n4) as [t|] eqn:Et; [|done]. apply from_u8_Some in Et.
  set (L := u32_from_be_bytes n7 n8 n9 n10) in *.
  destruct (N.ltb_spec MAX_WIRE_PAYLOAD_BYTES L) as [|HL]; [done|].
  destruct (N.ltb_spec (len (n :: n0 :: n1 :: n2 :: SUSI_WIRE_VERSION :: n4 :: n5 :: n6 :: n7 :: n8 :: n9 :: n10 :: body)) (HEADER_SIZE + L)) as [|Hfit]; [done|].
  injection H as <- <-.
  assert (Hp : len (take (N.to_nat L) body) = L).
  { unfold len, HEADER_SIZE in *. simpl in Hfit. rewrite length_take. lia. }
  assert (Hok : frame_ok (mkWireFrame SUSI_WIRE_VERSION t (QosFlags.from_bytes n5 n6)
                 (take (N.to_nat L) body))).
  { split; simpl; [done| |lia]. unfold QosFlags.from_bytes, u16_from_be_bytes, byte_ok in *.
    shifts_to_arith. lia. }
  simpl. split; [exact Hok|]. rewrite encode_fits by apply Hok. f_equal.
  replace (N.to_nat (HEADER_SIZE + L)) with (12 + N.to_nat L)%nat by (unfold HEADER_SIZE; lia).
  unfold frame_bytes, header, QosFlags.to_bytes, QosFlags.from_bytes.
  cbn [version msg_type qos payload]. rewrite drop_0, Hp, u16_from_to, Et by done.
  unfold L. rewrite u32_from_to by done.
  unfold SUSI_WIRE_MAGIC in Em. injection Em as -> -> -> ->. done.
Qed.

Lemma decode_canonical_witness :
  frame_ok example_frame /\
  encode example_frame = Ok [83; 85; 83; 73; 2; 4; 0; 31; 0; 0; 0; 3; 1; 2; 255].
Proof.
  apply (decode_canonical [83; 85; 83; 73; 2; 4; 0; 31; 0; 0; 0; 3; 1; 2; 255; 7] example_frame 15).
  - repeat constructor.
  - reflexivity.
Defined.

(** Decoding does not depend on how the transport cuts the bytes: feeding the
    bytes of any sequence of well-formed frames in any chunks yields exactly those
    frames, in order, and leaves the stream empty. *)
Theorem feed_chunking fs chunks :
  Forall frame_ok fs -> concat chunks = wire fs ->
  feed stream_new chunks = (Ok fs, stream_new).
Proof.
  intros Hok Hw. destruct chunks as [|c cs].
  - destruct fs as [|f fs]; [done|]. apply (f_equal length) in Hw.
    change (wire (f :: fs)) with (frame_bytes f ++ wire fs) in Hw.
    rewrite length_app in Hw. pose proof (frame_bytes_length f). simpl in Hw. lia.
  - by apply (feed_wire (c :: cs) [] fs).
Qed.

Definition example_stream : list WireFrame := [example_frame; new RawBytes []].

Lemma feed_chunking_witness :
  feed stream_new [[83; 85; 83]; [73; 2; 4; 0; 31; 0; 0; 0; 3; 1; 2; 255; 83; 85];
                   [83; 73; 2; 5; 0; 0; 0; 0; 0; 0]]
    = (Ok example_stream, stream_new).
Proof.
  apply (feed_chunking example_stream).
  - repeat constructor; vm_compute; done.
  - reflexivity.
Defined.
