(* ===== verification/Money.v ===== *)
(** * Money: integer amounts and prices
    ([crates/susi-harness/src/money.rs], [pricing.rs])

    [MicroUsd] is a [u64] count of micro-dollars, [ModelPrice.cost] the ledger's
    arithmetic over it.  A Rust [&str] is the list of its Unicode scalar values, so
    [trim], [split_once] and [chars] act on characters as they do in the code. *)

From S2P Require Import Prelude.

Local Open Scope N_scope.

(** ** Text *)

Definition rstr : Type := list N.

(** The scalar values of an ASCII literal. *)
Definition rs (s : string) : rstr := bytes_of s.

(** [char::is_whitespace]: the Unicode [White_Space] property. *)
Definition is_whitespace (c : N) : bool :=
  ((9 <=? c) && (c <=? 13)) || (c =? 32) || (c =? 133) || (c =? 160) || (c =? 5760)
  || ((8192 <=? c) && (c <=? 8202)) || (c =? 8232) || (c =? 8233) || (c =? 8239)
  || (c =? 8287) || (c =? 12288).

Fixpoint trim_start (s : rstr) : rstr :=
  match s with
  | [] => []
  | c :: s' => if is_whitespace c then trim_start s' else s
  end.
Definition trim (s : rstr) : rstr := rev (trim_start (rev (trim_start s))).

Fixpoint split_once (sep : N) (s : rstr) : option (rstr * rstr) :=
  match s with
  | [] => None
  | c :: s' =>
      if c =? sep then Some ([], s')
      else match split_once sep s' with
           | Some (a, b) => Some (c :: a, b)
           | None => None
           end
  end.

Definition is_ascii_digit (c : N) : bool := (48 <=? c) && (c <=? 57).

(** [str::parse::<u64>] on a string of ASCII digits: every step is checked. *)
Fixpoint parse_digits (acc : N) (s : rstr) : option N :=
  match s with
  | [] => Some acc
  | c :: s' =>
      match checked_mul acc 10 with
      | None => None
      | Some t => match checked_add t (c - 48) with
                  | None => None
                  | Some acc' => parse_digits acc' s'
                  end
      end
  end.

(** Decimal digits of a [u64]; 20 digits are enough for [u64::MAX]. *)
Fixpoint digits_from (fuel : nat) (n : N) (acc : rstr) : rstr :=
  match fuel with
  | O => acc
  | S fuel' =>
      if n <? 10 then (48 + n) :: acc
      else digits_from fuel' (n / 10) ((48 + n `mod` 10) :: acc)
  end.
Definition display_u64 (n : N) : rstr := digits_from 20 n [].

(** The [{:06}] format. *)
Definition display_pad6 (n : N) : rstr :=
  repeat 48 (6 - length (display_u64 n)) ++ display_u64 n.

(** ** [MicroUsd] *)

Module MicroUsd.
Definition ZERO : N := 0.
Definition is_zero (m : N) : bool := m =? 0.
Definition min (a b : N) : N := if a <? b then a else b.

(** [MicroUsd::parse_usd]. *)
Definition parse_usd (text0 : rstr) : option N :=
  let text := trim text0 in
  let '(dollars, cents) :=
    match split_once 46 text with
    | Some p => p
    | None => (text, [])
    end in
  if match dollars, cents with [], [] => true | _, _ => false end then None
  else if negb (forallb is_ascii_digit dollars) || negb (forallb is_ascii_digit cents)
            || (6 <? N.of_nat (length cents)) then None
  else
    match (match dollars with [] => Some 0 | _ => parse_digits 0 dollars end) with
    | None => None
    | Some d =>
        match parse_digits 0 (cents ++ repeat 48 (6 - length cents)) with
        | None => None
        | Some c =>
            match checked_mul d 1000000 with
            | None => None
            | Some t => checked_add t c
            end
        end
    end.

(** [impl Display for MicroUsd]. *)
Definition display (m : N) : rstr :=
  36 :: display_u64 (m / 1000000) ++ 46 :: display_pad6 (m `mod` 1000000).
End MicroUsd.

(** The ASCII text of amounts and counters. *)
Definition ascii_text (l : rstr) : string := Stdlib.Strings.String.string_of_list_ascii (Stdlib.Strings.Ascii.ascii_of_N <$> l).
Definition usd (m : N) : string := ascii_text (MicroUsd.display m).
Definition dec (n : N) : string := ascii_text (display_u64 n).

(** ** Tokens and prices *)

Definition TOKENS_PER_PRICE_UNIT : N := 1000000.

Record TokenUsage : Type := mkTokenUsage {
  input : N;
  cache_hit : N;
  output : N;
}.

#[export] Instance TokenUsage_eq_dec : EqDecision TokenUsage.
Proof. solve_decision. Defined.

Module TokenUsage.
Definition new (i h o : N) : TokenUsage :=
  let hit := if i <? h then i else h in
  mkTokenUsage i hit o.
Definition cache_miss (u : TokenUsage) : N := input u - cache_hit u.
Definition total (u : TokenUsage) : N := saturating_add (input u) (output u).
End TokenUsage.

Record ModelPrice : Type := mkModelPrice {
  price_input_miss : N;
  price_input_hit : N;
  price_output : N;
}.

#[export] Instance ModelPrice_eq_dec : EqDecision ModelPrice.
Proof. solve_decision. Defined.

(** The three products of [ModelPrice::cost] before the sum is taken. *)
Definition priced_exact (p : ModelPrice) (u : TokenUsage) : N :=
  TokenUsage.cache_miss u * price_input_miss p
  + N.min (cache_hit u) (input u) * price_input_hit p
  + output u * price_output p.

(** [ModelPrice::cost]: the sum is computed in [u128], which a release build lets
    wrap; it is then rounded up and narrowed to [u64], saturating. *)
Definition cost (p : ModelPrice) (u : TokenUsage) : N :=
  let priced := priced_exact p u `mod` 2 ^ 128 in
  let rounded := div_ceil priced TOKENS_PER_PRICE_UNIT in
  if rounded <=? u64_max then rounded else u64_max.

(** ** Parsing and printing *)

Lemma is_ascii_digit_not_ws c : is_ascii_digit c = true -> is_whitespace c = false.
Proof.
  unfold is_ascii_digit, is_whitespace. intros H. bool_to_prop.
  apply N.leb_le in H, H0.
  repeat (apply orb_false_iff; split); try (apply andb_false_iff);
    repeat rewrite N.eqb_neq; repeat rewrite N.leb_gt; lia.
Qed.

Lemma trim_start_head c s : is_whitespace c = false -> trim_start (c :: s) = c :: s.
Proof. simpl. by intros ->. Qed.

(** Text that starts and ends with a non-blank is its own trim. *)
Lemma trim_id a s b : is_whitespace a = false -> is_whitespace b = false ->
  trim (a :: s ++ [b]) = a :: s ++ [b].
Proof.
  intros Ha Hb. unfold trim. rewrite trim_start_head by done.
  change (a :: s ++ [b]) with ((a :: s) ++ [b]). rewrite rev_app_distr.
  change (rev [b]) with [b]. change ([b] ++ rev (a :: s)) with (b :: rev (a :: s)).
  rewrite trim_start_head by done.
  change (b :: rev (a :: s)) with ([b] ++ rev (a :: s)). by rewrite rev_app_distr, rev_involutive.
Qed.

Lemma digits_from_app fuel n acc :
  n < 10 ^ N.of_nat fuel -> (0 < fuel)%nat ->
  exists ds, digits_from fuel n acc = ds ++ acc /\ ds <> [] /\ forallb is_ascii_digit ds = true
    /\ (forall k, n < 10 ^ N.of_nat k -> (0 < k)%nat -> (length ds <= k)%nat).
Proof.
  revert n acc. induction fuel as [|fuel IH]; intros n acc Hn Hf; [lia|]. cbn [digits_from].
  destruct (N.ltb_spec n 10) as [Hlt|Hge].
  - exists [48 + n]. repeat split; [done| |simpl; lia].
    cbn [forallb]. unfold is_ascii_digit. rewrite andb_true_r. apply andb_true_iff.
    split; apply N.leb_le; lia.
  - assert (Hpow : 10 ^ N.of_nat (S fuel) = 10 * 10 ^ N.of_nat fuel).
    { rewrite Nat2N.inj_succ. apply N.pow_succ_r'. }
    rewrite Hpow in Hn.
    assert (Hdiv : n / 10 < 10 ^ N.of_nat fuel) by (apply N.Div0.div_lt_upper_bound; lia).
    destruct fuel as [|fuel]; [change (10 ^ N.of_nat 0) with 1 in Hn; lia|].
    set (r := n `mod` 10). assert (Hr : r < 10) by (apply N.mod_lt; lia). clearbody r.
    destruct (IH (n / 10) ((48 + r) :: acc) Hdiv ltac:(lia)) as (ds & Heq & Hne & Hd & Hlen).
    exists (ds ++ [48 + r]). split; [by rewrite <- app_assoc|]. split; [by destruct ds|].
    split.
    + rewrite forallb_app, Hd. cbn [forallb andb]. unfold is_ascii_digit.
      rewrite andb_true_r. apply andb_true_iff. split; apply N.leb_le; lia.
    + intros k Hk Hk0. destruct k as [|k]; [lia|]. rewrite length_app. simpl.
      destruct k as [|k]; [change (10 ^ N.of_nat 1) with 10 in Hk; lia|].
      assert (length ds <= S k)%nat; [|lia]. apply Hlen; [|lia].
      apply N.Div0.div_lt_upper_bound. rewrite Nat2N.inj_succ, N.pow_succ_r' in Hk. lia.
Qed.

Lemma parse_digits_step acc d s : acc * 10 + d <= u64_max -> d < 10 ->
  parse_digits acc ((48 + d) :: s) = parse_digits (acc * 10 + d) s.
Proof.
  intros Hle Hd. simpl. unfold checked_mul, checked_add.
  destruct (N.leb_spec (acc * 10) u64_max); [|lia].
  replace (48 + d - 48) with d by lia.
  destruct (N.leb_spec (acc * 10 + d) u64_max); [done|lia].
Qed.

Lemma parse_digits_from fuel n acc :
  n < 10 ^ N.of_nat fuel -> (0 < fuel)%nat -> n <= u64_max ->
  parse_digits 0 (digits_from fuel n acc) = parse_digits n acc.
Proof.
  revert n acc. induction fuel as [|fuel IH]; intros n acc Hn Hf Hmax; [lia|]. cbn [digits_from].
  destruct (N.ltb_spec n 10) as [Hlt|Hge].
  - rewrite parse_digits_step by lia. done.
  - rewrite Nat2N.inj_succ, N.pow_succ_r' in Hn.
    pose proof (N.div_mod' n 10). pose proof (N.mod_lt n 10 ltac:(lia)).
    destruct fuel as [|fuel]; [change (10 ^ N.of_nat 0) with 1 in Hn; lia|].
    rewrite IH; [|apply N.Div0.div_lt_upper_bound; lia|lia|apply N.Div0.div_le_upper_bound; lia].
    set (q := n / 10) in *. set (r := n `mod` 10) in *. clearbody q r.
    rewrite parse_digits_step by lia. f_equal. lia.
Qed.

Lemma parse_display_u64 n : n <= u64_max -> parse_digits 0 (display_u64 n) = Some n.
Proof.
  intros Hn. unfold display_u64. rewrite parse_digits_from; [done| |lia|done].
  unfold u64_max in Hn. change (10 ^ N.of_nat 20) with 100000000000000000000. lia.
Qed.

Lemma display_u64_digits n : n <= u64_max ->
  display_u64 n <> [] /\ forallb is_ascii_digit (display_u64 n) = true /\
  (forall k, n < 10 ^ N.of_nat k -> (0 < k)%nat -> (length (display_u64 n) <= k)%nat).
Proof.
  intros Hn. unfold display_u64.
  destruct (digits_from_app 20 n []) as (ds & -> & Hne & Hd & Hlen); [|lia|].
  - unfold u64_max in Hn. change (10 ^ N.of_nat 20) with 100000000000000000000. lia.
  - by rewrite app_nil_r.
Qed.

Lemma bytes_of_dec n : n <= u64_max -> bytes_of (dec n) = display_u64 n.
Proof.
  intros Hn. destruct (display_u64_digits n Hn) as (_ & Hd & _). unfold dec, ascii_text, bytes_of.
  rewrite Stdlib.Strings.String.list_ascii_of_string_of_list_ascii, <- list_fmap_compose.
  rewrite <- (list_fmap_id (display_u64 n)) at 2. apply list_fmap_ext. intros i x Hx.
  apply list_elem_of_lookup_2, list_elem_of_In in Hx. rewrite forallb_forall in Hd. specialize (Hd x Hx).
  unfold is_ascii_digit in Hd. bool_to_prop. simpl. apply Stdlib.Strings.Ascii.N_ascii_embedding.
  apply N.leb_le in H0. lia.
Qed.

Lemma parse_digits_zeros k s : parse_digits 0 (repeat 48 k ++ s) = parse_digits 0 s.
Proof. induction k as [|k IH]; [done|]. simpl. done. Qed.

Lemma forallb_repeat_zero k : forallb is_ascii_digit (repeat 48 k) = true.
Proof. by induction k. Qed.

Lemma display_pad6_spec n : n < 1000000 ->
  length (display_pad6 n) = 6%nat /\ forallb is_ascii_digit (display_pad6 n) = true /\
  parse_digits 0 (display_pad6 n) = Some n.
Proof.
  intros Hn. unfold display_pad6.
  destruct (display_u64_digits n) as (Hne & Hd & Hlen); [unfold u64_max; lia|].
  pose proof (Hlen 6%nat Hn ltac:(lia)).
  rewrite length_app, repeat_length, forallb_app, forallb_repeat_zero, Hd, parse_digits_zeros,
    parse_display_u64 by (unfold u64_max; lia).
  repeat split; lia.
Qed.

Lemma split_once_digits a b : forallb is_ascii_digit a = true ->
  split_once 46 (a ++ 46 :: b) = Some (a, b).
Proof.
  induction a as [|c a IH]; intros H; [done|]. simpl in *. bool_to_prop.
  unfold is_ascii_digit in *. bool_to_prop. destruct (N.eqb_spec c 46) as [->|]; [done|].
  by rewrite IH.
Qed.

Lemma forallb_ends l : l <> [] -> forallb is_ascii_digit l = true ->
  exists l' z, l = l' ++ [z] /\ is_whitespace z = false.
Proof.
  intros Hne Hd. destruct (exists_last Hne) as (l' & z & ->). exists l', z. split; [done|].
  rewrite forallb_app in Hd. simpl in Hd. bool_to_prop. by apply is_ascii_digit_not_ws.
Qed.

(** ** The claims *)

(** Printing then parsing is the identity: for every [u64] amount, the printed form
    without its dollar sign parses back to exactly that amount, with no micro-dollar
    lost and no overflow. *)
Theorem parse_display_roundtrip m :
  m <= u64_max -> MicroUsd.parse_usd (drop 1 (MicroUsd.display m)) = Some m.
Proof.
  intros Hm. unfold MicroUsd.display. simpl drop.
  set (d := m / 1000000). set (c := m `mod` 1000000).
  pose proof (N.div_mod' m 1000000) as Hdm. fold d c in Hdm.
  assert (Hc : c < 1000000) by (apply N.mod_lt; lia).
  assert (Hd : d <= u64_max) by lia.
  destruct (display_u64_digits d Hd) as (Hne & Hdd & _).
  destruct (display_pad6_spec c Hc) as (Hl6 & Hcd & Hpc).
  destruct (display_u64 d) as [|x xs] eqn:Edisp; [done|].
  assert (Hcne : display_pad6 c <> []) by (intros H; rewrite H in Hl6; done).
  destruct (forallb_ends _ Hcne Hcd) as (cs & z & Ecs & Hz).
  assert (Hx : is_whitespace x = false).
  { simpl in Hdd. bool_to_prop. by apply is_ascii_digit_not_ws. }
  assert (Htrim : trim ((x :: xs) ++ 46 :: display_pad6 c) = (x :: xs) ++ 46 :: display_pad6 c).
  { rewrite Ecs. replace ((x :: xs) ++ 46 :: cs ++ [z]) with (x :: (xs ++ 46 :: cs) ++ [z]).
    - by apply trim_id.
    - simpl. by rewrite <- app_assoc. }
  unfold MicroUsd.parse_usd. rewrite drop_0, Htrim, split_once_digits by done.
  rewrite Hdd, Hcd, Hl6. simpl negb. simpl orb. cbv iota.
  rewrite <- Edisp, parse_display_u64 by done.
  change (6 - 6)%nat with 0%nat. simpl repeat. rewrite app_nil_r, Hpc.
  unfold checked_mul, checked_add. destruct_cmp; try lia. f_equal. lia.
Qed.

Lemma parse_display_roundtrip_witness :
  MicroUsd.parse_usd (rs "18446744073709.551615") = Some u64_max.
Proof. apply (parse_display_roundtrip u64_max). reflexivity. Defined.

Lemma cost_exact p u : priced_exact p u <= u128_max ->
  cost p u = N.min (div_ceil (priced_exact p u) TOKENS_PER_PRICE_UNIT) u64_max.
Proof.
  intros Hfit. unfold cost. rewrite N.mod_small by (unfold u128_max in Hfit; lia). destruct_cmp; lia.
Qed.

(** The ledger never undercounts: as long as the exact price fits [u128], the cost is
    the exact price rounded {e up} to the micro-dollar, off by less than one, and saturated
    at [u64::MAX]. *)
Theorem cost_rounds_up p u :
  priced_exact p u <= u128_max ->
  cost p u = N.min (div_ceil (priced_exact p u) TOKENS_PER_PRICE_UNIT) u64_max /\
  (cost p u < u64_max ->
     priced_exact p u <= TOKENS_PER_PRICE_UNIT * cost p u
     /\ TOKENS_PER_PRICE_UNIT * cost p u < priced_exact p u + TOKENS_PER_PRICE_UNIT).
Proof.
  intros Hfit. pose proof (cost_exact p u Hfit) as Hc. split; [done|]. intros Hlt. rewrite Hc in *.
  pose proof (div_ceil_spec (priced_exact p u) TOKENS_PER_PRICE_UNIT eq_refl). lia.
Qed.

Lemma cost_rounds_up_witness :
  cost (mkModelPrice 435000 3625 870000) (TokenUsage.new 200000 150000 20001) = 39695 /\
  priced_exact (mkModelPrice 435000 3625 870000) (TokenUsage.new 200000 150000 20001)
    <= TOKENS_PER_PRICE_UNIT * 39695.
Proof.
  destruct (cost_rounds_up (mkModelPrice 435000 3625 870000) (TokenUsage.new 200000 150000 20001))
    as [H1 H2]; [vm_compute; discriminate|].
  split; [exact H1|]. apply H2. vm_compute. reflexivity.
Defined.

(** Pricing an answer at the miss rate and at its whole output allowance never
    underestimates it. *)
Lemma cost_estimate_upper p u in_max out_max :
  input u <= in_max -> output u <= out_max -> cache_hit u <= input u ->
  price_input_hit p <= price_input_miss p ->
  priced_exact p (TokenUsage.new in_max 0 out_max) <= u128_max ->
  cost p u <= cost p (TokenUsage.new in_max 0 out_max).
Proof.
  intros Hin Hout Hhit Hprice Hfit.
  assert (Hle : priced_exact p u <= priced_exact p (TokenUsage.new in_max 0 out_max)).
  { unfold priced_exact, TokenUsage.new, TokenUsage.cache_miss. simpl cache_hit.
    replace (if in_max <? 0 then in_max else 0) with 0 by (destruct_cmp; lia).
    simpl input. simpl output. rewrite N.sub_0_r, N.min_l by done. nia. }
  rewrite !cost_exact by lia.
  pose proof (div_ceil_mono _ _ TOKENS_PER_PRICE_UNIT eq_refl Hle). lia.
Qed.

(** The sum inside [ModelPrice::cost] is not protected: with extreme but
    representable prices and token counts the [u128] sum wraps and the call is
    priced at one micro-dollar, the free call the comment on [cost] rules out. *)
Theorem cost_can_wrap :
  exists p u,
    price_input_miss p <= u64_max /\ price_input_hit p <= u64_max /\ price_output p <= u64_max /\
    input u <= u64_max /\ output u <= u64_max /\
    u128_max < priced_exact p u /\ cost p u = 1.
Proof.
  exists (mkModelPrice u64_max 0 4294967296), (TokenUsage.new u64_max 0 8589934592).
  vm_compute. repeat split; discriminate.
Qed.
