(* ===== verification/SpendLedger.v ===== *)
(** * SpendLedger: the append-only spend ledger ([crates/susi-harness/src/ledger.rs])

    A row is priced once, when it is settled, and appended as one JSON line.  The
    file is a list of bytes; serde is the pair [encode]/[decode] of section
    [LedgerFile].  The lenient reader splits the bytes into lines and decodes each
    on its own. *)

From S2P Require Import Prelude Money.

Local Open Scope N_scope.

(** ** Rows *)

Inductive FailureClass : Type :=
| RateLimited | Timeout | NoCredit | MalformedOutput | ToolError | Other.

#[export] Instance FailureClass_eq_dec : EqDecision FailureClass.
Proof. solve_decision. Defined.

Inductive Outcome : Type :=
| Completed
| Accepted
| ModelFailed (class : FailureClass)
| Rejected (reason : string)
| Cancelled.

#[export] Instance Outcome_eq_dec : EqDecision Outcome.
Proof. solve_decision. Defined.

Record Dispatch : Type := mkDispatch {
  d_mission : string;
  d_task : string;
  d_attempt : N;
  d_model : string;
  d_provider : string;
  d_usage : TokenUsage;
  d_price : ModelPrice;
  d_started_unix_ms : N;
  d_ended_unix_ms : N;
  d_outcome : Outcome;
}.

Record LedgerEntry : Type := mkLedgerEntry {
  e_mission : string;
  e_task : string;
  e_attempt : N;
  e_model : string;
  e_provider : string;
  e_usage : TokenUsage;
  e_price : ModelPrice;
  e_cost : N;
  e_cached : bool;
  e_reported : bool;
  e_started_unix_ms : N;
  e_ended_unix_ms : N;
  e_outcome : Outcome;
}.

#[export] Instance LedgerEntry_eq_dec : EqDecision LedgerEntry.
Proof. solve_decision. Defined.

(** [LedgerEntry::settle]. *)
Definition settle (d : Dispatch) : LedgerEntry :=
  mkLedgerEntry (d_mission d) (d_task d) (d_attempt d) (d_model d) (d_provider d)
    (d_usage d) (d_price d) (cost (d_price d) (d_usage d)) false false
    (d_started_unix_ms d) (d_ended_unix_ms d) (d_outcome d).

(** [LedgerEntry::at_provider_cost]. *)
Definition at_provider_cost (e : LedgerEntry) (stated : option N) : LedgerEntry :=
  match stated with
  | Some c =>
      mkLedgerEntry (e_mission e) (e_task e) (e_attempt e) (e_model e) (e_provider e)
        (e_usage e) (e_price e) c (e_cached e) true
        (e_started_unix_ms e) (e_ended_unix_ms e) (e_outcome e)
  | None => e
  end.

(** [LedgerEntry::as_cached]. *)
Definition as_cached (e : LedgerEntry) : LedgerEntry :=
  mkLedgerEntry (e_mission e) (e_task e) (e_attempt e) (e_model e) (e_provider e)
    (e_usage e) (e_price e) MicroUsd.ZERO true (e_reported e)
    (e_started_unix_ms e) (e_ended_unix_ms e) (e_outcome e).

Definition latency_ms (e : LedgerEntry) : N := e_ended_unix_ms e - e_started_unix_ms e.

(** ** Sums *)

(** [checked_add(..).unwrap_or(u64::MAX)]. *)
Definition add (total c : N) : N :=
  match checked_add total c with Some s => s | None => u64_max end.

Definition total_cost (entries : list LedgerEntry) : N :=
  fold_left (fun sum e => add sum (e_cost e)) entries MicroUsd.ZERO.

Definition for_task (mission task : string) (e : LedgerEntry) : bool :=
  bool_decide (e_mission e = mission) && bool_decide (e_task e = task).

Definition cost_for (entries : list LedgerEntry) (mission task : string) : N :=
  fold_left (fun sum e => add sum (e_cost e)) (List.filter (for_task mission task) entries)
    MicroUsd.ZERO.

(** ** Integrity report *)

Record LedgerIntegrityReport : Type := mkReport {
  valid_entries : N;
  corrupted_lines : N;
  report_total_cost : N;
  non_monotonic_timestamps : N;
}.

Definition is_clean (r : LedgerIntegrityReport) : bool :=
  (corrupted_lines r =? 0) && (non_monotonic_timestamps r =? 0).

(** The loop of [verify_integrity] over the decoded rows. *)
Fixpoint count_non_monotonic (prev : option N) (acc : N) (entries : list LedgerEntry) : N :=
  match entries with
  | [] => acc
  | e :: es =>
      let inverted_span := e_ended_unix_ms e <? e_started_unix_ms e in
      let regressed_start :=
        match prev with Some p => e_started_unix_ms e <? p | None => false end in
      let acc' := if inverted_span || regressed_start then saturating_add acc 1 else acc in
      count_non_monotonic (Some (e_started_unix_ms e)) acc' es
  end.

Definition integrity_of (rows : list LedgerEntry * N) : LedgerIntegrityReport :=
  mkReport (N.of_nat (length rows.1)) rows.2 (total_cost rows.1)
    (count_non_monotonic None 0 rows.1).

(** ** The file *)

Definition NL : N := 10.
Definition BRACE : N := 123.

(** [u8::is_ascii_whitespace]. *)
Definition is_ascii_ws (c : N) : bool :=
  (c =? 32) || (c =? 9) || (c =? 10) || (c =? 12) || (c =? 13).

Fixpoint trim_ascii_start (s : list N) : list N :=
  match s with
  | [] => []
  | c :: s' => if is_ascii_ws c then trim_ascii_start s' else s
  end.
Definition trim_ascii (s : list N) : list N := rev (trim_ascii_start (rev (trim_ascii_start s))).

(** [bytes.split(|b| *b == b'\n')]: the pieces between newlines. *)
Fixpoint split_lines (cur : list N) (s : list N) : list (list N) :=
  match s with
  | [] => [rev cur]
  | c :: s' => if c =? NL then rev cur :: split_lines [] s' else split_lines (c :: cur) s'
  end.

Section LedgerFile.
(** The row type and serde_json on it. *)
Context {T : Type} (encode : T -> list N) (decode : list N -> option T).

(** [append_entry]: the tail-byte check, then one write.  [file] is the content,
    empty when the file is new. *)
Definition append_entry (file : list N) (entry : T) : list N :=
  let needs_leading_newline :=
    match rev file with [] => false | b :: _ => negb (b =? NL) end in
  file ++ (if needs_leading_newline then [NL] else []) ++ encode entry ++ [NL].

(** The row glued after a tear: the first later [{] from which the rest of the
    line decodes. *)
Fixpoint glued (line : list N) : option T :=
  match line with
  | [] => None
  | b :: rest =>
      match (if b =? BRACE then decode line else None) with
      | Some row => Some row
      | None => glued rest
      end
  end.

Definition read_line (acc : list T * N) (line : list N) : list T * N :=
  match decode line with
  | Some row => (acc.1 ++ [row], acc.2)
  | None =>
      match glued (drop 1 line) with
      | Some row => (acc.1 ++ [row], acc.2 + 1)
      | None => (acc.1, acc.2 + 1)
      end
  end.

Definition lines_of (file : list N) : list (list N) :=
  List.filter (fun l => match l with [] => false | _ => true end)
    (trim_ascii <$> split_lines [] file).

(** [read_rows_lenient]. *)
Definition read_rows_lenient (file : list N) : list T * N :=
  fold_left read_line (lines_of file) ([], 0).

(** ** Reading back what was appended *)

(** What the ledger relies on of serde_json: a row is one non-blank line that
    decodes to itself. *)
Record serde_row (e : T) : Prop := {
  row_decodes : decode (encode e) = Some e;
  row_no_newline : forallb (fun b => negb (b =? NL)) (encode e) = true;
  row_trimmed : trim_ascii (encode e) = encode e;
  row_nonempty : encode e <> [];
}.

(** What is left of a row whose write was cut: a fragment on one line, that does
    not decode, and inside which no object closes into a row. *)
Record torn (t : list N) : Prop := {
  torn_no_newline : forallb (fun b => negb (b =? NL)) t = true;
  torn_nonempty : trim_ascii t <> [];
  torn_undecodable : decode (trim_ascii t) = None;
  torn_no_row : glued (drop 1 (trim_ascii t)) = None;
}.

(** A file of whole rows, each ended by its newline. *)
Definition rows_file (es : list T) : list N := concat ((fun e => encode e ++ [NL]) <$> es).

Lemma split_lines_cur cur l rest :
  forallb (fun b => negb (b =? NL)) l = true ->
  split_lines cur (l ++ NL :: rest) = (rev cur ++ l) :: split_lines [] rest.
Proof.
  revert cur. induction l as [|c l IH]; intros cur H; simpl.
  - by rewrite app_nil_r.
  - simpl in H. bool_to_prop. rewrite H, IH by done. simpl. by rewrite <- app_assoc.
Qed.

Lemma split_lines_last cur l :
  forallb (fun b => negb (b =? NL)) l = true -> split_lines cur l = [rev cur ++ l].
Proof.
  revert cur. induction l as [|c l IH]; intros cur H; simpl.
  - by rewrite app_nil_r.
  - simpl in H. bool_to_prop. rewrite H, IH by done. simpl. by rewrite <- app_assoc.
Qed.

Lemma lines_of_cons l rest :
  forallb (fun b => negb (b =? NL)) l = true -> trim_ascii l <> [] ->
  lines_of (l ++ NL :: rest) = trim_ascii l :: lines_of rest.
Proof.
  intros Hl Hne. unfold lines_of. rewrite split_lines_cur by done. simpl.
  by destruct (trim_ascii l).
Qed.

Lemma lines_of_rows es rest : Forall serde_row es ->
  lines_of (rows_file es ++ rest) = (encode <$> es) ++ lines_of rest.
Proof.
  intros Hes. induction Hes as [|e es [Hd Hn Ht Hne] Hes IH]; [done|].
  change (rows_file (e :: es)) with ((encode e ++ [NL]) ++ rows_file es).
  rewrite <- !app_assoc. cbn [app]. rewrite lines_of_cons by (rewrite ?Ht; done).
  rewrite IH, Ht. done.
Qed.

Lemma read_lines_rows es acc : Forall serde_row es ->
  fold_left read_line (encode <$> es) acc = (acc.1 ++ es, acc.2).
Proof.
  intros Hes. revert acc. induction Hes as [|e es [Hd Hn Ht Hne] Hes IH]; intros [rows n].
  - simpl. by rewrite app_nil_r.
  - cbn [fmap list_fmap fold_left]. unfold read_line at 2. rewrite Hd. simpl.
    rewrite IH. simpl. by rewrite <- app_assoc.
Qed.

Lemma append_after_newline file e :
  append_entry (file ++ [NL]) e = (file ++ [NL]) ++ encode e ++ [NL].
Proof. unfold append_entry. by rewrite rev_app_distr. Qed.

Lemma rows_file_snoc es e : rows_file (es ++ [e]) = rows_file es ++ encode e ++ [NL].
Proof. unfold rows_file. rewrite fmap_app, concat_app. simpl. by rewrite app_nil_r. Qed.

Lemma append_to_rows es e : append_entry (rows_file es) e = rows_file (es ++ [e]).
Proof.
  destruct es as [|x xs _] using rev_ind.
  { unfold rows_file, append_entry. simpl. by rewrite app_nil_r. }
  rewrite !rows_file_snoc. rewrite !(app_assoc _ _ [NL]), append_after_newline.
  by rewrite <- !app_assoc.
Qed.

Lemma append_all_rows es : foldl append_entry [] es = rows_file es.
Proof.
  induction es as [|e es IH] using rev_ind; [done|].
  rewrite foldl_app, IH. apply append_to_rows.
Qed.

Lemma append_after_tear file t e : t <> [] ->
  forallb (fun b => negb (b =? NL)) t = true ->
  append_entry (file ++ t) e = file ++ t ++ NL :: encode e ++ [NL].
Proof.
  intros Hne Ht. destruct (exists_last Hne) as (t' & z & ->).
  rewrite forallb_app in Ht. apply andb_true_iff in Ht as [_ Hz].
  cbn [forallb] in Hz. rewrite andb_true_r in Hz.
  unfold append_entry. rewrite app_assoc, !rev_app_distr. cbn [rev app]. rewrite Hz.
  by rewrite <- !app_assoc.
Qed.

Lemma read_tear es t es' : Forall serde_row es -> torn t -> Forall serde_row es' ->
  read_rows_lenient (rows_file es ++ t ++ NL :: rows_file es') = (es ++ es', 1).
Proof.
  intros Hes [Hn Hne Hd Hg] Hes'. unfold read_rows_lenient.
  rewrite lines_of_rows, lines_of_cons, <- (app_nil_r (rows_file es')), lines_of_rows by done.
  rewrite fold_left_app. simpl fold_left at 1. rewrite read_lines_rows by done.
  cbn [fold_left]. unfold read_line at 2. rewrite Hd, Hg. simpl.
  rewrite fold_left_app, read_lines_rows by done. done.
Qed.
End LedgerFile.

(** ** Totals *)

(** The exact sum behind the saturating one. *)
Definition exact_total (entries : list LedgerEntry) : N :=
  foldr (fun e sum => e_cost e + sum) 0 entries.

Lemma add_min total c : add total c = N.min (total + c) u64_max.
Proof. unfold add, checked_add. destruct_cmp; lia. Qed.

Lemma fold_add_min es acc : acc <= u64_max ->
  fold_left (fun sum e => add sum (e_cost e)) es acc = N.min (acc + exact_total es) u64_max.
Proof.
  revert acc. induction es as [|e es IH]; intros acc Hacc; cbn [fold_left exact_total foldr].
  - rewrite N.add_0_r. lia.
  - fold (exact_total es). rewrite IH by (rewrite add_min; lia). rewrite add_min. lia.
Qed.

Lemma total_cost_min es : total_cost es = N.min (exact_total es) u64_max.
Proof. unfold total_cost. rewrite fold_add_min by (vm_compute; discriminate). by rewrite N.add_0_l. Qed.

Lemma exact_total_app es es' : exact_total (es ++ es') = exact_total es + exact_total es'.
Proof.
  unfold exact_total. induction es as [|e es IH]; [done|].
  cbn [app foldr]. rewrite IH. lia.
Qed.

Lemma exact_total_filter f es :
  exact_total es = exact_total (List.filter f es) + exact_total (List.filter (fun e => negb (f e)) es).
Proof.
  induction es as [|e es IH]; [done|]. cbn [exact_total foldr List.filter].
  destruct (f e); cbn [negb exact_total foldr]; fold (exact_total es); rewrite IH;
    unfold exact_total; lia.
Qed.

(** ** Chronology *)

Definition span_ok (e : LedgerEntry) : Prop := e_started_unix_ms e <= e_ended_unix_ms e.

Lemma count_non_monotonic_ge prev acc es :
  acc <= u64_max -> acc <= count_non_monotonic prev acc es.
Proof.
  revert prev acc. induction es as [|e es IH]; intros prev acc H; cbn [count_non_monotonic]; [lia|].
  destruct (_ || _).
  - etransitivity; [apply (saturating_add_ge acc 1 H)|]. apply IH, saturating_add_le.
  - by apply IH.
Qed.

Lemma count_non_monotonic_0 prev es :
  count_non_monotonic prev 0 es = 0 <->
  Forall span_ok es /\ StronglySorted N.le (from_option (fun p => [p]) [] prev ++ (e_started_unix_ms <$> es)) .
Proof.
  revert prev. induction es as [|e es IH]; intros prev; cbn [count_non_monotonic fmap list_fmap].
  { rewrite app_nil_r. split; [|done]. intros _. split; [constructor|].
    destruct prev; simpl; repeat constructor. }
  assert (Hbad : forall p, count_non_monotonic p (saturating_add 0 1) es <> 0).
  { intros p H. pose proof (count_non_monotonic_ge p (saturating_add 0 1) es (saturating_add_le 0 1)).
    change (saturating_add 0 1) with 1 in *. lia. }
  assert (Hss : StronglySorted N.le (e_started_unix_ms e :: (e_started_unix_ms <$> es)) ->
      forall p, p <= e_started_unix_ms e ->
      StronglySorted N.le (p :: e_started_unix_ms e :: (e_started_unix_ms <$> es))).
  { intros Hs p Hp. constructor; [done|]. constructor; [done|].
    apply StronglySorted_inv in Hs as [_ Hall]. eapply Forall_impl; [exact Hall|].
    simpl. intros. lia. }
  destruct (N.ltb_spec (e_ended_unix_ms e) (e_started_unix_ms e)) as [Hspan|Hspan]; cbn [orb].
  { split; [intros H; by apply Hbad in H|]. intros [H _].
    apply Forall_cons in H as [H _]. unfold span_ok in H. lia. }
  destruct prev as [p|]; cbn [from_option app].
  - destruct (N.ltb_spec (e_started_unix_ms e) p) as [Hp|Hp].
    + split; [intros H; by apply Hbad in H|]. intros [_ H].
      apply StronglySorted_inv in H as [_ H]. apply Forall_cons in H as [H _]. lia.
    + rewrite IH. cbn [from_option app]. rewrite Forall_cons. unfold span_ok at 2.
      split; intros [H1 H2]; repeat split; auto.
      * by destruct H1.
      * by apply StronglySorted_inv in H2 as [H2 _].
  - rewrite IH. cbn [from_option app]. rewrite Forall_cons. unfold span_ok at 2. tauto.
Qed.

(** ** The claims *)

(** A torn write costs only itself: however many rows were appended before a write
    was cut short, and however many are appended after it, the lenient reader returns
    every whole row, in order, and counts exactly one unreadable line. *)
Theorem torn_row_costs_only_itself {T} (encode : T -> list N) (decode : list N -> option T)
    (before after : list T) (fragment : list N) (e : T) :
  Forall (serde_row encode decode) (before ++ e :: after) ->
  torn decode fragment ->
  let file := foldl (append_entry encode) [] before ++ fragment in
  read_rows_lenient decode (foldl (append_entry encode) file (e :: after))
    = (before ++ e :: after, 1).
Proof.
  intros Hrows Ht file. apply Forall_app in Hrows as [Hb Ha]. subst file.
  rewrite append_all_rows. simpl foldl.
  assert (Hne : fragment <> []).
  { intros ->. by apply (torn_nonempty _ _ Ht). }
  rewrite append_after_tear by (done || apply Ht).
  replace (foldl (append_entry encode) (rows_file encode before ++ fragment ++ NL :: encode e ++ [NL]) after)
    with (rows_file encode before ++ fragment ++ NL :: rows_file encode (e :: after)).
  { by apply read_tear. }
  clear Ha. induction after as [|x after IH] using rev_ind.
  - unfold rows_file. simpl. by rewrite app_nil_r.
  - rewrite foldl_app, <- IH. simpl foldl.
    change (e :: after ++ [x]) with ((e :: after) ++ [x]). rewrite rows_file_snoc.
    destruct (exists_last (l := e :: after)) as (l' & y & Hly); [done|].
    rewrite Hly, rows_file_snoc.
    replace (rows_file encode before ++ fragment ++ NL :: rows_file encode l' ++ encode y ++ [NL])
      with ((rows_file encode before ++ fragment ++ NL :: rows_file encode l' ++ encode y) ++ [NL])
      by (rewrite <- !app_assoc; simpl; by rewrite <- !app_assoc).
    rewrite append_after_newline. rewrite <- !app_assoc. simpl. by rewrite <- !app_assoc.
Qed.

(** A row of one field, as [{0}] or [{1}]. *)
Definition bit_encode (b : bool) : list N := [123; if b then 49 else 48; 125].
Definition bit_decode (l : list N) : option bool :=
  if bool_decide (l = bit_encode true) then Some true
  else if bool_decide (l = bit_encode false) then Some false else None.

Lemma torn_row_costs_only_itself_witness :
  read_rows_lenient bit_decode
    (foldl (append_entry bit_encode)
       (foldl (append_entry bit_encode) [] [true; false] ++ [123; 34; 109]) [true; true])
  = ([true; false; true; true], 1).
Proof.
  apply (torn_row_costs_only_itself bit_encode bit_decode [true; false] [true] [123; 34; 109] true).
  - repeat constructor; vm_compute; try reflexivity; discriminate.
  - split; vm_compute; try reflexivity; discriminate.
Defined.

(** A task's spend and the rest of the ledger add up: the ledger total is the exact
    sum of the two parts, saturated at [u64::MAX], so it is never less than what any
    task is charged. *)
Theorem total_cost_splits entries mission task :
  let rest := List.filter (fun e => negb (for_task mission task e)) entries in
  total_cost entries = N.min (exact_total (List.filter (for_task mission task) entries)
                              + exact_total rest) u64_max /\ cost_for entries mission task <= total_cost entries.
Proof.
  intros rest. subst rest. rewrite <- exact_total_filter. split; [apply total_cost_min|].
  change (cost_for entries mission task) with (total_cost (List.filter (for_task mission task) entries)).
  rewrite !total_cost_min, (exact_total_filter (for_task mission task) entries). lia.
Qed.

(** A clean integrity report means what it says: no line was unreadable, no call
    ends before it starts, and the start times are in order; and conversely. *)
Theorem integrity_clean_iff rows :
  is_clean (integrity_of rows) = true <->
  rows.2 = 0 /\ Forall span_ok rows.1 /\ StronglySorted N.le (e_started_unix_ms <$> rows.1).
Proof.
  unfold is_clean, integrity_of. cbn [corrupted_lines non_monotonic_timestamps].
  rewrite andb_true_iff, !N.eqb_eq, (count_non_monotonic_0 None). done.
Qed.
