(* ===== verification/Budget.v ===== *)
(** * Budget: the mission budget ([crates/susi-harness/src/budget.rs])

    [BudgetGuard] is the state behind the mutex; each of its methods is one
    function of that state.  [System] interleaves the guard with the workers of a
    mission and the ledger they share: a worker reads the ledger, reserves, runs
    (the gateway charges), reads the ledger again and settles, each as a separate
    step, in any order between workers. *)

From S2P Require Import Prelude Money SpendLedger.

Local Open Scope N_scope.

(** ** Budgets *)

Definition CHARS_PER_TOKEN : N := 4.
Definition DEFAULT_OUTPUT_RESERVE : N := 8192.

Record Spend : Type := mkSpend {
  calls : N;
  total : N;
}.

#[export] Instance Spend_eq_dec : EqDecision Spend.
Proof. solve_decision. Defined.

Definition Spend_default : Spend := mkSpend 0 MicroUsd.ZERO.

Record Budget : Type := mkBudget {
  limit : N;
  output_reserve : N;
}.

(** [estimate_tokens]: the prompt as its length in bytes. *)
Definition estimate_tokens (price : ModelPrice) (prompt_bytes reserve : N) : N :=
  cost price (TokenUsage.new (div_ceil prompt_bytes CHARS_PER_TOKEN) 0 reserve).

Module Budget.
Definition new (lim : N) : Budget := mkBudget lim DEFAULT_OUTPUT_RESERVE.

(** [Budget::spent_any] over the readable rows of the ledger. *)
Definition add_row (s : Spend) (e : LedgerEntry) : Spend :=
  mkSpend (saturating_add (calls s) 1) (add (total s) (e_cost e)).
Definition spent_any (entries : list LedgerEntry) (missions : list string) : Spend :=
  fold_left add_row
    (List.filter (fun e => bool_decide (e_mission e ∈ missions)) entries) Spend_default.
Definition spent (entries : list LedgerEntry) (mission : string) : Spend :=
  spent_any entries [mission].

Definition estimate (b : Budget) (price : ModelPrice) (prompt_bytes : N) : N :=
  estimate_tokens price prompt_bytes (output_reserve b).

Definition admits (b : Budget) (s : Spend) (reserved est : N) : bool :=
  match checked_add (total s) reserved with
  | None => false
  | Some c => match checked_add c est with
              | None => false
              | Some t => t <=? limit b
              end
  end.

Definition remaining (b : Budget) (s : Spend) : N :=
  match checked_sub (limit b) (total s) with Some r => r | None => MicroUsd.ZERO end.

Definition at_risk (b : Budget) (s : Spend) : bool :=
  saturating_mul (limit b) 4 <=? saturating_mul (total s) 5.
End Budget.

(** ** The guard *)

Inductive Admission : Type :=
| Allowed
| Exhausted (spent estimate limit : N).

#[export] Instance Admission_eq_dec : EqDecision Admission.
Proof. solve_decision. Defined.

Record GuardState : Type := mkGuard {
  committed : N;
  reserved : N;
}.

#[export] Instance GuardState_eq_dec : EqDecision GuardState.
Proof. solve_decision. Defined.

Definition GuardState_default : GuardState := mkGuard MicroUsd.ZERO MicroUsd.ZERO.

Module BudgetGuard.
Definition admit_attempt (b : Budget) (st : GuardState) (s : Spend) (est : N)
  : Admission * GuardState :=
  let c := N.max (committed st) (total s) in
  let st1 := mkGuard c (reserved st) in
  match checked_add (reserved st) est with
  | None => (Exhausted c est (limit b), st1)
  | Some next_reserved =>
      let fits :=
        match checked_add c next_reserved with Some t => t <=? limit b | None => false end in
      if negb fits then (Exhausted c est (limit b), st1)
      else (Allowed, mkGuard c next_reserved)
  end.

Definition release (r est : N) : N :=
  match checked_sub r est with Some r' => r' | None => MicroUsd.ZERO end.

Definition settle (st : GuardState) (s : Spend) (est : N) : GuardState :=
  mkGuard (N.max (committed st) (total s)) (release (reserved st) est).

Definition release_unsettled (st : GuardState) (est : N) : GuardState :=
  mkGuard (committed st) (release (reserved st) est).

(** [reserve]: the reservation is the estimate it holds. *)
Definition reserve (b : Budget) (st : GuardState) (s : Spend) (est : N)
  : result N Admission * GuardState :=
  match admit_attempt b st s est with
  | (Allowed, st') => (Ok est, st')
  | (Exhausted sp e l, st') => (Err (Exhausted sp e l), st')
  end.

Definition committed_total (st : GuardState) : N := N.max (committed st) (reserved st).
End BudgetGuard.

(** ** A mission's workers *)

(** A row and the worker whose attempt it charges; rows found at the start, or
    written for another mission, carry whatever owner. *)
Definition Row : Type := nat * LedgerEntry.

(** Where a worker is in [run_task]'s loop.  A spend that was read is kept with the
    number of rows the ledger had at that moment. *)
Inductive Phase : Type :=
| Idle
| Read (s : Spend) (at_ : nat)
| Running (est used : N)
| Reporting (est used : N) (s : Spend) (at_ : nat).

Record System : Type := mkSystem {
  ledger : list Row;
  guard : GuardState;
  workers : list Phase;
}.

Inductive Event : Type :=
| EvRead (i : nat)                      (** [Budget::spent] before [reserve] *)
| EvReserve (i : nat) (est : N)         (** [BudgetGuard::reserve] *)
| EvCharge (i : nat) (e : LedgerEntry)  (** the gateway appends a row of the attempt *)
| EvForeign (e : LedgerEntry)           (** a row of another mission *)
| EvReport (i : nat)                    (** [Budget::spent] after [Runner::run] *)
| EvSettle (i : nat)                    (** [BudgetReservation::settle] *)
| EvDrop (i : nat)                      (** [Drop] before anything was charged *)
| EvPanic (i : nat).                    (** [Drop] while unwinding, whatever was charged *)

Definition is_panic (e : Event) : bool := match e with EvPanic _ => true | _ => false end.

Section System.
Context (b : Budget) (mission : string).

Definition read_spend (sys : System) : Spend := Budget.spent (ledger sys).*2 mission.
Definition set_phase (sys : System) (g : GuardState) (i : nat) (p : Phase) : System :=
  mkSystem (ledger sys) g (<[i := p]> (workers sys)).

(** One step; [None] when the event cannot happen.  A charge within the attempt's
    estimate is the condition under which the budget promises anything. *)
Definition step (sys : System) (ev : Event) : option System :=
  match ev with
  | EvRead i =>
      match workers sys !! i with
      | Some Idle => Some (set_phase sys (guard sys) i (Read (read_spend sys) (length (ledger sys))))
      | _ => None
      end
  | EvReserve i est =>
      match workers sys !! i with
      | Some (Read s _) =>
          match BudgetGuard.reserve b (guard sys) s est with
          | (Ok est', g) => Some (set_phase sys g i (Running est' 0))
          | (Err _, g) => Some (set_phase sys g i Idle)
          end
      | _ => None
      end
  | EvCharge i e =>
      match workers sys !! i with
      | Some (Running est used) =>
          if bool_decide (e_mission e = mission) && (used + e_cost e <=? est)
          then Some (mkSystem (ledger sys ++ [(i, e)]) (guard sys)
                       (<[i := Running est (used + e_cost e)]> (workers sys)))
          else None
      | _ => None
      end
  | EvForeign e =>
      if bool_decide (e_mission e = mission) then None
      else Some (mkSystem (ledger sys ++ [(0%nat, e)]) (guard sys) (workers sys))
  | EvReport i =>
      match workers sys !! i with
      | Some (Running est used) =>
          Some (set_phase sys (guard sys) i
                  (Reporting est used (read_spend sys) (length (ledger sys))))
      | _ => None
      end
  | EvSettle i =>
      match workers sys !! i with
      | Some (Reporting est _ s _) =>
          Some (set_phase sys (BudgetGuard.settle (guard sys) s est) i Idle)
      | _ => None
      end
  | EvDrop i =>
      match workers sys !! i with
      | Some (Running est 0) =>
          Some (set_phase sys (BudgetGuard.release_unsettled (guard sys) est) i Idle)
      | _ => None
      end
  | EvPanic i =>
      match workers sys !! i with
      | Some (Running est _) =>
          Some (set_phase sys (BudgetGuard.release_unsettled (guard sys) est) i Idle)
      | _ => None
      end
  end.

Fixpoint run (sys : System) (evs : list Event) : option System :=
  match evs with
  | [] => Some sys
  | ev :: evs' => match step sys ev with Some sys' => run sys' evs' | None => None end
  end.

(** A mission starting over an existing ledger with [n] workers. *)
Definition start (rows : list Row) (n : nat) : System :=
  mkSystem rows GuardState_default (repeat Idle n).
End System.

(** ** Exact accounting *)

(** What the mission's rows come to, without saturation. *)
Definition exact_spent (mission : string) (rows : list Row) : N :=
  foldr (fun r sum => (if bool_decide (e_mission r.2 = mission) then e_cost r.2 else 0) + sum) 0 rows.

(** What worker [i] charged the mission in [rows]. *)
Definition owned (mission : string) (i : nat) (rows : list Row) : N :=
  exact_spent mission (List.filter (fun r => bool_decide (r.1 = i)) rows).

Definition est_of (p : Phase) : N :=
  match p with Running e _ | Reporting e _ _ _ => e | _ => 0 end.
Definition used_of (p : Phase) : N :=
  match p with Running _ u | Reporting _ u _ _ => u | _ => 0 end.

Definition at_worker (f : Phase -> N) (ws : list Phase) (i : nat) : N :=
  from_option f 0 (ws !! i).
Definition sum_workers (f : Phase -> N) (ws : list Phase) : N :=
  sumN (at_worker f ws) (length ws).

Lemma exact_spent_app m a c : exact_spent m (a ++ c) = exact_spent m a + exact_spent m c.
Proof.
  unfold exact_spent. induction a as [|r a IH]; cbn [app foldr]; [by rewrite N.add_0_l|].
  rewrite IH. apply N.add_assoc.
Qed.

Lemma exact_spent_one m r :
  exact_spent m [r] = if bool_decide (e_mission r.2 = m) then e_cost r.2 else 0.
Proof. cbn [exact_spent foldr]. apply N.add_0_r. Qed.

Lemma owned_app m i a c : owned m i (a ++ c) = owned m i a + owned m i c.
Proof. unfold owned. rewrite List.filter_app. apply exact_spent_app. Qed.

Lemma owned_one m i r :
  owned m i [r] = if bool_decide (r.1 = i) then exact_spent m [r] else 0.
Proof. unfold owned. cbn [List.filter]. by case_bool_decide. Qed.

Lemma exact_spent_take_drop m n rows :
  exact_spent m rows = exact_spent m (take n rows) + exact_spent m (drop n rows).
Proof. by rewrite <- exact_spent_app, take_drop. Qed.

Lemma exact_spent_take_le m n rows : exact_spent m (take n rows) <= exact_spent m rows.
Proof. rewrite (exact_spent_take_drop m n rows). lia. Qed.

Lemma owned_drop_mono m i n n' rows : (n <= n')%nat ->
  owned m i (drop n' rows) <= owned m i (drop n rows).
Proof.
  intros Hn. replace (drop n' rows) with (drop (n' - n) (drop n rows))
    by (rewrite drop_drop; f_equal; lia).
  rewrite <- (take_drop (n' - n) (drop n rows)) at 2. rewrite owned_app. lia.
Qed.

(** Every row of [rows] belongs to one of [n] workers or to another mission. *)
Definition rows_owned (m : string) (n : nat) (rows : list Row) : Prop :=
  Forall (fun r => (r.1 < n)%nat \/ e_mission r.2 <> m) rows.

Lemma exact_spent_owned m n rows : rows_owned m n rows ->
  exact_spent m rows = sumN (fun i => owned m i rows) n.
Proof.
  induction rows as [|r rows IH]; intros H.
  { unfold owned. cbn. by rewrite sumN_zero. }
  apply Forall_cons in H as [Hr Hrs].
  rewrite (sumN_ext _ (fun i => owned m i [r] + owned m i rows)).
  2: { intros i _. apply (owned_app m i [r] rows). }
  rewrite sumN_add, <- IH by done. change (r :: rows) with ([r] ++ rows).
  rewrite exact_spent_app. f_equal. rewrite exact_spent_one.
  destruct Hr as [Hlt|Hm].
  - rewrite (sumN_point _ n r.1 Hlt), owned_one, (bool_decide_true (r.1 = r.1)), exact_spent_one by done.
    rewrite (sumN_ext _ (fun _ => 0)); [rewrite sumN_zero; lia|].
    intros j _. rewrite owned_one. repeat case_bool_decide; done.
  - rewrite bool_decide_false by done. symmetry.
    rewrite (sumN_ext _ (fun _ => 0)); [apply sumN_zero|].
    intros j _. rewrite owned_one, exact_spent_one, (bool_decide_false (e_mission r.2 = m)) by done.
    by case_bool_decide.
Qed.

(** Below [u64::MAX] the ledger's saturating sum is exact. *)
Lemma spent_fold m (rows : list Row) acc :
  total acc + exact_spent m rows <= u64_max ->
  total (fold_left Budget.add_row
           (List.filter (fun e => bool_decide (e_mission e ∈ [m])) rows.*2) acc)
    = total acc + exact_spent m rows.
Proof.
  revert acc. induction rows as [|r rows IH]; intros acc H; cbn [fmap list_fmap List.filter fold_left].
  { cbn. lia. }
  change (r :: rows) with ([r] ++ rows) in H |- *. rewrite exact_spent_app, exact_spent_one in H |- *.
  destruct (decide (e_mission r.2 = m)) as [Hm|Hm].
  - rewrite (bool_decide_true (e_mission r.2 = m)) in H |- * by done.
    rewrite bool_decide_true by (by rewrite list_elem_of_singleton). cbn [fold_left].
    rewrite IH; cbn [Budget.add_row total]; rewrite add_min; lia.
  - rewrite (bool_decide_false (e_mission r.2 = m)) in H |- * by done.
    rewrite bool_decide_false by (rewrite list_elem_of_singleton; done). rewrite IH; lia.
Qed.

Lemma spent_exact m (rows : list Row) : exact_spent m rows <= u64_max ->
  total (Budget.spent rows.*2 m) = exact_spent m rows.
Proof. intros H. unfold Budget.spent, Budget.spent_any. rewrite spent_fold; change (total Spend_default) with 0; lia. Qed.

(** ** Worker updates *)

Lemma at_worker_insert f ws i p j : (i < length ws)%nat ->
  at_worker f (<[i := p]> ws) j = if bool_decide (j = i) then f p else at_worker f ws j.
Proof.
  intros Hi. unfold at_worker. case_bool_decide as Hj; [subst; by rewrite list_lookup_insert_eq|].
  by rewrite list_lookup_insert_ne.
Qed.

Lemma sum_workers_insert f ws i p q : ws !! i = Some p ->
  sum_workers f (<[i := q]> ws) + f p = sum_workers f ws + f q.
Proof.
  intros Hi. pose proof (lookup_lt_Some _ _ _ Hi) as Hlt. unfold sum_workers.
  rewrite length_insert.
  pose proof (sumN_update (at_worker f (<[i:=q]> ws)) (at_worker f ws) (length ws) i Hlt) as H.
  assert (at_worker f ws i = f p) as Hp by (unfold at_worker; by rewrite Hi).
  rewrite at_worker_insert, bool_decide_true, Hp in H by done. apply H.
  intros j Hj. rewrite at_worker_insert, bool_decide_false by done. done.
Qed.

(** ** The invariant *)

Section Invariant.
Context (b : Budget) (mission : string) (prior : list Row).

Definition slack_of (p : Phase) : N := est_of p - used_of p.
Definition cap : N := N.max (limit b) (exact_spent mission prior).

(** A spend that was read is what the first [at_] rows come to. *)
Definition read_ok (rows : list Row) (s : Spend) (at_ : nat) : Prop :=
  (length prior <= at_ <= length rows)%nat /\ total s = exact_spent mission (take at_ rows).

Definition phase_ok (rows : list Row) (i : nat) (p : Phase) : Prop :=
  used_of p <= est_of p /\
  match p with
  | Read s at_ => read_ok rows s at_
  | Reporting _ _ s at_ => read_ok rows s at_ /\ owned mission i (drop at_ rows) = 0
  | _ => True
  end.

(** [w] rows are accounted for in [committed]; what follows them was charged by
    attempts that are still in flight. *)
Record inv_at (w : nat) (sys : System) : Prop := {
  inv_prior : exists rest, ledger sys = prior ++ rest
              /\ rows_owned mission (length (workers sys)) rest;
  inv_reserved : reserved (guard sys) = sum_workers est_of (workers sys);
  inv_exposure : exact_spent mission (ledger sys) + sum_workers slack_of (workers sys) <= cap;
  inv_mark : (w <= length (ledger sys))%nat /\ exact_spent mission (take w (ledger sys)) <= committed (guard sys);
  inv_started : (w < length prior)%nat -> sum_workers est_of (workers sys) = 0;
  inv_owned : forall i, (i < length (workers sys))%nat ->
    owned mission i (drop (Nat.max w (length prior)) (ledger sys)) <= at_worker used_of (workers sys) i;
  inv_phases : forall i p, workers sys !! i = Some p -> phase_ok (ledger sys) i p;
}.
Definition inv (sys : System) : Prop := exists w, inv_at w sys.

Lemma owned_after_mark w sys : inv_at w sys ->
  exact_spent mission (drop (Nat.max w (length prior)) (ledger sys)) <= sum_workers used_of (workers sys).
Proof.
  intros I. destruct (inv_prior w sys I) as (rest & Hrows & Hown).
  rewrite (exact_spent_owned mission (length (workers sys))).
  - apply sumN_le. apply (inv_owned w sys I).
  - rewrite Hrows, drop_app_ge by lia. by apply Forall_drop.
Qed.

Lemma sum_workers_est ws :
  (forall i p, ws !! i = Some p -> used_of p <= est_of p) ->
  sum_workers used_of ws + sum_workers slack_of ws = sum_workers est_of ws.
Proof.
  intros H. unfold sum_workers. rewrite <- sumN_add. apply sumN_ext. intros i Hi.
  destruct (lookup_lt_is_Some_2 ws i Hi) as [p Hp]. specialize (H i p Hp).
  unfold at_worker. rewrite Hp. simpl. unfold slack_of. lia.
Qed.

(** Adding rows at the end keeps what the phases know. *)
Lemma phase_ok_extend rows more i p :
  phase_ok rows i p -> (match p with Reporting _ _ _ _ => owned mission i more = 0 | _ => True end) ->
  phase_ok (rows ++ more) i p.
Proof.
  intros [Hu Hp] Hm. split; [done|]. destruct p as [|s a|e u|e u s a]; [done| |done|].
  - destruct Hp as [Ha Hs]. split; [rewrite length_app; lia|]. rewrite take_app_le by lia. done.
  - destruct Hp as [[Ha Hs] Ho]. split; [split; [rewrite length_app; lia|]|].
    + rewrite take_app_le by lia. done.
    + rewrite drop_app_le, owned_app, Ho, Hm by lia. done.
Qed.

Lemma phases_insert (ws : list Phase) rows i q :
  (forall j p, ws !! j = Some p -> phase_ok rows j p) -> phase_ok rows i q ->
  forall j p, <[i := q]> ws !! j = Some p -> phase_ok rows j p.
Proof.
  intros H Hq j p Hj. destruct (decide (i = j)) as [->|Hne].
  - apply list_lookup_insert_Some in Hj as [(_ & -> & _)|[? _]]; done.
  - rewrite list_lookup_insert_ne in Hj by done. eauto.
Qed.

(** One worker moves; the ledger stays. *)
Lemma inv_phase_change w w' sys g i p q :
  inv_at w sys -> workers sys !! i = Some p ->
  phase_ok (ledger sys) i q ->
  reserved g + est_of p = reserved (guard sys) + est_of q ->
  exact_spent mission (ledger sys) + sum_workers slack_of (<[i := q]> (workers sys)) <= cap ->
  (w <= w' <= length (ledger sys))%nat ->
  exact_spent mission (take w' (ledger sys)) <= committed g ->
  ((w' < length prior)%nat -> est_of q = 0) ->
  owned mission i (drop (Nat.max w' (length prior)) (ledger sys)) <= used_of q ->
  inv_at w' (set_phase sys g i q).
Proof.
  intros I Hi Hq Hres Hexp Hw Hmark Hst Hown.
  pose proof (lookup_lt_Some _ _ _ Hi) as Hlt.
  pose proof (sum_workers_insert est_of _ _ _ q Hi) as Hsum.
  split; cbn [set_phase ledger guard workers].
  - rewrite length_insert. apply (inv_prior w sys I).
  - pose proof (inv_reserved w sys I). lia.
  - done.
  - split; [lia|done].
  - intros Hw'. pose proof (inv_started w sys I ltac:(lia)). specialize (Hst Hw'). lia.
  - intros j Hj. rewrite length_insert in Hj. rewrite at_worker_insert by done.
    case_bool_decide as Hji; [by subst|].
    etransitivity; [|apply (inv_owned w sys I j Hj)]. apply owned_drop_mono. lia.
  - apply phases_insert; [apply (inv_phases w sys I)|done].
Qed.

Lemma slack_change w sys i p q : inv_at w sys -> workers sys !! i = Some p ->
  slack_of q <= slack_of p ->
  exact_spent mission (ledger sys) + sum_workers slack_of (<[i := q]> (workers sys)) <= cap.
Proof.
  intros I Hi Hle. pose proof (sum_workers_insert slack_of _ _ _ q Hi).
  pose proof (inv_exposure w sys I). lia.
Qed.

(** Rows are appended; at most one worker uses its estimate up. *)
Lemma owned_snoc_other i r rows :
  (r.1 <> i \/ e_mission r.2 <> mission) -> owned mission i (rows ++ [r]) = owned mission i rows.
Proof.
  intros H. rewrite owned_app, owned_one, exact_spent_one.
  repeat case_bool_decide; destruct H; try done; lia.
Qed.

Lemma owned_snoc_self i e rows : e_mission e = mission ->
  owned mission i (rows ++ [(i, e)]) = owned mission i rows + e_cost e.
Proof. intros H. rewrite owned_app, owned_one, exact_spent_one, !bool_decide_true by done. done. Qed.

Lemma inv_charge w sys i est used e :
  inv_at w sys -> workers sys !! i = Some (Running est used) ->
  e_mission e = mission -> used + e_cost e <= est ->
  inv_at w (mkSystem (ledger sys ++ [(i, e)]) (guard sys)
              (<[i := Running est (used + e_cost e)]> (workers sys))).
Proof.
  intros I Hi Hm Hle. pose proof (lookup_lt_Some _ _ _ Hi) as Hlt.
  set (q := Running est (used + e_cost e)).
  pose proof (sum_workers_insert est_of _ _ _ q Hi) as Hest.
  pose proof (sum_workers_insert slack_of _ _ _ q Hi) as Hslack.
  pose proof (inv_mark w sys I) as [Hw Hmark].
  destruct (inv_prior w sys I) as (rest & Hrows & Hown).
  assert (Hprior : (length prior <= length (ledger sys))%nat)
    by (rewrite Hrows, length_app; lia).
  split; cbn [ledger guard workers]; rewrite ?length_insert.
  - exists (rest ++ [(i, e)]). rewrite Hrows, app_assoc. split; [done|].
    apply Forall_app. split; [done|]. repeat constructor. done.
  - pose proof (inv_reserved w sys I). simpl in Hest. lia.
  - rewrite exact_spent_app, exact_spent_one, bool_decide_true by done.
    pose proof (inv_exposure w sys I). unfold slack_of in Hslack at 2 4. simpl in Hslack |- *. lia.
  - rewrite length_app, take_app_le by lia. split; [lia|done].
  - intros H. pose proof (inv_started w sys I H). simpl in Hest. lia.
  - intros j Hj. rewrite at_worker_insert by done. rewrite drop_app_le by lia.
    pose proof (inv_owned w sys I j Hj) as Ho. case_bool_decide as Hji.
    + subst j. rewrite owned_snoc_self by done. unfold at_worker in Ho. rewrite Hi in Ho.
      simpl in *. lia.
    + rewrite owned_snoc_other; [done|]. left. simpl. congruence.
  - intros j p Hj. destruct (decide (i = j)) as [<-|Hne].
    + rewrite list_lookup_insert_eq in Hj by done. injection Hj as <-. by split.
    + rewrite list_lookup_insert_ne in Hj by done.
      apply phase_ok_extend; [by apply (inv_phases w sys I)|].
      destruct p; try done. rewrite owned_one. by rewrite bool_decide_false.
Qed.

Lemma inv_foreign w sys e : inv_at w sys -> e_mission e <> mission ->
  inv_at w (mkSystem (ledger sys ++ [(0%nat, e)]) (guard sys) (workers sys)).
Proof.
  intros I Hm. pose proof (inv_mark w sys I) as [Hw Hmark].
  destruct (inv_prior w sys I) as (rest & Hrows & Hown).
  assert (Hprior : (length prior <= length (ledger sys))%nat)
    by (rewrite Hrows, length_app; lia).
  split; cbn [ledger guard workers].
  - exists (rest ++ [(0%nat, e)]). rewrite Hrows, app_assoc. split; [done|].
    apply Forall_app. split; [done|]. apply Forall_singleton. by right.
  - apply (inv_reserved w sys I).
  - rewrite exact_spent_app, exact_spent_one, bool_decide_false by done.
    pose proof (inv_exposure w sys I). lia.
  - rewrite length_app, take_app_le by lia. split; [lia|done].
  - apply (inv_started w sys I).
  - intros j Hj. rewrite drop_app_le by lia. rewrite owned_snoc_other by (by right).
    by apply (inv_owned w sys I).
  - intros j p Hj. apply phase_ok_extend; [by apply (inv_phases w sys I)|].
    destruct p; try done. rewrite owned_one, exact_spent_one, (bool_decide_false (e_mission _ = _)) by done.
    by case_bool_decide.
Qed.

(** What the invariant gives every step. *)
Lemma inv_prior_length w sys : inv_at w sys -> (length prior <= length (ledger sys))%nat.
Proof. intros I. destruct (inv_prior w sys I) as (rest & -> & _). rewrite length_app. lia. Qed.

Lemma inv_read_ok w sys : limit b <= u64_max -> exact_spent mission prior <= u64_max ->
  inv_at w sys -> read_ok (ledger sys) (read_spend mission sys) (length (ledger sys)).
Proof.
  intros Hlim Hpr I. split; [pose proof (inv_prior_length w sys I); lia|].
  rewrite take_ge by lia. apply spent_exact.
  pose proof (inv_exposure w sys I) as Hexp. unfold cap in Hexp. lia.
Qed.

Lemma inv_unused w sys i p w' : inv_at w sys -> workers sys !! i = Some p ->
  (w <= w')%nat ->
  owned mission i (drop (Nat.max w' (length prior)) (ledger sys)) <= used_of p.
Proof.
  intros I Hi Hw'. pose proof (inv_owned w sys I i (lookup_lt_Some _ _ _ Hi)) as Ho.
  unfold at_worker in Ho. rewrite Hi in Ho. etransitivity; [|exact Ho].
  apply owned_drop_mono. lia.
Qed.

Lemma inv_est_reserved w sys i p : inv_at w sys -> workers sys !! i = Some p ->
  est_of p <= reserved (guard sys).
Proof.
  intros I Hi. rewrite (inv_reserved w sys I).
  pose proof (sumN_term (at_worker est_of (workers sys)) _ i (lookup_lt_Some _ _ _ Hi)) as H.
  unfold at_worker at 1 in H. by rewrite Hi in H.
Qed.

Lemma release_exact r est : est <= r -> BudgetGuard.release r est + est = r.
Proof. intros H. unfold BudgetGuard.release, checked_sub. destruct_cmp; lia. Qed.

(** What the reservation pool and the accounted rows say of the whole ledger: the
    guard's sum bounds everything charged or still chargeable. *)
Lemma exposure_bound w at_ sys : inv_at w sys -> (length prior <= at_)%nat ->
  exact_spent mission (ledger sys) + sum_workers slack_of (workers sys)
    <= exact_spent mission (take (Nat.max w at_) (ledger sys)) + reserved (guard sys).
Proof.
  intros I Hat. pose proof (owned_after_mark w sys I) as Hafter.
  pose proof (sum_workers_est (workers sys)
                (fun j p Hj => proj1 (inv_phases w sys I j p Hj))) as Hall.
  rewrite <- (inv_reserved w sys I) in Hall.
  rewrite (exact_spent_take_drop mission (Nat.max w at_) (ledger sys)).
  assert (exact_spent mission (drop (Nat.max w at_) (ledger sys))
            <= exact_spent mission (drop (Nat.max w (length prior)) (ledger sys))); [|lia].
  rewrite <- (take_drop (Nat.max w at_ - Nat.max w (length prior))
                (drop (Nat.max w (length prior)) (ledger sys))).
  rewrite exact_spent_app, drop_drop.
  replace (Nat.max w (length prior) + (Nat.max w at_ - Nat.max w (length prior)))%nat
    with (Nat.max w at_) by lia. lia.
Qed.

Lemma mark_max w sys at_ s c : inv_at w sys -> total s = exact_spent mission (take at_ (ledger sys)) ->
  N.max (committed (guard sys)) (total s) <= c ->
  exact_spent mission (take (Nat.max w at_) (ledger sys)) <= c.
Proof.
  intros I Hs Hc. pose proof (inv_mark w sys I) as [_ Hmark].
  destruct (Nat.max_spec w at_) as [[_ ->]|[_ ->]]; lia.
Qed.

(** A worker whose new phase holds nothing: it read, was refused, or let go. *)
Lemma inv_to_free w sys g i p q : inv_at w sys -> workers sys !! i = Some p ->
  used_of p = 0 -> est_of q = 0 -> phase_ok (ledger sys) i q ->
  committed (guard sys) <= committed g -> reserved g + est_of p = reserved (guard sys) ->
  inv_at w (set_phase sys g i q).
Proof.
  intros I Hi Hp Hq Hok Hc Hr. pose proof (inv_mark w sys I) as [Hw Hmark].
  assert (Huq : used_of q = 0) by (destruct Hok; lia).
  eapply inv_phase_change; eauto; try lia.
  - eapply slack_change; eauto. unfold slack_of. lia.
  - rewrite Huq, <- Hp. by eapply inv_unused.
Qed.

Lemma inv_reserve w sys i s at_ est : inv_at w sys -> workers sys !! i = Some (Read s at_) ->
  match BudgetGuard.reserve b (guard sys) s est with
  | (Ok est', g) => inv (set_phase sys g i (Running est' 0))
  | (Err _, g) => inv (set_phase sys g i Idle)
  end.
Proof.
  intros I Hi. pose proof (inv_phases w sys I i _ Hi) as [_ [Hat Htot]].
  unfold BudgetGuard.reserve, BudgetGuard.admit_attempt.
  set (c := N.max (committed (guard sys)) (total s)) in *.
  assert (Hrefused : inv (set_phase sys (mkGuard c (reserved (guard sys))) i Idle)).
  { exists w. eapply inv_to_free; eauto; simpl; [split; [simpl|]; done|lia|lia]. }
  destruct (checked_add (reserved (guard sys)) est) as [next|] eqn:Hnext; [|done].
  destruct (checked_add c next) as [t|] eqn:Ht; [|done].
  destruct (N.leb_spec t (limit b)) as [Hfit|Hno]; [|done].
  apply checked_add_Some in Hnext as [-> _]. apply checked_add_Some in Ht as [-> _].
  pose proof (mark_max w sys at_ s c I Htot ltac:(lia)) as Hmark.
  pose proof (exposure_bound w at_ sys I ltac:(lia)) as Hexp.
  pose proof (sum_workers_insert slack_of _ _ _ (Running est 0) Hi) as Hsl.
  unfold slack_of in Hsl at 2 4. simpl in Hsl.
  pose proof (inv_mark w sys I) as [Hw _].
  exists (Nat.max w at_). eapply inv_phase_change; eauto; simpl; try lia.
  - split; [simpl; lia|done].
  - unfold cap. lia.
  - eapply (inv_unused w sys i (Read s at_)); eauto. lia.
Qed.

Lemma inv_report w sys i est used : limit b <= u64_max -> exact_spent mission prior <= u64_max ->
  inv_at w sys -> workers sys !! i = Some (Running est used) ->
  inv_at w (set_phase sys (guard sys) i
              (Reporting est used (read_spend mission sys) (length (ledger sys)))).
Proof.
  intros Hlim Hpr I Hi. pose proof (inv_phases w sys I i _ Hi) as [Hu _]. simpl in Hu.
  pose proof (inv_mark w sys I) as [Hw Hmark]. pose proof (inv_est_reserved w sys i _ I Hi) as Hr.
  eapply inv_phase_change; eauto; simpl.
  - split; [done|]. split; [by eapply inv_read_ok|]. by rewrite drop_ge.
  - eapply slack_change; eauto; done.
  - intros H. pose proof (inv_started w sys I H) as H0.
    rewrite <- (inv_reserved w sys I) in H0. simpl in Hr. lia.
  - eapply (inv_unused w sys i (Running est used)); eauto.
Qed.

Lemma inv_settle w sys i est used s at_ : inv_at w sys ->
  workers sys !! i = Some (Reporting est used s at_) ->
  inv_at (Nat.max w at_) (set_phase sys (BudgetGuard.settle (guard sys) s est) i Idle).
Proof.
  intros I Hi. pose proof (inv_phases w sys I i _ Hi) as [Hu [[Hat Htot] Ho]].
  pose proof (inv_est_reserved w sys i _ I Hi) as Hr. simpl in Hr.
  pose proof (inv_mark w sys I) as [Hw _].
  eapply inv_phase_change; eauto; simpl; try lia.
  - by split.
  - pose proof (release_exact _ _ Hr). lia.
  - eapply slack_change; eauto. unfold slack_of. simpl. lia.
  - by apply (mark_max w sys at_ s).
  - rewrite <- Ho. apply owned_drop_mono. lia.
Qed.

Lemma inv_step sys ev sys' : limit b <= u64_max -> exact_spent mission prior <= u64_max ->
  inv sys -> is_panic ev = false -> step b mission sys ev = Some sys' -> inv sys'.
Proof.
  intros Hlim Hpr [w I] Hnp Hs.
  destruct ev as [i|i est|i e|e|i|i|i|i]; simpl in Hs; try done;
    try (destruct (workers sys !! i) as [[|s at_|est' used|est' used s at_]|] eqn:Hi; try done).
  - injection Hs as <-. exists w. eapply inv_to_free; eauto; simpl; try lia.
    split; [done|]. by eapply inv_read_ok.
  - pose proof (inv_reserve w sys i s at_ est I Hi) as H.
    destruct (BudgetGuard.reserve _ _ _ _) as [[?|?] ?]; by injection Hs as <-.
  - destruct (bool_decide _ && _) eqn:Hg; [|done]. injection Hs as <-. bool_to_prop.
    exists w. eapply inv_charge; eauto. by apply N.leb_le.
  - case_bool_decide as Hm; [done|]. injection Hs as <-. exists w. by apply inv_foreign.
  - injection Hs as <-. exists w. by apply inv_report.
  - injection Hs as <-. exists (Nat.max w at_). by eapply inv_settle.
  - destruct used; [|done]. injection Hs as <-.
    pose proof (inv_est_reserved w sys i _ I Hi) as Hr. simpl in Hr.
    exists w. eapply inv_to_free; eauto; simpl; first [by split|by apply release_exact].
Qed.

Lemma inv_start n : inv (start prior n).
Proof.
  assert (Hz : forall f, f Idle = 0 -> forall i, at_worker f (repeat Idle n) i = 0).
  { intros f Hf i. unfold at_worker. destruct (repeat Idle n !! i) as [p|] eqn:Hi; [|done].
    apply list_elem_of_lookup_2, list_elem_of_In, repeat_spec in Hi. by subst. }
  assert (Hsum : forall f, f Idle = 0 -> sum_workers f (repeat Idle n) = 0).
  { intros f Hf. unfold sum_workers. rewrite (sumN_ext _ (fun _ => 0)); [apply sumN_zero|].
    intros i _. by apply Hz. }
  exists 0%nat. split; simpl.
  - exists []. rewrite app_nil_r. split; [done|constructor].
  - by rewrite Hsum.
  - rewrite Hsum by done. unfold cap. lia.
  - split; [lia|]. done.
  - intros _. by apply Hsum.
  - intros i _. rewrite Hz, drop_ge by (done || lia). done.
  - intros i p Hi. apply list_elem_of_lookup_2, list_elem_of_In, repeat_spec in Hi. by subst.
Qed.

Lemma inv_run evs sys sys' : limit b <= u64_max -> exact_spent mission prior <= u64_max ->
  inv sys -> forallb (fun ev => negb (is_panic ev)) evs = true ->
  run b mission sys evs = Some sys' -> inv sys'.
Proof.
  intros Hlim Hpr. revert sys. induction evs as [|ev evs IH]; intros sys I Hnp Hr; simpl in *.
  - by injection Hr as <-.
  - destruct (step b mission sys ev) as [sys1|] eqn:Hs; [|done]. bool_to_prop.
    eapply IH; [|done|exact Hr]. by eapply inv_step.
Qed.
End Invariant.

(** ** The claims *)

(** C2. A mission never overshoots its limit.  However its workers interleave reading
    the ledger, reserving, being charged and settling, and whatever other missions
    write meanwhile, the ledger never shows the mission more than its limit (or than it
    had already spent at the start), as long as no attempt is charged more than the
    estimate it reserved. *)
Theorem budget_never_overshoots b mission prior n evs sys :
  limit b <= u64_max ->
  exact_spent mission prior <= u64_max ->
  forallb (fun ev => negb (is_panic ev)) evs = true ->
  run b mission (start prior n) evs = Some sys ->
  total (Budget.spent (ledger sys).*2 mission) <= N.max (limit b) (exact_spent mission prior).
Proof.
  intros Hlim Hpr Hnp Hr.
  destruct (inv_run b mission prior evs _ _ Hlim Hpr (inv_start b mission prior n) Hnp Hr) as [w I].
  pose proof (inv_exposure _ _ _ _ _ I) as H. unfold cap in H. rewrite spent_exact; lia.
Qed.

Definition sample_row (mission : string) (c : N) : LedgerEntry :=
  mkLedgerEntry mission "t" 1 "model" "provider" (TokenUsage.new 0 0 0)
    (mkModelPrice 0 0 0) c false false 0 0 Completed.

(** Two workers under a limit of 100; the second read of worker 1 is stale. *)
Definition sample_run : list Event :=
  [EvRead 0; EvRead 1; EvReserve 0 60; EvCharge 0 (sample_row "m" 55); EvReport 0; EvSettle 0;
   EvReserve 1 45; EvCharge 1 (sample_row "m" 44); EvForeign (sample_row "other" 9)].

Lemma budget_never_overshoots_witness :
  exists sys, run (Budget.new 100) "m" (start [] 2) sample_run = Some sys /\
    total (Budget.spent (ledger sys).*2 "m") <= 100.
Proof.
  destruct (run (Budget.new 100) "m" (start [] 2) sample_run) as [sys|] eqn:Hr;
    [|vm_compute in Hr; discriminate].
  exists sys. split; [done|].
  apply (budget_never_overshoots (Budget.new 100) "m" [] 2 sample_run sys);
    [vm_compute; discriminate|vm_compute; discriminate|reflexivity|exact Hr].
Defined.

(** The bound needs every charged attempt to settle.  When an attempt unwinds after
    it was charged, [Drop] returns its reservation without folding the charge in, and a
    worker whose ledger read is older than the charge is admitted against money already
    spent: 120 of 100. *)
Theorem unsettled_charge_overshoots :
  exists evs sys, run (Budget.new 100) "m" (start [] 2) evs = Some sys /\
    total (Budget.spent (ledger sys).*2 "m") = 120.
Proof.
  exists [EvRead 0; EvRead 1; EvReserve 0 60; EvCharge 0 (sample_row "m" 60); EvPanic 0;
          EvReserve 1 60; EvCharge 1 (sample_row "m" 60)].
  eexists. split; [reflexivity|vm_compute; reflexivity].
Qed.

(** Admission is exact: an attempt is admitted when, and only when, what is committed
    (the larger of the guard's and the ledger's number), what is reserved and the estimate
    fit the limit; an admitted attempt adds exactly its estimate to the pool, a refused
    one nothing. *)
Theorem reserve_admits_exactly b st s est :
  limit b <= u64_max ->
  let c := N.max (committed st) (total s) in
  BudgetGuard.reserve b st s est =
    if c + reserved st + est <=? limit b
    then (Ok est, mkGuard c (reserved st + est))
    else (Err (Exhausted c est (limit b)), mkGuard c (reserved st)).
Proof.
  intros Hlim c. unfold BudgetGuard.reserve, BudgetGuard.admit_attempt. fold c.
  set (m := u64_max) in *. unfold checked_add. fold m. clearbody m c.
  rewrite <- N.add_assoc. set (next := reserved st + est).
  assert (Hn : next <= c + next) by lia.
  destruct (N.leb_spec (c + next) (limit b)) as [Hfit|Hno].
  - rewrite (proj2 (N.leb_le next m)), (proj2 (N.leb_le (c + next) m)) by lia.
    by rewrite (proj2 (N.leb_le (c + next) (limit b))).
  - destruct (next <=? m); [|done]. destruct (c + next <=? m); [|done].
    by rewrite (proj2 (N.leb_gt (c + next) (limit b))).
Qed.

Lemma reserve_admits_exactly_witness :
  BudgetGuard.reserve (Budget.new 100) (mkGuard 40 30) (mkSpend 1 50) 20
  = (Ok 20, mkGuard 50 50).
Proof.
  rewrite (reserve_admits_exactly (Budget.new 100) (mkGuard 40 30) (mkSpend 1 50) 20);
    [reflexivity|vm_compute; discriminate].
Defined.
