(* ===== verification/Policy.v ===== *)
(** * Policy: model ranking and the escalation ladder
    ([crates/susi-harness/src/policy.rs], with [PriceCatalogue::price] and
    [Registry::canonical_id])

    What the ledger teaches ([history], [cooling_providers], [failed_models]), how it
    orders the models of a task ([arrange], [rank_models]), and the ladder that decides
    each attempt, with what the loop of [run_task] ([adapter.rs]) does to it after a failed
    one ([after_failure]).  A [BTreeMap] is a [gmap]. *)

From S2P Require Import Prelude Money SpendLedger Text.

Local Open Scope N_scope.

(** ** Profiles and records *)

Record UsageProfile : Type := mkUsageProfile {
  up_input : N;
  up_cached : N;
  up_output : N;
}.

Module UsageProfile.
Definition agent : UsageProfile := mkUsageProfile 200000 150000 20000.
Definition usage (p : UsageProfile) (caches : bool) : TokenUsage :=
  let cached := if caches then up_cached p else 0 in
  TokenUsage.new (up_input p) cached (up_output p).
End UsageProfile.

Record ModelHistory : Type := mkModelHistory {
  h_calls : N;
  h_failures : N;
  h_cost : N;
  h_input : N;
  h_cache_hit : N;
  h_latency_ms : N;
  h_timed_calls : N;
}.

Definition ModelHistory_default : ModelHistory := mkModelHistory 0 0 0 0 0 0 0.

Definition RELIABILITY_EVIDENCE : N := 3.

Module ModelHistory.
Definition successes (h : ModelHistory) : N := h_calls h - h_failures h.
Definition cache_share_permille (h : ModelHistory) : option N :=
  checked_div (saturating_mul (h_cache_hit h) 1000) (h_input h).
Definition mean_latency_ms (h : ModelHistory) : option N :=
  checked_div (h_latency_ms h) (h_timed_calls h).
Definition unreliable (h : ModelHistory) : bool :=
  (RELIABILITY_EVIDENCE <=? h_calls h)
  && (saturating_mul (successes h) 2 <? h_calls h).
End ModelHistory.

(** ** History *)

(** The rows of one attempt: mission, task, attempt number and model. *)
Definition AttemptKey : Type := string * string * N * string.
Definition key_of (e : LedgerEntry) : AttemptKey :=
  (e_mission e, e_task e, e_attempt e, e_model e).

Definition is_failure_row (e : LedgerEntry) : bool :=
  match e_outcome e with ModelFailed _ | Rejected _ => true | _ => false end.
Definition is_completed (e : LedgerEntry) : bool :=
  match e_outcome e with Completed => true | _ => false end.

(** One row folded into its attempt's slot. *)
Definition attempt_row (slot : ModelHistory) (e : LedgerEntry) : ModelHistory :=
  let cost := add (h_cost slot) (e_cost e) in
  let failures := if is_failure_row e then 1 else h_failures slot in
  if e_cached e then
    mkModelHistory 1 failures cost (h_input slot) (h_cache_hit slot)
      (h_latency_ms slot) (h_timed_calls slot)
  else
    let timed := is_completed e in
    mkModelHistory 1 failures cost
      (saturating_add (h_input slot) (input (e_usage e)))
      (saturating_add (h_cache_hit slot) (cache_hit (e_usage e)))
      (if timed then saturating_add (h_latency_ms slot) (latency_ms e) else h_latency_ms slot)
      (if timed then saturating_add (h_timed_calls slot) 1 else h_timed_calls slot).

Definition attempts_of (entries : list LedgerEntry) : gmap AttemptKey ModelHistory :=
  fold_left
    (fun m e => <[key_of e := attempt_row (default ModelHistory_default (m !! key_of e)) e]> m)
    entries ∅.

Definition merge_history (slot a : ModelHistory) : ModelHistory :=
  mkModelHistory (saturating_add (h_calls slot) (h_calls a))
    (saturating_add (h_failures slot) (h_failures a))
    (add (h_cost slot) (h_cost a))
    (saturating_add (h_input slot) (h_input a))
    (saturating_add (h_cache_hit slot) (h_cache_hit a))
    (saturating_add (h_latency_ms slot) (h_latency_ms a))
    (saturating_add (h_timed_calls slot) (h_timed_calls a)).

Definition into_history (k : AttemptKey) (a : ModelHistory) (m : gmap string ModelHistory)
  : gmap string ModelHistory :=
  <[k.2 := merge_history (default ModelHistory_default (m !! k.2)) a]> m.

(** [history]: the second loop runs over the attempts; its sums saturate, so they do
    not depend on the order of the fold. *)
Definition history (entries : list LedgerEntry) : gmap string ModelHistory :=
  map_fold into_history ∅ (attempts_of entries).

(** ** Names *)

Section Registry.
(** The alias table of the registry in force. *)
Context (aliases : gmap string string).

Fixpoint follow (n : nat) (name : string) : string :=
  match n with
  | O => name
  | S n' => match aliases !! name with
            | Some target => if bool_decide (target = name) then name else follow n' target
            | None => name
            end
  end.

(** [Registry::canonical_id]. *)
Definition canonical (model : string) : string :=
  let name := trim model in
  let name := match strip_prefix "susi/" name with Some s => trim s | None => name end in
  follow 4 name.

Definition PriceCatalogue : Type := gmap string ModelPrice.

(** [PriceCatalogue::price]. *)
Definition price (c : PriceCatalogue) (model : string) : option ModelPrice :=
  match c !! model with
  | Some p => Some p
  | None => c !! canonical model
  end.

(** [latencies]. *)
Definition latencies (entries : list LedgerEntry) : gmap string N :=
  let timed : gmap string (N * N) :=
    map_fold (fun model record m =>
      let slot := default (0, 0) (m !! canonical model) in
      <[canonical model := (saturating_add slot.1 (h_latency_ms record),
                            saturating_add slot.2 (h_timed_calls record))]> m)
      ∅ (history entries) in
  omap (fun tc => checked_div tc.1 tc.2) timed.
End Registry.

(** ** Providers and models that failed *)

Definition COOLDOWN_MS : N := 10 * 60 * 1000.

Definition no_credit_or_limited (c : FailureClass) : bool :=
  match c with NoCredit | RateLimited => true | _ => false end.

(** One row of the window folded into the streaks: the count is a [u32]. *)
Definition streak_row (streaks : gmap string (N * bool)) (e : LedgerEntry) : gmap string (N * bool) :=
  match e_outcome e with
  | ModelFailed class =>
      let s := default (0, false) (streaks !! e_provider e) in
      <[e_provider e := (saturating_add32 s.1 1, s.2 || no_credit_or_limited class)]> streaks
  | Completed => if negb (e_cached e) then delete (e_provider e) streaks else streaks
  | Accepted | Rejected _ | Cancelled => streaks
  end.

Definition is_cooling (s : N * bool) : bool := s.2 || (2 <=? s.1).

Definition recent_rows (entries : list LedgerEntry) (now_unix_ms : N) : list LedgerEntry :=
  sort_by_key e_ended_unix_ms
    (List.filter (fun e => now_unix_ms <=? saturating_add (e_ended_unix_ms e) COOLDOWN_MS) entries).

(** [cooling_providers]. *)
Definition cooling_providers (entries : list LedgerEntry) (now_unix_ms : N) : gset string :=
  dom (filter (fun kv => is_cooling kv.2 = true)
         (fold_left streak_row (recent_rows entries now_unix_ms) ∅)).

Record ModelFailure : Type := mkModelFailure {
  at_unix_ms : N;
  class : FailureClass;
}.

Definition definitive (f : ModelFailure) : bool := bool_decide (class f = NoCredit).

(** What a row says of its model: [None] when it is not a provider call. *)
Definition call_result (e : LedgerEntry) : option (option FailureClass) :=
  match e_outcome e with
  | Completed => if negb (e_cached e) then Some None else None
  | ModelFailed c => Some (Some c)
  | Accepted | Rejected _ | Cancelled => None
  end.

Definition last_call_row (aliases : gmap string string)
    (last : gmap string (N * option FailureClass)) (e : LedgerEntry)
  : gmap string (N * option FailureClass) :=
  match call_result e with
  | None => last
  | Some failure =>
      let k := canonical aliases (e_model e) in
      let slot := default (0, None) (last !! k) in
      <[k := if slot.1 <=? e_ended_unix_ms e then (e_ended_unix_ms e, failure) else slot]> last
  end.

(** [failed_models]. *)
Definition failed_models (aliases : gmap string string) (entries : list LedgerEntry)
  : gmap string ModelFailure :=
  omap (fun s => match s.2 with Some c => Some (mkModelFailure s.1 c) | None => None end)
    (fold_left (last_call_row aliases) entries ∅).

(** [in_force]. *)
Definition still_in_force (now_unix_ms : N) (f : ModelFailure) : bool :=
  definitive f || (now_unix_ms <=? saturating_add (at_unix_ms f) COOLDOWN_MS).
Definition in_force (failures : gmap string ModelFailure) (now_unix_ms : N)
  : gmap string ModelFailure :=
  filter (fun kv => still_in_force now_unix_ms kv.2 = true) failures.

(** ** Orders *)

(** [escalation_order]. *)
Definition escalation_order (ladder : list string) (strong : string -> bool) : list string :=
  List.filter strong ladder ++ List.filter (fun m => negb (strong m)) ladder.

Record Standing : Type := mkStanding {
  st_history : gmap string ModelHistory;
  st_cooling : gset string;
  st_failed : gmap string ModelFailure;
}.

(** [models.contains(model)] before each push. *)
Definition push_new (models : list string) (m : string) : list string :=
  if bool_decide (m ∈ models) then models else models ++ [m].

Section Arrange.
Context (aliases : gmap string string) (st : Standing) (provider_of : string -> option string).

Definition failure (model : string) : option ModelFailure := st_failed st !! canonical aliases model.

Definition is_definitive (model : string) : bool :=
  match failure model with Some f => definitive f | None => false end.

Definition standing (model : string) : N :=
  if (match failure model with Some _ => true | None => false end)
     || (match provider_of model with
         | Some p => bool_decide (p ∈ st_cooling st)
         | None => false
         end)
  then 2
  else if (match st_history st !! model with
           | Some r => ModelHistory.unreliable r
           | None => false
           end)
  then 1 else 0.

(** [arrange]. *)
Definition arrange (preferred : string) (ladder : list string) : list string :=
  let models := fold_left push_new ladder [preferred] in
  let models := List.filter (fun m => negb (is_definitive m)) models in
  sort_by_key standing models.
End Arrange.

(** ** Ranking *)

Record Candidate : Type := mkCandidate {
  c_model : string;
  c_expected_cost : N;
}.

(** [expected_cost]: [saturating_mul] of [MicroUsd] and of [u128]; the product of two
    [u64] fits a [u128]. *)
Definition expected_cost (base : N) (h : ModelHistory) : N :=
  if h_calls h =? 0 then base
  else
    let successes := ModelHistory.successes h in
    if successes =? 0 then saturating_mul base (saturating_add (h_calls h) 1)
    else
      let average := div_ceil (h_cost h) (h_calls h) in
      let attempts := div_ceil (h_calls h) successes in
      N.min (N.min (average * attempts) u128_max) u64_max.

Definition candidate_le (a c : Candidate) : Prop :=
  c_expected_cost a < c_expected_cost c \/
  (c_expected_cost a = c_expected_cost c /\ String.le (c_model a) (c_model c)).

#[export] Instance candidate_le_dec : RelDecision candidate_le.
Proof. intros a c. unfold candidate_le. apply _. Defined.

#[export] Instance candidate_le_total : Total candidate_le.
Proof.
  intros a c. unfold candidate_le.
  destruct (N.lt_trichotomy (c_expected_cost a) (c_expected_cost c)) as [H|[H|H]]; auto.
  destruct (total String.le (c_model a) (c_model c)); auto.
Qed.

#[export] Instance candidate_le_trans : Transitive candidate_le.
Proof.
  intros a c d [H1|[H1 H1']] [H2|[H2 H2']]; unfold candidate_le; try (left; lia).
  right. split; [lia|]. by etransitivity.
Qed.

Section Ranking.
Context (aliases : gmap string string) (catalogue : PriceCatalogue) (profile : UsageProfile)
        (hist : gmap string ModelHistory).

Definition expected (model : string) : N :=
  let record := default ModelHistory_default (hist !! model) in
  match price aliases catalogue model with
  | Some p =>
      let cached :=
        match ModelHistory.cache_share_permille record with
        | Some share => saturating_mul (up_input profile) share / 1000
        | None => 0
        end in
      expected_cost (cost p (TokenUsage.new (up_input profile) cached (up_output profile))) record
  | None => u64_max
  end.

(** [rank_models]: [seen] keeps the first of equal names. *)
Fixpoint unseen (seen : gset string) (l : list string) : list string :=
  match l with
  | [] => []
  | m :: l' => if bool_decide (m ∈ seen) then unseen seen l' else m :: unseen ({[m]} ∪ seen) l'
  end.

Definition rank_models (candidates : list string) : result (list Candidate) string :=
  match candidates with
  | [] => Err "no candidate models"%string
  | _ => Ok (merge_sort candidate_le
               ((fun m => mkCandidate m (expected m)) <$> unseen ∅ candidates))
  end.
End Ranking.

(** ** Failures *)

Inductive FailureKind : Type :=
| Transient | KTimeout | Semantic | ContextOverflow | Executor.

#[export] Instance FailureKind_eq_dec : EqDecision FailureKind.
Proof. solve_decision. Defined.

Definition TRANSIENT : list string :=
  ["rate limit"; "rate_limit"; "429"; "overloaded"; "temporarily"; "unavailable";
   "connection"; "network"; "502"; "503"; "504"]%string.
Definition TIMEOUT : list string := ["timed out"; "timeout"; "deadline exceeded"]%string.
Definition CONTEXT : list string :=
  ["context_length_exceeded"; "context length"; "maximum context"; "context window";
   "prompt is too long"; "input is too long"; "exceeds the maximum number of tokens";
   "input token count"]%string.

(** [FailureKind::classify]. *)
Definition classify (message : string) : FailureKind :=
  let text := to_ascii_lowercase message in
  if existsb (fun needle => contains needle text) CONTEXT then ContextOverflow
  else if existsb (fun needle => contains needle text) TIMEOUT then KTimeout
  else if existsb (fun needle => contains needle text) TRANSIENT then Transient
  else Semantic.

Definition kind_prefix (k : FailureKind) : string :=
  match k with
  | Transient => "transient" | KTimeout => "timeout" | Semantic => "semantic"
  | ContextOverflow => "context" | Executor => "executor"
  end.

(** [signature]: each byte of a character outside ASCII becomes a blank, as the
    character does, and runs of blanks are one. *)
Definition signature (kind : FailureKind) (message : string) : string :=
  let prefix := kind_prefix kind in
  match kind with
  | KTimeout => prefix
  | _ =>
      let normalised :=
        map_string (fun c => if is_ascii_alphanumeric c || Stdlib.Strings.Ascii.eqb c blank then c else blank)
          (to_ascii_lowercase message) in
      let condensed := String.concat " " (split_blanks normalised) in
      let tail := take_chars 160 condensed in
      match tail with
      | EmptyString => prefix
      | _ => (prefix +:+ ": " +:+ tail)%string
      end
  end.

(** ** The ladder *)

Record Policy : Type := mkPolicy {
  max_attempts : N;
  max_same_model : N;
  retry_transient : bool;
  stop_on_repeat : bool;
}.

Definition Policy_default : Policy := mkPolicy 4 2 true true.

Record Attempt : Type := mkAttempt {
  a_model : string;
  a_number : N;
}.

#[export] Instance Attempt_eq_dec : EqDecision Attempt.
Proof. solve_decision. Defined.

Inductive StopReason : Type :=
| ExhaustedLadder
| Stuck (signature : string).

#[export] Instance StopReason_eq_dec : EqDecision StopReason.
Proof. solve_decision. Defined.

Inductive NextAttempt : Type :=
| DoAttempt (a : Attempt)
| Stop (r : StopReason).

Record Ladder : Type := mkLadder {
  ranked : list string;
  policy : Policy;
  index : N;
  used : N;
  same_model : N;
  pending_same_model : bool;
  signatures : gmap string string;
  stuck : option string;
  contexts : gmap string N;
}.

Module Ladder.
Definition new (r : list string) (p : Policy) : Ladder := mkLadder r p 0 0 0 false ∅ None ∅.

Definition with_contexts (l : Ladder) (c : gmap string N) : Ladder :=
  mkLadder (ranked l) (policy l) (index l) (used l) (same_model l) (pending_same_model l)
    (signatures l) (stuck l) c.

Definition current_model (l : Ladder) : option string := ranked l !! N.to_nat (index l).

Definition arrange (l : Ladder) (r : list string) : Ladder :=
  mkLadder r (policy l) 0 (used l) (same_model l) false (signatures l) (stuck l) (contexts l).

Definition set_stuck (l : Ladder) (s : string) : Ladder :=
  mkLadder (ranked l) (policy l) (index l) (used l) (same_model l) (pending_same_model l)
    (signatures l) (Some s) (contexts l).
Definition set_signatures (l : Ladder) (m : gmap string string) : Ladder :=
  mkLadder (ranked l) (policy l) (index l) (used l) (same_model l) (pending_same_model l)
    m (stuck l) (contexts l).
Definition set_pending (l : Ladder) : Ladder :=
  mkLadder (ranked l) (policy l) (index l) (used l) (same_model l) true
    (signatures l) (stuck l) (contexts l).
(** [index = i; same_model = 0]. *)
Definition move_to (l : Ladder) (i : N) : Ladder :=
  mkLadder (ranked l) (policy l) i (used l) 0 (pending_same_model l)
    (signatures l) (stuck l) (contexts l).

(** [next_attempt]. *)
Definition next_attempt (l : Ladder) : NextAttempt * Ladder :=
  match stuck l with
  | Some s => (Stop (Stuck s), l)
  | None =>
      if (max_attempts (policy l) <=? used l) || (N.of_nat (length (ranked l)) <=? index l)
      then (Stop ExhaustedLadder, l)
      else
        let model := default EmptyString (current_model l) in
        let used' := saturating_add (used l) 1 in
        let same := if pending_same_model l then saturating_add (same_model l) 1 else 1 in
        (DoAttempt (mkAttempt model (if used' <=? u32_max then used' else u32_max)),
         mkLadder (ranked l) (policy l) (index l) used' same false
           (signatures l) (stuck l) (contexts l))
  end.

(** The first position at or after [pos] whose window is unknown or larger. *)
Fixpoint larger_window (ctx : gmap string N) (held : N) (pos : N) (l : list string) : option N :=
  match l with
  | [] => None
  | m :: l' =>
      if (match ctx !! m with None => true | Some w => held <? w end) then Some pos
      else larger_window ctx held (pos + 1) l'
  end.

Definition retry_or_move (l : Ladder) (kind : FailureKind) : Ladder :=
  let retry_same :=
    bool_decide (kind = Transient) && retry_transient (policy l)
    && (same_model l <? max_same_model (policy l)) in
  if retry_same then set_pending l else move_to l (saturating_add (index l) 1).

(** [record]. *)
Definition record (l : Ladder) (model : string) (kind : FailureKind) (message : string) : Ladder :=
  match kind with
  | Executor => set_stuck l "executor"
  | ContextOverflow =>
      let held := default 0 (contexts l !! model) in
      let from := saturating_add (index l) 1 in
      match larger_window (contexts l) held from (drop (N.to_nat from) (ranked l)) with
      | Some position => move_to l position
      | None =>
          set_stuck l ("context: no model on the ladder has a larger window than " +:+ model)%string
      end
  | _ =>
      let sig := signature kind message in
      if stop_on_repeat (policy l) then
        match signatures l !! sig with
        | Some previous =>
            if bool_decide (previous = model) then retry_or_move l kind else set_stuck l sig
        | None => retry_or_move (set_signatures l (<[sig := model]> (signatures l))) kind
        end
      else retry_or_move l kind
  end.
End Ladder.

(** ** What the ledger teaches *)

Lemma saturating_add_min_r a c n : a = N.min n u64_max -> saturating_add a c = N.min (n + c) u64_max.
Proof. unfold saturating_add. lia. Qed.

(** The attempts of one model. *)
Definition model_attempts (m : string) (atts : gmap AttemptKey ModelHistory)
  : gmap AttemptKey ModelHistory := filter (fun kv => kv.1.2 = m) atts.

Lemma attempt_row_bounds slot e :
  h_calls (attempt_row slot e) = 1 /\
  (h_failures slot <= 1 -> h_failures (attempt_row slot e) <= 1).
Proof. unfold attempt_row. by destruct (e_cached e), (is_failure_row e). Qed.

Lemma attempts_of_bounds entries k a : attempts_of entries !! k = Some a ->
  h_calls a = 1 /\ h_failures a <= 1.
Proof.
  unfold attempts_of.
  assert (H0 : forall k a, (∅ : gmap AttemptKey ModelHistory) !! k = Some a ->
                h_calls a = 1 /\ h_failures a <= 1) by (intros ? ?; by rewrite lookup_empty).
  revert H0. generalize (∅ : gmap AttemptKey ModelHistory). revert k a.
  induction entries as [|e es IH]; intros k a m Hm; cbn [fold_left]; [by apply Hm|].
  apply IH. clear k a. intros k a Hk. apply lookup_insert_Some in Hk as [[<- <-]|[_ Hk]]; [|by eauto].
  destruct (attempt_row_bounds (default ModelHistory_default (m !! key_of e)) e) as [Hc Hf].
  split; [done|]. apply Hf. destruct (m !! key_of e) as [a|] eqn:Ha; simpl; [|lia].
  by apply Hm in Ha as [_ Ha].
Qed.

(** What [history] holds for a model after any set of attempts was folded in. *)
Definition history_ok (h : gmap string ModelHistory) (atts : gmap AttemptKey ModelHistory) : Prop :=
  forall m, match h !! m with
            | None => model_attempts m atts = ∅
            | Some r => h_calls r = N.min (N.of_nat (size (model_attempts m atts))) u64_max
                        /\ h_failures r <= h_calls r
            end.

Lemma history_ok_step k a atts h : atts !! k = None -> h_calls a = 1 -> h_failures a <= 1 ->
  history_ok h atts -> history_ok (into_history k a h) (<[k := a]> atts).
Proof.
  intros Hk Hc Hf Hok m. unfold into_history, model_attempts in *.
  destruct (decide (k.2 = m)) as [<-|Hne].
  - rewrite lookup_insert_eq, map_filter_insert_True by done.
    rewrite map_size_insert_None by (apply map_lookup_filter_None; by left).
    specialize (Hok k.2). unfold model_attempts in Hok.
    rewrite Nat2N.inj_succ. cbn [merge_history h_calls h_failures]. rewrite Hc.
    destruct (h !! k.2) as [r|]; cbn [default from_option id].
    + destruct Hok as [Hr Hle]. unfold saturating_add. lia.
    + rewrite Hok, map_size_empty. simpl h_calls. simpl h_failures.
      unfold saturating_add, u64_max. lia.
  - rewrite lookup_insert_ne by done. specialize (Hok m). unfold model_attempts in Hok.
    rewrite map_filter_insert_False, delete_id by done. done.
Qed.

Lemma history_ok_all entries : history_ok (history entries) (attempts_of entries).
Proof.
  unfold history. pose proof (attempts_of_bounds entries) as Hb.
  revert Hb. generalize (attempts_of entries). intros atts.
  apply (map_fold_weak_ind (fun h atts =>
    (forall k a, atts !! k = Some a -> h_calls a = 1 /\ h_failures a <= 1) -> history_ok h atts)).
  - intros _ m. rewrite lookup_empty. unfold model_attempts. apply map_filter_empty.
  - intros k a m h Hk IH Hb. destruct (Hb k a) as [Hc Hf]; [apply lookup_insert_eq|].
    apply history_ok_step; try done. apply IH. intros k' a' Hk'. apply (Hb k').
    rewrite lookup_insert_ne; [done|]. congruence.
Qed.

(** ** Streaks and last calls, provider by provider *)

(** The streak one provider's rows leave. *)
Definition streak_of (s : option (N * bool)) (e : LedgerEntry) : option (N * bool) :=
  match e_outcome e with
  | ModelFailed c =>
      let s := default (0, false) s in
      Some (saturating_add32 s.1 1, s.2 || no_credit_or_limited c)
  | Completed => if e_cached e then s else None
  | _ => s
  end.

Lemma streak_row_lookup m e p :
  streak_row m e !! p = if bool_decide (e_provider e = p) then streak_of (m !! p) e else m !! p.
Proof.
  unfold streak_row, streak_of. case_bool_decide as Hp; [subst p|].
  - destruct (e_outcome e); try done; [destruct (e_cached e); simpl; [done|by rewrite lookup_delete_eq]|].
    by rewrite lookup_insert_eq.
  - destruct (e_outcome e); try done; [destruct (e_cached e); simpl; [done|by rewrite lookup_delete_ne]|].
    by rewrite lookup_insert_ne.
Qed.

Lemma streaks_lookup rows m p :
  fold_left streak_row rows m !! p
  = fold_left streak_of (List.filter (fun e => bool_decide (e_provider e = p)) rows) (m !! p).
Proof.
  revert m. induction rows as [|e rows IH]; intros m; [done|]. cbn [fold_left List.filter].
  rewrite IH, streak_row_lookup. by case_bool_decide.
Qed.

Lemma cooling_iff rows p :
  p ∈ dom (filter (fun kv => is_cooling kv.2 = true) (fold_left streak_row rows ∅)) <->
  exists s, fold_left streak_of (List.filter (fun e => bool_decide (e_provider e = p)) rows) None = Some s
            /\ is_cooling s = true.
Proof.
  rewrite elem_of_dom. unfold is_Some. setoid_rewrite map_lookup_filter_Some.
  rewrite streaks_lookup, lookup_empty. done.
Qed.

(** The calls of one model, in ledger order, with what each said. *)
Definition calls_of (aliases : gmap string string) (m : string) (entries : list LedgerEntry)
  : list (N * option FailureClass) :=
  omap (fun e => if bool_decide (canonical aliases (e_model e) = m)
                 then (fun f => (e_ended_unix_ms e, f)) <$> call_result e else None) entries.

Definition later (slot c : N * option FailureClass) : N * option FailureClass :=
  if slot.1 <=? c.1 then c else slot.

Lemma last_call_row_lookup aliases last e m :
  last_call_row aliases last e !! m =
  match (if bool_decide (canonical aliases (e_model e) = m)
         then (fun f => (e_ended_unix_ms e, f)) <$> call_result e else None) with
  | Some c => Some (later (default (0, None) (last !! m)) c)
  | None => last !! m
  end.
Proof.
  unfold last_call_row, later. destruct (call_result e) as [f|]; simpl.
  - case_bool_decide as Hm; [subst m; by rewrite lookup_insert_eq|by rewrite lookup_insert_ne].
  - by case_bool_decide.
Qed.

Lemma last_calls_lookup aliases entries last m :
  fold_left (last_call_row aliases) entries last !! m =
  match calls_of aliases m entries with
  | [] => last !! m
  | cs => Some (fold_left later cs (default (0, None) (last !! m)))
  end.
Proof.
  revert last. induction entries as [|e es IH]; intros last; [done|].
  cbn [fold_left]. rewrite IH, last_call_row_lookup.
  change (calls_of aliases m (e :: es)) with
    (match (if bool_decide (canonical aliases (e_model e) = m)
            then (fun f => (e_ended_unix_ms e, f)) <$> call_result e else None) with
     | Some c => c :: calls_of aliases m es | None => calls_of aliases m es end).
  destruct (if bool_decide _ then _ else _) as [c|]; [|done]. cbn [default from_option id].
  by destruct (calls_of aliases m es).
Qed.

Lemma later_last_max cs c : fold_left later cs c = last_max_from fst c cs.
Proof.
  revert c. induction cs as [|x cs IH]; intros c; [done|]. cbn [fold_left last_max_from].
  unfold later at 2. destruct (_ <=? _); apply IH.
Qed.

(** ** The ladder's discipline *)

(** What one failed attempt of a task tells the ladder: the class and the message of
    the failure, and the order [rank_alternates] rebuilds from the ledger after it. *)
Record Round : Type := mkRound {
  r_kind : FailureKind;
  r_message : string;
  rearranged : list string;
}.

(** The attempt's model is off the rebuilt order, so the ladder is seated on it. *)
Definition reseats (model : string) (r : Round) : bool :=
  negb (bool_decide (rearranged r = [])) && negb (bool_decide (model ∈ rearranged r)).

(** The ladder after a failed attempt of [run_task]'s loop: [record], then [arrange]
    when the rebuilt order drops the model just tried. *)
Definition after_failure (l : Ladder) (model : string) (r : Round) : Ladder :=
  let l := Ladder.record l model (r_kind r) (r_message r) in
  if reseats model r then Ladder.arrange l (rearranged r) else l.

(** The attempts of a task none of which is accepted, while the budget admits them. *)
Fixpoint play (l : Ladder) (rounds : list Round) : list Attempt :=
  match rounds with
  | [] => []
  | r :: rs =>
      match Ladder.next_attempt l with
      | (DoAttempt a, l1) => a :: play (after_failure l1 (a_model a) r) rs
      | (Stop _, _) => []
      end
  end.

Definition attempts_on (m : string) (l : list Attempt) : nat :=
  length (List.filter (fun a => bool_decide (a_model a = m)) l).

(** How often the ladder was seated on an order that lists [m]. *)
Definition relisted (m : string) (attempts : list Attempt) (rounds : list Round) : nat :=
  length (List.filter (fun ar => reseats (a_model ar.1) ar.2 && bool_decide (m ∈ rearranged ar.2))
            (zip attempts rounds)).

(** What [next_attempt] selects. *)
Lemma next_attempt_DoAttempt l a l1 : Ladder.next_attempt l = (DoAttempt a, l1) ->
  stuck l = None /\ used l < max_attempts (policy l) /\
  ranked l !! N.to_nat (index l) = Some (a_model a) /\
  l1 = mkLadder (ranked l) (policy l) (index l) (saturating_add (used l) 1)
         (if pending_same_model l then saturating_add (same_model l) 1 else 1) false
         (signatures l) (stuck l) (contexts l).
Proof.
  unfold Ladder.next_attempt, Ladder.current_model. intros H.
  destruct (stuck l) as [|] eqn:Hs; [done|].
  destruct (N.leb_spec (max_attempts (policy l)) (used l)) as [|Hu]; [done|].
  destruct (N.leb_spec (N.of_nat (length (ranked l))) (index l)) as [|Hi]; [done|].
  cbn [orb] in H. injection H as <- <-. repeat split; [lia|].
  destruct (lookup_lt_is_Some_2 (ranked l) (N.to_nat (index l))) as [m Hm]; [lia|].
  by rewrite Hm.
Qed.

Lemma larger_window_ge ctx held pos l p :
  Ladder.larger_window ctx held pos l = Some p -> pos <= p.
Proof.
  revert pos. induction l as [|m l IH]; intros pos H; simpl in H; [done|].
  destruct (match ctx !! m with None => true | Some w => held <? w end).
  - injection H as <-. lia.
  - apply IH in H. lia.
Qed.

(** The three ways a failure changes the ladder: stop, the same model again, further down. *)
Inductive recorded (l l' : Ladder) (kind : FailureKind) : Prop :=
| recorded_stuck : stuck l' <> None -> recorded l l' kind
| recorded_again : stuck l' = stuck l -> ranked l' = ranked l -> policy l' = policy l ->
    used l' = used l -> index l' = index l -> same_model l' = same_model l ->
    pending_same_model l' = true -> kind = Transient ->
    same_model l < max_same_model (policy l) -> recorded l l' kind
| recorded_down : stuck l' = stuck l -> ranked l' = ranked l -> policy l' = policy l ->
    used l' = used l -> index l < index l' -> pending_same_model l' = pending_same_model l ->
    recorded l l' kind.

Lemma retry_or_move_recorded l l0 kind : index l < u64_max ->
  ranked l = ranked l0 -> policy l = policy l0 -> used l = used l0 -> index l = index l0 ->
  same_model l = same_model l0 -> pending_same_model l = pending_same_model l0 -> stuck l = stuck l0 ->
  recorded l0 (Ladder.retry_or_move l kind) kind.
Proof.
  intros Hi Hr Hp Hu Hix Hsm Hpe Hs. unfold Ladder.retry_or_move.
  destruct (bool_decide (kind = Transient) && _ && _) eqn:E.
  - bool_to_prop. apply recorded_again; simpl; try congruence. rewrite <- Hsm, <- Hp. by apply N.ltb_lt.
  - apply recorded_down; simpl; try congruence. rewrite saturating_add_exact by lia. lia.
Qed.

Lemma record_recorded l model kind msg : index l < u64_max ->
  recorded l (Ladder.record l model kind msg) kind.
Proof.
  intros Hi. unfold Ladder.record.
  assert (Hsem : recorded l
    (if stop_on_repeat (policy l) then
       match signatures l !! signature kind msg with
       | Some previous =>
           if bool_decide (previous = model) then Ladder.retry_or_move l kind
           else Ladder.set_stuck l (signature kind msg)
       | None => Ladder.retry_or_move
                   (Ladder.set_signatures l (<[signature kind msg := model]> (signatures l))) kind
       end
     else Ladder.retry_or_move l kind) kind).
  { destruct (stop_on_repeat (policy l)); [|by apply retry_or_move_recorded].
    destruct (signatures l !! _); [case_bool_decide|]; try (by apply retry_or_move_recorded).
    by apply recorded_stuck. }
  destruct kind; try exact Hsem; clear Hsem; [|by apply recorded_stuck].
  destruct (Ladder.larger_window _ _ _ _) as [p|] eqn:Hw; [|by apply recorded_stuck].
  apply larger_window_ge in Hw. rewrite saturating_add_exact in Hw by lia.
  apply recorded_down; simpl; try done. lia.
Qed.

Lemma after_failure_stuck l model r :
  stuck (after_failure l model r) = stuck (Ladder.record l model (r_kind r) (r_message r)).
Proof. unfold after_failure. by destruct (reseats model r). Qed.

Lemma play_stuck l rs : stuck l <> None -> play l rs = [].
Proof.
  intros H. destruct rs as [|r rs]; [done|]. simpl. unfold Ladder.next_attempt.
  by destruct (stuck l).
Qed.

(** A ladder the operations can be in: models once each, indices of a real vector. *)
Record ladder_ok (l : Ladder) : Prop := {
  ok_nodup : NoDup (ranked l);
  ok_len : N.of_nat (length (ranked l)) < u64_max;
  ok_max : max_attempts (policy l) <= u64_max;
  ok_same : max_same_model (policy l) <= u64_max;
  ok_pending : pending_same_model l = true -> same_model l < max_same_model (policy l);
}.

(** An order [Policy.arrange] can give: each model once, in a real vector. *)
Definition order_ok (ms : list string) : Prop := NoDup ms /\ N.of_nat (length ms) < u64_max.

(** The models the ladder can still offer without being seated again. *)
Definition ahead (l : Ladder) : list string := drop (N.to_nat (index l)) (ranked l).

Lemma record_step l k msg a l1 : ladder_ok l -> Ladder.next_attempt l = (DoAttempt a, l1) ->
  let l2 := Ladder.record l1 (a_model a) k msg in
  stuck l2 <> None \/ (ladder_ok l2 /\ used l2 = used l + 1 /\ ranked l2 = ranked l /\
    policy l2 = policy l /\
    ((index l2 = index l /\ pending_same_model l2 = true /\ k = Transient /\
      same_model l2 = if pending_same_model l then same_model l + 1 else 1)
     \/ (index l < index l2 /\ pending_same_model l2 = false))).
Proof.
  intros Hok Hn l2. destruct (next_attempt_DoAttempt _ _ _ Hn) as (Hs & Hu & Hm & Hl1).
  apply lookup_lt_Some in Hm. destruct Hok as [Hnd Hl Hmax Hsame Hpend].
  assert (Hus1 : used l1 = used l + 1) by (subst l1; apply saturating_add_exact; lia).
  assert (Hsm1 : same_model l1 = if pending_same_model l then same_model l + 1 else 1).
  { subst l1. simpl. destruct (pending_same_model l); [|done]. specialize (Hpend eq_refl).
    apply saturating_add_exact. lia. }
  assert (Hf : ranked l1 = ranked l /\ policy l1 = policy l /\ index l1 = index l
               /\ pending_same_model l1 = false) by (by subst l1).
  clear Hl1. destruct Hf as (Fr & Fp & Fi & Fpe).
  destruct (record_recorded l1 (a_model a) k msg ltac:(lia) : recorded _ l2 k) as
    [?|H1 H2 H3 H4 H5 H6 H7 H8 H9|H1 H2 H3 H4 H5 H6]; [by left| |]; right.
  - split; [split; rewrite ?H2, ?H3, ?Fr, ?Fp; try done; intros _; rewrite H6, <- Fp; done|].
    repeat split; try congruence. left. repeat split; congruence.
  - split; [split; rewrite ?H2, ?H3, ?Fr, ?Fp; try done; congruence|].
    repeat split; try congruence. right. split; [by rewrite <- Fi|congruence].
Qed.

(** The current model is ahead; one passed by is not. *)
Lemma ahead_current l m : ranked l !! N.to_nat (index l) = Some m -> m ∈ ahead l.
Proof. intros H. unfold ahead. rewrite (drop_S _ m _ H). apply list_elem_of_here. Qed.

Lemma ahead_passed l l2 m : NoDup (ranked l) -> ranked l2 = ranked l ->
  ranked l !! N.to_nat (index l) = Some m -> index l < index l2 -> m ∉ ahead l2.
Proof.
  intros Hnd Hr Hm Hi [j Hj]%list_elem_of_lookup. unfold ahead in Hj.
  rewrite Hr, lookup_drop in Hj. pose proof (NoDup_lookup _ _ _ _ Hnd Hm Hj). lia.
Qed.

Lemma ahead_down l l2 m : ranked l2 = ranked l -> index l <= index l2 -> m ∈ ahead l2 -> m ∈ ahead l.
Proof.
  intros Hr Hi [j Hj]%list_elem_of_lookup. unfold ahead in *. rewrite Hr, lookup_drop in Hj.
  apply list_elem_of_lookup. exists (N.to_nat (index l2) - N.to_nat (index l) + j)%nat.
  rewrite lookup_drop. rewrite <- Hj. f_equal. lia.
Qed.

(** One failed attempt: the ladder stops, is seated on the rebuilt order, tries the model
    again, or goes down. *)
Lemma play_step l r a l1 : ladder_ok l -> order_ok (rearranged r) ->
  Ladder.next_attempt l = (DoAttempt a, l1) ->
  let l2 := after_failure l1 (a_model a) r in
  stuck l2 <> None \/ (ladder_ok l2 /\ used l2 = used l + 1 /\ policy l2 = policy l /\
    ((reseats (a_model a) r = true /\ ahead l2 = rearranged r /\ pending_same_model l2 = false)
     \/ (reseats (a_model a) r = false /\ ranked l2 = ranked l /\ index l2 = index l /\
         pending_same_model l2 = true /\ r_kind r = Transient /\
         same_model l2 = if pending_same_model l then same_model l + 1 else 1)
     \/ (reseats (a_model a) r = false /\ ranked l2 = ranked l /\ index l < index l2 /\
         pending_same_model l2 = false))).
Proof.
  intros Hok [Hnd Hlen] Hn l2. unfold l2. rewrite after_failure_stuck. clear l2. unfold after_failure.
  destruct (record_step l (r_kind r) (r_message r) a l1 Hok Hn)
    as [?|([? ? ? ? ?] & Hus & Hr & Hp & Hix)]; [by left|].
  right. set (l2 := Ladder.record _ _ _ _) in *. destruct (reseats (a_model a) r).
  - split; [by split|]. split_and!; [done..|]. left. by split_and!.
  - split; [by split|]. split_and!; [done..|]. right. naive_solver.
Qed.

(** A model no longer ahead comes back only when the ladder is seated on an order that
    lists it. *)
Lemma play_returns l rs m j a : ladder_ok l -> Forall (fun r => order_ok (rearranged r)) rs ->
  m ∉ ahead l -> play l rs !! j = Some a -> a_model a = m ->
  exists k b r, (k < j)%nat /\ play l rs !! k = Some b /\ rs !! k = Some r /\
                reseats (a_model b) r = true /\ m ∈ rearranged r.
Proof.
  revert l j. induction rs as [|r rs IH]; intros l j Hok Hrs Hm Ha Heq; [done|].
  apply Forall_cons in Hrs as [Hr Hrs]. cbn [play] in *.
  destruct (Ladder.next_attempt l) as [[a0|] l1] eqn:Hn; [|done].
  pose proof (next_attempt_DoAttempt _ _ _ Hn) as (_ & _ & Hm0 & _).
  destruct j as [|j]; cbn [lookup list_lookup] in Ha.
  { injection Ha as ->. subst m. destruct Hm. by apply ahead_current. }
  destruct (play_step l r a0 l1 Hok Hr Hn) as [Hst|(Hok2 & _ & _ & Hix)].
  { by rewrite play_stuck in Ha. }
  set (l2 := after_failure _ _ _) in *.
  assert (m ∉ ahead l2 \/ reseats (a_model a0) r = true /\ m ∈ rearranged r) as [Hm2|[Hre Hin]].
  { destruct Hix as [(Hre & Hah & _)|[(_ & Hr2 & Hi & _)|(_ & Hr2 & Hi & _)]].
    - destruct (decide (m ∈ rearranged r)); [by right|left; by rewrite Hah].
    - left. intros Hin. apply Hm. apply (ahead_down l l2); [done|lia|done].
    - left. intros Hin. apply Hm. apply (ahead_down l l2); [done|lia|done]. }
  - destruct (IH l2 j Hok2 Hrs Hm2 Ha Heq) as (k & b & r' & Hk & H1 & H2 & H3 & H4).
    exists (S k), b, r'. split_and!; [lia|done..].
  - exists 0%nat, a0, r. split_and!; [lia|done..].
Qed.

Lemma play_length l rs : ladder_ok l -> Forall (fun r => order_ok (rearranged r)) rs ->
  N.of_nat (length (play l rs)) <= max_attempts (policy l) - used l.
Proof.
  revert l. induction rs as [|r rs IH]; intros l Hok Hrs; simpl; [lia|].
  apply Forall_cons in Hrs as [Hr Hrs].
  destruct (Ladder.next_attempt l) as [[a0|] l1] eqn:Hn; [|simpl; lia].
  pose proof (next_attempt_DoAttempt _ _ _ Hn) as (_ & Hu & _).
  destruct (play_step l r a0 l1 Hok Hr Hn) as [Hst|(Hok2 & Hus & Hp & _)].
  - rewrite play_stuck by done. simpl. lia.
  - specialize (IH _ Hok2 Hrs). rewrite Hus, Hp in IH. simpl. lia.
Qed.

(** What one seating of the ladder leaves to a model: nothing once it is passed by, the
    rest of its round when a retry of it is pending, a round of its own otherwise. *)
Definition a_round (p : Policy) : N := N.max 1 (max_same_model p).

Definition allowance (l : Ladder) (m : string) : N :=
  if bool_decide (m ∈ ahead l) then
    if pending_same_model l && bool_decide (Ladder.current_model l = Some m)
    then max_same_model (policy l) - same_model l
    else a_round (policy l)
  else 0.

Lemma allowance_le l m : allowance l m <= a_round (policy l).
Proof. unfold allowance, a_round. repeat case_match; lia. Qed.

Lemma allowance_current l m : ladder_ok l -> ranked l !! N.to_nat (index l) = Some m ->
  allowance l m = (if pending_same_model l then max_same_model (policy l) - same_model l
                   else a_round (policy l)) /\ 1 <= allowance l m.
Proof.
  intros Hok Hm. unfold allowance. rewrite bool_decide_true by by apply ahead_current.
  unfold Ladder.current_model. rewrite Hm, bool_decide_true, andb_true_r by done.
  split; [done|]. pose proof (ok_pending l Hok) as Hp. unfold a_round.
  destruct (pending_same_model l); [specialize (Hp eq_refl)|]; lia.
Qed.

(** A step that does not seat the ladder again leaves another model no more than it had. *)
Lemma allowance_down l l2 m m0 : ladder_ok l -> ranked l2 = ranked l -> policy l2 = policy l ->
  ranked l !! N.to_nat (index l) = Some m0 -> m <> m0 ->
  (index l2 = index l \/ index l < index l2 /\ pending_same_model l2 = false) ->
  allowance l2 m <= allowance l m.
Proof.
  intros Hok Hr Hp Hm0 Hne Hi. unfold allowance. rewrite Hp.
  case_bool_decide as Hin2; [|lia].
  rewrite (bool_decide_true (m ∈ ahead l)) by (apply (ahead_down l l2); [done|lia|done]).
  assert (bool_decide (Ladder.current_model l = Some m) = false) as ->.
  { apply bool_decide_eq_false. unfold Ladder.current_model. rewrite Hm0. congruence. }
  rewrite andb_false_r. destruct Hi as [Hi|[_ ->]]; [|done].
  assert (bool_decide (Ladder.current_model l2 = Some m) = false) as ->.
  { apply bool_decide_eq_false. unfold Ladder.current_model. rewrite Hr, Hi, Hm0. congruence. }
  by rewrite andb_false_r.
Qed.

Lemma attempts_on_cons m a l :
  attempts_on m (a :: l) = ((if bool_decide (a_model a = m) then 1 else 0) + attempts_on m l)%nat.
Proof. unfold attempts_on. cbn [List.filter]. by case_bool_decide. Qed.

Lemma relisted_cons m a l r rs :
  relisted m (a :: l) (r :: rs)
  = ((if reseats (a_model a) r && bool_decide (m ∈ rearranged r) then 1 else 0) + relisted m l rs)%nat.
Proof. unfold relisted. cbn [zip zip_with List.filter fst snd]. by destruct (_ && _). Qed.

Lemma reseats_drops m r : reseats m r = true -> m ∉ rearranged r.
Proof. unfold reseats. intros [_ H%negb_true_iff]%andb_prop. by apply bool_decide_eq_false in H. Qed.

(** The allowance of the ladder after one attempt, and the round its re-seating grants. *)
Lemma allowance_step l r a l1 m : ladder_ok l -> order_ok (rearranged r) ->
  Ladder.next_attempt l = (DoAttempt a, l1) ->
  let l2 := after_failure l1 (a_model a) r in stuck l2 = None ->
  (if bool_decide (a_model a = m) then 1 else 0) + allowance l2 m
  <= allowance l m
     + (if reseats (a_model a) r && bool_decide (m ∈ rearranged r) then a_round (policy l) else 0).
Proof.
  intros Hok Hr Hn l2 Hs. pose proof (next_attempt_DoAttempt _ _ _ Hn) as (_ & _ & Hm0 & _).
  destruct (play_step l r a l1 Hok Hr Hn) as [Hst|(Hok2 & _ & Hp & Hix)]; [done|]. fold l2 in Hok2, Hp, Hix.
  destruct (allowance_current l _ Hok Hm0) as [Hcur Hone].
  destruct Hix as [(Hre & Hah & _)|[(Hre & Hr2 & Hi & Hpe & _ & Hsm)|(Hre & Hr2 & Hi & Hpe)]];
    rewrite Hre; cbn [andb].
  - pose proof (allowance_le l2 m) as Hle. rewrite Hp in Hle. unfold allowance at 1. unfold allowance at 1 in Hle.
    rewrite Hah in *. repeat case_bool_decide; subst; try lia.
  - case_bool_decide as Hm; [subst m|].
    + destruct (allowance_current l2 (a_model a) Hok2) as [-> _]; [by rewrite Hr2, Hi|].
      rewrite Hcur, Hpe, Hp, Hsm. pose proof (ok_pending l2 Hok2 Hpe) as Hlt. rewrite Hp, Hsm in Hlt.
      unfold a_round. destruct (pending_same_model l); lia.
    + pose proof (allowance_down l l2 m _ Hok Hr2 Hp Hm0 (not_eq_sym Hm) (or_introl Hi)). lia.
  - case_bool_decide as Hm; [subst m|].
    + unfold allowance at 1. rewrite bool_decide_false; [lia|].
      by apply (ahead_passed l l2 (a_model a) (ok_nodup l Hok)).
    + pose proof (allowance_down l l2 m _ Hok Hr2 Hp Hm0 (not_eq_sym Hm) (or_intror (conj Hi Hpe))). lia.
Qed.

Lemma play_count l rs m : ladder_ok l -> Forall (fun r => order_ok (rearranged r)) rs ->
  N.of_nat (attempts_on m (play l rs))
  <= allowance l m + a_round (policy l) * N.of_nat (relisted m (play l rs) rs).
Proof.
  revert l. induction rs as [|r rs IH]; intros l Hok Hrs; cbn [play]; [apply N.le_0_l|].
  apply Forall_cons in Hrs as [Hr Hrs].
  destruct (Ladder.next_attempt l) as [[a0|] l1] eqn:Hn; [|apply N.le_0_l].
  rewrite attempts_on_cons, relisted_cons. set (l2 := after_failure l1 (a_model a0) r) in *.
  destruct (stuck l2) as [sig|] eqn:Hs.
  { rewrite play_stuck by congruence. pose proof (next_attempt_DoAttempt _ _ _ Hn) as (_ & _ & Hm0 & _).
    destruct (allowance_current l _ Hok Hm0) as [_ Hone]. cbn [attempts_on List.filter length].
    case_bool_decide; [subst m|]; unfold attempts_on; cbn [List.filter length]; lia. }
  pose proof (allowance_step l r a0 l1 m Hok Hr Hn Hs) as Hal. fold l2 in Hal.
  destruct (play_step l r a0 l1 Hok Hr Hn) as [Hst|(Hok2 & _ & Hp & _)]; [by destruct Hst|].
  specialize (IH _ Hok2 Hrs). fold l2 in IH, Hp. rewrite Hp in IH.
  rewrite !Nat2N.inj_add. destruct (bool_decide (a_model a0 = m)), (_ && _); nia.
Qed.

Lemma new_ok r p : NoDup r -> N.of_nat (length r) < u64_max -> max_attempts p <= u64_max ->
  max_same_model p <= u64_max -> ladder_ok (Ladder.new r p).
Proof. by split. Qed.

(** After an attempt that failed other than transiently, or whose model the rebuilt order
    drops, that model comes back only by a later seating that lists it. *)
Lemma play_no_retry l rs i r a : ladder_ok l -> Forall (fun r => order_ok (rearranged r)) rs ->
  rs !! i = Some r -> play l rs !! i = Some a ->
  r_kind r <> Transient \/ reseats (a_model a) r = true ->
  forall j a', (i < j)%nat -> play l rs !! j = Some a' -> a_model a' = a_model a ->
  exists k b r', (i < k < j)%nat /\ play l rs !! k = Some b /\ rs !! k = Some r' /\
                 reseats (a_model b) r' = true /\ a_model a ∈ rearranged r'.
Proof.
  revert l i. induction rs as [|r0 rs IH]; intros l i Hok Hrs Hf Ha Hk j a' Hij Ha' Heq; [done|].
  apply Forall_cons in Hrs as [Hr Hrs].
  cbn [play] in *. destruct (Ladder.next_attempt l) as [[a0|] l1] eqn:Hn; [|done].
  destruct j as [|j]; [lia|]. cbn [lookup list_lookup] in Ha'.
  destruct (play_step l r0 a0 l1 Hok Hr Hn) as [Hst|(Hok2 & _ & _ & Hix)].
  { by rewrite play_stuck in Ha'. }
  set (l2 := after_failure l1 (a_model a0) r0) in *. destruct i as [|i].
  - injection Hf as ->. injection Ha as ->.
    apply next_attempt_DoAttempt in Hn as (_ & _ & Hm & _).
    assert (a_model a ∉ ahead l2) as Hgone.
    { destruct Hix as [(Hre & Hah & _)|[(Hre & _ & _ & _ & Ht & _)|(_ & Hr2 & Hi & _)]].
      - rewrite Hah. by apply reseats_drops.
      - by destruct Hk; congruence.
      - by apply (ahead_passed l l2 (a_model a) (ok_nodup l Hok)). }
    destruct (play_returns l2 rs _ j a' Hok2 Hrs Hgone Ha' Heq) as (k & b & r' & ? & ? & ? & ? & ?).
    exists (S k), b, r'. split_and!; [lia|lia|done..].
  - destruct (IH l2 i Hok2 Hrs Hf Ha Hk j a') as (k & b & r' & ? & ? & ? & ? & ?); [lia|done|done|].
    exists (S k), b, r'. split_and!; [lia|lia|done..].
Qed.

(** ** Repeated failures *)

Definition has_signature (k : FailureKind) : Prop := k <> Executor /\ k <> ContextOverflow.

Lemma retry_or_move_signatures l k :
  signatures (Ladder.retry_or_move l k) = signatures l /\
  policy (Ladder.retry_or_move l k) = policy l.
Proof. unfold Ladder.retry_or_move. by destruct (_ && _). Qed.

(** What was recorded stays recorded; a failure on record is met again only by its model. *)
Lemma record_signatures l model k msg :
  stop_on_repeat (policy l) = true ->
  let l' := Ladder.record l model k msg in
  policy l' = policy l /\
  (forall sig m, signatures l !! sig = Some m -> signatures l' !! sig = Some m) /\
  (has_signature k -> stuck l' <> None \/ signatures l' !! signature k msg = Some model) /\
  (has_signature k -> forall m, signatures l !! signature k msg = Some m -> m <> model -> stuck l' <> None).
Proof.
  intros Hrep. unfold Ladder.record, has_signature.
  assert (Hsem : forall sig, let l' :=
      match signatures l !! sig with
      | Some previous =>
          if bool_decide (previous = model) then Ladder.retry_or_move l k else Ladder.set_stuck l sig
      | None => Ladder.retry_or_move (Ladder.set_signatures l (<[sig := model]> (signatures l))) k
      end in
      policy l' = policy l /\
      (forall sig' m, signatures l !! sig' = Some m -> signatures l' !! sig' = Some m) /\
      (stuck l' <> None \/ signatures l' !! sig = Some model) /\
      (forall m, signatures l !! sig = Some m -> m <> model -> stuck l' <> None)).
  { intros sig. cbv zeta. destruct (signatures l !! sig) as [prev|] eqn:Hsig; [case_bool_decide as Hp|].
    - destruct (retry_or_move_signatures l k) as [-> ->]. naive_solver.
    - simpl. naive_solver.
    - destruct (retry_or_move_signatures (Ladder.set_signatures l (<[sig := model]> (signatures l))) k)
        as [-> ->]. simpl. split_and!; [done| |right; apply lookup_insert_eq|done].
      intros sig' m Hm. rewrite lookup_insert_ne; [done|congruence]. }
  rewrite Hrep. specialize (Hsem (signature k msg)). revert Hsem.
  generalize (signature k msg). intros sig (Hp & Hkeep & Hadd & Hst).
  destruct k; try (split_and!; [exact Hp|exact Hkeep|intros _; exact Hadd|intros _; exact Hst]).
  - destruct (Ladder.larger_window _ _ _ _); split_and!; try done; intros [_ ?]; done.
  - split_and!; try done; intros [? _]; done.
Qed.

Lemma next_attempt_signatures l a l1 : Ladder.next_attempt l = (DoAttempt a, l1) ->
  signatures l1 = signatures l /\ policy l1 = policy l.
Proof. intros H. by apply next_attempt_DoAttempt in H as (_ & _ & _ & ->). Qed.

(** Seating the ladder again keeps what it has recorded. *)
Lemma after_failure_record l model r :
  let l' := Ladder.record l model (r_kind r) (r_message r) in
  signatures (after_failure l model r) = signatures l' /\
  policy (after_failure l model r) = policy l' /\ stuck (after_failure l model r) = stuck l'.
Proof. unfold after_failure. by destruct (reseats model r). Qed.

Lemma play_repeat_last l rs sig m j r a : stop_on_repeat (policy l) = true ->
  signatures l !! sig = Some m ->
  rs !! j = Some r -> has_signature (r_kind r) -> signature (r_kind r) (r_message r) = sig ->
  play l rs !! j = Some a -> a_model a <> m -> length (play l rs) = S j.
Proof.
  revert l j. induction rs as [|r0 rs IH]; intros l j Hrep Hsig Hf Hk Hkm Ha Hm; [done|].
  cbn [play] in *. destruct (Ladder.next_attempt l) as [[a0|] l1] eqn:Hn; [|done].
  destruct (next_attempt_signatures _ _ _ Hn) as [Hs1 Hp1]. rewrite <- Hp1 in Hrep.
  destruct (record_signatures l1 (a_model a0) (r_kind r0) (r_message r0) Hrep) as (Hp2 & Hkeep & _ & Hst).
  destruct (after_failure_record l1 (a_model a0) r0) as (Es & Ep & Et).
  rewrite <- Hs1 in Hsig. destruct j as [|j].
  - injection Hf as ->. injection Ha as ->. rewrite play_stuck; [done|].
    rewrite Et. apply Hst with m; [done| |done]. by rewrite Hkm.
  - cbn [length]. f_equal. apply (IH _ j); try done; [by rewrite Ep, Hp2|rewrite Es; by apply Hkeep].
Qed.

Lemma play_repeat l rs i j r a r' a' : stop_on_repeat (policy l) = true ->
  rs !! i = Some r -> play l rs !! i = Some a ->
  rs !! j = Some r' -> play l rs !! j = Some a' -> (i < j)%nat ->
  has_signature (r_kind r) -> has_signature (r_kind r') ->
  signature (r_kind r) (r_message r) = signature (r_kind r') (r_message r') ->
  a_model a <> a_model a' -> length (play l rs) = S j.
Proof.
  revert l i j. induction rs as [|r0 rs IH]; intros l i j Hrep Hfi Hai Hfj Haj Hij Hk Hk' Hs Hm; [done|].
  cbn [play] in *. destruct (Ladder.next_attempt l) as [[a0|] l1] eqn:Hn; [|done].
  destruct (next_attempt_signatures _ _ _ Hn) as [_ Hp1]. rewrite <- Hp1 in Hrep.
  destruct (record_signatures l1 (a_model a0) (r_kind r0) (r_message r0) Hrep) as (Hp2 & _ & Hadd & _).
  destruct (after_failure_record l1 (a_model a0) r0) as (Es & Ep & Et).
  rewrite <- Hp2, <- Ep in Hrep.
  destruct j as [|j]; [lia|]. cbn [length]. f_equal. destruct i as [|i].
  - injection Hfi as ->. injection Hai as ->. destruct (Hadd Hk) as [Hst|Hsig].
    + cbn in Haj. by rewrite play_stuck in Haj by by rewrite Et.
    + rewrite <- Es in Hsig.
      exact (play_repeat_last _ rs _ _ j r' a' Hrep Hsig Hfj Hk' (eq_sym Hs) Haj (not_eq_sym Hm)).
  - apply (IH _ i j); try done. lia.
Qed.

(** ** The claims *)

(** C35. What the ladder may spend on a task, the re-seatings of [run_task] included.
    Whatever the failures, when the first order and each rebuilt one name each model once
    (as [arrange] makes them, [arrange_orders]): at most [max_attempts] attempts are made;
    a model gets at most a round of [max_same_model] of them (one, if that is zero), and
    one more round each time the ladder is seated on a rebuilt order that lists it; and a
    model whose attempt failed other than transiently, or that its rebuilt order dropped,
    is tried again only after a later seating on an order that lists it. *)
Theorem ladder_spending_bounded order p rounds :
  order_ok order -> Forall (fun r => order_ok (rearranged r)) rounds ->
  max_attempts p <= u64_max -> max_same_model p <= u64_max ->
  let attempts := play (Ladder.new order p) rounds in
  N.of_nat (length attempts) <= max_attempts p /\
  (forall m, N.of_nat (attempts_on m attempts)
             <= N.max 1 (max_same_model p) * (1 + N.of_nat (relisted m attempts rounds))) /\
  (forall i r a, rounds !! i = Some r -> attempts !! i = Some a ->
     r_kind r <> Transient \/ reseats (a_model a) r = true ->
     forall j a', (i < j)%nat -> attempts !! j = Some a' -> a_model a' = a_model a ->
     exists k b r', (i < k < j)%nat /\ attempts !! k = Some b /\ rounds !! k = Some r' /\
                    reseats (a_model b) r' = true /\ a_model a ∈ rearranged r').
Proof.
  intros [Hnd Hl] Hrs Hma Hms attempts. pose proof (new_ok order p Hnd Hl Hma Hms) as Hok. split_and!.
  - pose proof (play_length _ rounds Hok Hrs) as H. by rewrite N.sub_0_r in H.
  - intros m. pose proof (play_count _ rounds m Hok Hrs) as H. fold attempts in H.
    pose proof (allowance_le (Ladder.new order p) m) as Hle. cbn [policy Ladder.new] in *.
    unfold a_round in *. nia.
  - intros i r a Hf Ha Hk. by apply (play_no_retry _ rounds i r a).
Qed.

Definition example_rounds : list Round :=
  [mkRound Transient "429" ["a"; "b"; "c"]; mkRound Semantic "tests fail" ["a"; "b"; "c"];
   mkRound Transient "key refused" ["a"; "c"]; mkRound Semantic "no diff" ["a"; "c"]]%string.

Definition five_attempts : Policy := mkPolicy 5 2 true true.

Lemma ladder_spending_bounded_witness :
  let attempts := play (Ladder.new ["a"; "b"; "c"]%string five_attempts) example_rounds in
  (a_model <$> attempts) = ["a"; "a"; "b"; "a"]%string /\
  N.of_nat (attempts_on "a" attempts) <= 4.
Proof.
  intros attempts. split; [reflexivity|].
  refine (proj1 (proj2 (ladder_spending_bounded ["a"; "b"; "c"]%string five_attempts
    example_rounds _ _ _ _)) "a"%string);
    try (apply (bool_decide_unpack _); vm_compute; exact I); vm_compute; discriminate.
Defined.

(** The ladder forgets a semantic failure when it is seated again: a model whose work was
    rejected is offered a second time because the key of the next one was refused. *)
Lemma reseated_ladder_repeats_a_failed_model :
  let attempts := play (Ladder.new ["a"; "b"]%string five_attempts)
    [mkRound Semantic "tests fail" ["a"; "b"]; mkRound Transient "key refused" ["a"];
     mkRound Semantic "tests fail" ["a"]]%string in
  (a_model <$> attempts) = ["a"; "b"; "a"]%string.
Proof. reflexivity. Qed.

(** Two models failing alike end the task, re-seated or not: when two attempts on
    different models fail with the same signature, no further attempt is made. *)
Theorem repeated_failure_stops order p rounds i j r a r' a' :
  stop_on_repeat p = true ->
  let attempts := play (Ladder.new order p) rounds in
  rounds !! i = Some r -> attempts !! i = Some a ->
  rounds !! j = Some r' -> attempts !! j = Some a' -> (i < j)%nat ->
  has_signature (r_kind r) -> has_signature (r_kind r') ->
  signature (r_kind r) (r_message r) = signature (r_kind r') (r_message r') ->
  a_model a <> a_model a' -> length attempts = S j.
Proof. intros Hrep attempts. by apply play_repeat. Qed.

Lemma repeated_failure_stops_witness :
  length (play (Ladder.new ["a"; "b"; "c"]%string Policy_default)
    [mkRound Semantic "Tests: FAIL!" []; mkRound Semantic "tests  fail" ["c"];
     mkRound Semantic "x" []]%string) = 2%nat.
Proof.
  apply (repeated_failure_stops ["a"; "b"; "c"]%string Policy_default
    [mkRound Semantic "Tests: FAIL!" []; mkRound Semantic "tests  fail" ["c"];
     mkRound Semantic "x" []]%string 0 1
    (mkRound Semantic "Tests: FAIL!" []) (mkAttempt "a" 1)
    (mkRound Semantic "tests  fail" ["c"%string]) (mkAttempt "b" 2));
    first [lia | split; discriminate | vm_compute; reflexivity | vm_compute; discriminate].
Defined.

(** History counts attempts, not calls: a model has a record exactly when some row
    names it, its [calls] are the distinct (mission, task, attempt) it was tried in, and
    its failures never exceed them. *)
Theorem history_counts_attempts entries m :
  match history entries !! m with
  | None => model_attempts m (attempts_of entries) = ∅
  | Some r => h_calls r = N.min (N.of_nat (size (model_attempts m (attempts_of entries)))) u64_max
              /\ h_failures r <= h_calls r
  end.
Proof. exact (history_ok_all entries m). Qed.

(** A provider cools down by its own recent rows alone: in the window, ordered by the
    time the calls ended, the streak since its last uncached completion has two
    failures, or one that is a refused credit or a rate limit. *)
Theorem cooling_is_per_provider entries now p :
  p ∈ cooling_providers entries now <->
  exists s,
    fold_left streak_of
      (List.filter (fun e => bool_decide (e_provider e = p)) (recent_rows entries now)) None = Some s
    /\ is_cooling s = true.
Proof. apply cooling_iff. Qed.

(** A model is judged on its latest real call: [failed_models] reports exactly the
    models whose last call to end (the later row, on a tie) failed, with its class and
    time. *)
Theorem failed_models_latest_call aliases entries m :
  failed_models aliases entries !! m =
  match last_max_by fst (calls_of aliases m entries) with
  | Some (t, Some c) => Some (mkModelFailure t c)
  | _ => None
  end.
Proof.
  unfold failed_models. rewrite lookup_omap, last_calls_lookup, lookup_empty.
  destruct (calls_of aliases m entries) as [|c cs]; [done|]. cbn [default from_option id].
  cbn [fold_left last_max_by]. unfold later at 2. cbn [fst].
  rewrite (proj2 (N.leb_le 0 c.1)) by lia. rewrite later_last_max.
  destruct (last_max_from fst c cs) as [t [f|]]; done.
Qed.

Lemma push_new_spec ladder models : NoDup models ->
  NoDup (fold_left push_new ladder models) /\
  (forall m, m ∈ fold_left push_new ladder models <-> m ∈ models \/ m ∈ ladder) /\
  exists rest, fold_left push_new ladder models = models ++ rest.
Proof.
  revert models. induction ladder as [|x ladder IH]; intros models Hnd; cbn [fold_left].
  { split_and!; [done|set_solver|exists []; by rewrite app_nil_r]. }
  unfold push_new at 2 4 6. case_bool_decide as Hx.
  - destruct (IH models Hnd) as (H1 & H2 & H3). split_and!; [done|set_solver|done].
  - destruct (IH (models ++ [x])) as (H1 & H2 & rest & H3).
    { apply NoDup_app. split_and!; [done|set_solver|apply NoDup_singleton]. }
    split_and!; [done|set_solver|]. exists ([x] ++ rest). by rewrite H3, app_assoc.
Qed.

(** The order of a task's models.  [arrange] lists each model of the ladder and the
    preferred one once, leaves out exactly the definitively failed, puts the healthy
    before the unreliable before the cooling, and keeps the fleet's order (the preferred
    model first) within each standing; so a transient failure never removes a model. *)
Theorem arrange_orders aliases st provider_of preferred ladder :
  let out := arrange aliases st provider_of preferred ladder in
  let merged := fold_left push_new ladder [preferred] in
  NoDup out /\
  (forall m, m ∈ out <-> (m = preferred \/ m ∈ ladder) /\ is_definitive aliases st m = false) /\
  StronglySorted (fun a c => standing aliases st provider_of a <= standing aliases st provider_of c) out /\
  (forall k, List.filter (fun m => standing aliases st provider_of m =? k) out
           = List.filter (fun m => standing aliases st provider_of m =? k)
               (List.filter (fun m => negb (is_definitive aliases st m)) merged)).
Proof.
  intros out merged. destruct (push_new_spec ladder [preferred] (NoDup_singleton _)) as (Hnd & Hin & _).
  fold merged in Hnd, Hin. unfold out, arrange. fold merged. split_and!.
  - rewrite sort_by_key_perm. apply NoDup_ListNoDup, List.NoDup_filter. by apply NoDup_ListNoDup.
  - intros m. rewrite sort_by_key_perm, list_elem_of_In, List.filter_In, <- list_elem_of_In, Hin.
    rewrite negb_true_iff. set_solver.
  - apply sort_by_key_sorted.
  - intros k. apply sort_by_key_filter.
Qed.

Lemma unseen_spec seen l : NoDup (unseen seen l) /\ (forall m, m ∈ unseen seen l <-> m ∈ l /\ m ∉ seen).
Proof.
  revert seen. induction l as [|x l IH]; intros seen; cbn [unseen]; [split; [constructor|set_solver]|].
  case_bool_decide as Hx.
  - destruct (IH seen) as [H1 H2]. split; [done|set_solver].
  - destruct (IH ({[x]} ∪ seen)) as [H1 H2]. split; [constructor; set_solver|].
    intros m. rewrite elem_of_cons, H2. destruct (decide (m = x)); set_solver.
Qed.

(** Ranking keeps every candidate once, at its expected cost, cheapest first and by
    name within a cost; a model with no price stands at the largest cost, so no priced
    model ranks behind it on cost. *)
Theorem rank_models_sorted aliases catalogue profile hist candidates :
  candidates <> [] ->
  exists out, rank_models aliases catalogue profile hist candidates = Ok out /\
    StronglySorted candidate_le out /\
    NoDup (c_model <$> out) /\
    (forall m, m ∈ (c_model <$> out) <-> m ∈ candidates) /\
    (forall c, c ∈ out -> c_expected_cost c = expected aliases catalogue profile hist (c_model c)).
Proof.
  intros Hne. unfold rank_models. destruct candidates as [|x xs]; [done|].
  set (l := x :: xs) in *. eexists. split; [done|]. destruct (unseen_spec ∅ l) as [Hnd Hin].
  set (cs := (fun m => mkCandidate m (expected aliases catalogue profile hist m)) <$> unseen ∅ l).
  assert (Hmodels : c_model <$> cs = unseen ∅ l).
  { unfold cs. rewrite <- list_fmap_compose. apply list_fmap_id. }
  split_and!.
  - apply StronglySorted_merge_sort; apply _.
  - by rewrite merge_sort_Permutation, Hmodels.
  - intros m. rewrite merge_sort_Permutation, Hmodels, Hin. set_solver.
  - intros c. rewrite merge_sort_Permutation. unfold cs. rewrite list_elem_of_fmap.
    by intros (m & -> & _).
Qed.

Lemma rank_models_sorted_witness :
  exists out, rank_models ∅ {[ "a"%string := mkModelPrice 5 1 9; "b"%string := mkModelPrice 2 1 9 ]}
                UsageProfile.agent ∅ ["z"; "a"; "b"; "a"]%string = Ok out /\
    (forall m, m ∈ (c_model <$> out) <-> m ∈ ["z"; "a"; "b"; "a"]%string).
Proof.
  destruct (rank_models_sorted ∅
    {[ "a"%string := mkModelPrice 5 1 9; "b"%string := mkModelPrice 2 1 9 ]}
    UsageProfile.agent ∅ ["z"; "a"; "b"; "a"]%string) as (out & H & _ & _ & Hin & _); [discriminate|].
  exists out. split; [exact H|exact Hin].
Defined.

(** A model that never succeeded can still rank ahead of one that has: its cost grows
    by the number of its failed attempts only, so a cheap model with one failed attempt
    comes before a proven dearer one. *)
Theorem never_succeeded_can_rank_first :
  exists base_bad bad base_good good,
    ModelHistory.successes bad = 0 /\ 0 < h_calls bad /\
    0 < ModelHistory.successes good /\
    expected_cost base_bad bad < expected_cost base_good good.
Proof.
  exists 10, (mkModelHistory 1 1 10 0 0 0 0), 100, (mkModelHistory 4 1 400 0 0 0 0).
  vm_compute. done.
Qed.
