(* ===== verification/JointConsensus.v ===== *)
(** * JointConsensus: membership transitions
    ([crates/susi-gawd-swarm/src/joint_consensus.rs], [node_enrollment.rs], and the roster
    operations of [dag.rs])

    A transition commits when a majority of the old and a majority of the new
    electorate endorsed it.  [Roster] is the part of [MissionDag] that the membership
    operations read and write. *)

From S2P Require Import Prelude.

Local Open Scope nat_scope.

(** An [Electorate] is a [gset string]; this is its [quorum_size]. *)
Definition quorum_size (e : gset string) : nat := size e / 2 + 1.

Record MembershipTransition : Type := mkTransition {
  old : gset string;
  new : gset string;
  endorsements : gset string;
}.

#[export] Instance MembershipTransition_eq_dec : EqDecision MembershipTransition.
Proof. solve_decision. Defined.

Module MembershipTransition.
Definition start (o n : gset string) : MembershipTransition := mkTransition o n ∅.

Definition endorse (t : MembershipTransition) (member : string) : MembershipTransition :=
  if bool_decide (member ∈ old t) || bool_decide (member ∈ new t)
  then mkTransition (old t) (new t) ({[member]} ∪ endorsements t)
  else t.

Definition can_commit (t : MembershipTransition) : bool :=
  let old_votes := size (filter (fun m => m ∈ old t) (endorsements t)) in
  let new_votes := size (filter (fun m => m ∈ new t) (endorsements t)) in
  (quorum_size (old t) <=? old_votes) && (quorum_size (new t) <=? new_votes).
End MembershipTransition.

(** [overlapping_disjoint_blocked]. *)
Definition overlapping_disjoint_blocked (a b : MembershipTransition) : bool :=
  if negb (MembershipTransition.can_commit a) || negb (MembershipTransition.can_commit b) then true
  else
    let share_old := bool_decide (old a ∩ old b <> ∅) in
    if share_old && bool_decide (new a ## new b) then false else true.

(** ** Enrollment *)

Record Enrollment : Type := mkEnrollment {
  accepted : bool;
  reason : string;
  peer_id : option string;
  key_epoch : option N;
}.
Definition enroll (token expected_token : string) (mtls_identity : option string) (epoch : N) : Enrollment :=
  if negb (bool_decide (token = expected_token)) then mkEnrollment false "bad join token" None None
  else match mtls_identity with
       | None => mkEnrollment false "mTLS identity required" None None
       | Some peer => mkEnrollment true "enrolled" (Some peer) (Some epoch)
       end.

(** ** The roster of a mission *)

Record Roster : Type := mkRoster {
  roster : gset string;
  pending_membership : option MembershipTransition;
}.

Module Roster.
Definition bootstrap_roster (r : Roster) (members : list string) : Roster :=
  mkRoster (list_to_set members) None.

Definition propose_membership (r : Roster) (n : gset string) : Roster :=
  mkRoster (roster r) (Some (MembershipTransition.start (roster r) n)).

Definition endorse_membership (r : Roster) (member : string) : Roster :=
  mkRoster (roster r)
    ((fun t => MembershipTransition.endorse t member) <$> pending_membership r).

Definition try_commit_membership (r : Roster) (competing : option MembershipTransition)
  : bool * Roster :=
  match pending_membership r with
  | None => (false, r)
  | Some pending =>
      if negb (MembershipTransition.can_commit pending) then (false, r)
      else
        match competing with
        | Some other =>
            if negb (overlapping_disjoint_blocked pending other) then (false, r)
            else (true, mkRoster (new pending) None)
        | None => (true, mkRoster (new pending) None)
        end
  end.

Definition enroll_node (r : Roster) (token expected_token : string) (mtls_identity : option string) (epoch : N) :
    Enrollment * Roster :=
  let outcome := enroll token expected_token mtls_identity epoch in
  (outcome,
   if accepted outcome then
     match peer_id outcome with
     | Some peer => mkRoster ({[peer]} ∪ roster r) (pending_membership r)
     | None => r
     end
   else r).
End Roster.

(** The operations a mission may perform on its roster, in any order. *)
Inductive RosterOp : Type :=
| OpBootstrap (members : list string)
| OpEnroll (token expected_token : string) (mtls_identity : option string) (epoch : N)
| OpPropose (n : gset string)
| OpEndorse (member : string)
| OpCommit (competing : option MembershipTransition).

Definition roster_op (r : Roster) (op : RosterOp) : Roster :=
  match op with
  | OpBootstrap members => Roster.bootstrap_roster r members
  | OpEnroll token expected identity epoch => (Roster.enroll_node r token expected identity epoch).2
  | OpPropose n => Roster.propose_membership r n
  | OpEndorse m => Roster.endorse_membership r m
  | OpCommit c => (Roster.try_commit_membership r c).2
  end.

(** ** Lemmas *)

(** Two majorities of one electorate meet. *)
Lemma majorities_meet (e a b : gset string) :
  a ⊆ e -> b ⊆ e -> quorum_size e <= size a -> quorum_size e <= size b -> a ∩ b ≢ ∅.
Proof.
  intros Ha Hb Hqa Hqb Hdisj.
  assert (size (a ∪ b) <= size e) as Hu by (apply subseteq_size; set_solver).
  rewrite size_union in Hu by set_solver.
  unfold quorum_size in *. pose proof (Nat.div_mod_eq (size e) 2).
  pose proof (Nat.mod_upper_bound (size e) 2 ltac:(lia)). lia.
Qed.

Lemma can_commit_quorums t : MembershipTransition.can_commit t = true ->
  quorum_size (old t) <= size (filter (fun m => m ∈ old t) (endorsements t)) /\
  quorum_size (new t) <= size (filter (fun m => m ∈ new t) (endorsements t)).
Proof. unfold MembershipTransition.can_commit. intros H. bool_to_prop. by split; apply Nat.leb_le. Qed.

(** The nodes an operation enrolls, and those enrolled since the last proposal of a run. *)
Definition enrolled_by (op : RosterOp) : gset string :=
  match op with
  | OpEnroll token expected (Some peer) _ => if bool_decide (token = expected) then {[peer]} else ∅
  | _ => ∅
  end.
Definition enrolled_then (extra : gset string) (op : RosterOp) : gset string :=
  match op with OpPropose _ => ∅ | _ => extra ∪ enrolled_by op end.
Definition enrolled_since (ops : list RosterOp) : gset string := fold_left enrolled_then ops ∅.

(** The pending transition started from the roster in force, but for nodes enrolled since, and
    only members of its two electorates endorse it. *)
Definition pending_ok (extra : gset string) (r : Roster) : Prop :=
  match pending_membership r with
  | None => True
  | Some t => old t ⊆ roster r /\ roster r ⊆ old t ∪ extra /\ endorsements t ⊆ old t ∪ new t
  end.

Lemma enroll_node_roster r token expected identity epoch :
  (Roster.enroll_node r token expected identity epoch).2 =
    mkRoster (enrolled_by (OpEnroll token expected identity epoch) ∪ roster r) (pending_membership r).
Proof.
  unfold Roster.enroll_node, enroll, enrolled_by. case_bool_decide; [destruct identity as [peer|]|]; cbn; [done|..];
    destruct r as [s p]; cbn; f_equal; [|destruct identity]; set_solver.
Qed.

Lemma roster_op_pending_ok extra r op : pending_ok extra r -> pending_ok (enrolled_then extra op) (roster_op r op).
Proof.
  unfold pending_ok. destruct op as [members|token expected identity epoch|n|m|c].
  - done.
  - intros H. cbn [roster_op]. rewrite enroll_node_roster. cbn [pending_membership roster].
    destruct (pending_membership r) as [t|]; [|done]. destruct H as (Ho & Hr & He). cbn [enrolled_then]. split_and!; set_solver.
  - intros _. simpl. split_and!; set_solver.
  - simpl. destruct (pending_membership r) as [t|]; simpl; [|done]. intros (Ho & Hr & He).
    unfold MembershipTransition.endorse. repeat case_bool_decide; simpl; split_and!; set_solver.
  - intros H. simpl. unfold Roster.try_commit_membership. destruct (pending_membership r) as [t|] eqn:Hp;
      [|simpl; by rewrite Hp].
    assert (Hk : match pending_membership r with None => True | Some t => old t ⊆ roster r /\ roster r ⊆ old t ∪ (extra ∪ ∅) /\ endorsements t ⊆ old t ∪ new t end)
      by (rewrite Hp; destruct H as (Ho & Hr & He); split_and!; set_solver).
    destruct (negb _); [exact Hk|]. destruct c as [o|]; [|done].
    destruct (negb _); [exact Hk|done].
Qed.

(** ** The claims *)

(** C31. A roster only moves by bootstrap, enrollment or joint quorum.  After any operations on a
    mission's roster, a step that changes it seeds it anew; or adds one node that showed the
    expected join token and an mTLS identity; or commits the pending transition, endorsed by a
    majority of the electorate it was proposed from and by a majority of the new roster, and by
    nobody else, where that electorate is the roster in force less nodes enrolled since it was
    proposed. *)
Theorem roster_moves_by_joint_quorum r ops op :
  let before := fold_left roster_op ops (mkRoster r None) in
  let after := roster_op before op in
  roster after <> roster before ->
  match op with
  | OpBootstrap members => roster after = list_to_set members /\ pending_membership after = None
  | OpEnroll token expected identity epoch =>
      token = expected /\ exists peer, identity = Some peer /\ roster after = {[peer]} ∪ roster before
  | OpCommit _ =>
      exists t, pending_membership before = Some t /\ new t = roster after /\ pending_membership after = None /\
        old t ⊆ roster before /\ roster before ⊆ old t ∪ enrolled_since ops /\
        endorsements t ⊆ old t ∪ new t /\
        quorum_size (old t) <= size (endorsements t ∩ old t) /\
        quorum_size (roster after) <= size (endorsements t ∩ roster after)
  | OpPropose _ | OpEndorse _ => False
  end.
Proof.
  intros before after Hmoved.
  assert (Hok : pending_ok (enrolled_since ops) before).
  { unfold before, enrolled_since. assert (H0 : pending_ok ∅ (mkRoster r None)) by done. revert H0.
    generalize (mkRoster r None) (∅ : gset string). clear. induction ops as [|o ops IH]; intros r0 e H0; cbn; [done|].
    apply IH. by apply roster_op_pending_ok. }
  subst after. destruct op as [members|token expected identity epoch|n|m|c]; [done| |done|done|].
  - cbn [roster_op] in *. rewrite enroll_node_roster in *. cbn [roster enrolled_by] in *.
    destruct identity as [peer|]; [|by destruct Hmoved; set_solver].
    case_bool_decide as E; [|by destruct Hmoved; set_solver]. split; [done|]. by exists peer.
  - simpl in Hmoved |- *. unfold Roster.try_commit_membership in *. unfold pending_ok in Hok.
    destruct (pending_membership before) as [t|]; [|done]. destruct Hok as (Hold & Hrest & Hends).
    destruct (MembershipTransition.can_commit t) eqn:Hcc; simpl in *; [|done].
    apply can_commit_quorums in Hcc as [Hqo Hqn].
    assert (Hq : quorum_size (old t) <= size (endorsements t ∩ old t)
                 /\ quorum_size (new t) <= size (endorsements t ∩ new t)).
    { split; (etransitivity; [eassumption|]); apply subseteq_size; set_solver. }
    exists t. destruct c as [o|]; [destruct (negb _); [done|]|]; simpl in *; tauto.
Qed.

(** A node enrolled while a transition is pending has no voice in it, and the commit drops the
    node from the roster, since the transition names its new roster in full. *)
Lemma enrolled_node_is_dropped :
  let ops := [OpPropose {["a"; "b"; "d"]}; OpEnroll "t" "t" (Some "e") 1; OpEndorse "a"; OpEndorse "b"; OpEndorse "e"]%string in
  let before := fold_left roster_op ops (mkRoster {["a"; "b"; "c"]}%string None) in
  "e"%string ∈ roster before /\ "e"%string ∉ roster (roster_op before (OpCommit None)) /\
  (endorsements <$> pending_membership before) = Some {["a"; "b"]}%string.
Proof. split_and!; [apply (bool_decide_unpack _); vm_compute; exact I..|vm_compute; reflexivity]. Qed.

Lemma roster_moves_by_joint_quorum_witness :
  exists t : MembershipTransition,
    quorum_size {["a"; "b"; "c"]}%string <= size (endorsements t ∩ {["a"; "b"; "c"]}%string).
Proof.
  destruct (roster_moves_by_joint_quorum {["a"; "b"; "c"]}%string
    [OpPropose {["b"; "c"; "d"]}%string; OpEndorse "b"; OpEndorse "c"; OpEndorse "z"] (OpCommit None))
    as (t & Hp & _ & _ & _ & _ & _ & H & _).
  { intros H. apply (f_equal (fun s => bool_decide ("a"%string ∈ s))) in H. vm_compute in H. discriminate. }
  exists t. assert (E : old t = {["a"; "b"; "c"]}%string) by (vm_compute in Hp; injection Hp as <-; vm_compute; reflexivity). rewrite <- E. exact H.
Defined.

(** Two committed transitions out of one roster share a voter: some member of the
    common old electorate endorsed both, so a member who endorses at most one transition
    per roster rules the second commit out. *)
Theorem committed_transitions_share_voter a b :
  old a = old b ->
  MembershipTransition.can_commit a = true -> MembershipTransition.can_commit b = true ->
  exists m, m ∈ old a /\ m ∈ endorsements a /\ m ∈ endorsements b.
Proof.
  intros Hold Ha Hb. apply can_commit_quorums in Ha as [Ha _], Hb as [Hb _].
  rewrite <- Hold in Hb.
  pose proof (majorities_meet (old a) (filter (fun m => m ∈ old a) (endorsements a))
    (filter (fun m => m ∈ old a) (endorsements b)) ltac:(set_solver) ltac:(set_solver) Ha Hb) as Hm.
  apply set_choose in Hm as [m Hm]. exists m. set_solver.
Qed.

(** A transition [{a,b,c}] to [{n}], endorsed by [es]. *)
Definition sample_transition (n : string) (es : list string) : MembershipTransition :=
  fold_left MembershipTransition.endorse es
    (MembershipTransition.start {["a"; "b"; "c"]}%string {[n]}).

Lemma committed_transitions_share_voter_witness :
  exists m, m ∈ (endorsements (sample_transition "d" ["a"; "b"; "d"]%string)).
Proof.
  destruct (committed_transitions_share_voter (sample_transition "d" ["a"; "b"; "d"]%string)
    (sample_transition "e" ["b"; "c"; "e"]%string)) as (m & _ & H & _);
    [reflexivity|vm_compute; reflexivity|vm_compute; reflexivity|].
  exists m. exact H.
Defined.

(** Joint quorum alone does not keep two overlapping transitions from committing
    disjoint rosters: nothing stops a member from endorsing both.  Two transitions out of
    one roster can each be committable with disjoint successors, and a mission that is
    shown no competitor commits either. *)
Theorem overlapping_can_commit_disjoint :
  exists a b, old a = old b /\
    MembershipTransition.can_commit a = true /\ MembershipTransition.can_commit b = true /\
    new a ## new b /\ overlapping_disjoint_blocked a b = false /\
    (Roster.try_commit_membership (mkRoster (old a) (Some a)) None).1 = true /\
    (Roster.try_commit_membership (mkRoster (old b) (Some b)) None).1 = true.
Proof.
  exists (sample_transition "d" ["a"; "b"; "d"]%string), (sample_transition "e" ["a"; "b"; "e"]%string).
  split_and!; try (vm_compute; reflexivity). apply (bool_decide_unpack _). vm_compute. exact I.
Qed.
