(* ===== verification/ClusterKey.v ===== *)
(** * ClusterKey: the shared key and member signatures
    ([crates/susi-config/src/cluster_key.rs])

    The crates the code calls for SHA-256, hex and Ed25519 are the operations of class
    [Crypto]; what the development relies on of them is class [CryptoLaws].  HMAC is the
    code's own construction over SHA-256.  [KeyStore] is the state of the key files. *)

From S2P Require Import Prelude Text.

Local Open Scope N_scope.

Notation bytes := (list N) (only parsing).

(** ** The crates *)

Class Crypto : Type := {
  sha256 : bytes -> bytes;
  hex_encode : bytes -> string;
  hex_decode : string -> option bytes;
  (** [VerifyingKey::from_bytes] and [verify_strict]: key, message, signature. *)
  verify_strict : bytes -> bytes -> bytes -> bool;
  (** [SigningKey::sign] and [verifying_key], from the 32-byte seed. *)
  sign : bytes -> bytes -> bytes;
  verifying_key : bytes -> bytes;
}.

Class CryptoLaws (C : Crypto) : Prop := {
  hex_roundtrip : forall b, Forall (fun x => x < 256) b -> hex_decode (hex_encode b) = Some b;
  hex_length : forall b, String.length (hex_encode b) = (2 * length b)%nat;
  (** Lower-case hexadecimal digits. *)
  hex_alphabet : forall b, Forall (fun x => x < 256) b ->
    Forall (fun c => 48 <= c <= 57 \/ 97 <= c <= 102) (bytes_of (hex_encode b));
  sha256_bytes : forall m, length (sha256 m) = 32%nat /\ Forall (fun x => x < 256) (sha256 m);
  sign_verifies : forall sk m, length sk = 32%nat -> verify_strict (verifying_key sk) m (sign sk m) = true;
  sign_bytes : forall sk m, length (sign sk m) = 64%nat /\ Forall (fun x => x < 256) (sign sk m);
  verifying_key_bytes : forall sk,
    length (verifying_key sk) = 32%nat /\ Forall (fun x => x < 256) (verifying_key sk);
}.

Lemma hex_encode_inj `{C : Crypto} `{!CryptoLaws C} (a b : bytes) : Forall (fun x => x < 256) a -> Forall (fun x => x < 256) b ->
  hex_encode a = hex_encode b -> a = b.
Proof. intros Ha Hb H. apply (f_equal hex_decode) in H. rewrite !hex_roundtrip in H by done. by injection H. Qed.

(** ** HMAC *)

Section Hmac.
Context `{C : Crypto}.

Definition BLOCK : nat := 64.

(** [hmac_sha256]. *)
Definition hmac_sha256 (key message : bytes) : bytes :=
  let keyed := take 32 key ++ repeat 0 (BLOCK - 32) in
  let ipad := zip_with N.lxor (repeat 54 BLOCK) keyed in
  let opad := zip_with N.lxor (repeat 92 BLOCK) keyed in
  let inner_hash := sha256 (ipad ++ message) in
  sha256 (opad ++ inner_hash).

Definition hmac_sha256_hex (key message : bytes) : string := hex_encode (hmac_sha256 key message).

Definition key_fingerprint (key : bytes) : string := hex_encode (sha256 key).

(** ** Member signatures *)

Definition member_payload (payload : string) : bytes :=
  bytes_of ("susi-member-v1:" +:+ payload)%string.

(** [member_sign] with the node's seed, when there is one. *)
Definition member_sign (node_key : option bytes) (payload : string) : option string :=
  (fun k => hex_encode (sign k (member_payload payload))) <$> node_key.

(** [member_verify]. *)
Definition member_verify (pubkey_hex payload sig_hex : string) : bool :=
  match hex_decode pubkey_hex with
  | None => false
  | Some pk =>
      match hex_decode sig_hex with
      | None => false
      | Some sig =>
          if (length pk =? 32)%nat && (length sig =? 64)%nat
          then verify_strict pk (member_payload payload) sig
          else false
      end
  end.

Definition bind_payload (node_id pubkey : string) : string :=
  ("susi-bind-v1:" +:+ node_id +:+ ":" +:+ pubkey)%string.

(** [verify_bind_attestation]. *)
Definition verify_bind_attestation (node_id pubkey sig : string) : bool :=
  negb (bool_decide (pubkey = EmptyString)) && negb (bool_decide (sig = EmptyString))
  && member_verify pubkey (bind_payload node_id pubkey) sig.

(** A seal is never the empty string. *)
Lemma hmac_nonempty `{!CryptoLaws C} key m : hmac_sha256_hex key m <> EmptyString.
Proof.
  unfold hmac_sha256_hex, hmac_sha256. intros H. apply (f_equal String.length) in H.
  rewrite hex_length in H.
  match type of H with context [sha256 ?x] => pose proof (proj1 (sha256_bytes x)) as Hl end.
  rewrite Hl in H. done.
Qed.

Lemma member_sign_nonempty `{!CryptoLaws C} sk payload :
  default EmptyString (member_sign (Some sk) payload) <> EmptyString.
Proof.
  simpl. intros H. apply (f_equal String.length) in H. rewrite hex_length in H.
  by rewrite (proj1 (sign_bytes sk (member_payload payload))) in H.
Qed.

(** A member's own signature verifies under its public key. *)
Lemma member_sign_verifies `{!CryptoLaws C} sk payload sig :
  length sk = 32%nat -> member_sign (Some sk) payload = Some sig ->
  member_verify (hex_encode (verifying_key sk)) payload sig = true.
Proof.
  intros Hsk [= <-]. unfold member_verify.
  destruct (verifying_key_bytes sk) as [Hl1 Hb1].
  destruct (sign_bytes sk (member_payload payload)) as [Hl2 Hb2].
  rewrite !hex_roundtrip, Hl1, Hl2 by done. by apply sign_verifies.
Qed.
End Hmac.

(** ** Key files *)

(** A key file: absent, torn or malformed, or a key. *)
Inductive KeyFile : Type :=
| KAbsent
| KMalformed
| KKey (key : bytes).

#[export] Instance KeyFile_eq_dec : EqDecision KeyFile.
Proof. solve_decision. Defined.

Definition exists_file (f : KeyFile) : bool := match f with KAbsent => false | _ => true end.

(** [key_bytes_from_file]. *)
Definition key_bytes_from_file (f : KeyFile) : option bytes :=
  match f with
  | KKey k => if (length k =? 32)%nat then Some k else None
  | _ => None
  end.

(** [cluster.key], [cluster.key.next] and [cluster.key.prev], with the timestamps beside
    the last two. *)
Record KeyStore : Type := mkKeyStore {
  current_file : KeyFile;
  staged_file : KeyFile;
  staged_at : option N;
  prev_file : KeyFile;
  prev_expires_at : option N;
}.

#[export] Instance KeyStore_eq_dec : EqDecision KeyStore.
Proof. solve_decision. Defined.

Definition MAX_STAGE_AGE_SECS : N := 24 * 60 * 60.
Definition PREV_KEY_OVERLAP_SECS : N := 7 * 24 * 60 * 60.

(** [cluster_key] once the file exists. *)
Definition cluster_key (ks : KeyStore) : option bytes := key_bytes_from_file (current_file ks).

(** [stage_key_to]. *)
Definition stage_key (ks : KeyStore) (key : bytes) (now : N) : KeyStore :=
  mkKeyStore (current_file ks) (KKey key) (Some now) (prev_file ks) (prev_expires_at ks).

(** [prev_key_at]. *)
Definition prev_key_at (ks : KeyStore) (now : N) : option bytes :=
  match key_bytes_from_file (prev_file ks) with
  | None => None
  | Some key =>
      match prev_expires_at ks with
      | None => None
      | Some expires_at => if expires_at <=? now then None else Some key
      end
  end.

(** [revoke_prev_key_at]. *)
Definition revoke_prev_key_at (ks : KeyStore) : bool * KeyStore :=
  (exists_file (prev_file ks),
   mkKeyStore (current_file ks) (staged_file ks) (staged_at ks) KAbsent None).

Definition clear_staged (ks : KeyStore) : KeyStore :=
  mkKeyStore (current_file ks) KAbsent None (prev_file ks) (prev_expires_at ks).

(** [activate_staged_key_at], file operations succeeding. *)
Definition activate_staged_key_at `{C : Crypto} (ks : KeyStore) (fingerprint : string) (now : N)
  : bool * KeyStore :=
  match key_bytes_from_file (staged_file ks) with
  | None => (false, if exists_file (staged_file ks) then clear_staged ks else ks)
  | Some staged =>
      if negb (bool_decide (key_fingerprint staged = fingerprint)) then (false, ks)
      else
        let at_ := default 0 (staged_at ks) in
        if MAX_STAGE_AGE_SECS <? now - at_ then (false, clear_staged ks)
        else
          let ks1 :=
            match key_bytes_from_file (current_file ks) with
            | Some cur =>
                mkKeyStore (current_file ks) (staged_file ks) (staged_at ks) (KKey cur)
                  (Some (wrapping_add now PREV_KEY_OVERLAP_SECS))
            | None => ks
            end in
          (true, mkKeyStore (staged_file ks1) KAbsent None (prev_file ks1) (prev_expires_at ks1))
  end.

(** ** The claims *)

(** Rotation is exact.  Activating a fingerprint succeeds only for the staged key that
    has that fingerprint and is at most a day old; it makes that key current, keeps the
    old one verifiable for seven days, and leaves nothing staged.  When it does not
    succeed the current and the previous key are what they were. *)
Theorem activation_exact `{C : Crypto} ks fingerprint now :
  now + PREV_KEY_OVERLAP_SECS <= u64_max ->
  let '(ok, ks') := activate_staged_key_at ks fingerprint now in
  if ok then
    exists staged, key_bytes_from_file (staged_file ks) = Some staged /\
      key_fingerprint staged = fingerprint /\ now - default 0 (staged_at ks) <= MAX_STAGE_AGE_SECS /\
      cluster_key ks' = Some staged /\ staged_file ks' = KAbsent /\
      (forall old, cluster_key ks = Some old -> forall t,
         prev_key_at ks' t = if t <? now + PREV_KEY_OVERLAP_SECS then Some old else None)
  else cluster_key ks' = cluster_key ks /\ prev_file ks' = prev_file ks
       /\ prev_expires_at ks' = prev_expires_at ks.
Proof.
  intros Hnow. unfold activate_staged_key_at.
  destruct (key_bytes_from_file (staged_file ks)) as [staged|] eqn:Hs;
    [|by destruct (exists_file (staged_file ks))].
  case_bool_decide as Hf; cbn [negb]; [|done].
  destruct (N.ltb_spec MAX_STAGE_AGE_SECS (now - default 0 (staged_at ks))) as [|Hage]; [done|].
  exists staged. split_and!; try done.
  - unfold cluster_key. simpl. by destruct (key_bytes_from_file (current_file ks)).
  - intros old Hold t. unfold cluster_key in Hold. rewrite Hold. unfold prev_key_at. simpl.
    assert (Hlen : (length old =? 32)%nat = true).
    { destruct (current_file ks); simpl in Hold; try done.
      destruct (length key =? 32)%nat eqn:E; [|done]. by injection Hold as <-. }
    rewrite Hlen, wrapping_add_exact by done. destruct_cmp; done || lia.
Qed.

(** A concrete set of crates, for examples: hexadecimal as it is, a checksum for the
    hash, and a signature that is the key followed by the checksum. *)
Module Toy.
Definition nibble (n : N) : Ascii.ascii :=
  Ascii.ascii_of_N (if n <? 10 then 48 + n else 87 + n).
Definition unnibble (c : Ascii.ascii) : option N :=
  let n := Ascii.N_of_ascii c in
  if (48 <=? n) && (n <=? 57) then Some (n - 48)
  else if (97 <=? n) && (n <=? 102) then Some (n - 87) else None.
Fixpoint encode (b : bytes) : string :=
  match b with
  | [] => EmptyString
  | x :: b' => String (nibble (x / 16)) (String (nibble (x mod 16)) (encode b'))
  end.
Fixpoint decode (s : string) : option bytes :=
  match s with
  | EmptyString => Some []
  | String a (String c s') =>
      match unnibble a, unnibble c, decode s' with
      | Some x, Some y, Some b => Some (16 * x + y :: b)
      | _, _, _ => None
      end
  | String _ EmptyString => None
  end.
Definition checksum (m : bytes) : N := fold_left (fun h x => N.land (h * 31 + x + 7) 65535) m 17.
Definition digest (m : bytes) : bytes :=
  let c := checksum m in [N.land c 255; N.land (N.shiftr c 8) 255] ++ repeat 0 30.
Definition pk (sk : bytes) : bytes := digest (1 :: sk).
#[export] Instance crypto : Crypto := {
  sha256 := digest;
  hex_encode := encode;
  hex_decode := decode;
  verify_strict k m s := bool_decide (s = k ++ digest m);
  sign sk m := pk sk ++ digest m;
  verifying_key := pk;
}.

Lemma nibble_roundtrip n : n < 16 -> unnibble (nibble n) = Some n.
Proof.
  intros Hn. assert (In n (N.of_nat <$> seq 0 16)) as Hin.
  { apply list_elem_of_In, list_elem_of_fmap. exists (N.to_nat n).
    split; [lia|]. apply elem_of_seq. lia. }
  simpl in Hin. repeat (destruct Hin as [<-|Hin]; [reflexivity|]). done.
Qed.

Lemma encode_decode b : Forall (fun x => x < 256) b -> decode (encode b) = Some b.
Proof.
  induction 1 as [|x b Hx Hb IH]; [done|]. cbn [encode decode].
  pose proof (N.div_mod' x 16). pose proof (N.mod_lt x 16 ltac:(lia)).
  rewrite !nibble_roundtrip, IH by (apply N.Div0.div_lt_upper_bound || idtac; lia). do 2 f_equal.
  set (q := x / 16) in *. set (r := x mod 16) in *. clearbody q r. lia.
Qed.

Lemma digest_bytes m : length (digest m) = 32%nat /\ Forall (fun x => x < 256) (digest m).
Proof.
  assert (Hb : forall n, N.land n 255 < 256).
  { intros n. change 255 with (N.ones 8). rewrite N.land_ones. by apply N.mod_lt. }
  split; [done|]. constructor; [apply Hb|]. constructor; [apply Hb|].
  apply Forall_forall. intros x Hx. apply list_elem_of_In, repeat_spec in Hx. by subst.
Qed.

Lemma nibble_alphabet n : n < 16 ->
  let c := Ascii.N_of_ascii (nibble n) in 48 <= c <= 57 \/ 97 <= c <= 102.
Proof.
  intros Hn. unfold nibble. destruct (N.ltb_spec n 10); rewrite Ascii.N_ascii_embedding by lia; lia.
Qed.

Lemma encode_alphabet b : Forall (fun x => x < 256) b ->
  Forall (fun c => 48 <= c <= 57 \/ 97 <= c <= 102) (bytes_of (encode b)).
Proof.
  induction 1 as [|x b Hx Hb IH]; [constructor|]. cbn [encode].
  constructor; [|constructor; [|exact IH]]; apply nibble_alphabet.
  - apply N.Div0.div_lt_upper_bound. lia.
  - by apply N.mod_lt.
Qed.

#[export] Instance laws : CryptoLaws crypto.
Proof.
  split.
  - exact encode_decode.
  - intros b. induction b as [|x b IH]; [done|]. simpl in *. rewrite IH. lia.
  - exact encode_alphabet.
  - exact digest_bytes.
  - intros sk m _. by apply bool_decide_eq_true.
  - intros sk m. change (sign sk m) with (pk sk ++ digest m). destruct (digest_bytes (1 :: sk)) as [H1 H2], (digest_bytes m) as [H3 H4].
    unfold pk. rewrite length_app, H1, H3. split; [done|]. by apply Forall_app.
  - intros sk. apply digest_bytes.
Qed.
End Toy.

Definition sample_store : KeyStore :=
  stage_key (mkKeyStore (KKey (repeat 1 32)) KAbsent None KAbsent None) (repeat 2 32) 1000.

Lemma activation_exact_witness :
  exists ks', activate_staged_key_at (C := Toy.crypto) sample_store
                (key_fingerprint (C := Toy.crypto) (repeat 2 32)) 2000 = (true, ks') /\
    prev_key_at ks' 3000 = Some (repeat 1 32).
Proof.
  pose proof (activation_exact (C := Toy.crypto) sample_store
    (key_fingerprint (C := Toy.crypto) (repeat 2 32)) 2000 ltac:(vm_compute; discriminate)) as H.
  destruct (activate_staged_key_at _ _ _) as [ok ks'] eqn:E.
  assert (ok = true) as -> by (apply (f_equal fst) in E; vm_compute in E; congruence).
  destruct H as (s & _ & _ & _ & _ & _ & Hp). exists ks'. split; [reflexivity|].
  exact (Hp (repeat 1 32) eq_refl 3000).
Defined.
