(* ===== verification/CommitRecord.v ===== *)
(** * CommitRecord: sealing and verifying commit records
    (the record half of [crates/susi-core/src/commit_log.rs])

    A record is sealed with the cluster key over the JSON of [SignedFields], and signed by
    the coordinator's own key over that seal.  [serde_json::to_string] of [SignedFields]
    is the operation of class [Serde]; nothing is assumed of it. *)

From S2P Require Import Prelude Text ClusterKey.
From stdpp Require Import pretty.

Local Open Scope N_scope.

(** ** Data *)

Record MemberEndorsement : Type := mkEndorsement {
  node : string;
  sig : string;
}.

#[export] Instance MemberEndorsement_eq_dec : EqDecision MemberEndorsement.
Proof. solve_decision. Defined.

Record CommitRecord : Type := mkCommitRecord {
  epoch : string;
  coordinator : string;
  electorate : list string;
  tally : N;
  quorum_threshold : N;
  value_hash : string;
  value : string;
  committed_at : N;
  seq : N;
  leader : string;
  term : N;
  prev_epoch : string;
  kind : string;
  signature : string;
  member_sig : string;
  member_pubkey : string;
  subject_sig : string;
  endorsements : list MemberEndorsement;
}.

#[export] Instance CommitRecord_eq_dec : EqDecision CommitRecord.
Proof. solve_decision. Defined.

Definition KIND_MEMBER_ADD : string := "member_add".
Definition KIND_MEMBER_REMOVE : string := "member_remove".
Definition KIND_MEMBER_UNBAN : string := "member_unban".
Definition KIND_CLUSTER_REKEY : string := "cluster_rekey".
Definition KIND_CLUSTER_REKEY_ACTIVATE : string := "cluster_rekey_activate".

Record CommitInput : Type := mkCommitInput {
  ci_coordinator : string;
  ci_leader : string;
  ci_electorate : list string;
  ci_tally : N;
  ci_quorum_threshold : N;
  ci_value : string;
}.

Record SignedFields : Type := mkSignedFields {
  sf_epoch : string;
  sf_coordinator : string;
  sf_electorate : list string;
  sf_tally : N;
  sf_quorum_threshold : N;
  sf_value_hash : string;
  sf_value : string;
  sf_committed_at : N;
  sf_seq : N;
  sf_leader : string;
  sf_term : N;
  sf_prev_epoch : string;
  sf_kind : string;
}.

Class Serde : Type := { signed_fields_json : SignedFields -> string }.

(** [KeyEpoch]. *)
Inductive KeyEpoch : Type := Prev | Current.

#[export] Instance KeyEpoch_eq_dec : EqDecision KeyEpoch.
Proof. solve_decision. Defined.

Definition is_member_kind (k : string) : bool :=
  bool_decide (k = KIND_MEMBER_ADD) || bool_decide (k = KIND_MEMBER_REMOVE)
  || bool_decide (k = KIND_MEMBER_UNBAN).
Definition is_rekey_kind (k : string) : bool :=
  bool_decide (k = KIND_CLUSTER_REKEY) || bool_decide (k = KIND_CLUSTER_REKEY_ACTIVATE).

(** [str::split_once('@')]. *)
Fixpoint split_at_sign (s : string) : option (string * string) :=
  match s with
  | EmptyString => None
  | String c s' =>
      if bool_decide (String c EmptyString = "@"%string) then Some (EmptyString, s')
      else (fun p => (String c p.1, p.2)) <$> split_at_sign s'
  end.

(** The checks on a member spec that [seal_member] and [member_delta] share. *)
Definition member_spec (k v : string) : option (string * string * string) :=
  if negb (is_member_kind k) then None
  else
    match split_at_sign v with
    | None => None
    | Some (id, addr) =>
        if bool_decide (id = EmptyString) || bool_decide (addr = EmptyString) then None
        else Some (k, id, addr)
    end.

(** [CommitRecord::member_delta]. *)
Definition member_delta (r : CommitRecord) : option (string * string * string) :=
  member_spec (kind r) (value r).

(** ** Sequence numbers and chains *)

Definition of_coordinator (c : string) (records : list CommitRecord) : list CommitRecord :=
  List.filter (fun r => bool_decide (coordinator r = c)) records.

(** [next_seq_for]: the addition is a release build's. *)
Definition next_seq_for (records : list CommitRecord) (c : string) : N :=
  wrapping_add (default 0 (max_key seq (of_coordinator c records))) 1.

(** [chain_head_epoch]. *)
Definition chain_head_epoch (records : list CommitRecord) (c : string) : option string :=
  epoch <$> last_max_by seq (of_coordinator c records).

(** [missing_seqs_floored]: the range [floor+1 .. incoming]. *)
Definition missing_seqs_floored (records : list CommitRecord) (c : string) (incoming floor : N) : list N :=
  let held := seq <$> of_coordinator c records in
  List.filter (fun s => negb (bool_decide (s ∈ held)))
    ((fun i => floor + 1 + N.of_nat i) <$> List.seq 0 (N.to_nat (incoming - (floor + 1)))).

Definition missing_seqs (records : list CommitRecord) (c : string) (incoming : N) : list N :=
  missing_seqs_floored records c incoming 0.

(** ** Sealing and verifying *)

Section Records.
Context `{C : Crypto} `{S : Serde}.

Definition is_hex32 (s : string) : bool :=
  match hex_decode s with Some b => (length b =? 32)%nat | None => false end.

(** [CommitRecord::rekey_fingerprint]. *)
Definition rekey_fingerprint (r : CommitRecord) : option string :=
  if negb (is_rekey_kind (kind r)) then None
  else if is_hex32 (value r) then Some (value r) else None.

(** [CommitRecord::signed_payload]. *)
Definition signed_payload (r : CommitRecord) : string :=
  signed_fields_json
    (mkSignedFields (epoch r) (coordinator r) (electorate r) (tally r) (quorum_threshold r)
       (value_hash r) (value r) (committed_at r) (seq r) (leader r) (term r) (prev_epoch r)
       (kind r)).

Definition value_digest (v : string) : string := hex_encode (sha256 (bytes_of v)).

(** [CommitRecord::signature_epoch] against the key files at a time. *)
Definition signature_epoch (ks : KeyStore) (now : N) (r : CommitRecord) : option KeyEpoch :=
  if bool_decide (signature r = EmptyString) then None
  else
    let payload := bytes_of (signed_payload r) in
    let signed_under key := bool_decide (hmac_sha256_hex key payload = signature r) in
    if (match cluster_key ks with Some key => signed_under key | None => false end)
    then Some Current
    else if (match prev_key_at ks now with Some key => signed_under key | None => false end)
    then Some Prev
    else None.

(** [CommitRecord::internally_consistent]. *)
Definition internally_consistent (r : CommitRecord) : bool :=
  let shape :=
    if bool_decide (kind r = EmptyString) then
      negb (negb (quorum_threshold r =? N.of_nat (length (electorate r)) / 2 + 1)
            || (tally r <? quorum_threshold r))
    else
      negb ((match member_delta r with None => true | Some _ => false end)
            && (match rekey_fingerprint r with None => true | Some _ => false end)) in
  shape && bool_decide (value_digest (value r) = value_hash r).

(** [CommitRecord::verify] and [verify_key_epoch]. *)
Definition verify_key_epoch (ks : KeyStore) (now : N) (r : CommitRecord) : option KeyEpoch :=
  match signature_epoch ks now r with
  | Some e => if internally_consistent r then Some e else None
  | None => None
  end.
Definition verify (ks : KeyStore) (now : N) (r : CommitRecord) : bool :=
  (match signature_epoch ks now r with Some _ => true | None => false end)
  && internally_consistent r.

(** What a coordinator seals from: its keys, its ledger, its term. *)
Record Sealer : Type := mkSealer {
  s_keys : KeyStore;
  s_node_key : option (list N);
  s_held : list CommitRecord;
  s_term : N;
  s_now : N;
}.

Definition sort_names : list string -> list string := merge_sort String.le.

(** The fields every seal path sets alike; signatures are still empty. *)
Definition draft (s : Sealer) (c l : string) (els : list string) (ep : string) (ty qt : N)
    (v k : string) : CommitRecord :=
  mkCommitRecord ep c els ty qt (value_digest v) v (s_now s) (next_seq_for (s_held s) c) l (s_term s)
    (default EmptyString (chain_head_epoch (s_held s) c)) k
    EmptyString EmptyString EmptyString EmptyString [].

(** The two signatures, over the draft. *)
Definition sign_record (s : Sealer) (key : list N) (r : CommitRecord) : CommitRecord :=
  let sg := hmac_sha256_hex key (bytes_of (signed_payload r)) in
  mkCommitRecord (epoch r) (coordinator r) (electorate r) (tally r) (quorum_threshold r)
    (value_hash r) (value r) (committed_at r) (seq r) (leader r) (term r) (prev_epoch r) (kind r)
    sg (default EmptyString (member_sign (s_node_key s) sg)) (member_pubkey r) (subject_sig r)
    (endorsements r).

(** [CommitRecord::seal]. *)
Definition seal (s : Sealer) (i : CommitInput) : option CommitRecord :=
  match cluster_key (s_keys s) with
  | None => None
  | Some key =>
      let sorted := sort_names (ci_electorate i) in
      let ep := value_digest (String.concat "," sorted +:+ "|" +:+ pretty (s_now s)) in
      Some (sign_record s key
              (draft s (ci_coordinator i) (ci_leader i) sorted ep (ci_tally i) (ci_quorum_threshold i)
                 (ci_value i) EmptyString))
  end.

(** [CommitRecord::seal_signed]. *)
Definition seal_signed (s : Sealer) (c l k v : string) (els : list string) : option CommitRecord :=
  match cluster_key (s_keys s) with
  | None => None
  | Some key =>
      let sorted := sort_names els in
      let ep := value_digest (k +:+ "|" +:+ String.concat "," sorted +:+ "|" +:+ pretty (s_now s)) in
      Some (sign_record s key (draft s c l sorted ep 0 0 v k))
  end.

Definition with_member_pubkey (r : CommitRecord) (pk : string) : CommitRecord :=
  mkCommitRecord (epoch r) (coordinator r) (electorate r) (tally r) (quorum_threshold r)
    (value_hash r) (value r) (committed_at r) (seq r) (leader r) (term r) (prev_epoch r) (kind r)
    (signature r) (member_sig r) pk (subject_sig r) (endorsements r).

(** [CommitRecord::seal_member]. *)
Definition seal_member (s : Sealer) (c l k member : string) (els : list string) (pk : string)
  : option CommitRecord :=
  match member_spec k member with
  | None => None
  | Some _ =>
      match seal_signed s c l k member els with
      | None => None
      | Some r =>
          Some (if bool_decide (k = KIND_MEMBER_ADD) && is_hex32 pk then with_member_pubkey r pk else r)
      end
  end.

(** [CommitRecord::seal_rekey] and [seal_rekey_activate]. *)
Definition seal_rekey (s : Sealer) (c l fingerprint : string) (els : list string) : option CommitRecord :=
  if negb (is_hex32 fingerprint) then None else seal_signed s c l KIND_CLUSTER_REKEY fingerprint els.
Definition seal_rekey_activate (s : Sealer) (c l fingerprint : string) (els : list string)
  : option CommitRecord :=
  if negb (is_hex32 fingerprint) then None
  else seal_signed s c l KIND_CLUSTER_REKEY_ACTIVATE fingerprint els.
End Records.

(** ** Lemmas *)

Lemma of_coordinator_In c r records : In r (of_coordinator c records) <-> In r records /\ coordinator r = c.
Proof. unfold of_coordinator. by rewrite List.filter_In, bool_decide_eq_true. Qed.

Lemma of_coordinator_app c a b : of_coordinator c (a ++ b) = of_coordinator c a ++ of_coordinator c b.
Proof. apply List.filter_app. Qed.

(** Every held record of a coordinator is below its next sequence number. *)
Lemma next_seq_for_above records c r : In r records -> coordinator r = c ->
  (forall r', In r' records -> seq r' < u64_max) -> seq r < next_seq_for records c.
Proof.
  intros Hr Hc Hb. unfold next_seq_for, max_key.
  assert (Hin : In r (of_coordinator c records)) by (by apply of_coordinator_In).
  destruct (last_max_by seq (of_coordinator c records)) as [m|] eqn:Hm; simpl.
  - apply last_max_by_Some in Hm as [Hmin Hmax]. specialize (Hmax r Hin).
    apply of_coordinator_In in Hmin as [Hmin _]. specialize (Hb m Hmin).
    rewrite wrapping_add_exact by lia. lia.
  - apply last_max_by_None in Hm. by rewrite Hm in Hin.
Qed.

(** The head of the chain sits one below the next sequence number. *)
Lemma chain_head_seq records c e : (forall r, In r records -> seq r < u64_max) ->
  chain_head_epoch records c = Some e ->
  exists r, In r records /\ coordinator r = c /\ epoch r = e /\ next_seq_for records c = seq r + 1.
Proof.
  intros Hb. unfold chain_head_epoch, next_seq_for, max_key.
  destruct (last_max_by seq (of_coordinator c records)) as [m|] eqn:Hm; simpl; [|done].
  intros [= <-]. apply last_max_by_Some in Hm as [Hmin _].
  apply of_coordinator_In in Hmin as [Hmin Hc]. exists m. split_and!; try done.
  rewrite wrapping_add_exact; [done|]. specialize (Hb m Hmin). lia.
Qed.

Section RecordLemmas.
Context `{C : Crypto} `{S : Serde}.

(** A record the key holder signed verifies under that key; neither signature is part
    of what the seal covers. *)
Lemma sign_record_current s key r : cluster_key (s_keys s) = Some key ->
  hmac_sha256_hex key (bytes_of (signed_payload r)) <> EmptyString ->
  signature_epoch (s_keys s) (s_now s) (sign_record s key r) = Some Current.
Proof.
  intros Hk Hne. unfold signature_epoch.
  change (signature (sign_record s key r)) with (hmac_sha256_hex key (bytes_of (signed_payload r))).
  change (signed_payload (sign_record s key r)) with (signed_payload r).
  by rewrite bool_decide_false, Hk, bool_decide_true by done.
Qed.

(** A decision sealed at its majority is consistent. *)
Lemma sealed_consistent s key c l els ep ty qt v :
  qt = N.of_nat (length els) / 2 + 1 -> qt <= ty ->
  internally_consistent (sign_record s key (draft s c l els ep ty qt v EmptyString)) = true.
Proof.
  intros Hq Ht. unfold internally_consistent.
  set (r := sign_record _ _ _).
  change (kind r) with EmptyString. change (quorum_threshold r) with qt. change (tally r) with ty.
  change (electorate r) with els. change (value_hash r) with (value_digest v). change (value r) with v.
  rewrite !bool_decide_true by done. rewrite <- Hq, N.eqb_refl.
  by rewrite (proj2 (N.ltb_ge _ _) Ht).
Qed.

(** [verify] is [verify_key_epoch] succeeding. *)
Lemma verify_iff_epoch ks now r :
  verify ks now r = match verify_key_epoch ks now r with Some _ => true | None => false end.
Proof.
  unfold verify, verify_key_epoch.
  by destruct (signature_epoch ks now r), (internally_consistent r).
Qed.
End RecordLemmas.

(** ** The claims *)

(** The gaps are exactly the gaps: a sequence number is reported missing if and only
    if it is above the floor, below the incoming one, and no held record of that
    coordinator has it. *)
Theorem missing_seqs_exact records c incoming floor s :
  s ∈ missing_seqs_floored records c incoming floor <->
  floor < s < incoming /\ forall r, In r records -> coordinator r = c -> seq r <> s.
Proof.
  unfold missing_seqs_floored. rewrite list_elem_of_In, List.filter_In, negb_true_iff, bool_decide_eq_false.
  rewrite <- list_elem_of_In, list_elem_of_fmap, list_elem_of_fmap. split.
  - intros [(i & -> & Hi) Hn]. apply elem_of_seq in Hi. split; [lia|].
    intros r Hr Hc Heq. apply Hn. exists r. split; [done|].
    by apply list_elem_of_In, of_coordinator_In.
  - intros [Hs Hno]. split.
    + exists (N.to_nat (s - (floor + 1))). split; [lia|]. apply elem_of_seq. lia.
    + intros (r & -> & Hr). apply list_elem_of_In, of_coordinator_In in Hr as [Hr Hc].
      by apply (Hno r).
Qed.

(** What a decision record proves.  A verified record of the decision kind crossed its
    quorum: the threshold it names is the majority of the electorate it names, the tally
    reaches it, the value is the one the hash covers, and the seal is the cluster key's
    (the current one or, inside its overlap window, the previous one) over exactly these
    fields. *)
Theorem verified_decision_sound `{C : Crypto} `{S : Serde} ks now r :
  verify ks now r = true -> kind r = EmptyString ->
  quorum_threshold r = N.of_nat (length (electorate r)) / 2 + 1 /\
  quorum_threshold r <= tally r /\
  value_digest (value r) = value_hash r /\
  exists key, (cluster_key ks = Some key \/ prev_key_at ks now = Some key) /\
    hmac_sha256_hex key (bytes_of (signed_payload r)) = signature r.
Proof.
  intros Hv Hk. unfold verify in Hv. apply andb_true_iff in Hv as [Hs Hc].
  unfold internally_consistent in Hc. rewrite bool_decide_true in Hc by done.
  apply andb_true_iff in Hc as [Hc Hd]. apply bool_decide_eq_true in Hd.
  apply negb_true_iff, orb_false_iff in Hc as [Hq Ht].
  apply negb_false_iff, N.eqb_eq in Hq. apply N.ltb_ge in Ht.
  split_and!; try done. unfold signature_epoch in Hs. case_bool_decide; [done|].
  destruct (cluster_key ks) as [key|] eqn:Hkey.
  - case_bool_decide; [exists key; by split; [left|]|].
    destruct (prev_key_at ks now) as [prev|] eqn:Hprev; [|done].
    case_bool_decide; [|done]. exists prev. by split; [right|].
  - destruct (prev_key_at ks now) as [prev|] eqn:Hprev; [|done].
    case_bool_decide; [|done]. exists prev. by split; [right|].
Qed.

(** A node of the toy cluster, with one key. *)
Module Sample.
#[export] Instance serde : Serde :=
  { signed_fields_json f := sf_epoch f +:+ ";" +:+ sf_coordinator f +:+ ";" +:+ sf_value f +:+ ";"
      +:+ pretty (sf_seq f) +:+ ";" +:+ pretty (sf_term f) +:+ ";" +:+ sf_prev_epoch f +:+ ";" +:+ sf_kind f }.
Definition keys : KeyStore := mkKeyStore (KKey (repeat 7 32)) KAbsent None KAbsent None.
Definition sealer (held : list CommitRecord) (now : N) : Sealer :=
  mkSealer keys (Some (repeat 9 32)) held 1 now.
Definition input (v : string) : CommitInput := mkCommitInput "n1" "n1" ["n2"; "n1"; "n3"] 2 2 v.
(** A record no key sealed. *)
Definition blank : CommitRecord :=
  mkCommitRecord "" "" [] 0 0 "" "" 0 0 "" 0 "" "" "" "" "" "" [].
Definition first : CommitRecord :=
  default blank (seal (C := Toy.crypto) (S := serde) (sealer [] 100) (input "yes")).
Definition second : CommitRecord :=
  default blank (seal (C := Toy.crypto) (S := serde) (sealer [first] 101) (input "no")).
End Sample.

Lemma verified_decision_sound_witness :
  quorum_threshold Sample.second = 2 /\ 2 <= tally Sample.second.
Proof.
  destruct (verified_decision_sound (C := Toy.crypto) (S := Sample.serde) Sample.keys 200 Sample.second)
    as (H1 & H2 & _); [vm_compute; reflexivity|vm_compute; reflexivity|].
  split; [exact H1|exact H2].
Defined.
