(* ===== verification/CommitLedger.v ===== *)
(** * CommitLedger: intake of the replicated commit log
    (the ledger half of [crates/susi-core/src/commit_log.rs])

    [Node] is the state of one config directory: the live ledger and its archive, the
    compaction snapshot, the roster and ban files, the eviction marker, the keys.
    [append_checked] is the intake gate and its effects; [append_to] and
    [append_many_to] run it under the locks, which are taken as acquired, and file
    operations succeed.  A JSON row keeps the fields the code reads or writes; the rest of
    the row is carried along. *)

From S2P Require Import Prelude Text ClusterKey CommitRecord.

Local Open Scope N_scope.

(** ** State *)

Record PeerRow : Type := mkPeerRow {
  p_node_id : option string;
  p_address : option string;
  p_admission : option string;
  p_pubkey : option string;
  p_key_bound_at : option N;
  p_key_bound_seq : option N;
  p_bind_sig : option string;
  p_rest : string;
}.

#[export] Instance PeerRow_eq_dec : EqDecision PeerRow.
Proof. solve_decision. Defined.

Record BannedRow : Type := mkBannedRow {
  b_node_id : option string;
  b_address : option string;
  b_banned_at : option N;
}.

#[export] Instance BannedRow_eq_dec : EqDecision BannedRow.
Proof. solve_decision. Defined.

Record LedgerSnapshot : Type := mkSnapshot {
  created_at : N;
  high_water : gmap string N;
  snap_term : N;
  snap_leader : string;
  snap_roster : gmap string string;
  snap_banned : gset (string * string);
  snap_decisions : N;
  snap_memberships : N;
}.

(** A roster file that is damaged is [None]; an absent one has no rows. *)
Record Node : Type := mkNode {
  ledger : list CommitRecord;
  archive : list CommitRecord;
  snapshot : option LedgerSnapshot;
  peers : option (list PeerRow);
  banned : option (list BannedRow);
  evicted : option (N * string);
  keys : KeyStore;
  wire_node_id : string;
  node_key : option (list N);
}.

Inductive AppendError : Type :=
| LockUnavailable
| EquivocationHeld
| EquivocationArchived
| UnpinnedPrevEpoch
| VerificationFailed
| AttributionFailed
| EndorsementsShort
| AttestationMissing
| ChainDivergence.

#[export] Instance AppendError_eq_dec : EqDecision AppendError.
Proof. solve_decision. Defined.

Inductive AppendOutcome : Type := Applied | Skipped | Refused.

#[export] Instance AppendOutcome_eq_dec : EqDecision AppendOutcome.
Proof. solve_decision. Defined.

Definition same_slot (a b : CommitRecord) : bool :=
  bool_decide (coordinator a = coordinator b) && (seq a =? seq b).

Definition str_is (o : option string) (s : string) : bool := bool_decide (o = Some s).

(** ** Addresses *)

(** [split(':').next()]. *)
Fixpoint before_char (c : Ascii.ascii) (s : string) : string :=
  match s with
  | EmptyString => EmptyString
  | String a s' => if Ascii.eqb a c then EmptyString else String a (before_char c s')
  end.

Fixpoint split_char (c : Ascii.ascii) (cur s : string) : list string :=
  match s with
  | EmptyString => [rev_string cur]
  | String a s' =>
      if Ascii.eqb a c then rev_string cur :: split_char c EmptyString s'
      else split_char c (String a cur) s'
  end.

Fixpoint digits_value (acc : nat) (s : string) : option nat :=
  match s with
  | EmptyString => Some acc
  | String a s' =>
      if is_digit a then digits_value (acc * 10 + (Ascii.nat_of_ascii a - 48)) s' else None
  end%nat.

(** One group of [Ipv4Addr::from_str]: one to three digits, no leading zero, at most 255. *)
Definition octet (s : string) : option nat :=
  match s with
  | EmptyString => None
  | String a rest =>
      let leading_zero := Ascii.eqb a (Ascii.ascii_of_nat 48) in
      if (3 <? String.length s)%nat || (leading_zero && (1 <? String.length s)%nat) then None
      else match digits_value 0 s with
           | Some v => if (v <=? 255)%nat then Some v else None
           | None => None
           end
  end.

(** [addr.split(':').next().parse::<IpAddr>().is_loopback()]: the text before the first
    colon can only be an IPv4 address. *)
Definition is_looped (addr : string) : bool :=
  match octet <$> split_char (Ascii.ascii_of_nat 46) EmptyString (before_char (Ascii.ascii_of_nat 58) addr) with
  | [Some a; Some _; Some _; Some _] => (a =? 127)%nat
  | _ => false
  end.

Section Intake.
Context `{C : Crypto} `{S : Serde}.

(** ** Bindings *)

(** [node_pubkey_hex]. *)
Definition node_pubkey_hex (n : Node) : option string :=
  (fun k => hex_encode (verifying_key k)) <$> node_key n.

(** [config_json_rows_at]: a damaged file reads as no rows. *)
Definition peer_rows (n : Node) : list PeerRow := default [] (peers n).

Fixpoint find_map {A B} (f : A -> option B) (l : list A) : option B :=
  match l with
  | [] => None
  | a :: l' => match f a with Some b => Some b | None => find_map f l' end
  end.

(** [bound_pubkey_at]: key, time and sequence floor of the binding. *)
Definition bound_pubkey_at (n : Node) (c : string) : option (string * N * option N) :=
  if bool_decide (c = wire_node_id n) then (fun pk => (pk, 0, Some 0)) <$> node_pubkey_hex n
  else
    find_map (fun p =>
      if negb (str_is (p_node_id p) c) then None
      else match p_pubkey p with
           | None => None
           | Some pk =>
               if bool_decide (pk = EmptyString) then None
               else Some (pk, default 0 (p_key_bound_at p), p_key_bound_seq p)
           end) (peer_rows n).

(** [attribution_valid_at]. *)
Definition attribution_valid_at (n : Node) (r : CommitRecord) : bool :=
  match bound_pubkey_at n (coordinator r) with
  | None => true
  | Some (pk, bound_at, bound_seq) =>
      let exempt :=
        match bound_seq with
        | Some floor => (seq r <=? floor) && (committed_at r <? bound_at)
        | None => committed_at r <? bound_at
        end in
      if exempt then true
      else negb (bool_decide (member_sig r = EmptyString)) && member_verify pk (signature r) (member_sig r)
  end.

(** [coordinator_known_at]. *)
Definition coordinator_known_at (n : Node) (r : CommitRecord) : bool :=
  if bool_decide (coordinator r = wire_node_id n) then true
  else existsb (fun p => str_is (p_node_id p) (coordinator r) && str_is (p_admission p) "explicit")
         (peer_rows n).

(** [privileged_kind] and [privileged_kind_name]. *)
Definition privileged_kind (r : CommitRecord) : bool :=
  (match member_delta r with Some _ => true | None => false end)
  || (match rekey_fingerprint r with Some _ => true | None => false end).
Definition privileged_kind_name (k : string) : bool := is_member_kind k || is_rekey_kind k.

(** [member_coordinator_known_at]. *)
Definition member_coordinator_known_at (n : Node) (r : CommitRecord) : bool :=
  if negb (privileged_kind r) then true
  else bool_decide (leader r = coordinator r) && coordinator_known_at n r.

Definition endorsement_payload (sg : string) : string := ("susi-endorse-v1:" +:+ sg)%string.

(** [subject_attestation_valid]. *)
Definition subject_attestation_valid (r : CommitRecord) : bool :=
  match member_delta r with
  | Some (k, id, _) =>
      if negb (bool_decide (k = KIND_MEMBER_ADD)) then true
      else if bool_decide (member_pubkey r = EmptyString) then true
      else verify_bind_attestation id (member_pubkey r) (subject_sig r)
  | None => true
  end.

(** ** Endorsements *)

(** The electorate members a gate counts, with their keys. *)
Definition bound_members (n : Node) (in_time : N -> bool) (r : CommitRecord) : list (string * string) :=
  omap (fun m => match bound_pubkey_at n m with
                 | Some (pk, at_, _) => if in_time at_ then Some (m, pk) else None
                 | None => None
                 end) (electorate r).

Definition key_in (bound : list (string * string)) (m : string) : option string :=
  snd <$> List.find (fun b => bool_decide (b.1 = m)) bound.

(** The distinct members whose signature supports the record. *)
Definition supporters (bound : list (string * string)) (r : CommitRecord) : gset string :=
  let own : gset string :=
    match key_in bound (coordinator r) with
    | Some pk => if member_verify pk (signature r) (member_sig r) then {[coordinator r]} else ∅
    | None => ∅
    end in
  fold_left (fun s e =>
    match key_in bound (node e) with
    | None => s
    | Some pk =>
        if member_verify pk (endorsement_payload (signature r)) (sig e) then {[node e]} ∪ s else s
    end) (endorsements r) own.

Definition majority_supports (bound : list (string * string)) (r : CommitRecord) : bool :=
  match bound with
  | [] => true
  | _ => (length bound / 2 + 1 <=? size (supporters bound r))%nat
  end.

(** [endorsements_satisfied_at]: the members bound when the record says it was made. *)
Definition endorsements_satisfied_at (n : Node) (r : CommitRecord) : bool :=
  if negb (privileged_kind_name (kind r)) then true
  else majority_supports (bound_members n (fun at_ => at_ <=? committed_at r) r) r.

(** [endorsements_satisfied_at_tip]: the members bound now. *)
Definition endorsements_satisfied_at_tip (n : Node) (r : CommitRecord) : bool :=
  if negb (privileged_kind_name (kind r)) then true
  else majority_supports (bound_members n (fun _ => true) r) r.

(** ** Effects *)

Definition set_ledger (n : Node) (l : list CommitRecord) : Node :=
  mkNode l (archive n) (snapshot n) (peers n) (banned n) (evicted n) (keys n) (wire_node_id n) (node_key n).
Definition set_roster (n : Node) (p : list PeerRow) (b : list BannedRow) : Node :=
  mkNode (ledger n) (archive n) (snapshot n) (Some p) (Some b) (evicted n) (keys n) (wire_node_id n) (node_key n).
Definition set_evicted (n : Node) (e : option (N * string)) : Node :=
  mkNode (ledger n) (archive n) (snapshot n) (peers n) (banned n) e (keys n) (wire_node_id n) (node_key n).
Definition set_keys (n : Node) (k : KeyStore) : Node :=
  mkNode (ledger n) (archive n) (snapshot n) (peers n) (banned n) (evicted n) k (wire_node_id n) (node_key n).

(** [bind_member_key]: first write wins; the floor is the member's highest sequence
    number in the archive and the ledger. *)
Definition bind_member_key (n : Node) (row : PeerRow) (r : CommitRecord) (id : string) : PeerRow :=
  if bool_decide (member_pubkey r = EmptyString) then row
  else if negb (match p_pubkey row with Some p => bool_decide (p = EmptyString) | None => true end) then row
  else
    let floor := default 0 (max_key seq (of_coordinator id (archive n ++ ledger n))) in
    mkPeerRow (p_node_id row) (p_address row) (p_admission row) (Some (member_pubkey r))
      (Some (committed_at r)) (Some floor) (Some (subject_sig r)) (p_rest row).

Definition peer_matches (id addr : string) (p : PeerRow) : bool :=
  str_is (p_node_id p) id || str_is (p_address p) addr.
Definition ban_matches (id addr : string) (b : BannedRow) : bool :=
  str_is (b_node_id b) id || str_is (b_address b) addr.

(** The fields a committed add writes into the rows it finds. *)
Definition admit_row (p : PeerRow) (id addr : string) : PeerRow :=
  mkPeerRow (Some id) (Some addr) (Some "explicit") (p_pubkey p) (p_key_bound_at p)
    (p_key_bound_seq p) (p_bind_sig p) (p_rest p).

Definition NEW_ROW_REST : string :=
  "node_type=PEER;is_active=true;trust_score=0.8;last_seen_secs=0".
Definition new_row (id addr : string) : PeerRow :=
  mkPeerRow (Some id) (Some addr) (Some "explicit") None None None None NEW_ROW_REST.

(** The [retain_mut] of a committed add: the first matching row is rewritten, later
    ones are dropped. *)
Fixpoint merge_rows (n : Node) (r : CommitRecord) (id addr : string) (merged : bool)
    (rows : list PeerRow) : bool * list PeerRow :=
  match rows with
  | [] => (merged, [])
  | p :: rows' =>
      if negb (peer_matches id addr p) then
        let '(m, rest) := merge_rows n r id addr merged rows' in (m, p :: rest)
      else if merged then merge_rows n r id addr merged rows'
      else
        let '(m, rest) := merge_rows n r id addr true rows' in
        (m, bind_member_key n (admit_row p id addr) r id :: rest)
  end.

(** The roster and ban files after a delta, for readable files. *)
Definition apply_rows (n : Node) (r : CommitRecord) (k id addr : string)
    (ps : list PeerRow) (bs : list BannedRow) : list PeerRow * list BannedRow :=
  if bool_decide (k = KIND_MEMBER_ADD) then
    if existsb (ban_matches id addr) bs then (ps, bs)
    else
      let '(merged, ps') := merge_rows n r id addr false ps in
      (if merged then ps' else ps' ++ [bind_member_key n (new_row id addr) r id], bs)
  else if bool_decide (k = KIND_MEMBER_REMOVE) then
    (List.filter (fun p => negb (peer_matches id addr p)) ps,
     if existsb (ban_matches id addr) bs then bs
     else bs ++ [mkBannedRow (Some id) (Some addr) (Some (committed_at r))])
  else if bool_decide (k = KIND_MEMBER_UNBAN) then
    (ps, List.filter (fun b => negb (ban_matches id addr b)) bs)
  else (ps, bs).

(** [apply_member_delta]. *)
Definition apply_member_delta (n : Node) (r : CommitRecord) : Node :=
  match member_delta r with
  | None => n
  | Some (k, id, addr) =>
      if bool_decide (id = wire_node_id n) then
        if bool_decide (k = KIND_MEMBER_REMOVE) then set_evicted n (Some (committed_at r, coordinator r))
        else if bool_decide (k = KIND_MEMBER_UNBAN) || bool_decide (k = KIND_MEMBER_ADD)
        then set_evicted n None else n
      else if is_looped addr then n
      else
        match peers n, banned n with
        | Some ps, Some bs => let '(ps', bs') := apply_rows n r k id addr ps bs in set_roster n ps' bs'
        | _, _ => n
        end
  end.

(** The key rotation a record commits. *)
Definition apply_rekey (n : Node) (now : N) (r : CommitRecord) : Node :=
  if bool_decide (kind r = KIND_CLUSTER_REKEY_ACTIVATE) then
    match rekey_fingerprint r with
    | Some fp => set_keys n (activate_staged_key_at (keys n) fp now).2
    | None => n
    end
  else n.

(** ** The gate *)

Definition snapshot_floor_at (n : Node) (c : string) : N :=
  match snapshot n with
  | Some s => default 0 (high_water s !! c)
  | None => 0
  end.

Definition find_in_archive (n : Node) (c : string) (s : N) : option CommitRecord :=
  List.find (fun r => bool_decide (coordinator r = c) && (seq r =? s)) (archive n).

(** The record is held already: [Some true], or its slot by another: [Some false]. *)
Definition already_held (held : list CommitRecord) (r : CommitRecord) : option bool :=
  if 0 <? seq r then
    match List.find (fun h => same_slot h r) held with
    | Some existing => Some (bool_decide (existing = r))
    | None => None
    end
  else if existsb (fun h => bool_decide (h = r)) held then Some true else None.

Definition below_floor (n : Node) (r : CommitRecord) : option bool :=
  if (0 <? seq r) && (seq r <? snapshot_floor_at n (coordinator r)) then
    match find_in_archive n (coordinator r) (seq r) with
    | Some archived => Some (bool_decide (archived = r))
    | None => None
    end
  else None.

(** A held successor names this record's epoch. *)
Definition pinned (held : list CommitRecord) (r : CommitRecord) : bool :=
  existsb (fun h => bool_decide (coordinator h = coordinator r)
                    && (seq h =? wrapping_add (seq r) 1)
                    && bool_decide (prev_epoch h = epoch r)) held.

Definition chain_agrees (held : list CommitRecord) (r : CommitRecord) : bool :=
  if negb (bool_decide (prev_epoch r = EmptyString)) && (1 <? seq r) then
    match List.find (fun h => bool_decide (coordinator h = coordinator r) && (seq h =? seq r - 1)) held with
    | Some pred => bool_decide (epoch pred = prev_epoch r)
    | None => true
    end
  else true.

(** The gates in their order: [Ok false] is a redundant delivery, [Ok true] lets the
    record through. *)
Definition intake_gates (n : Node) (now : N) (held : list CommitRecord) (r : CommitRecord)
  : result bool AppendError :=
  match already_held held r with
  | Some true => Ok false
  | Some false => Err EquivocationHeld
  | None =>
      match below_floor n r with
      | Some true => Ok false
      | Some false => Err EquivocationArchived
      | None =>
          match verify_key_epoch (keys n) now r with
          | None => Err VerificationFailed
          | Some e =>
              if bool_decide (e = Prev) && negb (pinned held r) then Err UnpinnedPrevEpoch
              else if negb (attribution_valid_at n r) then Err AttributionFailed
              else if negb (endorsements_satisfied_at_tip n r) then Err EndorsementsShort
              else if negb (subject_attestation_valid r) then Err AttestationMissing
              else if negb (chain_agrees held r) then Err ChainDivergence
              else Ok true
          end
      end
  end.

(** [append_checked]. *)
Definition append_checked (n : Node) (now : N) (held : list CommitRecord) (r : CommitRecord)
  : result bool AppendError * Node * list CommitRecord :=
  match intake_gates n now held r with
  | Ok true =>
      let n1 := set_ledger n (ledger n ++ [r]) in
      let n2 := match member_delta r with Some _ => apply_member_delta n1 r | None => n1 end in
      let n3 := apply_rekey n2 now r in
      (Ok true, n3, held ++ [r])
  | res => (res, n, held)
  end.

(** [append_to]: [locked] is whether the cross-process lock was acquired. *)
Definition append_to (locked : bool) (n : Node) (now : N) (r : CommitRecord)
  : result unit AppendError * Node :=
  if negb locked then (Err LockUnavailable, n)
  else
    match append_checked n now (ledger n) r with
    | (Ok _, n', _) => (Ok tt, n')
    | (Err e, n', _) => (Err e, n')
    end.

Definition outcome_of (res : result bool AppendError) : AppendOutcome :=
  match res with Ok true => Applied | Ok false => Skipped | Err _ => Refused end.

(** The batch loop over a growing [held]. *)
Fixpoint append_batch (n : Node) (now : N) (held : list CommitRecord) (rs : list CommitRecord)
  : list AppendOutcome * Node * list CommitRecord :=
  match rs with
  | [] => ([], n, held)
  | r :: rs' =>
      let '(res, n1, held1) := append_checked n now held r in
      let '(outs, n2, held2) := append_batch n1 now held1 rs' in
      (outcome_of res :: outs, n2, held2)
  end.

(** [append_many_to]. *)
Definition append_many_to (locked : bool) (n : Node) (now : N) (rs : list CommitRecord)
  : list AppendOutcome * Node :=
  if negb locked then (repeat Refused (length rs), n)
  else let '(outs, n', _) := append_batch n now (ledger n) rs in (outs, n').
End Intake.

(** ** Slots *)

Definition slot (r : CommitRecord) : string * N := (coordinator r, seq r).

(** No two sequenced records share a slot. *)
Definition unique_slots (l : list CommitRecord) : Prop :=
  NoDup (slot <$> List.filter (fun r => 0 <? seq r) l).

Lemma same_slot_true a b : same_slot a b = true <-> slot a = slot b.
Proof.
  unfold same_slot, slot. rewrite andb_true_iff, bool_decide_eq_true, N.eqb_eq.
  split; [intros [-> ->]; done|by intros [= -> ->]].
Qed.

Lemma unique_slots_snoc l r :
  unique_slots (l ++ [r]) <->
  unique_slots l /\ (0 < seq r -> forall h, In h l -> slot h <> slot r).
Proof.
  unfold unique_slots. rewrite List.filter_app, fmap_app. cbn [List.filter].
  destruct (N.ltb_spec 0 (seq r)) as [Hs|Hs]; cbn [fmap list_fmap].
  - rewrite NoDup_app. split.
    + intros (H1 & H2 & _). split; [done|]. intros _ h Hh Heq.
      apply (H2 (slot r)); [|set_solver]. apply list_elem_of_fmap. exists h. split; [done|].
      apply list_elem_of_In, List.filter_In. split; [done|]. apply N.ltb_lt.
      apply (f_equal snd) in Heq. simpl in Heq. lia.
    + intros [H1 H2]. split_and!; [done| |apply NoDup_singleton].
      intros x Hx Hr. apply list_elem_of_fmap in Hx as (h & -> & Hh).
      apply list_elem_of_singleton in Hr.
      apply list_elem_of_In, List.filter_In in Hh as [Hh _]. by apply (H2 Hs h).
  - rewrite app_nil_r. split; [intros H; split; [done|lia]|tauto].
Qed.

Lemma unique_slots_eq l a b : unique_slots l -> In a l -> In b l -> 0 < seq a ->
  slot a = slot b -> a = b.
Proof.
  induction l as [|x l IH] using rev_ind; intros Hu Ha Hb Hs Heq; [done|].
  apply unique_slots_snoc in Hu as [Hu Hx]. apply in_app_or in Ha, Hb.
  assert (Hsb : seq b = seq a) by (by apply (f_equal snd) in Heq).
  destruct Ha as [Ha|[<-|[]]], Hb as [Hb|[<-|[]]]; [by apply IH| | |done].
  - exfalso. by apply (Hx ltac:(lia) a Ha).
  - exfalso. by apply (Hx ltac:(lia) b Hb).
Qed.

Section IntakeLemmas.
Context `{C : Crypto} `{S : Serde}.

(** ** What the gates let through *)

Lemma already_held_None held r : already_held held r = None ->
  (0 < seq r -> forall h, In h held -> slot h <> slot r) /\ (seq r = 0 -> ~ In r held).
Proof.
  unfold already_held. destruct (N.ltb_spec 0 (seq r)) as [Hs|Hs].
  - destruct (List.find _ held) eqn:Hf; [done|]. intros _. split; [|lia].
    intros _ h Hh Heq. apply find_None_all with (x := h) in Hf; [|done].
    by apply same_slot_true in Heq; rewrite Heq in Hf.
  - destruct (existsb _ held) eqn:He; [done|]. intros _. split; [lia|].
    intros _ Hin. apply existsb_false with (x := r) in He; [|done]. by apply bool_decide_eq_false in He.
Qed.

Lemma already_held_appended held r : already_held held r = None ->
  already_held (held ++ [r]) r = Some true.
Proof.
  intros H. destruct (already_held_None held r H) as [Hs H0]. unfold already_held.
  destruct (N.ltb_spec 0 (seq r)) as [Hpos|Hz].
  - assert (Hf : List.find (fun h => same_slot h r) (held ++ [r]) = Some r).
    { specialize (Hs Hpos). clear H H0. induction held as [|h held IH]; simpl.
      - rewrite (proj2 (same_slot_true r r)) by done. done.
      - destruct (same_slot h r) eqn:E; [|apply IH; intros x Hx; apply Hs; by right].
        apply same_slot_true in E. exfalso. by apply (Hs h (or_introl eq_refl)). }
    by rewrite Hf, bool_decide_true.
  - rewrite existsb_app. cbn [existsb]. rewrite bool_decide_true by done.
    by rewrite orb_true_r.
Qed.

(** The gates passed by a record that is let through. *)
Record passed (n : Node) (now : N) (held : list CommitRecord) (r : CommitRecord) : Prop := {
  passed_new : already_held held r = None;
  passed_floor : below_floor n r = None;
  passed_epoch : exists e, verify_key_epoch (keys n) now r = Some e
                           /\ (e = Prev -> pinned held r = true);
  passed_attribution : attribution_valid_at n r = true;
  passed_endorsed : endorsements_satisfied_at_tip n r = true;
  passed_attested : subject_attestation_valid r = true;
  passed_chain : chain_agrees held r = true;
}.

Lemma intake_gates_pass n now held r :
  intake_gates n now held r = Ok true <-> passed n now held r.
Proof.
  unfold intake_gates. split.
  - intros H. destruct (already_held held r) as [[|]|] eqn:H1; try done.
    destruct (below_floor n r) as [[|]|] eqn:H2; try done.
    destruct (verify_key_epoch (keys n) now r) as [e|] eqn:H3; [|done].
    destruct (bool_decide (e = Prev) && negb (pinned held r)) eqn:H4; [done|].
    destruct (attribution_valid_at n r) eqn:H5; [|done].
    destruct (endorsements_satisfied_at_tip n r) eqn:H6; [|done].
    destruct (subject_attestation_valid r) eqn:H7; [|done].
    destruct (chain_agrees held r) eqn:H8; [|done]. split; try done.
    exists e. split; [done|]. intros ->. destruct (pinned held r); done.
  - intros [-> -> (e & -> & Hp) -> -> -> ->]. simpl.
    case_bool_decide as He; [by rewrite Hp|done].
Qed.

(** The roster and key effects leave the ledger alone. *)
Lemma apply_member_delta_ledger n r : ledger (apply_member_delta n r) = ledger n.
Proof.
  unfold apply_member_delta. destruct (member_delta r) as [[[k id] addr]|]; [|done].
  repeat case_bool_decide; simpl; try done; destruct (is_looped addr); try done;
    destruct (peers n), (banned n); try done;
    by destruct (apply_rows _ _ _ _ _ _ _).
Qed.

Lemma apply_rekey_ledger n now r : ledger (apply_rekey n now r) = ledger n.
Proof. unfold apply_rekey. case_bool_decide; [|done]. by destruct (rekey_fingerprint r). Qed.

Lemma append_checked_cases n now held r :
  let '(res, n', held') := append_checked n now held r in
  (res = Ok true /\ passed n now held r /\ ledger n' = ledger n ++ [r] /\ held' = held ++ [r])
  \/ (res <> Ok true /\ n' = n /\ held' = held).
Proof.
  unfold append_checked. destruct (intake_gates n now held r) as [[|]|e] eqn:Hg;
    [left|right; done..].
  apply intake_gates_pass in Hg. split_and!; try done.
  rewrite apply_rekey_ledger. destruct (member_delta r); [|done]. by rewrite apply_member_delta_ledger.
Qed.

(** ** Batches *)

Lemma append_batch_spec n now held rs : held = ledger n ->
  let '(outs, n', held') := append_batch n now held rs in
  held' = ledger n' /\ length outs = length rs /\
  exists added, ledger n' = ledger n ++ added /\ added `sublist_of` rs /\
    length added = length (List.filter (fun o => bool_decide (o = Applied)) outs) /\
    Forall (fun r => internally_consistent r = true) added /\
    (unique_slots (ledger n) -> unique_slots (ledger n')).
Proof.
  revert n held. induction rs as [|r rs IH]; intros n held ->; cbn [append_batch].
  { split_and!; try done. exists []. rewrite app_nil_r. split_and!; done. }
  pose proof (append_checked_cases n now (ledger n) r) as Hc.
  destruct (append_checked n now (ledger n) r) as [[res n1] held1].
  assert (Hheld : held1 = ledger n1) by (destruct Hc as [(_ & _ & -> & ->)|(_ & -> & ->)]; done).
  specialize (IH n1 held1 Hheld).
  destruct (append_batch n1 now held1 rs) as [[outs n2] held2].
  destruct IH as (H2 & Hlen & added & Hl & Hsub & Hcnt & Hall & Hu).
  split_and!; [done|simpl; by rewrite Hlen|].
  destruct Hc as [(-> & Hp & Hl1 & _)|(Hne & -> & _)].
  - exists (r :: added). rewrite Hl, Hl1, <- app_assoc. split_and!; try done.
    + by apply sublist_skip.
    + simpl. by rewrite Hcnt.
    + constructor; [|done]. destruct (passed_epoch _ _ _ _ Hp) as (e & He & _).
      unfold verify_key_epoch in He. destruct (signature_epoch _ _ _); [|done].
      by destruct (internally_consistent r).
    + intros Hun. rewrite Hl, Hl1, <- app_assoc in Hu. apply Hu.
      apply unique_slots_snoc. split; [done|].
      apply (already_held_None _ _ (passed_new _ _ _ _ Hp)).
  - exists added. split_and!; try done; [by apply sublist_cons|].
    simpl. destruct res as [[|]|]; simpl; done.
Qed.
End IntakeLemmas.

Section MoreLemmas.
Context `{C : Crypto} `{S : Serde}.

(** ** Frontier *)

Lemma of_coordinator_snoc_self held r :
  of_coordinator (coordinator r) (held ++ [r]) = of_coordinator (coordinator r) held ++ [r].
Proof. rewrite of_coordinator_app. unfold of_coordinator at 2. simpl. by rewrite bool_decide_true. Qed.

Lemma pinned_below_head held r : pinned held r = true -> seq r < u64_max ->
  exists m, last_max_by seq (of_coordinator (coordinator r) held) = Some m /\ seq r < seq m.
Proof.
  intros Hp Hs. apply existsb_exists in Hp as (h & Hin & Hh). bool_to_prop.
  apply N.eqb_eq in H1. rewrite wrapping_add_exact in H1 by lia.
  assert (Hc : In h (of_coordinator (coordinator r) held)) by (by apply of_coordinator_In).
  destruct (last_max_by seq (of_coordinator (coordinator r) held)) as [m|] eqn:Hm.
  - exists m. split; [done|]. apply last_max_by_Some in Hm as [_ Hmax]. specialize (Hmax h Hc). lia.
  - apply last_max_by_None in Hm. by rewrite Hm in Hc.
Qed.

(** ** Endorsements *)

(** What counts as one member's support for a record. *)
Definition supports (bound : list (string * string)) (m : string) (r : CommitRecord) : Prop :=
  exists pk, key_in bound m = Some pk /\
    ((coordinator r = m /\ member_verify pk (signature r) (member_sig r) = true) \/
     (exists e, In e (endorsements r) /\ node e = m /\
        member_verify pk (endorsement_payload (signature r)) (sig e) = true)).

Lemma key_in_bound bound m pk : key_in bound m = Some pk -> m ∈ bound.*1.
Proof.
  unfold key_in. destruct (List.find _ bound) as [b|] eqn:Hf; [|done]. intros _.
  apply find_Some_In in Hf as [Hin Hb]. bool_to_prop. subst m.
  apply list_elem_of_fmap. exists b. split; [done|]. by apply list_elem_of_In.
Qed.

Definition add_supporter (bound : list (string * string)) (r : CommitRecord) (s : gset string)
    (e : MemberEndorsement) : gset string :=
  match key_in bound (node e) with
  | None => s
  | Some pk =>
      if member_verify pk (endorsement_payload (signature r)) (sig e) then {[node e]} ∪ s else s
  end.

Lemma fold_support bound r es (s : gset string) :
  (forall m, m ∈ s -> supports bound m r) -> (forall e, In e es -> In e (endorsements r)) ->
  forall m, m ∈ fold_left (add_supporter bound r) es s -> supports bound m r.
Proof.
  revert s. induction es as [|e es IH]; intros s Hs Hall m Hm; [by apply Hs|]. cbn [fold_left] in Hm.
  eapply IH; [|intros x Hx; apply Hall; by right|exact Hm]. intros m' Hm'. unfold add_supporter in Hm'.
  destruct (key_in bound (node e)) as [pk|] eqn:Hk; [|by apply Hs].
  destruct (member_verify pk _ (sig e)) eqn:Hv; [|by apply Hs].
  apply elem_of_union in Hm' as [Hm'|Hm']; [|by apply Hs].
  apply elem_of_singleton in Hm' as ->. exists pk. split; [done|]. right. exists e.
  split_and!; try done. apply Hall. by left.
Qed.

Lemma supporters_support bound r m : m ∈ supporters bound r -> supports bound m r.
Proof.
  apply fold_support; [|done]. intros m' Hm.
  destruct (key_in bound (coordinator r)) as [pk|] eqn:Hk; [|set_solver].
  destruct (member_verify pk (signature r) (member_sig r)) eqn:Hv; [|set_solver].
  apply elem_of_singleton in Hm as ->. exists pk. auto.
Qed.

Lemma supporters_bound bound r : supporters bound r ⊆ list_to_set bound.*1.
Proof.
  intros m Hm. apply elem_of_list_to_set. apply supporters_support in Hm as (pk & Hk & _).
  by eapply key_in_bound.
Qed.

(** Two majorities of one bound electorate share a member. *)
Lemma majorities_share bound r r' : bound <> [] ->
  majority_supports bound r = true -> majority_supports bound r' = true ->
  exists m, supports bound m r /\ supports bound m r'.
Proof.
  intros Hne Hr Hr'. unfold majority_supports in *. destruct bound as [|b0 bs]; [done|].
  set (bound := b0 :: bs) in *. apply Nat.leb_le in Hr, Hr'.
  destruct (decide (supporters bound r ∩ supporters bound r' ≡ ∅)) as [Hd|Hd].
  - exfalso. assert (Hu : (size (supporters bound r ∪ supporters bound r') <= length bound)%nat).
    { etransitivity; [apply subseteq_size, union_least; apply supporters_bound|].
      rewrite <- (length_fmap fst bound). apply size_list_to_set_le. }
    rewrite size_union in Hu by set_solver.
    pose proof (Nat.div_mod_eq (length bound) 2). pose proof (Nat.mod_upper_bound (length bound) 2 ltac:(lia)).
    lia.
  - apply set_choose in Hd as [m Hm]. exists m. apply elem_of_intersection in Hm as [H1 H2].
    by split; apply supporters_support.
Qed.

(** ** Bans *)

Definition row_banned (p : PeerRow) (b : BannedRow) : Prop :=
  (b_node_id b <> None /\ p_node_id p = b_node_id b) \/ (b_address b <> None /\ p_address p = b_address b).

(** No roster row is banned by its id or its address. *)
Definition bans_hold (ps : list PeerRow) (bs : list BannedRow) : Prop :=
  forall p b, In p ps -> In b bs -> ~ row_banned p b.

Lemma bind_member_key_ids n row r id :
  p_node_id (bind_member_key n row r id) = p_node_id row /\
  p_address (bind_member_key n row r id) = p_address row.
Proof. unfold bind_member_key. case_bool_decide; [done|]. by destruct (negb _). Qed.

Lemma merge_rows_In n r id addr merged ps p : In p (merge_rows n r id addr merged ps).2 ->
  In p ps \/ (p_node_id p = Some id /\ p_address p = Some addr).
Proof.
  revert merged. induction ps as [|q ps IH]; intros merged Hp; cbn [merge_rows] in Hp; [done|].
  destruct (negb (peer_matches id addr q)).
  - specialize (IH merged). destruct (merge_rows n r id addr merged ps) as [m rest]. simpl in *.
    naive_solver.
  - destruct merged; [specialize (IH true Hp); naive_solver|].
    specialize (IH true). destruct (merge_rows n r id addr true ps) as [m rest]. simpl in *.
    destruct Hp as [<-|Hp]; [|naive_solver]. right.
    by destruct (bind_member_key_ids n (admit_row q id addr) r id) as [-> ->].
Qed.

Lemma unbanned_row id addr bs p : existsb (ban_matches id addr) bs = false ->
  p_node_id p = Some id -> p_address p = Some addr -> forall b, In b bs -> ~ row_banned p b.
Proof.
  intros Hno Hid Haddr b Hb [[Hn Hp]|[Hn Hp]]; apply existsb_false with (x := b) in Hno;
    try done; unfold ban_matches, str_is in Hno; bool_to_prop; congruence.
Qed.

Lemma apply_rows_bans n r k id addr ps bs : bans_hold ps bs ->
  let '(ps', bs') := apply_rows n r k id addr ps bs in bans_hold ps' bs'.
Proof.
  intros Hb. unfold apply_rows. repeat case_bool_decide; try done.
  - destruct (existsb (ban_matches id addr) bs) eqn:Hban; [done|].
    pose proof (merge_rows_In n r id addr false ps) as Hin.
    destruct (merge_rows n r id addr false ps) as [merged ps']. simpl in Hin.
    assert (Hps' : bans_hold ps' bs).
    { intros p b Hp Hbin. destruct (Hin p Hp) as [Hp0|[H1 H2]]; [by apply Hb|].
      by apply (unbanned_row id addr bs). }
    destruct merged; [done|]. intros p b Hp Hbin. apply in_app_or in Hp as [Hp|[<-|[]]]; [by apply Hps'|].
    destruct (bind_member_key_ids n (new_row id addr) r id) as [H1 H2].
    by apply (unbanned_row id addr bs).
  - set (ps' := List.filter _ ps).
    assert (Hps' : bans_hold ps' bs) by (intros p b Hp; apply List.filter_In in Hp as [Hp _]; by apply Hb).
    destruct (existsb (ban_matches id addr) bs) eqn:Hban; [done|].
    intros p b Hp Hbin. apply in_app_or in Hbin as [Hbin|[<-|[]]]; [by apply Hps'|].
    apply List.filter_In in Hp as [_ Hp]. unfold peer_matches, str_is in Hp.
    intros [[_ Hn]|[_ Hn]]; simpl in Hn; bool_to_prop; congruence.
  - intros p b Hp Hbin. apply List.filter_In in Hbin as [Hbin _]. by apply Hb.
Qed.
End MoreLemmas.

(** ** The claims *)

(** C1. Intake never equivocates.  Whatever records a batch brings, in whatever order and
    whether or not some are refused: the ledger only grows, by records of the batch, in
    their order and one per [Applied] outcome, each internally consistent; and if no two
    sequenced records shared a (coordinator, seq) slot before, none do after. *)
Theorem intake_never_equivocates `{C : Crypto} `{S : Serde} locked n now rs :
  let '(outs, n') := append_many_to locked n now rs in
  length outs = length rs /\
  exists added, ledger n' = ledger n ++ added /\ added `sublist_of` rs /\
    length added = length (List.filter (fun o => bool_decide (o = Applied)) outs) /\
    Forall (fun r => internally_consistent r = true) added /\
    (unique_slots (ledger n) -> unique_slots (ledger n')).
Proof.
  unfold append_many_to. destruct locked; cbn [negb].
  - pose proof (append_batch_spec n now (ledger n) rs eq_refl) as H.
    destruct (append_batch n now (ledger n) rs) as [[outs n'] held']. by destruct H as (_ & H).
  - split; [apply repeat_length|]. exists []. rewrite app_nil_r.
    split_and!; try done; [apply sublist_nil_l|].
    induction rs as [|r rs IH]; [done|]. exact IH.
Qed.

(** Delivery is idempotent.  A record the ledger took is a no-op success ever after,
    whatever the clock and whatever keys were rotated in between by taking it. *)
Theorem append_idempotent `{C : Crypto} `{S : Serde} n now now' r n' :
  append_to true n now r = (Ok tt, n') -> append_to true n' now' r = (Ok tt, n').
Proof.
  unfold append_to. cbn [negb]. pose proof (append_checked_cases n now (ledger n) r) as Hc.
  destruct (append_checked n now (ledger n) r) as [[res n1] held1] eqn:Ha.
  destruct Hc as [(-> & Hp & Hl & _)|(Hne & -> & _)].
  - intros [= <-]. unfold append_checked, intake_gates.
    by rewrite Hl, (already_held_appended _ _ (passed_new _ _ _ _ Hp)).
  - destruct res as [[|]|]; try done. intros [= <-].
    assert (Hg : intake_gates n now (ledger n) r = Ok false).
    { unfold append_checked in Ha. by destruct (intake_gates n now (ledger n) r) as [[|]|]. }
    assert (Hg' : intake_gates n now' (ledger n) r = Ok false).
    { unfold intake_gates in *. destruct (already_held (ledger n) r) as [[|]|]; try done.
      destruct (below_floor n r) as [[|]|]; try done. exfalso. repeat (break_in Hg; try done). }
    unfold append_checked. by rewrite Hg'.
Qed.

(** A refused record changes nothing: when the lock or a gate refuses, the ledger, the
    roster, the bans, the eviction marker and the keys are what they were. *)
Theorem refusal_changes_nothing `{C : Crypto} `{S : Serde} locked n now r e n' :
  append_to locked n now r = (Err e, n') -> n' = n.
Proof.
  unfold append_to. destruct locked; cbn [negb]; [|by intros [= _ <-]].
  pose proof (append_checked_cases n now (ledger n) r) as Hc.
  destruct (append_checked n now (ledger n) r) as [[res n1] held1].
  destruct Hc as [(-> & _)|(_ & -> & _)]; [done|]. destruct res; by intros [= _ <-].
Qed.

(** A retired key cannot extend the log.  A record that only the previous cluster key
    signed is taken only to fill a gap: the coordinator's next sequence number and chain
    head are unchanged by it. *)
Theorem prior_epoch_never_extends_frontier `{C : Crypto} `{S : Serde} n now r n' :
  verify_key_epoch (keys n) now r = Some Prev -> seq r < u64_max ->
  append_to true n now r = (Ok tt, n') ->
  next_seq_for (ledger n') (coordinator r) = next_seq_for (ledger n) (coordinator r) /\
  chain_head_epoch (ledger n') (coordinator r) = chain_head_epoch (ledger n) (coordinator r).
Proof.
  intros Hprev Hs. unfold append_to. cbn [negb].
  pose proof (append_checked_cases n now (ledger n) r) as Hc.
  destruct (append_checked n now (ledger n) r) as [[res n1] held1].
  destruct Hc as [(-> & Hp & Hl & _)|(_ & -> & _)].
  - intros [= <-]. destruct (passed_epoch _ _ _ _ Hp) as (e & He & Hpin).
    rewrite Hprev in He. injection He as <-. specialize (Hpin eq_refl).
    destruct (pinned_below_head _ _ Hpin Hs) as (m & Hm & Hlt).
    unfold next_seq_for, chain_head_epoch, max_key.
    rewrite Hl, of_coordinator_snoc_self, (last_max_by_snoc_smaller _ _ m), Hm by done. done.
  - by destruct res; intros [= <-].
Qed.

(** Two privileged changes accepted against one bound electorate share a voter: a
    member with a bound key signed both, so a roster cannot be forked without a member
    signing both branches. *)
Theorem privileged_quorums_intersect `{C : Crypto} `{S : Serde} n n' now now' held held' r r' :
  privileged_kind_name (kind r) = true -> privileged_kind_name (kind r') = true ->
  bound_members n (fun _ => true) r = bound_members n' (fun _ => true) r' ->
  bound_members n (fun _ => true) r <> [] ->
  intake_gates n now held r = Ok true -> intake_gates n' now' held' r' = Ok true ->
  exists m, supports (bound_members n (fun _ => true) r) m r
         /\ supports (bound_members n (fun _ => true) r) m r'.
Proof.
  intros Hk Hk' Hb Hne Hg Hg'. apply intake_gates_pass in Hg, Hg'.
  pose proof (passed_endorsed _ _ _ _ Hg) as He. pose proof (passed_endorsed _ _ _ _ Hg') as He'.
  unfold endorsements_satisfied_at_tip in *. rewrite Hk in He. rewrite Hk' in He'. cbn [negb] in *.
  rewrite <- Hb in He'. by apply majorities_share.
Qed.

(** Evictions hold.  Committed deltas never leave a banned member on the roster: if no
    row matches a ban, by id or by address, none does after any delta is applied. *)
Theorem committed_deltas_respect_bans `{C : Crypto} `{S : Serde} n r ps bs :
  peers n = Some ps -> banned n = Some bs -> bans_hold ps bs ->
  exists ps' bs', peers (apply_member_delta n r) = Some ps' /\
    banned (apply_member_delta n r) = Some bs' /\ bans_hold ps' bs'.
Proof.
  intros Hp Hb Hh. unfold apply_member_delta.
  destruct (member_delta r) as [[[k id] addr]|]; [|by exists ps, bs].
  case_bool_decide; [repeat case_bool_decide; simpl; by exists ps, bs|].
  destruct (is_looped addr); [by exists ps, bs|]. rewrite Hp, Hb.
  pose proof (apply_rows_bans n r k id addr ps bs Hh) as Hr.
  destruct (apply_rows n r k id addr ps bs) as [ps' bs']. simpl. by exists ps', bs'.
Qed.

(** A record above everything its coordinator has is in no slot yet. *)
Lemma already_held_new held r :
  (forall h, In h held -> coordinator h = coordinator r -> seq h < seq r) ->
  already_held held r = None.
Proof.
  intros Hnew. unfold already_held. destruct (N.ltb_spec 0 (seq r)) as [Hpos|Hz].
  - rewrite (proj2 (find_None_all _ _)); [done|]. intros h Hh. apply not_true_is_false.
    rewrite same_slot_true. intros Heq. specialize (Hnew h Hh (f_equal fst Heq)).
    pose proof (f_equal snd Heq) as H2. unfold slot in H2. cbn [snd] in H2. lia.
  - rewrite (proj2 (existsb_false _ _)); [done|]. intros h Hh. apply bool_decide_eq_false.
    intros ->. specialize (Hnew r Hh eq_refl). lia.
Qed.

(** A record linked to its coordinator's head agrees with its predecessor. *)
Lemma chain_agrees_head n r :
  unique_slots (ledger n) -> (forall h, In h (ledger n) -> seq h < u64_max) ->
  seq r = next_seq_for (ledger n) (coordinator r) ->
  prev_epoch r = default EmptyString (chain_head_epoch (ledger n) (coordinator r)) ->
  chain_agrees (ledger n) r = true.
Proof.
  intros Hu Hb Hseq Hprev. unfold chain_agrees. case_bool_decide as Hpe; [done|]. cbn [negb andb].
  destruct (N.ltb_spec 1 (seq r)) as [Hgt|]; [|done].
  destruct (List.find _ (ledger n)) as [pred|] eqn:Hf; [|done].
  apply find_Some_In in Hf as [Hin Hp]. bool_to_prop. apply N.eqb_eq in H0.
  apply bool_decide_eq_true. rewrite Hprev in *.
  destruct (chain_head_epoch (ledger n) (coordinator r)) as [e|] eqn:He; [|done].
  destruct (chain_head_seq _ _ _ Hb He) as (h & Hh & Hhc & <- & Hns).
  simpl. f_equal. apply (unique_slots_eq (ledger n)); try done; [lia|].
  unfold slot. f_equal; [congruence|lia].
Qed.

(** What a coordinator seals, its own intake takes.  A decision whose tally reached the
    majority of its electorate, sealed by a node over its own ledger and keys, passes every
    gate of that node and becomes the last record of its ledger, at the next sequence
    number and linked to the head; nothing else changes. *)
Theorem sealed_decision_is_appended `{C : Crypto} `{!CryptoLaws C} `{S : Serde} n now tm sk i r :
  unique_slots (ledger n) ->
  (forall h, In h (ledger n) -> seq h < u64_max) ->
  snapshot_floor_at n (wire_node_id n) <= next_seq_for (ledger n) (wire_node_id n) ->
  node_key n = Some sk -> length sk = 32%nat ->
  ci_coordinator i = wire_node_id n ->
  ci_quorum_threshold i = N.of_nat (length (ci_electorate i)) / 2 + 1 ->
  ci_quorum_threshold i <= ci_tally i ->
  seal (mkSealer (keys n) (Some sk) (ledger n) tm now) i = Some r ->
  append_to true n now r = (Ok tt, set_ledger n (ledger n ++ [r])).
Proof.
  intros Hu Hb Hfloor Hsk Hlen Hcoord Hq Ht Hseal. unfold seal in Hseal. simpl in Hseal.
  destruct (cluster_key (keys n)) as [key|] eqn:Hkey; [|done]. injection Hseal as <-.
  set (s := mkSealer (keys n) (Some sk) (ledger n) tm now).
  match goal with |- context [sign_record s key ?d] => set (d0 := d) end.
  set (r := sign_record s key d0).
  assert (Hdelta : member_delta r = None) by done.
  assert (Hseq : seq r = next_seq_for (ledger n) (wire_node_id n)) by (rewrite <- Hcoord; done).
  assert (Hc : coordinator r = wire_node_id n) by done.
  assert (Hnew : forall h, In h (ledger n) -> coordinator h = coordinator r -> seq h < seq r).
  { intros h Hh Heq. rewrite Hseq, <- Hc. by apply next_seq_for_above. }
  assert (Hpassed : passed n now (ledger n) r).
  { split.
    - by apply already_held_new.
    - unfold below_floor. rewrite Hc, Hseq. rewrite (proj2 (N.ltb_ge _ _) Hfloor), andb_false_r. done.
    - exists Current. split; [|done]. unfold verify_key_epoch.
      pose proof (sign_record_current s key d0 Hkey (hmac_nonempty _ _)) as Hcur.
      change (signature_epoch (keys n) now r = Some Current) in Hcur. rewrite Hcur. clear Hcur.
      assert (Hcons : internally_consistent r = true); [|by rewrite Hcons].
      apply sealed_consistent; [|done]. unfold sort_names.
      by rewrite (Permutation_length (merge_sort_Permutation _ _)).
    - unfold attribution_valid_at, bound_pubkey_at. rewrite Hc, bool_decide_true by done.
      unfold node_pubkey_hex. rewrite Hsk. cbn [fmap option_fmap option_map].
      rewrite (proj2 (N.ltb_ge (committed_at r) 0) (N.le_0_l _)), andb_false_r.
      pose proof (member_sign_nonempty sk (signature r)) as Hne. rewrite bool_decide_false by exact Hne.
      by apply (member_sign_verifies sk (signature r)).
    - done.
    - done.
    - apply chain_agrees_head; [done|done|by rewrite Hc|]. rewrite Hc, <- Hcoord. done. }
  unfold append_to, append_checked. cbn [negb].
  rewrite (proj2 (intake_gates_pass _ _ _ _) Hpassed). by rewrite Hdelta.
Qed.

(** ** Examples *)

Module Cluster.
#[local] Existing Instances Toy.crypto Toy.laws Sample.serde.
Definition seed (i : N) : list N := repeat i 32.

(** A member [n1] of a cluster with nothing committed yet. *)
Definition n1 : Node :=
  mkNode [] [] None (Some []) (Some []) None Sample.keys "n1" (Some (seed 9)).
Definition with_ledger (n : Node) (l : list CommitRecord) : Node := set_ledger n l.

(** Another member, after the key was rotated: only the second record arrived. *)
Definition n0 : Node :=
  mkNode [Sample.second] [] None (Some []) (Some []) None
    (mkKeyStore (KKey (seed 5)) KAbsent None (KKey (seed 7)) (Some 1000)) "n0" None.

(** A leader's membership change. *)
Definition add (held : list CommitRecord) (member : string) : CommitRecord :=
  default Sample.blank (seal_member (Sample.sealer held 50) "n1" "n1" KIND_MEMBER_ADD member ["n1"] "").
End Cluster.

#[local] Existing Instances Toy.crypto Toy.laws Sample.serde.

Lemma append_idempotent_witness :
  exists n', append_to true Cluster.n1 100 Sample.first = (Ok tt, n') /\
             append_to true n' 5000 Sample.first = (Ok tt, n').
Proof.
  destruct (append_to true Cluster.n1 100 Sample.first) as [res n'] eqn:Ha.
  assert (res = Ok tt) as -> by (apply (f_equal fst) in Ha; vm_compute in Ha; congruence).
  exists n'. split; [reflexivity|]. exact (append_idempotent _ _ _ _ _ Ha).
Defined.

Lemma refusal_changes_nothing_witness :
  snd (append_to true Cluster.n1 100 Sample.blank) = Cluster.n1.
Proof.
  destruct (append_to true Cluster.n1 100 Sample.blank) as [res n'] eqn:Ha.
  assert (res = Err VerificationFailed) as -> by (apply (f_equal fst) in Ha; vm_compute in Ha; congruence).
  exact (refusal_changes_nothing true _ _ _ _ _ Ha).
Defined.

Lemma prior_epoch_never_extends_frontier_witness :
  exists n', append_to true Cluster.n0 200 Sample.first = (Ok tt, n') /\
    next_seq_for (ledger n') "n1" = 3.
Proof.
  destruct (append_to true Cluster.n0 200 Sample.first) as [res n'] eqn:Ha.
  assert (res = Ok tt) as -> by (apply (f_equal fst) in Ha; vm_compute in Ha; congruence).
  exists n'. split; [reflexivity|].
  exact (proj1 (prior_epoch_never_extends_frontier Cluster.n0 200 Sample.first n' eq_refl eq_refl Ha)).
Defined.

Lemma privileged_quorums_intersect_witness :
  exists m, supports (bound_members Cluster.n1 (fun _ => true) (Cluster.add [] "n2@10.0.0.2:1")) m
              (Cluster.add [] "n3@10.0.0.3:1").
Proof.
  destruct (privileged_quorums_intersect Cluster.n1 Cluster.n1 60 60 [] [] (Cluster.add [] "n2@10.0.0.2:1")
    (Cluster.add [] "n3@10.0.0.3:1")) as (m & _ & H); try (vm_compute; reflexivity).
  - intros H. apply (f_equal length) in H. vm_compute in H. discriminate.
  - exists m. exact H.
Defined.

Lemma committed_deltas_respect_bans_witness :
  exists ps bs, peers (apply_member_delta Cluster.n1 (Cluster.add [] "n2@10.0.0.2:1")) = Some ps /\ bans_hold ps bs.
Proof.
  destruct (committed_deltas_respect_bans Cluster.n1 (Cluster.add [] "n2@10.0.0.2:1") [] [] eq_refl eq_refl)
    as (ps & bs & Hp & _ & Hb); [intros p b []|].
  exists ps, bs. split; [exact Hp|exact Hb].
Defined.

Lemma sealed_decision_is_appended_witness :
  append_to true Cluster.n1 100 Sample.first = (Ok tt, set_ledger Cluster.n1 [Sample.first]).
Proof.
  refine (sealed_decision_is_appended Cluster.n1 100 1 (repeat 9 32) (Sample.input "yes") Sample.first
    _ _ _ _ _ _ _ _ _).
  - constructor.
  - intros h [].
  - vm_compute. discriminate.
  - vm_compute. reflexivity.
  - vm_compute. reflexivity.
  - vm_compute. reflexivity.
  - vm_compute. reflexivity.
  - vm_compute. discriminate.
  - vm_compute. reflexivity.
Defined.

(** A committed add can replace a bound key.  The add collapses every row that has the
    subject's id or its address into the first of them; when that is another row than the
    one holding the subject's key, the key bound first is lost and the record's own key is
    bound, without a removal. *)
Theorem committed_add_can_rebind :
  exists n r id first_key,
    (fun b => b.1.1) <$> bound_pubkey_at n id = Some first_key /\
    member_delta r = Some (KIND_MEMBER_ADD, id, "10.0.0.9:1"%string) /\
    (fun b => b.1.1) <$> bound_pubkey_at (apply_member_delta n r) id = Some (member_pubkey r) /\
    member_pubkey r <> first_key.
Proof.
  set (peer id addr pk := mkPeerRow (Some id) (Some addr) (Some "explicit"%string) pk (Some 1) (Some 1) None "").
  exists (mkNode [] [] None
            (Some [peer "susi-peer-1" "10.0.0.9:1" None; peer "n2" "10.0.0.2:1" (Some "aa")]%string)
            (Some []) None Sample.keys "n1" None),
    (with_member_pubkey (Cluster.add [] "n2@10.0.0.9:1") "bb"), "n2"%string, "aa"%string.
  vm_compute. repeat split; discriminate.
Qed.
