(* ===== verification/CommitReplay.v ===== *)
(** * CommitReplay: replaying and compacting the commit log
    ([fold_records], [replay] and [compact_at] of [crates/susi-core/src/commit_log.rs])

    A replay that would panic is [None]: the chain audit slices the first twelve bytes of
    an epoch, which panics inside a multi-byte character.  An anomaly is a constructor
    for each message the code formats, with the values it prints. *)

From S2P Require Import Prelude Text ClusterKey CommitRecord CommitLedger.

Local Open Scope N_scope.

(** ** State *)

Inductive Anomaly : Type :=
| InvalidSignature (c : string) (s : N)
| Duplicate (c : string) (s : N)
| Equivocation (c : string) (s : N)
| TermRegression (c : string) (s1 t1 s0 t0 : N)
| ChainBreak (c : string) (s : N) (links_to predecessor : string)
| SequenceGap (c : string) (missing : list N)
| AttributionFailure (c : string) (s : N)
| EndorsementShortfall (c : string) (s : N) (k : string)
| SubjectAttestationMissing (c : string) (s : N).

#[export] Instance Anomaly_eq_dec : EqDecision Anomaly.
Proof. solve_decision. Defined.

Record ClusterState : Type := mkClusterState {
  cs_term : N;
  cs_leader : string;
  coordinators : gmap string N;
  decisions : N;
  memberships : N;
  roster : gmap string string;
  cs_banned : gset (string * string);
  anomalies : list Anomaly;
}.

Definition ClusterState_default : ClusterState := mkClusterState 0 EmptyString ∅ 0 0 ∅ ∅ [].

Definition add_anomalies (st : ClusterState) (a : list Anomaly) : ClusterState :=
  mkClusterState (cs_term st) (cs_leader st) (coordinators st) (decisions st) (memberships st)
    (roster st) (cs_banned st) (anomalies st ++ a).

(** ** The fold *)

(** A roster or ban entry that has the id or the address. *)
Definition entry_matches (id addr : string) (e : string * string) : Prop := e.1 = id \/ e.2 = addr.
#[export] Instance entry_matches_dec id addr e : Decision (entry_matches id addr e).
Proof. unfold entry_matches. apply _. Defined.

(** The roster effect of one delta. *)
Definition fold_delta (ro : gmap string string) (ba : gset (string * string)) (k id addr : string)
  : gmap string string * gset (string * string) :=
  if bool_decide (k = KIND_MEMBER_ADD) then
    if existsb (fun b => bool_decide (entry_matches id addr b)) (elements ba) then (ro, ba)
    else (<[id := addr]> (filter (fun e => ~ entry_matches id addr e) ro), ba)
  else if bool_decide (k = KIND_MEMBER_REMOVE) then
    (filter (fun e => ~ entry_matches id addr e) ro, {[(id, addr)]} ∪ ba)
  else if bool_decide (k = KIND_MEMBER_UNBAN) then
    (ro, filter (fun b => ~ entry_matches id addr b) ba)
  else (ro, ba).

(** One record above its floor folded into the view. *)
Definition fold_record (st : ClusterState) (r : CommitRecord) : ClusterState :=
  let '(mem, ro, ba) :=
    match member_delta r with
    | Some (k, id, addr) =>
        let '(ro, ba) := fold_delta (roster st) (cs_banned st) k id addr in
        (memberships st + 1, ro, ba)
    | None => (memberships st, roster st, cs_banned st)
    end in
  let '(t, l) := if cs_term st <? term r then (term r, leader r) else (cs_term st, cs_leader st) in
  mkClusterState t l (coordinators st) (decisions st + 1) mem ro ba (anomalies st).

(** [&s[..12.min(s.len())]]: [None] when the end is inside a character. *)
Definition is_continuation (c : Ascii.ascii) : bool :=
  (128 <=? Ascii.nat_of_ascii c)%nat && (Ascii.nat_of_ascii c <? 192)%nat.
Definition slice12 (s : string) : option string :=
  match String.get 12 s with
  | Some c => if is_continuation c then None else Some (take_chars 12 s)
  | None => Some s
  end.

(** The checks on two neighbours of a coordinator's sequence order. *)
Definition window_anomalies (c : string) (w0 w1 : CommitRecord) : option (list Anomaly) :=
  let twice :=
    if seq w0 =? seq w1 then
      [if bool_decide (w0 = w1) then Duplicate c (seq w0) else Equivocation c (seq w0)]
    else [] in
  let regression :=
    if (term w1 <? term w0) && (seq w0 <? seq w1)
    then [TermRegression c (seq w1) (term w1) (seq w0) (term w0)] else [] in
  if negb (bool_decide (prev_epoch w1 = EmptyString)) && negb (bool_decide (prev_epoch w1 = epoch w0)) then
    match slice12 (prev_epoch w1), slice12 (epoch w0) with
    | Some a, Some b => Some (twice ++ regression ++ [ChainBreak c (seq w1) a b])
    | _, _ => None
    end
  else Some (twice ++ regression).

Fixpoint windows_anomalies (c : string) (rs : list CommitRecord) : option (list Anomaly) :=
  match rs with
  | w0 :: ((w1 :: _) as rest) =>
      match window_anomalies c w0 w1 with
      | None => None
      | Some a => match windows_anomalies c rest with
                  | None => None
                  | Some b => Some (a ++ b)
                  end
      end
  | _ => Some []
  end.

(** The gaps between the floor and the highest sequence number. *)
Definition gaps (floor high : N) (held : list N) : list N :=
  List.filter (fun s => negb (bool_decide (s ∈ held)))
    ((fun i => floor + 1 + N.of_nat i) <$> List.seq 0 (N.to_nat (high - (floor + 1)))).

Section Replay.
Context `{C : Crypto} `{S : Serde} (ks : KeyStore) (now : N).


(** The first loop of [fold_records]. *)
Definition fold_one (floors : gmap string N) (acc : ClusterState * gmap string (list CommitRecord)) (r : CommitRecord)
  : ClusterState * gmap string (list CommitRecord) :=
  let '(st, by_coord) := acc in
  if negb (verify ks now r) then (add_anomalies st [InvalidSignature (coordinator r) (seq r)], by_coord)
  else
    let floor := default 0 (floors !! coordinator r) in
    if seq r <? floor then (st, by_coord)
    else
      let st' := if floor <? seq r then fold_record st r else st in
      (st', <[coordinator r := default [] (by_coord !! coordinator r) ++ [r]]> by_coord).

(** The second loop: one coordinator's records. *)
Definition audit_one (floors : gmap string N) (acc : option ClusterState)
    (entry : string * list CommitRecord) : option ClusterState :=
  match acc with
  | None => None
  | Some st =>
      let '(coord, recs0) := entry in
      let recs := sort_by_key seq recs0 in
      match windows_anomalies coord recs with
      | None => None
      | Some a =>
          let st1 := add_anomalies st a in
          match max_key seq recs with
          | None => Some st1
          | Some high =>
              let missing := gaps (default 0 (floors !! coord)) high (seq <$> recs) in
              let st2 := match missing with [] => st1 | _ => add_anomalies st1 [SequenceGap coord missing] end in
              let prev_high := default 0 (coordinators st2 !! coord) in
              Some (mkClusterState (cs_term st2) (cs_leader st2)
                      (<[coord := N.max high prev_high]> (coordinators st2)) (decisions st2)
                      (memberships st2) (roster st2) (cs_banned st2) (anomalies st2))
          end
      end
  end.

(** [fold_records]. *)
Definition fold_records (st : ClusterState) (records : list CommitRecord) (floors : gmap string N)
  : option ClusterState :=
  let '(st1, by_coord) := fold_left (fold_one floors) records (st, ∅) in
  fold_left (audit_one floors) (btree_entries by_coord) (Some st1).

(** [replay_records]. *)
Definition replay_records (records : list CommitRecord) : option ClusterState :=
  fold_records ClusterState_default records ∅.

(** The state a snapshot seeds a replay with. *)
Definition seeded (s : LedgerSnapshot) : ClusterState :=
  mkClusterState (snap_term s) (snap_leader s) (high_water s) (snap_decisions s) (snap_memberships s)
    (snap_roster s) (snap_banned s) [].

(** The checks [replay] repeats against today's bindings. *)
Definition pki_anomalies (n : Node) (r : CommitRecord) : list Anomaly :=
  if negb (verify ks now r) then []
  else
    (if attribution_valid_at n r then [] else [AttributionFailure (coordinator r) (seq r)]) ++
    (if endorsements_satisfied_at n r then [] else [EndorsementShortfall (coordinator r) (seq r) (kind r)]) ++
    (if subject_attestation_valid r then [] else [SubjectAttestationMissing (coordinator r) (seq r)]).

(** [replay]. *)
Definition replay (n : Node) : option ClusterState :=
  let st :=
    match snapshot n with
    | Some s => fold_records (seeded s) (ledger n) (high_water s)
    | None => replay_records (ledger n)
    end in
  (fun st => add_anomalies st (concat (pki_anomalies n <$> ledger n))) <$> st.

(** ** Compaction *)

(** The index of each coordinator's last record of highest sequence number. *)
Definition indexed (records : list CommitRecord) : list (nat * CommitRecord) := imap pair records.
Definition is_anchor (records : list CommitRecord) (ir : nat * CommitRecord) : bool :=
  match last_max_by (fun x => seq x.2)
          (List.filter (fun x => bool_decide (coordinator x.2 = coordinator ir.2)) (indexed records)) with
  | Some (j, _) => (ir.1 =? j)%nat
  | None => false
  end.
Definition anchors (records : list CommitRecord) : list CommitRecord :=
  (List.filter (is_anchor records) (indexed records)).*2.
Definition archived (records : list CommitRecord) : list CommitRecord :=
  (List.filter (fun ir => negb (is_anchor records ir)) (indexed records)).*2.

Definition take_snapshot (st : ClusterState) : LedgerSnapshot :=
  mkSnapshot now (coordinators st) (cs_term st) (cs_leader st) (roster st) (cs_banned st)
    (decisions st) (memberships st).

(** [compact_at]: how many records were archived, and the node after; [None] is the
    panic of the replay it starts from. *)
Definition compact_at (locked : bool) (n : Node) : option (result N AppendError * Node) :=
  if negb locked then Some (Err LockUnavailable, n)
  else
    match ledger n with
    | [] => Some (Ok 0, n)
    | records =>
        match replay_records records with
        | None => None
        | Some st =>
            match archived records with
            | [] => Some (Ok 0, n)
            | old =>
                Some (Ok (N.of_nat (length old)),
                      mkNode (anchors records) (archive n ++ old) (Some (take_snapshot st)) (peers n)
                        (banned n) (evicted n) (keys n) (wire_node_id n) (node_key n))
            end
        end
    end.
End Replay.

(** ** What a replay computes *)

(** The consensus view: everything but the bookkeeping of coordinators and anomalies. *)
Definition view_of (st : ClusterState) :=
  (cs_term st, cs_leader st, decisions st, memberships st, roster st, cs_banned st).

(** A record whose epochs slice without splitting a character; any ASCII epoch does. *)
Definition sliceable (r : CommitRecord) : Prop :=
  slice12 (epoch r) <> None /\ slice12 (prev_epoch r) <> None.

Lemma fold_record_view st st' r : view_of st = view_of st' ->
  view_of (fold_record st r) = view_of (fold_record st' r).
Proof.
  destruct st, st'. unfold view_of. simpl. intros [= -> -> -> -> -> ->]. unfold fold_record. simpl.
  destruct (member_delta r) as [[[k id] addr]|]; [destruct (fold_delta _ _ _ _ _)|];
    by destruct (_ <? _).
Qed.

Lemma fold_record_coordinators st r : coordinators (fold_record st r) = coordinators st.
Proof.
  unfold fold_record.
  destruct (member_delta r) as [[[k id] addr]|]; [destruct (fold_delta _ _ _ _ _)|];
    by destruct (_ <? _).
Qed.

Lemma fold_record_anomalies st r : anomalies (fold_record st r) = anomalies st.
Proof.
  unfold fold_record.
  destruct (member_delta r) as [[[k id] addr]|]; [destruct (fold_delta _ _ _ _ _)|];
    by destruct (_ <? _).
Qed.

Lemma windows_anomalies_cons c w0 w1 rs :
  windows_anomalies c (w0 :: w1 :: rs) =
  match window_anomalies c w0 w1 with
  | None => None
  | Some a => match windows_anomalies c (w1 :: rs) with None => None | Some b => Some (a ++ b) end
  end.
Proof. done. Qed.

Lemma window_sliceable c w0 w1 : sliceable w0 -> sliceable w1 ->
  exists l, window_anomalies c w0 w1 = Some l.
Proof.
  intros [H0 _] [_ H1]. unfold window_anomalies.
  destruct (negb (bool_decide (prev_epoch w1 = EmptyString)) && _); [|eauto].
  destruct (slice12 (prev_epoch w1)); [|done]. destruct (slice12 (epoch w0)); [eauto|done].
Qed.

Lemma windows_sliceable c rs : Forall sliceable rs -> exists l, windows_anomalies c rs = Some l.
Proof.
  induction 1 as [|w0 rs H0 Hrs IH]; [by eexists|].
  destruct Hrs as [|w1 rs H1 Hrs]; [by eexists|].
  destruct (window_sliceable c w0 w1 H0 H1) as [a Ha]. destruct IH as [b Hb].
  rewrite windows_anomalies_cons, Ha, Hb. by eexists.
Qed.

(** Distinct sequence numbers leave no record twice. *)
Definition is_double (a : Anomaly) : bool :=
  match a with Duplicate _ _ | Equivocation _ _ => true | _ => false end.

Lemma windows_no_double c rs l : NoDup (seq <$> rs) -> windows_anomalies c rs = Some l ->
  forall a, In a l -> is_double a = false.
Proof.
  revert l. induction rs as [|w0 rs IH]; intros l Hnd Hw a Ha; [injection Hw as <-; destruct Ha|].
  destruct rs as [|w1 rs]; [injection Hw as <-; destruct Ha|]. rewrite windows_anomalies_cons in Hw.
  destruct (window_anomalies c w0 w1) as [x|] eqn:Hx; [|done].
  destruct (windows_anomalies c (w1 :: rs)) as [y|] eqn:Hy; [|done]. injection Hw as <-.
  apply NoDup_cons in Hnd as [Hnin Hnd]. apply in_app_or in Ha as [Ha|Ha]; [|by apply (IH y)].
  unfold window_anomalies in Hx.
  destruct (N.eqb_spec (seq w0) (seq w1)) as [Heq|_].
  { exfalso. apply Hnin. rewrite Heq. cbn [fmap list_fmap]. by left. }
  destruct ((term w1 <? term w0) && (seq w0 <? seq w1));
    destruct (negb _ && negb _); cbn [app] in Hx;
    try (destruct (slice12 (prev_epoch w1)); [|done]; destruct (slice12 (epoch w0)); [|done]);
    injection Hx as <-; simpl in Ha; naive_solver.
Qed.

Section ReplayLemmas.
Context `{C : Crypto} `{S : Serde} (ks : KeyStore) (now : N).

Definition floor_of (floors : gmap string N) (c : string) : N := default 0 (floors !! c).

Definition fold_view (floors : gmap string N) (records : list CommitRecord) (st : ClusterState)
  : ClusterState :=
  fold_left (fun st r => if verify ks now r && (floor_of floors (coordinator r) <? seq r)
                         then fold_record st r else st) records st.

(** The records of one coordinator that take part in the ordering checks. *)
Definition eligible (floors : gmap string N) (c : string) (records : list CommitRecord)
  : list CommitRecord :=
  List.filter (fun r => verify ks now r && (floor_of floors c <=? seq r)
                        && bool_decide (coordinator r = c)) records.

Lemma fold_view_view floors records st st' : view_of st = view_of st' ->
  view_of (fold_view floors records st) = view_of (fold_view floors records st').
Proof.
  revert st st'. induction records as [|r rs IH]; intros st st' H; [done|]. simpl. apply IH.
  destruct (_ && _); [by apply fold_record_view|done].
Qed.

Lemma fold_one_spec floors records st by_coord :
  let acc := fold_left (fold_one ks now floors) records (st, by_coord) in
  view_of acc.1 = view_of (fold_view floors records st) /\
  coordinators acc.1 = coordinators st /\
  (forall c, default [] (acc.2 !! c) = default [] (by_coord !! c) ++ eligible floors c records) /\
  (forall c l, acc.2 !! c = Some l -> l = [] -> by_coord !! c = Some []) /\
  (forall a, In a (anomalies acc.1) -> In a (anomalies st) \/ is_double a = false).
Proof.
  revert st by_coord. induction records as [|r rs IH]; intros st by_coord acc.
  { subst acc. simpl. split_and!; try done; [intros c; by rewrite app_nil_r|by intros c l -> ->|tauto]. }
  subst acc. cbn [fold_left]. unfold fold_one at 2 4 6 8 10. fold (floor_of floors (coordinator r)).
  unfold eligible, fold_view in *. cbn [List.filter fold_left].
  destruct (verify ks now r) eqn:Hv; cbn [negb andb].
  2: { destruct (IH (add_anomalies st [InvalidSignature (coordinator r) (seq r)]) by_coord)
         as (H1 & H2 & H3 & H4 & H5). split_and!; try done.
       - rewrite H1. by apply fold_view_view.
       - intros a Ha. destruct (H5 a Ha) as [Ha'|]; [|by right]. simpl in Ha'.
         apply in_app_or in Ha' as [?|[<-|[]]]; auto. }
  destruct (N.ltb_spec (seq r) (floor_of floors (coordinator r))) as [Hlt|Hge].
  { destruct (IH st by_coord) as (H1 & H2 & H3 & H4 & H5). split_and!; try done.
    - by rewrite H1, (proj2 (N.ltb_ge _ _)) by lia.
    - intros c. rewrite H3. case_bool_decide as Hc; [|by rewrite andb_false_r].
      rewrite <- Hc, (proj2 (N.leb_gt _ _)) by done. done. }
  set (st1 := if floor_of floors (coordinator r) <? seq r then fold_record st r else st).
  set (b1 := <[coordinator r := _]> by_coord).
  destruct (IH st1 b1) as (H1 & H2 & H3 & H4 & H5). split_and!.
  - rewrite H1. done.
  - rewrite H2. subst st1. destruct (_ <? _); [apply fold_record_coordinators|done].
  - intros c. rewrite H3. subst b1. case_bool_decide as Hc.
    + subst c. rewrite lookup_insert_eq. simpl. rewrite (proj2 (N.leb_le _ _)) by done. cbn [andb].
      by rewrite <- app_assoc.
    + rewrite lookup_insert_ne by done. by rewrite andb_false_r.
  - intros c l Hl ->. specialize (H4 c [] Hl eq_refl). subst b1.
    destruct (decide (coordinator r = c)) as [<-|Hc]; [|by rewrite lookup_insert_ne in H4].
    rewrite lookup_insert_eq in H4. injection H4 as H4. by apply app_nil in H4 as [_ ?].
  - intros a Ha. destruct (H5 a Ha) as [Ha'|]; [|by right]. left. subst st1.
    destruct (_ <? _); [by rewrite fold_record_anomalies in Ha'|done].
Qed.

(** A coordinator's high-water mark after its records were audited. *)
Definition high_after (coords : gmap string N) (c : string) (rs : list CommitRecord) : option N :=
  match max_key seq rs with
  | None => coords !! c
  | Some h => Some (N.max h (default 0 (coords !! c)))
  end.

Lemma audit_one_spec floors st c rs st' : audit_one floors (Some st) (c, rs) = Some st' ->
  view_of st' = view_of st /\
  (forall c', coordinators st' !! c' = if bool_decide (c = c') then high_after (coordinators st) c rs
                                       else coordinators st !! c') /\
  (NoDup (seq <$> rs) -> forall a, In a (anomalies st') -> In a (anomalies st) \/ is_double a = false).
Proof.
  unfold audit_one, high_after. rewrite (max_key_perm seq _ _ (sort_by_key_perm seq rs)).
  destruct (windows_anomalies c (sort_by_key seq rs)) as [a|] eqn:Hw; [|done].
  assert (Hd : NoDup (seq <$> rs) -> forall x, In x a -> is_double x = false).
  { intros Hnd. eapply windows_no_double; [|exact Hw]. by rewrite sort_by_key_perm. }
  destruct (max_key seq rs) as [h|] eqn:Hmax.
  - set (g := gaps _ _ _).
    assert (Hg : forall x, In x (anomalies (match g with [] => add_anomalies st a
              | _ => add_anomalies (add_anomalies st a) [SequenceGap c g] end)) ->
              In x (anomalies st) \/ In x a \/ is_double x = false).
    { intros x. destruct g; simpl; rewrite ?in_app_iff; naive_solver. }
    assert (Hc : coordinators (match g with [] => add_anomalies st a
              | _ => add_anomalies (add_anomalies st a) [SequenceGap c g] end) = coordinators st)
      by (by destruct g).
    assert (Hview : view_of (match g with [] => add_anomalies st a
              | _ => add_anomalies (add_anomalies st a) [SequenceGap c g] end) = view_of st)
      by (by destruct g).
    clearbody g. intros [= <-]. simpl. rewrite Hc. split_and!.
    + exact Hview.
    + intros c'. case_bool_decide as Hcc; [subst; by rewrite lookup_insert_eq|by rewrite lookup_insert_ne].
    + intros Hnd x Hx. destruct (Hg x Hx) as [|[|]]; auto.
  - intros [= <-]. split_and!; [done| |].
    + intros c'. simpl. by case_bool_decide as Hcc; [subst|].
    + intros Hnd x Hx. simpl in Hx. apply in_app_or in Hx as [|]; auto.
Qed.

Lemma audit_one_some floors st c rs : Forall sliceable rs ->
  exists st', audit_one floors (Some st) (c, rs) = Some st'.
Proof.
  intros Hs. unfold audit_one.
  destruct (windows_sliceable c (sort_by_key seq rs)) as [a ->]; [by rewrite sort_by_key_perm|].
  destruct (max_key seq _); eauto.
Qed.

Lemma audit_all_spec floors entries st : NoDup entries.*1 ->
  (forall c rs, In (c, rs) entries -> Forall sliceable rs) ->
  exists st', fold_left (audit_one floors) entries (Some st) = Some st' /\
    view_of st' = view_of st /\
    (forall c, (forall rs, ~ In (c, rs) entries) -> coordinators st' !! c = coordinators st !! c) /\
    (forall c rs, In (c, rs) entries -> coordinators st' !! c = high_after (coordinators st) c rs) /\
    ((forall c rs, In (c, rs) entries -> NoDup (seq <$> rs)) ->
     forall a, In a (anomalies st') -> In a (anomalies st) \/ is_double a = false).
Proof.
  revert st. induction entries as [|[c rs] es IH]; intros st Hnd Hs.
  { exists st. split_and!; try done; simpl; naive_solver. }
  apply NoDup_cons in Hnd as [Hc Hnd].
  destruct (audit_one_some floors st c rs) as [st1 Hst1]; [apply (Hs c); by left|].
  destruct (audit_one_spec _ _ _ _ _ Hst1) as (V1 & C1 & A1).
  destruct (IH st1 Hnd) as (st' & Hf & V2 & N2 & C2 & A2); [intros; eapply Hs; by right|].
  assert (Hfresh : forall rs', ~ In (c, rs') es).
  { intros rs' Hin. apply Hc. apply list_elem_of_fmap. exists (c, rs'). split; [done|].
    by apply list_elem_of_In. }
  exists st'. cbn [fold_left]. rewrite Hst1. split_and!; [done|congruence| | |].
  - intros c' Hno. rewrite N2, C1 by (intros rs' Hin; apply (Hno rs'); by right).
    rewrite bool_decide_false; [done|]. intros ->. apply (Hno rs). by left.
  - intros c' rs' [[= <- <-]|Hin].
    + rewrite N2, C1 by done. by rewrite bool_decide_true.
    + rewrite (C2 c' rs' Hin). unfold high_after.
      assert (c <> c') by (intros ->; by apply (Hfresh rs')).
      by rewrite !C1, bool_decide_false.
  - intros Hdup a Ha. destruct (A2 (fun c' rs' Hin => Hdup c' rs' (or_intror Hin)) a Ha) as [Ha1|]; [|by right].
    apply (A1 (Hdup c rs (or_introl eq_refl)) a Ha1).
Qed.

Lemma eligible_In floors c records r : In r (eligible floors c records) ->
  In r records /\ verify ks now r = true /\ floor_of floors c <= seq r /\ coordinator r = c.
Proof.
  unfold eligible. rewrite List.filter_In. intros [Hin H]. bool_to_prop. split_and!; try done.
  by apply N.leb_le.
Qed.

(** A replay in one statement: it ends, its view is the fold over the verified records
    above their floors, and each coordinator's mark is the highest it reached. *)
Lemma fold_records_spec floors records st : Forall sliceable records ->
  exists st', fold_records ks now st records floors = Some st' /\
    view_of st' = view_of (fold_view floors records st) /\
    (forall c, coordinators st' !! c = high_after (coordinators st) c (eligible floors c records)) /\
    ((forall c, NoDup (seq <$> eligible floors c records)) ->
     forall a, In a (anomalies st') -> In a (anomalies st) \/ is_double a = false).
Proof.
  intros Hs. unfold fold_records.
  destruct (fold_one_spec floors records st ∅) as (V & Cs & B & E & A).
  destruct (fold_left (fold_one ks now floors) records (st, ∅)) as [st1 by_coord]. simpl in *.
  assert (Hb : forall c rs, In (c, rs) (btree_entries by_coord) -> rs = eligible floors c records).
  { intros c rs Hin. apply btree_entries_In in Hin. specialize (B c). by rewrite Hin, lookup_empty in B. }
  destruct (audit_all_spec floors (btree_entries by_coord) st1) as (st' & Hf & V2 & N2 & C2 & A2).
  { apply btree_entries_NoDup. }
  { intros c rs Hin. rewrite (Hb c rs Hin). apply Forall_forall. intros r Hr.
    apply list_elem_of_In, eligible_In in Hr as [Hr _]. rewrite Forall_forall in Hs.
    apply Hs. by apply list_elem_of_In. }
  exists st'. split_and!; [done|congruence| |].
  - intros c. rewrite <- Cs. destruct (by_coord !! c) as [rs|] eqn:Hc.
    + assert (Hin : In (c, rs) (btree_entries by_coord)) by (by apply btree_entries_In).
      rewrite (C2 c rs Hin). by rewrite (Hb c rs Hin).
    + specialize (B c). rewrite Hc, lookup_empty in B. simpl in B. rewrite <- B. unfold high_after. simpl.
      apply N2. intros rs Hin. apply btree_entries_In in Hin. by rewrite Hc in Hin.
  - intros Hdup a Ha. destruct (A2 (fun c rs Hin => eq_ind_r (fun l => NoDup (seq <$> l)) (Hdup c) (Hb c rs Hin)) a Ha)
      as [Ha1|]; [|by right]. by apply A.
Qed.
End ReplayLemmas.

(** ** Compaction lemmas *)

Lemma imap_snd {A} (f : nat -> nat) (l : list A) : (imap (fun i x => (f i, x)) l).*2 = l.
Proof. revert f. induction l as [|x l IH]; intros f; [done|]. cbn. f_equal. apply (IH (fun i => f (S i))). Qed.

Lemma indexed_snd records : (indexed records).*2 = records.
Proof. apply (imap_snd (fun i => i)). Qed.

Lemma NoDup_seq_of_slots c l : (forall r, In r l -> coordinator r = c) ->
  NoDup (slot <$> l) -> NoDup (seq <$> l).
Proof.
  induction l as [|r l IH]; intros Hc Hnd; [constructor|]. cbn [fmap list_fmap] in *.
  apply NoDup_cons in Hnd as [Hni Hnd]. constructor; [|apply IH; [|done]; intros x Hx; apply Hc; by right].
  intros Hin. apply Hni. apply list_elem_of_fmap in Hin as (x & Hs & Hx).
  apply list_elem_of_fmap. exists x. split; [|done]. unfold slot. rewrite Hs.
  rewrite (Hc r), (Hc x); [done| |by left]. right. by apply list_elem_of_In.
Qed.

Section CompactionLemmas.
Context `{C : Crypto} `{S : Serde} (ks : KeyStore) (now : N).

Lemma eligible_NoDup c records : unique_slots records -> (forall r, In r records -> 0 < seq r) ->
  NoDup (seq <$> eligible ks now ∅ c records).
Proof.
  intros Hu Hpos. apply (NoDup_seq_of_slots c).
  - intros r Hr. by apply eligible_In in Hr as (_ & _ & _ & Hr).
  - unfold unique_slots in Hu. rewrite filter_all in Hu.
    + by apply NoDup_filter_fmap.
    + intros r Hr. apply N.ltb_lt. by apply Hpos.
Qed.

Lemma anchors_In records r : In r (anchors records) -> In r records.
Proof.
  unfold anchors. intros H. apply list_elem_of_In, list_elem_of_fmap in H as ([i x] & -> & Hx).
  apply list_elem_of_In, List.filter_In in Hx as [Hx _].
  rewrite <- (indexed_snd records). apply list_elem_of_In, list_elem_of_fmap. exists (i, x).
  split; [done|]. by apply list_elem_of_In.
Qed.

(** An anchor is at its coordinator's highest sequence number. *)
Lemma anchor_highest records r x : In r (anchors records) -> In x records ->
  coordinator x = coordinator r -> seq x <= seq r.
Proof.
  intros H Hx Hc. unfold anchors in H. apply list_elem_of_In, list_elem_of_fmap in H as ([i r'] & -> & Hr).
  apply list_elem_of_In, List.filter_In in Hr as [Hr Ha]. unfold is_anchor in Ha. simpl in *.
  destruct (last_max_by _ _) as [[j y]|] eqn:Hm; [|done]. apply Nat.eqb_eq in Ha. subst j.
  apply last_max_by_Some in Hm as [Hin Hmax]. apply List.filter_In in Hin as [Hin _].
  assert (y = r') as ->.
  { unfold indexed in Hin, Hr. apply list_elem_of_In, list_elem_of_lookup in Hin as [a Hin], Hr as [b Hr].
    rewrite list_lookup_imap in Hin, Hr.
    destruct (records !! a) eqn:Ea; [|done]. destruct (records !! b) eqn:Eb; [|done].
    simpl in Hin, Hr. congruence. }
  rewrite <- (indexed_snd records) in Hx. apply list_elem_of_In, list_elem_of_fmap in Hx as ([k z] & -> & Hz).
  apply (Hmax (k, z)). apply List.filter_In. split; [by apply list_elem_of_In|].
  simpl in *. by apply bool_decide_eq_true.
Qed.

(** Records at or below their floor leave the view alone. *)
Lemma fold_view_below floors records st :
  (forall r, In r records -> verify ks now r = true -> seq r <= floor_of floors (coordinator r)) ->
  fold_view ks now floors records st = st.
Proof.
  revert st. induction records as [|r rs IH]; intros st H; [done|]. unfold fold_view. cbn [fold_left].
  destruct (verify ks now r) eqn:Hv; cbn [andb].
  - rewrite (proj2 (N.ltb_ge _ _)); [|apply H; [by left|done]]. apply IH. intros x Hx. apply H. by right.
  - apply IH. intros x Hx. apply H. by right.
Qed.

Lemma fold_view_app floors a b st :
  fold_view ks now floors (a ++ b) st = fold_view ks now floors b (fold_view ks now floors a st).
Proof. apply fold_left_app. Qed.

(** Above both floors, two folds agree. *)
Lemma fold_view_above floors floors' records st :
  (forall r, In r records -> floor_of floors (coordinator r) < seq r /\ floor_of floors' (coordinator r) < seq r) ->
  fold_view ks now floors records st = fold_view ks now floors' records st.
Proof.
  revert st. induction records as [|r rs IH]; intros st H; [done|]. unfold fold_view. cbn [fold_left].
  destruct (H r (or_introl eq_refl)) as [H1 H2].
  rewrite (proj2 (N.ltb_lt _ _) H1), (proj2 (N.ltb_lt _ _) H2). apply IH. intros x Hx. apply H. by right.
Qed.

(** The mark after a prefix was folded away is the mark after all of it. *)
Lemma high_after_app coords c l e : coords !! c = max_key seq l ->
  high_after coords c e = max_key seq (l ++ e).
Proof.
  intros Hc. unfold high_after. rewrite Hc.
  destruct (max_key seq e) as [h|] eqn:He; [|apply max_key_None in He as ->; by rewrite app_nil_r].
  symmetry. apply max_key_Some. apply max_key_Some in He as [(r & Hr & Hs) Hmax].
  destruct (max_key seq l) as [h'|] eqn:Hl; cbn [default from_option id].
  - apply max_key_Some in Hl as [(r' & Hr' & Hs') Hmax']. split.
    + destruct (N.max_spec h h') as [[_ ->]|[_ ->]]; [exists r'|exists r]; rewrite in_app_iff; auto.
    + intros y Hy. apply in_app_or in Hy as [Hy|Hy]; [specialize (Hmax' y Hy)|specialize (Hmax y Hy)]; lia.
  - apply max_key_None in Hl as ->. split; [exists r; split; [done|lia]|].
    intros y Hy. specialize (Hmax y Hy). lia.
Qed.

Lemma eligible_app floors c a b :
  eligible ks now floors c (a ++ b) = eligible ks now floors c a ++ eligible ks now floors c b.
Proof. apply List.filter_app. Qed.

Lemma high_after_empty c e : high_after ∅ c e = max_key seq e.
Proof. apply (high_after_app ∅ c [] e). by rewrite lookup_empty. Qed.

Lemma replay_marks rs st : Forall sliceable rs -> replay_records ks now rs = Some st ->
  view_of st = view_of (fold_view ks now ∅ rs ClusterState_default) /\
  forall c, coordinators st !! c = max_key seq (eligible ks now ∅ c rs).
Proof.
  intros Hsl Hst. destruct (fold_records_spec ks now ∅ rs ClusterState_default Hsl) as (st' & Hf & Hv & Hc & _).
  unfold replay_records in Hst. rewrite Hst in Hf. injection Hf as <-. split; [done|].
  intros c. by rewrite Hc, high_after_empty.
Qed.

(** A kept anchor is at or below the mark its log replays to. *)
Lemma anchors_below rs st r : Forall sliceable rs -> replay_records ks now rs = Some st ->
  In r (anchors rs) -> verify ks now r = true -> seq r <= floor_of (coordinators st) (coordinator r).
Proof.
  intros Hsl Hst Hr Hv. destruct (replay_marks rs st Hsl Hst) as [_ Hc]. unfold floor_of. rewrite Hc.
  assert (He : In r (eligible ks now ∅ (coordinator r) rs)).
  { apply List.filter_In. split; [by apply anchors_In|]. unfold floor_of. rewrite lookup_empty.
    rewrite Hv, bool_decide_true by done. rewrite andb_true_r. apply N.leb_le. cbn. lia. }
  destruct (max_key seq _) as [h|] eqn:Hm; [|apply max_key_None in Hm; by rewrite Hm in He].
  apply max_key_Some in Hm as [_ Hm]. by apply Hm.
Qed.

(** The compacted ledger and its marks rank what the whole history ranks. *)
Lemma compacted_marks rs later floors c :
  (forall r, In r later -> floor_of floors (coordinator r) < seq r) ->
  max_key seq (eligible ks now ∅ c rs ++ eligible ks now floors c (anchors rs ++ later))
  = max_key seq (eligible ks now ∅ c (rs ++ later)).
Proof.
  intros Hlater. apply max_key_elements. intros r. rewrite !eligible_app, !in_app_iff. unfold eligible.
  rewrite !List.filter_In.
  assert (Hz : floor_of ∅ c = 0) by (unfold floor_of; by rewrite lookup_empty). rewrite !Hz.
  assert (H0 : forall r : CommitRecord, 0 <=? seq r = true) by (intros; apply N.leb_le; lia).
  rewrite !H0. split.
  - intros [H|[[H1 H2]|[H1 H2]]]; [by left| |]; bool_to_prop.
    + left. split; [by apply anchors_In|]. by rewrite H, bool_decide_true.
    + right. split; [done|]. by rewrite H, bool_decide_true.
  - intros [H|[H1 H2]]; [by left|]. right. right. split; [done|]. bool_to_prop.
    specialize (Hlater r H1). subst c. rewrite H, bool_decide_true by done.
    by rewrite (proj2 (N.leb_le _ _)) by lia.
Qed.
End CompactionLemmas.

(** ** Roster lemmas *)

(** The deltas of a log name each member at one address and each address for one member. *)
Definition stable_addresses (ds : list (string * string)) : Prop :=
  forall a b, In a ds -> In b ds -> (a.1 = b.1 <-> a.2 = b.2).

(** A roster file that holds what a derived roster holds. *)
Definition rows_are (ps : list PeerRow) (ro : gmap string string) : Prop :=
  (forall id addr, ro !! id = Some addr <-> exists p, In p ps /\ p_node_id p = Some id /\ p_address p = Some addr) /\
  (forall p, In p ps -> exists id addr, p_node_id p = Some id /\ p_address p = Some addr).
Definition bans_are (bs : list BannedRow) (ba : gset (string * string)) : Prop :=
  (forall e, e ∈ ba <-> exists b, In b bs /\ b_node_id b = Some e.1 /\ b_address b = Some e.2) /\
  (forall b, In b bs -> exists e, b_node_id b = Some e.1 /\ b_address b = Some e.2).

Section RosterLemmas.
Context `{C : Crypto} `{S : Serde} (ds : list (string * string)).
Hypothesis Hds : stable_addresses ds.

Definition within (ro : gmap string string) (ba : gset (string * string)) : Prop :=
  (forall id addr, ro !! id = Some addr -> In (id, addr) ds) /\ (forall e, e ∈ ba -> In e ds).

Lemma matches_iff id addr e : In (id, addr) ds -> In e ds -> entry_matches id addr e <-> e = (id, addr).
Proof using Hds.
  intros Hd He. unfold entry_matches. destruct e as [i a]. simpl. specialize (Hds (i, a) (id, addr) He Hd). simpl in Hds.
  split; [|intros [= -> ->]; by left]. intros [H|H]; f_equal; tauto.
Qed.

Lemma bans_agree bs ba id addr : bans_are bs ba ->
  existsb (ban_matches id addr) bs = existsb (fun b => bool_decide (entry_matches id addr b)) (elements ba).
Proof.
  intros [H1 H2]. apply eq_true_iff_eq. rewrite !existsb_exists. split.
  - intros (b & Hb & Hm). destruct (H2 b Hb) as ([i a] & Hi & Ha). exists (i, a). split.
    + apply list_elem_of_In, elem_of_elements, H1. by exists b.
    + apply bool_decide_eq_true. unfold ban_matches, str_is in Hm. unfold entry_matches.
      rewrite Hi, Ha in Hm. apply orb_true_iff in Hm as [Hm|Hm]; bool_to_prop; simpl; naive_solver.
  - intros ([i a] & Hin & Hm). apply list_elem_of_In, elem_of_elements, H1 in Hin as (b & Hb & Hi & Ha).
    exists b. split; [done|]. bool_to_prop. unfold ban_matches, str_is. rewrite Hi, Ha.
    apply orb_true_iff. destruct Hm as [Hm|Hm]; simpl in Hm; subst; [left|right]; by apply bool_decide_eq_true.
Qed.

Lemma peer_matches_iff p i a id addr : p_node_id p = Some i -> p_address p = Some a ->
  peer_matches id addr p = bool_decide (entry_matches id addr (i, a)).
Proof.
  intros Hi Ha. unfold peer_matches, str_is, entry_matches. rewrite Hi, Ha. simpl.
  rewrite (bool_decide_ext (Some i = Some id) (i = id)), (bool_decide_ext (Some a = Some addr) (a = addr))
    by naive_solver. symmetry. apply bool_decide_or.
Qed.

Lemma keep_rows ps ro id addr : rows_are ps ro ->
  rows_are (List.filter (fun p => negb (peer_matches id addr p)) ps)
           (filter (fun e => ~ entry_matches id addr e) ro).
Proof.
  intros [H1 H2]. split.
  - intros i a. rewrite map_lookup_filter_Some, H1. split.
    + intros [(p & Hp & Hi & Ha) Hn]. exists p. split; [|done]. apply List.filter_In. split; [done|].
      rewrite (peer_matches_iff p i a) by done. by apply negb_true_iff, bool_decide_eq_false.
    + intros (p & Hp & Hi & Ha). apply List.filter_In in Hp as [Hp Hn]. split; [by exists p|].
      rewrite (peer_matches_iff p i a) in Hn by done. by apply negb_true_iff, bool_decide_eq_false in Hn.
  - intros p Hp. apply List.filter_In in Hp as [Hp _]. by apply H2.
Qed.

(** The rows a committed add leaves: those it does not match, and one for the member. *)
Lemma merge_rows_rest n r id addr merged ps :
  let '(m, ps') := merge_rows n r id addr merged ps in
  m = merged || existsb (peer_matches id addr) ps /\
  (forall p, In p (List.filter (fun p => negb (peer_matches id addr p)) ps) -> In p ps') /\
  (forall p, In p ps' -> In p (List.filter (fun p => negb (peer_matches id addr p)) ps)
                         \/ (p_node_id p = Some id /\ p_address p = Some addr)) /\
  (merged = false -> m = true -> exists p, In p ps' /\ p_node_id p = Some id /\ p_address p = Some addr).
Proof.
  revert merged. induction ps as [|q ps IH]; intros merged; cbn [merge_rows].
  { split_and!; [by rewrite orb_false_r|done|by left|]. intros -> ?; done. }
  cbn [List.filter existsb]. destruct (peer_matches id addr q) eqn:Hq; cbn [negb].
  - destruct merged.
    + specialize (IH true). destruct (merge_rows n r id addr true ps) as [m ps'].
      destruct IH as (-> & H2 & H3 & _). by split_and!.
    + specialize (IH true). destruct (merge_rows n r id addr true ps) as [m ps'].
      destruct IH as (-> & H2 & H3 & _).
      destruct (bind_member_key_ids n (admit_row q id addr) r id) as [Hi Ha]. split_and!; [done| | |].
      * intros p Hp. right. by apply H2.
      * intros p [<-|Hp]; [right; by rewrite Hi, Ha|by apply H3].
      * intros _ _. eexists. split; [by left|]. by rewrite Hi, Ha.
  - specialize (IH merged). destruct (merge_rows n r id addr merged ps) as [m ps'].
    destruct IH as (-> & H2 & H3 & H4). split_and!; [done| | |].
    + intros p [<-|Hp]; [by left|right; by apply H2].
    + intros p [<-|Hp]; [left; by left|]. destruct (H3 p Hp); [left; by right|by right].
    + intros Hm Ht. destruct (H4 Hm Ht) as (p & Hp & ?). exists p. split; [by right|done].
Qed.

Lemma insert_rows ps ps' ro id addr : rows_are ps ro ->
  (forall p, In p (List.filter (fun p => negb (peer_matches id addr p)) ps) -> In p ps') ->
  (forall p, In p ps' -> In p (List.filter (fun p => negb (peer_matches id addr p)) ps)
                         \/ (p_node_id p = Some id /\ p_address p = Some addr)) ->
  (exists p, In p ps' /\ p_node_id p = Some id /\ p_address p = Some addr) ->
  rows_are ps' (<[id := addr]> (filter (fun e => ~ entry_matches id addr e) ro)).
Proof.
  intros Hr H2 H3 H4. destruct (keep_rows ps ro id addr Hr) as [K1 K2]. split.
  - intros i a. destruct (decide (id = i)) as [<-|Hne].
    + rewrite lookup_insert_eq. split; [intros [= <-]; done|]. intros (p & Hp & Hi & Ha). f_equal.
      destruct (H3 p Hp) as [Hk|[_ Hadr]]; [|congruence]. exfalso.
      apply List.filter_In in Hk as [_ Hk]. unfold peer_matches, str_is in Hk.
      rewrite Hi, (bool_decide_true (Some id = Some id)) in Hk by done. done.
    + rewrite lookup_insert_ne, K1 by done. split.
      * intros (p & Hp & Hia). exists p. split; [by apply H2|done].
      * intros (p & Hp & Hi & Ha). destruct (H3 p Hp) as [Hk|[Hid _]]; [by exists p|congruence].
  - intros p Hp. destruct (H3 p Hp) as [Hk|[Hi Ha]]; [by apply K2|by exists id, addr].
Qed.

(** One delta: the derived roster and bans follow the applied ones. *)
Lemma apply_rows_refines n r k id addr ps bs ro ba : In (id, addr) ds -> within ro ba ->
  rows_are ps ro -> bans_are bs ba ->
  let '(ps', bs') := apply_rows n r k id addr ps bs in
  let '(ro', ba') := fold_delta ro ba k id addr in
  within ro' ba' /\ rows_are ps' ro' /\ bans_are bs' ba'.
Proof using Hds.
  intros Hd [Wr Wb] Hr Hb. unfold apply_rows, fold_delta.
  assert (Wk : forall i a, filter (fun e => ~ entry_matches id addr e) ro !! i = Some a -> In (i, a) ds).
  { intros i a H. apply map_lookup_filter_Some in H as [H _]. by apply Wr. }
  repeat case_bool_decide; try done.
  - rewrite (bans_agree bs ba id addr Hb). destruct (existsb _ (elements ba)); [done|].
    pose proof (merge_rows_rest n r id addr false ps) as Hm.
    destruct (merge_rows n r id addr false ps) as [m ps']. destruct Hm as (_ & H2 & H3 & H4).
    split_and!; [split; [|done]| |done].
    { intros i a Hi. apply lookup_insert_Some in Hi as [[<- <-]|[_ Hi]]; [done|by apply Wk]. }
    destruct m; [apply (insert_rows ps); auto|].
    destruct (bind_member_key_ids n (new_row id addr) r id) as [Hi Ha].
    apply (insert_rows ps); [done| | |].
    + intros p Hp. apply in_or_app. left. by apply H2.
    + intros p Hp. apply in_app_or in Hp as [Hp|[<-|[]]]; [by apply H3|right; by rewrite Hi, Ha].
    + eexists. split; [apply in_or_app; right; by left|]. by rewrite Hi, Ha.
  - split_and!; [split; [done|]|by apply keep_rows|].
    { intros e He. apply elem_of_union in He as [He|He]; [|by apply Wb]. by apply elem_of_singleton in He as ->. }
    rewrite (bans_agree bs ba id addr Hb). destruct Hb as [B1 B2].
    destruct (existsb _ (elements ba)) eqn:He.
    + apply existsb_exists in He as (e & Hin & Hm). apply list_elem_of_In, elem_of_elements in Hin.
      apply bool_decide_eq_true, (matches_iff id addr e Hd (Wb e Hin)) in Hm as ->.
      replace ({[(id, addr)]} ∪ ba) with ba by set_solver. done.
    + split.
      * intros e. rewrite elem_of_union, elem_of_singleton, B1. split.
        -- intros [->|(b & Hbin & Hi & Ha)]; [|exists b; split; [apply in_or_app; by left|done]].
           eexists. split; [apply in_or_app; right; by left|done].
        -- intros (b & Hbin & Hi & Ha). apply in_app_or in Hbin as [Hbin|[<-|[]]]; [right; by exists b|].
           left. simpl in Hi, Ha. destruct e. simpl in *. congruence.
      * intros b Hbin. apply in_app_or in Hbin as [Hbin|[<-|[]]]; [by apply B2|by exists (id, addr)].
  - split_and!; [split; [done|]|done|].
    { intros e He. apply elem_of_filter in He as [_ He]. by apply Wb. }
    destruct Hb as [B1 B2]. split.
    + intros e. rewrite elem_of_filter, B1. split.
      * intros [Hn (b & Hbin & Hi & Ha)]. exists b. split; [|done]. apply List.filter_In. split; [done|].
        unfold ban_matches, str_is. rewrite Hi, Ha. apply negb_true_iff, orb_false_iff.
        unfold entry_matches in Hn. split; apply bool_decide_eq_false; naive_solver.
      * intros (b & Hbin & Hi & Ha). apply List.filter_In in Hbin as [Hbin Hn]. split; [|by exists b].
        unfold ban_matches, str_is in Hn. rewrite Hi, Ha in Hn. bool_to_prop. unfold entry_matches. naive_solver.
    + intros b Hbin. apply List.filter_In in Hbin as [Hbin _]. by apply B2.
Qed.
End RosterLemmas.

(** The members and addresses a log's deltas name. *)
Definition deltas_of (rs : list CommitRecord) : list (string * string) :=
  omap (fun r => (fun d => (d.1.2, d.2)) <$> member_delta r) rs.

(** A delta this node applies to its roster: not about itself, nor at a loopback address. *)
Definition remote_delta (me : string) (r : CommitRecord) : Prop :=
  match member_delta r with
  | Some (_, id, addr) => id <> me /\ is_looped addr = false
  | None => True
  end.

Lemma apply_member_delta_frame n r : wire_node_id (apply_member_delta n r) = wire_node_id n.
Proof.
  unfold apply_member_delta. destruct (member_delta r) as [[[k id] addr]|]; [|done].
  repeat case_bool_decide; try done; destruct (is_looped addr); try done;
    destruct (peers n), (banned n); try done; by destruct (apply_rows _ _ _ _ _ _ _).
Qed.

Section RosterFold.
Context `{C : Crypto} `{S : Serde} (ks : KeyStore) (now : N) (ds : list (string * string)).
Hypothesis Hds : stable_addresses ds.

Definition applied_matches (n : Node) (st : ClusterState) : Prop :=
  exists ps bs, peers n = Some ps /\ banned n = Some bs /\
    within ds (roster st) (cs_banned st) /\ rows_are ps (roster st) /\ bans_are bs (cs_banned st).

Lemma fold_record_refines n st r : applied_matches n st -> remote_delta (wire_node_id n) r ->
  (forall d, In d (deltas_of [r]) -> In d ds) ->
  applied_matches (apply_member_delta n r) (fold_record st r).
Proof using Hds.
  intros (ps & bs & Hp & Hb & W & R & B) Hrem Hin.
  assert (Hsame : forall mem t l, applied_matches n (mkClusterState t l (coordinators st)
            (decisions st + 1) mem (roster st) (cs_banned st) (anomalies st)))
    by (intros; by exists ps, bs).
  unfold fold_record, apply_member_delta, remote_delta, deltas_of in *. simpl in Hin.
  destruct (member_delta r) as [[[k id] addr]|].
  - destruct Hrem as [Hid Hl]. rewrite bool_decide_false, Hl, Hp, Hb by done.
    pose proof (apply_rows_refines ds Hds n r k id addr ps bs (roster st) (cs_banned st)
      (Hin _ (or_introl eq_refl)) W R B) as Href.
    destruct (apply_rows n r k id addr ps bs) as [ps' bs'].
    destruct (fold_delta (roster st) (cs_banned st) k id addr) as [ro' ba'].
    destruct (cs_term st <? term r); by exists ps', bs'.
  - destruct (cs_term st <? term r); by apply Hsame.
Qed.

Lemma fold_view_refines n rs st : applied_matches n st ->
  (forall r, In r rs -> verify ks now r = true /\ 0 < seq r /\ remote_delta (wire_node_id n) r) ->
  (forall d, In d (deltas_of rs) -> In d ds) ->
  applied_matches (fold_left apply_member_delta rs n) (fold_view ks now ∅ rs st).
Proof using Hds.
  revert n st. induction rs as [|r rs IH]; intros n st Hm Hall Hin; [done|].
  destruct (Hall r (or_introl eq_refl)) as (Hv & Hpos & Hrem).
  unfold fold_view. cbn [fold_left]. rewrite Hv. unfold floor_of. rewrite lookup_empty. cbn [default from_option id].
  rewrite (proj2 (N.ltb_lt 0 (seq r)) Hpos). cbn [andb]. apply IH.
  - apply fold_record_refines; [done|done|]. intros d Hd. apply Hin. unfold deltas_of in *. simpl in *.
    destruct (member_delta r); simpl in *; [|done]. destruct Hd as [<-|[]]. by left.
  - intros x Hx. rewrite apply_member_delta_frame. apply Hall. by right.
  - intros d Hd. apply Hin. unfold deltas_of in *. simpl. destruct (member_delta r); [by right|done].
Qed.
End RosterFold.

(** ** The claims *)


(** A log that intake built replays without a double.  When no two sequenced records
    share a slot, the replay ends and reports neither a duplicate nor an equivocation. *)
Theorem intake_log_replays_clean `{C : Crypto} `{S : Serde} ks now rs :
  unique_slots rs -> (forall r, In r rs -> 0 < seq r) -> Forall sliceable rs ->
  exists st, replay_records ks now rs = Some st /\
    (forall a, In a (anomalies st) -> is_double a = false) /\
    (forall c, coordinators st !! c = max_key seq (eligible ks now ∅ c rs)).
Proof.
  intros Hu Hpos Hsl.
  destruct (fold_records_spec ks now ∅ rs ClusterState_default Hsl) as (st & Hf & _ & Hc & Ha).
  exists st. split_and!; [done| |].
  - intros a Hin. destruct (Ha (fun c => eligible_NoDup ks now c rs Hu Hpos) a Hin) as [[]|]; done.
  - intros c. rewrite Hc. apply high_after_empty.
Qed.

(** C6. The first compaction is invisible. After a node with no snapshot compacts, and
    whatever records arrive later whose sequence numbers are above the mark the replay
    before the compaction kept for their coordinator, replaying the compacted node gives the
    consensus view (term, leader, counts, roster, bans) and the per-coordinator marks of
    replaying the whole history, where no record's epoch makes the audit slice inside a
    character. A later record at or below its coordinator's mark is not replayed
    ([late_removal_is_not_replayed]). *)
Theorem first_compaction_preserves_view `{C : Crypto} `{S : Serde} ks now n k n' later st0 :
  snapshot n = None -> Forall sliceable (ledger n ++ later) ->
  replay_records ks now (ledger n) = Some st0 ->
  (forall r, In r later -> default 0 (coordinators st0 !! coordinator r) < seq r) ->
  compact_at ks now true n = Some (Ok k, n') -> snapshot n' <> None ->
  exists st st',
    replay ks now (set_ledger n (ledger n ++ later)) = Some st /\
    replay ks now (set_ledger n' (ledger n' ++ later)) = Some st' /\
    view_of st' = view_of st /\ coordinators st' = coordinators st.
Proof.
  intros Hsnap Hsl Hst0 Hlater Hcomp Hsome. unfold compact_at in Hcomp. cbn [negb] in Hcomp.
  destruct (ledger n) as [|r0 rest] eqn:Hl; [injection Hcomp as _ <-; by rewrite Hsnap in Hsome|].
  set (rs := r0 :: rest) in *. rewrite Hst0 in Hcomp.
  destruct (archived rs) as [|o os]; [injection Hcomp as _ <-; by rewrite Hsnap in Hsome|].
  injection Hcomp as _ <-. unfold replay, set_ledger. cbn [snapshot ledger]. rewrite Hsnap.
  assert (Hsl1 : Forall sliceable rs) by (apply Forall_app in Hsl; tauto).
  destruct (replay_marks ks now rs st0 Hsl1 Hst0) as [V1 C1].
  destruct (fold_records_spec ks now ∅ (rs ++ later) ClusterState_default Hsl) as (st2 & Hf2 & V2 & C2 & _).
  set (snap := take_snapshot now st0).
  assert (Hsl3 : Forall sliceable (anchors rs ++ later)).
  { apply Forall_app in Hsl as [_ Hsl]. apply Forall_app. split; [|done]. apply Forall_forall.
    intros r Hr. apply list_elem_of_In, anchors_In in Hr. rewrite Forall_forall in Hsl1.
    by apply Hsl1, list_elem_of_In. }
  destruct (fold_records_spec ks now (coordinators st0) (anchors rs ++ later) (seeded snap) Hsl3)
    as (st3 & Hf3 & V3 & C3 & _).
  change (high_water snap) with (coordinators st0).
  unfold replay_records. rewrite Hf2, Hf3. eexists _, _. split_and!; [done|done| |].
  - change (view_of st3 = view_of st2). rewrite V3, V2, !fold_view_app.
    rewrite (fold_view_below ks now (coordinators st0) (anchors rs)) by (intros; by apply (anchors_below ks now rs)).
    rewrite (fold_view_above ks now (coordinators st0) ∅).
    + apply fold_view_view. rewrite <- V1. done.
    + intros r Hr. specialize (Hlater r Hr). unfold floor_of. rewrite lookup_empty.
      split; [done|]. cbn [default from_option id]. lia.
  - change (coordinators st3 = coordinators st2). apply map_eq. intros c. rewrite C2, C3, high_after_empty.
    rewrite (high_after_app (coordinators (seeded snap)) c (eligible ks now ∅ c rs)) by apply C1.
    by apply compacted_marks.
Qed.

(** ** Scenarios *)

Module Scenario.
#[local] Existing Instances Toy.crypto Toy.laws Sample.serde.

Definition member (held : list CommitRecord) (now : N) (k spec : string) : CommitRecord :=
  default Sample.blank (seal_member (Sample.sealer held now) "n1" "n1" k spec ["n1"] "").
Definition decide_ (held : list CommitRecord) (now : N) (v : string) : CommitRecord :=
  default Sample.blank (seal (Sample.sealer held now) (Sample.input v)).

(** [n1] adds [n2], then decides twice, then removes [n2]. *)
Definition r1 : CommitRecord := member [] 10 KIND_MEMBER_ADD "n2@10.0.0.2:1".
Definition r2 : CommitRecord := decide_ [r1] 11 "a".
Definition r3 : CommitRecord := decide_ [r1; r2] 12 "b".
Definition r2' : CommitRecord := member [r1] 11 KIND_MEMBER_REMOVE "n2@10.0.0.2:1".

Definition on (l : list CommitRecord) : Node :=
  mkNode l [] None (Some []) (Some []) None Sample.keys "n0" None.

(** The roster a node replays to. *)
Definition replayed_roster (n : Node) : option (list (string * string)) :=
  (fun st => map_to_list (roster st)) <$> replay Sample.keys 100 n.

Definition compacted (n : Node) : Node :=
  match compact_at Sample.keys 100 true n with Some (_, n') => n' | None => n end.
Definition received (n : Node) (r : CommitRecord) : Node := (append_to true n 100 r).2.

(** A record of the key holder whose link is not ASCII: [a] and six times [U+00E9]. *)
Definition accented : string :=
  string_of_bytes ([97] ++ concat (repeat [195; 169] 6))%nat.
Definition r3_accented : CommitRecord :=
  let d := draft (Sample.sealer [r1; r2] 12) "n1" "n1" ["n1"] "e" 1 1 "b" EmptyString in
  sign_record (Sample.sealer [r1; r2] 12) (repeat 7 32)
    (mkCommitRecord (epoch d) (coordinator d) (electorate d) (tally d) (quorum_threshold d)
       (value_hash d) (value d) (committed_at d) (seq d) (leader d) (term d) accented (kind d)
       "" "" "" "" []).

(** Two evictions of one member at two addresses, then another member at the second. *)
Definition e1 : CommitRecord := member [] 20 KIND_MEMBER_REMOVE "a@10.0.0.1:1".
Definition e2 : CommitRecord := member [e1] 21 KIND_MEMBER_REMOVE "a@10.0.0.2:1".
Definition e3 : CommitRecord := member [e1; e2] 22 KIND_MEMBER_ADD "b@10.0.0.2:1".
End Scenario.

#[local] Existing Instances Toy.crypto Toy.laws Sample.serde.


Lemma intake_log_replays_clean_witness :
  exists st, replay_records Sample.keys 100 [Scenario.r1; Scenario.r2; Scenario.r3] = Some st /\
    forall a, In a (anomalies st) -> is_double a = false.
Proof.
  destruct (intake_log_replays_clean Sample.keys 100 [Scenario.r1; Scenario.r2; Scenario.r3])
    as (st & H1 & H2 & _).
  - apply (bool_decide_unpack _). vm_compute. exact I.
  - intros r [<-|[<-|[<-|[]]]]; vm_compute; reflexivity.
  - repeat constructor; vm_compute; discriminate.
  - exists st. split; [exact H1|exact H2].
Defined.

Lemma first_compaction_preserves_view_witness :
  exists st st', replay Sample.keys 100 (Scenario.on [Scenario.r1; Scenario.r2; Scenario.r3]) = Some st /\
    replay Sample.keys 100 (set_ledger (Scenario.compacted (Scenario.on [Scenario.r1; Scenario.r2]))
                              [Scenario.r2; Scenario.r3]) = Some st' /\
    view_of st' = view_of st.
Proof.
  destruct (replay_records Sample.keys 100 [Scenario.r1; Scenario.r2]) as [st0|] eqn:Hst;
    [|vm_compute in Hst; discriminate].
  destruct (first_compaction_preserves_view Sample.keys 100 (Scenario.on [Scenario.r1; Scenario.r2]) 1
    (Scenario.compacted (Scenario.on [Scenario.r1; Scenario.r2])) [Scenario.r3] st0)
    as (st & st' & H1 & H2 & H3 & _).
  - reflexivity.
  - repeat constructor; vm_compute; discriminate.
  - exact Hst.
  - intros r [<-|[]]. apply (f_equal (fun o => (fun s => coordinators s !! coordinator Scenario.r3) <$> o)) in Hst.
    vm_compute in Hst. injection Hst as Hst. vm_compute. rewrite <- Hst. reflexivity.
  - vm_compute. reflexivity.
  - vm_compute. discriminate.
  - exists st, st'. split; [exact H1|]. split; [exact H2|exact H3].
Defined.

(** A second compaction forgets the first.  It derives its snapshot from the live
    ledger alone, not from the snapshot that stands for the archived part: a member
    committed before the first compaction is on the replayed roster until the second, and
    gone after it. *)
Theorem second_compaction_forgets :
  let once := Scenario.compacted (Scenario.on [Scenario.r1; Scenario.r2]) in
  let grown := Scenario.received once Scenario.r3 in
  Scenario.replayed_roster grown = Some [("n2"%string, "10.0.0.2:1"%string)] /\
  Scenario.replayed_roster (Scenario.compacted grown) = Some [].
Proof. vm_compute. split; reflexivity. Qed.

(** A removal that arrives under the mark is never replayed.  A node that compacted
    with a gap takes the missing eviction when it is delivered, and still replays the
    evicted member, where a node that did not compact replays it removed. *)
Theorem late_removal_is_not_replayed :
  let gapped := Scenario.on [Scenario.r1; Scenario.r3] in
  Scenario.replayed_roster (Scenario.received gapped Scenario.r2') = Some [] /\
  ledger (Scenario.received (Scenario.compacted gapped) Scenario.r2') = [Scenario.r3; Scenario.r2'] /\
  Scenario.replayed_roster (Scenario.received (Scenario.compacted gapped) Scenario.r2')
    = Some [("n2"%string, "10.0.0.2:1"%string)].
Proof. vm_compute. repeat split; reflexivity. Qed.

(** One accepted record can make every replay panic.  Intake takes a signed record
    whose predecessor link is not ASCII while the predecessor is missing; the chain audit
    compares it with the nearest earlier record and slices the link inside a character. *)
Theorem accepted_record_can_panic_replay :
  let n := Scenario.received (Scenario.on [Scenario.r1]) Scenario.r3_accented in
  ledger n = [Scenario.r1; Scenario.r3_accented] /\
  replay Sample.keys 100 n = None.
Proof. vm_compute. split; reflexivity. Qed.

(** Without stable addresses the replayed roster and the applied one part: after one
    member is evicted at two addresses, the fold bans both pairs and the applied ban list
    only the first, so a member later added at the second address is on the roster file
    and not on the replayed roster. *)
Theorem replayed_roster_can_diverge :
  let rs := [Scenario.e1; Scenario.e2; Scenario.e3] in
  let n := fold_left Scenario.received rs (Scenario.on []) in
  ledger n = rs /\
  existsb (fun p => str_is (p_node_id p) "b") (peer_rows n) = true /\
  Scenario.replayed_roster n = Some [].
Proof. vm_compute. repeat split; reflexivity. Qed.
