(* ===== verification/Term.v ===== *)
(** * Term: the consensus term ([TermState] in [crates/susi-core/src/commit_log.rs])

    Each operation is a read-modify-write of [term.json].  How it goes is a [TermIo]: whether
    the lockfile was acquired, the file could be read, and the write went through.  The file is
    the state it parses to; [None] is one that is absent or does not parse.  [check_term] is the
    check on a state that is read and written without failure, for the components that keep one. *)

From S2P Require Import Prelude CommitRecord.

Local Open Scope N_scope.

Record TermState : Type := mkTermState {
  t_term : N;
  t_leader : string;
  updated_at : N;
}.

#[export] Instance TermState_eq_dec : EqDecision TermState.
Proof. solve_decision. Defined.

(** [load_term_from]: no file, one that does not parse and one that cannot be read are alike. *)
Definition TermState_default : TermState := mkTermState 0 EmptyString 0.
Definition load_term_from (readable : bool) (file : option TermState) : TermState :=
  if readable then default TermState_default file else TermState_default.
(** [save_term_to]; a write that fails leaves the file as it was. *)
Definition save_term_to (saved : bool) (file : option TermState) (st : TermState) : option TermState :=
  if saved then Some st else file.

Inductive TermVerdict : Type :=
| VCurrent
| Adopted (s : TermState)
| Stale
| LeaderConflict.

Record TermIo : Type := mkIo {
  locked : bool;
  readable : bool;
  saved : bool;
}.

(** [claim_leadership_at]: the term to stamp, and the file after. *)
Definition claim_leadership_at (io : TermIo) (file : option TermState) (now : N) (leader : string) : N * option TermState :=
  let st := load_term_from (readable io) file in
  if negb (locked io) then (t_term st, file)
  else if bool_decide (t_leader st = leader) then (t_term st, file)
  else
    let st' := mkTermState (wrapping_add (t_term st) 1) leader now in
    (t_term st', save_term_to (saved io) file st').

(** [claim_leadership]: an evicted node's term is frozen. *)
Definition claim_leadership (evicted : bool) (io : TermIo) (file : option TermState) (now : N) (leader : string)
  : N * option TermState :=
  if evicted then (t_term (load_term_from (readable io) file), file) else claim_leadership_at io file now leader.

(** The comparison [check_term_at] makes. *)
Definition check_verdict (st : TermState) (now : N) (r : CommitRecord) : TermVerdict :=
  if t_term st <? term r then Adopted (mkTermState (term r) (leader r) now)
  else if term r <? t_term st then Stale
  else if negb (bool_decide (t_leader st = EmptyString)) && negb (bool_decide (leader r = EmptyString))
          && negb (bool_decide (leader r = t_leader st))
  then LeaderConflict
  else VCurrent.

(** [check_term_at]: without the lock the newer term is reported and not saved. *)
Definition check_term_at (io : TermIo) (file : option TermState) (now : N) (r : CommitRecord) : TermVerdict * option TermState :=
  let v := check_verdict (load_term_from (readable io) file) now r in
  (v, match v with Adopted next => if locked io then save_term_to (saved io) file next else file | _ => file end).
Definition check_term (locked : bool) (st : TermState) (now : N) (r : CommitRecord) : TermVerdict * TermState :=
  let v := check_verdict st now r in
  (v, match v with Adopted next => if locked then next else st | _ => st end).

Inductive TermOp : Type :=
| OpClaim (evicted : bool) (io : TermIo) (now : N) (leader : string)
| OpCheck (io : TermIo) (now : N) (r : CommitRecord).

Definition term_op (file : option TermState) (op : TermOp) : option TermState :=
  match op with
  | OpClaim e io now ld => (claim_leadership e io file now ld).2
  | OpCheck io now r => (check_term_at io file now r).2
  end.
Definition reads (op : TermOp) : bool := match op with OpClaim _ io _ _ | OpCheck io _ _ => readable io end.

(** The states on file along a run, the first one included. *)
Fixpoint term_trace (file : option TermState) (ops : list TermOp) : list TermState :=
  load_term_from true file :: match ops with [] => [] | op :: ops' => term_trace (term_op file op) ops' end.

(** One step: the same leadership, or a later term. *)
Lemma term_op_step file op : reads op = true -> t_term (load_term_from true file) < u64_max ->
  let st := load_term_from true file in
  let st' := load_term_from true (term_op file op) in
  (t_term st' = t_term st /\ t_leader st' = t_leader st) \/ t_term st < t_term st'.
Proof.
  intros Hr Hst. cbv zeta. destruct op as [e [l rd s] now ld|[l rd s] now r]; cbn in Hr; subst rd; cbn [term_op].
  - unfold claim_leadership, claim_leadership_at. destruct e; [by left|]. cbn [locked readable saved]. destruct l; [|by left]. cbn [negb].
    set (st := load_term_from true file) in *. case_bool_decide; [by left|]. destruct s; [|by left]. right.
    cbn [snd save_term_to load_term_from default from_option t_term]. rewrite wrapping_add_exact by lia. unfold st. cbn [id t_term]. lia.
  - unfold check_term_at, check_verdict. cbn [locked readable saved snd]. destruct (N.ltb_spec (t_term (load_term_from true file)) (term r)) as [H|H].
    + destruct l, s; [by right|by left..].
    + destruct (_ <? _); [by left|]. destruct (_ && _); by left.
Qed.

(** ** The claims *)

(** C33. A node sees one leader per term.  Along any run of leadership claims and of records
    checked whose reads of the term file succeed, whatever locks and writes fail, and until the
    term stands at [u64::MAX], the term on file never goes back, and two moments with the same
    term have the same leader. *)
Theorem one_leader_per_term file ops i j x y :
  Forall (fun op => reads op = true) ops ->
  term_trace file ops !! i = Some x -> term_trace file ops !! j = Some y -> (i <= j)%nat ->
  (forall k z, (i <= k < j)%nat -> term_trace file ops !! k = Some z -> t_term z < u64_max) ->
  t_term x <= t_term y /\ (t_term x = t_term y -> t_leader x = t_leader y).
Proof.
  intros Ho. revert file i j x. induction Ho as [|op ops Hop Ho IH]; intros file i j x Hx Hy Hij Hmax.
  - destruct i, j; simpl in *; try lia; try done. injection Hx as <-. by injection Hy as <-.
  - destruct i as [|i].
    + assert (Hx' : load_term_from true file = x) by (by injection Hx). clear Hx. subst x. destruct j as [|j]; [by injection Hy as <-|]. cbn [term_trace lookup list_lookup] in Hy.
      destruct (term_trace (term_op file op) ops !! 0%nat) as [z|] eqn:Hz; [|by destruct ops].
      destruct (IH (term_op file op) 0%nat j z Hz Hy ltac:(lia)) as [H1 H2].
      { intros k w Hk Hw. apply (Hmax (S k) w); [lia|done]. }
      assert (Hz' : z = load_term_from true (term_op file op)) by (destruct ops; by injection Hz as <-).
      destruct (term_op_step file op Hop (Hmax 0%nat _ ltac:(lia) eq_refl)) as [[H3 H4]|H3]; subst z.
      * split; [by rewrite <- H3|]. intros E. rewrite <- H4. apply H2. by rewrite H3.
      * assert (t_term (load_term_from true file) < t_term y) by (eapply N.lt_le_trans; eassumption). split; [by apply N.lt_le_incl|].
        intros E. rewrite E in H. by apply N.lt_irrefl in H.
    + destruct j as [|j]; [lia|]. apply (IH (term_op file op) i j x Hx Hy ltac:(lia)).
      intros k w Hk Hw. apply (Hmax (S k) w); [lia|done].
Qed.

(** ** Where the term is not kept *)

(** A read that fails is a term of 0: a claim then puts the term back, and so does a record. *)
Lemma unread_term_goes_back st now ld : ld <> EmptyString ->
  claim_leadership_at (mkIo true false true) (Some st) now ld = (1, Some (mkTermState 1 ld now)).
Proof. intros H. unfold claim_leadership_at. cbn. by rewrite bool_decide_eq_false_2. Qed.
(** A claim whose write fails gives a term to stamp that is nowhere on file, and the next
    leader gets the same one. *)
Lemma unsaved_claim_mints_a_phantom st now l l' : t_leader st <> l -> t_leader st <> l' ->
  claim_leadership_at (mkIo true true false) (Some st) now l = (wrapping_add (t_term st) 1, Some st) /\
  claim_leadership_at (mkIo true true true) (Some st) now l' =
    (wrapping_add (t_term st) 1, Some (mkTermState (wrapping_add (t_term st) 1) l' now)).
Proof. intros H H'. unfold claim_leadership_at. cbn. by rewrite !bool_decide_eq_false_2. Qed.
(** A record may bring the last term there is; the claim after it wraps to 0. *)
Lemma last_term_wraps now r l : term r = u64_max -> leader r <> l ->
  let file := (check_term_at (mkIo true true true) None now r).2 in
  claim_leadership_at (mkIo true true true) file now l = (0, Some (mkTermState 0 l now)).
Proof. intros Hr Hl. unfold check_term_at, check_verdict. cbn. rewrite Hr. cbn. unfold claim_leadership_at. cbn. by rewrite bool_decide_eq_false_2. Qed.

Definition well : TermIo := mkIo true true true.
Definition sample_ops : list TermOp :=
  [OpClaim false well 5 "a"; OpCheck well 6 (Sample.first); OpClaim false well 7 "b"; OpClaim true well 8 "c"].

Lemma one_leader_per_term_witness :
  (fun s => (t_term s, t_leader s)) <$> term_trace None sample_ops
    = [(0, ""); (1, "a"); (1, "a"); (2, "b"); (2, "b")]%string /\
  exists x y, term_trace None sample_ops !! 1%nat = Some x /\
    term_trace None sample_ops !! 4%nat = Some y /\ t_term x <= t_term y.
Proof.
  split; [vm_compute; reflexivity|].
  destruct (term_trace None sample_ops !! 1%nat) as [x|] eqn:Hx; [|vm_compute in Hx; discriminate].
  destruct (term_trace None sample_ops !! 4%nat) as [y|] eqn:Hy; [|vm_compute in Hy; discriminate].
  exists x, y. split; [reflexivity|]. split; [reflexivity|].
  refine (proj1 (one_leader_per_term None sample_ops 1 4 x y _ Hx Hy _ _)).
  - repeat constructor.
  - lia.
  - intros k z Hk Hz. do 4 (destruct k as [|k]; [try lia; vm_compute in Hz; injection Hz as <-; vm_compute; reflexivity|]). lia.
Defined.

(** The verdict is the comparison: a record is stale exactly when its term is behind
    the one loaded, adopted exactly when it is ahead (and then, under the lock and a write that
    goes through, the file is at the record's term and leader), and a conflict exactly when two
    named leaders share the term. *)
Theorem check_term_verdict io file now r :
  let st := load_term_from (readable io) file in
  let '(v, file') := check_term_at io file now r in
  match v with
  | Adopted s => t_term st < term r /\ t_term s = term r /\ t_leader s = leader r
                 /\ file' = (if locked io && saved io then Some s else file)
  | Stale => term r < t_term st /\ file' = file
  | LeaderConflict => term r = t_term st /\ file' = file /\ t_leader st <> EmptyString
                      /\ leader r <> EmptyString /\ leader r <> t_leader st
  | VCurrent => term r = t_term st /\ file' = file
                /\ (t_leader st = EmptyString \/ leader r = EmptyString \/ leader r = t_leader st)
  end.
Proof.
  unfold check_term_at, check_verdict. cbv zeta. set (st := load_term_from (readable io) file).
  destruct (N.ltb_spec (t_term st) (term r)); [by destruct (locked io), (saved io)|].
  destruct (N.ltb_spec (term r) (t_term st)); [done|].
  repeat case_bool_decide; simpl; split_and!; try done; try lia; tauto.
Qed.
