(* ===== verification/QuorumDurable.v ===== *)
(** * QuorumDurable: the commit boundary of a quorum decision
    ([crates/susi-gawd-swarm/src/quorum_durable.rs])

    Sealing, appending and replicating are arguments of [durable_commit], as in the code;
    each acts on a world of the caller's.  [Cluster] is the instance the coordinator runs
    ([crates/susi-gawd-swarm/src/amas.rs]): seal over its own ledger, [append_to] it, and
    push the record to each voter, whose [commit_record] tool
    ([crates/susi-gmcp/src/tools/core.rs]) gates it, appends it and repairs gaps.  What
    the network does is arguments: the records a repair fetches, and whether the reply to
    a push arrives. *)

From S2P Require Import Prelude Money ClusterKey CommitRecord CommitLedger Term.

Local Open Scope string_scope.
Local Open Scope list_scope.
Local Open Scope N_scope.

Inductive CommitDurability : Type :=
| Durable (record : CommitRecord) (acked voters : nat)
| Undurable (detail : string).

Definition is_committed (d : CommitDurability) : bool :=
  match d with Durable _ _ _ => true | Undurable _ => false end.

Section DurableCommit.
Context {W : Type}.
Context (seal : W -> option CommitRecord * W)
        (append : CommitRecord -> W -> result unit string * W)
        (replicate : string -> CommitRecord -> W -> bool * W).

(** The replication loop: how many voters acknowledged. *)
Fixpoint replicate_to (voters : list string) (r : CommitRecord) (w : W) : nat * W :=
  match voters with
  | [] => (0%nat, w)
  | addr :: voters' =>
      let '(ok, w) := replicate addr r w in
      let '(acked, w) := replicate_to voters' r w in
      ((if ok then S acked else acked), w)
  end.

(** [durable_commit]. *)
Definition durable_commit (voter_addrs : list string) (w : W) : CommitDurability * W :=
  match seal w with
  | (None, w) => (Undurable "leader election or record seal failed — no signed commit record", w)
  | (Some record, w) =>
      match append record w with
      | (Err e, w) => (Undurable ("commit ledger append failed: " +:+ e), w)
      | (Ok _, w) =>
          let '(acked, w) := replicate_to voter_addrs record w in
          (Durable record acked (length voter_addrs), w)
      end
  end.

(** [durable_commit_requiring_acks]. *)
Definition durable_commit_requiring_acks (voter_addrs : list string) (w : W) : CommitDurability * W :=
  match durable_commit voter_addrs w with
  | (Durable record acked voters, w) =>
      if (acked <? voters)%nat then
        (Undurable ("commit ledger append succeeded but replication acknowledgements are incomplete: "
           +:+ dec (N.of_nat acked) +:+ "/" +:+ dec (N.of_nat voters) +:+ " voters acknowledged"), w)
      else (Durable record acked voters, w)
  | (Undurable detail, w) => (Undurable detail, w)
  end.

(** Every push acknowledged: a property a push establishes for its voter, and every push
    keeps for the others, holds of all voters. *)
Lemma replicate_all (P : string -> CommitRecord -> W -> Prop) (Q : CommitRecord -> W -> Prop) voters r w n w' :
  (forall a v v', replicate a r v = (true, v') -> P a r v') ->
  (forall a b ok v v', replicate a r v = (ok, v') -> P b r v -> P b r v') ->
  (forall a ok v v', replicate a r v = (ok, v') -> Q r v -> Q r v') ->
  replicate_to voters r w = (n, w') -> Q r w ->
  (n <= length voters)%nat /\ Q r w' /\ (forall b, P b r w -> P b r w') /\
  (n = length voters -> forall a, a ∈ voters -> P a r w').
Proof.
  intros Hack Hkeep HQ. revert w n w'. induction voters as [|a voters IH]; intros w n w' H Hq; cbn [replicate_to] in H.
  - injection H as <- <-. repeat split; try done. intros _ a Ha. by apply elem_of_nil in Ha.
  - destruct (replicate a r w) as [ok w1] eqn:Hr. destruct (replicate_to voters r w1) as [m w2] eqn:Hv.
    injection H as <- <-. destruct (IH w1 m w2 Hv (HQ _ _ _ _ Hr Hq)) as (Hle & Hq' & Hp & Hall).
    repeat split.
    + destruct ok; cbn [length]; lia.
    + done.
    + intros b Hb. apply Hp. by eapply Hkeep.
    + intros Heq b Hb. destruct ok; cbn [length] in Heq; [|lia].
      apply elem_of_cons in Hb as [->|Hb]; [apply Hp; by eapply Hack|apply Hall; [lia|done]].
Qed.
End DurableCommit.

(** ** The cluster *)

Section Cluster.
Context `{C : Crypto} `{S : Serde}.
(** The text of a ledger error. *)
Context (error_text : AppendError -> string).
(** What each voter's repair fetches, and whether its reply to a push arrives. *)
Context (replies : string -> list (result (list CommitRecord) string))
        (reply_arrives : string -> CommitRecord -> bool).

(** A voter: its node and its consensus term. *)
Record Voter : Type := mkVoter {
  v_node : Node;
  v_term : TermState;
}.

(** The coordinator and the voters its addresses reach. *)
Record World : Type := mkWorld {
  local : Node;
  voters_at : gmap string Voter;
}.

(** [repair_commit_gap]: each candidate's reply, in turn, until nothing is missing; what
    is kept of a reply goes through the batch intake, highest sequence number first. *)
Fixpoint repair_commit_gap (n : Node) (now : N) (c : string) (remaining : list N)
  (replies : list (result (list CommitRecord) string)) : Node :=
  match replies with
  | [] => n
  | reply :: replies' =>
      match remaining with
      | [] => n
      | _ =>
          match reply with
          | Err _ => repair_commit_gap n now c remaining replies'
          | Ok fetched =>
              let eligible :=
                List.filter (fun r => bool_decide (coordinator r = c) && bool_decide (seq r ∈ remaining)
                                      && verify (keys n) now r && member_coordinator_known_at n r)
                  (sort_by_key (fun r => u64_max - seq r) fetched) in
              let '(outcomes, n') := append_many_to true n now eligible in
              let filled := (fun ro => seq ro.1) <$>
                List.filter (fun ro => negb (bool_decide (ro.2 = Refused))) (zip eligible outcomes) in
              repair_commit_gap n' now c
                (List.filter (fun s => negb (bool_decide (s ∈ filled))) remaining) replies'
          end
      end
  end.

(** The [commit_record] tool: whether it accepts, and the voter after. *)
Definition commit_record_tool (v : Voter) (now : N) (r : CommitRecord)
  (replies : list (result (list CommitRecord) string)) : bool * Voter :=
  let n := v_node v in
  if negb (verify (keys n) now r) then (false, v)
  else if negb (member_coordinator_known_at n r) then (false, v)
  else
    let '(verdict, st) :=
      if coordinator_known_at n r then check_term true (v_term v) now r else (VCurrent, v_term v) in
    match verdict with
    | Stale => (false, mkVoter n st)
    | _ =>
        let missing :=
          missing_seqs_floored (ledger n) (coordinator r) (seq r) (snapshot_floor_at n (coordinator r)) in
        match append_to true n now r with
        | (Err _, n') => (false, mkVoter n' st)
        | (Ok _, n') =>
            (true, mkVoter (match missing with
                            | [] => n'
                            | _ => repair_commit_gap n' now (coordinator r) missing replies
                            end) st)
        end
    end.

Definition seal_here (term_ : N) (now : N) (i : CommitInput) (w : World) : option CommitRecord * World :=
  (CommitRecord.seal (mkSealer (keys (local w)) (node_key (local w)) (ledger (local w)) term_ now) i, w).

Definition append_here (now : N) (r : CommitRecord) (w : World) : result unit string * World :=
  let '(res, n) := append_to true (local w) now r in
  (match res with Ok _ => Ok tt | Err e => Err (error_text e) end, mkWorld n (voters_at w)).

(** A push: not acknowledged when nobody answers at the address or the reply is lost. *)
Definition push_to (now : N) (addr : string) (r : CommitRecord) (w : World) : bool * World :=
  match voters_at w !! addr with
  | None => (false, w)
  | Some v =>
      let '(accepted, v') := commit_record_tool v now r (replies addr) in
      (accepted && reply_arrives addr r, mkWorld (local w) (<[addr := v']> (voters_at w)))
  end.

(** A node holds a record, in its ledger or, once compacted, in its archive. *)
Definition holds (r : CommitRecord) (n : Node) : Prop := In r (ledger n) \/ In r (archive n).

Lemma apply_member_delta_archive n r : archive (apply_member_delta n r) = archive n.
Proof.
  unfold apply_member_delta. destruct (member_delta r) as [[[k id] addr]|]; [|done].
  repeat case_bool_decide; simpl; try done; destruct (is_looped addr); try done;
    destruct (peers n), (banned n); try done;
    by destruct (apply_rows _ _ _ _ _ _ _).
Qed.

Lemma apply_rekey_archive n now r : archive (apply_rekey n now r) = archive n.
Proof. unfold apply_rekey. case_bool_decide; [|done]. by destruct (rekey_fingerprint r). Qed.

Lemma append_checked_keeps n now held r h : holds h n -> holds h (append_checked n now held r).1.2.
Proof.
  intros Hh. pose proof (append_checked_cases n now held r) as Hc.
  assert (Ha : archive (append_checked n now held r).1.2 = archive n).
  { unfold append_checked. destruct (intake_gates _ _ _ _) as [[|]|]; [|done|done]. cbn [fst snd].
    rewrite apply_rekey_archive. destruct (member_delta r); [|done]. by rewrite apply_member_delta_archive. }
  destruct (append_checked n now held r) as [[res n'] held']. cbn [fst snd] in *. unfold holds in *. rewrite Ha.
  destruct Hc as [(_ & _ & -> & _)|(_ & -> & _)]; [|done].
  destruct Hh as [Hh|Hh]; [left; apply in_app_iff; by left|by right].
Qed.

Lemma append_archive n now r res n' : append_to true n now r = (res, n') -> archive n' = archive n.
Proof.
  unfold append_to, append_checked. cbn [negb]. destruct (intake_gates _ _ _ _) as [[|]|]; intros [= _ <-]; [|done|done].
  rewrite apply_rekey_archive. destruct (member_delta r); [|done]. by rewrite apply_member_delta_archive.
Qed.

(** Intake never takes a record away, one by one, in a batch or in a repair. *)
Lemma append_keeps n now r res n' h : append_to true n now r = (res, n') -> holds h n -> holds h n'.
Proof.
  intros Ha Hh. apply (append_checked_keeps n now (ledger n) r) in Hh. unfold append_to in Ha. cbn [negb] in Ha.
  destruct (append_checked n now (ledger n) r) as [[res0 n1] held1]. destruct res0; by injection Ha as _ <-.
Qed.

Lemma append_batch_keeps n now held rs h : holds h n -> holds h (append_batch n now held rs).1.2.
Proof.
  revert n held. induction rs as [|r rs IH]; intros n held Hh; [done|]. cbn [append_batch].
  apply (append_checked_keeps n now held r) in Hh.
  destruct (append_checked n now held r) as [[res n1] held1]. specialize (IH n1 held1 Hh).
  by destruct (append_batch n1 now held1 rs) as [[outs n2] held2].
Qed.

Lemma append_many_keeps n now rs outs n' h :
  append_many_to true n now rs = (outs, n') -> holds h n -> holds h n'.
Proof.
  unfold append_many_to. cbn [negb]. intros H Hh. apply (append_batch_keeps n now (ledger n) rs) in Hh.
  destruct (append_batch n now (ledger n) rs) as [[o n1] held]. by injection H as _ <-.
Qed.

Lemma repair_keeps n now c rem rs h : holds h n -> holds h (repair_commit_gap n now c rem rs).
Proof.
  revert n rem. induction rs as [|[fetched|e] rs IH]; intros n rem Hh; [done| |]; cbn [repair_commit_gap];
    (destruct rem as [|s rem]; [done|]); [|by apply IH].
  destruct (append_many_to true n now _) as [outs n'] eqn:Ha. apply IH. by eapply append_many_keeps.
Qed.

(** A success means the node holds the record. *)
Lemma append_holds n now r n' : append_to true n now r = (Ok tt, n') -> holds r n'.
Proof.
  intros Ha. unfold holds. rewrite (append_archive _ _ _ _ _ Ha). revert Ha.
  unfold append_to, append_checked. cbn [negb]. destruct (intake_gates n now (ledger n) r) as [[|]|] eqn:Hg; [| |done].
  - intros [= <-]. left. rewrite apply_rekey_ledger. destruct (member_delta r); rewrite ?apply_member_delta_ledger;
      apply in_app_iff; right; by left.
  - intros [= <-]. unfold intake_gates in Hg. destruct (already_held (ledger n) r) as [[|]|] eqn:Hh; [|done|].
    + left. unfold already_held in Hh. destruct (0 <? seq r).
      * destruct (List.find _ _) as [h|] eqn:Hf; [|done]. injection Hh as Hh. apply bool_decide_eq_true in Hh as ->.
        by apply find_Some_In in Hf as [? _].
      * destruct (existsb _ _) eqn:He; [|done]. apply existsb_exists in He as (h & Hin & Heq). bool_to_prop. by subst.
    + right. destruct (below_floor n r) as [[|]|] eqn:Hb; [|done|by repeat case_match].
      unfold below_floor in Hb. destruct (_ && _); [|done]. unfold find_in_archive in Hb.
      destruct (List.find _ _) as [h|] eqn:Hf; [|done]. injection Hb as Hb. apply bool_decide_eq_true in Hb as ->.
      by apply find_Some_In in Hf as [? _].
Qed.

Lemma commit_record_tool_facts v now r rs ok v' : commit_record_tool v now r rs = (ok, v') ->
  (ok = true -> holds r (v_node v')) /\ forall h, holds h (v_node v) -> holds h (v_node v').
Proof.
  unfold commit_record_tool. intros H.
  destruct (negb (verify _ _ _)); [by injection H as <- <-|]. destruct (negb (member_coordinator_known_at _ _)); [by injection H as <- <-|].
  destruct (if coordinator_known_at (v_node v) r then _ else _) as [verdict st].
  destruct (append_to true (v_node v) now r) as [[[]|e] n'] eqn:Ha.
  - assert (Hall : forall h, holds h n' -> holds h (match missing_seqs_floored (ledger (v_node v)) (coordinator r) (seq r)
        (snapshot_floor_at (v_node v) (coordinator r)) with
      | [] => n' | _ => repair_commit_gap n' now (coordinator r)
          (missing_seqs_floored (ledger (v_node v)) (coordinator r) (seq r) (snapshot_floor_at (v_node v) (coordinator r))) rs end))
      by (intros h Hh; destruct (missing_seqs_floored _ _ _ _); [done|by apply repair_keeps]).
    destruct verdict; injection H as <- <-; cbn [v_node]; (split; [|intros h Hh]);
      try done; try (intros _; apply Hall; by eapply append_holds); apply Hall; by eapply append_keeps.
  - destruct verdict; injection H as <- <-; cbn [v_node]; (split; [done|intros h Hh]); try done; by eapply append_keeps.
Qed.

Definition voter_holds (addr : string) (r : CommitRecord) (w : World) : Prop :=
  exists v, voters_at w !! addr = Some v /\ holds r (v_node v).

Lemma push_facts now a r w ok w' : push_to now a r w = (ok, w') ->
  local w' = local w /\ (ok = true -> voter_holds a r w') /\
  forall b, voter_holds b r w -> voter_holds b r w'.
Proof.
  unfold push_to. destruct (voters_at w !! a) as [v|] eqn:Hv; [|by intros [= <- <-]].
  destruct (commit_record_tool v now r (replies a)) as [accepted v'] eqn:Ht. intros [= <- <-].
  destruct (commit_record_tool_facts _ _ _ _ _ _ Ht) as [Hok Hkeep]. split; [done|]. unfold voter_holds. cbn [voters_at].
  split.
  - intros [-> _]%andb_true_iff. exists v'. rewrite lookup_insert_eq. split; [done|by apply Hok].
  - intros b (x & Hx & Hh). destruct (decide (a = b)) as [<-|Hne].
    + exists v'. rewrite lookup_insert_eq. split; [done|]. apply Hkeep. congruence.
    + exists x. by rewrite lookup_insert_ne.
Qed.
End Cluster.

(** ** Properties *)

(** C15. A reported quorum commit is everywhere it is promised.  When the commit boundary
    that requires acknowledgements reports a decision durable, the record is the one the
    coordinator sealed, and both the coordinator and every dispatched voter hold it after
    the run, whatever the voters held before, however often one was dispatched, whatever
    repairs fetched and whichever replies were lost. *)
Theorem reported_commit_is_replicated `{C : Crypto} `{S : Serde} error_text replies reply_arrives term_ now i voters w r acked n w' :
  durable_commit_requiring_acks (seal_here term_ now i) (append_here error_text now) (push_to replies reply_arrives now) voters w
    = (Durable r acked n, w') ->
  (seal_here term_ now i w).1 = Some r /\ acked = length voters /\ n = length voters /\
  holds r (local w') /\ forall a, a ∈ voters -> voter_holds a r w'.
Proof.
  unfold durable_commit_requiring_acks, durable_commit. intros H.
  destruct (seal_here term_ now i w) as [[r0|] w0] eqn:Hs; [|done].
  destruct (append_here error_text now r0 w0) as [[u|e] w1] eqn:Ha; [|done].
  destruct (replicate_to (push_to replies reply_arrives now) voters r0 w1) as [m w2] eqn:Hr.
  destruct (Nat.ltb_spec m (length voters)) as [|Hge]; [done|]. injection H as <- <- <- <-.
  assert (Hq : holds r0 (local w1)).
  { unfold append_here in Ha. destruct (append_to true (local w0) now r0) as [[[]|] n1] eqn:Hat; [|done].
    injection Ha as _ <-. by eapply append_holds. }
  destruct (replicate_all (push_to replies reply_arrives now) voter_holds (fun r w => holds r (local w)) voters r0 w1 m w2) as (Hle & Hloc & _ & Hall);
    [| | |done|done|].
  - intros a v v' Hp. by apply push_facts in Hp as (_ & ? & _); auto.
  - intros a b ok v v' Hp. by apply push_facts in Hp as (_ & _ & ?); auto.
  - intros a ok v v' Hp. by apply push_facts in Hp as (-> & _ & _).
  - split; [done|]. assert (m = length voters) by lia. repeat split; try done. by apply Hall.
Qed.

(** Without a durable append nothing is replicated: when sealing or the local append
    fails the voters' nodes are untouched and no commit is reported. *)
Theorem no_append_no_replication `{C : Crypto} `{S : Serde} error_text replies reply_arrives term_ now i voters w :
  (forall r, (seal_here term_ now i w).1 = Some r -> (append_to true (local w) now r).1 <> Ok tt) ->
  let '(d, w') := durable_commit (seal_here term_ now i) (append_here error_text now) (push_to replies reply_arrives now) voters w in
  is_committed d = false /\ voters_at w' = voters_at w.
Proof.
  intros H. unfold durable_commit. destruct (seal_here term_ now i w) as [[r|] w0] eqn:Hs; [|by injection Hs as _ <-].
  assert (w0 = w) as -> by (by injection Hs). specialize (H r eq_refl). unfold append_here.
  destruct (append_to true (local w) now r) as [[[]|e] n]; [done|by split].
Qed.

(** ** Examples *)

Module Scene.
#[local] Existing Instances Toy.crypto Toy.laws Sample.serde.
(** The coordinator of the ledger's examples and one replica of it. *)
Definition w0 : World := mkWorld Cluster.n1 {[ "v1" := mkVoter Cluster.n1 TermState_default ]}.
Definition show (_ : AppendError) : string := "refused".
(** A node with no cluster key. *)
Definition keyless : Node :=
  mkNode [] [] None (Some []) (Some []) None (mkKeyStore KAbsent KAbsent None KAbsent None) "n1" (Some (Cluster.seed 9)).
End Scene.

#[local] Existing Instances Toy.crypto Toy.laws Sample.serde.
#[local] Notation scene voters :=
  (durable_commit_requiring_acks (seal_here 1 100 (Sample.input "yes")) (append_here Scene.show 100)
     (push_to (fun _ => []) (fun _ _ => true) 100) voters Scene.w0).

Lemma reported_commit_is_replicated_witness :
  is_committed (scene ["v1"; "v1"]).1 = true /\
  voter_holds "v1" Sample.first (scene ["v1"; "v1"]).2.
Proof.
  assert (Hrun : (scene ["v1"; "v1"]).1 = Durable Sample.first 2 2) by (by vm_compute).
  split; [by rewrite Hrun|]. destruct (scene ["v1"; "v1"]) as [d w'] eqn:H. cbn [fst snd] in *. subst d.
  destruct (reported_commit_is_replicated Scene.show (fun _ => []) (fun _ _ => true) 1 100 (Sample.input "yes") ["v1"; "v1"] Scene.w0
    Sample.first 2 2 w' H) as (_ & _ & _ & _ & Hall).
  apply Hall. by left.
Defined.

(** With a voter nobody answers for, the decision is not reported, though it stays in the
    coordinator's ledger. *)
Lemma missing_ack_is_undurable :
  is_committed (scene ["v1"; "v2"]).1 = false /\ holds Sample.first (local (scene ["v1"; "v2"]).2).
Proof. split; [by vm_compute|]. left. vm_compute. by left. Qed.

Lemma no_append_no_replication_witness :
  let w := mkWorld Scene.keyless {[ "v1" := mkVoter Cluster.n1 TermState_default ]} in
  let '(d, w') := durable_commit (seal_here 1 100 (Sample.input "yes")) (append_here Scene.show 100) (push_to (fun _ => []) (fun _ _ => true) 100) ["v1"] w in
  is_committed d = false /\ voters_at w' = voters_at w.
Proof.
  intros w. apply (no_append_no_replication Scene.show (fun _ => []) (fun _ _ => true) 1 100 (Sample.input "yes") ["v1"] w).
  intros r Hr. assert (Hnone : cluster_key (keys Scene.keyless) = None) by reflexivity.
  unfold seal_here, CommitRecord.seal in Hr. cbn [w local s_keys fst] in Hr. by rewrite Hnone in Hr.
Defined.
