(* ===== verification/Scheduler.v ===== *)
(** * Scheduler: tasks and missions ([crates/susi-harness/src/scheduler.rs])

    [run_task] drives one task's ladder against the mission's budget guard; [MissionStep]
    is the pool of worker threads that share the task queue.  The runner (the agent
    process and the gateway it calls) is an argument: it is given the turn's
    configuration and the world, and returns the turn's outcome, its duration and the
    world at its end, in which the gateway may have added ledger rows and the other
    workers may have moved the guard. *)

From S2P Require Import Prelude Text Money SpendLedger Budget Policy.
From Stdlib Require Import Ascii.

Local Open Scope string_scope.
Local Open Scope list_scope.
Local Open Scope N_scope.

(** ** Data *)

Record TaskSpec : Type := mkTaskSpec {
  t_id : string;
  t_prompt : string;
  t_workspace : string;
}.

Inductive TaskStop : Type :=
| StopBudget
| StopLadder (r : StopReason).

Record MissionConfig : Type := mkMission {
  m_id : string;
  m_tasks : list TaskSpec;
  m_candidates : list string;
  m_max_parallel : N;
  m_budget : option Budget;
  m_policy : Policy;
  m_usage : UsageProfile;
  m_catalogue : option PriceCatalogue;
}.

Inductive AttemptOutcome : Type :=
| Succeeded (final_text : string)
| Failed (message : string)
| TimedOut
| OutcomeError (message : string)
| Skipped (reason : string).

Record AttemptResult : Type := mkResult {
  r_model : string;
  r_outcome : AttemptOutcome;
  r_elapsed_ms : N;
  r_estimate : option N;
}.

Record TaskResult : Type := mkTaskResult {
  tr_task : string;
  tr_attempts : list AttemptResult;
  tr_succeeded : bool;
  tr_stopped : option TaskStop;
}.

#[export] Instance TaskStop_eq_dec : EqDecision TaskStop.
Proof. solve_decision. Defined.
#[export] Instance AttemptOutcome_eq_dec : EqDecision AttemptOutcome.
Proof. solve_decision. Defined.

(** [TaskResult::final_text]: the last success in the list. *)
Definition final_text (r : TaskResult) : option string :=
  head (omap (fun a => match r_outcome a with Succeeded t => Some t | _ => None end)
             (rev (tr_attempts r))).

Definition budget_stopped (r : TaskResult) : bool := bool_decide (tr_stopped r = Some StopBudget).

(** The events the scheduler emits; [at_unix_ms] is left out. *)
Inductive EventKind : Type :=
| MissionStarted | MissionFinished | BudgetWarning | BudgetExhausted
| TaskDispatched | TaskFinished | ModelEscalated.

Record Event : Type := mkEvent {
  ev_seq : N;
  ev_mission : string;
  ev_task : option string;
  ev_kind : EventKind;
  ev_summary : string;
}.

(** The turn handed to the runner: what the scheduler chooses of [ExecutorConfig]. *)
Record ExecutorConfig : Type := mkExec {
  x_model : string;
  x_workspace : string;
  x_mission : string;
  x_task : string;
  x_attempt : N;
  x_prompt : string;
}.

(** [RunOutcome], an error of the runner, or its panic with the text of the payload
    when that is a string. *)
Inductive RunReturn : Type :=
| RunSucceeded (final_text : string)
| RunFailed (message : string)
| RunTimedOut
| RunError (message : string)
| RunPanicked (payload : option string).

(** What the workers of a mission share: the readable ledger rows, the guard's state,
    the [warned] flag and the event feed. *)
Record World : Type := mkWorld {
  w_rows : list LedgerEntry;
  w_guard : GuardState;
  w_warned : bool;
  w_events : list Event;
}.

Definition set_guard (w : World) (g : GuardState) : World :=
  mkWorld (w_rows w) g (w_warned w) (w_events w).
Definition set_warned (w : World) : World := mkWorld (w_rows w) (w_guard w) true (w_events w).

(** [EventSink::emit]: the counter is one more than the events before. *)
Definition emit (w : World) (kind : EventKind) (mission : string) (task : option string)
  (summary : string) : World :=
  mkWorld (w_rows w) (w_guard w) (w_warned w)
    (w_events w ++ [mkEvent (N.of_nat (length (w_events w)) + 1) mission task kind summary]).

Definition describe (o : AttemptOutcome) : string :=
  match o with
  | Succeeded _ => "succeeded" | Failed _ => "failed" | TimedOut => "timed out"
  | OutcomeError _ => "executor error" | Skipped _ => "skipped (budget)"
  end.

Definition panic_payload_message (payload : option string) : string :=
  default "unknown panic payload"%string payload.

(** ** One task *)

Section RunTask.
Context (aliases : gmap string string) (config : MissionConfig)
        (runner : ExecutorConfig -> World -> RunReturn * N * World)
        (task : TaskSpec).

(** The estimate of a turn on [model]: only with a budget and a price. *)
Definition estimate_for (model : string) : option N :=
  match m_budget config, m_catalogue config ≫= fun c => price aliases c model with
  | Some b, Some p => Some (Budget.estimate b p (N.of_nat (String.length (t_prompt task))))
  | _, _ => None
  end.

(** Reserving before a turn: [Err] when the budget refuses it. *)
Definition reserve_turn (w : World) (estimate : option N) : result (option N) Admission * World :=
  match m_budget config, estimate with
  | Some b, Some est =>
      let spent := Budget.spent (w_rows w) (m_id config) in
      match BudgetGuard.reserve b (w_guard w) spent est with
      | (Ok e, g) => (Ok (Some e), set_guard w g)
      | (Err (Exhausted s e l), g) => (Err (Exhausted s e l), set_guard w g)
      | (Err Allowed, g) => (Ok None, set_guard w g)
      end
  | _, _ => (Ok None, w)
  end.

(** The closure under [catch_unwind]: a runner that returns settles the reservation and
    may warn once; one that panics drops it. *)
Definition run_turn (cfg : ExecutorConfig) (reservation : option N) (w : World)
  : RunReturn * N * World :=
  let '(ret, elapsed, w) := runner cfg w in
  match reservation, m_budget config with
  | Some est, Some b =>
      match ret with
      | RunPanicked _ => (ret, elapsed, set_guard w (BudgetGuard.release_unsettled (w_guard w) est))
      | _ =>
          let spent := Budget.spent (w_rows w) (m_id config) in
          let w := set_guard w (BudgetGuard.settle (w_guard w) spent est) in
          let w :=
            if Budget.at_risk b spent then
              if w_warned w then w
              else emit (set_warned w) BudgetWarning (m_id config) None
                     ("spent " +:+ usd (total spent) +:+ " of " +:+ usd (limit b) +:+
                      "; attempts stop when the next one would cross the cap")
            else w in
          (ret, elapsed, w)
      end
  | _, _ => (ret, elapsed, w)
  end.

(** How the attempt is reported, and what the ladder records of a failure. *)
Definition outcome_of_return (ret : RunReturn) : AttemptOutcome * option (FailureKind * string) :=
  match ret with
  | RunSucceeded t => (Succeeded t, None)
  | RunFailed m => (Failed m, Some (classify m, m))
  | RunTimedOut => (TimedOut, Some (KTimeout, "timed out"%string))
  | RunError m => (OutcomeError m, Some (Executor, m))
  | RunPanicked p =>
      let m := ("runner panicked: " +:+ panic_payload_message p)%string in
      (OutcomeError m, Some (Executor, m))
  end.

Definition exec_config (a : Attempt) : ExecutorConfig :=
  mkExec (a_model a) (t_workspace task) (m_id config) (t_id task) (a_number a) (t_prompt task).

Definition dispatch_summary (a : Attempt) (estimate : option N) : string :=
  t_id task +:+ " -> " +:+ a_model a +:+ " (attempt " +:+ dec (a_number a) +:+ ")" +:+
  match estimate with Some e => ", reserved " +:+ usd e | None => EmptyString end.

(** After a failure: the model the ladder turns to is announced when it is another one. *)
Definition announce_escalation (w : World) (l : Ladder) (a : Attempt) : World :=
  match Ladder.current_model l with
  | Some next =>
      if bool_decide (next <> a_model a) then
        emit w ModelEscalated (m_id config) (Some (t_id task))
          (t_id task +:+ ": " +:+ a_model a +:+ " did not pass, escalating to " +:+ next)
      else w
  | None => w
  end.

(** The loop of [run_task]. *)
Fixpoint task_loop (fuel : nat) (l : Ladder) (attempts : list AttemptResult) (w : World)
  : option (TaskResult * World) :=
  match fuel with
  | O => None
  | S fuel =>
      match Ladder.next_attempt l with
      | (Stop reason, _) =>
          Some (mkTaskResult (t_id task) attempts false (Some (StopLadder reason)), w)
      | (DoAttempt a, l) =>
          let estimate := estimate_for (a_model a) in
          match reserve_turn w estimate with
          | (Err adm, w) =>
              let '(sp, want, lim) :=
                match adm with Exhausted s e l => (s, e, l) | Allowed => (0, 0, 0) end in
              let w := emit w BudgetExhausted (m_id config) (Some (t_id task))
                         (t_id task +:+ " not dispatched: " +:+ usd want +:+ " would cross "
                          +:+ usd lim +:+ " (spent " +:+ usd sp +:+ ")") in
              let skipped := mkResult (a_model a)
                (Skipped ("budget: spent " +:+ usd sp +:+ " of " +:+ usd lim)) 0 estimate in
              Some (mkTaskResult (t_id task) (attempts ++ [skipped]) false (Some StopBudget), w)
          | (Ok reservation, w) =>
              let w := emit w TaskDispatched (m_id config) (Some (t_id task))
                         (dispatch_summary a estimate) in
              let '(ret, elapsed, w) := run_turn (exec_config a) reservation w in
              let '(outcome, failure) := outcome_of_return ret in
              let w := emit w TaskFinished (m_id config) (Some (t_id task))
                         (t_id task +:+ " attempt " +:+ dec (a_number a) +:+ ": " +:+ describe outcome) in
              let attempts := attempts ++ [mkResult (a_model a) outcome elapsed estimate] in
              match failure with
              | None => Some (mkTaskResult (t_id task) attempts true None, w)
              | Some (kind, message) =>
                  let l := Ladder.record l (a_model a) kind message in
                  task_loop fuel l attempts (announce_escalation w l a)
              end
          end
      end
  end.

(** [run_task]: the ladder hands out at most [max_attempts] attempts, so one iteration
    more is enough. *)
Definition run_task (ranked : list string) (w : World) : option (TaskResult * World) :=
  task_loop (S (N.to_nat (max_attempts (m_policy config)))) (Ladder.new ranked (m_policy config)) [] w.
End RunTask.

(** ** What a task's run leaves *)

Definition failed_attempt (a : AttemptResult) : Prop :=
  match r_outcome a with Succeeded _ | Skipped _ => False | _ => True end.

(** How a run ends: every attempt but the last failed; the last one succeeded, or was
    refused by the budget, or failed too and the ladder stopped. *)
Inductive task_ends (r : TaskResult) : Prop :=
| ends_ladder reason : Forall failed_attempt (tr_attempts r) ->
    tr_succeeded r = false -> tr_stopped r = Some (StopLadder reason) -> task_ends r
| ends_success fs a t : Forall failed_attempt fs -> tr_attempts r = fs ++ [a] ->
    r_outcome a = Succeeded t -> tr_succeeded r = true -> tr_stopped r = None -> task_ends r
| ends_budget fs a why : Forall failed_attempt fs -> tr_attempts r = fs ++ [a] ->
    r_outcome a = Skipped why -> tr_succeeded r = false -> tr_stopped r = Some StopBudget -> task_ends r.

(** [record] leaves the ladder's models, policy and count alone. *)
Lemma record_frame l model kind msg :
  ranked (Ladder.record l model kind msg) = ranked l /\
  policy (Ladder.record l model kind msg) = policy l /\
  used (Ladder.record l model kind msg) = used l.
Proof.
  unfold Ladder.record, Ladder.retry_or_move, Ladder.set_signatures, Ladder.set_stuck.
  destruct kind; repeat case_match; done.
Qed.

Section TaskFacts.
Context (aliases : gmap string string) (config : MissionConfig) (task : TaskSpec).

Notation loop runner := (task_loop aliases config runner task).

(** A property of the final result that every ending of one iteration has, and that
    survives a failed attempt, holds of the loop's result. *)
Record loop_inv (models : list string) (l : Ladder) (attempts : list AttemptResult) : Prop := {
  li_ranked : ranked l = models;
  li_policy : policy l = m_policy config;
  li_used : N.of_nat (length attempts) <= used l <= max_attempts (policy l);
  li_failed : Forall failed_attempt attempts;
  li_models : Forall (fun a => r_model a ∈ models) attempts;
}.

Definition result_ok (models : list string) (r : TaskResult) : Prop :=
  tr_task r = t_id task /\ task_ends r /\
  N.of_nat (length (tr_attempts r)) <= max_attempts (m_policy config) /\
  Forall (fun a => r_model a ∈ models) (tr_attempts r).

(** One more attempt: the ladder's count covers it. *)
Lemma loop_inv_next models l attempts a l1 : loop_inv models l attempts ->
  max_attempts (m_policy config) <= u64_max -> Ladder.next_attempt l = (DoAttempt a, l1) ->
  ranked l1 = models /\ policy l1 = m_policy config /\ used l1 = used l + 1 /\
  used l1 <= max_attempts (m_policy config) /\ a_model a ∈ models.
Proof.
  intros [Hr Hp Hu _ _] Hmax Hn. destruct (next_attempt_DoAttempt _ _ _ Hn) as (_ & Hlt & Hm & ->).
  cbn [ranked policy used]. rewrite Hp in *. rewrite saturating_add_exact by lia.
  repeat split; try done; [lia|]. rewrite <- Hr. by eapply list_elem_of_lookup_2.
Qed.

Lemma outcome_failure ret o f : outcome_of_return ret = (o, f) ->
  match f with
  | None => exists t, o = Succeeded t
  | Some _ => match o with Succeeded _ | Skipped _ => False | _ => True end
  end.
Proof. destruct ret; intros [= <- <-]; simpl; eauto. Qed.

Lemma task_loop_ok models runner fuel l attempts w :
  max_attempts (m_policy config) <= u64_max -> loop_inv models l attempts ->
  max_attempts (m_policy config) - used l < N.of_nat fuel ->
  exists r w', loop runner fuel l attempts w = Some (r, w') /\ result_ok models r.
Proof.
  intros Hmax. revert l attempts w. induction fuel as [|fuel IH]; intros l attempts w Hinv Hf; [lia|].
  cbn [task_loop]. destruct (Ladder.next_attempt l) as [[a|reason] l1] eqn:Hn.
  2: { destruct Hinv as [_ Hp Hu Hfl Hm]. rewrite Hp in Hu. do 2 eexists. split; [reflexivity|].
       split; [done|]. split; [by eapply ends_ladder|]. simpl. split; [lia|done]. }
  destruct (loop_inv_next _ _ _ _ _ Hinv Hmax Hn) as (Hr1 & Hp1 & Hu1 & Hle & Ham).
  destruct Hinv as [Hr Hp Hu Hfl Hm].
  assert (Hlen : forall x : AttemptResult, N.of_nat (length (attempts ++ [x])) <= used l1)
    by (intros x; rewrite length_app, Hu1; cbn [length]; lia).
  assert (Hmod : forall x, r_model x = a_model a ->
            Forall (fun y => r_model y ∈ models) (attempts ++ [x])).
  { intros x Hx. apply Forall_app. split; [done|]. repeat constructor. by rewrite Hx. }
  destruct (reserve_turn config w _) as [[res|adm] w1].
  - destruct (run_turn config runner (exec_config config task a) res _) as [[ret el] w2].
    destruct (outcome_of_return ret) as [o [[k msg]|]] eqn:Ho; pose proof (outcome_failure _ _ _ Ho) as Hout.
    + destruct (record_frame l1 (a_model a) k msg) as (Fr & Fp & Fu). apply IH.
      * split; rewrite ?Fr, ?Fp, ?Fu, ?Hp1; [done|done| | |by apply Hmod].
        -- specialize (Hlen (mkResult (a_model a) o el (estimate_for aliases config task (a_model a)))). lia.
        -- apply Forall_app. split; [done|]. repeat constructor. unfold failed_attempt. simpl. by destruct o.
      * rewrite Fu. lia.
    + destruct Hout as [t ->]. do 2 eexists. split; [reflexivity|]. split; [done|].
      split; [by eapply ends_success|]. cbn [tr_attempts]. split; [by etransitivity; [apply Hlen|]|by apply Hmod].
  - destruct (match adm with Allowed => _ | Exhausted _ _ _ => _ end) as [[sp want] lim].
    do 2 eexists. split; [reflexivity|]. split; [done|].
    split; [by eapply ends_budget|]. cbn [tr_attempts]. split; [by etransitivity; [apply Hlen|]|by apply Hmod].
Qed.

(** The guard a turn is dispatched under: when the turn is priced and the mission has a
    budget, its estimate is inside the reserved pool and the pool, with what is
    committed, inside the limit.  The turn itself is the task's, on a ranked model, with
    an attempt number within the cap. *)
Definition dispatchable (models : list string) (cfg : ExecutorConfig) (w : World) : Prop :=
  x_task cfg = t_id task /\ x_mission cfg = m_id config /\ x_prompt cfg = t_prompt task /\
  x_model cfg ∈ models /\ 1 <= x_attempt cfg <= max_attempts (m_policy config) /\
  match m_budget config, estimate_for aliases config task (x_model cfg) with
  | Some b, Some est =>
      est <= reserved (w_guard w) /\ committed (w_guard w) + reserved (w_guard w) <= limit b
  | _, _ => True
  end.

Lemma reserve_turn_admits w est res w1 :
  reserve_turn config w est = (Ok res, w1) ->
  match m_budget config, est with
  | Some b, Some e => res = Some e /\ e <= reserved (w_guard w1) /\
      committed (w_guard w1) + reserved (w_guard w1) <= limit b /\
      reserved (w_guard w1) = reserved (w_guard w) + e
  | _, _ => res = None /\ w1 = w
  end.
Proof.
  unfold reserve_turn. destruct (m_budget config) as [b|]; [|by intros [= <- <-]].
  destruct est as [e|]; [|by intros [= <- <-]].
  unfold BudgetGuard.reserve, BudgetGuard.admit_attempt, checked_add. intros H.
  repeat case_match; simplify_eq; cbn [set_guard w_guard committed reserved] in *; bool_to_prop.
  repeat match goal with H : (_ <=? _) = true |- _ => apply N.leb_le in H end.
  repeat split; lia.
Qed.

Lemma next_attempt_number l a l1 : Ladder.next_attempt l = (DoAttempt a, l1) ->
  used l < u64_max -> 1 <= a_number a <= used l + 1.
Proof.
  unfold Ladder.next_attempt. intros H Hu. destruct (stuck l); [done|].
  destruct (_ || _); [done|]. injection H as <- _. cbn [a_number].
  rewrite saturating_add_exact by lia. assert (1 <= u32_max) by done.
  destruct (N.leb_spec (used l + 1) u32_max); lia.
Qed.

(** Two runners that agree wherever a turn may be dispatched give the same run. *)
Lemma task_loop_ext models runner1 runner2 fuel l attempts w :
  (forall cfg v, dispatchable models cfg v -> runner1 cfg v = runner2 cfg v) ->
  max_attempts (m_policy config) <= u64_max -> loop_inv models l attempts ->
  loop runner1 fuel l attempts w = loop runner2 fuel l attempts w.
Proof.
  intros Hext Hmax. revert l attempts w. induction fuel as [|fuel IH]; intros l attempts w Hinv; [done|].
  cbn [task_loop]. destruct (Ladder.next_attempt l) as [[a|reason] l1] eqn:Hn; [|done].
  destruct (loop_inv_next _ _ _ _ _ Hinv Hmax Hn) as (Hr1 & Hp1 & Hu1 & Hle & Ham).
  destruct Hinv as [Hr Hp Hu Hfl Hm].
  destruct (reserve_turn config w _) as [[res|adm] w1] eqn:Hres; [|done].
  apply reserve_turn_admits in Hres.
  assert (Hrun : forall wd, w_guard wd = w_guard w1 ->
    run_turn config runner1 (exec_config config task a) res wd
    = run_turn config runner2 (exec_config config task a) res wd).
  { intros wd Hg. unfold run_turn. rewrite Hext; [done|].
    pose proof (next_attempt_number _ _ _ Hn ltac:(lia)) as Hnum.
    repeat split; try done; simpl; [lia|lia|].
    destruct (m_budget config); [|done]. destruct (estimate_for _ _ _ _); [|done].
    rewrite Hg. by destruct Hres as (_ & ? & ? & _). }
  rewrite Hrun by done.
  destruct (run_turn config runner2 (exec_config config task a) res _) as [[ret el] w2].
  destruct (outcome_of_return ret) as [o [[k msg]|]] eqn:Ho; [|done].
  pose proof (outcome_failure _ _ _ Ho) as Hout.
  destruct (record_frame l1 (a_model a) k msg) as (Fr & Fp & Fu). apply IH.
  split; rewrite ?Fr, ?Fp, ?Fu, ?Hp1; [done|done| | |].
  - rewrite length_app. cbn [length]. lia.
  - apply Forall_app. split; [done|]. repeat constructor. unfold failed_attempt. simpl. by destruct o.
  - apply Forall_app. split; [done|]. by repeat constructor.
Qed.

(** A run gives back what it reserved, as long as only it moves the pool. *)
Lemma run_turn_releases runner cfg res w ret el w' :
  (forall c v, reserved (w_guard (runner c v).2) = reserved (w_guard v)) ->
  match m_budget config with Some _ => True | None => res = None end ->
  default 0 res <= reserved (w_guard w) ->
  run_turn config runner cfg res w = (ret, el, w') ->
  reserved (w_guard w') = reserved (w_guard w) - default 0 res.
Proof.
  intros Hq Hb Hle. unfold run_turn. specialize (Hq cfg w).
  destruct (runner cfg w) as [[ret0 el0] w0]. cbn [snd] in Hq.
  destruct res as [est|]; cbn [default from_option id] in *.
  2: { intros [= <- <- <-]. lia. }
  destruct (m_budget config) as [b|]; [|done].
  assert (Hrel : BudgetGuard.release (reserved (w_guard w0)) est = reserved (w_guard w) - est).
  { unfold BudgetGuard.release, checked_sub. rewrite Hq. destruct (N.leb_spec est (reserved (w_guard w))); [done|lia]. }
  intros H. destruct ret0; repeat case_match; injection H as <- <- <-;
    cbn [set_guard set_warned emit w_guard reserved BudgetGuard.settle BudgetGuard.release_unsettled]; exact Hrel.
Qed.

Lemma task_loop_releases runner fuel l attempts w r w' :
  (forall c v, reserved (w_guard (runner c v).2) = reserved (w_guard v)) ->
  loop runner fuel l attempts w = Some (r, w') -> reserved (w_guard w') = reserved (w_guard w).
Proof.
  intros Hq. revert l attempts w. induction fuel as [|fuel IH]; intros l attempts w; [done|].
  cbn [task_loop]. destruct (Ladder.next_attempt l) as [[a|reason] l1]; [|by intros [= <- <-]].
  destruct (reserve_turn config w _) as [[res|adm] w1] eqn:Hres.
  - apply reserve_turn_admits in Hres.
    destruct (run_turn config runner _ res _) as [[ret el] w2] eqn:Hrun.
    assert (Hback : reserved (w_guard w2) = reserved (w_guard w)).
    { destruct (m_budget config) as [b|] eqn:Hb.
      - destruct (estimate_for _ _ _ _) as [e|].
        + destruct Hres as (-> & Hle & _ & Heq). apply run_turn_releases in Hrun; try done; [|by rewrite Hb].
          rewrite Hrun. simpl. lia.
        + destruct Hres as [-> ->]. apply run_turn_releases in Hrun; try done; [|by rewrite Hb|simpl; lia].
          rewrite Hrun. simpl. lia.
      - destruct Hres as [-> ->]. apply run_turn_releases in Hrun; try done; [|by rewrite Hb|simpl; lia].
        rewrite Hrun. simpl. lia. }
    destruct (outcome_of_return ret) as [o [[k msg]|]].
    + intros H. apply IH in H. rewrite H. unfold announce_escalation.
      repeat case_match; exact Hback.
    + intros [= <- <-]. exact Hback.
  - destruct (match adm with Allowed => _ | Exhausted _ _ _ => _ end) as [[sp want] lim].
    intros [= <- <-]. cbn [emit w_guard]. revert Hres. unfold reserve_turn.
    destruct (m_budget config) as [b|]; [|done]. destruct (estimate_for _ _ _ _) as [e|]; [|done].
    unfold BudgetGuard.reserve, BudgetGuard.admit_attempt. intros H.
    repeat case_match; simplify_eq; done.
Qed.
End TaskFacts.

(** ** A mission *)

(** [run_mission] before any task runs: the ranking, or why there is none.
    [state_dir] is whether the state directory can be created. *)
Definition plan_mission (aliases : gmap string string) (config : MissionConfig)
  (rows : list LedgerEntry) (state_dir : result unit string) : result (list string) string :=
  if match m_budget config, m_catalogue config with Some _, None => true | _, _ => false end then
    Err "a mission budget needs a price catalogue: an unpriced attempt cannot be bounded"%string
  else
    match
      match m_catalogue config with
      | Some c =>
          match rank_models aliases c (m_usage config) (history rows) (m_candidates config) with
          | Ok l => Ok (c_model <$> l)
          | Err e => Err e
          end
      | None => Ok (m_candidates config)
      end
    with
    | Err e => Err e
    | Ok [] => Err "a mission needs at least one candidate model"%string
    | Ok ranked => match state_dir with Ok _ => Ok ranked | Err e => Err e end
    end.

(** The result a worker reports for a task whose [run_task] panicked. *)
Definition panicked_task (ranked : list string) (task : TaskSpec) (payload : option string) : TaskResult :=
  mkTaskResult (t_id task)
    [mkResult (default EmptyString (head ranked))
       (OutcomeError ("runner panicked: " +:+ panic_payload_message payload)) 0 None] false None.

Inductive WorkerPhase : Type :=
| WFree
| WBusy (t : TaskSpec)
| WExited.

Record Pool : Type := mkPool {
  p_queue : list TaskSpec;
  p_workers : list WorkerPhase;
  p_done : list TaskResult;
}.

Record MissionReport : Type := mkReport {
  mr_mission : string;
  mr_results : list TaskResult;
  mr_succeeded : nat;
  mr_failed : nat;
  mr_total_cost : N;
  mr_budget_limit : option N;
  mr_budget_exhausted : bool;
  mr_stuck : nat;
}.

Definition task_le (a b : TaskResult) : Prop := String.le (tr_task a) (tr_task b).
#[export] Instance task_le_dec : RelDecision task_le.
Proof. intros a b. unfold task_le. apply _. Defined.
#[export] Instance task_le_total : Total task_le.
Proof. intros a b. apply (base.total String.le). Qed.

Definition is_ladder_stop (r : TaskResult) : bool :=
  match tr_stopped r with Some (StopLadder _) => true | _ => false end.

(** [mission_cost]. *)
Definition mission_cost (rows : list LedgerEntry) (mission : string) : N :=
  fold_left (fun sum e => match checked_add sum (e_cost e) with Some s => s | None => u64_max end)
    (List.filter (fun e => bool_decide (e_mission e = mission)) rows) MicroUsd.ZERO.

(** [run_mission] once the workers have ended. *)
Definition mission_report (config : MissionConfig) (results : list TaskResult) (rows : list LedgerEntry)
  : MissionReport :=
  let results := merge_sort task_le results in
  let succeeded := length (List.filter tr_succeeded results) in
  mkReport (m_id config) results succeeded (length results - succeeded)
    (mission_cost rows (m_id config)) (limit <$> m_budget config)
    (existsb budget_stopped results) (length (List.filter is_ladder_stop results)).

(** The first and the last event of a mission. *)
Definition announce_start (config : MissionConfig) (ranked : list string) (w : World) : World :=
  emit w MissionStarted (m_id config) None
    (dec (N.of_nat (length (m_tasks config))) +:+ " task(s), " +:+ dec (m_max_parallel config) +:+
     " parallel, ladder " +:+ Stdlib.Strings.String.concat " -> " ranked +:+ "; " +:+
     match m_budget config with
     | Some b => "budget " +:+ usd (limit b)
     | None => "no budget cap"
     end).

Definition announce_finish (config : MissionConfig) (rep : MissionReport) (w : World) : World :=
  emit w MissionFinished (m_id config) None
    (dec (N.of_nat (mr_succeeded rep)) +:+ " succeeded, " +:+ dec (N.of_nat (mr_failed rep)) +:+ " failed").

Section Mission.
Context (aliases : gmap string string) (config : MissionConfig)
        (runner : ExecutorConfig -> World -> RunReturn * N * World) (ranked : list string).

(** What a worker may report for a task: the run in whatever world it found, or the
    panic it caught. *)
Definition task_outcome (t : TaskSpec) (r : TaskResult) : Prop :=
  (exists w w', run_task aliases config runner t ranked w = Some (r, w')) \/
  (exists payload, r = panicked_task ranked t payload).

Definition mission_workers : nat :=
  N.to_nat (N.max 1 (N.min (m_max_parallel config) (N.max 1 (N.of_nat (length (m_tasks config)))))).

Definition mission_start : Pool := mkPool (m_tasks config) (replicate mission_workers WFree) [].

(** One iteration of a worker's loop, in its two halves, and its end. *)
Inductive MissionStep : Pool -> Pool -> Prop :=
| step_take i t q ws d : ws !! i = Some WFree ->
    MissionStep (mkPool (t :: q) ws d) (mkPool q (<[i := WBusy t]> ws) d)
| step_finish i t q ws d r : ws !! i = Some (WBusy t) -> task_outcome t r ->
    MissionStep (mkPool q ws d) (mkPool q (<[i := WFree]> ws) (d ++ [r]))
| step_exit i ws d : ws !! i = Some WFree ->
    MissionStep (mkPool [] ws d) (mkPool [] (<[i := WExited]> ws) d).

Definition busy (ws : list WorkerPhase) : list TaskSpec :=
  omap (fun p => match p with WBusy t => Some t | _ => None end) ws.

(** Steps a pool has left at most. *)
Definition worker_rank (p : WorkerPhase) : nat := match p with WFree => 1 | WBusy _ => 2 | WExited => 0 end.
Definition pool_rank (s : Pool) : nat := 2 * length (p_queue s) + sum_list_with worker_rank (p_workers s).

Definition pool_ok (s : Pool) : Prop :=
  (0 < length (p_workers s))%nat /\
  (WExited ∈ p_workers s -> p_queue s = []) /\
  exists finished, p_queue s ++ busy (p_workers s) ++ finished ≡ₚ m_tasks config /\
    Forall2 task_outcome finished (p_done s).

Lemma mission_start_ok : pool_ok mission_start.
Proof.
  split; [|split].
  - cbn [mission_start p_workers]. rewrite length_replicate. unfold mission_workers. lia.
  - cbn [mission_start p_workers]. intros H. apply elem_of_replicate in H as [H _]. done.
  - exists []. split; [|constructor]. cbn [mission_start p_workers p_queue].
    induction mission_workers as [|n IH]; [by rewrite !app_nil_r|]. exact IH.
Qed.

(** Replacing one worker's phase. *)
Lemma worker_moves ws i p x : ws !! i = Some p ->
  exists rest, busy ws ≡ₚ busy [p] ++ rest /\ busy (<[i := x]> ws) ≡ₚ busy [x] ++ rest /\
    (sum_list_with worker_rank ws + worker_rank x
     = sum_list_with worker_rank (<[i := x]> ws) + worker_rank p)%nat /\
    (x <> WExited -> WExited ∈ <[i := x]> ws -> WExited ∈ ws).
Proof.
  intros H. destruct (insert_rest _ _ _ H) as (rest & Hws & Hins). specialize (Hins x).
  exists (busy rest). repeat split.
  - unfold busy. rewrite Hws. by destruct p.
  - unfold busy. rewrite Hins. by destruct x.
  - rewrite Hins. rewrite Hws at 1. simpl. lia.
  - rewrite Hins, Hws. intros Hx He. apply elem_of_cons in He as [|He]; [done|]. by right.
Qed.

Lemma mission_step_ok s s' : MissionStep s s' -> pool_ok s ->
  pool_ok s' /\ (pool_rank s' < pool_rank s)%nat.
Proof.
  intros [i t q ws d Hi|i t q ws d r Hi Hr|i ws d Hi] (Hl & Hx & fin & Hperm & Hfin);
    cbn [p_queue p_workers p_done] in *; unfold pool_ok, pool_rank; cbn [p_queue p_workers p_done];
    rewrite length_insert.
  - destruct (worker_moves _ _ _ (WBusy t) Hi) as (rest & Hb & Hb' & Hs & He). simpl in Hs, Hb, Hb'.
    split; [|simpl; lia]. split; [done|]. split.
    + intros H. specialize (Hx (He ltac:(done) H)). done.
    + exists fin. split; [|done]. rewrite <- Hperm, Hb, Hb'. simpl. symmetry. apply Permutation_middle.
  - destruct (worker_moves _ _ _ WFree Hi) as (rest & Hb & Hb' & Hs & He). simpl in Hs, Hb, Hb'.
    split; [|simpl; lia]. split; [done|]. split.
    + intros H. exact (Hx (He ltac:(done) H)).
    + exists (fin ++ [t]). split; [|apply Forall2_app; [done|by constructor; [|constructor]]].
      rewrite <- Hperm, Hb, Hb'. apply Permutation_app_head. cbn [app].
      by rewrite (Permutation_cons_append (rest ++ fin) t), app_assoc.
  - destruct (worker_moves _ _ _ WExited Hi) as (rest & Hb & Hb' & Hs & _). simpl in Hs, Hb, Hb'.
    split; [|simpl; lia]. split; [done|]. split; [done|]. exists fin. split; [|done].
    by rewrite <- Hperm, Hb, Hb'.
Qed.

(** A pool that can make no step has no task left. *)
Lemma mission_stuck s : pool_ok s ->
  (forall s', ~ MissionStep s s') -> p_queue s = [] /\ busy (p_workers s) = [].
Proof.
  destruct s as [q ws d]. intros (Hl & Hx & _) Hno. cbn [p_queue p_workers] in *.
  assert (Hall : forall i p, ws !! i = Some p -> p = WExited).
  { intros i p Hi. destruct p as [|t|]; [| |done]; exfalso.
    - destruct q as [|t q]; [by eapply Hno, step_exit|by eapply Hno, step_take].
    - eapply Hno, (step_finish i t); [exact Hi|]. right. by exists None. }
  destruct ws as [|p ws]; [simpl in Hl; lia|]. split.
  - apply Hx. rewrite (Hall 0%nat p eq_refl). by left.
  - clear - Hall. induction (p :: ws) as [|x l IH]; [done|].
    pose proof (Hall 0%nat x eq_refl) as ->. apply IH. intros i. apply (Hall (S i)).
Qed.
End Mission.

(** ** Properties *)

Lemma loop_inv_start config ranked_models : loop_inv config ranked_models (Ladder.new ranked_models (m_policy config)) [].
Proof. split; try done. simpl. lia. Qed.

Lemma failed_no_text fs : Forall failed_attempt fs ->
  omap (fun a => match r_outcome a with Succeeded t => Some t | _ => None end) (rev fs) = [].
Proof.
  intros H. apply Forall_rev in H. induction H as [|a l Ha _ IH]; [done|]. cbn [omap list_omap].
  unfold failed_attempt in Ha. by destruct (r_outcome a).
Qed.

(** What the three endings say about the reported fields. *)
Lemma task_ends_fields r : task_ends r ->
  (tr_succeeded r = true <-> tr_stopped r = None) /\
  (tr_succeeded r = true <-> exists t, final_text r = Some t) /\
  (forall t, final_text r = Some t <-> r_outcome <$> last (tr_attempts r) = Some (Succeeded t)) /\
  (budget_stopped r = true <-> exists why, r_outcome <$> last (tr_attempts r) = Some (Skipped why)) /\
  Forall failed_attempt (removelast (tr_attempts r)).
Proof.
  unfold final_text, budget_stopped.
  intros [reason Hf Hs Hst|fs a t Hf Ha Ho Hs Hst|fs a why Hf Ha Ho Hs Hst]; rewrite Hs, Hst.
  - rewrite failed_no_text by done.
    assert (Hl : forall o, r_outcome <$> last (tr_attempts r) = Some o ->
                   match o with Succeeded _ | Skipped _ => False | _ => True end).
    { intros o Ho. destruct (last (tr_attempts r)) as [a|] eqn:El; [|done]. injection Ho as <-.
      apply last_Some in El as [l El]. rewrite El in Hf. apply Forall_app in Hf as [_ Hf].
      by apply Forall_cons in Hf as [Hf _]. }
    repeat split; try done; try (by intros [? ?]); [by intros H%Hl|by intros [? H%Hl]|].
    destruct (tr_attempts r) as [|x l] using rev_ind; [done|]. rewrite removelast_last.
    by apply Forall_app in Hf as [? _].
  - rewrite Ha, rev_app_distr, removelast_last, last_snoc. cbn [rev app omap list_omap fmap option_fmap option_map].
    rewrite Ho. cbn [head]. repeat split; try done; try (by intros [= ->]); [by eauto|by intros [? [=]]].
  - rewrite Ha, rev_app_distr, removelast_last, last_snoc. cbn [rev app omap list_omap fmap option_fmap option_map].
    rewrite Ho, failed_no_text by done. cbn [head]. repeat split; try done; try (by intros [? ?]). by eauto.
Qed.

(** Running a task ends.  Whatever the runner does and wherever the budget stands,
    [run_task] returns a result with at most [max_attempts] attempts, each on a ranked
    model; every attempt but the last failed; it reports success, or the reason it
    stopped, and never both; it has a final text exactly when the last attempt succeeded,
    with that text, and it is reported stopped by the budget exactly when the last
    attempt was the refused one. *)
Theorem task_result_exact aliases config runner task models w :
  max_attempts (m_policy config) <= u64_max ->
  exists r w', run_task aliases config runner task models w = Some (r, w') /\
    tr_task r = t_id task /\
    N.of_nat (length (tr_attempts r)) <= max_attempts (m_policy config) /\
    Forall (fun a => r_model a ∈ models) (tr_attempts r) /\
    Forall failed_attempt (removelast (tr_attempts r)) /\
    (tr_succeeded r = true <-> tr_stopped r = None) /\
    (tr_succeeded r = true <-> exists t, final_text r = Some t) /\
    (forall t, final_text r = Some t <-> r_outcome <$> last (tr_attempts r) = Some (Succeeded t)) /\
    (budget_stopped r = true <-> exists why, r_outcome <$> last (tr_attempts r) = Some (Skipped why)).
Proof.
  intros Hmax. destruct (task_loop_ok aliases config task models runner
    (S (N.to_nat (max_attempts (m_policy config)))) _ [] w Hmax (loop_inv_start config models))
    as (r & w' & Hrun & Ht & Hends & Hlen & Hmod); [simpl; lia|].
  exists r, w'. destruct (task_ends_fields r Hends) as (? & ? & ? & ? & ?). by repeat split_and.
Qed.

(** No turn is dispatched past the guard.  Two runners that agree on the turns whose
    estimate the guard holds give the same run: [run_task] consults its runner only for a
    turn of this task and mission, on a ranked model, within the attempt cap, and, for a
    priced model under a budget, only while the turn's estimate is inside the reserved
    pool and the pool, with what is committed, inside the limit. *)
Theorem turns_are_admitted aliases config runner1 runner2 task models w :
  max_attempts (m_policy config) <= u64_max ->
  (forall cfg v, dispatchable aliases config task models cfg v -> runner1 cfg v = runner2 cfg v) ->
  run_task aliases config runner1 task models w = run_task aliases config runner2 task models w.
Proof. intros Hmax Hext. by apply (task_loop_ext _ _ _ models); [| |apply loop_inv_start]. Qed.

(** A task gives back what it reserved: with a runner that leaves the reserved pool
    alone, the pool is the same after the task as before, whether its attempts succeed,
    fail, time out, panic or are refused. *)
Theorem task_releases_reservations aliases config runner task models w r w' :
  (forall cfg v, reserved (w_guard (runner cfg v).2) = reserved (w_guard v)) ->
  run_task aliases config runner task models w = Some (r, w') ->
  reserved (w_guard w') = reserved (w_guard w).
Proof. apply task_loop_releases. Qed.

Lemma filter_disjoint {A} (f g : A -> bool) l : Forall (fun x => f x = true -> g x = false) l ->
  (length (List.filter f l) + length (List.filter g l) <= length l)%nat.
Proof.
  induction 1 as [|x l Hx _ IH]; [done|]. cbn [List.filter length].
  destruct (f x); [rewrite Hx by done|destruct (g x)]; cbn [length]; lia.
Qed.

Lemma outcome_stopped aliases config runner models t r :
  max_attempts (m_policy config) <= u64_max ->
  task_outcome aliases config runner models t r -> tr_succeeded r = true -> is_ladder_stop r = false.
Proof.
  intros Hmax [(w & w' & Hrun)|[payload ->]]; [|done].
  destruct (task_result_exact aliases config runner t models w Hmax) as (r' & w2 & Hrun' & _ & _ & _ & _ & Hst & _).
  rewrite Hrun in Hrun'. injection Hrun' as <- <-. rewrite Hst. unfold is_ladder_stop. by intros ->.
Qed.

Lemma mission_steps_rank aliases config runner models n s s' :
  nsteps (MissionStep aliases config runner models) n s s' -> pool_ok aliases config runner models s ->
  pool_ok aliases config runner models s' /\ (n + pool_rank s' <= pool_rank s)%nat.
Proof.
  induction 1 as [s|n s1 s2 s3 Hst _ IH]; intros Hok; [split; [done|lia]|].
  destruct (mission_step_ok _ _ _ _ _ _ Hst Hok) as [Hok2 Hlt].
  destruct (IH Hok2) as [? ?]. split; [done|lia].
Qed.

Lemma mission_start_rank config :
  pool_rank (mission_start config) = (2 * length (m_tasks config) + mission_workers config)%nat.
Proof.
  unfold pool_rank. cbn [mission_start p_queue p_workers]. f_equal.
  induction (mission_workers config) as [|k IH]; [done|]. simpl. by rewrite IH.
Qed.

(** A permutation of results carries the tasks along. *)
Lemma Forall2_perm_r {A B} (R : A -> B -> Prop) l k k' : Forall2 R l k -> k ≡ₚ k' ->
  exists l', l ≡ₚ l' /\ Forall2 R l' k'.
Proof.
  intros H%Forall2_flip Hp. destruct (Permutation_Forall2 Hp H) as (l' & Hl & HF).
  exists l'. split; [done|]. by apply Forall2_flip.
Qed.

(** A mission ends and reports every task once.  However the workers interleave, a
    mission of [n] tasks and [k] workers makes at most [2 n + k] steps; when no worker can
    make a step, every task was run exactly once, the report holds their results in the
    order of the task ids, each the outcome of its own task, successes and failures add
    up to the tasks, a task the ladder stopped is one of the failures, and the budget is
    reported exhausted exactly when it stopped some task. *)
Theorem mission_reports_every_task aliases config runner models rows :
  (forall n s, nsteps (MissionStep aliases config runner models) n (mission_start config) s ->
    (n <= 2 * length (m_tasks config) + mission_workers config)%nat) /\
  (forall s, rtc (MissionStep aliases config runner models) (mission_start config) s ->
    (forall s', ~ MissionStep aliases config runner models s s') ->
    max_attempts (m_policy config) <= u64_max ->
    let rep := mission_report config (p_done s) rows in
    exists tasks, tasks ≡ₚ m_tasks config /\
      Forall2 (task_outcome aliases config runner models) tasks (mr_results rep) /\
      Sorted task_le (mr_results rep) /\
      (mr_succeeded rep + mr_failed rep = length (m_tasks config))%nat /\
      (mr_stuck rep <= mr_failed rep)%nat /\
      (mr_budget_exhausted rep = true <->
        exists r, r ∈ mr_results rep /\ tr_stopped r = Some StopBudget)).
Proof.
  split.
  - intros n s Hs. rewrite <- mission_start_rank.
    destruct (mission_steps_rank _ _ _ _ _ _ _ Hs (mission_start_ok _ _ _ _)). lia.
  - intros s [n Hs]%rtc_nsteps_1 Hno Hmax rep.
    destruct (mission_steps_rank _ _ _ _ _ _ _ Hs (mission_start_ok _ _ _ _)) as [Hok _].
    destruct (mission_stuck _ _ _ _ _ Hok Hno) as [Hq Hb].
    destruct Hok as (_ & _ & fin & Hperm & HF). rewrite Hq, Hb in Hperm. cbn [app] in Hperm.
    destruct (Forall2_perm_r _ _ _ (mr_results rep) HF) as (tasks & Ht & HF').
    { symmetry. apply merge_sort_Permutation. }
    exists tasks. repeat split; [by rewrite <- Ht|done|apply (Sorted_merge_sort _)| | | |].
    + rewrite <- Hperm, Ht, (Forall2_length _ _ _ HF'). cbn [rep mission_report mr_succeeded mr_failed mr_results].
      pose proof (filter_length_le tr_succeeded (merge_sort task_le (p_done s))). lia.
    + assert (Hd : Forall (fun r => tr_succeeded r = true -> is_ladder_stop r = false) (mr_results rep)).
      { eapply Forall2_Forall_r; [exact HF'|]. apply Forall_true. intros t r. by apply outcome_stopped. }
      pose proof (filter_disjoint _ _ _ Hd) as H. cbn [rep mission_report mr_results mr_stuck mr_failed] in *. lia.
    + intros [r [Hr Hst]]%existsb_exists. exists r. split; [by apply list_elem_of_In|].
      by apply bool_decide_eq_true in Hst.
    + intros (r & Hr & Hst). apply existsb_exists. exists r. split; [by apply list_elem_of_In|].
      by apply bool_decide_eq_true.
Qed.

(** ** Examples *)

Module Sample.
Definition tiny : ModelPrice := mkModelPrice 5 1 9.

(** Two candidates under a budget of 300000 micro-dollars; the estimate of a turn is 1. *)
Definition config : MissionConfig :=
  mkMission "m" [mkTaskSpec "t2" "do it" "/w"; mkTaskSpec "t1" "and that" "/w"] ["a"; "b"] 1
    (Some (Budget.new 300000)) Policy_default UsageProfile.agent
    (Some {[ "a" := tiny; "b" := tiny ]}).

(** The first model fails, the second answers. *)
Definition runner (cfg : ExecutorConfig) (w : World) : RunReturn * N * World :=
  (if bool_decide (x_model cfg = "a"%string) then RunFailed "wrong answer" else RunSucceeded "done", 7, w).

Definition w0 : World := mkWorld [] GuardState_default false [].
Definition result_of (t : TaskSpec) : TaskResult :=
  match run_task ∅ config runner t ["a"; "b"]%string w0 with
  | Some (r, _) => r
  | None => panicked_task [] t None
  end.
Definition t2 : TaskSpec := mkTaskSpec "t2" "do it" "/w".
Definition t1 : TaskSpec := mkTaskSpec "t1" "and that" "/w".
Definition finished : Pool := mkPool [] [WExited] [result_of t2; result_of t1].
End Sample.

Lemma task_result_exact_witness :
  max_attempts (m_policy Sample.config) <= u64_max /\
  exists r w', run_task ∅ Sample.config Sample.runner Sample.t1 ["a"; "b"]%string Sample.w0 = Some (r, w') /\
    final_text r = Some "done"%string /\ length (tr_attempts r) = 2%nat /\ tr_succeeded r = true.
Proof.
  split; [done|].
  destruct (task_result_exact ∅ Sample.config Sample.runner Sample.t1 ["a"; "b"]%string Sample.w0)
    as (r & w' & Hrun & _ & _ & _ & _ & _ & Hs & _); [done|].
  exists r, w'. split; [exact Hrun|]. vm_compute in Hrun. injection Hrun as <- <-. by vm_compute.
Defined.

Lemma turns_are_admitted_witness :
  run_task ∅ Sample.config Sample.runner Sample.t1 ["a"; "b"]%string Sample.w0
  = run_task ∅ Sample.config
      (fun cfg v => if 1 <=? x_attempt cfg then Sample.runner cfg v else (RunTimedOut, 0, v))
      Sample.t1 ["a"; "b"]%string Sample.w0.
Proof.
  apply turns_are_admitted; [done|]. intros cfg v (_ & _ & _ & _ & [Hn _] & _).
  by rewrite (proj2 (N.leb_le _ _) Hn).
Defined.

Lemma task_releases_reservations_witness :
  exists r w', run_task ∅ Sample.config Sample.runner Sample.t1 ["a"; "b"]%string Sample.w0 = Some (r, w') /\
    reserved (w_guard w') = 0.
Proof.
  destruct (run_task ∅ Sample.config Sample.runner Sample.t1 ["a"; "b"]%string Sample.w0)
    as [[r w']|] eqn:Hrun; [|vm_compute in Hrun; discriminate].
  exists r, w'. split; [reflexivity|].
  exact (task_releases_reservations ∅ Sample.config Sample.runner Sample.t1 _ _ r w' (fun _ _ => eq_refl) Hrun).
Defined.

Lemma sample_run : rtc (MissionStep ∅ Sample.config Sample.runner ["a"; "b"]%string)
  (mission_start Sample.config) Sample.finished.
Proof.
  assert (Hrun : forall t, t = Sample.t1 \/ t = Sample.t2 ->
    task_outcome ∅ Sample.config Sample.runner ["a"; "b"]%string t (Sample.result_of t)).
  { intros t [->| ->]; left; exists Sample.w0; eexists; vm_compute; reflexivity. }
  change (mission_start Sample.config) with (mkPool [Sample.t2; Sample.t1] [WFree] []).
  eapply rtc_l; [by apply (step_take _ _ _ _ 0)|].
  eapply rtc_l; [apply (step_finish _ _ _ _ 0 Sample.t2); [done|by apply Hrun; right]|].
  eapply rtc_l; [by apply (step_take _ _ _ _ 0)|].
  eapply rtc_l; [apply (step_finish _ _ _ _ 0 Sample.t1); [done|by apply Hrun; left]|].
  eapply rtc_l; [by apply (step_exit _ _ _ _ 0)|]. apply rtc_refl.
Qed.

Lemma mission_reports_every_task_witness :
  let rep := mission_report Sample.config (p_done Sample.finished) [] in
  mr_succeeded rep = 2%nat /\ tr_task <$> mr_results rep = ["t1"; "t2"]%string /\
  Sorted task_le (mr_results rep) /\ (mr_succeeded rep + mr_failed rep = 2)%nat.
Proof.
  split; [by vm_compute|]. split; [by vm_compute|].
  destruct (proj2 (mission_reports_every_task ∅ Sample.config Sample.runner ["a"; "b"]%string [])
    Sample.finished sample_run) as (tasks & _ & _ & Hs & Hsum & _); [|done|by split].
  intros s' Hstep. inversion Hstep; subst; destruct i; done.
Defined.

(** Without a price there is no estimate and no reservation: under a budget that is
    already spent, a turn on a model the catalogue does not price is still dispatched. *)
Lemma unpriced_turn_runs_unreserved :
  let config := mkMission "m" [] ["x"] 1 (Some (Budget.new 0)) Policy_default
                  UsageProfile.agent (Some ∅) in
  exists w', run_task ∅ config (fun _ w => (RunSucceeded "done", 7, w)) Sample.t1 ["x"%string] Sample.w0
    = Some (mkTaskResult "t1" [mkResult "x" (Succeeded "done") 7 None] true None, w').
Proof. eexists. vm_compute. reflexivity. Qed.

(** A mission that starts has at least one model to try, all of them candidates, and a
    catalogue if it has a budget. *)
Lemma plan_mission_ok aliases config rows dir models :
  plan_mission aliases config rows dir = Ok models ->
  models <> [] /\ (m_budget config <> None -> m_catalogue config <> None) /\
  (forall m, m ∈ models -> m ∈ m_candidates config).
Proof.
  unfold plan_mission. intros H.
  destruct (match m_budget config, m_catalogue config with Some _, None => true | _, _ => false end) eqn:Hb; [done|].
  split; [|split].
  - repeat case_match; by simplify_eq.
  - intros Hn Hc. rewrite Hc in Hb. by destruct (m_budget config).
  - destruct (m_catalogue config) as [c|].
    + destruct (rank_models _ _ _ _ _) as [l|e] eqn:Hr; [|done].
      assert (models = c_model <$> l) as -> by (repeat case_match; by simplify_eq).
      unfold rank_models in Hr. destruct (m_candidates config) as [|x cs]; [done|].
      injection Hr as <-. intros m. rewrite merge_sort_Permutation, <- list_fmap_compose.
      intros (m' & -> & Hm)%list_elem_of_fmap. by apply (proj2 (unseen_spec ∅ (x :: cs)) m') in Hm as [? _].
    + assert (models = m_candidates config) as -> by (repeat case_match; by simplify_eq). done.
Qed.
