(* ===== verification/TaskLease.v ===== *)
(** * TaskLease: task ownership leases and fencing tokens
    ([crates/susi-gawd-swarm/src/task_lease.rs])

    [LeaseTable] with every operation of the file.  [table_run] plays a sequence of
    operations, in the order the mutex of the mission serialises them; a reload is
    [adopt] of the persisted copy into a fresh table. *)

From S2P Require Import Prelude.

Local Open Scope N_scope.

(** ** Data *)

Record OwnershipEpoch : Type := mkEpoch {
  mission : N;
  coordinator : N;
}.

#[export] Instance OwnershipEpoch_eq_dec : EqDecision OwnershipEpoch.
Proof. solve_decision. Defined.

(** The derived order: missions first, then coordinators. *)
Definition epoch_lt (a b : OwnershipEpoch) : bool :=
  (mission a <? mission b) || ((mission a =? mission b) && (coordinator a <? coordinator b)).

(** [Ord::max]. *)
Definition epoch_max (a b : OwnershipEpoch) : OwnershipEpoch := if epoch_lt b a then a else b.

Definition OwnershipEpoch_default : OwnershipEpoch := mkEpoch 0 0.

(** [OwnershipEpoch::next]. *)
Definition next (e : OwnershipEpoch) : OwnershipEpoch :=
  mkEpoch (saturating_add (mission e) 1) (saturating_add (coordinator e) 1).

Record LeaseRecovery : Type := mkRecovery {
  generation : N;
  recovered_at_unix : N;
  active_scopes : gset string;
  revoked_workers : gset string;
}.

Definition LeaseRecovery_default : LeaseRecovery := mkRecovery 0 0 ∅ ∅.

Record AuthorityToken : Type := mkToken {
  tok_epoch : OwnershipEpoch;
  tok_fence : N;
}.

Record MutationPermit : Type := mkPermit {
  p_task_id : string;
  p_owner : string;
  p_token : AuthorityToken;
}.

Record TaskLease : Type := mkLease {
  task_id : string;
  owner : string;
  fence : N;
  lease_until_unix : N;
  renewed_at_unix : N;
}.

Record LeaseTable : Type := mkTable {
  leases : gmap string TaskLease;
  next_fence : N;
  epoch : OwnershipEpoch;
  recovery : LeaseRecovery;
  lease_epochs : gmap string OwnershipEpoch;
}.

Definition LeaseTable_default : LeaseTable :=
  mkTable ∅ 0 OwnershipEpoch_default LeaseRecovery_default ∅.

Inductive CompleteVerdict : Type :=
| Accepted | StaleFence | NotOwner | Expired | UnknownTask.

#[export] Instance CompleteVerdict_eq_dec : EqDecision CompleteVerdict.
Proof. solve_decision. Defined.

(** [TaskLease::authority]. *)
Definition authority (l : TaskLease) (e : OwnershipEpoch) : AuthorityToken := mkToken e (fence l).

(** ** Operations *)

Definition remove_revoked (r : LeaseRecovery) (worker : string) : LeaseRecovery :=
  mkRecovery (generation r) (recovered_at_unix r) (active_scopes r) (revoked_workers r ∖ {[worker]}).

(** [dispatch_in_epoch]. *)
Definition dispatch_in_epoch (t : LeaseTable) (task own : string) (now ttl : N) (e : OwnershipEpoch)
  : TaskLease * LeaseTable :=
  let e := epoch_max (epoch t) e in
  let f := saturating_add (next_fence t) 1 in
  let l := mkLease task own f (saturating_add now (N.max ttl 1)) now in
  (l, mkTable (<[task := l]> (leases t)) f e (remove_revoked (recovery t) own)
        (<[task := e]> (lease_epochs t))).

Definition dispatch (t : LeaseTable) (task own : string) (now ttl : N) : TaskLease * LeaseTable :=
  dispatch_in_epoch t task own now ttl (epoch t).

(** [check_fence]. *)
Definition check_fence (t : LeaseTable) (task own : string) (f now : N) : CompleteVerdict :=
  match leases t !! task with
  | None => UnknownTask
  | Some l =>
      if match lease_epochs t !! task with Some e => negb (bool_decide (e = epoch t)) | None => false end
      then StaleFence
      else if lease_until_unix l <=? now then Expired
      else if negb (f =? fence l) then StaleFence
      else if negb (bool_decide (owner l = own)) then NotOwner
      else Accepted
  end.

(** [check_authority]. *)
Definition check_authority (t : LeaseTable) (task own : string) (token : AuthorityToken) (now : N)
  : CompleteVerdict :=
  match leases t !! task with
  | None => UnknownTask
  | Some _ =>
      let lease_epoch := default (epoch t) (lease_epochs t !! task) in
      if negb (bool_decide (tok_epoch token = epoch t)) || negb (bool_decide (lease_epoch = tok_epoch token))
      then StaleFence
      else check_fence t task own (tok_fence token) now
  end.

(** [authorize_mutation]. *)
Definition authorize_mutation (t : LeaseTable) (task own : string) (token : AuthorityToken) (now : N)
  : result MutationPermit CompleteVerdict :=
  match check_authority t task own token now with
  | Accepted => Ok (mkPermit task own token)
  | verdict => Err verdict
  end.

(** [check_permit]. *)
Definition check_permit (t : LeaseTable) (p : MutationPermit) (now : N) : CompleteVerdict :=
  check_authority t (p_task_id p) (p_owner p) (p_token p) now.

(** [renew]. *)
Definition renew (t : LeaseTable) (task own : string) (token : AuthorityToken) (now ttl : N)
  : CompleteVerdict * LeaseTable :=
  let verdict := check_authority t task own token now in
  match verdict with
  | Accepted =>
      (verdict,
       match leases t !! task with
       | Some l =>
           let l' := mkLease (task_id l) (owner l) (fence l) (saturating_add now (N.max ttl 1)) now in
           mkTable (<[task := l']> (leases t)) (next_fence t) (epoch t) (recovery t) (lease_epochs t)
       | None => t
       end)
  | _ => (verdict, t)
  end.

(** [complete]. *)
Definition complete (t : LeaseTable) (task own : string) (f now : N) : CompleteVerdict * LeaseTable :=
  let verdict := check_fence t task own f now in
  match verdict with
  | Accepted =>
      (verdict, mkTable (delete task (leases t)) (next_fence t) (epoch t) (recovery t)
                  (delete task (lease_epochs t)))
  | _ => (verdict, t)
  end.

(** [begin_recovery]. *)
Definition begin_recovery (t : LeaseTable) (e : OwnershipEpoch) (now : N) : LeaseTable :=
  let r := recovery t in
  let workers := list_to_set (owner <$> (map_to_list (leases t)).*2) in
  mkTable (leases t) (next_fence t) (epoch_max (epoch t) e)
    (mkRecovery (saturating_add (generation r) 1) now (active_scopes r) (revoked_workers r ∪ workers))
    (lease_epochs t).

(** [authority_for]. *)
Definition authority_for (t : LeaseTable) (task : string) : option AuthorityToken :=
  match leases t !! task with
  | None => None
  | Some l => Some (authority l (default (epoch t) (lease_epochs t !! task)))
  end.

(** [adopt]: the persisted leases one by one. *)
Definition adopt_lease (persisted : LeaseTable)
  (acc : gmap string TaskLease * gmap string OwnershipEpoch) (row : string * TaskLease)
  : gmap string TaskLease * gmap string OwnershipEpoch :=
  let '(id, l) := row in
  if match acc.1 !! id with None => true | Some current => fence current <? fence l end then
    (<[id := l]> acc.1,
     match lease_epochs persisted !! id with Some e => <[id := e]> acc.2 | None => acc.2 end)
  else acc.

Definition adopt (t persisted : LeaseTable) : LeaseTable :=
  let r := recovery t in
  let pr := recovery persisted in
  let maps := fold_left (adopt_lease persisted) (btree_entries (leases persisted))
                (leases t, lease_epochs t) in
  mkTable maps.1 (N.max (next_fence t) (next_fence persisted)) (epoch_max (epoch t) (epoch persisted))
    (mkRecovery (N.max (generation r) (generation pr)) (N.max (recovered_at_unix r) (recovered_at_unix pr))
       (active_scopes r ∪ active_scopes pr) (revoked_workers r ∪ revoked_workers pr))
    maps.2.

(** ** Runs *)

Inductive LeaseOp : Type :=
| OpDispatch (task own : string) (now ttl : N) (e : OwnershipEpoch)
| OpRenew (task own : string) (token : AuthorityToken) (now ttl : N)
| OpComplete (task own : string) (f now : N)
| OpRecover (e : OwnershipEpoch) (now : N)
| OpReload.

Definition table_op (t : LeaseTable) (op : LeaseOp) : LeaseTable :=
  match op with
  | OpDispatch task own now ttl e => (dispatch_in_epoch t task own now ttl e).2
  | OpRenew task own token now ttl => (renew t task own token now ttl).2
  | OpComplete task own f now => (complete t task own f now).2
  | OpRecover e now => begin_recovery t e now
  | OpReload => adopt LeaseTable_default t
  end.

Definition table_run (t : LeaseTable) (ops : list LeaseOp) : LeaseTable := fold_left table_op ops t.

(** ** Well-formed tables *)

Record table_ok (t : LeaseTable) : Prop := {
  ok_dom : forall id, is_Some (leases t !! id) <-> is_Some (lease_epochs t !! id);
  ok_fence : forall id l, leases t !! id = Some l -> fence l <= next_fence t;
  ok_epoch : forall id e, lease_epochs t !! id = Some e -> epoch_lt (epoch t) e = false;
}.

Lemma epoch_lt_irrefl e : epoch_lt e e = false.
Proof. unfold epoch_lt. by rewrite !N.ltb_irrefl, andb_false_r. Qed.

Lemma epoch_max_spec a b :
  epoch_max a b = b /\ epoch_lt b a = false \/ epoch_max a b = a /\ epoch_lt b a = true.
Proof. unfold epoch_max. destruct (epoch_lt b a); auto. Qed.

Lemma epoch_lt_spec a b : epoch_lt a b = true <->
  mission a < mission b \/ (mission a = mission b /\ coordinator a < coordinator b).
Proof.
  unfold epoch_lt. rewrite orb_true_iff, andb_true_iff, !N.ltb_lt, N.eqb_eq. done.
Qed.

Lemma epoch_lt_false a b : epoch_lt a b = false <->
  mission b < mission a \/ (mission a = mission b /\ coordinator b <= coordinator a).
Proof. rewrite <- not_true_iff_false, epoch_lt_spec. lia. Qed.

Lemma epoch_antisym a b : epoch_lt a b = false -> epoch_lt b a = false -> a = b.
Proof. rewrite !epoch_lt_false. destruct a, b; simpl. intros. f_equal; lia. Qed.

Lemma epoch_max_ge a b : epoch_lt (epoch_max a b) a = false /\ epoch_lt (epoch_max a b) b = false.
Proof.
  destruct (epoch_max_spec a b) as [[-> H]|[-> H]].
  - split; [done|apply epoch_lt_irrefl].
  - split; [apply epoch_lt_irrefl|]. rewrite epoch_lt_spec in H. rewrite epoch_lt_false. lia.
Qed.

Lemma epoch_max_same a b : epoch_max a b = a <-> epoch_lt a b = false.
Proof.
  destruct (epoch_max_spec a b) as [[-> H]|[-> H]].
  - split; [intros ->; apply epoch_lt_irrefl|intros H'; by apply epoch_antisym].
  - split; [intros _|done]. rewrite epoch_lt_spec in H. rewrite epoch_lt_false. lia.
Qed.

Lemma epoch_le_trans a b c : epoch_lt b a = false -> epoch_lt c b = false -> epoch_lt c a = false.
Proof. rewrite !epoch_lt_false. lia. Qed.

Lemma table_ok_default : table_ok LeaseTable_default.
Proof. split; simpl; intros *; rewrite ?lookup_empty; [|done|done]. split; by intros [? ?]. Qed.

(** The rows of the persisted table over an empty one. *)
Lemma adopt_rows persisted rows m e : NoDup rows.*1 -> (forall id, id ∈ rows.*1 -> m !! id = None) ->
  let r := fold_left (adopt_lease persisted) rows (m, e) in
  (forall id l, r.1 !! id = Some l <-> (id, l) ∈ rows \/ m !! id = Some l) /\
  (forall id, r.2 !! id = match lease_epochs persisted !! id with
                          | Some x => if bool_decide (id ∈ rows.*1) then Some x else e !! id
                          | None => e !! id
                          end).
Proof.
  revert m e. induction rows as [|[k x] rows IH]; intros m e Hnd Hm; cbn [fold_left].
  - split; [set_solver|]. intros id. destruct (lease_epochs persisted !! id); [|done].
    by rewrite bool_decide_false by (apply not_elem_of_nil).
  - apply NoDup_cons in Hnd as [Hk Hnd]. cbn [adopt_lease fst snd].
    rewrite (Hm k) by (by left).
    destruct (IH (<[k := x]> m) (match lease_epochs persisted !! k with Some e0 => <[k := e0]> e | None => e end))
      as [H1 H2]; [done| |].
    { intros id Hid. rewrite lookup_insert_ne; [apply Hm; by right|]. by intros ->. }
    split.
    + intros id l. rewrite H1, elem_of_cons. destruct (decide (id = k)) as [->|Hne].
      * rewrite lookup_insert_eq. rewrite (Hm k) by (by left). split; [|naive_solver].
        intros [Hin|[= <-]]; [|by left; left]. exfalso. apply Hk. by apply (list_elem_of_fmap_2' fst _ (k, l)).
      * rewrite lookup_insert_ne by done. naive_solver.
    + intros id. rewrite H2. cbn [fmap list_fmap]. destruct (decide (id = k)) as [->|Hne].
      * rewrite (bool_decide_true (k ∈ k :: rows.*1)) by (by left).
        rewrite bool_decide_false by done. destruct (lease_epochs persisted !! k); [apply lookup_insert_eq|done].
      * assert (Hb : bool_decide (id ∈ k :: rows.*1) = bool_decide (id ∈ rows.*1)).
        { apply bool_decide_ext. rewrite elem_of_cons. naive_solver. }
        cbn [fst] in *. rewrite Hb. destruct (lease_epochs persisted !! id), (lease_epochs persisted !! k); rewrite ?lookup_insert_ne by done; done.
Qed.

(** Reloading gives the table back. *)
Lemma adopt_fresh t : table_ok t -> adopt LeaseTable_default t = t.
Proof.
  intros [Hdom _ Hep]. unfold adopt. cbn [LeaseTable_default leases lease_epochs next_fence epoch recovery
    LeaseRecovery_default generation recovered_at_unix active_scopes revoked_workers].
  destruct (adopt_rows t (btree_entries (leases t)) ∅ ∅) as [H1 H2].
  { apply btree_entries_NoDup. }
  { intros. apply lookup_empty. }
  destruct t as [ls nf ep [gen at_ sc rw] les]. cbn [leases lease_epochs next_fence epoch recovery
    generation recovered_at_unix active_scopes revoked_workers] in *.
  assert (Hin : forall id, id ∈ (btree_entries ls).*1 <-> is_Some (ls !! id)).
  { intros id. rewrite list_elem_of_fmap. split.
    - intros ([k l] & -> & Hkl). apply list_elem_of_In, btree_entries_In in Hkl. by exists l.
    - intros [l Hl]. exists (id, l). split; [done|]. by apply list_elem_of_In, btree_entries_In. }
  f_equal.
  - apply map_eq. intros id. apply option_eq. intros l. rewrite H1, lookup_empty, list_elem_of_In, btree_entries_In.
    naive_solver.
  - apply N.max_0_l.
  - unfold epoch_max. destruct (epoch_lt ep OwnershipEpoch_default) eqn:H; [|done].
    apply epoch_lt_spec in H. simpl in H. lia.
  - f_equal; [apply N.max_0_l|apply N.max_0_l|set_solver|set_solver].
  - apply map_eq. intros id. rewrite H2. destruct (les !! id) as [x|] eqn:Hx; [|apply lookup_empty].
    rewrite bool_decide_true; [done|]. apply Hin, Hdom. by rewrite Hx.
Qed.

(** ** The life of a token *)

(** The token [(own, f)] of [task] is the one the table holds, under the current epoch. *)
Definition live (t : LeaseTable) (task own : string) (f : N) : Prop :=
  (exists l, leases t !! task = Some l /\ fence l = f /\ owner l = own) /\
  lease_epochs t !! task = Some (epoch t).

(** The operations that end the current lease of [task]: issuing it again, completing it,
    or raising the authority epoch. *)
Definition supersedes (t : LeaseTable) (op : LeaseOp) (task : string) : Prop :=
  match op with
  | OpDispatch task' _ _ _ e => task' = task \/ epoch_lt (epoch t) e = true
  | OpComplete task' own f now => task' = task /\ check_fence t task' own f now = Accepted
  | OpRecover e _ => epoch_lt (epoch t) e = true
  | OpRenew _ _ _ _ _ | OpReload => False
  end.

Lemma check_fence_live t task own f now : table_ok t ->
  check_fence t task own f now = Accepted -> live t task own f.
Proof.
  intros [Hdom _ _] H. unfold check_fence in H. destruct (leases t !! task) as [l|] eqn:Hl; [|done].
  destruct (proj1 (Hdom task)) as [e He]; [by exists l|]. rewrite He in H.
  case_bool_decide; cbn [negb] in H; [|done]. destruct (_ <=? now); [done|].
  destruct (N.eqb_spec f (fence l)); cbn [negb] in H; [|done].
  case_bool_decide; [|done]. split; [by exists l|]. congruence.
Qed.

Lemma check_authority_fence t task own token now :
  check_authority t task own token now = Accepted -> check_fence t task own (tok_fence token) now = Accepted.
Proof.
  unfold check_authority. destruct (leases t !! task); [|done]. by destruct (_ || _).
Qed.

(** What renewing does to a table. *)
Lemma renew_table t task own token now ttl :
  (renew t task own token now ttl).2 = t \/
  exists l u, leases t !! task = Some l /\
    (renew t task own token now ttl).2
    = mkTable (<[task := mkLease (task_id l) (owner l) (fence l) u now]> (leases t)) (next_fence t)
        (epoch t) (recovery t) (lease_epochs t).
Proof.
  unfold renew. destruct (check_authority _ _ _ _ _); try by left.
  destruct (leases t !! task) as [l|] eqn:Hl; [|by left]. right. by exists l, (saturating_add now (N.max ttl 1)).
Qed.

Lemma complete_table t task own f now :
  ((complete t task own f now).2 = t /\ check_fence t task own f now <> Accepted) \/
  (check_fence t task own f now = Accepted /\
   (complete t task own f now).2
   = mkTable (delete task (leases t)) (next_fence t) (epoch t) (recovery t) (delete task (lease_epochs t))).
Proof. unfold complete. destruct (check_fence t task own f now) eqn:H; auto; by left. Qed.

Lemma insert_is_Some {A B} (m : gmap string A) (m' : gmap string B) k x y :
  (forall i, is_Some (m !! i) <-> is_Some (m' !! i)) ->
  forall i, is_Some (<[k := x]> m !! i) <-> is_Some (<[k := y]> m' !! i).
Proof.
  intros H i. destruct (decide (k = i)) as [->|Hne]; [by rewrite !lookup_insert_eq|].
  by rewrite !lookup_insert_ne.
Qed.

Lemma table_op_ok t op : table_ok t -> next_fence t < u64_max ->
  table_ok (table_op t op) /\ next_fence t <= next_fence (table_op t op) <= next_fence t + 1.
Proof.
  intros Hok Hb. pose proof Hok as [Hdom Hf He].
  destruct op as [task own now ttl e|task own token now ttl|task own f now|e now|]; cbn [table_op].
  - unfold dispatch_in_epoch. cbn [snd]. destruct (epoch_max_ge (epoch t) e) as [Hge _].
    split; [split|]; cbn [leases lease_epochs next_fence epoch]; rewrite ?saturating_add_exact by lia; [| | |lia].
    + by apply insert_is_Some.
    + intros id l [[<- <-]|[_ Hl]]%lookup_insert_Some; [cbn [fence]; lia|]. specialize (Hf id l Hl). lia.
    + intros id e' [[<- <-]|[_ Hl]]%lookup_insert_Some; [apply epoch_lt_irrefl|].
      eapply epoch_le_trans; [by eapply He|done].
  - destruct (renew_table t task own token now ttl) as [->|(l & u & Hl & ->)]; [split; [done|lia]|].
    split; [split|]; cbn [leases lease_epochs next_fence epoch]; [| |done|lia].
    + intros id. rewrite lookup_insert_is_Some', <- Hdom. split; [|by right]. intros [<-|?]; [by exists l|done].
    + intros id l' [[<- <-]|[_ Hl']]%lookup_insert_Some; [exact (Hf task l Hl)|by apply (Hf id)].
  - destruct (complete_table t task own f now) as [[-> _]|[_ ->]]; [split; [done|lia]|].
    split; [split|]; cbn [leases lease_epochs next_fence epoch]; [| | |lia].
    + intros id. rewrite !lookup_delete_is_Some, Hdom. done.
    + intros id l [_ Hl]%lookup_delete_Some. by apply (Hf id).
    + intros id e' [_ Hl]%lookup_delete_Some. by apply (He id).
  - unfold begin_recovery. split; [split|]; cbn [leases lease_epochs next_fence epoch]; [done|done| |lia].
    intros id e' Hl. eapply epoch_le_trans; [by eapply He|apply epoch_max_ge].
  - rewrite adopt_fresh by done. split; [done|lia].
Qed.

(** A token that is live after an operation, and was issued before it, was live before it,
    and the operation did not supersede it. *)
Lemma live_back t op task own f : table_ok t -> f <= next_fence t -> next_fence t < u64_max ->
  live (table_op t op) task own f -> live t task own f /\ ~ supersedes t op task.
Proof.
  intros Hok Hf Hb. pose proof Hok as [Hdom Hfs He].
  destruct op as [task' own' now ttl e|task' own' token now ttl|task' own' f' now|e now|]; cbn [table_op supersedes].
  - unfold dispatch_in_epoch, live. cbn [snd leases lease_epochs epoch]. rewrite saturating_add_exact by lia.
    intros [(l & Hl & Hfl & Hol) Hle]. destruct (decide (task' = task)) as [->|Hne].
    { rewrite lookup_insert_eq in Hl. injection Hl as <-. cbn [fence] in Hfl. lia. }
    rewrite lookup_insert_ne in Hl by done. rewrite lookup_insert_ne in Hle by done.
    assert (Hsame : epoch_max (epoch t) e = epoch t).
    { apply epoch_antisym; [apply epoch_max_ge|by eapply He]. }
    rewrite Hsame in Hle. split; [split; [by exists l|done]|].
    apply epoch_max_same in Hsame. rewrite Hsame. by intros [?|?].
  - destruct (renew_table t task' own' token now ttl) as [->|(l & u & Hl & ->)]; [by split; [|intros ?]|].
    unfold live. cbn [leases lease_epochs epoch]. intros [(l' & Hl' & Hfl & Hol) Hle]. split; [split; [|done]|by intros []].
    destruct (decide (task' = task)) as [->|Hne]; [|rewrite lookup_insert_ne in Hl' by done; by exists l'].
    rewrite lookup_insert_eq in Hl'. injection Hl' as <-. by exists l.
  - destruct (complete_table t task' own' f' now) as [[-> Hc]|[Hc ->]].
    + intros Hlive. split; [done|]. by intros [_ ?].
    + unfold live. cbn [leases lease_epochs epoch]. intros [(l & Hl & Hfl & Hol) Hle].
      apply lookup_delete_Some in Hl as [Hne Hl]. rewrite lookup_delete_ne in Hle by done.
      split; [split; [by exists l|done]|]. by intros [? _].
  - unfold live. cbn [begin_recovery leases lease_epochs epoch]. intros [Hl Hle].
    assert (Hsame : epoch_max (epoch t) e = epoch t).
    { apply epoch_antisym; [apply epoch_max_ge|by eapply He]. }
    rewrite Hsame in Hle. split; [done|]. apply epoch_max_same in Hsame. by rewrite Hsame.
  - rewrite adopt_fresh by done. by split; [|intros ?].
Qed.

Lemma table_run_ok ops t : table_ok t -> next_fence t + N.of_nat (length ops) <= u64_max ->
  table_ok (table_run t ops).
Proof.
  revert t. induction ops as [|o ops IH]; intros t Hok Hb; [done|]. cbn [length] in Hb.
  destruct (table_op_ok t o Hok ltac:(lia)) as [Hok' Hn]. apply IH; [done|lia].
Qed.

Lemma live_run ops t task own f : table_ok t -> f <= next_fence t ->
  next_fence t + N.of_nat (length ops) <= u64_max -> live (table_run t ops) task own f ->
  live t task own f /\
  forall pre op post, ops = pre ++ op :: post -> ~ supersedes (table_run t pre) op task.
Proof.
  revert t. induction ops as [|o ops IH]; intros t Hok Hf Hb Hlive.
  - split; [done|]. by intros [|? ?] ? ?.
  - cbn [length] in Hb. destruct (table_op_ok t o Hok ltac:(lia)) as [Hok' Hn].
    destruct (IH (table_op t o) Hok' ltac:(lia) ltac:(lia) Hlive) as [Hl Hrest].
    destruct (live_back t o task own f Hok Hf ltac:(lia) Hl) as [Hl0 Hs]. split; [done|].
    intros [|x pre] op post [= -> ->]; [done|]. by apply (Hrest pre op post).
Qed.

(** ** Properties *)

(** C13. Fencing: a superseded token never comes back.  If, after any sequence of
    dispatches, renewals, completions, recoveries and restarts, the table accepts an
    owner's token that was issued before the sequence, then that token was the live one
    at its start and no operation of the sequence issued the task again, completed it or
    raised the authority epoch. *)
Theorem accepted_token_never_superseded t ops task own f now : table_ok t -> f <= next_fence t ->
  next_fence t + N.of_nat (length ops) <= u64_max ->
  check_fence (table_run t ops) task own f now = Accepted ->
  live t task own f /\
  forall pre op post, ops = pre ++ op :: post -> ~ supersedes (table_run t pre) op task.
Proof.
  intros Hok Hf Hb Hc. apply live_run; try done. eapply check_fence_live; [|exact Hc].
  by apply table_run_ok.
Qed.

(** A restart loses nothing: adopting the persisted table into a fresh one gives it
    back whole, fence counter, epochs and recovery marks included. *)
Theorem reload_is_identity ops :
  N.of_nat (length ops) <= u64_max ->
  table_op (table_run LeaseTable_default ops) OpReload = table_run LeaseTable_default ops.
Proof.
  intros Hb. cbn [table_op]. apply adopt_fresh, table_run_ok; [apply table_ok_default|done].
Qed.

(** ** Examples *)

Module Sample.
(** A table that issued "n0" to "w1" as fence 1. *)
Definition issued : LeaseTable := (dispatch LeaseTable_default "n0" "w1" 100 50).2.

Lemma issued_ok : table_ok issued.
Proof. apply (table_op_ok LeaseTable_default (OpDispatch "n0" "w1" 100 50 OwnershipEpoch_default)); [apply table_ok_default|done]. Qed.
End Sample.

Lemma accepted_token_never_superseded_witness :
  check_fence (table_run Sample.issued [OpDispatch "n1" "w2" 101 50 OwnershipEpoch_default; OpReload]) "n0" "w1" 1 120
    = Accepted /\ live Sample.issued "n0" "w1" 1.
Proof.
  assert (H : check_fence (table_run Sample.issued [OpDispatch "n1" "w2" 101 50 OwnershipEpoch_default; OpReload])
    "n0" "w1" 1 120 = Accepted) by (by vm_compute).
  split; [exact H|].
  refine (proj1 (accepted_token_never_superseded Sample.issued _ "n0" "w1" 1 120 Sample.issued_ok _ _ H));
    vm_compute; discriminate.
Defined.

Lemma reload_is_identity_witness :
  table_op Sample.issued OpReload = Sample.issued.
Proof. apply (reload_is_identity [OpDispatch "n0" "w1" 100 50 OwnershipEpoch_default]). vm_compute. discriminate. Defined.

(** [begin_recovery] revokes nothing by itself: with an epoch that does not advance, the
    old lease is still accepted, although its worker is listed as revoked. *)
Lemma recovery_without_advance_keeps_tokens :
  let t := begin_recovery Sample.issued OwnershipEpoch_default 110 in
  check_fence t "n0" "w1" 1 120 = Accepted /\ "w1"%string ∈ revoked_workers (recovery t).
Proof. by vm_compute. Qed.
