(* ===== verification/SideEffects.v ===== *)
(** * SideEffects: the side-effect intent journal
    ([crates/susi-gawd-swarm/src/side_effect_journal.rs], [side_effects.rs])

    [IntentJournal] with every operation of the file.  Its maps are [BTreeMap]s, so a
    search over one runs in key order.  [journal_run] plays a sequence of operations and
    keeps the answer of each [prepare_dispatch]; a crash marks pending intents
    uncertain. *)

From S2P Require Import Prelude Text Money ClusterKey.

Local Open Scope string_scope.
Local Open Scope list_scope.
Local Open Scope N_scope.

(** ** Action classes *)

Inductive ActionClass : Type := ReadOnly | Idempotent | Reconcilable | NonRetryable.

#[export] Instance ActionClass_eq_dec : EqDecision ActionClass.
Proof. solve_decision. Defined.

Record ActionOutcome : Type := mkOutcome {
  ao_class : ActionClass;
  uncertain_external : bool;
  completed : bool;
}.

Definition may_retry_after_crash (c : ActionClass) : bool :=
  match c with ReadOnly | Idempotent | Reconcilable => true | NonRetryable => false end.

Definition after_crash_retry (prior : ActionOutcome) : ActionOutcome :=
  if negb (may_retry_after_crash (ao_class prior)) then mkOutcome (ao_class prior) true false
  else mkOutcome (ao_class prior)
         (bool_decide (ao_class prior = Reconcilable) && negb (completed prior)) true.

Definition classify_tool_action (tool : string) : ActionClass :=
  if bool_decide (tool ∈ ["read_file"; "list_dir"; "search"; "grep"]) then ReadOnly
  else if bool_decide (tool ∈ ["exec_command"; "write_file"; "apply_patch"; "http_call"; "peer_dispatch"])
  then Reconcilable
  else NonRetryable.

Definition reconcile_dispatch_side_effect (tool : string) (prior : option ActionOutcome) : ActionOutcome :=
  match prior with
  | Some p => after_crash_retry p
  | None => mkOutcome (classify_tool_action tool) false false
  end.

(** ** The journal *)

Inductive IntentState : Type := Pending | Executed | Uncertain | Reconciled.

#[export] Instance IntentState_eq_dec : EqDecision IntentState.
Proof. solve_decision. Defined.

Record SideEffectIntent : Type := mkIntent {
  i_id : string;
  i_node_id : string;
  i_tool : string;
  i_args_digest : string;
  i_state : IntentState;
  i_recorded_unix : N;
}.

Record SideEffectReceipt : Type := mkReceipt {
  output_digest : string;
  recorded_unix : N;
}.

Inductive DispatchDecision : Type :=
| Dispatch (intent_id : string)
| AlreadyExecuted (intent_id : string) (receipt : SideEffectReceipt)
| ReconciliationRequired (intent_id reason : string).

Record IntentJournal : Type := mkJournal {
  entries : gmap string SideEffectIntent;
  next_seq : N;
  idempotency_keys : gmap string string;
  receipts : gmap string SideEffectReceipt;
}.

Definition IntentJournal_new : IntentJournal := mkJournal ∅ 0 ∅ ∅.

Definition set_state (e : SideEffectIntent) (s : IntentState) : SideEffectIntent :=
  mkIntent (i_id e) (i_node_id e) (i_tool e) (i_args_digest e) s (i_recorded_unix e).
Definition with_entries (j : IntentJournal) (m : gmap string SideEffectIntent) : IntentJournal :=
  mkJournal m (next_seq j) (idempotency_keys j) (receipts j).
Definition with_receipt (j : IntentJournal) (id : string) (r : SideEffectReceipt) : IntentJournal :=
  mkJournal (entries j) (next_seq j) (idempotency_keys j) (<[id := r]> (receipts j)).

Definition mk_intent_id (node : string) (seq : N) : string :=
  "intent-" +:+ node +:+ "-" +:+ dec seq.

Section Journal.
Context `{C : Crypto}.

(** [args_digest]: the first eight bytes of the hash, in hexadecimal. *)
Definition args_digest (args : string) : string := hex_encode (take 8 (sha256 (bytes_of args))).

(** The key [record_intent] and [prepare_dispatch] derive when none is supplied. *)
Definition derived_key (node tool args : string) : string :=
  node +:+ ":" +:+ tool +:+ ":" +:+ args_digest args.

(** [intent_for_key]. *)
Definition intent_for_key (j : IntentJournal) (key : string) : option string :=
  fst <$> List.find (fun kv => bool_decide (kv.2 = key)) (btree_entries (idempotency_keys j)).

(** The intent of an older file: same call, no operation key. *)
Definition legacy_intent (j : IntentJournal) (node tool digest : string) : option SideEffectIntent :=
  List.find (fun e => bool_decide (i_node_id e = node) && bool_decide (i_tool e = tool)
                      && bool_decide (i_args_digest e = digest)
                      && bool_decide (idempotency_keys j !! i_id e = None))
    (btree_values (entries j)).

(** [record_intent_with_key]. *)
Definition record_intent_with_key (j : IntentJournal) (node tool args key : string) (now : N)
  : string * IntentJournal :=
  let digest := args_digest args in
  match intent_for_key j key with
  | Some existing => (existing, j)
  | None =>
      match legacy_intent j node tool digest with
      | Some existing =>
          (i_id existing,
           mkJournal (entries j) (next_seq j) (<[i_id existing := key]> (idempotency_keys j)) (receipts j))
      | None =>
          let seq := saturating_add (next_seq j) 1 in
          let id := mk_intent_id node seq in
          (id, mkJournal (<[id := mkIntent id node tool digest Pending now]> (entries j)) seq
                 (<[id := key]> (idempotency_keys j)) (receipts j))
      end
  end.

Definition record_intent (j : IntentJournal) (node tool args : string) (now : N) : string * IntentJournal :=
  record_intent_with_key j node tool args (derived_key node tool args) now.

(** [receipt_for]. *)
Definition receipt_for (j : IntentJournal) (id : string) : SideEffectReceipt :=
  match receipts j !! id with
  | Some r => r
  | None => mkReceipt EmptyString
              (match entries j !! id with Some e => i_recorded_unix e | None => 0 end)
  end.

(** [prepare_dispatch]. *)
Definition supplied_key (key : option string) : option string :=
  match Text.trim <$> key with
  | Some EmptyString => None
  | k => k
  end.

Definition decide_dispatch (j : IntentJournal) (node tool args key : string) (now : N)
  : DispatchDecision * IntentJournal :=
  let digest := args_digest args in
  match intent_for_key j key with
  | Some id =>
      match entries j !! id with
      | None => (ReconciliationRequired id "idempotency index points to a missing intent", j)
      | Some intent =>
          if negb (bool_decide (i_node_id intent = node)) || negb (bool_decide (i_tool intent = tool)) then
            (ReconciliationRequired id "idempotency key is already owned by another operation", j)
          else if negb (bool_decide (i_args_digest intent = digest)) then
            (ReconciliationRequired id "operation arguments changed after the intent was recorded", j)
          else
            match i_state intent with
            | Executed => (AlreadyExecuted (i_id intent) (receipt_for j (i_id intent)), j)
            | Pending | Uncertain =>
                (ReconciliationRequired (i_id intent)
                   "operation outcome is uncertain; reconcile it before replay", j)
            | Reconciled =>
                let id := i_id intent in
                (Dispatch id,
                 match entries j !! id with
                 | Some e => with_entries j (<[id := set_state e Pending]> (entries j))
                 | None => j
                 end)
            end
      end
  | None =>
      let '(id, j) := record_intent_with_key j node tool args key now in (Dispatch id, j)
  end.

Definition prepare_dispatch (j : IntentJournal) (node tool args : string) (key : option string) (now : N)
  : DispatchDecision * IntentJournal :=
  match supplied_key key with
  | None =>
      if negb (bool_decide (classify_tool_action tool = ReadOnly)) then
        let '(id, j) := record_intent_with_key j node tool args (derived_key node tool args) now in
        (ReconciliationRequired id "mutating operation requires a stable idempotency key", j)
      else decide_dispatch j node tool args (derived_key node tool args) now
  | Some k => decide_dispatch j node tool args k now
  end.

(** [mark_executed_with_receipt]. *)
Definition mark_executed_with_receipt (j : IntentJournal) (id output : string) (now : N) : IntentJournal :=
  match entries j !! id with
  | None => j
  | Some e =>
      match i_state e with
      | Pending | Uncertain | Executed =>
          with_receipt (with_entries j (<[id := set_state e Executed]> (entries j))) id
            (mkReceipt (args_digest output) now)
      | Reconciled => j
      end
  end.

Definition mark_executed (j : IntentJournal) (id : string) : IntentJournal :=
  mark_executed_with_receipt j id EmptyString 0.

(** [reconcile_after_crash]: the ids in key order, and the journal. *)
Definition reconcile_after_crash (j : IntentJournal) : list string * IntentJournal :=
  (i_id <$> List.filter (fun e => bool_decide (i_state e = Pending)) (btree_values (entries j)),
   with_entries j
     ((fun e => if bool_decide (i_state e = Pending) then set_state e Uncertain else e) <$> entries j)).

(** [reconcile_applied]. *)
Definition reconcile_applied (j : IntentJournal) (id output : string) (now : N) : IntentJournal :=
  match entries j !! id with
  | None => j
  | Some e =>
      if bool_decide (i_state e = Uncertain) then
        with_receipt (with_entries j (<[id := set_state e Executed]> (entries j))) id
          (mkReceipt (args_digest output) now)
      else j
  end.

(** [reconcile_not_applied]. *)
Definition reconcile_not_applied (j : IntentJournal) (id : string) : IntentJournal :=
  match entries j !! id with
  | None => j
  | Some e =>
      if bool_decide (i_state e = Uncertain) then
        with_entries j (<[id := set_state e Reconciled]> (entries j))
      else j
  end.

Definition resolve (j : IntentJournal) (id : string) (executed : bool) : IntentJournal :=
  if executed then reconcile_applied j id EmptyString 0 else reconcile_not_applied j id.

(** [unreconciled] and [may_replay_node]. *)
Definition blocks (node : string) (e : SideEffectIntent) : bool :=
  bool_decide (i_node_id e = node) && bool_decide (i_state e = Uncertain).
Definition unreconciled (j : IntentJournal) (node : string) : list string :=
  i_id <$> List.filter (blocks node) (btree_values (entries j)).
Definition may_replay_node (j : IntentJournal) (node : string) : bool :=
  negb (existsb (blocks node) (btree_values (entries j))).

(** [receipt]. *)
Definition receipt (j : IntentJournal) (id : string) : option SideEffectReceipt :=
  match entries j !! id with
  | Some e => if bool_decide (i_state e = Executed) then Some (receipt_for j id) else None
  | None => None
  end.

(** [adopt]: what the journal holds wins. *)
Definition adopt (j persisted : IntentJournal) : IntentJournal :=
  mkJournal (entries j ∪ entries persisted) (N.max (next_seq j) (next_seq persisted))
    (idempotency_keys j ∪ idempotency_keys persisted) (receipts j ∪ receipts persisted).

(** ** Runs *)

Inductive JournalOp : Type :=
| JPrepare (node tool args : string) (key : option string) (now : N)
| JExecuted (id output : string) (now : N)
| JCrash
| JApplied (id output : string) (now : N)
| JNotApplied (id : string)
| JReload.

#[export] Instance JournalOp_eq_dec : EqDecision JournalOp.
Proof. solve_decision. Defined.

Definition journal_op (j : IntentJournal) (op : JournalOp) : option DispatchDecision * IntentJournal :=
  match op with
  | JPrepare node tool args key now =>
      let '(d, j) := prepare_dispatch j node tool args key now in (Some d, j)
  | JExecuted id output now => (None, mark_executed_with_receipt j id output now)
  | JCrash => (None, (reconcile_after_crash j).2)
  | JApplied id output now => (None, reconcile_applied j id output now)
  | JNotApplied id => (None, reconcile_not_applied j id)
  | JReload => (None, adopt IntentJournal_new j)
  end.

Definition journal_run (j : IntentJournal) (ops : list JournalOp) : IntentJournal :=
  fold_left (fun j op => (journal_op j op).2) ops j.

(** What the operation at one position of a run answers. *)
Definition answer (j : IntentJournal) (ops : list JournalOp) (i : nat) : option DispatchDecision :=
  match ops !! i with
  | Some op => (journal_op (journal_run j (take i ops)) op).1
  | None => None
  end.
End Journal.

(** ** Intent ids *)

Lemma dash_not_digit n : n <= u64_max -> 45 ∉ display_u64 n.
Proof.
  intros Hn Hin. destruct (display_u64_digits n Hn) as (_ & Hd & _).
  rewrite forallb_forall in Hd. by specialize (Hd 45 (proj1 (list_elem_of_In _ _) Hin)).
Qed.

Lemma mk_intent_id_seq node node' s s' : s <= u64_max -> s' <= u64_max ->
  mk_intent_id node s = mk_intent_id node' s' -> s = s'.
Proof.
  intros Hs Hs' H. apply (f_equal bytes_of) in H. unfold mk_intent_id in H.
  rewrite !bytes_of_app, !bytes_of_dec in H by done. change (bytes_of "-") with [45] in H.
  rewrite !(app_assoc (bytes_of "intent-")) in H.
  apply (last_part_inj 45) in H; [|by apply dash_not_digit..].
  apply (f_equal (parse_digits 0)) in H. rewrite !parse_display_u64 in H by done. congruence.
Qed.

(** ** Well-formed journals *)

Section Facts.
Context `{C : Crypto}.
Implicit Types (j : IntentJournal).

Record journal_ok j : Prop := {
  ok_id : forall id e, entries j !! id = Some e -> i_id e = id;
  ok_dom : forall id, is_Some (entries j !! id) <-> is_Some (idempotency_keys j !! id);
  ok_key : forall id id' k, idempotency_keys j !! id = Some k -> idempotency_keys j !! id' = Some k -> id = id';
  ok_seq : forall id, is_Some (entries j !! id) -> exists n s, id = mk_intent_id n s /\ s <= next_seq j;
}.

Lemma journal_ok_new : journal_ok IntentJournal_new.
Proof.
  split; simpl; intros *; rewrite ?lookup_empty; done.
Qed.

Lemma intent_for_key_Some j key id : intent_for_key j key = Some id ->
  idempotency_keys j !! id = Some key.
Proof.
  unfold intent_for_key. destruct (List.find _ _) as [[k v]|] eqn:H; [|done]. intros [= <-].
  apply find_Some_In in H as [Hin Hk]. apply btree_entries_In in Hin. bool_to_prop. cbn in *. by subst.
Qed.

Lemma intent_for_key_None j key id : intent_for_key j key = None -> idempotency_keys j !! id <> Some key.
Proof.
  unfold intent_for_key. destruct (List.find _ _) eqn:H; [done|]. intros _ Hid.
  rewrite find_None_all in H. specialize (H (id, key) (proj2 (btree_entries_In _ _ _) Hid)).
  by rewrite bool_decide_true in H.
Qed.

Lemma legacy_intent_None j node tool digest : journal_ok j -> legacy_intent j node tool digest = None.
Proof.
  intros [Hid Hdom _ _]. apply find_None_all. intros e He. apply btree_values_In in He as [id He].
  rewrite (Hid id e He). destruct (proj1 (Hdom id)) as [k Hk]; [by exists e|].
  rewrite Hk, (bool_decide_false (Some k = None)) by done. by rewrite andb_false_r.
Qed.

(** Recording under a key no intent has. *)
Lemma record_fresh j node tool args key now : journal_ok j -> next_seq j < u64_max ->
  intent_for_key j key = None ->
  let id := mk_intent_id node (next_seq j + 1) in
  entries j !! id = None /\
  record_intent_with_key j node tool args key now =
    (id, mkJournal (<[id := mkIntent id node tool (args_digest args) Pending now]> (entries j))
           (next_seq j + 1) (<[id := key]> (idempotency_keys j)) (receipts j)).
Proof.
  intros Hok Hb Hk id. split.
  - destruct (entries j !! id) as [e|] eqn:He; [|done]. exfalso.
    destruct (ok_seq j Hok id) as (n & s & Heq & Hs); [by exists e|].
    apply mk_intent_id_seq in Heq; lia.
  - unfold record_intent_with_key. rewrite Hk, legacy_intent_None by done.
    by rewrite saturating_add_exact by lia.
Qed.

Lemma record_fresh_ok j node tool args key now : journal_ok j -> next_seq j < u64_max ->
  intent_for_key j key = None -> journal_ok (record_intent_with_key j node tool args key now).2.
Proof.
  intros Hok Hb Hk. destruct (record_fresh j node tool args key now Hok Hb Hk) as [Hnew ->].
  destruct Hok as [Hid Hdom Hkey Hseq].
  set (id := mk_intent_id node (next_seq j + 1)) in *. split; cbn [snd entries idempotency_keys next_seq].
  - intros i e [[<- <-]|[_ He]]%lookup_insert_Some; [done|by apply Hid].
  - intros i. rewrite !lookup_insert_is_Some, Hdom. done.
  - assert (Hno : forall i, idempotency_keys j !! i <> Some key) by (intros i; by apply intent_for_key_None).
    intros i i' k [[<- <-]|[_ Hi]]%lookup_insert_Some [[<- H]|[_ Hi']]%lookup_insert_Some; [done| | |by eapply Hkey].
    + by apply Hno in Hi'.
    + subst k. by apply Hno in Hi.
  - intros i Hi. destruct (decide (id = i)) as [<-|Hne]; [by exists node, (next_seq j + 1)|].
    rewrite lookup_insert_ne in Hi by done.
    destruct (Hseq i Hi) as (n & s & -> & Hs). exists n, s. split; [done|lia].
Qed.

(** Changing the state of one intent. *)
Lemma set_state_ok j id e s : journal_ok j -> entries j !! id = Some e ->
  journal_ok (with_entries j (<[id := set_state e s]> (entries j))).
Proof.
  intros [Hid Hdom Hkey Hseq] He. split; cbn [with_entries entries idempotency_keys next_seq]; [| |done|].
  - intros i e' [[<- <-]|[_ He']]%lookup_insert_Some; [exact (Hid id e He)|by apply Hid].
  - intros i. rewrite lookup_insert_is_Some', <- Hdom. split; [|by right]. intros [<-|?]; [by exists e|done].
  - intros i. rewrite lookup_insert_is_Some'. intros [<-|Hi]; apply Hseq; [by exists e|done].
Qed.

Lemma with_receipt_ok j id r : journal_ok j -> journal_ok (with_receipt j id r).
Proof. by intros [? ? ? ?]. Qed.
(** ** What one operation does *)

Definition state_of j (id : string) : option IntentState := i_state <$> entries j !! id.

(** Keys stay; an intent that may not be dispatched stays so, except those in [lifted],
    and an executed one stays executed. *)
Record moves j j' (lifted : string -> Prop) : Prop := {
  mv_ok : journal_ok j';
  mv_seq : next_seq j <= next_seq j' <= next_seq j + 1;
  mv_keys : forall id k, idempotency_keys j !! id = Some k -> idempotency_keys j' !! id = Some k;
  mv_state : forall id s, state_of j id = Some s -> s <> Reconciled ->
    exists s', state_of j' id = Some s' /\ (s' = Reconciled -> lifted id) /\ (s = Executed -> s' = Executed);
}.

Lemma moves_refl j lifted : journal_ok j -> moves j j lifted.
Proof. intros Hok. split; [done|lia|done|]. intros id s Hs Hn. by exists s. Qed.

Lemma state_of_insert j id e s i :
  state_of (with_entries j (<[id := set_state e s]> (entries j))) i
  = if decide (id = i) then Some s else state_of j i.
Proof.
  unfold state_of. cbn [with_entries entries]. destruct (decide (id = i)) as [<-|Hne].
  - by rewrite lookup_insert_eq.
  - by rewrite lookup_insert_ne.
Qed.

Lemma moves_set j id e s (lifted : string -> Prop) : journal_ok j -> entries j !! id = Some e ->
  (i_state e <> Reconciled -> (s = Reconciled -> lifted id) /\ (i_state e = Executed -> s = Executed)) ->
  moves j (with_entries j (<[id := set_state e s]> (entries j))) lifted.
Proof.
  intros Hok He Hs. split; [by apply set_state_ok|simpl; lia|done|].
  intros i t Ht Hn. rewrite state_of_insert. destruct (decide (id = i)) as [<-|]; [|by exists t].
  unfold state_of in Ht. rewrite He in Ht. injection Ht as <-. exists s. naive_solver.
Qed.

Lemma moves_receipt j j' id r lifted : moves j j' lifted -> moves j (with_receipt j' id r) lifted.
Proof. intros [Hok Hs Hk Hst]. split; [by apply with_receipt_ok|done|done|done]. Qed.

Lemma moves_record j node tool args key now lifted : journal_ok j -> next_seq j < u64_max ->
  intent_for_key j key = None -> moves j (record_intent_with_key j node tool args key now).2 lifted.
Proof.
  intros Hok Hb Hk. pose proof (record_fresh_ok j node tool args key now Hok Hb Hk) as Hok'.
  destruct (record_fresh j node tool args key now Hok Hb Hk) as [Hnew Heq]. rewrite Heq in *. cbn [snd] in *.
  split; [done|simpl; lia| |].
  - intros id k Hid. cbn [idempotency_keys]. rewrite lookup_insert_ne; [done|]. intros <-.
    destruct (proj2 (ok_dom j Hok _) ltac:(by exists k)) as [e He]. by rewrite He in Hnew.
  - intros id s Hs Hn. exists s. unfold state_of in *. cbn [entries]. rewrite lookup_insert_ne; [done|].
    intros <-. by rewrite Hnew in Hs.
Qed.

(** What an answer [Dispatch id] tells. *)
Definition dispatched j j' (id : string) : Prop :=
  (state_of j id = None \/ state_of j id = Some Reconciled) /\ state_of j' id = Some Pending.

Lemma decide_dispatch_spec j node tool args key now lifted : journal_ok j -> next_seq j < u64_max ->
  let r := decide_dispatch j node tool args key now in
  moves j r.2 lifted /\
  forall id, r.1 = Dispatch id -> dispatched j r.2 id /\ idempotency_keys r.2 !! id = Some key.
Proof.
  intros Hok Hb r. unfold r, decide_dispatch. clear r.
  destruct (intent_for_key j key) as [id|] eqn:Hk.
  - destruct (entries j !! id) as [e|] eqn:He; [|by split; [apply moves_refl|]].
    pose proof (ok_id j Hok id e He) as Hid.
    destruct (_ || _); [by split; [apply moves_refl|]|]. destruct (negb _); [by split; [apply moves_refl|]|].
    destruct (i_state e) eqn:Hs; try (by split; [apply moves_refl|]).
    rewrite Hid, He. cbn [fst snd]. split; [by apply moves_set; [| |rewrite Hs]|].
    intros i [= <-]. split; [|by apply intent_for_key_Some]. split.
    + right. unfold state_of. rewrite He. simpl. by rewrite Hs.
    + rewrite state_of_insert. by destruct (decide (id = id)).
  - destruct (record_fresh j node tool args key now Hok Hb Hk) as [Hnew Heq].
    pose proof (moves_record j node tool args key now lifted Hok Hb Hk) as Hm. rewrite Heq in *. cbn [fst snd] in *.
    split; [done|]. intros i [= <-]. unfold dispatched, state_of. cbn [entries idempotency_keys].
    rewrite Hnew, !lookup_insert_eq. split; [split; [by left|done]|done].
Qed.

Lemma moves_prepare j node tool args key now lifted : journal_ok j -> next_seq j < u64_max ->
  let r := prepare_dispatch j node tool args key now in
  moves j r.2 lifted /\
  forall id, r.1 = Dispatch id -> dispatched j r.2 id /\
    idempotency_keys r.2 !! id = Some (default (derived_key node tool args) (supplied_key key)).
Proof.
  intros Hok Hb r. unfold r, prepare_dispatch. clear r. destruct (supplied_key key) as [k|].
  - by apply decide_dispatch_spec.
  - destruct (negb _); [|by apply decide_dispatch_spec].
    destruct (intent_for_key j (derived_key node tool args)) as [i|] eqn:Hk.
    + unfold record_intent_with_key. rewrite Hk. by split; [apply moves_refl|].
    + pose proof (moves_record j node tool args _ now lifted Hok Hb Hk) as Hm.
      destruct (record_intent_with_key _ _ _ _ _ _). done.
Qed.

Lemma moves_crash j lifted : journal_ok j -> moves j (reconcile_after_crash j).2 lifted.
Proof.
  intros Hok. set (f := fun e => if bool_decide (i_state e = Pending) then set_state e Uncertain else e).
  assert (Hf : forall id, entries (reconcile_after_crash j).2 !! id = f <$> entries j !! id)
    by (intros id; apply lookup_fmap).
  split; [|simpl; lia|done|].
  - destruct Hok as [Hid Hdom Hkey Hseq]. split; [| |done|].
    + intros id e. rewrite Hf. intros (e0 & He & ->)%fmap_Some. unfold f. case_bool_decide; exact (Hid id e0 He).
    + intros id. rewrite Hf, fmap_is_Some. apply Hdom.
    + intros id. rewrite Hf, fmap_is_Some. apply Hseq.
  - unfold state_of. intros id s Hs Hn. rewrite Hf. destruct (entries j !! id) as [e|]; [|done].
    injection Hs as <-. unfold f. cbn [fmap option_fmap option_map].
    case_bool_decide as Hp; [exists Uncertain|by exists (i_state e)]. split; [done|]. rewrite Hp. by split.
Qed.

Lemma adopt_new j : adopt IntentJournal_new j = j.
Proof. destruct j. unfold adopt. simpl. rewrite !(left_id_L ∅ (∪)). f_equal. lia. Qed.

Lemma journal_step j op : journal_ok j -> next_seq j < u64_max ->
  moves j (journal_op j op).2 (fun id => op = JNotApplied id) /\
  forall id, (journal_op j op).1 = Some (Dispatch id) -> dispatched j (journal_op j op).2 id.
Proof.
  intros Hok Hb. destruct op as [node tool args key now|id output now| |id output now|id|]; cbn [journal_op].
  - pose proof (moves_prepare j node tool args key now (fun id => JPrepare node tool args key now = JNotApplied id) Hok Hb)
      as [Hm Hd]. destruct (prepare_dispatch _ _ _ _ _ _) as [d j']. split; [done|]. intros id [= ->]. by apply Hd.
  - split; [|done]. cbn [snd]. unfold mark_executed_with_receipt. destruct (entries j !! id) as [e|] eqn:He; [|by apply moves_refl].
    destruct (i_state e) eqn:Hs; try (apply moves_receipt, moves_set; [done|done|by rewrite Hs]). by apply moves_refl.
  - split; [by apply moves_crash|done].
  - split; [|done]. cbn [snd]. unfold reconcile_applied. destruct (entries j !! id) as [e|] eqn:He; [|by apply moves_refl].
    case_bool_decide as Hs; [|by apply moves_refl]. apply moves_receipt, moves_set; [done|done|by rewrite Hs].
  - split; [|done]. cbn [snd]. unfold reconcile_not_applied. destruct (entries j !! id) as [e|] eqn:He; [|by apply moves_refl].
    case_bool_decide as Hs; [|by apply moves_refl]. apply moves_set; [done|done|by rewrite Hs].
  - split; [|done]. cbn [snd]. rewrite adopt_new. by apply moves_refl.
Qed.
(** ** Runs *)

Lemma run_take_S j ops i op : ops !! i = Some op ->
  journal_run j (take (S i) ops) = (journal_op (journal_run j (take i ops)) op).2.
Proof. intros H. unfold journal_run. by rewrite (take_S_r _ _ _ H), fold_left_app. Qed.

Lemma run_ok j ops i : journal_ok j -> next_seq j + N.of_nat (length ops) <= u64_max -> (i <= length ops)%nat ->
  journal_ok (journal_run j (take i ops)) /\
  next_seq (journal_run j (take i ops)) <= next_seq j + N.of_nat i.
Proof.
  intros Hok Hb. induction i as [|i IH]; intros Hi; [split; [done|simpl; lia]|].
  destruct (IH ltac:(lia)) as [Hoki Hseq]. destruct (lookup_lt_is_Some_2 ops i) as [op Hop]; [lia|].
  rewrite (run_take_S _ _ _ _ Hop). destruct (journal_step _ op Hoki) as [[Hok' Hs _ _] _]; [lia|].
  split; [done|lia].
Qed.

(** From an intent that may not be dispatched to one that may: somebody lifted it. *)
Lemma held_until_lifted j ops i k id s : journal_ok j ->
  next_seq j + N.of_nat (length ops) <= u64_max -> (i <= k <= length ops)%nat ->
  state_of (journal_run j (take i ops)) id = Some s -> s <> Reconciled ->
  (forall m, (i <= m < k)%nat -> ops !! m <> Some (JNotApplied id)) ->
  exists s', state_of (journal_run j (take k ops)) id = Some s' /\ s' <> Reconciled /\
    (s = Executed -> s' = Executed).
Proof.
  intros Hok Hb [Hik Hk] Hs Hn. revert Hk. induction Hik as [|k Hik IH]; intros Hk Hno; [by exists s|].
  destruct IH as (t & Ht & Htn & Hte); [lia|intros m Hm; apply Hno; lia|].
  destruct (lookup_lt_is_Some_2 ops k) as [op Hop]; [lia|].
  destruct (run_ok j ops k Hok Hb ltac:(lia)) as [Hokk Hseq].
  destruct (journal_step _ op Hokk) as [Hm _]; [lia|].
  destruct (mv_state _ _ _ Hm id t Ht Htn) as (u & Hu & Hlift & Hexec).
  exists u. rewrite (run_take_S _ _ _ _ Hop). split; [done|]. split; [|auto].
  intros ->. apply (Hno k); [lia|]. rewrite Hop. f_equal. by apply Hlift.
Qed.

Lemma keys_stay j ops i k id key : journal_ok j -> next_seq j + N.of_nat (length ops) <= u64_max ->
  (i <= k <= length ops)%nat -> idempotency_keys (journal_run j (take i ops)) !! id = Some key ->
  idempotency_keys (journal_run j (take k ops)) !! id = Some key.
Proof.
  intros Hok Hb [Hik Hk] Hi. revert Hk. induction Hik as [|k Hik IH]; intros Hk; [done|].
  destruct (lookup_lt_is_Some_2 ops k) as [op Hop]; [lia|].
  destruct (run_ok j ops k Hok Hb ltac:(lia)) as [Hokk Hseq].
  destruct (journal_step _ op Hokk) as [Hm _]; [lia|].
  rewrite (run_take_S _ _ _ _ Hop). apply (mv_keys _ _ _ Hm), IH. lia.
Qed.

(** A dispatch at one position: the intent is held right after it. *)
Lemma answer_dispatch j ops i id : journal_ok j -> next_seq j + N.of_nat (length ops) <= u64_max ->
  answer j ops i = Some (Dispatch id) ->
  dispatched (journal_run j (take i ops)) (journal_run j (take (S i) ops)) id /\ (S i <= length ops)%nat.
Proof.
  intros Hok Hb H. unfold answer in H. destruct (ops !! i) as [op|] eqn:Hop; [|done].
  pose proof (lookup_lt_Some _ _ _ Hop) as Hi. destruct (run_ok j ops i Hok Hb ltac:(lia)) as [Hoki Hseq].
  rewrite (run_take_S _ _ _ _ Hop). split; [|lia]. apply journal_step; [done|lia|done].
Qed.

Lemma answer_key j ops i id node tool args key now : journal_ok j ->
  next_seq j + N.of_nat (length ops) <= u64_max ->
  ops !! i = Some (JPrepare node tool args key now) -> answer j ops i = Some (Dispatch id) ->
  idempotency_keys (journal_run j (take (S i) ops)) !! id
  = Some (default (derived_key node tool args) (supplied_key key)).
Proof.
  intros Hok Hb Hop H. unfold answer in H. rewrite Hop in H.
  pose proof (lookup_lt_Some _ _ _ Hop) as Hi. destruct (run_ok j ops i Hok Hb ltac:(lia)) as [Hoki Hseq].
  rewrite (run_take_S _ _ _ _ Hop). cbn [journal_op] in *.
  destruct (moves_prepare _ node tool args key now (fun _ => True) Hoki ltac:(lia)) as [_ Hd].
  destruct (prepare_dispatch _ _ _ _ _ _) as [d j']. injection H as ->. by apply Hd.
Qed.

(** C14. At most one effect per operation. From a journal in which every intent has an
    operation key of its own, as every journal these operations write from an empty one has
    ([run_ok]), and while the sequence counter does not saturate: whatever happens in
    between - observed completions, crashes, restarts, reconciliations, other operations -
    if two requests with the same operation key are both told to dispatch, they were given
    one intent, and between them that intent was reconciled as not applied. An intent
    without a key, from an older file, is outside of this: a request adopts it and is told
    to dispatch ([legacy_uncertain_is_dispatched]). *)
Theorem dispatched_at_most_once j ops i k n1 t1 a1 w1 n2 t2 a2 w2 key op_key id1 id2 :
  journal_ok j -> next_seq j + N.of_nat (length ops) <= u64_max -> (i < k)%nat ->
  supplied_key key = Some op_key ->
  ops !! i = Some (JPrepare n1 t1 a1 key w1) -> ops !! k = Some (JPrepare n2 t2 a2 key w2) ->
  answer j ops i = Some (Dispatch id1) -> answer j ops k = Some (Dispatch id2) ->
  id1 = id2 /\ exists m, (i < m < k)%nat /\ ops !! m = Some (JNotApplied id1).
Proof.
  intros Hok Hb Hik Hkey Hi Hk Hai Hak.
  destruct (answer_dispatch j ops i id1 Hok Hb Hai) as [[_ Hst] _].
  destruct (answer_dispatch j ops k id2 Hok Hb Hak) as [[Hbefore _] Hlen].
  pose proof (answer_key j ops i id1 _ _ _ _ _ Hok Hb Hi Hai) as Hk1. rewrite Hkey in Hk1.
  pose proof (answer_key j ops k id2 _ _ _ _ _ Hok Hb Hk Hak) as Hk2. rewrite Hkey in Hk2.
  assert (id1 = id2) as <-.
  { eapply (ok_key (journal_run j (take (S k) ops))); [apply run_ok; [done|done|lia]| |exact Hk2].
    eapply keys_stay; [done|done| |exact Hk1]. lia. }
  split; [done|].
  destruct (decide (Exists (fun m => ops !! m = Some (JNotApplied id1)) (seq (S i) (k - S i)))) as [He|Hno].
  - apply Exists_exists in He as (m & Hm & Hop). apply elem_of_seq in Hm. exists m. split; [lia|done].
  - exfalso. destruct (held_until_lifted j ops (S i) k id1 Pending Hok Hb ltac:(lia) Hst ltac:(done))
      as (s' & Hs' & Hn & _).
    { intros m Hm Hop. apply Hno, Exists_exists. exists m. split; [apply elem_of_seq; lia|done]. }
    destruct Hbefore as [H|H]; rewrite H in Hs'; [done|]. by injection Hs' as <-.
Qed.

(** An executed effect is final: once an intent is executed it stays executed and no
    later request is told to dispatch it, whatever operations follow. *)
Theorem executed_is_final j ops k id :
  journal_ok j -> next_seq j + N.of_nat (length ops) <= u64_max ->
  state_of j id = Some Executed ->
  answer j ops k <> Some (Dispatch id) /\ state_of (journal_run j ops) id = Some Executed.
Proof.
  intros Hok Hb Hst.
  assert (Hall : forall i, (i <= length ops)%nat -> state_of (journal_run j (take i ops)) id = Some Executed).
  { induction i as [|i IH]; intros Hi; [done|]. specialize (IH ltac:(lia)).
    destruct (lookup_lt_is_Some_2 ops i) as [op Hop]; [lia|].
    destruct (run_ok j ops i Hok Hb ltac:(lia)) as [Hoki Hseq].
    destruct (journal_step _ op Hoki) as [Hm _]; [lia|].
    destruct (mv_state _ _ _ Hm id Executed IH ltac:(done)) as (u & Hu & _ & Hexec).
    rewrite (run_take_S _ _ _ _ Hop), Hu. f_equal. by apply Hexec. }
  split.
  - intros Ha. destruct (answer_dispatch j ops k id Hok Hb Ha) as [[Hbefore _] Hlen].
    rewrite (Hall k ltac:(lia)) in Hbefore. by destruct Hbefore.
  - specialize (Hall (length ops) ltac:(lia)). by rewrite take_ge in Hall by lia.
Qed.

(** Replay of a node is refused exactly while it has something to reconcile. *)
Lemma may_replay_iff j node : may_replay_node j node = true <-> unreconciled j node = [].
Proof.
  unfold may_replay_node, unreconciled. rewrite negb_true_iff, existsb_false. split.
  - intros H. by rewrite filter_none.
  - intros H%fmap_nil_inv x Hx. apply not_true_is_false. intros Hf.
    assert (Hin : In x (List.filter (blocks node) (btree_values (entries j)))) by (by apply filter_In).
    by rewrite H in Hin.
Qed.
End Facts.

(** ** Examples *)

Module Sample.
Definition prepare (now : N) : JournalOp := JPrepare "n0" "exec_command" "make" (Some "op-1") now.
Definition the_id : string := "intent-n0-1".

(** Dispatched, lost in a crash, found not to have run, dispatched again. *)
Definition run : list JournalOp := [prepare 1; JCrash; JReload; JNotApplied the_id; prepare 9].

(** A journal of an older file: an uncertain call and no operation key. *)
Definition legacy `{Crypto} : IntentJournal :=
  mkJournal {[ the_id := mkIntent the_id "n0" "exec_command" (args_digest "make") Uncertain 1 ]} 1 ∅ ∅.
End Sample.

Lemma dispatched_at_most_once_witness :
  exists m, (0 < m < 4)%nat /\ Sample.run !! m = Some (JNotApplied Sample.the_id).
Proof.
  refine (proj2 (dispatched_at_most_once (C := Toy.crypto) IntentJournal_new Sample.run 0 4
    _ _ _ _ _ _ _ _ (Some "op-1") "op-1" Sample.the_id Sample.the_id
    journal_ok_new _ _ _ eq_refl eq_refl _ _));
    [vm_compute; discriminate|lia|vm_compute; reflexivity..].
Defined.

Lemma executed_is_final_witness :
  let j := journal_run (C := Toy.crypto) IntentJournal_new [Sample.prepare 1; JExecuted Sample.the_id "ok" 2] in
  state_of j Sample.the_id = Some Executed /\
  answer (C := Toy.crypto) j [JCrash; JReload; JNotApplied Sample.the_id; Sample.prepare 9] 3
    <> Some (Dispatch Sample.the_id).
Proof.
  intros j. assert (Hst : state_of j Sample.the_id = Some Executed) by (by vm_compute).
  split; [exact Hst|].
  refine (proj1 (executed_is_final (C := Toy.crypto) j
    [JCrash; JReload; JNotApplied Sample.the_id; Sample.prepare 9] 3 Sample.the_id _ _ Hst)).
  - apply (run_ok (C := Toy.crypto) IntentJournal_new
      [Sample.prepare 1; JExecuted Sample.the_id "ok" 2] 2 journal_ok_new); [vm_compute; discriminate|simpl; lia].
  - vm_compute. discriminate.
Defined.

(** An intent of an older file has no operation key; a request with a key adopts it and
    is told to dispatch although its outcome is uncertain. *)
Lemma legacy_uncertain_is_dispatched :
  let j := Sample.legacy (H := Toy.crypto) in
  unreconciled j "n0" = [Sample.the_id] /\
  (prepare_dispatch (C := Toy.crypto) j "n0" "exec_command" "make" (Some "op-1") 9).1
  = Dispatch Sample.the_id.
Proof. by vm_compute. Qed.
