(* ===== verification/MissionPersist.v ===== *)
(** * MissionPersist: the durable mission record
    ([crates/susi-gawd-swarm/src/mission_persist.rs])

    [PersistedMission] ties the nodes of a mission to its lease table and its
    side-effect journal.  A mission file is the value last saved, since [save] replaces
    it atomically; [Store] is the missions and snapshots of a workspace.  Writing a file
    is an argument that may fail. *)

From S2P Require Import Prelude Text Money TaskLease ClusterKey SideEffects.
From Stdlib Require Import Ascii.

Local Open Scope string_scope.
Local Open Scope list_scope.
Local Open Scope N_scope.

Inductive NodeTerminal : Type := NPending | NRunning | NCompleted | NFailed.

#[export] Instance NodeTerminal_eq_dec : EqDecision NodeTerminal.
Proof. solve_decision. Defined.

Definition name (s : NodeTerminal) : string :=
  match s with NPending => "pending" | NRunning => "running" | NCompleted => "completed" | NFailed => "failed" end.

Record PersistedNode : Type := mkNode {
  n_id : string;
  n_input : string;
  dependencies : list string;
  n_output : option string;
  n_state : NodeTerminal;
}.

Record Interruption : Type := mkInterruption {
  int_unix : N;
  int_nodes : list string;
}.

Inductive ResumeVerdict : Type :=
| Complete
| TerminalFailed (failed : list (string * string))
| Resumable.

Record Restore : Type := mkRestore {
  res_unix : N;
  res_snapshot : string;
  res_replaced : list string;
}.

Record PersistedMission : Type := mkMission {
  mission_id : string;
  nodes : gmap string PersistedNode;
  ownership : OwnershipEpoch;
  m_coordinator : string;
  m_leases : LeaseTable;
  m_recovery : LeaseRecovery;
  journal : IntentJournal;
  interruptions : list Interruption;
  restores : list Restore;
}.

Definition new (id : string) : PersistedMission :=
  mkMission id ∅ OwnershipEpoch_default EmptyString LeaseTable_default LeaseRecovery_default
    IntentJournal_new [] [].

Definition set_nodes (m : PersistedMission) (ns : gmap string PersistedNode) : PersistedMission :=
  mkMission (mission_id m) ns (ownership m) (m_coordinator m) (m_leases m) (m_recovery m) (journal m)
    (interruptions m) (restores m).
(** The lease table and the copy of its recovery metadata. *)
Definition set_leases (m : PersistedMission) (t : LeaseTable) : PersistedMission :=
  mkMission (mission_id m) (nodes m) (ownership m) (m_coordinator m) t (recovery t) (journal m)
    (interruptions m) (restores m).
Definition set_scopes (t : LeaseTable) (s : gset string) : LeaseTable :=
  let r := recovery t in
  mkTable (leases t) (TaskLease.next_fence t) (epoch t)
    (mkRecovery (generation r) (recovered_at_unix r) s (revoked_workers r)) (lease_epochs t).
Definition set_node_state (n : PersistedNode) (s : NodeTerminal) : PersistedNode :=
  mkNode (n_id n) (n_input n) (dependencies n) (n_output n) s.

(** [upsert_node]. *)
Definition upsert_node (m : PersistedMission) (n : PersistedNode) : PersistedMission :=
  set_nodes m (<[n_id n := n]> (nodes m)).

(** [set_active_scope], [clear_active_scope]. *)
Definition set_active_scope (m : PersistedMission) (s : string) : PersistedMission :=
  set_leases m (set_scopes (m_leases m) ({[s]} ∪ active_scopes (recovery (m_leases m)))).
Definition clear_active_scope (m : PersistedMission) (s : string) : PersistedMission :=
  set_leases m (set_scopes (m_leases m) (active_scopes (recovery (m_leases m)) ∖ {[s]})).

(** [begin_recovery]: the scopes to cancel, in set order, and the mission. *)
Definition begin_recovery (m : PersistedMission) (coordinator : string) (now : N)
  : list string * PersistedMission :=
  let stale := merge_sort String.le (elements (active_scopes (recovery (m_leases m)))) in
  let own := TaskLease.next (ownership m) in
  let t := set_scopes (TaskLease.begin_recovery (m_leases m) own now) ∅ in
  (stale,
   mkMission (mission_id m) (nodes m) own coordinator t (recovery t)
     (reconcile_after_crash (journal m)).2 (interruptions m) (restores m)).

(** [transaction] and [begin_recovery_atomic]: the candidate becomes the state only when
    it was saved. *)
Definition transaction (save : PersistedMission -> result unit string) (m : PersistedMission)
  (update : PersistedMission -> result PersistedMission string) : result unit string * PersistedMission :=
  match update m with
  | Err e => (Err e, m)
  | Ok candidate =>
      match save candidate with
      | Err e => (Err e, m)
      | Ok _ => (Ok tt, candidate)
      end
  end.

Definition begin_recovery_atomic (save : PersistedMission -> result unit string) (m : PersistedMission)
  (coordinator : string) (now : N) : result (list string) string * PersistedMission :=
  let '(stale, candidate) := begin_recovery m coordinator now in
  match save candidate with
  | Err e => (Err e, m)
  | Ok _ => (Ok stale, candidate)
  end.

(** [renew_lease]. *)
Definition renew_lease (save : PersistedMission -> result unit string) (m : PersistedMission)
  (task own : string) (token : AuthorityToken) (now ttl : N)
  : result CompleteVerdict string * PersistedMission :=
  let '(verdict, t) := renew (m_leases m) task own token now ttl in
  match verdict with
  | Accepted =>
      let candidate := set_leases m t in
      match save candidate with
      | Err e => (Err e, m)
      | Ok _ => (Ok verdict, candidate)
      end
  | _ => (Ok verdict, m)
  end.

(** ** Nodes *)

Definition completed_dep (ns : gmap string PersistedNode) (d : string) : bool :=
  match ns !! d with Some n => bool_decide (n_state n = NCompleted) | None => false end.

(** [runnable]. *)
Definition runnable (m : PersistedMission) : list PersistedNode :=
  List.filter (fun n => bool_decide (n_state n = NPending)
                        && forallb (completed_dep (nodes m)) (dependencies n))
    (btree_values (nodes m)).

(** [dispatch]. *)
Definition dispatch (m : PersistedMission) (id : string) : result unit string * PersistedMission :=
  match nodes m !! id with
  | None => (Err ("unknown node " +:+ id), m)
  | Some n =>
      if negb (bool_decide (n_state n = NPending)) then
        (Err ("refuse dispatch of non-pending node " +:+ id), m)
      else if negb (forallb (completed_dep (nodes m)) (dependencies n)) then
        (Err ("deps incomplete for " +:+ id), m)
      else (Ok tt, set_nodes m (<[id := set_node_state n NRunning]> (nodes m)))
  end.

(** [complete]. *)
Definition complete (m : PersistedMission) (id output : string) : result unit string * PersistedMission :=
  match nodes m !! id with
  | None => (Err ("unknown node " +:+ id), m)
  | Some n =>
      if negb (bool_decide (n_state n = NRunning)) then
        (Err ("refuse complete of non-running node " +:+ id), m)
      else
        (Ok tt, set_nodes m (<[id := mkNode (n_id n) (n_input n) (dependencies n) (Some output) NCompleted]>
                               (nodes m)))
  end.

(** [reconcile_interrupted]. *)
Definition is_running (n : PersistedNode) : bool := bool_decide (n_state n = NRunning).
Definition fold_back (n : PersistedNode) : PersistedNode :=
  if is_running n then set_node_state n NPending else n.
Definition reconcile_interrupted (m : PersistedMission) (now : N) : list string * PersistedMission :=
  let interrupted := n_id <$> List.filter is_running (btree_values (nodes m)) in
  match interrupted with
  | [] => ([], m)
  | _ =>
      (interrupted,
       mkMission (mission_id m) (fold_back <$> nodes m) (ownership m) (m_coordinator m) (m_leases m)
         (m_recovery m) (journal m) (interruptions m ++ [mkInterruption now interrupted]) (restores m))
  end.

(** [resume_verdict]. *)
Definition resume_verdict (m : PersistedMission) : ResumeVerdict :=
  let all := btree_values (nodes m) in
  if negb (bool_decide (nodes m = ∅)) && forallb (fun n => bool_decide (n_state n = NCompleted)) all
  then Complete
  else
    match (fun n => (n_id n, default "(no output)" (n_output n)))
            <$> List.filter (fun n => bool_decide (n_state n = NFailed)) all with
    | [] => Resumable
    | failed => TerminalFailed failed
    end.

(** ** Files *)

(** The missions directory, and the snapshots of each mission by file name. *)
Record Store : Type := mkStore {
  files : gmap string PersistedMission;
  snapshots : gmap string (gmap string PersistedMission);
}.

Definition save (s : Store) (m : PersistedMission) : Store :=
  mkStore (<[mission_id m := m]> (files s)) (snapshots s).

(** [load]: what it makes of the record it read. *)
Definition load_record (m : PersistedMission) : PersistedMission :=
  let t := m_leases m in
  let t' := set_scopes t (active_scopes (recovery t) ∪ active_scopes (m_recovery m)) in
  mkMission (mission_id m) (nodes m) (epoch_max (ownership m) (epoch t)) (m_coordinator m) t' (recovery t')
    (journal m) (interruptions m) (restores m).

Definition load (s : Store) (id : string) : option PersistedMission := load_record <$> files s !! id.

(** The label of a snapshot: one dash for a character outside [[A-Za-z0-9_-]]; the
    continuation bytes of a UTF-8 character are dropped, so that it counts once. *)
Definition is_continuation (c : Ascii.ascii) : bool :=
  let n := N_of_ascii c in (128 <=? n) && (n <? 192).
Definition safe_char (c : Ascii.ascii) : Ascii.ascii :=
  if is_ascii_alphanumeric c || Ascii.eqb c "-"%char || Ascii.eqb c "_"%char then c else "-"%char.
Definition safe_label (label : string) : string :=
  map_string safe_char
    (Stdlib.Strings.String.string_of_list_ascii
       (List.filter (fun c => negb (is_continuation c)) (Stdlib.Strings.String.list_ascii_of_string label))).

(** The [{:020}] format. *)
Definition pad20 (n : N) : string :=
  ascii_text (repeat 48 (20 - length (display_u64 n)) ++ display_u64 n).

Definition snapshot_name (now : N) (label : string) : string :=
  pad20 now +:+ "-" +:+ safe_label label +:+ ".json".

(** [list_snapshots], [latest_snapshot], [prune_snapshots]. *)
Definition snapshots_of (s : Store) (id : string) : gmap string PersistedMission :=
  default ∅ (snapshots s !! id).
Definition list_snapshots (s : Store) (id : string) : list string :=
  merge_sort String.le
    (List.filter (fun n => match strip_suffix ".json" n with Some _ => true | None => false end)
       (map_to_list (snapshots_of s id)).*1).
Definition latest_snapshot (s : Store) (id : string) : option string := last (list_snapshots s id).
Definition prune_snapshots (s : Store) (id : string) (keep_last : nat) : Store :=
  let names := list_snapshots s id in
  let dropped := take (length names - keep_last) names in
  mkStore (files s)
    (<[id := foldr delete (snapshots_of s id) dropped]> (snapshots s)).

(** [snapshot]. *)
Definition snapshot (s : Store) (m : PersistedMission) (label : string) (keep_last : nat) (now : N)
  : string * Store :=
  let nm := snapshot_name now label in
  let s := mkStore (files s)
             (<[mission_id m := <[nm := m]> (snapshots_of s (mission_id m))]> (snapshots s)) in
  (nm, prune_snapshots s (mission_id m) keep_last).

(** [rollback]. *)
Definition bad_snapshot_name (n : string) : bool := contains "/" n || contains ".." n.

Definition rollback (s : Store) (id : string) (snap : option string) (now : N)
  : result PersistedMission string * Store :=
  match (match snap with Some n => Some n | None => latest_snapshot s id end) with
  | None => (Err ("no snapshot to roll mission " +:+ id +:+ " back to"), s)
  | Some nm =>
      if bad_snapshot_name nm then (Err ("bad snapshot name " +:+ nm), s)
      else
        match load_record <$> snapshots_of s id !! nm with
        | None => (Err ("load snapshot " +:+ nm), s)
        | Some r =>
            let replaced :=
              match load s id with
              | Some current =>
                  (fun n => n_id n +:+ ":" +:+ name (n_state n)) <$> btree_values (nodes current)
              | None => ["(no current record)"]
              end in
            let r := mkMission id (nodes r) (ownership r) (m_coordinator r) (m_leases r) (m_recovery r)
                       (journal r) (interruptions r) (restores r ++ [mkRestore now nm replaced]) in
            (Ok r, save s r)
        end
  end.

(** ** Node runs *)

Inductive NodeOp : Type :=
| NDispatch (id : string)
| NComplete (id output : string)
| NInterrupt (now : N)
| NRestart (coordinator : string) (now : N).

Definition node_op (m : PersistedMission) (op : NodeOp) : PersistedMission :=
  match op with
  | NDispatch id => (dispatch m id).2
  | NComplete id output => (complete m id output).2
  | NInterrupt now => (reconcile_interrupted m now).2
  | NRestart c now => (begin_recovery m c now).2
  end.

Definition node_run (m : PersistedMission) (ops : list NodeOp) : PersistedMission := fold_left node_op ops m.

(** A node that runs or ran had all its dependencies done. *)
Definition nodes_ok (ns : gmap string PersistedNode) : Prop :=
  forall id n, ns !! id = Some n -> n_state n = NRunning \/ n_state n = NCompleted ->
    forallb (completed_dep ns) (dependencies n) = true.

(** The completed nodes of one map are those of the other, outputs included. *)
Definition keeps_completed (ns ns' : gmap string PersistedNode) : Prop :=
  forall id n, ns !! id = Some n -> n_state n = NCompleted -> ns' !! id = Some n.

Lemma keeps_deps ns ns' deps : keeps_completed ns ns' ->
  forallb (completed_dep ns) deps = true -> forallb (completed_dep ns') deps = true.
Proof.
  intros Hk H. rewrite forallb_forall in *. intros d Hd. specialize (H d Hd). unfold completed_dep in *.
  destruct (ns !! d) as [n|] eqn:Hn; [|done]. bool_to_prop. rewrite (Hk d n Hn H). by apply bool_decide_eq_true.
Qed.

(** Replacing a node that is not completed. *)
Lemma replace_node_ok ns id n n' : nodes_ok ns -> ns !! id = Some n -> n_state n <> NCompleted ->
  (n_state n' = NRunning \/ n_state n' = NCompleted -> forallb (completed_dep ns) (dependencies n') = true) ->
  keeps_completed ns (<[id := n']> ns) /\ nodes_ok (<[id := n']> ns).
Proof.
  intros Hok Hn Hs Hn'.
  assert (Hk : keeps_completed ns (<[id := n']> ns)).
  { intros i x Hi Hx. rewrite lookup_insert_ne; [done|]. intros <-. congruence. }
  split; [done|]. intros i x [[<- <-]|[_ Hi]]%lookup_insert_Some Hx; (eapply keeps_deps; [done|]); [by apply Hn'|by eapply Hok].
Qed.

Lemma fold_back_ok ns : nodes_ok ns -> keeps_completed ns (fold_back <$> ns) /\ nodes_ok (fold_back <$> ns).
Proof.
  intros Hok.
  assert (Hk : keeps_completed ns (fold_back <$> ns)).
  { intros i x Hi Hx. rewrite lookup_fmap, Hi. cbn [fmap option_fmap option_map]. unfold fold_back, is_running. by rewrite Hx. }
  split; [done|]. intros i x Hi Hx. rewrite lookup_fmap in Hi. apply fmap_Some in Hi as (y & Hy & ->).
  unfold fold_back, is_running in *. eapply keeps_deps; [done|]. case_bool_decide as Hr.
  - by destruct Hx.
  - by apply (Hok i y).
Qed.

Lemma node_op_ok m op : nodes_ok (nodes m) ->
  keeps_completed (nodes m) (nodes (node_op m op)) /\ nodes_ok (nodes (node_op m op)).
Proof.
  intros Hok. assert (Hself : keeps_completed (nodes m) (nodes m) /\ nodes_ok (nodes m)) by (by split; [intros ?|]).
  destruct op as [id|id output|now|c now]; cbn [node_op]; [| | |done].
  - unfold dispatch. destruct (nodes m !! id) as [n|] eqn:Hn; [|done].
    case_bool_decide as Hp; cbn [negb]; [|done].
    destruct (forallb (completed_dep (nodes m)) (dependencies n)) eqn:Hd; cbn [negb]; [|done].
    cbn [snd set_nodes nodes]. apply (replace_node_ok _ id n); [done|done|by rewrite Hp|done].
  - unfold complete. destruct (nodes m !! id) as [n|] eqn:Hn; [|done].
    case_bool_decide as Hp; cbn [negb]; [|done].
    cbn [snd set_nodes nodes]. apply (replace_node_ok _ id n); [done|done|by rewrite Hp|].
    intros _. apply (Hok id n Hn). by left.
  - unfold reconcile_interrupted. destruct (n_id <$> _); [done|]. cbn [snd nodes]. by apply fold_back_ok.
Qed.

(** Completed work is kept, in dependency order.  Along any sequence of dispatches,
    completions, fold-backs and restarts, refused ones included, a completed node stays
    completed with the same record and output, and a node that is running or completed
    had all its dependencies completed. *)
Theorem completed_work_is_kept m ops : nodes_ok (nodes m) ->
  keeps_completed (nodes m) (nodes (node_run m ops)) /\ nodes_ok (nodes (node_run m ops)).
Proof.
  revert m. induction ops as [|op ops IH]; intros m Hok; [by split; [intros ?|]|].
  destruct (node_op_ok m op Hok) as [Hk Hok']. destruct (IH _ Hok') as [Hk' Hok2]. split; [|done].
  intros id n Hn Hs. apply Hk'; [by apply Hk|done].
Qed.

(** [dispatch] takes exactly the nodes [runnable] lists. *)
Lemma dispatch_iff_runnable m id n : nodes m !! id = Some n ->
  ((dispatch m id).1 = Ok tt <-> In n (runnable m)).
Proof.
  intros Hn. unfold dispatch, runnable. rewrite Hn, filter_In, btree_values_In.
  destruct (bool_decide (n_state n = NPending)), (forallb _ _); cbn [negb fst andb];
    split; try done; try (by intros [_ ?]). intros _. split; [by exists id|done].
Qed.

Lemma no_running_after m now id n :
  nodes (reconcile_interrupted m now).2 !! id = Some n -> n_state n <> NRunning.
Proof.
  unfold reconcile_interrupted. destruct (n_id <$> _) as [|x l] eqn:Hl; cbn [snd nodes].
  - apply fmap_nil_inv in Hl. intros Hn Hr.
    assert (Hin : In n (List.filter is_running (btree_values (nodes m)))).
    { apply filter_In. split; [apply btree_values_In; by exists id|by apply bool_decide_eq_true]. }
    by rewrite Hl in Hin.
  - rewrite lookup_fmap. intros (y & _ & ->)%fmap_Some. unfold fold_back, is_running.
    case_bool_decide as Hr; [done|]. exact Hr.
Qed.

(** A resumed mission can go on.  After a restart folded interrupted nodes back, a
    mission that has nodes, whose dependencies are nodes and have no cycle, and whose
    verdict is to resume has a node to dispatch: interruption never wedges it. *)
Theorem resumable_has_work m now (rank : string -> nat) :
  let m' := (reconcile_interrupted m now).2 in
  (forall id n, nodes m' !! id = Some n -> forall d, In d (dependencies n) ->
     is_Some (nodes m' !! d) /\ (rank d < rank id)%nat) ->
  nodes m' <> ∅ -> resume_verdict m' = Resumable -> runnable m' <> [].
Proof.
  intros m' Hdag Hne Hv Hnone. unfold resume_verdict in Hv. rewrite bool_decide_false in Hv by done.
  cbn [negb andb] in Hv. destruct (forallb _ _) eqn:Hall in Hv; [done|].
  destruct (_ <$> List.filter _ _) eqn:Hfail in Hv; [|done]. apply fmap_nil_inv in Hfail.
  assert (Hdone : forall k id n, (rank id < k)%nat -> nodes m' !! id = Some n -> n_state n = NCompleted).
  { induction k as [|k IH]; intros id n Hk Hn; [lia|]. destruct (n_state n) eqn:Hs; [| |done|].
    - exfalso. assert (Hin : In n (runnable m')); [|by rewrite Hnone in Hin].
      apply filter_In. split; [apply btree_values_In; by exists id|].
      rewrite Hs, bool_decide_true by done. cbn [andb]. apply forallb_forall. intros d Hd.
      destruct (Hdag id n Hn d Hd) as [[x Hx] Hr]. unfold completed_dep. rewrite Hx.
      apply bool_decide_eq_true, (IH d x); [lia|done].
    - by apply no_running_after in Hn.
    - exfalso. assert (Hin : In n (List.filter (fun n => bool_decide (n_state n = NFailed)) (btree_values (nodes m')))).
      { apply filter_In. split; [apply btree_values_In; by exists id|by apply bool_decide_eq_true]. }
      by rewrite Hfail in Hin. }
  rewrite <- not_true_iff_false in Hall. apply Hall, forallb_forall. intros n [id Hn]%btree_values_In.
  apply bool_decide_eq_true, (Hdone (S (rank id)) id); [lia|done].
Qed.

(** ** Restart *)

Lemma next_above e : mission e < u64_max -> epoch_lt e (TaskLease.next e) = true.
Proof.
  intros Hm. apply epoch_lt_spec. left. unfold TaskLease.next. cbn [mission].
  rewrite saturating_add_exact by lia. lia.
Qed.

Lemma epoch_le_lt a b c : epoch_lt b a = false -> epoch_lt b c = true -> epoch_lt a c = true.
Proof. rewrite epoch_lt_false, !epoch_lt_spec. lia. Qed.

(** The lease table of a recovered mission: same leases, a strictly newer epoch. *)
Lemma recovered_table m c now : table_ok (m_leases m) ->
  epoch_lt (ownership m) (epoch (m_leases m)) = false -> mission (ownership m) < u64_max ->
  let t := m_leases (begin_recovery m c now).2 in
  table_ok t /\ TaskLease.next_fence t = TaskLease.next_fence (m_leases m) /\
  forall task own f, ~ live t task own f.
Proof.
  intros [Hdom Hf He] Hown Hb t.
  pose proof (epoch_le_lt _ _ _ Hown (next_above _ Hb)) as Hlt.
  assert (Ht : epoch t = TaskLease.next (ownership m)).
  { cbn. unfold epoch_max. destruct (epoch_lt (TaskLease.next (ownership m)) (epoch (m_leases m))) eqn:H; [|done].
    rewrite epoch_lt_spec in *. lia. }
  split; [split; [exact Hdom|exact Hf|]|split; [done|]].
  - intros id e Hid. specialize (He id e Hid). rewrite Ht. rewrite epoch_lt_false, epoch_lt_spec in *. lia.
  - intros task own f [_ Hle]. specialize (He task _ Hle). rewrite Ht in He. congruence.
Qed.

(** A restart revokes every token.  After [begin_recovery] on a mission whose
    ownership covers its leases, no token issued before it is ever accepted again,
    whatever dispatches, renewals, completions, recoveries and restarts follow; no scope
    is active, the recovery record is the table's, and no intent of the journal is
    pending: what was in flight is uncertain until reconciled. *)
Theorem restart_revokes_tokens m c now ops task own f at_ :
  table_ok (m_leases m) -> epoch_lt (ownership m) (epoch (m_leases m)) = false ->
  mission (ownership m) < u64_max -> f <= TaskLease.next_fence (m_leases m) ->
  TaskLease.next_fence (m_leases m) + N.of_nat (length ops) <= u64_max ->
  let m' := (begin_recovery m c now).2 in
  check_fence (table_run (m_leases m') ops) task own f at_ <> Accepted /\
  active_scopes (recovery (m_leases m')) = ∅ /\ m_recovery m' = recovery (m_leases m') /\
  forall id, state_of (journal m') id <> Some Pending.
Proof.
  intros Hok Hown Hb Hf Hops m'. destruct (recovered_table m c now Hok Hown Hb) as (Hok' & Hn & Hdead).
  split; [|split; [done|split; [done|]]].
  - intros Hc. apply (Hdead task own f).
    apply (live_run ops); [done|by rewrite Hn|by rewrite Hn|].
    eapply check_fence_live; [|exact Hc]. apply table_run_ok; [done|by rewrite Hn].
  - intros id. unfold state_of. cbn [m' begin_recovery snd journal reconcile_after_crash with_entries entries].
    rewrite lookup_fmap. destruct (entries (journal m) !! id) as [e|]; [|done]. cbn [fmap option_fmap option_map].
    case_bool_decide; [done|congruence].
Qed.

(** ** Examples *)

Module Sample.
Definition node (id : string) (deps : list string) (s : NodeTerminal) : PersistedNode := mkNode id "do" deps None s.

(** "a" is done, "b" was running when the process died, "c" waits for both. *)
Definition interrupted : PersistedMission :=
  set_nodes (new "m")
    {[ "a" := node "a" [] NCompleted; "b" := node "b" ["a"] NRunning; "c" := node "c" ["a"; "b"] NPending ]}.

Definition rank (id : string) : nat :=
  if bool_decide (id = "a") then 0%nat else if bool_decide (id = "b") then 1%nat else 2%nat.

Lemma interrupted_ok : nodes_ok (nodes interrupted).
Proof.
  intros id n Hn Hs. cbn [interrupted set_nodes nodes] in Hn.
  repeat (apply lookup_insert_Some in Hn as [[<- <-]|[_ Hn]]; [first [by vm_compute|by destruct Hs]|]).
  apply lookup_singleton_Some in Hn as [<- <-]. by destruct Hs.
Qed.

(** A mission whose worker holds the lease of "n0". *)
Definition leased (m : PersistedMission) : PersistedMission :=
  set_leases m (dispatch_in_epoch (m_leases m) "n0" "worker-0" 100 3600 (ownership m)).2.
End Sample.

Lemma completed_work_is_kept_witness :
  let m := node_run Sample.interrupted [NInterrupt 5; NDispatch "b"; NDispatch "c"; NComplete "b" "ok"; NDispatch "c"] in
  n_state <$> nodes m !! "c" = Some NRunning /\ nodes m !! "a" = nodes Sample.interrupted !! "a".
Proof.
  intros m. split; [by vm_compute|].
  exact (proj1 (completed_work_is_kept Sample.interrupted
    [NInterrupt 5; NDispatch "b"; NDispatch "c"; NComplete "b" "ok"; NDispatch "c"] Sample.interrupted_ok)
    "a" _ eq_refl eq_refl).
Defined.

Lemma resumable_has_work_witness : runnable (reconcile_interrupted Sample.interrupted 5).2 <> [].
Proof.
  apply (resumable_has_work Sample.interrupted 5 Sample.rank); [|by vm_compute|by vm_compute].
  intros id n Hn d Hd. cbn [Sample.interrupted] in Hn. change (nodes (reconcile_interrupted Sample.interrupted 5).2)
    with (fold_back <$> nodes Sample.interrupted) in *.
  rewrite lookup_fmap in Hn. apply fmap_Some in Hn as (x & Hx & ->).
  cbn [Sample.interrupted set_nodes nodes] in Hx.
  repeat (apply lookup_insert_Some in Hx as [[<- <-]|[_ Hx]]);
    [..|apply lookup_singleton_Some in Hx as [<- <-]]; vm_compute in Hd; repeat destruct Hd as [<-|Hd]; try done; vm_compute; (split; [eexists; reflexivity|lia]).
Defined.

Lemma restart_revokes_tokens_witness :
  let m' := (begin_recovery (Sample.leased (new "m")) "coordinator-2" 200).2 in
  check_fence (table_run (m_leases m') [OpDispatch "n1" "worker-1" 201 3600 (ownership m'); OpReload])
    "n0" "worker-0" 1 300 <> Accepted.
Proof.
  intros m'. refine (proj1 (restart_revokes_tokens (Sample.leased (new "m")) "coordinator-2" 200 _ "n0" "worker-0" 1 300
    _ _ _ _ _)); try (vm_compute; done).
  apply (table_op_ok LeaseTable_default (OpDispatch "n0" "worker-0" 100 3600 OwnershipEpoch_default));
    [apply table_ok_default|done].
Defined.

(** A rollback restores the lease table and the journal with the nodes, so the fence
    counter, the ownership and the receipts go back.  A worker of the abandoned run then
    holds the very token the resumed run issues, and an effect that was executed is
    dispatched again. *)
Lemma rollback_revives_tokens :
  let start := new "m" in
  let s0 := (snapshot (save (mkStore ∅ ∅) start) start "pre-resume-0" 8 50).2 in
  let first := Sample.leased (begin_recovery start "coordinator-1" 100).2 in
  let s1 := save s0 first in
  match rollback s1 "m" None 200 with
  | (Ok restored, _) =>
      let second := Sample.leased (begin_recovery restored "coordinator-2" 300).2 in
      authority_for (m_leases second) "n0" = authority_for (m_leases first) "n0" /\
      check_fence (m_leases second) "n0" "worker-0" 1 400 = Accepted
  | _ => False
  end.
Proof. vm_compute. by split. Qed.

Lemma rollback_forgets_effects :
  let start := new "m" in
  let s0 := (snapshot (save (mkStore ∅ ∅) start) start "pre-resume-0" 8 50).2 in
  let with_journal m j := mkMission (mission_id m) (nodes m) (ownership m) (m_coordinator m) (m_leases m)
                            (m_recovery m) j (interruptions m) (restores m) in
  let prepared j := prepare_dispatch (C := Toy.crypto) j "n0" "exec_command" "make" (Some "op-1") 100 in
  let done_ := mark_executed (C := Toy.crypto) (prepared (journal start)).2 "intent-n0-1" in
  let s1 := save s0 (with_journal start done_) in
  match rollback s1 "m" None 200 with
  | (Ok restored, _) => (prepared (journal restored)).1 = Dispatch "intent-n0-1"
  | _ => False
  end.
Proof. by vm_compute. Qed.
