(* ===== verification/MacPolicy.v ===== *)
(** * MacPolicy: mandatory access control
    ([crates/susi-core/src/mac_policy.rs])

    A [Proc] is one process's [MacPolicy] value; a [Disk] is the substrate state
    directory every wired process shares ([mac.grants/] and [privacy_mode]).  An
    operation runs under the store's lock, so it is one step; the clock is an argument,
    and so is which file operations fail ([write_ok], and [undo_ok] for a rollback's).
    A grant file is the token its bytes parse to; serializing a token and parsing it back
    give the token. *)

From S2P Require Import Prelude Text Money ClusterKey.
From Stdlib Require Import Ascii.

Local Open Scope string_scope.
Local Open Scope list_scope.
Local Open Scope N_scope.

(** ** Posture *)

Inductive PrivacyMode : Type := Balanced | LocalOnly | Open.

#[export] Instance PrivacyMode_eq_dec : EqDecision PrivacyMode.
Proof. solve_decision. Defined.

(** [PrivacyMode::parse], [parse_persisted] and [as_str]. *)
Definition parse (s : string) : PrivacyMode :=
  let t := to_ascii_lowercase (Text.trim s) in
  if bool_decide (t ∈ ["local_only"; "local-only"; "edge"; "strict"]) then LocalOnly
  else if bool_decide (t ∈ ["open"; "permissive"]) then Open
  else Balanced.

Definition parse_persisted (s : string) : option PrivacyMode :=
  let t := Text.trim s in
  if bool_decide (t = "balanced") then Some Balanced
  else if bool_decide (t = "local_only") then Some LocalOnly
  else if bool_decide (t = "open") then Some Open
  else None.

Definition as_str (m : PrivacyMode) : string :=
  match m with Balanced => "balanced" | LocalOnly => "local_only" | Open => "open" end.

Definition FILESYSTEM_READ : string := "filesystem.read".
Definition FILESYSTEM_WRITE : string := "filesystem.write".
Definition PROCESS_EXEC : string := "process.exec".
Definition SANDBOX_EXEC : string := "sandbox.exec".
Definition NETWORK_EGRESS : string := "network.egress".
Definition TRANSMIT : string := "transmit".
Definition CLOUD_INFERENCE : string := "cloud.inference".

(** The order of pairs of strings. *)
Definition pair_le (x y : string * string) : Prop :=
  x.1 <> y.1 /\ String.le x.1 y.1 \/ x.1 = y.1 /\ String.le x.2 y.2.

#[export] Instance pair_le_dec : RelDecision pair_le.
Proof. intros x y. unfold pair_le. apply _. Defined.

#[export] Instance pair_le_total : Total pair_le.
Proof.
  intros [a b] [c d]. unfold pair_le. simpl. destruct (decide (a = c)) as [->|Hne].
  - destruct (base.total String.le b d); auto.
  - destruct (base.total String.le a c); auto.
Qed.

(** ** Tokens *)

Record CapabilityToken : Type := mkCap {
  subject : string;
  action : string;
  resource : string;
  issued_at : N;
  expires_at : option N;
  signature : string;
}.

#[export] Instance CapabilityToken_eq_dec : EqDecision CapabilityToken.
Proof. solve_decision. Defined.

Definition is_expired (t : CapabilityToken) (now : N) : bool :=
  match expires_at t with Some e => e <=? now | None => false end.

(** [grant_covers]. *)
Definition grant_covers (granted requested : string) : bool :=
  if bool_decide (granted = requested) then true
  else
    match strip_suffix "*" granted with
    | Some prefix => starts_with prefix requested
    | None =>
        match strip_prefix granted requested with
        | Some rest =>
            match strip_suffix "/" granted with Some _ => true | None => starts_with "/" rest end
        | None => false
        end
    end.

Section Tokens.
Context `{C : Crypto}.

Definition hex_of (s : string) : string := hex_encode (bytes_of s).

(** [grant_key]: fields with a separator of their own are written in hexadecimal. *)
Definition grant_key (s a r : string) : string :=
  if contains "|" s || contains "|" a || contains "|" r then
    "v2:" +:+ hex_of s +:+ ":" +:+ hex_of a +:+ ":" +:+ hex_of r
  else s +:+ "|" +:+ a +:+ "|" +:+ r.

(** [canonical_payload]. *)
Definition payload_of (s a r : string) (issued : N) (exp : option N) : string :=
  grant_key s a r +:+ "|" +:+ dec issued +:+ "|" +:+
  match exp with Some e => dec e | None => "none" end.
Definition canonical_payload (t : CapabilityToken) : string :=
  payload_of (subject t) (action t) (resource t) (issued_at t) (expires_at t).

Definition sign (key : list N) (t : CapabilityToken) : string :=
  hex_encode (hmac_sha256 key (bytes_of (canonical_payload t))).

(** [verify]; the byte-by-byte comparison is equality. *)
Definition verify (key : list N) (now : N) (t : CapabilityToken) : bool :=
  if is_expired t now then false else bool_decide (sign key t = signature t).

(** [issue_token]. *)
Definition issue_token (key : list N) (now : N) (s a r : string) (ttl : option N)
  : result CapabilityToken string :=
  match (match ttl with
         | Some t => match checked_add now t with Some e => Ok (Some e) | None => Err tt end
         | None => Ok None
         end) with
  | Err _ => Err "capability expiry exceeds timestamp range"
  | Ok exp =>
      let unsigned := mkCap s a r now exp EmptyString in
      Ok (mkCap s a r now exp (sign key unsigned))
  end.

(** ** The store *)

(** What is behind the name of a grant file. *)
Inductive GrantFile : Type :=
| FToken (t : CapabilityToken)
| FNull
| FGarbage
| FUnreadable.

Inductive ModeFile : Type :=
| MAbsent
| MText (s : string)
| MUnreadable.

Record Disk : Type := mkDisk {
  records : gmap string GrantFile;
  mode_file : ModeFile;
}.

Record Proc : Type := mkProc {
  key : list N;
  grants : gmap string CapabilityToken;
  mem_mode : PrivacyMode;
  mem_sandbox : bool;
  enforce : bool;
  wired : bool;
  persistence_error : option string;
}.

Definition set_records (d : Disk) (m : gmap string GrantFile) : Disk := mkDisk m (mode_file d).
Definition set_grants (p : Proc) (g : gmap string CapabilityToken) : Proc :=
  mkProc (key p) g (mem_mode p) (mem_sandbox p) (enforce p) (wired p) (persistence_error p).

(** A [u64] in big-endian bytes. *)
Definition be64 (n : N) : list N := (fun i => N.land (N.shiftr n (8 * (7 - N.of_nat i))) 255) <$> seq 0 8.

(** [grant_paths]. *)
Definition current_path (s a r : string) : string :=
  "v2-" +:+ hex_encode (sha256 (concat ((fun f => be64 (N.of_nat (String.length f)) ++ bytes_of f) <$> [s; a; r]))).
Definition legacy_path (s a r : string) : option string :=
  let legacy := enc (s +:+ "|" +:+ a +:+ "|" +:+ r) in
  if (String.length legacy <=? 255)%nat then Some legacy else None.

Definition names (t : CapabilityToken) (s a r : string) : bool :=
  bool_decide (subject t = s) && bool_decide (action t = a) && bool_decide (resource t = r).
Definition token_matches (p : Proc) (now : N) (s a r : string) (t : CapabilityToken) : bool :=
  names t s a r && verify (key p) now t.

Context (write_ok undo_ok : string -> bool).

(** [migrate_record]. *)
Definition migrate_record (p : Proc) (d : Disk) (now : N) (s a r : string) : result Disk string :=
  match legacy_path s a r with
  | None => Ok d
  | Some old =>
      match records d !! old with
      | None => Ok d
      | Some FUnreadable => Err "read"
      | Some (FToken t) =>
          if token_matches p now s a r t then
            if negb (write_ok old) then Err "rename"
            else
              let current := current_path s a r in
              match records d !! current with
              | Some _ => Ok (set_records d (delete old (records d)))
              | None => Ok (set_records d (<[current := FToken t]> (delete old (records d))))
              end
          else Ok d
      | Some _ => Ok d
      end
  end.

(** A planned write: the file, what it held, and the token to write. *)
Definition Change : Type := string * option GrantFile * CapabilityToken.

(** The first loop of [publish]. *)
Fixpoint plan_changes (p : Proc) (d : Disk) (now : N) (tokens : list CapabilityToken)
  : result (list Change) string * Disk :=
  match tokens with
  | [] => (Ok [], d)
  | t :: tokens' =>
      match migrate_record p d now (subject t) (action t) (resource t) with
      | Err e => (Err e, d)
      | Ok d =>
          let path := current_path (subject t) (action t) (resource t) in
          match records d !! path with
          | Some FUnreadable => (Err "read", d)
          | before =>
              match plan_changes p d now tokens' with
              | (Ok cs, d) => (Ok ((path, before, t) :: cs), d)
              | (Err e, d) => (Err e, d)
              end
          end
      end
  end.

(** The rollback: the files written so far, the latest first. *)
Fixpoint roll_back (written : list Change) (d : Disk) : result unit string * Disk :=
  match written with
  | [] => (Err "grant publication failed", d)
  | (path, before, _) :: written' =>
      if undo_ok path then
        roll_back written'
          (set_records d (match before with
                          | Some original => <[path := original]> (records d)
                          | None => delete path (records d)
                          end))
      else (Err "grant publication failed; rollback failed", d)
  end.

(** The second loop of [publish]. *)
Fixpoint write_changes (written todo : list Change) (d : Disk) : result unit string * Disk :=
  match todo with
  | [] => (Ok tt, d)
  | (path, before, t) :: todo' =>
      if write_ok path then
        write_changes ((path, before, t) :: written) todo' (set_records d (<[path := FToken t]> (records d)))
      else roll_back written d
  end.

(** [publish]: into memory when the policy is not wired. *)
Definition publish (p : Proc) (d : Disk) (now : N) (tokens : list CapabilityToken)
  : result unit string * Proc * Disk :=
  match persistence_error p with
  | Some e => (Err e, p, d)
  | None =>
      if negb (wired p) then
        (Ok tt,
         set_grants p (fold_left (fun g t => <[grant_key (subject t) (action t) (resource t) := t]> g)
                         tokens (grants p)), d)
      else
        match plan_changes p d now tokens with
        | (Err e, d) => (Err e, p, d)
        | (Ok changes, d) => let '(res, d) := write_changes [] changes d in (res, p, d)
        end
  end.

(** [current_token]. *)
Definition memory_token (p : Proc) (now : N) (s a r : string) : option CapabilityToken :=
  match grants p !! grant_key s a r with
  | Some t => if token_matches p now s a r t then Some t else None
  | None => None
  end.

Definition file_token (p : Proc) (now : N) (s a r : string) (f : GrantFile) : option CapabilityToken :=
  match f with
  | FToken t => if token_matches p now s a r t then Some t else None
  | _ => None
  end.

Definition current_token (p : Proc) (d : Disk) (now : N) (s a r : string) : option CapabilityToken :=
  if wired p then
    match records d !! current_path s a r with
    | Some f => file_token p now s a r f
    | None =>
        match legacy_path s a r ≫= fun old => records d !! old with
        | Some f => file_token p now s a r f
        | None => memory_token p now s a r
        end
    end
  else memory_token p now s a r.

(** [bindings_for]: the pairs named by the tokens of a subject, in memory or on disk. *)
Definition binding (s : string) (t : CapabilityToken) : option (string * string) :=
  if bool_decide (subject t = s) then Some (action t, resource t) else None.
Definition disk_tokens (d : Disk) : list CapabilityToken :=
  omap (fun kv : string * GrantFile =>
          if starts_with "." kv.1 then None
          else match kv.2 with FToken t => Some t | _ => None end) (map_to_list (records d)).
Definition all_bindings (p : Proc) (d : Disk) (s : string) : list (string * string) :=
  omap (binding s) ((map_to_list (grants p)).*2 ++ (if wired p then disk_tokens d else [])).
Definition bindings_for (p : Proc) (d : Disk) (s : string) : list (string * string) :=
  merge_sort pair_le (elements (list_to_set (all_bindings p d s) : gset (string * string))).

(** ** Posture of a process *)

(** [read_sticky_mode]: a damaged file enforces [LocalOnly]. *)
Definition read_sticky_mode (f : ModeFile) : option PrivacyMode :=
  match f with
  | MAbsent => None
  | MText s => Some (default LocalOnly (parse_persisted s))
  | MUnreadable => Some LocalOnly
  end.

Definition sticky_mode (p : Proc) (d : Disk) : option PrivacyMode :=
  if wired p then read_sticky_mode (mode_file d) else None.
Definition mode (p : Proc) (d : Disk) : PrivacyMode := default (mem_mode p) (sticky_mode p d).

Definition is_local_only (m : PrivacyMode) : bool := bool_decide (m = LocalOnly).
Definition mandatory_sandbox (p : Proc) (d : Disk) : bool := mem_sandbox p || is_local_only (mode p d).
Definition blocks_network_by_default (p : Proc) (d : Disk) : bool := negb (bool_decide (mode p d = Open)).

(** [is_permitted]: the scope itself, ["*"], then every other binding that covers it. *)
Definition live (p : Proc) (d : Disk) (now : N) (s a scope : string) : bool :=
  match current_token p d now s a scope with
  | Some t => negb (is_expired t now)
  | None => false
  end.
Definition is_permitted (p : Proc) (d : Disk) (now : N) (s a r : string) : bool :=
  if negb (enforce p) then true
  else if live p d now s a r || negb (bool_decide (r = "*")) && live p d now s a "*" then true
  else existsb (fun b : string * string =>
                  bool_decide (b.1 = a) && negb (bool_decide (b.2 = r)) && negb (bool_decide (b.2 = "*"))
                  && grant_covers b.2 r && live p d now s a b.2) (bindings_for p d s).

Definition grants_for (p : Proc) (d : Disk) (now : N) (s : string) : list CapabilityToken :=
  omap (fun b : string * string => current_token p d now s b.1 b.2) (bindings_for p d s).

Definition blocks_cloud_inference (p : Proc) (d : Disk) (now : N) : bool :=
  is_local_only (mode p d) && negb (is_permitted p d now "susi" CLOUD_INFERENCE "*").

(** ** Operations *)

(** [grant]. *)
Definition grant (p : Proc) (d : Disk) (now : N) (s a r : string) (ttl : option N)
  : result CapabilityToken string * Proc * Disk :=
  match issue_token (key p) now s a r ttl with
  | Err e => (Err e, p, d)
  | Ok t =>
      match publish p d now [t] with
      | (Ok _, p, d) => (Ok t, p, d)
      | (Err e, p, d) => (Err e, p, d)
      end
  end.

(** [revoke_record].  A host default is masked by a null record. *)
Definition is_default_scope (s r : string) : bool :=
  bool_decide (s = "susi") && bool_decide (r ∈ ["*"; "app://*"]).
Definition recorded (p : Proc) (d : Disk) (s a r : string) : result bool string :=
  match records d !! current_path s a r with
  | Some (FToken _) => Ok true
  | Some FNull => Ok false
  | Some FGarbage => Err "parse"
  | Some FUnreadable => Err "read"
  | None => Ok (bool_decide (is_Some (grants p !! grant_key s a r)))
  end.
Definition erase (d : Disk) (s a r : string) : result Disk string :=
  let current := current_path s a r in
  if is_default_scope s r then
    if write_ok current then Ok (set_records d (<[current := FNull]> (records d))) else Err "write"
  else
    match records d !! current with
    | Some _ => if write_ok current then Ok (set_records d (delete current (records d))) else Err "remove"
    | None => Err "remove"
    end.
Definition revoke (p : Proc) (d : Disk) (now : N) (s a r : string)
  : result bool string * Proc * Disk :=
  let k := grant_key s a r in
  match persistence_error p with
  | Some e => (Err e, p, d)
  | None =>
      if negb (wired p) then
        (Ok (bool_decide (is_Some (grants p !! k))), set_grants p (delete k (grants p)), d)
      else
        match migrate_record p d now s a r with
        | Err e => (Err e, p, d)
        | Ok d =>
            match recorded p d s a r with
            | Err e => (Err e, p, d)
            | Ok false => (Ok false, set_grants p (delete k (grants p)), d)
            | Ok true =>
                match erase d s a r with
                | Err e => (Err e, p, d)
                | Ok d => (Ok true, set_grants p (delete k (grants p)), d)
                end
            end
        end
  end.

(** [seed_defaults]. *)
Definition default_bindings (m : PrivacyMode) : list (string * string) :=
  [(FILESYSTEM_READ, "*"); (FILESYSTEM_WRITE, "*"); (SANDBOX_EXEC, "*"); (TRANSMIT, "app://*")] ++
  (if is_local_only m then []
   else [(PROCESS_EXEC, "*"); (NETWORK_EGRESS, "*"); (CLOUD_INFERENCE, "*")]).
Definition default_token (k : list N) (now : N) (b : string * string) : CapabilityToken :=
  let unsigned := mkCap "susi" b.1 b.2 now None EmptyString in
  mkCap "susi" b.1 b.2 now None (sign k unsigned).
Definition seed_defaults (p : Proc) (d : Disk) (now : N) : result unit string * Proc * Disk :=
  publish p d now (default_token (key p) now <$> default_bindings (mode p d)).

(** [new]: the defaults are seeded in memory. *)
Definition new (k : list N) (m : PrivacyMode) (sandbox : bool) (now : N) : Proc :=
  let p := mkProc k ∅ m sandbox true false None in
  let '(_, p, _) := seed_defaults p (mkDisk ∅ MAbsent) now in p.
Definition with_state_dir (p : Proc) : Proc :=
  mkProc (key p) (grants p) (mem_mode p) (mem_sandbox p) (enforce p) true (persistence_error p).

(** [wired]: the shared key or the failure to load it, a key of the process's own, and the
    configured posture. *)
Definition wired_new (shared : result (list N) string) (own : list N)
    (config_mode : string) (sandbox_for_exec : bool) (d : Disk) (now : N) : Proc :=
  match shared with
  | Err e =>
      let p := new own LocalOnly true now in
      mkProc (key p) (grants p) (mem_mode p) (mem_sandbox p) (enforce p) (wired p)
        (Some ("shared MAC signing key is unavailable: " +:+ e))
  | Ok k =>
      let m := default (parse config_mode) (read_sticky_mode (mode_file d)) in
      with_state_dir (new k m (sandbox_for_exec || is_local_only m) now)
  end.

(** [set_mode]: revoke the elevated defaults, then move the posture, then seed it. *)
Definition set_posture (p : Proc) (m : PrivacyMode) : Proc :=
  mkProc (key p) (grants p) m (is_local_only m) (enforce p) (wired p) (persistence_error p).
Fixpoint revoke_all (p : Proc) (d : Disk) (now : N) (actions : list string)
  : result unit string * Proc * Disk :=
  match actions with
  | [] => (Ok tt, p, d)
  | a :: actions' =>
      match revoke p d now "susi" a "*" with
      | (Ok _, p, d) => revoke_all p d now actions'
      | (Err e, p, d) => (Err e, p, d)
      end
  end.
Definition ELEVATED : list string := [NETWORK_EGRESS; CLOUD_INFERENCE; PROCESS_EXEC].
Definition set_mode (p : Proc) (d : Disk) (now : N) (m : PrivacyMode)
  : result unit string * Proc * Disk :=
  match revoke_all p d now ELEVATED with
  | (Err e, p, d) => (Err e, p, d)
  | (Ok _, p, d) =>
      if wired p && negb (write_ok "privacy_mode") then (Err "write", p, d)
      else
        let d := if wired p then mkDisk (records d) (MText (as_str m)) else d in
        seed_defaults (set_posture p m) d now
  end.

(** [consent_egress]. *)
Definition consent_egress (p : Proc) (d : Disk) (now : N) (s : string) (ttl : N)
  : result (list CapabilityToken) string * Proc * Disk :=
  match issue_token (key p) now s NETWORK_EGRESS "*" (Some ttl) with
  | Err e => (Err e, p, d)
  | Ok t =>
      match (if is_local_only (mode p d)
             then match issue_token (key p) now s CLOUD_INFERENCE "*" (Some ttl) with
                  | Ok c => Ok [t; c]
                  | Err e => Err e
                  end
             else Ok [t]) with
      | Err e => (Err e, p, d)
      | Ok tokens =>
          match publish p d now tokens with
          | (Ok _, p, d) => (Ok tokens, p, d)
          | (Err e, p, d) => (Err e, p, d)
          end
      end
  end.
End Tokens.

(** ** Tools *)

(** The argument of a tool; the numbers and arrays of a document are never read. *)
Inductive Json : Type :=
| JNull
| JBool (b : bool)
| JStr (s : string)
| JOther
| JObj (fields : list (string * Json)).

(** [Value::get], [as_str], [as_bool]. *)
Definition get (k : string) (v : Json) : option Json :=
  match v with
  | JObj fields => snd <$> List.find (fun f : string * Json => bool_decide (f.1 = k)) fields
  | _ => None
  end.
Definition as_text (v : Json) : option string := match v with JStr s => Some s | _ => None end.
Definition as_bool (v : Json) : option bool := match v with JBool b => Some b | _ => None end.
Definition is_object (v : Json) : bool := match v with JObj _ => true | _ => false end.
Definition is_null (v : Json) : bool := match v with JNull => true | _ => false end.
Definition get_str (k : string) (v : Json) : option string := get k v ≫= as_text.

Definition EGRESS_TOOLS : list string :=
  ["a2a_delegate"; "agents_send"; "power_reason"; "meta_scout_agents"; "brave_search";
   "google_search"; "provider_probe"; "provider_pull"; "brain_probe"; "keys_check"; "keys_models";
   "harness_author"; "harness_run"; "harness_budget"; "harness_plan"].

Definition Requirement : Type := string * string.

(** [requirements_for_tool], rule by rule. *)
Definition is_egress_tool (t : string) : bool :=
  bool_decide (t ∈ EGRESS_TOOLS) || contains "browser" t || starts_with "mcp_" t
  || starts_with "leading_mcp" t || contains "scout_model" t || contains "download" t
  || bool_decide (t = "rag_query") || contains "http" t || contains "fetch" t
  || contains "web_search" t || contains "live_search" t.
Definition requirements_for_tool (tool : string) : list Requirement :=
  let t := to_ascii_lowercase tool in
  if is_egress_tool t then [(NETWORK_EGRESS, "*")]
  else if bool_decide (t = "exec_command") then [(PROCESS_EXEC, "*")]
  else if bool_decide (t = "sandbox_exec") then [(SANDBOX_EXEC, "*")]
  else if bool_decide (t ∈ ["write_file"; "apply_patch_cycle"]) then [(FILESYSTEM_WRITE, "*")]
  else if bool_decide (t ∈ ["read_file"; "status"; "identity"; "host_telemetry"; "list_models"])
          || starts_with "context_graph" t then [(FILESYSTEM_READ, "*")]
  else if starts_with "ipc_send" t then [(TRANSMIT, "app://*")]
  else if bool_decide (t ∈ ["reason"; "susi_solve"; "mission_run"]) || starts_with "agents_" t
  then [(FILESYSTEM_READ, "*")]
  else [(FILESYSTEM_READ, "*")].

(** [trim_end_matches('s')]. *)
Fixpoint drop_leading (c : Ascii.ascii) (s : string) : string :=
  match s with
  | String a s' => if Ascii.eqb a c then drop_leading c s' else s
  | EmptyString => EmptyString
  end.
Definition trim_end_s (s : string) : string := rev_string (drop_leading "s"%char (rev_string s)).

(** [adapter_document_requirements]. *)
Definition adapter_document_requirements (kind : option string) (doc : Json) : list Requirement :=
  let kind := trim_end_s (default EmptyString ((fun k => to_ascii_lowercase (Text.trim k)) <$> kind)) in
  if bool_decide (kind ∈ ["agent"; "framework"]) then
    if bool_decide (get_str "kind" doc = Some "a2a") then [(NETWORK_EGRESS, "*")]
    else [(PROCESS_EXEC, "*")]
  else if bool_decide (kind = "mcp") then
    if existsb (fun k => match get k doc with Some v => negb (is_null v) | None => false end)
         ["runner"; "args"; "package"]
    then [(PROCESS_EXEC, "*")] else []
  else [].

(** The requirements [authorize_tool] adds for the argument. *)
Definition flag (k : string) (arg : Json) : bool := bool_decide (get k arg ≫= as_bool = Some true).
Definition remote_inspection (tool : string) (arg : Json) : bool :=
  bool_decide (tool ∈ ["agents_status"; "frameworks_status"]) && flag "refresh" arg
  || bool_decide (tool ∈ ["provider_doctor"; "provider_models"]) && flag "live" arg
  || bool_decide (tool = "harness_models")
     && bool_decide (get_str "mode" arg ∈ [Some "verify"; Some "discover"; Some "available"]).
Definition stdio_mcp (tool : string) (arg : Json) : bool :=
  bool_decide (tool = "mcp_add")
  && negb match get_str "command_or_url" arg with
          | Some s => let s := to_ascii_lowercase (Text.trim s) in
                      starts_with "http://" s || starts_with "https://" s
          | None => false
          end.
Definition tool_requirements (tool : string) (arg : Json) : list Requirement :=
  requirements_for_tool tool
  ++ (if remote_inspection tool arg then [(NETWORK_EGRESS, "*")] else [])
  ++ (if bool_decide (tool = "harness_run") || stdio_mcp tool arg then [(PROCESS_EXEC, "*")] else [])
  ++ (if bool_decide (tool ∈ ["adapter_configure"; "adapter_reset"]) then [(FILESYSTEM_WRITE, "*")] else [])
  ++ (if bool_decide (tool = "adapter_configure") then
        match get "adapter" arg with
        | Some doc => if is_object doc then adapter_document_requirements (get_str "kind" arg) doc else []
        | None => []
        end
      else []).

Section Authorize.
Context `{C : Crypto}.

Definition deny_egress (tool a : string) : string :=
  "MAC DENY: `" +:+ tool +:+ "` needs " +:+ a
  +:+ " — run `susi privacy consent --egress` or grant a capability token".
Definition deny_lacks (s a r tool : string) : string :=
  "MAC DENY: subject `" +:+ s +:+ "` lacks " +:+ a +:+ " on " +:+ r +:+ " for tool `" +:+ tool +:+ "`".
Definition deny_exec (m : PrivacyMode) : string :=
  "MAC DENY: exec_command blocked under " +:+ as_str m +:+ " — use sandbox_exec or grant "
  +:+ PROCESS_EXEC +:+ " / " +:+ SANDBOX_EXEC.

(** The loop over the requirements. *)
Fixpoint check_all (p : Proc) (d : Disk) (now : N) (s tool : string) (reqs : list Requirement)
  : result unit string :=
  match reqs with
  | [] => Ok tt
  | (a, r) :: reqs' =>
      if is_permitted p d now s a r then check_all p d now s tool reqs'
      else if bool_decide (a = NETWORK_EGRESS) && blocks_network_by_default p d
      then Err (deny_egress tool a)
      else Err (deny_lacks s a r tool)
  end.

(** [authorize_tool]. *)
Definition authorize_tool (p : Proc) (d : Disk) (now : N) (tool : string) (arg : Json)
    (subject : option string) : result unit string :=
  let s := default "susi" subject in
  if bool_decide (tool = "exec_command") && mandatory_sandbox p d then
    if is_permitted p d now s PROCESS_EXEC "*" then Ok tt
    else if is_permitted p d now s SANDBOX_EXEC "*" then Ok tt
    else Err (deny_exec (mode p d))
  else check_all p d now s tool (tool_requirements tool arg).
End Authorize.
