(* ===== verification/MacSafety.v ===== *)
(** * MacSafety: what the access-control model guarantees

    The theorems about [MacPolicy]: coverage of a grant is coverage at path components, a
    signed payload names one binding, a permission always rests on a live signed token,
    publication is all or nothing, and revoking and switching the posture deny what they
    say they deny. *)

From S2P Require Import Prelude Text Money ClusterKey MacPolicy.
From Stdlib Require Import Ascii.

Local Open Scope string_scope.
Local Open Scope list_scope.
Local Open Scope N_scope.

(** ** Coverage *)

(** Only two scopes cover the whole. *)
Lemma covers_star g : grant_covers g "*" = true -> g = "*" \/ g = "**".
Proof.
  unfold grant_covers. case_bool_decide; [by left|].
  destruct (strip_suffix "*" g) as [p|] eqn:E.
  - apply strip_suffix_Some in E as ->. intros H1. apply starts_with_iff in H1 as [rest Hr].
    destruct p as [|c [|c' p]]; [by left| |]; rewrite append_cons in Hr; injection Hr as <- Hr; [by right|done].
  - destruct g as [|c g]; [done|]. intros H1. exfalso. cbn [strip_prefix] in H1.
    destruct (Ascii.eqb_spec c "*") as [->|]; [|done]. by destruct g.
Qed.

(** A grant that names a path (it ends neither in a star nor in a slash) covers exactly
    the requests whose path components start with its own: it covers what lies under the
    path and never a sibling whose name merely extends it. *)
Theorem grant_covers_components g r :
  strip_suffix "*" g = None -> strip_suffix "/" g = None ->
  grant_covers g r = true <-> components g `prefix_of` components r.
Proof.
  intros Hstar Hslash. unfold grant_covers. rewrite Hstar, Hslash. apply under_components.
Qed.

Lemma grant_covers_components_witness :
  grant_covers "/srv/ws" "/srv/ws/a" = true /\ grant_covers "/srv/ws" "/srv/ws2" = false /\
  components "/srv/ws" `prefix_of` components "/srv/ws/a".
Proof.
  split_and!; [reflexivity..|].
  apply (proj1 (grant_covers_components "/srv/ws" "/srv/ws/a" eq_refl eq_refl)). reflexivity.
Defined.

(** ** The signed payload *)

Definition pipe : N := 124.
Definition colon : N := 58.

Lemma bytes_of_cons c s : bytes_of (String c s) = N_of_ascii c :: bytes_of s.
Proof. done. Qed.

Lemma bytes_of_byte s : Forall (fun x => x < 256) (bytes_of s).
Proof. induction s as [|c s IH]; [constructor|]. constructor; [apply N_ascii_bounded|done]. Qed.

Lemma no_pipe s : contains "|" s = false <-> pipe ∉ bytes_of s.
Proof.
  induction s as [|c s IH]; [split; [intros _; apply not_elem_of_nil|done]|].
  rewrite bytes_of_cons. cbn [contains]. rewrite not_elem_of_cons, <- IH. unfold starts_with. cbn [strip_prefix].
  destruct (Ascii.eqb_spec "|" c) as [<-|Hne].
  - split; [done|]. intros [H _]. by destruct H.
  - simpl. split; [intros ->; split; [|done]|naive_solver].
    intros H. apply Hne. rewrite <- (ascii_N_embedding c), <- H. reflexivity.
Qed.

Lemma display_u64_free n x : n <= u64_max -> ~ 48 <= x <= 57 -> x ∉ display_u64 n.
Proof.
  intros Hn Hx Hin. destruct (display_u64_digits n Hn) as (_ & Hd & _).
  rewrite forallb_forall in Hd. apply list_elem_of_In, Hd in Hin. unfold is_ascii_digit in Hin.
  bool_to_prop. rewrite N.leb_le in *. lia.
Qed.

Section Payload.
Context `{L : CryptoLaws}.

Lemma hex_of_inj s t : hex_of s = hex_of t -> s = t.
Proof.
  intros H. apply bytes_of_inj. apply (f_equal hex_decode) in H. unfold hex_of in H.
  rewrite !hex_roundtrip in H by apply bytes_of_byte. by injection H.
Qed.

Lemma hex_of_free s x : x < 48 \/ 57 < x < 97 \/ 102 < x -> x ∉ bytes_of (hex_of s).
Proof.
  intros Hx Hin. pose proof (hex_alphabet (bytes_of s) (bytes_of_byte s)) as H.
  rewrite Forall_forall in H. specialize (H x Hin). lia.
Qed.

(** Two separators around parts free of them. *)
Lemma three_parts_inj (x : N) a b c a' b' c' :
  x ∉ b -> x ∉ c -> x ∉ b' -> x ∉ c' ->
  a ++ x :: b ++ x :: c = a' ++ x :: b' ++ x :: c' -> a = a' /\ b = b' /\ c = c'.
Proof.
  intros Hb Hc Hb' Hc' H.
  assert (c = c') as <-.
  { apply (last_part_inj x (a ++ x :: b) (a' ++ x :: b')); [done..|]. by rewrite <- !app_assoc. }
  change (a ++ [x] ++ b ++ [x] ++ c = a' ++ [x] ++ b' ++ [x] ++ c) in H.
  rewrite !(assoc_L (++)) in H. apply app_inj_2 in H as [H _]; [|done].
  apply app_inj_2 in H as [H _]; [|done]. rewrite <- !(assoc_L (++)) in H.
  assert (b = b') as <- by (by apply (last_part_inj x a a')).
  apply app_inj_2 in H as [H _]; done.
Qed.

Definition piped (s a r : string) : bool := contains "|" s || contains "|" a || contains "|" r.

Lemma grant_key_bytes s a r : bytes_of (grant_key s a r) =
  if piped s a r then
    (bytes_of "v2:" ++ bytes_of (hex_of s)) ++ colon :: bytes_of (hex_of a) ++ colon :: bytes_of (hex_of r)
  else bytes_of s ++ pipe :: bytes_of a ++ pipe :: bytes_of r.
Proof. unfold grant_key, piped. destruct (_ || _); by rewrite !bytes_of_app, <- ?app_assoc. Qed.

(** A binding's key in memory is its own. *)
Lemma grant_key_inj s a r s' a' r' : grant_key s a r = grant_key s' a' r' -> s = s' /\ a = a' /\ r = r'.
Proof.
  intros H. apply (f_equal bytes_of) in H. rewrite !grant_key_bytes in H.
  assert (Hno : forall x y z, piped x y z = false -> pipe ∉ bytes_of x /\ pipe ∉ bytes_of y /\ pipe ∉ bytes_of z).
  { intros x y z Hp. unfold piped in Hp. bool_to_prop. by rewrite <- !no_pipe. }
  assert (Hhex : forall x y z, pipe ∉ (bytes_of "v2:" ++ bytes_of (hex_of x)) ++ colon :: bytes_of (hex_of y) ++ colon :: bytes_of (hex_of z)).
  { intros x y z. rewrite !elem_of_app, !elem_of_cons, !elem_of_app, !elem_of_cons.
    pose proof (hex_of_free x pipe ltac:(unfold pipe; lia)). pose proof (hex_of_free y pipe ltac:(unfold pipe; lia)).
    pose proof (hex_of_free z pipe ltac:(unfold pipe; lia)).
    assert (pipe ∉ bytes_of "v2:") by (vm_compute; set_solver). assert (pipe <> colon) by done. naive_solver. }
  destruct (piped s a r) eqn:E, (piped s' a' r') eqn:E'.
  - apply three_parts_inj in H as (H1 & H2 & H3); try (apply hex_of_free; unfold colon; lia).
    apply app_inv_head in H1. split_and!; by apply hex_of_inj, bytes_of_inj.
  - exfalso. apply (Hhex s a r). rewrite H. set_solver.
  - exfalso. apply (Hhex s' a' r'). rewrite <- H. set_solver.
  - apply Hno in E as (? & Ha & Hr), E' as (? & Ha' & Hr').
    apply three_parts_inj in H as (K1 & K2 & K3); [|done..]. split_and!; by apply bytes_of_inj.
Qed.

Definition expiry_text (e : option N) : string := match e with Some e => dec e | None => "none" end.

Lemma expiry_text_free e : from_option (fun e => e <= u64_max) True e -> pipe ∉ bytes_of (expiry_text e).
Proof.
  destruct e as [e|]; simpl; intros He; [|vm_compute; set_solver].
  rewrite bytes_of_dec by done. apply display_u64_free; [done|]. unfold pipe. lia.
Qed.

Lemma dec_inj n m : n <= u64_max -> m <= u64_max -> bytes_of (dec n) = bytes_of (dec m) -> n = m.
Proof.
  intros Hn Hm H. rewrite !bytes_of_dec in H by done. apply (f_equal (parse_digits 0)) in H.
  rewrite !parse_display_u64 in H by done. by injection H.
Qed.

Lemma expiry_text_inj e e' : from_option (fun e => e <= u64_max) True e ->
  from_option (fun e => e <= u64_max) True e' ->
  bytes_of (expiry_text e) = bytes_of (expiry_text e') -> e = e'.
Proof.
  assert (Hnone : forall n, n <= u64_max -> bytes_of (dec n) <> bytes_of "none").
  { intros n Hn H. rewrite bytes_of_dec in H by done.
    apply (display_u64_free n 110 Hn ltac:(lia)). rewrite H. vm_compute. set_solver. }
  destruct e as [e|], e' as [e'|]; simpl; intros He He' H; [|naive_solver..].
  f_equal. by apply dec_inj.
Qed.

(** What a token signs determines the token: two tokens with the same signed payload
    have the same subject, action, resource, issue time and expiry, whatever text those
    fields hold. So a signature cannot be reused for another binding or a longer life. *)
Theorem payload_determines_token (t t' : CapabilityToken) :
  issued_at t <= u64_max -> issued_at t' <= u64_max ->
  from_option (fun e => e <= u64_max) True (expires_at t) ->
  from_option (fun e => e <= u64_max) True (expires_at t') ->
  canonical_payload t = canonical_payload t' ->
  (subject t, action t, resource t, issued_at t, expires_at t) =
  (subject t', action t', resource t', issued_at t', expires_at t').
Proof.
  intros Hi Hi' He He' H. unfold canonical_payload, payload_of in H.
  apply (f_equal bytes_of) in H. rewrite !bytes_of_app in H.
  change (bytes_of "|") with [pipe] in H. cbn [app] in H.
  fold (expiry_text (expires_at t)) in H. fold (expiry_text (expires_at t')) in H.
  apply three_parts_inj in H as (Hk & Hd & Hx).
  - apply bytes_of_inj, grant_key_inj in Hk as (-> & -> & ->).
    apply dec_inj in Hd as ->; [|done..]. by apply expiry_text_inj in Hx as ->.
  - rewrite bytes_of_dec by done. apply display_u64_free; [done|]. unfold pipe. lia.
  - by apply expiry_text_free.
  - rewrite bytes_of_dec by done. apply display_u64_free; [done|]. unfold pipe. lia.
  - by apply expiry_text_free.
Qed.
End Payload.

Definition sample_token (sig : string) : CapabilityToken := mkCap "a|b" "network.egress" "*" 5 (Some 9) sig.

Lemma payload_determines_token_witness :
  let P := canonical_payload (C := Toy.crypto) in
  P (sample_token "x") = P (sample_token "y") /\
  subject (sample_token "x") = subject (sample_token "y").
Proof.
  split; [reflexivity|].
  pose proof (payload_determines_token (C := Toy.crypto) (L := Toy.laws) (sample_token "x") (sample_token "y")) as H.
  specialize (H ltac:(done) ltac:(done) ltac:(done) ltac:(done) eq_refl).
  exact (f_equal (fun x => x.1.1.1.1) H).
Defined.

(** ** Permissions *)

Section Permissions.
Context `{C : Crypto}.
Implicit Types (p : Proc) (d : Disk) (now : N) (s a r : string) (t : CapabilityToken).

Lemma token_matches_iff p now s a r t : token_matches p now s a r t = true <->
  subject t = s /\ action t = a /\ resource t = r /\
  is_expired t now = false /\ signature t = sign (key p) t.
Proof.
  unfold token_matches, names, verify. rewrite !andb_true_iff, !bool_decide_eq_true.
  destruct (is_expired t now); [naive_solver|]. rewrite bool_decide_eq_true. naive_solver.
Qed.

(** Where a process finds a token. *)
Definition held p d t : Prop :=
  (exists k, grants p !! k = Some t) \/ (wired p = true /\ exists f, records d !! f = Some (FToken t)).

Lemma current_token_sound p d now s a r t : current_token p d now s a r = Some t ->
  held p d t /\ token_matches p now s a r t = true.
Proof.
  unfold current_token, memory_token, file_token, held. intros H.
  repeat break_in H; simplify_option_eq; naive_solver.
Qed.

Lemma live_iff p d now s a r : live p d now s a r = true <-> is_Some (current_token p d now s a r).
Proof.
  unfold live. destruct (current_token p d now s a r) as [t|] eqn:E; [|split; [done|by intros []]].
  apply current_token_sound in E as [_ E]. apply token_matches_iff in E as (_ & _ & _ & -> & _).
  split; [by eexists|done].
Qed.

Lemma grant_covers_refl r : grant_covers r r = true.
Proof. unfold grant_covers. by rewrite bool_decide_true. Qed.

Lemma grant_covers_star r : grant_covers "*" r = true.
Proof. unfold grant_covers. case_bool_decide; [done|]. by destruct r. Qed.

Lemma bindings_for_In p d s b : In b (bindings_for p d s) <-> In b (all_bindings p d s).
Proof.
  unfold bindings_for. rewrite <- !list_elem_of_In, merge_sort_Permutation, elem_of_elements, elem_of_list_to_set.
  done.
Qed.

Lemma enc_not_hidden s rest : starts_with "." s = false ->
  starts_with "." (enc (s +:+ String "|" rest)) = false.
Proof.
  destruct s as [|c s]; [done|]. rewrite append_cons. cbn [enc]. unfold starts_with. cbn [strip_prefix].
  destruct (plain_byte c); cbn [strip_prefix]; [|done]. by destruct (Ascii.eqb "." c).
Qed.

(** A token found under its own binding is listed among the bindings, unless its file is
    hidden. *)
Lemma binding_listed p d now s a r t : starts_with "." s = false ->
  current_token p d now s a r = Some t -> In (a, r) (bindings_for p d s).
Proof.
  intros Hdot H. pose proof H as Hsound. apply current_token_sound in Hsound as [_ Hm].
  apply token_matches_iff in Hm as (Hs & Ha & Hr & _).
  assert (Hb : binding s t = Some (a, r)) by (unfold binding; rewrite bool_decide_true; congruence).
  apply bindings_for_In, list_elem_of_In. unfold all_bindings. apply list_elem_of_omap.
  exists t. split; [|done]. apply elem_of_app.
  assert (Hdisk : forall f, wired p = true -> starts_with "." f = false -> records d !! f = Some (FToken t) ->
            t ∈ (if wired p then disk_tokens d else [])).
  { intros f -> Hf Hrec. apply list_elem_of_omap. exists (f, FToken t). simpl. rewrite Hf.
    split; [by apply elem_of_map_to_list|done]. }
  assert (Hmem : memory_token p now s a r = Some t -> t ∈ (map_to_list (grants p)).*2).
  { unfold memory_token. intros Hmt. repeat break_in Hmt; simplify_eq.
    apply list_elem_of_fmap. eexists (_, t). split; [done|]. by apply elem_of_map_to_list. }
  unfold current_token in H. destruct (wired p) eqn:Hw; [|by left; apply Hmem].
  destruct (records d !! current_path s a r) as [f|] eqn:Ec.
  - right. apply Hdisk with (current_path s a r); [done|by unfold current_path|].
    unfold file_token in H. repeat break_in H; by simplify_eq.
  - destruct (legacy_path s a r ≫= _) as [f|] eqn:El; [right|by left; apply Hmem].
    apply bind_Some in El as (old & Hold & Hf). apply Hdisk with old; [done| |].
    + unfold legacy_path in Hold. break_in Hold; [|done]. injection Hold as <-. by apply enc_not_hidden.
    + unfold file_token in H. repeat break_in H; by simplify_eq.
Qed.

(** A request is permitted exactly when the process holds, in memory or in the shared
    store, a token of that subject and action whose resource covers the requested one,
    that is not expired and carries the signature of the process's key, and that is the
    current token of its own binding. *)
Theorem permitted_iff_token p d now s a r :
  enforce p = true -> starts_with "." s = false ->
  is_permitted p d now s a r = true <->
  exists t, held p d t /\ subject t = s /\ action t = a /\ grant_covers (resource t) r = true /\
    is_expired t now = false /\ signature t = sign (key p) t /\
    current_token p d now s a (resource t) = Some t.
Proof.
  intros He Hdot.
  assert (Hout : forall x, live p d now s a x = true -> grant_covers x r = true ->
    exists t, held p d t /\ subject t = s /\ action t = a /\ grant_covers (resource t) r = true /\
      is_expired t now = false /\ signature t = sign (key p) t /\
      current_token p d now s a (resource t) = Some t).
  { intros x Hl Hc. apply live_iff in Hl as [t Ht]. exists t.
    pose proof (current_token_sound _ _ _ _ _ _ _ Ht) as [Hh Hm].
    apply token_matches_iff in Hm as (? & ? & <- & ? & ?). done. }
  unfold is_permitted. rewrite He. cbn [negb]. split.
  - intros H. destruct (live p d now s a r || _) eqn:E.
    + apply orb_true_iff in E as [E|E]; [by apply (Hout r), grant_covers_refl|].
      bool_to_prop. by apply (Hout "*"), grant_covers_star.
    + apply existsb_exists in H as ([a' x] & _ & H). cbn [fst snd] in H. bool_to_prop. subst.
      by apply (Hout x).
  - intros (t & _ & _ & _ & Hc & _ & _ & Ht).
    assert (Hl : live p d now s a (resource t) = true) by (apply live_iff; eauto).
    destruct (decide (resource t = r)) as [Heq|Hne]; [by rewrite <- Heq, Hl|].
    destruct (decide (resource t = "*")) as [Heq|Hstar].
    + rewrite Heq in Hl, Hne. rewrite Hl, bool_decide_false by done. by rewrite orb_true_r.
    + destruct (_ || _); [done|]. apply existsb_exists. exists (a, resource t). cbn [fst snd].
      rewrite Hl, Hc, bool_decide_true, !bool_decide_false by done.
      split; [|done]. by eapply binding_listed.
Qed.
End Permissions.

Definition host_key : list N := repeat 7 32.
Definition always : string -> bool := fun _ => true.
Definition balanced : Proc := new (C := Toy.crypto) always always host_key Balanced false 100.

Lemma permitted_iff_token_witness :
  exists t, held balanced (mkDisk ∅ MAbsent) t /\ resource t = "app://*".
Proof.
  pose proof (proj1 (permitted_iff_token (C := Toy.crypto) balanced (mkDisk ∅ MAbsent) 200 "susi" TRANSMIT "app://x"
    ltac:(vm_compute; reflexivity) eq_refl) ltac:(vm_compute; reflexivity))
    as (t & Hh & _ & _ & _ & _ & _ & Ht).
  exists t. split; [done|]. destruct Hh as [[k Hk]|[Hw _]]; [|by vm_compute in Hw].
  apply (elem_of_map_to_list (M := gmap string)) in Hk.
  revert Ht. vm_compute in Hk. repeat (apply list_elem_of_In in Hk; destruct Hk as [Hk|Hk]; [injection Hk as <- <-; vm_compute; congruence|apply list_elem_of_In in Hk]).
  by apply not_elem_of_nil in Hk.
Defined.

(** ** The store under the operations *)

Section Store.
Context `{L : CryptoLaws}.
Context (write_ok undo_ok : string -> bool).
Implicit Types (p q : Proc) (d : Disk) (now : N) (s a : string) (t : CapabilityToken).

(** A binding: subject, action, resource. *)
Definition Triple : Type := string * string * string.
Implicit Types x y : Triple.
Definition cur x : string := current_path x.1.1 x.1.2 x.2.
Definition leg x : option string := legacy_path x.1.1 x.1.2 x.2.
Definition triple t : Triple := (subject t, action t, resource t).
Definition token_of p d now x : option CapabilityToken := current_token p d now x.1.1 x.1.2 x.2.

(** Bindings whose files do not meet. *)
Definition separate x y : Prop := cur x <> cur y /\ (forall old, leg x = Some old -> leg y <> Some old).

Lemma separate_sym x y : separate x y -> separate y x.
Proof. unfold separate. naive_solver. Qed.

Definition percent : N := 37.

Lemma enc_percent u v : percent ∈ bytes_of (enc (u +:+ String "|" v)).
Proof.
  assert (Hcons : forall c w, percent ∈ bytes_of w -> percent ∈ bytes_of (String c w)).
  { intros c w. rewrite bytes_of_cons. by right. }
  induction u as [|c u IH].
  - change (EmptyString +:+ String "|" v) with (String "|" v). cbn [enc].
    change (plain_byte "|") with false. cbv iota.
    rewrite bytes_of_app. apply elem_of_app. left. apply list_elem_of_In. by left.
  - rewrite append_cons. cbn [enc]. destruct (plain_byte c); [auto|].
    rewrite bytes_of_app. apply elem_of_app. by right.
Qed.

(** A legacy file is never a current one. *)
Lemma legacy_not_current x y old : leg x = Some old -> old <> cur y.
Proof.
  unfold leg, legacy_path. intros H. break_in H; [|done]. injection H as <-. intros H.
  pose proof (enc_percent x.1.1 (x.1.2 +:+ "|" +:+ x.2)) as Hp.
  assert (percent ∉ bytes_of (cur y)) as Hn.
  { unfold cur, current_path. rewrite bytes_of_app.
    pose proof (hex_alphabet (sha256 (concat ((fun f => be64 (N.of_nat (String.length f)) ++ bytes_of f) <$> [y.1.1; y.1.2; y.2])))
      (proj2 (sha256_bytes _))) as Hhex.
    rewrite elem_of_app. intros [Hin|Hin].
    - vm_compute in Hin. set_solver.
    - rewrite Forall_forall in Hhex. specialize (Hhex _ Hin). unfold percent in Hhex. lia. }
  apply Hn. rewrite <- H. exact Hp.
Qed.

(** What a process reads for a binding: its two files. *)
Definition view d x : option GrantFile * option GrantFile :=
  (records d !! cur x, leg x ≫= fun old => records d !! old).

Lemma token_of_view p d d' now x : view d' x = view d x -> token_of p d' now x = token_of p d now x.
Proof. unfold view, token_of, current_token. intros [= Hc Hl]. unfold cur, leg in *. by rewrite Hc, Hl. Qed.

Lemma file_token_mono p q now now' s a r f : key q = key p -> now <= now' ->
  file_token p now s a r f = None -> file_token q now' s a r f = None.
Proof.
  intros Hk Hn. destruct f as [t| | |]; cbn [file_token]; try done.
  destruct (token_matches q now' s a r t) eqn:E; [|done].
  apply token_matches_iff in E as (H1 & H2 & H3 & H4 & H5). rewrite Hk in H5.
  rewrite (proj2 (token_matches_iff p now s a r t)); [done|]. split_and!; try done.
  unfold is_expired in *. destruct (expires_at t); [|done]. rewrite N.leb_gt in *. lia.
Qed.

(** Migration moves a legacy token of one binding and nothing else. *)
Lemma migrate_cases p d now x d1 : migrate_record write_ok p d now x.1.1 x.1.2 x.2 = Ok d1 ->
  (forall f, leg x ≫= (fun old => records d1 !! old) = Some f -> file_token p now x.1.1 x.1.2 x.2 f = None) /\
  (d1 = d \/
   exists old t, leg x = Some old /\ records d !! old = Some (FToken t) /\
     mode_file d1 = mode_file d /\
     records d1 = match records d !! cur x with
                  | Some _ => delete old (records d)
                  | None => <[cur x := FToken t]> (delete old (records d))
                  end).
Proof.
  unfold migrate_record. fold (leg x). fold (cur x). destruct (leg x) as [old|] eqn:El; [|naive_solver].
  cbn [mbind option_bind]. pose proof (legacy_not_current x x old El) as Hne.
  destruct (records d !! old) as [[t| | |]|] eqn:Eo; intros H; simplify_eq;
    try (split; [intros f Hf; rewrite Eo in Hf; by simplify_eq|by left]).
  destruct (token_matches p now x.1.1 x.1.2 x.2 t) eqn:Em.
  2:{ injection H as <-. split; [|by left]. intros f Hf. rewrite Eo in Hf. injection Hf as <-. simpl. by rewrite Em. }
  destruct (write_ok old); [|done]. cbn [negb] in H.
  destruct (records d !! cur x) eqn:Ec; injection H as <-; cbn [records set_records mode_file];
    (split; [intros f Hf|right; by exists old, t]).
  - by rewrite lookup_delete_eq in Hf.
  - by rewrite lookup_insert_ne, lookup_delete_eq in Hf by done.
Qed.

(** Migrating one binding is not seen by any process, for this or another binding. *)
Lemma migrate_invisible p q d now now' x y d1 :
  migrate_record write_ok p d now x.1.1 x.1.2 x.2 = Ok d1 ->
  key q = key p -> now <= now' -> y = x \/ separate x y ->
  token_of q d1 now' y = token_of q d now' y.
Proof.
  intros Hm Hk Hn Hy. apply migrate_cases in Hm as [_ [->|(old & t & Hl & Ho & _ & Hr)]]; [done|].
  pose proof (fun z => legacy_not_current x z old Hl) as Hne.
  destruct Hy as [->|[Hc Hlg]].
  - unfold token_of, current_token. fold (cur x) (leg x). destruct (wired q); [|done].
    rewrite Hl. cbn [mbind option_bind]. rewrite Ho, Hr.
    destruct (records d !! cur x) eqn:Ec.
    + by rewrite lookup_delete_ne, Ec by done.
    + by rewrite lookup_insert_eq.
  - apply token_of_view. unfold view. rewrite Hr.
    assert (Hyc : (match records d !! cur x with Some _ => delete old (records d)
                   | None => <[cur x := FToken t]> (delete old (records d)) end) !! cur y = records d !! cur y).
    { destruct (records d !! cur x); rewrite ?lookup_insert_ne by done; by rewrite lookup_delete_ne. }
    rewrite Hyc. f_equal. destruct (leg y) as [oy|] eqn:Ely; [|done]. cbn [mbind option_bind].
    pose proof (legacy_not_current y x oy Ely) as Hny. specialize (Hlg old Hl).
    assert (old <> oy) by congruence.
    destruct (records d !! cur x); rewrite ?lookup_insert_ne by done; by rewrite lookup_delete_ne.
Qed.

Lemma migrate_keeps p d now x d1 path : migrate_record write_ok p d now x.1.1 x.1.2 x.2 = Ok d1 ->
  path <> cur x -> leg x <> Some path -> records d1 !! path = records d !! path.
Proof.
  intros Hm Hc Hl. apply migrate_cases in Hm as [_ [->|(old & t & Hlg & _ & _ & Hr)]]; [done|].
  rewrite Hr. destruct (records d !! cur x); rewrite ?lookup_insert_ne by done;
    by rewrite lookup_delete_ne by congruence.
Qed.

Lemma migrate_mode p d now x d1 : migrate_record write_ok p d now x.1.1 x.1.2 x.2 = Ok d1 ->
  mode_file d1 = mode_file d.
Proof. intros Hm. by apply migrate_cases in Hm as [_ [->|(? & ? & _ & _ & ? & _)]]. Qed.

(** The step of the planning loop. *)
Lemma plan_step p d now t ts res d2 :
  plan_changes write_ok p d now (t :: ts) = (res, d2) ->
  ((exists e, res = Err e) /\ d2 = d) \/
  exists d1, migrate_record write_ok p d now (triple t).1.1 (triple t).1.2 (triple t).2 = Ok d1 /\
    ((exists e, res = Err e /\ d2 = d1) \/
     exists r, plan_changes write_ok p d1 now ts = (r, d2) /\
       res = match r with
             | Ok cs => Ok ((cur (triple t), records d1 !! cur (triple t), t) :: cs)
             | Err e => Err e
             end).
Proof.
  cbn [plan_changes]. unfold cur. cbn [triple fst snd].
  destruct (migrate_record _ p d now _ _ _) as [d1|e] eqn:Em; [|intros [= <- <-]; left; split; [by eexists|done]].
  intros H. right. exists d1. split; [done|].
  destruct (plan_changes write_ok p d1 now ts) as [r d3] eqn:Er.
  destruct (records d1 !! current_path _ _ _) as [[]|];
    first [injection H as <- <-; left; by eexists
          |right; exists r; destruct r; injection H as <- <-; done].
Qed.

Lemma plan_keeps p now path ts d res d2 : plan_changes write_ok p d now ts = (res, d2) ->
  Forall (fun t => path <> cur (triple t) /\ leg (triple t) <> Some path) ts ->
  records d2 !! path = records d !! path.
Proof.
  revert d res. induction ts as [|t ts IH]; intros d res H Hall; [by injection H as <- <-|].
  inversion Hall as [|? ? [Hc Hl] Hrest]; subst.
  apply plan_step in H as [[_ ->]|(d1 & Hm & [(e & _ & ->)|(r & Hr & _)])]; [done|by eapply migrate_keeps|].
  rewrite (IH _ _ Hr Hrest). by eapply migrate_keeps.
Qed.

Lemma plan_mode p now ts d res d2 : plan_changes write_ok p d now ts = (res, d2) -> mode_file d2 = mode_file d.
Proof.
  revert d res. induction ts as [|t ts IH]; intros d res H; [by injection H as <- <-|].
  apply plan_step in H as [[_ ->]|(d1 & Hm & [(e & _ & ->)|(r & Hr & _)])]; [done|by eapply migrate_mode|].
  rewrite (IH _ _ Hr). by eapply migrate_mode.
Qed.

(** Planning is not seen by any process. *)
Lemma plan_invisible p q now now' y ts d res d2 : plan_changes write_ok p d now ts = (res, d2) ->
  key q = key p -> now <= now' ->
  Forall (fun t => y = triple t \/ separate (triple t) y) ts ->
  token_of q d2 now' y = token_of q d now' y.
Proof.
  intros H Hk Hn. revert d res H. induction ts as [|t ts IH]; intros d res H Hall; [by injection H as <- <-|].
  inversion Hall as [|? ? Hy Hrest]; subst.
  apply plan_step in H as [[_ ->]|(d1 & Hm & H)]; [done|].
  pose proof (migrate_invisible _ q _ _ now' _ y _ Hm Hk Hn Hy) as Hone.
  destruct H as [(e & _ & ->)|(r & Hr & _)]; [done|].
  by rewrite (IH _ _ Hr Hrest).
Qed.

(** The plan holds, for each token, what its file held before the first write. *)
Lemma plan_before p now ts d cs d2 : plan_changes write_ok p d now ts = (Ok cs, d2) ->
  ForallOrdPairs (fun t u => separate (triple t) (triple u)) ts ->
  cs = (fun t => (cur (triple t), records d2 !! cur (triple t), t)) <$> ts.
Proof.
  revert d cs. induction ts as [|t ts IH]; intros d cs H Hs; [by injection H as <- <-|].
  inversion Hs as [|? ? Ht Hrest]; subst.
  apply plan_step in H as [[[? ?] _]|(d1 & Hm & [(e & ? & _)|(r & Hr & Heq)])]; [done..|].
  destruct r as [cs'|e]; [|done]. injection Heq as ->. rewrite (IH _ _ Hr Hrest). cbn [fmap list_fmap].
  assert (records d2 !! cur (triple t) = records d1 !! cur (triple t)) as <-; [|done].
  eapply plan_keeps; [exact Hr|]. eapply Forall_impl; [exact Ht|]. simpl. intros u [Hc Hl].
  split; [done|]. intros Hlu. by apply legacy_not_current with (y := triple t) in Hlu.
Qed.

(** ** Writing and rolling back *)

(** [d] is [d0] except at the files written so far, whose old contents the log has. *)
Definition logged (written : list Change) d0 d : Prop :=
  mode_file d = mode_file d0 /\
  Forall (fun c : Change => c.1.2 = records d0 !! c.1.1) written /\
  forall path, path ∉ written.*1.*1 -> records d !! path = records d0 !! path.

(** What [publish] answers when it could not undo its writes. *)
Definition rollback_failed : string := "grant publication failed; rollback failed".

(** A file holds what it held, or the token of one of the changes. *)
Definition old_or_new (cs : list Change) d0 d : Prop :=
  forall path, records d !! path = records d0 !! path \/
    exists c, In c cs /\ c.1.1 = path /\ records d !! path = Some (FToken c.2).

Lemma old_or_new_mono cs cs' d0 d : (forall c, In c cs -> In c cs') -> old_or_new cs d0 d -> old_or_new cs' d0 d.
Proof. intros H Hd path. destruct (Hd path) as [?|(c & ? & ? & ?)]; [by left|right; exists c; auto]. Qed.

(** Undoing one more of the files written. *)
Lemma logged_undo path before t written d0 d : logged ((path, before, t) :: written) d0 d ->
  logged written d0 (set_records d (match before with
                                    | Some original => <[path := original]> (records d)
                                    | None => delete path (records d)
                                    end)).
Proof.
  intros (Hmode & Hb & Hout). inversion Hb as [|? ? Hb1 Hb2]; subst. cbn [fst snd] in Hb1.
  split; [done|]. split; [done|]. intros path' Hp. cbn [records set_records].
  destruct (decide (path' = path)) as [->|Hne].
  - rewrite <- Hb1. destruct before; by rewrite ?lookup_insert_eq, ?lookup_delete_eq.
  - assert (records d !! path' = records d0 !! path') as <- by (apply Hout; simpl; set_solver).
    destruct before; by rewrite ?lookup_insert_ne, ?lookup_delete_ne by done.
Qed.

(** A rollback that does not report its own failure restores every file; otherwise each
    file written keeps its token or has its old content back. *)
Lemma roll_back_spec cs written d0 d : logged written d0 d -> old_or_new cs d0 d ->
  exists e d', roll_back undo_ok written d = (Err e, d') /\ mode_file d' = mode_file d0 /\
    old_or_new cs d0 d' /\
    (e <> rollback_failed -> forall path, records d' !! path = records d0 !! path) /\
    ((forall path, undo_ok path = true) -> e <> rollback_failed).
Proof.
  revert d. induction written as [|[[path before] t] written IH]; intros d Hl Hd.
  - destruct Hl as (Hmode & _ & Hout).
    eexists _, d. split_and!; [reflexivity|done|done| |done]. intros _ path. apply Hout. simpl. set_solver.
  - cbn [roll_back]. destruct (undo_ok path) eqn:Hu.
    + apply IH; [by eapply logged_undo|]. intros path'. cbn [records set_records].
      destruct Hl as (_ & Hb & _). inversion Hb as [|? ? Hb1 Hb2]; subst. cbn [fst snd] in Hb1.
      destruct (decide (path' = path)) as [->|Hne].
      * left. rewrite <- Hb1. destruct before; by rewrite ?lookup_insert_eq, ?lookup_delete_eq.
      * destruct before; rewrite ?lookup_insert_ne, ?lookup_delete_ne by done; apply Hd.
    + eexists _, d. split_and!; [reflexivity|apply Hl|done|done|]. intros Hall. by rewrite Hall in Hu.
Qed.

Lemma write_changes_spec cs d0 todo written d res d' :
  logged written d0 d -> Forall (fun c : Change => c.1.2 = records d0 !! c.1.1) todo ->
  old_or_new cs d0 d -> (forall c, In c todo -> In c cs) ->
  write_changes write_ok undo_ok written todo d = (res, d') ->
  mode_file d' = mode_file d0 /\ old_or_new cs d0 d' /\
  match res with
  | Err e => (e <> rollback_failed -> forall path, records d' !! path = records d0 !! path) /\
             ((forall path, undo_ok path = true) -> e <> rollback_failed)
  | Ok _ => records d' = foldl (fun m c => <[c.1.1 := FToken c.2]> m) (records d) todo
  end.
Proof.
  revert written d. induction todo as [|[[path before] t] todo IH]; intros written d Hlog Hb Hd Hcs H.
  - injection H as <- <-. destruct Hlog as (-> & _). done.
  - inversion Hb as [|? ? Hb1 Hb2]; subst. cbn [fst snd] in Hb1. cbn [write_changes] in H.
    destruct (write_ok path).
    + apply IH in H; [exact H| |done| |intros c Hc; apply Hcs; by right].
      * destruct Hlog as (Hm & Hw & Hout). split_and!; [done|by constructor|].
        intros path' Hp. cbn [records set_records]. simpl in Hp. rewrite lookup_insert_ne by set_solver.
        apply Hout. set_solver.
      * intros path'. cbn [records set_records]. destruct (decide (path' = path)) as [->|Hne].
        -- right. exists (path, before, t). split_and!; [apply Hcs; by left|done|by rewrite lookup_insert_eq].
        -- rewrite lookup_insert_ne by done. apply Hd.
    + destruct (roll_back_spec cs written d0 d Hlog Hd) as (e & d2 & Hrb & Hm & Hd2 & Hr & Hu).
      rewrite Hrb in H. injection H as <- <-. done.
Qed.

Definition write_all (ts : list CapabilityToken) (m : gmap string GrantFile) : gmap string GrantFile :=
  foldl (fun m t => <[cur (triple t) := FToken t]> m) m ts.

Lemma write_all_other ts m path : Forall (fun t => path <> cur (triple t)) ts ->
  write_all ts m !! path = m !! path.
Proof.
  revert m. induction ts as [|t ts IH]; intros m; [done|]. inversion 1; subst. cbn [write_all foldl].
  fold (write_all ts (<[cur (triple t) := FToken t]> m)). rewrite IH by done. by rewrite lookup_insert_ne.
Qed.

Lemma write_all_in ts m t : In t ts -> ForallOrdPairs (fun t u => separate (triple t) (triple u)) ts ->
  write_all ts m !! cur (triple t) = Some (FToken t).
Proof.
  revert m. induction ts as [|u ts IH]; intros m; [done|]. intros Hin Hs. inversion Hs as [|? ? Hu Hrest]; subst.
  cbn [write_all foldl]. fold (write_all ts (<[cur (triple u) := FToken u]> m)). destruct Hin as [->|Hin]; [|by apply IH].
  rewrite write_all_other; [by rewrite lookup_insert_eq|]. eapply Forall_impl; [exact Hu|]. by intros v [].
Qed.

Lemma foldl_write_all (before : CapabilityToken -> option GrantFile) ts m :
  foldl (fun m (c : Change) => <[c.1.1 := FToken c.2]> m) m
    ((fun t => (cur (triple t), before t, t)) <$> ts) = write_all ts m.
Proof. revert m. induction ts as [|t ts IH]; intros m; [done|]. apply IH. Qed.

Lemma token_of_written q d now t : wired q = true -> records d !! cur (triple t) = Some (FToken t) ->
  token_matches q now (subject t) (action t) (resource t) t = true -> token_of q d now (triple t) = Some t.
Proof.
  intros Hw Hr Hm. unfold token_of, current_token. rewrite Hw. fold (cur (triple t)). rewrite Hr.
  cbn [file_token triple fst snd]. by rewrite Hm.
Qed.

Lemma publish_wired p d now ts res p' d' : wired p = true -> publish write_ok undo_ok p d now ts = (res, p', d') ->
  p' = p /\ ((exists e, res = Err e /\ persistence_error p = Some e /\ d' = d) \/
   exists r d1, persistence_error p = None /\ plan_changes write_ok p d now ts = (r, d1) /\
     match r with
     | Err e => res = Err e /\ d' = d1
     | Ok cs => write_changes write_ok undo_ok [] cs d1 = (res, d')
     end).
Proof.
  intros Hw. unfold publish. destruct (persistence_error p) as [e|]; [intros [= <- <- <-]; naive_solver|].
  rewrite Hw. cbn [negb]. destruct (plan_changes _ p d now ts) as [[cs|e] d1] eqn:Ep.
  - destruct (write_changes _ _ _ _ _) as [r d2] eqn:Ew. intros [= <- <- <-]. split; [done|]. right.
    by exists (Ok cs), d1.
  - intros [= <- <- <-]. split; [done|]. right. by exists (Err e), d1.
Qed.

(** Publishing from one process of the store, as another one sees it. *)
Lemma publish_shared p q d now now' ts res p' d' :
  wired p = true -> wired q = true -> key q = key p -> now <= now' ->
  ForallOrdPairs (fun t u => separate (triple t) (triple u)) ts ->
  publish write_ok undo_ok p d now ts = (res, p', d') ->
  (forall y, Forall (fun t => separate (triple t) y) ts -> token_of q d' now' y = token_of q d now' y) /\
  mode_file d' = mode_file d /\
  match res with
  | Ok _ => forall t, In t ts -> token_matches q now' (subject t) (action t) (resource t) t = true ->
              token_of q d' now' (triple t) = Some t
  | Err e => (forall t, In t ts -> token_of q d' now' (triple t) = token_of q d now' (triple t) \/
                (token_matches q now' (subject t) (action t) (resource t) t = true ->
                 token_of q d' now' (triple t) = Some t)) /\
             ((forall path, undo_ok path = true) \/ e <> rollback_failed ->
              forall t, In t ts -> token_of q d' now' (triple t) = token_of q d now' (triple t))
  end.
Proof.
  intros Hw Hwq Hk Hn Hs H. apply publish_wired in H as [_ [(e & -> & _ & ->)|(r & d1 & _ & Hplan & H)]]; [| |done].
  { split_and!; [done|done|by left|done]. }
  assert (Hinv : forall y, Forall (fun t => y = triple t \/ separate (triple t) y) ts ->
    token_of q d1 now' y = token_of q d now' y).
  { intros y Hy. by eapply plan_invisible. }
  assert (Hself : forall t, In t ts -> token_of q d1 now' (triple t) = token_of q d now' (triple t)).
  { intros t Ht. apply Hinv. apply Forall_forall. intros u Hu'. apply list_elem_of_In in Hu'.
    destruct (ForallOrdPairs_In Hs _ _ Ht Hu') as [->|[?|?]]; [by left|right; by apply separate_sym|by right]. }
  assert (Hsep : forall y, Forall (fun t => separate (triple t) y) ts -> Forall (fun t => y = triple t \/ separate (triple t) y) ts).
  { intros y Hy. eapply Forall_impl; [exact Hy|]. by right. }
  assert (Hmode : mode_file d1 = mode_file d).
  { by eapply plan_mode. }
  destruct r as [cs|e].
  2:{ destruct H as [-> ->]. split_and!; [intros y Hy; by apply Hinv, Hsep|done|intros t Ht; left; by apply Hself|].
      intros _ t Ht. by apply Hself. }
  pose proof (plan_before _ _ _ _ _ _ Hplan Hs) as Hcs.
  apply write_changes_spec with (cs := cs) (d0 := d1) in H as (Hm & Hold & H);
    [|split_and!; [done|constructor|done]| |intros path; by left|done].
  2:{ rewrite Hcs. apply Forall_fmap, Forall_true. done. }
  rewrite Hm.
  assert (Hpath : forall path, (forall t, In t ts -> path <> cur (triple t)) -> records d' !! path = records d1 !! path).
  { intros path Hp. destruct (Hold path) as [|(c & Hc & Hcp & _)]; [done|]. rewrite Hcs in Hc.
    apply list_elem_of_In, list_elem_of_fmap in Hc as (t & -> & Ht). apply list_elem_of_In in Ht.
    cbn [fst] in Hcp. by destruct (Hp t Ht). }
  assert (Hleg : forall y, leg y ≫= (fun old => records d' !! old) = leg y ≫= (fun old => records d1 !! old)).
  { intros y. destruct (leg y) as [old|] eqn:Hl; [|done]. cbn [mbind option_bind]. apply Hpath.
    intros t _. by apply legacy_not_current with y. }
  assert (Hframe : forall y, Forall (fun t => separate (triple t) y) ts -> token_of q d' now' y = token_of q d now' y).
  { intros y Hy. rewrite <- (Hinv y (Hsep y Hy)). apply token_of_view. unfold view. rewrite Hleg, Hpath; [done|].
    intros t Ht. rewrite Forall_forall in Hy. destruct (Hy t) as [? _]; [by apply list_elem_of_In|congruence]. }
  destruct res as [[]|e].
  - assert (Hrec : records d' = write_all ts (records d1)).
    { rewrite H, Hcs. apply foldl_write_all. }
    split_and!; [done|done|].
    intros t Ht Hmt. apply token_of_written; [done| |done]. rewrite Hrec. by apply write_all_in.
  - assert (Hsame : forall t, In t ts -> records d' !! cur (triple t) = records d1 !! cur (triple t) ->
              token_of q d' now' (triple t) = token_of q d now' (triple t)).
    { intros t Ht Hc. rewrite <- Hself by done. apply token_of_view. unfold view. by rewrite Hleg, Hc. }
    split_and!; [done|done| |].
    + intros t Ht. destruct (Hold (cur (triple t))) as [Hc|(c & Hc & Hcp & Hr)]; [left; by apply Hsame|].
      right. intros Hmt. apply token_of_written; [done| |done]. rewrite Hr. rewrite Hcs in Hc.
      apply list_elem_of_In, list_elem_of_fmap in Hc as (u & -> & Hu'). apply list_elem_of_In in Hu'.
      cbn [fst snd] in *. destruct (ForallOrdPairs_In Hs _ _ Ht Hu') as [->|[[? _]|[? _]]]; [done|congruence..].
    + intros Hcase t Ht. apply Hsame; [done|]. apply H. destruct Hcase; [by apply H|done].
Qed.

(** C10. Publishing several tokens, each with files of its own, to the shared store is all
    or nothing for every wired process that holds the same key.  When it succeeds, each
    finds every published token it accepts under its binding.  When it fails, at whichever
    write, every process finds under every binding what it found before, unless undoing a
    write failed too: then the answer says so, and each published binding has what it had or
    the new token.  Either way a binding whose files do not meet a published one is
    untouched, and so is the posture. *)
Theorem publish_all_or_nothing p q d now now' ts res p' d' :
  wired p = true -> wired q = true -> key q = key p -> now <= now' ->
  ForallOrdPairs (fun t u => separate (triple t) (triple u)) ts ->
  publish write_ok undo_ok p d now ts = (res, p', d') ->
  (forall y, Forall (fun t => separate (triple t) y) ts -> token_of q d' now' y = token_of q d now' y) /\
  mode_file d' = mode_file d /\
  match res with
  | Ok _ => forall t, In t ts -> token_matches q now' (subject t) (action t) (resource t) t = true ->
              token_of q d' now' (triple t) = Some t
  | Err e => (forall t, In t ts -> token_of q d' now' (triple t) = token_of q d now' (triple t) \/
                (token_matches q now' (subject t) (action t) (resource t) t = true ->
                 token_of q d' now' (triple t) = Some t)) /\
             ((forall path, undo_ok path = true) \/ e <> rollback_failed ->
              forall t, In t ts -> token_of q d' now' (triple t) = token_of q d now' (triple t))
  end.
Proof. apply publish_shared. Qed.

(** ** Revoking *)

Definition key_of x : string := grant_key x.1.1 x.1.2 x.2.

Lemma key_of_inj x y : key_of x = key_of y -> x = y.
Proof.
  destruct x as [[s a] r], y as [[s' a'] r']. intros H.
  destruct (grant_key_inj s a r s' a' r' H) as (-> & -> & ->). done.
Qed.

Lemma token_of_proc p p' d now x : key p' = key p -> wired p' = wired p ->
  grants p' !! key_of x = grants p !! key_of x -> token_of p' d now x = token_of p d now x.
Proof.
  intros Hk Hw Hg. unfold token_of, current_token, memory_token, file_token, token_matches. fold (key_of x).
  by rewrite Hk, Hw, Hg.
Qed.

(** What a revocation does: nothing but forget the binding in memory, and migrate, mask
    or remove its record. *)
Definition revoke_x p d now x := revoke write_ok p d now x.1.1 x.1.2 x.2.

Lemma erase_cases d x d' : erase write_ok d x.1.1 x.1.2 x.2 = Ok d' ->
  mode_file d' = mode_file d /\
  (forall path, path <> cur x -> records d' !! path = records d !! path) /\
  (if is_default_scope x.1.1 x.2 then records d' !! cur x = Some FNull else records d' !! cur x = None).
Proof.
  unfold erase. fold (cur x). destruct (is_default_scope _ _).
  - destruct (write_ok _); [|done]. intros [= <-]. cbn [set_records mode_file records].
    rewrite lookup_insert_eq. split_and!; [done| |done]. intros path Hp. by rewrite lookup_insert_ne.
  - destruct (records d !! cur x); [|done]. destruct (write_ok _); [|done]. intros [= <-].
    cbn [set_records mode_file records]. rewrite lookup_delete_eq. split_and!; [done| |done].
    intros path Hp. by rewrite lookup_delete_ne.
Qed.

Lemma revoke_cases p d now x res p' d' : revoke_x p d now x = (res, p', d') -> wired p = true ->
  (exists e, res = Err e /\ p' = p /\
     (d' = d \/ migrate_record write_ok p d now x.1.1 x.1.2 x.2 = Ok d')) \/
  exists b d1, res = Ok b /\ migrate_record write_ok p d now x.1.1 x.1.2 x.2 = Ok d1 /\
    p' = set_grants p (delete (key_of x) (grants p)) /\
    recorded p d1 x.1.1 x.1.2 x.2 = Ok b /\
    if b then erase write_ok d1 x.1.1 x.1.2 x.2 = Ok d' else d' = d1.
Proof.
  unfold revoke_x, revoke. intros H Hw. rewrite Hw in H. cbn [negb] in H.
  destruct (persistence_error p); [injection H as <- <- <-; left; eexists; naive_solver|].
  destruct (migrate_record _ p d now _ _ _) as [d1|e] eqn:Em; [|injection H as <- <- <-; left; eexists; naive_solver].
  destruct (recorded p d1 _ _ _) as [[]|e] eqn:Er.
  - destruct (erase _ d1 _ _ _) as [d2|e] eqn:Ee; injection H as <- <- <-.
    + right. by exists true, d1.
    + left. eexists. split_and!; [done..|by right].
  - injection H as <- <- <-. right. by exists false, d1.
  - injection H as <- <- <-. left. eexists. split_and!; [done..|by right].
Qed.

Lemma revoke_separate p q d now now' x y res p' d' : revoke_x p d now x = (res, p', d') ->
  key q = key p -> now <= now' -> separate x y -> token_of q d' now' y = token_of q d now' y.
Proof.
  intros H Hk Hn Hs. destruct (wired p) eqn:Hw.
  - pose proof (fun d1 Hm => migrate_invisible p q d now now' x y d1 Hm Hk Hn (or_intror Hs)) as Hmig.
    apply revoke_cases in H as [(e & _ & _ & [->|Hm])|(b & d1 & _ & Hm & _ & _ & H)]; [done|by apply Hmig| |done].
    rewrite <- (Hmig _ Hm). destruct b; [|by subst]. apply erase_cases in H as (_ & Hout & _).
    destruct Hs as [Hc Hl]. apply token_of_view. unfold view. rewrite Hout by congruence. f_equal.
    destruct (leg y) as [old|] eqn:El; [|done]. cbn [mbind option_bind]. apply Hout. by eapply legacy_not_current.
  - unfold revoke_x, revoke in H. destruct (persistence_error p); [by injection H as <- <- <-|].
    rewrite Hw in H. cbn [negb] in H. by injection H as <- <- <-.
Qed.

Lemma revoke_proc p d now x res p' d' : revoke_x p d now x = (res, p', d') ->
  key p' = key p /\ wired p' = wired p /\ enforce p' = enforce p /\ mem_mode p' = mem_mode p /\
  persistence_error p' = persistence_error p /\
  (grants p' = grants p \/ grants p' = delete (key_of x) (grants p)).
Proof.
  unfold revoke_x, revoke. intros H. fold (key_of x) in H. repeat break_in H; injection H as <- <- <-; naive_solver.
Qed.

(** A successful revocation takes the binding from the process at once and for good:
    no token of it is current there at any later time, until it is granted again. A host
    default that was recorded is masked for every process of the store; another binding
    is not touched. *)
Theorem revoke_denies p q d now now' s a r0 b p' d' :
  revoke write_ok p d now s a r0 = (Ok b, p', d') -> key q = key p -> now <= now' ->
  current_token p' d' now' s a r0 = None /\
  (wired p = true -> wired q = true -> b = true -> is_default_scope s r0 = true ->
   current_token q d' now' s a r0 = None) /\
  (forall y, separate (s, a, r0) y ->
     token_of p' d' now' y = token_of p d now' y /\ token_of q d' now' y = token_of q d now' y).
Proof.
  intros H Hk Hn. set (x := (s, a, r0)). change (revoke_x p d now x = (Ok b, p', d')) in H.
  change (current_token p' d' now' s a r0) with (token_of p' d' now' x).
  change (current_token q d' now' s a r0) with (token_of q d' now' x).
  destruct (revoke_proc _ _ _ _ _ _ _ H) as (Hkp & Hwp & _ & _ & _ & Hgp).
  split; [|split].
  - destruct (wired p) eqn:Hw.
    + pose proof H as Hc. apply revoke_cases in Hc as [(e & ? & _)|(b' & d1 & [= <-] & Hm & -> & Hr & Hd)]; [done| |done].
      apply migrate_cases in Hm as [Hleg _]. unfold token_of, current_token. fold (cur x) (leg x).
      rewrite Hwp. unfold memory_token. cbn [grants set_grants]. fold (key_of x). rewrite lookup_delete_eq.
      assert (Hold : forall f, leg x ≫= (fun old => records d' !! old) = Some f ->
                file_token (set_grants p (delete (key_of x) (grants p))) now' x.1.1 x.1.2 x.2 f = None).
      { intros f Hf. eapply file_token_mono; [| exact Hn|apply Hleg]; [done|]. rewrite <- Hf.
        destruct (leg x) as [old|] eqn:El; [|done]. cbn [mbind option_bind]. destruct b; [|by subst].
        apply erase_cases in Hd as (_ & Hout & _). symmetry. apply Hout. by eapply legacy_not_current. }
      destruct (leg x ≫= (fun old => records d' !! old)) as [f|] eqn:Ef; [rewrite (Hold f eq_refl)|]; destruct b.
      1,3: apply erase_cases in Hd as (_ & _ & Hd); destruct (is_default_scope _ _); by rewrite Hd.
      all: subst d1; unfold recorded in Hr; fold (cur x) in Hr; by destruct (records d' !! cur x) as [[]|].
    + unfold token_of, current_token, memory_token. rewrite Hwp. fold (key_of x).
      unfold revoke_x, revoke in H. destruct (persistence_error p); [done|]. rewrite Hw in H. cbn [negb] in H.
      injection H as <- <- <-. cbn [grants set_grants]. fold (key_of x). by rewrite lookup_delete_eq.
  - intros Hw Hwq -> Hdef. apply revoke_cases in H as [(e & ? & _)|(b' & d1 & [= <-] & _ & _ & _ & Hd)]; [done| |done].
    apply erase_cases in Hd as (_ & _ & Hd). change (is_default_scope x.1.1 x.2 = true) in Hdef. rewrite Hdef in Hd.
    unfold token_of, current_token. fold (cur x). by rewrite Hwq, Hd.
  - intros y Hs. split; [|by eapply revoke_separate].
    rewrite <- (revoke_separate p p d now now' x y _ _ _ H eq_refl Hn Hs).
    apply token_of_proc; [done..|]. destruct Hgp as [->| ->]; [done|]. apply lookup_delete_ne.
    intros Hkey. apply key_of_inj in Hkey. destruct Hs as [Hc _]. by rewrite Hkey in Hc.
Qed.

(** ** Granting *)

Lemma publish_memory p d now ts : wired p = false -> persistence_error p = None ->
  publish write_ok undo_ok p d now ts =
  (Ok tt, set_grants p (fold_left (fun m t => <[key_of (triple t) := t]> m) ts (grants p)), d).
Proof. intros Hw He. unfold publish. by rewrite He, Hw. Qed.

Lemma fold_insert_other ts (m : gmap string CapabilityToken) x : Forall (fun t => key_of (triple t) <> key_of x) ts ->
  fold_left (fun m t => <[key_of (triple t) := t]> m) ts m !! key_of x = m !! key_of x.
Proof.
  revert m. induction ts as [|t ts IH]; intros m Hall; [done|]. inversion Hall; subst.
  cbn [fold_left]. rewrite IH by done. by apply lookup_insert_ne.
Qed.

Lemma publish_proc p d now ts res p' d' : publish write_ok undo_ok p d now ts = (res, p', d') ->
  key p' = key p /\ wired p' = wired p /\ enforce p' = enforce p /\ mem_mode p' = mem_mode p /\
  mem_sandbox p' = mem_sandbox p.
Proof. unfold publish. intros H. repeat break_in H; by injection H as <- <- <-. Qed.

(** Publishing one token, wherever the process keeps its grants. *)
Lemma publish_one p d now now' t p' d' : now <= now' ->
  publish write_ok undo_ok p d now [t] = (Ok tt, p', d') ->
  token_matches p now' (subject t) (action t) (resource t) t = true ->
  token_of p' d' now' (triple t) = Some t.
Proof.
  intros Hn H Hm. destruct (wired p) eqn:Hw.
  - pose proof (publish_wired _ _ _ _ _ _ _ Hw H) as [-> _].
    assert (Hs : ForallOrdPairs (fun t u => separate (triple t) (triple u)) [t]) by repeat constructor.
    destruct (publish_shared p p d now now' _ _ _ _ Hw Hw eq_refl Hn Hs H) as (_ & _ & Hin).
    apply Hin; [by left|done].
  - destruct (persistence_error p) eqn:He; [unfold publish in H; by rewrite He in H|].
    rewrite publish_memory in H by done. injection H as <- <-.
    unfold token_of, current_token, memory_token. cbn [wired set_grants grants fold_left]. rewrite Hw.
    fold (key_of (triple t)). rewrite lookup_insert_eq.
    unfold token_matches in *. cbn [key set_grants triple fst snd]. by rewrite Hm.
Qed.

(** A grant that is reported takes effect: the token carries the requested binding and
    lifetime, and until it expires every request it covers is permitted to that subject
    in this process, for that action. *)
Theorem grant_takes_effect p d now now' s a r0 ttl t p' d' r' :
  grant write_ok undo_ok p d now s a r0 ttl = (Ok t, p', d') ->
  now <= now' -> from_option (fun l => now' < now + l) True ttl ->
  starts_with "." s = false -> grant_covers r0 r' = true ->
  triple t = (s, a, r0) /\ issued_at t = now /\ expires_at t = (fun l => now + l) <$> ttl /\
  is_permitted p' d' now' s a r' = true.
Proof.
  intros H Hn Hlive Hdot Hcov. unfold grant in H.
  destruct (issue_token (key p) now s a r0 ttl) as [t0|e] eqn:Et; [|done].
  destruct (publish _ _ p d now [t0]) as [[res p1] d1] eqn:Ep. destruct res as [[]|e]; [|done].
  injection H as -> -> ->. unfold issue_token in Et.
  assert (Hexp : expires_at t = (fun l => now + l) <$> ttl /\ triple t = (s, a, r0) /\ issued_at t = now /\
                 signature t = sign (key p) t).
  { destruct ttl as [l|]; [destruct (checked_add now l) eqn:Ec|]; simplify_eq/=; [|done].
    by apply checked_add_Some in Ec as [-> _]. }
  destruct Hexp as (Hexp & Ht & Hi & Hsig). split_and!; try done.
  assert (Hmatch : token_matches p now' (subject t) (action t) (resource t) t = true).
  { apply token_matches_iff. split_and!; try done. unfold is_expired. rewrite Hexp.
    destruct ttl as [l|]; simpl in *; [apply N.leb_gt; lia|done]. }
  pose proof (publish_one _ _ _ _ _ _ _ Hn Ep Hmatch) as Htok. rewrite Ht in Htok.
  destruct (enforce p') eqn:He; [|unfold is_permitted; by rewrite He].
  apply permitted_iff_token; [done..|]. exists t.
  pose proof (current_token_sound _ _ _ _ _ _ _ Htok) as [Hheld Hm].
  apply token_matches_iff in Hm as (H1 & H2 & H3 & H4 & H5). cbn [fst snd] in *. rewrite H3 in *. done.
Qed.

(** ** Switching the posture *)

Definition default_triples : list Triple :=
  (fun b : string * string => ("susi", b.1, b.2)) <$> default_bindings Balanced.

(** The seven default bindings have files of their own: no collision of the hash. *)
Definition defaults_separate : Prop := NoDup (cur <$> default_triples).

Lemma default_leg_inj x y : In x default_triples -> In y default_triples -> leg x = leg y -> x = y.
Proof.
  intros Hx Hy. cbv in Hx, Hy.
  repeat (destruct Hx as [<-|Hx]; [repeat (destruct Hy as [<-|Hy]; [vm_compute; congruence|]); done|]). done.
Qed.

Lemma defaults_separate_iff x y : defaults_separate -> In x default_triples -> In y default_triples ->
  x <> y -> separate x y.
Proof.
  intros Hd Hx Hy Hne. split.
  - intros Hc. apply Hne. apply list_elem_of_In in Hx, Hy.
    apply list_elem_of_lookup in Hx as [i Hi], Hy as [j Hj].
    assert (i = j) as ->; [|congruence]. unfold defaults_separate in Hd. rewrite NoDup_alt in Hd.
    apply (Hd i j (cur x)); rewrite list_lookup_fmap; [by rewrite Hi|by rewrite Hj, Hc].
  - intros old Hl Hl'. apply Hne, default_leg_inj; congruence.
Qed.

Definition elevated x : Prop := exists a, In a ELEVATED /\ x = ("susi", a, "*").

Lemma elevated_default x : elevated x -> In x default_triples.
Proof. intros (a & Ha & ->). cbv in Ha. repeat (destruct Ha as [<-|Ha]; [cbv; tauto|]). done. Qed.

(** Revoking the elevated defaults one after the other leaves none of them. *)
Lemma revoke_all_denies actions p d now now' p' d' : defaults_separate ->
  revoke_all write_ok p d now actions = (Ok tt, p', d') -> now <= now' ->
  (forall a, In a actions -> In a ELEVATED) -> NoDup actions ->
  (forall x, (exists a, In a actions /\ x = ("susi", a, "*")) \/
             (elevated x /\ token_of p d now' x = None) -> token_of p' d' now' x = None).
Proof.
  intros Hsep H Hn. revert p d H. induction actions as [|a actions IH]; intros p d H Hsub Hnd x Hx.
  { injection H as <- <-. destruct Hx as [(a & [] & _)|[_ Hx]]. done. }
  cbn [revoke_all] in H. destruct (revoke _ p d now "susi" a "*") as [[res p1] d1] eqn:Er.
  destruct res as [b|e]; [|done]. inversion Hnd as [|? ? Ha Hnd']; subst.
  pose proof (revoke_denies p p d now now' "susi" a "*" b p1 d1 Er eq_refl Hn) as (Hnone & _ & Hframe).
  apply (IH p1 d1 H); [|done|]. { intros a' Ha'. apply Hsub. by right. }
  assert (Hself : elevated ("susi", a, "*")) by (exists a; split; [apply Hsub; by left|done]).
  destruct Hx as [(a' & [->|Ha'] & ->)|[He Hx]]; [right; by split|left; by exists a'|].
  right. split; [done|]. destruct (decide (x = ("susi", a, "*"))) as [->|Hne]; [done|].
  rewrite (proj1 (Hframe x ltac:(apply defaults_separate_iff; auto using elevated_default))). done.
Qed.

Lemma revoke_all_proc actions p d now res p' d' : revoke_all write_ok p d now actions = (res, p', d') ->
  key p' = key p /\ wired p' = wired p /\ enforce p' = enforce p /\ persistence_error p' = persistence_error p.
Proof.
  revert p d. induction actions as [|a actions IH]; intros p d H; [by injection H as <- <- <-|].
  cbn [revoke_all] in H. destruct (revoke _ p d now "susi" a "*") as [[r p1] d1] eqn:Er.
  destruct (revoke_proc p d now ("susi", a, "*") _ _ _ Er) as (<- & <- & <- & _ & <- & _).
  destruct r; [by eapply IH|by injection H as <- <- <-].
Qed.

(** Seeding the defaults of a local-only posture gives back no elevated default. *)
Lemma seed_local_only p d now now' res p' d' x : defaults_separate ->
  mode p d = LocalOnly -> now <= now' -> elevated x ->
  seed_defaults write_ok undo_ok p d now = (res, p', d') ->
  token_of p' d' now' x = token_of p d now' x /\ mode_file d' = mode_file d.
Proof.
  intros Hsep Hm Hn Hx H. unfold seed_defaults in H. rewrite Hm in H.
  set (ts := default_token (key p) now <$> default_bindings LocalOnly) in *.
  assert (Hin : Forall (fun t => In (triple t) default_triples /\ ~ elevated (triple t)) ts).
  { repeat constructor; try (cbv; tauto); intros (a & Ha & Heq); cbv in Ha;
      repeat (destruct Ha as [<-|Ha]; [discriminate Heq|]); done. }
  destruct (wired p) eqn:Hw.
  - assert (Hord : ForallOrdPairs (fun t u => separate (triple t) (triple u)) ts).
    { repeat constructor; apply defaults_separate_iff; try done; cbv; tauto. }
    destruct (publish_shared p p d now now' ts res p' d' Hw Hw eq_refl Hn Hord H) as (Hframe & Hmode & _).
    apply publish_wired in H as [-> _]; [|done]. split; [|done]. apply Hframe.
    eapply Forall_impl; [exact Hin|]. intros t [Ht Hne].
    apply defaults_separate_iff; auto using elevated_default. by intros <-.
  - destruct (persistence_error p) eqn:He; [unfold publish in H; rewrite He in H; by injection H as <- <- <-|].
    rewrite publish_memory in H by done. injection H as <- <- <-. split; [|done].
    apply token_of_proc; [done..|]. cbn [grants set_grants].
    apply (fold_insert_other ts). eapply Forall_impl; [exact Hin|]. intros t [_ Hne] Hk.
    apply key_of_inj in Hk. by rewrite Hk in Hne.
Qed.

Lemma star_not_permitted p d now s a : enforce p = true ->
  current_token p d now s a "*" = None -> current_token p d now s a "**" = None ->
  is_permitted p d now s a "*" = false.
Proof.
  intros He H1 H2. unfold is_permitted. rewrite He. cbn [negb].
  assert (Hl : live p d now s a "*" = false) by (unfold live; by rewrite H1).
  rewrite Hl. cbn [orb andb]. rewrite andb_false_r. apply existsb_false. intros [a' r'] _. cbn [fst snd].
  destruct (grant_covers r' "*") eqn:Ec; [|by rewrite andb_false_r].
  apply covers_star in Ec as [->| ->].
  - rewrite (bool_decide_true ("*" = "*")) by done. cbn [negb]. by rewrite !andb_false_r.
  - unfold live. by rewrite H2, andb_false_r.
Qed.

(** C3. Switching a host to local-only holds in the process that made the switch.  When the
    switch is reported to have worked, by a process that enforces (and the files of the
    seven default bindings do not collide): the posture is local-only for every process of
    the store; the switching process has no current grant of network egress, cloud inference
    or host execution for the host ([susi]) with the scope [*]; and when none of them has the
    scope [**] either, it denies the three, blocks cloud inference and refuses every egress
    tool.  Another running process keeps a grant it holds in memory
    ([running_process_keeps_egress]), and a [**] grant outlives the switch
    ([double_star_outlives_switch]). *)
Theorem local_only_takes_hold p d now now' p' d' :
  defaults_separate -> enforce p = true -> now <= now' ->
  set_mode write_ok undo_ok p d now LocalOnly = (Ok tt, p', d') ->
  mode p' d' = LocalOnly /\ mandatory_sandbox p' d' = true /\
  (wired p = true -> forall q, wired q = true -> mode q d' = LocalOnly) /\
  (forall a, In a ELEVATED -> current_token p' d' now' "susi" a "*" = None) /\
  ((forall a, In a ELEVATED -> current_token p' d' now' "susi" a "**" = None) ->
   (forall a, In a ELEVATED -> is_permitted p' d' now' "susi" a "*" = false) /\
   blocks_cloud_inference p' d' now' = true /\
   forall tool arg, is_egress_tool (to_ascii_lowercase tool) = true ->
     is_ok (authorize_tool p' d' now' tool arg None) = false).
Proof.
  intros Hsep He Hn H. unfold set_mode in H.
  destruct (revoke_all write_ok p d now ELEVATED) as [[[[]|e] p1] d1] eqn:Er; [|done].
  destruct (wired p1 && _) eqn:Ew; [done|].
  destruct (revoke_all_proc _ _ _ _ _ _ _ Er) as (_ & Hw & Hen & _).
  set (d2 := if wired p1 then mkDisk (records d1) (MText (as_str LocalOnly)) else d1) in *.
  set (p2 := set_posture p1 LocalOnly) in *.
  assert (Hmode2 : forall q, wired q = wired p1 -> mem_mode q = LocalOnly \/ wired q = true ->
            forall d', mode_file d' = mode_file d2 -> mode q d' = LocalOnly).
  { intros q Hq Hor d3 Hf. unfold mode, sticky_mode. rewrite Hf. unfold d2. rewrite <- Hq.
    destruct (wired q); [done|]. by destruct Hor. }
  assert (Hm2 : mode p2 d2 = LocalOnly) by (apply Hmode2; [done|by left|done]).
  pose proof (publish_proc p2 d2 now _ _ _ _ H) as (Hkp & Hwp & Hep & Hmp & Hsp).
  assert (Hmf : mode_file d' = mode_file d2).
  { eapply (seed_local_only p2 d2 now now'); try done. exists NETWORK_EGRESS. split; [by left|done]. }
  assert (Hnone : forall a, In a ELEVATED -> current_token p' d' now' "susi" a "*" = None).
  { intros a Ha. change (token_of p' d' now' ("susi", a, "*") = None).
    assert (Hx : elevated ("susi", a, "*")) by (by exists a).
    rewrite (proj1 (seed_local_only p2 d2 now now' _ _ _ _ Hsep Hm2 Hn Hx H)).
    transitivity (token_of p1 d1 now' ("susi", a, "*")).
    - transitivity (token_of p1 d2 now' ("susi", a, "*")); [by apply token_of_proc|].
      apply token_of_view. unfold d2. by destruct (wired p1).
    - eapply revoke_all_denies; try done; [|left; by exists a].
      apply NoDup_ListNoDup. repeat constructor; vm_compute; intuition discriminate. }
  assert (Hmp' : mode p' d' = LocalOnly) by (apply Hmode2; [done|left; by rewrite Hmp|done]).
  split_and!; [done|unfold mandatory_sandbox, is_local_only; rewrite Hmp'; apply orb_true_r| |done|].
  { intros Hwp' q Hq. apply Hmode2; [congruence|by right|done]. }
  intros Hss. assert (Hden : forall a, In a ELEVATED -> is_permitted p' d' now' "susi" a "*" = false).
  { intros a Ha. apply star_not_permitted; [|by apply Hnone|by apply Hss]. rewrite Hep. unfold p2. simpl. congruence. }
  split_and!; [done| |].
  - unfold blocks_cloud_inference, is_local_only. rewrite Hmp', Hden by (cbv; tauto). done.
  - intros tool arg Ht. unfold authorize_tool.
    rewrite (bool_decide_false (tool = "exec_command")) by (by intros ->). cbn [andb].
    unfold tool_requirements, requirements_for_tool. rewrite Ht. cbn [app check_all default from_option].
    rewrite Hden by (cbv; tauto). by destruct (bool_decide _ && _).
Qed.
(** ** Well-formed stores *)

Definition signed (k : list N) t : Prop := signature t = sign k t.
Definition wf_file (k : list N) (path : string) (f : GrantFile) : Prop :=
  match f with
  | FToken t => signed k t /\ (path = cur (triple t) \/ leg (triple t) = Some path)
  | _ => True
  end.
Definition wf_disk (k : list N) d : Prop := map_Forall (wf_file k) (records d).
Definition wf_mem p : Prop := map_Forall (fun n t => n = key_of (triple t) /\ signed (key p) t) (grants p).

(** Every token is where its binding is looked up, and has the signature of the key. *)
Definition well_formed p d : Prop := wf_mem p /\ wf_disk (key p) d.

Lemma migrate_wf k p d now x d1 : migrate_record write_ok p d now x.1.1 x.1.2 x.2 = Ok d1 ->
  wf_disk k d -> wf_disk k d1.
Proof.
  unfold migrate_record. fold (leg x). fold (cur x). intros H Hwf. destruct (leg x) as [old|]; [|by injection H as <-].
  destruct (records d !! old) as [[t| | |]|] eqn:Eo; try (by injection H as <-); [|done].
  destruct (token_matches p now _ _ _ t) eqn:Em; [|by injection H as <-].
  destruct (write_ok old); [|done]. cbn [negb] in H. pose proof (map_Forall_delete (wf_file k) _ old Hwf) as Hdel.
  destruct (records d !! cur x); injection H as <-; unfold wf_disk; cbn [records set_records]; [done|].
  apply map_Forall_insert_2; [|done]. apply token_matches_iff in Em as (H1 & H2 & H3 & _ & _).
  destruct (Hwf old _ Eo) as [Hs _]. split; [done|]. left. unfold triple, cur. by rewrite H1, H2, H3.
Qed.

Definition wf_change (k : list N) (c : Change) : Prop :=
  signed k c.2 /\ c.1.1 = cur (triple c.2) /\ from_option (wf_file k c.1.1) True c.1.2.

Lemma plan_wf k p now ts d res d2 : plan_changes write_ok p d now ts = (res, d2) -> wf_disk k d ->
  Forall (signed k) ts ->
  wf_disk k d2 /\ match res with Ok cs => Forall (wf_change k) cs | Err _ => True end.
Proof.
  revert d res. induction ts as [|t ts IH]; intros d res H Hwf Hs; [injection H as <- <-; by split|].
  inversion Hs as [|? ? Ht Hts]; subst. apply plan_step in H as [[[e ->] ->]|(d1 & Hm & H)]; [done|].
  apply migrate_wf with (k := k) in Hm; [|done].
  destruct H as [(e & -> & ->)|(r & Hr & ->)]; [done|]. destruct (IH _ _ Hr Hm Hts) as [Hd Hcs].
  split; [done|]. destruct r; [|done]. constructor; [|done]. split_and!; [done..|]. cbn [fst snd].
  destruct (records d1 !! cur (triple t)) as [f|] eqn:Ef; [|done]. by apply Hm.
Qed.

Lemma roll_back_wf k written d : wf_disk k d -> Forall (wf_change k) written ->
  wf_disk k (roll_back undo_ok written d).2.
Proof.
  revert d. induction written as [|[[path before] t] written IH]; intros d Hd Hw; [done|].
  inversion Hw as [|? ? (_ & _ & Hb) Hrest]; subst. cbn [fst snd] in Hb. cbn [roll_back].
  destruct (undo_ok path); [|done]. apply IH; [|done]. unfold wf_disk. cbn [records set_records].
  destruct before; [by apply map_Forall_insert_2|by apply map_Forall_delete].
Qed.

Lemma write_wf k todo written d : wf_disk k d -> Forall (wf_change k) written -> Forall (wf_change k) todo ->
  wf_disk k (write_changes write_ok undo_ok written todo d).2.
Proof.
  revert written d. induction todo as [|[[path before] t] todo IH]; intros written d Hd Hw Ht; [done|].
  inversion Ht as [|? ? Hc Hrest]; subst. cbn [write_changes].
  destruct (write_ok path); [|by apply roll_back_wf]. apply IH; [|by constructor|done].
  apply map_Forall_insert_2; [|done]. destruct Hc as (Hs & Hp & _). split; [done|by left].
Qed.

Lemma publish_wf p d now ts res p' d' : publish write_ok undo_ok p d now ts = (res, p', d') ->
  Forall (signed (key p)) ts -> well_formed p d -> well_formed p' d'.
Proof.
  intros H Hs [Hm Hd]. destruct (wired p) eqn:Hw.
  - apply publish_wired in H as [-> [(e & _ & _ & ->)|(r & d1 & _ & Hp & H)]]; [done| |done].
    destruct (plan_wf _ _ _ _ _ _ _ Hp Hd Hs) as [Hd1 Hcs]. split; [done|]. destruct r as [cs|e].
    + pose proof (write_wf (key p) cs [] d1 Hd1 (Forall_nil_2 _) Hcs) as Hwf. by rewrite H in Hwf.
    + by destruct H as [_ ->].
  - destruct (persistence_error p) eqn:He; [unfold publish in H; rewrite He in H; by injection H as <- <- <-|].
    rewrite publish_memory in H by done. injection H as <- <- <-. split; [|done]. unfold wf_mem. cbn [grants set_grants key].
    revert Hm. unfold wf_mem. generalize (grants p). induction Hs as [|t ts Ht Hts IH]; intros m Hm; [done|].
    cbn [fold_left]. apply IH. by apply map_Forall_insert_2.
Qed.

Lemma revoke_wf p d now x res p' d' : revoke_x p d now x = (res, p', d') -> well_formed p d -> well_formed p' d'.
Proof.
  intros H [Hm Hd]. pose proof (revoke_proc _ _ _ _ _ _ _ H) as (Hk & _ & _ & _ & _ & Hg).
  assert (Hm' : wf_mem p').
  { unfold wf_mem. rewrite Hk. destruct Hg as [->| ->]; [done|by apply map_Forall_delete]. }
  split; [done|]. rewrite Hk. destruct (wired p) eqn:Hw.
  - apply revoke_cases in H as [(e & _ & _ & [->|Hmig])|(b & d1 & _ & Hmig & _ & _ & H)]; [done|by eapply migrate_wf| |done].
    apply migrate_wf with (k := key p) in Hmig; [|done]. destruct b; [|by subst].
    unfold erase in H. fold (cur x) in H. repeat break_in H; try done; injection H as <-; unfold wf_disk; cbn [records set_records].
    + by apply map_Forall_insert_2.
    + by apply map_Forall_delete.
  - unfold revoke_x, revoke in H. destruct (persistence_error p); [by injection H as <- <- <-|].
    rewrite Hw in H. cbn [negb] in H. by injection H as <- <- <-.
Qed.

Lemma issue_signed k now s a r0 ttl t : issue_token k now s a r0 ttl = Ok t -> signed k t.
Proof. unfold issue_token. intros H. repeat break_in H; simplify_eq/=; done. Qed.

Lemma seed_wf p d now res p' d' : seed_defaults write_ok undo_ok p d now = (res, p', d') ->
  well_formed p d -> well_formed p' d'.
Proof. intros H Hw. eapply publish_wf; [exact H| |done]. apply Forall_fmap, Forall_true. done. Qed.

Lemma revoke_all_wf actions p d now res p' d' : revoke_all write_ok p d now actions = (res, p', d') ->
  well_formed p d -> well_formed p' d'.
Proof.
  revert p d. induction actions as [|a actions IH]; intros p d H Hw; [by injection H as <- <- <-|].
  cbn [revoke_all] in H. destruct (revoke _ p d now "susi" a "*") as [[r p1] d1] eqn:Er.
  apply (revoke_wf p d now ("susi", a, "*")) in Er; [|done]. destruct r; [by eapply IH|by injection H as <- <- <-].
Qed.

(** An operation of the policy, whatever it reports. *)
Inductive Op : Type :=
| OGrant (s a : string) (r : string) (ttl : option N)
| ORevoke (s a : string) (r : string)
| OSetMode (m : PrivacyMode)
| OConsent (s : string) (ttl : N).
Definition perform p d now (o : Op) : Proc * Disk :=
  match o with
  | OGrant s a r ttl => let '(_, p, d) := grant write_ok undo_ok p d now s a r ttl in (p, d)
  | ORevoke s a r => let '(_, p, d) := revoke write_ok p d now s a r in (p, d)
  | OSetMode m => let '(_, p, d) := set_mode write_ok undo_ok p d now m in (p, d)
  | OConsent s ttl => let '(_, p, d) := consent_egress write_ok undo_ok p d now s ttl in (p, d)
  end.
Definition perform_all : list (N * Op) -> Proc * Disk -> Proc * Disk :=
  fold_left (fun pd o => perform pd.1 pd.2 o.1 o.2).

Lemma perform_wf p d now o : well_formed p d -> well_formed (perform p d now o).1 (perform p d now o).2.
Proof.
  intros Hw. destruct o as [s a r0 ttl|s a r0|m|s ttl]; cbn [perform].
  - unfold grant. destruct (issue_token _ now s a r0 ttl) as [t|] eqn:Et; [|done]. apply issue_signed in Et.
    destruct (publish _ _ p d now [t]) as [[[] p'] d'] eqn:Ep; (eapply publish_wf; [exact Ep|by constructor|done]).
  - destruct (revoke _ p d now s a r0) as [[res p'] d'] eqn:Er. by eapply (revoke_wf p d now (s, a, r0)).
  - unfold set_mode. destruct (revoke_all _ p d now ELEVATED) as [[[|] p'] d'] eqn:Er; apply revoke_all_wf in Er; try done.
    destruct (_ && _); [done|]. destruct (seed_defaults _ _ _ _ now) as [[res p2] d2] eqn:Es.
    eapply seed_wf; [exact Es|]. destruct Er as [H1 H2]. split; [done|]. by destruct (wired p').
  - unfold consent_egress. destruct (issue_token _ now s NETWORK_EGRESS "*" _) as [t|] eqn:Et; [|done].
    apply issue_signed in Et. destruct (is_local_only _).
    + destruct (issue_token _ now s CLOUD_INFERENCE "*" _) as [c|] eqn:Ec; [|done]. apply issue_signed in Ec.
      destruct (publish _ _ p d now [t; c]) as [[[] p'] d'] eqn:Ep; (eapply publish_wf; [exact Ep|by repeat constructor|done]).
    + destruct (publish _ _ p d now [t]) as [[[] p'] d'] eqn:Ep; (eapply publish_wf; [exact Ep|by repeat constructor|done]).
Qed.

Lemma new_wf k m sandbox now : wf_mem (new write_ok undo_ok k m sandbox now).
Proof.
  unfold new. destruct (seed_defaults _ _ _ _ now) as [[res p'] d'] eqn:Es. apply seed_wf in Es as [Hm _]; [done|].
  split; intros ? ? H; done.
Qed.

(** C27. Whatever a process is asked to do and whatever the file operations answer, every
    token it has in memory is under the key of its own binding, every token in the store
    is at one of the two names of its own binding, and all carry the signature of the
    host key: no operation files a token under another binding. *)
Theorem store_well_formed k m sandbox now ops config own :
  let p := new write_ok undo_ok k m sandbox now in
  well_formed (perform_all ops (p, mkDisk ∅ MAbsent)).1 (perform_all ops (p, mkDisk ∅ MAbsent)).2 /\
  let q := wired_new write_ok undo_ok (Ok k) own config sandbox (mkDisk ∅ MAbsent) now in
  well_formed (perform_all ops (q, mkDisk ∅ MAbsent)).1 (perform_all ops (q, mkDisk ∅ MAbsent)).2.
Proof.
  assert (Hall : forall ops p d, well_formed p d -> well_formed (perform_all ops (p, d)).1 (perform_all ops (p, d)).2).
  { intros os. induction os as [|o os IH]; intros p d Hw; [done|]. cbn [perform_all fold_left fst snd].
    rewrite (surjective_pairing (perform p d o.1 o.2)). by apply IH, perform_wf. }
  assert (Hempty : forall k', wf_disk k' (mkDisk ∅ MAbsent)) by (intros k' ? ? H; done).
  split; apply Hall; (split; [|by apply Hempty]); apply new_wf.
Qed.
End Store.

(** ** Concrete hosts *)

Module Host.
#[local] Existing Instance Toy.crypto.
#[local] Existing Instance Toy.laws.

Definition empty_disk : Disk := mkDisk ∅ MAbsent.
Definition wired_balanced : Proc := with_state_dir balanced.
Definition new_token (a r : string) : CapabilityToken :=
  match issue_token host_key 200 "guest" a r (Some 50) with Ok t => t | Err _ => sample_token "" end.
Definition two : list CapabilityToken := [new_token NETWORK_EGRESS "*"; new_token CLOUD_INFERENCE "*"].
Definition second_fails (path : string) : bool :=
  negb (bool_decide (path = current_path "guest" CLOUD_INFERENCE "*")).

Lemma publish_all_or_nothing_witness :
  let '(res, _, d') := publish second_fails always wired_balanced empty_disk 200 two in
  is_ok res = false /\ forall t, In t two -> token_of wired_balanced d' 210 (triple t) = None.
Proof.
  destruct (publish second_fails always wired_balanced empty_disk 200 two) as [[res p'] d'] eqn:E.
  pose proof (publish_all_or_nothing second_fails always wired_balanced wired_balanced empty_disk 200 210 two res p' d'
    ltac:(vm_compute; reflexivity) ltac:(vm_compute; reflexivity) eq_refl ltac:(lia)) as H.
  destruct res as [[]|e]; [exfalso; apply (f_equal (fun x => is_ok x.1.1)) in E; vm_compute in E; discriminate|].
  split; [done|]. intros t Ht. destruct H as (_ & _ & H); [|exact E|].
  - repeat constructor; vm_compute; congruence.
  - destruct H as [_ H]. rewrite (H (or_introl (fun _ => eq_refl)) t Ht).
    destruct Ht as [<-|[<-|[]]]; vm_compute; reflexivity.
Defined.

Lemma grant_takes_effect_witness :
  exists t p' d', grant always always wired_balanced empty_disk 200 "guest" FILESYSTEM_READ "/srv" (Some 50) = (Ok t, p', d') /\
    is_permitted p' d' 240 "guest" FILESYSTEM_READ "/srv/a" = true.
Proof.
  destruct (grant always always wired_balanced empty_disk 200 "guest" FILESYSTEM_READ "/srv" (Some 50)) as [[[t|e] p'] d'] eqn:E;
    [|exfalso; apply (f_equal (fun x => is_ok x.1.1)) in E; vm_compute in E; discriminate].
  exists t, p', d'. split; [done|].
  apply (grant_takes_effect always always wired_balanced empty_disk 200 240 "guest" FILESYSTEM_READ "/srv" (Some 50) t p' d');
    [exact E|lia|vm_compute; reflexivity|reflexivity|reflexivity].
Defined.

Lemma revoke_denies_witness :
  exists p' d', revoke always wired_balanced empty_disk 200 "susi" NETWORK_EGRESS "*" = (Ok true, p', d') /\
    current_token wired_balanced d' 300 "susi" NETWORK_EGRESS "*" = None.
Proof.
  destruct (revoke always wired_balanced empty_disk 200 "susi" NETWORK_EGRESS "*") as [[res p'] d'] eqn:E.
  assert (res = Ok true) as -> by (apply (f_equal (fun x => x.1.1)) in E; vm_compute in E; by symmetry).
  exists p', d'. split; [done|].
  refine (proj1 (proj2 (revoke_denies always always wired_balanced wired_balanced empty_disk 200 300 "susi" NETWORK_EGRESS "*" true p' d'
    E eq_refl ltac:(lia))) _ _ eq_refl _); vm_compute; reflexivity.
Defined.

Lemma local_only_takes_hold_witness :
  exists p' d', set_mode always always wired_balanced empty_disk 200 LocalOnly = (Ok tt, p', d') /\
    is_permitted p' d' 300 "susi" NETWORK_EGRESS "*" = false.
Proof.
  destruct (set_mode always always wired_balanced empty_disk 200 LocalOnly) as [[res p'] d'] eqn:E.
  assert (res = Ok tt) as ->.
  { transitivity (set_mode always always wired_balanced empty_disk 200 LocalOnly).1.1; [by rewrite E|vm_compute; reflexivity]. }
  exists p', d'. split; [done|].
  assert (Hsep : defaults_separate).
  { unfold defaults_separate. apply (bool_decide_unpack _). vm_compute. exact I. }
  destruct (local_only_takes_hold always always wired_balanced empty_disk 200 300 p' d' Hsep
    ltac:(vm_compute; reflexivity) ltac:(lia) E) as (_ & _ & _ & _ & H).
  apply H; [|by left]. intros a Ha.
  transitivity (let '(_, p2, d2) := set_mode always always wired_balanced empty_disk 200 LocalOnly in
                current_token p2 d2 300 "susi" a "**"); [by rewrite E|].
  unfold ELEVATED in Ha. cbn [In] in Ha. clear E H.
  destruct Ha as [<-|[<-|[<-|[]]]]; vm_compute; reflexivity.
Defined.

(** A balanced host may send data out without any grant of the operator. *)
Lemma balanced_permits_egress : is_permitted balanced empty_disk 200 "susi" NETWORK_EGRESS "*" = true.
Proof. vm_compute. reflexivity. Qed.

(** A process that started balanced keeps its own egress grant when another process, that
    started local-only, switches the host to local-only: the other has no record to mask. *)
Lemma running_process_keeps_egress :
  let other := with_state_dir (new always always host_key LocalOnly true 100) in
  let '(res, _, d') := set_mode always always other empty_disk 200 LocalOnly in
  is_ok res = true /\ mode wired_balanced d' = LocalOnly /\
  is_permitted wired_balanced d' 300 "susi" NETWORK_EGRESS "*" = true /\
  blocks_cloud_inference wired_balanced d' 300 = false.
Proof. vm_compute. done. Qed.

(** A rollback that fails leaves the first token written; the answer says so. *)
Lemma failed_rollback_leaves_a_token :
  let '(res, _, d') := publish second_fails (fun _ => false) wired_balanced empty_disk 200 two in
  res = Err rollback_failed /\ token_of wired_balanced d' 210 (triple (hd (default_token host_key 0 ("", "")) two)) <> None.
Proof. vm_compute. split; [done|discriminate]. Qed.

(** The switch revokes the scope [*] by name; a grant of [**] outlives it. *)
Lemma double_star_outlives_switch :
  let '(_, p, d) := grant always always wired_balanced empty_disk 150 "susi" NETWORK_EGRESS "**" None in
  let '(res, p', d') := set_mode always always p d 200 LocalOnly in
  is_ok res = true /\ is_permitted p' d' 300 "susi" NETWORK_EGRESS "*" = true.
Proof. vm_compute. done. Qed.
End Host.
