(* ===== verification/FairQueue.v ===== *)
(** * FairQueue: the bounded mission queue
    ([crates/susi-gawd-swarm/src/fair_queue.rs])

    A [FairQueue] admits missions up to a concurrency bound, queues the next ones up to a
    second bound, and promotes a waiter whenever a running mission completes.  The clock is
    an argument.  Scores are [u64] and wrap as a release build does. *)

From S2P Require Import Prelude.

Local Open Scope string_scope.
Local Open Scope list_scope.
Local Open Scope N_scope.

Record QueueLimits : Type := mkLimits {
  max_running : nat;
  max_queued : nat;
  age_boost_secs : N;
}.
Definition QueueLimits_default : QueueLimits := mkLimits 2 8 30.

Record QueuedMission : Type := mkQueued {
  mission_id : string;
  workspace : string;
  enqueued_at : N;
  weight : N;
}.

#[export] Instance QueuedMission_eq_dec : EqDecision QueuedMission.
Proof. solve_decision. Defined.

Inductive EnqueueResult : Type := Running | Queued | RejectedFull.

#[export] Instance EnqueueResult_eq_dec : EqDecision EnqueueResult.
Proof. solve_decision. Defined.

Record FairQueue : Type := mkQueue {
  limits : QueueLimits;
  running : gmap string QueuedMission;
  waiting : list QueuedMission;
}.

Definition new (l : QueueLimits) : FairQueue := mkQueue l ∅ [].
Definition running_count (q : FairQueue) : nat := size (running q).
Definition waiting_count (q : FairQueue) : nat := length (waiting q).

(** [enqueue]. *)
Definition enqueue (q : FairQueue) (m : QueuedMission) : EnqueueResult * FairQueue :=
  if (running_count q <? max_running (limits q))%nat then
    (Running, mkQueue (limits q) (<[mission_id m := m]> (running q)) (waiting q))
  else if (max_queued (limits q) <=? waiting_count q)%nat then (RejectedFull, q)
  else (Queued, mkQueue (limits q) (running q) (waiting q ++ [m])).

(** The score of a waiter in [promote]. *)
Definition aged (boost now : N) (m : QueuedMission) : bool := boost <=? now - enqueued_at m.
Definition score (boost now : N) (m : QueuedMission) : N :=
  wrapping_add (wrapping_add (if aged boost now m then 1000000000 else 0)
                             (((now - enqueued_at m) * 1000) mod 2 ^ 64)) (weight m).

(** [promote]: the last waiter of the highest score runs. *)
Definition pick (boost now : N) (w : list QueuedMission) : option (nat * QueuedMission) :=
  last_max_by (fun im : nat * QueuedMission => score boost now im.2) (zip (seq 0 (length w)) w).
Definition promote (q : FairQueue) (now : N) : option QueuedMission * FairQueue :=
  if (waiting_count q =? 0)%nat || (max_running (limits q) <=? running_count q)%nat then (None, q)
  else
    match pick (age_boost_secs (limits q)) now (waiting q) with
    | None => (None, q)
    | Some (i, next) =>
        (Some next, mkQueue (limits q) (<[mission_id next := next]> (running q)) (delete i (waiting q)))
    end.

(** [complete]. *)
Definition complete (q : FairQueue) (id : string) (now : N) : option QueuedMission * FairQueue :=
  match running q !! id with
  | None => (None, q)
  | Some _ => promote (mkQueue (limits q) (delete id (running q)) (waiting q)) now
  end.

(** [would_starve_without_aging]. *)
Definition would_starve_without_aging (q : FairQueue) (sustained starved : string) (now : N) : bool :=
  match List.find (fun m => bool_decide (mission_id m = starved)) (waiting q) with
  | None => false
  | Some m => aged (age_boost_secs (limits q)) now m && bool_decide (is_Some (running q !! sustained))
  end.

(** ** A queue in use *)

Inductive Event : Type :=
| Enqueue (m : QueuedMission)
| Complete (id : string) (now : N).

Definition step (q : FairQueue) (e : Event) : FairQueue :=
  match e with
  | Enqueue m => (enqueue q m).2
  | Complete id now => (complete q id now).2
  end.
Definition run (q : FairQueue) (es : list Event) : FairQueue := fold_left step es q.

(** ** Picking *)

Lemma zip_seq_In {A} (w : list A) k i x : In (i, x) (zip (seq k (length w)) w) <-> (k <= i)%nat /\ w !! (i - k)%nat = Some x.
Proof.
  revert k. induction w as [|y w IH]; intros k; cbn [length seq zip In].
  - split; [done|]. intros [_ H]. by rewrite lookup_nil in H.
  - change (zip_with pair (seq (S k) (length w)) w) with (zip (seq (S k) (length w)) w).
    rewrite IH. split.
    + intros [[= <- <-]|[Hle Hl]]; [split; [lia|by rewrite Nat.sub_diag]|].
      split; [lia|]. by replace (i - k)%nat with (S (i - S k)) by lia.
    + intros [Hle Hl]. destruct (decide (i = k)) as [->|Hne].
      * left. rewrite Nat.sub_diag in Hl. by injection Hl as ->.
      * right. replace (i - k)%nat with (S (i - S k)) in Hl by lia. split; [lia|done].
Qed.

Lemma pick_Some boost now w i x : pick boost now w = Some (i, x) ->
  w !! i = Some x /\ forall y, In y w -> score boost now y <= score boost now x.
Proof.
  unfold pick. intros H. apply last_max_by_Some in H as [Hin Hmax].
  apply zip_seq_In in Hin as [_ Hl]. rewrite Nat.sub_0_r in Hl. split; [done|].
  intros y Hy. apply list_elem_of_In, list_elem_of_lookup in Hy as [j Hj].
  apply (Hmax (j, y)). apply zip_seq_In. rewrite Nat.sub_0_r. split; [lia|done].
Qed.

Lemma pick_None boost now w : pick boost now w = None <-> w = [].
Proof. unfold pick. rewrite last_max_by_None. by destruct w. Qed.

Lemma promote_cases q now :
  (promote q now = (None, q) /\ (waiting q = [] \/ (max_running (limits q) <= running_count q)%nat)) \/
  exists i next, (running_count q < max_running (limits q))%nat /\ waiting q !! i = Some next /\
    (forall y, In y (waiting q) -> score (age_boost_secs (limits q)) now y <= score (age_boost_secs (limits q)) now next) /\
    promote q now = (Some next, mkQueue (limits q) (<[mission_id next := next]> (running q)) (delete i (waiting q))).
Proof.
  unfold promote, waiting_count. destruct (Nat.eqb_spec (length (waiting q)) 0) as [Hw|Hw].
  { left. split; [done|]. left. by apply nil_length_inv. }
  cbn [orb]. destruct (Nat.leb_spec (max_running (limits q)) (running_count q)) as [Hr|Hr]; [left; by auto|].
  destruct (pick _ now (waiting q)) as [[i next]|] eqn:E.
  - right. apply pick_Some in E as [Hl Hmax]. by exists i, next.
  - apply pick_None in E. by rewrite E in Hw.
Qed.

(** ** Bounds *)

Lemma size_insert_le {V} (m : gmap string V) k v : (size (<[k := v]> m) <= S (size m))%nat.
Proof. rewrite map_size_insert. destruct (m !! k); simpl; lia. Qed.

Lemma size_delete_lt {V} (m : gmap string V) k v : m !! k = Some v -> S (size (delete k m)) = size m.
Proof. intros H. rewrite map_size_delete, H. simpl. assert (size m <> 0%nat); [|lia].
  intros H0. apply map_size_empty_inv in H0 as ->. by rewrite lookup_empty in H. Qed.

Definition within_limits (q : FairQueue) : Prop :=
  (running_count q <= max_running (limits q))%nat /\ (waiting_count q <= max_queued (limits q))%nat.

Lemma promote_within q now : within_limits q -> within_limits (promote q now).2 /\ limits (promote q now).2 = limits q.
Proof.
  intros [Hr Hw]. destruct (promote_cases q now) as [[-> _]|(i & next & Hlt & Hl & _ & ->)]; [done|].
  split; [|done]. unfold within_limits, running_count, waiting_count in *. cbn [snd running waiting limits].
  pose proof (size_insert_le (running q) (mission_id next) next).
  apply lookup_lt_Some in Hl. rewrite length_delete by (by apply lookup_lt_is_Some_2). lia.
Qed.

Lemma step_within q e : within_limits q -> within_limits (step q e) /\ limits (step q e) = limits q.
Proof.
  intros Hq. destruct e as [m|id now]; cbn [step].
  - destruct Hq as [Hr Hw]. unfold enqueue, within_limits, running_count, waiting_count in *.
    destruct (Nat.ltb_spec (size (running q)) (max_running (limits q))).
    + cbn [snd running waiting limits]. pose proof (size_insert_le (running q) (mission_id m) m). split; [lia|done].
    + destruct (Nat.leb_spec (max_queued (limits q)) (length (waiting q))); [done|].
      cbn [snd running waiting limits]. rewrite length_app. simpl. split; [lia|done].
  - unfold complete. destruct (running q !! id) eqn:E; [|done].
    apply (promote_within (mkQueue (limits q) (delete id (running q)) (waiting q))).
    destruct Hq as [Hr Hw]. unfold within_limits, running_count, waiting_count in *.
    cbn [running waiting limits]. pose proof (size_delete_lt _ _ _ E). lia.
Qed.

(** The queue never runs more missions than its concurrency bound and never holds more
    waiters than its queue bound, whatever is enqueued and completed. *)
Theorem queue_stays_bounded l es :
  (running_count (run (new l) es) <= max_running l)%nat /\ (waiting_count (run (new l) es) <= max_queued l)%nat.
Proof.
  assert (H : forall q, within_limits q -> limits q = l -> within_limits (run q es) /\ limits (run q es) = l).
  { induction es as [|e es IH]; intros q Hq Hl; [done|]. cbn [run fold_left].
    destruct (step_within q e Hq) as [Hs Hsl]. apply IH; congruence || done. }
  destruct (H (new l)) as [[H1 H2] Hl]; [|done|by rewrite Hl in H1, H2].
  split; [apply Nat.le_0_l|apply Nat.le_0_l].
Qed.

(** ** Aging *)

(** No clock reads past the year thirty million, so no score wraps. *)
Definition horizon : N := 1000000000000000.

Lemma score_exact boost now m : now <= horizon -> weight m <= u32_max ->
  score boost now m = (if aged boost now m then 1000000000 else 0) + (now - enqueued_at m) * 1000 + weight m.
Proof.
  unfold horizon, u32_max. intros Hn Hw. unfold score. set (b := if aged _ _ _ then _ else _).
  assert (Hb : b <= 1000000000) by (unfold b; destruct (aged _ _ _); lia).
  rewrite N.mod_small by (change (2 ^ 64) with 18446744073709551616; lia).
  rewrite !wrapping_add_exact by (unfold u64_max; rewrite ?wrapping_add_exact by (unfold u64_max; lia); lia).
  done.
Qed.

(** An aged waiter is passed over only for one that has waited as long. *)
Lemma aged_is_passed_by_older boost now m x : now <= horizon -> weight m < 1000 -> weight x < 1000 ->
  aged boost now m = true -> score boost now m <= score boost now x -> enqueued_at x <= enqueued_at m \/ now <= enqueued_at m.
Proof.
  intros Hn Hm Hx Ha Hs. rewrite !score_exact in Hs by (done || (unfold u32_max; lia)). rewrite Ha in Hs.
  unfold aged in *. apply N.leb_le in Ha. destruct (N.leb_spec boost (now - enqueued_at x)); lia.
Qed.

(** What is promoted along a run, and how many completions free a slot. *)
Fixpoint promoted (q : FairQueue) (es : list Event) : list QueuedMission :=
  match es with
  | [] => []
  | e :: es' =>
      match e with
      | Complete id now => option_list (complete q id now).1
      | Enqueue _ => []
      end ++ promoted (step q e) es'
  end.
Fixpoint completions (q : FairQueue) (es : list Event) : nat :=
  match es with
  | [] => 0
  | e :: es' =>
      (match e with
       | Complete id _ => if bool_decide (is_Some (running q !! id)) then 1 else 0
       | Enqueue _ => 0
       end + completions (step q e) es')%nat
  end.

(** The waiters at least as old as a mission, itself included. *)
Definition ahead (q : FairQueue) (m : QueuedMission) : nat :=
  length (List.filter (fun x => enqueued_at x <=? enqueued_at m) (waiting q)).

Definition timely (m : QueuedMission) (t0 : N) (e : Event) : Prop :=
  match e with
  | Enqueue x => enqueued_at m < enqueued_at x /\ weight x < 1000
  | Complete _ now => t0 <= now /\ now <= horizon
  end.

Lemma filter_delete {A} (f : A -> bool) (l : list A) i x : l !! i = Some x ->
  length (List.filter f l) = ((if f x then 1 else 0) + length (List.filter f (delete i l)))%nat.
Proof.
  revert i. induction l as [|y l IH]; intros [|i] H; simplify_eq/=; [by destruct (f x)|].
  cbn [List.filter]. change (delete (S i) (y :: l)) with (y :: delete i l). cbn [List.filter].
  destruct (f y); simpl; rewrite (IH i H); lia.
Qed.

Lemma In_delete {A} (l : list A) i x y : l !! i = Some x -> In y l -> y = x \/ In y (delete i l).
Proof.
  intros H Hy. rewrite (delete_Permutation l i x H) in Hy. destruct Hy as [<-|Hy]; auto.
Qed.

Lemma delete_In {A} (l : list A) i x y : l !! i = Some x -> In y (delete i l) -> In y l.
Proof. intros H Hy. rewrite (delete_Permutation l i x H). by right. Qed.

(** One completed mission: the waiter is promoted, or one fewer is ahead of it. *)
Lemma complete_progress q id now m t0 : within_limits q -> In m (waiting q) ->
  (forall x, In x (waiting q) -> weight x < 1000) -> is_Some (running q !! id) ->
  0 < age_boost_secs (limits q) -> aged (age_boost_secs (limits q)) t0 m = true -> t0 <= now -> now <= horizon ->
  (complete q id now).1 = Some m \/
  (In m (waiting (complete q id now).2) /\ S (ahead (complete q id now).2 m) = ahead q m /\
   (forall x, In x (waiting (complete q id now).2) -> weight x < 1000)).
Proof.
  intros Hq Hm Hw [r Hr] Hb Ha Ht Hn. unfold complete. rewrite Hr.
  set (q1 := mkQueue (limits q) (delete id (running q)) (waiting q)).
  destruct (promote_cases q1 now) as [[_ [Hnil|Hfull]]|(i & next & _ & Hl & Hmax & ->)].
  - simpl in Hnil. by rewrite Hnil in Hm.
  - exfalso. destruct Hq as [Hc _]. unfold running_count in *. cbn [q1 running limits] in Hfull.
    pose proof (size_delete_lt _ _ _ Hr). lia.
  - cbn [fst snd waiting limits q1] in *. destruct (In_delete _ _ _ m Hl Hm) as [->|Hin]; [by left|right].
    assert (Hnext : In next (waiting q)) by (by apply list_elem_of_In, list_elem_of_lookup_2 with i).
    unfold aged in Ha. apply N.leb_le in Ha.
    assert (Hold : enqueued_at next <= enqueued_at m).
    { destruct (aged_is_passed_by_older (age_boost_secs (limits q)) now m next) as [?|?]; try done; auto.
      - unfold aged. apply N.leb_le. lia.
      - lia. }
    split_and!; [done| |].
    + unfold ahead. cbn [waiting]. rewrite (filter_delete _ (waiting q) i next Hl).
      by rewrite (proj2 (N.leb_le _ _) Hold).
    + intros x Hx. apply Hw. by eapply delete_In.
Qed.

Lemma enqueue_keeps q x m : In m (waiting q) -> enqueued_at m < enqueued_at x -> weight x < 1000 ->
  (forall y, In y (waiting q) -> weight y < 1000) ->
  In m (waiting (enqueue q x).2) /\ ahead (enqueue q x).2 m = ahead q m /\
  (forall y, In y (waiting (enqueue q x).2) -> weight y < 1000).
Proof.
  intros Hm Hx Hwx Hw. unfold enqueue. destruct (_ <? _)%nat; [done|]. destruct (_ <=? _)%nat; [done|].
  cbn [snd waiting]. split_and!.
  - apply in_or_app. by left.
  - unfold ahead. cbn [waiting]. rewrite List.filter_app. cbn [List.filter].
    rewrite (proj2 (N.leb_gt _ _) Hx). by rewrite app_nil_r.
  - intros y Hy. apply in_app_or in Hy as [Hy|[<-|[]]]; auto.
Qed.

(** No waiter starves.  Once a waiting mission is past its aging bound, it is promoted
    after at most as many completions as there are waiters at least as old as it, whatever
    younger missions keep arriving, provided weights stay below one thousand. *)
Theorem aged_waiter_is_promoted q m t0 es :
  within_limits q -> In m (waiting q) -> (forall x, In x (waiting q) -> weight x < 1000) ->
  0 < age_boost_secs (limits q) -> aged (age_boost_secs (limits q)) t0 m = true ->
  Forall (timely m t0) es -> (ahead q m <= completions q es)%nat ->
  In m (promoted q es).
Proof.
  intros Hq Hm Hw Hb Ha Hes Hc. revert q Hq Hm Hw Hb Ha Hc. induction Hes as [|e es He Hes IH]; intros q Hq Hm Hw Hb Ha Hc.
  - exfalso. cbn [completions] in Hc. assert (0 < ahead q m)%nat; [|lia]. unfold ahead.
    assert (Hin : In m (List.filter (fun x => enqueued_at x <=? enqueued_at m) (waiting q))).
    { apply filter_In. split; [done|]. apply N.leb_refl. }
    destruct (List.filter _ _); [done|simpl; lia].
  - destruct (step_within q e Hq) as [Hq' Hl]. cbn [promoted completions] in *. apply in_or_app.
    destruct e as [x|id now]; cbn [step] in *.
    + right. destruct He as [Hx Hwx]. destruct (enqueue_keeps q x m Hm Hx Hwx Hw) as (H1 & H2 & H3).
      apply IH; rewrite ?Hl, ?H2; done.
    + destruct He as [Ht Hn]. case_bool_decide as Hrun.
      * destruct (complete_progress q id now m t0 Hq Hm Hw Hrun Hb Ha Ht Hn) as [->|(H1 & H2 & H3)]; [left; by left|].
        right. apply IH; rewrite ?Hl; try done. lia.
      * right. assert (Hsame : (complete q id now).2 = q).
        { unfold complete. destruct (running q !! id) eqn:E; [|done]. exfalso. apply Hrun. by eexists. }
        rewrite Hsame in *. by apply IH.
Qed.

Definition mission (id : string) (at_ w : N) : QueuedMission := mkQueued id "ws" at_ w.
Definition busy : FairQueue :=
  run (new (mkLimits 1 8 30)) [Enqueue (mission "a" 0 1); Enqueue (mission "old" 5 1); Enqueue (mission "b" 5 900)].

Lemma aged_waiter_is_promoted_witness :
  In (mission "old" 5 1) (promoted busy [Complete "a" 100; Enqueue (mission "new" 99 999); Complete "b" 101]).
Proof.
  apply (aged_waiter_is_promoted busy (mission "old" 5 1) 50).
  - vm_compute. lia.
  - vm_compute. tauto.
  - intros x [<-|[<-|[]]]; vm_compute; reflexivity.
  - vm_compute. reflexivity.
  - vm_compute. reflexivity.
  - repeat constructor; vm_compute; congruence.
  - vm_compute. lia.
Defined.

(** A heavy mission that just arrived is promoted before one that is past the aging bound. *)
Lemma weight_outranks_age :
  let q := run (new (mkLimits 1 8 30)) [Enqueue (mission "a" 0 1); Enqueue (mission "old" 5 1);
                                       Enqueue (mission "heavy" 100 u32_max)] in
  (complete q "a" 100).1 = Some (mission "heavy" 100 u32_max).
Proof. vm_compute. reflexivity. Qed.
