(* ===== verification/AntiEntropy.v ===== *)
(** * AntiEntropy: bounded catch-up from a peer
    ([crates/susi-gawd-swarm/src/anti_entropy.rs])

    [bounded_sweep] pages through a peer's ledger from a cursor, applies what the caller
    accepts, and stops at the peer's end or at a bound.  The caller's four closures act on
    a state of their own, [W], so they are functions that pass it along. *)

From S2P Require Import Prelude.

Local Open Scope string_scope.
Local Open Scope list_scope.
Local Open Scope nat_scope.

(** ** Cursors *)

Record CatchUpCursor : Type := mkCursor {
  offset : nat;
  c_applied : N;
  complete : bool;
}.
Definition CatchUpCursor_default : CatchUpCursor := mkCursor 0 0 false.

Notation CatchUpBook := (gmap string CatchUpCursor) (only parsing).

(** [resume_offset]. *)
Definition resume_offset (book : CatchUpBook) (peer : string) : nat :=
  match book !! peer with
  | Some c => if complete c then 0 else offset c
  | None => 0
  end.

(** [mark_batch]. *)
Definition mark_batch (book : CatchUpBook) (peer : string) (off : nat) (n : N) (tip : bool) : CatchUpBook :=
  let c := default CatchUpCursor_default (book !! peer) in
  <[peer := mkCursor off (wrapping_add (c_applied c) n) tip]> book.

(** [load_book_from]: a file that is absent or does not parse is an empty book. *)
Definition load_book_from (file : option (option CatchUpBook)) : CatchUpBook :=
  match file with Some (Some b) => b | _ => ∅ end.

Record CatchUpBounds : Type := mkBounds {
  batch_size : nat;
  max_apply_per_sweep : nat;
  max_scan_per_sweep : nat;
}.
Definition CatchUpBounds_default : CatchUpBounds := mkBounds 256 512 4096.

Record SweepOutcome : Type := mkOutcome {
  scanned : nat;
  applied : nat;
  converged : bool;
  needs_more : bool;
}.

#[export] Instance SweepOutcome_eq_dec : EqDecision SweepOutcome.
Proof. solve_decision. Defined.

(** ** The sweep *)

Section Sweep.
Context {R W : Type}.

(** The closures: a page, the gate, the intake of a batch, and what was seen. *)
Record Peer : Type := mkPeer {
  fetch : nat -> nat -> W -> list R * W;
  accept : R -> W -> bool * W;
  apply_batch : list R -> W -> W;
  note_remote : R -> W -> W;
}.

Variables (io : Peer) (peer : string) (bounds : CatchUpBounds).

(** The loop over a page. *)
Fixpoint gate_page (page : list R) (w : W) : list R * W :=
  match page with
  | [] => ([], w)
  | r :: page' =>
      let w := note_remote io r w in
      let '(ok, w) := accept io r w in
      let '(batch, w) := gate_page page' w in
      (if ok then r :: batch else batch, w)
  end.

(** One page of the sweep: the sweep is over, or goes on from the next offset. *)
Record Progress : Type := mkProgress {
  p_book : CatchUpBook;
  p_offset : nat;
  p_scanned : nat;
  p_applied : nat;
}.
Definition sweep_page (s : Progress) (w : W) : (Progress + (CatchUpBook * SweepOutcome)) * W :=
  let '(page, w) := fetch io (p_offset s) (batch_size bounds) w in
  match page with
  | [] =>
      (inr (mark_batch (p_book s) peer (p_offset s) 0 true,
            mkOutcome (p_scanned s) (p_applied s) true false), w)
  | _ =>
      let off := p_offset s + length page in
      let '(batch, w) := gate_page page w in
      let sc := p_scanned s + length page in
      let '(ap, book, w) :=
        match batch with
        | [] => (p_applied s, mark_batch (p_book s) peer off 0 false, w)
        | _ => (p_applied s + length batch,
                mark_batch (p_book s) peer off (N.of_nat (length batch)) false,
                apply_batch io batch w)
        end in
      let tip := length page <? batch_size bounds in
      if tip || (max_apply_per_sweep bounds <=? ap) || (max_scan_per_sweep bounds <=? sc) then
        (inr (mark_batch book peer off 0 tip, mkOutcome sc ap tip (negb tip)), w)
      else (inl (mkProgress book off sc ap), w)
  end.

(** The [loop], with fuel: [None] is fuel that ran out. *)
Fixpoint sweep_loop (fuel : nat) (s : Progress) (w : W) : option (CatchUpBook * SweepOutcome) * W :=
  match fuel with
  | O => (None, w)
  | S f =>
      match sweep_page s w with
      | (inl s, w) => sweep_loop f s w
      | (inr res, w) => (Some res, w)
      end
  end.

(** [bounded_sweep].  Every page but the last raises [scanned]. *)
Definition sweep_fuel : nat := S (max_scan_per_sweep bounds).
Definition bounded_sweep (book : CatchUpBook) (w : W) : option (CatchUpBook * SweepOutcome) * W :=
  sweep_loop sweep_fuel (mkProgress book (resume_offset book peer) 0 0) w.

(** ** Termination and bounds *)

Lemma gate_page_length page w : length (gate_page page w).1 <= length page.
Proof.
  revert w. induction page as [|r page IH]; intros w; [done|]. cbn [gate_page].
  destruct (accept io r _) as [ok w1]. specialize (IH w1). destruct (gate_page page w1) as [batch w2].
  cbn [fst] in *. destruct ok; simpl; lia.
Qed.

(** A page that does not end the sweep raises [scanned] and stays under both bounds. *)
Lemma sweep_page_inl s s' w w' : sweep_page s w = (inl s', w') ->
  p_scanned s < p_scanned s' < max_scan_per_sweep bounds /\ p_applied s' < max_apply_per_sweep bounds.
Proof.
  unfold sweep_page. destruct (fetch io _ _ w) as [[|r page] w1]; [done|].
  destruct (gate_page (r :: page) w1) as [batch w2].
  destruct (match batch with [] => _ | _ => _ end) as [[ap book] w3].
  destruct (_ || _) eqn:E; [done|]. intros [= <- _]. apply orb_false_iff in E as [E Hs].
  apply orb_false_iff in E as [_ Hr]. apply Nat.leb_gt in Hs, Hr. cbn [p_scanned p_applied length] in *. lia.
Qed.

(** A sweep always ends: whatever the peer, the gate and the intake do, it stops after
    at most one page more than its scan bound. *)
Theorem sweep_terminates book w : exists res w', bounded_sweep book w = (Some res, w').
Proof.
  unfold bounded_sweep, sweep_fuel.
  assert (H : forall fuel s w, max_scan_per_sweep bounds < p_scanned s + fuel -> 0 < fuel ->
            exists res w', sweep_loop fuel s w = (Some res, w')); [|apply H; simpl; lia].
  clear. induction fuel as [|fuel IH]; intros s w Hf Hpos; [lia|]. cbn [sweep_loop].
  destruct (sweep_page s w) as [[s'|res] w'] eqn:E; [|by eexists _, _].
  apply sweep_page_inl in E as [E _]. apply IH; lia.
Qed.

Lemma sweep_page_inr s book out w w' :
  (forall o l v, length (fetch io o l v).1 <= l) ->
  sweep_page s w = (inr (book, out), w') ->
  scanned out <= p_scanned s + batch_size bounds /\ applied out <= p_applied s + batch_size bounds /\
  needs_more out = negb (converged out).
Proof.
  intros Hlen. unfold sweep_page. specialize (Hlen (p_offset s) (batch_size bounds) w).
  destruct (fetch io _ _ w) as [page w1]. cbn [fst] in Hlen. destruct page as [|r page].
  { intros [= <- <- _]. cbn [scanned applied converged needs_more]. split_and!; [lia|lia|done]. }
  pose proof (gate_page_length (r :: page) w1) as Hb.
  destruct (gate_page (r :: page) w1) as [batch w2]. cbn [fst] in Hb.
  destruct batch as [|b batch]; destruct (_ || _); intros [= <- <- _];
    cbn [scanned applied converged needs_more length] in *; split_and!; try done; lia.
Qed.

(** One sweep is bounded by its limits up to one page: it scans fewer than a page more
    than its scan bound and applies fewer than a page more than its rate, whatever the
    gate and the intake do, as long as the peer sends pages no longer than asked. *)
Theorem sweep_within_bounds book w book' out w' :
  (forall o l v, length (fetch io o l v).1 <= l) ->
  0 < max_scan_per_sweep bounds -> 0 < max_apply_per_sweep bounds ->
  bounded_sweep book w = (Some (book', out), w') ->
  scanned out < max_scan_per_sweep bounds + batch_size bounds /\
  applied out < max_apply_per_sweep bounds + batch_size bounds /\
  needs_more out = negb (converged out).
Proof.
  intros Hlen Hs Ha. unfold bounded_sweep.
  assert (H : forall fuel s w, p_scanned s < max_scan_per_sweep bounds -> p_applied s < max_apply_per_sweep bounds ->
    sweep_loop fuel s w = (Some (book', out), w') ->
    scanned out < max_scan_per_sweep bounds + batch_size bounds /\
    applied out < max_apply_per_sweep bounds + batch_size bounds /\ needs_more out = negb (converged out));
    [|apply H; simpl; lia].
  clear w. induction fuel as [|fuel IH]; intros s w Hps Hpa; cbn [sweep_loop]; [done|].
  destruct (sweep_page s w) as [[s'|[b o]] w1] eqn:E.
  - apply sweep_page_inl in E as (E1 & E2). apply IH; lia.
  - intros [= -> -> ->]. apply sweep_page_inr in E as (E1 & E2 & ->); [|done]. split_and!; [lia|lia|done].
Qed.
End Sweep.

(** ** Catching up with a peer that holds still *)

(** Sweep after sweep, as the maintenance loop of the supervisor runs them, until one
    reports convergence. *)
Fixpoint catch_up {R W} (io : @Peer R W) (peer : string) (bounds : CatchUpBounds) (n : nat)
    (book : CatchUpBook) (w : W) : CatchUpBook * bool * W :=
  match n with
  | O => (book, false, w)
  | S n' =>
      match bounded_sweep io peer bounds book w with
      | (Some (book, out), w) =>
          if converged out then (book, true, w) else catch_up io peer bounds n' book w
      | (None, w) => (book, false, w)
      end
  end.

(** The peer serves pages of one list; the gate decides by the record alone; [log] is the
    list of everything the intake was handed. *)
Class Still {R W} (io : @Peer R W) (remote : list R) (gate : R -> bool) (log : W -> list R) : Prop := {
  still_fetch : forall o l w, (fetch io o l w).1 = take l (drop o remote);
  still_fetch_log : forall o l w, log (fetch io o l w).2 = log w;
  still_accept : forall r w, (accept io r w).1 = gate r;
  still_accept_log : forall r w, log (accept io r w).2 = log w;
  still_apply_log : forall b w, log (apply_batch io b w) = log w ++ b;
  still_note_log : forall r w, log (note_remote io r w) = log w;
}.

Section StillPeer.
Context {R W : Type} (io : @Peer R W) (peer : string) (bounds : CatchUpBounds).
Context (remote : list R) (gate : R -> bool) (log : W -> list R) `{!Still io remote gate log}.
Hypothesis batch_pos : 0 < batch_size bounds.

Lemma gate_page_exact page w :
  (gate_page io page w).1 = List.filter gate page /\ log (gate_page io page w).2 = log w.
Proof.
  revert w. induction page as [|r page IH]; intros w; [done|]. cbn [gate_page List.filter].
  rewrite <- (still_accept (Still := Still0) r (note_remote io r w)).
  pose proof (still_accept_log (Still := Still0) r (note_remote io r w)) as Hlog.
  destruct (accept io r _) as [ok w1]. cbn [fst snd] in *. destruct (IH w1) as [Hb Hl].
  destruct (gate_page io page w1) as [batch w2]. cbn [fst snd] in *. subst batch.
  rewrite Hl, Hlog, (still_note_log (Still := Still0)). by destruct ok.
Qed.

Lemma mark_batch_resume book off n tip :
  resume_offset (mark_batch book peer off n tip) peer = if tip then 0 else off.
Proof. unfold resume_offset, mark_batch. rewrite lookup_insert_eq. by destruct tip. Qed.

(** A page applies exactly the accepted records it carries. *)
Lemma sweep_page_exact s w : p_offset s <= length remote ->
  exists o, p_offset s <= o <= length remote /\
    match sweep_page io peer bounds s w with
    | (inl s', w') => p_offset s < o /\ p_offset s' = o /\
        log w' = log w ++ List.filter gate (take (o - p_offset s) (drop (p_offset s) remote))
    | (inr (book, out), w') =>
        log w' = log w ++ List.filter gate (take (o - p_offset s) (drop (p_offset s) remote)) /\
        resume_offset book peer = (if converged out then 0 else o) /\
        (if converged out then o = length remote else p_offset s < o)
    end.
Proof.
  intros Ho. unfold sweep_page.
  pose proof (still_fetch (Still := Still0) (p_offset s) (batch_size bounds) w) as Hf.
  pose proof (still_fetch_log (Still := Still0) (p_offset s) (batch_size bounds) w) as Hfl.
  destruct (fetch io _ _ w) as [page w1]. cbn [fst snd] in Hf, Hfl.
  assert (Hlen : length page = batch_size bounds `min` (length remote - p_offset s)).
  { by rewrite Hf, length_take, length_drop. }
  set (o := p_offset s + length page).
  assert (Htake : take (o - p_offset s) (drop (p_offset s) remote) = page).
  { unfold o. rewrite Hf at 2. replace (p_offset s + length page - p_offset s) with (length page) by lia.
    rewrite Hlen. destruct (Nat.le_ge_cases (batch_size bounds) (length remote - p_offset s)).
    - by rewrite Nat.min_l.
    - rewrite Nat.min_r by done. rewrite !take_ge by (rewrite length_drop; lia). done. }
  exists o. split; [unfold o; lia|]. rewrite Htake. destruct page as [|r page].
  { cbn [length] in *. rewrite app_nil_r. cbn [converged]. rewrite mark_batch_resume.
    split_and!; [done|done|]. unfold o. lia. }
  destruct (gate_page_exact (r :: page) w1) as [Hb Hbl].
  destruct (gate_page io (r :: page) w1) as [batch w2]. cbn [fst snd] in Hb, Hbl.
  assert (Hout : forall ap book w3, log w3 = log w ++ List.filter gate (r :: page) ->
    match (let tip := length (r :: page) <? batch_size bounds in
           if tip || (max_apply_per_sweep bounds <=? ap) || (max_scan_per_sweep bounds <=? p_scanned s + length (r :: page)) then
             (inr (mark_batch book peer o 0 tip, mkOutcome (p_scanned s + length (r :: page)) ap tip (negb tip)), w3)
           else (inl (mkProgress book o (p_scanned s + length (r :: page)) ap), w3)) with
    | (inl s', w') => p_offset s < o /\ p_offset s' = o /\ log w' = log w ++ List.filter gate (r :: page)
    | (inr (book, out), w') => log w' = log w ++ List.filter gate (r :: page) /\
        resume_offset book peer = (if converged out then 0 else o) /\
        (if converged out then o = length remote else p_offset s < o)
    end).
  { intros ap book w3 Hw3. cbv zeta. destruct (_ || _); cbn [converged p_offset].
    - rewrite mark_batch_resume. split_and!; [done|done|].
      destruct (Nat.ltb_spec (length (r :: page)) (batch_size bounds)); unfold o; cbn [length] in *; lia.
    - split_and!; [unfold o; simpl; lia|done|done]. }
  destruct batch as [|b batch]; apply Hout.
  - by rewrite Hbl, Hfl, <- Hb, app_nil_r.
  - by rewrite (still_apply_log (Still := Still0)), Hbl, Hfl, <- Hb.
Qed.

(** A whole sweep applies the accepted records of one interval, once and in order, and
    leaves the cursor at its end. *)
Lemma sweep_loop_exact fuel s w book out w' : p_offset s <= length remote ->
  sweep_loop io peer bounds fuel s w = (Some (book, out), w') ->
  exists o, p_offset s <= o <= length remote /\
    log w' = log w ++ List.filter gate (take (o - p_offset s) (drop (p_offset s) remote)) /\
    resume_offset book peer = (if converged out then 0 else o) /\
    (if converged out then o = length remote else p_offset s < o).
Proof.
  revert s w. induction fuel as [|fuel IH]; intros s w Ho H; [done|]. cbn [sweep_loop] in H.
  destruct (sweep_page_exact s w Ho) as (o & Hle & Hpage).
  destruct (sweep_page io peer bounds s w) as [[s'|[b u]] w1].
  - destruct Hpage as (Hlt & Hs' & Hlog). destruct (IH s' w1) as (o2 & Hle2 & Hlog2 & Hres & Hconv); [lia|done|].
    exists o2. rewrite Hs' in *. split; [lia|]. split_and!; [|done|].
    + rewrite Hlog2, Hlog, <- app_assoc. f_equal. rewrite <- List.filter_app. f_equal.
      replace (o2 - p_offset s) with ((o - p_offset s) + (o2 - o)) by lia.
      rewrite <- take_take_drop, drop_drop. do 3 f_equal. lia.
    + destruct (converged out); lia.
  - injection H as <- <- <-. exists o. naive_solver.
Qed.

(** C17. Catching up converges. Against a peer that holds still, that is one whose pages are
    slices of one list and whose gate decides by the record alone ([Still]; the cluster's
    own pages are sorted by descending sequence and its gate reads the roster, so they do
    not meet it), repeating the sweep from whatever cursor is on file reaches the peer's end
    within as many sweeps as it has records left, plus one; by then the intake was handed
    exactly the accepted records from the cursor on, each once and in the peer's order,
    however the bounds cut the sweeps. *)
Theorem catch_up_converges n book w :
  resume_offset book peer <= length remote -> length remote - resume_offset book peer < n ->
  exists book' w', catch_up io peer bounds n book w = (book', true, w') /\
    log w' = log w ++ List.filter gate (drop (resume_offset book peer) remote) /\
    resume_offset book' peer = 0.
Proof.
  revert book w. induction n as [|n IH]; intros book w Ho Hn; [lia|]. cbn [catch_up].
  destruct (sweep_terminates io peer bounds book w) as ([book1 out] & w1 & E). rewrite E.
  destruct (sweep_loop_exact _ (mkProgress book (resume_offset book peer) 0 0) _ _ _ _ Ho E) as (o & Hle & Hlog & Hres & Hconv).
  cbn [p_offset] in *. destruct (converged out).
  - exists book1, w1. split_and!; [done| |done]. rewrite Hlog. do 2 f_equal.
    apply take_ge. rewrite length_drop. lia.
  - destruct (IH book1 w1) as (book' & w' & Hc & Hl & Hr); [lia..|]. exists book', w'.
    rewrite Hc. split_and!; [done| |done]. rewrite Hl, Hlog, Hres, <- app_assoc, <- List.filter_app. do 2 f_equal.
    rewrite <- (take_drop (o - resume_offset book peer) (drop (resume_offset book peer) remote)) at 2.
    f_equal. rewrite drop_drop. f_equal. lia.
Qed.
End StillPeer.

(** ** Concrete peers *)

Definition list_peer {R} (remote : list R) (gate : R -> bool) : @Peer R (list R) :=
  mkPeer (fun o l w => (take l (drop o remote), w)) (fun r w => (gate r, w))
         (fun b w => w ++ b) (fun _ w => w).

#[export] Instance list_peer_still {R} (remote : list R) gate : Still (list_peer remote gate) remote gate id.
Proof. by split. Qed.

Definition ten : list nat := seq 0 10.
Definition tight : CatchUpBounds := mkBounds 3 1 100.

Lemma catch_up_converges_witness :
  exists book' w', catch_up (list_peer ten Nat.even) "p" tight 11 ∅ [] = (book', true, w') /\ w' = [0; 2; 4; 6; 8].
Proof.
  destruct (catch_up_converges (list_peer ten Nat.even) "p" tight ten Nat.even id ltac:(apply Nat.ltb_lt; reflexivity) 11 ∅ [])
    as (b & w & H & Hl & _); [apply Nat.leb_le; reflexivity|apply Nat.ltb_lt; reflexivity|].
  exists b, w. split; [exact H|exact Hl].
Defined.

Lemma sweep_within_bounds_witness :
  exists out w', (exists b, bounded_sweep (list_peer ten Nat.even) "p" tight ∅ [] = (Some (b, out), w')) /\
    applied out < 1 + 3.
Proof.
  destruct (bounded_sweep (list_peer ten Nat.even) "p" tight ∅ []) as [[[b out]|] w'] eqn:E;
    [|vm_compute in E; discriminate].
  exists out, w'. split; [by exists b|].
  refine (proj1 (proj2 (sweep_within_bounds (list_peer ten Nat.even) "p" tight ∅ [] b out w' _ _ _ E))).
  - intros o l v. cbn [fetch list_peer fst]. rewrite length_take. lia.
  - vm_compute. lia.
  - vm_compute. lia.
Defined.

(** A sweep limited to one record applies the whole page that reaches the limit. *)
Lemma rate_limit_is_exceeded :
  exists b w, bounded_sweep (list_peer ten (fun _ => true)) "p" tight ∅ [] =
    (Some (b, mkOutcome 3 3 false true), w) /\ max_apply_per_sweep tight = 1.
Proof. eexists _, _. split; [vm_compute; reflexivity|reflexivity]. Qed.

(** A peer that cannot be reached answers with no records, which is read as its end: the
    sweep reports convergence and the cursor of an interrupted catch-up is lost. *)
Lemma failed_fetch_loses_cursor :
  let dead := mkPeer (fun _ _ (w : list nat) => ([], w)) (fun _ w => (true, w)) (fun b w => w ++ b) (fun _ w => w) in
  let '(r1, w1) := bounded_sweep (list_peer ten (fun _ => true)) "p" tight ∅ [] in
  match r1 with
  | Some (b1, _) =>
      resume_offset b1 "p" = 3 /\
      match bounded_sweep dead "p" tight b1 w1 with
      | (Some (b2, out), _) => converged out = true /\ resume_offset b2 "p" = 0
      | _ => False
      end
  | None => False
  end.
Proof. vm_compute. done. Qed.
