(* ===== verification/LedgerSync.v ===== *)
(** * LedgerSync: the supervisor's catch-up with one peer
    ([sync_commit_ledger_from] of [crates/susi-gawd-swarm/src/amas.rs])

    The pull half runs [AntiEntropy.bounded_sweep] with closures over the node: pages come
    from the peer's tool, the gate verifies and adopts terms, the intake is
    [CommitLedger.append_many_to].  The push half sends back what the peer did not show.
    The peer, its failures, the lock files and the clock are arguments;
    the term file is read and written without failure. *)

From S2P Require Import Prelude ClusterKey CommitRecord CommitLedger Term AntiEntropy.

Local Open Scope list_scope.
Local Open Scope N_scope.

Section Sync.
Context `{C : Crypto} `{S : Serde}.
(** What the peer answers to its [i]-th page request, [None] for a failed call. *)
Context (answers : nat -> nat -> nat -> option (list CommitRecord)).
(** The clock at that request, and whether a lock could be taken then. *)
Context (clock : nat -> N) (ledger_lock term_lock : nat -> bool).

Record SyncState : Type := mkSync {
  s_node : Node;
  s_term : TermState;
  s_their : list CommitRecord;
  s_calls : nat;
}.

(** The page closure: a failed call is an empty page; a page is taken with the highest
    sequence number first. *)
Definition sync_fetch (o l : nat) (w : SyncState) : list CommitRecord * SyncState :=
  let w' := mkSync (s_node w) (s_term w) (s_their w) (1 + s_calls w)%nat in
  match answers (s_calls w) o l with
  | None => ([], w')
  | Some records => (sort_by_key (fun r => u64_max - seq r) records, w')
  end.

(** The gate closure; [held] was read before the sweep. *)
Definition sync_accept (held : list CommitRecord) (r : CommitRecord) (w : SyncState) : bool * SyncState :=
  let now := clock (s_calls w) in
  if negb (verify (keys (s_node w)) now r) then (false, w)
  else
    let w :=
      if coordinator_known_at (s_node w) r then
        mkSync (s_node w) (check_term (term_lock (s_calls w)) (s_term w) now r).2 (s_their w) (s_calls w)
      else w in
    if negb (member_coordinator_known_at (s_node w) r) then (false, w)
    else (negb (bool_decide (r ∈ held)), w).

Definition sync_apply (batch : list CommitRecord) (w : SyncState) : SyncState :=
  let '(_, n) := append_many_to (ledger_lock (s_calls w)) (s_node w) (clock (s_calls w)) batch in
  mkSync n (s_term w) (s_their w) (s_calls w).

Definition sync_note (r : CommitRecord) (w : SyncState) : SyncState :=
  mkSync (s_node w) (s_term w) (r :: s_their w) (s_calls w).

Definition sync_io (held : list CommitRecord) : @Peer CommitRecord SyncState :=
  mkPeer sync_fetch (sync_accept held) sync_apply sync_note.

(** ** The push half *)

Inductive Push : Type :=
| PushBatch (records : list CommitRecord)
| PushOne (record : CommitRecord).

Definition to_push (bounds : CatchUpBounds) (n : Node) (their : list CommitRecord) : list CommitRecord :=
  take (max_apply_per_sweep bounds)
    (sort_by_key seq (List.filter (fun r => negb (bool_decide (r ∈ their))) (ledger n ++ archive n))).

(** The calls made, given whether the peer took the batch. *)
Definition push_calls (batch_taken : bool) (rs : list CommitRecord) : list Push :=
  if negb (bool_decide (rs = [])) && (length rs <=? 1000)%nat then
    PushBatch rs :: (if batch_taken then [] else PushOne <$> rs)
  else PushOne <$> rs.

(** [sync_commit_ledger_from]. *)
Definition sync_commit_ledger_from (addr : string) (book : CatchUpBook) (n : Node) (st : TermState)
    (batch_taken : bool) : CatchUpBook * SyncState * list Push :=
  let held := ledger n ++ archive n in
  let bounds := CatchUpBounds_default in
  let '(res, w) := bounded_sweep (sync_io held) addr bounds book (mkSync n st [] 0) in
  (match res with Some (b, _) => b | None => book end, w,
   push_calls batch_taken (to_push bounds (s_node w) (s_their w))).

(** ** What one step keeps *)

(** Since the node was [n] with term [st]: the ledger grew by well-formed records the peer
    showed, slots are still unique, and the term did not go back. *)
Definition grown (n : Node) (st : TermState) (w : SyncState) : Prop :=
  (exists added, ledger (s_node w) = ledger n ++ added /\
     Forall (fun r => internally_consistent r = true /\ r ∈ s_their w) added) /\
  (unique_slots (ledger n) -> unique_slots (ledger (s_node w))) /\
  t_term st <= t_term (s_term w).

Lemma grown_their n st w w' : grown n st w -> s_node w' = s_node w -> t_term (s_term w) <= t_term (s_term w') ->
  (forall r, r ∈ s_their w -> r ∈ s_their w') -> grown n st w'.
Proof.
  intros ((added & Hl & Hf) & Hu & Ht) Hn Hterm Hsub. unfold grown. rewrite Hn. split_and!; [|done|lia].
  exists added. split; [done|]. eapply Forall_impl; [exact Hf|]. simpl. naive_solver.
Qed.

Lemma accept_keeps held r w : let w' := (sync_accept held r w).2 in
  s_node w' = s_node w /\ s_their w' = s_their w /\ t_term (s_term w) <= t_term (s_term w').
Proof.
  unfold sync_accept. destruct (negb (verify _ _ r)); [done|].
  assert (Hterm : forall lock now, t_term (s_term w) <= t_term (check_term lock (s_term w) now r).2).
  { intros lock now. unfold check_term, check_verdict. cbn [snd]. destruct (N.ltb_spec (t_term (s_term w)) (term r)).
    - destruct lock; simpl; lia.
    - destruct (_ <? _); [apply N.le_refl|]. destruct (_ && _); apply N.le_refl. }
  destruct (coordinator_known_at (s_node w) r); destruct (negb (member_coordinator_known_at _ r));
    cbn [fst snd s_node s_term s_their]; auto using N.le_refl.
Qed.

Lemma gate_page_keeps n st held page w : grown n st w ->
  let '(batch, w') := gate_page (sync_io held) page w in
  grown n st w' /\ batch `sublist_of` page /\ (forall r, r ∈ page \/ r ∈ s_their w -> r ∈ s_their w').
Proof.
  revert w. induction page as [|r page IH]; intros w Hw; cbn [gate_page].
  { split_and!; [done|done|]. intros r [Hr|Hr]; [by apply not_elem_of_nil in Hr|done]. }
  cbn [note_remote accept sync_io]. pose proof (accept_keeps held r (sync_note r w)) as (Hn & Hth & Ht).
  destruct (sync_accept held r (sync_note r w)) as [ok w1]. cbn [snd] in *.
  assert (Hw1 : grown n st w1).
  { eapply grown_their; [exact Hw|done|done|]. rewrite Hth. cbn [s_their sync_note]. set_solver. }
  specialize (IH w1 Hw1). destruct (gate_page (sync_io held) page w1) as [batch w2].
  destruct IH as (Hg & Hsub & Hin). split_and!; [done| |].
  - destruct ok; by constructor.
  - intros x Hx. apply Hin. rewrite Hth. cbn [s_their sync_note]. set_solver.
Qed.

Lemma apply_keeps n st batch w : grown n st w -> Forall (fun r => r ∈ s_their w) batch ->
  grown n st (sync_apply batch w) /\ s_their (sync_apply batch w) = s_their w.
Proof.
  intros ((added & Hl & Hf) & Hu & Ht) Hb. unfold sync_apply, append_many_to.
  destruct (ledger_lock (s_calls w)); cbn [negb].
  - pose proof (append_batch_spec (s_node w) (clock (s_calls w)) (ledger (s_node w)) batch eq_refl) as H.
    destruct (append_batch _ _ _ batch) as [[outs n'] held']. destruct H as (_ & _ & more & Hl' & Hsub & _ & Hic & Hu').
    split; [|done]. unfold grown. cbn [s_node s_term s_their]. split_and!; [|auto|done].
    exists (added ++ more). rewrite Hl', Hl, app_assoc. split; [done|]. apply Forall_app. split; [done|].
    apply Forall_forall. intros r Hr. rewrite Forall_forall in Hic, Hb. split; [by apply Hic|].
    apply Hb. by eapply elem_of_sublist.
  - split; [|done]. split_and!; [by exists added|done|done].
Qed.

Lemma sweep_page_keeps n st held addr bounds s w : grown n st w ->
  grown n st (sweep_page (sync_io held) addr bounds s w).2.
Proof.
  intros Hw. unfold sweep_page. destruct (fetch (sync_io held) _ _ w) as [page w1] eqn:Ef.
  assert (Hw1 : grown n st w1).
  { cbn [fetch sync_io] in Ef. unfold sync_fetch in Ef.
    destruct (answers _ _ _); injection Ef as <- <-; (eapply grown_their; [exact Hw|done|done|done]). }
  destruct page as [|r page]; [done|]. pose proof (gate_page_keeps n st held (r :: page) w1 Hw1) as H.
  destruct (gate_page _ (r :: page) w1) as [batch w2]. destruct H as (Hw2 & Hsub & Hin).
  destruct batch as [|b batch].
  - by destruct (_ || _).
  - assert (Hall : Forall (fun x => x ∈ s_their w2) (b :: batch)).
    { apply Forall_forall. intros x Hx. apply Hin. left. by eapply elem_of_sublist. }
    pose proof (apply_keeps n st (b :: batch) w2 Hw2 Hall) as [Hg _].
    cbn [apply_batch sync_io]. by destruct (_ || _).
Qed.

Lemma bounded_sweep_keeps n st held addr bounds book w : grown n st w ->
  grown n st (bounded_sweep (sync_io held) addr bounds book w).2.
Proof.
  intros Hw. unfold bounded_sweep. generalize (sweep_fuel bounds) (mkProgress book (resume_offset book addr) 0 0).
  intros fuel. revert w Hw. induction fuel as [|fuel IH]; intros w Hw s; [done|]. cbn [sweep_loop].
  pose proof (sweep_page_keeps n st held addr bounds s w Hw) as Hp.
  destruct (sweep_page _ addr bounds s w) as [[s'|r] w']; [by apply IH|done].
Qed.

(** Catching up cannot corrupt a node.  Whatever a peer answers, page by page, and
    whichever locks are taken: the node's ledger only grows, by internally consistent
    records that peer showed; no two sequenced records come to share a slot; and its
    term never goes back. *)
Theorem sync_is_safe addr book n st batch_taken :
  let '(_, w, _) := sync_commit_ledger_from addr book n st batch_taken in
  (exists added, ledger (s_node w) = ledger n ++ added /\
     Forall (fun r => internally_consistent r = true /\ r ∈ s_their w) added) /\
  (unique_slots (ledger n) -> unique_slots (ledger (s_node w))) /\
  t_term st <= t_term (s_term w).
Proof.
  unfold sync_commit_ledger_from.
  pose proof (bounded_sweep_keeps n st (ledger n ++ archive n) addr CatchUpBounds_default book (mkSync n st [] 0)) as H.
  destruct (bounded_sweep _ addr _ book _) as [res w]. apply H. unfold grown. cbn [s_node s_term s_their].
  split_and!; [|done|lia]. exists []. by rewrite app_nil_r.
Qed.

(** ** What is pushed back *)

Definition pushed_records (calls : list Push) : list CommitRecord :=
  mjoin ((fun c => match c with PushBatch rs => rs | PushOne r => [r] end) <$> calls).

Lemma push_calls_records taken rs r : r ∈ pushed_records (push_calls taken rs) <-> r ∈ rs.
Proof.
  assert (Hone : r ∈ pushed_records (PushOne <$> rs) <-> r ∈ rs).
  { unfold pushed_records. rewrite <- list_fmap_compose. rewrite list_elem_of_join. split.
    - intros (l & Hr & Hl). apply list_elem_of_fmap in Hl as (x & -> & Hx). simpl in Hr. set_solver.
    - intros Hr. exists [r]. split; [set_solver|]. apply list_elem_of_fmap. by exists r. }
  unfold push_calls. destruct (_ && _); [|done].
  unfold pushed_records in *. cbn [fmap list_fmap mjoin list_join]. rewrite elem_of_app.
  destruct taken; [|rewrite Hone]; cbn; set_solver.
Qed.

(** Repair is symmetric.  When what the peer lacks fits one sweep, every record of the
    node's ledger and archive is, after the sync, one the peer showed or one that was
    pushed to it, and nothing is pushed that it showed. *)
Theorem sync_repairs_both_ways addr book n st batch_taken :
  let '(_, w, calls) := sync_commit_ledger_from addr book n st batch_taken in
  (length (List.filter (fun r => negb (bool_decide (r ∈ s_their w))) (ledger (s_node w) ++ archive (s_node w))) <= 512)%nat ->
  forall r, r ∈ ledger (s_node w) ++ archive (s_node w) ->
    (r ∈ s_their w <-> r ∉ pushed_records calls).
Proof.
  unfold sync_commit_ledger_from. destruct (bounded_sweep _ addr _ book _) as [res w].
  intros Hlen r Hr. rewrite push_calls_records. unfold to_push. rewrite take_ge by (by rewrite sort_by_key_perm).
  rewrite sort_by_key_perm. set (own := ledger (s_node w) ++ archive (s_node w)) in *.
  assert (Hf : r ∈ List.filter (fun r => negb (bool_decide (r ∈ s_their w))) own <-> r ∉ s_their w).
  { rewrite list_elem_of_In, List.filter_In, <- list_elem_of_In, negb_true_iff, bool_decide_eq_false. naive_solver. }
  rewrite Hf. destruct (decide (r ∈ s_their w)); naive_solver.
Qed.
End Sync.

(** ** Examples *)

Module Pair.
#[local] Existing Instances Toy.crypto Toy.laws Sample.serde.

(** The peer serves the first record of its log; the node has both. *)
Definition serves (rs : list CommitRecord) (_ o l : nat) : option (list CommitRecord) := Some (take l (drop o rs)).
Definition sync (rs : list CommitRecord) (n : Node) : CatchUpBook * SyncState * list Push :=
  sync_commit_ledger_from (serves rs) (fun _ => 100) (fun _ => true) (fun _ => true) "peer" ∅ n TermState_default true.
Definition ahead : Node := Cluster.with_ledger Cluster.n1 [Sample.first; Sample.second].

Lemma sync_repairs_both_ways_witness : Sample.second ∈ pushed_records (sync [Sample.first] ahead).2.
Proof.
  pose proof (sync_repairs_both_ways (serves [Sample.first]) (fun _ => 100) (fun _ => true) (fun _ => true)
    "peer" ∅ ahead TermState_default true) as H.
  change (sync_commit_ledger_from _ _ _ _ _ _ _ _ _) with (sync [Sample.first] ahead) in H.
  destruct (sync [Sample.first] ahead) as [[b w] calls] eqn:E.
  assert (Hw : s_node w = ahead /\ s_their w = [Sample.first]).
  { split.
    - transitivity (s_node (sync [Sample.first] ahead).1.2); [rewrite E; reflexivity|vm_compute; reflexivity].
    - transitivity (s_their (sync [Sample.first] ahead).1.2); [rewrite E; reflexivity|vm_compute; reflexivity]. }
  destruct Hw as [Hn Ht]. rewrite Hn, Ht in H.
  assert (Hlen : (length (List.filter (fun r => negb (bool_decide (r ∈ [Sample.first]))) (ledger ahead ++ archive ahead)) <= 512)%nat).
  { apply Nat.leb_le. vm_compute. reflexivity. }
  specialize (H Hlen Sample.second ltac:(apply list_elem_of_In; right; left; reflexivity)).
  destruct (decide (Sample.second ∈ pushed_records calls)) as [Hd|Hd]; [exact Hd|exfalso].
  apply (proj2 H) in Hd. apply (bool_decide_eq_true (Sample.second ∈ [Sample.first])) in Hd. vm_compute in Hd. discriminate.
Defined.

(** A node with an empty ledger takes the log of a member it knows. *)
Example empty_node_catches_up :
  ledger (s_node (sync [Sample.first; Sample.second] Cluster.n1).1.2) = [Sample.second; Sample.first].
Proof. vm_compute. reflexivity. Qed.
End Pair.
