(* ===== verification/Broker.v ===== *)
(** * Broker: permissions and messages between applications
    ([crates/susi-core/src/broker.rs])

    Every process has a directory of its own under the shared rendezvous root, with the
    grants, requests and inboxes it wrote; reads go through all of them, the reader's own
    first.  [Bus] is that root.  A file holds a value, or bytes that do not parse ([None]).
    A step is one call; the clock, the process making the call and whether a file
    operation succeeds are arguments. *)

From S2P Require Import Prelude Text Money.

Local Open Scope string_scope.
Local Open Scope list_scope.
Local Open Scope N_scope.

Record PermissionScope : Type := mkScope {
  resource : string;
  action : string;
}.

#[export] Instance PermissionScope_eq_dec : EqDecision PermissionScope.
Proof. solve_decision. Defined.

(** [PermissionScope::key]. *)
Definition scope_key (grantee : string) (s : PermissionScope) : string :=
  grantee +:+ ":" +:+ resource s +:+ ":" +:+ action s.

Record PermissionGrant : Type := mkGrant {
  grantee : string;
  grantor : string;
  g_scope : PermissionScope;
  granted_at : N;
  expires_at : option N;
}.

#[export] Instance PermissionGrant_eq_dec : EqDecision PermissionGrant.
Proof. solve_decision. Defined.

Inductive NegotiationStatus : Type := Pending | Granted | Denied.

#[export] Instance NegotiationStatus_eq_dec : EqDecision NegotiationStatus.
Proof. solve_decision. Defined.

Record PermissionRequest : Type := mkRequest {
  r_id : string;
  requester : string;
  r_grantor : string;
  r_scope : PermissionScope;
  ttl_secs : option N;
  created_at : N;
  status : NegotiationStatus;
  resolved_at : option N;
}.

#[export] Instance PermissionRequest_eq_dec : EqDecision PermissionRequest.
Proof. solve_decision. Defined.

(** The payload of a message is passed along as it is. *)
Record IpcMessage : Type := mkMessage {
  from : string;
  to : string;
  topic : string;
  payload : string;
  sent_at : N;
}.

#[export] Instance IpcMessage_eq_dec : EqDecision IpcMessage.
Proof. solve_decision. Defined.

(** What is recorded in the context graph. *)
Inductive Observation : Type :=
| ObsGrant (grantor grantee : string) (s : PermissionScope) (expires : option N)
| ObsDenied (request_id requester grantor : string) (s : PermissionScope).

(** ** The rendezvous root *)

Notation Files A := (gmap string (option A)) (only parsing).

Record Dir : Type := mkDir {
  grants : Files PermissionGrant;
  requests : Files PermissionRequest;
  inboxes : gmap string (Files IpcMessage);
}.
Definition empty_dir : Dir := mkDir ∅ ∅ ∅.

Record Bus : Type := mkBus {
  dirs : gmap string Dir;
  observed : list Observation;
}.

Definition dir_of (b : Bus) (pid : string) : Dir := default empty_dir (dirs b !! pid).
Definition set_dir (b : Bus) (pid : string) (d : Dir) : Bus := mkBus (<[pid := d]> (dirs b)) (observed b).
Definition set_grants (d : Dir) (g : Files PermissionGrant) : Dir := mkDir g (requests d) (inboxes d).
Definition set_requests (d : Dir) (r : Files PermissionRequest) : Dir := mkDir (grants d) r (inboxes d).
Definition set_inbox (d : Dir) (to : string) (f : Files IpcMessage) : Dir :=
  mkDir (grants d) (requests d) (<[to := f]> (inboxes d)).
Definition inbox (d : Dir) (to : string) : Files IpcMessage := default ∅ (inboxes d !! to).

(** The names of a directory listing, sorted. *)
Definition sorted_names (names : gset string) : list string := merge_sort String.le (elements names).

(** [state_dirs]: the process's own directory, then the others by name. *)
Definition state_dirs (me : string) (b : Bus) : list string :=
  me :: sorted_names (dom (dirs b) ∖ {[me]}).

Section Reading.
Context {A : Type}.

(** [read_json]. *)
Definition read_json (f : Files A) (name : string) : option A := default None (f !! name).

(** [scan_dir]: the readable files by name, hidden and temporary ones left out. *)
Definition hidden (name : string) : bool :=
  starts_with "." name || match strip_suffix ".tmp" name with Some _ => true | None => false end.
Definition visible (f : Files A) (name : string) : option (string * A) :=
  if hidden name then None else (fun v => (name, v)) <$> read_json f name.
Definition scan_dir (f : Files A) : list (string * A) := omap (visible f) (sorted_names (dom f)).
End Reading.

(** [iter().find_map]. *)
Fixpoint find_map {A B} (f : A -> option B) (l : list A) : option B :=
  match l with
  | [] => None
  | x :: l' => match f x with Some y => Some y | None => find_map f l' end
  end.

(** ** Operations *)

Definition grant_file (g : string) (s : PermissionScope) : string := enc (scope_key g s).

(** [grant]: a failed write is not reported. *)
Definition grant (me : string) (b : Bus) (now : N) (gor gee : string) (s : PermissionScope)
    (ttl : option N) (written : bool) : PermissionGrant * Bus :=
  let g := mkGrant gee gor s now (wrapping_add now <$> ttl) in
  let d := dir_of b me in
  (g, if written then set_dir b me (set_grants d (<[grant_file gee s := Some g]> (grants d))) else b).

(** [grant_and_record]. *)
Definition observe (b : Bus) (o : Observation) : Bus := mkBus (dirs b) (observed b ++ [o]).
Definition grant_and_record (me : string) (b : Bus) (now : N) (gor gee : string) (s : PermissionScope)
    (ttl : option N) (written : bool) : PermissionGrant * Bus :=
  let '(g, b) := grant me b now gor gee s ttl written in
  (g, observe b (ObsGrant gor gee (g_scope g) (expires_at g))).

(** [request], with the identifier the code draws from the process and the clock. *)
Definition request (me : string) (b : Bus) (now : N) (id rer gor : string) (s : PermissionScope)
    (ttl : option N) (written : bool) : PermissionRequest * Bus :=
  let r := mkRequest id rer (if bool_decide (gor = EmptyString) then "susi" else gor) s ttl now Pending None in
  let d := dir_of b me in
  (r, if written then set_dir b me (set_requests d (<[enc id := Some r]> (requests d))) else b).

(** [load_request]: the owning directory and the request. *)
Definition load_request (me : string) (b : Bus) (id : string) : option (string * PermissionRequest) :=
  find_map (fun pid => (fun r => (pid, r)) <$> read_json (requests (dir_of b pid)) (enc id)) (state_dirs me b).

Definition resolve (r : PermissionRequest) (st : NegotiationStatus) (now : N) : PermissionRequest :=
  mkRequest (r_id r) (requester r) (r_grantor r) (r_scope r) (ttl_secs r) (created_at r) st (Some now).
Definition status_debug (s : NegotiationStatus) : string :=
  match s with Pending => "Pending" | Granted => "Granted" | Denied => "Denied" end.

(** [negotiate]: [grant_written] and [request_written] are the two writes. *)
Definition negotiate (me : string) (b : Bus) (now : N) (id actor : string) (approve : bool)
    (grant_written request_written : bool) : result PermissionRequest string * Bus :=
  match load_request me b id with
  | None => (Err ("unknown permission request: " +:+ id), b)
  | Some (pid, entry) =>
      if negb (bool_decide (status entry = Pending)) then
        (Err ("request " +:+ id +:+ " already resolved as " +:+ status_debug (status entry)), b)
      else if negb (bool_decide (actor = "susi")) && negb (bool_decide (r_grantor entry = actor)) then
        (Err (actor +:+ " cannot negotiate request owned by " +:+ r_grantor entry), b)
      else
        let '(b, st) :=
          if approve then
            ((grant_and_record me b now actor (requester entry) (r_scope entry) (ttl_secs entry) grant_written).2, Granted)
          else (observe b (ObsDenied id (requester entry) actor (r_scope entry)), Denied) in
        let entry := resolve entry st now in
        let d := dir_of b pid in
        if request_written then
          (Ok entry, set_dir b pid (set_requests d (<[enc id := Some entry]> (requests d))))
        else (Err "broker write", b)
  end.

(** [pending_requests]. *)
Definition pending_requests (me : string) (b : Bus) (gor : option string) : list PermissionRequest :=
  List.filter (fun r => bool_decide (status r = Pending)
                        && match gor with Some g => bool_decide (r_grantor r = g) | None => true end)
    (mjoin ((fun pid => (scan_dir (requests (dir_of b pid))).*2) <$> state_dirs me b)).

(** [is_permitted]: the first readable copy decides. *)
Definition unexpired (now : N) (g : PermissionGrant) : bool :=
  match expires_at g with Some e => now <? e | None => true end.
Definition find_grant (me : string) (b : Bus) (gee : string) (s : PermissionScope) : option (string * PermissionGrant) :=
  find_map (fun pid => (fun g => (pid, g)) <$> read_json (grants (dir_of b pid)) (grant_file gee s)) (state_dirs me b).
Definition is_permitted (me : string) (b : Bus) (now : N) (gee : string) (s : PermissionScope) : bool :=
  match find_grant me b gee s with Some (_, g) => unexpired now g | None => false end.

(** [revoke]: the first readable copy is removed; a failed removal is not reported. *)
Definition revoke (me : string) (b : Bus) (gee : string) (s : PermissionScope) (removed : bool)
  : option PermissionGrant * Bus :=
  match find_grant me b gee s with
  | None => (None, b)
  | Some (pid, g) =>
      let d := dir_of b pid in
      (Some g, if removed then set_dir b pid (set_grants d (delete (grant_file gee s) (grants d))) else b)
  end.

(** [grants_for]. *)
Definition grants_for (me : string) (b : Bus) (gee : string) : list PermissionGrant :=
  List.filter (fun g => bool_decide (grantee g = gee))
    (mjoin ((fun pid => (scan_dir (grants (dir_of b pid))).*2) <$> state_dirs me b)).

(** [send].  The file name is the nanosecond clock on twenty digits and the process. *)
Definition dispatch_scope (to : string) : PermissionScope := mkScope ("app://" +:+ to) "dispatch".
Definition pad20 (n : N) : string :=
  let t := dec n in String.concat "" (repeat "0" (20 - String.length t)) +:+ t.
Definition message_name (nanos : N) (me : string) : string := pad20 nanos +:+ "-" +:+ me.
Definition send (me : string) (b : Bus) (now nanos : N) (from to topic payload : string) (written : bool)
  : result IpcMessage string * Bus :=
  if negb (bool_decide (from = "susi")) && negb (is_permitted me b now from (dispatch_scope to)) then
    (Err (from +:+ " lacks dispatch permission for " +:+ to +:+ "; request it first"), b)
  else
    let m := mkMessage from to topic payload now in
    let d := dir_of b me in
    if written then
      (Ok m, set_dir b me (set_inbox d (enc to) (<[message_name nanos me := Some m]> (inbox d (enc to)))))
    else (Err "broker write", b).

(** [receive]: [removed] says which removals succeed. *)
Fixpoint take_messages (limit : nat) (pid to : string) (removed : string -> bool)
    (ms : list (string * IpcMessage)) (b : Bus) (out : list IpcMessage) : list IpcMessage * Bus :=
  match ms with
  | [] => (out, b)
  | (name, m) :: ms' =>
      if (limit <=? length out)%nat then (out, b)
      else
        let d := dir_of b pid in
        take_messages limit pid to removed ms'
          (if removed name then set_dir b pid (set_inbox d to (delete name (inbox d to))) else b)
          (out ++ [m])
  end.
Fixpoint receive_from (limit : nat) (pids : list string) (to : string) (removed : string -> bool)
    (b : Bus) (out : list IpcMessage) : list IpcMessage * Bus :=
  match pids with
  | [] => (out, b)
  | pid :: pids' =>
      let '(out, b) := take_messages limit pid to removed (scan_dir (inbox (dir_of b pid) to)) b out in
      receive_from limit pids' to removed b out
  end.
Definition receive (me : string) (b : Bus) (recipient : string) (limit : nat) (removed : string -> bool)
  : list IpcMessage * Bus :=
  receive_from limit (state_dirs me b) (enc recipient) removed b [].

(** ** Listings *)

Lemma sorted_names_sorted X : StronglySorted String.le (sorted_names X).
Proof. apply (StronglySorted_merge_sort _). Qed.

Lemma sorted_names_elem X x : x ∈ sorted_names X <-> x ∈ X.
Proof. unfold sorted_names. by rewrite merge_sort_Permutation, elem_of_elements. Qed.

Lemma sorted_names_NoDup X : NoDup (sorted_names X).
Proof. unfold sorted_names. rewrite merge_sort_Permutation. apply NoDup_elements. Qed.

Lemma StronglySorted_filter {A} (R : A -> A -> Prop) (f : A -> bool) l :
  StronglySorted R l -> StronglySorted R (List.filter f l).
Proof.
  induction 1 as [|x l Hs IH Hall]; [constructor|]. cbn [List.filter]. destruct (f x); [|done].
  constructor; [done|]. apply Forall_forall. intros y Hy. apply list_elem_of_In, List.filter_In in Hy as [Hy _].
  rewrite Forall_forall in Hall. by apply Hall, list_elem_of_In.
Qed.

Lemma NoDup_List_filter {A} (f : A -> bool) l : NoDup l -> NoDup (List.filter f l).
Proof. rewrite !NoDup_ListNoDup. apply List.NoDup_filter. Qed.

(** Removing a name removes it from the listing and leaves the order. *)
Lemma sorted_names_without X k :
  sorted_names (X ∖ {[k]}) = List.filter (fun n => negb (bool_decide (n = k))) (sorted_names X).
Proof.
  apply (StronglySorted_unique String.le); [apply sorted_names_sorted|apply StronglySorted_filter, sorted_names_sorted|].
  apply NoDup_Permutation; [apply sorted_names_NoDup|apply NoDup_List_filter, sorted_names_NoDup|].
  intros x. rewrite sorted_names_elem, (list_elem_of_In (List.filter _ _) x), List.filter_In, <- list_elem_of_In, sorted_names_elem.
  rewrite negb_true_iff, bool_decide_eq_false. set_solver.
Qed.

Section Scanning.
Context {A : Type}.
Implicit Types (f : Files A).

Lemma scan_dir_names f : exists names, (scan_dir f).*1 = names /\ NoDup names.
Proof.
  eexists. split; [done|]. unfold scan_dir. pose proof (sorted_names_NoDup (dom f)) as Hnd. revert Hnd.
  generalize (sorted_names (dom f)). intros l. induction l as [|n l IH]; intros Hnd; [constructor|].
  inversion Hnd as [|? ? Hn Hrest]; subst. cbn [omap list_omap].
  assert (Hsub : forall x, x ∈ (omap (visible f) l).*1 -> x ∈ l).
  { intros x Hx. apply list_elem_of_fmap in Hx as ([y v] & -> & Hy). apply list_elem_of_omap in Hy as (z & Hz & Hv).
    unfold visible in Hv. destruct (hidden z); [done|]. apply fmap_Some in Hv as (w & _ & [= -> ->]). done. }
  destruct (visible f n) as [[m v]|] eqn:E; [|by apply IH]. cbn [fmap list_fmap fst].
  constructor; [|by apply IH]. unfold visible in E. destruct (hidden n); [done|].
  apply fmap_Some in E as (w & _ & [= -> ->]). naive_solver.
Qed.

Lemma scan_dir_elem f name v : (name, v) ∈ scan_dir f <-> hidden name = false /\ f !! name = Some (Some v).
Proof.
  unfold scan_dir. rewrite list_elem_of_omap. split.
  - intros (n & _ & Hv). unfold visible, read_json in Hv. destruct (hidden n) eqn:Hh; [done|].
    apply fmap_Some in Hv as (w & Hw & [= -> ->]). destruct (f !! n) as [o|]; [|done]. simpl in Hw. by subst.
  - intros [Hh Hf]. exists name. split; [by apply sorted_names_elem, elem_of_dom_2 with (Some v)|].
    unfold visible, read_json. by rewrite Hh, Hf.
Qed.

(** Deleting the first file of a scan leaves the rest of it. *)
Lemma scan_dir_delete f name v rest : scan_dir f = (name, v) :: rest -> scan_dir (delete name f) = rest.
Proof.
  intros H. destruct (scan_dir_names f) as (names & Hn & Hnd). rewrite H in Hn. cbn [fmap list_fmap fst] in Hn.
  subst names. inversion Hnd as [|? ? Hnotin _]; subst.
  assert (Hdel : scan_dir (delete name f) = List.filter (fun e : string * A => negb (bool_decide (e.1 = name))) (scan_dir f)).
  { unfold scan_dir. rewrite dom_delete_L, sorted_names_without. generalize (sorted_names (dom f)). intros l. clear.
    induction l as [|n l IH]; [done|]. cbn [List.filter omap list_omap].
    case_bool_decide as Hne; cbn [negb].
    - subst. rewrite IH. unfold visible. destruct (hidden name); [done|].
      destruct (read_json f name); cbn [fmap option_fmap option_map]; [|done]. cbn [List.filter fst].
      by rewrite bool_decide_true.
    - cbn [omap list_omap]. rewrite IH.
      assert (Hv : visible (delete name f) n = visible f n).
      { unfold visible, read_json. by rewrite lookup_delete_ne by done. }
      rewrite Hv. destruct (visible f n) as [[m w]|] eqn:E; [|done].
      unfold visible in E. destruct (hidden n); [done|]. apply fmap_Some in E as (? & _ & [= -> ->]).
      cbn [List.filter fst]. by rewrite bool_decide_false. }
  rewrite Hdel, H. cbn [List.filter fst]. rewrite bool_decide_true by done. cbn [negb].
  apply filter_all. intros [n w] Hin. apply negb_true_iff, bool_decide_eq_false. cbn [fst]. intros ->.
  apply Hnotin. apply list_elem_of_fmap. exists (name, w). split; [done|]. by apply list_elem_of_In.
Qed.
End Scanning.

(** ** Directories *)

Lemma dir_of_set b pid d pid' : dir_of (set_dir b pid d) pid' = if decide (pid' = pid) then d else dir_of b pid'.
Proof.
  unfold dir_of, set_dir. cbn [dirs]. destruct (decide (pid' = pid)) as [->|Hne].
  - by rewrite lookup_insert_eq.
  - by rewrite lookup_insert_ne.
Qed.

Lemma state_dirs_set me b pid d : pid ∈ state_dirs me b -> state_dirs me (set_dir b pid d) = state_dirs me b.
Proof.
  unfold state_dirs, set_dir. cbn [dirs]. intros H. do 2 f_equal. rewrite dom_insert_L.
  apply elem_of_cons in H as [->|H]; [set_solver|]. apply sorted_names_elem in H. set_solver.
Qed.

Lemma state_dirs_NoDup me b : NoDup (state_dirs me b).
Proof. constructor; [|apply sorted_names_NoDup]. rewrite sorted_names_elem. set_solver. Qed.

Lemma state_dirs_elem me b pid : pid ∈ state_dirs me b <-> pid = me \/ pid ∈ dom (dirs b).
Proof.
  unfold state_dirs. rewrite elem_of_cons, sorted_names_elem.
  destruct (decide (pid = me)); set_solver.
Qed.

Definition same_tables (d d' : Dir) : Prop := grants d' = grants d /\ requests d' = requests d.

(** [b'] is [b] but for the inbox of one recipient in one directory. *)
Definition inbox_only (to pid : string) (b b' : Bus) : Prop :=
  (forall me, pid ∈ state_dirs me b -> state_dirs me b' = state_dirs me b) /\
  (forall pid', pid' <> pid -> dir_of b' pid' = dir_of b pid') /\
  same_tables (dir_of b pid) (dir_of b' pid) /\
  (forall to', to' <> to -> inbox (dir_of b' pid) to' = inbox (dir_of b pid) to').

Lemma inbox_set d to f to' : inbox (set_inbox d to f) to' = if decide (to' = to) then f else inbox d to'.
Proof.
  unfold inbox, set_inbox. cbn [inboxes]. destruct (decide (to' = to)) as [->|Hne].
  - by rewrite lookup_insert_eq.
  - by rewrite lookup_insert_ne.
Qed.

Lemma inbox_only_refl to pid b : inbox_only to pid b b.
Proof. by split_and!. Qed.

Lemma inbox_only_trans to pid a b c : inbox_only to pid a b -> inbox_only to pid b c -> inbox_only to pid a c.
Proof.
  intros (H1 & H2 & [H3 H3'] & H4) (K1 & K2 & [K3 K3'] & K4). split_and!.
  - intros me Hin. rewrite K1, H1; [done..|]. by rewrite H1.
  - intros p Hp. by rewrite K2, H2.
  - split; congruence.
  - intros t Ht. by rewrite K4, H4.
Qed.

Lemma inbox_only_set to pid b f : inbox_only to pid b (set_dir b pid (set_inbox (dir_of b pid) to f)).
Proof.
  split_and!.
  - intros me Hin. by apply state_dirs_set.
  - intros p Hp. by rewrite dir_of_set, decide_False.
  - by rewrite dir_of_set, decide_True.
  - intros t Ht. by rewrite dir_of_set, decide_True, inbox_set, decide_False.
Qed.

(** ** Receiving *)

Definition all_removed : string -> bool := fun _ => true.

Lemma take_messages_exact limit pid to ms b out : scan_dir (inbox (dir_of b pid) to) = ms ->
  let '(out', b') := take_messages limit pid to all_removed ms b out in
  out' = out ++ take (limit - length out) ms.*2 /\
  scan_dir (inbox (dir_of b' pid) to) = drop (limit - length out) ms /\ inbox_only to pid b b'.
Proof.
  revert b out. induction ms as [|[name m] ms IH]; intros b out Hscan; cbn [take_messages].
  - cbn [fmap list_fmap]. rewrite take_nil, drop_nil, app_nil_r. auto using inbox_only_refl.
  - destruct (Nat.leb_spec limit (length out)) as [Hle|Hlt].
    + replace (limit - length out)%nat with 0%nat by lia. cbn [take drop]. rewrite app_nil_r. auto using inbox_only_refl.
    + cbn [all_removed]. set (b1 := set_dir b pid _).
      assert (Hb1 : scan_dir (inbox (dir_of b1 pid) to) = ms).
      { unfold b1. rewrite dir_of_set, decide_True, inbox_set, decide_True by done. by eapply scan_dir_delete. }
      specialize (IH b1 (out ++ [m]) Hb1).
      destruct (take_messages limit pid to all_removed ms b1 (out ++ [m])) as [out' b'].
      destruct IH as (-> & Hs & Hio). rewrite length_app in *. cbn [length] in *.
      replace (limit - length out)%nat with (S (limit - (length out + 1))) by lia. cbn [fmap list_fmap take drop snd].
      rewrite <- app_assoc. split_and!; [done|done|]. eapply inbox_only_trans; [apply inbox_only_set|exact Hio].
Qed.

(** The messages of a recipient that are waiting, in the order a process reads them. *)
Definition waiting_in (b : Bus) (to : string) (pids : list string) : list IpcMessage :=
  mjoin ((fun pid => (scan_dir (inbox (dir_of b pid) to)).*2) <$> pids).
Definition waiting_for (me : string) (b : Bus) (recipient : string) : list IpcMessage :=
  waiting_in b (enc recipient) (state_dirs me b).

Lemma waiting_in_ext b b' to pids : (forall pid, pid ∈ pids -> inbox (dir_of b' pid) to = inbox (dir_of b pid) to) ->
  waiting_in b' to pids = waiting_in b to pids.
Proof.
  intros H. unfold waiting_in. f_equal. apply list_fmap_ext. intros i pid Hp. rewrite H; [done|].
  by apply list_elem_of_lookup_2 with i.
Qed.

Lemma receive_from_exact limit pids to b out : NoDup pids ->
  let '(out', b') := receive_from limit pids to all_removed b out in
  out' = out ++ take (limit - length out) (waiting_in b to pids) /\
  waiting_in b' to pids = drop (limit - length out) (waiting_in b to pids) /\
  (forall pid, pid ∉ pids -> dir_of b' pid = dir_of b pid) /\
  (forall pid to', to' <> to -> inbox (dir_of b' pid) to' = inbox (dir_of b pid) to') /\
  (forall pid, same_tables (dir_of b pid) (dir_of b' pid)) /\
  (forall me, (forall pid, pid ∈ pids -> pid ∈ state_dirs me b) -> state_dirs me b' = state_dirs me b).
Proof.
  revert b out. induction pids as [|pid pids IH]; intros b out Hnd; cbn [receive_from].
  - cbv iota. assert (Hnil : forall b, waiting_in b to [] = []) by done. rewrite !Hnil, take_nil, drop_nil, app_nil_r. done.
  - inversion Hnd as [|? ? Hn Hnd']; subst.
    pose proof (take_messages_exact limit pid to _ b out eq_refl) as H1.
    destruct (take_messages _ pid to _ _ b out) as [out1 b1]. destruct H1 as (-> & Hscan & Hsd & Hother & Htab & Hinb).
    set (ms := scan_dir (inbox (dir_of b pid) to)) in *.
    specialize (IH b1 (out ++ take (limit - length out) ms.*2) Hnd').
    destruct (receive_from limit pids to all_removed b1 _) as [out2 b2]. destruct IH as (-> & Hw & Hout & Hto & Htabs & Hdirs).
    assert (Hw1 : waiting_in b1 to pids = waiting_in b to pids).
    { apply waiting_in_ext. intros p Hp. rewrite Hother; [done|]. by intros ->. }
    rewrite Hw1 in *. change (waiting_in b to (pid :: pids)) with (ms.*2 ++ waiting_in b to pids).
    change (waiting_in b2 to (pid :: pids)) with ((scan_dir (inbox (dir_of b2 pid) to)).*2 ++ waiting_in b2 to pids).
    rewrite Hw, (Hout pid Hn), Hscan, fmap_drop, length_app, length_take, length_fmap.
    set (k := (limit - length out)%nat). replace (limit - (length out + k `min` length ms))%nat with (k - length ms)%nat by lia.
    rewrite <- app_assoc, take_app, drop_app, length_fmap. split_and!; [done|done| | | |].
    + intros p Hp. rewrite not_elem_of_cons in Hp. rewrite Hout, Hother; naive_solver.
    + intros p t Ht. rewrite Hto by done. destruct (decide (p = pid)) as [->|Hp]; [by apply Hinb|by rewrite Hother].
    + intros p. destruct (Htabs p) as [T1 T2]. destruct (decide (p = pid)) as [->|Hp].
      * destruct Htab. split; congruence.
      * rewrite Hother in T1, T2 by done. done.
    + intros me Hin. rewrite Hdirs; [apply Hsd, Hin; left|]. intros p Hp. rewrite Hsd by (apply Hin; left). apply Hin. by right.
Qed.

(** Messages are delivered exactly once.  A receive returns the first messages waiting
    for the recipient in any process's directory, up to the limit, in the order they are
    scanned; exactly the others are left waiting, and no other recipient's messages, no
    grant and no request is touched. *)
Theorem receive_exactly_once me b recipient limit :
  let '(out, b') := receive me b recipient limit all_removed in
  out = take limit (waiting_for me b recipient) /\
  waiting_for me b' recipient = drop limit (waiting_for me b recipient) /\
  (forall other, other <> recipient -> waiting_for me b' other = waiting_for me b other) /\
  (forall pid, same_tables (dir_of b pid) (dir_of b' pid)).
Proof.
  unfold receive, waiting_for. pose proof (receive_from_exact limit _ (enc recipient) b [] (state_dirs_NoDup me b)) as H.
  destruct (receive_from _ _ _ _ b []) as [out b']. destruct H as (-> & Hw & _ & Hto & Htab & Hdirs).
  cbn [length] in *. rewrite Nat.sub_0_r in *. rewrite (Hdirs me) by done. split_and!; [done|done| |done].
  intros other Hne. apply waiting_in_ext. intros pid _. apply Hto. intros He. by apply Hne, enc_inj.
Qed.

(** ** Looking up through the directories *)

Lemma find_map_Some {A B} (f : A -> option B) l y : find_map f l = Some y -> exists x, x ∈ l /\ f x = Some y.
Proof.
  induction l as [|x l IH]; [done|]. cbn [find_map]. destruct (f x) eqn:E.
  - intros [= ->]. exists x. split; [left|done].
  - intros H. apply IH in H as (z & Hz & Hf). exists z. split; [by right|done].
Qed.

(** A new value at the directory where the first hit was is the first hit again. *)
Lemma find_map_update {V} (f f' : string -> option V) l pid v v' :
  find_map (fun p => pair p <$> f p) l = Some (pid, v) ->
  (forall p, p <> pid -> f' p = f p) -> f' pid = Some v' ->
  find_map (fun p => pair p <$> f' p) l = Some (pid, v').
Proof.
  intros H Hoff Hat. induction l as [|p l IH]; [done|]. cbn [find_map] in *.
  destruct (decide (p = pid)) as [->|Hp]; [by rewrite Hat|]. rewrite Hoff by done.
  destruct (f p); cbn [fmap option_fmap option_map] in *; [congruence|by apply IH].
Qed.

Lemma read_json_insert {A} (f : Files A) name v : read_json (<[name := Some v]> f) name = Some v.
Proof. unfold read_json. by rewrite lookup_insert_eq. Qed.

Lemma state_dirs_set_me me b d : state_dirs me (set_dir b me d) = state_dirs me b.
Proof. apply state_dirs_set. left. Qed.

(** What a process has just granted is what it then reads. *)
Lemma granted_is_permitted me b now now' gor gee s ttl g b' :
  grant me b now gor gee s ttl true = (g, b') -> from_option (fun t => now + t <= u64_max) True ttl ->
  is_permitted me b' now' gee s = match ttl with Some t => now' <? now + t | None => true end.
Proof.
  intros [= <- <-] Hov. unfold is_permitted, find_grant. rewrite state_dirs_set_me.
  unfold state_dirs. cbn [find_map]. rewrite dir_of_set, decide_True by done. cbn [grants set_grants].
  rewrite read_json_insert. cbn. unfold unexpired. cbn [expires_at]. destruct ttl as [t|]; [|done].
  simpl in *. by rewrite wrapping_add_exact.
Qed.

(** What a resolution writes. *)
Lemma negotiate_cases me b now id actor approve gw rw res b' : negotiate me b now id actor approve gw rw = (res, b') ->
  (exists e, res = Err e /\ b' = b) \/
  exists pid entry b1 st, load_request me b id = Some (pid, entry) /\ status entry = Pending /\
    (actor = "susi" \/ actor = r_grantor entry) /\
    (if approve then st = Granted /\ b1 = (grant_and_record me b now actor (requester entry) (r_scope entry) (ttl_secs entry) gw).2
     else st = Denied /\ b1 = observe b (ObsDenied id (requester entry) actor (r_scope entry))) /\
    (if rw then res = Ok (resolve entry st now) /\
       b' = set_dir b1 pid (set_requests (dir_of b1 pid) (<[enc id := Some (resolve entry st now)]> (requests (dir_of b1 pid))))
     else (exists e, res = Err e) /\ b' = b1).
Proof.
  unfold negotiate. destruct (load_request me b id) as [[pid entry]|] eqn:El; [|intros [= <- <-]; left; by eexists].
  case_bool_decide as Hp; cbn [negb]; [|intros [= <- <-]; left; by eexists].
  destruct (negb _ && negb _) eqn:Ea; [intros [= <- <-]; left; by eexists|].
  assert (Hactor : actor = "susi" \/ actor = r_grantor entry).
  { apply andb_false_iff in Ea as [Ea|Ea]; apply negb_false_iff, bool_decide_eq_true in Ea; auto. }
  intros H. right. exists pid, entry.
  destruct approve, rw; injection H as <- <-; eexists _, _; split_and!; try done; by eexists.
Qed.

(** The bus after a grant, as the readers see it. *)
Lemma grant_dirs me b now gor gee s ttl w pid :
  let b' := (grant_and_record me b now gor gee s ttl w).2 in
  requests (dir_of b' pid) = requests (dir_of b pid) /\
  state_dirs me b' = state_dirs me b /\
  grants (dir_of b' pid) =
    if decide (pid = me /\ w = true)
    then <[grant_file gee s := Some (mkGrant gee gor s now (wrapping_add now <$> ttl))]> (grants (dir_of b me))
    else grants (dir_of b pid).
Proof.
  unfold grant_and_record, grant. cbn [snd]. destruct w.
  - change (dir_of (observe ?b ?o) pid) with (dir_of b pid). rewrite dir_of_set.
    destruct (decide (pid = me)) as [->|Hne].
    + rewrite decide_True by done. split_and!; [done| |done]. apply state_dirs_set_me.
    + rewrite decide_False by (by intros [? _]). split_and!; [done| |done]. apply state_dirs_set_me.
  - rewrite decide_False by (by intros [_ ?]). done.
Qed.

(** A request is resolved at most once, and only by the identity it was addressed to
    or by the host.  When a resolution succeeds, the stored request carries it, any later
    negotiation of it through that process is refused and changes nothing, an approval
    permits the requester the scope for as long as was asked, and a denial grants
    nothing. *)
Theorem negotiate_resolves_once me b now id actor approve r b' :
  negotiate me b now id actor approve true true = (Ok r, b') ->
  exists pid entry, load_request me b id = Some (pid, entry) /\ status entry = Pending /\
    (actor = "susi" \/ actor = r_grantor entry) /\
    r = resolve entry (if approve then Granted else Denied) now /\ load_request me b' id = Some (pid, r) /\
    (forall now' actor' approve' gw rw, exists e, negotiate me b' now' id actor' approve' gw rw = (Err e, b')) /\
    (approve = true -> from_option (fun t => now + t <= u64_max) True (ttl_secs entry) ->
     forall now', is_permitted me b' now' (requester entry) (r_scope entry) =
       match ttl_secs entry with Some t => now' <? now + t | None => true end) /\
    (approve = false -> forall p, grants (dir_of b' p) = grants (dir_of b p)).
Proof.
  intros H. apply negotiate_cases in H as [(e & ? & _)|(pid & entry & b1 & st & Hl & Hp & Ha & Hb1 & [= ->] & ->)]; [done|].
  set (entry' := resolve entry st now). set (b2 := set_dir b1 pid _). exists pid, entry.
  assert (Hst : st = if approve then Granted else Denied) by (by destruct approve, Hb1).
  assert (Hreq : forall p, requests (dir_of b1 p) = requests (dir_of b p) /\ state_dirs me b1 = state_dirs me b).
  { intros p. destruct approve; destruct Hb1 as [_ ->]; [|done].
    by destruct (grant_dirs me b now actor (requester entry) (r_scope entry) (ttl_secs entry) true p) as (? & ? & _). }
  assert (Hpid : pid ∈ state_dirs me b1).
  { rewrite (proj2 (Hreq pid)). unfold load_request in Hl. apply find_map_Some in Hl as (x & Hx & Hf).
    apply fmap_Some in Hf as (? & _ & [= -> _]). done. }
  assert (Hload : load_request me b2 id = Some (pid, entry')).
  { unfold load_request, b2. rewrite state_dirs_set, (proj2 (Hreq pid)) by done. unfold load_request in Hl.
    eapply find_map_update; [exact Hl| |].
    - intros p Hne. by rewrite dir_of_set, decide_False, (proj1 (Hreq p)).
    - rewrite dir_of_set, decide_True by done. apply read_json_insert. }
  rewrite <- Hst. split_and!; try done.
  - intros now' actor' approve' gw rw. unfold negotiate. rewrite Hload.
    rewrite (bool_decide_false (status entry' = Pending)) by (subst st; by destruct approve). by eexists.
  - intros -> Hov now'. destruct Hb1 as [_ Hb1].
    transitivity (is_permitted me b1 now' (requester entry) (r_scope entry)).
    + unfold is_permitted, find_grant, b2. rewrite state_dirs_set by done. unfold state_dirs. cbn [find_map].
      assert (Hg : forall p, grants (dir_of (set_dir b1 pid (set_requests (dir_of b1 pid) (<[enc id := Some entry']> (requests (dir_of b1 pid))))) p)
                             = grants (dir_of b1 p)).
      { intros p. rewrite dir_of_set. by destruct (decide (p = pid)) as [->|]. }
      rewrite Hg. subst b1. rewrite (proj2 (proj2 (grant_dirs me b now actor _ _ _ true me))), decide_True by done.
      by rewrite read_json_insert.
    + subst b1. exact (granted_is_permitted me b now now' actor _ _ _ _ _ eq_refl Hov).
  - intros -> p. destruct Hb1 as [_ ->]. unfold b2. rewrite dir_of_set. by destruct (decide (p = pid)) as [->|].
Qed.

(** ** Where grants come from *)

Inductive Op : Type :=
| OpGrant (me : string) (now : N) (gor gee : string) (s : PermissionScope) (ttl : option N) (w : bool)
| OpRequest (me : string) (now : N) (id rer gor : string) (s : PermissionScope) (ttl : option N) (w : bool)
| OpNegotiate (me : string) (now : N) (id actor : string) (approve gw rw : bool)
| OpRevoke (me gee : string) (s : PermissionScope) (removed : bool)
| OpSend (me : string) (now nanos : N) (from to topic payload : string) (w : bool)
| OpReceive (me recipient : string) (limit : nat) (removed : string -> bool).

Definition step (b : Bus) (o : Op) : Bus :=
  match o with
  | OpGrant me now gor gee s ttl w => (grant_and_record me b now gor gee s ttl w).2
  | OpRequest me now id rer gor s ttl w => (request me b now id rer gor s ttl w).2
  | OpNegotiate me now id actor approve gw rw => (negotiate me b now id actor approve gw rw).2
  | OpRevoke me gee s removed => (revoke me b gee s removed).2
  | OpSend me now nanos from to topic payload w => (send me b now nanos from to topic payload w).2
  | OpReceive me recipient limit removed => (receive me b recipient limit removed).2
  end.
Definition empty_bus : Bus := mkBus ∅ [].
Definition run (ops : list Op) : Bus := fold_left step ops empty_bus.

(** A request of the history. *)
Definition asked (ops : list Op) (r : PermissionRequest) : Prop :=
  exists me now gor, In (OpRequest me now (r_id r) (requester r) gor (r_scope r) (ttl_secs r) true) ops /\
    r_grantor r = if bool_decide (gor = EmptyString) then "susi" else gor.

(** A grant of the history: made directly, or by approving a request of the grantee. *)
Definition consented (ops : list Op) (g : PermissionGrant) : Prop :=
  (exists me ttl, In (OpGrant me (granted_at g) (grantor g) (grantee g) (g_scope g) ttl true) ops) \/
  exists me r gw rw, asked ops r /\ requester r = grantee g /\ r_scope r = g_scope g /\
    In (OpNegotiate me (granted_at g) (r_id r) (grantor g) true gw rw) ops /\
    (grantor g = "susi" \/ grantor g = r_grantor r).

Definition filed (ops : list Op) (d : Dir) : Prop :=
  (forall name g, grants d !! name = Some (Some g) -> name = grant_file (grantee g) (g_scope g) /\ consented ops g) /\
  (forall name r, requests d !! name = Some (Some r) -> name = enc (r_id r) /\ asked ops r).
Definition filed_bus (ops : list Op) (b : Bus) : Prop := forall pid, filed ops (dir_of b pid).

Lemma asked_mono ops o r : asked ops r -> asked (ops ++ [o]) r.
Proof. intros (me & now & gor & Hin & Hg). exists me, now, gor. split; [|done]. apply in_or_app. by left. Qed.

Lemma consented_mono ops o g : consented ops g -> consented (ops ++ [o]) g.
Proof.
  intros [(me & ttl & Hin)|(me & r & gw & rw & Ha & H1 & H2 & Hin & H3)].
  - left. exists me, ttl. apply in_or_app. by left.
  - right. exists me, r, gw, rw. split_and!; try done; [by apply asked_mono|apply in_or_app; by left].
Qed.

Lemma filed_mono ops o d : filed ops d -> filed (ops ++ [o]) d.
Proof.
  intros [Hg Hr]. split.
  - intros name g H. apply Hg in H as [H1 H2]. auto using consented_mono.
  - intros name r H. apply Hr in H as [H1 H2]. auto using asked_mono.
Qed.

Lemma filed_set ops b pid d : filed_bus ops b -> filed ops d -> filed_bus ops (set_dir b pid d).
Proof. intros Hb Hd p. rewrite dir_of_set. destruct (decide (p = pid)); auto. Qed.

Lemma filed_insert_grant ops d g : filed ops d -> consented ops g ->
  filed ops (set_grants d (<[grant_file (grantee g) (g_scope g) := Some g]> (grants d))).
Proof.
  intros [Hg Hr] Hc. split; [|done]. intros name g'. cbn [grants set_grants].
  rewrite lookup_insert_Some. intros [[<- [= <-]]|[_ H]]; [done|by apply Hg].
Qed.

Lemma filed_insert_request ops d r : filed ops d -> asked ops r ->
  filed ops (set_requests d (<[enc (r_id r) := Some r]> (requests d))).
Proof.
  intros [Hg Hr] Ha. split; [done|]. intros name r'. cbn [requests set_requests].
  rewrite lookup_insert_Some. intros [[<- [= <-]]|[_ H]]; [done|by apply Hr].
Qed.

Lemma filed_same_tables ops d d' : same_tables d d' -> filed ops d -> filed ops d'.
Proof. intros [H1 H2] [Hg Hr]. unfold filed. by rewrite H1, H2. Qed.

Lemma grant_filed ops me b now gor gee s ttl w : filed_bus ops b ->
  consented ops (mkGrant gee gor s now (wrapping_add now <$> ttl)) \/ w = false ->
  filed_bus ops (grant_and_record me b now gor gee s ttl w).2.
Proof.
  intros Hb Hc pid. pose proof (grant_dirs me b now gor gee s ttl w pid) as (Hr & _ & Hg).
  destruct (decide (pid = me /\ w = true)) as [[-> ->]|Hne].
  - destruct Hc as [Hc|?]; [|done].
    pose proof (filed_insert_grant ops (dir_of b me) _ (Hb me) Hc) as [F1 F2]. split.
    + intros name g. rewrite Hg. apply F1.
    + intros name r. rewrite Hr. apply F2.
  - destruct (Hb pid) as [F1 F2]. split; [intros name g; rewrite Hg; apply F1|intros name r; rewrite Hr; apply F2].
Qed.

Lemma load_request_filed ops me b id pid r : filed_bus ops b -> load_request me b id = Some (pid, r) ->
  requests (dir_of b pid) !! enc id = Some (Some r) /\ r_id r = id /\ asked ops r.
Proof.
  intros Hb H. unfold load_request in H. apply find_map_Some in H as (p & _ & Hp).
  apply fmap_Some in Hp as (r' & Hr & [= -> ->]). unfold read_json in Hr.
  destruct (requests (dir_of b p) !! enc id) as [o|] eqn:E; [|done]. simpl in Hr. subst o.
  split; [done|]. destruct (proj2 (Hb p) _ _ E) as [Hn Ha]. apply enc_inj in Hn. done.
Qed.

Lemma take_messages_tables limit pid to removed ms b out p :
  same_tables (dir_of b p) (dir_of (take_messages limit pid to removed ms b out).2 p).
Proof.
  revert b out. induction ms as [|[name m] ms IH]; intros b out; [done|]. cbn [take_messages].
  destruct (_ <=? _)%nat; [done|]. destruct (removed name); [|apply IH].
  destruct (IH (set_dir b pid (set_inbox (dir_of b pid) to (delete name (inbox (dir_of b pid) to)))) (out ++ [m])) as [H1 H2].
  rewrite dir_of_set in H1, H2. unfold same_tables. destruct (decide (p = pid)) as [->|]; done.
Qed.

Lemma receive_from_tables limit pids to removed b out p :
  same_tables (dir_of b p) (dir_of (receive_from limit pids to removed b out).2 p).
Proof.
  revert b out. induction pids as [|pid pids IH]; intros b out; [done|]. cbn [receive_from].
  pose proof (take_messages_tables limit pid to removed (scan_dir (inbox (dir_of b pid) to)) b out p) as [H1 H2].
  destruct (take_messages _ _ _ _ _ b out) as [out1 b1]. cbn [snd] in *. destruct (IH b1 out1) as [H3 H4]. split; congruence.
Qed.

Lemma step_filed ops b o : filed_bus ops b -> filed_bus (ops ++ [o]) (step b o).
Proof.
  intros Hb0. assert (Hb : filed_bus (ops ++ [o]) b) by (intros pid; by apply filed_mono).
  assert (Ho : In o (ops ++ [o])) by (apply in_or_app; right; by left).
  destruct o as [me now gor gee s ttl w|me now id rer gor s ttl w|me now id actor approve gw rw|me gee s removed
                |me now nanos from to topic payload w|me recipient limit removed]; cbn [step].
  - apply grant_filed; [done|]. destruct w; [left|by right]. left. by exists me, ttl.
  - unfold request. cbn [snd]. destruct w; [|done]. apply filed_set; [done|].
    set (r := mkRequest id rer _ s ttl now Pending None). apply (filed_insert_request _ _ r); [apply Hb|].
    exists me, now, gor. split; [exact Ho|reflexivity].
  - destruct (negotiate me b now id actor approve gw rw) as [res b'] eqn:E. cbn [snd].
    apply negotiate_cases in E as [(e & _ & ->)|(pid & entry & b1 & st & Hl & _ & Ha & Hb1 & Hw)]; [done|].
    destruct (load_request_filed _ _ _ _ _ _ Hb Hl) as (_ & Hid & Hask).
    assert (Hf1 : filed_bus (ops ++ [OpNegotiate me now id actor approve gw rw]) b1).
    { destruct approve; destruct Hb1 as [_ ->]; [|exact Hb]. apply grant_filed; [done|]. left. right.
      exists me, entry, gw, rw. split_and!; try done. by rewrite Hid. }
    destruct rw; [|by destruct Hw as [_ ->]]. destruct Hw as [_ ->]. apply filed_set; [done|].
    subst id. apply (filed_insert_request _ _ (resolve entry st now)); [apply Hf1|exact Hask].
  - unfold revoke. destruct (find_grant me b gee s) as [[pid g]|]; [|done]. destruct removed; [|done]. cbn [snd].
    apply filed_set; [done|]. destruct (Hb pid) as [F1 F2]. split; [|done]. intros name g'. cbn [grants set_grants].
    rewrite lookup_delete_Some. intros [_ H]. by apply F1.
  - unfold send. destruct (_ && _); [done|]. destruct w; [|done]. cbn [snd]. apply filed_set; [done|].
    by apply (filed_same_tables _ (dir_of b me)).
  - intros pid. unfold receive. eapply filed_same_tables; [apply receive_from_tables|apply Hb].
Qed.

Lemma run_filed ops : filed_bus ops (run ops).
Proof.
  unfold run. induction ops as [|o ops IH] using rev_ind.
  - intros pid. assert (Hd : dir_of empty_bus pid = empty_dir) by (unfold dir_of; cbn [dirs empty_bus]; by rewrite lookup_empty).
    cbn [fold_left]. rewrite Hd. by split; intros name v; cbn [grants requests empty_dir]; rewrite lookup_empty.
  - rewrite fold_left_app. by apply step_filed.
Qed.

(** ** Keys *)

Definition colon_free (s : string) : Prop := 58 ∉ bytes_of s.

#[export] Instance colon_free_dec s : Decision (colon_free s).
Proof. unfold colon_free. apply _. Defined.

(** A grant file names one grantee and one scope, when neither the grantee nor the action
    holds the separator. *)
Lemma grant_file_inj g s g' s' : colon_free g -> colon_free g' -> colon_free (action s) -> colon_free (action s') ->
  grant_file g s = grant_file g' s' -> g = g' /\ s = s'.
Proof.
  intros Hg Hg' Ha Ha' H. apply enc_inj in H. unfold scope_key in H. apply (f_equal bytes_of) in H.
  rewrite !bytes_of_app in H. change (bytes_of ":") with [58] in H. cbn [app] in H.
  apply first_part_inj in H as [H1 H2]; [|done..].
  pose proof (last_part_inj 58 _ _ _ _ Ha Ha' H2) as H3. rewrite H3 in H2. apply app_inj_2 in H2 as [H2 _]; [|done].
  destruct s, s'. simpl in *. split; [by apply bytes_of_inj|]. f_equal; by apply bytes_of_inj.
Qed.

(** C4. Nothing is permitted without consent.  After any history of calls by any
    processes, whenever a grantee is permitted a scope, a grant is in force whose key
    (grantee, resource and action joined by colons) is that grantee's for that scope, and it
    was either issued directly or came from its grantee's own request for its scope, approved
    by the identity the request was addressed to or by the host.  When the grantees and
    actions of both hold no colon, the key pins them: it is a grant of exactly that scope to
    exactly that grantee; with a colon it need not be ([grant_reaches_another_identity]). *)
Theorem permission_needs_consent ops me now gee s :
  is_permitted me (run ops) now gee s = true ->
  exists g, scope_key (grantee g) (g_scope g) = scope_key gee s /\
    unexpired now g = true /\ consented ops g /\
    (colon_free gee -> colon_free (action s) -> colon_free (grantee g) -> colon_free (action (g_scope g)) ->
     grantee g = gee /\ g_scope g = s).
Proof.
  intros H. unfold is_permitted in H.
  destruct (find_grant me (run ops) gee s) as [[pid g]|] eqn:E; [|done].
  unfold find_grant in E. apply find_map_Some in E as (p & _ & Hp). apply fmap_Some in Hp as (g' & Hg & [= -> ->]).
  unfold read_json in Hg. destruct (grants (dir_of (run ops) p) !! grant_file gee s) as [o|] eqn:El; [|done].
  simpl in Hg. subst o. exists g'. destruct (run_filed ops p) as [Hf _]. destruct (Hf _ _ El) as [Hname Hcons].
  split_and!; [by apply enc_inj|done|done|].
  intros H1 H2 H3 H4. by apply grant_file_inj in Hname as [<- <-].
Qed.

(** A message is sent only by the host or under a dispatch grant to its addressee in
    force, and once sent every process finds it waiting for the addressee, with all that
    was waiting before. *)
Theorem send_needs_grant_and_delivers me b now nanos from0 to0 topic0 payload0 m b' :
  send me b now nanos from0 to0 topic0 payload0 true = (Ok m, b') ->
  hidden (message_name nanos me) = false ->
  inbox (dir_of b me) (enc to0) !! message_name nanos me = None ->
  (from0 = "susi" \/ is_permitted me b now from0 (dispatch_scope to0) = true) /\
  m = mkMessage from0 to0 topic0 payload0 now /\
  forall reader, m ∈ waiting_for reader b' to0 /\
    forall m', m' ∈ waiting_for reader b to0 -> m' ∈ waiting_for reader b' to0.
Proof.
  unfold send. intros H Hh Hfresh. destruct (negb _ && negb _) eqn:Ea; [done|]. injection H as <- <-.
  split; [|split; [done|]].
  { apply andb_false_iff in Ea as [Ea|Ea]; apply negb_false_iff in Ea; [left; by apply bool_decide_eq_true in Ea|by right]. }
  set (b' := set_dir b me _).
  assert (Hw : forall reader m', m' ∈ waiting_for reader b' to0 <->
    exists pid name, pid ∈ state_dirs reader b' /\ (name, m') ∈ scan_dir (inbox (dir_of b' pid) (enc to0))).
  { intros reader m'. unfold waiting_for, waiting_in. rewrite list_elem_of_join. split.
    - intros (l & Hm & Hl). apply list_elem_of_fmap in Hl as (pid & -> & Hpid).
      apply list_elem_of_fmap in Hm as ([name v] & -> & Hv). by exists pid, name.
    - intros (pid & name & Hpid & Hv). eexists. split; [|apply list_elem_of_fmap; by exists pid].
      apply list_elem_of_fmap. by exists (name, m'). }
  assert (Hdom : forall reader pid, pid ∈ state_dirs reader b' <-> pid = me \/ pid ∈ state_dirs reader b).
  { intros reader pid. rewrite !state_dirs_elem. unfold b', set_dir. cbn [dirs]. rewrite dom_insert_L. set_solver. }
  intros reader. split.
  - apply Hw. exists me, (message_name nanos me). split; [apply Hdom; by left|].
    unfold b'. rewrite dir_of_set, decide_True, inbox_set, decide_True by done.
    apply scan_dir_elem. by rewrite lookup_insert_eq.
  - intros m' Hm'. unfold waiting_for, waiting_in in Hm'. rewrite list_elem_of_join in Hm'.
    destruct Hm' as (l & Hm & Hl). apply list_elem_of_fmap in Hl as (pid & -> & Hpid).
    apply list_elem_of_fmap in Hm as ([name v] & -> & Hv). apply Hw. exists pid, name.
    split; [apply Hdom; by right|]. apply scan_dir_elem in Hv as [Hhid Hv]. apply scan_dir_elem. split; [done|].
    unfold b'. rewrite dir_of_set. destruct (decide (pid = me)) as [->|]; [|done].
    rewrite inbox_set, decide_True by done. rewrite lookup_insert_ne; [done|]. intros <-. by rewrite Hfresh in Hv.
Qed.

(** ** Concrete histories *)

Definition to_mail : PermissionScope := dispatch_scope "mail".
Definition asking : list Op := [OpRequest "7" 100 "req-7-1" "guest" "mail" to_mail (Some 60) true].

Lemma negotiate_resolves_once_witness :
  exists b', (exists r, negotiate "3" (run asking) 110 "req-7-1" "mail" true true true = (Ok r, b')) /\
    is_permitted "3" b' 150 "guest" to_mail = true.
Proof.
  destruct (negotiate "3" (run asking) 110 "req-7-1" "mail" true true true) as [[r|e] b'] eqn:E;
    [|exfalso; apply (f_equal (fun x => is_ok x.1)) in E; vm_compute in E; discriminate].
  exists b'. split; [by exists r|].
  destruct (negotiate_resolves_once _ _ _ _ _ _ _ _ E) as (pid & entry & Hl & _ & _ & _ & _ & _ & Hperm & _).
  assert (Hc : load_request "3" (run asking) "req-7-1" =
    Some ("7", mkRequest "req-7-1" "guest" "mail" to_mail (Some 60) 100 Pending None)) by (vm_compute; reflexivity).
  rewrite Hc in Hl. injection Hl as <- <-.
  exact (Hperm eq_refl ltac:(vm_compute; discriminate) 150).
Defined.

Definition approved : list Op := asking ++ [OpNegotiate "3" 110 "req-7-1" "mail" true true true].

Lemma permission_needs_consent_witness :
  exists g, scope_key (grantee g) (g_scope g) = scope_key "guest" to_mail /\ consented approved g.
Proof.
  destruct (permission_needs_consent approved "9" 120 "guest" to_mail) as (g & H1 & _ & H3 & _).
  - vm_compute. reflexivity.
  - by exists g.
Defined.

Lemma send_needs_grant_and_delivers_witness :
  exists m b', send "7" (run approved) 120 5000 "guest" "mail" "t" "hello" true = (Ok m, b') /\
    m ∈ waiting_for "3" b' "mail".
Proof.
  destruct (send "7" (run approved) 120 5000 "guest" "mail" "t" "hello" true) as [[m|e] b'] eqn:E;
    [|exfalso; apply (f_equal (fun x => is_ok x.1)) in E; vm_compute in E; discriminate].
  exists m, b'. split; [done|].
  destruct (send_needs_grant_and_delivers _ _ _ _ _ _ _ _ _ _ E) as (_ & _ & H); [vm_compute; reflexivity..|].
  exact (proj1 (H "3")).
Defined.

(** A grant to one identity opens the dispatch of another whose name is its prefix. *)
Lemma grant_reaches_another_identity :
  let b := run [OpGrant "1" 100 "susi" "guest:app" (mkScope "//mail" "dispatch") None true] in
  is_permitted "1" b 110 "guest" to_mail = true.
Proof. vm_compute. reflexivity. Qed.

(** A revocation removes one copy; the grant another process wrote is still in force. *)
Lemma revoked_grant_is_still_in_force :
  let b := run [OpGrant "1" 100 "susi" "guest" to_mail None true; OpGrant "2" 100 "susi" "guest" to_mail None true;
                OpRevoke "1" "guest" to_mail true] in
  is_permitted "1" b 110 "guest" to_mail = true.
Proof. vm_compute. reflexivity. Qed.

(** An expired copy in the process's own directory hides a grant in force. *)
Lemma expired_copy_hides_grant :
  let b := run [OpGrant "1" 100 "susi" "guest" to_mail (Some 5) true; OpGrant "2" 100 "susi" "guest" to_mail None true] in
  is_permitted "1" b 110 "guest" to_mail = false /\ is_permitted "2" b 110 "guest" to_mail = true.
Proof. vm_compute. done. Qed.

(** An approval whose grant could not be written is reported as granted. *)
Lemma approval_without_grant :
  let '(res, b) := negotiate "3" (run asking) 110 "req-7-1" "mail" true false true in
  (status <$> match res with Ok r => Some r | Err _ => None end) = Some Granted /\
  is_permitted "3" b 120 "guest" to_mail = false.
Proof. vm_compute. done. Qed.
