(* ===== verification/KeyArbiter.v ===== *)
(** * KeyArbiter: admission of requests per credential
    ([crates/susi-gemi/src/key_arbitration.rs])

    [Inner] is what the mutex guards; [try_acquire] and [release] are the two critical
    sections, one step each.  A [KeyPermit] in flight is an entry of a ghost list, and
    dropping it runs [release].  The clock is an argument; counters are [u32] and [u64]
    with the saturation the code writes. *)

From S2P Require Import Prelude.

Local Open Scope string_scope.
Local Open Scope list_scope.
Local Open Scope N_scope.

(** ** Quota windows *)

Inductive WindowKind : Type :=
| Rolling (period_secs : N)
| DailyUtc
| WeeklyUtc.

#[export] Instance WindowKind_eq_dec : EqDecision WindowKind.
Proof. solve_decision. Defined.

Definition DAY : N := 86400.
Definition wrap64 (n : N) : N := n mod 2 ^ 64.

(** [reset_after]. *)
Definition reset_after (k : WindowKind) (now : N) : N :=
  match k with
  | Rolling p => saturating_add now p
  | DailyUtc => wrap64 ((now / DAY + 1) * DAY)
  | WeeklyUtc =>
      let dow := (now / DAY + 3) mod 7 in
      let days := (7 - dow) mod 7 in
      let days := if days =? 0 then 7 else days in
      wrap64 ((now / DAY + days) * DAY)
  end.

Record QuotaWindowSpec : Type := mkSpec {
  kind : WindowKind;
  allowance : N;
}.

Record ArbiterLimits : Type := mkLimits {
  per_key_concurrent : N;
  per_key_requests : N;
  window_secs : N;
  global_concurrent : N;
  quota : list QuotaWindowSpec;
}.
Definition ArbiterLimits_default : ArbiterLimits := mkLimits 4 60 60 32 [].

Record QuotaWindow : Type := mkQuota {
  spec : QuotaWindowSpec;
  q_used : N;
  reset_unix : N;
}.

Definition new_window (now : N) (s : QuotaWindowSpec) : QuotaWindow :=
  mkQuota s 0 (reset_after (kind s) now).

(** [roll]: a [while] loop; [None] is a loop that does not end within [2 ^ 64] rounds. *)
Definition roll_once (w : QuotaWindow) : QuotaWindow :=
  mkQuota (spec w) 0 (reset_after (kind (spec w)) (reset_unix w)).
Definition roll (now : N) (w : QuotaWindow) : option QuotaWindow :=
  match while_pow 64 (fun w => reset_unix w <=? now) roll_once w with
  | inr w => Some w
  | inl _ => None
  end.

(** ** The arbiter *)

Inductive Denial : Type :=
| Concurrency
| RateWindow
| Global
| Quota (reset : N).

#[export] Instance Denial_eq_dec : EqDecision Denial.
Proof. solve_decision. Defined.

Record KeyWindow : Type := mkKey {
  in_flight : N;
  window_start : N;
  used : N;
  quota_windows : list QuotaWindow;
}.
Definition KeyWindow_default : KeyWindow := mkKey 0 0 0 [].

Record Inner : Type := mkInner {
  keys : gmap string KeyWindow;
  global_in_flight : N;
}.
Definition Inner_default : Inner := mkInner ∅ 0.

Section Arbiter.
Context (limits : ArbiterLimits).

Definition key_of (i : Inner) (scope : string) : KeyWindow := default KeyWindow_default (keys i !! scope).
Definition set_key (i : Inner) (scope : string) (k : KeyWindow) : Inner :=
  mkInner (<[scope := k]> (keys i)) (global_in_flight i).

(** The tumbling of the rate window and the opening of the quota windows. *)
Definition tumble (now : N) (k : KeyWindow) : KeyWindow :=
  if window_secs limits <=? now - window_start k
  then mkKey (in_flight k) now 0 (quota_windows k) else k.
Definition open_windows (now : N) (k : KeyWindow) : KeyWindow :=
  if (length (quota_windows k) =? length (quota limits))%nat then k
  else mkKey (in_flight k) (window_start k) (used k) (new_window now <$> quota limits).

(** The loop over the quota windows: what they become, and the reset of the first one
    that is spent. *)
Fixpoint check_quota (now : N) (ws : list QuotaWindow) : option (list QuotaWindow * option N) :=
  match ws with
  | [] => Some ([], None)
  | w :: ws' =>
      match roll now w with
      | None => None
      | Some w =>
          if allowance (spec w) <=? q_used w then Some (w :: ws', Some (reset_unix w))
          else
            match check_quota now ws' with
            | None => None
            | Some (ws', r) => Some (w :: ws', r)
            end
      end
  end.

Definition count_one (w : QuotaWindow) : QuotaWindow :=
  mkQuota (spec w) (saturating_add (q_used w) 1) (reset_unix w).

(** [try_acquire]; [None] when a window's roll does not end. *)
Definition try_acquire (now : N) (scope : string) (i : Inner) : option (result unit Denial * Inner) :=
  if global_concurrent limits <=? global_in_flight i then Some (Err Global, i)
  else
    let k := key_of i scope in
    if per_key_concurrent limits <=? in_flight k then Some (Err Concurrency, set_key i scope k)
    else
      let k := tumble now k in
      if per_key_requests limits <=? used k then Some (Err RateWindow, set_key i scope k)
      else
        let k := open_windows now k in
        match check_quota now (quota_windows k) with
        | None => None
        | Some (ws, Some reset) =>
            Some (Err (Quota reset), set_key i scope (mkKey (in_flight k) (window_start k) (used k) ws))
        | Some (ws, None) =>
            Some (Ok tt,
              mkInner (<[scope := mkKey (saturating_add32 (in_flight k) 1) (window_start k)
                                    (saturating_add32 (used k) 1) (count_one <$> ws)]> (keys i))
                      (saturating_add32 (global_in_flight i) 1))
        end.

(** [release], run when a permit is dropped. *)
Definition release (scope : string) (i : Inner) : Inner :=
  let ks :=
    match keys i !! scope with
    | Some k => <[scope := mkKey (in_flight k - 1) (window_start k) (used k) (quota_windows k)]> (keys i)
    | None => keys i
    end in
  mkInner ks (global_in_flight i - 1).

(** ** Observability *)

Record QuotaView : Type := mkView {
  v_kind : WindowKind;
  remaining : N;
  v_allowance : N;
  v_reset : N;
}.
Record ScopeStatus : Type := mkStatus {
  st_in_flight : N;
  st_window_used : N;
  st_global : N;
  st_quota : list QuotaView;
}.

Definition view (w : QuotaWindow) : QuotaView :=
  mkView (kind (spec w)) (allowance (spec w) - q_used w) (allowance (spec w)) (reset_unix w).

(** [scope_status]: a snapshot, which tumbles and rolls the windows it shows. *)
Definition scope_status (now : N) (scope : string) (i : Inner) : option (ScopeStatus * Inner) :=
  let k := open_windows now (tumble now (key_of i scope)) in
  match mapM (roll now) (quota_windows k) with
  | None => None
  | Some ws =>
      Some (mkStatus (in_flight k) (used k) (global_in_flight i) (view <$> ws),
            set_key i scope (mkKey (in_flight k) (window_start k) (used k) ws))
  end.

(** [quota_headroom]: the first window of least remaining allowance. *)
Fixpoint first_min (best : N * N) (l : list (N * N)) : N * N :=
  match l with
  | [] => best
  | x :: l' => first_min (if x.1 <? best.1 then x else best) l'
  end.
Definition quota_headroom (now : N) (scope : string) (i : Inner) : option (option (N * N) * Inner) :=
  match scope_status now scope i with
  | None => None
  | Some (s, i) =>
      Some (match (fun v => (remaining v, v_allowance v)) <$> st_quota s with
            | [] => None
            | x :: l => Some (first_min x l)
            end, i)
  end.

(** [utilization_percent]. *)
Definition utilization_percent (v : QuotaView) : N :=
  if v_allowance v =? 0 then 0
  else
    let q := N.min (saturating_mul (v_allowance v - remaining v) 100) 255 / v_allowance v in
    if q <=? 255 then q else 0.
End Arbiter.

(** ** Rolling a window *)

(** The year thirty million. *)
Definition horizon : N := 1000000000000000.
Definition valid_kind (k : WindowKind) : Prop := match k with Rolling p => 0 < p | _ => True end.

Lemma day_wrap n : n <= horizon -> forall d, d <= 7 -> wrap64 ((n / DAY + d) * DAY) = (n / DAY + d) * DAY.
Proof.
  unfold horizon, wrap64, DAY. intros Hn d Hd. apply N.mod_small. change (2 ^ 64) with 18446744073709551616.
  pose proof (N.Div0.mul_div_le n 86400) as Hq. set (q := n / 86400) in *. clearbody q. lia.
Qed.

Lemma reset_after_gt k now : valid_kind k -> now <= horizon -> now < reset_after k now.
Proof.
  intros Hk Hn. destruct k as [p| |]; cbn [reset_after].
  - simpl in Hk. unfold saturating_add, u64_max, horizon in *. lia.
  - rewrite day_wrap by (done || lia). unfold DAY.
    pose proof (N.div_mod' now 86400). pose proof (N.mod_lt now 86400 ltac:(lia)). lia.
  - set (dow := (now / DAY + 3) mod 7). assert (Hdow : dow < 7) by (by apply N.mod_lt).
    set (days := if (7 - dow) mod 7 =? 0 then 7 else (7 - dow) mod 7).
    assert (Hd : 1 <= days <= 7).
    { unfold days. pose proof (N.mod_lt (7 - dow) 7 ltac:(lia)). destruct (N.eqb_spec ((7 - dow) mod 7) 0); lia. }
    change (now < wrap64 ((now / DAY + days) * DAY)). rewrite day_wrap by (done || lia). unfold DAY.
    pose proof (N.div_mod' now 86400). pose proof (N.mod_lt now 86400 ltac:(lia)). nia.
Qed.

(** What rolling a window does: nothing before its reset; after it the count is zero and
    the new reset is that of an instant that has passed. *)
Record rolled (now : N) (w w' : QuotaWindow) : Prop := {
  rolled_spec : spec w' = spec w;
  rolled_future : now < reset_unix w';
  rolled_keep : now < reset_unix w -> w' = w;
  rolled_fresh : reset_unix w <= now ->
    q_used w' = 0 /\ exists c, reset_unix w <= c /\ c <= now /\ reset_unix w' = reset_after (kind (spec w)) c;
}.

(** Rolling a quota window always ends, whatever instant it was opened at and however
    long ago: afterwards its reset lies in the future, a window whose reset had not come
    is untouched, and one whose reset had come counts from zero to the reset of an
    instant that has passed.  (A rolling period must be positive, as the reader of the
    limits requires.) *)
Theorem roll_terminates now w : valid_kind (kind (spec w)) -> now <= horizon ->
  exists w', roll now w = Some w' /\ rolled now w w'.
Proof.
  intros Hk Hn. unfold roll.
  set (I := fun v => spec v = spec w /\ (v = w \/
    (q_used v = 0 /\ reset_unix w <= now /\ exists c, reset_unix w <= c /\ c <= now /\ reset_unix v = reset_after (kind (spec w)) c))).
  destruct (while_pow_stops (fun v => reset_unix v <=? now) roll_once (fun v => now + 1 - reset_unix v) I) with (n := 64%nat) (a := w)
    as (v & Hv & [Hs Hor] & Hstop).
  - intros v [Hs Hor] Hc. apply N.leb_le in Hc. split; [done|]. right. cbn [roll_once q_used reset_unix]. rewrite Hs.
    assert (Hle : reset_unix w <= reset_unix v).
    { destruct Hor as [->|(_ & _ & c & Hc1 & Hc2 & ->)]; [lia|]. pose proof (reset_after_gt (kind (spec w)) c Hk ltac:(lia)). lia. }
    split_and!; [done|lia|]. by exists (reset_unix v).
  - intros v [Hs _] Hc. apply N.leb_le in Hc. cbn [roll_once reset_unix]. rewrite Hs.
    pose proof (reset_after_gt (kind (spec w)) (reset_unix v) Hk ltac:(lia)). lia.
  - split; [done|by left].
  - unfold horizon in Hn. change (2 ^ N.of_nat 64) with 18446744073709551616. lia.
  - rewrite Hv. exists v. split; [done|]. apply N.leb_gt in Hstop. split; [done|done| |].
    + intros Hlt. destruct Hor as [->|(_ & ? & _)]; [done|lia].
    + intros Hle. destruct Hor as [->|(H0 & _ & c & H1 & H2 & H3)]; [lia|]. split; [done|]. by exists c.
Qed.

(** ** Histories *)

Section Runs.
Context (limits : ArbiterLimits).

Record World : Type := mkWorld {
  inner : Inner;
  permits : list string;
  admitted : list (string * N);
}.
Definition World_default : World := mkWorld Inner_default [] [].

Inductive Event : Type :=
| Acquire (scope : string) (now : N)
| Observe (scope : string) (now : N)
| DropPermit (scope : string).

Fixpoint remove_one (s : string) (l : list string) : list string :=
  match l with
  | [] => []
  | x :: l' => if bool_decide (x = s) then l' else x :: remove_one s l'
  end.

(** A permit can be dropped only while it is held. *)
Definition step (w : World) (e : Event) : option World :=
  match e with
  | Acquire scope now =>
      match try_acquire limits now scope (inner w) with
      | None => None
      | Some (Ok _, i) => Some (mkWorld i (scope :: permits w) ((scope, now) :: admitted w))
      | Some (Err _, i) => Some (mkWorld i (permits w) (admitted w))
      end
  | Observe scope now =>
      (fun x : ScopeStatus * Inner => mkWorld x.2 (permits w) (admitted w)) <$> scope_status limits now scope (inner w)
  | DropPermit scope =>
      if bool_decide (scope ∈ permits w)
      then Some (mkWorld (release scope (inner w)) (remove_one scope (permits w)) (admitted w))
      else Some w
  end.
Fixpoint run (w : World) (es : list Event) : option World :=
  match es with
  | [] => Some w
  | e :: es' => match step w e with Some w => run w es' | None => None end
  end.

(** The clock does not go back and stays below the horizon. *)
Fixpoint timed (t : N) (es : list Event) : Prop :=
  match es with
  | [] => True
  | (Acquire _ now | Observe _ now) :: es' => t <= now /\ now <= horizon /\ timed now es'
  | DropPermit _ :: es' => timed t es'
  end.

Definition held (s : string) (l : list string) : N := N.of_nat (length (List.filter (fun x => bool_decide (x = s)) l)).

Lemma held_cons s x l : held s (x :: l) = (if bool_decide (x = s) then 1 else 0) + held s l.
Proof. unfold held. cbn [List.filter]. case_bool_decide; cbn [length]; lia. Qed.

Lemma held_remove s x l : x ∈ l -> held s (remove_one x l) = held s l - (if bool_decide (x = s) then 1 else 0).
Proof.
  induction l as [|y l IH]; [set_solver|]. intros Hin. cbn [remove_one]. destruct (decide (y = x)) as [->|Hne].
  - rewrite bool_decide_true, held_cons by done. case_bool_decide; lia.
  - rewrite bool_decide_false, !held_cons, IH by (done || set_solver).
    apply elem_of_cons in Hin as [->|Hin]; [done|]. case_bool_decide as E1; [|lia]. subst.
    rewrite bool_decide_false by done. lia.
Qed.

Lemma remove_length x l : x ∈ l -> S (length (remove_one x l)) = length l.
Proof.
  induction l as [|y l IH]; [set_solver|]. intros Hin. cbn [remove_one]. destruct (decide (y = x)) as [->|Hne].
  - by rewrite bool_decide_true.
  - rewrite bool_decide_false by done. cbn [length]. rewrite IH by set_solver. done.
Qed.

(** ** Slots *)

Definition slots_exact (w : World) : Prop :=
  global_in_flight (inner w) = N.of_nat (length (permits w)) /\
  N.of_nat (length (permits w)) <= global_concurrent limits /\
  forall s, in_flight (key_of (inner w) s) = held s (permits w) /\ held s (permits w) <= per_key_concurrent limits.

Lemma key_of_set i s k s' : key_of (set_key i s k) s' = if decide (s' = s) then k else key_of i s'.
Proof.
  unfold key_of, set_key. cbn [keys]. destruct (decide (s' = s)) as [->|]; [by rewrite lookup_insert_eq|by rewrite lookup_insert_ne].
Qed.

Lemma tumble_in_flight now k : in_flight (tumble limits now k) = in_flight k.
Proof. unfold tumble. by destruct (_ <=? _). Qed.

Lemma open_in_flight now k : in_flight (open_windows limits now k) = in_flight k.
Proof. unfold open_windows. by destruct (_ =? _)%nat. Qed.

(** What an acquisition does to the counters of slots. *)
Lemma try_acquire_slots now scope i res i' : try_acquire limits now scope i = Some (res, i') ->
  match res with
  | Err _ => global_in_flight i' = global_in_flight i /\ forall s, in_flight (key_of i' s) = in_flight (key_of i s)
  | Ok _ =>
      global_in_flight i < global_concurrent limits /\ in_flight (key_of i scope) < per_key_concurrent limits /\
      global_in_flight i' = saturating_add32 (global_in_flight i) 1 /\
      forall s, in_flight (key_of i' s) =
        if decide (s = scope) then saturating_add32 (in_flight (key_of i scope)) 1 else in_flight (key_of i s)
  end.
Proof.
  assert (Hset : forall k, in_flight k = in_flight (key_of i scope) ->
    global_in_flight (set_key i scope k) = global_in_flight i /\
    forall s, in_flight (key_of (set_key i scope k) s) = in_flight (key_of i s)).
  { intros k Hk. split; [done|]. intros s. rewrite key_of_set. destruct (decide (s = scope)) as [->|]; done. }
  unfold try_acquire. destruct (N.leb_spec (global_concurrent limits) (global_in_flight i)) as [|Hg]; [by intros [= <- <-]|].
  destruct (N.leb_spec (per_key_concurrent limits) (in_flight (key_of i scope))) as [|Hp]; [intros [= <- <-]; by apply Hset|].
  destruct (_ <=? _); [intros [= <- <-]; apply Hset, tumble_in_flight|].
  destruct (check_quota _ _) as [[ws [reset|]]|]; [| |done]; intros [= <- <-].
  - apply Hset. cbn [in_flight]. by rewrite open_in_flight, tumble_in_flight.
  - cbn [global_in_flight]. split_and!; [done|done|done|]. intros s. unfold key_of at 1. cbn [keys].
    destruct (decide (s = scope)) as [->|].
    + rewrite lookup_insert_eq. cbn. by rewrite open_in_flight, tumble_in_flight.
    + by rewrite lookup_insert_ne.
Qed.

Lemma scope_status_slots now scope i st i' : scope_status limits now scope i = Some (st, i') ->
  global_in_flight i' = global_in_flight i /\ forall s, in_flight (key_of i' s) = in_flight (key_of i s).
Proof.
  unfold scope_status. destruct (mapM _ _); [|done]. intros [= _ <-]. split; [done|]. intros s.
  rewrite key_of_set. destruct (decide (s = scope)) as [->|]; [|done]. cbn [in_flight].
  by rewrite open_in_flight, tumble_in_flight.
Qed.

Lemma release_key scope i s : in_flight (key_of (release scope i) s) = in_flight (key_of i s) - (if decide (s = scope) then 1 else 0).
Proof.
  unfold release, key_of. cbn [keys]. destruct (keys i !! scope) as [k|] eqn:E.
  - destruct (decide (s = scope)) as [->|]; [rewrite lookup_insert_eq, E|rewrite lookup_insert_ne by done]; cbn; lia.
  - destruct (decide (s = scope)) as [->|]; [rewrite E; reflexivity|lia].
Qed.

Hypothesis limits_u32 : global_concurrent limits <= u32_max /\ per_key_concurrent limits <= u32_max.

Lemma step_slots w e w' : slots_exact w -> step w e = Some w' -> slots_exact w'.
Proof.
  intros (Hg & Hgl & Hs) H. destruct e as [scope now|scope now|scope]; cbn [step] in H.
  - destruct (try_acquire limits now scope (inner w)) as [[[[]|d] i]|] eqn:E; [| |done]; injection H as <-;
      apply try_acquire_slots in E; unfold slots_exact; cbn [inner permits].
    + destruct E as (H1 & H2 & H3 & H4). rewrite (proj1 (Hs scope)) in *. unfold saturating_add32 in *. cbn [length].
      split_and!; [lia|lia|]. intros s. rewrite H4, held_cons. pose proof (Hs s) as [Hs1 Hs2].
      destruct (decide (s = scope)) as [->|Hne]; [rewrite bool_decide_true by done|rewrite bool_decide_false by done]; lia.
    + destruct E as (H1 & H2). split_and!; [by rewrite H1|done|]. intros s. by rewrite H2.
  - apply fmap_Some in H as ([st i] & E & ->). apply scope_status_slots in E as (H1 & H2). unfold slots_exact.
    cbn [inner permits snd]. split_and!; [by rewrite H1|done|]. intros s. by rewrite H2.
  - case_bool_decide as Hin; injection H as <-; [|done]. unfold slots_exact. cbn [inner permits].
    pose proof (remove_length _ _ Hin) as Hlen. split_and!.
    + cbn [release global_in_flight]. lia.
    + lia.
    + intros s. rewrite release_key, held_remove by done. pose proof (Hs s) as [Hs1 Hs2]. rewrite Hs1.
      destruct (decide (s = scope)) as [->|Hne]; [rewrite bool_decide_true by done|rewrite bool_decide_false by done]; lia.
Qed.

(** Slots are exact.  Whatever mix of requests and dropped permits, the counters equal
    the permits in flight, so no key ever has more requests in flight than its bound, all
    keys together never more than the global bound, and no slot leaks: with fewer permits
    held than both bounds a request is never refused for concurrency. *)
Theorem concurrency_is_exact es w : run World_default es = Some w ->
  N.of_nat (length (permits w)) <= global_concurrent limits /\
  (forall s, held s (permits w) <= per_key_concurrent limits) /\
  (forall s now d i, try_acquire limits now s (inner w) = Some (Err d, i) ->
     (d = Global -> N.of_nat (length (permits w)) = global_concurrent limits) /\
     (d = Concurrency -> held s (permits w) = per_key_concurrent limits)).
Proof.
  intros H. assert (Hw : slots_exact w).
  { assert (H0 : slots_exact World_default) by (unfold slots_exact; simpl; split_and!; [done|lia|intros s; split; [done|apply N.le_0_l]]).
    revert H0 H. generalize World_default. induction es as [|e es IH]; intros w0 H0 H; [by injection H as <-|].
    cbn [run] in H. destruct (step w0 e) as [w1|] eqn:E; [|done]. eapply IH; [|exact H]. by eapply step_slots. }
  destruct Hw as (Hg & Hgl & Hs). split_and!; [done|apply Hs|]. intros s now d i Hacq. pose proof (Hs s) as [Hs1 Hs2].
  unfold try_acquire in Hacq. rewrite Hg, Hs1 in Hacq.
  destruct (N.leb_spec (global_concurrent limits) (N.of_nat (length (permits w)))); [injection Hacq as <- _; split; [lia|done]|].
  destruct (N.leb_spec (per_key_concurrent limits) (held s (permits w))); [injection Hacq as <- _; split; [done|lia]|].
  destruct (_ <=? _); [by injection Hacq as <- _|]. destruct (check_quota _ _) as [[ws [r|]]|]; [by injection Hacq as <- _|done|done].
Qed.

(** ** Rates *)

Definition times (s : string) (l : list (string * N)) : list N :=
  omap (fun a : string * N => if bool_decide (a.1 = s) then Some a.2 else None) l.
Definition within (x d : N) (t : N) : bool := (x <=? t) && (t <? x + d).
Definition count_in (x d : N) (l : list N) : N := N.of_nat (length (List.filter (within x d) l)).

(** The rate windows of a key, the newest first: where each began and its admissions. *)
Fixpoint rate_ok (ws : list (N * list N)) : Prop :=
  match ws with
  | [] => True
  | (st, b) :: rest =>
      Forall (fun t => st <= t /\ t < st + window_secs limits) b /\
      N.of_nat (length b) <= per_key_requests limits /\
      match rest with (st', _) :: _ => st' + window_secs limits <= st | [] => True end /\ rate_ok rest
  end.

Lemma count_in_app x d l l' : count_in x d (l ++ l') = count_in x d l + count_in x d l'.
Proof. unfold count_in. rewrite List.filter_app, length_app. lia. Qed.

Lemma count_in_none x d l : (forall t, In t l -> within x d t = false) -> count_in x d l = 0.
Proof. intros H. unfold count_in. by rewrite filter_none. Qed.

Lemma count_in_le x d l : count_in x d l <= N.of_nat (length l).
Proof. unfold count_in. pose proof (List.filter_length_le (within x d) l). lia. Qed.

(** Everything before the newest window that begins at or before [x] is before [x]. *)
Lemma rate_ok_old x ws : rate_ok ws -> match ws with (st, _) :: _ => st + window_secs limits <= x | [] => True end ->
  count_in x (window_secs limits) (mjoin ws.*2) = 0.
Proof.
  revert x. induction ws as [|[st b] rest IH]; intros x Hok Hst; [done|]. destruct Hok as (Hb & _ & Hnext & Hrest).
  change (mjoin ((st, b) :: rest).*2) with (b ++ mjoin rest.*2). rewrite count_in_app, IH; [|done|destruct rest as [|[st' b'] rest]; [done|lia]].
  rewrite N.add_0_r. apply count_in_none. intros t Ht. rewrite Forall_forall in Hb.
  specialize (Hb t (proj2 (list_elem_of_In _ _) Ht)). unfold within. destruct (N.leb_spec x t); [|done].
  exfalso. lia.
Qed.

Lemma rate_ok_count x ws : rate_ok ws -> count_in x (window_secs limits) (mjoin ws.*2) <= 2 * per_key_requests limits.
Proof.
  induction ws as [|[st b] rest IH]; intros Hok; [apply N.le_0_l|]. destruct Hok as (Hb & Hlen & Hnext & Hrest).
  change (mjoin ((st, b) :: rest).*2) with (b ++ mjoin rest.*2). rewrite count_in_app.
  destruct (N.ltb_spec st (x + window_secs limits)) as [Hlt|Hge].
  - assert (Hone : count_in x (window_secs limits) (mjoin rest.*2) <= per_key_requests limits).
    { destruct rest as [|[st' b'] rest]; [apply N.le_0_l|]. destruct Hrest as (Hb' & Hlen' & Hnext' & Hrest').
      change (mjoin ((st', b') :: rest).*2) with (b' ++ mjoin rest.*2). rewrite count_in_app, rate_ok_old; [|done|].
      - pose proof (count_in_le x (window_secs limits) b'). lia.
      - destruct rest as [|[st2 b2] rest]; [done|]. lia. }
    pose proof (count_in_le x (window_secs limits) b). lia.
  - rewrite count_in_none; [rewrite N.add_0_l; by apply IH|]. intros t Ht. rewrite Forall_forall in Hb.
    specialize (Hb t (proj2 (list_elem_of_In _ _) Ht)). unfold within.
    destruct (N.ltb_spec t (x + window_secs limits)); [exfalso; lia|]. apply andb_false_r.
Qed.

Hypothesis window_pos : 0 < window_secs limits.
Hypothesis requests_u32 : per_key_requests limits <= u32_max.

(** The windows behind a key's counters, at the latest instant. *)
Definition paced (t : N) (l : list N) (k : KeyWindow) : Prop :=
  exists b rest, rate_ok ((window_start k, b) :: rest) /\ l = mjoin ((window_start k, b) :: rest).*2 /\
    used k = N.of_nat (length b) /\ window_start k <= t.

Lemma paced_later t t' l k : paced t l k -> t <= t' -> paced t' l k.
Proof. intros (b & rest & H1 & H2 & H3 & H4) Ht. exists b, rest. split_and!; try done. lia. Qed.

Lemma paced_counters t l k k' : window_start k' = window_start k -> used k' = used k -> paced t l k -> paced t l k'.
Proof. intros H1 H2. unfold paced. by rewrite H1, H2. Qed.

Lemma tumble_paced t now l k : paced t l k -> t <= now ->
  paced now l (tumble limits now k) /\ now < window_start (tumble limits now k) + window_secs limits.
Proof.
  intros (b & rest & Hok & Hl & Hu & Hst) Ht. unfold tumble. destruct (N.leb_spec (window_secs limits) (now - window_start k)).
  - split; [|cbn [window_start]; lia]. exists [], ((window_start k, b) :: rest). cbn [window_start used]. split_and!; try done.
    split; [by apply Forall_nil|]. split; [apply N.le_0_l|]. split; [lia|exact Hok].
  - split; [|lia]. exists b, rest. split_and!; try done. lia.
Qed.

Lemma paced_admit now l k : paced now l k -> now < window_start k + window_secs limits -> used k < per_key_requests limits ->
  forall k', window_start k' = window_start k -> used k' = saturating_add32 (used k) 1 -> paced now (now :: l) k'.
Proof.
  intros (b & rest & Hok & Hl & Hu & Hst) Hlt Hr k' Hw Hu'. exists (now :: b), rest. rewrite Hw. destruct Hok as (Hb & Hlen & Hrest).
  unfold saturating_add32 in Hu'. cbn [length]. split_and!; [|by rewrite Hl|lia|done].
  cbn [rate_ok]. split_and!; [by constructor|cbn [length]; lia|apply Hrest|apply Hrest].
Qed.

Lemma open_counters now k : window_start (open_windows limits now k) = window_start k /\
  used (open_windows limits now k) = used k.
Proof. unfold open_windows. by destruct (_ =? _)%nat. Qed.

(** What an acquisition does to the rate counters: only those of its scope. *)
Lemma try_acquire_rate now scope i res i' : try_acquire limits now scope i = Some (res, i') ->
  (forall s, s <> scope -> key_of i' s = key_of i s) /\
  let k := key_of i scope in let k' := key_of i' scope in
  match res with
  | Ok _ => window_start k' = window_start (tumble limits now k) /\
            used (tumble limits now k) < per_key_requests limits /\
            used k' = saturating_add32 (used (tumble limits now k)) 1
  | Err _ => (window_start k' = window_start k /\ used k' = used k) \/
             (window_start k' = window_start (tumble limits now k) /\ used k' = used (tumble limits now k))
  end.
Proof.
  assert (Hset : forall k, (forall s, s <> scope -> key_of (set_key i scope k) s = key_of i s) /\ key_of (set_key i scope k) scope = k).
  { intros k. split; [intros s Hs|]; rewrite key_of_set; [by rewrite decide_False|by rewrite decide_True]. }
  unfold try_acquire. destruct (_ <=? global_in_flight i); [intros [= <- <-]; split; [done|by left]|].
  destruct (_ <=? in_flight _); [intros [= <- <-]; destruct (Hset (key_of i scope)) as [H1 H2]; split; [done|]; cbv zeta; rewrite H2; by left|].
  destruct (N.leb_spec (per_key_requests limits) (used (tumble limits now (key_of i scope)))) as [|Hr].
  { intros [= <- <-]. destruct (Hset (tumble limits now (key_of i scope))) as [H1 H2]. split; [done|]. cbv zeta. rewrite H2. by right. }
  pose proof (open_counters now (tumble limits now (key_of i scope))) as [Ho1 Ho2].
  destruct (check_quota _ _) as [[ws [reset|]]|]; [| |done]; intros [= <- <-].
  - destruct (Hset (mkKey (in_flight (open_windows limits now (tumble limits now (key_of i scope))))
      (window_start (open_windows limits now (tumble limits now (key_of i scope))))
      (used (open_windows limits now (tumble limits now (key_of i scope)))) ws)) as [H1 H2].
    split; [done|]. cbv zeta. rewrite H2. cbn [window_start used]. right. by rewrite Ho1, Ho2.
  - split.
    + intros s Hs. unfold key_of. cbn [keys]. by rewrite lookup_insert_ne.
    + cbv zeta. match goal with |- context [key_of (mkInner (<[scope := ?x]> _) _) scope] => set (k' := x) end.
      assert (Hk : forall g, key_of (mkInner (<[scope := k']> (keys i)) g) scope = k').
      { intros g. unfold key_of. cbn [keys]. by rewrite lookup_insert_eq. }
      rewrite Hk. cbn [window_start used k']. by rewrite Ho1, Ho2.
Qed.

Definition all_paced (t : N) (w : World) : Prop := forall s, paced t (times s (admitted w)) (key_of (inner w) s).

Lemma scope_status_rate now scope i st i' : scope_status limits now scope i = Some (st, i') ->
  (forall s, s <> scope -> key_of i' s = key_of i s) /\
  window_start (key_of i' scope) = window_start (tumble limits now (key_of i scope)) /\
  used (key_of i' scope) = used (tumble limits now (key_of i scope)).
Proof.
  unfold scope_status. pose proof (open_counters now (tumble limits now (key_of i scope))) as [Ho1 Ho2].
  destruct (mapM _ _) as [ws|]; [|done]. intros [= _ <-]. split.
  - intros s Hs. by rewrite key_of_set, decide_False.
  - rewrite key_of_set, decide_True by done. cbn [window_start used]. by rewrite Ho1, Ho2.
Qed.

Lemma times_cons s scope now l : times s ((scope, now) :: l) = if bool_decide (scope = s) then now :: times s l else times s l.
Proof. unfold times. cbn [omap list_omap fst snd]. by case_bool_decide. Qed.

Lemma release_rate scope i s : window_start (key_of (release scope i) s) = window_start (key_of i s) /\
  used (key_of (release scope i) s) = used (key_of i s).
Proof.
  unfold release, key_of. cbn [keys]. destruct (keys i !! scope) as [k|] eqn:E; [|done].
  destruct (decide (s = scope)) as [->|]; [by rewrite lookup_insert_eq, E|by rewrite lookup_insert_ne].
Qed.

Lemma step_paced t w e w' es : all_paced t w -> timed t (e :: es) -> step w e = Some w' ->
  exists t', all_paced t' w' /\ timed t' es.
Proof.
  intros Hw Ht H. destruct e as [scope now|scope now|scope]; cbn [step timed] in *.
  - destruct Ht as (Hle & _ & Hes). exists now. split; [|done].
    destruct (try_acquire limits now scope (inner w)) as [[res i]|] eqn:E; [|done].
    apply try_acquire_rate in E as [Hother Hrate]. cbv zeta in Hrate.
    destruct (tumble_paced t now _ _ (Hw scope) Hle) as [Htum Hlt].
    destruct res as [[]|d]; injection H as <-; intros s; cbn [admitted inner]; rewrite ?times_cons.
    + destruct (decide (s = scope)) as [->|Hne].
      * rewrite bool_decide_true by done. destruct Hrate as (H1 & H2 & H3). by eapply paced_admit.
      * rewrite bool_decide_false by done. rewrite Hother by done. by eapply paced_later.
    + destruct (decide (s = scope)) as [->|Hne].
      * destruct Hrate as [[H1 H2]|[H1 H2]]; [eapply paced_later; [|exact Hle]|]; by eapply paced_counters.
      * rewrite Hother by done. by eapply paced_later.
  - destruct Ht as (Hle & _ & Hes). exists now. split; [|done].
    apply fmap_Some in H as ([st i] & E & ->). apply scope_status_rate in E as (Hother & H1 & H2).
    destruct (tumble_paced t now _ _ (Hw scope) Hle) as [Htum _]. intros s. cbn [admitted inner snd].
    destruct (decide (s = scope)) as [->|Hne]; [by eapply paced_counters|]. rewrite Hother by done. by eapply paced_later.
  - exists t. split; [|done]. case_bool_decide; injection H as <-; [|done]. intros s. cbn [admitted inner].
    destruct (release_rate scope (inner w) s) as [H1 H2]. by eapply paced_counters.
Qed.

(** The rate window tumbles: whatever the history, any stretch of [window_secs] seconds
    holds at most twice [per_key_requests] admissions of one key. *)
Theorem rate_is_bounded es w s x : timed 0 es -> run World_default es = Some w ->
  count_in x (window_secs limits) (times s (admitted w)) <= 2 * per_key_requests limits.
Proof.
  intros Ht H. assert (Hw : exists t, all_paced t w).
  { assert (H0 : all_paced 0 World_default).
    { intros s'. exists [], []. split_and!; try done. cbn [rate_ok]. split_and!; try done; first [by apply Forall_nil|apply N.le_0_l]. }
    revert H0 Ht H. generalize 0 World_default. induction es as [|e es IH]; intros t w0 H0 Ht H; [injection H as <-; by exists t|].
    cbn [run] in H. destruct (step w0 e) as [w1|] eqn:E; [|done].
    destruct (step_paced _ _ _ _ _ H0 Ht E) as (t' & H1 & H2). by eapply IH. }
  destruct Hw as (t & Hw). destruct (Hw s) as (b & rest & Hok & -> & _). by apply rate_ok_count.
Qed.

(** ** Quotas *)

(** The day or the week of an instant. *)
Definition calendar (k : WindowKind) : Prop := match k with Rolling _ => False | _ => True end.
Definition period (k : WindowKind) (t : N) : N :=
  match k with WeeklyUtc => (t / DAY + 3) / 7 | _ => t / DAY end.
Definition count_period (k : WindowKind) (d : N) (l : list N) : N :=
  N.of_nat (length (List.filter (fun t => period k t =? d) l)).

Lemma period_mono k t u : t <= u -> period k t <= period k u.
Proof.
  intros H. assert (Hd : t / DAY <= u / DAY) by (by apply N.Div0.div_le_mono).
  destruct k; cbn [period]; try done. apply N.Div0.div_le_mono. lia.
Qed.

Lemma lt_days u n : u < n * DAY <-> u / DAY < n.
Proof.
  split; intros H; [apply N.Div0.div_lt_upper_bound; lia|].
  pose proof (N.div_mod' u DAY) as Hdm. pose proof (N.mod_lt u DAY ltac:(done)) as Hlt. rewrite Hdm.
  unfold DAY in *. set (q := u / 86400) in *. set (r := u mod 86400) in *. clearbody q r. lia.
Qed.

(** A calendar window lasts to the end of its day or week. *)
Lemma reset_period k c u : calendar k -> c <= horizon -> c <= u ->
  (u < reset_after k c <-> period k u = period k c).
Proof.
  intros Hk Hc Hu. pose proof (period_mono k c u Hu) as Hmono. destruct k as [p| |]; [done| |]; cbn [reset_after period] in *.
  - rewrite day_wrap, lt_days by (done || lia). lia.
  - set (dow := (c / DAY + 3) mod 7) in *. assert (Hdow : dow < 7) by (by apply N.mod_lt).
    assert (Hdays : (if (7 - dow) mod 7 =? 0 then 7 else (7 - dow) mod 7) = 7 - dow).
    { destruct (decide (dow = 0)) as [->|]; [done|]. rewrite N.mod_small by lia. destruct (N.eqb_spec (7 - dow) 0); lia. }
    rewrite Hdays, day_wrap by (done || lia). pose proof (N.div_mod' (c / DAY + 3) 7) as Hdm. fold dow in Hdm.
    set (q := (c / DAY + 3) / 7) in *. set (cd := c / DAY) in *.
    rewrite lt_days. set (ud := u / DAY) in *. pose proof (N.div_mod' (ud + 3) 7). pose proof (N.mod_lt (ud + 3) 7 ltac:(done)).
    set (qu := (ud + 3) / 7) in *. set (mu := (ud + 3) mod 7) in *. clearbody qu mu q dow. clearbody ud cd. lia.
Qed.

(** A window whose count is exact and whose allowance was never exceeded. *)
Definition win_ok (t : N) (l : list N) (w : QuotaWindow) : Prop :=
  calendar (kind (spec w)) ->
  (exists c, c <= t /\ reset_unix w = reset_after (kind (spec w)) c /\ q_used w = count_period (kind (spec w)) (period (kind (spec w)) c) l) /\
  Forall (fun u => u < reset_unix w) l /\
  forall d, count_period (kind (spec w)) d l <= allowance (spec w).

Lemma win_ok_later t t' l w : win_ok t l w -> t <= t' -> win_ok t' l w.
Proof. intros H Ht Hc. destruct (H Hc) as ((c & H1 & H2) & H3). split; [exists c; split; [lia|done]|done]. Qed.

Lemma count_period_none k d l : (forall u, In u l -> period k u <> d) -> count_period k d l = 0.
Proof. intros H. unfold count_period. rewrite filter_none; [done|]. intros u Hu. by apply N.eqb_neq, H. Qed.

Lemma win_ok_rolled t now l w w' : win_ok t l w -> t <= now -> now <= horizon -> rolled now w w' -> win_ok now l w'.
Proof.
  intros Hw Ht Hn [Hspec Hfut Hkeep Hfresh] Hc. rewrite Hspec in *. destruct (Hw Hc) as ((c & H1 & H2 & H3) & H4 & H5).
  destruct (N.ltb_spec now (reset_unix w)) as [Hlt|Hge].
  - rewrite (Hkeep Hlt). split; [exists c; split; [lia|done]|done].
  - destruct (Hfresh Hge) as (Hz & c' & K1 & K2 & K3). split_and!; [| |done].
    + exists c'. split_and!; [done|done|]. rewrite Hz. symmetry. apply count_period_none. intros u Hu Heq.
      rewrite Forall_forall in H4. specialize (H4 u (proj2 (list_elem_of_In _ _) Hu)).
      assert (Hgt : c < reset_unix w).
      { rewrite H2. apply reset_after_gt; [by destruct (kind (spec w))|lia]. }
      assert (Hcc' : period (kind (spec w)) c' <> period (kind (spec w)) c).
      { intros He. apply reset_period in He; [rewrite <- H2 in He; lia|done|lia|lia]. }
      pose proof (period_mono (kind (spec w)) c c' ltac:(lia)). destruct (N.le_gt_cases c u) as [Hle|Hlt].
      * rewrite H2 in H4. apply reset_period in H4; [lia|done|lia|done].
      * pose proof (period_mono (kind (spec w)) u c ltac:(lia)). lia.
    + eapply Forall_impl; [exact H4|]. simpl. intros u Hu. lia.
Qed.

(** A window counts an admission that its allowance lets through. *)
Lemma win_ok_count now l w : win_ok now l w -> now < reset_unix w -> now <= horizon -> q_used w < allowance (spec w) ->
  allowance (spec w) <= u64_max -> win_ok now (now :: l) (count_one w).
Proof.
  intros Hw Hlt Hn Hu Hmax Hc. cbn [count_one spec] in Hc. destruct (Hw Hc) as ((c & H1 & H2 & H3) & H4 & H5).
  cbn [count_one spec q_used reset_unix]. set (k := kind (spec w)) in *.
  assert (Hp : period k now = period k c) by (apply reset_period; [done|lia|lia|by rewrite <- H2]).
  assert (Hcount : forall d, count_period k d (now :: l) = (if period k now =? d then 1 else 0) + count_period k d l).
  { intros d. unfold count_period. cbn [List.filter]. destruct (_ =? d); cbn [length]; lia. }
  split_and!.
  - exists c. split_and!; [done|done|]. rewrite Hcount, Hp, N.eqb_refl, saturating_add_exact by lia. lia.
  - by constructor.
  - intros d. rewrite Hcount. destruct (N.eqb_spec (period k now) d) as [<-|]; [|apply H5]. rewrite Hp, <- H3. lia.
Qed.

Hypothesis quota_valid : Forall (fun sp => valid_kind (kind sp) /\ allowance sp <= u64_max) (quota limits).

Definition windows_ok (t : N) (l : list N) (ws : list QuotaWindow) : Prop :=
  spec <$> ws = quota limits /\ Forall (win_ok t l) ws.
Definition key_ok (t : N) (l : list N) (k : KeyWindow) : Prop :=
  (quota_windows k = [] /\ l = []) \/ windows_ok t l (quota_windows k).

Lemma key_ok_later t t' l k : key_ok t l k -> t <= t' -> key_ok t' l k.
Proof.
  intros [H|[H1 H2]] Ht; [by left|right]. split; [done|]. eapply Forall_impl; [exact H2|]. simpl. intros w Hw. by eapply win_ok_later.
Qed.

Lemma open_windows_ok now l k : key_ok now l k -> windows_ok now l (quota_windows (open_windows limits now k)).
Proof.
  unfold open_windows. intros Hk. destruct (Nat.eqb_spec (length (quota_windows k)) (length (quota limits))) as [He|Hne].
  - destruct Hk as [[Hnil _]|Hk]; [|done]. rewrite Hnil in *. split; [|by apply Forall_nil].
    symmetry in He. by apply nil_length_inv in He as ->.
  - destruct Hk as [[_ ->]|[Hspec _]]; [|exfalso; apply Hne; by rewrite <- Hspec, length_fmap].
    cbn [quota_windows]. split.
    + rewrite <- list_fmap_compose. rewrite <- (list_fmap_id (quota limits)) at 2. by apply list_fmap_ext.
    + apply Forall_fmap, Forall_forall. intros sp _ Hc. cbn [new_window spec reset_unix q_used]. split_and!.
      * by exists now.
      * by apply Forall_nil.
      * intros d. apply N.le_0_l.
Qed.

Lemma valid_window ws w : spec <$> ws = quota limits -> w ∈ ws -> valid_kind (kind (spec w)) /\ allowance (spec w) <= u64_max.
Proof.
  intros Hs Hw. rewrite Forall_forall in quota_valid. apply quota_valid. rewrite <- Hs.
  apply list_elem_of_fmap. by exists w.
Qed.

Lemma roll_ok t now l w w' : win_ok t l w -> t <= now -> now <= horizon -> valid_kind (kind (spec w)) ->
  roll now w = Some w' -> win_ok now l w' /\ spec w' = spec w /\ now < reset_unix w'.
Proof.
  intros Hw Ht Hn Hk H. destruct (roll_terminates now w Hk Hn) as (w2 & H2 & Hr). rewrite H in H2. injection H2 as <-.
  split_and!; [by eapply win_ok_rolled|apply Hr|apply Hr].
Qed.

#[local] Opaque roll.

Lemma check_quota_cons now w ws : check_quota now (w :: ws) =
  match roll now w with
  | None => None
  | Some w =>
      if allowance (spec w) <=? q_used w then Some (w :: ws, Some (reset_unix w))
      else match check_quota now ws with None => None | Some (ws', r) => Some (w :: ws', r) end
  end.
Proof. reflexivity. Qed.

Lemma check_quota_ok t now l ws ws' r : Forall (win_ok t l) ws -> t <= now -> now <= horizon ->
  (forall w, w ∈ ws -> valid_kind (kind (spec w))) -> check_quota now ws = Some (ws', r) ->
  spec <$> ws' = spec <$> ws /\ Forall (win_ok now l) ws' /\
  (r = None -> Forall (fun w => now < reset_unix w /\ q_used w < allowance (spec w)) ws').
Proof.
  intros Hws Ht Hn Hv. revert ws' r. induction Hws as [|w ws Hw Hws IH]; intros ws' r H; [|rewrite check_quota_cons in H].
  { injection H as <- <-. split_and!; [done|by apply Forall_nil|intros _; by apply Forall_nil]. }
  destruct (roll now w) as [w1|] eqn:Er; [|done].
  destruct (roll_ok _ _ _ _ _ Hw Ht Hn (Hv w ltac:(left)) Er) as (H1 & H2 & H3).
  destruct (N.leb_spec (allowance (spec w1)) (q_used w1)) as [|Hlt].
  - injection H as <- <-. cbn [fmap list_fmap]. rewrite H2. split_and!; [done| |done]. constructor; [done|].
    eapply Forall_impl; [exact Hws|]. simpl. intros x Hx. by eapply win_ok_later.
  - destruct (check_quota now ws) as [[ws1 r1]|]; [|done]. injection H as <- <-.
    destruct (IH ltac:(intros x Hx; apply Hv; by right) _ _ eq_refl) as (K1 & K2 & K3). cbn [fmap list_fmap].
    rewrite H2, K1. split_and!; [done|by constructor|]. intros Hr. constructor; [done|by apply K3].
Qed.

Lemma mapM_roll_ok t now l ws ws' : Forall (win_ok t l) ws -> t <= now -> now <= horizon ->
  (forall w, w ∈ ws -> valid_kind (kind (spec w))) -> mapM (roll now) ws = Some ws' ->
  spec <$> ws' = spec <$> ws /\ Forall (win_ok now l) ws'.
Proof.
  intros Hws Ht Hn Hv H. apply mapM_Some in H. revert Hws Hv. induction H as [|w w' ws ws' Hr Hrest IH]; intros Hws Hv; [done|].
  inversion Hws as [|? ? Hw Hws']; subst. destruct (roll_ok _ _ _ _ _ Hw Ht Hn (Hv w ltac:(left)) Hr) as (H1 & H2 & _).
  destruct (IH Hws' ltac:(intros x Hx; apply Hv; by right)) as [H3 H4]. cbn [fmap list_fmap]. rewrite H2, H3. split; [done|by constructor].
Qed.

(** What an acquisition does to the quota windows of its scope. *)
Lemma try_acquire_quota now scope i res i' : try_acquire limits now scope i = Some (res, i') ->
  let k := key_of i scope in let k' := key_of i' scope in
  match res with
  | Ok _ => exists ws, check_quota now (quota_windows (open_windows limits now k)) = Some (ws, None) /\
              quota_windows k' = count_one <$> ws
  | Err _ => quota_windows k' = quota_windows k \/
             exists ws r, check_quota now (quota_windows (open_windows limits now k)) = Some (ws, r) /\ quota_windows k' = ws
  end.
Proof.
  assert (Ht : quota_windows (tumble limits now (key_of i scope)) = quota_windows (key_of i scope)).
  { unfold tumble. by destruct (_ <=? _). }
  assert (Ho : quota_windows (open_windows limits now (tumble limits now (key_of i scope))) =
               quota_windows (open_windows limits now (key_of i scope))).
  { unfold open_windows. rewrite Ht. by destruct (_ =? _)%nat. }
  assert (Hset : forall k, key_of (set_key i scope k) scope = k) by (intros k; by rewrite key_of_set, decide_True).
  unfold try_acquire. destruct (_ <=? global_in_flight i); [intros [= <- <-]; by left|].
  destruct (_ <=? in_flight _); [intros [= <- <-]; cbv zeta; rewrite Hset; by left|].
  destruct (_ <=? used _); [intros [= <- <-]; cbv zeta; rewrite Hset; by left|].
  rewrite Ho. destruct (check_quota _ _) as [[ws [reset|]]|] eqn:E; [| |done]; intros [= <- <-]; cbv zeta.
  - rewrite Hset. right. by exists ws, (Some reset).
  - exists ws. split; [done|]. unfold key_of. cbn [keys]. by rewrite lookup_insert_eq.
Qed.

Definition all_counted (t : N) (w : World) : Prop := forall s, key_ok t (times s (admitted w)) (key_of (inner w) s).

Lemma release_quota scope i s : quota_windows (key_of (release scope i) s) = quota_windows (key_of i s).
Proof.
  unfold release, key_of. cbn [keys]. destruct (keys i !! scope) as [k|] eqn:E; [|done].
  destruct (decide (s = scope)) as [->|]; [by rewrite lookup_insert_eq, E|by rewrite lookup_insert_ne].
Qed.

Lemma acquire_counted t w scope now res i : all_counted t w -> t <= now -> now <= horizon ->
  try_acquire limits now scope (inner w) = Some (res, i) ->
  key_ok now (match res with Ok _ => now :: times scope (admitted w) | Err _ => times scope (admitted w) end) (key_of i scope).
Proof.
  intros Hw Hle Hn E. apply try_acquire_quota in E. cbv zeta in E.
  pose proof (key_ok_later _ _ _ _ (Hw scope) Hle) as Hk. destruct (open_windows_ok now _ _ Hk) as [Hsp Hall].
  assert (Hv : forall x, x ∈ quota_windows (open_windows limits now (key_of (inner w) scope)) -> valid_kind (kind (spec x))).
  { intros x Hx. by eapply valid_window. }
  destruct res as [[]|d].
  - destruct E as (ws & Hc & Hq). destruct (check_quota_ok _ _ _ _ _ _ Hall (N.le_refl now) Hn Hv Hc) as (H1 & H2 & H3).
    right. rewrite Hq. split.
    + rewrite <- list_fmap_compose. rewrite <- Hsp, <- H1. by apply list_fmap_ext.
    + apply Forall_fmap, Forall_forall. intros x Hx. specialize (H3 eq_refl). rewrite Forall_forall in H2, H3.
      destruct (H3 x Hx). apply win_ok_count; auto. eapply valid_window; [|exact Hx]. congruence.
  - destruct E as [Hq|(ws & r & Hc & Hq)]; [unfold key_ok; by rewrite Hq|].
    destruct (check_quota_ok _ _ _ _ _ _ Hall (N.le_refl now) Hn Hv Hc) as (H1 & H2 & _). right. rewrite Hq. split; [congruence|done].
Qed.

Lemma step_counted t w e w' es : all_counted t w -> timed t (e :: es) -> step w e = Some w' ->
  exists t', all_counted t' w' /\ timed t' es.
Proof.
  intros Hw Ht H. destruct e as [scope now|scope now|scope]; cbn [step timed] in *.
  - destruct Ht as (Hle & Hn & Hes). exists now. split; [|done].
    destruct (try_acquire limits now scope (inner w)) as [[res i]|] eqn:E; [|done].
    pose proof (acquire_counted _ _ _ _ _ _ Hw Hle Hn E) as Hsc. apply try_acquire_rate in E as [Hother _].
    destruct res as [[]|d]; injection H as <-; intros s; cbn [admitted inner]; rewrite ?times_cons;
      (destruct (decide (s = scope)) as [->|Hne]; [rewrite ?bool_decide_true by done; done|]);
      rewrite ?bool_decide_false by done; rewrite Hother by done; by eapply key_ok_later.
  - destruct Ht as (Hle & Hn & Hes). exists now. split; [|done].
    apply fmap_Some in H as ([st i] & E & ->). pose proof (scope_status_rate _ _ _ _ _ E) as [Hother _]. intros s. cbn [admitted inner snd].
    destruct (decide (s = scope)) as [->|Hne]; [|rewrite Hother by done; by eapply key_ok_later].
    unfold scope_status in E. destruct (mapM _ _) as [ws|] eqn:Em; [|done]. injection E as _ <-. rewrite key_of_set, decide_True by done.
    right. cbn [quota_windows]. pose proof (key_ok_later _ _ _ _ (Hw scope) Hle) as Hk.
    assert (Hk' : key_ok now (times scope (admitted w)) (tumble limits now (key_of (inner w) scope))).
    { unfold key_ok, tumble in *. by destruct (_ <=? _). }
    destruct (open_windows_ok now _ _ Hk') as [Hsp Hall].
    assert (Hv : forall x, x ∈ quota_windows (open_windows limits now (tumble limits now (key_of (inner w) scope))) -> valid_kind (kind (spec x))).
    { intros x Hx. by eapply valid_window. }
    destruct (mapM_roll_ok now now _ _ _ Hall (N.le_refl now) Hn Hv Em) as [H1 H2]. split; [congruence|done].
  - exists t. split; [|done]. case_bool_decide; injection H as <-; [|done]. intros s. cbn [admitted inner].
    unfold key_ok. rewrite release_quota. apply Hw.
Qed.

(** C11. A declared plan is never overspent: under any history, no UTC day of a daily quota
    and no Monday-to-Sunday week of a weekly one holds more admissions of a key than the
    quota's allowance. *)
Theorem quota_is_respected es w s sp d : timed 0 es -> run World_default es = Some w ->
  In sp (quota limits) -> calendar (kind sp) ->
  count_period (kind sp) d (times s (admitted w)) <= allowance sp.
Proof.
  intros Ht H Hsp Hcal. assert (Hw : exists t, all_counted t w).
  { assert (H0 : all_counted 0 World_default) by (intros s'; by left).
    revert H0 Ht H. generalize 0 World_default. induction es as [|e es IH]; intros t w0 H0 Ht H; [injection H as <-; by exists t|].
    cbn [run] in H. destruct (step w0 e) as [w1|] eqn:E; [|done].
    destruct (step_counted _ _ _ _ _ H0 Ht E) as (t' & H1 & H2). by eapply IH. }
  destruct Hw as (t & Hw). destruct (Hw s) as [[_ ->]|[Hspec Hall]]; [apply N.le_0_l|].
  rewrite <- Hspec in Hsp. apply list_elem_of_In, list_elem_of_fmap in Hsp as (win & -> & Hwin).
  rewrite Forall_forall in Hall. by apply (Hall win Hwin Hcal).
Qed.
End Runs.

(** ** Concrete keys *)

Definition plan : ArbiterLimits := mkLimits 2 3 60 4 [mkSpec DailyUtc 4].
Definition busy_day : list Event :=
  [Acquire "k" 100; Acquire "k" 110; DropPermit "k"; Acquire "k" 120; DropPermit "k"; DropPermit "k"; Acquire "k" 130;
   Acquire "k" 170; DropPermit "k"; Acquire "k" 86399; DropPermit "k"; Acquire "k" 86400].

Lemma roll_terminates_witness : exists w', roll 1000000 (mkQuota (mkSpec (Rolling 7) 5) 5 100) = Some w' /\ 1000000 < reset_unix w'.
Proof.
  destruct (roll_terminates 1000000 (mkQuota (mkSpec (Rolling 7) 5) 5 100)) as (w' & H & Hr).
  - reflexivity.
  - vm_compute. discriminate.
  - exists w'. split; [exact H|]. apply Hr.
Defined.

Lemma concurrency_is_exact_witness :
  match run plan World_default [Acquire "k" 100; Acquire "k" 110] with
  | Some w => held "k" (permits w) <= 2
  | None => False
  end.
Proof.
  destruct (run plan World_default [Acquire "k" 100; Acquire "k" 110]) as [w|] eqn:E.
  - refine (proj1 (proj2 (concurrency_is_exact plan _ _ w E)) "k"). vm_compute. split; discriminate.
  - vm_compute in E. discriminate.
Defined.

Lemma rate_is_bounded_witness :
  match run plan World_default busy_day with
  | Some w => count_in 110 60 (times "k" (admitted w)) <= 6
  | None => False
  end.
Proof.
  destruct (run plan World_default busy_day) as [w|] eqn:E.
  - apply (rate_is_bounded plan ltac:(vm_compute; split; discriminate) ltac:(reflexivity) ltac:(vm_compute; discriminate)
      busy_day w "k" 110); [|exact E]. vm_compute. intuition discriminate.
  - vm_compute in E. discriminate.
Defined.

Lemma quota_is_respected_witness :
  match run plan World_default busy_day with
  | Some w => count_period DailyUtc 0 (times "k" (admitted w)) <= 4
  | None => False
  end.
Proof.
  destruct (run plan World_default busy_day) as [w|] eqn:E.
  - refine (quota_is_respected plan ltac:(vm_compute; split; discriminate) ltac:(reflexivity) ltac:(vm_compute; discriminate)
      _ busy_day w "k" (mkSpec DailyUtc 4) 0 _ E _ I).
    + repeat constructor; vm_compute; discriminate.
    + vm_compute. intuition discriminate.
    + by left.
  - vm_compute in E. discriminate.
Defined.

(** The window tumbles: four requests of a key within sixty seconds pass a bound of three. *)
Lemma window_does_not_slide :
  match run (mkLimits 9 3 60 9 []) World_default
          [Acquire "k" 100; Acquire "k" 158; Acquire "k" 159; Acquire "k" 160; Acquire "k" 161] with
  | Some w => times "k" (admitted w) = [161; 160; 159; 158; 100]
  | None => False
  end.
Proof. vm_compute. reflexivity. Qed.

(** A window that is wholly spent reports no utilization: the bound is taken before the
    division. *)
Lemma spent_window_reads_as_free : utilization_percent (mkView DailyUtc 0 1000 86400) = 0.
Proof. vm_compute. reflexivity. Qed.

(** A rolling window of no length never stops rolling. *)
Lemma empty_period_never_rolls k n w : reset_unix w <= k ->
  kind (spec w) = Rolling 0 -> reset_unix w <= u64_max ->
  while_pow n (fun w => reset_unix w <=? k) roll_once w = inl (mkQuota (spec w) 0 (reset_unix w)).
Proof.
  intros H1 H2 H3. assert (Hone : roll_once w = mkQuota (spec w) 0 (reset_unix w)).
  { unfold roll_once. rewrite H2. cbn [reset_after]. by rewrite saturating_add_exact, N.add_0_r by lia. }
  revert w H1 H2 H3 Hone. induction n as [|n IH]; intros w H1 H2 H3 Hone; cbn [while_pow].
  - by rewrite (proj2 (N.leb_le _ _) H1), Hone.
  - rewrite IH by done. apply (IH (mkQuota (spec w) 0 (reset_unix w))); [done..|].
    unfold roll_once. cbn [spec reset_unix]. rewrite H2. cbn [reset_after]. by rewrite saturating_add_exact, N.add_0_r by lia.
Qed.
