(* ===== verification/Pacer.v ===== *)
(** * Pacer: per-provider pacing
    ([crates/susi-harness/src/ratelimit.rs])

    A [Pacer] keeps one [Lane] per provider: the starts reserved in the sliding minute,
    the tokens of the last finished calls, and the end of a [Retry-After] pause.  A call
    reserves a start and waits for it; a reservation dropped before its call goes gives
    the slot back.

    The clock is an argument.  [VecDeque::partition_point] searches a deque that the lane
    keeps sorted; it is the length of the prefix that satisfies the predicate.  The
    environment that [secrets::setting] reads is the parameter [setting]. *)

From S2P Require Import Prelude Money.

Local Open Scope string_scope.
Local Open Scope list_scope.
Local Open Scope N_scope.

Definition WINDOW_MS : N := 60000.
Definition MAX_PAUSE_MS : N := 120000.

(** ** Lanes *)

Record Limits : Type := mkLimits {
  rpm : option N;
  tpm : option N;
}.
Record Lane : Type := mkLane {
  limits : option Limits;
  calls : list N;
  tokens : list (N * N);
  paused_until : N;
}.
Definition Lane_default : Lane := mkLane None [] [] 0.

(** [while front().is_some_and(p) { pop_front() }] *)
Fixpoint pop_while {A} (p : A -> bool) (l : list A) : list A :=
  match l with
  | [] => []
  | x :: l' => if p x then pop_while p l' else l
  end.

Fixpoint partition_point {A} (p : A -> bool) (l : list A) : nat :=
  match l with
  | [] => 0%nat
  | x :: l' => if p x then S (partition_point p l') else 0%nat
  end.

(** [VecDeque::insert]. *)
Definition insert_at {A} (i : nat) (x : A) (l : list A) : list A := take i l ++ x :: drop i l.

(** The loop that lets tokens age out until the total is under the cap. *)
Fixpoint age_tokens (tpm used start : N) (toks : list (N * N)) : N :=
  match toks with
  | [] => start
  | (at_, t) :: toks' =>
      if used <? tpm then start
      else age_tokens tpm (used - t) (N.max start (saturating_add at_ WINDOW_MS)) toks'
  end.

(** [tokens.iter().map(..).sum::<u64>()]. *)
Definition sum_tokens (toks : list (N * N)) : N := sum_u64 toks.*2.

(** [Option::filter(|cap| *cap > 0)]. *)
Definition positive (cap : option N) : option N :=
  match cap with Some n => if 0 <? n then Some n else None | None => None end.

Section Configuration.
Variable setting : string -> option rstr.

Definition upper (c : Ascii.ascii) : Ascii.ascii :=
  let n := Ascii.nat_of_ascii c in
  if (97 <=? n)%nat && (n <=? 122)%nat then Ascii.ascii_of_nat (n - 32) else c.
Definition is_alphanumeric (c : Ascii.ascii) : bool :=
  let n := Ascii.nat_of_ascii c in
  ((48 <=? n) && (n <=? 57) || (65 <=? n) && (n <=? 90) || (97 <=? n) && (n <=? 122))%nat.
(** [balance::env_suffix], on ASCII identifiers. *)
Fixpoint env_suffix (id : string) : string :=
  match id with
  | EmptyString => EmptyString
  | String c s => String (if is_alphanumeric c then upper c else Ascii.ascii_of_nat 95) (env_suffix s)
  end.

(** [str::parse::<u64>]: an optional plus sign, then digits. *)
Definition parse_u64 (s : rstr) : option N :=
  let digits := match s with c :: s' => if c =? 43 then s' else s | [] => [] end in
  match digits with
  | [] => None
  | _ => if forallb is_ascii_digit digits then parse_digits 0 digits else None
  end.

Definition read (name : string) : option N := s ← setting name; parse_u64 (trim s).
Definition configured (provider : string) : Limits :=
  let upper := env_suffix provider in
  {| rpm := (v ← read ("SUSI_HARNESS_RPM_" +:+ upper); if v <=? u32_max then Some v else None);
     tpm := read ("SUSI_HARNESS_TPM_" +:+ upper) |}.

(** [Lane::next_start]: the moved lane and the start. *)
Definition next_start (l : Lane) (provider : string) (now_ms : N) (given : option Limits) : Lane * N :=
  let lim := match limits l with
             | Some lim => lim
             | None => match given with Some lim => lim | None => configured provider end
             end in
  let horizon := now_ms - WINDOW_MS in
  let cs := pop_while (fun start => start <? horizon) (calls l) in
  let ts := pop_while (fun e => e.1 <? horizon) (tokens l) in
  let start := N.max now_ms (paused_until l) in
  let start :=
    match positive (rpm lim) with
    | Some n =>
        let n := N.to_nat n in
        if (n <=? length cs)%nat then
          match cs !! (length cs - n)%nat with
          | Some oldest => N.max start (saturating_add oldest WINDOW_MS)
          | None => start
          end
        else start
    | None => start
    end in
  let start :=
    match positive (tpm lim) with
    | Some n => age_tokens n (sum_tokens ts) start ts
    | None => start
    end in
  (mkLane (Some lim) cs ts (paused_until l), start).

(** [Lane::take]. *)
Definition take_start (start : N) (l : Lane) : Lane :=
  mkLane (limits l) (insert_at (partition_point (fun r => r <=? start) (calls l)) start (calls l))
    (tokens l) (paused_until l).

(** ** The pacer *)

Definition Pacer : Type := gmap string Lane.

Record Reservation : Type := mkReservation {
  r_provider : string;
  r_start : N;
  r_wait_ms : N;
}.

(** [lanes.entry(provider).or_default()]. *)
Definition lane_of (p : Pacer) (provider : string) : Lane := default Lane_default (p !! provider).

Definition hold (p : Pacer) (provider : string) (now_ms : N) (given : option Limits) : Pacer * Reservation :=
  let '(lane, start) := next_start (lane_of p provider) provider now_ms given in
  (<[provider := take_start start lane]> p, mkReservation provider start (start - now_ms)).

Definition hold_within (p : Pacer) (provider : string) (now_ms : N) (given : option Limits)
    (max_wait_ms : N) : Pacer * result Reservation N :=
  let '(lane, start) := next_start (lane_of p provider) provider now_ms given in
  let wait_ms := start - now_ms in
  if max_wait_ms <? wait_ms then (<[provider := lane]> p, Err wait_ms)
  else (<[provider := take_start start lane]> p, Ok (mkReservation provider start wait_ms)).

Definition release_calls (start : N) (cs : list N) : list N :=
  let position := partition_point (fun reserved => reserved <? start) cs in
  if decide (cs !! position = Some start) then delete position cs else cs.
Definition release (p : Pacer) (provider : string) (start : N) : Pacer :=
  match p !! provider with
  | Some lane => <[provider := mkLane (limits lane) (release_calls start (calls lane)) (tokens lane) (paused_until lane)]> p
  | None => p
  end.

(** [Drop for Reservation], with the [kept] flag; [keep] sets it and drops. *)
Definition drop_reservation (p : Pacer) (r : Reservation) (kept : bool) : Pacer :=
  if kept then p else release p (r_provider r) (r_start r).

Definition reserve (p : Pacer) (provider : string) (now_ms : N) (given : option Limits) : Pacer * N :=
  let '(p, r) := hold p provider now_ms given in
  (drop_reservation p r true, r_wait_ms r).

Definition record_tokens (p : Pacer) (provider : string) (at_ms n : N) : Pacer :=
  let lane := lane_of p provider in
  let position := partition_point (fun e => e.1 <=? at_ms) (tokens lane) in
  <[provider := mkLane (limits lane) (calls lane) (insert_at position (at_ms, n) (tokens lane)) (paused_until lane)]> p.

Definition pause (p : Pacer) (provider : string) (now_ms retry_after_ms : N) : Pacer :=
  let lane := lane_of p provider in
  let until := saturating_add now_ms (N.min retry_after_ms MAX_PAUSE_MS) in
  <[provider := mkLane (limits lane) (calls lane) (tokens lane) (N.max (paused_until lane) until)]> p.
End Configuration.

(** [retry_after_ms]: a [Retry-After] header in milliseconds. *)
Fixpoint millis_of (k : nat) (acc : N) (rest : rstr) : N * rstr :=
  match k with
  | O => (acc, rest)
  | S k' => match rest with
            | [] => millis_of k' (acc * 10) []
            | b :: rest' => millis_of k' (acc * 10 + (b - 48)) rest'
            end
  end.
Definition retry_after_ms (value : rstr) : option N :=
  let text := trim value in
  let '(whole, fraction) := match split_once 46 text with Some p => p | None => (text, []) end in
  if match whole with [] => true | _ => false end || negb (forallb is_ascii_digit whole)
     || negb (forallb is_ascii_digit fraction) then None
  else
    seconds ← parse_u64 whole;
    let '(millis, rest) := millis_of 3 0 fraction in
    let millis := if existsb (fun b => negb (b =? 48)) rest then millis + 1 else millis in
    Some (saturating_add (saturating_mul seconds 1000) millis).

Definition no_env (_ : string) : option rstr := None.
Definition rpm_only (n : N) : Limits := mkLimits (Some n) None.

Example retry_after_1 : retry_after_ms (rs " 1.5001 ") = Some 1501.
Proof. reflexivity. Qed.
Example retry_after_date : retry_after_ms (rs "Wed, 21 Oct") = None.
Proof. reflexivity. Qed.
Example configured_name :
  configured (fun name => if decide (name = "SUSI_HARNESS_RPM_ACME_V2") then Some (rs " 10 ") else None) "acme.v2"
  = rpm_only 10.
Proof. reflexivity. Qed.
Example third_call_waits :
  let p0 : Pacer := ∅ in
  let '(p1, a) := reserve no_env p0 "x" 100000 (Some (rpm_only 2)) in
  let '(p2, b) := reserve no_env p1 "x" 100010 None in
  let '(p3, c) := reserve no_env p2 "x" 100020 None in
  (a, b, c) = (0, 0, 59980).
Proof. reflexivity. Qed.

(** ** Sorted deques *)

Section SortedDeque.
Context {A : Type} (key : A -> N).
Implicit Types (l : list A) (x : A).

Definition sorted_by l : Prop := StronglySorted (fun a b => key a <= key b) l.

Lemma pop_while_sorted h l : sorted_by l ->
  pop_while (fun x => key x <? h) l = filter (fun x => h <= key x) l.
Proof.
  induction 1 as [|x l Hs IH Hall]; [done|]. cbn [pop_while].
  destruct (N.ltb_spec (key x) h) as [Hlt|Hge].
  - rewrite filter_cons_False by lia. done.
  - rewrite filter_cons_True by done. f_equal. symmetry. apply filter_every.
    intros y Hy. rewrite Forall_forall in Hall. specialize (Hall y Hy). lia.
Qed.

Lemma insert_at_perm i x l : insert_at i x l ≡ₚ x :: l.
Proof. unfold insert_at. by rewrite <- Permutation_middle, take_drop. Qed.

Lemma insert_at_sorted x l : sorted_by l ->
  sorted_by (insert_at (partition_point (fun r => key r <=? key x) l) x l).
Proof.
  induction 1 as [|y l Hs IH Hall]; [repeat constructor|]. cbn [partition_point].
  destruct (N.leb_spec (key y) (key x)) as [Hle|Hgt].
  - change (insert_at (S ?i) x (y :: l)) with (y :: insert_at i x l).
    constructor; [done|]. rewrite insert_at_perm. by constructor.
  - constructor; [by constructor|]. constructor; [lia|].
    eapply Forall_impl; [exact Hall|]. cbn. intros. lia.
Qed.

(** On a sorted list an upward-closed predicate holds of a position exactly when it holds
    of as many elements as the list has from there on. *)
Lemma count_threshold (P : A -> Prop) `{forall x, Decision (P x)} l i x :
  (forall a b, key a <= key b -> P a -> P b) -> sorted_by l -> l !! i = Some x ->
  P x <-> (length l - i <= length (filter P l))%nat.
Proof.
  intros Hup Hs. revert i. induction Hs as [|a l Hs IH Hall]; intros i Hi; [done|].
  rewrite Forall_forall in Hall. destruct i as [|i]; cbn in Hi.
  - injection Hi as ->. destruct (decide (P x)) as [Hx|Hx].
    + rewrite filter_every; [split; [cbn; lia|done]|].
      intros y [->|Hy]%elem_of_cons; [done|]. by apply (Hup x); [apply Hall|].
    + rewrite filter_cons_False by done. pose proof (length_filter P l). cbn. split; [done|lia].
  - specialize (IH i Hi). cbn [length]. destruct (decide (P a)) as [Ha|Ha].
    + rewrite filter_cons_True by done. cbn [length].
      assert (P x) by (eapply Hup, Ha; apply Hall; by eapply list_elem_of_lookup_2).
      split; [intros; apply IH in H0; lia|done].
    + rewrite filter_cons_False by done. exact IH.
Qed.
End SortedDeque.

Notation sorted_calls := (sorted_by (fun x : N => x)).
Notation sorted_tokens := (sorted_by (fun e : N * N => e.1)).

Lemma release_calls_in x cs : sorted_calls cs -> x ∈ cs -> cs ≡ₚ x :: release_calls x cs.
Proof.
  intros Hs Hin. unfold release_calls.
  assert (cs !! partition_point (fun r => r <? x) cs = Some x) as E.
  { induction Hs as [|y l Hs IH Hall]; [by apply not_elem_of_nil in Hin|]. cbn [partition_point].
    rewrite Forall_forall in Hall. apply elem_of_cons in Hin. destruct (N.ltb_spec y x) as [Hlt|Hge].
    - cbn. apply IH. destruct Hin as [->|Hin]; [lia|done].
    - cbn. f_equal. destruct Hin as [->|Hin]; [done|]. specialize (Hall x Hin). lia. }
  rewrite decide_True by done. by apply delete_Permutation.
Qed.

Lemma release_calls_notin x cs : x ∉ cs -> release_calls x cs = cs.
Proof.
  intros Hin. unfold release_calls. rewrite decide_False; [done|].
  intros E. by apply Hin, (list_elem_of_lookup_2 _ _ _ E).
Qed.

Lemma delete_sorted {A} (key : A -> N) i l : sorted_by key l -> sorted_by key (delete i l).
Proof.
  intros Hs. revert i. induction Hs as [|x l Hs IH Hall]; intros [|i]; cbn; [constructor|constructor|done|].
  constructor; [apply IH|]. rewrite Forall_forall in Hall |- *. intros y Hy. apply Hall.
  by eapply list_elem_of_delete_inv.
Qed.

Lemma release_calls_sorted x cs : sorted_calls cs -> sorted_calls (release_calls x cs).
Proof. intros Hs. unfold release_calls. case_decide; [by apply delete_sorted|done]. Qed.

(** ** When a call may start *)

(** Tokens whose minute has not passed at [s]. *)
Definition served (s : N) (toks : list (N * N)) : N :=
  foldr (fun e acc => (if s <? saturating_add e.1 WINDOW_MS then e.2 else 0) + acc) 0 toks.
Definition total_tokens (toks : list (N * N)) : N := sum_of toks.*2.

(** A call may start at [s]: not in the past, not in a pause, with fewer than [rpm] reserved
    starts less than a minute back (or ahead), and fewer than [tpm] tokens in that minute. *)
Definition admissible (lim : Limits) (l : Lane) (now s : N) : Prop :=
  now <= s /\ paused_until l <= s /\
  (forall n, positive (rpm lim) = Some n ->
     N.of_nat (length (filter (fun c => s < saturating_add c WINDOW_MS) (calls l))) < n) /\
  (forall n, positive (tpm lim) = Some n -> served s (tokens l) < n).

Definition lane_ok (l : Lane) : Prop := sorted_calls (calls l) /\ sorted_tokens (tokens l).

Lemma sum_tokens_exact toks : total_tokens toks <= u64_max -> sum_tokens toks = total_tokens toks.
Proof. apply sum_u64_exact. Qed.

Lemma total_tokens_cons e toks : total_tokens (e :: toks) = e.2 + total_tokens toks.
Proof. done. Qed.

Lemma served_le s toks : served s toks <= total_tokens toks.
Proof.
  induction toks as [|e toks IH]; [done|]. rewrite total_tokens_cons. cbn [served foldr].
  fold (served s toks). destruct (_ <? _); lia.
Qed.

Lemma served_all s toks : (forall e, e ∈ toks -> s < saturating_add e.1 WINDOW_MS) ->
  served s toks = total_tokens toks.
Proof.
  induction toks as [|e toks IH]; intros H; [done|]. rewrite total_tokens_cons. cbn [served foldr].
  fold (served s toks). rewrite IH by (intros; apply H; by right).
  rewrite (proj2 (N.ltb_lt _ _)); [done|]. apply H. left.
Qed.

Lemma window_up s a b : a <= b -> s < saturating_add a WINDOW_MS -> s < saturating_add b WINDOW_MS.
Proof. unfold saturating_add. lia. Qed.

Lemma age_tokens_spec n start toks s : 0 < n -> sorted_tokens toks ->
  age_tokens n (total_tokens toks) start toks <= s <-> start <= s /\ served s toks < n.
Proof.
  intros Hn Hs. revert start. induction Hs as [|[at_ t] toks Hs IH Hall]; intros start.
  { cbn. lia. }
  cbn [age_tokens]. destruct (N.ltb_spec (total_tokens ((at_, t) :: toks)) n) as [Hlt|Hge].
  { pose proof (served_le s ((at_, t) :: toks)). lia. }
  replace (total_tokens ((at_, t) :: toks) - t) with (total_tokens toks)
    by (rewrite total_tokens_cons; cbn [snd]; lia).
  rewrite IH. destruct (N.ltb_spec s (saturating_add at_ WINDOW_MS)) as [Hin|Hout].
  - rewrite (served_all s (_ :: _)); [lia|]. rewrite Forall_forall in Hall. cbn [fst] in Hall.
    intros e [->|He]%elem_of_cons; [done|]. by apply (window_up s at_), Hin; apply Hall.
  - cbn [served foldr fst]. rewrite (proj2 (N.ltb_ge _ _)) by done. fold (served s toks). lia.
Qed.

Lemma rpm_floor_spec n start cs s : 0 < n -> sorted_calls cs ->
  (if (N.to_nat n <=? length cs)%nat then
     match cs !! (length cs - N.to_nat n)%nat with
     | Some oldest => N.max start (saturating_add oldest WINDOW_MS)
     | None => start
     end
   else start) <= s <->
  start <= s /\ N.of_nat (length (filter (fun c => s < saturating_add c WINDOW_MS) cs)) < n.
Proof.
  intros Hn Hs. destruct (Nat.leb_spec (N.to_nat n) (length cs)) as [Hle|Hgt].
  - destruct (cs !! (length cs - N.to_nat n)%nat) as [oldest|] eqn:E.
    2:{ apply lookup_ge_None_1 in E. lia. }
    pose proof (count_threshold (fun x => x) (fun c => s < saturating_add c WINDOW_MS) cs _ oldest
      (window_up s) Hs E) as Hth.
    cbn beta in Hth. lia.
  - pose proof (length_filter (fun c => s < saturating_add c WINDOW_MS) cs). lia.
Qed.

Lemma filter_filter_imp {A} (P Q : A -> Prop) `{forall x, Decision (P x), forall x, Decision (Q x)} (l : list A) :
  (forall x, Q x -> P x) -> filter Q (filter P l) = filter Q l.
Proof.
  intros Hi. rewrite list_filter_filter. apply list_filter_iff. intros x. split; [tauto|auto].
Qed.

Lemma served_popped s h toks : h + WINDOW_MS <= s \/ h = 0 ->
  served s (filter (fun e => h <= e.1) toks) = served s toks.
Proof.
  intros Hh. induction toks as [|e toks IH]; [done|]. cbn [served foldr]. fold (served s toks).
  destruct (decide (h <= e.1)) as [He|He].
  - rewrite filter_cons_True by done. cbn [served foldr]. by rewrite <- IH.
  - rewrite filter_cons_False by done. rewrite IH. rewrite (proj2 (N.ltb_ge _ _)); [done|].
    unfold saturating_add. lia.
Qed.

Lemma total_tokens_filter (P : N * N -> Prop) `{forall e, Decision (P e)} toks :
  total_tokens (filter P toks) <= total_tokens toks.
Proof.
  induction toks as [|e toks IH]; [done|]. rewrite total_tokens_cons. destruct (decide (P e)).
  - rewrite filter_cons_True by done. rewrite total_tokens_cons. lia.
  - rewrite filter_cons_False by done. lia.
Qed.

Lemma positive_Some o n : positive o = Some n <-> o = Some n /\ 0 < n.
Proof.
  unfold positive. destruct o as [m|]; [|naive_solver]. destruct (N.ltb_spec 0 m); naive_solver lia.
Qed.

Section NextStart.
Variable setting : string -> option rstr.

(** The caps a lane's next call is held to. *)
Definition caps (l : Lane) (provider : string) (given : option Limits) : Limits :=
  match limits l, given with
  | Some lim, _ => lim
  | None, Some lim => lim
  | None, None => configured setting provider
  end.

(** The lane a call leaves: its window moved, its caps read. *)
Definition moved (l : Lane) (provider : string) (now : N) (given : option Limits) : Lane :=
  mkLane (Some (caps l provider given))
    (filter (fun c => now - WINDOW_MS <= c) (calls l))
    (filter (fun e => now - WINDOW_MS <= e.1) (tokens l)) (paused_until l).

Lemma next_start_moved l provider now given : lane_ok l ->
  (next_start setting l provider now given).1 = moved l provider now given.
Proof.
  intros [Hc Ht]. unfold next_start, moved, caps. cbn [fst].
  rewrite (pop_while_sorted _ _ _ Hc), (pop_while_sorted _ _ _ Ht).
  by destruct (limits l), given.
Qed.

(** A call is given the earliest start its provider's caps allow: with the lane's deques
    sorted and its token counts in range, a time is admissible (not before the call or the
    pause, under the requests-per-minute and the tokens-per-minute caps) exactly when it is
    at or after the start [next_start] returns. *)
Theorem next_start_is_earliest (l : Lane) (provider : string) (now : N) (given : option Limits) (s : N) :
  lane_ok l -> total_tokens (tokens l) <= u64_max ->
  admissible (caps l provider given) l now s <-> (next_start setting l provider now given).2 <= s.
Proof.
  intros [Hc Ht] Hsum. unfold next_start, admissible. cbn [snd].
  rewrite (pop_while_sorted _ _ _ Hc), (pop_while_sorted _ _ _ Ht).
  set (h := now - WINDOW_MS). set (cs := filter (fun x => h <= x) (calls l)).
  set (ts := filter (fun e => h <= e.1) (tokens l)).
  rewrite (sum_tokens_exact ts) by (etrans; [apply total_tokens_filter|done]).
  change (match limits l with Some lim => lim | None => match given with Some lim => lim | None => configured setting provider end end)
    with (caps l provider given).
  assert (now <= s -> filter (fun c => s < saturating_add c WINDOW_MS) cs =
    filter (fun c => s < saturating_add c WINDOW_MS) (calls l)) as Hcalls.
  { intros Hs. apply filter_filter_imp. intros c. unfold saturating_add. subst h. lia. }
  assert (now <= s -> served s ts = served s (tokens l)) as Hserved.
  { intros Hs. apply served_popped. subst h. lia. }
  assert (sorted_calls cs) as Hcs by (by apply strongly_sorted_filter).
  assert (sorted_tokens ts) as Hts by (by apply strongly_sorted_filter).
  destruct (N.le_gt_cases now s) as [Hle|Hgt].
  - rewrite <- Hcalls, <- Hserved by done. clearbody cs ts. clear Hcalls Hserved.
    destruct (positive (tpm (caps l provider given))) as [m|] eqn:Em,
      (positive (rpm (caps l provider given))) as [n|] eqn:En;
      try (apply positive_Some in Em as [_ Em]; rewrite age_tokens_spec by done);
      try (apply positive_Some in En as [_ En]; rewrite rpm_floor_spec by done); naive_solver lia.
  - split; [lia|]. destruct (positive (tpm _)) as [m|] eqn:Em,
      (positive (rpm _)) as [n|] eqn:En;
      try (apply positive_Some in Em as [_ Em]; rewrite age_tokens_spec by done);
      try (apply positive_Some in En as [_ En]; rewrite rpm_floor_spec by done); lia.
Qed.
End NextStart.

(** ** Reservations over a run *)

Notation in_window t := (fun x : N => t <= x /\ x < t + WINDOW_MS).
Definition window_count (t : N) (starts : list N) : N := N.of_nat (length (filter (in_window t) starts)).

Lemma filter_length_imp {A} (P Q : A -> Prop) `{forall x, Decision (P x), forall x, Decision (Q x)} (l : list A) :
  (forall x, P x -> Q x) -> (length (filter P l) <= length (filter Q l))%nat.
Proof.
  intros Hi. rewrite <- (filter_filter_imp Q P l Hi). apply length_filter.
Qed.

Lemma age_tokens_ge n used start toks : start <= age_tokens n used start toks.
Proof.
  revert used start. induction toks as [|[at_ t] toks IH]; intros used start; cbn [age_tokens]; [done|].
  destruct (_ <? _); [done|]. etrans; [|apply IH]. lia.
Qed.

(** What a lane records of the starts [ss] its provider's reservations hold at [clock]. *)
Record lane_inv (clock : N) (l : Lane) (ss : list N) : Prop := {
  inv_ok : lane_ok l;
  inv_calls : exists h, h <= clock - WINDOW_MS /\ calls l ≡ₚ filter (fun x => h <= x) ss;
  inv_unread : limits l = None -> ss = [];
  inv_rpm : forall lim n t, limits l = Some lim -> positive (rpm lim) = Some n ->
    t + WINDOW_MS <= u64_max -> window_count t ss <= n;
}.

Lemma lane_inv_perm clock l ss ss' : ss ≡ₚ ss' -> lane_inv clock l ss -> lane_inv clock l ss'.
Proof.
  intros Hp [Hok (h & Hh & Hc) Hu Hr]. split; [done| | |].
  - exists h. split; [done|]. by rewrite <- Hp.
  - intros Hl. rewrite (Hu Hl) in Hp. by apply Permutation_nil_l in Hp.
  - intros lim n t Hl Hn Ht. unfold window_count. rewrite <- Hp. by eapply Hr.
Qed.

Lemma lane_inv_default clock : lane_inv clock Lane_default [].
Proof. split; [split; constructor|by exists 0; split; [lia|]|done|done]. Qed.

Lemma lane_inv_later clock clock' l ss : clock <= clock' -> lane_inv clock l ss -> lane_inv clock' l ss.
Proof. intros Hc [Hok (h & Hh & Hp) Hu Hr]. split; [done| |done|done]. exists h. split; [lia|done]. Qed.

Lemma release_lane_inv clock l x ss : lane_inv clock l (x :: ss) ->
  lane_inv clock (mkLane (limits l) (release_calls x (calls l)) (tokens l) (paused_until l)) ss.
Proof.
  intros [[Hc Ht] (h & Hh & Hp) Hu Hr]. split; cbn [limits calls tokens paused_until].
  - split; [by apply release_calls_sorted|done].
  - exists h. split; [done|]. destruct (decide (h <= x)) as [Hx|Hx].
    + rewrite filter_cons_True in Hp by done. apply (Permutation_cons_inv (a := x)).
      rewrite <- Hp. symmetry. apply release_calls_in; [done|]. rewrite Hp. left.
    + rewrite filter_cons_False in Hp by done. rewrite release_calls_notin; [done|].
      rewrite Hp. by intros [Hle _]%list_elem_of_filter.
  - intros Hl. by apply Hu in Hl.
  - intros lim n t Hl Hn Ht'. etrans; [|by apply (Hr lim n t)].
    unfold window_count. rewrite filter_cons. destruct (decide _); cbn [length]; lia.
Qed.

Section Runs.
Variable setting : string -> option rstr.

Lemma next_start_bounds l provider now given : lane_ok l ->
  now <= (next_start setting l provider now given).2 /\
  paused_until l <= (next_start setting l provider now given).2 /\
  (forall n, positive (rpm (caps setting l provider given)) = Some n ->
     N.of_nat (length (filter (fun c => (next_start setting l provider now given).2 < saturating_add c WINDOW_MS)
       (filter (fun c => now - WINDOW_MS <= c) (calls l)))) < n).
Proof.
  intros [Hc Ht]. unfold next_start. cbn [snd].
  rewrite (pop_while_sorted _ _ _ Hc). set (cs := filter _ (calls l)).
  assert (sorted_calls cs) as Hcs by (by apply strongly_sorted_filter).
  change (match limits l with Some lim => lim | None => match given with Some lim => lim | None => configured setting provider end end)
    with (caps setting l provider given).
  match goal with |- now <= ?s /\ _ => set (final := s) end.
  assert (forall start, start <= match positive (tpm (caps setting l provider given)) with
    | Some n => age_tokens n (sum_tokens (pop_while (fun e => e.1 <? now - WINDOW_MS) (tokens l))) start
                  (pop_while (fun e => e.1 <? now - WINDOW_MS) (tokens l)) | None => start end) as Hge.
  { intros start. destruct (positive (tpm _)); [apply age_tokens_ge|done]. }
  destruct (positive (rpm _)) as [n|] eqn:En.
  - specialize (Hge _ : _ <= final) as Hf. apply positive_Some in En as [_ En].
    apply rpm_floor_spec in Hf as [Hf Hlt]; [|done|done]. split_and!; [lia|lia|naive_solver].
  - specialize (Hge _ : _ <= final) as Hf. split_and!; [lia|lia|done].
Qed.

Lemma caps_read l provider given lim : limits l = Some lim -> caps setting l provider given = lim.
Proof. unfold caps. by intros ->. Qed.

(** Moving the window forgets only starts more than a minute back. *)
Lemma moved_calls clock now l ss provider given : lane_inv clock l ss -> clock <= now ->
  calls (moved setting l provider now given) ≡ₚ filter (fun x => now - WINDOW_MS <= x) ss.
Proof.
  intros [_ (h & Hh & Hp) _ _] Hc. cbn [moved calls]. rewrite Hp. by rewrite filter_filter_imp by (intros; lia).
Qed.

Lemma moved_ok l provider now given : lane_ok l -> lane_ok (moved setting l provider now given).
Proof. intros [Hc Ht]. split; by apply strongly_sorted_filter. Qed.

Lemma moved_lane_inv clock now l ss provider given : lane_inv clock l ss -> clock <= now ->
  lane_inv now (moved setting l provider now given) ss.
Proof.
  intros Hi Hc. split.
  - apply moved_ok, Hi.
  - exists (now - WINDOW_MS). split; [done|]. by eapply moved_calls.
  - done.
  - intros lim n t [= <-] Hn Ht. destruct (limits l) as [lim|] eqn:El.
    + rewrite (caps_read _ _ _ _ El) in Hn. by eapply inv_rpm.
    + rewrite (inv_unread _ _ _ Hi El). apply N.le_0_l.
Qed.

(** A new start keeps every minute within the cap. *)
Lemma take_lane_inv clock now l ss provider given : lane_inv clock l ss -> clock <= now ->
  let '(l', start) := next_start setting l provider now given in
  lane_inv now (take_start start l') (start :: ss).
Proof.
  intros Hi Hc. pose proof (inv_ok _ _ _ Hi) as Hok.
  pose proof (next_start_bounds l provider now given Hok) as (Hnow & _ & Hcap).
  pose proof (next_start_moved setting l provider now given Hok) as Hm.
  destruct (next_start setting l provider now given) as [l' x]. cbn [fst snd] in *. subst l'.
  pose proof (moved_lane_inv _ _ _ _ provider given Hi Hc) as Hmi.
  pose proof (moved_calls _ _ _ _ provider given Hi Hc) as Hmc.
  split; cbn [take_start limits calls tokens paused_until].
  - split; [exact (insert_at_sorted (fun x => x) x _ (proj1 (inv_ok _ _ _ Hmi)))|apply Hmi].
  - exists (now - WINDOW_MS). split; [done|].
    rewrite insert_at_perm, filter_cons_True by lia. by rewrite Hmc.
  - done.
  - intros lim n t Hl Hn Ht. unfold window_count.
    destruct (decide (in_window t x)) as [Hx|Hx].
    2:{ rewrite filter_cons_False by done. by eapply (inv_rpm _ _ _ Hmi). }
    rewrite filter_cons_True by done. cbn [length].
    injection Hl as <-. specialize (Hcap n Hn). cbn [moved calls] in Hmc. rewrite Hmc in Hcap.
    rewrite filter_filter_imp in Hcap by (intros y; unfold saturating_add; lia).
    pose proof (filter_length_imp (in_window t) (fun c => x < saturating_add c WINDOW_MS) ss
      ltac:(intros y; unfold saturating_add; lia)). lia.
Qed.

(** The pacer, the reservations that wait and the starts that went ahead.  The clock is the
    latest time a call arrived at; [now_ms] never runs backwards. *)
Record Sys : Type := mkSys {
  pacer : Pacer;
  clock : N;
  waiting : list Reservation;
  gone : list Reservation;
}.
Definition Sys_new : Sys := mkSys ∅ 0 [] [].

(** A call is held or turned away, an owner keeps or drops its reservation (once: either
    consumes it), a finished call records its tokens, a 429 pauses the provider. *)
Inductive step : Sys -> Sys -> Prop :=
| step_hold s provider now given p' r :
    clock s <= now -> hold setting (pacer s) provider now given = (p', r) ->
    step s (mkSys p' now (r :: waiting s) (gone s))
| step_held s provider now given max_wait p' r :
    clock s <= now -> hold_within setting (pacer s) provider now given max_wait = (p', Ok r) ->
    step s (mkSys p' now (r :: waiting s) (gone s))
| step_turned_away s provider now given max_wait p' w :
    clock s <= now -> hold_within setting (pacer s) provider now given max_wait = (p', Err w) ->
    step s (mkSys p' now (waiting s) (gone s))
| step_keep s l1 r l2 : waiting s = l1 ++ r :: l2 ->
    step s (mkSys (drop_reservation (pacer s) r true) (clock s) (l1 ++ l2) (r :: gone s))
| step_drop s l1 r l2 : waiting s = l1 ++ r :: l2 ->
    step s (mkSys (drop_reservation (pacer s) r false) (clock s) (l1 ++ l2) (gone s))
| step_tokens s provider at_ms n :
    step s (mkSys (record_tokens (pacer s) provider at_ms n) (clock s) (waiting s) (gone s))
| step_pause s provider now retry :
    step s (mkSys (pause (pacer s) provider now retry) (clock s) (waiting s) (gone s)).

Inductive reachable : Sys -> Prop :=
| reachable_new : reachable Sys_new
| reachable_step s s' : reachable s -> step s s' -> reachable s'.

Definition starts_of (provider : string) (rs : list Reservation) : list N :=
  r_start <$> filter (fun r => r_provider r = provider) rs.
(** Every start of the provider that is waited for or was used. *)
Definition starts (provider : string) (s : Sys) : list N := starts_of provider (waiting s ++ gone s).

Definition sys_inv (s : Sys) : Prop := forall provider,
  lane_inv (clock s) (lane_of (pacer s) provider) (starts provider s).

Lemma starts_of_cons provider r rs :
  starts_of provider (r :: rs) = (if decide (r_provider r = provider) then [r_start r] else []) ++ starts_of provider rs.
Proof. unfold starts_of. rewrite filter_cons. by destruct (decide _). Qed.

Lemma starts_of_perm provider rs rs' : rs ≡ₚ rs' -> starts_of provider rs ≡ₚ starts_of provider rs'.
Proof. intros Hp. unfold starts_of. by rewrite Hp. Qed.

Lemma lane_of_insert p provider l q :
  lane_of (<[provider := l]> p) q = if decide (provider = q) then l else lane_of p q.
Proof.
  unfold lane_of. unfold Pacer in *. rewrite lookup_insert. by destruct (decide (provider = q)).
Qed.

Lemma lane_of_release p provider x q :
  lane_of (release p provider x) q =
  if decide (provider = q) then
    mkLane (limits (lane_of p q)) (release_calls x (calls (lane_of p q))) (tokens (lane_of p q)) (paused_until (lane_of p q))
  else lane_of p q.
Proof.
  unfold release. destruct (p !! provider) as [l|] eqn:E.
  - rewrite lane_of_insert. destruct (decide _) as [<-|]; [|done]. unfold lane_of. by rewrite E.
  - destruct (decide _) as [<-|]; [|done]. unfold lane_of. by rewrite E.
Qed.

Lemma held_inv p c rs provider now given : c <= now ->
  (forall q, lane_inv c (lane_of p q) (starts_of q rs)) ->
  let '(l', x) := next_start setting (lane_of p provider) provider now given in
  forall w q, lane_inv now (lane_of (<[provider := take_start x l']> p) q)
    (starts_of q (mkReservation provider x w :: rs)).
Proof.
  intros Hc Hi. pose proof (take_lane_inv c now _ _ provider given (Hi provider) Hc) as Ht.
  destruct (next_start _ _ _ _ _) as [l' x]. intros w q.
  rewrite lane_of_insert, starts_of_cons. cbn [r_provider r_start].
  destruct (decide (provider = q)) as [<-|Hne]; [done|]. by eapply lane_inv_later.
Qed.

Lemma step_inv s s' : step s s' -> sys_inv s -> sys_inv s'.
Proof.
  intros Hstep Hi. destruct Hstep as [s q now given p' r Hc Hh|s q now given mw p' r Hc Hh|s q now given mw p' w Hc Hh
    |s l1 r l2 Hw|s l1 r l2 Hw|s q a n|s q now retry]; intros q'; unfold starts; cbn [pacer clock waiting gone].
  - unfold hold in Hh. pose proof (held_inv _ _ _ q now given Hc Hi) as Ht.
    destruct (next_start _ _ _ _ _) as [l' x]. injection Hh as <- <-. apply Ht.
  - unfold hold_within in Hh. pose proof (held_inv _ _ _ q now given Hc Hi) as Ht.
    destruct (next_start _ _ _ _ _) as [l' x]. destruct (_ <? _); [done|]. injection Hh as <- <-. apply Ht.
  - unfold hold_within in Hh. pose proof (next_start_moved setting (lane_of (pacer s) q) q now given (inv_ok _ _ _ (Hi q))) as Hm.
    destruct (next_start _ _ _ _ _) as [l' x]. destruct (_ <? _); [|done]. injection Hh as <- _. cbn [fst] in Hm. subst l'.
    rewrite lane_of_insert. destruct (decide (q = q')) as [<-|Hne].
    + by eapply moved_lane_inv.
    + by eapply lane_inv_later.
  - specialize (Hi q'). unfold starts in Hi. cbn [drop_reservation]. eapply lane_inv_perm, Hi.
    apply starts_of_perm. rewrite Hw. rewrite <- !app_assoc. cbn [app]. by rewrite <- !Permutation_middle.
  - specialize (Hi q'). unfold starts in Hi. cbn [drop_reservation]. rewrite lane_of_release.
    eapply lane_inv_perm in Hi; [|apply starts_of_perm; rewrite Hw, <- app_assoc; cbn [app]; rewrite <- Permutation_middle; reflexivity].
    rewrite starts_of_cons in Hi. rewrite <- app_assoc.
    destruct (decide (r_provider r = q')); [by apply release_lane_inv|done].
  - specialize (Hi q'). unfold record_tokens. rewrite lane_of_insert.
    destruct (decide (q = q')) as [<-|Hne]; [|done]. destruct Hi as [[Hcs Hts] Hp Hu Hr].
    split; [split; [done|exact (insert_at_sorted (fun e => e.1) (a, n) _ Hts)]|done..].
  - specialize (Hi q'). unfold pause. rewrite lane_of_insert.
    destruct (decide (q = q')) as [<-|Hne]; [|done]. destruct Hi as [Hok Hp Hu Hr]. by split.
Qed.

Lemma reachable_inv s : reachable s -> sys_inv s.
Proof.
  induction 1 as [|s s' _ IH Hs]; [|by eapply step_inv].
  intros q. apply lane_inv_default.
Qed.

(** C12. The pacer holds every provider to its requests per minute: in any state reached by
    holding, turning away, keeping and dropping reservations, recording tokens and pausing,
    no minute [[t, t + 60 s)] contains more than [rpm] of the provider's starts, those that
    went ahead and those still waited for together. *)
Theorem rpm_is_respected (s : Sys) (provider : string) (lim : Limits) (n t : N) :
  reachable s -> limits (lane_of (pacer s) provider) = Some lim -> rpm lim = Some n -> 0 < n ->
  t + WINDOW_MS <= u64_max -> window_count t (starts provider s) <= n.
Proof.
  intros Hr Hl Hn H0 Ht. eapply inv_rpm; [by apply reachable_inv|done|by apply positive_Some|done].
Qed.

(** A call is turned away exactly when its wait would be too long: [hold_within] takes the
    earliest admissible start when it lies within [max_wait_ms] of the call, and otherwise
    answers with the wait (longer than the bound) and leaves every lane with no more than its
    window moved, no start reserved. *)
Theorem hold_within_decides (p : Pacer) (provider : string) (now max_wait : N) (given : option Limits) :
  lane_ok (lane_of p provider) ->
  let start := (next_start setting (lane_of p provider) provider now given).2 in
  let lane := moved setting (lane_of p provider) provider now given in
  hold_within setting p provider now given max_wait =
  if decide (start <= now + max_wait)
  then (<[provider := take_start start lane]> p, Ok (mkReservation provider start (start - now)))
  else (<[provider := lane]> p, Err (start - now)).
Proof.
  intros Hok start lane. unfold hold_within.
  pose proof (next_start_moved setting _ provider now given Hok) as Hm.
  subst start lane. destruct (next_start _ _ _ _ _) as [l' x]. cbn [fst snd] in *. subst l'.
  destruct (decide _); destruct (N.ltb_spec max_wait (x - now)); try done; lia.
Qed.

(** Sorted lists with the same elements are equal. *)
Lemma sorted_calls_unique l l' : sorted_calls l -> sorted_calls l' -> l ≡ₚ l' -> l = l'.
Proof. intros. by apply (StronglySorted_unique N.le). Qed.

(** An abandoned call leaves no trace: dropping the reservation right after it was held
    gives back the pacer as it was, but for the moved window. *)
Theorem abandoned_hold_leaves_no_trace (p : Pacer) (provider : string) (now : N) (given : option Limits) :
  lane_ok (lane_of p provider) ->
  drop_reservation (hold setting p provider now given).1 (hold setting p provider now given).2 false =
  <[provider := moved setting (lane_of p provider) provider now given]> p.
Proof.
  intros Hok. unfold hold.
  pose proof (next_start_moved setting _ provider now given Hok) as Hm.
  destruct (next_start _ _ _ _ _) as [l' x]. cbn [fst] in Hm. subst l'.
  unfold drop_reservation, release. cbn [r_provider r_start fst snd]. unfold Pacer in *. rewrite lookup_insert_eq, insert_insert_eq.
  f_equal. pose proof (moved_ok (lane_of p provider) provider now given Hok) as [Hc _].
  set (lane := moved setting (lane_of p provider) provider now given) in *.
  destruct lane as [lim cs ts pu]. cbn [take_start limits calls tokens paused_until] in *. f_equal.
  assert (sorted_calls (insert_at (partition_point (fun r => r <=? x) cs) x cs)) as Hs
    by exact (insert_at_sorted (fun x => x) x cs Hc).
  apply sorted_calls_unique; [by apply release_calls_sorted|done|].
  apply (Permutation_cons_inv (a := x)). rewrite <- release_calls_in; [apply insert_at_perm|done|].
  rewrite insert_at_perm. left.
Qed.

Lemma step_paused s s' provider : sys_inv s -> step s s' ->
  paused_until (lane_of (pacer s) provider) <= paused_until (lane_of (pacer s') provider).
Proof.
  intros Hi Hstep. destruct Hstep as [s q now given p' r Hc Hh|s q now given mw p' r Hc Hh|s q now given mw p' w Hc Hh
    |s l1 r l2 Hw|s l1 r l2 Hw|s q a n|s q now retry]; cbn [pacer].
  1-3: (unfold hold, hold_within in Hh;
    pose proof (next_start_moved setting (lane_of (pacer s) q) q now given (inv_ok _ _ _ (Hi q))) as Hm;
    destruct (next_start _ _ _ _ _) as [l' x]; cbn [fst] in Hm; subst l';
    try destruct (_ <? _); simplify_eq; rewrite lane_of_insert; by destruct (decide _) as [<-|]).
  - done.
  - cbn [drop_reservation]. rewrite lane_of_release. by destruct (decide _).
  - unfold record_tokens. rewrite lane_of_insert. by destruct (decide _) as [<-|].
  - unfold pause. rewrite lane_of_insert. destruct (decide _) as [<-|]; [cbn; lia|done].
Qed.

(** A [Retry-After] is waited out: once a 429 paused the provider, no call held later,
    whatever happens in between, starts before the pause (its first two minutes) is over. *)
Theorem pause_is_waited_out (s s' : Sys) (provider : string) (now retry now' : N) (given : option Limits) :
  reachable s ->
  rtc step (mkSys (pause (pacer s) provider now retry) (clock s) (waiting s) (gone s)) s' ->
  saturating_add now (N.min retry MAX_PAUSE_MS) <= r_start (hold setting (pacer s') provider now' given).2.
Proof.
  intros Hr Hs.
  set (s1 := mkSys _ _ _ _) in Hs.
  assert (reachable s1) as Hr1 by (eapply reachable_step; [exact Hr|apply step_pause]).
  assert (saturating_add now (N.min retry MAX_PAUSE_MS) <= paused_until (lane_of (pacer s1) provider)) as H1.
  { subst s1. cbn [pacer]. unfold pause. rewrite lane_of_insert, decide_True by done. cbn. lia. }
  clearbody s1. clear Hr s. induction Hs as [s|s s2 s3 Hst Hs IH].
  - unfold hold.
    pose proof (next_start_bounds (lane_of (pacer s) provider) provider now' given
      (inv_ok _ _ _ (reachable_inv _ Hr1 provider))) as (_ & Hp & _).
    destruct (next_start _ _ _ _ _) as [l' x]. cbn [fst snd r_start] in *. lia.
  - apply IH; [by eapply reachable_step|]. etrans; [exact H1|].
    apply step_paused; [by apply reachable_inv|done].
Qed.
End Runs.

(** ** [Retry-After] *)

(** The number a run of decimal digits writes. *)
Definition decimal (s : rstr) : N := fold_left (fun acc c => acc * 10 + (c - 48)) s 0.

Lemma decimal_from acc s :
  fold_left (fun acc c => acc * 10 + (c - 48)) s acc = acc * 10 ^ N.of_nat (length s) + decimal s.
Proof.
  unfold decimal. revert acc. induction s as [|c s IH]; intros acc; cbn [fold_left length].
  - rewrite N.mul_1_r. lia.
  - rewrite IH, (IH (0 * 10 + _)), Nat2N.inj_succ, N.pow_succ_r'. lia.
Qed.

Lemma decimal_bound s : forallb is_ascii_digit s = true -> decimal s < 10 ^ N.of_nat (length s).
Proof.
  induction s as [|c s IH]; intros H; [done|]. cbn [forallb] in H. bool_to_prop. specialize (IH H0).
  unfold decimal. cbn [fold_left length]. rewrite decimal_from, Nat2N.inj_succ, N.pow_succ_r'.
  unfold is_ascii_digit in H. bool_to_prop. apply N.leb_le in H, H1.
  set (P := 10 ^ N.of_nat (length s)) in *. nia.
Qed.

Lemma decimal_nonzero s : forallb is_ascii_digit s = true ->
  existsb (fun b => negb (b =? 48)) s = negb (decimal s =? 0).
Proof.
  induction s as [|c s IH]; intros H; [done|]. cbn [forallb] in H. bool_to_prop.
  cbn [existsb]. rewrite (IH H0). unfold decimal at 2. cbn [fold_left]. rewrite decimal_from.
  unfold is_ascii_digit in H. bool_to_prop. apply N.leb_le in H, H1.
  assert (0 < 10 ^ N.of_nat (length s)) by lia.
  set (P := 10 ^ N.of_nat (length s)) in *.
  destruct (N.eqb_spec c 48) as [->|Hc]; cbn [negb orb]; [f_equal; f_equal; lia|].
  symmetry. apply negb_true_iff, N.eqb_neq. nia.
Qed.

Lemma div_ceil_unique a b q : 0 < b -> a <= b * q -> b * q < a + b -> div_ceil a b = q.
Proof. intros Hb H1 H2. pose proof (div_ceil_spec a b Hb). nia. Qed.

(** The three fractional digits and the rounding of the rest. *)
Lemma millis_round_up f : f <> [] -> forallb is_ascii_digit f = true ->
  let '(m, rest) := millis_of 3 0 f in
  let m := if existsb (fun b => negb (b =? 48)) rest then m + 1 else m in
  m <= 1000 /\
  decimal f * 1000 <= m * 10 ^ N.of_nat (length f) < decimal f * 1000 + 10 ^ N.of_nat (length f).
Proof.
  intros Hne Hd. pose proof (decimal_bound f Hd) as Hb.
  destruct f as [|a [|b [|c rest]]]; [done| | |].
  1-2: (unfold decimal in *; cbn [millis_of fold_left existsb length] in *;
    match goal with |- context [10 ^ N.of_nat ?k] => let v := eval vm_compute in (10 ^ N.of_nat k) in change (10 ^ N.of_nat k) with v in * end;
    cbn beta in *; lia).
  cbn [millis_of]. set (m := ((0 * 10 + (a - 48)) * 10 + (b - 48)) * 10 + (c - 48)).
  assert (forallb is_ascii_digit rest = true) as Hr by (cbn [forallb] in Hd; bool_to_prop; done).
  assert (decimal (a :: b :: c :: rest) = m * 10 ^ N.of_nat (length rest) + decimal rest) as Hdec.
  { unfold decimal at 1. cbn [fold_left]. by rewrite decimal_from. }
  assert (m < 1000) as Hm.
  { pose proof (decimal_bound [a; b; c] ltac:(cbn [forallb] in Hd |- *; bool_to_prop; repeat (apply andb_true_iff; split; [done|]); done)) as H3.
    exact H3. }
  assert (10 ^ N.of_nat (length (a :: b :: c :: rest)) = 1000 * 10 ^ N.of_nat (length rest)) as HP.
  { cbn [length]. rewrite !Nat2N.inj_succ, !N.pow_succ_r'. lia. }
  rewrite HP, Hdec. rewrite (decimal_nonzero rest Hr). pose proof (decimal_bound rest Hr) as Hbr.
  clearbody m. set (P := 10 ^ N.of_nat (length rest)) in *. set (v := decimal rest) in *. clearbody P v.
  destruct (N.eqb_spec v 0) as [->|Hv]; cbn [negb]; nia.
Qed.

(** A printed number is read back. *)
Lemma parse_u64_display w : w <= u64_max -> parse_u64 (display_u64 w) = Some w.
Proof.
  intros Hw. pose proof (parse_display_u64 w Hw) as Hp.
  destruct (display_u64_digits w Hw) as (_ & Hwd & _). unfold parse_u64.
  destruct (display_u64 w) as [|x xs] eqn:E; [by apply display_u64_digits in Hw as [? _]|].
  destruct (N.eqb_spec x 43) as [->|_]; [done|]. by rewrite Hwd.
Qed.

(** A [Retry-After] is never cut short: a header [whole.fraction] in seconds is read as
    that time rounded up to the millisecond. *)
Theorem retry_after_rounds_up (w : N) (f : rstr) :
  w * 1000 + 1000 <= u64_max -> f <> [] -> forallb is_ascii_digit f = true ->
  retry_after_ms (display_u64 w ++ 46 :: f) =
  Some (div_ceil ((w * 10 ^ N.of_nat (length f) + decimal f) * 1000) (10 ^ N.of_nat (length f))).
Proof.
  intros Hw Hne Hf. destruct (display_u64_digits w ltac:(lia)) as (Hwne & Hwd & _).
  destruct (forallb_ends f Hne Hf) as (f' & z & Ef & Hz).
  assert (trim (display_u64 w ++ 46 :: f) = display_u64 w ++ 46 :: f) as Htrim.
  { destruct (display_u64 w) as [|x xs]; [done|]. rewrite Ef. cbn [app].
    replace (xs ++ 46 :: f' ++ [z]) with ((xs ++ 46 :: f') ++ [z]) by (by rewrite <- app_assoc).
    apply trim_id; [|done].
    cbn [forallb] in Hwd. bool_to_prop. by apply is_ascii_digit_not_ws. }
  unfold retry_after_ms. rewrite Htrim, split_once_digits, Hwd, Hf by done.
  pose proof (parse_u64_display w ltac:(lia)) as Hp.
  pose proof (millis_round_up f Hne Hf) as Hm. destruct (millis_of 3 0 f) as [m rest].
  cbn zeta in Hm. set (q := if existsb _ rest then m + 1 else m) in *.
  destruct (display_u64 w) as [|x xs] eqn:E; [done|]. cbn [orb negb]. rewrite Hp. cbn [mbind option_bind].
  f_equal. unfold saturating_mul, saturating_add. clearbody q.
  assert (0 < 10 ^ N.of_nat (length f)) by lia. set (P := 10 ^ N.of_nat (length f)) in *. clearbody P.
  rewrite (div_ceil_unique _ P (w * 1000 + q)); [lia|done|lia|lia].
Qed.

(** ** Witnesses *)

Definition busy_lane : Lane := mkLane (Some (mkLimits (Some 2) (Some 100))) [50000; 70000] [(60000, 80); (75000, 40)] 0.

Lemma next_start_is_earliest_witness :
  admissible (mkLimits (Some 2) (Some 100)) busy_lane 80000 120000.
Proof.
  apply (next_start_is_earliest no_env busy_lane "x" 80000 None 120000).
  - split; repeat (constructor; try (repeat constructor; done)).
  - done.
  - vm_compute. discriminate.
Defined.

Lemma rpm_is_respected_witness :
  window_count 0 (starts "x" (mkSys (hold no_env ∅ "x" 5 (Some (rpm_only 1))).1 5
    [(hold no_env ∅ "x" 5 (Some (rpm_only 1))).2] [])) <= 1.
Proof.
  apply (rpm_is_respected no_env _ "x" (rpm_only 1) 1 0); [|reflexivity|reflexivity|done|done].
  eapply reachable_step; [constructor|]. apply (step_hold no_env Sys_new "x" 5 (Some (rpm_only 1))); [done|].
  reflexivity.
Defined.

Lemma hold_within_decides_witness :
  hold_within no_env {["x" := busy_lane]} "x" 80000 None 30000 =
  (<["x" := moved no_env busy_lane "x" 80000 None]> {["x" := busy_lane]}, Err 40000).
Proof.
  rewrite (hold_within_decides no_env {["x" := busy_lane]} "x" 80000 30000 None); [reflexivity|].
  split; repeat (constructor; try (repeat constructor; done)).
Defined.

Lemma abandoned_hold_leaves_no_trace_witness :
  let p : Pacer := {["x" := busy_lane]} in
  drop_reservation (hold no_env p "x" 80000 None).1 (hold no_env p "x" 80000 None).2 false =
  <["x" := moved no_env (lane_of p "x") "x" 80000 None]> p.
Proof.
  apply (abandoned_hold_leaves_no_trace no_env {["x" := busy_lane]} "x" 80000 None).
  split; repeat (constructor; try (repeat constructor; done)).
Defined.

Lemma pause_is_waited_out_witness :
  61000 <= r_start (hold no_env (pause ∅ "x" 1000 60000) "x" 2000 None).2.
Proof.
  apply (pause_is_waited_out no_env Sys_new (mkSys (pause ∅ "x" 1000 60000) 0 [] []) "x" 1000 60000 2000 None).
  - constructor.
  - apply rtc_refl.
Defined.

Lemma retry_after_rounds_up_witness :
  retry_after_ms (display_u64 1 ++ 46 :: rs "5001") = Some 1501.
Proof. apply (retry_after_rounds_up 1 (rs "5001")); done. Defined.
