(* ===== verification/NonceLedger.v ===== *)
(** * NonceLedger: the shared replay ledger of signed requests
    ([crates/susi-core/src/net_guard.rs], [NonceFile])

    Every server process of a node keeps a [NonceFile]: what it has folded of one shared
    append-only file, and how far it has read.  A [World] is that file with the processes.
    Text is its bytes; the clock and the outcome of each write are arguments.  Keys are
    [&str], so the lossy decoding of a folded line is the identity. *)

From S2P Require Import Prelude Money Pacer.

Local Open Scope list_scope.
Local Open Scope N_scope.

Definition REQ_SKEW_SECS : N := 300.
Definition CAP : N := 50000.

Definition NEWLINE : N := 10.
Definition COLON : N := 58.

Record NonceFile : Type := mkNonceFile {
  seen : gmap rstr N;
  offset : nat;
}.
Definition NonceFile_open : NonceFile := mkNonceFile ∅ 0.

(** [buf.iter().rposition(newline).map_or(0, |i| i + 1)]. *)
Fixpoint complete (buf : rstr) : nat :=
  match buf with
  | [] => 0%nat
  | b :: buf' => match complete buf' with
                 | O => if b =? NEWLINE then 1%nat else 0%nat
                 | n => S n
                 end
  end.

(** [str::lines]: without the newline and a carriage return before it. *)
Definition strip_cr (rev_line : rstr) : rstr :=
  rev (match rev_line with c :: l => if c =? 13 then l else rev_line | [] => [] end).
Fixpoint lines_from (cur : rstr) (s : rstr) : list rstr :=
  match s with
  | [] => match cur with [] => [] | _ => [rev cur] end
  | c :: s' => if c =? NEWLINE then strip_cr cur :: lines_from [] s' else lines_from (c :: cur) s'
  end.
Definition lines (s : rstr) : list rstr := lines_from [] s.

Definition rsplit_once (sep : N) (s : rstr) : option (rstr * rstr) :=
  match split_once sep (rev s) with Some (a, b) => Some (rev b, rev a) | None => None end.

Definition fold_line (m : gmap rstr N) (line : rstr) : gmap rstr N :=
  match rsplit_once COLON line with
  | Some (key, ts) => match parse_u64 ts with Some t => <[key := t]> m | None => m end
  | None => m
  end.

(** [NonceFile::refresh]; [None] is a file that does not open. *)
Definition refresh (file : option rstr) (nf : NonceFile) : NonceFile :=
  match file with
  | None => nf
  | Some content =>
      let nf := if (length content <? offset nf)%nat then mkNonceFile ∅ 0 else nf in
      let buf := drop (offset nf) content in
      let n := complete buf in
      mkNonceFile (fold_left fold_line (lines (take n buf)) (seen nf)) (offset nf + n)
  end.

Definition ledger_line (key : rstr) (t : N) : rstr := key ++ COLON :: display_u64 t ++ [NEWLINE].

(** How an append ended: the file did not open, every byte was written, or [write_all]
    failed after some of them. *)
Inductive Append : Type :=
| Unopened
| Written
| Torn (n : nat).

(** [seen.retain(|_, t| now.saturating_sub(t) < REQ_SKEW_SECS * 2)]. *)
Definition live (now t : N) : bool := now - t <? REQ_SKEW_SECS * 2.
Definition retain_live (now : N) (m : gmap rstr N) : gmap rstr N := filter (fun e => live now e.2 = true) m.

(** [NonceFile::compact]; [swapped] is the outcome of [atomic_write_bytes]. *)
Definition compact (swapped : bool) (file : option rstr) (nf : NonceFile) : option rstr * NonceFile :=
  let body := concat ((fun e => ledger_line e.1 e.2) <$> map_to_list (seen nf)) in
  if swapped then (Some body, mkNonceFile (seen nf) (length body)) else (file, nf).

(** [NonceFile::record]: the answer, the file and what the process knows. *)
Definition record (file : option rstr) (nf : NonceFile) (key : rstr) (now : N) (wrote : Append) (swapped : bool)
    : bool * option rstr * NonceFile :=
  let nf := refresh file nf in
  let nf := mkNonceFile (retain_live now (seen nf)) (offset nf) in
  if decide (is_Some (seen nf !! key)) then (false, file, nf)
  else
    let nf := mkNonceFile (<[key := now]> (seen nf)) (offset nf) in
    let line := ledger_line key now in
    let '(file, nf) :=
      match wrote with
      | Unopened => (file, nf)
      | Torn n => (Some (default [] file ++ take n line), nf)
      | Written => (Some (default [] file ++ line), mkNonceFile (seen nf) (offset nf + length line))
      end in
    let '(file, nf) := if CAP <? N.of_nat (size (seen nf)) then compact swapped file nf else (file, nf) in
    (true, file, nf).

Example record_twice :
  let '(a, f, p) := record None NonceFile_open (rs "n:x") 1000 Written true in
  let '(b, f, _) := record f NonceFile_open (rs "n:x") 1001 Written true in
  (a, b, f) = (true, false, Some (rs "n:x:1000" ++ [10])).
Proof. vm_compute. reflexivity. Qed.

(** ** The world *)

(** The file, the processes and the latest clock; and, for the theorems, the nonces whose
    line is on file and those each process has accepted since it opened the ledger, oldest
    first.  The file lock makes each [record] one step. *)
Record World : Type := mkWorld {
  file : option rstr;
  procs : gmap nat NonceFile;
  clock : N;
  filed : list (rstr * N);
  kept : gmap nat (list (rstr * N));
}.
Definition World_new : World := mkWorld None ∅ 0 [] ∅.

(** A process that has not called yet opens the ledger ([STORE.get_or_init]). *)
Definition proc (w : World) (i : nat) : NonceFile := default NonceFile_open (procs w !! i).
Definition kept_by (w : World) (i : nat) : list (rstr * N) := default [] (kept w !! i).

(** A [record] by process [i]: the answer does not depend on how the append ends. *)
Definition recorded (w : World) (i : nat) (key : rstr) (now : N) (wrote : Append) (swapped : bool) : bool * World :=
  let '(ok, f, nf) := record (file w) (proc w i) key now wrote swapped in
  let entry := if ok then [(key, now)] else [] in
  (ok, mkWorld f (<[i := nf]> (procs w)) now
         (filed w ++ match wrote with Written => entry | _ => [] end)
         (<[i := kept_by w i ++ entry]> (kept w))).

(** The append left the whole line or nothing. *)
Definition whole (wrote : Append) : bool := match wrote with Torn (S _) => false | _ => true end.

(** Processes record keys, in the order the lock gives them, and restart.  The key has no
    newline (it comes from two header values); appends write the whole line or nothing, and
    the ledger is not compacted: at most [CAP] nonces are live. *)
Inductive records : World -> World -> Prop :=
| records_key w i key now wrote swapped :
    clock w <= now -> now <= u64_max -> NEWLINE ∉ key -> whole wrote = true ->
    N.of_nat (size (seen (proc (recorded w i key now wrote swapped).2 i))) <= CAP ->
    records w (recorded w i key now wrote swapped).2.
Definition restart (w : World) (i : nat) : World :=
  mkWorld (file w) (delete i (procs w)) (clock w) (filed w) (delete i (kept w)).

Definition step (w w' : World) : Prop := records w w' \/ exists i, w' = restart w i.
Definition reachable : World -> Prop := rtc step World_new.
(** A step that leaves process [i] running. *)
Definition step_running (i : nat) (w w' : World) : Prop :=
  records w w' \/ exists k, k <> i /\ w' = restart w k.

(** ** Lines of the ledger *)

Definition text (h : list (rstr * N)) : rstr := concat ((fun e => ledger_line e.1 e.2) <$> h).
Definition entry_ok (e : rstr * N) : Prop := NEWLINE ∉ e.1 /\ e.2 <= u64_max.

Lemma text_app h h' : text (h ++ h') = text h ++ text h'.
Proof. unfold text. by rewrite fmap_app, concat_app. Qed.

Lemma split_once_notin sep a b : sep ∉ a -> split_once sep (a ++ sep :: b) = Some (a, b).
Proof.
  induction a as [|c a IH]; intros Hn; cbn [split_once app]; [by rewrite N.eqb_refl|].
  apply not_elem_of_cons in Hn as [Hc Hn]. by rewrite (proj2 (N.eqb_neq _ _)), IH by congruence.
Qed.

Lemma digits_notin c t : t <= u64_max -> is_ascii_digit c = false -> c ∉ display_u64 t.
Proof.
  intros Ht Hc Hin. destruct (display_u64_digits t Ht) as (_ & Hd & _).
  rewrite forallb_forall in Hd. apply list_elem_of_In, Hd in Hin. congruence.
Qed.

Lemma rsplit_line key t : t <= u64_max ->
  rsplit_once COLON (key ++ COLON :: display_u64 t) = Some (key, display_u64 t).
Proof.
  intros Ht. unfold rsplit_once. rewrite rev_app_distr. cbn [rev]. rewrite <- app_assoc. cbn [app].
  rewrite split_once_notin; [by rewrite !rev_involutive|].
  rewrite list_elem_of_In, <- in_rev, <- list_elem_of_In. by apply digits_notin.
Qed.

Lemma lines_from_body cur body rest : NEWLINE ∉ body ->
  lines_from cur (body ++ NEWLINE :: rest) = strip_cr (rev body ++ cur) :: lines_from [] rest.
Proof.
  revert cur. induction body as [|c body IH]; intros cur Hn; cbn [lines_from app]; [by rewrite N.eqb_refl|].
  apply not_elem_of_cons in Hn as [Hc Hn]. rewrite (proj2 (N.eqb_neq _ _)), IH by congruence.
  cbn [rev]. by rewrite <- app_assoc.
Qed.

Lemma strip_cr_digits body : body <> [] -> forallb is_ascii_digit body = true ->
  forall key, strip_cr (rev (key ++ COLON :: body)) = key ++ COLON :: body.
Proof.
  intros Hne Hd key. destruct (exists_last Hne) as (l & z & ->).
  rewrite forallb_app in Hd. cbn [forallb] in Hd. bool_to_prop.
  unfold strip_cr. rewrite app_comm_cons, app_assoc, rev_app_distr. cbn [rev app].
  destruct (N.eqb_spec z 13) as [->|_]; [done|]. cbn [rev]. by rewrite rev_involutive.
Qed.

Lemma lines_text_cons e h : entry_ok e ->
  lines (text (e :: h)) = (e.1 ++ COLON :: display_u64 e.2) :: lines (text h).
Proof.
  intros [Hn Ht]. destruct (display_u64_digits e.2 Ht) as (Hne & Hd & _).
  unfold lines. change (text (e :: h)) with (ledger_line e.1 e.2 ++ text h). unfold ledger_line.
  replace ((e.1 ++ COLON :: display_u64 e.2 ++ [NEWLINE]) ++ text h)
    with ((e.1 ++ COLON :: display_u64 e.2) ++ NEWLINE :: text h)
    by (by rewrite <- !app_assoc; cbn [app]; rewrite <- app_assoc).
  rewrite lines_from_body.
  - by rewrite app_nil_r, strip_cr_digits.
  - rewrite elem_of_app, elem_of_cons. intros [H|[H|H]]; [done|done|].
    by eapply digits_notin in H.
Qed.

Definition fold_entries (m : gmap rstr N) (h : list (rstr * N)) : gmap rstr N :=
  fold_left (fun m e => <[e.1 := e.2]> m) h m.

Lemma fold_lines_text h m : Forall entry_ok h -> fold_left fold_line (lines (text h)) m = fold_entries m h.
Proof.
  intros Hok. revert m. induction Hok as [|e h He Hok IH]; intros m; [done|].
  rewrite lines_text_cons by done. cbn [fold_left fold_entries]. unfold fold_line at 2.
  destruct He as [_ Ht]. rewrite rsplit_line, parse_u64_display by done. apply IH.
Qed.

Lemma complete_snoc l : complete (l ++ [NEWLINE]) = S (length l).
Proof. induction l as [|c l IH]; [done|]. cbn [complete app]. by rewrite IH. Qed.

Lemma complete_text h : complete (text h) = length (text h).
Proof.
  induction h as [|e h _] using rev_ind; [done|].
  rewrite text_app. unfold text at 2 4. cbn [fmap list_fmap concat]. rewrite app_nil_r. unfold ledger_line.
  replace (text h ++ e.1 ++ COLON :: display_u64 e.2 ++ [NEWLINE])
    with ((text h ++ e.1 ++ COLON :: display_u64 e.2) ++ [NEWLINE]) by (by rewrite <- !app_assoc).
  rewrite complete_snoc, (length_app _ [NEWLINE]). cbn [length]. lia.
Qed.

(** ** What a process knows *)

Notation by_time := (sorted_by (fun e : rstr * N => e.2)).

(** The map [m] covers the entries [h]: every live one is known with its time or a later
    one. *)
Definition covers (clock : N) (m : gmap rstr N) (h : list (rstr * N)) : Prop :=
  forall k t, (k, t) ∈ h -> live clock t = true -> exists t', m !! k = Some t' /\ t <= t'.
Definition from (m : gmap rstr N) (h : list (rstr * N)) : Prop := forall k t, m !! k = Some t -> (k, t) ∈ h.

Lemma live_later now clock t : clock <= now -> live now t = true -> live clock t = true.
Proof. unfold live. intros Hc H. apply N.ltb_lt in H. apply N.ltb_lt. lia. Qed.

Lemma live_recent now t t' : t <= t' -> live now t = true -> live now t' = true.
Proof. unfold live. intros Hc H. apply N.ltb_lt in H. apply N.ltb_lt. lia. Qed.

Lemma sorted_app_le h e h' x : by_time (h ++ e :: h') -> x ∈ h -> x.2 <= e.2.
Proof.
  induction h as [|y h IH]; [intros _ Hx; by apply not_elem_of_nil in Hx|].
  intros Hs. inversion_clear Hs as [|? ? Hs' Hall]. intros [->|Hx]%elem_of_cons; [|by apply IH].
  rewrite Forall_forall in Hall. apply Hall. set_solver.
Qed.

Lemma covers_fold clock m pre post : by_time (pre ++ post) -> covers clock m pre ->
  covers clock (fold_entries m post) (pre ++ post).
Proof.
  revert m pre. induction post as [|e post IH]; intros m pre Hs Hc; [by rewrite app_nil_r|].
  cbn [fold_entries fold_left].
  replace (pre ++ e :: post) with ((pre ++ [e]) ++ post) in * by (by rewrite <- app_assoc).
  apply IH; [done|]. intros k t [Hin|Hin]%elem_of_app Hl.
  - destruct (decide (k = e.1)) as [->|Hne].
    + exists e.2. rewrite lookup_insert_eq. split; [done|].
      rewrite <- app_assoc in Hs. by apply (sorted_app_le pre e post (e.1, t)).
    + rewrite lookup_insert_ne by done. by apply Hc.
  - apply list_elem_of_singleton in Hin as <-. exists t. cbn. by rewrite lookup_insert_eq.
Qed.

Lemma from_fold m h post : from m h -> (forall e, e ∈ post -> e ∈ h) -> from (fold_entries m post) h.
Proof.
  revert m. induction post as [|e post IH]; intros m Hm Hp; [done|]. apply IH; [|set_solver].
  intros k t. destruct (decide (k = e.1)) as [->|Hne].
  - rewrite lookup_insert_eq. intros [= <-]. apply Hp. destruct e. left.
  - rewrite lookup_insert_ne by done. apply Hm.
Qed.

(** What a process knows: the part of the file it has read and what it accepted itself. *)
Record proc_inv (clock : N) (nf : NonceFile) (filed kept : list (rstr * N)) : Prop := {
  inv_read : exists pre post known, filed = pre ++ post /\ offset nf = length (text pre) /\
    by_time (known ++ post) /\ Forall (fun e => e.2 <= clock) known /\
    covers clock (seen nf) known /\ (forall e, e ∈ pre ++ kept -> e ∈ known);
  inv_from : from (seen nf) (filed ++ kept);
}.

Lemma covers_nil clock m : covers clock m [].
Proof. intros k t Hin. by apply not_elem_of_nil in Hin. Qed.

Lemma proc_inv_open clock h : by_time h -> proc_inv clock NonceFile_open h [].
Proof.
  intros Hs. split; [|done]. exists [], h, [].
  split_and!; [done|done|done|constructor|apply covers_nil|intros e He; by apply not_elem_of_nil in He].
Qed.

Lemma by_time_app h h' now : by_time h -> by_time h' -> (forall e, e ∈ h -> e.2 <= now) ->
  (forall e, e ∈ h' -> now <= e.2) -> by_time (h ++ h').
Proof.
  intros Hh Hh' Hl Hr. apply StronglySorted_app. split_and!; [|done|done].
  intros x y Hx Hy. specialize (Hl x Hx). specialize (Hr y Hy). lia.
Qed.

(** Time passes, and a line of that time may be appended. *)
Lemma proc_inv_later clock now nf h h' own : clock <= now -> (forall e, e ∈ h -> e.2 <= clock) ->
  by_time h' -> (forall e, e ∈ h' -> now <= e.2) ->
  proc_inv clock nf h own -> proc_inv now nf (h ++ h') own.
Proof.
  intros Hc Hpast Hs' Hn [(pre & post & known & -> & Ho & Hs & Hk & Hcov & Hin) Hf]. split.
  - exists pre, (post ++ h'), known. split_and!; [by rewrite <- app_assoc|done| | | |done].
    + rewrite app_assoc. apply by_time_app with now; [done|done| |done].
      intros e [He|He]%elem_of_app.
      * rewrite Forall_forall in Hk. specialize (Hk e He). cbn in Hk. lia.
      * assert (e.2 <= clock) by (apply Hpast, elem_of_app; by right). lia.
    + eapply Forall_impl; [exact Hk|]. cbn. lia.
    + intros k t Hkt Hl. apply Hcov; [done|by eapply live_later].
  - intros k t Hkt. specialize (Hf k t Hkt). set_solver.
Qed.

(** A pass brings the process up to date with the whole file. *)
Lemma refresh_spec clock f nf h own : proc_inv clock nf h own -> Forall entry_ok h ->
  (forall e, e ∈ h -> e.2 <= clock) -> default [] f = text h -> (f = None -> h = []) ->
  offset (refresh f nf) = length (text h) /\
  (exists known, by_time known /\ Forall (fun e => e.2 <= clock) known /\
     covers clock (seen (refresh f nf)) known /\ (forall e, e ∈ h ++ own -> e ∈ known)) /\
  from (seen (refresh f nf)) (h ++ own).
Proof.
  intros [(pre & post & known & -> & Ho & Hs & Hk & Hcov & Hin) Hf] Hok Hpast Htext Hnone.
  destruct f as [content|]; cbn [refresh default] in *.
  - cbn in Htext. subst content. rewrite text_app, length_app, (proj2 (Nat.ltb_ge _ _)) by lia.
    rewrite Ho, drop_app_length, complete_text, firstn_all. cbn [offset seen].
    apply Forall_app in Hok as [_ Hok]. rewrite fold_lines_text by done. split_and!; [done| |].
    + exists (known ++ post). split_and!; [done| |by apply covers_fold|set_solver].
      apply Forall_app. split; [done|]. apply Forall_forall. intros e He. apply Hpast. set_solver.
    + apply from_fold; [done|set_solver].
  - specialize (Hnone eq_refl). apply app_eq_nil in Hnone as [-> ->]. rewrite app_nil_r in Hs.
    split_and!; [done|by exists known|done].
Qed.

Lemma retain_covers now m h : covers now m h -> covers now (retain_live now m) h.
Proof.
  intros Hc k t Hin Hl. destruct (Hc k t Hin Hl) as (t' & Hm & Ht). exists t'. split; [|done].
  apply map_lookup_filter_Some. split; [done|]. cbn. by eapply live_recent.
Qed.

Lemma retain_from now m h : from m h -> from (retain_live now m) h.
Proof. intros Hf k t [Hm _]%map_lookup_filter_Some. by apply Hf. Qed.

(** A key is known exactly when a live entry of it is on file or was accepted here. *)
Lemma known_live now m h known key : covers now m known -> (forall e, e ∈ h -> e ∈ known) -> from m h ->
  is_Some (retain_live now m !! key) <-> exists t, (key, t) ∈ h /\ live now t = true.
Proof.
  intros Hc Hin Hf. split.
  - intros (t & [Hm Hl]%map_lookup_filter_Some). exists t. split; [by apply Hf|done].
  - intros (t & Ht & Hl). destruct (retain_covers _ _ _ Hc key t (Hin _ Ht) Hl) as (t' & Hm & _). by exists t'.
Qed.

Record world_inv (w : World) : Prop := {
  inv_entries : Forall entry_ok (filed w);
  inv_sorted : by_time (filed w);
  inv_past : forall e, e ∈ filed w -> e.2 <= clock w;
  inv_file : default [] (file w) = text (filed w);
  inv_absent : file w = None -> filed w = [];
  inv_procs : forall i, proc_inv (clock w) (proc w i) (filed w) (kept_by w i);
}.

Lemma world_inv_new : world_inv World_new.
Proof.
  split; [constructor|constructor|intros e He; by apply not_elem_of_nil in He|done|done|].
  intros i. unfold proc, kept_by. cbn. rewrite !lookup_empty. apply proc_inv_open. constructor.
Qed.

(** The process that records, once it has read the ledger and dropped what is dead. *)
Definition looked (w : World) (i : nat) (now : N) : NonceFile :=
  let nf := refresh (file w) (proc w i) in mkNonceFile (retain_live now (seen nf)) (offset nf).

Lemma looked_spec w i now : world_inv w -> clock w <= now ->
  offset (looked w i now) = length (text (filed w)) /\
  (exists known, by_time known /\ Forall (fun e => e.2 <= now) known /\
     covers now (seen (looked w i now)) known /\ (forall e, e ∈ filed w ++ kept_by w i -> e ∈ known)) /\
  from (seen (looked w i now)) (filed w ++ kept_by w i) /\
  forall key, is_Some (seen (looked w i now) !! key)
              <-> exists t, (key, t) ∈ filed w ++ kept_by w i /\ live now t = true.
Proof.
  intros Hi Hc.
  assert (proc_inv now (proc w i) (filed w) (kept_by w i)) as Hp.
  { rewrite <- (app_nil_r (filed w)). apply (proc_inv_later (clock w)); [done|by apply Hi|constructor| |by apply Hi].
    intros e He. by apply not_elem_of_nil in He. }
  destruct (refresh_spec now (file w) _ _ _ Hp (inv_entries _ Hi)) as (Ho & (known & Hs & Hk & Hcov & Hin) & Hf).
  { intros e He. pose proof (inv_past _ Hi e He). lia. }
  { by apply Hi. }
  { by apply Hi. }
  split_and!; [done| |by apply retain_from|].
  - exists known. split_and!; [done|done|by apply retain_covers|done].
  - intros key. by apply known_live with known.
Qed.

Lemma recorded_answer w i key now wrote swapped :
  (recorded w i key now wrote swapped).1 = negb (bool_decide (is_Some (seen (looked w i now) !! key))).
Proof.
  unfold recorded, record, looked. cbn [seen]. destruct (decide _) as [Hs|Hs].
  - by rewrite bool_decide_true.
  - rewrite bool_decide_false by done. cbn [seen offset].
    destruct wrote; cbn [seen]; (destruct (CAP <? _); [unfold compact; destruct swapped|]; done).
Qed.

Definition appended (w : World) (key : rstr) (now : N) (wrote : Append) : option rstr :=
  match wrote with
  | Unopened => file w
  | Torn n => Some (default [] (file w) ++ take n (ledger_line key now))
  | Written => Some (default [] (file w) ++ ledger_line key now)
  end.
Definition advance (key : rstr) (now : N) (wrote : Append) : nat :=
  match wrote with Written => length (ledger_line key now) | _ => 0%nat end.

(** The state after a record below the compaction bound. *)
Lemma recorded_state w i key now wrote swapped :
  N.of_nat (size (seen (proc (recorded w i key now wrote swapped).2 i))) <= CAP ->
  (recorded w i key now wrote swapped).2 =
  if decide (is_Some (seen (looked w i now) !! key))
  then mkWorld (file w) (<[i := looked w i now]> (procs w)) now
         (filed w ++ match wrote with Written => [] | _ => [] end) (<[i := kept_by w i ++ []]> (kept w))
  else mkWorld (appended w key now wrote)
         (<[i := mkNonceFile (<[key := now]> (seen (looked w i now)))
                   (offset (looked w i now) + advance key now wrote)]> (procs w))
         now (filed w ++ match wrote with Written => [(key, now)] | _ => [] end)
         (<[i := kept_by w i ++ [(key, now)]]> (kept w)).
Proof.
  unfold recorded, record, looked. cbn [seen]. destruct (decide _) as [Hs|Hs]; [done|]. cbn [seen offset].
  destruct wrote; cbn [seen offset appended advance].
  all: destruct (CAP <? _) eqn:E; [|rewrite ?Nat.add_0_r; done].
  all: apply N.ltb_lt in E; destruct swapped; cbn [compact snd]; unfold proc at 1; cbn [procs].
  all: rewrite lookup_insert_eq; cbn [from_option seen id]; unfold id; cbn [seen]; intros Hle; exfalso;
    by apply N.lt_nge in E.
Qed.

Lemma appended_text w key now wrote : whole wrote = true -> world_inv w ->
  default [] (appended w key now wrote)
    = text (filed w ++ match wrote with Written => [(key, now)] | _ => [] end) /\
  (appended w key now wrote = None -> filed w = [] /\ wrote = Unopened).
Proof.
  intros Hw Hi. destruct wrote as [| |[|n]]; cbn [appended default from_option] in *; try done.
  - rewrite app_nil_r. split; [by apply Hi|]. intros Hn. split; [by apply Hi|done].
  - rewrite text_app, <- (inv_file _ Hi). unfold text. cbn. by rewrite app_nil_r.
  - rewrite !app_nil_r. split; [by apply Hi|done].
Qed.

Lemma procs_lookup f ps c h own i nf k j :
  proc (mkWorld f (<[i := nf]> ps) c h (<[i := k]> own)) j
    = (if decide (i = j) then nf else default NonceFile_open (ps !! j)) /\
  kept_by (mkWorld f (<[i := nf]> ps) c h (<[i := k]> own)) j
    = (if decide (i = j) then k else default [] (own !! j)).
Proof.
  unfold proc, kept_by. cbn [procs kept]. destruct (decide (i = j)) as [<-|Hne].
  - by rewrite !lookup_insert_eq.
  - by rewrite !lookup_insert_ne.
Qed.

(** The process that accepted a nonce knows it, filed or not. *)
Lemma proc_inv_accept now nf h own wrote key known :
  offset nf = length (text h) -> by_time known -> Forall (fun e => e.2 <= now) known ->
  covers now (seen nf) known -> (forall e, e ∈ h ++ own -> e ∈ known) -> from (seen nf) (h ++ own) ->
  proc_inv now (mkNonceFile (<[key := now]> (seen nf)) (offset nf + advance key now wrote))
    (h ++ match wrote with Written => [(key, now)] | _ => [] end) (own ++ [(key, now)]).
Proof.
  intros Ho Hs Hk Hcov Hin Hf.
  change (<[key := now]> (seen nf)) with (fold_entries (seen nf) [(key, now)]). split.
  - exists (h ++ match wrote with Written => [(key, now)] | _ => [] end), [], (known ++ [(key, now)]).
    rewrite !app_nil_r.
    assert (by_time (known ++ [(key, now)])) as Hs'.
    { apply by_time_app with now; [done|repeat constructor| |].
      - rewrite Forall_forall in Hk. done.
      - intros e ->%list_elem_of_singleton. cbn. lia. }
    split_and!; [done| |done| |by apply covers_fold|].
    + cbn [offset]. rewrite text_app, length_app, Ho. f_equal.
      destruct wrote; try done. unfold text. cbn. by rewrite app_nil_r.
    + apply Forall_app. split; [done|]. by repeat constructor.
    + intros e He. destruct wrote; set_solver.
  - apply from_fold; [|set_solver]. intros k t Hkt. specialize (Hf k t Hkt). set_solver.
Qed.

Lemma filed_entries w key now (wrote : Append) : clock w <= now -> now <= u64_max -> NEWLINE ∉ key -> world_inv w ->
  let h := filed w ++ match wrote with Written => [(key, now)] | _ => [] end in
  Forall entry_ok h /\ by_time h /\ (forall e, e ∈ h -> e.2 <= now).
Proof.
  intros Hc Hmax Hn Hi h.
  assert (forall e, e ∈ filed w -> e.2 <= now) as Hpast by (intros e He; pose proof (inv_past _ Hi e He); lia).
  unfold h. destruct wrote; rewrite ?app_nil_r; try (split_and!; [by apply Hi|by apply Hi|done]).
  split_and!.
  - apply Forall_app. split; [by apply Hi|]. by repeat constructor.
  - apply by_time_app with now; [by apply Hi|repeat constructor|done|].
    intros e ->%list_elem_of_singleton. cbn. lia.
  - intros e [He| ->%list_elem_of_singleton]%elem_of_app; [by apply Hpast|done].
Qed.

Lemma records_inv w w' : records w w' -> world_inv w -> world_inv w'.
Proof.
  intros [w0 i key now wrote swapped Hc Hmax Hn Hw Hcap] Hi. rewrite (recorded_state _ _ _ _ _ _ Hcap). clear Hcap.
  destruct (looked_spec w0 i now Hi Hc) as (Ho & (known & Hs & Hk & Hcov & Hin) & Hf & _).
  destruct (filed_entries w0 key now wrote Hc Hmax Hn Hi) as (Hok & Hsort & Hpast).
  destruct (appended_text w0 key now wrote Hw Hi) as [Htext Hnone].
  assert (forall h', by_time h' -> (forall e, e ∈ h' -> now <= e.2) -> forall j,
    proc_inv now (default NonceFile_open (procs w0 !! j)) (filed w0 ++ h') (default [] (kept w0 !! j))) as Hother.
  { intros h' Hb Hl j. apply (proc_inv_later (clock w0)); [done|by apply Hi|done|done|by apply Hi]. }
  destruct (decide _) as [Hknown|Hnew]; split; cbn [file clock filed].
  - destruct wrote; rewrite app_nil_r; by apply Hi.
  - destruct wrote; rewrite app_nil_r; by apply Hi.
  - intros e He. assert (e ∈ filed w0) as He' by (destruct wrote; by rewrite app_nil_r in He).
    pose proof (inv_past _ Hi e He'). lia.
  - destruct wrote; rewrite app_nil_r; by apply Hi.
  - destruct wrote; rewrite app_nil_r; by apply Hi.
  - intros j. replace (match wrote with Written => [] | _ => [] end) with (@nil (rstr * N)) by (by destruct wrote).
    destruct (procs_lookup (file w0) (procs w0) now (filed w0 ++ []) (kept w0) i (looked w0 i now) (kept_by w0 i ++ []) j)
      as [-> ->]. case_decide; [subst j|].
    + rewrite !app_nil_r. split; [|done]. exists (filed w0), [], known. rewrite !app_nil_r. by split_and!.
    + apply Hother; [constructor|]. intros e He. by apply not_elem_of_nil in He.
  - done.
  - done.
  - done.
  - done.
  - intros Hno. destruct (Hnone Hno) as [-> ->]. done.
  - intros j. destruct (procs_lookup (appended w0 key now wrote) (procs w0) now
      (filed w0 ++ match wrote with Written => [(key, now)] | _ => [] end) (kept w0) i
      (mkNonceFile (<[key := now]> (seen (looked w0 i now))) (offset (looked w0 i now) + advance key now wrote))
      (kept_by w0 i ++ [(key, now)]) j) as [-> ->]. case_decide; [subst j|].
    + by apply proc_inv_accept with known.
    + apply Hother; [destruct wrote; repeat constructor|].
      intros e He. destruct wrote; set_solver by lia.
Qed.

Lemma reopened_inv w i : world_inv w -> world_inv (restart w i).
Proof.
  intros Hi. split; cbn [file clock filed restart]; try apply Hi. intros j. unfold proc, kept_by. cbn [restart procs kept].
  destruct (decide (i = j)) as [<-|Hne].
  - rewrite !lookup_delete_eq. by apply proc_inv_open, Hi.
  - rewrite !lookup_delete_ne by done. by apply Hi.
Qed.

Lemma reachable_world_inv w : reachable w -> world_inv w.
Proof.
  unfold reachable. generalize world_inv_new. generalize World_new. intros w0 Hi Hr.
  induction Hr as [w|w w1 w2 [Hs|[k ->]] Hr IH]; [done| |]; apply IH; [by eapply records_inv|by apply reopened_inv].
Qed.

Lemma live_false now t : live now t = false <-> REQ_SKEW_SECS * 2 <= now - t.
Proof. unfold live. apply N.ltb_ge. Qed.

Lemma recorded_iff w i key now wrote swapped : world_inv w -> clock w <= now ->
  (recorded w i key now wrote swapped).1 = true
  <-> forall t, (key, t) ∈ filed w ++ kept_by w i -> live now t = false.
Proof.
  intros Hi Hc. destruct (looked_spec w i now Hi Hc) as (_ & _ & _ & Hs).
  rewrite recorded_answer, negb_true_iff, bool_decide_eq_false, Hs. split.
  - intros Hno t Hin. destruct (live now t) eqn:E; [|done]. exfalso. eauto.
  - intros Hall (t & Hin & Hl). rewrite (Hall t Hin) in Hl. done.
Qed.

(** What is on file stays there; what a process accepted stays with it while it runs. *)
Lemma filed_grows w w' e : step w w' -> e ∈ filed w -> e ∈ filed w'.
Proof.
  intros [[w0 i key now wrote swapped _ _ _ _ _]|[i ->]]; [|done].
  unfold recorded. destruct (record _ _ _ _ _ _) as [[ok f] nf]. cbn. set_solver.
Qed.

Lemma kept_grows w w' i e : step_running i w w' -> e ∈ kept_by w i -> e ∈ kept_by w' i.
Proof.
  intros [[w0 j key now wrote swapped _ _ _ _ _]|[j [Hj ->]]].
  - unfold recorded. destruct (record _ _ _ _ _ _) as [[ok f] nf]. unfold kept_by. cbn [snd kept].
    destruct (decide (j = i)) as [->|Hne]; [rewrite lookup_insert_eq; cbn; set_solver|by rewrite lookup_insert_ne].
  - unfold kept_by. cbn [restart kept]. by rewrite lookup_delete_ne.
Qed.

Lemma filed_stays w w' e : rtc step w w' -> e ∈ filed w -> e ∈ filed w'.
Proof. induction 1 as [|w w1 w2 Hs Hr IH]; [done|]. intros He. by apply IH, (filed_grows w). Qed.

Lemma kept_stays w w' i e : rtc (step_running i) w w' -> e ∈ kept_by w i -> e ∈ kept_by w' i.
Proof. induction 1 as [|w w1 w2 Hs Hr IH]; [done|]. intros He. by apply IH, (kept_grows w). Qed.

Lemma running_steps i w w' : rtc (step_running i) w w' -> rtc step w w'.
Proof.
  induction 1 as [|w w1 w2 Hs Hr IH]; [done|]. eapply rtc_l; [|done].
  destruct Hs as [Hs|[k [_ ->]]]; [by left|right; by exists k].
Qed.

(** An accepted nonce is kept by the process, and on file when its append succeeded. *)
Lemma recorded_true w i key now wrote swapped w' : recorded w i key now wrote swapped = (true, w') ->
  (key, now) ∈ kept_by w' i /\ (wrote = Written -> (key, now) ∈ filed w').
Proof.
  unfold recorded. destruct (record _ _ _ _ _ _) as [[[] f] nf]; [|done]. intros [= <-].
  unfold kept_by at 1. cbn [kept filed]. rewrite lookup_insert_eq. cbn. split; [set_solver|]. intros ->. set_solver.
Qed.

(** ** The properties *)

(** A nonce is accepted exactly when none within the last ten minutes is on file or was
    accepted by the same process since it started, in every world reached by whole appends
    without a compaction. *)
Theorem record_is_exact (w : World) (i : nat) (key : rstr) (now : N) (wrote : Append) (swapped : bool) :
  reachable w -> clock w <= now ->
  (recorded w i key now wrote swapped).1 = true <->
  (forall t, (key, t) ∈ filed w ++ kept_by w i -> REQ_SKEW_SECS * 2 <= now - t).
Proof.
  intros Hr Hc. rewrite (recorded_iff w i key now wrote swapped (reachable_world_inv _ Hr) Hc).
  by setoid_rewrite live_false.
Qed.

(** A nonce whose append failed is known to one process only: any other process accepts it
    again, at once. *)
Lemma unfiled_nonce_is_accepted_again :
  let '(a, w) := recorded World_new 0 (rs "n:x") 1000 Unopened true in
  let '(b, _) := recorded w 0 (rs "n:x") 1001 Written true in
  let '(c, _) := recorded w 1 (rs "n:x") 1001 Written true in
  (a, b, c) = (true, false, true).
Proof. vm_compute. reflexivity. Qed.

(** A compaction that leaves the file at least as long as what another process had read of
    it goes unnoticed there: that process folds only what lies beyond its offset, whatever
    the file holds before it. *)
Lemma refresh_blind (before before' after : rstr) (nf : NonceFile) :
  length before = offset nf -> length before' = offset nf ->
  refresh (Some (before ++ after)) nf = refresh (Some (before' ++ after)) nf.
Proof.
  intros H1 H2. unfold refresh.
  rewrite !length_app, !(proj2 (Nat.ltb_ge _ _)) by lia.
  assert (drop (offset nf) (before ++ after) = after) as -> by (rewrite <- H1; apply drop_app_length).
  assert (drop (offset nf) (before' ++ after) = after) as -> by (rewrite <- H2; apply drop_app_length).
  done.
Qed.

(** A torn append is not dropped: the next line is glued to it, so another process does not
    learn the nonce that line records, and accepts it again. *)
Lemma torn_line_hides_the_next :
  let '(a, f, p) := record None NonceFile_open (rs "n:x") 1000 (Torn 3) true in
  let '(b, f, p) := record f p (rs "n:y") 1001 Written true in
  let '(c, f, _) := record f NonceFile_open (rs "n:y") 1002 Written true in
  (a, b, c) = (true, true, true).
Proof. vm_compute. reflexivity. Qed.

Lemma record_is_exact_witness :
  (recorded (recorded World_new 0 (rs "n:x") 1000 Written true).2 1 (rs "n:x") 1700 Unopened true).1 = true.
Proof.
  apply (record_is_exact (recorded World_new 0 (rs "n:x") 1000 Written true).2 1 (rs "n:x") 1700 Unopened true).
  - apply rtc_once. left. apply records_key; [done|done|vm_compute; set_solver|done|vm_compute; discriminate].
  - vm_compute. discriminate.
  - intros t [Ht|Ht]%elem_of_cons; [injection Ht as ->; vm_compute; discriminate|].
    by apply not_elem_of_nil in Ht.
Defined.
