(* ===== verification/NetGuard.v ===== *)
(** * NetGuard: admission of network requests
    ([crates/susi-core/src/net_guard.rs])

    [is_authorized] decides whether a request may be served: by a member's signature over
    the request, by the host's API token, or by the cluster's shared bearer when the peer's
    address belongs to no banned and no key-bound member.  [RateLimiter] meters what was
    admitted.

    The configuration files, the clock, the file lock and the outcomes of the writes to the
    nonce ledger are the fields of [Env]; a roster
    row keeps the fields the code reads.  A text with no colon parses as an [IpAddr] exactly
    when it is a dotted quad, so [parse_host] is IPv4.  An [IpAddr] is its 32 or 128 bits. *)

From S2P Require Import Prelude Text Money ClusterKey Pacer NonceLedger.

Local Open Scope string_scope.
Local Open Scope list_scope.
Local Open Scope N_scope.

(** ** Addresses *)

Inductive IpAddr : Type := V4 (a : N) | V6 (a : N).

#[export] Instance IpAddr_eq_dec : EqDecision IpAddr.
Proof. solve_decision. Defined.
#[export] Instance IpAddr_countable : Countable IpAddr.
Proof.
  refine (inj_countable' (fun ip => match ip with V4 a => inl a | V6 a => inr a end)
            (fun s => match s with inl a => V4 a | inr a => V6 a end) _).
  by intros [].
Defined.

Definition is_loopback (ip : IpAddr) : bool :=
  match ip with
  | V4 a => a / 2 ^ 24 =? 127
  | V6 a => a =? 1
  end.
Definition to_ipv4_mapped (a : N) : option N :=
  if a / 2 ^ 32 =? 65535 then Some (a mod 2 ^ 32) else None.
Definition to_canonical (ip : IpAddr) : IpAddr :=
  match ip with
  | V4 a => V4 a
  | V6 a => match to_ipv4_mapped a with Some v4 => V4 v4 | None => V6 a end
  end.

(** [str::split]. *)
Fixpoint split_from (sep : N) (cur s : rstr) : list rstr :=
  match s with
  | [] => [rev cur]
  | c :: s' => if c =? sep then rev cur :: split_from sep [] s' else split_from sep (c :: cur) s'
  end.
Definition split (sep : N) (s : rstr) : list rstr := split_from sep [] s.

(** [Ipv4Addr::from_str]: four groups of one to three digits, none with a leading zero. *)
Definition octet (s : rstr) : option N :=
  let leading_zero := match s with 48 :: _ :: _ => true | _ => false end in
  if match s with [] => true | _ => false end || (3 <? length s)%nat || negb (forallb is_ascii_digit s) || leading_zero
  then None
  else v ← parse_digits 0 s; if v <=? 255 then Some v else None.
Definition parse_ipv4 (s : rstr) : option N :=
  match split 46 s with
  | [a; b; c; d] =>
      a ← octet a; b ← octet b; c ← octet c; d ← octet d;
      Some (((a * 256 + b) * 256 + c) * 256 + d)
  | _ => None
  end.
(** [a.split(':').next().and_then(|h| h.parse::<IpAddr>().ok())]. *)
Definition parse_host (address : string) : option IpAddr :=
  h ← head (split 58 (rs address)); V4 <$> parse_ipv4 h.

Example host_v4 : parse_host "10.0.0.5:8443" = Some (V4 167772165).
Proof. reflexivity. Qed.
Example host_v6 : parse_host "[fd00::1]:8443" = None.
Proof. reflexivity. Qed.
Example host_octal : parse_host "10.0.0.05:8443" = None.
Proof. reflexivity. Qed.

(** ** Requests *)

Record SignedRequest : Type := mkSigned {
  sg_node : option string;
  sg_ts : option N;
  sg_nonce : option string;
  sg_sig : option string;
}.
Definition unsigned : SignedRequest := mkSigned None None None None.
Definition is_some {A} (o : option A) : bool := match o with Some _ => true | None => false end.
Definition present (s : SignedRequest) : bool := is_some (sg_sig s) || is_some (sg_node s) || is_some (sg_nonce s).

Record Request : Type := mkRequest {
  auth_header : option string;
  peer : IpAddr;
  signed : SignedRequest;
  method : string;
  path : string;
  body : option (list N);
}.

(** A row of [peers.json] or [peers_banned.json], by the strings it holds. *)
Record Row : Type := mkRow {
  row_node_id : option string;
  row_pubkey : option string;
  row_address : option string;
}.

Record Env : Type := mkEnv {
  api_auth_token : string;
  shared_key : option (list N);
  peers : list Row;
  banned : result (list Row) unit;
  now_secs : N;
  lock_acquired : bool;
  nonce_append : Append;
  ledger_swapped : bool;
}.

(** [constant_time_eq]: the differences of all bytes, or-ed together. *)
Definition constant_time_eq (a b : list N) : bool :=
  if negb (length a =? length b)%nat then false
  else fold_left (fun diff xy => N.lor diff (N.lxor xy.1 xy.2)) (zip a b) 0 =? 0.
Definition same_text (a b : string) : bool := constant_time_eq (rs a) (rs b).

Definition row_host (r : Row) : option IpAddr := a ← row_address r; parse_host a.
Definition has_key (r : Row) : bool := negb (bool_decide (default EmptyString (row_pubkey r) = EmptyString)).

Fixpoint bound_member (rows : list Row) (node : string) : option (string * IpAddr) :=
  match rows with
  | [] => None
  | p :: rows' =>
      let found :=
        if negb (bool_decide (row_node_id p = Some node)) then None
        else if negb (has_key p) then None
        else ip ← row_host p; Some (default EmptyString (row_pubkey p), ip) in
      match found with Some b => Some b | None => bound_member rows' node end
  end.
Definition peer_key_bound (rows : list Row) (ip : IpAddr) : bool :=
  existsb (fun p => has_key p && bool_decide (row_host p = Some ip)) rows.
Definition peer_address_banned (rows : result (list Row) unit) (ip : IpAddr) : bool :=
  match rows with
  | Ok rows => existsb (fun b => bool_decide (row_host b = Some ip)) rows
  | Err _ => true
  end.

(** [record_nonce], by process [i] of the node. *)
Definition nonce_key (node nonce : string) : rstr := rs (node +:+ ":" +:+ nonce).
Definition record_nonce (e : Env) (i : nat) (node nonce : string) (w : World) : bool * World :=
  if lock_acquired e
  then recorded w i (nonce_key node nonce) (now_secs e) (nonce_append e) (ledger_swapped e)
  else (false, w).

Definition abs_diff (a b : N) : N := if a <? b then b - a else a - b.

Section Authorization.
Context `{C : Crypto}.

(** The signed texts. *)
Definition v1_text (node : string) (ts : N) (nonce method path : string) : string :=
  "susi-peer-req-v1:" +:+ node +:+ ":" +:+ dec ts +:+ ":" +:+ nonce +:+ ":" +:+ method +:+ ":" +:+ path.
Definition v2_text (node : string) (ts : N) (nonce method path : string) (body : list N) : string :=
  "susi-peer-req-v2:" +:+ node +:+ ":" +:+ dec ts +:+ ":" +:+ nonce +:+ ":" +:+ method +:+ ":" +:+ path +:+ ":"
  +:+ hex_encode (sha256 body).
Definition signature_ok (pubkey : string) (r : Request) (node : string) (ts : N) (nonce sig : string) : bool :=
  match body r with
  | Some bytes =>
      member_verify pubkey (v2_text node ts nonce (method r) (path r) bytes) sig
      || member_verify pubkey (v1_text node ts nonce (method r) (path r)) sig
  | None => member_verify pubkey (v1_text node ts nonce (method r) (path r)) sig
  end.

Definition signed_request_valid (e : Env) (i : nat) (r : Request) (w : World) : bool * World :=
  match sg_node (signed r), sg_ts (signed r), sg_nonce (signed r), sg_sig (signed r) with
  | Some node, Some ts, Some nonce, Some sig =>
      match bound_member (peers e) node with
      | None => (false, w)
      | Some (pubkey, member_ip) =>
          if negb (bool_decide (member_ip = peer r)) then (false, w)
          else if REQ_SKEW_SECS <? abs_diff (now_secs e) ts then (false, w)
          else if signature_ok pubkey r node ts nonce sig then record_nonce e i node nonce w
          else (false, w)
      end
  | _, _, _, _ => (false, w)
  end.

Definition peer_bearer (e : Env) : option string :=
  (fun k => hmac_sha256_hex k (rs "susi-peer-bearer-v1")) <$> shared_key e.

Definition presented (r : Request) : option string := h ← auth_header r; strip_prefix "Bearer " h.

(** The second half of [is_authorized], when no signature authorized the request. *)
Definition bearer_ok (e : Env) (r : Request) : bool :=
  match presented r with
  | Some p =>
      if negb (bool_decide (api_auth_token e = EmptyString)) && same_text p (api_auth_token e) then true
      else match peer_bearer e with
           | Some pb => same_text p pb && negb (peer_address_banned (banned e) (peer r))
                        && negb (peer_key_bound (peers e) (peer r))
           | None => false
           end
  | None => bool_decide (api_auth_token e = EmptyString) && is_loopback (peer r)
  end.

Definition is_authorized (e : Env) (i : nat) (r : Request) (w : World) : bool * World :=
  if present (signed r) then
    let '(ok, w) := signed_request_valid e i r w in
    if ok then (true, w) else (bearer_ok e r, w)
  else (bearer_ok e r, w).

Definition is_local_host_bearer (e : Env) (header : option string) (ip : IpAddr) : bool :=
  if negb (is_loopback (to_canonical ip)) then false
  else negb (bool_decide (api_auth_token e = EmptyString))
       && match (h ← header; strip_prefix "Bearer " h) with
          | Some p => same_text p (api_auth_token e)
          | None => false
          end.
End Authorization.

(** ** Comparing credentials *)

Lemma lor_differences d a b : length a = length b ->
  fold_left (fun diff xy => N.lor diff (N.lxor xy.1 xy.2)) (zip a b) d = 0 <-> d = 0 /\ a = b.
Proof.
  revert d b. induction a as [|x a IH]; intros d [|y b] Hlen; cbn in Hlen; [cbn; naive_solver|done|done|].
  cbn [zip zip_with fold_left]. rewrite IH by lia. cbn [fst snd]. rewrite N.lor_eq_0_iff, N.lxor_eq_0_iff.
  naive_solver.
Qed.

(** The timing-safe comparison of credentials decides equality. *)
Lemma constant_time_eq_spec (a b : list N) : constant_time_eq a b = true <-> a = b.
Proof.
  unfold constant_time_eq. destruct (Nat.eqb_spec (length a) (length b)) as [Hl|Hl]; cbn [negb].
  - rewrite N.eqb_eq, lor_differences by done. naive_solver.
  - split; [done|]. by intros ->.
Qed.

Lemma same_text_eq a b : same_text a b = true <-> a = b.
Proof.
  unfold same_text, rs. rewrite constant_time_eq_spec. split; [apply bytes_of_inj|by intros ->].
Qed.

(** ** Standing *)

(** A peer's address is in good standing for the shared bearer: the ban list is readable and
    names it in no row, and no key-bound member is registered at it. *)
Definition in_standing (e : Env) (ip : IpAddr) : Prop :=
  (exists rows, banned e = Ok rows /\ forall b, In b rows -> row_host b <> Some ip) /\
  (forall p, In p (peers e) -> has_key p = true -> row_host p <> Some ip).

Lemma in_standing_spec e ip :
  negb (peer_address_banned (banned e) ip) && negb (peer_key_bound (peers e) ip) = true <-> in_standing e ip.
Proof.
  unfold peer_address_banned, peer_key_bound, in_standing. rewrite andb_true_iff, !negb_true_iff.
  rewrite existsb_false. setoid_rewrite andb_false_iff. setoid_rewrite bool_decide_eq_false.
  assert ((forall p, In p (peers e) -> has_key p = false \/ row_host p <> Some ip) <->
    (forall p, In p (peers e) -> has_key p = true -> row_host p <> Some ip)) as ->.
  { split; intros H p Hp; [intros Hk; destruct (H p Hp); [congruence|done]|].
    destruct (has_key p) eqn:E; [right; by apply H|by left]. }
  destruct (banned e) as [rows|err]; [|naive_solver].
  rewrite existsb_false. setoid_rewrite bool_decide_eq_false. naive_solver.
Qed.

Section Admission.
Context `{C : Crypto}.

(** Who is admitted: a request is authorized exactly when it carries a valid signature,
    or presents the host's (seeded) API token, or presents the bearer derived from the
    cluster key from an address in good standing, or, before the token is seeded, comes from
    loopback without a bearer. *)
Theorem admission_exact (e : Env) (i : nat) (r : Request) (w : World) :
  (is_authorized e i r w).1 = true <->
  (present (signed r) = true /\ (signed_request_valid e i r w).1 = true) \/
  (exists p, presented r = Some p /\
     ((api_auth_token e <> EmptyString /\ p = api_auth_token e) \/
      (peer_bearer e = Some p /\ in_standing e (peer r)))) \/
  (presented r = None /\ api_auth_token e = EmptyString /\ is_loopback (peer r) = true).
Proof.
  assert (bearer_ok e r = true <->
    (exists p, presented r = Some p /\
     ((api_auth_token e <> EmptyString /\ p = api_auth_token e) \/
      (peer_bearer e = Some p /\ in_standing e (peer r)))) \/
    (presented r = None /\ api_auth_token e = EmptyString /\ is_loopback (peer r) = true)) as Hb.
  { unfold bearer_ok. destruct (presented r) as [p|].
    - assert (negb (bool_decide (api_auth_token e = EmptyString)) && same_text p (api_auth_token e) = true <->
        api_auth_token e <> EmptyString /\ p = api_auth_token e) as Ht
        by (by rewrite andb_true_iff, negb_true_iff, bool_decide_eq_false, same_text_eq).
      destruct (negb _ && _); [naive_solver|].
      destruct (peer_bearer e) as [pb|]; [|naive_solver].
      rewrite <- andb_assoc, andb_true_iff, in_standing_spec, same_text_eq. naive_solver.
    - rewrite andb_true_iff, bool_decide_eq_true. naive_solver. }
  unfold is_authorized. destruct (present (signed r)); [|naive_solver].
  destruct (signed_request_valid e i r w) as [[] w']; cbn [fst]; naive_solver.
Qed.
End Admission.

(** ** Replays *)

Section Replay.
Context `{C : Crypto}.

Lemma abs_diff_le a b n : abs_diff a b <= n <-> a <= b + n /\ b <= a + n.
Proof. unfold abs_diff. destruct (N.ltb_spec a b); lia. Qed.

(** What a valid signature shows. *)
Lemma signed_valid_inv e i r w w' node ts nonce :
  signed_request_valid e i r w = (true, w') ->
  sg_node (signed r) = Some node -> sg_ts (signed r) = Some ts -> sg_nonce (signed r) = Some nonce ->
  now_secs e <= ts + REQ_SKEW_SECS /\ ts <= now_secs e + REQ_SKEW_SECS /\
  recorded w i (nonce_key node nonce) (now_secs e) (nonce_append e) (ledger_swapped e) = (true, w').
Proof.
  unfold signed_request_valid, record_nonce. intros H Hn Hts Hc. rewrite Hn, Hts, Hc in H.
  destruct (sg_sig (signed r)) as [sig|]; [|done].
  destruct (bound_member (peers e) node) as [[pk ip]|]; [|done].
  destruct (negb _); [done|]. destruct (N.ltb_spec REQ_SKEW_SECS (abs_diff (now_secs e) ts)) as [Hlt|Hle]; [done|].
  apply abs_diff_le in Hle as [H1 H2]. destruct (signature_ok _ _ _ _ _ _); [|done].
  by destruct (lock_acquired e).
Qed.

(** A nonce that is on file, or that the process asked accepted itself, ten minutes ago or
    less is refused. *)
Lemma known_nonce_refused (e : Env) (j : nat) (r : Request) (w w' : World) (node nonce : string) (ts t : N) :
  sg_node (signed r) = Some node -> sg_ts (signed r) = Some ts -> sg_nonce (signed r) = Some nonce ->
  reachable w -> clock w <= now_secs e -> (nonce_key node nonce, t) ∈ filed w ++ kept_by w j ->
  signed_request_valid e j r w = (true, w') ->
  now_secs e <= ts + REQ_SKEW_SECS /\ t + REQ_SKEW_SECS * 2 <= now_secs e.
Proof.
  intros Hn Ht Hc Hr Hclock Hin Hv. destruct (signed_valid_inv _ _ _ _ _ _ _ _ Hv Hn Ht Hc) as (Ha & _ & Hrec).
  split; [done|].
  pose proof (proj1 (recorded_iff w j (nonce_key node nonce) (now_secs e) (nonce_append e) (ledger_swapped e)
    (reachable_world_inv _ Hr) Hclock)) as Hex.
  rewrite Hrec in Hex. specialize (Hex eq_refl t Hin). apply live_false in Hex.
  unfold REQ_SKEW_SECS in *. lia.
Qed.

End Replay.

(** An IPv6 peer, an IPv4-mapped one included, is at no row's address: neither the ban list
    nor the requirement to sign reaches it. *)
Lemma v6_peers_escape_standing e rows a : banned e = Ok rows -> in_standing e (V6 a).
Proof.
  intros Hb. assert (forall row, row_host row <> Some (V6 a)) as Hno.
  { intros row. unfold row_host, parse_host. destruct (row_address row) as [t|]; [|done]. cbn [mbind option_bind].
    destruct (head (split 58 (rs t))) as [h|]; [|done]. cbn. by destruct (parse_ipv4 h). }
  split; [exists rows; split; [done|]|]; intros; apply Hno.
Qed.

(** ** The rate limiter *)

Definition WINDOW : N := 60000.
Definition DEFAULT_CAPACITY : nat := N.to_nat 50000.

(** [RateLimiter::bucket_key]. *)
Definition bucket_key (ip : IpAddr) : IpAddr :=
  match ip with
  | V4 v4 => V4 v4
  | V6 v6 => match to_ipv4_mapped v6 with
             | Some v4 => V4 v4
             | None => V6 (N.land v6 (N.shiftl (N.ones 64) 64))
             end
  end.

Record RateLimiter : Type := mkLimiter {
  buckets : gmap IpAddr (N * N);
  capacity : nat;
  evictions : N;
}.

Section RateLimiter.
(** The key [DashMap::iter] yields first. *)
Variable first_key : gmap IpAddr (N * N) -> option IpAddr.

(** The room made for a new bucket. *)
Definition evict (l : RateLimiter) (ip : IpAddr) : RateLimiter :=
  if (capacity l <=? size (buckets l))%nat && bool_decide (buckets l !! ip = None) then
    match first_key (buckets l) with
    | Some stale => mkLimiter (delete stale (buckets l)) (capacity l) (wrapping_add (evictions l) 1)
    | None => l
    end
  else l.

(** [RateLimiter::check] at the instant [now], in milliseconds. *)
Definition check (l : RateLimiter) (ip : IpAddr) (limit now : N) : bool * RateLimiter :=
  if limit =? 0 then (true, l)
  else
    let ip := bucket_key ip in
    let l := evict l ip in
    let '(start, count) := default (now, 0) (buckets l !! ip) in
    let put e := mkLimiter (<[ip := e]> (buckets l)) (capacity l) (evictions l) in
    if WINDOW <=? now - start then (true, put (now, 1))
    else if limit <=? count then (false, put (start, count))
    else (true, put (start, count + 1)).

Definition check_unless_local_host (e : Env) (l : RateLimiter) (header : option string) (ip : IpAddr) (limit now : N)
    : bool * RateLimiter :=
  if is_local_host_bearer e header ip then (true, l) else check l ip limit now.
End RateLimiter.

(** *** How much a client gets *)

Lemma count_split {A} (P Q R : A -> Prop) `{forall x, Decision (P x), forall x, Decision (Q x), forall x, Decision (R x)} (l : list A) :
  (forall x, P x -> Q x \/ R x) ->
  (length (filter P l) <= length (filter Q l) + length (filter R l))%nat.
Proof.
  intros Hi. induction l as [|x l IH]; [done|]. rewrite !filter_cons.
  specialize (Hi x). destruct (decide (P x)), (decide (Q x)), (decide (R x)); cbn [length]; naive_solver lia.
Qed.

Notation counted P l := (N.of_nat (length (filter P l))).

(** A bucket started at [start] that has counted [count] of the admissions [adm]. *)
Record bucket_inv (limit clock start count : N) (adm : list N) : Prop := {
  inv_start : start <= clock;
  inv_within : forall a, a ∈ adm -> a < start + WINDOW;
  inv_count : counted (fun a => start <= a) adm = count /\ count <= limit;
  inv_before : forall x, start < x + WINDOW -> counted (fun a => x <= a /\ a < start) adm <= limit;
  inv_minutes : forall x, counted (fun a => x <= a /\ a < x + WINDOW) adm <= 2 * limit;
}.

Lemma counted_cons (P : N -> Prop) `{forall x, Decision (P x)} a l :
  counted P (a :: l) = (if decide (P a) then 1 else 0) + counted P l.
Proof. rewrite filter_cons. destruct (decide (P a)); cbn [length]; lia. Qed.

Lemma bucket_later limit clock now start count adm : clock <= now ->
  bucket_inv limit clock start count adm -> bucket_inv limit now start count adm.
Proof. intros Hc [H1 H2 H3 H4 H5]. split; [lia|done..]. Qed.

Lemma bucket_admit limit clock now start count adm : clock <= now -> now < start + WINDOW -> count < limit ->
  bucket_inv limit clock start count adm -> bucket_inv limit now start (count + 1) (now :: adm).
Proof.
  intros Hc Hw Hlt [H1 Hin [H2 H2'] H3 H4]. split; [lia| | | |].
  - intros a [->|Ha]%elem_of_cons; [lia|by apply Hin].
  - rewrite counted_cons, decide_True by lia. lia.
  - intros x Hx. rewrite counted_cons, decide_False by lia. by apply H3.
  - intros x. rewrite counted_cons. destruct (decide _) as [Hx|Hx]; [|specialize (H4 x); lia].
    specialize (H3 x ltac:(lia)).
    pose proof (count_split (fun a => x <= a /\ a < x + WINDOW) (fun a => x <= a /\ a < start) (fun a => start <= a) adm
      ltac:(intros a; cbn beta; lia)). lia.
Qed.

Lemma bucket_reset limit clock now start count adm : clock <= now -> start + WINDOW <= now -> 0 < limit ->
  bucket_inv limit clock start count adm -> bucket_inv limit now now 1 (now :: adm).
Proof.
  intros Hc Hw Hl [H1 Hin [H2 H2'] H3 H4].
  assert (forall x, now < x + WINDOW -> counted (fun a => x <= a) adm <= limit) as Hrecent.
  { intros x Hx. pose proof (filter_length_imp (fun a => x <= a) (fun a => start <= a) adm ltac:(intros a; cbn beta; lia)). lia. }
  split; [lia| | | |].
  - intros a [->|Ha]%elem_of_cons; [unfold WINDOW; lia|]. specialize (Hin a Ha). lia.
  - rewrite counted_cons, decide_True by lia. split; [|lia].
    assert (length (filter (fun a => now <= a) adm) = 0%nat) as E0; [|lia].
    destruct (filter (fun a => now <= a) adm) as [|a l] eqn:E; [done|]. exfalso.
    assert (a ∈ filter (fun a => now <= a) adm) as Ha by (rewrite E; left).
    apply list_elem_of_filter in Ha as [Hle Ha]. specialize (Hin a Ha). lia.
  - intros x Hx. rewrite counted_cons, decide_False by lia.
    specialize (Hrecent x Hx).
    pose proof (filter_length_imp (fun a => x <= a /\ a < now) (fun a => x <= a) adm ltac:(intros a; cbn beta; lia)). lia.
  - intros x. rewrite counted_cons. destruct (decide _) as [Hx|Hx]; [|specialize (H4 x); lia].
    specialize (Hrecent x ltac:(lia)).
    pose proof (filter_length_imp (fun a => x <= a /\ a < x + WINDOW) (fun a => x <= a) adm ltac:(intros a; cbn beta; lia)). lia.
Qed.

Section Metering.
Variable first_key : gmap IpAddr (N * N) -> option IpAddr.
(** What [DashMap] documents: a map that holds something yields one of its keys. *)
Hypothesis first_key_in : forall m, m <> ∅ -> exists k, first_key m = Some k /\ is_Some (m !! k).

Variables (client : IpAddr) (limit : N).

(** The limiter with the times the client was admitted at.  Requests come in the order of
    the clock; a stranger's request may evict any bucket but the client's. *)
Record Meter : Type := mkMeter {
  limiter : RateLimiter;
  m_clock : N;
  admitted : list N;
}.
Inductive meter_step : Meter -> Meter -> Prop :=
| meter_client m ip now :
    m_clock m <= now -> bucket_key ip = client ->
    meter_step m (mkMeter (check first_key (limiter m) ip limit now).2 now
                    (if (check first_key (limiter m) ip limit now).1 then now :: admitted m else admitted m))
| meter_stranger m ip now other :
    m_clock m <= now -> bucket_key ip <> client ->
    buckets (evict first_key (limiter m) (bucket_key ip)) !! client = buckets (limiter m) !! client ->
    meter_step m (mkMeter (check first_key (limiter m) ip other now).2 now (admitted m)).

Definition meter_new (cap : nat) : Meter := mkMeter (mkLimiter ∅ cap 0) 0 [].

Definition meter_inv (m : Meter) : Prop :=
  match buckets (limiter m) !! client with
  | Some (start, count) => bucket_inv limit (m_clock m) start count (admitted m)
  | None => admitted m = []
  end.

Lemma bucket_new now : 0 < limit -> bucket_inv limit now now 1 [now].
Proof.
  intros Hl. split; [done| | | |].
  - intros a ->%list_elem_of_singleton. unfold WINDOW. lia.
  - rewrite counted_cons, decide_True by lia. cbn. lia.
  - intros x _. rewrite counted_cons, decide_False by lia. cbn. lia.
  - intros x. rewrite counted_cons. destruct (decide _); cbn; lia.
Qed.

(** A client's own request evicts no bucket of its own. *)
Lemma evict_client l : buckets (evict first_key l client) !! client = buckets l !! client.
Proof.
  unfold evict. destruct (_ && _) eqn:E; [|done]. bool_to_prop. destruct (first_key (buckets l)) as [k|]; [|done].
  cbn [buckets]. destruct (decide (k = client)) as [->|Hne]; [|by rewrite lookup_delete_ne].
  by rewrite lookup_delete_eq.
Qed.

Lemma client_step_inv l ip now clock adm : 0 < limit -> bucket_key ip = client -> clock <= now ->
  meter_inv (mkMeter l clock adm) ->
  meter_inv (mkMeter (check first_key l ip limit now).2 now (if (check first_key l ip limit now).1 then now :: adm else adm)).
Proof.
  intros Hl Hip Hc Hi. unfold check. rewrite (proj2 (N.eqb_neq _ _)), Hip, evict_client by lia.
  unfold meter_inv in *. cbn [limiter m_clock admitted] in *.
  destruct (buckets l !! client) as [[start count]|]; cbn [default from_option id].
  - destruct (N.leb_spec WINDOW (now - start)) as [Hold|Hyoung]; cbn [fst snd buckets].
    + rewrite lookup_insert_eq. apply (bucket_reset limit clock _ start count); [done| |done|done].
      unfold WINDOW in *. lia.
    + destruct (N.leb_spec limit count); cbn [fst snd buckets]; rewrite lookup_insert_eq.
      * by apply (bucket_later limit clock).
      * apply (bucket_admit limit clock); [done|lia|done|done].
  - subst adm. rewrite N.sub_diag, (proj2 (N.leb_gt WINDOW 0)), (proj2 (N.leb_gt limit 0)) by done.
    cbn [fst snd buckets]. rewrite lookup_insert_eq. by apply bucket_new.
Qed.

Lemma check_other l ip other now : bucket_key ip <> client ->
  buckets (check first_key l ip other now).2 !! client = buckets l !! client \/
  buckets (check first_key l ip other now).2 !! client = buckets (evict first_key l (bucket_key ip)) !! client.
Proof.
  intros Hne. unfold check. destruct (other =? 0); [by left|right].
  destruct (default _ _) as [start count]. destruct (_ <=? _); [|destruct (_ <=? _)];
    cbn [snd buckets]; by rewrite lookup_insert_ne.
Qed.

Lemma meter_step_inv m m' : 0 < limit -> meter_step m m' -> meter_inv m -> meter_inv m'.
Proof.
  intros Hl Hs Hi. destruct Hs as [m ip now Hc Hip|m ip now other Hc Hip Hev].
  - destruct m as [l c adm]. by apply (client_step_inv l ip now c adm).
  - unfold meter_inv in *. cbn [limiter m_clock admitted].
    assert (buckets (check first_key (limiter m) ip other now).2 !! client = buckets (limiter m) !! client) as ->
      by (destruct (check_other (limiter m) ip other now Hip) as [->| ->]; done).
    destruct (buckets (limiter m) !! client) as [[start count]|]; [|done].
    by apply (bucket_later limit (m_clock m)).
Qed.

(** The limiter's fixed windows cost a factor of two and no more: however a client times
    its requests, and from whatever addresses of its bucket, at most [2 * limit] of them are
    admitted in any minute, as long as its bucket is not evicted. *)
Theorem client_rate_is_bounded (cap : nat) (m : Meter) (t : N) :
  0 < limit -> rtc meter_step (meter_new cap) m ->
  counted (fun a => t <= a /\ a < t + WINDOW) (admitted m) <= 2 * limit.
Proof.
  intros Hl Hr. assert (meter_inv m) as Hi.
  { assert (meter_inv (meter_new cap)) as H0 by (unfold meter_inv; cbn; by rewrite lookup_empty).
    revert H0. induction Hr as [m|m m1 m2 Hs Hr IH]; [done|]. intros Hi. by apply IH, (meter_step_inv m). }
  unfold meter_inv in Hi. destruct (buckets (limiter m) !! client) as [[start count]|].
  - by apply (inv_minutes _ _ _ _ _ Hi).
  - rewrite Hi. cbn. lia.
Qed.

(** The map stays within its capacity. *)
Lemma check_capacity l ip lim now : (size (buckets l) <= Nat.max (capacity l) 1)%nat ->
  (size (buckets (check first_key l ip lim now).2) <= Nat.max (capacity l) 1)%nat.
Proof.
  intros Hs. unfold check. destruct (lim =? 0); [done|]. set (k := bucket_key ip).
  assert (forall e, size (<[k := e]> (buckets (evict first_key l k))) <= Nat.max (capacity l) 1)%nat as Hput.
  { intros e. unfold evict. destruct (Nat.leb_spec (capacity l) (size (buckets l))) as [Hfull|Hroom]; cbn [andb].
    - destruct (buckets l !! k) as [v|] eqn:Ek.
      + rewrite bool_decide_false by done. by rewrite map_size_insert, Ek.
      + rewrite bool_decide_true by done.
        destruct (decide (buckets l = ∅)) as [He|He].
        * destruct (first_key (buckets l)); cbn [buckets]; rewrite He, ?delete_empty, map_size_insert, lookup_empty, map_size_empty; cbn; lia.
        * destruct (first_key_in _ He) as (stale & -> & v & Hv). cbn [buckets].
          assert (size (buckets l) <> 0)%nat by (by apply map_size_non_empty_iff).
          rewrite map_size_insert, map_size_delete, Hv. destruct (delete stale (buckets l) !! k); unfold id; lia.
    - rewrite map_size_insert. destruct (buckets l !! k); unfold id; lia. }
  destruct (default _ _) as [start count]. destruct (_ <=? _); [|destruct (_ <=? _)]; apply Hput.
Qed.
End Metering.

(** Two addresses share a bucket when they are one IPv4 address, mapped or not, or lie in
    one IPv6 [/64]. *)
Lemma land_prefix a : N.land a (N.shiftl (N.ones 64) 64) = N.shiftl (N.shiftr a 64 mod 2 ^ 64) 64.
Proof.
  apply N.bits_inj. intros n. rewrite N.land_spec.
  destruct (N.lt_ge_cases n 64) as [Hlt|Hge].
  - by rewrite !N.shiftl_spec_low, andb_false_r.
  - rewrite !N.shiftl_spec_high', <- N.land_ones, N.land_spec, N.shiftr_spec by lia. f_equal. f_equal. lia.
Qed.

Lemma bucket_key_prefix a b : a < 2 ^ 128 -> b < 2 ^ 128 -> to_ipv4_mapped a = None -> to_ipv4_mapped b = None ->
  bucket_key (V6 a) = bucket_key (V6 b) <-> a / 2 ^ 64 = b / 2 ^ 64.
Proof.
  intros Ha Hb Hma Hmb. unfold bucket_key. rewrite Hma, Hmb, !land_prefix, !N.shiftr_div_pow2.
  rewrite !(N.mod_small (_ / _)) by (apply N.Div0.div_lt_upper_bound; lia).
  rewrite !N.shiftl_mul_pow2. split; [intros [= H]|intros ->]; [|done]. lia.
Qed.

(** ** Witnesses *)

Section Samples.
#[local] Existing Instance Toy.crypto.

Definition sample_seed : list N := repeat 1 32.
Definition sample_env_writing (wrote : Append) (now : N) : Env :=
  mkEnv "token" (Some (repeat 2 32))
    [mkRow (Some "n1") (Some (hex_encode (verifying_key sample_seed))) (Some "10.0.0.5:8443")]
    (Ok [mkRow (Some "n2") None (Some "10.0.0.6:8443")]) now true wrote true.
Definition sample_env : N -> Env := sample_env_writing Written.
Definition sample_request : Request :=
  mkRequest None (V4 167772165)
    (mkSigned (Some "n1") (Some 1000) (Some "abc")
       (member_sign (Some sample_seed) (v2_text "n1" 1000 "abc" "POST" "/mcp" (rs "body"))))
    "POST" "/mcp" (Some (rs "body")).
(** A banned member's bearer, from its registered address and from its mapped form. *)
Definition bearer_request (ip : IpAddr) : Request :=
  mkRequest ((fun b => "Bearer " +:+ b) <$> peer_bearer (sample_env 0)) ip unsigned "POST" "/mcp" None.

Definition served_once : World := (signed_request_valid (sample_env 700) 0 sample_request World_new).2.

(** The timestamp is within the skew at both ends of a span of ten minutes, and the ledger
    forgets a nonce at its end: there the replay is served. *)
Lemma replay_at_the_edge :
  (signed_request_valid (sample_env 700) 0 sample_request World_new).1 = true /\
  (signed_request_valid (sample_env 1299) 1 sample_request served_once).1 = false /\
  (signed_request_valid (sample_env 1300) 1 sample_request served_once).1 = true.
Proof. split_and!; vm_compute; reflexivity. Qed.

(** A nonce that cannot be written is served all the same, and the captured request is
    served again by any other process. *)
Lemma unwritten_nonce_is_replayed :
  let '(a, w) := signed_request_valid (sample_env_writing Unopened 1000) 0 sample_request World_new in
  let '(b, _) := signed_request_valid (sample_env 1001) 0 sample_request w in
  let '(c, _) := signed_request_valid (sample_env 1001) 1 sample_request w in
  (a, b, c) = (true, false, true).
Proof. vm_compute. reflexivity. Qed.

(** The ban holds at the member's IPv4 address, not at the address as an IPv6 listener
    reports it. *)
Lemma mapped_address_evades_the_ban :
  (is_authorized (sample_env 0) 0 (bearer_request (V4 167772166)) World_new).1 = false /\
  to_canonical (V6 (65535 * 2 ^ 32 + 167772166)) = V4 167772166 /\
  (is_authorized (sample_env 0) 0 (bearer_request (V6 (65535 * 2 ^ 32 + 167772166))) World_new).1 = true.
Proof. split_and!; vm_compute; reflexivity. Qed.

End Samples.

Definition some_key (m : gmap IpAddr (N * N)) : option IpAddr := fst <$> head (map_to_list m).

Lemma some_key_in m : m <> ∅ -> exists k, some_key m = Some k /\ is_Some (m !! k).
Proof.
  intros Hm. unfold some_key. destruct (map_to_list m) as [|[k v] l] eqn:E.
  - by apply map_to_list_empty_iff in E.
  - exists k. split; [done|]. exists v. apply elem_of_map_to_list. rewrite E. left.
Qed.

Lemma client_rate_is_bounded_witness :
  N.of_nat (length (filter (fun a => 0 <= a /\ a < 0 + WINDOW) [7])) <= 2 * 1.
Proof.
  apply (client_rate_is_bounded some_key (V4 1) 1 10
    (mkMeter (check some_key (mkLimiter ∅ 10 0) (V4 1) 1 7).2 7 [7]) 0); [done|].
  apply rtc_once. apply (meter_client some_key (V4 1) 1 (meter_new 10) (V4 1) 7); done.
Defined.
