(* ===== verification/ResponseCache.v ===== *)
(** * ResponseCache: answers kept in memory and on disk
    ([crates/susi-harness/src/cache.rs])

    [Memory] is the least-recently-used half, [prune_disk] the directory's; [normalized] is
    what a request's key is the hash of.  serde_json and the file system are arguments: the
    text of a value, the value of a text, the outcome of each file operation.  A [HashMap]
    is a [gmap]; no two slots have the same [used], so the order it is walked in does not
    matter. *)

From S2P Require Import Prelude ClusterKey.

Local Open Scope string_scope.
Local Open Scope list_scope.
Local Open Scope N_scope.

(** ** Requests *)

Inductive json : Type :=
| JNull
| JBool (b : bool)
| JNumber (text : string)
| JString (s : string)
| JArray (items : list json)
| JObject (fields : list (string * json)).

(** [canonical]: the fields of every object, sorted by key. *)
Fixpoint canonical (v : json) : json :=
  match v with
  | JObject m => JObject (merge_sort key_le (map (fun e => (e.1, canonical e.2)) m))
  | JArray items => JArray (map canonical items)
  | _ => v
  end.

(** [Map::remove]. *)
Definition remove_field (k : string) (v : json) : json :=
  match v with
  | JObject m => JObject (filter (fun e => e.1 <> k) m)
  | _ => v
  end.
(** The value whose text [compute_key] hashes. *)
Definition normalized (body : json) : json :=
  remove_field "stream_options" (remove_field "stream" (canonical body)).
Definition compute_key `{Crypto} (to_vec : json -> option (list N)) (body : json) : string :=
  hex_encode (sha256 (default [] (to_vec (normalized body)))).

(** ** Memory *)

Record CacheBounds : Type := mkBounds {
  memory_entries : N;
  memory_bytes : N;
  disk_entries : N;
  disk_bytes : N;
  entry_bytes : N;
}.
Definition CacheBounds_default : CacheBounds :=
  mkBounds 2048 (64 * 1024 * 1024) 20000 (512 * 1024 * 1024) (2 * 1024 * 1024).
Definition PRUNE_EVERY : N := 256.

Record Slot : Type := mkSlot {
  value : json;
  s_bytes : N;
  used : N;
}.
Record Memory : Type := mkMemory {
  entries : gmap string Slot;
  m_bytes : N;
  m_clock : N;
}.
Definition Memory_default : Memory := mkMemory ∅ 0 0.

(** [Memory::get]. *)
Definition memory_get (m : Memory) (key : string) : option json * Memory :=
  let clock := wrapping_add (m_clock m) 1 in
  match entries m !! key with
  | None => (None, mkMemory (entries m) (m_bytes m) clock)
  | Some slot =>
      (Some (value slot),
       mkMemory (<[key := mkSlot (value slot) (s_bytes slot) clock]> (entries m)) (m_bytes m) clock)
  end.

(** [iter().min_by_key(used)]: the first of the least. *)
Fixpoint min_used (best : string * Slot) (l : list (string * Slot)) : string * Slot :=
  match l with
  | [] => best
  | e :: l' => if used e.2 <? used best.2 then min_used e l' else min_used best l'
  end.
Definition oldest (m : gmap string Slot) : option string :=
  match map_to_list m with
  | [] => None
  | e :: l => Some (min_used e l).1
  end.

Definition drop_key (m : Memory) (key : string) : Memory :=
  match entries m !! key with
  | Some old => mkMemory (delete key (entries m)) (m_bytes m - s_bytes old) (m_clock m)
  | None => m
  end.

(** The loop that makes room; every round takes an entry, or finds none and breaks. *)
Fixpoint evict (fuel : nat) (bytes : N) (bounds : CacheBounds) (m : Memory) : Memory :=
  match fuel with
  | O => m
  | S f =>
      if (memory_entries bounds <=? N.of_nat (size (entries m)))
         || (memory_bytes bounds <? saturating_add (m_bytes m) bytes) then
        match oldest (entries m) with
        | None => m
        | Some key => evict f bytes bounds (drop_key m key)
        end
      else m
  end.

(** [Memory::insert]. *)
Definition memory_insert (m : Memory) (key : string) (v : json) (bytes : N) (bounds : CacheBounds) : Memory :=
  let m := drop_key m key in
  if (memory_entries bounds =? 0) || (memory_bytes bounds <? bytes) then m
  else
    let m := evict (S (size (entries m))) bytes bounds m in
    let clock := wrapping_add (m_clock m) 1 in
    mkMemory (<[key := mkSlot v bytes clock]> (entries m)) (saturating_add (m_bytes m) bytes) clock.

(** ** Disk *)

Record File : Type := mkFile {
  modified : N;
  f_text : list N;
}.
Definition f_len (f : File) : N := N.of_nat (length (f_text f)).

(** A cache over a directory, when there is one; a file is named by its key. *)
Record ResponseCache : Type := mkCache {
  bounds : CacheBounds;
  memory : Memory;
  disk : option (gmap string File);
  writes : N;
}.

Section Disk.
(** Whether [remove_file] succeeds on a key's file. *)
Variable removable : string -> bool.

Definition within (b : CacheBounds) (count bytes : N) : bool :=
  (count <=? disk_entries b) && (bytes <=? disk_bytes b).

(** The removal loop over the files, oldest first. *)
Fixpoint prune_loop (b : CacheBounds) (files : list (string * File)) (count bytes : N) (d : gmap string File)
    : gmap string File :=
  match files with
  | [] => d
  | (key, f) :: files' =>
      if within b count bytes then d
      else if removable key then prune_loop b files' (count - 1) (bytes - f_len f) (delete key d)
      else prune_loop b files' count bytes d
  end.

(** [ResponseCache::prune_disk]; [listing] is the order of [read_dir]. *)
Definition prune_disk (b : CacheBounds) (listing : list (string * File)) (d : gmap string File) : gmap string File :=
  let count := N.of_nat (length listing) in
  let bytes := sum_u64 ((fun e => f_len e.2) <$> listing) in
  if within b count bytes then d
  else prune_loop b (sort_by_key (fun e => modified e.2) listing) count bytes d.

Variable to_vec : json -> option (list N).
Variable from_slice : list N -> option json.
(** Whether [set_modified] succeeds, and what [fs::write] leaves in a file, when it changes
    it at all. *)
Variable touched : string -> bool.
Variable written : string -> list N -> option (list N).

(** [ResponseCache::get] at the time [now]. *)
Definition get (c : ResponseCache) (key : string) (now : N) : option json * ResponseCache :=
  let '(hit, m) := memory_get (memory c) key in
  match hit with
  | Some v => (Some v, mkCache (bounds c) m (disk c) (writes c))
  | None =>
      let c := mkCache (bounds c) m (disk c) (writes c) in
      match disk c with
      | None => (None, c)
      | Some d =>
          match d !! key with
          | None => (None, c)
          | Some f =>
              match from_slice (f_text f) with
              | None => (None, c)
              | Some v =>
                  let d := if touched key then <[key := mkFile now (f_text f)]> d else d in
                  (Some v, mkCache (bounds c) (memory_insert m key v (f_len f) (bounds c)) (Some d) (writes c))
              end
          end
      end
  end.

(** [ResponseCache::set] at the time [now]. *)
Definition set (c : ResponseCache) (key : string) (response : json) (now : N) : ResponseCache :=
  match to_vec response with
  | None => c
  | Some text =>
      let bytes := N.of_nat (length text) in
      if entry_bytes (bounds c) <? bytes then c
      else
        let m := memory_insert (memory c) key response bytes (bounds c) in
        match disk c with
        | None => mkCache (bounds c) m None (writes c)
        | Some d =>
            let d := match written key text with Some left_ => <[key := mkFile now left_]> d | None => d end in
            let d := if writes c mod PRUNE_EVERY =? PRUNE_EVERY - 1
                     then prune_disk (bounds c) (map_to_list d) d else d in
            mkCache (bounds c) m (Some d) (wrapping_add (writes c) 1)
        end
  end.

(** [ResponseCache::with_bounds]. *)
Definition with_bounds (d : option (gmap string File)) (b : CacheBounds) : ResponseCache :=
  mkCache b Memory_default ((fun d => prune_disk b (map_to_list d) d) <$> d) 0.
End Disk.

Definition number (n : string) : json := JNumber n.
Example canonical_example :
  canonical (JObject [("model", JString "m"); ("a", JObject [("y", JNull); ("x", JNull)])]) =
  JObject [("a", JObject [("x", JNull); ("y", JNull)]); ("model", JString "m")].
Proof. vm_compute. reflexivity. Qed.
Example lru_example :
  let b := mkBounds 2 100 0 0 100 in
  let m := memory_insert (memory_insert Memory_default "a" JNull 10 b) "b" JNull 10 b in
  let m := (memory_get m "a").2 in
  let m := memory_insert m "c" JNull 10 b in
  ((memory_get m "a").1, (memory_get m "b").1, m_bytes m) = (Some JNull, None, 20).
Proof. vm_compute. reflexivity. Qed.

(** ** The memory is an LRU list *)

(** The specification: the answers kept, least recently used first. *)
Definition Lru : Type := list (string * (json * N)).
Definition lru_bytes (l : Lru) : N := sum_of ((fun e => e.2.2) <$> l).
Definition lru_drop (key : string) (l : Lru) : Lru := filter (fun e => e.1 <> key) l.
Definition lru_get (l : Lru) (key : string) : option json * Lru :=
  match List.find (fun e => bool_decide (e.1 = key)) l with
  | Some e => (Some e.2.1, lru_drop key l ++ [e])
  | None => (None, l)
  end.
(** The least recently used go until the new answer fits. *)
Fixpoint lru_room (b : CacheBounds) (bytes : N) (l : Lru) : Lru :=
  match l with
  | [] => []
  | _ :: l' => if (memory_entries b <=? N.of_nat (length l)) || (memory_bytes b <? lru_bytes l + bytes)
               then lru_room b bytes l' else l
  end.
Definition lru_insert (b : CacheBounds) (l : Lru) (key : string) (v : json) (bytes : N) : Lru :=
  let l := lru_drop key l in
  if (memory_entries b =? 0) || (memory_bytes b <? bytes) then l
  else lru_room b bytes l ++ [(key, (v, bytes))].

Definition entry_of (e : string * Slot) : string * (json * N) := (e.1, (value e.2, s_bytes e.2)).

(** The memory holds the slots [s], oldest first. *)
Record holds (m : Memory) (s : list (string * Slot)) : Prop := {
  h_entries : map_to_list (entries m) ≡ₚ s;
  h_sorted : StronglySorted (fun a b => used a.2 < used b.2) s;
  h_clock : Forall (fun e => used e.2 <= m_clock m) s;
  h_bytes : m_bytes m = sum_of ((fun e => s_bytes e.2) <$> s);
}.

Lemma holds_lookup m s key slot : holds m s -> entries m !! key = Some slot <-> (key, slot) ∈ s.
Proof. intros H. by rewrite <- elem_of_map_to_list, (h_entries _ _ H). Qed.

Lemma holds_unique m s key a b : holds m s -> (key, a) ∈ s -> (key, b) ∈ s -> a = b.
Proof. intros H Ha Hb. apply (holds_lookup m s) in Ha, Hb; [|done..]. congruence. Qed.

Lemma holds_nodup m s : holds m s -> NoDup s.*1.
Proof. intros H. rewrite <- (h_entries _ _ H). apply NoDup_fst_map_to_list. Qed.

(** Without an absent key, nothing changes; a present one takes its bytes with it. *)
Lemma drop_key_perm m s key old : holds m s -> entries m !! key = Some old ->
  s ≡ₚ (key, old) :: filter (fun e => e.1 <> key) s /\
  map_to_list (delete key (entries m)) ≡ₚ filter (fun e => e.1 <> key) s.
Proof.
  intros H Hk. pose proof (map_to_list_delete (entries m) key old Hk) as Hd.
  assert (filter (fun e => e.1 <> key) s ≡ₚ map_to_list (delete key (entries m))) as Hf.
  { rewrite <- (h_entries _ _ H), <- Hd, filter_cons_False by (cbn; naive_solver).
    replace (filter _ _) with (map_to_list (delete key (entries m))); [done|].
    symmetry. apply filter_every. intros [k v] Hi. apply elem_of_map_to_list in Hi.
    cbn. intros ->. by rewrite lookup_delete_eq in Hi. }
  split; [|done]. by rewrite Hf, Hd, (h_entries _ _ H).
Qed.

Lemma drop_key_holds m s key : holds m s ->
  holds (drop_key m key) (filter (fun e => e.1 <> key) s) /\ m_clock (drop_key m key) = m_clock m.
Proof.
  intros H. unfold drop_key. destruct (entries m !! key) as [old|] eqn:Hk.
  - destruct (drop_key_perm m s key old H Hk) as [Hs Hd]. split; [|done].
    split; cbn [entries m_bytes m_clock].
    + done.
    + by apply strongly_sorted_filter, H.
    + pose proof (h_clock _ _ H) as Hc. rewrite Forall_forall in Hc |- *.
      intros e [_ He]%list_elem_of_filter. by apply Hc.
    + rewrite (h_bytes _ _ H). rewrite (sum_of_perm _ _ (fmap_Permutation _ _ _ Hs)).
      cbn [fmap list_fmap sum_of foldr snd]. unfold sum_of. lia.
  - split; [|done]. replace (filter _ s) with s; [done|]. symmetry. apply filter_every.
    intros [k v] Hi. apply (holds_lookup m s) in Hi; [|done].
    cbn. intros ->. congruence.
Qed.

Lemma min_used_spec best l :
  min_used best l ∈ best :: l /\ forall y, y ∈ best :: l -> used (min_used best l).2 <= used y.2.
Proof.
  revert best. induction l as [|x l IH]; intros best; cbn [min_used].
  - split; [left|]. intros y Hy. apply list_elem_of_singleton in Hy as ->. lia.
  - destruct (N.ltb_spec (used x.2) (used best.2)) as [Hlt|Hge].
    + destruct (IH x) as [Hin Hle]. split; [by right|].
      pose proof (Hle x ltac:(left)). intros y [->|Hy]%elem_of_cons; [lia|by apply Hle].
    + destruct (IH best) as [Hin Hle]. pose proof (Hle best ltac:(left)). split; [set_solver|].
      intros y [->|[->|Hy]%elem_of_cons]%elem_of_cons; [lia|lia|]. apply Hle. by right.
Qed.

Lemma oldest_holds m e s : holds m (e :: s) -> oldest (entries m) = Some e.1.
Proof.
  intros H. unfold oldest. pose proof (h_entries _ _ H) as Hp. destruct (map_to_list (entries m)) as [|x l].
  - by apply Permutation_nil_l in Hp.
  - destruct (min_used_spec x l) as [Hin Hle]. f_equal. rewrite Hp in Hin.
    apply elem_of_cons in Hin as [->|Hin]; [done|]. exfalso.
    pose proof (h_sorted _ _ H) as Hs. inversion_clear Hs as [|? ? _ Hall].
    rewrite Forall_forall in Hall. specialize (Hall _ Hin).
    assert (e ∈ x :: l) as He by (rewrite Hp; left). specialize (Hle e He). lia.
Qed.

Lemma holds_size m s : holds m s -> size (entries m) = length s.
Proof. intros H. rewrite <- length_map_to_list. by rewrite (h_entries _ _ H). Qed.

Lemma lru_bytes_of s : lru_bytes (entry_of <$> s) = sum_of ((fun e => s_bytes e.2) <$> s).
Proof. unfold lru_bytes. by rewrite <- list_fmap_compose. Qed.

Lemma lru_drop_of key s : lru_drop key (entry_of <$> s) = entry_of <$> filter (fun e => e.1 <> key) s.
Proof.
  unfold lru_drop. induction s as [|e s IH]; [done|]. rewrite fmap_cons.
  destruct (decide (e.1 = key)) as [Hk|Hk].
  - rewrite (filter_cons_False _ (entry_of e)), (filter_cons_False _ e) by (cbn; naive_solver). exact IH.
  - rewrite (filter_cons_True _ (entry_of e)), (filter_cons_True _ e), fmap_cons by (cbn; naive_solver). by f_equal.
Qed.

Section Bounded.
Variable b : CacheBounds.
Hypothesis finite_bytes : memory_bytes b < u64_max.

Lemma over_budget x bytes : (memory_bytes b <? saturating_add x bytes) = (memory_bytes b <? x + bytes).
Proof. unfold saturating_add. destruct_cmp; lia. Qed.

Lemma evict_holds fuel bytes m s : 0 < memory_entries b -> bytes <= memory_bytes b ->
  (length s < fuel)%nat -> holds m s ->
  exists s', holds (evict fuel bytes b m) s' /\ entry_of <$> s' = lru_room b bytes (entry_of <$> s) /\
    (forall e, e ∈ s' -> e ∈ s) /\ m_clock (evict fuel bytes b m) = m_clock m.
Proof.
  intros He Hb. revert m s. induction fuel as [|fuel IH]; intros m s Hf H; [lia|]. cbn [evict].
  rewrite over_budget, (holds_size _ _ H), (h_bytes _ _ H), <- lru_bytes_of. destruct s as [|e s].
  - rewrite (proj2 (N.leb_gt _ _)), (proj2 (N.ltb_ge _ _)) by (cbn; lia). cbn [orb]. by exists [].
  - rewrite <- (length_fmap entry_of (e :: s)), fmap_cons. cbn [lru_room].
    destruct (_ || _) eqn:Hover.
    + rewrite (oldest_holds _ _ _ H). destruct (drop_key_holds m _ e.1 H) as [Hd Hc].
      rewrite filter_cons_False in Hd by naive_solver.
      pose proof (holds_nodup _ _ H) as Hn. cbn in Hn. apply NoDup_cons in Hn as [Hn _].
      rewrite filter_every in Hd by (intros x Hx Heq; apply Hn; rewrite <- Heq; by apply list_elem_of_fmap_2).
      destruct (IH _ s ltac:(cbn in Hf; lia) Hd) as (s' & Hs' & Heq & Hin & Hclock).
      exists s'. split_and!; [done|done|set_solver|congruence].
    + exists (e :: s). done.
Qed.

Lemma push_holds m s key v bytes : holds m s -> entries m !! key = None -> m_clock m < u64_max ->
  holds (mkMemory (<[key := mkSlot v bytes (wrapping_add (m_clock m) 1)]> (entries m)) (m_bytes m + bytes)
           (wrapping_add (m_clock m) 1))
    (s ++ [(key, mkSlot v bytes (wrapping_add (m_clock m) 1))]).
Proof.
  intros [Hp Hs Hc Hb] Hk Hclock. rewrite wrapping_add_exact by lia.
  rewrite Forall_forall in Hc. split; cbn [entries m_bytes m_clock].
  - by rewrite map_to_list_insert, Hp, <- Permutation_cons_append.
  - apply StronglySorted_app. split_and!; [|done|repeat constructor].
    intros x y Hx ->%list_elem_of_singleton. specialize (Hc x Hx). cbn. lia.
  - rewrite Forall_forall. intros e [He| ->%list_elem_of_singleton]%elem_of_app; [|cbn; lia].
    specialize (Hc e He). cbn beta in Hc. lia.
  - rewrite Hb, fmap_app, (sum_of_perm _ _ (Permutation_app_comm _ _)). cbn. unfold sum_of. lia.
Qed.

Lemma get_holds m s key : holds m s -> m_clock m < u64_max ->
  exists s', holds (memory_get m key).2 s' /\ m_clock (memory_get m key).2 = m_clock m + 1 /\
    ((memory_get m key).1, entry_of <$> s') = lru_get (entry_of <$> s) key.
Proof.
  intros H Hc. unfold memory_get, lru_get.
  destruct (List.find _ _) as [e|] eqn:Ef.
  - apply List.find_some in Ef as [Hin Hk]. bool_to_prop. apply list_elem_of_In, list_elem_of_fmap in Hin as ([k slot] & -> & Hin).
    cbn in Hk. subst k. apply (holds_lookup m s) in Hin as Hl; [|done]. rewrite Hl. cbn [snd fst].
    destruct (drop_key_holds m s key H) as [Hd Hdc].
    assert (entries (drop_key m key) !! key = None) as Hnone
      by (unfold drop_key; rewrite Hl; apply lookup_delete_eq).
    pose proof (push_holds _ _ key (value slot) (s_bytes slot) Hd Hnone ltac:(lia)) as Hpush.
    rewrite Hdc in Hpush.
    eexists. split; [|split; [by rewrite wrapping_add_exact by lia|]].
    + replace (mkMemory (<[key := mkSlot (value slot) (s_bytes slot) (wrapping_add (m_clock m) 1)]> (entries m)) (m_bytes m) (wrapping_add (m_clock m) 1))
        with (mkMemory (<[key := mkSlot (value slot) (s_bytes slot) (wrapping_add (m_clock m) 1)]> (entries (drop_key m key)))
          (m_bytes (drop_key m key) + s_bytes slot) (wrapping_add (m_clock m) 1)); [exact Hpush|].
      f_equal; unfold drop_key; rewrite Hl; cbn [entries m_bytes]; [by rewrite insert_delete_eq|].
      destruct (drop_key_perm m s key slot H Hl) as [Hs _]. rewrite (h_bytes _ _ H), (sum_of_perm _ _ (fmap_Permutation _ _ _ Hs)).
      cbn. lia.
    + by rewrite fmap_app, lru_drop_of.
  - assert (entries m !! key = None) as ->.
    { destruct (entries m !! key) as [slot|] eqn:El; [|done]. exfalso.
      apply (holds_lookup m s) in El; [|done]. rewrite find_None_all in Ef.
      specialize (Ef (entry_of (key, slot))). cbn in Ef. rewrite bool_decide_true in Ef by done.
      discriminate Ef. apply list_elem_of_In. by apply list_elem_of_fmap_2. }
    exists s. split; [|split; [by cbn; rewrite wrapping_add_exact by lia|done]].
    destruct H as [Hp Hs Hcl Hb]. split; cbn; try done. eapply Forall_impl; [exact Hcl|].
    intros e He. cbn beta in He |- *. rewrite wrapping_add_exact by lia. lia.
Qed.

Lemma lru_room_fits bytes l : 0 < memory_entries b -> bytes <= memory_bytes b ->
  N.of_nat (length (lru_room b bytes l)) < memory_entries b /\ lru_bytes (lru_room b bytes l) + bytes <= memory_bytes b.
Proof.
  intros He Hb. induction l as [|e l IH]; cbn [lru_room].
  - cbn. lia.
  - destruct (_ || _) eqn:E; [done|]. bool_to_prop. apply N.leb_gt in H. apply N.ltb_ge in H0. done.
Qed.

(** The memory is within its bounds. *)
Definition bounded (m : Memory) : Prop :=
  N.of_nat (size (entries m)) <= memory_entries b /\ m_bytes m <= memory_bytes b.

Lemma drop_key_bounded m key : bounded m -> bounded (drop_key m key).
Proof.
  unfold bounded, drop_key. destruct (entries m !! key) eqn:E; [|done]. cbn [entries m_bytes].
  rewrite map_size_delete, E. lia.
Qed.

Lemma insert_holds m s key v bytes : holds m s -> m_clock m < u64_max -> bounded m ->
  exists s', holds (memory_insert m key v bytes b) s' /\ m_clock (memory_insert m key v bytes b) <= m_clock m + 1 /\
    entry_of <$> s' = lru_insert b (entry_of <$> s) key v bytes /\ bounded (memory_insert m key v bytes b).
Proof.
  intros H Hc Hbd. unfold memory_insert, lru_insert. rewrite lru_drop_of.
  destruct (drop_key_holds m s key H) as [Hd Hdc]. pose proof (drop_key_bounded m key Hbd) as Hdb.
  destruct ((memory_entries b =? 0) || (memory_bytes b <? bytes)) eqn:Efit.
  { exists (filter (fun e => e.1 <> key) s). split_and!; [done|lia|done|done]. }
  bool_to_prop. apply N.eqb_neq in H0. apply N.ltb_ge in H1.
  set (s1 := filter (fun e => e.1 <> key) s) in *. set (m1 := drop_key m key) in *.
  destruct (evict_holds (S (size (entries m1))) bytes m1 s1 ltac:(lia) H1) as (s2 & Hs2 & Heq & Hsub & Hec);
    [by rewrite (holds_size _ _ Hd); lia|done|].
  set (m2 := evict (S (size (entries m1))) bytes b m1) in *. clearbody m2.
  destruct (lru_room_fits bytes (entry_of <$> s1) ltac:(lia) H1) as [Hlen Hby].
  rewrite <- Heq in *. rewrite lru_bytes_of, <- (h_bytes _ _ Hs2) in Hby. rewrite length_fmap, <- (holds_size _ _ Hs2) in Hlen.
  assert (entries m2 !! key = None) as Hnone.
  { destruct (entries m2 !! key) as [slot|] eqn:El; [|done]. exfalso.
    apply (holds_lookup m2 s2) in El; [|done]. apply Hsub in El. subst s1.
    apply list_elem_of_filter in El as [Hne _]. done. }
  pose proof (push_holds m2 s2 key v bytes Hs2 Hnone ltac:(lia)) as Hp.
  rewrite saturating_add_exact by lia.
  eexists. split; [exact Hp|]. unfold bounded. split_and!.
  - cbn. rewrite wrapping_add_exact by lia. lia.
  - by rewrite fmap_app.
  - cbn [entries]. rewrite map_size_insert, Hnone. lia.
  - cbn [m_bytes]. lia.
Qed.

(** Any sequence of uses. *)
Inductive MemoryOp : Type :=
| Get (key : string)
| Insert (key : string) (v : json) (bytes : N).
Fixpoint memory_run (m : Memory) (ops : list MemoryOp) : list (option json) * Memory :=
  match ops with
  | [] => ([], m)
  | Get key :: ops =>
      let '(hit, m) := memory_get m key in let '(hits, m) := memory_run m ops in (hit :: hits, m)
  | Insert key v bytes :: ops => memory_run (memory_insert m key v bytes b) ops
  end.
Fixpoint lru_run (l : Lru) (ops : list MemoryOp) : list (option json) * Lru :=
  match ops with
  | [] => ([], l)
  | Get key :: ops =>
      let '(hit, l) := lru_get l key in let '(hits, l) := lru_run l ops in (hit :: hits, l)
  | Insert key v bytes :: ops => lru_run (lru_insert b l key v bytes) ops
  end.

Lemma memory_run_spec ops m s : holds m s -> bounded m -> m_clock m + N.of_nat (length ops) <= u64_max ->
  (memory_run m ops).1 = (lru_run (entry_of <$> s) ops).1 /\ bounded (memory_run m ops).2.
Proof.
  revert m s. induction ops as [|[key|key v bytes] ops IH]; intros m s H Hb Hc; cbn [memory_run lru_run length] in *.
  - done.
  - destruct (get_holds m s key H ltac:(lia)) as (s' & Hs' & Hc' & Heq).
    assert (bounded (memory_get m key).2) as Hb'.
    { unfold memory_get, bounded in *. destruct (entries m !! key) eqn:E; [|done]. cbn [snd entries m_bytes].
      by rewrite map_size_insert, E. }
    rewrite <- Heq. destruct (memory_get m key) as [hit m']. cbn [fst snd] in *.
    destruct (IH m' s' Hs' Hb' ltac:(lia)) as [Hr Hbr].
    destruct (memory_run m' ops) as [hits m'']. destruct (lru_run _ ops) as [hits' l'']. cbn [fst snd] in *. by subst.
  - destruct (insert_holds m s key v bytes H ltac:(lia) Hb) as (s' & Hs' & Hc' & Heq & Hb').
    rewrite <- Heq. by apply IH; [| |lia].
Qed.

(** The in-memory cache is a bounded least-recently-used list: any sequence of lookups
    and insertions answers as the list that moves what is used to its end and drops from its
    front exactly until the new answer fits, and the entries and bytes kept never exceed
    their bounds. *)
Theorem memory_refines_lru (ops : list MemoryOp) :
  N.of_nat (length ops) <= u64_max ->
  (memory_run Memory_default ops).1 = (lru_run [] ops).1 /\
  N.of_nat (size (entries (memory_run Memory_default ops).2)) <= memory_entries b /\
  m_bytes (memory_run Memory_default ops).2 <= memory_bytes b.
Proof.
  intros Hlen. apply (memory_run_spec ops Memory_default []); [|split; apply N.le_0_l|cbn; lia].
  split; [done|constructor|constructor|done].
Qed.
End Bounded.

(** ** Keys *)

(** Equal up to the order of the fields of every object. *)
Inductive same : json -> json -> Prop :=
| same_null : same JNull JNull
| same_bool b : same (JBool b) (JBool b)
| same_number n : same (JNumber n) (JNumber n)
| same_string s : same (JString s) (JString s)
| same_array l l' : Forall2 same l l' -> same (JArray l) (JArray l')
| same_object m m1 m' : m ≡ₚ m1 -> Forall2 (fun a b => a.1 = b.1 /\ same a.2 b.2) m1 m' ->
    same (JObject m) (JObject m').

(** The keys of a [serde_json::Map] are distinct. *)
Inductive well_formed : json -> Prop :=
| wf_null : well_formed JNull
| wf_bool b : well_formed (JBool b)
| wf_number n : well_formed (JNumber n)
| wf_string s : well_formed (JString s)
| wf_array l : Forall well_formed l -> well_formed (JArray l)
| wf_object m : NoDup m.*1 -> Forall (fun e => well_formed e.2) m -> well_formed (JObject m).

Section JsonInduction.
Variable P : json -> Prop.
Hypotheses (Hnull : P JNull) (Hbool : forall b, P (JBool b)) (Hnumber : forall n, P (JNumber n))
  (Hstring : forall s, P (JString s)) (Harray : forall l, Forall P l -> P (JArray l))
  (Hobject : forall m, Forall (fun e => P e.2) m -> P (JObject m)).

Fixpoint json_induction (v : json) : P v :=
  match v with
  | JNull => Hnull
  | JBool b => Hbool b
  | JNumber n => Hnumber n
  | JString s => Hstring s
  | JArray l =>
      Harray l ((fix go l : Forall P l :=
        match l with [] => Forall_nil_2 P | x :: l' => Forall_cons_2 P x l' (json_induction x) (go l') end) l)
  | JObject m =>
      Hobject m ((fix go m : Forall (fun e => P e.2) m :=
        match m with [] => Forall_nil_2 _ | e :: m' => Forall_cons_2 _ e m' (json_induction e.2) (go m') end) m)
  end.
End JsonInduction.

Notation canonical_fields m := (map (fun e => (e.1, canonical e.2)) m).

#[local] Instance key_le_transitive : Transitive (@key_le json).
Proof. intros a b c. unfold key_le. apply transitivity. Qed.

(** Fields with distinct keys have one sorted order. *)
Lemma sorted_unique (m m' : list (string * json)) :
  NoDup m.*1 -> m ≡ₚ m' -> StronglySorted key_le m -> StronglySorted key_le m' -> m = m'.
Proof.
  intros Hn Hp Hs Hs'. apply (StronglySorted_unique_strong key_le); [|done..].
  intros x y Hx Hy H1 H2. rewrite <- Hp in Hy.
  apply (nodup_keys_inj m); [done..|]. by apply (anti_symm String.le).
Qed.

Lemma sorted_fields_unique (m m' : list (string * json)) :
  NoDup m.*1 -> m ≡ₚ m' -> merge_sort key_le m = merge_sort key_le m'.
Proof.
  intros Hn Hp. apply sorted_unique; [by rewrite merge_sort_Permutation|by rewrite !merge_sort_Permutation| |];
    apply StronglySorted_merge_sort; apply _.
Qed.

Lemma canonical_fields_keys (m : list (string * json)) : (canonical_fields m).*1 = m.*1.
Proof. induction m as [|e m IH]; [done|]. cbn. by f_equal. Qed.

Lemma same_canonical a w : well_formed a -> same a w -> canonical a = canonical w.
Proof.
  revert w. induction a as [| | | |l IH|m IH] using json_induction; intros w Hwf Hs; inversion Hs; subst; clear Hs; try done.
  - inversion_clear Hwf as [| | | |? Hl|]. cbn [canonical]. f_equal.
    match goal with H : Forall2 same l ?l' |- _ => revert Hl; induction H as [|x y l l' Hxy Hll IHl] end; [done|].
    intros [Hx Hl]%Forall_cons. apply Forall_cons in IH as [IHx IH]. cbn [map]. f_equal; [by apply IHx|by apply IHl].
  - inversion_clear Hwf as [| | | | |? Hn Hm]. cbn [canonical]. f_equal.
    apply sorted_fields_unique; [by rewrite canonical_fields_keys|].
    match goal with Hp : m ≡ₚ ?m1, Hf : Forall2 _ ?m1 ?m' |- _ =>
      rewrite (Permutation_map (fun e => (e.1, canonical e.2)) Hp); rewrite Hp in IH, Hm; clear - Hf IH Hm;
      induction Hf as [|x y l l' [Hk Hxy] Hll IHl] end; [done|].
    apply Forall_cons in IH as [IHx IH], Hm as [Hx Hm]. cbn [map]. rewrite Hk, (IHx _ Hx Hxy). by constructor; apply IHl.
Qed.

Lemma canonical_same a w : canonical a = canonical w -> same a w.
Proof.
  revert w. induction a as [| | | |l IH|m IH] using json_induction; intros w H; destruct w; cbn [canonical] in H; simplify_eq;
    try constructor.
  - rename items into l'. revert l' H. induction IH as [|x l Hx IHl IH]; intros [|y l'] H; simplify_eq/=; constructor; auto.
  - assert (canonical_fields m ≡ₚ canonical_fields fields) as Hp
      by (rewrite <- (merge_sort_Permutation key_le (canonical_fields m)), H; apply merge_sort_Permutation).
    symmetry in Hp. apply Permutation_map_inv in Hp as (m1 & Heq & Hp). symmetry in Heq.
    apply (same_object m m1 fields); [done|]. rewrite Hp in IH. clear H Hp m.
    revert fields Heq. induction IH as [|x m Hx IHm IH]; intros [|y m'] Heq; try discriminate Heq; constructor.
    + injection Heq as Hk Hv Hr. split; [done|]. by apply Hx.
    + injection Heq as Hk Hv Hr. by apply IH.
Qed.

Lemma filter_keys_nodup (P : string * json -> Prop) `{forall e, Decision (P e)} (m : list (string * json)) :
  NoDup m.*1 -> NoDup (filter P m).*1.
Proof.
  induction m as [|e m IH]; [done|]. rewrite fmap_cons. intros [He Hn]%NoDup_cons.
  destruct (decide (P e)); [rewrite filter_cons_True by done|rewrite filter_cons_False by done; by apply IH].
  rewrite fmap_cons. apply NoDup_cons. split; [|by apply IH].
  intros (x & Hx & [_ Hin]%list_elem_of_filter)%list_elem_of_fmap. apply He. rewrite Hx. by apply list_elem_of_fmap_2.
Qed.

Lemma remove_field_canonical k v : well_formed v ->
  remove_field k (canonical v) = canonical (remove_field k v) /\ well_formed (remove_field k v).
Proof.
  intros Hwf. destruct Hwf as [| | | |l Hl|m Hn Hm]; try by (split; [|by constructor]).
  cbn [canonical remove_field]. split.
  - f_equal.
    assert (canonical_fields (filter (fun e => e.1 <> k) m) = filter (fun e => e.1 <> k) (canonical_fields m)) as ->.
    { clear. induction m as [|e m IH]; [done|]. destruct (decide (e.1 = k)).
      - rewrite filter_cons_False by naive_solver. cbn [map]. rewrite filter_cons_False by (cbn; naive_solver). done.
      - rewrite filter_cons_True by done. cbn [map]. rewrite filter_cons_True by done. by f_equal. }
    rewrite <- canonical_fields_keys in Hn.
    apply sorted_unique.
    + apply filter_keys_nodup. by rewrite merge_sort_Permutation.
    + by rewrite !merge_sort_Permutation.
    + apply strongly_sorted_filter, StronglySorted_merge_sort; apply _.
    + apply StronglySorted_merge_sort; apply _.
  - constructor; [by apply filter_keys_nodup|]. rewrite Forall_forall in Hm |- *.
    intros e [_ He]%list_elem_of_filter. by apply Hm.
Qed.

(** Two requests share a cache key's text exactly when, without [stream] and
    [stream_options], they are the same request up to the order of their fields at every
    depth. *)
Theorem normalized_iff_same (a b : json) : well_formed a -> well_formed b ->
  normalized a = normalized b <->
  same (remove_field "stream_options" (remove_field "stream" a)) (remove_field "stream_options" (remove_field "stream" b)).
Proof.
  assert (forall v, well_formed v -> normalized v = canonical (remove_field "stream_options" (remove_field "stream" v)) /\
    well_formed (remove_field "stream_options" (remove_field "stream" v))) as Hnorm.
  { intros v Hv. unfold normalized. destruct (remove_field_canonical "stream" v Hv) as [-> Hv1].
    by destruct (remove_field_canonical "stream_options" _ Hv1) as [-> Hv2]. }
  intros Ha Hb. destruct (Hnorm a Ha) as [-> Hwa], (Hnorm b Hb) as [-> Hwb].
  split; [apply canonical_same|by apply same_canonical].
Qed.

(** ** Trimming the directory *)

Definition disk_total (l : list (string * File)) : N := sum_of ((fun e => f_len e.2) <$> l).

Section Trimming.
Variables (b : CacheBounds) (removable : string -> bool).
Hypothesis all_removable : forall key, removable key = true.

Lemma within_true count bytes : within b count bytes = true <-> count <= disk_entries b /\ bytes <= disk_bytes b.
Proof. unfold within. by rewrite andb_true_iff, !N.leb_le. Qed.

Lemma prune_loop_spec files : NoDup files.*1 ->
  exists pre post, files = pre ++ post /\
    prune_loop removable b files (N.of_nat (length files)) (disk_total files) (list_to_map files) = list_to_map post /\
    within b (N.of_nat (length post)) (disk_total post) = true.
Proof.
  induction files as [|[key f] files IH]; intros Hn.
  - exists [], []. split_and!; [done|done|]. apply within_true. unfold disk_total. cbn. lia.
  - cbn [prune_loop]. destruct (within _ _ _) eqn:Ew; [by exists [], ((key, f) :: files)|].
    rewrite all_removable. rewrite fmap_cons in Hn. apply NoDup_cons in Hn as [Hk Hn].
    destruct (IH Hn) as (pre & post & -> & Hl & Hw). exists ((key, f) :: pre), post. split_and!; [done| |done].
    rewrite <- Hl. f_equal.
    + cbn [length]. lia.
    + unfold disk_total. cbn. unfold sum_of. lia.
    + cbn [list_to_map foldr fst snd]. fold (list_to_map (M := gmap string File) (pre ++ post)).
      apply delete_insert_id. by apply not_elem_of_list_to_map_1.
Qed.

(** Trimming keeps the newest files: when every removal succeeds, the directory is left
    within both bounds, holding files it held, none of them older than one it removed, and a
    directory within its bounds is left alone. *)
Theorem prune_keeps_newest (listing : list (string * File)) (d : gmap string File) :
  listing ≡ₚ map_to_list d -> disk_total listing <= u64_max ->
  let d' := prune_disk removable b listing d in
  d' ⊆ d /\
  N.of_nat (size d') <= disk_entries b /\ disk_total (map_to_list d') <= disk_bytes b /\
  (forall k f k' f', d !! k = Some f -> d' !! k = None -> d' !! k' = Some f' -> modified f <= modified f') /\
  (N.of_nat (size d) <= disk_entries b -> disk_total (map_to_list d) <= disk_bytes b -> d' = d).
Proof.
  intros Hp Hsum. unfold prune_disk. rewrite sum_u64_exact by done. fold (disk_total listing).
  assert (length listing = size d) as Hlen by (by rewrite Hp, length_map_to_list).
  assert (disk_total listing = disk_total (map_to_list d)) as Htot by (apply sum_of_perm; by rewrite Hp).
  destruct (within b _ _) eqn:Ew.
  { apply within_true in Ew as [H1 H2]. rewrite Hlen in H1. rewrite Htot in H2.
    split_and!; try done. clear H1 H2. intros k f k' f' H1 H2. congruence. }
  set (files := sort_by_key (fun e => modified e.2) listing).
  assert (files ≡ₚ map_to_list d) as Hf by (subst files; by rewrite sort_by_key_perm).
  assert (NoDup files.*1) as Hn by (rewrite Hf; apply NoDup_fst_map_to_list).
  assert (list_to_map files = d) as Hd.
  { rewrite <- (list_to_map_to_list d). by apply list_to_map_proper. }
  destruct (prune_loop_spec files Hn) as (pre & post & Heq & Hl & Hw).
  replace (N.of_nat (length files)) with (N.of_nat (length listing)) in Hl by (by rewrite Hlen, Hf, length_map_to_list).
  replace (disk_total files) with (disk_total listing) in Hl by (apply sum_of_perm; by rewrite Hp, Hf).
  rewrite Hd in Hl. rewrite Hl. clear Hl.
  assert (NoDup post.*1) as Hnp by (rewrite Heq, fmap_app in Hn; by apply NoDup_app in Hn as (_ & _ & Hn)).
  assert (forall k f, list_to_map (M := gmap string File) post !! k = Some f <-> (k, f) ∈ post) as Hin
    by (intros k f; by rewrite <- elem_of_list_to_map).
  assert (forall k f, d !! k = Some f <-> (k, f) ∈ pre ++ post) as Hdin
    by (intros k f; by rewrite <- Heq, Hf, elem_of_map_to_list).
  apply within_true in Hw as [Hw1 Hw2]. pose proof (map_to_list_to_map post Hnp) as Hmp. split_and!.
  - apply map_subseteq_spec. intros k f Hk. apply Hdin, elem_of_app. right. by apply Hin.
  - by rewrite <- length_map_to_list, Hmp.
  - unfold disk_total. by rewrite (sum_of_perm _ _ (fmap_Permutation _ _ _ Hmp)).
  - intros k f k' f' Hk Hk' Hkf'. apply Hin in Hkf'. apply Hdin, elem_of_app in Hk as [Hk|Hk].
    + pose proof (sort_by_key_sorted (fun e => modified e.2) listing) as Hs. fold files in Hs. rewrite Heq in Hs.
      apply StronglySorted_app in Hs as (Hs & _ & _). exact (Hs _ _ Hk Hkf').
    + apply Hin in Hk. congruence.
  - intros H1 H2. exfalso. rewrite <- Hlen in H1. rewrite <- Htot in H2.
    by rewrite (proj2 (within_true _ _) (conj H1 H2)) in Ew.
Qed.
End Trimming.

(** ** Witnesses *)

Definition small : CacheBounds := mkBounds 2 100 2 100 100.

Lemma memory_refines_lru_witness :
  (memory_run small Memory_default
     [Insert "a" JNull 10; Insert "b" (JBool true) 10; Get "a"; Insert "c" JNull 10; Get "a"; Get "b"]).1 =
  [Some JNull; Some JNull; None].
Proof.
  transitivity (lru_run small []
     [Insert "a" JNull 10; Insert "b" (JBool true) 10; Get "a"; Insert "c" JNull 10; Get "a"; Get "b"]).1; [|vm_compute; reflexivity].
  apply (memory_refines_lru small); vm_compute; [reflexivity|discriminate].
Defined.

Lemma normalized_iff_same_witness :
  normalized (JObject [("stream", JBool true); ("b", JNull); ("a", JNull)]) = normalized (JObject [("a", JNull); ("b", JNull)]).
Proof.
  apply normalized_iff_same.
  - constructor; [apply (bool_decide_unpack _); vm_compute; exact I|repeat constructor].
  - constructor; [apply (bool_decide_unpack _); vm_compute; exact I|repeat constructor].
  - apply (same_object _ [("a", JNull); ("b", JNull)]); [constructor|repeat constructor].
Defined.

Definition sample_disk : gmap string File :=
  {["a" := mkFile 1 [1]; "b" := mkFile 3 [1; 2]; "c" := mkFile 2 []]}.
Lemma prune_keeps_newest_witness :
  let d' := prune_disk (fun _ => true) small (map_to_list sample_disk) sample_disk in
  d' !! "a" = None /\ N.of_nat (size d') <= 2.
Proof.
  split; [vm_compute; reflexivity|].
  apply (prune_keeps_newest small (fun _ => true) (fun _ => eq_refl) (map_to_list sample_disk) sample_disk); [done|].
  vm_compute. discriminate.
Defined.
