(* ===== verification/ParallelAdmission.v ===== *)
(** * ParallelAdmission: capacity tickets for parallel workers
    ([crates/susi-gawd-swarm/src/parallel_admission.rs], with [AccelPool::admit] of
    [crates/susi-vendor-models/src/accel_reserve.rs])

    [State] is what the controller's mutex guards; [try_admit], [release] and [probe] are its
    critical sections, one step each.  Granting charges every resource of the request at
    once, and a ticket gives all of them back.  The clock is an argument, and so is whether
    the file of live tickets could be written. *)

From S2P Require Import Prelude.

Local Open Scope string_scope.
Local Open Scope list_scope.
Local Open Scope N_scope.

(** ** Requests and limits *)

Record ScopeRequest : Type := mkScopeRequest {
  key : string;
  requests : N;
  tokens : N;
}.
Record LocalCapacity : Type := mkLocal {
  cpu_millis : N;
  ram_mb : N;
  vram_mb : N;
  subprocesses : N;
}.
Definition LocalCapacity_default : LocalCapacity := mkLocal 0 0 0 0.

Record AdmitRequest : Type := mkRequest {
  mission : string;
  job : string;
  scopes : list ScopeRequest;
  needs : LocalCapacity;
  holds_job_slot : bool;
}.
Record ScopeLimits : Type := mkScopeLimits {
  max_inflight : N;
  max_requests : N;
  max_tokens : N;
}.
Definition ScopeLimits_default : ScopeLimits := mkScopeLimits 4 64 (u64_max / 4).
Record AdmissionLimits : Type := mkLimits {
  scope : ScopeLimits;
  scope_overrides : gmap string ScopeLimits;
  local_limit : LocalCapacity;
  max_global_jobs : N;
  max_mission_jobs : N;
  max_queue : nat;
  lease_ms : N;
}.
Definition AdmissionLimits_default : AdmissionLimits :=
  mkLimits ScopeLimits_default ∅ (mkLocal 64000 (256 * 1024) (64 * 1024) 32) 64 16 256 (5 * 60000).

Inductive Backpressure : Type :=
| Queued (position : nat)
| ScopeFull (scope : string)
| LocalExhausted
| MissionFull
| GlobalFull
| QueueFull.

#[export] Instance Backpressure_eq_dec : EqDecision Backpressure.
Proof. solve_decision. Defined.

Definition MIB : N := 1024 * 1024.

(** [AccelPool::admit], its answer. *)
Definition accel_admits (total_bytes reserved_bytes need : N) : bool :=
  let free := total_bytes - reserved_bytes in
  let headroom := total_bytes / 20 in
  if (need =? 0) || (free <? need) then false
  else if free - need <? headroom then false else true.
Definition vram_admits (total_mb used_mb need_mb : N) : bool :=
  if need_mb =? 0 then true else accel_admits (total_mb * MIB) (used_mb * MIB) (need_mb * MIB).

(** ** State *)

Record Held : Type := mkHeld {
  h_ticket : N;
  h_job : string;
  h_mission : string;
  h_slot : bool;
  h_scopes : list (string * (N * N));
  h_local : LocalCapacity;
  expires_ms : N;
}.
Record ScopeUse : Type := mkUse {
  inflight : N;
  u_requests : N;
  u_tokens : N;
}.
Definition ScopeUse_default : ScopeUse := mkUse 0 0 0.
Record State : Type := mkState {
  st_scopes : gmap string ScopeUse;
  local : LocalCapacity;
  global_jobs : N;
  missions : gmap string N;
  queue : list string;
  held : gmap N Held;
  by_job : gmap string N;
  next_ticket : N;
}.
Definition State_default : State := mkState ∅ LocalCapacity_default 0 ∅ [] ∅ ∅ 0.
Record Persisted : Type := mkPersisted {
  p_held : list Held;
  p_next_ticket : N;
}.

Definition local_add (a b : LocalCapacity) : LocalCapacity :=
  mkLocal (saturating_add32 (cpu_millis a) (cpu_millis b)) (saturating_add32 (ram_mb a) (ram_mb b))
    (saturating_add32 (vram_mb a) (vram_mb b)) (saturating_add32 (subprocesses a) (subprocesses b)).
Definition local_sub (a b : LocalCapacity) : LocalCapacity :=
  mkLocal (cpu_millis a - cpu_millis b) (ram_mb a - ram_mb b) (vram_mb a - vram_mb b)
    (subprocesses a - subprocesses b).

(** A release build compiles [a + 1] on [u32] without overflow checks. *)
Definition incr32 (a : N) : N := (a + 1) mod 2 ^ 32.

(** What a grant and a reload add for one ticket. *)
Definition charge_scope (m : gmap string ScopeUse) (s : string * (N * N)) : gmap string ScopeUse :=
  let u := default ScopeUse_default (m !! s.1) in
  <[s.1 := mkUse (incr32 (inflight u)) (saturating_add32 (u_requests u) s.2.1) (saturating_add (u_tokens u) s.2.2)]> m.
Definition take (h : Held) (st : State) : State :=
  mkState (fold_left charge_scope (h_scopes h) (st_scopes st))
    (local_add (local st) (h_local h))
    (if h_slot h then incr32 (global_jobs st) else global_jobs st)
    (if h_slot h then <[h_mission h := incr32 (default 0 (missions st !! h_mission h))]> (missions st) else missions st)
    (queue st) (<[h_ticket h := h]> (held st)) (<[h_job h := h_ticket h]> (by_job st)) (next_ticket st).

(** What a release and an expiry give back for one ticket. *)
Definition refund_scope (m : gmap string ScopeUse) (s : string * (N * N)) : gmap string ScopeUse :=
  match m !! s.1 with
  | Some u => <[s.1 := mkUse (inflight u - 1) (u_requests u - s.2.1) (u_tokens u - s.2.2)]> m
  | None => m
  end.
Definition give_back (h : Held) (st : State) : State :=
  mkState (fold_left refund_scope (h_scopes h) (st_scopes st))
    (local_sub (local st) (h_local h))
    (if h_slot h then global_jobs st - 1 else global_jobs st)
    (if h_slot h then
       match missions st !! h_mission h with
       | Some m => <[h_mission h := m - 1]> (missions st)
       | None => missions st
       end
     else missions st)
    (queue st) (delete (h_ticket h) (held st)) (delete (h_job h) (by_job st)) (next_ticket st).

Section Controller.
Variable limits : AdmissionLimits.

Definition scope_limits (key : string) : ScopeLimits := default (scope limits) (scope_overrides limits !! key).

(** [purge_expired]: in the order of the ticket numbers. *)
Definition purge_expired (st : State) (now : N) : State :=
  fold_left (fun st h => give_back h st)
    (sort_by_key h_ticket (List.filter (fun h => expires_ms h <=? now) (map_to_list (held st)).*2)) st.

Definition scope_full (st : State) (s : ScopeRequest) : bool :=
  let lim := scope_limits (key s) in
  let u := default ScopeUse_default (st_scopes st !! key s) in
  (max_inflight lim <=? inflight u)
  || (max_requests lim <? saturating_add32 (u_requests u) (requests s))
  || (max_tokens lim <? saturating_add (u_tokens u) (tokens s)).

(** The capacity checks, in the code's order; [None] is room for all of it. *)
Definition denial (st : State) (req : AdmitRequest) : option Backpressure :=
  if holds_job_slot req && (max_global_jobs limits <=? global_jobs st) then Some GlobalFull
  else if holds_job_slot req && (max_mission_jobs limits <=? default 0 (missions st !! mission req)) then Some MissionFull
  else
    let after := local_add (local st) (needs req) in
    if (cpu_millis (local_limit limits) <? cpu_millis after)
       || (ram_mb (local_limit limits) <? ram_mb after)
       || negb (vram_admits (vram_mb (local_limit limits)) (vram_mb (local st)) (vram_mb (needs req)))
       || (subprocesses (local_limit limits) <? subprocesses after) then Some LocalExhausted
    else match List.find (scope_full st) (scopes req) with
         | Some s => Some (ScopeFull (key s))
         | None => None
         end.

Definition position (j : string) (q : list string) : option nat := fst <$> list_find (fun x => x = j) q.

(** The record of a grant. *)
Definition held_of (req : AdmitRequest) (id now : N) : Held :=
  mkHeld id (job req) (mission req) (holds_job_slot req)
    ((fun s => (key s, (requests s, tokens s))) <$> scopes req) (needs req) (saturating_add now (lease_ms limits)).

Definition set_queue (st : State) (q : list string) : State :=
  mkState (st_scopes st) (local st) (global_jobs st) (missions st) q (held st) (by_job st) (next_ticket st).
Definition set_next (st : State) (n : N) : State :=
  mkState (st_scopes st) (local st) (global_jobs st) (missions st) (queue st) (held st) (by_job st) n.

(** The grant: every resource at once. *)
Definition grant (st : State) (req : AdmitRequest) (pos : option nat) (now : N) : N * State :=
  let id := wrapping_add (next_ticket st) 1 in
  let q := match pos with Some i => delete i (queue st) | None => queue st end in
  (id, take (held_of req id now) (set_queue (set_next st id) q)).

(** [AdmissionController::admit], without its writing of the file. *)
Definition try_admit (st : State) (req : AdmitRequest) (now : N) : result N Backpressure * State :=
  let st := purge_expired st now in
  match by_job st !! job req with
  | Some id => (Ok id, st)
  | None =>
      let pos := position (job req) (queue st) in
      let full := (max_queue limits <=? length (queue st))%nat in
      if holds_job_slot req && bool_decide (pos = None) && negb (bool_decide (queue st = [])) then
        if full then (Err QueueFull, st)
        else (Err (Queued (S (length (queue st)))), set_queue st (queue st ++ [job req]))
      else
        match denial st req with
        | None => let '(id, st) := grant st req pos now in (Ok id, st)
        | Some (ScopeFull s) => (Err (ScopeFull s), st)
        | Some d =>
            if holds_job_slot req && bool_decide (pos = None) then
              if full then (Err QueueFull, st) else (Err d, set_queue st (queue st ++ [job req]))
            else (Err d, st)
        end
  end.

(** [AdmissionController::release], by the drop of a [Ticket]. *)
Definition release (st : State) (ticket : N) : State :=
  match held st !! ticket with
  | None => st
  | Some h => give_back h st
  end.

(** [AdmissionController::probe]; it drops expired tickets, as [admit] does. *)
Definition probe (st : State) (req : AdmitRequest) (now : N) : result unit Backpressure * State :=
  let st := purge_expired st now in
  (if holds_job_slot req && negb (bool_decide (queue st = [])) then Err (Queued (length (queue st) + 1))
   else match denial st req with Some d => Err d | None => Ok tt end, st).

Definition scope_free (st : State) (key : string) : bool :=
  match st_scopes st !! key with
  | None => true
  | Some u => inflight u <? max_inflight (scope_limits key)
  end.

(** [persist] and [load_persisted]. *)
Definition persisted (st : State) : Persisted :=
  mkPersisted (sort_by_key h_ticket (map_to_list (held st)).*2) (next_ticket st).
Definition load_persisted (p : Persisted) (now : N) : State :=
  fold_left (fun st h => if expires_ms h <=? now then st else take h st) (p_held p)
    (set_next State_default (p_next_ticket p)).

(** The controller with its file; a write that fails leaves the file as it was. *)
Record Controller : Type := mkController {
  state : State;
  file : option Persisted;
}.
Definition save (wrote : bool) (st : State) (f : option Persisted) : option Persisted :=
  if wrote then Some (persisted st) else f.

(** [admit] writes the file when it grants. *)
Definition admit_ (c : Controller) (req : AdmitRequest) (now : N) (wrote : bool) : result N Backpressure * Controller :=
  let '(res, st) := try_admit (state c) req now in
  let already := bool_decide (is_Some (by_job (purge_expired (state c) now) !! job req)) in
  (res, mkController st (if is_ok res && negb already then save wrote st (file c) else file c)).
Definition drop_ticket (c : Controller) (ticket : N) (wrote : bool) : Controller :=
  let st := release (state c) ticket in
  mkController st (if bool_decide (is_Some (held (state c) !! ticket)) then save wrote st (file c) else file c).
(** A new process over the same file. *)
Definition restart (c : Controller) (now : N) : Controller :=
  mkController (match file c with Some p => load_persisted p now | None => State_default end) (file c).
End Controller.

(** ** Accounting *)

Definition use_add (a b : ScopeUse) : ScopeUse :=
  mkUse (inflight a + inflight b) (u_requests a + u_requests b) (u_tokens a + u_tokens b).
Definition use_le (a b : ScopeUse) : Prop :=
  inflight a <= inflight b /\ u_requests a <= u_requests b /\ u_tokens a <= u_tokens b.
Definition use_of (m : gmap string ScopeUse) (k : string) : ScopeUse := default ScopeUse_default (m !! k).

(** What a list of charges holds of the scope [k]. *)
Fixpoint load (k : string) (l : list (string * (N * N))) : ScopeUse :=
  match l with
  | [] => ScopeUse_default
  | s :: l' => if decide (s.1 = k) then use_add (mkUse 1 s.2.1 s.2.2) (load k l') else load k l'
  end.
(** The same for a list of tickets, and the rest of what they hold. *)
Definition load_of (k : string) (hs : list Held) : ScopeUse :=
  foldr (fun h acc => use_add (load k (h_scopes h)) acc) ScopeUse_default hs.
Definition local_plus (a b : LocalCapacity) : LocalCapacity :=
  mkLocal (cpu_millis a + cpu_millis b) (ram_mb a + ram_mb b) (vram_mb a + vram_mb b) (subprocesses a + subprocesses b).
Definition local_of (hs : list Held) : LocalCapacity :=
  foldr (fun h acc => local_plus (h_local h) acc) LocalCapacity_default hs.
Definition slots_of (hs : list Held) : N := sum_of ((fun h => if h_slot h then 1 else 0) <$> hs).
Definition mission_slots (m : string) (hs : list Held) : N :=
  sum_of ((fun h => if h_slot h && bool_decide (h_mission h = m) then 1 else 0) <$> hs).

Definition tickets (st : State) : list Held := (map_to_list (held st)).*2.

(** The counters are the sums over the live tickets. *)
Record accounted (st : State) : Prop := {
  a_scopes : forall k, use_of (st_scopes st) k = load_of k (tickets st);
  a_local : local st = local_of (tickets st);
  a_global : global_jobs st = slots_of (tickets st);
  a_missions : forall m, default 0 (missions st !! m) = mission_slots m (tickets st);
  a_ticket : forall id h, held st !! id = Some h -> h_ticket h = id /\ id <= next_ticket st;
  a_jobs : forall j id, by_job st !! j = Some id <-> exists h, held st !! id = Some h /\ h_job h = j;
}.

Lemma use_eq a b : inflight a = inflight b -> u_requests a = u_requests b -> u_tokens a = u_tokens b -> a = b.
Proof. destruct a, b. cbn. by intros -> -> ->. Qed.

Lemma use_of_insert m k u k' : use_of (<[k := u]> m) k' = if decide (k = k') then u else use_of m k'.
Proof. unfold use_of. rewrite lookup_insert. by destruct (decide (k = k')). Qed.

(** The counters are within their width. *)
Definition use_fits (u : ScopeUse) : Prop :=
  inflight u <= u32_max /\ u_requests u <= u32_max /\ u_tokens u <= u64_max.

Lemma incr32_exact a : a + 1 <= u32_max -> incr32 a = a + 1.
Proof. unfold incr32, u32_max. intros. apply N.mod_small. lia. Qed.

Lemma saturating_add32_exact a b : a + b <= u32_max -> saturating_add32 a b = a + b.
Proof. unfold saturating_add32. lia. Qed.

Lemma charge_exact l m : (forall k, use_fits (use_add (use_of m k) (load k l))) ->
  forall k, use_of (fold_left charge_scope l m) k = use_add (use_of m k) (load k l).
Proof.
  revert m. induction l as [|s l IH]; intros m Hf k; cbn [fold_left load].
  - apply use_eq; cbn; lia.
  - assert (forall k, use_add (use_of (charge_scope m s) k) (load k l) = use_add (use_of m k) (load k (s :: l))) as Hstep.
    { intros k'. unfold charge_scope. rewrite use_of_insert. cbn [load]. fold (use_of m s.1).
      destruct (decide (s.1 = k')) as [<-|Hne]; [|done].
      pose proof (Hf s.1) as (H1 & H2 & H3). cbn [load use_add inflight u_requests u_tokens] in H1, H2, H3.
      rewrite decide_True in H1, H2, H3 by done. cbn [use_add inflight u_requests u_tokens] in H1, H2, H3.
      rewrite incr32_exact, saturating_add32_exact, saturating_add_exact by lia.
      apply use_eq; cbn; lia. }
    rewrite IH; [by rewrite Hstep|]. intros k'. rewrite Hstep. apply Hf.
Qed.

Lemma refund_exact l m : (forall k, use_le (load k l) (use_of m k)) ->
  forall k, use_add (use_of (fold_left refund_scope l m) k) (load k l) = use_of m k.
Proof.
  revert m. induction l as [|s l IH]; intros m Hf k; cbn [fold_left load].
  - apply use_eq; cbn; lia.
  - pose proof (Hf s.1) as (H1 & H2 & H3). cbn [load] in H1, H2, H3. rewrite decide_True in H1, H2, H3 by done.
    cbn [use_add inflight u_requests u_tokens] in H1, H2, H3.
    assert (exists u, m !! s.1 = Some u) as [u Hu].
    { unfold use_of in H1. destruct (m !! s.1) as [u|]; [by exists u|]. cbn in H1. lia. }
    assert (use_of m s.1 = u) as Hus by (unfold use_of; by rewrite Hu). rewrite Hus in H1, H2, H3.
    assert (forall k, use_of (refund_scope m s) k =
      if decide (s.1 = k) then mkUse (inflight u - 1) (u_requests u - s.2.1) (u_tokens u - s.2.2) else use_of m k) as Hr.
    { intros k'. unfold refund_scope. rewrite Hu. apply use_of_insert. }
    assert (forall k, use_le (load k l) (use_of (refund_scope m s) k)) as Hle.
    { intros k'. rewrite Hr. specialize (Hf k'). cbn [load] in Hf. destruct (decide (s.1 = k')) as [<-|Hne]; [|done].
      rewrite Hus in Hf. unfold use_le in *. cbn in *. lia. }
    specialize (IH _ Hle k). rewrite Hr in IH. destruct (decide (s.1 = k)) as [<-|Hne]; [|done].
    rewrite Hus. unfold use_add in *. apply (f_equal (fun u => (inflight u, u_requests u, u_tokens u))) in IH.
    cbn in IH. injection IH as I1 I2 I3. apply use_eq; cbn in *; lia.
Qed.

Lemma load_of_cons k h hs : load_of k (h :: hs) = use_add (load k (h_scopes h)) (load_of k hs).
Proof. done. Qed.
Lemma local_of_cons h hs : local_of (h :: hs) = local_plus (h_local h) (local_of hs).
Proof. done. Qed.
Lemma slots_of_cons h hs : slots_of (h :: hs) = (if h_slot h then 1 else 0) + slots_of hs.
Proof. done. Qed.

(** Sums over tickets do not depend on their order. *)
Lemma load_of_perm k hs hs' : hs ≡ₚ hs' -> load_of k hs = load_of k hs'.
Proof.
  induction 1 as [|h hs hs' _ IH|h h' hs|hs1 hs2 hs3 _ IH1 _ IH2]; cbn [load_of foldr].
  - done.
  - f_equal. exact IH.
  - apply use_eq; cbn; lia.
  - by rewrite IH1.
Qed.

Lemma local_of_perm hs hs' : hs ≡ₚ hs' -> local_of hs = local_of hs'.
Proof.
  induction 1 as [|h hs hs' _ IH|h h' hs|hs1 hs2 hs3 _ IH1 _ IH2]; cbn [local_of foldr].
  - done.
  - f_equal. exact IH.
  - unfold local_plus. f_equal; cbn; lia.
  - by rewrite IH1.
Qed.

Lemma slots_of_perm hs hs' : hs ≡ₚ hs' -> slots_of hs = slots_of hs'.
Proof. intros Hp. unfold slots_of. apply sum_of_perm. by rewrite Hp. Qed.
Lemma mission_slots_perm m hs hs' : hs ≡ₚ hs' -> mission_slots m hs = mission_slots m hs'.
Proof. intros Hp. unfold mission_slots. apply sum_of_perm. by rewrite Hp. Qed.

(** The counters of tickets [hs] are within their width. *)
Record tickets_fit (hs : list Held) : Prop := {
  f_scopes : forall k, use_fits (load_of k hs);
  f_cpu : cpu_millis (local_of hs) <= u32_max;
  f_ram : ram_mb (local_of hs) <= u32_max;
  f_vram : vram_mb (local_of hs) <= u32_max;
  f_sub : subprocesses (local_of hs) <= u32_max;
  f_slots : slots_of hs <= u32_max;
}.

Lemma tickets_fit_perm hs hs' : hs ≡ₚ hs' -> tickets_fit hs -> tickets_fit hs'.
Proof.
  intros Hp [H1 H2 H3 H4 H5 H6]. split.
  - intros k. by rewrite <- (load_of_perm k _ _ Hp).
  - by rewrite <- (local_of_perm _ _ Hp).
  - by rewrite <- (local_of_perm _ _ Hp).
  - by rewrite <- (local_of_perm _ _ Hp).
  - by rewrite <- (local_of_perm _ _ Hp).
  - by rewrite <- (slots_of_perm _ _ Hp).
Qed.

Lemma tickets_fit_tail h hs : tickets_fit (h :: hs) -> tickets_fit hs.
Proof.
  intros [H1 H2 H3 H4 H5 H6]. rewrite local_of_cons in H2, H3, H4, H5. rewrite slots_of_cons in H6.
  cbn [local_plus cpu_millis ram_mb vram_mb subprocesses] in *.
  split; try lia. intros k. specialize (H1 k). rewrite load_of_cons in H1. unfold use_fits, use_add in *.
  cbn [inflight u_requests u_tokens] in *. lia.
Qed.

Lemma mission_slots_le m hs : mission_slots m hs <= slots_of hs.
Proof.
  unfold mission_slots, slots_of. induction hs as [|h hs IH]; [done|]. cbn. unfold sum_of in *.
  destruct (h_slot h), (bool_decide (h_mission h = m)); cbn; lia.
Qed.

Lemma mission_slots_cons m h hs :
  mission_slots m (h :: hs) = (if h_slot h && bool_decide (h_mission h = m) then 1 else 0) + mission_slots m hs.
Proof. done. Qed.

Lemma tickets_take h st : held st !! h_ticket h = None -> tickets (take h st) ≡ₚ h :: tickets st.
Proof. intros Hn. unfold tickets. cbn [held take]. by rewrite map_to_list_insert. Qed.

Lemma take_accounted h st : accounted st -> held st !! h_ticket h = None -> by_job st !! h_job h = None ->
  h_ticket h <= next_ticket st -> tickets_fit (h :: tickets st) -> accounted (take h st).
Proof.
  intros [Hs Hl Hg Hm Ht Hj] Hn Hnj Hid Hfit. pose proof (tickets_take h st Hn) as Hp. split.
  - intros k. rewrite (load_of_perm k _ _ Hp), load_of_cons. cbn [take st_scopes].
    rewrite charge_exact.
    + rewrite Hs. apply use_eq; cbn; lia.
    + intros k'. rewrite Hs. pose proof (f_scopes _ Hfit k') as Hf. rewrite load_of_cons in Hf.
      unfold use_fits, use_add in *. cbn [inflight u_requests u_tokens] in *. lia.
  - rewrite (local_of_perm _ _ Hp), local_of_cons. cbn [take local]. rewrite Hl.
    pose proof (f_cpu _ Hfit). pose proof (f_ram _ Hfit). pose proof (f_vram _ Hfit). pose proof (f_sub _ Hfit).
    rewrite local_of_cons in *. cbn [local_plus cpu_millis ram_mb vram_mb subprocesses] in *.
    unfold local_add, local_plus. rewrite !saturating_add32_exact by lia. f_equal; lia.
  - rewrite (slots_of_perm _ _ Hp). pose proof (f_slots _ Hfit) as Hf. cbn [take global_jobs].
    rewrite slots_of_cons in *. rewrite Hg. destruct (h_slot h); [rewrite incr32_exact by lia|]; lia.
  - intros m. rewrite (mission_slots_perm m _ _ Hp), mission_slots_cons. cbn [take missions].
    pose proof (f_slots _ Hfit) as Hf. pose proof (mission_slots_le (h_mission h) (h :: tickets st)) as Hle.
    rewrite mission_slots_cons in Hle. destruct (h_slot h); [|apply Hm]. cbn [andb] in *.
    rewrite lookup_insert. destruct (decide (h_mission h = m)) as [<-|Hne].
    + rewrite !bool_decide_true in * by done. cbn [default from_option id]. unfold id. rewrite Hm, incr32_exact by lia. lia.
    + rewrite bool_decide_false by done. apply Hm.
  - intros id h' Hh. cbn [take held next_ticket] in *. destruct (decide (h_ticket h = id)) as [<-|Hne].
    + rewrite lookup_insert_eq in Hh. injection Hh as <-. done.
    + rewrite lookup_insert_ne in Hh by done. by apply Ht.
  - intros j id. cbn [take by_job held]. destruct (decide (h_job h = j)) as [<-|Hne].
    + rewrite lookup_insert_eq. split.
      * intros [= <-]. exists h. by rewrite lookup_insert_eq.
      * intros (h' & Hh & Hjob). destruct (decide (h_ticket h = id)) as [->|Hne]; [done|].
        rewrite lookup_insert_ne in Hh by done. rewrite (proj2 (Hj (h_job h) id)) in Hnj by eauto. done.
    + rewrite lookup_insert_ne by done. rewrite Hj. split; intros (h' & Hh & Hjob); exists h'; (split; [|done]).
      * rewrite lookup_insert_ne; [done|]. intros <-. congruence.
      * destruct (decide (h_ticket h = id)) as [<-|Hnid]; [rewrite lookup_insert_eq in Hh; congruence|].
        by rewrite lookup_insert_ne in Hh.
Qed.

Lemma tickets_give_back h st : held st !! h_ticket h = Some h -> tickets st ≡ₚ h :: tickets (give_back h st).
Proof.
  intros Hh. unfold tickets. cbn [held give_back]. rewrite <- (map_to_list_delete _ _ _ Hh). done.
Qed.

Lemma give_back_accounted h st : accounted st -> held st !! h_ticket h = Some h -> accounted (give_back h st).
Proof.
  intros [Hs Hl Hg Hm Ht Hj] Hh. pose proof (tickets_give_back h st Hh) as Hp. split.
  - intros k. cbn [give_back st_scopes]. specialize (refund_exact (h_scopes h) (st_scopes st)) as Hr.
    assert (forall k, use_of (st_scopes st) k = use_add (load k (h_scopes h)) (load_of k (tickets (give_back h st)))) as Hu
      by (intros k'; by rewrite Hs, (load_of_perm k' _ _ Hp)).
    specialize (Hr ltac:(intros k'; rewrite Hu; unfold use_le; cbn; lia) k). rewrite Hu in Hr.
    apply (f_equal (fun u => (inflight u, u_requests u, u_tokens u))) in Hr. cbn in Hr. injection Hr as R1 R2 R3.
    apply use_eq; lia.
  - cbn [give_back local]. rewrite Hl, (local_of_perm _ _ Hp), local_of_cons. destruct (local_of (tickets (give_back h st))).
    unfold local_sub, local_plus. cbn. f_equal; lia.
  - cbn [give_back global_jobs]. rewrite Hg, (slots_of_perm _ _ Hp).
    rewrite slots_of_cons. destruct (h_slot h); lia.
  - intros m. cbn [give_back missions]. specialize (Hm m). rewrite (mission_slots_perm m _ _ Hp), mission_slots_cons in Hm.
    destruct (h_slot h); cbn [andb] in Hm; [|exact Hm].
    destruct (decide (h_mission h = m)) as [<-|Hne].
    + rewrite bool_decide_true in Hm by done. destruct (missions st !! h_mission h) as [x|] eqn:E; cbn in Hm; [|lia].
      rewrite lookup_insert_eq. cbn. lia.
    + rewrite bool_decide_false in Hm by done. destruct (missions st !! h_mission h) as [x|] eqn:E; [|exact Hm].
      by rewrite lookup_insert_ne.
  - intros id h' Hh'. cbn [give_back held next_ticket] in *. apply lookup_delete_Some in Hh' as [_ Hh']. by apply Ht.
  - intros j id. cbn [give_back by_job held]. rewrite lookup_delete_Some, Hj. split.
    + intros [Hne (h' & Hh' & Hjob)]. exists h'. split; [|done]. apply lookup_delete_Some. split; [|done].
      intros <-. congruence.
    + intros (h' & Hh' & Hjob). apply lookup_delete_Some in Hh' as [Hne Hh']. split; [|eauto].
      intros <-. apply Hne. assert (by_job st !! h_job h = Some (h_ticket h)) as H1 by (apply Hj; eauto).
      assert (by_job st !! h_job h = Some id) as H2 by (apply Hj; eauto). congruence.
Qed.

Lemma give_back_all l st : accounted st -> NoDup (h_ticket <$> l) -> (forall h, h ∈ l -> held st !! h_ticket h = Some h) ->
  let st' := fold_left (fun st h => give_back h st) l st in
  accounted st' /\ (forall id, held st' !! id = if decide (id ∈ h_ticket <$> l) then None else held st !! id) /\
  queue st' = queue st /\ next_ticket st' = next_ticket st.
Proof.
  revert st. induction l as [|h l IH]; intros st Ha Hn Hl; cbn [fold_left].
  - split_and!; [done| |done|done]. intros id. rewrite decide_False; [done|]. apply not_elem_of_nil.
  - rewrite fmap_cons in Hn. apply NoDup_cons in Hn as [Hnh Hn].
    assert (held st !! h_ticket h = Some h) as Hh by (apply Hl; left).
    destruct (IH (give_back h st)) as (Ha' & Hd & Hq & Hnx).
    + by apply give_back_accounted.
    + done.
    + intros h' Hh'. cbn [give_back held]. rewrite lookup_delete_ne; [apply Hl; by right|].
      intros Heq. apply Hnh. rewrite Heq. by apply list_elem_of_fmap_2.
    + split_and!; [done| |by rewrite Hq|by rewrite Hnx]. intros id. rewrite Hd. cbn [give_back held].
      rewrite fmap_cons. destruct (decide (id = h_ticket h)) as [->|Hne].
      * rewrite lookup_delete_eq, (decide_True (P := h_ticket h ∈ h_ticket h :: _)) by left. by destruct (decide _).
      * rewrite lookup_delete_ne by done. by destruct (decide (id ∈ h_ticket <$> l)), (decide (id ∈ h_ticket h :: (h_ticket <$> l))); set_solver.
Qed.

Lemma tickets_lookup st h : accounted st -> h ∈ tickets st <-> held st !! h_ticket h = Some h.
Proof.
  intros Ha. unfold tickets. rewrite list_elem_of_fmap. split.
  - intros ([id h'] & -> & Hin). apply elem_of_map_to_list in Hin. cbn.
    by destruct (a_ticket _ Ha _ _ Hin) as [-> _].
  - intros Hh. exists (h_ticket h, h). split; [done|]. by apply elem_of_map_to_list.
Qed.

Lemma tickets_nodup st : accounted st -> NoDup (h_ticket <$> tickets st).
Proof.
  intros Ha. unfold tickets. rewrite <- list_fmap_compose.
  replace (((h_ticket ∘ snd) : N * Held -> N) <$> map_to_list (held st)) with ((map_to_list (held st)).*1).
  - apply NoDup_fst_map_to_list.
  - apply list_fmap_ext. intros i [id h] Hi. apply list_elem_of_lookup_2, elem_of_map_to_list in Hi. cbn.
    by destruct (a_ticket _ Ha _ _ Hi) as [-> _].
Qed.

Section Purging.
Variable limits : AdmissionLimits.

Definition unexpired (now : N) (h : Held) : Prop := now < expires_ms h.

Lemma purge_spec st now : accounted st ->
  accounted (purge_expired st now) /\
  (forall id h, held (purge_expired st now) !! id = Some h <-> held st !! id = Some h /\ unexpired now h) /\
  queue (purge_expired st now) = queue st /\ next_ticket (purge_expired st now) = next_ticket st.
Proof.
  intros Ha. unfold purge_expired. set (l := sort_by_key _ _).
  assert (l ≡ₚ List.filter (fun h => expires_ms h <=? now) (tickets st)) as Hp by (subst l; by rewrite sort_by_key_perm).
  assert (forall h, h ∈ l <-> held st !! h_ticket h = Some h /\ expires_ms h <= now) as Hl.
  { intros h. rewrite Hp, list_elem_of_In, filter_In, <- list_elem_of_In, (tickets_lookup st h Ha), N.leb_le. done. }
  assert (NoDup (h_ticket <$> l)) as Hn.
  { rewrite Hp. apply NoDup_filter_fmap. by apply tickets_nodup. }
  destruct (give_back_all l st Ha Hn (fun h Hh => proj1 (proj1 (Hl h) Hh))) as (Ha' & Hd & Hq & Hnx).
  split_and!; [done| |done|done]. intros id h. rewrite Hd. unfold unexpired. destruct (decide (id ∈ h_ticket <$> l)) as [Hin|Hout].
  - split; [done|]. intros [Hh Hlt]. apply list_elem_of_fmap in Hin as (h' & -> & Hin). apply Hl in Hin as [Hh' Hle].
    assert (h = h') by congruence. subst. lia.
  - split; [|by intros [? _]]. intros Hh. split; [done|]. apply N.lt_nge. intros Hle. apply Hout.
    destruct (a_ticket _ Ha _ _ Hh) as [<- _]. apply list_elem_of_fmap_2. by apply Hl.
Qed.
End Purging.

(** ** Limits *)

Section Capacity.
Variable limits : AdmissionLimits.

(** What the live tickets may hold. *)
Record within_caps (hs : list Held) : Prop := {
  w_scopes : forall k, use_le (load_of k hs)
    (mkUse (max_inflight (scope_limits limits k)) (max_requests (scope_limits limits k)) (max_tokens (scope_limits limits k)));
  w_cpu : cpu_millis (local_of hs) <= cpu_millis (local_limit limits);
  w_ram : ram_mb (local_of hs) <= ram_mb (local_limit limits);
  w_vram : vram_mb (local_of hs) = 0 \/
    vram_mb (local_of hs) * MIB + vram_mb (local_limit limits) * MIB / 20 <= vram_mb (local_limit limits) * MIB;
  w_sub : subprocesses (local_of hs) <= subprocesses (local_limit limits);
  w_global : slots_of hs <= max_global_jobs limits;
  w_missions : forall m, mission_slots m hs <= max_mission_jobs limits;
}.

(** Room for one more request. *)
Record room (hs : list Held) (req : AdmitRequest) : Prop := {
  r_slot : holds_job_slot req = true ->
    slots_of hs < max_global_jobs limits /\ mission_slots (mission req) hs < max_mission_jobs limits;
  r_cpu : cpu_millis (local_of hs) + cpu_millis (needs req) <= cpu_millis (local_limit limits);
  r_ram : ram_mb (local_of hs) + ram_mb (needs req) <= ram_mb (local_limit limits);
  r_vram : vram_mb (needs req) = 0 \/
    (vram_mb (local_of hs) + vram_mb (needs req)) * MIB + vram_mb (local_limit limits) * MIB / 20
      <= vram_mb (local_limit limits) * MIB;
  r_sub : subprocesses (local_of hs) + subprocesses (needs req) <= subprocesses (local_limit limits);
  r_scopes : forall s, s ∈ scopes req ->
    inflight (load_of (key s) hs) < max_inflight (scope_limits limits (key s)) /\
    u_requests (load_of (key s) hs) + requests s <= max_requests (scope_limits limits (key s)) /\
    u_tokens (load_of (key s) hs) + tokens s <= max_tokens (scope_limits limits (key s));
}.

(** Limits below the top of their types, so that a saturated sum is over them. *)
Record finite : Prop := {
  fin_scopes : forall k, max_inflight (scope_limits limits k) <= u32_max /\
    max_requests (scope_limits limits k) < u32_max /\ max_tokens (scope_limits limits k) < u64_max;
  fin_cpu : cpu_millis (local_limit limits) < u32_max;
  fin_ram : ram_mb (local_limit limits) < u32_max;
  fin_vram : vram_mb (local_limit limits) <= u32_max;
  fin_sub : subprocesses (local_limit limits) < u32_max;
  fin_global : max_global_jobs limits <= u32_max;
}.
Hypothesis limits_finite : finite.

Lemma over32 m a b : m < u32_max -> (m <? saturating_add32 a b) = false <-> a + b <= m.
Proof. intros Hm. rewrite N.ltb_ge. unfold saturating_add32. lia. Qed.
Lemma over64 m a b : m < u64_max -> (m <? saturating_add a b) = false <-> a + b <= m.
Proof. intros Hm. rewrite N.ltb_ge. unfold saturating_add. lia. Qed.

Lemma vram_admits_iff total used need : vram_admits total used need = true <->
  need = 0 \/ (used + need) * MIB + total * MIB / 20 <= total * MIB.
Proof.
  unfold vram_admits, accel_admits. destruct (N.eqb_spec need 0) as [->|Hn]; [naive_solver|].
  assert (0 < MIB) by done. set (h := total * MIB / 20). rewrite N.mul_add_distr_r.
  set (t := total * MIB). set (u := used * MIB). set (x := need * MIB).
  assert (0 < x) by (subst x; nia). clearbody h t u x.
  destruct (N.eqb_spec x 0); [lia|]. cbn [orb]. destruct (N.ltb_spec (t - u) x).
  - split; [done|]. intros [?|?]; lia.
  - destruct (N.ltb_spec (t - u - x) h); (split; [try done|intros [?|?]; try lia]); try (right; lia).
Qed.

Lemma mission_slots_default st m : accounted st -> default 0 (missions st !! m) = mission_slots m (tickets st).
Proof. intros Ha. apply Ha. Qed.

Lemma scope_full_iff st s : accounted st -> scope_full limits st s = false <->
  inflight (load_of (key s) (tickets st)) < max_inflight (scope_limits limits (key s)) /\
  u_requests (load_of (key s) (tickets st)) + requests s <= max_requests (scope_limits limits (key s)) /\
  u_tokens (load_of (key s) (tickets st)) + tokens s <= max_tokens (scope_limits limits (key s)).
Proof.
  intros Ha. unfold scope_full. fold (use_of (st_scopes st) (key s)). rewrite (a_scopes _ Ha).
  destruct (fin_scopes limits_finite (key s)) as (_ & Hr & Ht).
  rewrite !orb_false_iff, N.leb_gt, (over32 _ _ _ Hr), (over64 _ _ _ Ht). tauto.
Qed.

(** The code's checks pass exactly when there is room. *)
Lemma denial_iff st req : accounted st -> denial limits st req = None <-> room (tickets st) req.
Proof.
  intros Ha. unfold denial. rewrite (a_global _ Ha), (a_missions _ Ha), (a_local _ Ha).
  cbn [local_add cpu_millis ram_mb vram_mb subprocesses].
  destruct (List.find (scope_full limits st) (scopes req)) as [bad|] eqn:Ef.
  - split; [intros H; by repeat case_match|].
    intros Hr. exfalso. apply List.find_some in Ef as [Hin Hbad].
    apply list_elem_of_In, (r_scopes _ _ Hr), (proj2 (scope_full_iff st bad Ha)) in Hin. congruence.
  - assert (forall s, s ∈ scopes req -> scope_full limits st s = false) as Hall.
    { intros s Hs. eapply List.find_none; [exact Ef|]. by apply list_elem_of_In. }
    pose proof (over32 _ (cpu_millis (local_of (tickets st))) (cpu_millis (needs req)) (fin_cpu limits_finite)) as Hc.
    pose proof (over32 _ (ram_mb (local_of (tickets st))) (ram_mb (needs req)) (fin_ram limits_finite)) as Hm.
    pose proof (over32 _ (subprocesses (local_of (tickets st))) (subprocesses (needs req)) (fin_sub limits_finite)) as Hs.
    pose proof (vram_admits_iff (vram_mb (local_limit limits)) (vram_mb (local_of (tickets st))) (vram_mb (needs req))) as Hv.
    split.
    + intros H. destruct (holds_job_slot req && (_ <=? slots_of _)) eqn:E1; [done|].
      destruct (holds_job_slot req && (_ <=? mission_slots _ _)) eqn:E2; [done|].
      destruct (_ || _) eqn:E3; [done|]. bool_to_prop. split.
      * intros Hslot. rewrite Hslot in E1, E2. cbn [andb] in E1, E2. by rewrite !N.leb_gt in *.
      * by apply Hc.
      * by apply Hm.
      * by apply Hv.
      * by apply Hs.
      * intros s Hin. by apply scope_full_iff, Hall.
    + intros [R1 R2 R3 R4 R5 R6]. rewrite (proj2 Hc R2), (proj2 Hm R3), (proj2 Hv R4), (proj2 Hs R5). cbn [orb negb].
      destruct (holds_job_slot req); cbn [andb]; [|done]. destruct (R1 eq_refl) as [G1 G2].
      by rewrite (proj2 (N.leb_gt _ _) G1), (proj2 (N.leb_gt _ _) G2).
Qed.

Lemma load_held_notin id now req k : k ∉ key <$> scopes req -> load k (h_scopes (held_of limits req id now)) = ScopeUse_default.
Proof.
  cbn [held_of h_scopes]. induction (scopes req) as [|s l IH]; [done|]. rewrite !fmap_cons.
  intros [Hs Hl]%not_elem_of_cons. cbn [load fst]. rewrite decide_False by congruence. by apply IH.
Qed.

Lemma load_held_in id now req s : NoDup (key <$> scopes req) -> s ∈ scopes req ->
  load (key s) (h_scopes (held_of limits req id now)) = mkUse 1 (requests s) (tokens s).
Proof.
  cbn [held_of h_scopes]. induction (scopes req) as [|x l IH]; [intros _ Hs; by apply not_elem_of_nil in Hs|].
  rewrite !fmap_cons. intros [Hx Hn]%NoDup_cons Hs. cbn [load fst]. apply elem_of_cons in Hs as [->|Hs].
  - rewrite decide_True by done. cbn [snd fst].
    assert (load (key x) ((fun s => (key s, (requests s, tokens s))) <$> l) = ScopeUse_default) as ->.
    { clear - Hx. induction l as [|y l IH]; [done|]. rewrite fmap_cons in *. apply not_elem_of_cons in Hx as [Hy Hx].
      cbn [load fst]. rewrite decide_False by congruence. by apply IH. }
    apply use_eq; cbn; lia.
  - rewrite decide_False; [by apply IH|]. intros Heq. apply Hx. rewrite Heq. by apply list_elem_of_fmap_2.
Qed.

Lemma grant_within hs req id now : within_caps hs -> room hs req -> NoDup (key <$> scopes req) ->
  within_caps (held_of limits req id now :: hs).
Proof.
  intros [W1 W2 W3 W4 W5 W6 W7] [R1 R2 R3 R4 R5 R6] Hn. split.
  - intros k. rewrite load_of_cons. destruct (decide (k ∈ key <$> scopes req)) as [Hin|Hout].
    + apply list_elem_of_fmap in Hin as (s & -> & Hs). rewrite (load_held_in _ _ _ _ Hn Hs).
      destruct (R6 s Hs) as (Q1 & Q2 & Q3). unfold use_le, use_add. cbn [inflight u_requests u_tokens]. lia.
    + rewrite load_held_notin by done. specialize (W1 k). unfold use_le, use_add in *. cbn in *. lia.
  - rewrite local_of_cons. cbn. lia.
  - rewrite local_of_cons. cbn. lia.
  - rewrite local_of_cons. cbn [held_of h_local local_plus vram_mb]. destruct R4 as [->|R4]; [exact W4|right].
    by rewrite (N.add_comm (vram_mb (needs req))).
  - rewrite local_of_cons. cbn. lia.
  - rewrite slots_of_cons. cbn [held_of h_slot]. destruct (holds_job_slot req); [destruct (R1 eq_refl)|]; lia.
  - intros m. rewrite mission_slots_cons. cbn [held_of h_slot h_mission]. specialize (W7 m).
    destruct (holds_job_slot req); cbn [andb]; [destruct (R1 eq_refl)|lia].
    case_bool_decide as Hm; [subst m|]; lia.
Qed.

Lemma within_fits hs : within_caps hs -> tickets_fit hs.
Proof.
  intros [W1 W2 W3 W4 W5 W6 W7]. destruct limits_finite as [F1 F2 F3 F4 F5 F6]. split; try lia.
  - intros k. specialize (W1 k). specialize (F1 k). unfold use_le, use_fits in *. cbn in W1. lia.
  - destruct W4 as [->|W4]; [lia|]. etrans; [|exact F4]. apply (N.mul_le_mono_pos_r _ _ MIB); [done|].
    etrans; [|exact W4]. apply N.le_add_r.
Qed.

Lemma within_tail h hs : within_caps (h :: hs) -> within_caps hs.
Proof.
  intros [W1 W2 W3 W4 W5 W6 W7]. rewrite local_of_cons in W2, W3, W4, W5. rewrite slots_of_cons in W6.
  cbn [local_plus cpu_millis ram_mb vram_mb subprocesses] in *. split; try lia.
  - intros k. specialize (W1 k). rewrite load_of_cons in W1. unfold use_le, use_add in *. cbn [inflight u_requests u_tokens] in *. lia.
  - intros m. specialize (W7 m). rewrite mission_slots_cons in W7. lia.
Qed.

Lemma within_perm hs hs' : hs ≡ₚ hs' -> within_caps hs -> within_caps hs'.
Proof.
  intros Hp [W1 W2 W3 W4 W5 W6 W7]. split.
  - intros k. by rewrite <- (load_of_perm k _ _ Hp).
  - by rewrite <- (local_of_perm _ _ Hp).
  - by rewrite <- (local_of_perm _ _ Hp).
  - by rewrite <- (local_of_perm _ _ Hp).
  - by rewrite <- (local_of_perm _ _ Hp).
  - by rewrite <- (slots_of_perm _ _ Hp).
  - intros m. by rewrite <- (mission_slots_perm m _ _ Hp).
Qed.

(** A part of what fits, fits. *)
Lemma within_part hs hs' : hs ⊆+ hs' -> within_caps hs' -> within_caps hs.
Proof.
  intros [k Hp]%submseteq_Permutation Hw. apply (within_perm _ _ Hp) in Hw. rewrite (comm (++)) in Hp.
  apply (within_perm _ (k ++ hs)) in Hw; [|by rewrite (comm (++))].
  clear Hp. induction k as [|h k IH]; [done|]. apply IH. by apply (within_tail h).
Qed.

(** Counters right and nothing oversubscribed. *)
Definition sound (st : State) : Prop := accounted st /\ within_caps (tickets st).

Lemma tickets_nodup' st : accounted st -> NoDup (tickets st).
Proof. intros Ha. eapply NoDup_fmap_1, tickets_nodup, Ha. Qed.

Lemma sound_part st st' : sound st -> accounted st' -> (forall h, h ∈ tickets st' -> h ∈ tickets st) -> sound st'.
Proof.
  intros [_ Hw] Ha Hi. split; [done|]. apply (within_part _ (tickets st)); [|done].
  apply NoDup_submseteq; [by apply tickets_nodup'|exact Hi].
Qed.

Lemma purge_sound st now : sound st -> sound (purge_expired st now).
Proof.
  intros Hs. destruct (purge_spec st now (proj1 Hs)) as (Ha & Hh & _). apply (sound_part st); [done|done|].
  intros h. rewrite (tickets_lookup _ _ Ha), (tickets_lookup _ _ (proj1 Hs)). by intros [? _]%Hh.
Qed.

Lemma release_sound st t : sound st -> sound (release st t).
Proof.
  intros Hs. unfold release. destruct (held st !! t) as [h|] eqn:E; [|done].
  destruct (a_ticket _ (proj1 Hs) _ _ E) as [<- _].
  assert (accounted (give_back h st)) as Ha by by apply give_back_accounted; [apply Hs|].
  apply (sound_part st); [done|done|]. intros h'. rewrite (tickets_lookup _ _ Ha), (tickets_lookup _ _ (proj1 Hs)).
  cbn [give_back held]. by intros [_ ?]%lookup_delete_Some.
Qed.

Lemma queue_sound st q : sound st -> sound (set_queue st q).
Proof. intros [[] Hw]. by split. Qed.

Lemma grant_sound st req pos now : sound st -> by_job st !! job req = None -> room (tickets st) req ->
  NoDup (key <$> scopes req) -> next_ticket st < u64_max -> sound (grant limits st req pos now).2.
Proof.
  intros [Ha Hw] Hj Hr Hn Hx. unfold grant. cbn [snd]. set (q := match pos with Some _ => _ | None => _ end).
  unfold wrapping_add. rewrite N.mod_small by (unfold u64_max in Hx; lia). set (id := next_ticket st + 1).
  set (st1 := set_queue (set_next st id) q). set (h := held_of limits req id now).
  assert (accounted st1) as Ha1.
  { destruct Ha as [A1 A2 A3 A4 A5 A6]. split; [done..| |done]. intros i h' Hh'. destruct (A5 _ _ Hh') as [? ?]. cbn. lia. }
  assert (held st1 !! h_ticket h = None) as Hfree.
  { cbn. destruct (held st !! id) as [h'|] eqn:E; [|done]. destruct (a_ticket _ Ha _ _ E). lia. }
  assert (within_caps (h :: tickets st1)) as Hw1 by by apply grant_within.
  split.
  - apply take_accounted; [done|done|done| |by apply within_fits]. cbn. lia.
  - apply (within_perm (h :: tickets st1)); [|done]. by rewrite (tickets_take _ _ Hfree).
Qed.

(** ** One critical section *)

(** What an admission may end in: the reservation a job already has, a new one, or a denial
    that reserves nothing. *)
Inductive admitted (st : State) (req : AdmitRequest) (now : N) : result N Backpressure -> State -> Prop :=
| adm_again id : by_job st !! job req = Some id -> admitted st req now (Ok id) st
| adm_grant pos : by_job st !! job req = None -> denial limits st req = None ->
    admitted st req now (Ok (grant limits st req pos now).1) (grant limits st req pos now).2
| adm_denied d q : by_job st !! job req = None -> admitted st req now (Err d) (set_queue st q).

Lemma set_queue_self st : set_queue st (queue st) = st.
Proof. by destruct st. Qed.

Lemma try_admit_admitted st req now :
  admitted (purge_expired st now) req now (try_admit limits st req now).1 (try_admit limits st req now).2.
Proof.
  unfold try_admit. set (st1 := purge_expired st now).
  destruct (by_job st1 !! job req) as [id|] eqn:Ej; [by apply adm_again|].
  assert (forall d, admitted st1 req now (Err d) st1) as Hd
    by (intros d; rewrite <- (set_queue_self st1) at 2; by apply adm_denied).
  destruct (_ && _ && _); [by destruct (_ <=? _)%nat; [apply Hd|apply adm_denied]|].
  destruct (denial limits st1 req) as [d|] eqn:Ed; [|by apply adm_grant].
  destruct d; try apply Hd; (destruct (_ && _); [|apply Hd]);
    by destruct (_ <=? _)%nat; [apply Hd|apply adm_denied].
Qed.

Lemma try_admit_sound st req now : sound st -> NoDup (key <$> scopes req) -> next_ticket st < u64_max ->
  sound (try_admit limits st req now).2.
Proof.
  intros Hs Hn Hx. pose proof (purge_sound st now Hs) as Hp.
  destruct (purge_spec st now (proj1 Hs)) as (_ & _ & _ & Hnx). destruct (try_admit_admitted st req now).
  - done.
  - apply grant_sound; [done..| |done|by rewrite Hnx]. by apply denial_iff; [apply Hp|].
  - by apply queue_sound.
Qed.
End Capacity.

(** ** The file of tickets *)

Section Restarting.
Variable limits : AdmissionLimits.
Hypothesis limits_finite : finite limits.

Lemma take_all l st : accounted st -> NoDup (h_ticket <$> l) -> NoDup (h_job <$> l) ->
  (forall h, h ∈ l -> held st !! h_ticket h = None /\ by_job st !! h_job h = None /\ h_ticket h <= next_ticket st) ->
  tickets_fit (l ++ tickets st) ->
  let st' := fold_left (fun st h => take h st) l st in
  accounted st' /\ tickets st' ≡ₚ l ++ tickets st /\ next_ticket st' = next_ticket st.
Proof.
  revert st. induction l as [|h l IH]; intros st Ha Hn Hj Hl Hf; cbn [fold_left]; [by split_and!|].
  rewrite !fmap_cons in *. apply NoDup_cons in Hn as [Hnh Hn]. apply NoDup_cons in Hj as [Hjh Hj].
  destruct (Hl h) as (F1 & F2 & F3); [left|]. pose proof (tickets_take h st F1) as Hp.
  destruct (IH (take h st)) as (Ha' & Hp' & Hx'); [|done|done| | |].
  - apply take_accounted; [done..|]. clear - Hf. apply (tickets_fit_perm _ (l ++ h :: tickets st)) in Hf;
      [|by rewrite <- Permutation_middle]. induction l as [|x l IH]; [done|]. by apply IH, (tickets_fit_tail x).
  - intros x Hx. destruct (Hl x) as (G1 & G2 & G3); [by right|]. cbn [take held by_job next_ticket]. split_and!.
    + rewrite lookup_insert_ne; [done|]. intros E. apply Hnh. rewrite E. by apply list_elem_of_fmap_2.
    + rewrite lookup_insert_ne; [done|]. intros E. apply Hjh. rewrite E. by apply list_elem_of_fmap_2.
    + done.
  - refine (tickets_fit_perm _ _ _ Hf). by rewrite Hp, <- Permutation_middle.
  - split_and!; [done| |exact Hx']. by rewrite Hp', Hp, <- Permutation_middle.
Qed.

Lemma jobs_nodup st : accounted st -> NoDup (h_job <$> tickets st).
Proof.
  intros Ha. apply NoDup_fmap_2_strong; [|by apply tickets_nodup'].
  intros h h' Hh Hh' E. apply (tickets_lookup _ _ Ha) in Hh, Hh'.
  assert (by_job st !! h_job h = Some (h_ticket h)) as H1 by (apply Ha; eauto).
  assert (by_job st !! h_job h = Some (h_ticket h')) as H2 by (apply Ha; eauto). congruence.
Qed.

Lemma skip_expired now l st :
  fold_left (fun st h => if expires_ms h <=? now then st else take h st) l st
  = fold_left (fun st h => take h st) (List.filter (fun h => negb (expires_ms h <=? now)) l) st.
Proof.
  revert st. induction l as [|h l IH]; intros st; [done|]. cbn [fold_left List.filter].
  destruct (expires_ms h <=? now); cbn [negb fold_left]; apply IH.
Qed.

(** The file holds what memory holds, but for tickets that have expired. *)
Definition file_matches (t : N) (c : Controller) : Prop :=
  match file c with
  | None => held (state c) = ∅
  | Some p => p_next_ticket p = next_ticket (state c) /\ NoDup (h_ticket <$> p_held p) /\
      forall h, unexpired t h -> h ∈ p_held p <-> h ∈ tickets (state c)
  end.

Lemma unexpired_mono t t' h : t <= t' -> unexpired t' h -> unexpired t h.
Proof. unfold unexpired. lia. Qed.

Lemma persisted_matches t st f : accounted st -> file_matches t (mkController st (save true st f)).
Proof.
  intros Ha. split_and!; [done| |]; cbn [save file state persisted p_held].
  - rewrite sort_by_key_perm. by apply tickets_nodup.
  - intros h _. by rewrite sort_by_key_perm.
Qed.

Lemma accounted_empty n : accounted (set_next State_default n).
Proof.
  split; try done; cbn.
  intros j id. split; [done|]. by intros (h & ? & _).
Qed.

Lemma sound_empty n : sound limits (set_next State_default n).
Proof.
  split; [apply accounted_empty|]. split; cbn; try apply N.le_0_l; [|by left|].
  - intros k. unfold use_le. cbn. split_and!; apply N.le_0_l.
  - intros m. apply N.le_0_l.
Qed.

(** A reload gives what memory had, less what expired. *)
Lemma load_tickets c t now p : sound limits (state c) -> file_matches t c -> t <= now -> file c = Some p ->
  sound limits (load_persisted p now) /\
  (forall h, h ∈ tickets (load_persisted p now) <-> h ∈ tickets (state c) /\ unexpired now h) /\
  next_ticket (load_persisted p now) = next_ticket (state c).
Proof.
  intros Hs Hm Ht Hf. unfold file_matches in Hm. rewrite Hf in Hm. destruct Hm as (Hx & Hn & Hin).
  pose proof (proj1 Hs) as Ha.
  unfold load_persisted. rewrite skip_expired. set (l := List.filter _ _).
  assert (forall h, h ∈ l <-> h ∈ tickets (state c) /\ unexpired now h) as Hl.
  { intros h. unfold l. rewrite list_elem_of_In, filter_In, <- list_elem_of_In, negb_true_iff, N.leb_gt. split.
    - intros [H1 H2]. split; [|done]. apply Hin; [|done]. by apply (unexpired_mono t now).
    - intros [H1 H2]. split; [|done]. apply Hin; [|done]. by apply (unexpired_mono t now). }
  assert (NoDup (h_ticket <$> l)) as Hnl by by apply NoDup_filter_fmap.
  assert (l ⊆+ tickets (state c)) as Hsub.
  { apply NoDup_submseteq; [by eapply NoDup_fmap_1|]. by intros h [? _]%Hl. }
  assert (NoDup (h_job <$> l)) as Hjl.
  { apply NoDup_fmap_2_strong; [|by eapply NoDup_fmap_1]. intros h h' [Hh _]%Hl [Hh' _]%Hl E.
    apply (tickets_lookup _ _ Ha) in Hh, Hh'.
    assert (by_job (state c) !! h_job h = Some (h_ticket h)) as H1 by (apply Ha; eauto).
    assert (by_job (state c) !! h_job h = Some (h_ticket h')) as H2 by (apply Ha; eauto). congruence. }
  destruct (take_all l (set_next State_default (p_next_ticket p))) as (Ha' & Hp' & Hx'); [apply accounted_empty|done|done| | |].
  - intros h [Hh _]%Hl. cbn. rewrite !lookup_empty. split_and!; [done|done|]. rewrite Hx.
    apply (tickets_lookup _ _ Ha) in Hh. by destruct (a_ticket _ Ha _ _ Hh).
  - assert (tickets (set_next State_default (p_next_ticket p)) = []) as -> by done. rewrite app_nil_r.
    apply (within_fits limits limits_finite), (within_part limits _ (tickets (state c))); [done|apply Hs].
  - assert (tickets (set_next State_default (p_next_ticket p)) = []) as Hnil by done. rewrite Hnil, app_nil_r in Hp'.
    split_and!; [split; [done|]| |by rewrite Hx'].
    + apply (within_perm _ l); [by rewrite Hp'|]. apply (within_part _ _ (tickets (state c))); [done|apply Hs].
    + intros h. rewrite Hp'. apply Hl.
Qed.

(** ** Runs *)

(** A controller over its life: every write of its file succeeds, the clock does not go
    back, and no request names a scope twice. *)
Inductive reachable : N -> Controller -> Prop :=
| reach_start t : reachable t (mkController State_default None)
| reach_admit t c req now : reachable t c -> t <= now -> NoDup (key <$> scopes req) ->
    next_ticket (state c) < u64_max -> reachable now (admit_ limits c req now true).2
| reach_probe t c req now : reachable t c -> t <= now ->
    reachable now (mkController (probe limits (state c) req now).2 (file c))
| reach_drop t c ticket : reachable t c -> reachable t (drop_ticket c ticket true)
| reach_restart t c now : reachable t c -> t <= now -> reachable now (restart c now).

Lemma matches_later t now c st : accounted (state c) -> accounted st -> file_matches t c -> t <= now ->
  next_ticket st = next_ticket (state c) ->
  (forall h, unexpired now h -> h ∈ tickets st <-> h ∈ tickets (state c)) ->
  (forall h, h ∈ tickets st -> h ∈ tickets (state c)) ->
  file_matches now (mkController st (file c)).
Proof.
  intros Ha Ha' Hm Ht Hx Hh Hsub. unfold file_matches in *. cbn [file state]. destruct (file c) as [p|].
  - destruct Hm as (H1 & H2 & H3). split_and!; [congruence|done|]. intros h Hu. rewrite Hh by done.
    apply H3. by apply (unexpired_mono t now).
  - apply map_empty. intros i. destruct (held st !! i) as [h|] eqn:E; [|done]. exfalso.
    destruct (a_ticket _ Ha' _ _ E) as [<- _]. apply (tickets_lookup _ _ Ha'), Hsub, (tickets_lookup _ _ Ha) in E.
    by rewrite Hm in E.
Qed.

Lemma purge_matches t now c : accounted (state c) -> file_matches t c -> t <= now ->
  file_matches now (mkController (purge_expired (state c) now) (file c)).
Proof.
  intros Ha Hm Ht. destruct (purge_spec (state c) now Ha) as (Ha' & Hh & _ & Hx).
  apply (matches_later t now c); try done; intros h; rewrite (tickets_lookup _ _ Ha), (tickets_lookup _ _ Ha').
  - intros Hu. rewrite Hh. tauto.
  - by intros [? _]%Hh.
Qed.

Lemma reachable_sound t c : reachable t c -> sound limits (state c) /\ file_matches t c.
Proof.
  induction 1 as [t|t c req now _ [Hs Hm] Ht Hn Hx|t c req now _ [Hs Hm] Ht|t c ticket _ [Hs Hm]|t c now _ [Hs Hm] Ht].
  - split; [apply (sound_empty 0)|done].
  - pose proof (try_admit_sound limits limits_finite (state c) req now Hs Hn Hx) as Hs'.
    pose proof (purge_matches t now c (proj1 Hs) Hm Ht) as Hpm.
    pose proof (try_admit_admitted limits (state c) req now) as Hadm. unfold admit_.
    destruct (try_admit limits (state c) req now) as [r st']. cbn [snd fst state] in *. split; [done|].
    destruct Hadm as [id Hj|pos Hj _|d q Hj]; cbn [is_ok].
    + rewrite bool_decide_true by (by rewrite Hj). exact Hpm.
    + rewrite bool_decide_false by (by rewrite Hj; intros []). apply persisted_matches, Hs'.
    + exact Hpm.
  - split; [by apply purge_sound|]. apply (purge_matches t); [apply Hs|done..].
  - split; [by apply release_sound|]. unfold drop_ticket. case_bool_decide as E.
    + apply persisted_matches, (release_sound limits _ _ Hs).
    + unfold release. destruct (held (state c) !! ticket); [by destruct E; eexists|]. by destruct c.
  - unfold restart. cbn [state]. destruct (file c) as [p|] eqn:Ef.
    + destruct (load_tickets c t now p Hs Hm Ht Ef) as (Hs' & Hh & Hx). split; [done|].
      rewrite <- Ef. apply (matches_later t now c); [apply Hs|apply Hs'|done..| |].
      * intros h Hu. rewrite Hh. tauto.
      * by intros h [? _]%Hh.
    + split; [apply (sound_empty 0)|done].
Qed.
End Restarting.

(** ** What the controller promises *)

(** Whatever jobs ask, probe, finish, expire or restart, the tickets alive never hold more
    of a scope, of the machine, of a mission's slots or of the global slots than the limits
    allow, and every counter is exactly the sum over them. *)
Theorem never_oversubscribed limits t c : finite limits -> reachable limits t c ->
  within_caps limits (tickets (state c)) /\ accounted (state c).
Proof. intros Hf Hr. destruct (reachable_sound limits Hf t c Hr) as [[? ?] _]. done. Qed.

(** A job whose turn it is gets a ticket exactly when, once expired leases are dropped,
    there is room for all of its request; the ticket then records all of it under a lease. *)
Theorem ticket_iff_room limits t c req now : finite limits -> reachable limits t c -> t <= now ->
  by_job (purge_expired (state c) now) !! job req = None ->
  holds_job_slot req = false \/ queue (state c) = [] \/ job req ∈ queue (state c) ->
  let '(res, c') := admit_ limits c req now true in
  (is_ok res = true <-> room limits (tickets (purge_expired (state c) now)) req) /\
  (forall id, res = Ok id -> held (state c') !! id = Some (held_of limits req id now)).
Proof.
  intros Hf Hr Ht Hj Hturn. destruct (reachable_sound limits Hf t c Hr) as [Hs _].
  destruct (purge_spec (state c) now (proj1 Hs)) as (Ha & _ & Hq & _).
  unfold admit_, try_admit. set (st := purge_expired (state c) now) in *. rewrite Hj, Hq.
  assert (holds_job_slot req && bool_decide (position (job req) (queue (state c)) = None)
    && negb (bool_decide (queue (state c) = [])) = false) as Hgo.
  { destruct Hturn as [->|[->|Hin]]; [done|by rewrite bool_decide_true, andb_false_r by done|].
    rewrite (bool_decide_false (position _ _ = None)); [by rewrite andb_false_r|].
    unfold position. intros E%fmap_None%list_find_None. rewrite Forall_forall in E. by apply (E _ Hin). }
  rewrite Hgo. pose proof (denial_iff limits Hf st req Ha) as Hd.
  destruct (denial limits st req) as [d|].
  - assert (forall e q, (is_ok (Err e : result N Backpressure) = true <-> room limits (tickets st) req) /\
      (forall id, (Err e : result N Backpressure) = Ok id -> held (set_queue st q) !! id = Some (held_of limits req id now)))
      as Hno by by (split; [rewrite <- Hd|]).
    rewrite <- (set_queue_self st). destruct d; repeat case_match; simplify_eq; cbn [state]; apply Hno.
  - unfold grant. cbn [state is_ok]. split; [by rewrite <- Hd|]. intros id [= <-]. cbn [take held].
    by rewrite lookup_insert_eq.
Qed.

(** A new process over the file of tickets holds exactly the tickets whose lease has not
    expired, with the counters to match; no number of a ticket alive is issued again. *)
Theorem restart_keeps_live limits t c now : finite limits -> reachable limits t c -> t <= now ->
  tickets (state (restart c now)) ≡ₚ tickets (purge_expired (state c) now) /\ accounted (state (restart c now)).
Proof.
  intros Hf Hr Ht. destruct (reachable_sound limits Hf t c Hr) as [Hs Hm].
  destruct (purge_spec (state c) now (proj1 Hs)) as (Ha & Hh & _).
  assert (forall h, h ∈ tickets (purge_expired (state c) now) <-> h ∈ tickets (state c) /\ unexpired now h) as Hp.
  { intros h. rewrite (tickets_lookup _ _ Ha), (tickets_lookup _ _ (proj1 Hs)). apply Hh. }
  assert (accounted (state (restart c now)) /\
    forall h, h ∈ tickets (state (restart c now)) <-> h ∈ tickets (state c) /\ unexpired now h) as [Ha' Hr'].
  { unfold restart. cbn [state]. destruct (file c) as [p|] eqn:Ef.
    - destruct (load_tickets limits Hf c t now p Hs Hm Ht Ef) as (Hs' & Hin & _). split; [apply Hs'|done].
    - split; [apply (accounted_empty 0)|]. unfold file_matches in Hm. rewrite Ef in Hm. unfold tickets at 2. rewrite Hm.
      intros h. cbn. rewrite map_to_list_empty. cbn. set_solver. }
  split; [|done]. apply NoDup_Permutation; [by apply tickets_nodup'..|]. intros h. by rewrite Hr', Hp.
Qed.

Lemma try_admit_queue limits st req now :
  NoDup (queue st) /\ (length (queue st) <= max_queue limits)%nat -> accounted st ->
  let q := queue (try_admit limits st req now).2 in NoDup q /\ (length q <= max_queue limits)%nat.
Proof.
  intros [Hn Hl] Ha. destruct (purge_spec st now Ha) as (_ & _ & Hq & _). unfold try_admit. rewrite Hq.
  destruct (by_job _ !! _); [by cbn; rewrite Hq|].
  assert (position (job req) (queue st) = None -> (max_queue limits <=? length (queue st))%nat = false ->
    NoDup (queue st ++ [job req]) /\ (length (queue st ++ [job req]) <= max_queue limits)%nat) as Hpush.
  { intros E%fmap_None%list_find_None Hf. rewrite Forall_forall in E. apply Nat.leb_gt in Hf. rewrite length_app. cbn.
    split; [|lia]. apply NoDup_app. split_and!; [done| |by apply NoDup_singleton].
    intros x Hx ->%list_elem_of_singleton. by apply (E _ Hx). }
  assert (forall i, NoDup (delete i (queue st)) /\ (length (delete i (queue st)) <= max_queue limits)%nat) as Hdel.
  { intros i. split; [by eapply sublist_NoDup; [|apply sublist_delete]|]. etrans; [|exact Hl]. apply sublist_length, sublist_delete. }
  destruct (position (job req) (queue st)) as [i|] eqn:Ep.
  - rewrite (bool_decide_false (Some i = None)), !andb_false_r by done. cbn [andb].
    destruct (denial _ _ _) as [[]|]; cbn; rewrite ?Hq; auto.
  - rewrite (bool_decide_true (None = None)), !andb_true_r by done. specialize (Hpush eq_refl).
    destruct (_ && _); [by destruct (_ <=? _)%nat eqn:Ef; cbn; rewrite ?Hq; [|apply Hpush]|].
    destruct (denial _ _ _) as [[]|]; [..|by cbn; rewrite Hq]; cbn; try by rewrite Hq.
    all: destruct (holds_job_slot req); [|by cbn; rewrite Hq].
    all: by destruct (_ <=? _)%nat eqn:Ef; cbn; rewrite ?Hq; [|apply Hpush].
Qed.

Lemma take_queue l st : queue (fold_left (fun st h => take h st) l st) = queue st.
Proof. revert st. induction l as [|h l IH]; intros st; [done|]. cbn [fold_left]. by rewrite IH. Qed.

(** The queue never outgrows its bound and no job waits in it twice. *)
Theorem queue_bounded limits t c : finite limits -> reachable limits t c ->
  NoDup (queue (state c)) /\ (length (queue (state c)) <= max_queue limits)%nat.
Proof.
  intros Hf. induction 1 as [t|t c req now Hr IH Ht Hn Hx|t c req now Hr IH Ht|t c ticket Hr IH|t c now Hr IH Ht].
  - split; [apply NoDup_nil_2|apply Nat.le_0_l].
  - destruct (reachable_sound limits Hf t c Hr) as [Hs _].
    pose proof (try_admit_queue limits (state c) req now IH (proj1 Hs)) as Hq. unfold admit_.
    destruct (try_admit limits (state c) req now) as [r st']. exact Hq.
  - destruct (reachable_sound limits Hf t c Hr) as [Hs _]. destruct (purge_spec (state c) now (proj1 Hs)) as (_ & _ & Hq & _).
    cbn [state probe snd]. by rewrite Hq.
  - unfold drop_ticket, release. cbn [state]. by destruct (held (state c) !! ticket).
  - unfold restart. cbn [state].
    assert (forall p, queue (load_persisted p now) = []) as Hl by (intros p; unfold load_persisted; by rewrite skip_expired, take_queue).
    destruct (file c) as [p|]; [rewrite Hl|]; (split; [apply NoDup_nil_2|apply Nat.le_0_l]).
Qed.

(** [probe] foretells [admit] for a job that neither waits nor holds a ticket; the one
    difference is that a full queue turns a wait into a refusal. *)
Lemma probe_foretells limits st req now : accounted st -> by_job (purge_expired st now) !! job req = None ->
  job req ∉ queue st ->
  match (try_admit limits st req now).1 with
  | Ok _ => (probe limits st req now).1 = Ok tt
  | Err QueueFull => is_ok (probe limits st req now).1 = false
  | Err d => (probe limits st req now).1 = Err d
  end.
Proof.
  intros Ha Hj Hq. destruct (purge_spec st now Ha) as (_ & _ & Hqueue & _).
  unfold try_admit, probe. cbn [fst]. rewrite Hj, Hqueue.
  assert (position (job req) (queue st) = None) as ->.
  { unfold position. apply fmap_None, list_find_None. apply Forall_forall. by intros x Hx ->. }
  rewrite (bool_decide_true (None = None)), !andb_true_r by done.
  assert (forall d, denial limits (purge_expired st now) req = Some d -> match d with Queued _ | QueueFull => False | _ => True end) as Hd.
  { intros d. unfold denial. intros Hx. by repeat case_match; simplify_eq. }
  destruct (holds_job_slot req); cbn [andb].
  - destruct (negb (bool_decide (queue st = []))) eqn:Ene.
    + rewrite Nat.add_1_r. by destruct (_ <=? _)%nat.
    + destruct (denial _ _ _) as [d|] eqn:Ed; [|done]. specialize (Hd d eq_refl).
      destruct d; repeat case_match; cbn [fst] in *; simplify_eq; done.
  - destruct (denial _ _ _) as [d|] eqn:Ed; [|done]. specialize (Hd d eq_refl).
    destruct d; repeat case_match; cbn [fst] in *; simplify_eq; done.
Qed.

(** ** Where the code and its comments part *)

Definition small_limits : AdmissionLimits :=
  mkLimits (mkScopeLimits 1 10 1000) ∅ (mkLocal 1000 1000 0 4) 2 2 4 60000.
Definition ask (j : string) (ks : list string) : AdmitRequest :=
  mkRequest "m" j ((fun k => mkScopeRequest k 1 10) <$> ks) (mkLocal 100 100 0 1) true.
Definition start : Controller := mkController State_default None.

(** Asking again for a job's ticket gives a second handle on one reservation: dropping it
    frees what the first still uses, and another job is let into a scope of one. *)
Lemma second_handle_frees :
  let '(r1, c1) := admit_ small_limits start (ask "a" ["acct"]) 0 true in
  let '(r2, c2) := admit_ small_limits c1 (ask "a" ["acct"]) 1 true in
  let c3 := drop_ticket c2 1 true in
  let '(r4, c4) := admit_ small_limits c3 (ask "b" ["acct"]) 2 true in
  r1 = Ok 1 /\ r2 = Ok 1 /\ r4 = Ok 2.
Proof. by vm_compute. Qed.

(** A request that names one scope twice is checked once for each and charged twice. *)
Lemma duplicate_scope_oversubscribes :
  let '(r, c) := admit_ small_limits start (ask "a" ["acct"; "acct"]) 0 true in
  r = Ok 1 /\ inflight (use_of (st_scopes (state c)) "acct") = 2 /\ max_inflight (scope_limits small_limits "acct") = 1.
Proof. by vm_compute. Qed.

(** A job behind the head of the queue that asks again is granted ahead of it. *)
Lemma overtakes_the_head :
  let full := (admit_ small_limits (admit_ small_limits start (ask "a" []) 0 true).2 (ask "b" []) 0 true).2 in
  let '(r3, c3) := admit_ small_limits full (ask "c" []) 1 true in
  let '(r4, c4) := admit_ small_limits c3 (ask "d" []) 1 true in
  let '(r5, c5) := admit_ small_limits (drop_ticket c4 1 true) (ask "d" []) 2 true in
  r3 = Err GlobalFull /\ r4 = Err (Queued 2) /\ r5 = Ok 3 /\ queue (state c5) = ["c"].
Proof. by vm_compute. Qed.

(** [release] grants nothing to those who wait. *)
Lemma release_grants_nothing st ticket : queue (release st ticket) = queue st /\ forall id, held (release st ticket) !! id = None \/
  held (release st ticket) !! id = held st !! id.
Proof.
  unfold release. destruct (held st !! ticket) as [h|]; [|by split; [|right]]. split; [done|]. intros id.
  cbn [give_back held]. destruct (decide (id = h_ticket h)) as [->|Hne]; [left; apply lookup_delete_eq|right; by apply lookup_delete_ne].
Qed.

(** ** Witnesses *)

Lemma small_finite : finite small_limits.
Proof.
  by split.
Qed.

Definition one_job : Controller := (admit_ small_limits start (ask "a" ["acct"]) 5 true).2.
Lemma one_job_reachable : reachable small_limits 5 one_job.
Proof. apply (reach_admit small_limits 5); [apply reach_start|done|by apply NoDup_singleton|done]. Qed.

Lemma never_oversubscribed_witness : inflight (use_of (st_scopes (state one_job)) "acct") = 1 /\
  within_caps small_limits (tickets (state one_job)) /\ accounted (state one_job).
Proof.
  split; [by vm_compute|]. exact (never_oversubscribed small_limits 5 one_job small_finite one_job_reachable).
Defined.

Lemma ticket_iff_room_witness :
  is_ok (admit_ small_limits one_job (ask "b" ["acct"]) 6 true).1 = false /\
  ~ room small_limits (tickets (purge_expired (state one_job) 6)) (ask "b" ["acct"]).
Proof.
  split; [by vm_compute|]. intros Hr.
  pose proof (ticket_iff_room small_limits 5 one_job (ask "b" ["acct"]) 6 small_finite one_job_reachable
    ltac:(done) ltac:(by vm_compute) ltac:(right; left; by vm_compute)) as H.
  assert (is_ok (admit_ small_limits one_job (ask "b" ["acct"]) 6 true).1 = false) as Hno by by vm_compute.
  destruct (admit_ small_limits one_job (ask "b" ["acct"]) 6 true) as [r c]. destruct H as [H _].
  cbn [fst] in Hno. rewrite (proj2 H Hr) in Hno. discriminate Hno.
Defined.

Lemma restart_keeps_live_witness :
  (fun h => h_job h) <$> tickets (state (restart one_job 7)) = ["a"] /\
  tickets (state (restart one_job 7)) ≡ₚ tickets (purge_expired (state one_job) 7) /\ accounted (state (restart one_job 7)).
Proof.
  split; [by vm_compute|].
  exact (restart_keeps_live small_limits 5 one_job 7 small_finite one_job_reachable ltac:(done)).
Defined.

Lemma queue_bounded_witness :
  NoDup (queue (state one_job)) /\ (length (queue (state one_job)) <= max_queue small_limits)%nat.
Proof. exact (queue_bounded small_limits 5 one_job small_finite one_job_reachable). Defined.
