(* ===== verification/WriterIsolation.v ===== *)
(** * WriterIsolation: private scopes and their merge
    ([crates/susi-gawd-swarm/src/writer_isolation.rs])

    A directory is a [Tree]: its files by their path relative to the root, and its
    directories.  [World] is the shared workspace with the scopes under its
    [.susi/dag-scopes]; [scope], [fold_] and [retire_stale_scopes] are the operations, and a
    worker is free to change its own tree in between.  An operation fails where the file
    system refuses it (a file where a directory is needed, or the reverse); other failures
    of the disk and symbolic links are not modelled.  SHA-256 is [ClusterKey.sha256]. *)

From S2P Require Import Prelude Text ClusterKey.

Local Open Scope string_scope.
Local Open Scope list_scope.
Local Open Scope susi_scope.

Notation content := (list N) (only parsing).

(** ** Paths *)

Definition backslash : Ascii.ascii := Ascii.ascii_of_nat 92.

(** The directories a path goes through, without itself. *)
Fixpoint ancestors_from (cur s : string) : list string :=
  match s with
  | EmptyString => []
  | String c s' =>
      if Ascii.eqb c slash then rev_string cur :: ancestors_from (String c cur) s' else ancestors_from (String c cur) s'
  end.
Definition ancestors (p : string) : list string := ancestors_from "" p.

(** [replace('\\', "/")]. *)
Definition norm (p : string) : string := map_string (fun c => if Ascii.eqb c backslash then slash else c) p.

Definition EXCLUDED : list string := [".git"; "target"; "node_modules"].
Definition EXCLUDED_SUSI : list string := ["dag-scopes"; "missions"].

Definition is_excluded (rel : string) (skip_all_susi : bool) : bool :=
  match components rel with
  | [] => false
  | first :: parts =>
      if bool_decide (first ∈ EXCLUDED) then true
      else if String.eqb first ".susi" then
        if skip_all_susi then true
        else match parts with second :: _ => bool_decide (second ∈ EXCLUDED_SUSI) | [] => false end
      else false
  end.

(** ** Directories *)

Record Tree : Type := mkTree {
  files : gmap string content;
  dirs : gset string;
}.
Definition Tree_empty : Tree := mkTree ∅ ∅.

Definition exists_ (t : Tree) (p : string) : bool :=
  bool_decide (is_Some (files t !! p)) || bool_decide (p ∈ dirs t).

(** [create_dir_all] of a path's parent. *)
Definition create_parents (t : Tree) (p : string) : option Tree :=
  if existsb (fun a => bool_decide (is_Some (files t !! a))) (ancestors p) then None
  else Some (mkTree (files t) (dirs t ∪ list_to_set (ancestors p))).
(** [fs::copy] to a path, from the content of its source. *)
Definition copy_to (t : Tree) (p : string) (src : option content) : option Tree :=
  match src with
  | Some c => if bool_decide (p ∈ dirs t) then None else Some (mkTree (<[p := c]> (files t)) (dirs t))
  | None => None
  end.
Definition remove_file (t : Tree) (p : string) : option Tree :=
  if bool_decide (p ∈ dirs t) then None else Some (mkTree (delete p (files t)) (dirs t)).

Record Sig : Type := mkSig {
  len : N;
  hash : list N;
}.
#[export] Instance Sig_eq_dec : EqDecision Sig.
Proof. solve_decision. Defined.

Section Isolation.
Context `{C : Crypto}.

Definition sig_of (c : content) : Sig := mkSig (N.of_nat (length c)) (sha256 c).

(** [walk]: the files that are not excluded. *)
Definition walk (t : Tree) (skip_all_susi : bool) : list (string * content) :=
  List.filter (fun e => negb (is_excluded e.1 skip_all_susi)) (btree_entries (files t)).

(** [manifest_of]; each file is entered under its path with [/] for every backslash. *)
Definition manifest_of (t : Tree) : gmap string Sig :=
  fold_left (fun m e => <[norm e.1 := sig_of e.2]> m) (walk t false) ∅.

(** [revision]: the hash of the sorted payload; [PathBuf]s compare by components, which is
    the order of their texts once a separator comes before every other character. *)
Definition sep_first (p : string) : string :=
  map_string (fun c => if Ascii.eqb c slash then Ascii.zero else c) p.
Definition path_le (a b : string * content) : Prop := String.le (sep_first a.1) (sep_first b.1).
#[export] Instance path_le_dec : RelDecision path_le.
Proof. intros a b. unfold path_le. apply _. Defined.
Definition le_bytes (n : nat) (x : N) : list N := (fun i => N.land (N.shiftr x (8 * N.of_nat i)) 255) <$> seq 0 n.
Definition revision_entry (e : string * content) : list N :=
  bytes_of (norm e.1) ++ [0%N] ++ le_bytes 8 (len (sig_of e.2)) ++ hash (sig_of e.2).
Definition revision (t : Tree) : string :=
  hex_encode (sha256 (concat (revision_entry <$> merge_sort path_le (walk t true)))).

(** ** The isolation boundary *)

Record WorkerScope : Type := mkScope {
  dir : string;
  manifest : gmap string Sig;
}.
Record World : Type := mkWorld {
  base : Tree;
  scopes : gmap string Tree;
}.
Inductive Error : Type :=
| StaleScope
| MissingScope
| IoError.
Inductive FoldOutcome : Type :=
| Clean (wrote deleted : list string)
| Conflict (paths : gset string).

Definition set_base (w : World) (t : Tree) : World := mkWorld t (scopes w).
Definition set_scope (w : World) (name : string) (t : Tree) : World := mkWorld (base w) (<[name := t]> (scopes w)).

(** A sequence of copies into [t], up to the first that fails. *)
Fixpoint copy_all (src t : Tree) (l : list string) : bool * Tree :=
  match l with
  | [] => (true, t)
  | rel :: l' =>
      match create_parents t rel with
      | None => (false, t)
      | Some t1 =>
          match copy_to t1 rel (files src !! rel) with
          | None => (false, t1)
          | Some t2 => copy_all src t2 l'
          end
      end
  end.
Fixpoint remove_all (t : Tree) (l : list string) : bool * Tree :=
  match l with
  | [] => (true, t)
  | rel :: l' =>
      if exists_ t rel then
        match remove_file t rel with
        | None => (false, t)
        | Some t1 => remove_all t1 l'
        end
      else remove_all t l'
  end.

(** [WriterIsolation::scope], for an owner that is a plain file name. *)
Definition scope (w : World) (owner : string) : result WorkerScope Error * World :=
  let m := manifest_of (base w) in
  let '(ok, t) := copy_all (base w) Tree_empty (btree_entries m).*1 in
  (if ok then Ok (mkScope owner m) else Err IoError, set_scope w owner t).

Inductive Verdict : Type :=
| Apply
| Same
| Clash.
#[export] Instance Verdict_eq_dec : EqDecision Verdict.
Proof. solve_decision. Defined.

Definition classify_write (snap base_sig : option Sig) (new_sig : Sig) : Verdict :=
  match snap, base_sig with
  | None, None => Apply
  | None, Some b => if decide (b = new_sig) then Same else Clash
  | Some old, Some b => if decide (b = old) then Apply else if decide (b = new_sig) then Same else Clash
  | Some _, None => Clash
  end.
Definition classify_delete (old : Sig) (base_sig : option Sig) : Verdict :=
  match base_sig with
  | Some b => if decide (b = old) then Apply else Clash
  | None => Same
  end.

(** The signature of a path that may be absent; a directory cannot be read. *)
Definition base_sig_of (t : Tree) (p : string) : option (option Sig) :=
  if bool_decide (p ∈ dirs t) then None else Some (sig_of <$> files t !! p).

Definition created_or_modified (sc : WorkerScope) (now : gmap string Sig) : list (string * Sig) :=
  List.filter (fun e => negb (bool_decide (manifest sc !! e.1 = Some e.2))) (btree_entries now).
Definition deleted_of (sc : WorkerScope) (now : gmap string Sig) : list (string * Sig) :=
  List.filter (fun e => negb (bool_decide (is_Some (now !! e.1)))) (btree_entries (manifest sc)).

Definition with_verdict (v : Verdict) (l : list (string * Verdict)) : list string :=
  (List.filter (fun e => bool_decide (e.2 = v)) l).*1.

(** The two classifications, the first pass of [fold]. *)
Definition classify_writes (t : Tree) (sc : WorkerScope) (now : gmap string Sig) : option (list (string * Verdict)) :=
  mapM (fun e => b ← base_sig_of t e.1; Some (e.1, classify_write (manifest sc !! e.1) b e.2)) (created_or_modified sc now).
Definition classify_deletes (t : Tree) (sc : WorkerScope) (now : gmap string Sig) : option (list (string * Verdict)) :=
  mapM (fun e => b ← base_sig_of t e.1; Some (e.1, classify_delete e.2 b)) (deleted_of sc now).

Definition is_stale (name : string) : bool := starts_with "stale-" name.
Definition ends_with (suffix s : string) : bool := bool_decide (is_Some (strip_suffix suffix s)).

(** [WriterIsolation::fold]. *)
Definition fold_ (w : World) (sc : WorkerScope) : result FoldOutcome Error * World :=
  if is_stale (dir sc) then (Err StaleScope, w)
  else match scopes w !! dir sc with
  | None =>
      if existsb (fun n => ends_with (String.append "-" (dir sc)) n && is_stale n) (map_to_list (scopes w)).*1
      then (Err StaleScope, w) else (Err MissingScope, w)
  | Some mine =>
      let now := manifest_of mine in
      match classify_writes (base w) sc now, classify_deletes (base w) sc now with
      | Some ws, Some ds =>
          let conflicts : gset string := list_to_set (with_verdict Clash ws ++ with_verdict Clash ds) in
          let '(ok, t) := copy_all mine (base w) (with_verdict Apply ws) in
          if negb ok then (Err IoError, set_base w t)
          else
            let '(ok, t) := remove_all t (with_verdict Apply ds) in
            if negb ok then (Err IoError, set_base w t)
            else (Ok (if bool_decide (conflicts = ∅) then Clean (with_verdict Apply ws) (with_verdict Apply ds)
                      else Conflict conflicts), set_base w t)
      | _, _ => (Err IoError, w)
      end
  end.

(** [WriterIsolation::retire_stale_scopes], over the order in which the entries are listed.
    Renaming onto a directory succeeds only when that is empty. *)
Fixpoint retire_stale_scopes (w : World) (generation : string) (entries : list string) : bool * World :=
  match entries with
  | [] => (true, w)
  | name :: entries' =>
      if is_stale name then retire_stale_scopes w generation entries'
      else match scopes w !! name with
      | None => retire_stale_scopes w generation entries'
      | Some t =>
          let retired := String.append "stale-" (String.append generation (String.append "-" name)) in
          match scopes w !! retired with
          | Some old =>
              if bool_decide (files old = ∅ /\ dirs old = ∅)
              then retire_stale_scopes (mkWorld (base w) (<[retired := t]> (delete name (scopes w)))) generation entries'
              else (false, w)
          | None => retire_stale_scopes (mkWorld (base w) (<[retired := t]> (delete name (scopes w)))) generation entries'
          end
      end
  end.

Definition cleanup (w : World) (sc : WorkerScope) : World := mkWorld (base w) (delete (dir sc) (scopes w)).

(** The merge of a finished batch of nodes (the end of [execute_dag_inner] in [dag.rs]):
    a cancelled run and one whose fence was displaced are discarded, the others folded in
    order.  The answer lists the conflicts by node. *)
Record NodeRun : Type := mkRun {
  idx : nat;
  run_scope : WorkerScope;
  run_cancelled : bool;
  run_stale : bool;
}.
Definition discarded (r : NodeRun) : bool := run_cancelled r || run_stale r.
Fixpoint fold_runs (w : World) (runs : list NodeRun) : result (list (nat * gset string)) Error * World :=
  match runs with
  | [] => (Ok [], w)
  | r :: rest =>
      if discarded r then fold_runs (cleanup w (run_scope r)) rest
      else match fold_ w (run_scope r) with
      | (Err e, w1) => (Err e, w1)
      | (Ok out, w1) =>
          let '(res, w2) := fold_runs w1 rest in
          (let? write_conflicts := res in
           Ok (match out with Clean _ _ => write_conflicts | Conflict ps => (idx r, ps) :: write_conflicts end), w2)
      end
  end.
Definition merge_batch (w : World) (runs : list NodeRun) : result (list (nat * gset string)) Error * World :=
  match fold_runs w runs with
  | (Err e, w1) => (Err e, fold_left (fun w r => if run_cancelled r then w else cleanup w (run_scope r)) runs w1)
  | ok => ok
  end.
End Isolation.

(** ** Manifests *)

Section Merging.
Context `{C : Crypto}.

(** No name holds a backslash. *)
Definition plain (t : Tree) : Prop := forall p, is_Some (files t !! p) -> norm p = p.

Lemma fold_insert_lookup {A B} (f : A -> B) (l : list (string * A)) (m : gmap string B) p : NoDup l.*1 ->
  fold_left (fun m e => <[e.1 := f e.2]> m) l m !! p =
    match List.find (fun e => String.eqb e.1 p) l with Some e => Some (f e.2) | None => m !! p end.
Proof.
  revert m. induction l as [|[k a] l IH]; intros m Hn; [done|]. cbn [fold_left List.find fst snd].
  rewrite fmap_cons in Hn. apply NoDup_cons in Hn as [Hk Hn]. rewrite IH by done.
  destruct (String.eqb_spec k p) as [->|Hne]; [|by rewrite lookup_insert_ne].
  destruct (List.find _ l) as [e|] eqn:E; [|by rewrite lookup_insert_eq].
  exfalso. apply List.find_some in E as [Hin He]. apply String.eqb_eq in He. cbn in Hk. apply Hk. rewrite <- He.
  apply list_elem_of_fmap_2. by apply list_elem_of_In.
Qed.

Lemma walk_In t s p c : In (p, c) (walk t s) <-> files t !! p = Some c /\ is_excluded p s = false.
Proof. unfold walk. rewrite filter_In, btree_entries_In. cbn. by rewrite negb_true_iff. Qed.

Lemma walk_NoDup t s : NoDup (walk t s).*1.
Proof.
  apply NoDup_filter_fmap, btree_entries_NoDup.
Qed.

Lemma manifest_lookup t p : plain t ->
  manifest_of t !! p = if is_excluded p false then None else sig_of <$> files t !! p.
Proof.
  intros Hp. unfold manifest_of.
  assert (forall l (m : gmap string Sig), (forall e, In e l -> norm e.1 = e.1) -> fold_left (fun m e => <[norm e.1 := sig_of e.2]> m) l m
    = fold_left (fun m e => <[e.1 := sig_of e.2]> m) l m) as Hfold.
  { induction l as [|e l IH]; intros m Hl; [done|]. cbn [fold_left]. rewrite (Hl e) by by left. apply IH.
    intros x Hx. apply Hl. by right. }
  rewrite Hfold by (intros [q c] [Hq _]%walk_In; apply Hp; by exists c).
  rewrite (fold_insert_lookup sig_of), lookup_empty by apply walk_NoDup.
  destruct (List.find _ _) as [[q c]|] eqn:E.
  - apply List.find_some in E as [[Hf Hx]%walk_In <-%String.eqb_eq]. cbn. by rewrite Hf, Hx.
  - destruct (is_excluded p false) eqn:Ex; [done|]. destruct (files t !! p) as [c|] eqn:Ef; [|done]. exfalso.
    pose proof (List.find_none _ _ E (p, c)) as Hno. cbn in Hno. rewrite String.eqb_refl in Hno.
    discriminate Hno. by apply walk_In.
Qed.

Lemma manifest_Some t p s : plain t -> manifest_of t !! p = Some s ->
  is_excluded p false = false /\ exists c, files t !! p = Some c /\ s = sig_of c.
Proof.
  intros Hp. rewrite (manifest_lookup t p Hp). destruct (is_excluded p false); [done|].
  intros (c & -> & ->)%fmap_Some. eauto.
Qed.

(** ** Copies and removals *)

(** [t] agrees that the directories are among [D]: none of its files is one, and each lies
    in some. *)
Definition agree (D : gset string) (t : Tree) : Prop :=
  dirs t ⊆ D /\ forall p, is_Some (files t !! p) -> p ∉ D /\ forall a, a ∈ ancestors p -> a ∈ D.

Lemma create_parents_agree D t p : agree D t -> (forall a, a ∈ ancestors p -> a ∈ D) ->
  exists t', create_parents t p = Some t' /\ agree D t' /\ files t' = files t.
Proof.
  intros [Hd Hf] Ha. unfold create_parents.
  assert (existsb (fun a => bool_decide (is_Some (files t !! a))) (ancestors p) = false) as ->.
  { apply existsb_false. intros a Hin. apply bool_decide_eq_false. intros Hs.
    apply (proj1 (Hf a Hs)), Ha. by apply list_elem_of_In. }
  eexists. split; [done|]. split; [|done]. split; [|done]. cbn. intros x.
  rewrite elem_of_union, elem_of_list_to_set. intros [?|?]; auto.
Qed.

Lemma copy_all_agree D src t l : agree D src -> agree D t -> (forall p, p ∈ l -> is_Some (files src !! p)) ->
  exists t', copy_all src t l = (true, t') /\ agree D t' /\
    forall p, files t' !! p = if decide (p ∈ l) then files src !! p else files t !! p.
Proof.
  intros Hsrc. revert t. induction l as [|rel l IH]; intros t Ht Hl; cbn [copy_all].
  - exists t. split_and!; [done..|]. intros p. rewrite decide_False; [done|]. apply not_elem_of_nil.
  - assert (is_Some (files src !! rel)) as Hs by (apply Hl; left).
    destruct (proj2 Hsrc rel Hs) as [Hrel Hanc]. destruct (create_parents_agree D t rel Ht Hanc) as (t1 & -> & H1 & Hf1).
    destruct Hs as [c Hc]. rewrite Hc. cbn [copy_to].
    rewrite bool_decide_false by (intros Hin; apply Hrel; by apply (proj1 H1)).
    destruct (IH (mkTree (<[rel := c]> (files t1)) (dirs t1))) as (t2 & -> & H2 & Hf2).
    + split; [apply H1|]. intros p. cbn [files]. destruct (decide (p = rel)) as [->|Hne]; [done|].
      rewrite lookup_insert_ne by done. apply H1.
    + intros p Hp. apply Hl. by right.
    + exists t2. split_and!; [done..|]. intros p. rewrite Hf2. cbn [files]. rewrite Hf1.
      destruct (decide (p ∈ l)) as [Hin|Hout].
      * by rewrite decide_True by by right.
      * destruct (decide (p = rel)) as [->|Hne].
        -- rewrite decide_True by by left. by rewrite lookup_insert_eq.
        -- rewrite decide_False by by intros [?|?]%elem_of_cons. by rewrite lookup_insert_ne.
Qed.

Lemma remove_all_agree D t l : agree D t -> (forall p, p ∈ l -> p ∉ D) ->
  exists t', remove_all t l = (true, t') /\ agree D t' /\
    forall p, files t' !! p = if decide (p ∈ l) then None else files t !! p.
Proof.
  revert t. induction l as [|rel l IH]; intros t Ht Hl; cbn [remove_all].
  - exists t. split_and!; [done..|]. intros p. rewrite decide_False; [done|]. apply not_elem_of_nil.
  - assert (rel ∉ D) as Hrel by (apply Hl; left). assert (forall p, p ∈ l -> p ∉ D) as Hl' by (intros; apply Hl; by right).
    assert (exists t1, (if exists_ t rel then match remove_file t rel with None => (false, t) | Some t1 => remove_all t1 l end
      else remove_all t l) = remove_all t1 l /\ agree D t1 /\ files t1 = delete rel (files t)) as (t1 & -> & H1 & Hf1).
    { unfold exists_, remove_file. destruct (files t !! rel) as [c|] eqn:E.
      - rewrite bool_decide_true by done. cbn [orb]. rewrite bool_decide_false by (intros Hin; by apply Hrel, Ht).
        eexists. split; [done|]. split; [|done]. split; [apply Ht|]. intros p. cbn [files].
        destruct (decide (p = rel)) as [->|Hne]; [by rewrite lookup_delete_eq; intros []|].
        rewrite lookup_delete_ne by done. apply Ht.
      - rewrite bool_decide_false by (by intros []). cbn [orb].
        rewrite bool_decide_false by (intros Hin; by apply Hrel, Ht).
        exists t. split_and!; [done..|]. by rewrite delete_id. }
    destruct (IH t1 H1 Hl') as (t2 & -> & H2 & Hf2). exists t2. split_and!; [done..|].
    intros p. rewrite Hf2, Hf1. destruct (decide (p ∈ l)) as [Hin|Hout].
    + by rewrite decide_True by by right.
    + destruct (decide (p = rel)) as [->|Hne].
      * rewrite decide_True by by left. by rewrite lookup_delete_eq.
      * rewrite decide_False by by intros [?|?]%elem_of_cons. by rewrite lookup_delete_ne.
Qed.

(** ** One fold *)

Definition msig (t : Tree) (p : string) : option Sig := manifest_of t !! p.
Definition bsig (t : Tree) (p : string) : option Sig := sig_of <$> files t !! p.
Definition conflicts_of (o : FoldOutcome) : gset string :=
  match o with Clean _ _ => ∅ | Conflict ps => ps end.

Lemma mapM_defined {A B} (f : A -> option B) (g : A -> B) l : (forall x, x ∈ l -> f x = Some (g x)) -> mapM f l = Some (g <$> l).
Proof.
  induction l as [|x l IH]; intros Hf; [done|]. cbn [mapM]. rewrite Hf by by left. rewrite IH by (intros; apply Hf; by right).
  done.
Qed.

Lemma with_verdict_elem v l p : p ∈ with_verdict v l <-> (p, v) ∈ l.
Proof.
  unfold with_verdict. rewrite list_elem_of_fmap. split.
  - intros ([q u] & -> & Hin). apply list_elem_of_In, filter_In in Hin as [Hin Hb].
    apply bool_decide_eq_true in Hb as <-. by apply list_elem_of_In.
  - intros Hin. exists (p, v). split; [done|]. apply list_elem_of_In, filter_In.
    split; [by apply list_elem_of_In|by apply bool_decide_eq_true].
Qed.

Lemma base_sig_agree D t p : agree D t -> p ∉ D -> base_sig_of t p = Some (bsig t p).
Proof. intros [Hd _] Hp. unfold base_sig_of. by rewrite bool_decide_false by (intros H; by apply Hp, Hd). Qed.

Lemma classify_writes_spec D t mine sc : agree D t -> (forall p, is_Some (msig mine p) -> p ∉ D) ->
  exists ws, classify_writes t sc (manifest_of mine) = Some ws /\ forall p v, (p, v) ∈ ws <->
    exists s, msig mine p = Some s /\ manifest sc !! p <> Some s /\ v = classify_write (manifest sc !! p) (bsig t p) s.
Proof.
  intros Ht Hm. assert (forall p s, (p, s) ∈ created_or_modified sc (manifest_of mine) <->
    msig mine p = Some s /\ manifest sc !! p <> Some s) as Hc.
  { intros p s. unfold created_or_modified. rewrite list_elem_of_In, filter_In, btree_entries_In. cbn.
    by rewrite negb_true_iff, bool_decide_eq_false. }
  unfold classify_writes. erewrite (mapM_defined _ (fun e => (e.1, classify_write (manifest sc !! e.1) (bsig t e.1) e.2))).
  - eexists. split; [done|]. intros p v. rewrite list_elem_of_fmap. split.
    + intros ([q s] & [= -> ->] & [H1 H2]%Hc). eauto.
    + intros (s & H1 & H2 & ->). exists (p, s). split; [done|]. by apply Hc.
  - intros [p s] [Hs _]%Hc. rewrite (base_sig_agree D) by (try done; apply Hm; by exists s). done.
Qed.

Lemma classify_deletes_spec D t mine sc : agree D t -> (forall p, is_Some (manifest sc !! p) -> p ∉ D) ->
  exists ds, classify_deletes t sc (manifest_of mine) = Some ds /\ forall p v, (p, v) ∈ ds <->
    exists s, msig mine p = None /\ manifest sc !! p = Some s /\ v = classify_delete s (bsig t p).
Proof.
  intros Ht Hm. assert (forall p s, (p, s) ∈ deleted_of sc (manifest_of mine) <->
    msig mine p = None /\ manifest sc !! p = Some s) as Hc.
  { intros p s. unfold deleted_of. rewrite list_elem_of_In, filter_In, btree_entries_In. cbn.
    rewrite negb_true_iff, bool_decide_eq_false, <- eq_None_not_Some. unfold msig. tauto. }
  unfold classify_deletes. erewrite (mapM_defined _ (fun e => (e.1, classify_delete e.2 (bsig t e.1)))).
  - eexists. split; [done|]. intros p v. rewrite list_elem_of_fmap. split.
    + intros ([q s] & [= -> ->] & [H1 H2]%Hc). eauto.
    + intros (s & H1 & H2 & ->). exists (p, s). split; [done|]. by apply Hc.
  - intros [p s] [_ Hs]%Hc. rewrite (base_sig_agree D) by (try done; apply Hm; by exists s). done.
Qed.

(** The three-way merge of one path: what was snapshotted, what the worker has, what the
    workspace has. *)
Definition merged (sc : WorkerScope) (mine t : Tree) (p : string) : option content :=
  if decide (msig mine p = manifest sc !! p) then files t !! p
  else if decide (bsig t p = manifest sc !! p) then (match msig mine p with Some _ => files mine !! p | None => None end)
  else files t !! p.
Definition in_conflict (sc : WorkerScope) (mine t : Tree) (p : string) : Prop :=
  msig mine p <> manifest sc !! p /\ bsig t p <> manifest sc !! p /\ bsig t p <> msig mine p.

Lemma merged_writes sc mine t p v s : msig mine p = Some s -> manifest sc !! p <> Some s ->
  v = classify_write (manifest sc !! p) (bsig t p) s ->
  (v = Apply /\ merged sc mine t p = files mine !! p /\ ~ in_conflict sc mine t p) \/
  (v = Same /\ merged sc mine t p = files t !! p /\ ~ in_conflict sc mine t p) \/
  (v = Clash /\ merged sc mine t p = files t !! p /\ in_conflict sc mine t p).
Proof.
  intros Hm Hne ->. unfold merged, in_conflict. rewrite Hm. destruct (decide (Some s = _)); [congruence|].
  unfold classify_write. destruct (manifest sc !! p) as [old|], (bsig t p) as [b|]; repeat case_decide; simplify_eq; naive_solver.
Qed.

Lemma merged_deletes sc mine t p v s : msig mine p = None -> manifest sc !! p = Some s ->
  v = classify_delete s (bsig t p) ->
  (v = Apply /\ merged sc mine t p = None /\ ~ in_conflict sc mine t p) \/
  (v = Same /\ merged sc mine t p = files t !! p /\ ~ in_conflict sc mine t p) \/
  (v = Clash /\ merged sc mine t p = files t !! p /\ in_conflict sc mine t p).
Proof.
  intros Hm Hs ->. unfold merged, in_conflict. rewrite Hm, Hs. destruct (decide (None = _)); [done|].
  unfold classify_delete. destruct (bsig t p) as [b|]; repeat case_decide; simplify_eq; naive_solver.
Qed.

(** What a fold needs: a live scope, and files and directories that do not clash. *)
Record foldable (D : gset string) (w : World) (sc : WorkerScope) (mine : Tree) : Prop := {
  fo_live : is_stale (dir sc) = false;
  fo_scope : scopes w !! dir sc = Some mine;
  fo_plain : plain mine;
  fo_base : agree D (base w);
  fo_mine : agree D mine;
  fo_manifest : forall p, is_Some (manifest sc !! p) -> p ∉ D;
}.

Lemma msig_files t p : plain t -> is_Some (msig t p) -> is_Some (files t !! p).
Proof. intros Hp [s Hs]. destruct (manifest_Some t p s Hp Hs) as (_ & c & -> & _). done. Qed.

Lemma conflicts_of_outcome ps a b : conflicts_of (if bool_decide (ps = ∅) then Clean a b else Conflict ps) = ps.
Proof. by case_bool_decide as E; cbn; [rewrite E|]. Qed.

Lemma fold_spec D w sc mine : foldable D w sc mine ->
  exists out w', fold_ w sc = (Ok out, w') /\ scopes w' = scopes w /\ agree D (base w') /\
    (forall p, files (base w') !! p = merged sc mine (base w) p) /\
    (forall p, p ∈ conflicts_of out <-> in_conflict sc mine (base w) p).
Proof.
  intros [Hl Hs Hp Hb Hm Hk]. unfold fold_. rewrite Hl, Hs.
  assert (forall p, is_Some (msig mine p) -> p ∉ D) as HmD by (intros p Hx; by apply Hm, msig_files).
  destruct (classify_writes_spec D (base w) mine sc Hb HmD) as (ws & -> & Hws).
  destruct (classify_deletes_spec D (base w) mine sc Hb Hk) as (ds & -> & Hds).
  destruct (copy_all_agree D mine (base w) (with_verdict Apply ws) Hm Hb) as (t1 & -> & H1 & Hf1).
  { intros p (s & Hx & _)%with_verdict_elem%Hws. apply msig_files; [done|by exists s]. }
  destruct (remove_all_agree D t1 (with_verdict Apply ds) H1) as (t2 & -> & H2 & Hf2).
  { intros p (s & _ & Hx & _)%with_verdict_elem%Hds. apply Hk. by exists s. }
  cbn [negb]. do 2 eexists. split; [done|]. split; [done|]. split; [exact H2|]. cbn [base set_base]. split.
  - intros p. rewrite Hf2, Hf1. destruct (decide (p ∈ with_verdict Apply ds)) as [Hd|Hd]; rewrite with_verdict_elem, Hds in Hd.
    + destruct Hd as (s & E1 & E2 & E3). destruct (merged_deletes sc mine (base w) p _ s E1 E2 E3) as [(_ & -> & _)|[(? & _)|(? & _)]]; done.
    + destruct (decide (p ∈ with_verdict Apply ws)) as [Hw|Hw]; rewrite with_verdict_elem, Hws in Hw.
      * destruct Hw as (s & E1 & E2 & E3). destruct (merged_writes sc mine (base w) p _ s E1 E2 E3) as [(_ & -> & _)|[(? & _)|(? & _)]]; done.
      * destruct (decide (msig mine p = manifest sc !! p)) as [E|E]; [unfold merged; by rewrite decide_True|].
        destruct (msig mine p) as [s|] eqn:E1.
        -- destruct (merged_writes sc mine (base w) p _ s E1 (not_eq_sym E) eq_refl) as [(Hv & _)|[(_ & -> & _)|(_ & -> & _)]]; [|done..].
           exfalso. apply Hw. exists s. by split_and!; [|apply not_eq_sym|].
        -- destruct (manifest sc !! p) as [s|] eqn:E2; [|done].
           destruct (merged_deletes sc mine (base w) p _ s E1 E2 eq_refl) as [(Hv & _)|[(_ & -> & _)|(_ & -> & _)]]; [|done..].
           exfalso. apply Hd. by exists s.
  - intros p. rewrite conflicts_of_outcome, elem_of_list_to_set, elem_of_app, !with_verdict_elem, Hws, Hds. split.
    + intros [(s & E1 & E2 & E3)|(s & E1 & E2 & E3)].
      * destruct (merged_writes sc mine (base w) p _ s E1 E2 E3) as [(? & _)|[(? & _)|(_ & _ & ?)]]; done.
      * destruct (merged_deletes sc mine (base w) p _ s E1 E2 E3) as [(? & _)|[(? & _)|(_ & _ & ?)]]; done.
    + intros Hc. pose proof Hc as (E & _). destruct (msig mine p) as [s|] eqn:E1.
      * left. exists s. destruct (merged_writes sc mine (base w) p _ s E1 (not_eq_sym E) eq_refl) as [(_ & _ & ?)|[(_ & _ & ?)|(Hv & _)]]; [done..|].
        by split_and!; [|apply not_eq_sym|].
      * right. destruct (manifest sc !! p) as [s|] eqn:E2; [|done]. exists s.
        destruct (merged_deletes sc mine (base w) p _ s E1 E2 eq_refl) as [(_ & _ & ?)|[(_ & _ & ?)|(Hv & _)]]; done.
Qed.

(** ** A batch *)

Definition live (runs : list NodeRun) : list NodeRun := List.filter (fun r => negb (discarded r)) runs.

(** The trees of the scopes that are folded. *)
Definition live_trees (w : World) (runs : list NodeRun) : list Tree :=
  omap (fun r => scopes w !! dir (run_scope r)) (live runs).

Definition changed (snap : gmap string Sig) (p : string) (t : Tree) : bool := negb (bool_decide (msig t p = snap !! p)).

(** The state every live run needs before its fold. *)
Record batch_ok (D : gset string) (snap : gmap string Sig) (w : World) (runs : list NodeRun) : Prop := {
  ba_base : agree D (base w);
  ba_snap : forall p, is_Some (snap !! p) -> p ∉ D /\ is_excluded p false = false;
  ba_names : NoDup ((fun r => dir (run_scope r)) <$> runs);
  ba_runs : forall r, In r (live runs) -> manifest (run_scope r) = snap /\ is_stale (dir (run_scope r)) = false /\
    exists mine, scopes w !! dir (run_scope r) = Some mine /\ plain mine /\ agree D mine;
}.

(** Where the merge of [ts] leaves a path that [t] holds now. *)
Definition settled (snap : gmap string Sig) (t : Tree) (ts : list Tree) (p : string) : option content :=
  if decide (bsig t p = snap !! p) then
    match List.find (changed snap p) ts with Some mine => files mine !! p | None => files t !! p end
  else files t !! p.

Lemma changed_files (snap : gmap string Sig) mine p : plain mine -> (is_Some (snap !! p) -> is_excluded p false = false) ->
  msig mine p <> snap !! p -> (match msig mine p with Some _ => files mine !! p | None => None end) = files mine !! p.
Proof.
  intros Hp Hx Hc. destruct (msig mine p) as [s|] eqn:E; [done|]. destruct (snap !! p) as [s|]; [|done].
  unfold msig in E. rewrite manifest_lookup, Hx in E by done. by destruct (files mine !! p).
Qed.

Lemma msig_bsig t mine p : plain mine -> is_Some (msig mine p) -> files t !! p = files mine !! p -> bsig t p = msig mine p.
Proof.
  intros Hp [s Hs] Hf. unfold bsig. rewrite Hf. unfold msig in *. destruct (manifest_Some mine p s Hp Hs) as (_ & c & -> & ->).
  by rewrite Hs.
Qed.

(** One fold moves a path to where the rest of the merge expects it. *)
Lemma settled_step (snap : gmap string Sig) sc mine t t' ts p : manifest sc = snap -> plain mine ->
  (is_Some (snap !! p) -> is_excluded p false = false) -> files t' !! p = merged sc mine t p ->
  settled snap t' ts p = settled snap t (mine :: ts) p.
Proof.
  intros Hs Hp Hx Hf. unfold settled, bsig in *. rewrite Hf. unfold merged. rewrite Hs. cbn [List.find].
  unfold changed at 2. destruct (decide (msig mine p = snap !! p)) as [E|E].
  - rewrite (bool_decide_true (msig mine p = _)) by done. cbn [negb]. unfold bsig. done.
  - rewrite (bool_decide_false (msig mine p = _)) by done. cbn [negb]. unfold bsig.
    destruct (decide (sig_of <$> files t !! p = snap !! p)) as [Eb|Eb]; [|by rewrite decide_False].
    rewrite (changed_files snap mine p Hp Hx E). rewrite decide_False; [done|]. intros E'. apply E. rewrite <- E'.
    destruct (msig mine p) as [s|] eqn:Em.
    + destruct (manifest_Some mine p s Hp Em) as (_ & c & -> & ->). done.
    + pose proof (changed_files snap mine p Hp Hx) as H. rewrite Em in H. rewrite <- H; [done|]. by intros Hn; apply E.
Qed.

Lemma settled_fixed snap t ts p : bsig t p <> snap !! p -> settled snap t ts p = files t !! p.
Proof. intros Hne. unfold settled. by rewrite decide_False. Qed.

Lemma live_discarded r runs : discarded r = true -> live (r :: runs) = live runs.
Proof. intros E. unfold live. cbn. by rewrite E. Qed.
Lemma live_kept r runs : discarded r = false -> live (r :: runs) = r :: live runs.
Proof. intros E. unfold live. cbn. by rewrite E. Qed.

Lemma live_trees_ext w w' runs : (forall r, In r (live runs) -> scopes w' !! dir (run_scope r) = scopes w !! dir (run_scope r)) ->
  live_trees w' runs = live_trees w runs.
Proof.
  unfold live_trees. induction (live runs) as [|r l IH]; intros Hs; [done|]. cbn [omap list_omap].
  rewrite (Hs r) by by left. rewrite IH by (intros; apply Hs; by right). done.
Qed.

Lemma live_dir r r' runs : NoDup ((fun r => dir (run_scope r)) <$> (r :: runs)) -> In r' (live runs) ->
  dir (run_scope r') <> dir (run_scope r).
Proof.
  rewrite fmap_cons. intros [Hr _]%NoDup_cons Hin E. apply Hr. rewrite <- E.
  apply (list_elem_of_fmap_2 (fun r => dir (run_scope r))), list_elem_of_In. by apply filter_In in Hin as [? _].
Qed.

Lemma batch_discard D snap w r runs : discarded r = true -> batch_ok D snap w (r :: runs) ->
  batch_ok D snap (cleanup w (run_scope r)) runs /\ live_trees (cleanup w (run_scope r)) runs = live_trees w (r :: runs).
Proof.
  intros E [Hb Hs Hn Hr]. assert (forall r', In r' (live runs) ->
    scopes (cleanup w (run_scope r)) !! dir (run_scope r') = scopes w !! dir (run_scope r')) as Hc.
  { intros r' Hin. cbn. apply lookup_delete_ne. intros Heq. by eapply live_dir. }
  split.
  - split; [done|done|by rewrite fmap_cons in Hn; apply NoDup_cons in Hn as [_ ?]|].
    intros r' Hin. rewrite (Hc r' Hin). apply Hr. by rewrite live_discarded.
  - rewrite (live_trees_ext _ _ _ Hc). unfold live_trees. by rewrite live_discarded.
Qed.

Lemma batch_fold D snap w w1 r runs : discarded r = false -> batch_ok D snap w (r :: runs) -> scopes w1 = scopes w ->
  agree D (base w1) -> batch_ok D snap w1 runs.
Proof.
  intros E [Hb Hs Hn Hr] Hsc Hb1. split; [done|done|by rewrite fmap_cons in Hn; apply NoDup_cons in Hn as [_ ?]|].
  intros r' Hin. rewrite Hsc. apply Hr. rewrite live_kept by done. by right.
Qed.

(** A path the workspace left alone takes the worker's change; one it changed stays. *)
Lemma merged_taken sc mine t t' p : plain mine -> files t' !! p = merged sc mine t p ->
  msig mine p <> manifest sc !! p -> bsig t p = manifest sc !! p -> bsig t' p = msig mine p.
Proof.
  intros Hp Hf Hm Hb. unfold bsig at 1. rewrite Hf. unfold merged. rewrite decide_False, decide_True by done.
  destruct (msig mine p) as [s|] eqn:Em; [|done]. by destruct (manifest_Some mine p s Hp Em) as (_ & c & -> & ->).
Qed.
Lemma merged_left sc mine t t' p : files t' !! p = merged sc mine t p ->
  msig mine p <> manifest sc !! p -> bsig t p <> manifest sc !! p -> bsig t' p = bsig t p.
Proof. intros Hf Hm Hb. unfold bsig at 1. rewrite Hf. unfold merged. by rewrite !decide_False. Qed.

(** What is said of a run when the merge is over. *)
Definition run_outcome (snap : gmap string Sig) (final : Tree) (cs : list (nat * gset string)) (r : NodeRun) (mine : Tree) : Prop :=
  forall p, msig mine p <> snap !! p -> bsig final p = msig mine p \/ exists ps, (idx r, ps) ∈ cs /\ p ∈ ps.

Lemma fold_runs_settles D snap w runs : batch_ok D snap w runs ->
  exists cs w', fold_runs w runs = (Ok cs, w') /\
    (forall p, files (base w') !! p = settled snap (base w) (live_trees w runs) p) /\
    (forall r mine, In r (live runs) -> scopes w !! dir (run_scope r) = Some mine -> run_outcome snap (base w') cs r mine) /\
    (forall i ps p, (i, ps) ∈ cs -> p ∈ ps -> exists r mine, In r (live runs) /\ idx r = i /\
      scopes w !! dir (run_scope r) = Some mine /\ msig mine p <> snap !! p /\ bsig (base w') p <> msig mine p).
Proof.
  revert w. induction runs as [|r runs IH]; intros w Hok; cbn [fold_runs].
  - exists [], w. split_and!; [done| |done|by intros ? ? ? ?%not_elem_of_nil].
    intros p. unfold settled. by case_decide.
  - destruct (discarded r) eqn:E.
    { destruct (batch_discard D snap w r runs E Hok) as [Hok' Ht]. destruct (IH _ Hok') as (cs & w' & -> & Hf & Ho & Hc).
      rewrite live_discarded by done. assert (forall r', In r' (live runs) ->
        scopes (cleanup w (run_scope r)) !! dir (run_scope r') = scopes w !! dir (run_scope r')) as Hd.
      { intros r' Hin. cbn. apply lookup_delete_ne. intros Heq. symmetry in Heq. by eapply live_dir, Heq; [apply Hok|]. }
      exists cs, w'. split_and!; [done|by intros p; rewrite Hf, Ht| |].
      - intros r' mine Hin Hs. apply Ho; [done|]. by rewrite Hd.
      - intros i ps p Hin Hp. destruct (Hc i ps p Hin Hp) as (r' & mine & Hin' & ? & Hs & ?). rewrite Hd in Hs by done.
        by exists r', mine. }
    pose proof Hok as [Hb Hsnap Hn Hr]. destruct (Hr r) as (Hman & Hlive & mine & Hmine & Hplain & Hagree).
    { rewrite live_kept by done. by left. }
    destruct (fold_spec D w (run_scope r) mine) as (out & w1 & -> & Hsc & Hb1 & Hf1 & Hc1).
    { split; try done. intros p Hp. apply Hsnap. by rewrite <- Hman. }
    destruct (IH w1) as (cs & w' & -> & Hf & Ho & Hc); [by eapply batch_fold|].
    cbn [result_bind]. exists (match out with Clean _ _ => cs | Conflict ps => (idx r, ps) :: cs end), w'.
    rewrite live_kept by done. rewrite Hsc in *.
    assert (live_trees w (r :: runs) = mine :: live_trees w1 runs) as Htrees.
    { unfold live_trees. rewrite live_kept by done. cbn [omap list_omap]. by rewrite Hmine, Hsc. }
    assert (forall q qs, (q, qs) ∈ cs -> (q, qs) ∈ match out with Clean _ _ => cs | Conflict ps => (idx r, ps) :: cs end) as Hkeep.
    { intros q qs Hq. destruct out; [done|by right]. }
    assert (forall p, bsig (base w1) p <> snap !! p -> bsig (base w') p = bsig (base w1) p) as Hstay.
    { intros p Hne. unfold bsig at 1. by rewrite Hf, settled_fixed. }
    assert (forall p, msig mine p <> snap !! p -> bsig (base w) p = snap !! p -> bsig (base w1) p = msig mine p) as Htaken
      by (intros p; rewrite <- Hman; by apply merged_taken).
    assert (forall p, msig mine p <> snap !! p -> bsig (base w) p <> snap !! p -> bsig (base w1) p = bsig (base w) p) as Hleft
      by (intros p; rewrite <- Hman; by apply merged_left).
    split_and!; [done| | |].
    + intros p. rewrite Hf, Htrees. apply (settled_step snap (run_scope r)); [done|done|by apply Hsnap|apply Hf1].
    + intros r' mine' [<-|Hin] Hs.
      * assert (mine' = mine) as -> by congruence. intros p Hm.
        destruct (decide (bsig (base w) p = snap !! p)) as [Hbs|Hbs].
        { left. pose proof (Htaken p Hm Hbs) as Ht. rewrite Hstay; [done|]. by rewrite Ht. }
        destruct (decide (bsig (base w) p = msig mine p)) as [Hbm|Hbm].
        { left. pose proof (Hleft p Hm Hbs) as Ht. rewrite Hstay; [congruence|]. by rewrite Ht. }
        right. assert (p ∈ conflicts_of out) as Hp by (apply Hc1; unfold in_conflict; by rewrite Hman).
        destruct out as [?|ps]; [by apply elem_of_empty in Hp|]. exists ps. split; [left|done].
      * intros p Hm. destruct (Ho r' mine' Hin Hs p Hm) as [?|(ps & ? & ?)]; [by left|right; exists ps; auto].
    + intros i ps p Hin Hp. assert ((i, ps) ∈ cs \/ i = idx r /\ p ∈ conflicts_of out) as [Hin'|[-> Hp']].
      { destruct out as [?|ps']; [by left|]. apply elem_of_cons in Hin as [[= -> ->]|Hin]; [by right|by left]. }
      * destruct (Hc i ps p Hin' Hp) as (r' & mine' & ? & ? & ? & ? & ?). exists r', mine'. split_and!; try done. by right.
      * exists r, mine. apply Hc1 in Hp' as (Hm & Hbs & Hbm). rewrite Hman in *. split_and!; [by left|done..|].
        pose proof (Hleft p Hm Hbs) as Ht. rewrite Hstay; [congruence|]. by rewrite Ht.
Qed.

(** ** What the boundary promises *)

(** A workspace and the scopes of a batch, all taken from it as it is; only the trees of the
    scopes have been written to since. *)
Record ready (D : gset string) (w : World) (runs : list NodeRun) : Prop := {
  re_base : agree D (base w);
  re_plain : plain (base w);
  re_names : NoDup ((fun r => dir (run_scope r)) <$> runs);
  re_runs : forall r, In r (live runs) -> manifest (run_scope r) = manifest_of (base w) /\ is_stale (dir (run_scope r)) = false /\
    exists mine, scopes w !! dir (run_scope r) = Some mine /\ plain mine /\ agree D mine;
}.

Lemma ready_batch_ok D w runs : ready D w runs -> batch_ok D (manifest_of (base w)) w runs.
Proof.
  intros [Hb Hp Hn Hr]. split; [done| |done|done]. intros p [s Hs].
  destruct (manifest_Some _ p s Hp Hs) as (Hx & c & Hc & _). split; [|done]. by apply Hb; rewrite Hc.
Qed.

Lemma live_trees_plain D w runs t : ready D w runs -> In t (live_trees w runs) -> plain t.
Proof.
  intros Hr Hin. apply list_elem_of_In, list_elem_of_omap in Hin as (r & Hin & Hs).
  destruct (re_runs _ _ _ Hr r) as (_ & _ & mine & Hm & Hp & _); [by apply list_elem_of_In|]. by simplify_eq.
Qed.

(** At the start of a merge every path is as it was snapshotted. *)
Lemma settled_start D w runs p : ready D w runs -> settled (manifest_of (base w)) (base w) (live_trees w runs) p =
  match List.find (changed (manifest_of (base w)) p) (live_trees w runs) with
  | Some mine => files mine !! p
  | None => files (base w) !! p
  end.
Proof.
  intros Hr. unfold settled. case_decide as E; [done|].
  destruct (List.find _ _) as [mine|] eqn:Ef; [|done]. exfalso. apply E. apply List.find_some in Ef as [Hin Hc].
  pose proof (live_trees_plain _ _ _ _ Hr Hin) as Hp. unfold changed in Hc. apply negb_true_iff, bool_decide_eq_false in Hc.
  unfold msig in Hc. unfold bsig. rewrite !manifest_lookup in * by (done || apply Hr). by destruct (is_excluded p false).
Qed.

(** C39. Merging a batch of runs whose scopes were all taken from the workspace as it is,
    under distinct names, where no name holds a backslash and no path is a file in one tree
    and a directory in another ([ready]; otherwise the merge can fail half-way,
    [file_to_directory_tears_the_fold]), loses no write of a live run in silence: a path
    ends as the first live run that changed it has it, and a change that is not what the
    workspace ends with is among the conflicts of its own run, which hold nothing else.
    Cancelled and fenced-off runs are discarded and leave no trace, and changes under the
    excluded directories (.git, target, node_modules, .susi/dag-scopes, .susi/missions) are
    not merged and not reported. *)
Theorem no_lost_update D w runs : ready D w runs ->
  exists cs w', merge_batch w runs = (Ok cs, w') /\
    (forall p, files (base w') !! p =
      match List.find (changed (manifest_of (base w)) p) (live_trees w runs) with
      | Some mine => files mine !! p
      | None => files (base w) !! p
      end) /\
    (forall r mine, In r (live runs) -> scopes w !! dir (run_scope r) = Some mine ->
      run_outcome (manifest_of (base w)) (base w') cs r mine) /\
    (forall i ps p, (i, ps) ∈ cs -> p ∈ ps -> exists r mine, In r (live runs) /\ idx r = i /\
      scopes w !! dir (run_scope r) = Some mine /\ msig mine p <> manifest_of (base w) !! p /\ bsig (base w') p <> msig mine p).
Proof.
  intros Hr. destruct (fold_runs_settles D _ w runs (ready_batch_ok D w runs Hr)) as (cs & w' & Hf & Hfiles & Ho & Hc).
  exists cs, w'. unfold merge_batch. rewrite Hf. split_and!; [done| |done|done].
  intros p. rewrite Hfiles. by apply (settled_start D).
Qed.

(** Folding a scope is a three-way merge, path by path: what the worker did not change
    stays as the workspace has it, what the workspace did not change becomes what the worker
    has, and what both changed differently is left alone and reported. *)
Theorem fold_merges D w sc mine : foldable D w sc mine ->
  exists out w', fold_ w sc = (Ok out, w') /\ scopes w' = scopes w /\
    (forall p, files (base w') !! p = merged sc mine (base w) p) /\
    (forall p, p ∈ conflicts_of out <-> in_conflict sc mine (base w) p).
Proof. intros Hf. destruct (fold_spec D w sc mine Hf) as (out & w' & ? & ? & _ & ? & ?). by exists out, w'. Qed.

(** A new scope holds exactly the files of the workspace that are not excluded, with
    their signatures; the workspace is untouched. *)
Theorem scope_is_a_snapshot D w owner : agree D (base w) -> plain (base w) ->
  exists t w', scope w owner = (Ok (mkScope owner (manifest_of (base w))), w') /\ base w' = base w /\
    scopes w' = <[owner := t]> (scopes w) /\ agree D t /\
    forall p, files t !! p = if is_excluded p false then None else files (base w) !! p.
Proof.
  intros Ha Hp. unfold scope. assert (forall p, p ∈ (btree_entries (manifest_of (base w))).*1 <->
    is_Some (manifest_of (base w) !! p)) as Hl.
  { intros p. rewrite list_elem_of_fmap. split.
    - intros ([q s] & -> & Hin%list_elem_of_In%btree_entries_In). by exists s.
    - intros [s Hs]. exists (p, s). split; [done|]. by apply list_elem_of_In, btree_entries_In. }
  destruct (copy_all_agree D (base w) Tree_empty (btree_entries (manifest_of (base w))).*1) as (t & -> & Ht & Hf); [done| | |].
  - split; [set_solver|]. intros p. cbn. rewrite lookup_empty. by intros [].
  - intros p [s Hs]%Hl. destruct (manifest_Some _ p s Hp Hs) as (_ & c & -> & _). done.
  - do 2 eexists. split; [done|]. split_and!; [done..|]. intros p. rewrite Hf. cbn [files Tree_empty]. rewrite lookup_empty.
    destruct (decide (p ∈ _)) as [Hin|Hout]; rewrite Hl, (manifest_lookup _ p Hp) in *.
    + destruct (is_excluded p false); [by destruct Hin|done].
    + destruct (is_excluded p false); [done|]. destruct (files (base w) !! p); [|done]. exfalso. by apply Hout.
Qed.

(** ** Retired scopes *)

Lemma ends_with_app s suffix : ends_with suffix (s +:+ suffix)%string = true.
Proof.
  unfold ends_with. apply bool_decide_eq_true. unfold strip_suffix. rewrite rev_string_app.
  rewrite (proj2 (strip_prefix_Some _ _ (rev_string s))) by done. done.
Qed.

Definition retired_name (generation name : string) : string :=
  String.append "stale-" (String.append generation (String.append "-" name)).

Lemma retired_is_stale g n : is_stale (retired_name g n) = true.
Proof. done. Qed.

Lemma retired_ends g n : ends_with (String.append "-" n) (retired_name g n) = true.
Proof. unfold retired_name. rewrite <- !append_assoc. rewrite append_assoc. apply ends_with_app. Qed.

(** Retiring leaves the workspace alone, moves every listed live scope, and disturbs no
    retired one. *)
Record moved (g : string) (entries : list string) (w w' : World) : Prop := {
  mo_base : base w' = base w;
  mo_live n : is_stale n = false -> scopes w' !! n = if decide (n ∈ entries) then None else scopes w !! n;
  mo_stale n : is_stale n = true -> is_Some (scopes w !! n) -> is_Some (scopes w' !! n);
  mo_moved n : n ∈ entries -> is_stale n = false -> is_Some (scopes w !! n) -> is_Some (scopes w' !! retired_name g n);
}.

Lemma moved_skip g name entries w w' : is_stale name = true \/ scopes w !! name = None ->
  moved g entries w w' -> moved g (name :: entries) w w'.
Proof.
  intros Hskip [Hb Hl Hs Hr]. split; [done| |done|].
  - intros n Hn. rewrite Hl by done. destruct (decide (n ∈ entries)); [by rewrite decide_True by by right|].
    destruct (decide (n = name)) as [->|Hne]; [rewrite decide_True by (by left); destruct Hskip; congruence|].
    rewrite decide_False; [done|]. by intros [?|?]%elem_of_cons.
  - intros n [->|Hin]%elem_of_cons Hn Hsome; [|auto]. destruct Hskip as [?|Hno]; [congruence|].
    rewrite Hno in Hsome. by destruct Hsome.
Qed.

Lemma moved_one g name t entries w w' : is_stale name = false -> scopes w !! name = Some t ->
  moved g entries (mkWorld (base w) (<[retired_name g name := t]> (delete name (scopes w)))) w' ->
  moved g (name :: entries) w w'.
Proof.
  intros Es Et [Hb Hl Hs Hr]. cbn [base scopes] in *.
  assert (forall n, is_stale n = false -> n <> retired_name g name) as Hne by by intros n Hn ->; rewrite retired_is_stale in Hn.
  split; [done| | |].
  - intros n Hn. rewrite Hl, lookup_insert_ne by (done || by apply not_eq_sym, Hne).
    destruct (decide (n ∈ entries)); [by rewrite decide_True by by right|].
    destruct (decide (n = name)) as [->|Hnn]; [by rewrite lookup_delete_eq, decide_True by by left|].
    rewrite lookup_delete_ne by done. rewrite decide_False; [done|]. by intros [?|?]%elem_of_cons.
  - intros n Hn Hsome. apply Hs; [done|].
    destruct (decide (n = retired_name g name)) as [->|Hnn]; [by rewrite lookup_insert_eq|].
    by rewrite lookup_insert_ne, lookup_delete_ne by congruence.
  - intros n Hin Hn Hsome. destruct (decide (n = name)) as [->|Hnn]; [apply Hs; [done|by rewrite lookup_insert_eq]|].
    apply elem_of_cons in Hin as [?|Hin]; [done|]. apply Hr; [done..|].
    by rewrite lookup_insert_ne, lookup_delete_ne by (done || by apply not_eq_sym, Hne).
Qed.

Lemma retire_spec w g entries w' : retire_stale_scopes w g entries = (true, w') -> moved g entries w w'.
Proof.
  revert w. induction entries as [|name entries IH]; intros w; cbn [retire_stale_scopes].
  - intros [= <-]. split; [done| |done|by intros n ?%not_elem_of_nil].
    intros n _. rewrite decide_False; [done|]. apply not_elem_of_nil.
  - destruct (is_stale name) eqn:Es; [intros H; apply moved_skip; [by left|by apply IH]|].
    destruct (scopes w !! name) as [t|] eqn:Et; [|intros H; apply moved_skip; [by right|by apply IH]].
    fold (retired_name g name). destruct (scopes w !! retired_name g name) as [old|];
      [case_bool_decide; [|done]|]; intros Hgo; by apply (moved_one g name t), IH.
Qed.

(** After a takeover has retired the scopes on disk, no fold of an earlier scope succeeds
    or touches the workspace, whatever its worker still writes. *)
Theorem retired_scope_is_never_folded w g entries w' sc : retire_stale_scopes w g entries = (true, w') ->
  (forall n, is_Some (scopes w !! n) -> n ∈ entries) -> is_Some (scopes w !! dir sc) ->
  fold_ w' sc = (Err StaleScope, w') /\ base w' = base w.
Proof.
  intros Hr Hall Hsc. destruct (retire_spec w g entries w' Hr) as [Hb Hl _ Hs]. split; [|done]. unfold fold_.
  destruct (is_stale (dir sc)) eqn:Est; [done|]. rewrite (Hl _ Est), decide_True by by apply Hall.
  destruct (Hs (dir sc) (Hall _ Hsc) Est Hsc) as [t Ht].
  assert (existsb (fun n => ends_with (String.append "-" (dir sc)) n && is_stale n) (map_to_list (scopes w')).*1 = true) as ->; [|done].
  apply existsb_exists. exists (retired_name g (dir sc)). rewrite retired_ends, retired_is_stale. split; [|done].
  apply list_elem_of_In, list_elem_of_fmap. exists (retired_name g (dir sc), t). split; [done|]. by apply elem_of_map_to_list.
Qed.
End Merging.

(** ** Revisions *)

Section Revisions.
Context `{C : Crypto} {L : CryptoLaws C}.

(** The files a revision speaks of. *)
Definition payload (t : Tree) (p : string) : option content := if is_excluded p true then None else files t !! p.

(** Names as file systems allow them: no backslash (see [norm]) and no zero byte. *)
Definition clean (t : Tree) : Prop := forall p, is_Some (files t !! p) -> norm p = p /\ 0%N ∉ bytes_of p.

Definition entries_of (t : Tree) : list (string * content) := merge_sort path_le (walk t true).
(** Every text whose hash goes into the revision of [t]. *)
Definition hashed (t : Tree) : list content := (walk t true).*2 ++ [concat (revision_entry <$> entries_of t)].
Definition no_collision (a b : Tree) : Prop :=
  forall x y, x ∈ hashed a ++ hashed b -> y ∈ hashed a ++ hashed b -> sha256 x = sha256 y -> x = y.

#[local] Instance path_le_trans : Transitive path_le.
Proof. intros a b c. unfold path_le. apply transitivity. Qed.
#[local] Instance path_le_total : Total path_le.
Proof. intros a b. unfold path_le. apply (total String.le). Qed.

Lemma sep_first_inj p q : 0%N ∉ bytes_of p -> 0%N ∉ bytes_of q -> sep_first p = sep_first q -> p = q.
Proof.
  assert (forall c, (if Ascii.eqb c slash then Ascii.zero else c) = Ascii.zero -> c = slash \/ Ascii.N_of_ascii c = 0%N) as Hz.
  { intros c. destruct (Ascii.eqb_spec c slash) as [->|_]; [by left|]. intros ->. by right. }
  unfold sep_first. revert q. induction p as [|c p IH]; intros [|d q] Hp Hq; cbn [map_string]; [done..|].
  intros [= Hc Hpq]. change (bytes_of (String c p)) with (Ascii.N_of_ascii c :: bytes_of p) in Hp.
  change (bytes_of (String d q)) with (Ascii.N_of_ascii d :: bytes_of q) in Hq.
  apply not_elem_of_cons in Hp as [Hc0 Hp], Hq as [Hd0 Hq]. f_equal; [|by apply IH].
  destruct (Ascii.eqb_spec c slash) as [->|Hcs], (Ascii.eqb_spec d slash) as [->|Hds]; try done.
  - subst d. done.
  - subst c. done.
Qed.

Lemma clean_entry t p c : clean t -> (p, c) ∈ walk t true -> norm p = p /\ 0%N ∉ bytes_of p.
Proof. intros Ht [Hf _]%list_elem_of_In%walk_In. apply Ht. by exists c. Qed.

Lemma entries_unique a b : clean a -> walk a true ≡ₚ walk b true -> entries_of a = entries_of b.
Proof.
  intros Ha Hp. unfold entries_of. apply (StronglySorted_unique_strong path_le).
  - intros [p x] [q y]. rewrite !merge_sort_Permutation, <- Hp. intros H1 H2 H3 H4.
    apply (nodup_keys_inj (walk a true)); [apply walk_NoDup|done..|]. cbn.
    apply sep_first_inj; [by eapply clean_entry|by eapply clean_entry|]. by apply (anti_symm String.le).
  - apply StronglySorted_merge_sort; apply _.
  - apply StronglySorted_merge_sort; apply _.
  - by rewrite !merge_sort_Permutation.
Qed.

Lemma walk_payload t p c : (p, c) ∈ walk t true <-> payload t p = Some c.
Proof.
  rewrite list_elem_of_In, walk_In. unfold payload. destruct (is_excluded p true); naive_solver.
Qed.

(** An entry reads back: its name, then its hash. *)
Lemma revision_entry_split e : norm e.1 = e.1 -> exists r, revision_entry e = bytes_of e.1 ++ 0%N :: r /\ length r = 40%nat /\
  drop 8 r = sha256 e.2.
Proof.
  intros Hn. unfold revision_entry. rewrite Hn. exists (le_bytes 8 (len (sig_of e.2)) ++ hash (sig_of e.2)).
  split; [done|]. split; [|done]. rewrite length_app. cbn [hash sig_of]. by rewrite (proj1 (sha256_bytes _)).
Qed.

Lemma revision_entries_inj (l l' : list (string * content)) :
  (forall e, e ∈ l ++ l' -> norm e.1 = e.1 /\ 0%N ∉ bytes_of e.1) ->
  (forall e e', e ∈ l -> e' ∈ l' -> sha256 e.2 = sha256 e'.2 -> e.2 = e'.2) ->
  concat (revision_entry <$> l) = concat (revision_entry <$> l') -> l = l'.
Proof.
  revert l'. induction l as [|e l IH]; intros [|e' l'] Hc Hs; [done| | |].
  - destruct (revision_entry_split e') as (r & Hr & _); [apply Hc; left|]. cbn. rewrite Hr. by destruct (bytes_of e'.1).
  - destruct (revision_entry_split e) as (r & Hr & _); [apply Hc; left|]. cbn. rewrite Hr. by destruct (bytes_of e.1).
  - destruct (Hc e) as [He He0]; [left|]. destruct (Hc e') as [He' He0']; [set_solver|].
    destruct (revision_entry_split e He) as (r & Hr & Hlen & Hd), (revision_entry_split e' He') as (r' & Hr' & Hlen' & Hd').
    rewrite !fmap_cons. cbn [concat]. rewrite Hr, Hr', <- !app_assoc. cbn [app].
    intros [Hname Hrest]%first_part_inj; [|done..]. apply app_inj_1 in Hrest as [Hrr Hrest]; [|congruence].
    f_equal; [|apply IH; [intros x Hx; apply Hc; set_solver|intros x x' Hx Hx'; apply Hs; by right|done]].
    assert (e.2 = e'.2) as Heq by (apply Hs; [left|left|congruence]). apply bytes_of_inj in Hname.
    destruct e, e'. cbn in *. congruence.
Qed.

(** Two trees have the same revision exactly when they have the same payload, as long as
    the hash collides on nothing that is hashed. *)
Theorem revision_iff_same_payload a b : clean a -> clean b -> no_collision a b ->
  revision a = revision b <-> forall p, payload a p = payload b p.
Proof.
  intros Ha Hb Hn. split.
  - intros Hr p. apply hex_encode_inj in Hr; [|apply sha256_bytes..].
    apply Hn in Hr; [|unfold hashed; set_solver..].
    assert (entries_of a = entries_of b) as He.
    { apply revision_entries_inj; [| |exact Hr].
      - intros [q c]. unfold entries_of. rewrite elem_of_app, !merge_sort_Permutation. intros [?|?]; [by apply (clean_entry a q c)|by apply (clean_entry b q c)].
      - intros x y. unfold entries_of. rewrite !merge_sort_Permutation. intros Hx Hy. apply Hn; unfold hashed.
        + apply elem_of_app; left. apply elem_of_app; left. by apply list_elem_of_fmap_2.
        + apply elem_of_app; right. apply elem_of_app; left. by apply list_elem_of_fmap_2. }
    apply option_eq. intros c. rewrite <- !walk_payload, <- (merge_sort_Permutation path_le (walk a true)).
    fold (entries_of a). rewrite He. unfold entries_of. by rewrite merge_sort_Permutation.
  - intros Hp. unfold revision. fold (entries_of a) (entries_of b). rewrite (entries_unique a b); [done|done|].
    apply NoDup_Permutation; [by eapply NoDup_fmap_1, walk_NoDup..|]. intros [p c]. by rewrite !walk_payload, Hp.
Qed.
End Revisions.

(** ** Examples *)

Section Examples.
#[local] Existing Instance Toy.crypto.
#[local] Existing Instance Toy.laws.

(** A flat directory. *)
Definition flat (l : list (string * content)) : Tree := mkTree (list_to_map l) ∅.

Lemma flat_In l p : is_Some (files (flat l) !! p) -> exists c, (p, c) ∈ l.
Proof. intros [c Hc]. exists c. by apply elem_of_list_to_map_2 in Hc. Qed.

Lemma flat_plain l : forallb (fun e => String.eqb (norm e.1) e.1) l = true -> plain (flat l).
Proof.
  rewrite forallb_forall. intros Hl p (c & Hin)%flat_In. apply String.eqb_eq. by apply (Hl (p, c)), list_elem_of_In.
Qed.

Lemma flat_agree l : forallb (fun e => match ancestors e.1 with [] => true | _ => false end) l = true -> agree ∅ (flat l).
Proof.
  rewrite forallb_forall. intros Hl. split; [done|]. intros p (c & Hin)%flat_In. split; [set_solver|].
  apply list_elem_of_In in Hin. specialize (Hl _ Hin). cbn [fst] in Hl. intros a Ha.
  destruct (ancestors p); [by apply not_elem_of_nil in Ha|done].
Qed.

Definition shared : Tree := flat [("a", [1%N]); ("b", [2%N])].
Definition first_tree : Tree := flat [("a", [7%N]); ("b", [2%N])].
Definition second_tree : Tree := flat [("a", [9%N]); ("c", [3%N])].
Definition two_scopes : World := mkWorld shared (<["one" := first_tree]> (<["two" := second_tree]> ∅)).
Definition scope_one : WorkerScope := mkScope "one" (manifest_of shared).
Definition scope_two : WorkerScope := mkScope "two" (manifest_of shared).
Definition two_runs : list NodeRun := [mkRun 0 scope_one false false; mkRun 1 scope_two false false].

Lemma two_ready : ready ∅ two_scopes two_runs.
Proof.
  split; [by apply flat_agree|by apply flat_plain|by apply (bool_decide_unpack _); vm_compute|].
  intros r [<-|[<-|[]]]; split_and!; [done|done| |done|done|].
  - exists first_tree. split_and!; [by vm_compute|by apply flat_plain|by apply flat_agree].
  - exists second_tree. split_and!; [by vm_compute|by apply flat_plain|by apply flat_agree].
Qed.

(** Both change [a]: the first write stands, the second is reported; what only one of them
    changed is merged. *)
Lemma two_runs_merge :
  let '(res, w) := merge_batch two_scopes two_runs in
  res = Ok [(1%nat, {["a"]})] /\ files (base w) = list_to_map [("a", [7%N]); ("c", [3%N])].
Proof. by vm_compute. Qed.

Lemma no_lost_update_witness : exists cs w', merge_batch two_scopes two_runs = (Ok cs, w') /\
  run_outcome (manifest_of shared) (base w') cs (mkRun 1 scope_two false false) second_tree.
Proof.
  destruct (no_lost_update ∅ two_scopes two_runs two_ready) as (cs & w' & Hm & _ & Ho & _).
  exists cs, w'. split; [exact Hm|]. apply Ho; [right; left; reflexivity|by vm_compute].
Defined.

Lemma fold_merges_witness : exists out w', fold_ two_scopes scope_two = (Ok out, w') /\
  files (base w') !! "b" = merged scope_two second_tree shared "b" /\ merged scope_two second_tree shared "b" = None.
Proof.
  destruct (fold_merges ∅ two_scopes scope_two second_tree) as (out & w' & Hf & _ & Hm & _).
  - split; [done|by vm_compute|by apply flat_plain|by apply flat_agree|by apply flat_agree|set_solver].
  - exists out, w'. split; [exact Hf|]. split; [apply Hm|by vm_compute].
Defined.

Lemma scope_is_a_snapshot_witness : exists t w', scope two_scopes "three" = (Ok (mkScope "three" (manifest_of shared)), w') /\
  files t !! "a" = Some [1%N].
Proof.
  destruct (scope_is_a_snapshot ∅ two_scopes "three") as (t & w' & Hs & _ & _ & _ & Hf); [by apply flat_agree|by apply flat_plain|].
  exists t, w'. split; [exact Hs|]. rewrite Hf. by vm_compute.
Defined.

Lemma retired_scope_is_never_folded_witness : exists w', retire_stale_scopes two_scopes "2-1" ["one"; "two"] = (true, w') /\
  fold_ w' scope_one = (Err StaleScope, w').
Proof.
  eexists. split; [by vm_compute|].
  apply (retired_scope_is_never_folded two_scopes "2-1" ["one"; "two"] _ scope_one); [by vm_compute| |by vm_compute; eexists].
  intros n [t Ht]. apply elem_of_map_to_list in Ht. revert Ht.
  assert (map_to_list (scopes two_scopes) ≡ₚ [("one", first_tree); ("two", second_tree)]) as -> by (by vm_compute; constructor).
  set_solver.
Defined.

Lemma revision_iff_same_payload_witness : revision shared <> revision first_tree.
Proof.
  assert (revision shared = revision first_tree <-> forall p, payload shared p = payload first_tree p) as H.
  { apply revision_iff_same_payload.
    - intros p (c & Hin)%flat_In. set_unfold in Hin. destruct Hin as [[= -> ->]|[[= -> ->]|[]]]; (split; [done|by apply (bool_decide_unpack _); vm_compute]).
    - intros p (c & Hin)%flat_In. set_unfold in Hin. destruct Hin as [[= -> ->]|[[= -> ->]|[]]]; (split; [done|by apply (bool_decide_unpack _); vm_compute]).
    - assert (Forall (fun x => Forall (fun y => sha256 x = sha256 y -> x = y) (hashed shared ++ hashed first_tree)) (hashed shared ++ hashed first_tree)) as Hn
        by (by apply (bool_decide_unpack _); vm_compute).
      intros x y Hx Hy. rewrite Forall_forall in Hn. specialize (Hn x Hx). rewrite Forall_forall in Hn. by apply Hn. }
  intros Hr. pose proof (proj1 H Hr "a") as Ha. vm_compute in Ha. discriminate Ha.
Defined.

(** A file whose name holds a backslash makes every scope of the workspace fail: the name is
    looked for with a slash in its place. *)
Lemma backslash_breaks_scope :
  (scope (mkWorld (flat [("a\b", [1%N])]) ∅) "one").1 = Err IoError.
Proof. by vm_compute. Qed.

(** A worker that turns a file into a directory cannot be folded, and what was written
    before the failing path stays in the workspace with no word of it. *)
Lemma file_to_directory_tears_the_fold :
  let before := flat [("a", [1%N]); ("m", [2%N])] in
  let after := mkTree (list_to_map [("a", [9%N]); ("m/x", [2%N])]) {["m"]} in
  let sc := mkScope "one" (manifest_of before) in
  let '(res, w) := fold_ (mkWorld before {["one" := after]}) sc in
  res = Err IoError /\ files (base w) = list_to_map [("a", [9%N]); ("m", [2%N])].
Proof. by vm_compute. Qed.
End Examples.
