(* ===== verification/EmergencyStop.v ===== *)
(** * EmergencyStop: the operator's stop ([crates/susi-core/src/emergency_stop.rs])

    [EmergencyStopBus] is the state of the bus; its operations are [register_peer],
    [register_task], [apply_stop] and the two questions [rejects_new_work] and
    [rejects_new_work_for_scope].  The file of a stop is signed: the text that is hashed is
    the derived [Debug] rendering of the status, and the file itself serde's; both are
    arguments ([Stored]), with what is relied on of them. *)

From S2P Require Import Prelude Text ClusterKey.

Local Open Scope string_scope.
Local Open Scope list_scope.
Local Open Scope susi_scope.

Record EmergencyStop : Type := mkStop {
  scope : string;
  reason : string;
  active : bool;
}.
Record StopStatus : Type := mkStatus {
  stop : option EmergencyStop;
  cancelled_tasks : gset string;
  unreachable_peers : gset string;
  unrecalled_external : gset string;
  signature : option string;
}.
Definition StopStatus_default : StopStatus := mkStatus None ∅ ∅ ∅ None.
Record RunningTask : Type := mkTask {
  id : string;
  cancellable : bool;
  external : bool;
  task_scope : string;
}.

Definition eq_ignore_ascii_case (a b : string) : bool := String.eqb (to_ascii_lowercase a) (to_ascii_lowercase b).

Definition scope_matches (stop_scope task_scope : string) : bool :=
  String.eqb stop_scope "fleet" || String.eqb stop_scope "*" || String.eqb stop_scope "global"
  || eq_ignore_ascii_case stop_scope task_scope
  || starts_with (stop_scope +:+ "/") task_scope
  || starts_with (stop_scope +:+ "::") task_scope.

(** [EmergencyStopActive]: scope and reason of the stop that refused. *)
Record EmergencyStopActive : Type := mkActive {
  a_scope : string;
  a_reason : string;
}.

Record EmergencyStopBus : Type := mkBus {
  status : StopStatus;
  peers : gmap string bool;
  running : gmap string RunningTask;
}.
Definition EmergencyStopBus_default : EmergencyStopBus := mkBus StopStatus_default ∅ ∅.

Definition register_peer (b : EmergencyStopBus) (pid : string) (reachable : bool) : EmergencyStopBus :=
  mkBus (status b) (<[pid := reachable]> (peers b)) (running b).
Definition is_task_running (b : EmergencyStopBus) (tid : string) : bool := bool_decide (is_Some (running b !! tid)).

(** Where a stop puts a task it reaches: among the cancelled, the external ones that cannot
    be recalled, or nowhere. *)
Definition mark (s : StopStatus) (t : RunningTask) : StopStatus :=
  if cancellable t then mkStatus (stop s) ({[id t]} ∪ cancelled_tasks s) (unreachable_peers s) (unrecalled_external s) (signature s)
  else if external t then mkStatus (stop s) (cancelled_tasks s) (unreachable_peers s) ({[id t]} ∪ unrecalled_external s) (signature s)
  else s.

Definition register_task (b : EmergencyStopBus) (t : RunningTask) : result unit EmergencyStopActive * EmergencyStopBus :=
  match stop (status b) with
  | Some st =>
      if active st && scope_matches (scope st) (task_scope t) then
        (Err (mkActive (scope st) (reason st)), mkBus (mark (status b) t) (peers b) (running b))
      else (Ok tt, mkBus (status b) (peers b) (<[id t := t]> (running b)))
  | None => (Ok tt, mkBus (status b) (peers b) (<[id t := t]> (running b)))
  end.

Definition add_unreachable (s : StopStatus) (p : string * bool) : StopStatus :=
  if p.2 then s
  else mkStatus (stop s) (cancelled_tasks s) ({[p.1]} ∪ unreachable_peers s) (unrecalled_external s) (signature s).

Definition apply_stop (b : EmergencyStopBus) (sc why : string) : EmergencyStopBus :=
  let s := status b in
  let s := mkStatus (Some (mkStop sc why true)) (cancelled_tasks s) (unreachable_peers s) (unrecalled_external s) (signature s) in
  let s := fold_left add_unreachable (btree_entries (peers b)) s in
  let s := fold_left (fun s t => if scope_matches sc (task_scope t) then mark s t else s) (btree_values (running b)) s in
  mkBus s (peers b) (running b).

Definition rejects_new_work (b : EmergencyStopBus) : bool :=
  match stop (status b) with Some s => active s | None => false end.
Definition rejects_new_work_for_scope (b : EmergencyStopBus) (sc : string) : bool :=
  match stop (status b) with Some s => active s && scope_matches (scope s) sc | None => false end.

(** ** The file *)

Class Stored : Type := {
  (** [stop:{:?}|cancelled:{:?}|peers:{:?}|unrecalled:{:?}]. *)
  debug_payload : StopStatus -> list N;
  (** [serde_json::to_string_pretty] and [from_str]. *)
  to_json : StopStatus -> list N;
  of_json : list N -> option StopStatus;
}.
Class StoredLaws (S : Stored) : Prop := {
  json_roundtrip : forall s, of_json (to_json s) = Some s;
  (** The rendering does not look at the signature. *)
  payload_unsigned : forall s g, debug_payload (mkStatus (stop s) (cancelled_tasks s) (unreachable_peers s) (unrecalled_external s) g) = debug_payload s;
}.

Section Persisting.
Context `{C : Crypto} `{S : Stored}.

Definition SIGNING_KEY : list N := bytes_of "susi-operator-emergency-stop-v1-key".
Definition compute_signature (s : StopStatus) : string := hex_encode (sha256 (SIGNING_KEY ++ debug_payload s)).

Definition signed (s : StopStatus) : StopStatus :=
  mkStatus (stop s) (cancelled_tasks s) (unreachable_peers s) (unrecalled_external s) (Some (compute_signature s)).
(** [persist_to], what it writes. *)
Definition persist_to (b : EmergencyStopBus) : list N := to_json (signed (status b)).

Inductive RestoreError : Type :=
| Unreadable
| Tampered
| Unsigned.
(** [restore_from]. *)
Definition restore_from (file : option (list N)) : result EmergencyStopBus RestoreError :=
  match file with
  | None => Err Unreadable
  | Some raw =>
      match of_json raw with
      | None => Err Unreadable
      | Some s =>
          match signature s with
          | Some sig => if String.eqb sig (compute_signature s) then Ok (mkBus s ∅ ∅) else Err Tampered
          | None => Err Unsigned
          end
      end
  end.
End Persisting.

(** ** What a stop does *)

Lemma mark_stop s t : stop (mark s t) = stop s.
Proof. unfold mark. by destruct (cancellable t), (external t). Qed.

Lemma fold_stop {A} (f : StopStatus -> A -> StopStatus) l s : (forall s a, stop (f s a) = stop s) ->
  stop (fold_left f l s) = stop s.
Proof. intros Hf. revert s. induction l as [|a l IH]; intros s; [done|]. cbn. by rewrite IH, Hf. Qed.

Lemma add_unreachable_stop s p : stop (add_unreachable s p) = stop s.
Proof. unfold add_unreachable. by destruct p.2. Qed.

Lemma apply_stop_status b sc why : stop (status (apply_stop b sc why)) = Some (mkStop sc why true).
Proof.
  unfold apply_stop. cbn [status]. rewrite fold_stop, fold_stop; [done|intros; apply add_unreachable_stop|].
  intros s t. destruct (scope_matches _ _); [apply mark_stop|done].
Qed.

(** Once a stop is in force, it refuses exactly the tasks of the scopes it matches: such a
    task is never entered as running, and any other one is. *)
Theorem stop_refuses_exactly b sc why t :
  let b' := apply_stop b sc why in
  let '(res, b2) := register_task b' t in
  (is_ok res = false <-> scope_matches sc (task_scope t) = true) /\
  (is_ok res = false -> running b2 = running b) /\
  (is_ok res = true -> running b2 = <[id t := t]> (running b)) /\
  rejects_new_work_for_scope b2 (task_scope t) = negb (is_ok res).
Proof.
  cbn zeta. unfold register_task, rejects_new_work_for_scope. rewrite apply_stop_status. cbn [active scope andb].
  destruct (scope_matches sc (task_scope t)) eqn:E; cbn [status]; rewrite ?mark_stop, apply_stop_status; cbn [active scope andb is_ok negb]; by rewrite E.
Qed.

Definition recorded (s : StopStatus) (t : RunningTask) : Prop :=
  if cancellable t then id t ∈ cancelled_tasks s else if external t then id t ∈ unrecalled_external s else True.

Lemma mark_recorded s t : recorded (mark s t) t.
Proof. unfold recorded, mark. destruct (cancellable t), (external t); cbn; set_solver. Qed.

Lemma mark_keeps s t u : recorded s u -> recorded (mark s t) u.
Proof. unfold recorded, mark. destruct (cancellable u), (external u), (cancellable t), (external t); cbn; set_solver. Qed.

Lemma add_unreachable_keeps s p u : recorded s u -> recorded (add_unreachable s p) u.
Proof. unfold recorded, add_unreachable. by destruct p.2. Qed.

(** Every running task a stop reaches is recorded as cancelled, or as external work that
    could not be recalled. *)
Lemma stop_records_running b sc why t : running b !! id t = Some t -> scope_matches sc (task_scope t) = true ->
  recorded (status (apply_stop b sc why)) t.
Proof.
  intros Ht Hm. unfold apply_stop. cbn [status]. set (s0 := fold_left add_unreachable _ _). clearbody s0.
  assert (In t (btree_values (running b))) as Hin by (apply btree_values_In; eauto). revert s0 Hin.
  generalize (btree_values (running b)) as l. induction l as [|u l IH]; intros s0 Hin; [done|]. cbn [fold_left].
  destruct Hin as [->|Hin]; [|by apply IH]. rewrite Hm.
  assert (recorded (mark s0 t) t) as Hr by apply mark_recorded. revert Hr. generalize (mark s0 t). clear.
  induction l as [|u l IH]; intros s Hr; [done|]. cbn [fold_left]. apply IH. destruct (scope_matches _ _); [by apply mark_keeps|done].
Qed.

(** ** The file survives a restart *)

Section Restoring.
Context `{C : Crypto} `{S : Stored} {L : StoredLaws S}.

(** A stop survives a restart: what is written restores to the same stop and the same
    records, and a file whose signature is not the one of its contents is refused. *)
Theorem stop_survives_restart b :
  exists b', restore_from (Some (persist_to b)) = Ok b' /\ stop (status b') = stop (status b) /\
    cancelled_tasks (status b') = cancelled_tasks (status b) /\ unrecalled_external (status b') = unrecalled_external (status b) /\
    unreachable_peers (status b') = unreachable_peers (status b) /\
    (forall sc, rejects_new_work_for_scope b' sc = rejects_new_work_for_scope b sc).
Proof.
  unfold restore_from, persist_to. rewrite json_roundtrip. cbn [signature signed].
  assert (compute_signature (signed (status b)) = compute_signature (status b)) as ->
    by (unfold compute_signature, signed; by rewrite payload_unsigned).
  rewrite String.eqb_refl. eexists. split; [done|]. by split_and!.
Qed.

Lemma restored_is_signed file b : restore_from file = Ok b ->
  exists raw, file = Some raw /\ of_json raw = Some (status b) /\ signature (status b) = Some (compute_signature (status b)).
Proof.
  unfold restore_from. destruct file as [raw|]; [|done]. destruct (of_json raw) as [s|] eqn:E; [|done].
  destruct (signature s) as [sig|] eqn:Es; [|done]. destruct (String.eqb_spec sig (compute_signature s)) as [->|]; [|done].
  intros [= <-]. eauto.
Qed.

(** The key is a constant of the program: whoever can write the file can sign any status,
    a lifted stop among them. *)
Lemma anyone_can_sign s : restore_from (Some (to_json (signed s))) = Ok (mkBus (signed s) ∅ ∅).
Proof.
  unfold restore_from. rewrite json_roundtrip. cbn [signature signed].
  assert (compute_signature (signed s) = compute_signature s) as -> by (unfold compute_signature, signed; by rewrite payload_unsigned).
  by rewrite String.eqb_refl.
Qed.
End Restoring.

(** ** Where the code and its comments part *)

(** A second, narrower stop lifts the first: work the fleet-wide stop refused is admitted. *)
Lemma narrower_stop_lifts_the_fleet_stop :
  let b := apply_stop EmergencyStopBus_default "fleet" "incident" in
  let b2 := apply_stop b "mission-7" "also this one" in
  let t := mkTask "t1" true false "mission-8" in
  is_ok (register_task b t).1 = false /\ is_ok (register_task b2 t).1 = true.
Proof. by vm_compute. Qed.

(** The name of a scope matches in any case, the scopes below it only in the same one. *)
Lemma case_matters_below :
  scope_matches "MISSION-7" "mission-7" = true /\ scope_matches "MISSION-7" "mission-7/n1" = false /\
  scope_matches "mission-7" "mission-7/n1" = true /\ scope_matches "Fleet" "mission-7" = false.
Proof. by vm_compute. Qed.

(** Work that is neither cancellable nor external is left running and recorded nowhere. *)
Lemma uncancellable_local_work_is_not_recorded :
  let t := mkTask "t1" false false "mission-7" in
  let b := (register_task EmergencyStopBus_default t).2 in
  let b2 := apply_stop b "fleet" "incident" in
  is_task_running b2 "t1" = true /\ cancelled_tasks (status b2) = ∅ /\ unrecalled_external (status b2) = ∅.
Proof. by vm_compute. Qed.

(** ** Witnesses *)

(** A concrete codec: the number of a status in an enumeration. *)
Module ToyStored.
#[local] Instance stop_eq_dec : EqDecision EmergencyStop.
Proof. solve_decision. Defined.
#[local] Instance stop_countable : Countable EmergencyStop.
Proof.
  refine (inj_countable' (fun s => (scope s, reason s, active s)) (fun p => mkStop p.1.1 p.1.2 p.2) _).
  by intros [].
Defined.
#[local] Instance status_eq_dec : EqDecision StopStatus.
Proof. solve_decision. Defined.
#[local] Instance status_countable : Countable StopStatus.
Proof.
  refine (inj_countable' (fun s => (stop s, cancelled_tasks s, unreachable_peers s, unrecalled_external s, signature s))
    (fun p => mkStatus p.1.1.1.1 p.1.1.1.2 p.1.1.2 p.1.2 p.2) _).
  by intros [].
Defined.
Definition unsigned (s : StopStatus) : StopStatus :=
  mkStatus (stop s) (cancelled_tasks s) (unreachable_peers s) (unrecalled_external s) None.
#[export] Instance stored : Stored := {
  debug_payload s := [Npos (encode (unsigned s))];
  to_json s := [Npos (encode s)];
  of_json f := match f with [Npos p] => decode p | _ => None end;
}.
#[export] Instance laws : StoredLaws stored.
Proof. split; [intros s; cbn; apply decode_encode|done]. Qed.
End ToyStored.

Section StopWitnesses.
#[local] Existing Instance Toy.crypto.
#[local] Existing Instance ToyStored.stored.
#[local] Existing Instance ToyStored.laws.

Lemma stop_survives_restart_witness : exists b', restore_from (Some (persist_to (apply_stop EmergencyStopBus_default "fleet" "x"))) = Ok b' /\
  rejects_new_work_for_scope b' "mission-7" = true.
Proof.
  destruct (stop_survives_restart (apply_stop EmergencyStopBus_default "fleet" "x")) as (b' & Hb & _ & _ & _ & _ & Hr).
  exists b'. split; [exact Hb|]. rewrite Hr. by vm_compute.
Defined.
End StopWitnesses.
