(* ===== verification/TaskManager.v ===== *)
(** * TaskManager: live tasks, their scopes and the idle watchdog
    ([crates/susi-core/src/task_manager.rs])

    A record and the handle of its owner share atomics and a lock; they are one [Cells] value
    per task, kept in [cells] under the task's id.  What the concurrent maps hold is
    [tasks], [cancel_map], [pause_map] and [cancelled_scopes].  What a task's lock protects
    ([finish], [kill_task], [pause_task], [resume_task], the watchdog's verdict) is one step;
    [register_task_scoped] and [cancel_scope] are not, and section [Interleaving] gives their
    steps.  Ids are arguments (the code draws them from the clock), as are the clock and the
    configured floor of the lease. *)

From S2P Require Import Prelude Text Money EmergencyStop.

Local Open Scope string_scope.
Local Open Scope list_scope.
Local Open Scope N_scope.

(** ** Telemetry: the idle lease of a category *)

Record IntentTelemetryProfile : Type := mkProfile {
  sample_count : N;
  avg_latency_ms : N;
  p99_idle_interval_ms : N;
}.

Definition MAX_TELEMETRY_PROFILES : nat := 500.

(** [iter().min_by_key(sample_count)]: some entry of least count, the iteration order of the
    map deciding among equals; here the first in key order. *)
Definition least_sampled (ps : gmap string IntentTelemetryProfile) : option string :=
  fst <$> head (sort_by_key (fun e => sample_count e.2) (btree_entries ps)).

(** One observation; a release build multiplies and adds without overflow checks. *)
Definition observe (category : string) (elapsed_ms idle_ms : N) (p : option IntentTelemetryProfile) : IntentTelemetryProfile :=
  let p := default (mkProfile 0 elapsed_ms (N.max idle_ms 200)) p in
  let count := wrapping_add (sample_count p) 1 in
  mkProfile count (wrapping_add (avg_latency_ms p * (count - 1) mod 2 ^ 64) elapsed_ms / count)
    (N.max (p99_idle_interval_ms p) (N.max idle_ms 200)).

(** A new category past the bound takes the place of the least sampled one. *)
Definition make_room (ps : gmap string IntentTelemetryProfile) (category : string) : gmap string IntentTelemetryProfile :=
  if bool_decide (ps !! category = None) && (MAX_TELEMETRY_PROFILES <=? size ps)%nat then
    match least_sampled ps with Some victim => delete victim ps | None => ps end
  else ps.
Definition record_execution_telemetry (ps : gmap string IntentTelemetryProfile) (category : string) (elapsed_ms idle_ms : N) :
    gmap string IntentTelemetryProfile :=
  let ps := make_room ps category in <[category := observe category elapsed_ms idle_ms (ps !! category)]> ps.

(** [get_idle_threshold_ms], with the configured [execution_lease_secs]. *)
Definition get_idle_threshold_ms (ps : gmap string IntentTelemetryProfile) (lease_secs : N) (category : string) : N :=
  match ps !! category with
  | None => u64_max
  | Some p =>
      if sample_count p <? 3 then u64_max
      else N.max (saturating_mul (p99_idle_interval_ms p) 5) (saturating_mul lease_secs 1000)
  end.

(** ** State *)

Inductive TaskStatus : Type :=
| Running
| Paused
| Completed
| Failed
| Stalled
| Killed.
#[export] Instance TaskStatus_eq_dec : EqDecision TaskStatus.
Proof. solve_decision. Defined.

Definition status_to_u8 (s : TaskStatus) : N :=
  match s with Running => 0 | Paused => 1 | Completed => 2 | Failed => 3 | Stalled => 4 | Killed => 5 end.
Definition status_from_u8 (v : N) : TaskStatus :=
  match v with 0 => Running | 1 => Paused | 2 => Completed | 3 => Failed | 4 => Stalled | 5 => Killed | _ => Failed end.
Definition is_live (s : TaskStatus) : bool := match s with Running | Paused => true | _ => false end.

Record TaskRecord : Type := mkRecord {
  name : string;
  start_time_secs : N;
  expected_idle_ms : N;
  t_scope : option string;
}.
(** What the record and the handle share, and the handle's own clocks in milliseconds since
    the start of the task. *)
Record Cells : Type := mkCells {
  status : TaskStatus;
  last_progress_secs : N;
  progress_count : N;
  t_result : option string;
  cancel_flag : bool;
  pause_flag : bool;
  last_progress_ms : N;
  max_idle_ms : N;
}.
Record SwarmTaskManager : Type := mkManager {
  tasks : gmap string TaskRecord;
  cells : gmap string Cells;
  cancel_map : gset string;
  pause_map : gset string;
  cancelled_scopes : gset string;
}.
Definition SwarmTaskManager_new : SwarmTaskManager := mkManager ∅ ∅ ∅ ∅ ∅.

Definition set_cells (m : SwarmTaskManager) (tid : string) (c : Cells) : SwarmTaskManager :=
  mkManager (tasks m) (<[tid := c]> (cells m)) (cancel_map m) (pause_map m) (cancelled_scopes m).
Definition with_status (c : Cells) (s : TaskStatus) (r : option string) : Cells :=
  mkCells s (last_progress_secs c) (progress_count c) r (cancel_flag c) (pause_flag c) (last_progress_ms c) (max_idle_ms c).
Definition with_flags (c : Cells) (cancel pause : bool) : Cells :=
  mkCells (status c) (last_progress_secs c) (progress_count c) (t_result c) cancel pause (last_progress_ms c) (max_idle_ms c).
Definition with_progress (c : Cells) (secs : N) : Cells :=
  mkCells (status c) secs (progress_count c) (t_result c) (cancel_flag c) (pause_flag c) (last_progress_ms c) (max_idle_ms c).

(** A step on the cells of one task. *)
Definition upd (m : SwarmTaskManager) (tid : string) (f : Cells -> bool * Cells) : bool * SwarmTaskManager :=
  match cells m !! tid with
  | None => (false, m)
  | Some c => let '(b, c') := f c in (b, set_cells m tid c')
  end.
(** The same through the table, where a pruned task is no longer found. *)
Definition upd_task (m : SwarmTaskManager) (tid : string) (f : Cells -> bool * Cells) : bool * SwarmTaskManager :=
  match tasks m !! tid with None => (false, m) | Some _ => upd m tid f end.

(** ** The handle *)

Definition observe_gap (now_ms : N) (c : Cells) : Cells :=
  mkCells (status c) (last_progress_secs c) (progress_count c) (t_result c) (cancel_flag c) (pause_flag c) now_ms
    (N.max (max_idle_ms c) (now_ms - last_progress_ms c)).
Definition report_progress (m : SwarmTaskManager) (tid : string) (now_ms now_secs : N) : SwarmTaskManager :=
  (upd m tid (fun c =>
    let c := observe_gap now_ms c in
    (true, mkCells (status c) now_secs (wrapping_add (progress_count c) 1) (t_result c) (cancel_flag c) (pause_flag c)
       (last_progress_ms c) (max_idle_ms c)))).2.
Definition is_cancelled (m : SwarmTaskManager) (tid : string) : bool :=
  match cells m !! tid with Some c => cancel_flag c | None => false end.

(** [finish]: the first outcome stands. *)
Definition finish_cells (s : TaskStatus) (text : string) (c : Cells) : bool * Cells :=
  if is_live (status c) then (true, with_status c s (Some text)) else (false, c).
Definition finish (m : SwarmTaskManager) (tid : string) (s : TaskStatus) (text : string) : bool * SwarmTaskManager :=
  upd m tid (finish_cells s text).
(** [mark_completed], with the telemetry it records. *)
Definition mark_completed (m : SwarmTaskManager) (ps : gmap string IntentTelemetryProfile) (tid task_name text : string) (now_ms : N) :
    SwarmTaskManager * gmap string IntentTelemetryProfile :=
  let '(first, m1) := finish m tid Completed text in
  if first then
    let m2 := (upd m1 tid (fun c => (true, observe_gap now_ms c))).2 in
    (m2, match cells m2 !! tid with
         | Some c => record_execution_telemetry ps task_name now_ms (max_idle_ms c)
         | None => ps
         end)
  else (m1, ps).
Definition mark_failed (m : SwarmTaskManager) (tid err : string) : SwarmTaskManager := (finish m tid Failed err).2.
Definition ABANDONED : string := "[ABANDONED] task handle released before an outcome was reported".
Definition drop_handle (m : SwarmTaskManager) (tid : string) : SwarmTaskManager := (finish m tid Failed ABANDONED).2.

(** ** The table *)

Definition live_task (m : SwarmTaskManager) (tid : string) : bool :=
  match cells m !! tid with Some c => is_live (status c) | None => false end.

Definition MAX_TASK_RECORDS : nat := 512.

(** [prune_finished]: the oldest finished records, ties by id. *)
Definition older (a b : N * string) : Prop := a.1 < b.1 \/ a.1 = b.1 /\ String.le a.2 b.2.
#[export] Instance older_dec : RelDecision older.
Proof. intros a b. unfold older. apply _. Defined.
Definition finished_ids (m : SwarmTaskManager) : list string :=
  (merge_sort older
    (List.map (fun e => (start_time_secs e.2, e.1))
      (List.filter (fun e => negb (live_task m e.1)) (map_to_list (tasks m))))).*2.
Definition forget (m : SwarmTaskManager) (tid : string) : SwarmTaskManager :=
  mkManager (delete tid (tasks m)) (cells m) (cancel_map m ∖ {[tid]}) (pause_map m ∖ {[tid]}) (cancelled_scopes m).
Definition prune_finished (m : SwarmTaskManager) : SwarmTaskManager :=
  if (size (tasks m) <? MAX_TASK_RECORDS)%nat then m
  else fold_left forget (take (size (tasks m) + 1 - MAX_TASK_RECORDS) (finished_ids m)) m.

(** The steps of [register_task_scoped]: what it decides first, and its three insertions. *)
Definition initial_flags (m : SwarmTaskManager) (bus : EmergencyStopBus) (scope : option string) : bool * TaskStatus :=
  let scope_cancelled := match scope with Some s => bool_decide (s ∈ cancelled_scopes m) | None => false end in
  let estop_cancelled := rejects_new_work_for_scope bus (default "fleet" scope) in
  (scope_cancelled || estop_cancelled, if estop_cancelled then Killed else Running).
Definition new_cells (flags : bool * TaskStatus) (now_secs : N) : Cells :=
  mkCells flags.2 now_secs 0 None flags.1 false 0 0.
Definition insert_task (m : SwarmTaskManager) (tid : string) (r : TaskRecord) (c : Cells) : SwarmTaskManager :=
  let m := prune_finished m in
  mkManager (<[tid := r]> (tasks m)) (<[tid := c]> (cells m)) (cancel_map m) (pause_map m) (cancelled_scopes m).
Definition insert_cancel (m : SwarmTaskManager) (tid : string) : SwarmTaskManager :=
  mkManager (tasks m) (cells m) ({[tid]} ∪ cancel_map m) (pause_map m) (cancelled_scopes m).
Definition insert_pause (m : SwarmTaskManager) (tid : string) : SwarmTaskManager :=
  mkManager (tasks m) (cells m) (cancel_map m) ({[tid]} ∪ pause_map m) (cancelled_scopes m).
Definition register_task_scoped (m : SwarmTaskManager) (bus : EmergencyStopBus) (ps : gmap string IntentTelemetryProfile)
    (lease_secs : N) (tid task_name : string) (scope : option string) (now_secs : N) : SwarmTaskManager :=
  let r := mkRecord task_name now_secs (get_idle_threshold_ms ps lease_secs task_name) scope in
  insert_pause (insert_cancel (insert_task m tid r (new_cells (initial_flags m bus scope) now_secs)) tid) tid.

(** The steps of [cancel_scope]: the mark, and a visit of each record. *)
Definition mark_scope (m : SwarmTaskManager) (s : string) : SwarmTaskManager :=
  mkManager (tasks m) (cells m) (cancel_map m) (pause_map m) ({[s]} ∪ cancelled_scopes m).
Definition visited (m : SwarmTaskManager) (s tid : string) : bool :=
  match tasks m !! tid with
  | Some r => bool_decide (t_scope r = Some s) && live_task m tid && bool_decide (tid ∈ cancel_map m)
  | None => false
  end.
Definition visit (s : string) (acc : N * SwarmTaskManager) (tid : string) : N * SwarmTaskManager :=
  let '(n, m) := acc in
  if visited m s tid then (n + 1, (upd m tid (fun c => (true, with_flags c true (pause_flag c)))).2) else (n, m).
Definition cancel_scope (m : SwarmTaskManager) (s : string) : N * SwarmTaskManager :=
  fold_left (visit s) (map_to_list (tasks m)).*1 (0, mark_scope m s).
Definition is_scope_cancelled (m : SwarmTaskManager) (s : string) : bool := bool_decide (s ∈ cancelled_scopes m).

(** ** Control *)

Definition kill_task (m : SwarmTaskManager) (tid : string) : bool * SwarmTaskManager :=
  upd_task m tid (fun c =>
    if is_live (status c) then
      let c := if bool_decide (tid ∈ cancel_map m) then with_flags c true (pause_flag c) else c in
      (true, with_status c Killed (Some "Killed by pulse"))
    else (false, c)).
Definition pause_task (m : SwarmTaskManager) (tid : string) : bool * SwarmTaskManager :=
  upd_task m tid (fun c =>
    if decide (status c = Running) then
      let c := if bool_decide (tid ∈ pause_map m) then with_flags c (cancel_flag c) true else c in
      (true, with_status c Paused (t_result c))
    else (false, c)).
Definition resume_task (m : SwarmTaskManager) (tid : string) (now_secs : N) : bool * SwarmTaskManager :=
  upd_task m tid (fun c =>
    if decide (status c = Paused) then
      let c := with_progress c now_secs in
      let c := if bool_decide (tid ∈ pause_map m) then with_flags c (cancel_flag c) false else c in
      (true, with_status c Running (t_result c))
    else (false, c)).

(** ** The watchdog *)

Definition idle_ms (now_secs : N) (c : Cells) : N := saturating_mul (now_secs - last_progress_secs c) 1000.
Definition decimal (n : N) : string := string_of_bytes (N.to_nat <$> display_u64 n).
Definition lease_text (idle threshold : N) : string :=
  "[LEASE_EXPIRED] No progress for " +:+ decimal idle +:+ "ms (calibrated threshold: " +:+ decimal threshold
    +:+ "ms) — proactively terminated.".
(** The first phase of a tick, and the second for one task it found. *)
Definition expired (m : SwarmTaskManager) (now_secs : N) : list (string * (N * N)) :=
  omap (fun e =>
    match cells m !! e.1 with
    | Some c =>
        if bool_decide (status c = Running) && negb (expected_idle_ms e.2 =? u64_max) && (expected_idle_ms e.2 <? idle_ms now_secs c)
        then Some (e.1, (idle_ms now_secs c, expected_idle_ms e.2)) else None
    | None => None
    end) (map_to_list (tasks m)).
Definition expire (now_secs : N) (m : SwarmTaskManager) (e : string * (N * N)) : SwarmTaskManager :=
  match tasks m !! e.1 with
  | None => m
  | Some r =>
      (upd m e.1 (fun c =>
        if bool_decide (status c <> Running) || (idle_ms now_secs c <=? expected_idle_ms r) then (false, c)
        else
          let c := with_status c Stalled (Some (lease_text e.2.1 e.2.2)) in
          (true, if bool_decide (e.1 ∈ cancel_map m) then with_flags c true (pause_flag c) else c))).2
  end.
Definition watchdog (m : SwarmTaskManager) (now_secs : N) : SwarmTaskManager :=
  fold_left (expire now_secs) (expired m now_secs) m.

(** ** How a task's cells evolve *)

(** A raised cancel flag stays raised, and an outcome stands. *)
Record evolves (c c' : Cells) : Prop := {
  ev_flag : cancel_flag c = true -> cancel_flag c' = true;
  ev_outcome : is_live (status c) = false -> status c' = status c /\ t_result c' = t_result c;
}.
#[export] Instance evolves_refl : Reflexive evolves.
Proof. by split. Qed.
#[export] Instance evolves_trans : Transitive evolves.
Proof.
  intros a b c [F1 O1] [F2 O2]. split; [by auto|]. intros Ha. destruct (O1 Ha) as [Hs Hr].
  destruct O2 as [Hs' Hr']; [by rewrite Hs|]. split; congruence.
Qed.

Lemma evolves_live c c' : evolves c c' -> is_live (status c') = true -> is_live (status c) = true.
Proof. intros [_ Ho] Hl. destruct (is_live (status c)) eqn:E; [done|]. destruct (Ho eq_refl) as [Hs _]. congruence. Qed.

(** What a step on cells keeps of the manager. *)
Record frame (m m' : SwarmTaskManager) : Prop := {
  fr_tasks : tasks m' = tasks m;
  fr_cancel : cancel_map m' = cancel_map m;
  fr_pause : pause_map m' = pause_map m;
  fr_scopes : cancelled_scopes m' = cancelled_scopes m;
  fr_cells tid c : cells m !! tid = Some c -> exists c', cells m' !! tid = Some c' /\ evolves c c';
  fr_dom tid : cells m !! tid = None -> cells m' !! tid = None;
}.
#[export] Instance frame_refl : Reflexive frame.
Proof. split; try done. intros tid c Hc. by exists c. Qed.
#[export] Instance frame_trans : Transitive frame.
Proof.
  intros a b c [T1 C1 P1 S1 E1 D1] [T2 C2 P2 S2 E2 D2]. split; [congruence..| |auto].
  intros tid x Hx. destruct (E1 tid x Hx) as (y & Hy & Hxy), (E2 tid y Hy) as (z & Hz & Hyz).
  exists z. split; [done|]. by trans y.
Qed.

Lemma upd_frame m tid f : (forall c, evolves c (f c).2) -> frame m (upd m tid f).2.
Proof.
  intros Hf. unfold upd. destruct (cells m !! tid) as [c|] eqn:E; [|done].
  specialize (Hf c). destruct (f c) as [b c']. cbn [snd] in *. split; try done; cbn [set_cells cells].
  - intros t x Hx. destruct (decide (t = tid)) as [->|Hne].
    + rewrite E in Hx. simplify_eq. exists c'. by rewrite lookup_insert_eq.
    + exists x. by rewrite lookup_insert_ne.
  - intros t Ht. destruct (decide (t = tid)) as [->|Hne]; [congruence|]. by rewrite lookup_insert_ne.
Qed.

Lemma upd_task_frame m tid f : (forall c, evolves c (f c).2) -> frame m (upd_task m tid f).2.
Proof. intros Hf. unfold upd_task. destruct (tasks m !! tid); [by apply upd_frame|done]. Qed.

Ltac solve_evolves :=
  intros c; split; cbn; repeat case_match; cbn in *; try done; try congruence;
  try (match goal with H : status _ = _ |- _ => by rewrite H end).

Lemma finish_frame m tid s text : frame m (finish m tid s text).2.
Proof. apply upd_frame. unfold finish_cells. solve_evolves. Qed.

Lemma mark_completed_frame m ps tid n text now : frame m (mark_completed m ps tid n text now).1.
Proof.
  unfold mark_completed. pose proof (finish_frame m tid Completed text) as Hf.
  destruct (finish m tid Completed text) as [[] m1]; [|done]. cbn [fst snd] in *. trans m1; [done|].
  apply upd_frame. unfold observe_gap. solve_evolves.
Qed.

Lemma report_progress_frame m tid a b : frame m (report_progress m tid a b).
Proof. apply upd_frame. unfold observe_gap. solve_evolves. Qed.

Lemma kill_frame m tid : frame m (kill_task m tid).2.
Proof. apply upd_task_frame. unfold with_status, with_flags. solve_evolves. Qed.

Lemma pause_frame m tid : frame m (pause_task m tid).2.
Proof. apply upd_task_frame. unfold with_status, with_flags. solve_evolves. Qed.

Lemma resume_frame m tid now : frame m (resume_task m tid now).2.
Proof. apply upd_task_frame. unfold with_status, with_flags, with_progress. solve_evolves. Qed.

Lemma expire_frame now m e : frame m (expire now m e).
Proof.
  unfold expire. destruct (tasks m !! e.1); [|done]. apply upd_frame. unfold with_status, with_flags.
  intros c. case_bool_decide as Hs; cbn [orb snd]; [reflexivity|]. destruct (_ <=? _); cbn [snd]; [reflexivity|].
  split; case_bool_decide; cbn; try done; intros Hl; destruct (status c); try done; exfalso; by apply Hs.
Qed.

Lemma watchdog_frame m now : frame m (watchdog m now).
Proof.
  unfold watchdog. generalize (expired m now). intros l. revert m. induction l as [|e l IH]; intros m; [done|].
  cbn. trans (expire now m e); [apply expire_frame|apply IH].
Qed.

Lemma visit_frame s n m tid : frame m (visit s (n, m) tid).2.
Proof.
  unfold visit. destruct (visited m s tid); [|done]. cbn [snd]. apply upd_frame. unfold with_flags. solve_evolves.
Qed.

(** ** Pruning *)

Lemma forget_all l m :
  let m' := fold_left forget l m in
  (forall tid, tasks m' !! tid = if decide (tid ∈ l) then None else tasks m !! tid) /\
  (forall tid, tid ∈ cancel_map m' <-> tid ∈ cancel_map m /\ tid ∉ l) /\
  cells m' = cells m /\ cancelled_scopes m' = cancelled_scopes m.
Proof.
  revert m. induction l as [|t l IH]; intros m; cbn [fold_left].
  - split_and!; [|set_solver|done|done]. intros tid. rewrite decide_False; [done|]. apply not_elem_of_nil.
  - destruct (IH (forget m t)) as (Ht & Hc & -> & ->). split_and!; [| |done|done].
    + intros tid. rewrite Ht. cbn [forget tasks]. destruct (decide (tid ∈ l)) as [Hin|Hout]; [by rewrite decide_True by by right|].
      destruct (decide (tid = t)) as [->|Hne]; [by rewrite lookup_delete_eq, decide_True by by left|].
      rewrite lookup_delete_ne by done. rewrite decide_False; [done|]. by intros [?|?]%elem_of_cons.
    + intros tid. rewrite Hc. cbn [forget cancel_map]. rewrite not_elem_of_cons. set_solver.
Qed.

Lemma finished_ids_perm m :
  finished_ids m ≡ₚ (List.filter (fun e => negb (live_task m e.1)) (map_to_list (tasks m))).*1.
Proof.
  unfold finished_ids. rewrite merge_sort_Permutation. rewrite <- list_fmap_compose. apply reflexive_eq.
  apply list_fmap_ext. by intros i [t r].
Qed.

Lemma finished_ids_elem m tid : tid ∈ finished_ids m <-> is_Some (tasks m !! tid) /\ live_task m tid = false.
Proof.
  rewrite finished_ids_perm, list_elem_of_fmap. split.
  - intros ([t r] & -> & [Hin Hl]%list_elem_of_In%filter_In). apply list_elem_of_In, elem_of_map_to_list in Hin.
    apply negb_true_iff in Hl. split; [by exists r|done].
  - intros [[r Hr] Hl]. exists (tid, r). split; [done|]. apply list_elem_of_In, filter_In.
    rewrite <- list_elem_of_In, elem_of_map_to_list. cbn. by rewrite Hl.
Qed.

Lemma finished_ids_NoDup m : NoDup (finished_ids m).
Proof. rewrite finished_ids_perm. apply NoDup_filter_fmap, NoDup_fst_map_to_list. Qed.

Lemma prune_forgets m : exists l, prune_finished m = fold_left forget l m /\ NoDup l /\ l ⊆ finished_ids m /\
  ((size (tasks m) - length l < MAX_TASK_RECORDS)%nat \/ finished_ids m ⊆ l).
Proof.
  unfold prune_finished. destruct (Nat.ltb_spec (size (tasks m)) MAX_TASK_RECORDS) as [Hlt|Hge].
  - exists []. split_and!; [done|apply NoDup_nil_2|set_solver|left; cbn; lia].
  - eexists. split; [done|]. set (k := (size (tasks m) + 1 - MAX_TASK_RECORDS)%nat). split_and!.
    + eapply sublist_NoDup; [|apply sublist_take]. apply finished_ids_NoDup.
    + intros x Hx. by eapply elem_of_take in Hx as (i & Hi & _); apply list_elem_of_lookup_2 in Hi.
    + destruct (decide (k <= length (finished_ids m))%nat) as [Hk|Hk].
      * left. rewrite length_take. subst k. unfold MAX_TASK_RECORDS in *. lia.
      * right. rewrite take_ge by lia. done.
Qed.

Lemma size_forget l m : NoDup l -> (forall t, t ∈ l -> is_Some (tasks m !! t)) ->
  size (tasks (fold_left forget l m)) = (size (tasks m) - length l)%nat.
Proof.
  revert m. induction l as [|t l IH]; intros m Hn Hl; cbn [fold_left length]; [lia|].
  apply NoDup_cons in Hn as [Ht Hn]. rewrite IH; [|done|].
  - cbn [forget tasks]. destruct (Hl t) as [r Hr]; [left|]. rewrite map_size_delete_Some by (by exists r). lia.
  - intros u Hu. cbn [forget tasks]. rewrite lookup_delete_ne by (intros ->; done). apply Hl. by right.
Qed.

(** Pruning keeps every live task, and whatever it keeps as it was. *)
Lemma prune_spec m :
  (forall tid r, tasks (prune_finished m) !! tid = Some r -> tasks m !! tid = Some r /\ (tid ∈ cancel_map m -> tid ∈ cancel_map (prune_finished m))) /\
  (forall tid, live_task m tid = true -> tasks (prune_finished m) !! tid = tasks m !! tid) /\
  cells (prune_finished m) = cells m /\ cancelled_scopes (prune_finished m) = cancelled_scopes m.
Proof.
  destruct (prune_forgets m) as (l & -> & _ & Hl & _). destruct (forget_all l m) as (Ht & Hc & -> & ->).
  split_and!; [| |done|done].
  - intros tid r. rewrite Ht, Hc. case_decide; [done|]. tauto.
  - intros tid Hlive. rewrite Ht, decide_False; [done|]. intros Hin%Hl%finished_ids_elem. by destruct Hin as [_ ?]; congruence.
Qed.

(** Registering never evicts a live task, and keeps the table within its bound as long as
    there are finished records to drop. *)
Theorem table_stays_bounded m bus ps lease tid n sc now :
  let m' := register_task_scoped m bus ps lease tid n sc now in
  (forall t r, t <> tid -> tasks m !! t = Some r -> live_task m t = true -> tasks m' !! t = Some r) /\
  ((size (tasks m') <= MAX_TASK_RECORDS)%nat \/
   forall t, t <> tid -> is_Some (tasks m' !! t) -> live_task m t = true).
Proof.
  cbn zeta. unfold register_task_scoped, insert_pause, insert_cancel, insert_task. cbn [tasks].
  destruct (prune_spec m) as (Hk & Hl & _). split.
  - intros t r Hne Ht Hlive. rewrite lookup_insert_ne by done. by rewrite (Hl t Hlive).
  - destruct (prune_forgets m) as (l & Hp & Hn & Hsub & Hb). rewrite Hp in *. destruct Hb as [Hb|Hall].
    + left. rewrite map_size_insert, size_forget; [|done|intros t Ht; by apply Hsub, finished_ids_elem in Ht as [? _]].
      destruct (tasks _ !! tid); cbn; lia.
    + right. intros t Hne. rewrite lookup_insert_ne by done. destruct (forget_all l m) as (Ht & _). rewrite Ht.
      case_decide as Hin; [by intros []|]. intros Hs. apply not_false_iff_true. intros Hf. apply Hin, Hall.
      by apply finished_ids_elem.
Qed.

(** ** Interleaving *)

(** What a step on a task does, whoever takes it. *)
Inductive works : SwarmTaskManager -> SwarmTaskManager -> Prop :=
| w_progress m tid now_ms now : works m (report_progress m tid now_ms now)
| w_completed m ps tid n text now : works m (mark_completed m ps tid n text now).1
| w_failed m tid text : works m (mark_failed m tid text)
| w_dropped m tid : works m (drop_handle m tid)
| w_kill m tid : works m (kill_task m tid).2
| w_pause m tid : works m (pause_task m tid).2
| w_resume m tid now : works m (resume_task m tid now).2
| w_watchdog m now e : works m (expire now m e).

Lemma works_frame m m' : works m m' -> frame m m'.
Proof.
  destruct 1.
  - apply report_progress_frame.
  - apply mark_completed_frame.
  - apply finish_frame.
  - apply finish_frame.
  - apply kill_frame.
  - apply pause_frame.
  - apply resume_frame.
  - apply expire_frame.
Qed.

(** A registration on its way: its flags are decided, its record is in the table, its cancel
    flag can be found. *)
Inductive Reg : Type :=
| Checked (r : TaskRecord) (flags : bool * TaskStatus)
| Inserted (r : TaskRecord)
| Cancellable (r : TaskRecord).
Definition reg_record (g : Reg) : TaskRecord := match g with Checked r _ | Inserted r | Cancellable r => r end.

(** The manager, the registrations and cancellations under way (a cancellation has still to
    visit the records that were there when it marked its scope), and, for the statement
    only, the tasks that were being registered when their scope was marked. *)
Record Sys : Type := mkSys {
  mgr : SwarmTaskManager;
  regs : gmap string Reg;
  cancels : list (string * gset string);
  raced : gset string;
}.
Definition Sys_new : Sys := mkSys SwarmTaskManager_new ∅ [] ∅.

(** The registrations of a scope under way. *)
Definition in_flight (g : gmap string Reg) (s : string) : gset string :=
  dom (filter (fun e => t_scope (reg_record e.2) = Some s) g).

Inductive step : Sys -> Sys -> Prop :=
| st_check y tid r bus : cells (mgr y) !! tid = None -> regs y !! tid = None ->
    step y (mkSys (mgr y) (<[tid := Checked r (initial_flags (mgr y) bus (t_scope r))]> (regs y)) (cancels y) (raced y))
| st_insert y tid r flags now : regs y !! tid = Some (Checked r flags) ->
    step y (mkSys (insert_task (mgr y) tid r (new_cells flags now)) (<[tid := Inserted r]> (regs y)) (cancels y) (raced y))
| st_cancellable y tid r : regs y !! tid = Some (Inserted r) ->
    step y (mkSys (insert_cancel (mgr y) tid) (<[tid := Cancellable r]> (regs y)) (cancels y) (raced y))
| st_registered y tid r : regs y !! tid = Some (Cancellable r) ->
    step y (mkSys (insert_pause (mgr y) tid) (delete tid (regs y)) (cancels y) (raced y))
| st_mark y s :
    step y (mkSys (mark_scope (mgr y) s) (regs y) ((s, dom (tasks (mgr y))) :: cancels y) (raced y ∪ in_flight (regs y) s))
| st_visit y l1 s must l2 tid : cancels y = l1 ++ (s, must) :: l2 ->
    step y (mkSys (visit s (0, mgr y) tid).2 (regs y) (l1 ++ (s, must ∖ {[tid]}) :: l2) (raced y))
| st_cancelled y l1 s must l2 : cancels y = l1 ++ (s, must) :: l2 -> must ∩ dom (tasks (mgr y)) = ∅ ->
    step y (mkSys (mgr y) (regs y) (l1 ++ l2) (raced y))
| st_work y m' : works (mgr y) m' -> step y (mkSys m' (regs y) (cancels y) (raced y)).

Inductive reachable : Sys -> Prop :=
| reach_new : reachable Sys_new
| reach_step y y' : reachable y -> step y y' -> reachable y'.

Definition flagged (m : SwarmTaskManager) (tid : string) : Prop := is_cancelled m tid = true.

(** What holds between any two steps. *)
Record inv (y : Sys) : Prop := {
  i_table tid r : tasks (mgr y) !! tid = Some r ->
    regs y !! tid = Some (Inserted r) \/ regs y !! tid = Some (Cancellable r) \/
    regs y !! tid = None /\ tid ∈ cancel_map (mgr y);
  i_fresh tid r fl : regs y !! tid = Some (Checked r fl) -> cells (mgr y) !! tid = None;
  i_cells tid r : regs y !! tid = Some (Inserted r) \/ regs y !! tid = Some (Cancellable r) -> is_Some (cells (mgr y) !! tid);
  i_checked tid r fl s : regs y !! tid = Some (Checked r fl) -> t_scope r = Some s -> s ∈ cancelled_scopes (mgr y) ->
    fl.1 = true \/ tid ∈ raced y;
  i_inserted tid r s : regs y !! tid = Some (Inserted r) \/ regs y !! tid = Some (Cancellable r) -> t_scope r = Some s ->
    s ∈ cancelled_scopes (mgr y) -> flagged (mgr y) tid \/ tid ∈ raced y;
  i_table_cells tid r : tasks (mgr y) !! tid = Some r -> is_Some (cells (mgr y) !! tid);
  i_done tid r s : tasks (mgr y) !! tid = Some r -> regs y !! tid = None -> t_scope r = Some s ->
    s ∈ cancelled_scopes (mgr y) -> live_task (mgr y) tid = true ->
    flagged (mgr y) tid \/ tid ∈ raced y \/ exists must, (s, must) ∈ cancels y /\ tid ∈ must;
  i_cancel tid r : regs y !! tid = Some (Cancellable r) -> is_Some (tasks (mgr y) !! tid) -> tid ∈ cancel_map (mgr y);
}.

Lemma frame_flagged m m' tid : frame m m' -> flagged m tid -> flagged m' tid.
Proof.
  intros Hf. unfold flagged, is_cancelled. destruct (cells m !! tid) as [c|] eqn:E; [|done]. intros Hc.
  destruct (fr_cells _ _ Hf _ _ E) as (c' & -> & He). by apply He.
Qed.

Lemma frame_live m m' tid : frame m m' -> live_task m' tid = true -> live_task m tid = true.
Proof.
  intros Hf. unfold live_task. destruct (cells m !! tid) as [c|] eqn:E.
  - destruct (fr_cells _ _ Hf _ _ E) as (c' & -> & He). by apply evolves_live.
  - by rewrite (fr_dom _ _ Hf _ E).
Qed.

Lemma frame_cells m m' tid : frame m m' -> is_Some (cells m !! tid) -> is_Some (cells m' !! tid).
Proof. intros Hf [c Hc]. destruct (fr_cells _ _ Hf _ _ Hc) as (c' & -> & _). done. Qed.

(** Steps on cells keep the invariant, whatever the pending cancellations become as long as
    they owe no less. *)
Lemma inv_frame y m' cs : frame (mgr y) m' -> inv y ->
  (forall tid r s must, (s, must) ∈ cancels y -> tid ∈ must -> tasks (mgr y) !! tid = Some r -> regs y !! tid = None ->
     t_scope r = Some s -> live_task m' tid = true -> flagged m' tid \/ exists must', (s, must') ∈ cs /\ tid ∈ must') ->
  inv (mkSys m' (regs y) cs (raced y)).
Proof.
  intros Hf [J1 J2 J3 J4 J5 J6 J7 J8] Hcs. pose proof Hf as [F1 F2 F3 F4 F5 F6].
  split; cbn [mgr regs cancels raced]; rewrite ?F1, ?F2, ?F4.
  - exact J1.
  - intros tid r fl H. by apply F6, (J2 _ _ _ H).
  - intros tid r H. by apply (frame_cells (mgr y)), (J3 _ _ H).
  - exact J4.
  - intros tid r s H1 H2 H3. destruct (J5 _ _ _ H1 H2 H3) as [?|?]; [left; by apply (frame_flagged (mgr y))|by right].
  - intros tid r H. by apply (frame_cells (mgr y)), (J6 _ _ H).
  - intros tid r s H1 H2 H3 H4 H5. destruct (J7 tid r s H1 H2 H3 H4) as [?|[?|(must & Hm & Hin)]].
    + by apply (frame_live (mgr y) m').
    + left. by apply (frame_flagged (mgr y)).
    + by right; left.
    + destruct (Hcs tid r s must Hm Hin H1 H2 H3 H5); [by left|by right; right].
  - exact J8.
Qed.

Lemma in_flight_elem g s tid : tid ∈ in_flight g s <-> exists r, g !! tid = Some r /\ t_scope (reg_record r) = Some s.
Proof.
  unfold in_flight. rewrite elem_of_dom. split.
  - intros [r (H1 & H2)%map_lookup_filter_Some]. by exists r.
  - intros (r & H1 & H2). exists r. by apply map_lookup_filter_Some.
Qed.

Lemma step_check y tid r bus : cells (mgr y) !! tid = None -> regs y !! tid = None -> inv y ->
  inv (mkSys (mgr y) (<[tid := Checked r (initial_flags (mgr y) bus (t_scope r))]> (regs y)) (cancels y) (raced y)).
Proof.
  intros Hc Hr [J1 J2 J3 J4 J5 J6 J7 J8].
  assert (tasks (mgr y) !! tid = None) as Ht.
  { destruct (tasks (mgr y) !! tid) as [x|] eqn:E; [|done]. apply J6 in E. rewrite Hc in E. by destruct E. }
  split; cbn [mgr regs cancels raced]; intros t.
  - intros x Hx. rewrite lookup_insert_ne by congruence. by apply J1.
  - intros x fl. destruct (decide (t = tid)) as [->|Hne]; [done|]. rewrite lookup_insert_ne by done. apply J2.
  - intros x. destruct (decide (t = tid)) as [->|Hne]; [rewrite lookup_insert_eq; by intros [?|?]|]. rewrite lookup_insert_ne by done. apply J3.
  - intros x fl s. destruct (decide (t = tid)) as [->|Hne]; [|rewrite lookup_insert_ne by done; apply J4].
    rewrite lookup_insert_eq. intros [= <- <-] Hs Hin. left. unfold initial_flags. cbn. rewrite Hs. by rewrite bool_decide_true.
  - intros x s. destruct (decide (t = tid)) as [->|Hne]; [rewrite lookup_insert_eq; by intros [?|?]|]. rewrite lookup_insert_ne by done. apply J5.
  - apply J6.
  - intros x s Hx Hg. rewrite lookup_insert_ne in Hg by congruence. by apply (J7 t x s).
  - intros x. destruct (decide (t = tid)) as [->|Hne]; [by rewrite lookup_insert_eq|]. rewrite lookup_insert_ne by done. apply J8.
Qed.

Lemma live_insert m tid r c t : t <> tid -> live_task (insert_task m tid r c) t = live_task m t.
Proof.
  intros Hne. unfold live_task, insert_task. cbn [cells]. rewrite lookup_insert_ne by done.
  by destruct (prune_spec m) as (_ & _ & -> & _).
Qed.
Lemma flagged_insert m tid r c t : t <> tid -> flagged (insert_task m tid r c) t <-> flagged m t.
Proof.
  intros Hne. unfold flagged, is_cancelled, insert_task. cbn [cells]. rewrite lookup_insert_ne by done.
  by destruct (prune_spec m) as (_ & _ & -> & _).
Qed.

Lemma step_insert y tid r flags now : regs y !! tid = Some (Checked r flags) -> inv y ->
  inv (mkSys (insert_task (mgr y) tid r (new_cells flags now)) (<[tid := Inserted r]> (regs y)) (cancels y) (raced y)).
Proof.
  intros Hr [J1 J2 J3 J4 J5 J6 J7 J8]. destruct (prune_spec (mgr y)) as (Pk & _ & Pc & Ps).
  assert (forall t x, t <> tid -> tasks (insert_task (mgr y) tid r (new_cells flags now)) !! t = Some x ->
    tasks (mgr y) !! t = Some x /\ (t ∈ cancel_map (mgr y) -> t ∈ cancel_map (prune_finished (mgr y)))) as Htask.
  { intros t x Hne. cbn [insert_task tasks]. rewrite lookup_insert_ne by done. apply Pk. }
  assert (forall t, t <> tid -> cells (insert_task (mgr y) tid r (new_cells flags now)) !! t = cells (mgr y) !! t) as Hcell.
  { intros t Hne. cbn [insert_task cells]. by rewrite lookup_insert_ne, Pc. }
  assert (cancelled_scopes (insert_task (mgr y) tid r (new_cells flags now)) = cancelled_scopes (mgr y)) as Hsc by done || (cbn; exact Ps).
  split; cbn [mgr regs cancels raced]; intros t; destruct (decide (t = tid)) as [->|Hne];
    rewrite ?lookup_insert_eq, ?(lookup_insert_ne _ tid t) by done; rewrite ?Hsc.
  - intros x. cbn [insert_task tasks]. rewrite lookup_insert_eq. intros [= <-]. by left.
  - intros x Hx. destruct (Htask t x Hne Hx) as [H1 H2]. destruct (J1 _ _ H1) as [?|[?|[? ?]]]; [by left|by right; left|right; right; auto].
  - done.
  - rewrite Hcell by done. apply J2.
  - intros x _. cbn [insert_task cells]. rewrite lookup_insert_eq. by eexists.
  - rewrite Hcell by done. apply J3.
  - done.
  - apply J4.
  - intros x s [[= <-]|?] H1 H2; [|done]. destruct (J4 _ _ _ _ Hr H1 H2) as [Hf|?]; [left|by right].
    unfold flagged, is_cancelled, insert_task. cbn [cells]. by rewrite lookup_insert_eq.
  - intros x s H1 H2 H3. rewrite flagged_insert by done. by eapply J5.
  - intros x _. cbn [insert_task cells]. rewrite lookup_insert_eq. by eexists.
  - intros x Hx. rewrite Hcell by done. destruct (Htask t x Hne Hx) as [H1 _]. by eapply J6.
  - done.
  - intros x s Hx Hg H1 H2. rewrite live_insert, flagged_insert by done. destruct (Htask t x Hne Hx) as [H3 _]. by eapply J7.
  - done.
  - intros x Hx [z Hz]. destruct (Htask t z Hne Hz) as [H1 H2]. apply H2. eapply J8; [done|by exists z].
Qed.

Lemma step_cancellable y tid r : regs y !! tid = Some (Inserted r) -> inv y ->
  inv (mkSys (insert_cancel (mgr y) tid) (<[tid := Cancellable r]> (regs y)) (cancels y) (raced y)).
Proof.
  intros Hr [J1 J2 J3 J4 J5 J6 J7 J8].
  assert (forall t, flagged (insert_cancel (mgr y) tid) t <-> flagged (mgr y) t) as Hfl by done.
  assert (forall t, live_task (insert_cancel (mgr y) tid) t = live_task (mgr y) t) as Hli by done.
  split; cbn [mgr regs cancels raced insert_cancel tasks cells cancelled_scopes cancel_map]; intros t;
    destruct (decide (t = tid)) as [->|Hne]; rewrite ?lookup_insert_eq, ?(lookup_insert_ne _ tid t) by done.
  - intros x Hx. right; left. destruct (J1 _ _ Hx) as [?|[?|[? _]]]; congruence.
  - intros x Hx. destruct (J1 _ _ Hx) as [?|[?|[? ?]]]; [by left|by right; left|right; right; set_solver].
  - done.
  - apply J2.
  - intros x _. eapply J3. by left.
  - apply J3.
  - done.
  - apply J4.
  - intros x s [?|[= <-]]; [done|]. apply J5. by left.
  - apply J5.
  - apply J6.
  - apply J6.
  - done.
  - apply J7.
  - set_solver.
  - intros x Hx Hz. specialize (J8 _ _ Hx Hz). set_solver.
Qed.

Lemma step_registered y tid r : regs y !! tid = Some (Cancellable r) -> inv y ->
  inv (mkSys (insert_pause (mgr y) tid) (delete tid (regs y)) (cancels y) (raced y)).
Proof.
  intros Hr [J1 J2 J3 J4 J5 J6 J7 J8].
  assert (forall t, flagged (insert_pause (mgr y) tid) t <-> flagged (mgr y) t) as Hfl by done.
  split; cbn [mgr regs cancels raced insert_pause tasks cells cancelled_scopes cancel_map]; intros t;
    destruct (decide (t = tid)) as [->|Hne]; rewrite ?lookup_delete_eq, ?(lookup_delete_ne _ tid t) by done.
  - intros x Hx. right; right. split; [done|]. eapply J8; [done|by exists x].
  - apply J1.
  - done.
  - apply J2.
  - by intros x [?|?].
  - apply J3.
  - done.
  - apply J4.
  - by intros x s [?|?].
  - apply J5.
  - apply J6.
  - apply J6.
  - intros x s Hx _ H1 H2 _. destruct (J1 _ _ Hx) as [?|[Hg|[? _]]]; [congruence| |congruence].
    destruct (J5 tid x s) as [?|?]; [by right|done|done|by left|by right; left].
  - apply J7.
  - done.
  - apply J8.
Qed.

Lemma step_mark y s : inv y ->
  inv (mkSys (mark_scope (mgr y) s) (regs y) ((s, dom (tasks (mgr y))) :: cancels y) (raced y ∪ in_flight (regs y) s)).
Proof.
  intros [J1 J2 J3 J4 J5 J6 J7 J8].
  assert (forall t g s', regs y !! t = Some g -> t_scope (reg_record g) = Some s' -> s' ∈ {[s]} ∪ cancelled_scopes (mgr y) ->
    s' ∈ cancelled_scopes (mgr y) \/ t ∈ in_flight (regs y) s) as Hs.
  { intros t g s' Hg Hsc [->%elem_of_singleton|?]%elem_of_union; [right|by left]. apply in_flight_elem. eauto. }
  split; cbn [mgr regs cancels raced mark_scope tasks cells cancelled_scopes cancel_map]; intros t.
  - apply J1.
  - apply J2.
  - apply J3.
  - intros x fl s' Hg Hsc Hin. destruct (Hs t _ s' Hg Hsc Hin) as [H1|H1]; [|right; set_solver].
    destruct (J4 _ _ _ _ Hg Hsc H1); [by left|right; set_solver].
  - intros x s' Hg Hsc Hin. assert (s' ∈ cancelled_scopes (mgr y) \/ t ∈ in_flight (regs y) s) as [H1|H1]
      by (destruct Hg as [Hg|Hg]; by eapply Hs).
    + destruct (J5 _ _ _ Hg Hsc H1); [by left|right; set_solver].
    + right; set_solver.
  - apply J6.
  - intros x s' Hx Hg Hsc Hin Hl. apply elem_of_union in Hin as [->%elem_of_singleton|Hin].
    + right; right. exists (dom (tasks (mgr y))). split; [left|]. apply elem_of_dom. by exists x.
    + destruct (J7 _ _ _ Hx Hg Hsc Hin Hl) as [?|[?|(must & ? & ?)]]; [by left|right; left; set_solver|].
      right; right. exists must. split; [by right|done].
  - apply J8.
Qed.

(** A visited live task of the scope is flagged. *)
Lemma visit_flags s m tid r : tasks m !! tid = Some r -> t_scope r = Some s -> tid ∈ cancel_map m ->
  is_Some (cells m !! tid) -> live_task m tid = true -> flagged (visit s (0, m) tid).2 tid.
Proof.
  intros Ht Hs Hc [c Hcell] Hl. unfold visit, visited. rewrite Ht, Hl.
  rewrite !bool_decide_true by done. cbn [andb snd]. unfold upd, flagged, is_cancelled. rewrite Hcell.
  cbn [snd set_cells cells]. by rewrite lookup_insert_eq.
Qed.

Lemma step_visit y l1 s must l2 tid : cancels y = l1 ++ (s, must) :: l2 -> inv y ->
  inv (mkSys (visit s (0, mgr y) tid).2 (regs y) (l1 ++ (s, must ∖ {[tid]}) :: l2) (raced y)).
Proof.
  intros Hc Hi. pose proof (visit_frame s 0 (mgr y) tid) as Hf. apply inv_frame; [exact Hf|done|].
  intros t r s' mt Hm Hin Ht Hg Hsc Hl. pose proof (frame_live _ _ _ Hf Hl) as Hlive.
  rewrite Hc in Hm. assert ((s', mt) ∈ l1 ++ l2 \/ s' = s /\ mt = must) as [Hother|[-> ->]].
  { apply elem_of_app in Hm as [?|[[= -> ->]|?]%elem_of_cons]; [left|by right|left]; set_solver. }
  - right. exists mt. split; [set_solver|done].
  - destruct (decide (t = tid)) as [->|Hne].
    + left. destruct (i_table _ Hi _ _ Ht) as [?|[?|[_ Hcm]]]; [congruence..|].
      by apply (visit_flags s (mgr y) tid r), Hlive; [..|apply (i_table_cells _ Hi _ _ Ht)].
    + right. exists (must ∖ {[tid]}). split; set_solver.
Qed.

Lemma step_cancelled y l1 s must l2 : cancels y = l1 ++ (s, must) :: l2 -> must ∩ dom (tasks (mgr y)) = ∅ -> inv y ->
  inv (mkSys (mgr y) (regs y) (l1 ++ l2) (raced y)).
Proof.
  intros Hc Hd Hi. apply inv_frame; [done|done|]. intros t r s' mt Hm Hin Ht _ _ _. rewrite Hc in Hm.
  apply elem_of_app in Hm as [?|[[= -> ->]|?]%elem_of_cons].
  - right. exists mt. split; [set_solver|done].
  - exfalso. assert (t ∈ dom (tasks (mgr y))) by (apply elem_of_dom; by exists r). set_solver.
  - right. exists mt. split; [set_solver|done].
Qed.

Lemma inv_new : inv Sys_new.
Proof. split; cbn; try done; intros; by destruct_or?. Qed.

Lemma sys_step_inv y y' : step y y' -> inv y -> inv y'.
Proof.
  destruct 1 as [y tid r bus|y tid r flags now|y tid r|y tid r|y s|y l1 s must l2 tid|y l1 s must l2|y m' Hw]; intros Hi.
  - by apply step_check.
  - by apply step_insert.
  - by apply (step_cancellable y tid r).
  - by apply (step_registered y tid r).
  - by apply step_mark.
  - by apply (step_visit y l1 s must l2).
  - by apply (step_cancelled y l1 s must l2).
  - apply inv_frame; [by apply works_frame|done|]. intros. right. eauto.
Qed.

Lemma sys_reachable_inv y : reachable y -> inv y.
Proof. induction 1 as [|y y' _ IH Hs]; [apply inv_new|by apply (sys_step_inv y)]. Qed.

(** When no cancellation of a scope is under way any more, every live task of a cancelled
    scope has its cancel flag raised, however registrations, cancellations and the tasks' own
    steps interleave; the only tasks that can escape are those that were being registered at
    the moment their scope was marked. *)
Theorem cancelled_scope_reaches_tasks y tid r s : reachable y ->
  tasks (mgr y) !! tid = Some r -> regs y !! tid = None -> t_scope r = Some s ->
  is_scope_cancelled (mgr y) s = true -> (forall must, (s, must) ∉ cancels y) -> live_task (mgr y) tid = true ->
  is_cancelled (mgr y) tid = true \/ tid ∈ raced y.
Proof.
  intros Hr Ht Hg Hs Hc Hnone Hl. apply sys_reachable_inv in Hr. apply bool_decide_eq_true in Hc.
  destruct (i_done _ Hr tid r s Ht Hg Hs Hc Hl) as [?|[?|(must & Hm & _)]]; [by left|by right|].
  by destruct (Hnone must).
Qed.

(** ** Outcomes *)

Lemma step_evolves y y' tid c : inv y -> step y y' -> cells (mgr y) !! tid = Some c ->
  exists c', cells (mgr y') !! tid = Some c' /\ evolves c c'.
Proof.
  intros Hi. destruct 1 as [y t r bus|y t r flags now Hr|y t r|y t r|y s|y l1 s must l2 t|y l1 s must l2|y m' Hw];
    intros Hc; cbn [mgr]; try (by exists c).
  - exists c. split; [|done]. cbn [insert_task cells]. destruct (prune_spec (mgr y)) as (_ & _ & -> & _).
    rewrite lookup_insert_ne; [done|]. intros ->. rewrite (i_fresh _ Hi _ _ _ Hr) in Hc. done.
  - by apply (visit_frame s 0 (mgr y) t).
  - by apply (works_frame (mgr y) m').
Qed.

(** The first outcome of a task is final: whatever workers, operators, registrations and
    the watchdog do afterwards, its status and its result stay, and a raised cancel flag is
    never lowered. *)
Theorem outcome_is_final y y' tid c : reachable y -> rtc step y y' -> cells (mgr y) !! tid = Some c ->
  exists c', cells (mgr y') !! tid = Some c' /\ (cancel_flag c = true -> cancel_flag c' = true) /\
    (is_live (status c) = false -> status c' = status c /\ t_result c' = t_result c).
Proof.
  intros Hr Hs. revert Hr c. induction Hs as [y|y y1 y' Hs1 Hs IH]; intros Hr c Hc; [by exists c|].
  destruct (step_evolves y y1 tid c (sys_reachable_inv y Hr) Hs1 Hc) as (c1 & Hc1 & Hev).
  destruct (IH (reach_step _ _ Hr Hs1) c1 Hc1) as (c' & Hc' & Hf & Ho). exists c'. split; [done|]. split.
  - intros H. by apply Hf, Hev.
  - intros H. destruct (ev_outcome _ _ Hev H) as [E1 E2]. rewrite <- E1, <- E2. apply Ho. by rewrite E1.
Qed.

(** ** The watchdog, task by task *)

Definition overdue (now : N) (r : TaskRecord) (c : Cells) : bool :=
  bool_decide (status c = Running) && (expected_idle_ms r <? idle_ms now c).
Definition stalled (m : SwarmTaskManager) (now : N) (tid : string) (r : TaskRecord) (c : Cells) : Cells :=
  let c' := with_status c Stalled (Some (lease_text (idle_ms now c) (expected_idle_ms r))) in
  if bool_decide (tid ∈ cancel_map m) then with_flags c' true (pause_flag c) else c'.

Lemma expire_other now m e tid : tid <> e.1 -> cells (expire now m e) !! tid = cells m !! tid.
Proof.
  intros Hne. unfold expire. destruct (tasks m !! e.1); [|done]. unfold upd. destruct (cells m !! e.1) as [c|]; [|done].
  case_match. cbn. by rewrite lookup_insert_ne.
Qed.

Lemma expire_all now l m tid : tid ∉ l.*1 -> cells (fold_left (expire now) l m) !! tid = cells m !! tid.
Proof.
  revert m. induction l as [|e l IH]; intros m; [done|]. rewrite fmap_cons. intros [He Hl]%not_elem_of_cons.
  cbn. by rewrite IH, expire_other.
Qed.

Lemma idle_bound now c : idle_ms now c <= u64_max.
Proof. unfold idle_ms, saturating_mul. lia. Qed.

Lemma overdue_finite now r c : overdue now r c = true -> (expected_idle_ms r =? u64_max) = false.
Proof.
  unfold overdue. intros [_ H%N.ltb_lt]%andb_true_iff. apply N.eqb_neq. pose proof (idle_bound now c). lia.
Qed.

Lemma expired_elem m now tid v : (tid, v) ∈ expired m now <->
  exists r c, tasks m !! tid = Some r /\ cells m !! tid = Some c /\ overdue now r c = true /\
    v = (idle_ms now c, expected_idle_ms r).
Proof.
  unfold expired. rewrite list_elem_of_omap. split.
  - intros ([t r] & Hin & Ho). apply elem_of_map_to_list in Hin. cbn in Ho.
    destruct (cells m !! t) as [c|] eqn:E; [|done]. destruct (_ && _) eqn:Eo; [|done]. injection Ho as <- <-.
    exists r, c. split_and!; try done. unfold overdue. apply andb_true_iff in Eo as [Eo ->]. by apply andb_true_iff in Eo as [-> _].
  - intros (r & c & Ht & Hc & Ho & ->). exists (tid, r). split; [by apply elem_of_map_to_list|]. cbn. rewrite Hc.
    rewrite (overdue_finite _ _ _ Ho). unfold overdue in Ho. apply andb_true_iff in Ho as [-> ->]. done.
Qed.

Lemma expired_NoDup m now : NoDup (expired m now).*1.
Proof.
  unfold expired. pose proof (NoDup_fst_map_to_list (tasks m)) as Hn. revert Hn.
  generalize (map_to_list (tasks m)). induction l as [|[t r] l IH]; [intros _; apply NoDup_nil_2|].
  rewrite fmap_cons. intros [Ht Hn]%NoDup_cons. cbn [omap list_omap fst]. specialize (IH Hn).
  destruct (cells m !! t) as [c|]; [|done]. destruct (_ && _); [|done]. rewrite fmap_cons. apply NoDup_cons. split; [|done].
  intros ([t' v] & Heq & Hin)%list_elem_of_fmap. cbn in Heq, Ht. subst t'. apply Ht. apply list_elem_of_omap in Hin as ([t2 r2] & Hin & Ho).
  cbn in Ho. destruct (cells m !! t2); [|done]. destruct (_ && _); [|done]. injection Ho as <- _.
  by apply (list_elem_of_fmap_2 fst) in Hin.
Qed.

Lemma expire_one now m tid r c : tasks m !! tid = Some r -> cells m !! tid = Some c -> overdue now r c = true ->
  cells (expire now m (tid, (idle_ms now c, expected_idle_ms r))) !! tid = Some (stalled m now tid r c).
Proof.
  intros Ht Hc Ho. unfold expire. cbn [fst snd]. rewrite Ht. unfold upd. rewrite Hc.
  unfold overdue in Ho. apply andb_true_iff in Ho as [Hs%bool_decide_eq_true Hi%N.ltb_lt].
  rewrite bool_decide_false by (by intros []). rewrite (proj2 (N.leb_gt _ _) Hi). cbn [orb snd set_cells cells].
  rewrite lookup_insert_eq. done.
Qed.

(** A tick of the watchdog stalls exactly the running tasks that showed no progress for
    longer than their lease, raises their flag, and touches nothing else; a task of a
    category that is not calibrated yet is never stalled. *)
Theorem watchdog_exact m now tid r c : tasks m !! tid = Some r -> cells m !! tid = Some c ->
  cells (watchdog m now) !! tid = Some (if overdue now r c then stalled m now tid r c else c) /\
  (expected_idle_ms r = u64_max -> overdue now r c = false).
Proof.
  intros Ht Hc. split.
  - unfold watchdog. destruct (overdue now r c) eqn:Ho.
    + assert ((tid, (idle_ms now c, expected_idle_ms r)) ∈ expired m now) as Hin by (apply expired_elem; eauto 6).
      pose proof (expired_NoDup m now) as Hn. apply list_elem_of_split in Hin as (l1 & l2 & Hl). rewrite Hl in Hn |- *.
      rewrite fmap_app, fmap_cons in Hn. apply NoDup_app in Hn as (_ & Hd & [Ht2 _]%NoDup_cons). cbn [fst] in *.
      rewrite fold_left_app. cbn [fold_left]. rewrite expire_all by done.
      assert (tid ∉ l1.*1) as Ht1 by (intros Hin; apply (Hd _ Hin); left).
      assert (frame m (fold_left (expire now) l1 m)) as Hf.
      { clear. revert m. induction l1 as [|e l IH]; intros m; [done|]. cbn. trans (expire now m e); [apply expire_frame|apply IH]. }
      rewrite (expire_one _ _ tid r c); [|by rewrite (fr_tasks _ _ Hf)|by rewrite expire_all|done].
      unfold stalled. by rewrite (fr_cancel _ _ Hf).
    + rewrite expire_all; [done|]. intros ([t v] & -> & Hin)%list_elem_of_fmap. cbn in *.
      apply expired_elem in Hin as (r' & c' & Ht' & Hc' & Ho' & _). congruence.
  - intros He. destruct (overdue now r c) eqn:Ho; [|done]. apply overdue_finite in Ho. rewrite He in Ho. done.
Qed.

(** ** Calibration *)

(** What has been observed of each category since it last entered the table. *)
Definition learn (acc : gmap string IntentTelemetryProfile * gmap string (list N)) (o : string * (N * N)) :
    gmap string IntentTelemetryProfile * gmap string (list N) :=
  let '(ps, seen) := acc in
  let '(cat, (elapsed, idle)) := o in
  let seen := filter (fun e => is_Some (make_room ps cat !! e.1)) seen in
  (record_execution_telemetry ps cat elapsed idle, <[cat := idle :: default [] (seen !! cat)]> seen).
Definition learn_all (os : list (string * (N * N))) : gmap string IntentTelemetryProfile * gmap string (list N) :=
  fold_left learn os (∅, ∅).

Lemma make_room_sub ps cat k p : make_room ps cat !! k = Some p -> ps !! k = Some p.
Proof.
  unfold make_room. destruct (_ && _); [|done]. destruct (least_sampled ps) as [v|]; [|done].
  by intros [_ ?]%lookup_delete_Some.
Qed.

Lemma least_sampled_Some ps : ps <> ∅ -> exists v p, least_sampled ps = Some v /\ ps !! v = Some p /\
  forall k q, ps !! k = Some q -> sample_count p <= sample_count q.
Proof.
  intros Hne. unfold least_sampled. pose proof (sort_by_key_perm (fun e => sample_count e.2) (btree_entries ps)) as Hp.
  pose proof (sort_by_key_sorted (fun e => sample_count e.2) (btree_entries ps)) as Hs.
  destruct (sort_by_key _ (btree_entries ps)) as [|[v p] l].
  - exfalso. apply Hne. apply map_empty. intros k. destruct (ps !! k) as [q|] eqn:E; [|done].
    apply btree_entries_In, list_elem_of_In in E. rewrite <- Hp in E. by apply not_elem_of_nil in E.
  - exists v, p. split; [done|]. split; [apply btree_entries_In, list_elem_of_In; rewrite <- Hp; left|].
    intros k q Hq. apply btree_entries_In, list_elem_of_In in Hq. rewrite <- Hp in Hq.
    apply elem_of_cons in Hq as [[= -> ->]|Hq]; [done|]. apply StronglySorted_inv in Hs as [_ Hs].
    rewrite List.Forall_forall in Hs. apply (Hs (k, q)). by apply list_elem_of_In.
Qed.

Lemma record_size ps cat e i : (size ps <= MAX_TELEMETRY_PROFILES)%nat ->
  (size (record_execution_telemetry ps cat e i) <= MAX_TELEMETRY_PROFILES)%nat.
Proof.
  intros Hs. unfold record_execution_telemetry. rewrite map_size_insert. unfold make_room.
  case_bool_decide as Hn; cbn [andb].
  - destruct (Nat.leb_spec MAX_TELEMETRY_PROFILES (size ps)) as [Hge|Hlt].
    + destruct (least_sampled_Some ps) as (v & p & -> & Hv & _).
      { intros ->. rewrite map_size_empty in Hge. unfold MAX_TELEMETRY_PROFILES in Hge. lia. }
      rewrite (proj2 (lookup_delete_None _ _ _)) by (by right). cbn. rewrite map_size_delete_Some by (by exists p).
      unfold MAX_TELEMETRY_PROFILES in *. lia.
    + rewrite Hn. cbn. unfold MAX_TELEMETRY_PROFILES in *. lia.
  - destruct (ps !! cat); [done|]. by destruct Hn.
Qed.

(** A profile stands for its observations. *)
Definition stands_for (p : IntentTelemetryProfile) (gaps : list N) : Prop :=
  sample_count p = N.of_nat (length gaps) /\ Forall (fun g => g <= p99_idle_interval_ms p) gaps.

Lemma observe_stands cat e i (p : option IntentTelemetryProfile) gaps : (N.of_nat (length gaps) < u64_max) ->
  match p with Some p => stands_for p gaps | None => gaps = [] end -> stands_for (observe cat e i p) (i :: gaps).
Proof.
  intros Hlen Hp. unfold observe, stands_for. cbn [sample_count p99_idle_interval_ms length].
  destruct p as [p|]; cbn [from_option Datatypes.id] in *.
  - destruct Hp as [Hc Hg]. rewrite wrapping_add_exact by (rewrite Hc; unfold u64_max in *; lia). split; [lia|].
    constructor; [lia|]. eapply Forall_impl; [exact Hg|]. cbn. lia.
  - subst gaps. split; [done|]. constructor; [lia|constructor].
Qed.

Lemma learn_stands os : (N.of_nat (length os) <= u64_max) ->
  let '(ps, seen) := learn_all os in
  (size ps <= MAX_TELEMETRY_PROFILES)%nat /\
  (forall cat, ps !! cat = None -> seen !! cat = None) /\
  (forall cat p, ps !! cat = Some p -> exists gaps, seen !! cat = Some gaps /\ stands_for p gaps /\ (length gaps <= length os)%nat).
Proof.
  unfold learn_all. induction os as [|[cat [e i]] os IH] using rev_ind; intros Hlen.
  { cbn. split; [unfold MAX_TELEMETRY_PROFILES; rewrite map_size_empty; lia|done]. }
  rewrite fold_left_app. cbn [fold_left]. rewrite length_app in Hlen. cbn [length] in Hlen.
  specialize (IH ltac:(lia)). destruct (fold_left learn os (∅, ∅)) as [ps seen]. destruct IH as (Hs & Hnone & Hsome).
  cbn [learn]. set (seen1 := filter _ seen).
  assert (forall k, make_room ps cat !! k = None -> seen1 !! k = None) as Hn1.
  { intros k Hk. apply map_lookup_filter_None. right. intros g Hg. cbn. rewrite Hk. by intros []. }
  assert (forall k p, make_room ps cat !! k = Some p -> exists gaps, seen1 !! k = Some gaps /\ stands_for p gaps /\ (length gaps <= length os)%nat) as Hs1.
  { intros k p Hk. pose proof (make_room_sub _ _ _ _ Hk) as Hk'. destruct (Hsome _ _ Hk') as (gaps & Hg & ?).
    exists gaps. split; [|done]. apply map_lookup_filter_Some. split; [done|]. cbn. by rewrite Hk. }
  split; [by apply record_size|]. rewrite length_app. cbn [length]. split; intros k; unfold record_execution_telemetry;
    (destruct (decide (k = cat)) as [->|Hne]; [rewrite !lookup_insert_eq|rewrite !lookup_insert_ne by done]).
  - done.
  - apply Hn1.
  - intros p [= <-]. eexists. split; [done|]. destruct (make_room ps cat !! cat) as [q|] eqn:E.
    + destruct (Hs1 _ _ E) as (gaps & -> & Hst & Hl). cbn [from_option Datatypes.id]. split; [|cbn; lia].
      apply observe_stands; [lia|done].
    + rewrite (Hn1 _ E). cbn [from_option Datatypes.id]. split; [|cbn; lia]. by apply observe_stands.
  - intros p Hp. destruct (Hs1 _ _ Hp) as (gaps & ? & ? & ?). exists gaps. split_and!; [done|done|lia].
Qed.

(** The lease of a category follows what was seen of it: none while there are fewer than
    three samples since it entered the table, and from then on at least five times every idle
    gap observed (and the configured floor); the table never holds more than its bound. *)
Theorem lease_covers_observed os lease_secs cat : N.of_nat (length os) <= u64_max ->
  let '(ps, seen) := learn_all os in
  let gaps := default [] (seen !! cat) in
  let threshold := get_idle_threshold_ms ps lease_secs cat in
  (size ps <= MAX_TELEMETRY_PROFILES)%nat /\
  ((length gaps < 3)%nat -> threshold = u64_max) /\
  ((3 <= length gaps)%nat -> saturating_mul lease_secs 1000 <= threshold /\
     forall g, g ∈ gaps -> N.min (5 * g) u64_max <= threshold).
Proof.
  intros Hlen. pose proof (learn_stands os Hlen) as H. destruct (learn_all os) as [ps seen].
  destruct H as (Hs & Hnone & Hsome). split; [done|]. unfold get_idle_threshold_ms.
  destruct (ps !! cat) as [p|] eqn:E.
  - destruct (Hsome _ _ E) as (gaps & -> & [Hc Hg] & _). cbn [from_option Datatypes.id]. rewrite Hc. split.
    + intros Hl. by rewrite (proj2 (N.ltb_lt _ _)) by lia.
    + intros Hl. rewrite (proj2 (N.ltb_ge _ _)) by lia. split; [lia|]. intros g Hin.
      rewrite Forall_forall in Hg. specialize (Hg g Hin). unfold saturating_mul. lia.
  - rewrite (Hnone _ E). cbn. split; [done|]. lia.
Qed.

(** ** Examples *)

Definition quiet : EmergencyStopBus := EmergencyStopBus_default.
Ltac take_step H t := eapply reach_step in H; [|t].
Definition rec_of (sc : string) : TaskRecord := mkRecord "exec_command" 0 u64_max (Some sc).

(** A registration that has read its scope as live, a cancellation of the scope from start
    to end, then the rest of the registration: the task runs on in the cancelled scope with
    its flag down. *)
Lemma registration_escapes_cancellation : exists y, reachable y /\ cancels y = [] /\ regs y = ∅ /\
  is_scope_cancelled (mgr y) "m1" = true /\ live_task (mgr y) "t" = true /\ is_cancelled (mgr y) "t" = false.
Proof.
  pose proof (reach_step _ _ reach_new (st_check Sys_new "t" (rec_of "m1") quiet eq_refl eq_refl)) as H.
  take_step H ltac:(apply (st_mark _ "m1")).
  take_step H ltac:(eapply (st_cancelled _ []); [reflexivity|by vm_compute]).
  take_step H ltac:(apply (st_insert _ "t" (rec_of "m1") (false, Running) 0); by vm_compute).
  take_step H ltac:(apply (st_cancellable _ "t" (rec_of "m1")); by vm_compute).
  take_step H ltac:(apply (st_registered _ "t" (rec_of "m1")); by vm_compute).
  eexists. split; [exact H|]. by vm_compute.
Qed.

(** ** Witnesses *)

(** A task registered, then its scope cancelled. *)
Lemma cancelled_scope_reaches_tasks_witness : exists y, reachable y /\ is_scope_cancelled (mgr y) "m1" = true /\
  (is_cancelled (mgr y) "t" = true \/ "t" ∈ raced y) /\ raced y = ∅.
Proof.
  pose proof (reach_step _ _ reach_new (st_check Sys_new "t" (rec_of "m1") quiet eq_refl eq_refl)) as H.
  take_step H ltac:(apply (st_insert _ "t" (rec_of "m1") (false, Running) 0); by vm_compute).
  take_step H ltac:(apply (st_cancellable _ "t" (rec_of "m1")); by vm_compute).
  take_step H ltac:(apply (st_registered _ "t" (rec_of "m1")); by vm_compute).
  take_step H ltac:(apply (st_mark _ "m1")).
  take_step H ltac:(eapply (st_visit _ [] "m1" _ [] "t"); reflexivity).
  take_step H ltac:(eapply (st_cancelled _ []); [reflexivity|by vm_compute]).
  eexists. split; [exact H|]. split; [by vm_compute|]. split; [|by vm_compute].
  apply (cancelled_scope_reaches_tasks _ "t" (rec_of "m1") "m1" H); [by vm_compute..| |by vm_compute].
  intros must. apply not_elem_of_nil.
Defined.

Definition one_task : SwarmTaskManager :=
  register_task_scoped SwarmTaskManager_new quiet ∅ 30 "t" "exec_command" None 100.
Definition overdue_task : SwarmTaskManager :=
  mkManager {["t" := mkRecord "exec_command" 100 5000 None]} {["t" := new_cells (false, Running) 100]} {["t"]} {["t"]} ∅.

Lemma outcome_is_final_witness : exists y y' c c', reachable y /\ rtc step y y' /\ cells (mgr y) !! "t" = Some c /\
  status c = Failed /\ cells (mgr y') !! "t" = Some c' /\ status c' = Failed.
Proof.
  pose proof (reach_step _ _ reach_new (st_check Sys_new "t" (rec_of "m1") quiet eq_refl eq_refl)) as H.
  take_step H ltac:(apply (st_insert _ "t" (rec_of "m1") (false, Running) 0); by vm_compute).
  take_step H ltac:(apply st_work, (w_failed _ "t" "no")).
  eexists _, _, _. assert (forall A (P : A -> Prop) a, P a -> exists x, P x) as Hex by eauto.
  match type of H with reachable ?y =>
    pose proof (outcome_is_final y (mkSys (kill_task (mgr y) "t").2 (regs y) (cancels y) (raced y)) "t"
      (with_status (new_cells (false, Running) 0) Failed (Some "no")) H
      (rtc_once _ _ (st_work _ _ (w_kill _ "t"))) ltac:(by vm_compute)) as (c' & Hc' & _ & Ho)
  end.
  exists c'. destruct (Ho eq_refl) as [Hs _]. split; [exact H|].
  split; [apply (rtc_once _ _ (st_work _ _ (w_kill _ "t")))|]. split; [by vm_compute|]. split; [done|]. by split.
Defined.

Lemma watchdog_exact_witness :
  cells (watchdog overdue_task 106) !! "t" = Some (stalled overdue_task 106 "t" (mkRecord "exec_command" 100 5000 None) (new_cells (false, Running) 100)).
Proof.
  exact (proj1 (watchdog_exact overdue_task 106 "t" (mkRecord "exec_command" 100 5000 None) (new_cells (false, Running) 100)
    ltac:(by vm_compute) ltac:(by vm_compute))).
Defined.

Lemma lease_covers_observed_witness :
  get_idle_threshold_ms (learn_all [("c", (10, 700)); ("c", (20, 300)); ("c", (30, 100))]).1 1 "c" = 3500 /\
  let '(ps, seen) := learn_all [("c", (10, 700)); ("c", (20, 300)); ("c", (30, 100))] in
  (size ps <= MAX_TELEMETRY_PROFILES)%nat.
Proof.
  split; [by vm_compute|].
  pose proof (lease_covers_observed [("c", (10, 700)); ("c", (20, 300)); ("c", (30, 100))] 1 "c" ltac:(by vm_compute)) as H.
  destruct (learn_all [("c", (10, 700)); ("c", (20, 300)); ("c", (30, 100))]) as [ps seen]. by destruct H as [H _].
Defined.
