(* ===== verification/Cancellation.v ===== *)
(** * Cancellation: from a mission to its descendants
    ([crates/susi-gawd-swarm/src/cancel_propagate.rs])

    [RuntimeState] is what the mutex of a [CancellationHandle] guards.  Cancelling tasks is
    the task manager's; what the handle relies on of it is class [ScopeManager], and the task
    manager of [TaskManager] is an instance.  Section [Handles] interleaves the clones of a
    handle: what a call does under the mutex is one step, and each cancellation of a scope it
    then asks the manager for is another.  [CancelBus] is the mission's side.  A wait is given
    by what it observed: [run_cancellable] and [wait_for_idle] are functions of the
    observations of their loops. *)

From S2P Require Import Prelude EmergencyStop TaskManager.

Local Open Scope string_scope.
Local Open Scope list_scope.
Local Open Scope N_scope.

(** ** The task manager, as the handle needs it *)

Class ScopeManager (M : Type) : Type := {
  cancel_in : M -> string -> M;
  cancelled_in : M -> string -> bool;
}.
Class ScopeLaws (M : Type) (S : ScopeManager M) : Prop := {
  cancel_takes : forall m s, cancelled_in (cancel_in m s) s = true;
  cancel_sticks : forall m s t, cancelled_in m s = true -> cancelled_in (cancel_in m t) s = true;
}.

#[export] Instance task_manager : ScopeManager SwarmTaskManager := {
  cancel_in m s := (TaskManager.cancel_scope m s).2;
  cancelled_in := TaskManager.is_scope_cancelled;
}.

Lemma cancel_scope_scopes m s : cancelled_scopes (TaskManager.cancel_scope m s).2 = {[s]} ∪ cancelled_scopes m.
Proof.
  unfold TaskManager.cancel_scope. change ({[s]} ∪ cancelled_scopes m) with (cancelled_scopes (mark_scope m s)).
  generalize (map_to_list (tasks m)).*1 as l. generalize 0 as n. generalize (mark_scope m s) as m0.
  intros m0 n l. revert n m0. induction l as [|t l IH]; intros n m0; [done|]. cbn [fold_left].
  pose proof (visit_frame s n m0 t) as Hf. destruct (visit s (n, m0) t) as [n' m']. rewrite IH.
  apply (fr_scopes _ _ Hf).
Qed.

#[export] Instance task_manager_laws : ScopeLaws SwarmTaskManager task_manager.
Proof.
  split; cbn; unfold is_scope_cancelled; intros; rewrite cancel_scope_scopes, bool_decide_eq_true in *; set_solver.
Qed.

(** ** The handle *)

Record RuntimeState : Type := mkRuntime {
  cancelled : bool;
  deadline_unix_ms : option N;
  active : N;
  scopes : gset string;
  unresolved_remotes : gmap string string;
}.
Definition RuntimeState_new : RuntimeState := mkRuntime false None 0 ∅ ∅.

Definition deadline_expired (deadline : option N) (now_ms : N) : bool :=
  match deadline with Some d => d <=? now_ms | None => false end.
Definition deadline_exceeded (st : RuntimeState) (now_ms : N) : bool := deadline_expired (deadline_unix_ms st) now_ms.
Definition should_stop (st : RuntimeState) (now_ms : N) : bool := cancelled st || deadline_exceeded st now_ms.

Definition set_deadline_unix_ms (st : RuntimeState) (d : N) : RuntimeState :=
  mkRuntime (cancelled st) (Some d) (active st) (scopes st) (unresolved_remotes st).
Definition set_deadline_unix_secs (st : RuntimeState) (d : N) : RuntimeState := set_deadline_unix_ms st (saturating_mul d 1000).
(** [with_deadline_after], at [now_ms]. *)
Definition with_deadline_after (millis now_ms : N) : RuntimeState :=
  set_deadline_unix_ms RuntimeState_new (saturating_add now_ms (N.min millis u64_max)).
Definition record_unresolved_remote (st : RuntimeState) (remote why : string) : RuntimeState :=
  mkRuntime (cancelled st) (deadline_unix_ms st) (active st) (scopes st) (<[remote := why]> (unresolved_remotes st)).

(** What [register_scope] and [cancel] do under the mutex, with the scopes they then ask the
    manager to cancel. *)
Definition register_scope (st : RuntimeState) (scope : string) (now_ms : N) : RuntimeState * list string :=
  (mkRuntime (cancelled st) (deadline_unix_ms st) (active st) ({[scope]} ∪ scopes st) (unresolved_remotes st),
   if should_stop st now_ms then [scope] else []).
Definition cancel (st : RuntimeState) : RuntimeState * list string :=
  (mkRuntime true (deadline_unix_ms st) (active st) (scopes st) (unresolved_remotes st), elements (scopes st)).

(** [try_begin] and the drop of its guard. *)
Definition try_begin (st : RuntimeState) (now_ms : N) : option RuntimeState :=
  if should_stop st now_ms then None
  else Some (mkRuntime (cancelled st) (deadline_unix_ms st) (wrapping_add (active st) 1) (scopes st) (unresolved_remotes st)).
Definition drop_guard (st : RuntimeState) : RuntimeState :=
  mkRuntime (cancelled st) (deadline_unix_ms st) (active st - 1) (scopes st) (unresolved_remotes st).

(** ** Waiting *)

Inductive CancellableResult (T : Type) : Type :=
| Completed_ (v : T)
| Cancelled
| DeadlineExceeded.
Arguments Completed_ {T} v.
Arguments Cancelled {T}.
Arguments DeadlineExceeded {T}.

(** One round of the loop of [run_cancellable]: what the channel gave, and what the handle
    said right after. *)
Inductive Recv (T : Type) : Type :=
| Value (v : T)
| Timeout
| Disconnected.
Arguments Value {T} v.
Arguments Timeout {T}.
Arguments Disconnected {T}.
Record Round (T : Type) : Type := mkRound {
  got : Recv T;
  saw_cancelled : bool;
  saw_deadline : bool;
}.
Arguments mkRound {T} got saw_cancelled saw_deadline.
Arguments got {T} r.
Arguments saw_cancelled {T} r.
Arguments saw_deadline {T} r.

Inductive CallError : Type :=
| SpawnFailed
| ExitedWithoutResult
| EmptyCommand
| PipeFailed.

(** The loop, over its rounds; [None] is a call that still waits. *)
Fixpoint run_loop {T} (rounds : list (Round T)) : option (result (CancellableResult T) CallError) :=
  match rounds with
  | [] => None
  | r :: rounds' =>
      match got r with
      | Value v =>
          Some (Ok (if saw_cancelled r then Cancelled else if saw_deadline r then DeadlineExceeded else Completed_ v))
      | Timeout =>
          if saw_cancelled r then Some (Ok Cancelled)
          else if saw_deadline r then Some (Ok DeadlineExceeded)
          else run_loop rounds'
      | Disconnected => Some (Err ExitedWithoutResult)
      end
  end.
(** [run_cancellable]: refused at the start, the handle is asked once more which refusal it
    was; [spawned] is whether the thread started. *)
Definition run_cancellable {T} (st : RuntimeState) (now_ms later_ms : N) (spawned : bool) (rounds : list (Round T)) :
    option (result (CancellableResult T) CallError) :=
  match try_begin st now_ms with
  | None => Some (Ok (if deadline_exceeded st later_ms then DeadlineExceeded else Cancelled))
  | Some _ => if spawned then run_loop rounds else Some (Err SpawnFailed)
  end.

(** The loop of [run_cancellable_command]: whether to stop, and what the child says. *)
Inductive Child : Type :=
| Exited (code : option Z)
| StillRunning
| WaitFailed.
(** The exit status it ends with, and whether the process group was terminated. *)
Fixpoint command_loop (rounds : list (bool * Child)) (reaped : option Z) : option (option Z * bool) :=
  match rounds with
  | [] => None
  | (stop, child) :: rounds' =>
      if stop then Some (reaped, true)
      else match child with
      | Exited code => Some (code, false)
      | StillRunning => command_loop rounds' reaped
      | WaitFailed => Some (reaped, true)
      end
  end.
Record ProcessOutput : Type := mkOutput {
  p_status : option Z;
  stdout : string;
  stderr : string;
}.
Definition run_cancellable_command (command : list string) (st : RuntimeState) (now_ms later_ms : N)
    (spawned : bool) (rounds : list (bool * Child)) (reaped : option Z) (end_cancelled end_deadline : bool) (out err : option string) :
    option (result (CancellableResult ProcessOutput) CallError) :=
  match command with
  | [] => Some (Err EmptyCommand)
  | _ =>
      match try_begin st now_ms with
      | None => Some (Ok (if deadline_exceeded st later_ms then DeadlineExceeded else Cancelled))
      | Some _ =>
          if negb spawned then Some (Err SpawnFailed)
          else match command_loop rounds reaped with
          | None => None
          | Some (code, _) =>
              Some (if end_cancelled then Ok Cancelled
                    else if end_deadline then Ok DeadlineExceeded
                    else match out, err with
                         | Some o, Some e => Ok (Completed_ (mkOutput code o e))
                         | _, _ => Err PipeFailed
                         end)
          end
      end
  end.

(** [wait_for_idle]: each round is whether time has run out and, if not, what the condition
    variable woke to: the count of operations, whether it timed out, and whether the mutex
    was poisoned, which only makes it look at the clock again. *)
Record Wake : Type := mkWake {
  out_of_time : bool;
  now_active : N;
  timed_out : bool;
  poisoned : bool;
}.
Fixpoint idle_loop (act : N) (wakes : list Wake) : option bool :=
  match wakes with
  | [] => None
  | w :: wakes' =>
      if out_of_time w then Some (act =? 0)
      else if poisoned w then idle_loop (now_active w) wakes'
      else if now_active w =? 0 then Some true
      else if timed_out w then Some false
      else idle_loop (now_active w) wakes'
  end.
Definition wait_for_idle (st : RuntimeState) (wakes : list Wake) : option bool :=
  if active st =? 0 then Some true else idle_loop (active st) wakes.

(** ** The token *)

Record CancelToken : Type := mkToken {
  root_id : string;
  deadline_unix : N;
  t_cancelled : bool;
}.
Definition fresh (root : string) (deadline : N) : CancelToken := mkToken root deadline false.
Definition remaining_secs (t : CancelToken) (now_unix : N) : option N :=
  if t_cancelled t || (deadline_unix t <=? now_unix) then None else Some (deadline_unix t - now_unix).
Definition cancel_token (t : CancelToken) : CancelToken := mkToken (root_id t) (deadline_unix t) true.

(** ** The bus of a mission *)

Inductive WorkerKind : Type :=
| Local
| ExternalAgent
| PeerDispatch
| ModelCall.
(** A descendant's signal is the number of a shared flag. *)
Record Descendant : Type := mkDescendant {
  d_id : string;
  kind : WorkerKind;
  cancellable : bool;
  d_scope : option string;
  signal : option N;
}.
Record CancelBus : Type := mkBus {
  token : option CancelToken;
  terminated : gset string;
  irreversible_running : gset string;
  termination_pending : gset string;
  descendants : gmap string Descendant;
  runtime : RuntimeState;
}.
Definition CancelBus_default : CancelBus := mkBus None ∅ ∅ ∅ ∅ RuntimeState_new.

Section Bus.
Context {M : Type} `{S : ScopeManager M}.

(** The bus, the flags that are raised, and the task manager. *)
Record World : Type := mkWorld {
  bus : CancelBus;
  raised : gset N;
  man : M;
}.

Definition set_runtime (b : CancelBus) (st : RuntimeState) : CancelBus :=
  mkBus (token b) (terminated b) (irreversible_running b) (termination_pending b) (descendants b) st.
Definition cancel_scopes (m : M) (l : list string) : M := fold_left cancel_in l m.
Definition raise_signal (r : gset N) (s : option N) : gset N := match s with Some n => {[n]} ∪ r | None => r end.

(** [CancelBus::register]; [later_ms] is the clock when the signal is considered. *)
Definition register (w : World) (d : Descendant) (now_ms later_ms : N) : World :=
  let b := bus w in
  let '(st, todo) :=
    if cancellable d then match d_scope d with Some s => register_scope (runtime b) s now_ms | None => (runtime b, []) end
    else (runtime b, []) in
  let r := if cancellable d && should_stop st later_ms then raise_signal (raised w) (signal d) else raised w in
  mkWorld (mkBus (token b) (terminated b) (irreversible_running b) (termination_pending b) (<[d_id d := d]> (descendants b)) st)
    r (cancel_scopes (man w) todo).

(** [CancelBus::set_token]. *)
Definition set_token (w : World) (t : CancelToken) : World :=
  let b := bus w in
  let st := set_deadline_unix_secs (runtime b) (deadline_unix t) in
  let '(st, todo) := if t_cancelled t then cancel st else (st, []) in
  mkWorld (mkBus (Some t) (terminated b) (irreversible_running b) (termination_pending b) (descendants b) st)
    (raised w) (cancel_scopes (man w) todo).

Definition unresolved_report (did : string) : string := "cancellable worker termination unresolved: " +:+ did.
Definition irreversible_report (did : string) : string := "irreversible remote job still running: " +:+ did.

(** What [propagate] does for one descendant. *)
Definition stop_one (quiesced : bool) (acc : list string * World) (d : Descendant) : list string * World :=
  let '(reports, w) := acc in
  let b := bus w in
  if cancellable d then
    let r := raise_signal (raised w) (signal d) in
    let m := match d_scope d with Some s => cancel_in (man w) s | None => man w end in
    if quiesced then
      (reports, mkWorld (mkBus (token b) ({[d_id d]} ∪ terminated b) (irreversible_running b)
         (termination_pending b ∖ {[d_id d]}) (descendants b) (runtime b)) r m)
    else
      (reports ++ [unresolved_report (d_id d)],
       mkWorld (mkBus (token b) (terminated b) (irreversible_running b)
         ({[d_id d]} ∪ termination_pending b) (descendants b) (runtime b)) r m)
  else
    (reports ++ [irreversible_report (d_id d)],
     mkWorld (mkBus (token b) (terminated b) ({[d_id d]} ∪ irreversible_running b) (termination_pending b) (descendants b) (runtime b))
       (raised w) (man w)).

(** [CancelBus::propagate]; [left] is the number of operations the wait ended with (see
    [wait_verdict]). *)
Definition propagate (w : World) (left : N) : list string * World :=
  let b := bus w in
  match token b with
  | None => ([], w)
  | Some t =>
      let '(st, todo) := cancel (runtime b) in
      let st := mkRuntime (cancelled st) (deadline_unix_ms st) left (scopes st) (unresolved_remotes st) in
      fold_left (stop_one (left =? 0)) (btree_values (descendants b))
        ([], mkWorld (mkBus (Some (cancel_token t)) (terminated b) (irreversible_running b) (termination_pending b) (descendants b) st)
               (raised w) (cancel_scopes (man w) todo))
  end.
End Bus.
Arguments World : clear implicits.

(** ** Waits tell the truth *)

(** The verdict of a wait is whether the last count it read was zero. *)
Lemma idle_loop_verdict act wakes b : idle_loop act wakes = Some b ->
  exists last, last ∈ act :: (now_active <$> wakes) /\ b = (last =? 0).
Proof.
  revert act. induction wakes as [|w wakes IH]; intros act; [done|]. cbn [idle_loop]. rewrite fmap_cons.
  destruct (out_of_time w); [intros [= <-]; exists act; split; [left|done]|].
  assert (idle_loop (now_active w) wakes = Some b -> exists last, last ∈ act :: now_active w :: (now_active <$> wakes) /\ b = (last =? 0)) as Hgo.
  { intros H. destruct (IH _ H) as (last & Hin & Hb). exists last. split; [by right|done]. }
  destruct (poisoned w); [exact Hgo|]. destruct (N.eqb_spec (now_active w) 0) as [E|E].
  - intros [= <-]. exists (now_active w). split; [right; left|]. by rewrite E.
  - destruct (timed_out w); [|exact Hgo]. intros [= <-]. exists (now_active w). split; [right; left|].
    symmetry. by apply N.eqb_neq.
Qed.

Lemma wait_verdict st wakes b : wait_for_idle st wakes = Some b ->
  exists last, last ∈ active st :: (now_active <$> wakes) /\ b = (last =? 0).
Proof.
  unfold wait_for_idle. destruct (N.eqb_spec (active st) 0) as [E|E]; [|apply idle_loop_verdict].
  intros [= <-]. exists (active st). split; [left|]. by rewrite E.
Qed.

(** Once time has run out the wait is over. *)
Lemma wait_ends st wakes : Exists (fun w => out_of_time w = true) wakes -> exists b, wait_for_idle st wakes = Some b.
Proof.
  unfold wait_for_idle. intros Hw. destruct (active st =? 0); [by eexists|]. generalize (active st) as act.
  induction Hw as [w wakes Hw|w wakes _ IH]; intros act; cbn [idle_loop].
  - rewrite Hw. by eexists.
  - destruct (out_of_time w); [by eexists|]. destruct (poisoned w); [apply IH|].
    destruct (now_active w =? 0); [by eexists|]. destruct (timed_out w); [by eexists|apply IH].
Qed.

(** A call never hands out a late result: it completes only with the value it received,
    at a moment when it saw neither a cancellation nor the deadline, and had seen neither
    before; a round that sees either one ends the call. *)
Theorem no_late_result {T} st now later spawned (rounds : list (Round T)) :
  (forall v, run_cancellable st now later spawned rounds = Some (Ok (Completed_ v)) ->
     should_stop st now = false /\
     exists l1 r l2, rounds = l1 ++ r :: l2 /\ got r = Value v /\ saw_cancelled r = false /\ saw_deadline r = false /\
       Forall (fun r => got r = Timeout /\ saw_cancelled r = false /\ saw_deadline r = false) l1) /\
  (Exists (fun r => saw_cancelled r || saw_deadline r = true) rounds -> is_Some (run_cancellable st now later spawned rounds)).
Proof.
  unfold run_cancellable, try_begin. destruct (should_stop st now) eqn:Es.
  { split; [intros v; by destruct (deadline_exceeded st later)|by eexists]. }
  destruct spawned; [|split; [done|by eexists]]. split.
  - intros v Hv. split; [done|]. induction rounds as [|r rounds IH]; [done|]. cbn [run_loop] in Hv.
    destruct (got r) as [x| |] eqn:Eg; [| |done]; destruct (saw_cancelled r) eqn:Ec; [done| |done|]; destruct (saw_deadline r) eqn:Ed; try done.
    + injection Hv as ->. exists [], r, rounds. by split_and!.
    + destruct (IH Hv) as (l1 & r' & l2 & -> & ? & ? & ? & Hl). exists (r :: l1), r', l2. split_and!; try done. by constructor.
  - intros He. induction He as [r rounds Hr|r rounds _ IH]; cbn [run_loop].
    + destruct (got r); try by eexists. destruct (saw_cancelled r); [by eexists|]. cbn in Hr. rewrite Hr. by eexists.
    + destruct (got r); try by eexists. destruct (saw_cancelled r); [by eexists|]. destruct (saw_deadline r); [by eexists|exact IH].
Qed.

(** ** The clones of a handle *)

Section Handles.
Context {M : Type} `{S : ScopeManager M} {L : ScopeLaws M S}.

(** The shared state, the manager, the cancellations asked of it and not done yet, and the
    guards that are alive. *)
Record Handles : Type := mkHandles {
  h_st : RuntimeState;
  h_man : M;
  h_todo : list string;
  guards : N;
}.

Inductive hstep : Handles -> Handles -> Prop :=
| hs_register h s now : let '(st, todo) := register_scope (h_st h) s now in
    hstep h (mkHandles st (h_man h) (h_todo h ++ todo) (guards h))
| hs_cancel h : let '(st, todo) := cancel (h_st h) in hstep h (mkHandles st (h_man h) (h_todo h ++ todo) (guards h))
| hs_do h l1 s l2 : h_todo h = l1 ++ s :: l2 -> hstep h (mkHandles (h_st h) (cancel_in (h_man h) s) (l1 ++ l2) (guards h))
| hs_deadline h d : hstep h (mkHandles (set_deadline_unix_ms (h_st h) d) (h_man h) (h_todo h) (guards h))
| hs_remote h r why : hstep h (mkHandles (record_unresolved_remote (h_st h) r why) (h_man h) (h_todo h) (guards h))
| hs_begin h now st : try_begin (h_st h) now = Some st -> guards h < u64_max ->
    hstep h (mkHandles st (h_man h) (h_todo h) (guards h + 1))
| hs_drop h : 0 < guards h -> hstep h (mkHandles (drop_guard (h_st h)) (h_man h) (h_todo h) (guards h - 1)).

Record hinv (h : Handles) : Prop := {
  hi_scopes s : cancelled (h_st h) = true -> s ∈ scopes (h_st h) -> s ∈ h_todo h \/ cancelled_in (h_man h) s = true;
  hi_active : active (h_st h) = guards h;
}.

Lemma hstep_inv h h' : hstep h h' -> hinv h -> hinv h'.
Proof.
  destruct 1 as [h s now|h|h l1 s l2 Ht|h d|h r why|h now st Hb Hg|h Hg]; intros [H1 H2]; split; cbn; try done.
  - intros t Hc Hin. unfold should_stop. rewrite Hc. cbn [orb]. apply elem_of_union in Hin as [->%elem_of_singleton|Hin].
    + left. set_solver.
    + destruct (H1 t Hc Hin); [left; set_solver|by right].
  - intros t _ Hin. left. apply elem_of_app. right. by apply elem_of_elements.
  - intros t Hc Hin. rewrite Ht in H1. destruct (decide (t = s)) as [->|Hne]; [right; apply cancel_takes|].
    destruct (H1 t Hc Hin) as [?|?]; [left; set_solver|right; by apply cancel_sticks].
  - unfold try_begin in Hb. destruct (should_stop _ _) eqn:Es; [done|]. injection Hb as <-. exact H1.
  - unfold try_begin in Hb. destruct (should_stop _ _) eqn:Es; [done|]. injection Hb as <-. cbn.
    rewrite H2. apply wrapping_add_exact. unfold u64_max in *. lia.
  - lia.
Qed.

(** However the clones of a handle interleave, once it is cancelled every scope
    registered with it, before or after, is cancelled in the task manager as soon as the
    calls under way have returned; no operation begins any more, and the count of active
    operations is exactly the number of guards alive. *)
Theorem cancelled_handle_cancels_scopes m h : rtc hstep (mkHandles RuntimeState_new m [] 0) h ->
  active (h_st h) = guards h /\
  (cancelled (h_st h) = true ->
     (forall now, try_begin (h_st h) now = None) /\
     (h_todo h = [] -> forall s, s ∈ scopes (h_st h) -> cancelled_in (h_man h) s = true)).
Proof.
  intros Hr. assert (hinv h) as [H1 H2].
  { revert Hr. apply (rtc_ind_r (fun h => hinv h)); [split; cbn; [done|done]|]. intros x y _ Hs Hi. by apply (hstep_inv x). }
  split; [done|]. intros Hc. split.
  - intros now. unfold try_begin, should_stop. by rewrite Hc.
  - intros Ht s Hin. destruct (H1 s Hc Hin) as [Hx|?]; [|done]. rewrite Ht in Hx. by apply not_elem_of_nil in Hx.
Qed.
End Handles.

(** ** Propagation *)

Section Propagation.
Context {M : Type} `{S : ScopeManager M} {L : ScopeLaws M S}.
Implicit Types (w : World M) (d : Descendant).

(** What a propagation does to a descendant it can stop. *)
Definition reached w d : Prop :=
  (forall n, signal d = Some n -> n ∈ raised w) /\
  (forall s, d_scope d = Some s -> cancelled_in (man w) s = true).

(** What holds of the flags and of the manager is never undone. *)
Record grows w w' : Prop := {
  gr_raised : raised w ⊆ raised w';
  gr_man s : cancelled_in (man w) s = true -> cancelled_in (man w') s = true;
}.
#[local] Instance grows_preorder : PreOrder grows.
Proof. split; [by split|]. intros a b c [? ?] [? ?]. split; [set_solver|auto]. Qed.

Lemma reached_grows w w' d : grows w w' -> reached w d -> reached w' d.
Proof. intros [Hr Hm] [H1 H2]. split; [set_solver|auto]. Qed.

Lemma cancel_scopes_spec m l s :
  cancelled_in m s = true \/ s ∈ l -> cancelled_in (cancel_scopes m l) s = true.
Proof.
  revert m. induction l as [|t l IH]; intros m Hs; cbn [cancel_scopes fold_left].
  - destruct Hs as [?|Hs]; [done|]. by apply not_elem_of_nil in Hs.
  - apply IH. destruct Hs as [?|[->|?]%elem_of_cons]; [left; by apply cancel_sticks|left; apply cancel_takes|by right].
Qed.

Lemma raise_signal_spec r s n : n ∈ raise_signal r s <-> n ∈ r \/ s = Some n.
Proof. destruct s; cbn; set_solver. Qed.

(** The identifiers of the descendants of a list that a test holds of. *)
Definition ids_of (p : Descendant -> bool) (l : list Descendant) : gset string := list_to_set (d_id <$> List.filter p l).
Lemma elem_of_ids_of p l i : i ∈ ids_of p l <-> exists d, In d l /\ p d = true /\ d_id d = i.
Proof.
  unfold ids_of. rewrite elem_of_list_to_set, list_elem_of_fmap.
  setoid_rewrite list_elem_of_In. setoid_rewrite filter_In. naive_solver.
Qed.
Lemma ids_of_cons p d l : ids_of p (d :: l) = (if p d then {[d_id d]} else ∅) ∪ ids_of p l.
Proof. unfold ids_of. cbn [List.filter]. destruct (p d); cbn; set_solver. Qed.

Definition report (quiesced : bool) (d : Descendant) : option string :=
  if cancellable d then if quiesced then None else Some (unresolved_report (d_id d)) else Some (irreversible_report (d_id d)).

Lemma stop_all_spec q l reps w :
  let w' := (fold_left (stop_one q) l (reps, w)).2 in
  grows w w' /\ runtime (bus w') = runtime (bus w) /\ descendants (bus w') = descendants (bus w) /\ token (bus w') = token (bus w) /\
  (forall d, In d l -> cancellable d = true -> reached w' d) /\
  terminated (bus w') = terminated (bus w) ∪ (if q then ids_of cancellable l else ∅) /\
  termination_pending (bus w') =
    (if q then termination_pending (bus w) ∖ ids_of cancellable l else termination_pending (bus w) ∪ ids_of cancellable l) /\
  irreversible_running (bus w') = irreversible_running (bus w) ∪ ids_of (negb ∘ cancellable) l /\
  (fold_left (stop_one q) l (reps, w)).1 = reps ++ omap (report q) l.
Proof.
  revert reps w. induction l as [|d l IH]; intros reps w.
  { cbn. unfold ids_of; cbn. rewrite app_nil_r. split_and!; try done; destruct q; set_solver. }
  cbn [fold_left]. destruct (stop_one q (reps, w) d) as [reps1 w1] eqn:E.
  assert (grows w w1 /\ (cancellable d = true -> reached w1 d)) as [Hg Hd].
  { unfold stop_one in E. destruct (cancellable d); [|injection E as <- <-; split; [by split|done]].
    destruct q; injection E as <- <-; (split; [split; cbn|split; cbn]).
    all: try (intros n Hn; apply raise_signal_spec; set_solver).
    all: intros s Hs; try (destruct (d_scope d); [by apply cancel_sticks|done]); rewrite Hs; apply cancel_takes. }
  destruct (IH reps1 w1) as (Hg1 & -> & -> & -> & Hl & -> & -> & -> & ->). rewrite !ids_of_cons.
  split; [by transitivity w1|]. cbn [omap list_omap]. unfold report at 2. cbn [compose].
  unfold stop_one in E. destruct (cancellable d) eqn:Ec; [destruct q|]; injection E as <- <-; cbn;
    (split_and!; [done..| | | | | ]).
  all: try (intros d' [<-|Hin] Hc; [apply (reached_grows _ _ _ Hg1), Hd; congruence|by apply Hl]).
  all: try (by rewrite <- ?app_assoc).
  all: clear; try set_solver.
  all: destruct q; set_solver.
Qed.

(** What [propagate] reports is what it saw: with a token, every descendant it could stop
    has its signal raised and its scope cancelled, counts as terminated exactly when no
    operation was left, and as pending otherwise; every other descendant counts as still
    running; and the reports are exactly the descendants that are not known to have ended. *)
Theorem propagate_is_honest w left t : token (bus w) = Some t ->
  let '(reports, w') := propagate w left in
  let all := btree_values (descendants (bus w)) in
  token (bus w') = Some (cancel_token t) /\ cancelled (runtime (bus w')) = true /\
  (forall d, In d all -> cancellable d = true -> reached w' d) /\
  (forall i, i ∈ terminated (bus w') <-> i ∈ terminated (bus w) \/ left = 0 /\ i ∈ ids_of cancellable all) /\
  (forall i, i ∈ termination_pending (bus w') <->
     if decide (i ∈ ids_of cancellable all) then left <> 0 else i ∈ termination_pending (bus w)) /\
  (forall i, i ∈ irreversible_running (bus w') <-> i ∈ irreversible_running (bus w) \/ i ∈ ids_of (negb ∘ cancellable) all) /\
  reports = omap (report (left =? 0)) all.
Proof.
  intros Ht. unfold propagate. rewrite Ht. destruct (cancel (runtime (bus w))) as [st todo] eqn:Ec.
  set (w1 := mkWorld _ _ _). pose proof (stop_all_spec (left =? 0) (btree_values (descendants (bus w))) [] w1) as Hs.
  destruct (fold_left _ _ _) as [reports w']. cbn in Hs. destruct Hs as (Hg & Hrt & Hd & Htok & Hl & -> & -> & -> & ->).
  rewrite Hrt, Htok. subst w1. cbn. injection Ec as <- <-. split_and!; try done; intros i; destruct (N.eqb_spec left 0).
  all: try (case_decide; set_solver). all: set_solver.
Qed.

(** ** A mission's bus and the clones of its handle *)

(** What happens to a bus: its own calls, and what the clones of its handle do. *)
Inductive bstep : World M -> World M -> Prop :=
| bs_register w d now later : bstep w (register w d now later)
| bs_token w t : bstep w (set_token w t)
| bs_propagate w left : left <= active (runtime (bus w)) -> bstep w (propagate w left).2
| bs_begin w now st : try_begin (runtime (bus w)) now = Some st -> bstep w (mkWorld (set_runtime (bus w) st) (raised w) (man w))
| bs_drop w : bstep w (mkWorld (set_runtime (bus w) (drop_guard (runtime (bus w)))) (raised w) (man w))
| bs_cancel w : let '(st, todo) := cancel (runtime (bus w)) in
    bstep w (mkWorld (set_runtime (bus w) st) (raised w) (cancel_scopes (man w) todo))
| bs_scope w s now : let '(st, todo) := register_scope (runtime (bus w)) s now in
    bstep w (mkWorld (set_runtime (bus w) st) (raised w) (cancel_scopes (man w) todo)).

Definition stopped w : Prop :=
  cancelled (runtime (bus w)) = true /\
  (forall k d, descendants (bus w) !! k = Some d -> cancellable d = true -> reached w d).

Lemma cancel_scopes_grows w b l : grows w (mkWorld b (raised w) (cancel_scopes (man w) l)).
Proof. split; cbn; [done|]. intros s Hs. apply cancel_scopes_spec. by left. Qed.

Lemma stopped_grows w w' : grows w w' -> cancelled (runtime (bus w')) = true ->
  descendants (bus w') = descendants (bus w) -> stopped w -> stopped w'.
Proof. intros Hg Hc Hd [_ H]. split; [done|]. intros k d. rewrite Hd. intros Hk Hk'. by apply (reached_grows w), (H k). Qed.

Lemma stopped_register w d now later : stopped w -> stopped (register w d now later).
Proof.
  intros [Hc H]. unfold register, register_scope, should_stop. destruct (cancellable d) eqn:Ec.
  - destruct (d_scope d) as [s|] eqn:Es; cbn; rewrite Hc; cbn; split; cbn; try done.
    all: intros k d' [[<- <-]|[_ Hk]]%lookup_insert_Some Hd'; [|apply (reached_grows w); [|by apply (H k)]].
    all: try (split; cbn; [intros n Hn; apply raise_signal_spec; auto|intros t; rewrite Es; intros [= <-]]).
    all: try (apply cancel_takes).
    all: split; cbn; [intros n Hn; apply raise_signal_spec; auto|]; try done; intros t Ht; by apply cancel_sticks.
  - cbn. split; cbn; [done|]. intros k d' [[<- <-]|[_ Hk]]%lookup_insert_Some Hd'; [congruence|].
    apply (reached_grows w); [by split|by apply (H k)].
Qed.

Lemma stopped_propagate w left : stopped w -> stopped (propagate w left).2.
Proof.
  intros H. unfold propagate. destruct (token (bus w)) as [t|]; [|done]. cbn.
  set (w1 := mkWorld _ _ _). assert (stopped w1) as [Hc1 H1].
  { apply (stopped_grows w); [apply cancel_scopes_grows|done..]. }
  destruct (stop_all_spec (left =? 0) (btree_values (descendants (bus w))) [] w1) as (Hg & Hr & Hd & _).
  apply (stopped_grows w1); [done|by rewrite Hr|done|by split].
Qed.

Lemma propagate_stops w left : token (bus w) <> None -> stopped (propagate w left).2.
Proof.
  intros Ht. destruct (token (bus w)) as [t|] eqn:Et; [|done]. pose proof (propagate_is_honest w left t Et) as Hp.
  assert (descendants (bus (propagate w left).2) = descendants (bus w)) as Hd.
  { unfold propagate. rewrite Et. cbn. set (w1 := mkWorld _ _ _). by destruct (stop_all_spec (left =? 0) (btree_values (descendants (bus w))) [] w1) as (_ & _ & -> & _). }
  destruct (propagate w left) as [reports w']. destruct Hp as (_ & Hc & Hl & _). split; [done|]. cbn in Hd |- *.
  rewrite Hd. intros k d Hk. apply Hl, btree_values_In. by exists k.
Qed.

Lemma bstep_stopped w w' : bstep w w' -> stopped w -> stopped w'.
Proof.
  destruct 1 as [w d now later|w t|w left Hle|w now st Hb|w|w|w s now]; intros Hs; [by apply stopped_register| |by apply stopped_propagate|..].
  - unfold set_token, cancel. destruct (t_cancelled t); cbn; apply (stopped_grows w); try done; try apply cancel_scopes_grows; apply Hs.
  - unfold try_begin, should_stop in Hb. destruct Hs as [Hc _]. by rewrite Hc in Hb.
  - apply (stopped_grows w); try done. apply Hs.
  - apply (stopped_grows w); try done; apply cancel_scopes_grows.
  - apply (stopped_grows w); try done; [apply cancel_scopes_grows|apply Hs].
Qed.

(** C40. After a propagation on a bus that has its token (without one it does nothing), no
    descendant of the mission escapes: whatever the bus and the clones of its handle do from
    then on, every cancellable descendant in its table, registered before or later, has its
    signal raised and its scope cancelled, and no operation begins. A descendant that
    another took the id of before the propagation is no longer in the table and is not
    signalled. *)
Theorem propagation_holds w left w' : token (bus w) <> None -> rtc bstep (propagate w left).2 w' ->
  (forall k d, descendants (bus w') !! k = Some d -> cancellable d = true -> reached w' d) /\
  (forall now, try_begin (runtime (bus w')) now = None).
Proof.
  intros Ht Hr. assert (stopped w') as [Hc H].
  { revert Hr. apply (rtc_ind_r stopped); [by apply propagate_stops|]. intros x y _ Hxy. by apply bstep_stopped. }
  split; [done|]. intros now. unfold try_begin, should_stop. by rewrite Hc.
Qed.

(** A worker counted as terminated is not also pending, and the count was of a quiet
    mission. *)
Record bus_inv w : Prop := {
  bi_disjoint : terminated (bus w) ## termination_pending (bus w);
  bi_quiet : terminated (bus w) <> ∅ -> cancelled (runtime (bus w)) = true /\ active (runtime (bus w)) = 0;
}.

Lemma propagate_inv w left : left <= active (runtime (bus w)) -> bus_inv w -> bus_inv (propagate w left).2.
Proof.
  intros Hle [H1 H2]. unfold propagate. destruct (token (bus w)) as [t|]; [|by split]. cbn.
  set (w1 := mkWorld _ _ _).
  destruct (stop_all_spec (left =? 0) (btree_values (descendants (bus w))) [] w1) as (_ & Hr & _ & _ & _ & Ht & Hp & _).
  split; rewrite ?Hr, Ht, ?Hp; subst w1; cbn.
  - destruct (N.eqb_spec left 0) as [E|E]; [set_solver|]. rewrite (right_id_L ∅ (∪)).
    destruct (decide (terminated (bus w) = ∅)) as [->|Hne]; [set_solver|]. destruct (H2 Hne) as [_ Ha]. lia.
  - intros Hne. split; [done|]. destruct (N.eqb_spec left 0) as [E|E]; [done|]. rewrite (right_id_L ∅ (∪)) in Hne.
    destruct (H2 Hne) as [_ Ha]. lia.
Qed.

Lemma bstep_inv w w' : bstep w w' -> bus_inv w -> bus_inv w'.
Proof.
  destruct 1 as [w d now later|w t|w left Hle|w now st Hb|w|w|w s now]; intros Hi; [| |by apply propagate_inv|..]; destruct Hi as [H1 H2].
  - unfold register, register_scope. destruct (cancellable d); [destruct (d_scope d)|]; by split.
  - unfold set_token, cancel. destruct (t_cancelled t); split; cbn; try done. intros Hne. by destruct (H2 Hne).
  - split; cbn; [done|]. intros Hne. destruct (H2 Hne) as [Hc _]. unfold try_begin, should_stop in Hb. by rewrite Hc in Hb.
  - split; cbn; [done|]. intros Hne. destruct (H2 Hne) as [Hc Ha]. split; [done|]. rewrite Ha. done.
  - split; cbn; [done|]. intros Hne. by destruct (H2 Hne).
  - by split.
Qed.

(** Whatever happened to the bus of a mission, no worker is both terminated and pending,
    and once some worker counts as terminated the mission is cancelled and quiet. *)
Theorem terminated_is_quiet m w : rtc bstep (mkWorld CancelBus_default ∅ m) w ->
  terminated (bus w) ## termination_pending (bus w) /\
  (terminated (bus w) <> ∅ -> cancelled (runtime (bus w)) = true /\ active (runtime (bus w)) = 0).
Proof.
  intros Hr. assert (bus_inv w) as [H1 H2]; [|done].
  revert Hr. apply (rtc_ind_r bus_inv); [by split|]. intros x y _ Hxy. by apply bstep_inv.
Qed.
End Propagation.

(** ** Concrete runs *)

Definition new_handles : Handles := mkHandles RuntimeState_new SwarmTaskManager_new [] 0.

Lemma cancelled_handle_cancels_scopes_witness :
  exists h, rtc hstep new_handles h /\ h_todo h = [] /\ cancelled_in (h_man h) "mission" = true /\ active (h_st h) = 1.
Proof.
  assert (exists h, rtc hstep new_handles h /\ h_todo h = [] /\ cancelled (h_st h) = true /\ bool_decide ("mission" ∈ scopes (h_st h)) = true /\ guards h = 1)
    as (h & Hr & Ht & Hc & Hin%bool_decide_eq_true & Hg).
  { eexists. split.
    - eapply rtc_l; [apply (hs_register _ "mission" 0)|]. eapply rtc_l; [apply (hs_begin _ 0); [reflexivity|reflexivity]|].
      eapply rtc_l; [apply hs_cancel|]. eapply rtc_l; [apply (hs_do _ [] "mission" []); reflexivity|]. apply rtc_refl.
    - split_and!; reflexivity. }
  exists h. destruct (cancelled_handle_cancels_scopes SwarmTaskManager_new h Hr) as [Ha H]. split_and!; try done.
  - by apply H.
  - by rewrite Ha.
Defined.

Definition local_worker : Descendant := mkDescendant "worker" Local true (Some "mission/worker") (Some 7).
Definition remote_job : Descendant := mkDescendant "remote" PeerDispatch false None None.
Definition mission0 : World SwarmTaskManager := mkWorld CancelBus_default ∅ SwarmTaskManager_new.
Definition mission1 : World SwarmTaskManager :=
  register (register (set_token mission0 (fresh "m" 100)) local_worker 0 0) remote_job 0 0.

Lemma propagate_is_honest_witness :
  (propagate mission1 0).1 = ["irreversible remote job still running: remote"] /\
  reached (propagate mission1 0).2 local_worker /\ "worker" ∈ terminated (bus (propagate mission1 0).2).
Proof.
  pose proof (propagate_is_honest mission1 0 (fresh "m" 100) eq_refl) as H.
  destruct (propagate mission1 0) as [reports w']. cbn [fst snd]. destruct H as (_ & _ & Hr & Ht & _ & _ & ->).
  split_and!; [by vm_compute|apply Hr; [vm_compute; by right; left|done]|]. apply Ht. right. split; [done|].
  apply elem_of_ids_of. exists local_worker. split_and!; [vm_compute; by right; left|done..].
Defined.

Lemma propagation_holds_witness :
  exists w' : World SwarmTaskManager, descendants (bus w') !! "late" = Some (mkDescendant "late" ModelCall true None (Some 9)) /\ 9 ∈ raised w'.
Proof.
  exists (register (propagate mission1 1).2 (mkDescendant "late" ModelCall true None (Some 9)) 0 0).
  assert (descendants (bus (register (propagate mission1 1).2 (mkDescendant "late" ModelCall true None (Some 9)) 0 0)) !! "late"
    = Some (mkDescendant "late" ModelCall true None (Some 9))) as Hd by reflexivity.
  split; [done|]. refine (proj1 (proj1 (propagation_holds mission1 1 _ _ _) "late" _ Hd eq_refl) 9 eq_refl); [done|].
  apply rtc_once, bs_register.
Defined.

Lemma terminated_is_quiet_witness :
  let w := (propagate mission1 0).2 in terminated (bus w) <> ∅ /\ cancelled (runtime (bus w)) = true.
Proof.
  intros w. assert (terminated (bus w) <> ∅) as Hne by (vm_compute; done). split; [done|].
  refine (proj1 (proj2 (terminated_is_quiet SwarmTaskManager_new w _) Hne)).
  eapply rtc_l; [apply (bs_token _ (fresh "m" 100))|]. eapply rtc_l; [apply (bs_register _ local_worker 0 0)|].
  eapply rtc_l; [apply (bs_register _ remote_job 0 0)|]. apply rtc_once, (bs_propagate mission1 0). done.
Defined.

(** A call that completes, and one that is cut short. *)
Example no_late_result_runs :
  run_cancellable RuntimeState_new 0 0 true [mkRound Timeout false false; mkRound (Value 42) false false] = Some (Ok (Completed_ 42)) /\
  run_cancellable RuntimeState_new 0 0 true [mkRound (Value 42) true false] = Some (Ok Cancelled).
Proof. done. Qed.

(** A token that arrives cancelled cancels the handle and its scopes, but does not raise the
    signals of the descendants already registered, as does the cancellation of a clone: only
    [propagate] and [register] do. *)
Lemma cancelled_token_raises_no_signal :
  let w := set_token (register mission0 local_worker 0 0) (mkToken "m" 100 true) in
  cancelled (runtime (bus w)) = true /\ cancelled_in (man w) "mission/worker" = true /\ 7 ∉ raised w.
Proof. split; [done|]. split; [done|]. by refine (proj1 (bool_decide_eq_false _) _). Qed.

(** Refused at the start, a call that is both cancelled and late is reported late; cut short
    in its loop, cancelled. *)
Lemma refusals_disagree :
  let st := (cancel (set_deadline_unix_ms RuntimeState_new 5)).1 in
  run_cancellable (T := N) st 9 9 true [mkRound Timeout true true] = Some (Ok DeadlineExceeded) /\
  run_cancellable (T := N) RuntimeState_new 9 9 true [mkRound Timeout true true] = Some (Ok Cancelled).
Proof. done. Qed.
