(* ===== verification/WorkerRecovery.v ===== *)
(** * WorkerRecovery: fenced ownership of jobs
    ([crates/susi-gawd-swarm/src/worker_recovery.rs])

    [Jobs] is the map the mutex guards, and every call one step on it: [Op] lists the calls
    and [apply] says what each answers.  [JobLedger] adds the file: [persist] writes the whole
    map after each change and ignores whether that worked, so how a write ended is an
    argument.  serde_json is an argument too. *)

From S2P Require Import Prelude.

Local Open Scope string_scope.
Local Open Scope list_scope.
Local Open Scope N_scope.

(** ** Assignments *)

Inductive JobState : Type :=
| Assigned
| Running
| Completed
| Failed (why : string)
| Cancelled
| AwaitingModel.
#[export] Instance JobState_eq_dec : EqDecision JobState.
Proof. solve_decision. Defined.

Record Receipt : Type := mkReceipt {
  effect : string;
  r_fence : N;
}.
Record Assignment : Type := mkAssignment {
  job_id : string;
  worker : string;
  model : string;
  worktree : string;
  lease_until : N;
  state : JobState;
  fence : N;
  receipts : list Receipt;
  partial_edits : list string;
  progress : string;
}.
Inductive FenceError : Type :=
| Stale
| Terminal
| Missing.

Notation Jobs := (gmap string Assignment).

(** [matches!(a.state, Completed | Failed(_) | Cancelled)]. *)
Definition is_terminal (s : JobState) : bool :=
  match s with Completed | Failed _ | Cancelled => true | _ => false end.

Definition with_state (a : Assignment) (s : JobState) : Assignment :=
  mkAssignment (job_id a) (worker a) (model a) (worktree a) (lease_until a) s (fence a) (receipts a) (partial_edits a) (progress a).
Definition with_receipt (a : Assignment) (r : Receipt) : Assignment :=
  mkAssignment (job_id a) (worker a) (model a) (worktree a) (lease_until a) (state a) (fence a) (receipts a ++ [r]) (partial_edits a) (progress a).
Definition with_edits (a : Assignment) (edits : list string) : Assignment :=
  mkAssignment (job_id a) (worker a) (model a) (worktree a) (lease_until a) (state a) (fence a) (receipts a) edits (progress a).
Definition with_progress (a : Assignment) (note : string) : Assignment :=
  mkAssignment (job_id a) (worker a) (model a) (worktree a) (lease_until a) (state a) (fence a) (receipts a) (partial_edits a) note.
Definition with_lease (a : Assignment) (until : N) : Assignment :=
  mkAssignment (job_id a) (worker a) (model a) (worktree a) until (state a) (fence a) (receipts a) (partial_edits a) (progress a).

(** ** Operations *)

Record Assign : Type := mkAssign {
  as_job : string;
  as_worker : string;
  as_model : string;
  as_worktree : string;
  as_lease : N;
}.
Definition assign (st : Jobs) (a : Assign) : N * Jobs :=
  (1, <[as_job a := mkAssignment (as_job a) (as_worker a) (as_model a) (as_worktree a) (as_lease a) Assigned 1 [] [] ""]> st).

Definition fenced (st : Jobs) (job : string) (f : N) : result Assignment FenceError :=
  match st !! job with
  | None => Err Missing
  | Some a => if negb (fence a =? f) then Err Stale else if is_terminal (state a) then Err Terminal else Ok a
  end.

(** A fenced change: the assignment is changed when the fence is current and the job live. *)
Definition fenced_change (st : Jobs) (job : string) (f : N) (change : Assignment -> Assignment) : result unit FenceError * Jobs :=
  match fenced st job f with
  | Ok a => (Ok tt, <[job := change a]> st)
  | Err e => (Err e, st)
  end.
Definition heartbeat (st : Jobs) (job : string) (f new_lease_until : N) : result N FenceError * Jobs :=
  match fenced_change st job f (fun a => with_lease (with_state a Running) new_lease_until) with
  | (Ok _, st) => (Ok new_lease_until, st)
  | (Err e, st) => (Err e, st)
  end.
Definition record_receipt (st : Jobs) (job : string) (f : N) (what : string) : result unit FenceError * Jobs :=
  fenced_change st job f (fun a => with_receipt a (mkReceipt what f)).
Definition record_terminal_receipt (st : Jobs) (job : string) (f : N) (what : string) : result unit FenceError * Jobs :=
  match st !! job with
  | None => (Err Missing, st)
  | Some a =>
      if negb (fence a =? f) then (Err Stale, st)
      else if negb (bool_decide (state a = Completed)) then (Err Terminal, st)
      else (Ok tt, <[job := with_receipt a (mkReceipt what f)]> st)
  end.
Definition checkpoint (st : Jobs) (job : string) (f : N) (edits : list string) : result unit FenceError * Jobs :=
  fenced_change st job f (fun a => with_edits a edits).
Definition note_progress (st : Jobs) (job : string) (f : N) (note : string) : result unit FenceError * Jobs :=
  fenced_change st job f (fun a => with_progress a note).
Definition complete (st : Jobs) (job : string) (f : N) : result unit FenceError * Jobs :=
  fenced_change st job f (fun a => with_state a Completed).
Definition fail (st : Jobs) (job : string) (f : N) (why : string) : result unit FenceError * Jobs :=
  fenced_change st job f (fun a => with_state a (Failed why)).
Definition cancel (st : Jobs) (job : string) : Jobs :=
  match st !! job with
  | Some a => <[job := with_state a Cancelled]> st
  | None => st
  end.

(** [reap_expired], at [now]. *)
Definition lapsed (now : N) (a : Assignment) : bool :=
  match state a with Running | Assigned => lease_until a <=? now | _ => false end.
Definition reap_one (now : N) (a : Assignment) : Assignment := if lapsed now a then with_state a AwaitingModel else a.
Definition reap_expired (st : Jobs) (now : N) : list string * Jobs :=
  ((List.filter (fun e => lapsed now e.2) (btree_entries st)).*1, reap_one now <$> st).

Definition reassignable (s : JobState) : bool := match s with AwaitingModel | Failed _ => true | _ => false end.
Definition reassign (st : Jobs) (job new_worker new_model : string) (new_lease_until : N) : option N * Jobs :=
  match st !! job with
  | None => (None, st)
  | Some a =>
      if reassignable (state a) then
        let f := wrapping_add (fence a) 1 in
        (Some f, <[job := mkAssignment (job_id a) new_worker new_model (worktree a) new_lease_until Assigned f
                    (receipts a) (partial_edits a) (progress a)]> st)
      else (None, st)
  end.

Definition awaiting (st : Jobs) : list Assignment :=
  List.filter (fun a => bool_decide (state a = AwaitingModel)) (btree_values st).
Definition all (st : Jobs) : list Assignment := btree_values st.
Definition live (st : Jobs) : list Assignment := List.filter (fun a => negb (is_terminal (state a))) (btree_values st).

(** ** The calls, and the file *)

Inductive Op : Type :=
| OAssign (a : Assign)
| OHeartbeat (job : string) (f until : N)
| OReceipt (job : string) (f : N) (what : string)
| OTerminalReceipt (job : string) (f : N) (what : string)
| OCheckpoint (job : string) (f : N) (edits : list string)
| OProgress (job : string) (f : N) (note : string)
| OComplete (job : string) (f : N)
| OFail (job : string) (f : N) (why : string)
| OCancel (job : string)
| OReap (now : N)
| OReassign (job new_worker new_model : string) (until : N).

Inductive Answer : Type :=
| Fence (f : option N)
| Lease (r : result N FenceError)
| Done (r : result unit FenceError)
| Dead (ids : list string)
| Nothing.

Definition apply (st : Jobs) (op : Op) : Answer * Jobs :=
  match op with
  | OAssign a => let '(f, st) := assign st a in (Fence (Some f), st)
  | OHeartbeat job f until => let '(r, st) := heartbeat st job f until in (Lease r, st)
  | OReceipt job f what => let '(r, st) := record_receipt st job f what in (Done r, st)
  | OTerminalReceipt job f what => let '(r, st) := record_terminal_receipt st job f what in (Done r, st)
  | OCheckpoint job f edits => let '(r, st) := checkpoint st job f edits in (Done r, st)
  | OProgress job f note => let '(r, st) := note_progress st job f note in (Done r, st)
  | OComplete job f => let '(r, st) := complete st job f in (Done r, st)
  | OFail job f why => let '(r, st) := fail st job f why in (Done r, st)
  | OCancel job => (Nothing, cancel st job)
  | OReap now => let '(ids, st) := reap_expired st now in (Dead ids, st)
  | OReassign job w m until => let '(r, st) := reassign st job w m until in (Fence r, st)
  end.
Definition run (st : Jobs) (ops : list Op) : Jobs := fold_left (fun st op => (apply st op).2) ops st.

(** Whether a call writes the file, by what it answered. *)
Definition persists (a : Answer) : bool :=
  match a with
  | Fence None | Lease (Err _) | Done (Err _) | Dead [] => false
  | _ => true
  end.

(** How a write ended: it was made, the file could not be touched, or part of it was left. *)
Inductive WriteEnd (T : Type) : Type :=
| Written
| Untouched
| Torn (text : T).
Arguments Written {T}.
Arguments Untouched {T}.
Arguments Torn {T} text.

Section File.
Context {T : Type} (to_string : Jobs -> option T) (from_str : T -> option Jobs).

Record JobLedger : Type := mkLedger {
  jobs : Jobs;
  has_path : bool;
  file : option T;
}.
Definition persist (l : JobLedger) (st : Jobs) (how : WriteEnd T) : option T :=
  if has_path l then
    match to_string st with
    | None => file l
    | Some body => match how with Written => Some body | Untouched => file l | Torn text => Some text end
    end
  else file l.
(** [persisted]: a ledger loaded from its path; an unreadable or corrupt file is an empty
    ledger. *)
Definition load (on_disk : option T) : Jobs := default ∅ (on_disk ≫= from_str).
Definition persisted (on_disk : option T) : JobLedger := mkLedger (load on_disk) true on_disk.
Definition call (l : JobLedger) (op : Op) (how : WriteEnd T) : Answer * JobLedger :=
  let '(a, st) := apply (jobs l) op in
  (a, mkLedger st (has_path l) (if persists a then persist l st how else file l)).
Definition calls (l : JobLedger) (ops : list (Op * WriteEnd T)) : JobLedger := fold_left (fun l c => (call l c.1 c.2).2) ops l.
End File.
Arguments JobLedger : clear implicits.

(** [assign_fences] of [agent_integration.rs]: a fence per claimed task. *)
Definition assign_fences (st : Jobs) (claimed : list (string * string * string)) (until : N) : gmap string N * Jobs :=
  fold_left (fun acc c =>
    let '(task, w, tree) := c in
    let '(f, st) := assign acc.2 (mkAssign task w "" tree until) in
    (<[task := f]> acc.1, st)) claimed (∅, st).

(** ** One job over a history *)

(** The job a call is for, and the fence it presents. *)
Definition target (op : Op) : option string :=
  match op with
  | OAssign a => Some (as_job a)
  | OHeartbeat job _ _ | OReceipt job _ _ | OTerminalReceipt job _ _ | OCheckpoint job _ _ | OProgress job _ _
  | OComplete job _ | OFail job _ _ | OCancel job | OReassign job _ _ _ => Some job
  | OReap _ => None
  end.
Definition presents (op : Op) : option (string * N) :=
  match op with
  | OHeartbeat job f _ | OReceipt job f _ | OTerminalReceipt job f _ | OCheckpoint job f _ | OProgress job f _
  | OComplete job f | OFail job f _ => Some (job, f)
  | _ => None
  end.
Definition starts_over (job : string) (op : Op) : bool :=
  match op with OAssign a => bool_decide (as_job a = job) | _ => false end.
Definition refused (a : Answer) (e : FenceError) : Prop := a = Lease (Err e) \/ a = Done (Err e).

(** What one call can do to an assignment, short of starting it over. *)
Record evolves (a a' : Assignment) : Prop := {
  ev_receipts : receipts a `prefix_of` receipts a';
  ev_fence : fence a' = fence a \/
    fence a' = wrapping_add (fence a) 1 /\ reassignable (state a) = true /\ state a' = Assigned;
  ev_completed : state a = Completed -> state a' = Completed \/ state a' = Cancelled;
  ev_cancelled : state a = Cancelled -> state a' = Cancelled;
}.

Lemma evolves_refl a : evolves a a.
Proof. split; auto. Qed.

Lemma fenced_Ok st job f a : fenced st job f = Ok a -> st !! job = Some a /\ fence a = f /\ is_terminal (state a) = false.
Proof.
  unfold fenced. destruct (st !! job) as [b|]; [|done]. destruct (N.eqb_spec (fence b) f); [|done].
  cbn. destruct (is_terminal (state b)) eqn:E; [done|]. by intros [= <-].
Qed.

Lemma fenced_change_at st job f change j a : st !! j = Some a ->
  (forall b, is_terminal (state b) = false -> evolves b (change b)) ->
  exists a', (fenced_change st job f change).2 !! j = Some a' /\ evolves a a'.
Proof.
  intros Ha Hc. unfold fenced_change. destruct (fenced st job f) as [b|e] eqn:E; [|exists a; split; [done|apply evolves_refl]].
  apply fenced_Ok in E as (Hb & _ & Ht). cbn. destruct (decide (j = job)) as [->|Hne].
  - exists (change b). rewrite lookup_insert_eq. split; [done|]. replace a with b by congruence. auto.
  - exists a. rewrite lookup_insert_ne by done. split; [done|apply evolves_refl].
Qed.

Ltac evolve := split; cbn; auto; try (by eexists); intros E; rewrite E in *; done.

Lemma apply_evolves st op j a : st !! j = Some a -> starts_over j op = false ->
  exists a', (apply st op).2 !! j = Some a' /\ evolves a a'.
Proof.
  intros Ha Hop.
  assert (Hf : forall job f change, (forall b, is_terminal (state b) = false -> evolves b (change b)) ->
    exists a', (let '(r, st) := fenced_change st job f change in (Done r, st)).2 !! j = Some a' /\ evolves a a').
  { intros job f change Hc. destruct (fenced_change_at st job f change j a Ha Hc) as (a' & ? & ?).
    destruct (fenced_change st job f change). by exists a'. }
  destruct op as [n|job f until|job f what|job f what|job f edits|job f note|job f|job f why|job|now|job w m until]; cbn [apply starts_over] in *.
  - bool_to_prop. cbn. exists a. rewrite lookup_insert_ne by done. split; [done|apply evolves_refl].
  - unfold heartbeat. destruct (fenced_change_at st job f (fun a => with_lease (with_state a Running) until) j a Ha) as (a' & ? & ?).
    { intros b Hb. evolve. }
    exists a'. destruct (fenced_change _ _ _ _) as [[] ?]; by split.
  - apply Hf. intros b Hb. evolve.
  - unfold record_terminal_receipt. destruct (st !! job) as [b|] eqn:Eb; [|exists a; split; [done|apply evolves_refl]].
    destruct (negb _); [exists a; split; [done|apply evolves_refl]|]. destruct (negb _); [exists a; split; [done|apply evolves_refl]|].
    cbn. destruct (decide (j = job)) as [->|Hne]; [|exists a; rewrite lookup_insert_ne by done; split; [done|apply evolves_refl]].
    exists (with_receipt b (mkReceipt what f)). rewrite lookup_insert_eq. split; [done|]. replace a with b by congruence. evolve.
  - apply Hf. intros b Hb. evolve.
  - apply Hf. intros b Hb. evolve.
  - apply Hf. intros b Hb. evolve.
  - apply Hf. intros b Hb. evolve.
  - cbn. unfold cancel. destruct (st !! job) as [b|] eqn:Eb; [|exists a; split; [done|apply evolves_refl]].
    destruct (decide (j = job)) as [->|Hne]; [|exists a; rewrite lookup_insert_ne by done; split; [done|apply evolves_refl]].
    exists (with_state b Cancelled). rewrite lookup_insert_eq. split; [done|]. replace a with b by congruence. evolve.
  - cbn. rewrite lookup_fmap, Ha. exists (reap_one now a). split; [done|]. unfold reap_one, lapsed.
    destruct (state a) eqn:Es; try apply evolves_refl; destruct (lease_until a <=? now); try apply evolves_refl; evolve.
  - unfold reassign. destruct (st !! job) as [b|] eqn:Eb; [|exists a; split; [done|apply evolves_refl]].
    destruct (reassignable (state b)) eqn:Er; [|exists a; split; [done|apply evolves_refl]]. cbn.
    destruct (decide (j = job)) as [->|Hne]; [|exists a; rewrite lookup_insert_ne by done; split; [done|apply evolves_refl]].
    eexists. rewrite lookup_insert_eq. split; [done|]. replace a with b by congruence.
    evolve.
Qed.

(** A job over a history that never starts it over. *)
Lemma run_evolves ops : forall st j a, st !! j = Some a -> Forall (fun op => starts_over j op = false) ops ->
  fence a + N.of_nat (length ops) <= u64_max ->
  exists a', run st ops !! j = Some a' /\ fence a <= fence a' <= fence a + N.of_nat (length ops) /\
    receipts a `prefix_of` receipts a'.
Proof.
  induction ops as [|op ops IH]; intros st j a Ha Hops Hle; [exists a; cbn; split_and!; [done|lia|lia|done]|].
  inversion Hops as [|?? Hop Hrest]; subst. cbn [length] in *.
  destruct (apply_evolves st op j a Ha Hop) as (b & Hb & [Hr Hf _ _]).
  assert (fence a <= fence b <= fence a + 1) as Hab.
  { destruct Hf as [->|[-> _]]; [lia|]. rewrite wrapping_add_exact; lia. }
  destruct (IH _ j b Hb Hrest ltac:(lia)) as (c & Hc & Hbc & Hr'). exists c. cbn. split_and!; [done|lia|lia|]. by etrans.
Qed.

Lemma stale_is_refused st j a op f : st !! j = Some a -> presents op = Some (j, f) -> f <> fence a ->
  refused (apply st op).1 Stale /\ (apply st op).2 = st.
Proof.
  intros Ha Hp Hf.
  assert (fenced st j f = Err Stale) as Hs.
  { unfold fenced. rewrite Ha. destruct (N.eqb_spec (fence a) f); [congruence|done]. }
  assert (forall change, fenced_change st j f change = (Err Stale, st)) as Hc by (intros; unfold fenced_change; by rewrite Hs).
  destruct op; cbn in Hp; try done; injection Hp as -> ->; cbn;
    unfold heartbeat, record_receipt, checkpoint, note_progress, complete, fail; rewrite ?Hc; try by (split; [(by left) || by right|]).
  unfold record_terminal_receipt. rewrite Ha. destruct (N.eqb_spec (fence a) f); [congruence|]. split; [by right|done].
Qed.

(** Once a job has been reassigned, whoever held it before is shut out for good: a call
    under the fence it had, or an earlier one, is refused as stale and changes nothing,
    whatever happened since, as long as the job is not assigned afresh. *)
Theorem superseded_worker_is_shut_out st job a w m until f st1 ops old op :
  st !! job = Some a -> reassign st job w m until = (Some f, st1) ->
  Forall (fun o => starts_over job o = false) ops -> fence a + 1 + N.of_nat (length ops) <= u64_max ->
  old <= fence a -> presents op = Some (job, old) ->
  refused (apply (run st1 ops) op).1 Stale /\ (apply (run st1 ops) op).2 = run st1 ops.
Proof.
  unfold reassign. intros Ea. rewrite Ea. destruct (reassignable _); [|done]. cbn.
  intros [= Hf <-] Hops Hlen Hold Hp. rewrite wrapping_add_exact in * by lia.
  set (st1 := <[job := _]> st).
  assert (exists b, st1 !! job = Some b /\ fence b = fence a + 1) as (b & Hb & Hfb).
  { eexists. unfold st1. rewrite lookup_insert_eq. by split. }
  destruct (run_evolves ops st1 job b Hb Hops ltac:(lia)) as (c & Hc & Hle & _).
  apply (stale_is_refused _ job c op old Hc Hp). lia.
Qed.

(** Successful completions of a job over a history. *)
Definition completed_ok (job : string) (op : Op) (a : Answer) : bool :=
  match op, a with OComplete j _, Done (Ok _) => bool_decide (j = job) | _, _ => false end.
Fixpoint completions (job : string) (st : Jobs) (ops : list Op) : nat :=
  match ops with
  | [] => 0
  | op :: ops' => (if completed_ok job op (apply st op).1 then 1 else 0) + completions job (apply st op).2 ops'
  end%nat.

Lemma over_is_over ops : forall st j a, st !! j = Some a -> state a = Completed \/ state a = Cancelled ->
  Forall (fun op => starts_over j op = false) ops -> completions j st ops = 0%nat.
Proof.
  induction ops as [|op ops IH]; intros st j a Ha Hs Hops; [done|]. inversion Hops as [|?? Hop Hrest]; subst. cbn [completions].
  destruct (apply_evolves st op j a Ha Hop) as (b & Hb & [_ _ Hc Hx]).
  rewrite (IH _ j b Hb ltac:(destruct Hs; auto) Hrest).
  assert (completed_ok j op (apply st op).1 = false) as ->; [|done].
  destruct op as [| | | | | |job f| | | |]; try done. cbn. unfold complete, fenced_change, fenced.
  destruct (decide (job = j)) as [->|Hne]; [|by destruct (st !! job); repeat destruct (negb _) || destruct (is_terminal _); cbn; rewrite ?bool_decide_eq_false_2].
  rewrite Ha. destruct (negb _); [done|]. by destruct Hs as [-> | ->].
Qed.

(** A job is completed once: over any history that does not assign it afresh, at most one
    call to complete it is answered with success. *)
Theorem completed_at_most_once job st ops : Forall (fun op => starts_over job op = false) ops ->
  (completions job st ops <= 1)%nat.
Proof.
  revert st. induction ops as [|op ops IH]; intros st Hops; [cbn; lia|]. inversion Hops as [|?? Hop Hrest]; subst. cbn [completions].
  destruct (completed_ok job op (apply st op).1) eqn:E; [|by apply IH].
  destruct op as [| | | | | |j f| | | |]; try done. cbn in E. unfold complete, fenced_change in E.
  destruct (fenced st j f) as [a|e] eqn:Ef; [|done]. cbn in E. bool_to_prop. subst j.
  rewrite (over_is_over ops _ job (with_state a Completed)); [lia| |by left|done].
  cbn. unfold complete, fenced_change. rewrite Ef. cbn. apply lookup_insert_eq.
Qed.

(** An effect that was recorded stays recorded with its fence, through failures, lapsed
    leases and reassignments, for whoever retries the job. *)
Theorem receipts_travel st job f what st1 ops :
  record_receipt st job f what = (Ok tt, st1) -> Forall (fun op => starts_over job op = false) ops ->
  f + N.of_nat (length ops) <= u64_max ->
  exists a, run st1 ops !! job = Some a /\ mkReceipt what f ∈ receipts a /\ f <= fence a.
Proof.
  unfold record_receipt, fenced_change. destruct (fenced st job f) as [a|e] eqn:E; [|done]. intros [= <-] Hops Hlen.
  apply fenced_Ok in E as (_ & <- & _). set (st1 := <[job := _]> st).
  assert (st1 !! job = Some (with_receipt a (mkReceipt what (fence a)))) as Hb by apply lookup_insert_eq.
  destruct (run_evolves ops st1 job _ Hb Hops Hlen) as (c & Hc & Hle & l & Hl). exists c. split_and!; [done| |by destruct Hle].
  rewrite Hl. cbn. set_solver.
Qed.

(** What happens to one job leaves every other as it is. *)
Theorem jobs_are_independent st op job j : target op = Some job -> j <> job -> (apply st op).2 !! j = st !! j.
Proof.
  intros Ht Hj.
  destruct op as [a|? f until|? f what|? f what|? f edits|? f note|? f|? f why|?|?|? w m until]; cbn in Ht; try done; injection Ht as <-.
  all: cbn; unfold heartbeat, record_receipt, checkpoint, note_progress, complete, fail, cancel, reassign, record_terminal_receipt.
  all: unfold fenced_change; repeat case_match; simplify_eq/=; rewrite ?lookup_insert_ne by done; done.
Qed.

(** A sweep parks exactly the jobs whose worker is silent: assigned or running with a
    lease that has run out; it names them in order, and they can be reassigned. *)
Theorem reap_is_exact st now :
  let '(dead, st1) := reap_expired st now in
  (forall j, j ∈ dead <-> exists a, st !! j = Some a /\ (state a = Running \/ state a = Assigned) /\ lease_until a <= now) /\
  (forall j a, st !! j = Some a -> st1 !! j = Some (if bool_decide (j ∈ dead) then with_state a AwaitingModel else a)) /\
  NoDup dead /\
  (forall j w m until, j ∈ dead -> is_Some (reassign st1 j w m until).1).
Proof.
  unfold reap_expired.
  assert (Hd : forall j, j ∈ (List.filter (fun e => lapsed now e.2) (btree_entries st)).*1 <->
    exists a, st !! j = Some a /\ (state a = Running \/ state a = Assigned) /\ lease_until a <= now).
  { intros j. rewrite list_elem_of_fmap. split.
    - intros ([i a] & -> & Hin). rewrite list_elem_of_In, filter_In, btree_entries_In in Hin. destruct Hin as [Ha Hl].
      exists a. split; [done|]. cbn in Hl. unfold lapsed in Hl. destruct (state a); try done; split; auto; by apply N.leb_le.
    - intros (a & Ha & Hs & Hl). exists (j, a). split; [done|]. rewrite list_elem_of_In, filter_In, btree_entries_In. split; [done|].
      cbn. unfold lapsed. apply N.leb_le in Hl. by destruct Hs as [-> | ->]. }
  set (dead := (List.filter _ _).*1) in *.
  assert (Hr : forall j a, st !! j = Some a -> reap_one now a = if bool_decide (j ∈ dead) then with_state a AwaitingModel else a).
  { intros j a Ha. unfold reap_one. replace (lapsed now a) with (bool_decide (j ∈ dead)); [done|].
    apply eq_true_iff_eq. rewrite bool_decide_eq_true, Hd. unfold lapsed. split.
    - intros (b & Hb & Hs & Hl). replace a with b by congruence. apply N.leb_le in Hl. by destruct Hs as [-> | ->].
    - intros Hl. exists a. split; [done|]. destruct (state a); try done; split; auto; by apply N.leb_le. }
  split_and!; [done| | |].
  - intros j a Ha. rewrite lookup_fmap, Ha. cbn. by rewrite (Hr j a Ha).
  - apply NoDup_filter_fmap, btree_entries_NoDup.
  - intros j w m until Hj. pose proof (proj1 (Hd j) Hj) as (a & Ha & _). unfold reassign. rewrite lookup_fmap, Ha. cbn.
    rewrite (Hr j a Ha), bool_decide_eq_true_2 by done. by eexists.
Qed.

(** ** Restarts *)

Section Restart.
Context {T : Type} (to_string : Jobs -> option T) (from_str : T -> option Jobs).
Context (serde : forall m, exists s, to_string m = Some s /\ from_str s = Some m).

Lemma persists_or_same st op : persists (apply st op).1 = false -> (apply st op).2 = st.
Proof.
  assert (forall job f change, persists (let '(r, st) := fenced_change st job f change in (Done r, st)).1 = false ->
    (let '(r, st) := fenced_change st job f change in (Done r, st)).2 = st) as Hf.
  { intros job f change. unfold fenced_change. by destruct (fenced st job f). }
  destruct op as [a|job f until|job f what|job f what|job f edits|job f note|job f|job f why|job|now|job w m until]; cbn [apply]; try done; try apply Hf.
  - unfold heartbeat, fenced_change. by destruct (fenced st job f).
  - unfold record_terminal_receipt. destruct (st !! job); [|done]. destruct (negb _); [done|]. by destruct (negb _).
  - destruct (reap_expired st now) as [dead st1] eqn:E. cbn. destruct dead; [|done]. intros _.
    pose proof (reap_is_exact st now) as Hr. rewrite E in Hr. destruct Hr as (_ & Hs & _).
    unfold reap_expired in E. injection E as _ <-. apply map_eq. intros j. specialize (Hs j).
    rewrite lookup_fmap in *. destruct (st !! j) as [a|] eqn:Ea; [|done]. cbn in *. rewrite (Hs a eq_refl).
    by rewrite bool_decide_eq_false_2 by apply not_elem_of_nil.
  - unfold reassign. destruct (st !! job); [|done]. by destruct (reassignable _).
Qed.

(** A ledger whose writes are made loses nothing in a restart: loaded again from its file
    at any moment, it holds exactly the jobs it held. *)
Theorem restart_loses_nothing on_disk ops : Forall (fun c => c.2 = Written) ops ->
  load from_str (file (calls to_string (persisted from_str on_disk) ops)) =
  jobs (calls to_string (persisted from_str on_disk) ops).
Proof.
  intros Hops. assert (Hgo : forall l, has_path l = true -> load from_str (file l) = jobs l ->
    load from_str (file (calls to_string l ops)) = jobs (calls to_string l ops)); [|by apply Hgo].
  induction Hops as [|[op how] ops Hw Hops IH]; [done|]. cbn in Hw. subst how. intros l Hp Hl.
  cbn [calls fold_left]. pose proof (persists_or_same (jobs l) op) as Hs. unfold call. cbn [fst snd].
  destruct (apply (jobs l) op) as [a st] eqn:E. cbn [fst snd] in *. apply IH; [done|]. cbn.
  destruct (persists a); [|by rewrite (Hs eq_refl)]. unfold persist. rewrite Hp.
  destruct (serde st) as (s & -> & Hs'). unfold load. cbn. by rewrite Hs'.
Qed.
End Restart.

(** ** Concrete runs, and what they show *)

Definition j1 : Assign := mkAssign "j1" "w1" "m1" "/wt" 300.
Definition st1 : Jobs := (assign ∅ j1).2.
Definition st2 : Jobs := run st1 [OReceipt "j1" 1 "claimed T-9"; OFail "j1" 1 "crash"].
Definition st3 : Jobs := (reassign st2 "j1" "w2" "m2" 600).2.

Definition held : Assignment :=
  mkAssignment "j1" "w1" "m1" "/wt" 300 (Failed "crash") 1 [mkReceipt "claimed T-9" 1] [] "".
Lemma superseded_worker_is_shut_out_witness :
  refused (apply (run st3 [OHeartbeat "j1" 2 900]) (OComplete "j1" 1)).1 Stale.
Proof.
  refine (proj1 (superseded_worker_is_shut_out st2 "j1" held "w2" "m2" 600 2 st3 [OHeartbeat "j1" 2 900] 1 (OComplete "j1" 1) _ _ _ _ _ _)).
  - reflexivity.
  - reflexivity.
  - repeat constructor.
  - vm_compute. done.
  - vm_compute. done.
  - reflexivity.
Defined.

Lemma completed_at_most_once_witness :
  completions "j1" st3 [OComplete "j1" 1; OComplete "j1" 2; OComplete "j1" 2] = 1%nat /\
  (completions "j1" st3 [OComplete "j1" 1; OComplete "j1" 2; OComplete "j1" 2] <= 1)%nat.
Proof. split; [reflexivity|]. apply completed_at_most_once. repeat constructor. Defined.

Lemma receipts_travel_witness :
  exists a, run (record_receipt st1 "j1" 1 "claimed T-9").2 [OFail "j1" 1 "crash"; OReassign "j1" "w2" "m2" 600] !! "j1" = Some a /\
    mkReceipt "claimed T-9" 1 ∈ receipts a /\ worker a = "w2".
Proof.
  destruct (receipts_travel st1 "j1" 1 "claimed T-9" (record_receipt st1 "j1" 1 "claimed T-9").2
    [OFail "j1" 1 "crash"; OReassign "j1" "w2" "m2" 600]) as (a & Ha & Hin & _); [reflexivity|repeat constructor|vm_compute; done|].
  exists a. split_and!; [done|done|]. vm_compute in Ha. by injection Ha as <-.
Defined.

Lemma jobs_are_independent_witness : (apply st1 (OCancel "j2")).2 !! "j1" = st1 !! "j1".
Proof. by apply (jobs_are_independent st1 (OCancel "j2") "j2" "j1"). Defined.

Lemma restart_loses_nothing_witness :
  load Some (file (calls Some (persisted Some (T := Jobs) None) [(OAssign j1, Written); (OComplete "j1" 1, Written)])) =
  jobs (calls Some (persisted Some None) [(OAssign j1, Written); (OComplete "j1" 1, Written)]).
Proof. apply restart_loses_nothing; [intros m; by exists m|repeat constructor]. Defined.

(** Assigning a job again starts it over: the fence is 1 again, the receipts and the edits
    are gone, and the first worker, which was shut out, completes the job. *)
Lemma assigning_again_revives_the_stale :
  (complete st3 "j1" 1).1 = Err Stale /\
  let st4 := (assign_fences st3 [("j1", "w3", "/wt3")] 900).2 in
  (complete st4 "j1" 1).1 = Ok tt /\ (receipts <$> st4 !! "j1") = Some [].
Proof. vm_compute. done. Qed.

(** Until a parked job is reassigned, the worker that was silent still holds it. *)
Lemma parked_worker_returns :
  let st4 := (reap_expired st1 500).2 in
  (state <$> st4 !! "j1") = Some AwaitingModel /\ (heartbeat st4 "j1" 1 900).1 = Ok 900 /\ (complete st4 "j1" 1).1 = Ok tt.
Proof. vm_compute. done. Qed.

(** Cancelling a job that is completed takes its completion back, and no receipt can be
    recorded for it any more. *)
Lemma cancel_takes_completion_back :
  let st4 := (complete st1 "j1" 1).2 in
  (record_terminal_receipt st4 "j1" 1 "reviewed").1 = Ok tt /\
  (state <$> cancel st4 "j1" !! "j1") = Some Cancelled /\
  (record_terminal_receipt (cancel st4 "j1") "j1" 1 "reviewed").1 = Err Terminal.
Proof. vm_compute. done. Qed.

(** A write that leaves part of the text empties the ledger at the next start: every fence is
    forgotten. *)
Lemma torn_write_empties_the_ledger :
  let to_string (m : Jobs) := Some (Some m) in
  let from_str (o : option Jobs) := o in
  let l := calls to_string (persisted from_str None) [(OAssign j1, Written); (OCheckpoint "j1" 1 ["edit"], Torn None)] in
  jobs l <> ∅ /\ load from_str (file l) = ∅.
Proof. split; [|reflexivity]. intros H. apply (f_equal (lookup "j1")) in H. vm_compute in H. done. Qed.
