(* ===== verification/CapacityAdmission.v ===== *)
(** * CapacityAdmission: nodes admitted against the measured host
    ([crates/susi-gawd-swarm/src/capacity_admission.rs], [resource_schedule.rs])

    A request asks for processors, memory, GPU memory and child processes.  The first three
    are [f64]s, computed here in binary64 with the Standard Library's [SpecFloat]; the last is
    a [u32].  [AdmissionState] is what the mutex of a [LiveAdmission] guards and a [pass] is
    what [admit_batch] does each time it holds the lock; section [Runs] interleaves the calls
    of several missions with the drops of their reservations.  What the host measures is an
    argument of each pass. *)

From Stdlib Require Import Floats.SpecFloat.
From stdpp Require Import pretty.
From S2P Require Import Prelude.

Local Open Scope string_scope.
Local Open Scope list_scope.
Local Open Scope N_scope.

(** ** [f64] *)

Module F64.
Definition t : Type := spec_float.
Definition add : t -> t -> t := SFadd 53 1024.
Definition sub : t -> t -> t := SFsub 53 1024.
Definition lt : t -> t -> bool := SFltb.
Definition le : t -> t -> bool := SFleb.
Definition zero : t := S754_zero false.
(** [x.max(0.0)], which is zero for a NaN. *)
Definition max0 (x : t) : t := if lt zero x then x else zero.
Definition is_finite (x : t) : bool := match x with S754_zero _ | S754_finite _ _ _ => true | _ => false end.
(** The nearest value to [m / d]. *)
Definition of_frac (m d : Z) : t := SFdiv 53 1024 (binary_normalize 53 1024 m 0 false) (binary_normalize 53 1024 d 0 false).
(** [f64::MAX]. *)
Definition MAX : t := S754_finite false 9007199254740991 971.
End F64.

(** ** Requests and the host *)

Record Resources : Type := mkResources {
  r_cpu : F64.t;
  r_gpu : F64.t;
  r_mem : F64.t;
  r_subs : N;
  model_ready : bool;
  tool_grants : list string;
}.
Record DagNode : Type := mkNode {
  n_id : string;
  n_cpu : F64.t;
  n_gpu : F64.t;
  n_mem : F64.t;
  n_subs : N;
  needs_model : bool;
  needs_tools : list string;
}.

(** A figure that can be admitted against, and one that can be asked for. *)
Definition askable (x : F64.t) : bool := F64.is_finite x && negb (F64.lt x F64.zero).
(** [admit] of the code: true to run, false to queue. *)
Definition admits (node : DagNode) (free : Resources) : bool :=
  if negb (askable (n_cpu node) && askable (n_gpu node) && askable (n_mem node)
           && F64.is_finite (r_cpu free) && F64.is_finite (r_gpu free) && F64.is_finite (r_mem free)) then false
  else if needs_model node && negb (model_ready free) then false
  else if F64.lt (r_cpu free) (n_cpu node) || F64.lt (r_gpu free) (n_gpu node) || F64.lt (r_mem free) (n_mem node)
          || (r_subs free <? n_subs node) then false
  else forallb (fun t => existsb (String.eqb t) (tool_grants free)) (needs_tools node).
Definition reserve (free : Resources) (node : DagNode) : Resources :=
  mkResources (F64.max0 (F64.sub (r_cpu free) (n_cpu node))) (F64.max0 (F64.sub (r_gpu free) (n_gpu node)))
    (F64.max0 (F64.sub (r_mem free) (n_mem node))) (r_subs free - n_subs node) (model_ready free) (tool_grants free).

(** [measured]: the operator's figures, parsed, and the host's. *)
Definition MIN_MODEL_MEM_GB : F64.t := F64.of_frac 2 1.
Definition env_f64 (parsed : option F64.t) : option F64.t :=
  match parsed with Some v => if askable v then Some v else None | None => None end.
Definition env_bool (value : option string) : option bool :=
  match value with
  | Some v => if bool_decide (v ∈ ["1"; "true"; "yes"]) then Some true
              else if bool_decide (v ∈ ["0"; "false"; "no"]) then Some false else None
  | None => None
  end.
(** [available_parallelism], a positive number when it is known. *)
Definition host_cpu (parallelism : option N) : option F64.t :=
  (fun n => binary_normalize 53 1024 (Z.of_N n) 0 false) <$> parallelism.
Definition measured (env_cpu env_mem env_gpu : option F64.t) (env_ready : option string)
    (parallelism : option N) (host_mem : option F64.t) : Resources :=
  let or_else (a b : option F64.t) := match a with Some _ => a | None => b end in
  let cpu := default (F64.of_frac 1 1) (or_else (env_f64 env_cpu) (host_cpu parallelism)) in
  let mem := default F64.MAX (or_else (env_f64 env_mem) host_mem) in
  let ready := default (F64.le (F64.of_frac 1 1) cpu && F64.le MIN_MODEL_MEM_GB mem) (env_bool env_ready) in
  let subs := match parallelism with Some n => if n <=? u32_max then n else 1 | None => 1 end in
  mkResources cpu (default F64.zero (env_f64 env_gpu)) mem (N.max subs 1) ready ["exec_command"].

(** [admit_round]: admitted, deferred, and what remains. *)
Fixpoint admit_all (request : N -> DagNode) (ready : list N) (remaining : Resources) : list N * list N * Resources :=
  match ready with
  | [] => ([], [], remaining)
  | idx :: ready' =>
      let req := request idx in
      if admits req remaining then
        let '(a, d, r) := admit_all request ready' (reserve remaining req) in (idx :: a, d, r)
      else
        let '(a, d, r) := admit_all request ready' remaining in (a, idx :: d, r)
  end.
Definition admit_round (host : Resources) (ready : list N) (requests : gmap N DagNode) (default_request : N -> DagNode) :
    list N * list N * Resources :=
  admit_all (fun idx => default (default_request idx) (requests !! idx)) ready host.

(** ** The shared controller *)

Record Footprint : Type := mkFootprint {
  f_cpu : F64.t;
  f_gpu : F64.t;
  f_mem : F64.t;
  f_subs : N;
}.
Definition Footprint_default : Footprint := mkFootprint F64.zero F64.zero F64.zero 0.
Definition from_node (n : DagNode) : Footprint := mkFootprint (n_cpu n) (n_gpu n) (n_mem n) (n_subs n).
Definition footprint_add (a b : Footprint) : Footprint :=
  mkFootprint (F64.add (f_cpu a) (f_cpu b)) (F64.add (f_gpu a) (f_gpu b)) (F64.add (f_mem a) (f_mem b))
    (saturating_add32 (f_subs a) (f_subs b)).
Definition footprint_sub (a b : Footprint) : Footprint :=
  mkFootprint (F64.max0 (F64.sub (f_cpu a) (f_cpu b))) (F64.max0 (F64.sub (f_gpu a) (f_gpu b)))
    (F64.max0 (F64.sub (f_mem a) (f_mem b))) (f_subs a - f_subs b).

Record Pending : Type := mkPending {
  p_key : string;
  p_node : DagNode;
}.
Record AdmissionState : Type := mkAdmission {
  used : Footprint;
  next_id : N;
  active : gmap N Footprint;
  active_keys : gmap string N;
  pending : list Pending;
  granted : gmap string N;
}.
Definition AdmissionState_default : AdmissionState := mkAdmission Footprint_default 0 ∅ ∅ [] ∅.

(** [LiveAdmission::key]. *)
Definition key (mission : string) (index : N) : string :=
  mission +:+ String.String Ascii.zero (pretty index).

Definition set_pending (st : AdmissionState) (q : list Pending) : AdmissionState :=
  mkAdmission (used st) (next_id st) (active st) (active_keys st) q (granted st).

(** The grant of one request. *)
Definition grant (st : AdmissionState) (p : Pending) : AdmissionState :=
  let id := saturating_add (next_id st) 1 in
  mkAdmission (footprint_add (used st) (from_node (p_node p))) id (active st) (<[p_key p := id]> (active_keys st))
    (pending st) (<[p_key p := id]> (granted st)).

(** The loop of [drain_locked], over the requests it has not looked at; [behind] are those it
    has moved to the back. *)
Fixpoint drain_queue (host free : Resources) (st : AdmissionState) (todo behind : list Pending) : AdmissionState :=
  match todo with
  | [] => set_pending st behind
  | p :: todo' =>
      if admits (p_node p) free then drain_queue host (reserve free (p_node p)) (grant st p) todo' behind
      else if admits (p_node p) host then set_pending st (todo ++ behind)
      else drain_queue host free st todo' (behind ++ [p])
  end.
Definition headroom (host : Resources) (u : Footprint) : Resources :=
  mkResources (F64.max0 (F64.sub (r_cpu host) (f_cpu u))) (F64.max0 (F64.sub (r_gpu host) (f_gpu u)))
    (F64.max0 (F64.sub (r_mem host) (f_mem u))) (r_subs host - f_subs u) (model_ready host) (tool_grants host).
Definition drain (host : Resources) (st : AdmissionState) : AdmissionState :=
  drain_queue host (headroom host (used st)) st (pending st) [].

(** What a call appends to the queue. *)
Definition enqueue_one (mission : string) (st : AdmissionState) (r : N * DagNode) : AdmissionState :=
  let k := key mission r.1 in
  if existsb (fun p => String.eqb (p_key p) k) (pending st)
     || bool_decide (is_Some (granted st !! k)) || bool_decide (is_Some (active_keys st !! k)) then st
  else set_pending st (pending st ++ [mkPending k r.2]).
Definition enqueue (mission : string) (requests : list (N * DagNode)) (st : AdmissionState) : AdmissionState :=
  fold_left (enqueue_one mission) requests st.

(** The keys of a call in the order of its [BTreeSet]. *)
Definition keys_of (mission : string) (requests : list (N * DagNode)) : list string :=
  (btree_entries (list_to_map ((fun r => (key mission r.1, tt)) <$> requests) : gmap string unit)).*1.

(** Taking one grant: the index and the identifier of the reservation. *)
Definition take_one (mission : string) (requests : list (N * DagNode))
    (acc : list (N * N) * AdmissionState) (k : string) : list (N * N) * AdmissionState :=
  let '(admitted, st) := acc in
  match granted st !! k with
  | None => (admitted, st)
  | Some id =>
      let st := mkAdmission (used st) (next_id st) (active st) (active_keys st) (pending st) (delete k (granted st)) in
      match List.find (fun r => String.eqb (key mission r.1) k) requests with
      | None => (admitted, st)
      | Some r =>
          (admitted ++ [(r.1, id)],
           mkAdmission (used st) (next_id st) (<[id := from_node r.2]> (active st)) (active_keys st) (pending st) (granted st))
      end
  end.
Definition take (mission : string) (requests : list (N * DagNode)) (st : AdmissionState) : list (N * N) * AdmissionState :=
  fold_left (take_one mission requests) (keys_of mission requests) ([], st).

Inductive Reason : Type :=
| ModelUnavailable
| GpuUnavailable
| SubprocessesUnavailable
| ExceedsCapacity
| NoProgress.
Definition block_reason (node : DagNode) (host : Resources) : Reason :=
  if needs_model node && negb (model_ready host) then ModelUnavailable
  else if F64.lt (r_gpu host) (n_gpu node) then GpuUnavailable
  else if r_subs host <? n_subs node then SubprocessesUnavailable
  else ExceedsCapacity.
Record AdmissionBlock : Type := mkBlock {
  node_id : string;
  reason : Reason;
}.
Record AdmissionBatch : Type := mkBatch {
  admitted : list (N * N);
  deferred : list N;
  blocked : option AdmissionBlock;
}.
Definition blocked_by (requests : list (N * DagNode)) (why : DagNode -> Reason) : AdmissionBatch :=
  mkBatch [] requests.*1 ((fun r => mkBlock (n_id r.2) (why r.2)) <$> head requests).

(** One round of the loop of [admit_batch]; [host] is what the drain measured and [host'] what
    the check after it did.  [None] is a call that waits. *)
Definition pass (mission : string) (requests : list (N * DagNode)) (host host' : Resources) (st : AdmissionState) :
    option AdmissionBatch * AdmissionState :=
  let '(got, st) := take mission requests (drain host st) in
  (match got with
   | _ :: _ => Some (mkBatch got (List.filter (fun i => negb (existsb (fun a => i =? a.1) got)) requests.*1) None)
   | [] =>
       if negb (existsb (fun r => admits r.2 host') requests) then Some (blocked_by requests (fun n => block_reason n host'))
       else if bool_decide (active st = ∅) && bool_decide (granted st = ∅) then Some (blocked_by requests (fun _ => NoProgress))
       else None
   end, st).
(** The first round of a call. *)
Definition admit_batch (mission : string) (requests : list (N * DagNode)) (host host' : Resources) (st : AdmissionState) :
    option AdmissionBatch * AdmissionState :=
  match requests with
  | [] => (Some (mkBatch [] [] None), st)
  | _ => pass mission requests host host' (enqueue mission requests st)
  end.

(** The side of a mission: [schedule_ready], and the requests [admit_ready_nodes] makes. *)
Definition default_resource_node (idx : N) : DagNode :=
  mkNode ("n" +:+ pretty idx) (F64.of_frac 1 1) F64.zero F64.zero 1 true ["exec_command"].
Definition schedule_ready (ready : list N) (free : Resources) (requests : gmap N DagNode) : list N * Resources :=
  let '(a, _, r) := admit_all (fun idx => default (default_resource_node idx) (requests !! idx)) ready free in (a, r).
Definition admit_ready_nodes (mission : string) (ready : list N) (requests : gmap N DagNode) (host host' : Resources)
    (st : AdmissionState) : option AdmissionBatch * AdmissionState :=
  admit_batch mission ((fun idx => (idx, default (default_resource_node idx) (requests !! idx))) <$> ready) host host' st.

(** The drop of a reservation. *)
Definition release (st : AdmissionState) (id : N) : AdmissionState :=
  match active st !! id with
  | None => st
  | Some fp =>
      let keys := match List.find (fun e => e.2 =? id) (btree_entries (active_keys st)) with
                  | Some e => delete e.1 (active_keys st) | None => active_keys st end in
      mkAdmission (footprint_sub (used st) fp) (next_id st) (delete id (active st)) keys (pending st) (granted st)
  end.

(** ** Several missions at once *)

Section Runs.

(** A caller asleep in [admit_batch], and the reservations that are alive. *)
Definition Caller : Type := string * list (N * DagNode).
Record World : Type := mkWorld {
  adm : AdmissionState;
  waiting : list Caller;
  held : gset N;
}.
Definition World_default : World := mkWorld AdmissionState_default [] ∅.

Definition settled (w : World) (c : Caller) (others : list Caller) (r : option AdmissionBatch * AdmissionState) : World :=
  match r with
  | (Some b, st) => mkWorld st others (list_to_set (admitted b).*2 ∪ held w)
  | (None, st) => mkWorld st (others ++ [c]) (held w)
  end.

(** What a key asks for, and the most child processes the host is ever measured to allow. *)
Context (node_of : string -> DagNode) (M : N).
Definition consistent (c : Caller) : Prop := Forall (fun r => r.2 = node_of (key c.1 r.1)) c.2.

(** A call, with the figures its drain and its check measured; a caller that wakes, notified or
    not; the end of a reservation. *)
Inductive step : World -> World -> Prop :=
| s_call w mission requests host host' : consistent (mission, requests) -> r_subs host <= M ->
    step w (settled w (mission, requests) (waiting w) (admit_batch mission requests host host' (adm w)))
| s_wake w l1 mission requests l2 host host' : waiting w = l1 ++ (mission, requests) :: l2 -> r_subs host <= M ->
    step w (settled w (mission, requests) (l1 ++ l2) (pass mission requests host host' (adm w)))
| s_drop w id : id ∈ held w -> step w (mkWorld (release (adm w) id) (waiting w) (held w ∖ {[id]})).
End Runs.

(** ** Sums over a map *)

Section MapSums.
Context {K V : Type} `{Countable K} (f : K * V -> N).
Definition sum_map (m : gmap K V) : N := sum_of (f <$> map_to_list m).
Lemma sum_map_empty : sum_map ∅ = 0.
Proof. unfold sum_map. by rewrite map_to_list_empty. Qed.
Lemma sum_map_insert m k v : m !! k = None -> sum_map (<[k := v]> m) = f (k, v) + sum_map m.
Proof. intros Hk. unfold sum_map. by rewrite (sum_of_perm _ _ (fmap_Permutation _ _ _ (map_to_list_insert m k v Hk))). Qed.
Lemma sum_map_delete m k v : m !! k = Some v -> sum_map m = f (k, v) + sum_map (delete k m).
Proof. intros Hk. rewrite <- (insert_delete_id m k v Hk) at 1. by rewrite sum_map_insert by apply lookup_delete_eq. Qed.
Lemma sum_map_term m k v : m !! k = Some v -> f (k, v) <= sum_map m.
Proof. intros Hk. rewrite (sum_map_delete m k v Hk). lia. Qed.
End MapSums.

(** ** Admission of one request *)

(** A request runs exactly when every figure it asks for is a number the host has left,
    the model is ready if it needs one, and every tool it needs is granted; and what is left
    for the others then is no more than before. *)
Theorem admit_exact node free : admits node free = true <->
  (askable (n_cpu node) = true /\ askable (n_gpu node) = true /\ askable (n_mem node) = true) /\
  (F64.is_finite (r_cpu free) = true /\ F64.is_finite (r_gpu free) = true /\ F64.is_finite (r_mem free) = true) /\
  (needs_model node = true -> model_ready free = true) /\
  (F64.lt (r_cpu free) (n_cpu node) = false /\ F64.lt (r_gpu free) (n_gpu node) = false /\
   F64.lt (r_mem free) (n_mem node) = false /\ n_subs node <= r_subs free) /\
  (forall t, t ∈ needs_tools node -> t ∈ tool_grants free).
Proof.
  unfold admits.
  assert (forallb (fun t => existsb (String.eqb t) (tool_grants free)) (needs_tools node) = true <->
    (forall t, t ∈ needs_tools node -> t ∈ tool_grants free)) as Htools.
  { rewrite forallb_forall. setoid_rewrite existsb_exists. setoid_rewrite <- list_elem_of_In.
    split; intros Ha t Ht; [destruct (Ha t Ht) as (g & Hg & ->%String.eqb_eq); done|].
    exists t. split; [auto|apply String.eqb_refl]. }
  rewrite <- Htools.
  destruct (askable (n_cpu node)), (askable (n_gpu node)), (askable (n_mem node)); cbn; try (intuition congruence).
  destruct (F64.is_finite (r_cpu free)), (F64.is_finite (r_gpu free)), (F64.is_finite (r_mem free)); cbn; try (intuition congruence).
  destruct (needs_model node), (model_ready free); cbn; try (intuition congruence);
    destruct (F64.lt (r_cpu free) _), (F64.lt (r_gpu free) _), (F64.lt (r_mem free) _); cbn; try (intuition congruence);
    destruct (N.ltb_spec (r_subs free) (n_subs node)); split; intros; intuition (congruence || lia).
Qed.

Lemma admit_subs node free : admits node free = true -> n_subs node <= r_subs free.
Proof. intros Ha. apply admit_exact in Ha. tauto. Qed.

(** ** The line *)

Lemma drain_queue_frame host : forall todo free st behind,
  let st' := drain_queue host free st todo behind in
  active st' = active st /\ (next_id st' < u64_max -> next_id st <= next_id st').
Proof.
  induction todo as [|p todo IH]; intros free st behind; [split; [done|cbn; lia]|]. cbn [drain_queue].
  destruct (admits _ free).
  - destruct (IH (reserve free (p_node p)) (grant st p) behind) as (-> & H2). split; [done|]. intros Hlt. specialize (H2 Hlt).
    cbn in H2. unfold saturating_add in H2. lia.
  - destruct (admits _ host); [split; cbn; [done|lia]|apply IH].
Qed.

Lemma drain_queue_keeps host k : forall todo free st behind,
  is_Some (granted st !! k) -> is_Some (granted (drain_queue host free st todo behind) !! k).
Proof.
  induction todo as [|p todo IH]; intros free st behind Hk; [done|]. cbn [drain_queue]. destruct (admits _ free).
  - apply IH. cbn. destruct (decide (p_key p = k)) as [->|Hne]; [rewrite lookup_insert_eq; by eexists|by rewrite lookup_insert_ne].
  - destruct (admits _ host); [done|by apply IH].
Qed.

Lemma drain_queue_reaches host p l2 : admits (p_node p) host = true -> forall l1 free st behind,
  let st' := drain_queue host free st (l1 ++ p :: l2) behind in
  is_Some (granted st' !! p_key p) \/
  exists ahead back, pending st' = ahead ++ p :: l2 ++ back /\
    (forall k, is_Some (granted st' !! k) -> is_Some (granted st !! k) \/ k ∈ p_key <$> l1).
Proof.
  intros Hp. induction l1 as [|q l1 IH]; intros free st behind; cbn [app drain_queue].
  - destruct (admits (p_node p) free) eqn:Ea.
    + left. apply drain_queue_keeps. cbn. rewrite lookup_insert_eq. by eexists.
    + rewrite Hp. right. exists [], behind. split; [done|]. by left.
  - destruct (admits (p_node q) free) eqn:Ea; [|destruct (admits (p_node q) host) eqn:Eh].
    + destruct (IH (reserve free (p_node q)) (grant st q) behind) as [?|(ahead & back & Hpend & Hg)]; [by left|]. right.
      exists ahead, back. split; [done|]. intros k Hk. rewrite fmap_cons. destruct (Hg k Hk) as [Hs|Hs]; [|right; by right].
      cbn in Hs. destruct (decide (p_key q = k)) as [->|Hne]; [right; left|]. rewrite lookup_insert_ne in Hs by done. by left.
    + right. exists (q :: l1), behind. cbn. split; [by rewrite <- app_assoc|]. by left.
    + destruct (IH free st (behind ++ [q])) as [?|(ahead & back & Hpend & Hg)]; [by left|]. right.
      exists ahead, back. split; [done|]. intros k Hk. rewrite fmap_cons. destruct (Hg k Hk); [by left|right; by right].
Qed.

(** Nobody overtakes a request that fits the host: a drain either grants it, or leaves it
    in line with everything behind it still behind it, and whatever was granted stood before
    it. *)
Theorem line_is_kept host st l1 p l2 : pending st = l1 ++ p :: l2 -> admits (p_node p) host = true ->
  let st' := drain host st in
  is_Some (granted st' !! p_key p) \/
  exists ahead back, pending st' = ahead ++ p :: l2 ++ back /\
    (forall k, is_Some (granted st' !! k) -> is_Some (granted st !! k) \/ k ∈ p_key <$> l1).
Proof. intros Hpend Hp. unfold drain. rewrite Hpend. by apply drain_queue_reaches. Qed.

(** The headroom of an idle host admits what the host admits. *)
Lemma headroom_idle node host : admits node host = true -> admits node (headroom host Footprint_default) = true.
Proof.
  assert (Hx : forall x n, F64.is_finite x = true -> askable n = true -> F64.lt x n = false ->
    F64.is_finite (F64.max0 (F64.sub x F64.zero)) = true /\ F64.lt (F64.max0 (F64.sub x F64.zero)) n = false).
  { intros x n Hfin Hn Hlt. unfold F64.max0, F64.sub, F64.zero, F64.lt, askable, F64.is_finite in *.
    destruct x as [sx|sx| |sx mx ex], n as [sn|sn| |sn mn en]; try done;
      try (destruct sx); try (destruct sn); cbn in *; try done; by destruct sx. }
  intros Ha. apply admit_exact in Ha as ((A1 & A2 & A3) & (F1 & F2 & F3) & Hm & (L1 & L2 & L3 & Hs) & Ht).
  apply admit_exact. cbn. destruct (Hx _ _ F1 A1 L1), (Hx _ _ F2 A2 L2), (Hx _ _ F3 A3 L3). split_and!; try done. lia.
Qed.

(** Once nothing is in use, the first in line that fits the host is granted. *)
Theorem idle_host_serves_the_first host st p rest : used st = Footprint_default -> pending st = p :: rest ->
  admits (p_node p) host = true -> is_Some (granted (drain host st) !! p_key p).
Proof.
  intros Hu Hp Ha. unfold drain. rewrite Hu, Hp. cbn [drain_queue]. rewrite (headroom_idle _ _ Ha).
  apply drain_queue_keeps. cbn. rewrite lookup_insert_eq. by eexists.
Qed.

(** ** Accounting *)

Section Accounting.
Context (node_of : string -> DagNode).

Definition asks (e : string * N) : N := n_subs (node_of e.1).
Definition asked (st : AdmissionState) : N := sum_map asks (active_keys st).

Record ainv (st : AdmissionState) : Prop := {
  ai_granted k id : granted st !! k = Some id -> active_keys st !! k = Some id /\ active st !! id = None;
  ai_active id fp : active st !! id = Some fp ->
    exists k, active_keys st !! k = Some id /\ granted st !! k = None /\ fp = from_node (node_of k);
  ai_keys k id : active_keys st !! k = Some id -> id <= next_id st /\ (granted st !! k = Some id \/ is_Some (active st !! id));
  ai_inj k1 k2 id : active_keys st !! k1 = Some id -> active_keys st !! k2 = Some id -> k1 = k2;
  ai_used : f_subs (used st) = asked st;
  ai_small : asked st <= u32_max;
}.
Record qinv (st : AdmissionState) (l : list Pending) : Prop := {
  qi_nodup : NoDup (p_key <$> l);
  qi_fresh p : p ∈ l -> active_keys st !! p_key p = None /\ p_node p = node_of (p_key p);
}.

Lemma ainv_default : ainv AdmissionState_default.
Proof. split; cbn; try done; unfold asked; cbn; by rewrite sum_map_empty. Qed.

Lemma ainv_set_pending st q : ainv st -> ainv (set_pending st q).
Proof. by intros [? ? ? ? ? ?]. Qed.

Lemma qinv_perm st l l' : l ≡ₚ l' -> qinv st l -> qinv st l'.
Proof. intros Hp [H1 H2]. split; [by rewrite <- Hp|]. intros p. rewrite <- Hp. apply H2. Qed.

Lemma grant_inv st p l : ainv st -> qinv st (p :: l) -> next_id st < u64_max -> asked st + n_subs (p_node p) <= u32_max ->
  ainv (grant st p) /\ qinv (grant st p) l /\ asked (grant st p) = asked st + n_subs (p_node p).
Proof.
  intros [Hg Ha Hk Hi Hu Hs] [Hn Hf] Hid Hle.
  destruct (Hf p ltac:(by left)) as [Hfresh Hnode]. rewrite fmap_cons in Hn. apply NoDup_cons in Hn as [Hnin Hn].
  assert (asked (grant st p) = asked st + n_subs (p_node p)) as Hasked.
  { unfold asked. cbn. rewrite sum_map_insert by done. unfold asks at 1. cbn. rewrite Hnode. lia. }
  assert (saturating_add (next_id st) 1 = next_id st + 1) as Hsat by (apply saturating_add_exact; lia).
  assert (Hnew : forall k id, active_keys st !! k = Some id -> id <> next_id st + 1) by (intros k id Hkk; pose proof (Hk k id Hkk); lia).
  assert (Hnact : active st !! (next_id st + 1) = None).
  { destruct (active st !! (next_id st + 1)) as [fp|] eqn:E; [|done]. destruct (Ha _ _ E) as (k & Hkk & _). by destruct (Hnew _ _ Hkk). }
  split_and!; [|split; [done|]|done].
  - split; cbn; rewrite ?Hsat.
    + intros k id [[<- <-]|[Hne Hk']]%lookup_insert_Some; [by rewrite lookup_insert_eq|]. rewrite lookup_insert_ne by done. by apply Hg.
    + intros id fp Hid'. destruct (Ha id fp Hid') as (k & H1 & H2 & H3). exists k.
      assert (p_key p <> k) by (intros <-; congruence). by rewrite !lookup_insert_ne.
    + intros k id [[<- <-]|[Hne Hk']]%lookup_insert_Some; [split; [lia|left; by rewrite lookup_insert_eq]|].
      rewrite lookup_insert_ne by done. destruct (Hk k id Hk'). split; [lia|done].
    + intros k1 k2 id [[<- <-]|[H1 H1']]%lookup_insert_Some [[<- E]|[H2 H2']]%lookup_insert_Some; try done;
        [by destruct (Hnew _ _ H2')|subst; by destruct (Hnew _ _ H1')|by apply (Hi _ _ id)].
    + unfold saturating_add32. rewrite Hasked, Hu. cbn. unfold u32_max in *. lia.
    + rewrite Hasked. done.
  - intros q Hq. destruct (Hf q ltac:(by right)) as [H1 H2]. split; [|done]. cbn. rewrite lookup_insert_ne; [done|].
    intros E. apply Hnin. rewrite E. apply list_elem_of_fmap. by exists q.
Qed.

Lemma drain_queue_inv host : r_subs host <= u32_max -> forall todo free st behind,
  ainv st -> qinv st (todo ++ behind) -> r_subs free = r_subs host - asked st ->
  let st' := drain_queue host free st todo behind in
  next_id st' < u64_max ->
  ainv st' /\ qinv st' (pending st') /\ asked st <= asked st' <= N.max (asked st) (r_subs host).
Proof.
  intros Hh. induction todo as [|p todo IH]; intros free st behind Hi Hq Hfree; cbn [drain_queue].
  { intros _. split_and!; [by apply ainv_set_pending|by destruct Hq|reflexivity|apply N.le_max_l]. }
  destruct (admits (p_node p) free) eqn:Ea; [|destruct (admits (p_node p) host) eqn:Eh].
  - intros Hid. pose proof (admit_subs _ _ Ea) as Hsub. pose proof (ai_small _ Hi) as Hsm.
    destruct (drain_queue_frame host todo (reserve free (p_node p)) (grant st p) behind) as [_ Hmono]. specialize (Hmono Hid).
    assert (next_id st < u64_max) as Hlt by (cbn in Hmono; unfold saturating_add in Hmono; lia).
    destruct (grant_inv st p (todo ++ behind) Hi Hq Hlt ltac:(lia)) as (Hi' & Hq' & Hasked).
    destruct (IH (reserve free (p_node p)) (grant st p) behind Hi' Hq') as (? & ? & ?); [cbn; lia|done|]. split_and!; try done; lia.
  - intros _. split_and!; [by apply ainv_set_pending|by destruct Hq|reflexivity|apply N.le_max_l].
  - apply IH; [done| |done]. eapply qinv_perm; [|exact Hq]. cbn. rewrite app_assoc. apply Permutation_cons_append.
Qed.

(** *** The queue, the grants and the ends *)

Notation consistent := (consistent node_of).

Lemma enqueue_one_inv mission r st : r.2 = node_of (key mission r.1) -> ainv st -> qinv st (pending st) ->
  let st' := enqueue_one mission st r in
  ainv st' /\ qinv st' (pending st') /\ active st' = active st /\ asked st' = asked st /\ next_id st' = next_id st.
Proof.
  intros Hr Hi Hq. unfold enqueue_one.
  destruct (existsb (fun p => String.eqb (p_key p) (key mission r.1)) (pending st)) eqn:E1; [by split_and!|].
  destruct (bool_decide (is_Some (granted st !! _))) eqn:E2; [by split_and!|].
  destruct (bool_decide (is_Some (active_keys st !! _))) eqn:E3; [by split_and!|]. cbn [orb]. bool_to_prop.
  split_and!; [by apply ainv_set_pending| |done..]. destruct Hq as [Hn Hf]. split; cbn.
  - rewrite fmap_app. apply NoDup_app. split_and!; [done| |apply NoDup_singleton]. intros k Hk ->%list_elem_of_singleton.
    apply list_elem_of_fmap in Hk as (p & Hk & Hp). rewrite existsb_false in E1. specialize (E1 p (proj1 (list_elem_of_In _ _) Hp)).
    apply String.eqb_neq in E1. done.
  - intros p [Hp|Hp]%elem_of_app; [by apply Hf|]. apply list_elem_of_singleton in Hp as ->. split; [|done]. cbn.
    destruct (active_keys st !! key mission r.1); [|done]. by destruct E3.
Qed.

Lemma enqueue_inv mission requests st : consistent (mission, requests) -> ainv st -> qinv st (pending st) ->
  let st' := enqueue mission requests st in
  ainv st' /\ qinv st' (pending st') /\ active st' = active st /\ asked st' = asked st /\ next_id st' = next_id st.
Proof.
  unfold consistent, enqueue. cbn. revert st. induction requests as [|r requests IH]; intros st Hc Hi Hq; [by split_and!|]. cbn [fold_left].
  inversion Hc as [|?? Hr Hrest]; subst. destruct (enqueue_one_inv mission r st Hr Hi Hq) as (Hi' & Hq' & Ha & Has & Hn).
  destruct (IH _ Hrest Hi' Hq') as (? & ? & -> & -> & ->). by split_and!.
Qed.

Lemma drain_inv host st : r_subs host <= u32_max -> ainv st -> qinv st (pending st) ->
  let st' := drain host st in
  next_id st' < u64_max ->
  ainv st' /\ qinv st' (pending st') /\ active st' = active st /\ asked st <= asked st' <= N.max (asked st) (r_subs host).
Proof.
  intros Hh Hi Hq st' Hid. unfold st', drain in *.
  destruct (drain_queue_frame host (pending st) (headroom host (used st)) st []) as [-> _].
  destruct (drain_queue_inv host Hh (pending st) (headroom host (used st)) st []) as (? & ? & ? & ?); [done| | |done|by split_and!].
  - by rewrite app_nil_r.
  - cbn. by rewrite (ai_used _ Hi).
Qed.

Lemma take_one_inv mission requests k got st : consistent (mission, requests) ->
  (exists r, r ∈ requests /\ key mission r.1 = k) -> ainv st -> qinv st (pending st) ->
  let '(got', st') := take_one mission requests (got, st) k in
  ainv st' /\ qinv st' (pending st') /\ pending st' = pending st /\ active_keys st' = active_keys st /\ next_id st' = next_id st /\
  exists new, got' = got ++ new /\ dom (active st') = list_to_set new.*2 ∪ dom (active st).
Proof.
  intros Hc (r0 & Hr0 & Hk0) Hi Hq. unfold take_one. destruct (granted st !! k) as [id|] eqn:Eg.
  2:{ split_and!; try done. exists []. rewrite app_nil_r. split; [done|]. cbn. set_solver. }
  destruct (List.find _ requests) as [r|] eqn:Ef.
  2:{ exfalso. pose proof (find_none _ _ Ef r0 (proj1 (list_elem_of_In _ _) Hr0)) as Hx. cbn in Hx. apply String.eqb_neq in Hx. done. }
  apply find_some in Ef as [Hr Hrk%String.eqb_eq]. rewrite <- list_elem_of_In in Hr.
  unfold consistent in Hc. cbn in Hc. rewrite Forall_forall in Hc. pose proof (Hc r Hr) as Hnode.
  destruct Hi as [Hg Ha Hk Hinj Hu Hs]. destruct (Hg k id Eg) as [Hak Hna].
  split_and!; try done.
  - split; cbn; try done.
    + intros k' id' [Hne Hk']%lookup_delete_Some. destruct (Hg k' id' Hk') as [H1 H2]. split; [done|].
      rewrite lookup_insert_ne; [done|]. intros <-. apply Hne. by apply (Hinj _ _ id).
    + intros id' fp [[<- <-]|[Hne Hid']]%lookup_insert_Some.
      * exists k. split_and!; [done|by rewrite lookup_delete_eq|]. by rewrite Hnode, Hrk.
      * destruct (Ha id' fp Hid') as (k' & H1 & H2 & H3). exists k'. split_and!; [done| |done]. rewrite lookup_delete_ne; [done|congruence].
    + intros k' id' Hk'. destruct (Hk k' id' Hk') as [Hle Hor]. split; [done|]. destruct (decide (k' = k)) as [->|Hne].
      * right. replace id' with id by congruence. rewrite lookup_insert_eq. by eexists.
      * destruct Hor as [Hor|Hor]; [left; by rewrite lookup_delete_ne|right]. destruct (decide (id' = id)) as [->|]; [rewrite lookup_insert_eq; by eexists|by rewrite lookup_insert_ne].
  - destruct Hq. by split.
  - exists [(r.1, id)]. split; [done|]. cbn. rewrite dom_insert_L. set_solver.
Qed.

Lemma keys_of_spec mission requests k : k ∈ keys_of mission requests <-> exists r, r ∈ requests /\ key mission r.1 = k.
Proof.
  unfold keys_of. rewrite list_elem_of_fmap. split.
  - intros ([k' []] & -> & Hin%list_elem_of_In%btree_entries_In%elem_of_list_to_map_2).
    apply list_elem_of_fmap in Hin as (r & [= ->] & Hr). by exists r.
  - intros (r & Hr & <-). exists (key mission r.1, tt). split; [done|]. apply list_elem_of_In, btree_entries_In.
    destruct (_ !! _) as [[]|] eqn:E; [done|]. apply not_elem_of_list_to_map in E. destruct E. rewrite <- list_fmap_compose.
    apply list_elem_of_fmap. by exists r.
Qed.

Lemma take_inv mission requests st : consistent (mission, requests) -> ainv st -> qinv st (pending st) ->
  let '(got, st') := take mission requests st in
  ainv st' /\ qinv st' (pending st') /\ asked st' = asked st /\ next_id st' = next_id st /\
  dom (active st') = list_to_set got.*2 ∪ dom (active st).
Proof.
  intros Hc Hi Hq. unfold take.
  assert (Hgo : forall ks got st, Forall (fun k => exists r, r ∈ requests /\ key mission r.1 = k) ks -> ainv st -> qinv st (pending st) ->
    let '(got', st') := fold_left (take_one mission requests) ks (got, st) in
    ainv st' /\ qinv st' (pending st') /\ asked st' = asked st /\ next_id st' = next_id st /\
    exists new, got' = got ++ new /\ dom (active st') = list_to_set new.*2 ∪ dom (active st)).
  { induction ks as [|k ks IH]; intros got0 st0 Hks Hi0 Hq0; cbn [fold_left].
    - split_and!; try done. exists []. rewrite app_nil_r. split; [done|]. cbn. set_solver.
    - inversion Hks as [|?? Hk0 Hks']; subst. pose proof (take_one_inv mission requests k got0 st0 Hc Hk0 Hi0 Hq0) as Ht.
      destruct (take_one mission requests (got0, st0) k) as [got1 st1]. destruct Ht as (Hi1 & Hq1 & Hp1 & Hk1 & Hn1 & new1 & -> & Hd1).
      pose proof (IH (got0 ++ new1) st1 Hks' Hi1 Hq1) as H. destruct (fold_left _ _ _) as [got2 st2].
      destruct H as (? & ? & Has & Hn & new2 & -> & Hd2). split_and!; try done.
      + rewrite Has. unfold asked. by rewrite Hk1.
      + by rewrite Hn.
      + exists (new1 ++ new2). rewrite app_assoc, fmap_app. split; [done|]. rewrite Hd2, Hd1, list_to_set_app_L. set_solver. }
  pose proof (Hgo (keys_of mission requests) [] st) as H. destruct (fold_left _ _ _) as [got st'].
  destruct H as (? & ? & ? & ? & new & -> & Hd); [|done|done|by split_and!].
  apply Forall_forall. intros k. by rewrite keys_of_spec.
Qed.

Lemma release_inv st id fp : ainv st -> qinv st (pending st) -> active st !! id = Some fp ->
  ainv (release st id) /\ qinv (release st id) (pending (release st id)) /\
  asked st = asked (release st id) + f_subs fp /\ active (release st id) = delete id (active st).
Proof.
  intros [Hg Ha Hk Hinj Hu Hs] [Hn Hf] Hid. destruct (Ha id fp Hid) as (k & Hak & Hgk & ->).
  unfold release. rewrite Hid.
  assert (List.find (fun e => e.2 =? id) (btree_entries (active_keys st)) = Some (k, id)) as ->.
  { destruct (List.find _ _) as [[k' id']|] eqn:E.
    - apply find_some in E as [Hin%btree_entries_In Heq]. cbn in Heq. apply N.eqb_eq in Heq as ->. by rewrite (Hinj _ _ _ Hak Hin).
    - apply btree_entries_In in Hak. pose proof (find_none _ _ E _ Hak) as Hx. cbn in Hx. by rewrite N.eqb_refl in Hx. }
  cbn [fst]. set (st' := mkAdmission _ _ _ _ _ _).
  assert (asked st = asked st' + n_subs (node_of k)) as Hasked.
  { unfold asked. rewrite (sum_map_delete asks (active_keys st) k id Hak). cbn. unfold asks at 1. cbn. lia. }
  split_and!; [| |done|done].
  - split; cbn.
    + intros k' id' Hk'. destruct (Hg k' id' Hk') as [H1 H2]. assert (k' <> k) by congruence. assert (id' <> id) by congruence.
      by rewrite !lookup_delete_ne.
    + intros id' fp [Hne Hid']%lookup_delete_Some. destruct (Ha id' fp Hid') as (k' & H1 & H2 & H3). exists k'.
      assert (k' <> k) by congruence. by rewrite lookup_delete_ne.
    + intros k' id' [Hne Hk']%lookup_delete_Some. destruct (Hk k' id' Hk') as [Hle Hor]. split; [done|].
      assert (id' <> id) by (intros ->; apply Hne; by apply (Hinj _ _ id)). by rewrite lookup_delete_ne.
    + intros k1 k2 id' [_ H1]%lookup_delete_Some [_ H2]%lookup_delete_Some. by apply (Hinj _ _ id').
    + rewrite Hu. lia.
    + lia.
  - split; [done|]. intros p Hp. destruct (Hf p Hp) as [H1 H2]. split; [|done]. cbn. apply lookup_delete_None. by right.
Qed.

(** What the held reservations add up to is part of what was asked for. *)
Lemma held_within_asked st : ainv st -> sum_map (fun e => f_subs e.2) (active st) <= asked st.
Proof.
  intros Hi. unfold asked. assert (Hgo : forall am ak, (forall id fp, am !! id = Some fp -> exists k, ak !! k = Some id /\ fp = from_node (node_of k)) ->
    sum_map (fun e => f_subs e.2) am <= sum_map asks ak).
  { intros am. induction am as [|id fp am Hid IH] using map_ind; intros ak H; [rewrite sum_map_empty; lia|].
    destruct (H id fp ltac:(apply lookup_insert_eq)) as (k & Hk & ->). rewrite sum_map_insert by done.
    rewrite (sum_map_delete asks ak k id Hk). cbn. unfold asks at 1. cbn.
    enough (sum_map (fun e => f_subs e.2) am <= sum_map asks (delete k ak)) by lia.
    apply IH. intros id' fp' Hid'. assert (id' <> id) by congruence.
    destruct (H id' fp') as (k' & Hk' & ->); [by rewrite lookup_insert_ne|]. exists k'. rewrite lookup_delete_ne by congruence. done. }
  apply Hgo. intros id fp Hfp. destruct (ai_active _ Hi id fp Hfp) as (k & ? & _ & ?). by exists k.
Qed.

Lemma take_next mission requests st : next_id (take mission requests st).2 = next_id st.
Proof.
  unfold take. assert (Hgo : forall ks a, next_id (fold_left (take_one mission requests) ks a).2 = next_id a.2); [|apply Hgo].
  induction ks as [|k ks IH]; intros [g s]; [done|]. cbn [fold_left]. rewrite IH. unfold take_one.
  destruct (granted s !! k); [|done]. by destruct (List.find _ _).
Qed.

Lemma pass_next mission requests host host' st : let st' := (pass mission requests host host' st).2 in
  next_id st' < u64_max -> next_id st <= next_id st'.
Proof.
  unfold pass. pose proof (take_next mission requests (drain host st)) as Ht.
  destruct (take mission requests (drain host st)) as [got st1]. cbn in *. rewrite Ht. apply drain_queue_frame.
Qed.

Lemma admit_batch_next mission requests host host' st : let st' := (admit_batch mission requests host host' st).2 in
  next_id st' < u64_max -> next_id st <= next_id st'.
Proof.
  assert (Hemp : forall st, next_id (enqueue mission requests st) = next_id st).
  { unfold enqueue. induction requests as [|r l IH]; intros st0; [done|]. cbn [fold_left]. rewrite IH. unfold enqueue_one. by destruct (_ || _). }
  unfold admit_batch. destruct requests as [|r l]; [cbn; lia|]. cbn zeta. intros Hid. rewrite <- Hemp. by apply pass_next.
Qed.

(** What a round or a call leaves, seen from [st]. *)
Definition good (M : N) (st : AdmissionState) (r : option AdmissionBatch * AdmissionState) : Prop :=
  ainv r.2 /\ qinv r.2 (pending r.2) /\ asked r.2 <= N.max (asked st) M /\
  dom (active r.2) = (match r.1 with Some b => list_to_set (admitted b).*2 | None => ∅ end) ∪ dom (active st).

Lemma pass_inv mission requests host host' st : consistent (mission, requests) -> r_subs host <= u32_max ->
  ainv st -> qinv st (pending st) -> next_id (pass mission requests host host' st).2 < u64_max ->
  good (r_subs host) st (pass mission requests host host' st).
Proof.
  intros Hc Hh Hi Hq. unfold pass, good. pose proof (take_inv mission requests (drain host st) Hc) as Ht.
  pose proof (take_next mission requests (drain host st)) as Hn. pose proof (drain_inv host st Hh Hi Hq) as Hd.
  destruct (take mission requests (drain host st)) as [got st1]. cbn in *. intros Hid.
  destruct (Hd ltac:(congruence)) as (Hi1 & Hq1 & Ha1 & Has1 & Has2). destruct (Ht Hi1 Hq1) as (Hi2 & Hq2 & Has & _ & Hdom).
  split_and!; [done|done|lia|]. rewrite Hdom, Ha1.
  destruct got as [|g got]; [|done]. destruct (negb _); [done|]. by destruct (_ && _).
Qed.

Lemma admit_batch_inv mission requests host host' st : consistent (mission, requests) -> r_subs host <= u32_max ->
  ainv st -> qinv st (pending st) -> next_id (admit_batch mission requests host host' st).2 < u64_max ->
  good (r_subs host) st (admit_batch mission requests host host' st).
Proof.
  intros Hc Hh Hi Hq. unfold admit_batch. destruct requests as [|r0 rest]; [intros _; split_and!; cbn; try done; [lia|set_solver]|].
  intros Hid. destruct (enqueue_inv mission (r0 :: rest) st Hc Hi Hq) as (Hi1 & Hq1 & Ha1 & Has1 & _).
  pose proof (pass_inv mission (r0 :: rest) host host' _ Hc Hh Hi1 Hq1 Hid) as Hg. unfold good in *. by rewrite Has1, Ha1 in Hg.
Qed.

Record winv (M : N) (w : World) : Prop := {
  wi_adm : ainv (adm w);
  wi_queue : qinv (adm w) (pending (adm w));
  wi_held : dom (active (adm w)) = held w;
  wi_waiting : Forall consistent (waiting w);
  wi_bound : asked (adm w) <= M;
}.

Lemma settled_inv M w c others r : winv M w -> consistent c -> Forall consistent others -> good M (adm w) r ->
  winv M (settled w c others r).
Proof.
  intros [_ _ Hh _ Hb] Hc Ho. destruct r as [[b|] st]; intros (Hi & Hq & Hle & Hd); cbn in *; split; cbn; try done; try lia.
  - by rewrite Hd, Hh.
  - rewrite Hd, Hh. set_solver.
  - apply Forall_app. split; [done|]. by constructor.
Qed.

Lemma settled_adm w c others r : adm (settled w c others r) = r.2.
Proof. by destruct r as [[b|] st]. Qed.

Lemma good_le M M' st r : M <= M' -> good M st r -> good M' st r.
Proof. intros Hle (? & ? & ? & ?). split_and!; try done. lia. Qed.

Lemma step_next M w w' : step node_of M w w' -> next_id (adm w') < u64_max -> next_id (adm w) <= next_id (adm w').
Proof.
  destruct 1 as [w mission requests host host' Hc Hh|w l1 mission requests l2 host host' Hwait Hh|w id Hid].
  - rewrite settled_adm. apply admit_batch_next.
  - rewrite settled_adm. apply pass_next.
  - cbn. unfold release. destruct (active (adm w) !! id); cbn; lia.
Qed.

Lemma step_winv M w w' : M <= u32_max -> step node_of M w w' -> next_id (adm w') < u64_max -> winv M w -> winv M w'.
Proof.
  intros HM. destruct 1 as [w mission requests host host' Hc Hh|w l1 mission requests l2 host host' Hwait Hh|w id Hid];
    rewrite ?settled_adm; intros Hlt Hw; pose proof Hw as [Hi Hq Hd Hwt Hb].
  - apply settled_inv; [done|done|done|]. apply (good_le (r_subs host)); [done|]. apply admit_batch_inv; [done|lia|done..].
  - rewrite Hwait in Hwt. apply Forall_app in Hwt as [Hl1 Hl2]. inversion Hl2 as [|?? Hc Hl2']; subst.
    apply settled_inv; [done|done|by apply Forall_app|]. apply (good_le (r_subs host)); [done|]. apply pass_inv; [done|lia|done..].
  - rewrite <- Hd in Hid. apply elem_of_dom in Hid as [fp Hfp]. destruct (release_inv _ _ _ Hi Hq Hfp) as (? & ? & Has & Hact).
    split; cbn; try done; [by rewrite Hact, dom_delete_L, Hd|lia].
Qed.

Lemma reached_winv M w : M <= u32_max -> rtc (step node_of M) World_default w -> next_id (adm w) < u64_max -> winv M w.
Proof.
  intros HM. revert w. apply (rtc_ind_r (fun w => next_id (adm w) < u64_max -> winv M w)).
  - intros _. split; cbn; [apply ainv_default| |done|constructor|].
    + split; [constructor|]. intros p Hp. by apply not_elem_of_nil in Hp.
    + unfold asked. cbn. rewrite sum_map_empty. lia.
  - intros x y _ Hs IH Hlt. pose proof (step_next M x y Hs Hlt). apply (step_winv M x y); [done|done|done|]. apply IH. lia.
Qed.

(** C36. However missions call, wait, wake and finish, until the counter of reservations
    wraps and as long as a key asks for the same resources whenever it is presented
    ([consistent]; a request changed while its key is queued or alive breaks the books,
    [changed_request_leaks]), the reservations that are alive never hold more child
    processes than the host was ever measured to allow, and for child processes the ledger
    is exact: every reservation alive is in it once, with what its request asked for, and
    what counts as in use is what the reservations and the grants not yet taken ask for
    together (other resources can drift, [drift_blocks_an_idle_host]). *)
Theorem host_is_never_oversubscribed M w : M <= u32_max -> rtc (step node_of M) World_default w -> next_id (adm w) < u64_max ->
  sum_map (fun e => f_subs e.2) (active (adm w)) <= M /\
  dom (active (adm w)) = held w /\
  f_subs (used (adm w)) = asked (adm w) /\
  (forall id fp, active (adm w) !! id = Some fp ->
     exists k, active_keys (adm w) !! k = Some id /\ granted (adm w) !! k = None /\ fp = from_node (node_of k)).
Proof.
  intros HM Hr Hlt. destruct (reached_winv M w HM Hr Hlt) as [Hi _ Hd _ Hb].
  split_and!; [|done|by apply ai_used|by apply ai_active]. pose proof (held_within_asked (adm w) Hi). lia.
Qed.

(** The end of a reservation gives back exactly what it held, once, and nothing of any
    other: the request can be made again. *)
Theorem reservation_is_returned_once M w id : M <= u32_max -> rtc (step node_of M) World_default w -> next_id (adm w) < u64_max ->
  id ∈ held w ->
  exists k, active_keys (adm w) !! k = Some id /\
    let st := release (adm w) id in
    f_subs (used (adm w)) = f_subs (used st) + n_subs (node_of k) /\
    active st = delete id (active (adm w)) /\ active_keys st !! k = None /\ granted st = granted (adm w) /\ pending st = pending (adm w) /\
    release st id = st.
Proof.
  intros HM Hr Hlt Hid. destruct (reached_winv M w HM Hr Hlt) as [Hi Hq Hd _ _]. rewrite <- Hd in Hid.
  apply elem_of_dom in Hid as [fp Hfp]. destruct (release_inv _ _ _ Hi Hq Hfp) as (Hi' & _ & Has & Hact).
  destruct (ai_active _ Hi id fp Hfp) as (k & Hk & Hg & ->). exists k. split; [done|]. cbn zeta.
  rewrite (ai_used _ Hi), (ai_used _ Hi'). split_and!; [done|done| | | |].
  - destruct (active_keys (release (adm w) id) !! k) as [id'|] eqn:E; [|done]. exfalso.
    destruct (ai_keys _ Hi' k id' E) as [_ [Hx|Hx]]; unfold release in Hx, E; rewrite Hfp in Hx, E; cbn in Hx, E; [congruence|].
    destruct (List.find _ _) as [[k' id'']|] eqn:Ef; [|by rewrite E in Hk; injection Hk as ->; rewrite lookup_delete_eq in Hx; destruct Hx].
    apply lookup_delete_Some in E as [Hne E]. apply find_some in Ef as [Hin%btree_entries_In Heq]. cbn in Heq. apply N.eqb_eq in Heq as ->.
    apply Hne. by apply (ai_inj _ Hi k' k id).
  - unfold release. by rewrite Hfp.
  - unfold release. by rewrite Hfp.
  - unfold release at 1. by rewrite Hact, lookup_delete_eq.
Qed.
End Accounting.

(** ** Concrete runs, and what they show *)

Definition host1 : Resources := mkResources (F64.of_frac 1 1) F64.zero F64.MAX 2 true ["exec_command"].
Definition cpus (m d : Z) : DagNode := mkNode "n" (F64.of_frac m d) F64.zero F64.zero 1 true ["exec_command"].
Definition whole : DagNode := cpus 1 1.
Definition of_key (k : string) : DagNode := cpus 1 2.

Lemma line_is_kept_witness :
  let st := enqueue "a" [(0, cpus 7 10); (1, cpus 6 10); (2, cpus 1 10)] AdmissionState_default in
  granted (drain host1 st) !! key "a" 1 = None /\ granted (drain host1 st) !! key "a" 2 = None /\
  exists ahead back, pending (drain host1 st) = ahead ++ mkPending (key "a" 1) (cpus 6 10) :: [mkPending (key "a" 2) (cpus 1 10)] ++ back.
Proof.
  intros st. assert (granted (drain host1 st) !! key "a" 1 = None) as H1 by (vm_compute; reflexivity).
  split; [done|]. split; [vm_compute; reflexivity|].
  destruct (line_is_kept host1 st [mkPending (key "a" 0) (cpus 7 10)] (mkPending (key "a" 1) (cpus 6 10)) [mkPending (key "a" 2) (cpus 1 10)])
    as [Hg|(ahead & back & Hp & _)]; [vm_compute; reflexivity|vm_compute; reflexivity| |by exists ahead, back].
  cbn [p_key] in Hg. fold st in Hg. rewrite H1 in Hg. by destruct Hg.
Defined.

Definition first_in_line : Pending := mkPending (key "a" 0) whole.
Definition waiting_line : AdmissionState := set_pending AdmissionState_default [first_in_line].
Lemma idle_host_serves_the_first_witness : is_Some (granted (drain host1 waiting_line) !! p_key first_in_line).
Proof.
  apply (idle_host_serves_the_first host1 waiting_line first_in_line []); [reflexivity|reflexivity|vm_compute; reflexivity].
Defined.

Definition two_requests : list (N * DagNode) := [(0, of_key (key "a" 0)); (1, of_key (key "a" 1))].
Definition after_call : World := settled World_default ("a", two_requests) [] (admit_batch "a" two_requests host1 host1 AdmissionState_default).
Lemma after_call_reached : rtc (step of_key 2) World_default after_call.
Proof. apply rtc_once, (s_call of_key 2 World_default "a" two_requests host1 host1); [repeat constructor|done]. Qed.

Lemma host_is_never_oversubscribed_witness :
  sum_map (fun e => f_subs e.2) (active (adm after_call)) = 2 /\ sum_map (fun e => f_subs e.2) (active (adm after_call)) <= 2.
Proof.
  split; [vm_compute; reflexivity|].
  refine (proj1 (host_is_never_oversubscribed of_key 2 after_call _ after_call_reached _)); [done|vm_compute; reflexivity].
Defined.

Lemma reservation_is_returned_once_witness :
  exists k, active_keys (adm after_call) !! k = Some 1 /\ active_keys (release (adm after_call) 1) !! k = None.
Proof.
  destruct (reservation_is_returned_once of_key 2 after_call 1) as (k & Hk & _ & _ & Hn & _);
    [done|exact after_call_reached|vm_compute; reflexivity| |exists k; exact (conj Hk Hn)].
  apply (bool_decide_unpack _). vm_compute. exact I.
Defined.

(** Sums of [f64]s drift: once the nodes that took 0.2 and 0.6 of the only processor are done,
    [used] is not zero, and a node that needs the whole processor is refused on an idle host,
    although the host fits it. *)
Definition drifted : AdmissionState :=
  release (release (admit_batch "a" [(0, cpus 2 10); (1, cpus 6 10)] host1 host1 AdmissionState_default).2 1) 2.
Lemma drift_blocks_an_idle_host :
  active drifted = ∅ /\ granted drifted = ∅ /\ pending drifted = [] /\
  admits whole host1 = true /\
  (blocked <$> (admit_batch "b" [(0, whole)] host1 host1 drifted).1) = Some (Some (mkBlock "n" NoProgress)).
Proof. vm_compute. done. Qed.

(** Of two nodes of a mission one runs and the other stays queued.  When the mission fails and
    its reservations end, the queued request remains: the next mission's call grants it, with
    nobody to take it, and waits for a release that nobody is left to make; every later round
    finds the same. *)
Definition one_slot : Resources := mkResources (F64.of_frac 8 1) F64.zero F64.MAX 1 true ["exec_command"].
Definition abandoned : AdmissionState :=
  release (admit_batch "dag-1" [(0, whole); (1, whole)] one_slot one_slot AdmissionState_default).2 1.
Lemma abandoned_request_starves_the_next_mission :
  let w := settled (mkWorld abandoned [] ∅) ("dag-2", [(0, whole)]) [] (admit_batch "dag-2" [(0, whole)] one_slot one_slot abandoned) in
  waiting w = [("dag-2", [(0, whole)])] /\ held w = ∅ /\ admits whole one_slot = true /\
  pass "dag-2" [(0, whole)] one_slot one_slot (adm w) = (None, adm w).
Proof. vm_compute. done. Qed.

(** The footprint of a reservation is that of the request presented when the grant is taken,
    not of the one that was queued: the difference stays in use. *)
Definition small_node : DagNode := mkNode "n" F64.zero F64.zero F64.zero 0 false [].
Definition big_node : DagNode := mkNode "n" F64.zero F64.zero F64.zero 1 false [].
Lemma changed_request_leaks :
  let st := (admit_batch "a" [(0, big_node); (1, big_node)] one_slot one_slot AdmissionState_default).2 in
  let st := (admit_batch "a" [(1, small_node)] one_slot one_slot (release st 1)).2 in
  active (release st 2) = ∅ /\ f_subs (used (release st 2)) = 1.
Proof. vm_compute. done. Qed.
