(* ===== verification/PulseQueue.v ===== *)
(** * PulseQueue: the queue of intents and its sleeping consumer
    ([crates/susi-core/src/queue.rs]), and the states of a model ([model_health.rs])

    The queue's two lanes are lock-free and its consumer sleeps with [park]: what matters is
    how the calls interleave.  Section [Threads] takes every access to shared state as one
    step of the thread that makes it.  [unpark] sets a token that the next [park] consumes; a
    parked thread may also wake for no reason.  The edition of the crate is 2021, so the read
    lock an ingest takes for its wake-up covers both branches: they are one step. *)

From S2P Require Import Prelude Text.

Local Open Scope string_scope.
Local Open Scope list_scope.
Local Open Scope N_scope.

(** ** The queue *)

Record PulseEntry : Type := mkEntry {
  intent : string;
  workspace : string;
  version : string;
  priority : N;
}.
Record SubstratePulseQueue : Type := mkQueue {
  priority_queue : list PulseEntry;
  standard_queue : list PulseEntry;
  consumer_thread : option N;
  pending_wake : bool;
}.
Definition SubstratePulseQueue_new : SubstratePulseQueue := mkQueue [] [] None false.

(** Only ASCII letters can lower to the letters of these words in their place. *)
Definition priority_of (intent : string) : N :=
  let l := to_ascii_lowercase intent in
  if contains "stop" l || contains "wait" l || contains "correction" l then 1 else 0.
Definition entry_of (intent workspace version : string) : PulseEntry :=
  mkEntry intent workspace version (priority_of intent).

Definition set_lanes (q : SubstratePulseQueue) (p s : list PulseEntry) : SubstratePulseQueue :=
  mkQueue p s (consumer_thread q) (pending_wake q).
(** The push of [ingest]. *)
Definition push (q : SubstratePulseQueue) (e : PulseEntry) : SubstratePulseQueue :=
  if 0 <? priority e then set_lanes q (priority_queue q ++ [e]) (standard_queue q)
  else set_lanes q (priority_queue q) (standard_queue q ++ [e]).

(** [pop], alone. *)
Definition pop (q : SubstratePulseQueue) : option PulseEntry * SubstratePulseQueue :=
  match priority_queue q with
  | e :: l => (Some e, set_lanes q l (standard_queue q))
  | [] => match standard_queue q with
          | e :: l => (Some e, set_lanes q [] l)
          | [] => (None, q)
          end
  end.
Definition is_empty (q : SubstratePulseQueue) : bool :=
  match priority_queue q, standard_queue q with [], [] => true | _, _ => false end.
Definition clear (q : SubstratePulseQueue) : SubstratePulseQueue := set_lanes q [] [].

(** ** Threads *)

(** Where a thread is; one that is in none of the calls is not in the map. *)
Inductive Pc : Type :=
| Notify
| Swap
| CheckPriority (pending : bool)
| CheckStandard
| PopPriority
| PopStandard
| Park
| Parked.

(** The queue, the park tokens, the threads, and what was pushed to and taken from each lane. *)
Record Machine : Type := mkMachine {
  q : SubstratePulseQueue;
  token : gset N;
  at_ : gmap N Pc;
  pushed : list PulseEntry;
  taken_priority : list PulseEntry;
  taken_standard : list PulseEntry;
}.
Definition Machine_new : Machine := mkMachine SubstratePulseQueue_new ∅ ∅ [] [] [].

Definition goto (m : Machine) (q' : SubstratePulseQueue) (tk : gset N) (at' : gmap N Pc) : Machine :=
  mkMachine q' tk at' (pushed m) (taken_priority m) (taken_standard m).
Definition set_consumer (x : SubstratePulseQueue) (i : N) : SubstratePulseQueue :=
  mkQueue (priority_queue x) (standard_queue x) (Some i) (pending_wake x).
Definition set_wake (x : SubstratePulseQueue) (b : bool) : SubstratePulseQueue :=
  mkQueue (priority_queue x) (standard_queue x) (consumer_thread x) b.

Section Threads.
(** The threads that register as the consumer. *)
Context (registers : N -> Prop).

Inductive step : Machine -> Machine -> Prop :=
(* ingest *)
| st_push m i e : at_ m !! i = None ->
    step m (mkMachine (push (q m) e) (token m) (<[i := Notify]> (at_ m)) (pushed m ++ [e]) (taken_priority m) (taken_standard m))
| st_notify m i : at_ m !! i = Some Notify ->
    step m (match consumer_thread (q m) with
            | Some t => goto m (q m) ({[t]} ∪ token m) (delete i (at_ m))
            | None => goto m (set_wake (q m) true) (token m) (delete i (at_ m))
            end)
(* register_consumer *)
| st_register m i : at_ m !! i = None -> registers i -> step m (goto m (set_consumer (q m) i) (token m) (<[i := Swap]> (at_ m)))
| st_swap m i : at_ m !! i = Some Swap ->
    step m (goto m (set_wake (q m) false) (token m) (<[i := CheckPriority (pending_wake (q m))]> (at_ m)))
| st_check_priority m i p : at_ m !! i = Some (CheckPriority p) ->
    step m (if p || negb (bool_decide (priority_queue (q m) = [])) then goto m (q m) ({[i]} ∪ token m) (delete i (at_ m))
            else goto m (q m) (token m) (<[i := CheckStandard]> (at_ m)))
| st_check_standard m i : at_ m !! i = Some CheckStandard ->
    step m (goto m (q m) (if bool_decide (standard_queue (q m) = []) then token m else {[i]} ∪ token m) (delete i (at_ m)))
(* pop_blocking *)
| st_block m i : at_ m !! i = None -> step m (goto m (q m) (token m) (<[i := PopPriority]> (at_ m)))
| st_pop_priority m i : at_ m !! i = Some PopPriority ->
    step m (match priority_queue (q m) with
            | e :: l => mkMachine (set_lanes (q m) l (standard_queue (q m))) (token m) (delete i (at_ m)) (pushed m)
                          (taken_priority m ++ [e]) (taken_standard m)
            | [] => goto m (q m) (token m) (<[i := PopStandard]> (at_ m))
            end)
| st_pop_standard m i : at_ m !! i = Some PopStandard ->
    step m (match standard_queue (q m) with
            | e :: l => mkMachine (set_lanes (q m) (priority_queue (q m)) l) (token m) (delete i (at_ m)) (pushed m)
                          (taken_priority m) (taken_standard m ++ [e])
            | [] => goto m (q m) (token m) (<[i := Park]> (at_ m))
            end)
| st_park m i : at_ m !! i = Some Park ->
    step m (if bool_decide (i ∈ token m) then goto m (q m) (token m ∖ {[i]}) (<[i := PopPriority]> (at_ m))
            else goto m (q m) (token m) (<[i := Parked]> (at_ m)))
| st_wake m i : at_ m !! i = Some Parked -> step m (goto m (q m) (token m ∖ {[i]}) (<[i := PopPriority]> (at_ m)))
(* pop and clear of other threads: each takes the first entry of a lane, if there is one *)
| st_take_priority m e l : priority_queue (q m) = e :: l ->
    step m (mkMachine (set_lanes (q m) l (standard_queue (q m))) (token m) (at_ m) (pushed m) (taken_priority m ++ [e]) (taken_standard m))
| st_take_standard m e l : standard_queue (q m) = e :: l ->
    step m (mkMachine (set_lanes (q m) (priority_queue (q m)) l) (token m) (at_ m) (pushed m) (taken_priority m) (taken_standard m ++ [e])).
End Threads.

(** ** The states of a model *)

Inductive FailureClass : Type :=
| Network | RateLimited | InsufficientQuota | InvalidCredential | ServiceError | NotFound | Unsupported | UnknownFailure.
Inductive ModelHealth : Type :=
| Unknown
| Healthy
| Degraded (reason : string)
| Unhealthy (class : FailureClass) (reason : string)
| Dead (class : FailureClass).
Definition mark_healthy (h : ModelHealth) : ModelHealth := Healthy.
Definition mark_degraded (h : ModelHealth) (reason : string) : ModelHealth := Degraded reason.
Definition mark_unhealthy (h : ModelHealth) (class : FailureClass) (reason : string) : ModelHealth := Unhealthy class reason.
Definition mark_dead (h : ModelHealth) (class : FailureClass) : ModelHealth := Dead class.
Definition is_usable (h : ModelHealth) : bool := match h with Healthy | Degraded _ => true | _ => false end.
Definition is_terminal (h : ModelHealth) : bool := match h with Dead _ => true | _ => false end.
Definition failure_class (h : ModelHealth) : option FailureClass :=
  match h with Unhealthy c _ | Dead c => Some c | _ => None end.

(** ** Lanes are queues *)

Definition in_lane (high : bool) (e : PulseEntry) : bool := Bool.eqb (0 <? priority e) high.

Record lanes_ok (m : Machine) : Prop := {
  lo_priority : List.filter (in_lane true) (pushed m) = taken_priority m ++ priority_queue (q m);
  lo_standard : List.filter (in_lane false) (pushed m) = taken_standard m ++ standard_queue (q m);
}.

Lemma step_lanes registers m m' : step registers m m' -> lanes_ok m -> lanes_ok m'.
Proof.
  destruct 1 as [m i e Hi|m i Hi|m i Hi Hr|m i Hi|m i p Hi|m i Hi|m i Hi|m i Hi|m i Hi|m i Hi|m i Hi|m e l Hq|m e l Hq]; intros [H1 H2].
  all: try (repeat case_match; by split).
  - unfold push. split; cbn [q pushed taken_priority taken_standard]; rewrite List.filter_app, ?H1, ?H2; cbn [List.filter];
      unfold in_lane; destruct (0 <? priority e); cbn; rewrite ?app_nil_r, <- ?app_assoc; done.
  - destruct (priority_queue (q m)) as [|e l] eqn:E; split; cbn; rewrite ?E; try done; by rewrite <- app_assoc.
  - destruct (standard_queue (q m)) as [|e l] eqn:E; split; cbn; rewrite ?E; try done; by rewrite <- app_assoc.
  - rewrite Hq in H1. split; cbn; [by rewrite <- app_assoc|done].
  - rewrite Hq in H2. split; cbn; [done|by rewrite <- app_assoc].
Qed.

(** Every lane is a queue, however the threads interleave: what was taken from it and then
    what is still in it is exactly what was pushed to it, in the order of the pushes; so
    nothing is lost, invented, delivered twice or reordered within its class. *)
Theorem lanes_are_fifo registers m : rtc (step registers) Machine_new m ->
  List.filter (in_lane true) (pushed m) = taken_priority m ++ priority_queue (q m) /\
  List.filter (in_lane false) (pushed m) = taken_standard m ++ standard_queue (q m).
Proof.
  intros Hr. assert (lanes_ok m) as [H1 H2]; [|done]. revert Hr. apply (rtc_ind_r lanes_ok); [done|].
  intros x y _ Hxy. by apply (step_lanes registers).
Qed.

(** ** No wake-up is lost *)

(** The entries a thread does not see before it sleeps. *)
Definition unseen (m : Machine) (c : N) : list PulseEntry :=
  match at_ m !! c with
  | Some PopStandard => priority_queue (q m)
  | Some Park | Some Parked => priority_queue (q m) ++ standard_queue (q m)
  | _ => []
  end.
Definition notifying (m : Machine) : Prop := exists i, at_ m !! i = Some Notify.
Record awake (c : N) (m : Machine) : Prop := {
  aw_consumer t : consumer_thread (q m) = Some t -> t = c;
  aw_unseen : consumer_thread (q m) = Some c -> unseen m c <> [] -> c ∈ token m \/ notifying m;
}.

Lemma awake_keep c m m' : consumer_thread (q m') = consumer_thread (q m) ->
  (unseen m' c <> [] -> unseen m c <> [] /\ (c ∈ token m -> c ∈ token m')) ->
  (notifying m -> notifying m') -> awake c m -> awake c m'.
Proof.
  intros Hc Hu Hn [H1 H2]. split; rewrite Hc; [done|]. intros Hs Hne. destruct (Hu Hne) as [Hne' Ht].
  destruct (H2 Hs Hne'); auto.
Qed.

Lemma notifying_move m i pc : at_ m !! i = pc -> pc <> Some Notify ->
  notifying m -> exists j, i <> j /\ at_ m !! j = Some Notify.
Proof. intros Hi Hpc [j Hj]. exists j. split; [congruence|done]. Qed.

(** Another thread still notifies after thread [i] moved. *)
Ltac moved Hi :=
  let Hn := fresh in let j := fresh in
  intros Hn; destruct (notifying_move _ _ _ Hi ltac:(done) Hn) as (j & ? & ?); exists j;
  repeat case_match; cbn; rewrite ?lookup_insert_ne, ?lookup_delete_ne by done; done.
(** Whether thread [i] is the one watched. *)
Ltac whose i c :=
  repeat case_match; unfold unseen; cbn;
  (destruct (decide (i = c)) as [->|?];
   [rewrite ?lookup_insert_eq, ?lookup_delete_eq|rewrite ?lookup_insert_ne, ?lookup_delete_ne by done]);
  try done.

(** Taking an entry from a lane leaves no more unseen. *)
Ltac fewer :=
  repeat case_match; simplify_eq/=; try done;
  repeat match goal with H : priority_queue _ = _ |- _ => rewrite H in * | H : standard_queue _ = _ |- _ => rewrite H in * end;
  rewrite ?app_nil; naive_solver.

Lemma step_awake c m m' : step (eq c) m m' -> awake c m -> awake c m'.
Proof.
  destruct 1 as [m i e Hi|m i Hi|m i Hi Hr|m i Hi|m i p Hi|m i Hi|m i Hi|m i Hi|m i Hi|m i Hi|m i Hi|m e l Hq|m e l Hq]; intros Hw.
  - destruct Hw as [H1 H2]. split; cbn; [by unfold push; case_match|]. intros _ _. right. exists i. cbn. by rewrite lookup_insert_eq.
  - destruct Hw as [H1 H2]. destruct (consumer_thread (q m)) as [t|] eqn:E; split; cbn; try apply H1; rewrite E; try done.
    intros [= ->] _. left. set_solver.
  - subst i. destruct Hw as [H1 H2]. split; cbn; [by intros t [= <-]|]. unfold unseen. cbn. by rewrite lookup_insert_eq.
  - apply (awake_keep c m); [done|whose i c|moved Hi|done].
  - apply (awake_keep c m); [by case_match| |moved Hi|done]. whose i c. split; [done|set_solver].
  - apply (awake_keep c m); [done| |moved Hi|done]. whose i c. intros ?. split; [done|set_solver].
  - apply (awake_keep c m); [done|whose i c|moved Hi|done].
  - apply (awake_keep c m); [by case_match| |moved Hi|done]. whose i c. intros Hne. split; [|done]. fewer.
  - apply (awake_keep c m); [by case_match| |moved Hi|done]. whose i c;
      [rewrite Hi; match goal with H : standard_queue _ = [] |- _ => by rewrite H, app_nil_r end|]. intros Hne. split; [|done]. fewer.
  - apply (awake_keep c m); [by case_match| |moved Hi|done]. whose i c; [|by rewrite Hi]. intros Hne. split; [done|set_solver].
  - apply (awake_keep c m); [done| |moved Hi|done]. whose i c. intros Hne. split; [done|set_solver].
  - apply (awake_keep c m); [done| |done|done]. unfold unseen. cbn. intros Hne. split; [|done]. fewer.
  - apply (awake_keep c m); [done| |done|done]. unfold unseen. cbn. intros Hne. split; [|done]. fewer.
Qed.

(** C37. No wake-up is lost: let one thread register as the consumer, before or after intents
    arrive, and any threads ingest, take and clear.  Whenever that thread is asleep with
    nothing to wake it although an intent is queued, some ingest is still on its way to wake
    it; once no ingest is under way, it sleeps only on an empty queue. *)
Theorem no_wake_up_is_lost c m : rtc (step (eq c)) Machine_new m ->
  consumer_thread (q m) = Some c -> at_ m !! c = Some Parked -> c ∉ token m -> is_empty (q m) = false ->
  exists i, at_ m !! i = Some Notify.
Proof.
  intros Hr Hc Hp Ht He. assert (awake c m) as [_ H].
  { revert Hr. apply (rtc_ind_r (awake c)); [by split|]. intros x y _ Hxy. by apply step_awake. }
  destruct (H Hc) as [?|?]; [|done|done]. unfold unseen. rewrite Hp. unfold is_empty in He.
  by destruct (priority_queue (q m)), (standard_queue (q m)).
Qed.

(** [pop] serves the urgent first, each class in order, and fails only on an empty
    queue. *)
Theorem pop_serves_urgent_first x : 
  match pop x with
  | (Some e, x') =>
      priority_queue x ++ standard_queue x = e :: priority_queue x' ++ standard_queue x' /\
      (priority_queue x = [] -> priority_queue x' = [])
  | (None, x') => is_empty x = true /\ x' = x
  end.
Proof. destruct x as [[|e p] [|s l] c w]; by cbn. Qed.

(** ** Concrete runs, and what they show *)

Definition work : PulseEntry := entry_of "refactor this" "/ws" "0.3.0".

(** Thread 1 registers and sleeps; thread 2 pushes, and has not notified it yet. *)
Definition asleep : Machine :=
  mkMachine (mkQueue [] [work] (Some 1) false) ∅ {[1 := Parked; 2 := Notify]} [work] [] [].

Lemma registered_asleep registers : registers 1 ->
  rtc (step registers) Machine_new (mkMachine (mkQueue [] [] (Some 1) false) ∅ {[1 := Parked]} [] [] []).
Proof.
  intros Hr. eapply rtc_l; [apply (st_register _ _ 1); done|]. cbn.
  eapply rtc_l; [apply (st_swap _ _ 1); reflexivity|]. eapply rtc_l; [apply (st_check_priority _ _ 1 false); reflexivity|]. cbn.
  eapply rtc_l; [apply (st_check_standard _ _ 1); reflexivity|]. cbn.
  eapply rtc_l; [apply (st_block _ _ 1); reflexivity|]. cbn.
  eapply rtc_l; [apply (st_pop_priority _ _ 1); reflexivity|]. cbn.
  eapply rtc_l; [apply (st_pop_standard _ _ 1); reflexivity|]. cbn.
  eapply rtc_l; [apply (st_park _ _ 1); reflexivity|]. vm_compute. apply rtc_refl.
Qed.

Lemma asleep_reached : rtc (step (eq 1)) Machine_new asleep.
Proof.
  eapply rtc_r; [apply registered_asleep; done|].
  exact (st_push (eq 1) (mkMachine (mkQueue [] [] (Some 1) false) ∅ {[1 := Parked]} [] [] []) 2 work eq_refl).
Qed.

Lemma no_wake_up_is_lost_witness : exists i, at_ asleep !! i = Some Notify.
Proof. exact (no_wake_up_is_lost 1 asleep asleep_reached eq_refl eq_refl ltac:(set_solver) eq_refl). Defined.

Lemma lanes_are_fifo_witness :
  List.filter (in_lane false) (pushed asleep) = taken_standard asleep ++ standard_queue (q asleep) /\ pushed asleep = [work].
Proof. split; [exact (proj2 (lanes_are_fifo (eq 1) asleep asleep_reached))|done]. Defined.

(** A second thread that registers takes the place of the first, which sleeps on although an
    intent is queued and nobody is on the way to wake it. *)
Lemma second_consumer_silences_the_first : exists m,
  rtc (step (fun _ => True)) Machine_new m /\ at_ m !! 1 = Some Parked /\ 1 ∉ token m /\ is_empty (q m) = false /\
  (forall i, at_ m !! i <> Some Notify).
Proof.
  exists (mkMachine (mkQueue [] [work] (Some 3) false) {[3]} {[1 := Parked]} [work] [] []). split.
  - etransitivity; [apply (registered_asleep (fun _ => True)); done|].
    eapply rtc_l; [apply (st_register _ _ 3); done|]. cbn. eapply rtc_l; [apply (st_swap _ _ 3); reflexivity|]. cbn.
    eapply rtc_l; [apply (st_check_priority _ _ 3 false); reflexivity|]. cbn.
    eapply rtc_l; [apply (st_check_standard _ _ 3); reflexivity|]. cbn.
    eapply rtc_l; [apply (st_push _ _ 2 work); reflexivity|]. cbn.
    eapply rtc_l; [apply (st_notify _ _ 2); reflexivity|]. vm_compute. apply rtc_refl.
  - split_and!; [done|set_solver|done|]. intros i. cbn. destruct (decide (i = 1)) as [->|Hne]; [done|by rewrite lookup_singleton_ne].
Qed.

(** The field's comment names a class 2, which [ingest] never gives. *)
Lemma no_intent_is_high s w v : priority (entry_of s w v) <= 1.
Proof. cbn. unfold priority_of. destruct (_ || _); lia. Qed.

(** A model that was marked dead is usable again after one mark: no transition looks at the
    state it leaves. *)
Lemma dead_model_revives h c : is_terminal (mark_dead h c) = true /\ is_usable (mark_healthy (mark_dead h c)) = true.
Proof. done. Qed.
