(* ===== verification/VersionedStore.v ===== *)
(** * VersionedStore: a JSON file read through a cache
    ([crates/susi-config/src/versioned_store.rs])

    A store keeps the value of the last file it read together with that file's stamp, its
    modification time and its length.  serde_json is a pair of functions, and how each file
    operation went is an argument.  What other processes do to the files while a call runs is
    an argument too: a function between two accesses of the call ([f1], [f2], [f3]), the
    identity when nobody interferes. *)

From S2P Require Import Prelude.

Local Open Scope string_scope.
Local Open Scope list_scope.
Local Open Scope N_scope.

Section Store.
Context {T X : Type} (len : X -> N) (parse : X -> option T) (print : T -> option X).

(** ** Files *)

Record FileVer : Type := mkFile {
  content : X;
  mtime : N;
}.
Definition Fs : Type := gmap string FileVer.
(** [file_stamp]: [UNIX_EPOCH] is 0. *)
Definition file_stamp (fs : gmap string FileVer) (p : string) : N * N :=
  match fs !! p with Some v => (mtime v, len (content v)) | None => (0, 0) end.

Inductive Error : Type :=
| Malformed
| Unreadable
| MissingFailed
| WriteFailed.
(** The closures of a call, and its [strict_parse]. *)
Record Caller : Type := mkCaller {
  on_missing : option T;
  heal : T -> bool * T;
  strict_parse : bool;
}.
(** How the file operations of a call go: whether the file can be read, whether it can be
    written, and the time its writes are stamped with. *)
Record Io : Type := mkIo {
  readable : bool;
  writable : bool;
  now : N;
}.

(** [atomic_write_json_pretty], with the creation of the parent directory. *)
Definition write (fs : gmap string FileVer) (p : string) (v : T) (io : Io) : result unit Error * gmap string FileVer :=
  match print v with
  | Some x => if writable io then (Ok tt, <[p := mkFile x (now io)]> fs) else (Err WriteFailed, fs)
  | None => (Err WriteFailed, fs)
  end.

(** What [read_from_disk] finds in the file, when it does not refuse it. *)
Definition parsed (fs : gmap string FileVer) (p : string) (strict : bool) (io : Io) : result (option T) Error :=
  match fs !! p with
  | None => Ok None
  | Some f =>
      if readable io then
        match parse (content f) with
        | Some v => Ok (Some v)
        | None => if strict then Err Malformed else Ok None
        end
      else if strict then Err Unreadable else Ok None
  end.
Definition read_from_disk (fs : gmap string FileVer) (p : string) (c : Caller) (io : Io) : result T Error * gmap string FileVer :=
  match parsed fs p (strict_parse c) io with
  | Err e => (Err e, fs)
  | Ok found =>
      match (match found with Some v => Ok (v, false) | None => match on_missing c with Some d => Ok (d, true) | None => Err MissingFailed end end) with
      | Err e => (Err e, fs)
      | Ok (v, needs_save) =>
          let '(healed, v) := heal c v in
          if needs_save || healed then
            match write fs p v io with
            | (Ok _, fs) => (Ok v, fs)
            | (Err e, fs) => (Err e, fs)
            end
          else (Ok v, fs)
      end
  end.

(** ** The cache *)

Record CacheEntry : Type := mkCached {
  modified : N;
  c_len : N;
  path : string;
  value : T;
}.
Definition hit (cache : option CacheEntry) (fs : gmap string FileVer) (p : string) : option T :=
  match cache with
  | Some e =>
      let '(m, l) := file_stamp fs p in
      if String.eqb (path e) p && (modified e =? m) && (c_len e =? l) && negb (m =? 0) then Some (value e) else None
  | None => None
  end.
Definition entry_for (fs : gmap string FileVer) (p : string) (v : T) : CacheEntry :=
  let '(m, l) := file_stamp fs p in mkCached m l p v.

(** The cache and the files. *)
Record World : Type := mkWorld {
  cache : option CacheEntry;
  fs : gmap string FileVer;
}.

(** A read that is then cached; a failure leaves [cache'] in place. *)
Definition read_and_cache (cache' : option CacheEntry) (files : gmap string FileVer) (p : string) (c : Caller) (io : Io)
    (f3 : gmap string FileVer -> gmap string FileVer) : result T Error * World :=
  match read_from_disk files p c io with
  | (Ok v, files) => let files := f3 files in (Ok v, mkWorld (Some (entry_for files p v)) files)
  | (Err e, files) => (Err e, mkWorld cache' files)
  end.

(** [load_arc_with_healing]: looked up under the read lock, then under the write lock, then
    read. *)
Definition load_arc_with_healing (w : World) (p : string) (c : Caller) (io : Io)
    (f1 f2 f3 : gmap string FileVer -> gmap string FileVer) : result T Error * World :=
  match hit (cache w) (fs w) p with
  | Some v => (Ok v, w)
  | None =>
      let files := f1 (fs w) in
      match hit (cache w) files p with
      | Some v => (Ok v, mkWorld (cache w) files)
      | None => read_and_cache (cache w) (f2 files) p c io f3
      end
  end.
Definition reload_arc_with_healing (w : World) (p : string) (c : Caller) (io : Io)
    (f3 : gmap string FileVer -> gmap string FileVer) : result T Error * World :=
  read_and_cache None (fs w) p c io f3.

(** [modify]; [io] is for the read it may have to make, [io'] for its own write. *)
Definition modify (w : World) (p : string) (c : Caller) (mut_fn : T -> T) (io io' : Io)
    (f1 f2 f3 : gmap string FileVer -> gmap string FileVer) : result T Error * World :=
  let '(r, files) :=
    match hit (cache w) (fs w) p with
    | Some v => (Ok v, fs w)
    | None => read_from_disk (f1 (fs w)) p c io
    end in
  match r with
  | Err e => (Err e, mkWorld (cache w) files)
  | Ok v =>
      let v := mut_fn v in
      match write (f2 files) p v io' with
      | (Err e, files) => (Err e, mkWorld (cache w) files)
      | (Ok _, files) => let files := f3 files in (Ok v, mkWorld (Some (entry_for files p v)) files)
      end
  end.

(** ** Without a cache *)

(** The store the cache must not be told from: every call reads the file. *)
Definition plain_load (files : gmap string FileVer) (p : string) (c : Caller) (io : Io) : result T Error * gmap string FileVer :=
  read_from_disk files p c io.
Definition plain_modify (files : gmap string FileVer) (p : string) (c : Caller) (mut_fn : T -> T) (io io' : Io) :
    result T Error * gmap string FileVer :=
  match read_from_disk files p c io with
  | (Err e, files) => (Err e, files)
  | (Ok v, files) =>
      match write files p (mut_fn v) io' with
      | (Err e, files) => (Err e, files)
      | (Ok _, files) => (Ok (mut_fn v), files)
      end
  end.

(** ** Calls and foreign writes, one after the other *)

Inductive Op : Type :=
| Load (p : string) (io : Io)
| Reload (p : string) (io : Io)
| Modify (p : string) (mut_fn : T -> T) (io io' : Io)
| Foreign (p : string) (x : X) (t : N)
| Remove (p : string).

Context (c : Caller).
Definition calm (files : gmap string FileVer) : gmap string FileVer := files.
Definition run_op (w : World) (op : Op) : option (result T Error) * World :=
  match op with
  | Load p io => let '(r, w) := load_arc_with_healing w p c io calm calm calm in (Some r, w)
  | Reload p io => let '(r, w) := reload_arc_with_healing w p c io calm in (Some r, w)
  | Modify p f io io' => let '(r, w) := modify w p c f io io' calm calm calm in (Some r, w)
  | Foreign p x t => (None, mkWorld (cache w) (<[p := mkFile x t]> (fs w)))
  | Remove p => (None, mkWorld (cache w) (delete p (fs w)))
  end.
Definition plain_op (files : gmap string FileVer) (op : Op) : option (result T Error) * gmap string FileVer :=
  match op with
  | Load p io | Reload p io => let '(r, files) := plain_load files p c io in (Some r, files)
  | Modify p f io io' => let '(r, files) := plain_modify files p c f io io' in (Some r, files)
  | Foreign p x t => (None, <[p := mkFile x t]> files)
  | Remove p => (None, delete p files)
  end.
Fixpoint answers (w : World) (ops : list Op) : list (option (result T Error)) :=
  match ops with
  | [] => []
  | op :: ops' => let '(r, w') := run_op w op in r :: answers w' ops'
  end.
Fixpoint plain_answers (files : gmap string FileVer) (ops : list Op) : list (option (result T Error)) :=
  match ops with
  | [] => []
  | op :: ops' => let '(r, files') := plain_op files op in r :: plain_answers files' ops'
  end.

(** ** The cache is not seen *)

(** Every file of the run is determined by its path and its stamp. *)
Definition dated (D : string -> N -> N -> X) (files : gmap string FileVer) : Prop :=
  forall p f, files !! p = Some f -> D p (mtime f) (len (content f)) = content f.
Fixpoint dated_run (D : string -> N -> N -> X) (files : gmap string FileVer) (ops : list Op) : Prop :=
  dated D files /\ match ops with [] => True | op :: ops' => dated_run D (plain_op files op).2 ops' end.

(** What the callers of a store promise of an operation: files can be read, and a change
    leaves a healed value healed. *)
Definition plain_reads (op : Op) : Prop :=
  match op with
  | Load _ io | Reload _ io => readable io = true
  | Modify _ f io io' => readable io = true /\ forall v, heal c v = (false, v) -> heal c (f v) = (false, f v)
  | _ => True
  end.

Section Transparency.
Context (print_parse : forall v x, print v = Some x -> parse x = Some v).
Context (heal_twice : forall v b v', heal c v = (b, v') -> heal c v' = (false, v')).
Context (D : string -> N -> N -> X).

(** A cached value is what reading a file of its stamp gives. *)
Definition truthful (cache : option CacheEntry) : Prop :=
  match cache with
  | Some e => modified e <> 0 -> exists v0, parse (D (path e) (modified e) (c_len e)) = Some v0 /\ heal c v0 = (false, value e)
  | None => True
  end.

Lemma hit_is_a_read ch files p io v : truthful ch -> dated D files -> readable io = true -> hit ch files p = Some v ->
  read_from_disk files p c io = (Ok v, files) /\ heal c v = (false, v).
Proof.
  intros Ht Hd Hio. unfold hit, file_stamp. destruct ch as [e|]; [|done].
  destruct (files !! p) as [f|] eqn:Ef; [|by rewrite andb_false_r].
  destruct (String.eqb_spec (path e) p) as [Ep|]; [|done]. destruct (N.eqb_spec (modified e) (mtime f)) as [Em|]; [|done].
  destruct (N.eqb_spec (c_len e) (len (content f))) as [El|]; [|done]. destruct (N.eqb_spec (mtime f) 0) as [|Hm]; [done|]. cbn.
  intros [= <-]. destruct (Ht ltac:(congruence)) as (v0 & Hp & Hh). rewrite Ep, Em, El, (Hd p f Ef) in Hp.
  split; [|by apply (heal_twice v0 false)]. unfold read_from_disk, parsed. by rewrite Ef, Hio, Hp, Hh.
Qed.

Lemma read_Ok files p io v files' : readable io = true -> read_from_disk files p c io = (Ok v, files') ->
  heal c v = (false, v) /\ exists f v0, files' !! p = Some f /\ parse (content f) = Some v0 /\ heal c v0 = (false, v).
Proof.
  intros Hio. unfold read_from_disk. destruct (parsed files p (strict_parse c) io) as [found|] eqn:Ep; [|done].
  destruct found as [v0|].
  - assert (exists f, files !! p = Some f /\ parse (content f) = Some v0) as (f & Hf & Hv).
    { unfold parsed in Ep. rewrite Hio in Ep. destruct (files !! p) as [f|]; [|done]. exists f. split; [done|].
      destruct (parse (content f)); [congruence|by destruct (strict_parse c)]. }
    destruct (heal c v0) as [[|] v1] eqn:Eh; cbn; [|intros [= <- <-]; split; [by apply (heal_twice v0 false)|by exists f, v0]].
    unfold write. destruct (print v1) as [x|] eqn:Ex; [|done]. destruct (writable io); [|done]. intros [= <- <-].
    pose proof (heal_twice _ _ _ Eh). split; [done|]. eexists _, v1. rewrite lookup_insert_eq. split_and!; [done|by apply print_parse|done].
  - destruct (on_missing c) as [d|]; [|done]. destruct (heal c d) as [b v1] eqn:Eh. cbn.
    unfold write. destruct (print v1) as [x|] eqn:Ex; [|done]. destruct (writable io); [|done]. intros [= <- <-].
    pose proof (heal_twice _ _ _ Eh). split; [done|]. eexists _, v1. rewrite lookup_insert_eq. split_and!; [done|by apply print_parse|done].
Qed.

Lemma entry_truthful files p v f v0 : dated D files -> files !! p = Some f -> parse (content f) = Some v0 -> heal c v0 = (false, v) ->
  truthful (Some (entry_for files p v)).
Proof.
  intros Hd Hf Hp Hh. unfold truthful, entry_for, file_stamp. rewrite Hf. cbn. intros _. exists v0. by rewrite (Hd p f Hf).
Qed.

(** One operation with the cache and without it. *)
Lemma run_op_plain ch files op : truthful ch -> dated D files -> dated D (plain_op files op).2 -> plain_reads op ->
  (run_op (mkWorld ch files) op).1 = (plain_op files op).1 /\
  fs (run_op (mkWorld ch files) op).2 = (plain_op files op).2 /\
  truthful (cache (run_op (mkWorld ch files) op).2).
Proof.
  intros Ht Hd Hd' Hop.
  assert (Hrc : forall ch0 p io, truthful ch0 -> readable io = true -> dated D (read_from_disk files p c io).2 ->
    (read_and_cache ch0 files p c io calm).1 = (read_from_disk files p c io).1 /\
    fs (read_and_cache ch0 files p c io calm).2 = (read_from_disk files p c io).2 /\
    truthful (cache (read_and_cache ch0 files p c io calm).2)).
  { intros ch0 p io Ht0 Hio Hd0. unfold read_and_cache. destruct (read_from_disk files p c io) as [[v|e] files'] eqn:Er; [|done].
    destruct (read_Ok _ _ _ _ _ Hio Er) as (_ & f & v0 & Hf & Hp & Hh). split_and!; [done|done|]. by apply (entry_truthful files' p v f v0). }
  destruct op as [p io|p io|p f io io'|p x t|p]; cbn in *; [| | |done|done].
  - unfold load_arc_with_healing, plain_load in *. cbn. destruct (hit ch files p) as [v|] eqn:Eh.
    + destruct (hit_is_a_read ch files p io v Ht Hd Hop Eh) as [-> _]. done.
    + change (calm (calm files)) with files. change (calm files) with files. destruct (read_from_disk files p c io) as [r files'] eqn:Er.
      specialize (Hrc ch p io Ht Hop). rewrite Er in Hrc. destruct (read_and_cache ch files p c io calm) as [r' w']. cbn in *.
      destruct (Hrc Hd') as (-> & -> & ?). done.
  - unfold reload_arc_with_healing, plain_load in *. cbn. destruct (read_from_disk files p c io) as [r files'] eqn:Er.
    specialize (Hrc None p io I Hop). rewrite Er in Hrc. destruct (read_and_cache None files p c io calm) as [r' w']. cbn in *.
    destruct (Hrc Hd') as (-> & -> & ?). done.
  - destruct Hop as [Hio Hf]. unfold modify, plain_modify in *. cbn. change (calm files) with files.
    assert ((match hit ch files p with Some v => (Ok v, files) | None => read_from_disk files p c io end) = read_from_disk files p c io) as ->.
    { destruct (hit ch files p) as [v|] eqn:Eh; [|done]. by destruct (hit_is_a_read ch files p io v Ht Hd Hio Eh) as [-> _]. }
    destruct (read_from_disk files p c io) as [[v|e] files1] eqn:Er; [|done]. cbn in *. change (calm files1) with files1.
    destruct (read_Ok _ _ _ _ _ Hio Er) as (Hv & _). specialize (Hf v Hv).
    destruct (write files1 p (f v) io') as [[[]|e] files2] eqn:Ew; [|done]. cbn in *. split_and!; [done|done|].
    unfold write in Ew. destruct (print (f v)) as [x|] eqn:Ex; [|done]. destruct (writable io'); [|done]. injection Ew as <-.
    apply (entry_truthful _ p (f v) (mkFile x (now io')) (f v)); [done|apply lookup_insert_eq|by apply print_parse|done].
Qed.

End Transparency.

(** In strict mode a file that cannot be read or understood is never overwritten: the call
    fails and the files stay as they are. *)
Theorem strict_keeps_the_file files p io f : strict_parse c = true -> files !! p = Some f ->
  readable io = false \/ parse (content f) = None ->
  exists e, (e = Malformed \/ e = Unreadable) /\ read_from_disk files p c io = (Err e, files).
Proof.
  intros Hs Hf Hor. unfold read_from_disk, parsed. rewrite Hf, Hs. destruct (readable io) eqn:Er.
  - destruct Hor as [?|Hp]; [done|]. rewrite Hp. exists Malformed. split; [by left|done].
  - exists Unreadable. split; [by right|done].
Qed.
End Store.

(** ** Concrete runs, and what they show *)

(** Values are numbers, texts are themselves; 0 is healed to 1. *)
Definition caller (strict : bool) : Caller (T := N) :=
  mkCaller (Some 1) (fun v => if v =? 0 then (true, 1) else (false, v)) strict.
Definition io_at (t : N) : Io := mkIo true true t.
Definition one_byte (x : N) : N := 1.


Lemma strict_keeps_the_file_witness :
  exists e, (e = Malformed \/ e = Unreadable) /\
    read_from_disk (fun _ => None) Some {["p" := mkFile 7 5]} "p" (caller true) (io_at 6) = (Err e, {["p" := mkFile 7 5]}).
Proof. apply (strict_keeps_the_file (fun _ => None) Some (caller true) _ "p" (io_at 6) (mkFile 7 5)); [done..|by right]. Defined.

(** The stamp is taken after the file was read: what another process writes in between is
    taken for what was read, and every later load answers with the old value. *)
Lemma write_after_the_read_is_masked :
  let foreign (files : gmap string (FileVer (X := N))) := <["p" := mkFile 7 9]> files in
  let '(r, w) := load_arc_with_healing one_byte Some Some (mkWorld None {["p" := mkFile 3 5]}) "p" (caller true) (io_at 6) calm calm foreign in
  r = Ok 3 /\ fs w !! "p" = Some (mkFile 7 9) /\
  (load_arc_with_healing one_byte Some Some w "p" (caller true) (io_at 10) calm calm calm) = (Ok 3, w).
Proof. vm_compute. done. Qed.

(** A change by another process while a call modifies the file is overwritten: the lock is of
    the process. *)
Lemma foreign_change_is_lost :
  let foreign (files : gmap string (FileVer (X := N))) := <["p" := mkFile 7 9]> files in
  let '(r, w) := modify one_byte Some Some (mkWorld None {["p" := mkFile 3 5]}) "p" (caller true) (N.add 1) (io_at 6) (io_at 10) calm foreign calm in
  r = Ok 4 /\ fs w !! "p" = Some (mkFile 4 10).
Proof. vm_compute. done. Qed.

(** Without strict parsing a file that cannot be read, for whatever reason and however briefly,
    is replaced by the defaults. *)
Lemma unreadable_file_is_reset :
  read_from_disk Some Some {["p" := mkFile 7 5]} "p" (caller false) (mkIo false true 6) = (Ok 1, {["p" := mkFile 1 6]}).
Proof. vm_compute. done. Qed.

(** A change is written and cached without being healed: loads answer with it until the cache
    is dropped, and with the healed value after that. *)
Lemma change_is_not_healed :
  let w := (modify one_byte Some Some (mkWorld None {["p" := mkFile 3 5]}) "p" (caller true) (fun _ => 0) (io_at 6) (io_at 7) calm calm calm).2 in
  (load_arc_with_healing one_byte Some Some w "p" (caller true) (io_at 8) calm calm calm).1 = Ok 0 /\
  (reload_arc_with_healing one_byte Some Some w "p" (caller true) (io_at 8) calm).1 = Ok 1.
Proof. vm_compute. done. Qed.
