(* ===== verification/Workflow.v ===== *)
(** * Workflow: scopes, dependencies and waves
    ([crates/susi-harness/src/workflow.rs])

    A task reserves scopes and names the tasks that must land first; class [WorkflowTask] is
    the trait.  [validate_dependencies] is an iterative depth-first search with an explicit
    stack, [next_wave] admits what can run together, [build] partitions a plan.  The search
    carries fuel, one more than the number of its dependencies and tasks, and
    [validate_is_exact] shows that it suffices; [build] runs at most one round per task. *)

From S2P Require Import Prelude Text.

Local Open Scope string_scope.
Local Open Scope list_scope.
Local Open Scope nat_scope.

(** ** Scopes *)

Inductive ScopeError : Type :=
| NotRelative
| NamesDrive
| DotComponent
| EmptyScope.

Fixpoint collect_parts (l : list string) : result (list string) ScopeError :=
  match l with
  | [] => Ok []
  | part :: l' =>
      if String.eqb part "" then collect_parts l'
      else if String.eqb part "." || String.eqb part ".." then Err DotComponent
      else result_bind (collect_parts l') (fun parts => Ok (to_ascii_lowercase part :: parts))
  end.
Definition normalize_scope (raw : string) : result string ScopeError :=
  let slashed := replace_backslashes (trim raw) in
  if starts_with "/" slashed then Err NotRelative
  else if bool_decide (String.get 1 slashed = Some colon) then Err NamesDrive
  else
    let rest := strip_all (String.length slashed) ["./"] slashed in
    result_bind (collect_parts (components rest)) (fun parts =>
      match parts with [] => Err EmptyScope | _ => Ok (join parts) end).

Definition below (a b : string) : bool :=
  match strip_prefix a b with Some rest => starts_with "/" rest | None => false end.
Definition scopes_overlap (a b : string) : bool := String.eqb a b || below a b || below b a.

Fixpoint normalize_all (scopes : list string) : result (list string) ScopeError :=
  match scopes with
  | [] => Ok []
  | s :: l => result_bind (normalize_scope s) (fun n => result_bind (normalize_all l) (fun ns => Ok (n :: ns)))
  end.
Definition disjoint (a b : list string) : bool := negb (existsb (fun l => existsb (scopes_overlap l) b) a).
Definition task_scopes_disjoint (a_scopes b_scopes : list string) : bool :=
  match normalize_all a_scopes, normalize_all b_scopes with
  | Ok a, Ok b => disjoint a b
  | _, _ => false
  end.

(** ** Tasks *)

Class WorkflowTask (T : Type) : Type := {
  t_key : T -> string;
  t_deps : T -> list string;
  t_scopes : T -> list string;
}.

Inductive WorkflowError : Type :=
| UnknownDependency (task dep : string)
| Cycle (names : list string)
| BadScope (task : option string) (why : ScopeError).

Section Tasks.
Context {T : Type} `{W : WorkflowTask T}.
Implicit Types (tasks : list T).

(** *** The depth-first search *)

(** [index]: of two tasks with one key, the later. *)
Definition index (tasks : list T) : gmap string nat := list_to_map (reverse (imap (fun i t => (t_key t, i)) tasks)).
Definition unknown (ix : gmap string nat) (tasks : list T) : option (string * string) :=
  head (omap (fun t => (fun d => (t_key t, d)) <$> List.find (fun d => bool_decide (ix !! d = None)) (t_deps t)) tasks).

Definition deps_at (tasks : list T) (node : nat) : list string := default [] (t_deps <$> tasks !! node).
(** The marks, and the path with its cursors, the last node first. *)
Definition Marks : Type := list N.
Definition Stack : Type := list (nat * nat).

(** [path.iter().position(child)], the path read from its root. *)
Definition cycle_names (tasks : list T) (stack : list (nat * nat)) (child : nat) (dep : string) : list string :=
  let path := reverse stack.*1 in
  let start := default 0 (fst <$> list_find (fun m => m = child) path) in
  omap (fun m => t_key <$> tasks !! m) (drop start path) ++ [dep].

Inductive Turn : Type :=
| Continue (mark : list N) (stack : list (nat * nat))
| Finished (mark : list N)
| Found (names : list string).
Definition turn (ix : gmap string nat) (tasks : list T) (mark : list N) (stack : list (nat * nat)) : Turn :=
  match stack with
  | [] => Finished mark
  | (node, next) :: rest =>
      match deps_at tasks node !! next with
      | None => Continue (<[node := 2%N]> mark) rest
      | Some dep =>
          let stack := (node, S next) :: rest in
          match ix !! dep with
          | None => Continue mark stack
          | Some child =>
              match mark !! child with
              | Some 0%N => Continue (<[child := 1%N]> mark) ((child, 0) :: stack)
              | Some 1%N => Found (cycle_names tasks stack child dep)
              | _ => Continue mark stack
              end
          end
      end
  end.
(** [None] is a search that is not over. *)
Fixpoint search (fuel : nat) (ix : gmap string nat) (tasks : list T) (mark : list N) (stack : list (nat * nat)) :
    option (result (list N) (list string)) :=
  match fuel with
  | O => None
  | S f =>
      match turn ix tasks mark stack with
      | Continue mark stack => search f ix tasks mark stack
      | Finished mark => Some (Ok mark)
      | Found names => Some (Err names)
      end
  end.
Fixpoint search_roots (fuel : nat) (ix : gmap string nat) (tasks : list T) (mark : list N) (roots : list nat) :
    option (result unit (list string)) :=
  match roots with
  | [] => Some (Ok tt)
  | root :: roots' =>
      if bool_decide (mark !! root = Some 0%N) then
        match search fuel ix tasks (<[root := 1%N]> mark) [(root, 0)] with
        | Some (Ok mark) => search_roots fuel ix tasks mark roots'
        | Some (Err names) => Some (Err names)
        | None => None
        end
      else search_roots fuel ix tasks mark roots'
  end.
Definition weight (tasks : list T) (node : nat) : nat := S (length (deps_at tasks node)).
Definition search_fuel (tasks : list T) : nat := S (N.to_nat (sumN (fun i => N.of_nat (weight tasks i)) (length tasks))).
Definition validate_dependencies (tasks : list T) : option (result unit WorkflowError) :=
  let ix := index tasks in
  match unknown ix tasks with
  | Some (t, d) => Some (Err (UnknownDependency t d))
  | None =>
      match search_roots (search_fuel tasks) ix tasks (replicate (length tasks) 0%N) (seq 0 (length tasks)) with
      | Some (Ok _) => Some (Ok tt)
      | Some (Err names) => Some (Err (Cycle names))
      | None => None
      end
  end.

(** *** Waves *)

(** [next_wave]: [room] is how many the wave still takes, [reserved] what it holds. *)
Fixpoint fill_wave (pending : list T) (completed : gset string) (external reserved : list string) (room : nat) :
    result (list T) WorkflowError :=
  match pending with
  | [] => Ok []
  | task :: pending' =>
      match room with
      | O => Ok []
      | S r =>
          if forallb (fun dep => bool_decide (dep ∈ completed)) (t_deps task) then
            match normalize_all (t_scopes task) with
            | Err e => Err (BadScope (Some (t_key task)) e)
            | Ok scopes =>
                if disjoint scopes external && disjoint scopes reserved then
                  result_bind (fill_wave pending' completed external (reserved ++ scopes) r) (fun wave => Ok (task :: wave))
                else fill_wave pending' completed external reserved room
            end
          else fill_wave pending' completed external reserved room
      end
  end.
Definition next_wave (pending : list T) (completed : gset string) (active_claimed_scopes : list string) (max_parallel : nat) :
    result (list T) WorkflowError :=
  match normalize_all active_claimed_scopes with
  | Err e => Err (BadScope None e)
  | Ok external => fill_wave pending completed external [] (Nat.max max_parallel 1)
  end.

(** The loop of [WorkflowSchedule::build]: the waves and what is left. *)
Definition retain (keys : gset string) (pending : list T) : list T := filter (fun t => t_key t ∉ keys) pending.
Fixpoint build_waves (fuel : nat) (pending : list T) (completed : gset string) (claims : list string) (max_parallel : nat) :
    result (list (list T) * list T) WorkflowError :=
  match fuel, pending with
  | O, _ | _, [] => Ok ([], pending)
  | S f, _ =>
      result_bind (next_wave pending completed claims max_parallel) (fun wave =>
        match wave with
        | [] => Ok ([], pending)
        | _ =>
            let admitted := list_to_set (t_key <$> wave) in
            result_bind (build_waves f (retain admitted pending) (admitted ∪ completed) claims max_parallel)
              (fun r => Ok (wave :: r.1, r.2))
        end)
  end.
Definition build (tasks : list T) (completed : gset string) (claims : list string) (max_parallel : nat) :
    option (result (list (list T) * list T) WorkflowError) :=
  match validate_dependencies tasks with
  | None => None
  | Some (Err e) => Some (Err e)
  | Some (Ok _) =>
      let pending := retain completed tasks in
      Some (build_waves (length pending) pending completed claims max_parallel)
  end.
End Tasks.

(** ** The algebra of scopes *)

Lemma collect_parts_Ok l parts : collect_parts l = Ok parts ->
  parts = to_ascii_lowercase <$> filter (fun p => p <> "") l /\ Forall (fun p => p <> "." /\ p <> "..") l.
Proof.
  revert parts. induction l as [|p l IH]; intros parts; cbn [collect_parts]; [by intros [= <-]|].
  destruct (String.eqb_spec p "") as [->|Hne].
  - intros H. destruct (IH _ H) as [-> Hl]. split; [done|]. by constructor.
  - destruct (String.eqb_spec p "."), (String.eqb_spec p ".."); try done. cbn [orb].
    destruct (collect_parts l) as [ps|] eqn:E; [|done]. cbn [result_bind]. intros [= <-]. destruct (IH _ eq_refl) as [-> Hl].
    rewrite filter_cons_True by done. split; [done|]. by constructor.
Qed.

Lemma lower_slash c : Ascii.eqb (lower c) slash = Ascii.eqb c slash.
Proof. unfold lower, is_upper, is_between, slash. destruct c as [[|] [|] [|] [|] [|] [|] [|] [|]]; reflexivity. Qed.
Lemma components_lowercase s : components (to_ascii_lowercase s) = to_ascii_lowercase <$> components s.
Proof.
  induction s as [|c s IH]; [done|]. change (to_ascii_lowercase (String.String c s)) with (String.String (lower c) (to_ascii_lowercase s)).
  cbn [components]. rewrite lower_slash, IH. destruct (Ascii.eqb c slash); [done|]. by destruct (components s).
Qed.

(** A scope is normalized to the lower-case components it names: none is empty, none is a
    dot or two dots, and joined by single slashes they are the result. *)
Theorem normalized_scope_components raw s : normalize_scope raw = Ok s ->
  components s = to_ascii_lowercase <$>
    filter (fun p => p <> "") (components (strip_all (String.length (replace_backslashes (trim raw))) ["./"] (replace_backslashes (trim raw)))) /\
  Forall (fun p => p <> "" /\ p <> "." /\ p <> "..") (components s).
Proof.
  unfold normalize_scope. set (slashed := replace_backslashes _). destruct (starts_with "/" slashed); [done|].
  destruct (bool_decide _); [done|]. set (rest := strip_all _ _ slashed).
  destruct (collect_parts (components rest)) as [parts|] eqn:E; [|done]. cbn.
  destruct (collect_parts_Ok _ _ E) as [Hp Hdots]. intros Hs.
  assert (s = join parts /\ parts <> []) as [-> Hnonempty] by (destruct parts; [done|by injection Hs as <-]).
  assert (Forall no_slash parts) as Hns.
  { rewrite Hp. apply Forall_forall. intros p (q & -> & Hq)%list_elem_of_fmap. apply list_elem_of_filter in Hq as [_ Hq].
    apply list_elem_of_In, components_no_slash in Hq. unfold no_slash in *. by rewrite components_lowercase, Hq. }
  rewrite components_join by done. split; [done|]. rewrite Hp. apply Forall_forall. intros p (q & -> & Hq)%list_elem_of_fmap.
  apply list_elem_of_filter in Hq as [Hne Hq]. rewrite Forall_forall in Hdots. destruct (Hdots q Hq) as [H1 H2].
  assert (Hlow : forall t, (forall r, to_ascii_lowercase r = t -> r = t) -> q <> t -> to_ascii_lowercase q <> t) by (intros t Ht Hq' E'; by apply Hq', Ht).
  assert (Hdot : forall c, lower c = dot -> c = dot).
  { intros c. unfold lower, is_upper, is_between, dot. destruct c as [[|] [|] [|] [|] [|] [|] [|] [|]]; vm_compute; congruence. }
  split_and!; apply Hlow; try done.
  - intros [|c r]; [done|]. cbn. congruence.
  - intros [|c [|d r]]; cbn; try congruence. intros [= E1]. by rewrite (Hdot c E1).
  - intros [|c [|d [|e r]]]; cbn; try congruence. intros [= E1 E2]. by rewrite (Hdot c E1), (Hdot d E2).
Qed.

Lemma below_under a b : String.eqb a b || below a b = under a b.
Proof. unfold under, below. by destruct (String.eqb_spec a b); [rewrite bool_decide_eq_true_2|rewrite bool_decide_eq_false_2]. Qed.

Lemma scopes_overlap_under a b : scopes_overlap a b = under a b || under b a.
Proof.
  unfold scopes_overlap. rewrite <- !below_under, (String.eqb_sym b a).
  by destruct (String.eqb a b), (below a b), (below b a).
Qed.

(** Two scopes overlap exactly when some path is owned by both: a scope owns itself and
    what lies below it. *)
Theorem overlap_iff_common_path a b : scopes_overlap a b = true <-> exists p, under a p = true /\ under b p = true.
Proof.
  rewrite scopes_overlap_under, orb_true_iff. split.
  - intros [H|H]; [exists b|exists a]; split; try done; by apply under_components.
  - intros (p & Ha & Hb). rewrite !under_components in *. destruct (prefix_weak_total _ _ _ Ha Hb); auto.
Qed.

Lemma scopes_overlap_sym a b : scopes_overlap a b = scopes_overlap b a.
Proof. rewrite !scopes_overlap_under. apply orb_comm. Qed.

Lemma disjoint_spec a b : disjoint a b = true <-> forall x y, x ∈ a -> y ∈ b -> scopes_overlap x y = false.
Proof.
  unfold disjoint. rewrite negb_true_iff, existsb_false. setoid_rewrite existsb_false. setoid_rewrite <- list_elem_of_In. naive_solver.
Qed.

(** ** The search *)

Section Search.
Context {T : Type} `{W : WorkflowTask T} (tasks : list T).

Definition depends (a b : string) : Prop := exists t, t ∈ tasks /\ t_key t = a /\ b ∈ t_deps t.
Fixpoint chain (l : list string) : Prop :=
  match l with
  | a :: (b :: _) as l' => depends a b /\ chain l'
  | _ => True
  end.

(** A task waits for the one its dependency is found at. *)
Definition edge (i j : nat) : Prop := exists dep, dep ∈ deps_at tasks i /\ index tasks !! dep = Some j.

Lemma index_Some k i : index tasks !! k = Some i -> exists t, tasks !! i = Some t /\ t_key t = k.
Proof.
  intros H%elem_of_list_to_map_2. rewrite elem_of_reverse, list_elem_of_lookup in H. destruct H as [j H].
  rewrite list_lookup_imap in H. apply fmap_Some in H as (t & Ht & [= -> ->]). by exists t.
Qed.

Lemma index_None k : index tasks !! k = None <-> forall t, t ∈ tasks -> t_key t <> k.
Proof.
  unfold index. rewrite <- not_elem_of_list_to_map, fmap_reverse, elem_of_reverse, fmap_imap. split.
  - intros H t Ht <-. apply H. apply list_elem_of_lookup in Ht as [i Hi]. apply list_elem_of_lookup. exists i.
    by rewrite list_lookup_imap, Hi.
  - intros H [i Hi]%list_elem_of_lookup. rewrite list_lookup_imap in Hi. apply fmap_Some in Hi as (t & Ht & Hk).
    apply (H t); [by apply (list_elem_of_lookup_2 _ i)|done].
Qed.

Lemma index_unique i t : NoDup (t_key <$> tasks) -> tasks !! i = Some t -> index tasks !! t_key t = Some i.
Proof.
  intros Hn Ht. destruct (index tasks !! t_key t) as [j|] eqn:E.
  - destruct (index_Some _ _ E) as (u & Hu & Hk). f_equal. apply (NoDup_lookup (t_key <$> tasks) j i (t_key t) Hn).
    + rewrite list_lookup_fmap, Hu. cbn. by rewrite Hk.
    + by rewrite list_lookup_fmap, Ht.
  - rewrite index_None in E. destruct (E t); [by apply (list_elem_of_lookup_2 _ i)|done].
Qed.

Lemma edge_range i j : edge i j -> i < length tasks /\ j < length tasks.
Proof.
  intros (d & Hd & Hj). unfold deps_at in Hd. destruct (tasks !! i) as [t|] eqn:E; [|by apply not_elem_of_nil in Hd].
  destruct (index_Some _ _ Hj) as (u & Hu & _). apply lookup_lt_Some in E, Hu. done.
Qed.

(** *** The order in which nodes are finished *)

Inductive topo : list nat -> Prop :=
| topo_nil : topo []
| topo_cons i L : i ∉ L -> (forall j, edge i j -> j ∈ L) -> topo L -> topo (i :: L).

Lemma topo_closed L : topo L -> forall i j, i ∈ L -> tc edge i j -> j ∈ L.
Proof.
  intros Ht. assert (Hc : forall i j, i ∈ L -> edge i j -> j ∈ L).
  { induction Ht as [|x L _ Hx _ IH]; intros i j Hi He; [by apply not_elem_of_nil in Hi|]. right.
    apply elem_of_cons in Hi as [->|Hi]; [by apply Hx|by apply (IH i)]. }
  intros i j Hi Htc. induction Htc as [i j He|i k j He _ IH]; [by apply (Hc i)|]. apply IH. by apply (Hc i).
Qed.

Lemma topo_acyclic L : topo L -> forall i, i ∈ L -> ~ tc edge i i.
Proof.
  induction 1 as [|x L Hx Hs Ht IH]; intros i Hi Hc; [by apply not_elem_of_nil in Hi|].
  apply elem_of_cons in Hi as [->|Hi]; [|by apply (IH i)]. apply Hx.
  inversion Hc as [? ? He|? y ? He Hy]; subst; [by apply Hs|]. apply (topo_closed L Ht y); [by apply Hs|done].
Qed.

(** *** The invariant *)

(** The frames of the stack, below the node [top]: what a cursor has passed is finished, or is
    the node above. *)
Fixpoint frames (L : list nat) (top : option nat) (stack : list (nat * nat)) : Prop :=
  match stack with
  | [] => True
  | (p, k) :: rest =>
      (forall j dep c, j < k -> deps_at tasks p !! j = Some dep -> index tasks !! dep = Some c -> c ∈ L \/ top = Some c) /\
      (forall u, top = Some u -> edge p u) /\ k <= length (deps_at tasks p) /\ frames L (Some p) rest
  end.
Record dinv (mark : list N) (stack : list (nat * nat)) (L : list nat) : Prop := {
  di_length : length mark = length tasks;
  di_values i m : mark !! i = Some m -> m = 0%N \/ m = 1%N \/ m = 2%N;
  di_gray i : mark !! i = Some 1%N <-> i ∈ stack.*1;
  di_black i : mark !! i = Some 2%N <-> i ∈ L;
  di_nodup : NoDup stack.*1;
  di_topo : topo L;
  di_frames : frames L None stack;
}.

Lemma frames_mono L L' stack : L ⊆ L' -> forall top, frames L top stack -> frames L' top stack.
Proof.
  intros HL. induction stack as [|[p k] rest IH]; intros top H; [done|]. destruct H as (H1 & H2 & H3 & H4).
  split_and!; [|done|done|by apply IH]. intros j dep c Hj Hd Hi. destruct (H1 j dep c Hj Hd Hi); [left; by apply HL|by right].
Qed.

Lemma frames_pop L p stack : frames L (Some p) stack -> frames (p :: L) None stack.
Proof.
  destruct stack as [|[p' k] rest]; [done|]. intros (H1 & H2 & H3 & H4).
  split_and!; [|done|done|apply (frames_mono L); [set_solver|done]]. intros j dep c Hj Hd Hi. left.
  destruct (H1 j dep c Hj Hd Hi) as [?|[= ->]]; [by right|by left].
Qed.

(** *** A cycle that is found is one *)

Definition key_at (i : nat) : string := default "" (t_key <$> tasks !! i).

Lemma key_at_index dep j : index tasks !! dep = Some j -> key_at j = dep.
Proof. intros H. destruct (index_Some _ _ H) as (t & Ht & Hk). unfold key_at. by rewrite Ht. Qed.

Lemma deps_depends i dep : dep ∈ deps_at tasks i -> depends (key_at i) dep.
Proof.
  unfold deps_at, key_at. destruct (tasks !! i) as [t|] eqn:E; [|by intros H%not_elem_of_nil]. cbn. intros Hd.
  exists t. split_and!; [by apply (list_elem_of_lookup_2 _ i)|done|done].
Qed.

Lemma edge_depends i j : edge i j -> depends (key_at i) (key_at j).
Proof. intros (d & Hd & Hj). rewrite (key_at_index d j Hj). by apply deps_depends. Qed.

Lemma chain_snoc l a b : chain (l ++ [a]) -> depends a b -> chain (l ++ [a] ++ [b]).
Proof.
  induction l as [|x l IH]; intros Hl Hd; [done|]. destruct l as [|y l]; cbn in *; [by destruct Hl|].
  destruct Hl as [Hx Hl]. split; [done|]. by apply IH.
Qed.

(** The path above a node, from that node up. *)
Lemma frames_chain L child rest : forall l top, frames L top (l ++ child :: rest) ->
  chain (key_at <$> child.1 :: reverse l.*1).
Proof.
  induction l as [|[u k] l IH]; intros top H; [done|]. cbn [app frames] in H. destruct H as (_ & _ & _ & H).
  specialize (IH _ H). change (((u, k) :: l).*1) with (u :: l.*1). rewrite reverse_cons, app_comm_cons, fmap_app.
  destruct l as [|[v k'] l]; cbn [app frames] in H.
  - destruct child as [x kx]. destruct H as (_ & H & _). cbn in *. split; [|done]. apply edge_depends. by apply H.
  - destruct H as (_ & H & _). change (((v, k') :: l).*1) with (v :: l.*1) in *. rewrite reverse_cons, app_comm_cons, fmap_app in *.
    rewrite <- app_assoc. apply chain_snoc; [done|]. apply edge_depends. by apply H.
Qed.

Lemma cycle_names_spec l child kc r dep : Forall (fun m => m < length tasks) (l ++ (child, kc) :: r).*1 ->
  NoDup (l ++ (child, kc) :: r).*1 ->
  cycle_names tasks (l ++ (child, kc) :: r) child dep = (key_at <$> child :: reverse l.*1) ++ [dep].
Proof.
  intros Hlt Hn. unfold cycle_names. f_equal. rewrite !fmap_app, !fmap_cons in *. cbn [fst] in *.
  rewrite reverse_app, reverse_cons, <- app_assoc. cbn [app].
  assert (list_find (fun m => m = child) (reverse r.*1 ++ child :: reverse l.*1) = Some (length r, child)) as ->.
  { apply list_find_Some. split_and!; [|done|].
    - rewrite lookup_app_r by (rewrite length_reverse, length_fmap; done). by rewrite length_reverse, length_fmap, Nat.sub_diag.
    - intros j y Hj Hlt' ->. rewrite lookup_app_l in Hj by (rewrite length_reverse, length_fmap; done).
      apply list_elem_of_lookup_2 in Hj. rewrite elem_of_reverse in Hj. apply NoDup_app in Hn as (_ & _ & Hn). by apply NoDup_cons in Hn as [? _]. }
  cbn [option_map fst default]. change (default 0 (fst <$> Some (length r, child))) with (length r).
  replace (length r) with (length (reverse r.*1)) by (by rewrite length_reverse, length_fmap). rewrite drop_app_length.
  assert (Forall (fun m => m < length tasks) (child :: reverse l.*1)) as Hall.
  { apply Forall_app in Hlt as [Hl Hcr]. apply Forall_cons in Hcr as [Hc _]. constructor; [exact Hc|by apply Forall_reverse]. }
  clear -Hall. change (key_at child :: (key_at <$> reverse l.*1)) with (key_at <$> child :: reverse l.*1). revert Hall. generalize (child :: reverse l.*1) as ms. induction 1 as [|m ms Hm _ IH]; [done|]. cbn [omap list_omap]. rewrite fmap_cons. unfold key_at at 1.
  destruct (lookup_lt_is_Some_2 _ _ Hm) as [t Ht]. rewrite Ht. cbn. by f_equal.
Qed.

(** *** Fuel *)

Definition white (mark : list N) : N :=
  sumN (fun i => if bool_decide (mark !! i = Some 0%N) then N.of_nat (weight tasks i) else 0%N) (length tasks).
Definition load (stack : list (nat * nat)) : N := sum_of ((fun f => N.of_nat (S (length (deps_at tasks f.1)) - f.2)) <$> stack).

Lemma white_mark mark i m : mark !! i = Some 0%N -> i < length tasks -> m <> 0%N ->
  (white (<[i := m]> mark) + N.of_nat (weight tasks i) = white mark)%N.
Proof.
  intros Hi Hlt Hm. unfold white.
  pose proof (sumN_update (fun j => if bool_decide (<[i := m]> mark !! j = Some 0%N) then N.of_nat (weight tasks j) else 0%N)
    (fun j => if bool_decide (mark !! j = Some 0%N) then N.of_nat (weight tasks j) else 0%N) (length tasks) i Hlt) as H.
  cbn beta in H. rewrite list_lookup_insert_eq in H by (by apply lookup_lt_Some in Hi). rewrite Hi in H.
  rewrite (bool_decide_eq_false_2 (Some m = Some 0%N)) in H by congruence. rewrite (bool_decide_eq_true_2 (Some 0%N = Some 0%N)) in H by done.
  rewrite H; [lia|]. intros j Hj. by rewrite list_lookup_insert_ne.
Qed.

Lemma white_black mark i : mark !! i <> Some 0%N -> white (<[i := 2%N]> mark) = white mark.
Proof.
  intros Hi. unfold white. apply sumN_ext. intros j _. destruct (decide (i = j)) as [->|Hne]; [|by rewrite list_lookup_insert_ne].
  rewrite (bool_decide_eq_false_2 (mark !! j = Some 0%N)) by done. rewrite bool_decide_eq_false_2; [done|].
  destruct (decide (j < length mark)) as [Hlt|Hge]; [by rewrite list_lookup_insert_eq|]. rewrite list_insert_ge by lia. done.
Qed.

Definition is_cycle (names : list string) : Prop := exists k mid, names = k :: mid ++ [k] /\ chain names.

(** One turn keeps the invariant and takes fuel, or finds a cycle. *)
Lemma turn_inv mark stack L : dinv mark stack L ->
  match turn (index tasks) tasks mark stack with
  | Continue mark' stack' => exists L', dinv mark' stack' L' /\ L ⊆ L' /\ (white mark' + load stack' < white mark + load stack)%N
  | Finished mark' => mark' = mark /\ stack = []
  | Found names => is_cycle names
  end.
Proof.
  intros Hd. pose proof Hd as [Hlen Hval Hg Hb Hn Ht Hf]. destruct stack as [|[p k] rest]; [done|]. cbn [turn].
  destruct Hf as (Hf1 & Hf2 & Hf3 & Hf4).
  assert (mark !! p = Some 1%N) as Hp by (apply Hg; left).
  destruct (deps_at tasks p !! k) as [dep|] eqn:Edep.
  - assert (k < length (deps_at tasks p)) as Hk by (by apply lookup_lt_Some in Edep).
    assert (Hadv : forall c, index tasks !! dep = Some c -> c ∈ L -> True) by done. clear Hadv.
    assert (Hsame : (forall c, index tasks !! dep = Some c -> c ∈ L) ->
      exists L', dinv mark ((p, S k) :: rest) L' /\ L ⊆ L' /\ (white mark + load ((p, S k) :: rest) < white mark + load ((p, k) :: rest))%N).
    { intros Hc. exists L. split_and!; [|done|unfold load; cbn; unfold sum_of; lia]. split; try done. split_and!; [|done|lia|done].
      intros j d c Hj Hdj Hi. destruct (decide (j = k)) as [->|Hne]; [left; apply Hc; congruence|]. apply (Hf1 j d c); [lia|done|done]. }
    destruct (index tasks !! dep) as [child|] eqn:Ei; [|by apply Hsame].
    assert (edge p child) as He by (exists dep; split; [by apply (list_elem_of_lookup_2 _ k)|done]).
    destruct (mark !! child) as [m|] eqn:Em.
    2:{ exfalso. apply lookup_ge_None in Em. destruct (edge_range p child He). lia. }
    destruct (Hval child m Em) as [-> | [-> | ->]].
    + assert (p <> child) by congruence. exists L. split_and!; [|done|].
      * split; try done.
        -- by rewrite length_insert.
        -- intros i m Hm. apply list_lookup_insert_Some in Hm as [(_ & <- & _)|[_ Hm]]; [by right; left|by apply (Hval i)].
        -- intros i. cbn [fst fmap list_fmap]. rewrite elem_of_cons. destruct (decide (i = child)) as [->|Hne].
           ++ rewrite list_lookup_insert_eq by (by apply lookup_lt_Some in Em). split; [by left|done].
           ++ rewrite list_lookup_insert_ne by done. rewrite Hg. cbn. set_solver.
        -- intros i. destruct (decide (i = child)) as [->|Hne]; [|by rewrite list_lookup_insert_ne].
           rewrite list_lookup_insert_eq by (by apply lookup_lt_Some in Em). rewrite <- Hb, Em. done.
        -- cbn. apply NoDup_cons. split; [|done]. intros Hin. apply Hg in Hin. congruence.
        -- split_and!; [intros; lia|done|lia|]. split_and!; [|by intros u [= <-]|lia|done].
           intros j d c Hj Hdj Hi. destruct (decide (j = k)) as [->|Hne]; [right; congruence|]. left.
           destruct (Hf1 j d c) as [?|?]; [lia|done|done|done|done].
      * pose proof (white_mark mark child 1 Em (proj2 (edge_range p child He)) ltac:(done)) as Hw. unfold load, weight in *. cbn. unfold sum_of in *. lia.
    + assert (child ∈ ((p, S k) :: rest).*1) as Hin by (apply Hg in Em; done).
      apply list_elem_of_fmap in Hin as ([c kc] & Hc & Hin). cbn in Hc. subst c.
      apply list_elem_of_split in Hin as (l & r & Hs).
      assert (Forall (fun m => m < length tasks) ((p, S k) :: rest).*1) as Hall.
      { apply Forall_forall. intros i Hi. assert (mark !! i = Some 1%N) as Hi1 by (by apply Hg). apply lookup_lt_Some in Hi1. lia. }
      assert (frames L None ((p, k) :: rest)) as Hfr by done.
      rewrite Hs, cycle_names_spec by (rewrite <- Hs; done). exists (key_at child), (key_at <$> reverse l.*1).
      rewrite fmap_cons. split; [by rewrite (key_at_index _ _ Ei)|].
      assert (chain (key_at <$> child :: reverse l.*1)) as Hch.
      { destruct l as [|f l]; [done|]. injection Hs as <- ->.
        apply (frames_chain L (child, kc) r ((p, k) :: l) None Hfr). }
      rewrite <- fmap_cons. destruct l as [|f l]; [injection Hs as -> _ _|injection Hs as <- _].
      * cbn. split; [|done]. by apply deps_depends, (list_elem_of_lookup_2 _ k).
      * change (((p, S k) :: l).*1) with (p :: l.*1) in *. rewrite reverse_cons, app_comm_cons, fmap_app in *. rewrite <- app_assoc.
        apply chain_snoc; [done|]. by apply deps_depends, (list_elem_of_lookup_2 _ k).
    + apply Hsame. intros c [= <-]. by apply Hb.
  - apply lookup_ge_None in Edep. exists (p :: L). cbn in Hn. apply NoDup_cons in Hn as [Hpn Hn]. split_and!; [|set_solver|].
    + split; try done.
      * by rewrite length_insert.
      * intros i m Hm. apply list_lookup_insert_Some in Hm as [(_ & <- & _)|[_ Hm]]; [by right; right|by apply (Hval i)].
      * intros i. destruct (decide (i = p)) as [->|Hne].
        -- rewrite list_lookup_insert_eq by (by apply lookup_lt_Some in Hp). done.
        -- rewrite list_lookup_insert_ne by done. rewrite Hg. cbn. set_solver.
      * intros i. rewrite elem_of_cons. destruct (decide (i = p)) as [->|Hne].
        -- rewrite list_lookup_insert_eq by (by apply lookup_lt_Some in Hp). split; [by left|done].
        -- rewrite list_lookup_insert_ne by done. rewrite Hb. naive_solver.
      * constructor; [|intros j (d & Hdj & Hi)|done].
        -- rewrite <- Hb, Hp. done.
        -- apply list_elem_of_lookup in Hdj as [q Hq]. destruct (Hf1 q d j) as [?|?]; [apply lookup_lt_Some in Hq; lia|done|done|done|done].
      * by apply frames_pop.
    + rewrite white_black by (rewrite Hp; done). unfold load. cbn. unfold sum_of. lia.
Qed.

Lemma search_spec fuel : forall mark stack L, dinv mark stack L -> (white mark + load stack < N.of_nat fuel)%N ->
  match search fuel (index tasks) tasks mark stack with
  | Some (Ok mark') => exists L', dinv mark' [] L' /\ L ⊆ L' /\ (white mark' <= white mark + load stack)%N
  | Some (Err names) => is_cycle names
  | None => False
  end.
Proof.
  induction fuel as [|f IH]; intros mark stack L Hd Hf; [lia|]. cbn [search]. pose proof (turn_inv mark stack L Hd) as Ht.
  destruct (turn (index tasks) tasks mark stack) as [mark' stack'|mark'|names]; [|destruct Ht as [-> ->]; by exists L; split_and!; [done|done|unfold load; cbn; lia]|done].
  destruct Ht as (L' & Hd' & HL & Hlt). specialize (IH mark' stack' L' Hd' ltac:(lia)).
  destruct (search f (index tasks) tasks mark' stack') as [[mark2|]|]; [|done|done].
  destruct IH as (L2 & ? & ? & ?). exists L2. split_and!; [done|set_solver|lia].
Qed.

(** What has been visited stays so. *)
Lemma search_visited fuel i : forall mark stack mark', mark !! i <> Some 0%N ->
  search fuel (index tasks) tasks mark stack = Some (Ok mark') -> mark' !! i <> Some 0%N.
Proof.
  assert (Hins : forall (mark : list N) j m, m <> 0%N -> mark !! i <> Some 0%N -> <[j := m]> mark !! i <> Some 0%N).
  { intros mark j m Hm Hi [(_ & ? & _)|[_ ?]]%list_lookup_insert_Some; congruence. }
  induction fuel as [|f IH]; intros mark stack mark' Hi; [done|]. cbn [search].
  destruct (turn (index tasks) tasks mark stack) as [mark1 stack1|mark1|] eqn:E; [| |done].
  - apply IH. unfold turn in E. repeat case_match; simplify_eq; try done; by apply Hins.
  - intros [= ->]. unfold turn in E. repeat case_match; simplify_eq; done.
Qed.

Lemma search_roots_spec fuel : (white (replicate (length tasks) 0%N) < N.of_nat fuel)%N -> forall roots mark L,
  dinv mark [] L -> (white mark <= white (replicate (length tasks) 0%N))%N -> Forall (fun r => r < length tasks) roots ->
  match search_roots fuel (index tasks) tasks mark roots with
  | Some (Ok _) => exists L', topo L' /\ L ⊆ L' /\ forall r, r ∈ roots -> r ∈ L'
  | Some (Err names) => is_cycle names
  | None => False
  end.
Proof.
  intros Hfuel. induction roots as [|root roots IH]; intros mark L Hd Hw Hlt; cbn [search_roots].
  { exists L. split_and!; [apply (di_topo _ _ _ Hd)|done|]. intros r Hr. by apply not_elem_of_nil in Hr. }
  inversion Hlt as [|?? Hroot Hroots]; subst.
  destruct (bool_decide (mark !! root = Some 0%N)) eqn:Em; bool_to_prop.
  - assert (dinv (<[root := 1%N]> mark) [(root, 0)] L) as Hd'.
    { destruct Hd as [H1 H2 H3 H4 H5 H6 H7]. split; try done.
      - by rewrite length_insert.
      - intros i m Hm. apply list_lookup_insert_Some in Hm as [(_ & <- & _)|[_ Hm]]; [by right; left|by apply (H2 i)].
      - intros i. cbn. rewrite list_elem_of_singleton. destruct (decide (i = root)) as [->|Hne].
        + rewrite list_lookup_insert_eq by lia. done.
        + rewrite list_lookup_insert_ne by done. rewrite H3. cbn. set_solver.
      - intros i. destruct (decide (i = root)) as [->|Hne]; [|by rewrite list_lookup_insert_ne].
        rewrite list_lookup_insert_eq by lia. rewrite <- H4, Em. done.
      - cbn. apply NoDup_singleton.
      - cbn. split_and!; [intros; lia|done|lia|done]. }
    pose proof (white_mark mark root 1 Em Hroot ltac:(done)) as Hwm.
    assert (white (<[root := 1%N]> mark) + load [(root, 0%nat)] = white mark)%N as Hsum by (unfold load, weight in *; cbn; unfold sum_of in *; lia).
    pose proof (search_spec fuel _ _ L Hd' ltac:(lia)) as Hs.
    destruct (search fuel (index tasks) tasks _ _) as [[mark'|]|] eqn:Es; [|done|done]. destruct Hs as (L' & Hd2 & HL & Hle).
    specialize (IH mark' L' Hd2 ltac:(lia) Hroots). destruct (search_roots fuel (index tasks) tasks mark' roots) as [[|]|]; [|done|done].
    destruct IH as (L2 & Ht & HL2 & Hin). exists L2. split_and!; [done|set_solver|]. intros r [->|Hr]%elem_of_cons; [|by apply Hin].
    apply HL2. rewrite <- (di_black _ _ _ Hd2).
    assert (mark' !! root <> Some 0%N) as Hnz.
    { eapply search_visited; [|exact Es]. rewrite list_lookup_insert_eq; [done|]. by rewrite (di_length _ _ _ Hd). }
    destruct (lookup_lt_is_Some_2 mark' root) as [m Hm]; [by rewrite (di_length _ _ _ Hd2)|].
    destruct (di_values _ _ _ Hd2 _ _ Hm) as [-> | [-> | ->]]; [done| |done]. apply (di_gray _ _ _ Hd2) in Hm. by apply not_elem_of_nil in Hm.
  - specialize (IH mark L Hd Hw Hroots). destruct (search_roots fuel (index tasks) tasks mark roots) as [[|]|]; [|done|done].
    destruct IH as (L2 & Ht & HL2 & Hin). exists L2. split_and!; [done|done|]. intros r [->|Hr]%elem_of_cons; [|by apply Hin].
    apply HL2. rewrite <- (di_black _ _ _ Hd). destruct (lookup_lt_is_Some_2 mark root) as [m Hm]; [by rewrite (di_length _ _ _ Hd)|].
    destruct (di_values _ _ _ Hd _ _ Hm) as [-> | [-> | ->]]; [done| |done]. apply (di_gray _ _ _ Hd) in Hm. by apply not_elem_of_nil in Hm.
Qed.

Lemma unknown_spec : 
  match unknown (index tasks) tasks with
  | Some (k, d) => depends k d /\ forall u, u ∈ tasks -> t_key u <> d
  | None => forall t d, t ∈ tasks -> d ∈ t_deps t -> exists i, index tasks !! d = Some i
  end.
Proof.
  unfold unknown.
  set (look := fun t => (fun d => (t_key t, d)) <$> List.find (fun d => bool_decide (index tasks !! d = None)) (t_deps t)).
  assert (Hlook : forall t k d, look t = Some (k, d) -> k = t_key t /\ d ∈ t_deps t /\ index tasks !! d = None).
  { intros t k d (e & He & [= -> ->])%fmap_Some. apply find_some in He as [He Hb]. apply list_elem_of_In in He. by bool_to_prop. }
  destruct (omap look tasks) as [|[k d] l] eqn:E; cbn.
  - intros t d Ht Hd. destruct (index tasks !! d) as [i|] eqn:Ei; [by exists i|]. exfalso.
    destruct (look t) as [p|] eqn:El.
    + assert (p ∈ omap look tasks) as Hp by (apply list_elem_of_omap; by exists t). rewrite E in Hp. by apply not_elem_of_nil in Hp.
    + unfold look in El. apply fmap_None in El. pose proof (find_none _ _ El d (proj1 (list_elem_of_In _ _) Hd)) as Hx.
      cbn in Hx. bool_to_prop. done.
  - assert ((k, d) ∈ omap look tasks) as Hp by (rewrite E; left). apply list_elem_of_omap in Hp as (t & Ht & Hl).
    destruct (Hlook t k d Hl) as (-> & Hd & Hn). split; [by exists t|]. by apply index_None.
Qed.

Lemma depends_edges : NoDup (t_key <$> tasks) -> (forall t d, t ∈ tasks -> d ∈ t_deps t -> exists i, index tasks !! d = Some i) ->
  forall a b, tc depends a b -> exists i j, index tasks !! a = Some i /\ index tasks !! b = Some j /\ tc edge i j.
Proof.
  intros Hn Hk. assert (H1 : forall a b, depends a b -> exists i j, index tasks !! a = Some i /\ index tasks !! b = Some j /\ edge i j).
  { intros a b (t & Ht & <- & Hb). apply list_elem_of_lookup in Ht as [i Hi]. destruct (Hk t b) as [j Hj]; [by apply (list_elem_of_lookup_2 _ i)|done|].
    exists i, j. split_and!; [by apply index_unique|done|]. exists b. split; [|done]. unfold deps_at. by rewrite Hi. }
  intros a b Htc. induction Htc as [a b H|a c b H _ IH].
  - destruct (H1 a b H) as (i & j & ? & ? & ?). exists i, j. split_and!; try done. by apply tc_once.
  - destruct (H1 a c H) as (i & j & Hi & Hj & He). destruct IH as (j' & k & Hj' & Hk' & Htc).
    exists i, k. split_and!; try done. replace j' with j in Htc by congruence. by apply tc_l with j.
Qed.

Definition acyclic : Prop := forall k, ~ tc depends k k.

Lemma white_start : white (replicate (length tasks) 0%N) = sumN (fun i => N.of_nat (weight tasks i)) (length tasks).
Proof.
  apply sumN_ext. intros i Hi. rewrite lookup_replicate_2 by done. by rewrite bool_decide_eq_true_2.
Qed.

(** What a finished check leaves: an order in which each task comes after those it waits for. *)
Lemma validate_order : 
  match validate_dependencies tasks with
  | Some (Ok _) => (forall t d, t ∈ tasks -> d ∈ t_deps t -> exists i, index tasks !! d = Some i) /\
      exists L, topo L /\ forall i, i < length tasks -> i ∈ L
  | Some (Err (UnknownDependency k d)) => depends k d /\ forall u, u ∈ tasks -> t_key u <> d
  | Some (Err (Cycle names)) => is_cycle names
  | Some (Err (BadScope _ _)) | None => False
  end.
Proof.
  unfold validate_dependencies. pose proof unknown_spec as Hu.
  destruct (unknown (index tasks) tasks) as [[k d]|]; [done|].
  assert (dinv (replicate (length tasks) 0%N) [] []) as Hd.
  { split; [by rewrite length_replicate| | | |by apply NoDup_nil_2|constructor|done].
    - intros i m [-> _]%lookup_replicate. by left.
    - intros i. split; [by intros [H _]%lookup_replicate|by intros H%not_elem_of_nil].
    - intros i. split; [by intros [H _]%lookup_replicate|by intros H%not_elem_of_nil]. }
  pose proof (search_roots_spec (search_fuel tasks)) as Hs. rewrite white_start in Hs. unfold search_fuel in Hs at 1.
  specialize (Hs ltac:(lia) (seq 0 (length tasks)) _ [] Hd). rewrite white_start in Hs. specialize (Hs ltac:(lia)).
  assert (Forall (fun r => r < length tasks) (seq 0 (length tasks))) as Hseq by (apply Forall_forall; intros i Hi; apply elem_of_seq in Hi; lia).
  specialize (Hs Hseq). destruct (search_roots _ _ _ _ _) as [[[]|names]|]; [|done|done].
  destruct Hs as (L & Ht & _ & Hin). split; [done|]. exists L. split; [done|]. intros i Hi. apply Hin, elem_of_seq. lia.
Qed.

(** C8. The check of a plan's dependencies always ends, and says exactly what is wrong: it
    passes when every dependency names a task and no task waits for itself, however
    indirectly; otherwise it names a dependency no task has, or a cycle, each task of which
    depends on the next. *)
Theorem validate_is_exact : NoDup (t_key <$> tasks) -> exists r, validate_dependencies tasks = Some r /\
  match r with
  | Ok _ => (forall a b, depends a b -> exists u, u ∈ tasks /\ t_key u = b) /\ acyclic
  | Err (UnknownDependency k d) => depends k d /\ forall u, u ∈ tasks -> t_key u <> d
  | Err (Cycle names) => is_cycle names
  | Err (BadScope _ _) => False
  end.
Proof.
  intros Hn. pose proof validate_order as H.
  destruct (validate_dependencies tasks) as [[[]|[k d|names|w e]]|]; try done; try by eexists.
  destruct H as (Hu & L & Ht & Hin). eexists. split; [done|]. split.
  - intros a b (t & Htin & _ & Hb). destruct (Hu t b Htin Hb) as [i Hi]. destruct (index_Some _ _ Hi) as (u & Hui & Hk).
    exists u. split; [by apply (list_elem_of_lookup_2 _ i)|done].
  - intros k Htc. destruct (depends_edges Hn Hu k k Htc) as (i & j & Hi & Hj & He). replace j with i in He by congruence.
    apply (topo_acyclic L Ht i); [|done]. apply Hin. destruct (index_Some _ _ Hi) as (u & Hui & _). by apply lookup_lt_Some in Hui.
Qed.
End Search.

(** ** Waves *)

Section Waves.
Context {T : Type} `{W : WorkflowTask T}.
Implicit Types (pending wave tasks : list T) (completed : gset string).

Definition ready completed (t : T) : Prop := forall d, d ∈ t_deps t -> d ∈ completed.
(** Scopes that are readable and meet those given. *)
Definition collides (held : list string) (t : T) : Prop := exists ns, normalize_all (t_scopes t) = Ok ns /\ disjoint ns held = false.
Definition apart (held : list string) (t : T) : Prop := exists ns, normalize_all (t_scopes t) = Ok ns /\ disjoint ns held = true.

Lemma disjoint_app a b c : disjoint a (b ++ c) = disjoint a b && disjoint a c.
Proof.
  apply eq_iff_eq_true. rewrite andb_true_iff, !disjoint_spec. setoid_rewrite elem_of_app. naive_solver.
Qed.
Lemma disjoint_sym a b : disjoint a b = disjoint b a.
Proof.
  apply eq_iff_eq_true. rewrite !disjoint_spec. split; intros H x y Hx Hy; rewrite scopes_overlap_sym; by apply H.
Qed.

Lemma ready_forallb completed t : forallb (fun d => bool_decide (d ∈ completed)) (t_deps t) = true <-> ready completed t.
Proof. rewrite forallb_forall. unfold ready. setoid_rewrite list_elem_of_In. setoid_rewrite bool_decide_eq_true. done. Qed.

(** A wave whose tasks are apart from what is reserved, and each from those before it. *)
Fixpoint spread (reserved : list string) (wave : list T) : Prop :=
  match wave with
  | [] => True
  | t :: wave' => exists ns, normalize_all (t_scopes t) = Ok ns /\ disjoint ns reserved = true /\ spread (reserved ++ ns) wave'
  end.

Lemma spread_apart reserved wave : spread reserved wave -> Forall (apart reserved) wave.
Proof.
  revert reserved. induction wave as [|t wave IH]; intros reserved; [constructor|]. intros (ns & Hns & Hd & Hs).
  constructor; [by exists ns|]. specialize (IH _ Hs). rewrite Forall_forall in *. intros u Hu. destruct (IH u Hu) as (ms & Hm & Hd').
  exists ms. split; [done|]. rewrite disjoint_app in Hd'. by apply andb_true_iff in Hd' as [? _].
Qed.

Lemma spread_pairwise reserved wave i j a b : spread reserved wave -> i < j -> wave !! i = Some a -> wave !! j = Some b ->
  task_scopes_disjoint (t_scopes a) (t_scopes b) = true.
Proof.
  revert reserved i j. induction wave as [|t wave IH]; intros reserved i j Hs Hij Ha Hb; [done|].
  destruct Hs as (ns & Hns & Hd & Hs). destruct j as [|j]; [lia|]. destruct i as [|i]; [|by apply (IH (reserved ++ ns) i j Hs); [lia|..]].
  injection Ha as <-. pose proof (spread_apart _ _ Hs) as Hap. rewrite Forall_forall in Hap.
  destruct (Hap b) as (ms & Hm & Hd'); [by apply (list_elem_of_lookup_2 _ j)|]. unfold task_scopes_disjoint. rewrite Hns, Hm.
  rewrite disjoint_app in Hd'. apply andb_true_iff in Hd' as [_ ?]. by rewrite disjoint_sym.
Qed.

Lemma fill_wave_spec pending completed external reserved room wave :
  fill_wave pending completed external reserved room = Ok wave ->
  sublist wave pending /\ length wave <= room /\ Forall (ready completed) wave /\ spread reserved wave /\ Forall (apart external) wave /\
  (wave = [] -> room <> 0 -> forall t, t ∈ pending -> ready completed t -> collides external t \/ collides reserved t).
Proof.
  revert reserved room wave. induction pending as [|t pending IH]; intros reserved room wave; cbn [fill_wave].
  { intros [= <-]. split_and!; [done|cbn; lia|constructor|done|constructor|]. intros _ _ t H. by apply not_elem_of_nil in H. }
  destruct room as [|r].
  { intros [= <-]. split_and!; [apply sublist_nil_l|done|constructor|done|constructor|done]. }
  destruct (forallb _ _) eqn:Er.
  - rewrite ready_forallb in Er. destruct (normalize_all (t_scopes t)) as [ns|] eqn:En; [|done].
    destruct (disjoint ns external && disjoint ns reserved) eqn:Ed.
    + destruct (fill_wave pending completed external (reserved ++ ns) r) as [w|] eqn:Ew; [|done]. cbn. intros [= <-].
      apply andb_true_iff in Ed as [He Hr]. destruct (IH _ _ _ Ew) as (H1 & H2 & H3 & H4 & H5 & _).
      split_and!; [by apply sublist_skip|cbn; lia|by constructor|by exists ns|constructor; [by exists ns|done]|done].
    + intros Hw. destruct (IH _ _ _ Hw) as (H1 & H2 & H3 & H4 & H5 & H6). split_and!; try done; [by apply sublist_cons|].
      intros Hnil Hroom u [->|Hu]%elem_of_cons Hru; [|by apply H6]. apply andb_false_iff in Ed as [Ed|Ed]; [left|right]; by exists ns.
  - intros Hw. destruct (IH _ _ _ Hw) as (H1 & H2 & H3 & H4 & H5 & H6). split_and!; try done; [by apply sublist_cons|].
    intros Hnil Hroom u [->|Hu]%elem_of_cons Hru; [|by apply H6]. apply ready_forallb in Hru. congruence.
Qed.

(** What may run at the same time: every dependency is met, no claim is touched, no two tasks
    share a path, and there are no more than the limit. *)
Record admissible completed (claims : list string) (max_parallel : nat) (wave : list T) : Prop := {
  wave_limit : length wave <= Nat.max max_parallel 1;
  wave_ready t : t ∈ wave -> ready completed t;
  wave_free t : t ∈ wave -> task_scopes_disjoint (t_scopes t) claims = true;
  wave_disjoint i j a b : i < j -> wave !! i = Some a -> wave !! j = Some b -> task_scopes_disjoint (t_scopes a) (t_scopes b) = true;
}.

(** A readable task that meets a claim. *)
Definition claimed (claims : list string) (t : T) : Prop :=
  exists ns cs, normalize_all (t_scopes t) = Ok ns /\ normalize_all claims = Ok cs /\ disjoint ns cs = false.
Lemma claimed_not_free claims t : claimed claims t -> task_scopes_disjoint (t_scopes t) claims = false.
Proof. intros (ns & cs & Hn & Hc & Hd). unfold task_scopes_disjoint. by rewrite Hn, Hc. Qed.

(** Tasks of one wave can run at the same time: each comes from the pending ones, in plan
    order, has what it depends on, touches no claim and shares no path with another, and the
    limit is kept, at least one.  An empty wave means that every pending task waits for a
    dependency or meets a claim. *)
Lemma next_wave_spec pending completed claims max_parallel wave :
  next_wave pending completed claims max_parallel = Ok wave ->
  sublist wave pending /\ admissible completed claims max_parallel wave /\
  (wave = [] -> forall t, t ∈ pending -> ready completed t -> claimed claims t).
Proof.
  unfold next_wave. destruct (normalize_all claims) as [cs|] eqn:Ec; [|done]. intros Hw.
  destruct (fill_wave_spec _ _ _ _ _ _ Hw) as (H1 & H2 & H3 & H4 & H5 & H6). rewrite Forall_forall in H3, H5. split_and!; [done| |].
  - split; [done|done| |intros i j a b; by apply (spread_pairwise [])].
    intros t Ht. destruct (H5 t Ht) as (ns & Hn & Hd). unfold task_scopes_disjoint. by rewrite Hn, Ec.
  - intros Hnil t Ht Hr. destruct (H6 Hnil ltac:(lia) t Ht Hr) as [(ns & Hn & Hd)|(ns & Hn & Hd)]; [by exists ns, cs|].
    apply not_true_iff_false in Hd. destruct Hd. apply disjoint_spec. intros x y _ Hy. by apply not_elem_of_nil in Hy.
Qed.

Definition keys_of (l : list T) : gset string := list_to_set (t_key <$> l).
Lemma elem_of_keys_of k l : k ∈ keys_of l <-> exists t, t ∈ l /\ t_key t = k.
Proof. unfold keys_of. rewrite elem_of_list_to_set, list_elem_of_fmap. naive_solver. Qed.

Lemma keys_inj (l : list T) a b : NoDup (t_key <$> l) -> a ∈ l -> b ∈ l -> t_key a = t_key b -> a = b.
Proof.
  intros Hn [i Hi]%list_elem_of_lookup [j Hj]%list_elem_of_lookup Hk.
  assert (i = j) as <-; [|congruence]. apply (NoDup_lookup _ i j (t_key a) Hn); rewrite list_lookup_fmap; [by rewrite Hi|by rewrite Hj, Hk].
Qed.

Lemma elem_of_retain (done : gset string) pending t : t ∈ retain done pending <-> t_key t ∉ done /\ t ∈ pending.
Proof. unfold retain. by rewrite list_elem_of_filter. Qed.

Lemma retain_nothing tasks : retain ∅ tasks = tasks.
Proof. unfold retain. apply filter_every. intros t _. set_solver. Qed.

Lemma NoDup_retain (done : gset string) tasks : NoDup (t_key <$> tasks) -> NoDup (t_key <$> retain done tasks).
Proof.
  unfold retain. induction tasks as [|t tasks IH]; [done|].
  rewrite fmap_cons, NoDup_cons, filter_cons. intros [Ht Hn]. destruct (decide _); [|by apply IH]. rewrite fmap_cons, NoDup_cons. split; [|by apply IH].
  intros (u & Hk & [_ Hu]%list_elem_of_filter)%list_elem_of_fmap. apply Ht, list_elem_of_fmap. by exists u.
Qed.

Lemma retain_partition wave pending : NoDup (t_key <$> pending) -> sublist wave pending ->
  pending ≡ₚ wave ++ retain (keys_of wave) pending.
Proof.
  intros Hn Hs. assert (NoDup pending) as Hnd by by apply NoDup_fmap_1 in Hn. apply NoDup_Permutation; [done| |].
  - apply NoDup_app. split_and!; [by apply (sublist_NoDup _ pending)| |by apply NoDup_filter].
    intros t Ht [Hk _]%list_elem_of_filter. apply Hk, elem_of_keys_of. by exists t.
  - intros t. unfold retain. rewrite elem_of_app, list_elem_of_filter. split.
    + intros Ht. destruct (decide (t_key t ∈ keys_of wave)) as [Hk|Hk]; [left|by right].
      apply elem_of_keys_of in Hk as (u & Hu & Hk). by rewrite <- (keys_inj pending u t Hn (elem_of_sublist _ _ _ Hu Hs) Ht Hk).
    + intros [Ht|[_ Ht]]; [by apply (elem_of_sublist wave)|done].
Qed.

(** Every wave may run once the waves before it have landed. *)
Fixpoint waves_ok completed (claims : list string) (max_parallel : nat) (waves : list (list T)) : Prop :=
  match waves with
  | [] => True
  | wave :: waves' => wave <> [] /\ admissible completed claims max_parallel wave /\
      waves_ok (keys_of wave ∪ completed) claims max_parallel waves'
  end.

Lemma build_waves_spec fuel pending completed claims max_parallel waves blocked :
  length pending <= fuel -> NoDup (t_key <$> pending) ->
  build_waves fuel pending completed claims max_parallel = Ok (waves, blocked) ->
  pending ≡ₚ concat waves ++ blocked /\ waves_ok completed claims max_parallel waves /\
  forall t, t ∈ blocked -> ready (keys_of (concat waves) ∪ completed) t -> claimed claims t.
Proof.
  revert pending completed waves. induction fuel as [|f IH]; intros pending completed waves Hf Hn; cbn [build_waves].
  { destruct pending; [|cbn in Hf; lia]. intros [= <- <-]. split_and!; try done. intros t H. by apply not_elem_of_nil in H. }
  destruct pending as [|p pending]; [intros [= <- <-]; split_and!; try done; intros t H; by apply not_elem_of_nil in H|].
  destruct (next_wave (p :: pending) completed claims max_parallel) as [wave|] eqn:Ew; [|done]. cbn [result_bind].
  destruct (next_wave_spec _ _ _ _ _ Ew) as (Hsub & Hadm & Hempty). destruct wave as [|w wave].
  { intros [= <- <-]. split_and!; try done. intros t Ht Hr. apply Hempty; [done|done|]. intros d Hd. apply Hr in Hd. set_solver. }
  pose proof (retain_partition _ _ Hn Hsub) as Hp. fold (keys_of (w :: wave)).
  set (rest := retain (keys_of (w :: wave)) (p :: pending)) in *.
  destruct (build_waves f rest (keys_of (w :: wave) ∪ completed) claims max_parallel) as [[ws bl]|] eqn:Eb; [|done].
  cbn [result_bind fst snd]. intros [= <- <-].
  assert (length rest <= f) as Hlen by (pose proof (Permutation_length Hp) as Hl; rewrite length_app in Hl; cbn [length] in Hl, Hf; lia).
  assert (NoDup (t_key <$> rest)) as Hnr by (rewrite Hp, fmap_app in Hn; by apply NoDup_app in Hn as (_ & _ & ?)).
  destruct (IH rest _ ws Hlen Hnr Eb) as (H1 & H2 & H3). split_and!; [|done|].
  - cbn [concat]. rewrite Hp at 1. by rewrite <- app_assoc, <- H1.
  - intros t Ht Hr. apply H3; [done|]. intros d Hd. apply Hr in Hd. cbn [concat] in Hd.
    rewrite elem_of_union, elem_of_keys_of in *. setoid_rewrite elem_of_app in Hd. rewrite elem_of_union, !elem_of_keys_of. naive_solver.
Qed.

Lemma fill_wave_Err pending completed external reserved room e :
  fill_wave pending completed external reserved room = Err e ->
  exists t why, t ∈ pending /\ normalize_all (t_scopes t) = Err why /\ e = BadScope (Some (t_key t)) why.
Proof.
  revert e reserved room. induction pending as [|t pending IH]; intros e reserved room; cbn [fill_wave]; [done|].
  assert (Hlater : forall res r, fill_wave pending completed external res r = Err e ->
    exists u why, u ∈ t :: pending /\ normalize_all (t_scopes u) = Err why /\ e = BadScope (Some (t_key u)) why).
  { intros res r H. destruct (IH _ _ _ H) as (u & why & Hu & ? & ?). exists u, why. split_and!; try done. by right. }
  destruct room as [|r]; [done|]. destruct (forallb _ _); [|apply Hlater].
  destruct (normalize_all (t_scopes t)) as [ns|why] eqn:En; [|intros [= <-]; exists t, why; split_and!; try done; left].
  destruct (_ && _); [|apply Hlater]. destruct (fill_wave _ _ _ _ r) eqn:E; [done|]. intros [= <-]. by eapply Hlater.
Qed.

Lemma build_waves_Err fuel pending completed claims max_parallel e :
  build_waves fuel pending completed claims max_parallel = Err e -> exists task why, e = BadScope task why.
Proof.
  revert pending completed. induction fuel as [|f IH]; intros pending completed; cbn [build_waves]; [done|].
  destruct pending as [|p pending]; [done|]. unfold next_wave at 1.
  destruct (normalize_all claims) as [cs|why]; [|intros [= <-]; by exists None, why].
  destruct (fill_wave _ _ _ _ _) as [[|w wave]|e'] eqn:E; [done| |intros [= <-]; destruct (fill_wave_Err _ _ _ _ _ _ E) as (t & why & _ & _ & ->); by eexists _, _]. cbn [result_bind].
  destruct (build_waves f _ _ _ _) as [[]|e'] eqn:Eb; [done|]. intros [= <-]. by apply IH in Eb.
Qed.

(** What a claim holds up: a readable pending task that meets it, and what waits for one held up. *)
Inductive held_up (tasks : list T) completed (claims : list string) : T -> Prop :=
| held_by_claim t : t ∈ tasks -> t_key t ∉ completed -> claimed claims t -> held_up tasks completed claims t
| held_by_dep t u : t ∈ tasks -> t_key t ∉ completed -> held_up tasks completed claims u -> t_key u ∈ t_deps t ->
    held_up tasks completed claims t.

Lemma held_up_pending tasks completed claims t : held_up tasks completed claims t -> t ∈ tasks /\ t_key t ∉ completed.
Proof. by destruct 1. Qed.

(** No task of a wave is held up. *)
Lemma waves_not_held tasks done completed claims max_parallel waves t : NoDup (t_key <$> tasks) -> 
  waves_ok done claims max_parallel waves -> (forall u, u ∈ concat waves -> u ∈ tasks) ->
  (forall u, u ∈ tasks -> held_up tasks completed claims u -> t_key u ∉ done) ->
  t ∈ concat waves -> ~ held_up tasks completed claims t.
Proof.
  intros Hn. revert done. induction waves as [|wave waves IH]; intros done Hok Hin Hdone Ht; [by apply not_elem_of_nil in Ht|].
  destruct Hok as (_ & Hadm & Hok). cbn [concat] in *.
  assert (Hwave : forall u, u ∈ wave -> ~ held_up tasks completed claims u).
  { intros u Hu Hh. inversion Hh as [? Hv _ Hc|? x Hv _ Hx Hd]; subst.
    - apply claimed_not_free in Hc. rewrite (wave_free _ _ _ _ Hadm u Hu) in Hc. done.
    - apply (wave_ready _ _ _ _ Hadm u Hu) in Hd. revert Hd. apply Hdone; [|done]. by destruct (held_up_pending _ _ _ _ Hx). }
  apply elem_of_app in Ht as [Ht|Ht]; [by apply Hwave|].
  apply (IH (keys_of wave ∪ done)); try done; [intros u Hu; apply Hin, elem_of_app; by right|].
  intros u Hu Hh. rewrite not_elem_of_union, elem_of_keys_of. split; [|by apply Hdone]. intros (v & Hv & Hk).
  assert (v = u) as -> by (apply (keys_inj tasks); try done; apply Hin, elem_of_app; by left). by apply (Hwave u).
Qed.

(** What is left over is held up by a claim, in the end. *)
Lemma left_over_is_held tasks completed claims waves blocked : NoDup (t_key <$> tasks) ->
  (exists r, validate_dependencies tasks = Some (Ok r)) ->
  retain completed tasks ≡ₚ concat waves ++ blocked ->
  (forall t, t ∈ blocked -> ready (keys_of (concat waves) ∪ completed) t -> claimed claims t) ->
  forall t, t ∈ blocked -> held_up tasks completed claims t.
Proof.
  intros Hn [r Hv] Hp Hb. pose proof (validate_order tasks) as Ho. rewrite Hv in Ho. destruct Ho as (Hk & L & Ht & Hin).
  assert (Hmem : forall u, u ∈ concat waves ++ blocked <-> t_key u ∉ completed /\ u ∈ tasks).
  { intros u. rewrite <- Hp. apply elem_of_retain. }
  assert (Hind : forall i t, i ∈ L -> tasks !! i = Some t -> t ∈ blocked -> held_up tasks completed claims t).
  { clear Hin. induction Ht as [|x L Hx He _ IH]; intros i t Hi Hti Htb; [by apply not_elem_of_nil in Hi|].
    apply elem_of_cons in Hi as [->|Hi]; [|by apply (IH i)].
    destruct (proj1 (Hmem t)) as [Hc Htin]; [apply elem_of_app; by right|].
    destruct (decide (Forall (.∈ keys_of (concat waves) ∪ completed) (t_deps t))) as [Hr|Hr].
    - apply held_by_claim; [done|done|]. apply Hb; [done|]. intros d Hd. rewrite Forall_forall in Hr. by apply (Hr d).
    - apply not_Forall_Exists in Hr; [|apply _]. apply Exists_exists in Hr as (d & Hd & Hnot). cbn in Hnot.
      destruct (Hk t d Htin Hd) as [j Hj]. destruct (index_Some _ _ _ Hj) as (u & Hu & Hku). subst d.
      apply not_elem_of_union in Hnot as [Hw Hcu].
      assert (u ∈ concat waves ++ blocked) as [Huw|Hub]%elem_of_app by (apply Hmem; split; [done|by apply (list_elem_of_lookup_2 _ j)]).
      { destruct Hw. apply elem_of_keys_of. by exists u. }
      apply held_by_dep with u; [done|done| |done]. apply (IH j u); [|done|done]. apply He. exists (t_key u). split; [|done].
      unfold deps_at. by rewrite Hti. }
  intros t Htb. destruct (proj1 (Hmem t)) as [_ Htin]; [apply elem_of_app; by right|]. apply list_elem_of_lookup in Htin as [i Hi].
  apply (Hind i t); [|done|done]. apply Hin. by apply lookup_lt_Some in Hi.
Qed.

Lemma nothing_is_held_without_claims tasks completed t : ~ held_up tasks completed [] t.
Proof.
  induction 1 as [t _ _ (ns & cs & _ & [= <-] & Hd)|]; [|done]. apply not_true_iff_false in Hd. apply Hd, disjoint_spec.
  intros x y _ Hy. by apply not_elem_of_nil in Hy.
Qed.

(** The answer always comes; a schedule partitions what is to do. *)
Lemma build_partition tasks completed claims max_parallel : NoDup (t_key <$> tasks) ->
  exists r, build tasks completed claims max_parallel = Some r /\
  match r with
  | Ok (waves, blocked) => retain completed tasks ≡ₚ concat waves ++ blocked /\ waves_ok completed claims max_parallel waves /\
      forall t, t ∈ blocked -> held_up tasks completed claims t
  | Err e => validate_dependencies tasks = Some (Err e) \/ exists task why, e = BadScope task why
  end.
Proof.
  intros Hn. unfold build. pose proof (validate_order tasks) as Hv.
  destruct (validate_dependencies tasks) as [[[]|e]|] eqn:Ev; [|exists (Err e); split; [done|by left]|done]. clear Hv.
  eexists. split; [done|]. pose proof (NoDup_retain completed tasks Hn) as Hnp.
  destruct (build_waves _ (retain completed tasks) completed claims max_parallel) as [[waves blocked]|e] eqn:Eb.
  - destruct (build_waves_spec _ _ _ _ _ _ _ (le_n _) Hnp Eb) as (H1 & H2 & H3). split_and!; [done|done|].
    by apply (left_over_is_held tasks completed claims waves); [|exists tt|..].
  - right. by apply build_waves_Err in Eb.
Qed.

(** C34. A plan is partitioned exactly: the answer always comes, and when it is a schedule every
    task still to do is in one wave or left over, each wave may run once the waves before it
    have landed, and what is left over is what an active claim holds up, directly or through
    what it depends on.  Without claims nothing is left over. *)
Theorem schedule_is_exact tasks completed claims max_parallel : NoDup (t_key <$> tasks) ->
  exists r, build tasks completed claims max_parallel = Some r /\
  match r with
  | Ok (waves, blocked) =>
      retain completed tasks ≡ₚ concat waves ++ blocked /\ waves_ok completed claims max_parallel waves /\
      (forall t, t ∈ blocked <-> held_up tasks completed claims t) /\ (claims = [] -> blocked = [])
  | Err e => validate_dependencies tasks = Some (Err e) \/ exists task why, e = BadScope task why
  end.
Proof.
  intros Hn. destruct (build_partition tasks completed claims max_parallel Hn) as (r & Hr & H). exists r. split; [done|].
  destruct r as [[waves blocked]|e]; [|done]. destruct H as (H1 & H2 & Hleft).
  assert (Hmem : forall u, u ∈ concat waves ++ blocked <-> t_key u ∉ completed /\ u ∈ tasks).
  { intros u. rewrite <- H1. apply elem_of_retain. }
  split_and!; [done|done| |].
  - intros t. split; [apply Hleft|]. intros Hh. destruct (held_up_pending _ _ _ _ Hh) as [Hin Hc].
    pose proof (proj2 (Hmem t) (conj Hc Hin)) as Ht. apply elem_of_app in Ht as [Hw|Hw]; [|done].
    destruct (waves_not_held tasks completed completed claims max_parallel waves t Hn H2); try done.
    + intros u Hu. apply Hmem, elem_of_app. by left.
    + intros u _ Hu. by destruct (held_up_pending _ _ _ _ Hu).
  - intros ->. destruct blocked as [|b blocked]; [done|]. destruct (nothing_is_held_without_claims tasks completed b). apply Hleft. left.
Qed.
End Waves.

(** ** Witnesses *)

(** A task of a test: its key, what it depends on, its scopes. *)
#[export] Instance plain_task : WorkflowTask (string * list string * list string) := {
  t_key t := t.1.1; t_deps t := t.1.2; t_scopes t := t.2 }.

Definition plan : list (string * list string * list string) :=
  [("a", [], ["src/a"]); ("b", ["a"], ["src/b"]); ("c", ["b"], ["docs"]); ("d", [], [" .\SRC//A/x "])]%string.

Example normalized_scope_components_witness : normalize_scope " .\SRC//Lib/ " = Ok "src/lib"%string /\
  Forall (fun p => p <> "" /\ p <> "." /\ p <> "..")%string (components "src/lib").
Proof.
  assert (normalize_scope " .\SRC//Lib/ " = Ok "src/lib"%string) as H by reflexivity.
  split; [exact H|exact (proj2 (normalized_scope_components _ _ H))].
Defined.

Example validate_is_exact_witness : exists r, validate_dependencies plan = Some r /\ r = Ok tt.
Proof.
  destruct (validate_is_exact plan) as (r & Hr & _); [|exists r; split; [exact Hr|]].
  - cbn. repeat (apply NoDup_cons; split; [set_solver|]). apply NoDup_nil_2.
  - revert Hr. vm_compute. by intros [= <-].
Defined.

(** With a claim on [docs/manual], [c] alone is left over; [d] meets [a] and runs after it. *)
Example schedule_is_exact_witness : exists r, build plan ∅ ["docs/manual"]%string 4 = Some r /\
  r = Ok ([[("a", [], ["src/a"])]; [("b", ["a"], ["src/b"]); ("d", [], [" .\SRC//A/x "])]], [("c", ["b"], ["docs"])])%string.
Proof.
  destruct (schedule_is_exact plan ∅ ["docs/manual"]%string 4) as (r & Hr & _); [|exists r; split; [exact Hr|]].
  - cbn. repeat (apply NoDup_cons; split; [set_solver|]). apply NoDup_nil_2.
  - revert Hr. vm_compute. by intros [= <-].
Defined.

(** ** What the model shows besides *)

(** A leading [./] hides the letter of a drive. *)
Lemma drive_passes_behind_a_dot : normalize_scope "c:/x" = Err NamesDrive /\ normalize_scope "./c:/x" = Ok "c:/x"%string.
Proof. by vm_compute. Qed.

(** Normalizing again may change a scope: what is trimmed is the whole, not each component. *)
Lemma normalizing_is_not_idempotent :
  normalize_scope "x/ /" = Ok "x/ "%string /\ normalize_scope "x/ " = Ok "x"%string.
Proof. by vm_compute. Qed.

(** Of two tasks with one key, the later disappears from the schedule. *)
Lemma twin_task_disappears :
  build [("a", [], ["src/a"]); ("a", [], ["src/a"])]%string ∅ [] 4 = Some (Ok ([[("a", [], ["src/a"])]], []))%string.
Proof. by vm_compute. Qed.
