(* ===== verification/Control.v ===== *)
(** * Control: what an operator asks of a mission
    ([crates/susi-harness/src/control.rs], [api.rs])

    A command is validated, appended to a log and answered; the supervisor derives the
    standing intent from the accepted records.  The log is the list of the records its lines
    parse to; appending a line may fail. *)

From S2P Require Import Prelude Money Text.
From Stdlib Require Import Ascii String.

Local Open Scope string_scope.
Local Open Scope list_scope.

(** ** Commands *)

Record MissionSpec : Type := { id : string; title : string; roadmap : option string }.

Inductive ControlCommand : Type :=
| StartMission (mission : MissionSpec)
| Pause (mission_id : string)
| Resume (mission_id : string)
| Abort (mission_id : string)
| Redirect (mission_id : string) (priority : N)
| TopUp (provider : string) (amount : N)
| Decide (decision_id : string) (choice : string).

Inductive ConfigError : Type :=
| Required (field : string)
| IdTooLong
| IdCharacters
| PriorityRange
| AmountZero.

Definition require (value field : string) : result unit ConfigError :=
  if String.eqb (trim value) "" then Err (Required field) else Ok tt.
Definition id_char (c : ascii) : bool :=
  is_ascii_alphanumeric c || Ascii.eqb c "-"%char || Ascii.eqb c "_"%char || Ascii.eqb c "."%char.
Definition MissionSpec_validate (m : MissionSpec) : result unit ConfigError :=
  if String.eqb (trim (id m)) "" then Err (Required "mission id")
  else if bool_decide (64 < String.length (id m))%nat then Err IdTooLong
  else if negb (forallb id_char (list_ascii_of_string (id m))) then Err IdCharacters
  else if String.eqb (trim (title m)) "" then Err (Required "mission title")
  else Ok tt.

Definition mission_id (c : ControlCommand) : option string :=
  match c with
  | StartMission m => Some (id m)
  | Pause i | Resume i | Abort i | Redirect i _ => Some i
  | TopUp _ _ | Decide _ _ => None
  end.
Definition validate (c : ControlCommand) : result unit ConfigError :=
  match c with
  | StartMission m => MissionSpec_validate m
  | Pause i | Resume i | Abort i => require i "mission_id"
  | Redirect i p =>
      result_bind (require i "mission_id") (fun _ => if (9 <? p)%N then Err PriorityRange else Ok tt)
  | TopUp provider amount =>
      result_bind (require provider "provider") (fun _ => if MicroUsd.is_zero amount then Err AmountZero else Ok tt)
  | Decide i choice => result_bind (require i "decision_id") (fun _ => require choice "choice")
  end.

(** ** Records and the standing intent *)

Record ControlRecord : Type := { at_unix_ms : N; command : ControlCommand; accepted : bool; refusal : option ConfigError }.
Definition record_answer (now : N) (c : ControlCommand) : ControlRecord :=
  match validate c with
  | Ok _ => {| at_unix_ms := now; command := c; accepted := true; refusal := None |}
  | Err e => {| at_unix_ms := now; command := c; accepted := false; refusal := Some e |}
  end.

Record ControlState : Type := mkState {
  paused : bool;
  aborted : bool;
  priority : option N;
  topups : gmap string N;
  decisions : gmap string string;
}.
Definition ControlState_default : ControlState := mkState false false None ∅ ∅.
Definition apply_command (s : ControlState) (c : ControlCommand) : ControlState :=
  match c with
  | Pause _ => mkState true (aborted s) (priority s) (topups s) (decisions s)
  | Resume _ => mkState false (aborted s) (priority s) (topups s) (decisions s)
  | Abort _ => mkState false true (priority s) (topups s) (decisions s)
  | Redirect _ p => mkState (paused s) (aborted s) (Some p) (topups s) (decisions s)
  | TopUp p a => mkState (paused s) (aborted s) (priority s) (<[p := saturating_add (default 0%N (topups s !! p)) a]> (topups s)) (decisions s)
  | Decide i choice => mkState (paused s) (aborted s) (priority s) (topups s) (<[i := choice]> (decisions s))
  | StartMission _ => s
  end.
Definition from_records (records : list ControlRecord) : ControlState :=
  fold_left (fun s r => apply_command s (command r)) (List.filter accepted records) ControlState_default.
Definition blocks_new_work (s : ControlState) : bool := paused s || aborted s.

(** [submit]: the answer and the log; [appended] is how the write of the line ended. *)
Definition submit (now : N) (appended : result unit string) (log : list ControlRecord) (c : ControlCommand) :
    list ControlRecord * result ControlRecord string :=
  let r := record_answer now c in
  match appended with
  | Err e => (log, Err e)
  | Ok _ => (log ++ [r], Ok r)
  end.

(** ** What the log says *)

Definition is_stop (c : ControlCommand) : bool :=
  match c with Pause _ | Resume _ | Abort _ => true | _ => false end.
Definition is_pause (c : ControlCommand) : bool := match c with Pause _ => true | _ => false end.
Definition is_abort (c : ControlCommand) : bool := match c with Abort _ => true | _ => false end.
Definition topup_of (p : string) (c : ControlCommand) : N :=
  match c with TopUp q a => if String.eqb p q then a else 0%N | _ => 0%N end.
Definition choice_of (i : string) (c : ControlCommand) : option string :=
  match c with Decide j choice => if String.eqb i j then Some choice else None | _ => None end.

(** The commands that count, in order. *)
Definition commands (records : list ControlRecord) : list ControlCommand := command <$> List.filter accepted records.

Lemma from_records_fold records : from_records records = fold_left apply_command (commands records) ControlState_default.
Proof.
  unfold from_records, commands. generalize ControlState_default. generalize (List.filter accepted records).
  induction l as [|r l IH]; intros s; [done|]. apply IH.
Qed.

Lemma fold_paused l s : paused (fold_left apply_command l s) =
  match last (List.filter is_stop l) with Some c => is_pause c | None => paused s end.
Proof.
  induction l as [|c l IH] using rev_ind; [done|]. rewrite fold_left_app, List.filter_app, last_app. cbn.
  destruct c; cbn; try done; by rewrite IH.
Qed.

Lemma fold_aborted l s : aborted (fold_left apply_command l s) = aborted s || existsb is_abort l.
Proof.
  induction l as [|c l IH] using rev_ind; [by rewrite orb_false_r|]. rewrite fold_left_app, existsb_app. cbn.
  destruct c; cbn; rewrite ?IH, ?orb_false_r, ?orb_true_r; done.
Qed.

Lemma fold_topups l p : default 0%N (topups (fold_left apply_command l ControlState_default) !! p) = N.min (sum_of (topup_of p <$> l)) u64_max.
Proof.
  induction l as [|c l IH] using rev_ind; [done|]. rewrite fold_left_app, fmap_app, sum_of_app. cbn [fold_left fmap list_fmap].
  replace (sum_of [topup_of p c]) with (topup_of p c) by (unfold sum_of; cbn; lia).
  destruct c; cbn [apply_command topups topup_of]; try by rewrite IH, N.add_0_r. destruct (String.eqb_spec p provider) as [<-|Hne].
  - rewrite lookup_insert_eq, IH. cbn. unfold saturating_add. lia.
  - by rewrite lookup_insert_ne, IH, N.add_0_r by done.
Qed.

Lemma fold_decisions l s i : decisions (fold_left apply_command l s) !! i =
  match last (omap (choice_of i) l) with Some c => Some c | None => decisions s !! i end.
Proof.
  induction l as [|c l IH] using rev_ind; [done|]. rewrite fold_left_app, omap_app, last_app. cbn.
  destruct c; cbn; try by rewrite IH. destruct (String.eqb_spec i decision_id) as [<-|Hne]; cbn.
  - by rewrite lookup_insert_eq.
  - rewrite lookup_insert_ne by done. by rewrite IH.
Qed.

(** The standing intent is what the accepted commands say: the mission is paused when the
    last of them that pauses, resumes or aborts is a pause, aborted for good once one of
    them aborts, each provider is topped up by the sum of its top-ups, short of the end of
    the counter, and each decision has the last choice made. *)
Theorem standing_intent_exact records : let s := from_records records in let l := commands records in
  (paused s = true <-> exists i, last (List.filter is_stop l) = Some (Pause i)) /\
  (aborted s = true <-> exists i, In (Abort i) l) /\
  (blocks_new_work s = true <-> (exists i, last (List.filter is_stop l) = Some (Pause i)) \/ exists i, In (Abort i) l) /\
  (forall p, default 0%N (topups s !! p) = N.min (sum_of (topup_of p <$> l)) u64_max) /\
  (forall i, decisions s !! i = last (omap (choice_of i) l)).
Proof.
  cbn zeta. rewrite from_records_fold. set (l := commands records). set (s := fold_left _ _ _).
  assert (Hp : paused s = true <-> exists i, last (List.filter is_stop l) = Some (Pause i)).
  { unfold s. rewrite fold_paused. cbn. destruct (last _) as [[]|]; cbn; naive_solver. }
  assert (Ha : aborted s = true <-> exists i, In (Abort i) l).
  { unfold s. rewrite fold_aborted. cbn. rewrite existsb_exists. split; [intros (c & Hc & H); destruct c; try done; by eexists|].
    intros [i Hi]. by exists (Abort i). }
  split_and!; [done|done| | |].
  - unfold blocks_new_work. by rewrite orb_true_iff, Hp, Ha.
  - intros p. apply fold_topups.
  - intros i. unfold s. rewrite fold_decisions. destruct (last (omap (choice_of i) l)); [done|apply lookup_empty].
Qed.

(** A command that cannot be acted on is recorded as refused, with the reason, and changes
    nothing; one that can is recorded as accepted and applied; and when the line cannot be
    written nothing is accepted. *)
Theorem submit_exact now appended log c : let '(log', answer) := submit now appended log c in
  match appended, validate c with
  | Err e, _ => answer = Err e /\ from_records log' = from_records log
  | Ok _, Err e => (exists r, answer = Ok r /\ accepted r = false /\ refusal r = Some e /\ last log' = Some r) /\
      from_records log' = from_records log
  | Ok _, Ok _ => (exists r, answer = Ok r /\ accepted r = true /\ last log' = Some r) /\
      from_records log' = apply_command (from_records log) c
  end.
Proof.
  unfold submit, record_answer. destruct appended as [|e]; [|done]. 
  destruct (validate c) as [|e]; (split; [eexists; split_and!; [done|..]; by rewrite ?last_snoc|]).
  - unfold from_records. by rewrite List.filter_app, fold_left_app.
  - unfold from_records. by rewrite List.filter_app, fold_left_app.
Qed.

(** ** What the model shows besides *)

(** Whose mission a command names is not looked at: aborting one stops every mission that
    reads the log, and none can be started again. *)
Lemma abort_stops_every_mission i log : String.eqb (trim i) "" = false ->
  blocks_new_work (from_records
    (log ++ [record_answer 0 (Abort i); record_answer 1 (StartMission {| id := "m-2"; title := "next"; roadmap := None |});
             record_answer 2 (Resume "m-2")])) = true.
Proof.
  intros E. unfold from_records. rewrite List.filter_app, fold_left_app.
  unfold record_answer at 1. cbn [validate]. unfold require at 1. rewrite E. done.
Qed.
