(* ===== verification/Supervisor.v ===== *)
(** * Supervisor: running a plan task by task
    ([crates/susi-harness/src/supervisor.rs])

    A plan is validated, what an earlier run landed is skipped, and the rest runs in waves: the
    tasks of a wave prepare together, their results land one after the other, and each outcome
    is written to the state file before the next.  The executor and the file system are
    records of functions on an unknown world; [Call] logs what the executor is asked, newest
    first.  A wave's tasks prepare in threads that are joined before anything lands, so their
    results are taken in the wave's order. *)

From S2P Require Import Prelude Money Text Control Workflow.

Local Open Scope string_scope.
Local Open Scope list_scope.
Local Open Scope nat_scope.

(** ** Plans *)

Record PlanTask : Type := {
  key : string;
  title : string;
  accept : string;
  scopes : list string;
  model : option string;
  task : option string;
  deps : list string;
  prompt : string;
}.
#[export] Instance PlanTask_workflow : WorkflowTask PlanTask := { t_key := key; t_deps := deps; t_scopes := scopes }.
Record Plan : Type := { mission : string; tasks : list PlanTask }.

Inductive PlanError : Type :=
| NoMission
| NoTasks
| NoKey
| NoTitle (key : string)
| NoAcceptance (key : string)
| NoPrompt (key : string)
| NoScopes (key : string)
| TaskScope (key : string) (why : ScopeError)
| KeyTwice (key : string)
| Dependencies (why : WorkflowError).

Definition blank_text (s : string) : bool := String.eqb (trim s) "".
(** [plan_wave] and [validate] check each scope in turn. *)
Fixpoint check_scopes (l : list string) : result unit ScopeError :=
  match l with
  | [] => Ok tt
  | s :: l' => result_bind (normalize_scope s) (fun _ => check_scopes l')
  end.
Definition validate_task (keys : gset string) (t : PlanTask) : result unit PlanError :=
  if blank_text (key t) then Err NoKey
  else if blank_text (title t) then Err (NoTitle (key t))
  else if blank_text (accept t) then Err (NoAcceptance (key t))
  else if blank_text (prompt t) then Err (NoPrompt (key t))
  else match scopes t with
  | [] => Err (NoScopes (key t))
  | _ =>
      match check_scopes (scopes t) with
      | Err e => Err (TaskScope (key t) e)
      | Ok _ => if bool_decide (key t ∈ keys) then Err (KeyTwice (key t)) else Ok tt
      end
  end.
Fixpoint validate_tasks (keys : gset string) (l : list PlanTask) : result unit PlanError :=
  match l with
  | [] => Ok tt
  | t :: l' => result_bind (validate_task keys t) (fun _ => validate_tasks ({[key t]} ∪ keys) l')
  end.
Definition Plan_validate (p : Plan) : option (result unit PlanError) :=
  if blank_text (mission p) then Some (Err NoMission)
  else match tasks p with
  | [] => Some (Err NoTasks)
  | _ =>
      match validate_tasks ∅ (tasks p) with
      | Err e => Some (Err e)
      | Ok _ =>
          match validate_dependencies (tasks p) with
          | Some (Err e) => Some (Err (Dependencies e))
          | Some (Ok _) => Some (Ok tt)
          | None => None
          end
      end
  end.

(** ** The embedded orchestrator *)

Record WorkflowNode : Type := { n_key : string; n_deps : list string; n_scopes : list string }.
#[export] Instance WorkflowNode_workflow : WorkflowTask WorkflowNode := { t_key := n_key; t_deps := n_deps; t_scopes := n_scopes }.
Record Orchestrator : Type := { max_parallel : nat; o_completed : gset string; active_claimed_scopes : list string }.
Definition Orchestrator_new (max_parallel : nat) : Orchestrator :=
  {| max_parallel := Nat.max max_parallel 1; o_completed := ∅; active_claimed_scopes := [] |}.

Inductive EmbedError : Type :=
| NoWaveId
| NodeScopes (key : string)
| NodeScope (key : string) (why : ScopeError)
| Schedule (why : WorkflowError).
Fixpoint check_nodes (nodes : list WorkflowNode) : result unit EmbedError :=
  match nodes with
  | [] => Ok tt
  | n :: nodes' =>
      match n_scopes n, check_scopes (n_scopes n) with
      | [], _ => Err (NodeScopes (n_key n))
      | _, Err e => Err (NodeScope (n_key n) e)
      | _, Ok _ => check_nodes nodes'
      end
  end.
Definition plan_wave (o : Orchestrator) (wave_id : string) (nodes : list WorkflowNode) :
    option (result (list (list string) * list string) EmbedError) :=
  if blank_text wave_id then Some (Err NoWaveId)
  else match check_nodes nodes with
  | Err e => Some (Err e)
  | Ok _ =>
      match build nodes (o_completed o) (active_claimed_scopes o) (Nat.max (max_parallel o) 1) with
      | None => None
      | Some (Err e) => Some (Err (Schedule e))
      | Some (Ok (waves, blocked)) => Some (Ok (List.map (List.map n_key) waves, List.map n_key blocked))
      end
  end.

(** ** The state file *)

Inductive TaskStatus : Type :=
| Done (task : string)
| Failed (reason : string).
Record TaskRecord : Type := { status : string; r_task : option string; r_reason : option string }.
Notation State := (gmap string TaskRecord) (only parsing).
Definition stored (s : TaskStatus) : TaskRecord :=
  match s with
  | Done t => {| status := "done"; r_task := Some t; r_reason := None |}
  | Failed e => {| status := "failed"; r_task := None; r_reason := Some e |}
  end.
Definition finished (s : State) (k : string) : bool :=
  match s !! k with Some r => String.eqb (status r) "done" | None => false end.

Inductive Call : Type :=
| Preparing (keys : list string)
| Landing (key : string) (done : bool).

(** ** A run *)

Section Run.
Context {X P : Type}.

Record TaskExecutor : Type := {
  prepare : X -> PlanTask -> X * result P string;
  land : X -> P -> X * result TaskStatus string;
  budget_exhausted : X -> bool;
}.
(** The file system: how a read and a write of the state end, and the control log, if there
    is one. *)
Record Host : Type := {
  load_error : X -> option string;
  save : X -> X * result unit string;
  controls : X -> option (list ControlRecord);
}.
Context (ex : TaskExecutor) (host : Host) (parallel : nat).

(** The locals of [run], the state file, and the log of calls. *)
Record Run : Type := mkRun {
  world : X;
  disk : State;
  state : State;
  tally_done : list string;
  tally_failed : list (string * string);
  completed : gset string;
  failed : gset string;
  unstarted : list string;
  exhausted : bool;
  calls : list Call;
}.
Inductive StopError : Type :=
| Io (why : string)
| Config (why : WorkflowError).

Definition at_world (x : X) (c : list Call) (r : Run) : Run :=
  mkRun x (disk r) (state r) (tally_done r) (tally_failed r) (completed r) (failed r) (unstarted r) (exhausted r) (c ++ calls r).
Definition record (t : PlanTask) (s : TaskStatus) (r : Run) : result Run (StopError * Run) :=
  let st := <[key t := stored s]> (state r) in
  let '(x, written) := save host (world r) in
  match written with
  | Err e => Err (Io e, mkRun x (disk r) st (tally_done r) (tally_failed r) (completed r) (failed r) (unstarted r) (exhausted r) (calls r))
  | Ok _ =>
      match s with
      | Done _ => Ok (mkRun x st st (tally_done r ++ [key t]) (tally_failed r) (completed r) (failed r) (unstarted r) (exhausted r) (calls r))
      | Failed e => Ok (mkRun x st st (tally_done r) (tally_failed r ++ [(key t, e)]) (completed r) (failed r) (unstarted r) (exhausted r) (calls r))
      end
  end.
Definition complete (k : string) (r : Run) : Run :=
  mkRun (world r) (disk r) (state r) (tally_done r) (tally_failed r) ({[k]} ∪ completed r) (failed r) (unstarted r) (exhausted r) (calls r).
Definition fail (k : string) (r : Run) : Run :=
  mkRun (world r) (disk r) (state r) (tally_done r) (tally_failed r) (completed r) ({[k]} ∪ failed r) (unstarted r) (exhausted r) (calls r).
Definition put_off (ks : list string) (r : Run) : Run :=
  mkRun (world r) (disk r) (state r) (tally_done r) (tally_failed r) (completed r) (failed r) (unstarted r ++ ks) (exhausted r) (calls r).
Definition set_exhausted (b : bool) (r : Run) : Run :=
  mkRun (world r) (disk r) (state r) (tally_done r) (tally_failed r) (completed r) (failed r) (unstarted r) b (calls r).

(** [fail_dependents], one round of its loop for each task it can fail. *)
Definition find_blocked (failed : gset string) (remaining : list PlanTask) : option (nat * PlanTask * string) :=
  head (omap (fun p : nat * PlanTask => (fun d => (p.1, p.2, d)) <$> List.find (fun d => bool_decide (d ∈ failed)) (deps p.2))
    (imap pair remaining)).
Fixpoint fail_dependents (fuel : nat) (remaining : list PlanTask) (r : Run) : option (result (list PlanTask * Run) (StopError * Run)) :=
  match fuel with
  | O => None
  | S f =>
      match find_blocked (failed r) remaining with
      | None => Some (Ok (remaining, r))
      | Some (position, t, dep) =>
          match record t (Failed ("dependency " +:+ dep +:+ " did not complete")) r with
          | Err e => Some (Err e)
          | Ok r => fail_dependents f (delete position remaining) (fail (key t) r)
          end
      end
  end.

Fixpoint prepare_all (x : X) (batch : list PlanTask) : X * list (result P string) :=
  match batch with
  | [] => (x, [])
  | t :: batch' => let '(x, p) := prepare ex x t in let '(x, ps) := prepare_all x batch' in (x, p :: ps)
  end.
Definition prepare_batch (batch : list PlanTask) (r : Run) : Run * list (result P string) :=
  let '(x, ps) := prepare_all (world r) batch in (at_world x [Preparing (key <$> batch)] r, ps).

Definition landed (s : TaskStatus) : bool := match s with Done _ => true | Failed _ => false end.
Definition land_one (t : PlanTask) (p : result P string) (r : Run) : Run * TaskStatus :=
  match p with
  | Err e => (r, Failed e)
  | Ok p =>
      let '(x, s) := land ex (world r) p in
      let s := match s with Ok s => s | Err e => Failed e end in
      (at_world x [Landing (key t) (landed s)] r, s)
  end.
Definition settle_one (t : PlanTask) (p : result P string) (r : Run) : result Run (StopError * Run) :=
  let '(r, s) := land_one t p r in
  if exhausted r then
    if landed s then result_bind (record t s r) (fun r => Ok (complete (key t) r)) else Ok (put_off [key t] r)
  else
    let stop := budget_exhausted ex (world r) in
    result_bind (record t s r) (fun r =>
      Ok (set_exhausted stop (if landed s then complete (key t) r else fail (key t) r))).
Fixpoint settle (wave : list PlanTask) (ps : list (result P string)) (r : Run) : result Run (StopError * Run) :=
  match wave, ps with
  | t :: wave', p :: ps' => result_bind (settle_one t p r) (settle wave' ps')
  | _, _ => Ok r
  end.

Record Report : Type := { reported : Run; skipped : list string; was_paused : bool; was_aborted : bool }.

(** The loop: [None] is a loop that is not over. *)
Fixpoint rounds (fuel : nat) (skip : list string) (remaining : list PlanTask) (r : Run) : option (result Report (StopError * Run)) :=
  match fuel with
  | O => None
  | S f =>
      match fail_dependents (S (length remaining)) remaining r with
      | None => None
      | Some (Err e) => Some (Err e)
      | Some (Ok ([], r)) => Some (Ok {| reported := r; skipped := skip; was_paused := false; was_aborted := false |})
      | Some (Ok (remaining, r)) =>
          let stop paused aborted r := Some (Ok {| reported := put_off (key <$> remaining) r; skipped := skip; was_paused := paused; was_aborted := aborted |}) in
          let s := default ControlState_default (from_records <$> controls host (world r)) in
          if blocks_new_work s then stop (paused s) (aborted s) r
          else match next_wave remaining (completed r) [] parallel with
          | Err e => Some (Err (Config e, r))
          | Ok [] => stop false false r
          | Ok wave =>
              let '(r, ps) := prepare_batch wave r in
              let remaining := retain (list_to_set (key <$> wave)) remaining in
              match settle wave ps r with
              | Err e => Some (Err e)
              | Ok r =>
                  if exhausted r then Some (Ok {| reported := put_off (key <$> remaining) r; skipped := skip; was_paused := false; was_aborted := false |})
                  else rounds f skip remaining r
              end
          end
      end
  end.

Definition start (x : X) (d : State) (skip : list string) : Run := mkRun x d d [] [] (list_to_set skip) ∅ [] false [].
Definition run (plan : Plan) (x : X) (d : State) : option (result Report (StopError * Run)) :=
  match validate_dependencies (tasks plan) with
  | None => None
  | Some (Err e) => Some (Err (Config e, start x d []))
  | Some (Ok _) =>
      match load_error host x with
      | Some e => Some (Err (Io e, start x d []))
      | None =>
          let skip := key <$> List.filter (fun t => finished d (key t)) (tasks plan) in
          let remaining := List.filter (fun t => negb (finished d (key t))) (tasks plan) in
          rounds (S (length (tasks plan))) skip remaining (start x d skip)
      end
  end.
End Run.

Arguments TaskExecutor : clear implicits.
Arguments Host : clear implicits.

(** ** Plans that validate *)

Lemma check_scopes_normalize l : (exists ns, normalize_all l = Ok ns) <-> check_scopes l = Ok tt.
Proof.
  induction l as [|s l IH]; cbn [check_scopes normalize_all]; [naive_solver|].
  destruct (normalize_scope s) as [n|]; cbn [result_bind]; [|split; [by intros [? ?]|done]].
  rewrite <- IH. destruct (normalize_all l); cbn [result_bind]; naive_solver.
Qed.

Definition readable (t : PlanTask) : Prop := exists ns, normalize_all (scopes t) = Ok ns.

Lemma validate_task_Ok keys t u : validate_task keys t = Ok u -> readable t /\ key t ∉ keys.
Proof.
  unfold validate_task, readable. repeat (destruct (blank_text _); [done|]).
  destruct (scopes t) as [|s l] eqn:E; [done|]. rewrite check_scopes_normalize.
  destruct (check_scopes (s :: l)) as [[]|] eqn:Es; [|done]. destruct (bool_decide _) eqn:Eb; [done|]. by bool_to_prop.
Qed.

Lemma validate_tasks_Ok keys l u : validate_tasks keys l = Ok u ->
  Forall readable l /\ NoDup (key <$> l) /\ forall t, t ∈ l -> key t ∉ keys.
Proof.
  revert keys. induction l as [|t l IH]; intros keys; cbn [validate_tasks].
  { intros _. split_and!; [constructor|apply NoDup_nil_2|]. intros t H. by apply not_elem_of_nil in H. }
  destruct (validate_task keys t) as [[]|] eqn:Et; [|done]. cbn [result_bind]. intros H.
  destruct (validate_task_Ok _ _ _ Et) as [Hr Hk]. destruct (IH _ H) as (H1 & H2 & H3). split_and!; [by constructor| |].
  - rewrite fmap_cons. apply NoDup_cons. split; [|done]. intros (v & Hv & Hin)%list_elem_of_fmap. apply H3 in Hin. set_solver.
  - intros v [->|Hv]%elem_of_cons; [done|]. apply H3 in Hv. set_solver.
Qed.

(** What a plan that validates promises. *)
Lemma Plan_validate_Ok p : Plan_validate p = Some (Ok tt) ->
  Forall readable (tasks p) /\ NoDup (key <$> tasks p) /\ exists u, validate_dependencies (tasks p) = Some (Ok u).
Proof.
  unfold Plan_validate. destruct (blank_text _); [done|]. destruct (tasks p) as [|t l]; [done|].
  destruct (validate_tasks ∅ (t :: l)) as [u|] eqn:E; [|done]. destruct (validate_tasks_Ok _ _ _ E) as (H1 & H2 & _).
  destruct (validate_dependencies (t :: l)) as [[v|]|]; [|done|done]. intros _. split_and!; [done|done|by exists v].
Qed.

(** ** What the calls of a run keep to *)

Definition landings (c : list Call) : list string := omap (fun c => match c with Landing k _ => Some k | _ => None end) c.
Definition prepared (c : list Call) : list string := concat (omap (fun c => match c with Preparing ks => Some ks | _ => None end) c).

Section Order.
Context (plan : list PlanTask) (d0 : State) (parallel : nat).

Definition skip : list string := key <$> List.filter (fun t => finished d0 (key t)) plan.
Definition pending : list PlanTask := List.filter (fun t => negb (finished d0 (key t))) plan.

(** A call, given those before it: tasks that prepare together could run together, were not
    finished, were not tried before, and depend only on what is finished or has landed; only
    what was prepared lands, once. *)
Definition proper (c : Call) (earlier : list Call) : Prop :=
  match c with
  | Preparing ks => exists wave done, ks = key <$> wave /\ (forall t, t ∈ wave -> t ∈ pending) /\
      (forall k, k ∈ ks -> k ∉ prepared earlier) /\
      admissible done [] parallel wave /\ (forall k, k ∈ done -> k ∈ skip \/ Landing k true ∈ earlier)
  | Landing k _ => k ∈ prepared earlier /\ k ∉ landings earlier
  end.
Fixpoint orderly (c : list Call) : Prop :=
  match c with
  | [] => True
  | c :: earlier => proper c earlier /\ orderly earlier
  end.

(** ** The invariant of the loop *)

Section Loop.
Context {X P : Type} (ex : TaskExecutor X P) (host : Host X).
Context (Hn : NoDup (key <$> plan)).
Notation Run := (@Run X).

(** [todo] is what no outcome is known of. *)
Record inv (todo : list PlanTask) (r : Run) : Prop := {
  i_todo t : t ∈ todo -> t ∈ pending;
  i_account : key <$> pending ≡ₚ (key <$> todo) ++ tally_done r ++ (tally_failed r).*1 ++ unstarted r;
  i_completed k : k ∈ completed r <-> k ∈ skip \/ k ∈ tally_done r;
  i_failed k : k ∈ failed r <-> k ∈ (tally_failed r).*1;
  i_landed k : k ∈ tally_done r -> Landing k true ∈ calls r;
  i_saved : disk r = state r;
  i_done k : finished (state r) k = true <-> finished d0 k = true \/ k ∈ tally_done r;
  i_why k : k ∈ failed r -> k ∈ prepared (calls r) \/ exists t d, t ∈ plan /\ key t = k /\ d ∈ deps t /\ d ∈ failed r;
  i_order : orderly (calls r);
}.
(** None of [todo] was landed. *)
Definition fresh (todo : list PlanTask) (r : Run) : Prop := forall t, t ∈ todo -> key t ∉ landings (calls r).
(** What a run that stops with an error leaves. *)
Definition stopped (r : Run) : Prop :=
  orderly (calls r) /\ forall k, finished d0 k = true \/ k ∈ tally_done r -> finished (disk r) k = true.

Definition halted (e : StopError * Run) : Prop := (exists why, e.1 = Io why) /\ stopped e.2.

Lemma inv_perm todo todo' r : todo ≡ₚ todo' -> inv todo r -> inv todo' r.
Proof. intros Hp [H1 H2 H3 H4 H5 H6 H7 H8 H9]. split; try done; [intros t; rewrite <- Hp; apply H1|by rewrite <- Hp]. Qed.

Lemma inv_NoDup todo r : inv todo r -> NoDup ((key <$> todo) ++ tally_done r ++ (tally_failed r).*1 ++ unstarted r).
Proof. intros H. rewrite <- (i_account _ _ H). by apply NoDup_filter_fmap. Qed.

Lemma inv_stopped todo r : inv todo r -> stopped r.
Proof. intros H. split; [by apply (i_order todo)|]. intros k Hk. rewrite (i_saved _ _ H). by apply (i_done _ _ H). Qed.

Lemma finished_insert s k t k' : finished (<[k := stored t]> s) k' = if decide (k' = k) then landed t else finished s k'.
Proof.
  unfold finished. destruct (decide (k' = k)) as [->|Hne]; [rewrite lookup_insert_eq; by destruct t|by rewrite lookup_insert_ne].
Qed.

(** An outcome is recorded. *)
Lemma record_inv t todo s r : inv (t :: todo) r -> (landed s = true -> Landing (key t) true ∈ calls r) ->
  (landed s = false -> key t ∈ prepared (calls r) \/ exists d, d ∈ deps t /\ d ∈ failed r) ->
  match record host t s r with
  | Err e => halted e
  | Ok r' => calls r' = calls r /\ exhausted r' = exhausted r /\ unstarted r' = unstarted r /\
      inv todo (if landed s then complete (key t) r' else fail (key t) r')
  end.
Proof.
  intros Hi Hl Hw. pose proof (inv_NoDup _ _ Hi) as Hnd. destruct Hi as [H1 H2 H3 H4 H5 H6 H7 H8 H9]. rewrite fmap_cons in *.
  assert (Hnot : key t ∉ tally_done r) by (apply NoDup_cons in Hnd as [Hnd _]; rewrite !not_elem_of_app in Hnd; tauto).
  assert (Htp : t ∈ pending) by (apply H1; left).
  assert (finished d0 (key t) = false) as Hf by (apply list_elem_of_In, filter_In in Htp as [_ Htp]; by apply negb_true_iff).
  unfold record. destruct (save host (world r)) as [x [[]|e]].
  - assert (Htodo : forall u, u ∈ todo -> u ∈ pending) by (intros u Hu; apply H1; by right).
    destruct s as [id|e]; cbn [landed] in *; (split_and!; [done|done|done|]); split; cbn; try done.
    + rewrite H2. solve_Permutation.
    + intros k. rewrite elem_of_union, elem_of_singleton, elem_of_app, list_elem_of_singleton, H3. tauto.
    + intros k [Hk|Hk%list_elem_of_singleton]%elem_of_app; [by apply H5|subst k; by apply Hl].
    + intros k. rewrite (finished_insert _ _ (Done id)), elem_of_app, list_elem_of_singleton.
      destruct (decide (k = key t)) as [->|Hne]; [cbn; tauto|]. rewrite H7. tauto.
    + rewrite H2, fmap_app. solve_Permutation.
    + intros k. rewrite elem_of_union, elem_of_singleton, fmap_app, elem_of_app, H4. cbn. rewrite list_elem_of_singleton. tauto.
    + intros k. rewrite (finished_insert _ _ (Failed e)). destruct (decide (k = key t)) as [->|Hne]; [|apply H7]. cbn. rewrite Hf. naive_solver.
    + intros k [->%elem_of_singleton|Hk]%elem_of_union.
      * destruct (Hw eq_refl) as [?|(d & Hd & Hdf)]; [by left|right]. exists t, d. split_and!; try done; [|set_solver].
        by apply list_elem_of_In, filter_In, proj1, list_elem_of_In in Htp.
      * destruct (H8 k Hk) as [?|(u & d & ? & ? & ? & ?)]; [by left|right]. exists u, d. split_and!; try done. set_solver.
  - split; [by exists e|]. split; [done|]. cbn. intros k Hk. rewrite H6. by apply H7.
Qed.

(** *** Tasks whose dependency failed *)

Lemma find_blocked_Some f remaining i t d : find_blocked f remaining = Some (i, t, d) ->
  remaining !! i = Some t /\ d ∈ deps t /\ d ∈ f.
Proof.
  unfold find_blocked. intros H%head_Some_elem_of%list_elem_of_omap. destruct H as ((j & u) & Hu & He). cbn in He.
  apply fmap_Some in He as (e & He & [= -> -> ->]). apply find_some in He as [Hd Hf]. bool_to_prop.
  apply list_elem_of_lookup in Hu as [n Hu]. rewrite list_lookup_imap in Hu. apply fmap_Some in Hu as (v & Hv & [= -> ->]).
  split_and!; [done|by apply list_elem_of_In|done].
Qed.

Lemma find_blocked_None f remaining : find_blocked f remaining = None -> forall t d, t ∈ remaining -> d ∈ deps t -> d ∉ f.
Proof.
  unfold find_blocked. intros H t d [i Ht]%list_elem_of_lookup Hd Hf.
  destruct (List.find (fun d => bool_decide (d ∈ f)) (deps t)) as [e|] eqn:E.
  - assert ((i, t, e) ∈ (omap (fun p : nat * PlanTask => (fun d => (p.1, p.2, d)) <$> List.find (fun d => bool_decide (d ∈ f)) (deps p.2)) (imap pair remaining))) as Hin.
    { apply list_elem_of_omap. exists (i, t). split; [|cbn; by rewrite E]. apply list_elem_of_lookup. exists i. by rewrite list_lookup_imap, Ht. }
    destruct (omap _ _); [by apply not_elem_of_nil in Hin|done].
  - pose proof (find_none _ _ E d (proj1 (list_elem_of_In _ _) Hd)) as Hx. cbn in Hx. by bool_to_prop.
Qed.

Lemma fail_dependents_inv fuel remaining r : length remaining < fuel -> inv remaining r ->
  match fail_dependents host fuel remaining r with
  | None => False
  | Some (Err e) => halted e
  | Some (Ok (remaining', r')) => inv remaining' r' /\ sublist remaining' remaining /\ calls r' = calls r /\ exhausted r' = exhausted r /\
      unstarted r' = unstarted r /\ forall t d, t ∈ remaining' -> d ∈ deps t -> d ∉ failed r'
  end.
Proof.
  revert remaining r. induction fuel as [|f IH]; intros remaining r Hf Hi; [lia|]. cbn [fail_dependents].
  destruct (find_blocked (failed r) remaining) as [[[i t] d]|] eqn:E; [|split_and!; try done; by apply find_blocked_None].
  destruct (find_blocked_Some _ _ _ _ _ E) as (Ht & Hd & Hdf).
  pose proof (inv_perm _ _ _ (delete_Permutation _ _ _ Ht) Hi) as Hi'.
  pose proof (record_inv t _ (Failed ("dependency " +:+ d +:+ " did not complete")) r Hi' ltac:(done) ltac:(right; by exists d)) as Hr.
  destruct (record host t _ r) as [r'|[e r']]; [|done]. destruct Hr as (H1 & H2 & H3 & Hi2). cbn [landed] in Hi2.
  assert (length (delete i remaining) < f) as Hlen by (rewrite length_delete by (by eexists); apply lookup_lt_Some in Ht; lia).
  specialize (IH _ _ Hlen Hi2). destruct (fail_dependents host f _ _) as [[[rem r2]|[e r2]]|]; try done.
  destruct IH as (J1 & J2 & J3 & J4 & J5 & J6). cbn in J3, J4, J5. split_and!; try done; try congruence.
  etrans; [done|apply sublist_delete].
Qed.

(** *** The tasks of a wave *)

Lemma settle_one_inv t p todo r : inv (t :: todo) r -> fresh (t :: todo) r -> key t ∈ prepared (calls r) -> NoDup (key <$> t :: todo) ->
  match settle_one ex host t p r with
  | Err e => halted e
  | Ok r' => inv todo r' /\ fresh todo r' /\ prepared (calls r') = prepared (calls r) /\
      (exhausted r' = false -> exhausted r = false /\ unstarted r' = unstarted r)
  end.
Proof.
  intros Hi Hfr Hp Hnd. unfold settle_one.
  assert (H : let '(r1, s) := land_one ex t p r in inv (t :: todo) r1 /\ fresh todo r1 /\ prepared (calls r1) = prepared (calls r) /\
    exhausted r1 = exhausted r /\ unstarted r1 = unstarted r /\ (landed s = true -> Landing (key t) true ∈ calls r1)).
  { unfold land_one. destruct p as [p|e]; [|split_and!; try done; intros u Hu; apply Hfr; by right].
    destruct (land ex (world r) p) as [x s]. set (st := match s with Ok s => s | Err e => Failed e end).
    destruct Hi as [H1 H2 H3 H4 H5 H6 H7 H8 H9]. split_and!; try done.
    - split; cbn; try done; [intros k Hk; right; by apply H5|split; [|done]]. split; [done|]. apply Hfr. left.
    - intros u Hu. cbn. rewrite not_elem_of_cons. split; [|apply Hfr; by right]. intros Hk. rewrite fmap_cons, NoDup_cons in Hnd.
      destruct Hnd as [Hnd _]. apply Hnd. rewrite <- Hk. by apply list_elem_of_fmap_2.
    - cbn. intros ->. left. }
  destruct (land_one ex t p r) as [r1 s]. destruct H as (Hi1 & Hf1 & Hp1 & He1 & Hu1 & Hl1).
  pose proof (record_inv t todo s r1 Hi1 Hl1 ltac:(intros _; left; by rewrite Hp1)) as Hr.
  destruct (exhausted r1) eqn:Ex; [destruct (landed s) eqn:Es|].
  - destruct (record host t s r1) as [r2|[e r2]]; [|done]. cbn [result_bind]. destruct Hr as (J1 & J2 & J3 & J4).
    split_and!; [done| |cbn; by rewrite J1|cbn; congruence]. unfold fresh. cbn. by rewrite J1.
  - destruct Hi1 as [H1 H2 H3 H4 H5 H6 H7 H8 H9]. split_and!; [|done|done|cbn; congruence]. split; cbn; try done.
    + intros u Hu. apply H1. by right.
    + rewrite H2, fmap_cons. solve_Permutation.
  - destruct (record host t s r1) as [r2|[e r2]]; [|done]. cbn [result_bind]. destruct Hr as (J1 & J2 & J3 & J4).
    split_and!; [by destruct (landed s), J4; split| | |intros _; split; [congruence|]];
      unfold fresh; destruct (landed s); cbn; rewrite ?J1, ?J3; done.
Qed.

Lemma settle_inv wave ps rest r : inv (wave ++ rest) r -> fresh (wave ++ rest) r -> (forall t, t ∈ wave -> key t ∈ prepared (calls r)) ->
  length ps = length wave ->
  match settle ex host wave ps r with
  | Err e => halted e
  | Ok r' => inv rest r' /\ prepared (calls r') = prepared (calls r) /\ fresh rest r' /\
      (exhausted r' = false -> exhausted r = false /\ unstarted r' = unstarted r)
  end.
Proof.
  revert ps r. induction wave as [|t wave IH]; intros ps r Hi Hf Hp Hl; [by destruct ps|]. destruct ps as [|p ps]; [done|]. cbn [settle].
  assert (NoDup (key <$> (t :: wave ++ rest))) as Hnd by (by apply inv_NoDup, NoDup_app in Hi as [? _]).
  pose proof (settle_one_inv t p (wave ++ rest) r Hi Hf (Hp t ltac:(left)) Hnd) as H1.
  destruct (settle_one ex host t p r) as [r1|[e r1]]; [|done]. cbn [result_bind]. destruct H1 as (Hi1 & Hf1 & Hp1 & He1).
  specialize (IH ps r1 Hi1 Hf1). destruct (settle ex host wave ps r1) as [r2|[e r2]].
  - destruct IH as (J1 & J2 & J3 & J4); [intros u Hu; rewrite Hp1; apply Hp; by right|by injection Hl|]. split_and!; [done|congruence|done|].
    intros Hx. destruct (J4 Hx) as [J5 J6]. destruct (He1 J5). split; congruence.
  - apply IH; [intros u Hu; rewrite Hp1; apply Hp; by right|by injection Hl].
Qed.

(** *** The loop *)

Context (Hv : exists u, validate_dependencies plan = Some (Ok u)).

(** Something can always start: a set of tasks to do each of which waits for another of them is
    empty. *)
Lemma something_is_ready (waiting : PlanTask -> Prop) :
  (forall t, waiting t -> t ∈ plan /\ exists d, d ∈ deps t /\ forall u, u ∈ plan -> key u = d -> waiting u) -> forall t, ~ waiting t.
Proof.
  intros Hw. pose proof (validate_order plan) as Ho. destruct Hv as [u Hu]. rewrite Hu in Ho. destruct Ho as (Hk & L & Ht & Hin).
  assert (Hind : forall i t, i ∈ L -> plan !! i = Some t -> ~ waiting t).
  { clear Hin. induction Ht as [|x L Hx He _ IH]; intros i t Hi Hti Hwt; [by apply not_elem_of_nil in Hi|].
    apply elem_of_cons in Hi as [->|Hi]; [|by apply (IH i t)]. destruct (Hw t Hwt) as (Htp & d & Hd & Hall).
    destruct (Hk t d Htp Hd) as [j Hj]. destruct (index_Some _ _ _ Hj) as (v & Hvj & Hkv).
    apply (IH j v); [|done|apply Hall; [by apply (list_elem_of_lookup_2 _ j)|done]].
    apply He. exists d. split; [|done]. unfold deps_at. by rewrite Hti. }
  intros t Hwt. destruct (Hw t Hwt) as (Htp & _). apply list_elem_of_lookup in Htp as [i Hi]. apply (Hind i t); [|done|done].
  apply Hin. by apply lookup_lt_Some in Hi.
Qed.

Lemma elem_of_pending t : t ∈ pending <-> t ∈ plan /\ finished d0 (key t) = false.
Proof. unfold pending. by rewrite list_elem_of_In, filter_In, negb_true_iff, <- list_elem_of_In. Qed.
Lemma elem_of_skip t : t ∈ plan -> finished d0 (key t) = true -> key t ∈ skip.
Proof. intros Ht Hf. apply list_elem_of_fmap. exists t. split; [done|]. by rewrite list_elem_of_In, filter_In, <- list_elem_of_In. Qed.

(** The comment in the loop: an empty wave is not reached while tasks remain. *)
Lemma wave_is_not_empty remaining r : inv remaining r -> unstarted r = [] -> remaining <> [] ->
  (forall t d, t ∈ remaining -> d ∈ deps t -> d ∉ failed r) -> next_wave remaining (completed r) [] parallel <> Ok [].
Proof.
  intros Hi Hu Hne Hfail Hw. destruct (next_wave_spec _ _ _ _ _ Hw) as (_ & _ & Hempty).
  assert (Hnot : forall t, ~ t ∈ remaining); [|destruct remaining as [|t l]; [done|]; by apply (Hnot t); left].
  apply something_is_ready. intros t Ht. destruct (proj1 (elem_of_pending t) (i_todo _ _ Hi t Ht)) as [Htp _]. split; [done|].
  destruct (decide (Forall (.∈ completed r) (deps t))) as [Hr|Hr].
  - destruct (Hempty eq_refl t Ht) as (ns & cs & _ & [= <-] & Hd).
    + intros d Hd. rewrite Forall_forall in Hr. by apply (Hr d).
    + apply not_true_iff_false in Hd. destruct Hd. apply disjoint_spec. intros x y _ Hy. by apply not_elem_of_nil in Hy.
  - apply not_Forall_Exists in Hr; [|apply _]. apply Exists_exists in Hr as (d & Hd & Hnc). cbn in Hnc. exists d. split; [done|].
    intros u Hup <-. rewrite (i_completed _ _ Hi) in Hnc. assert (u ∈ pending) as Hpu.
    { apply elem_of_pending. split; [done|]. destruct (finished d0 (key u)) eqn:E; [|done]. destruct Hnc. left. by apply elem_of_skip. }
    pose proof (list_elem_of_fmap_2 key _ _ Hpu) as Hk. rewrite (i_account _ _ Hi), Hu, app_nil_r, !elem_of_app in Hk.
    destruct Hk as [(v & Hvk & Hvr)%list_elem_of_fmap|[Hk|Hk]]; [|tauto|destruct (Hfail t (key u) Ht Hd); by apply (i_failed _ _ Hi)].
    assert (v = u) as ->; [|done]. apply (keys_inj plan); try done. by apply elem_of_pending, (i_todo _ _ Hi).
Qed.

(** How a run ends. *)
Record ended (rep : @Report X) : Prop := {
  e_inv : inv [] (reported rep);
  e_skip : skipped rep = skip;
  e_idle : unstarted (reported rep) <> [] -> was_paused rep = true \/ was_aborted rep = true \/ exhausted (reported rep) = true;
}.
Definition prepared_none (remaining : list PlanTask) (r : Run) : Prop := forall t, t ∈ remaining -> key t ∉ prepared (calls r).

Lemma put_off_inv todo r : inv todo r -> inv [] (put_off (key <$> todo) r).
Proof.
  intros [H1 H2 H3 H4 H5 H6 H7 H8 H9]. split; cbn; try done; [intros t H; by apply not_elem_of_nil in H|].
  rewrite H2. solve_Permutation.
Qed.

Lemma length_prepare_all x batch : length (prepare_all ex x batch).2 = length batch.
Proof.
  revert x. induction batch as [|t batch IH]; intros x; [done|]. cbn [prepare_all]. destruct (prepare ex x t) as [y p].
  specialize (IH y). destruct (prepare_all ex y batch). cbn in *. by rewrite IH.
Qed.

Lemma landings_prepared c k : orderly c -> k ∈ landings c -> k ∈ prepared c.
Proof.
  induction c as [|c e IH]; [done|]. intros [Hc He] Hk. destruct c as [ks|k' b]; cbn in *.
  - unfold prepared. cbn. apply elem_of_app. right. by apply IH.
  - apply elem_of_cons in Hk as [->|Hk]; [tauto|by apply IH].
Qed.

Lemma prepared_pending c k : orderly c -> k ∈ prepared c -> exists t, t ∈ pending /\ key t = k.
Proof.
  induction c as [|c e IH]; [intros _ H; by apply not_elem_of_nil in H|]. intros [Hc He] Hk. destruct c as [ks|k' b]; [|by apply IH].
  destruct Hc as (wave & done & -> & Hw & _). unfold prepared in Hk. cbn in Hk. apply elem_of_app in Hk as [Hk|Hk]; [|by apply IH].
  apply list_elem_of_fmap in Hk as (t & -> & Ht). exists t. split; [by apply Hw|done].
Qed.

Lemma prepare_batch_inv remaining wave r : inv remaining r -> prepared_none remaining r ->
  next_wave remaining (completed r) [] parallel = Ok wave ->
  let '(r', ps) := prepare_batch ex wave r in let rest := retain (list_to_set (key <$> wave)) remaining in
  inv (wave ++ rest) r' /\ fresh (wave ++ rest) r' /\ (forall t, t ∈ wave -> key t ∈ prepared (calls r')) /\ length ps = length wave /\
  prepared_none rest r' /\ exhausted r' = exhausted r /\ unstarted r' = unstarted r.
Proof.
  intros Hi Hpn Hw. destruct (next_wave_spec _ _ _ _ _ Hw) as (Hsub & Hadm & _). unfold prepare_batch.
  pose proof (length_prepare_all (world r) wave) as Hlen. destruct (prepare_all ex (world r) wave) as [x ps]. cbn in Hlen.
  assert (NoDup (t_key <$> remaining)) as Hnr by (by apply inv_NoDup, NoDup_app in Hi as [? _]).
  pose proof (retain_partition wave remaining Hnr Hsub) as Hp. unfold keys_of in Hp. set (rest := retain _ remaining) in *.
  pose proof (inv_perm _ _ _ Hp Hi) as Hi2.
  assert (Hin : forall t, t ∈ wave ++ rest -> t ∈ remaining) by (intros t; by rewrite Hp).
  assert (Hfr : fresh (wave ++ rest) r) by (intros t Ht Hk; apply (Hpn t); [by apply Hin|apply landings_prepared; [by apply (i_order _ _ Hi)|done]]).
  destruct Hi2 as [H1 H2 H3 H4 H5 H6 H7 H8 H9]. split_and!; try done.
  - split; cbn; try done.
    + intros k Hk. right. by apply H5.
    + intros k Hk. destruct (H8 k Hk) as [?|?]; [left|by right]. unfold prepared. cbn. apply elem_of_app. by right.
    + split; [|done]. exists wave, (completed r). split_and!; try done.
      * intros t Ht. apply H1, elem_of_app. by left.
      * intros k (t & -> & Ht)%list_elem_of_fmap. by apply Hpn, (elem_of_sublist wave).
      * intros k [?|Hk]%H3; [by left|right; by apply H5].
  - intros t Ht. unfold prepared. cbn. apply elem_of_app. left. by apply list_elem_of_fmap_2.
  - intros t Ht. unfold prepared. cbn. rewrite elem_of_app. intros [Hk|Hk].
    + apply elem_of_retain in Ht as [Ht _]. apply Ht. by apply elem_of_list_to_set.
    + apply (Hpn t); [apply Hin, elem_of_app; by right|done].
Qed.

Lemma rounds_inv fuel remaining r : length remaining < fuel -> inv remaining r -> prepared_none remaining r ->
  exhausted r = false -> unstarted r = [] ->
  match rounds ex host parallel fuel skip remaining r with
  | None => False
  | Some (Ok rep) => ended rep
  | Some (Err (e, r')) => stopped r' /\ ((exists why, e = Io why) \/ exists t, t ∈ plan /\ ~ readable t)
  end.
Proof.
  revert remaining r. induction fuel as [|f IH]; intros remaining r Hf Hi Hpn Hx Hu; [lia|]. cbn [rounds].
  pose proof (fail_dependents_inv (S (length remaining)) remaining r ltac:(lia) Hi) as Hd.
  destruct (fail_dependents host (S (length remaining)) remaining r) as [[[rem r1]|[e r1]]|]; [|by destruct Hd; split; [|left]|done].
  destruct Hd as (Hi1 & Hsub & Hc & Hx1 & Hu1 & Hfail). assert (prepared_none rem r1) as Hpn1.
  { intros t Ht. rewrite Hc. by apply Hpn, (elem_of_sublist rem). }
  destruct rem as [|t rem]; [split; cbn; [done|done|by rewrite Hu1, Hu]|]. set (l := t :: rem) in *.
  destruct (blocks_new_work _) eqn:Eb.
  { split; [exact (put_off_inv l _ Hi1)|done|]. intros _. cbn. unfold blocks_new_work in Eb. apply orb_true_iff in Eb. tauto. }
  destruct (next_wave l (completed r1) [] parallel) as [[|w wave]|e] eqn:Ew.
  - destruct (wave_is_not_empty l r1 Hi1 ltac:(congruence) ltac:(done) Hfail Ew).
  - pose proof (prepare_batch_inv l (w :: wave) r1 Hi1 Hpn1 Ew) as Hb.
    destruct (prepare_batch ex (w :: wave) r1) as [r2 ps]. destruct Hb as (Hi2 & Hf2 & Hp2 & Hl2 & Hpn2 & Hx2 & Hu2).
    set (rest := retain _ l) in *. pose proof (settle_inv (w :: wave) ps rest r2 Hi2 Hf2 Hp2 Hl2) as Hs.
    destruct (settle ex host (w :: wave) ps r2) as [r3|[e r3]]; [|by destruct Hs; split; [|left]].
    destruct Hs as (Hi3 & Hp3 & _ & Hx3). destruct (exhausted r3) eqn:Ex.
    { split; [exact (put_off_inv rest _ Hi3)|done|cbn; tauto]. }
    destruct (Hx3 eq_refl) as [_ Hu3]. apply IH; try done; [|intros u Hur; rewrite Hp3; by apply Hpn2|congruence].
    apply sublist_length in Hsub. destruct (next_wave_spec _ _ _ _ _ Ew) as (Hw & _).
    assert (NoDup (t_key <$> l)) as Hnr by (by apply inv_NoDup, NoDup_app in Hi1 as [? _]).
    pose proof (Permutation_length (retain_partition _ _ Hnr Hw)) as Hlen. rewrite length_app in Hlen. unfold keys_of in Hlen.
    change (length l = S (length wave) + length rest) in Hlen. lia.
  - split; [by apply inv_stopped in Hi1|right]. destruct (fill_wave_Err _ _ _ _ _ _ Ew) as (u & why & Hul & Hbad & _).
    exists u. split; [by apply elem_of_pending, (i_todo _ _ Hi1)|]. intros [ns Hns]. cbn in Hbad. congruence.
Qed.
End Loop.
End Order.

(** ** What a run promises *)

Section Promises.
Context {X P : Type} (ex : TaskExecutor X P) (host : Host X) (parallel : nat).
Implicit Types (plan : Plan) (d : State).

Lemma filter_split {A} (f : A -> bool) l : l ≡ₚ List.filter f l ++ List.filter (fun x => negb (f x)) l.
Proof.
  induction l as [|x l IH]; [done|]. cbn [List.filter]. destruct (f x); cbn [negb app]; [by rewrite <- IH|].
  by rewrite <- Permutation_middle, <- IH.
Qed.

(** However a run comes out. *)
Definition final (o : result (@Report X) (StopError * @Run X)) : @Run X :=
  match o with Ok rep => reported rep | Err e => e.2 end.

Lemma start_inv plan d (x : X) : inv (tasks plan) d parallel (pending (tasks plan) d) (start x d (skip (tasks plan) d)).
Proof.
  split; cbn; try done; try set_solver. by rewrite app_nil_r.
Qed.

Lemma run_inv plan x d : NoDup (key <$> tasks plan) ->
  match run ex host parallel plan x d with
  | None => False
  | Some (Ok rep) => ended (tasks plan) d parallel rep
  | Some (Err e) => stopped (tasks plan) d parallel e.2 /\
      ((exists why, e.1 = Io why) \/ (exists u, validate_dependencies (tasks plan) = Some (Err u)) \/ exists t, t ∈ tasks plan /\ ~ readable t)
  end.
Proof.
  intros Hn. unfold run. pose proof (validate_order (tasks plan)) as Ho.
  destruct (validate_dependencies (tasks plan)) as [[u|e]|] eqn:Ev; [clear Ho| |done].
  - destruct (load_error host x) as [why|]; [split; [|left; by exists why]|].
    { split; [done|]. cbn. intros k [Hk|Hk]; [done|by apply not_elem_of_nil in Hk]. }
    fold (skip (tasks plan) d) (pending (tasks plan) d). pose proof (start_inv plan d x) as Hi.
    assert (length (pending (tasks plan) d) < S (length (tasks plan))) as Hlen by (pose proof (filter_length_le (fun t => negb (finished d (key t))) (tasks plan)); unfold pending; lia).
    pose proof (rounds_inv (tasks plan) d parallel ex host Hn (ex_intro _ u Ev) _ _ _ Hlen Hi) as Hr.
    destruct (rounds ex host parallel _ _ _ _) as [[rep|[e r]]|].
    + apply Hr; try done. intros t _ Ht. by apply not_elem_of_nil in Ht.
    + destruct Hr as [H1 H2]; try done; [intros t _ Ht; by apply not_elem_of_nil in Ht|]. split; [done|]. tauto.
    + destruct Hr; try done. intros t _ Ht. by apply not_elem_of_nil in Ht.
  - split; [|right; left; by exists e]. split; [done|]. cbn. intros k [Hk|Hk]; [done|by apply not_elem_of_nil in Hk].
Qed.

(** C22. Whatever the executor and the file system do, and however the run comes out: tasks that
    prepare at the same time share no path and are no more than the limit; no task is prepared
    twice, nor one that an earlier run finished; none is prepared before all it depends on has
    landed, in this run or an earlier one; and only what was prepared lands, once. *)
Theorem dependencies_land_first plan x d o : NoDup (key <$> tasks plan) -> run ex host parallel plan x d = Some o ->
  orderly (tasks plan) d parallel (calls (final o)).
Proof.
  intros Hn Hr. pose proof (run_inv plan x d Hn) as H. rewrite Hr in H.
  destruct o as [rep|e]; [apply (i_order _ _ _ _ _ (e_inv _ _ _ _ H))|apply H].
Qed.

(** C26. The run of a plan that validates always ends: unless the state cannot be read or written
    it reports each task exactly once, as skipped, done, failed or not started; one is not
    started only when the operator or the budget stopped the run; one fails only when it was
    tried or waits for one that failed. *)
Theorem every_task_is_reported plan x d : Plan_validate plan = Some (Ok tt) ->
  exists o, run ex host parallel plan x d = Some o /\
  match o with
  | Err (e, _) => exists why, e = Io why
  | Ok rep => let r := reported rep in
      key <$> tasks plan ≡ₚ skipped rep ++ tally_done r ++ (tally_failed r).*1 ++ unstarted r /\
      (unstarted r <> [] -> was_paused rep = true \/ was_aborted rep = true \/ exhausted r = true) /\
      forall k, k ∈ (tally_failed r).*1 -> k ∈ prepared (calls r) \/
        exists t dep, t ∈ tasks plan /\ key t = k /\ dep ∈ deps t /\ dep ∈ (tally_failed r).*1
  end.
Proof.
  intros Hp. destruct (Plan_validate_Ok plan Hp) as (Hs & Hn & u & Hu). pose proof (run_inv plan x d Hn) as H.
  destruct (run ex host parallel plan x d) as [[rep|[e r]]|]; [|eexists; split; [done|]|done].
  - eexists. split; [done|]. destruct H as [Hi Hk Hidle]. cbn zeta. split_and!; [|done|].
    + rewrite Hk. pose proof (i_account _ _ _ _ _ Hi) as Ha. cbn [fmap list_fmap app] in Ha. rewrite <- Ha.
      unfold skip, pending. rewrite <- fmap_app. apply fmap_Permutation. apply filter_split.
    + intros k Hf. rewrite <- (i_failed _ _ _ _ _ Hi) in Hf. setoid_rewrite <- (i_failed _ _ _ _ _ Hi). by apply (i_why _ _ _ _ _ Hi).
  - destruct H as (_ & [?|[(v & Hv)|(t & Ht & Hno)]]); [done|congruence|]. destruct Hno. rewrite Forall_forall in Hs. by apply Hs.
Qed.

(** What is finished stays finished on disk, whatever happens; a run that ends has written
    every outcome, and what it finished is what it skipped and what it reports done, so the
    next run of any plan on that file does not prepare those tasks again. *)
Theorem finished_work_is_kept plan x d o : NoDup (key <$> tasks plan) -> run ex host parallel plan x d = Some o ->
  (forall k, finished d k = true \/ k ∈ tally_done (final o) -> finished (disk (final o)) k = true) /\
  match o with
  | Err _ => True
  | Ok rep => forall k, finished (disk (reported rep)) k = true <-> finished d k = true \/ k ∈ tally_done (reported rep)
  end /\
  forall plan' x' o', NoDup (key <$> tasks plan') -> run ex host parallel plan' x' (disk (final o)) = Some o' ->
    forall k, finished d k = true \/ k ∈ tally_done (final o) -> k ∉ prepared (calls (final o')).
Proof.
  intros Hn Hr. pose proof (run_inv plan x d Hn) as H. rewrite Hr in H.
  assert (Hkept : forall k, finished d k = true \/ k ∈ tally_done (final o) -> finished (disk (final o)) k = true).
  { destruct o as [rep|e]; [|by apply H]. cbn [final]. intros k Hk. rewrite (i_saved _ _ _ _ _ (e_inv _ _ _ _ H)). by apply (i_done _ _ _ _ _ (e_inv _ _ _ _ H)). }
  split_and!; [done| |].
  - destruct o as [rep|e]; [|done]. intros k. rewrite (i_saved _ _ _ _ _ (e_inv _ _ _ _ H)). apply (i_done _ _ _ _ _ (e_inv _ _ _ _ H)).
  - intros plan' x' o' Hn' Hr' k Hk Hp. apply Hkept in Hk. pose proof (run_inv plan' x' (disk (final o)) Hn') as H'. rewrite Hr' in H'.
    assert (orderly (tasks plan') (disk (final o)) parallel (calls (final o'))) as Ho.
    { destruct o' as [rep|e]; [apply (i_order _ _ _ _ _ (e_inv _ _ _ _ H'))|apply H']. }
    apply (prepared_pending _ _ _ _ k Ho) in Hp as (t & Ht & <-). apply elem_of_pending in Ht as [_ Ht]. congruence.
Qed.
End Promises.

(** ** The embedded orchestrator *)

Lemma check_nodes_Ok nodes u : check_nodes nodes = Ok u -> Forall (fun n => exists ns, normalize_all (n_scopes n) = Ok ns) nodes.
Proof.
  induction nodes as [|n nodes IH]; cbn [check_nodes]; [done|]. destruct (n_scopes n) as [|s l] eqn:E; [done|].
  destruct (check_scopes (s :: l)) as [[]|] eqn:Ec; [|done]. intros H. constructor; [|by apply IH]. rewrite E. by apply check_scopes_normalize.
Qed.

(** A new orchestrator, which knows of no claim and nothing finished, puts every node of a
    wave plan in one wave, and none is blocked, unless the plan is refused. *)
Theorem new_orchestrator_schedules_all limit wave_id nodes : NoDup (n_key <$> nodes) ->
  exists r, plan_wave (Orchestrator_new limit) wave_id nodes = Some r /\
  match r with
  | Ok (waves, blocked) => concat waves ≡ₚ n_key <$> nodes /\ blocked = [] /\ Forall (fun w => w <> [] /\ length w <= Nat.max limit 1) waves
  | Err _ => True
  end.
Proof.
  intros Hn. unfold plan_wave. destruct (blank_text wave_id); [by eexists|]. destruct (check_nodes nodes) as [u|e]; [|by eexists].
  cbn [o_completed active_claimed_scopes max_parallel Orchestrator_new].
  destruct (build_partition (W := WorkflowNode_workflow) nodes ∅ [] (Nat.max (Nat.max limit 1) 1) Hn) as (r & Hr & Hb). rewrite Hr.
  destruct r as [[waves blocked]|e]; [|by eexists]. eexists. split; [done|]. destruct Hb as (H1 & H2 & H3).
  destruct blocked as [|b blocked]; [|destruct (nothing_is_held_without_claims nodes ∅ b); apply H3; left]. split_and!; [|done|].
  - rewrite retain_nothing, app_nil_r in H1. rewrite <- concat_map. by apply Permutation_map.
  - clear Hr H1 H3. revert H2. generalize (∅ : gset string). induction waves as [|w waves IH]; intros done; [constructor|]. intros (Hne & Hadm & Hok).
    constructor; [|by apply (IH _ Hok)]. split; [by destruct w|]. rewrite length_map. pose proof (wave_limit _ _ _ _ Hadm). lia.
Qed.

(** ** Witnesses *)

Definition task_named (k : string) (ds : list string) (s : string) : PlanTask :=
  {| key := k; title := k; accept := "true"; scopes := [s]; model := None; task := None; deps := ds; prompt := "do" |}.
Definition mission_plan : Plan := {| mission := "m"; tasks := [
  task_named "a" [] "src/a"; task_named "b" ["a"] "src/b"; task_named "c" ["b"] "src/c"; task_named "d" [] "docs"; task_named "e" [] "old"] |}.
(** An executor that fails [b], over a file system that never fails; [e] was finished before. *)
Definition toy_executor : TaskExecutor nat string := {|
  prepare x t := (S x, if String.eqb (key t) "b" then Err "no model passes" else Ok (key t));
  land x k := (S x, Ok (Done k));
  budget_exhausted _ := false |}.
Definition toy_host : Host nat := {| load_error _ := None; save x := (S x, Ok tt); controls _ := None |}.
Definition earlier : gmap string TaskRecord := {["e" := {| status := "done"; r_task := Some "e"; r_reason := None |}]}.
Definition toy_run (d : gmap string TaskRecord) := run toy_executor toy_host 2 mission_plan 0 d.
Definition toy_final (d : gmap string TaskRecord) := final <$> toy_run d.

Definition toy_left : gmap string TaskRecord := from_option (fun o => disk (final o)) ∅ (toy_run earlier).

Lemma mission_plan_keys : NoDup (key <$> tasks mission_plan).
Proof. cbn. repeat (apply NoDup_cons; split; [set_solver|]). apply NoDup_nil_2. Qed.

Example dependencies_land_first_witness : exists o, toy_run earlier = Some o /\
  reverse (calls (final o)) = [Preparing ["a"; "d"]; Landing "a" true; Landing "d" true; Preparing ["b"]] /\
  orderly (tasks mission_plan) earlier 2 (calls (final o)).
Proof.
  destruct (toy_run earlier) as [o|] eqn:E; [|vm_compute in E; discriminate]. exists o. split; [reflexivity|]. split.
  - revert E. vm_compute. by intros [= <-].
  - exact (dependencies_land_first toy_executor toy_host 2 mission_plan 0 earlier o mission_plan_keys E).
Defined.

Example every_task_is_reported_witness : Plan_validate mission_plan = Some (Ok tt) /\ exists o, toy_run earlier = Some o /\
  match o with
  | Ok rep => skipped rep = ["e"] /\ tally_done (reported rep) = ["a"; "d"] /\
      tally_failed (reported rep) = [("b", "no model passes"); ("c", "dependency b did not complete")] /\ unstarted (reported rep) = []
  | Err _ => False
  end.
Proof.
  assert (Plan_validate mission_plan = Some (Ok tt)) as Hv by (vm_compute; reflexivity). split; [exact Hv|].
  destruct (every_task_is_reported toy_executor toy_host 2 mission_plan 0 earlier Hv) as (o & Ho & _). exists o. split; [exact Ho|].
  revert Ho. vm_compute. intros [= <-]. repeat split.
Defined.

(** Run again on the file it left, the plan tries [b] alone. *)
Example finished_work_is_kept_witness : exists o o', toy_run earlier = Some o /\ toy_run (disk (final o)) = Some o' /\
  reverse (calls (final o')) = [Preparing ["b"]] /\ "a" ∉ prepared (calls (final o')).
Proof.
  destruct (toy_run earlier) as [o|] eqn:E; [|vm_compute in E; discriminate].
  assert (disk (final o) = toy_left) as Hd by (unfold toy_left; by rewrite E).
  assert ("a" ∈ tally_done (final o)) as Ha by (revert E; clear; vm_compute; intros [= <-]; vm_compute; left).
  destruct (toy_run toy_left) as [o'|] eqn:E'; [|vm_compute in E'; discriminate].
  exists o, o'. split; [reflexivity|]. split; [by rewrite Hd|].
  split; [revert E'; clear; vm_compute; by intros [= <-]|].
  destruct (finished_work_is_kept toy_executor toy_host 2 mission_plan 0 earlier o mission_plan_keys E) as (_ & _ & H).
  rewrite Hd in H. apply (H mission_plan 0 o' mission_plan_keys E' "a"). right. exact Ha.
Defined.

Example new_orchestrator_schedules_all_witness : exists r,
  plan_wave (Orchestrator_new 0) "w1" [{| n_key := "a"; n_deps := ["b"]; n_scopes := ["x"] |}; {| n_key := "b"; n_deps := []; n_scopes := ["y"] |}] = Some r /\
  r = Ok ([["b"]; ["a"]], []).
Proof.
  destruct (new_orchestrator_schedules_all 0 "w1" [{| n_key := "a"; n_deps := ["b"]; n_scopes := ["x"] |}; {| n_key := "b"; n_deps := []; n_scopes := ["y"] |}]) as (r & Hr & _).
  - cbn. repeat (apply NoDup_cons; split; [set_solver|]). apply NoDup_nil_2.
  - exists r. split; [exact Hr|]. revert Hr. vm_compute. by intros [= <-].
Defined.
