(* ===== verification/Speculative.v ===== *)
(** * Speculative: greedy decoding, plain and by draft and verification
    ([crates/susi-gemi/src/engines/speculative.rs], [runtime_native.rs],
    [runtime_substrate.rs]; the cache of [susi-vendor-candle/src/qwen2_split.rs])

    A model is its numerical kernels, unknown, over a cache that is modelled: the tokens fed,
    each with the position it was rotated by.  Logits are binary32.  A run returns the tokens;
    the tokenizer and the streaming of text are not modelled. *)

From Stdlib Require Import Floats.SpecFloat.
From S2P Require Import Prelude Text.

Local Open Scope list_scope.
Local Open Scope nat_scope.

(** ** Logits *)

Module F32.
Definition t : Type := spec_float.
Definition mul : t -> t -> t := SFmul 24 128.
Definition div : t -> t -> t := SFdiv 24 128.
Definition lt : t -> t -> bool := SFltb.
Definition le : t -> t -> bool := SFleb.
Definition eq : t -> t -> bool := SFeqb.
Definition zero : t := S754_zero false.
Definition one : t := binary_normalize 24 128 1 0 false.
Definition of_Z (z : Z) : t := binary_normalize 24 128 z 0 false.
Definition NEG_INFINITY : t := S754_infinity true.
End F32.

Fixpoint argmax_from (i best : nat) (best_v : F32.t) (v : list F32.t) : nat :=
  match v with
  | [] => best
  | x :: v' => if F32.lt best_v x then argmax_from (S i) i x v' else argmax_from (S i) best best_v v'
  end.
Definition argmax (v : list F32.t) : nat := argmax_from 0 0 F32.NEG_INFINITY v.

Definition penalize (penalty x : F32.t) : F32.t := if F32.lt x F32.zero then F32.mul x penalty else F32.div x penalty.
Fixpoint penalize_all (penalty : F32.t) (seen : gset nat) (context : list nat) (logits : list F32.t) : list F32.t :=
  match context with
  | [] => logits
  | tok :: context' =>
      if bool_decide (tok ∈ seen) then penalize_all penalty seen context' logits
      else penalize_all penalty ({[tok]} ∪ seen) context' (alter (penalize penalty) tok logits)
  end.
Definition apply_repeat_penalty (logits : list F32.t) (penalty : F32.t) (context : list nat) : list F32.t :=
  if F32.eq penalty F32.one || F32.le penalty F32.zero then logits else penalize_all penalty ∅ context logits.
Definition penalized_argmax (logits : list F32.t) (repeat_penalty : F32.t) (repeat_last_n : nat) (window : list nat) : nat :=
  argmax (apply_repeat_penalty logits repeat_penalty (drop (length window - repeat_last_n) window)).

(** ** Models *)

(** The kernels: the logits after a context of tokens at their positions; a forward pass over
    several tokens may run other kernels than one over a single token. *)
Definition Kernel : Type := nat -> list (nat * nat) -> list F32.t.
Record ModelWeights : Type := { kernel : Kernel; kv_capacity : nat }.
(** The populated positions of [kv_cache]. *)
Definition Cache : Type := list (nat * nat).

Inductive ModelError : Type :=
| CapacityExceeded (needs : nat)
| MaskShape
| NoRow
| Cancelled.

Definition entries (x : list nat) (index_pos : nat) : Cache := imap (fun i t => (t, index_pos + i)) x.
(** [forward_all_logits]: the cache it leaves and a row of logits for each token. *)
Definition forward_all_logits (m : ModelWeights) (cache : Cache) (x : list nat) (index_pos : nat) :
    result (Cache * list (list F32.t)) ModelError :=
  let cache := if index_pos =? 0 then [] else cache in
  let new_len := length cache + length x in
  if kv_capacity m <? new_len then Err (CapacityExceeded new_len)
  else if negb (length x =? 1) && negb (length cache =? index_pos) then Err MaskShape
  else
    let cache' := cache ++ entries x index_pos in
    Ok (cache', (fun j => kernel m (length x) (take (length cache + S j) cache')) <$> seq 0 (length x)).
Definition forward (m : ModelWeights) (cache : Cache) (x : list nat) (index_pos : nat) : result (Cache * list F32.t) ModelError :=
  result_bind (forward_all_logits m cache x index_pos) (fun r =>
    match last r.2 with Some row => Ok (r.1, row) | None => Err NoRow end).
Definition truncate_kv_cache (cache : Cache) (new_len : nat) : Cache := take new_len cache.

(** ** Generation *)

Section Generation.
(** [cancelled n] is whether the task was cancelled when [n] tokens had been generated. *)
Context (eos_token_ids : list nat) (max_tokens : nat) (repeat_penalty : F32.t) (repeat_last_n : nat) (cancelled : nat -> bool).

Definition is_eos (t : nat) : bool := existsb (Nat.eqb t) eos_token_ids.
Definition pick (row : list F32.t) (window : list nat) : nat := penalized_argmax row repeat_penalty repeat_last_n window.

(** The loop of [run_inference_stream], with [n] of its rounds to go. *)
Fixpoint classic_loop (m : ModelWeights) (prompt : list nat) (n : nat) (cache : Cache) (all_tokens tokens_to_process : list nat) :
    result (list nat) ModelError :=
  match n with
  | O => Ok all_tokens
  | S n' =>
      if cancelled (length all_tokens) then Err Cancelled
      else
        let i := length all_tokens in
        let pos := if i =? 0 then 0 else length prompt + i - 1 in
        result_bind (forward m cache tokens_to_process pos) (fun r =>
          let next_token := pick r.2 all_tokens in
          let all_tokens := all_tokens ++ [next_token] in
          if is_eos next_token then Ok all_tokens
          else classic_loop m prompt n' r.1 all_tokens [next_token])
  end.
Definition classic (m : ModelWeights) (prompt : list nat) : result (list nat) ModelError :=
  classic_loop m prompt max_tokens [] [] prompt.

Fixpoint emit (tokens all_tokens : list nat) : list nat :=
  match tokens with
  | [] => all_tokens
  | t :: tokens' =>
      if max_tokens <=? length all_tokens then all_tokens
      else if is_eos t then all_tokens ++ [t]
      else emit tokens' (all_tokens ++ [t])
  end.

(** Up to [n] more tokens: the draft's cache and the chunk. *)
Fixpoint draft_chunk_from (d : ModelWeights) (n : nat) (cache : Cache) (feed_pos current : nat) (history chunk : list nat) :
    result (Cache * list nat) ModelError :=
  match n with
  | O => Ok (cache, chunk)
  | S n' =>
      result_bind (forward d cache [current] feed_pos) (fun r =>
        let history := history ++ [current] in
        let current := pick r.2 history in
        let chunk := chunk ++ [current] in
        if is_eos current then Ok (r.1, chunk)
        else draft_chunk_from d n' r.1 (S feed_pos) current history chunk)
  end.

(** The first drafted token the target would not have picked, and what it picks there: [js]
    are the positions still to compare. *)
Fixpoint find_mismatch (rows : list (list F32.t)) (all_tokens chunk : list nat) (js : list nat) : option (nat * nat) :=
  match js with
  | [] => None
  | j :: js' =>
      let target_pick := pick (default [] (rows !! j)) (all_tokens ++ take (S j) chunk) in
      if bool_decide (chunk !! S j = Some target_pick) then find_mismatch rows all_tokens chunk js'
      else Some (S j, target_pick)
  end.

Record SpecState : Type := mkSpec { target_cache : Cache; draft_cache : Cache; all_tokens : list nat; anchor : nat; pos : nat }.
Inductive Round : Type :=
| Return (tokens : list nat)
| Next (s : SpecState).

Definition finished (tokens : list nat) (last_token : nat) : bool := (max_tokens <=? length tokens) || is_eos last_token.
(** One turn of the loop of [SpeculativeDecoder::run]. *)
Definition round (target draft : ModelWeights) (draft_chunk : nat) (s : SpecState) : result Round ModelError :=
  if max_tokens <=? length (all_tokens s) then Ok (Return (all_tokens s))
  else if cancelled (length (all_tokens s)) then Err Cancelled
  else if is_eos (anchor s) then Ok (Return (all_tokens s))
  else
    result_bind (draft_chunk_from draft (draft_chunk - 1) (draft_cache s) (pos s) (anchor s) (all_tokens s) [anchor s]) (fun dr =>
      let '(dcache, chunk) := dr in
      let k := length chunk in
      result_bind (forward_all_logits target (target_cache s) chunk (pos s)) (fun tr =>
        let '(tcache, rows) := tr in
        match find_mismatch rows (all_tokens s) chunk (seq 0 (k - 1)) with
        | None =>
            let next_anchor := pick (default [] (rows !! (k - 1))) (all_tokens s ++ chunk) in
            let last_token := default (anchor s) (last chunk) in
            let tokens := emit chunk (all_tokens s) in
            if finished tokens last_token then Ok (Return tokens)
            else
              result_bind (forward draft dcache [last_token] (pos s + k - 1)) (fun dr =>
                Ok (Next (mkSpec tcache dr.1 tokens next_anchor (pos s + k))))
        | Some (m, corrective) =>
            let tcache := truncate_kv_cache tcache (pos s + m) in
            let tokens := emit (take m chunk ++ [corrective]) (all_tokens s) in
            if finished tokens corrective then Ok (Return tokens)
            else
              result_bind (forward target tcache [corrective] (pos s + m)) (fun tr =>
                let next_anchor := pick tr.2 tokens in
                result_bind (forward draft (truncate_kv_cache dcache (pos s + m)) [corrective] (pos s + m)) (fun dr =>
                  Ok (Next (mkSpec tr.1 dr.1 tokens next_anchor (pos s + m + 1)))))
        end)).

(** [None] is a loop that is not over. *)
Fixpoint spec_loop (fuel : nat) (target draft : ModelWeights) (draft_chunk : nat) (s : SpecState) : option (result (list nat) ModelError) :=
  match fuel with
  | O => None
  | S f =>
      match round target draft draft_chunk s with
      | Err e => Some (Err e)
      | Ok (Return tokens) => Some (Ok tokens)
      | Ok (Next s) => spec_loop f target draft draft_chunk s
      end
  end.
Definition spec_run (target draft : ModelWeights) (draft_chunk : nat) (prompt : list nat) : option (result (list nat) ModelError) :=
  match forward target [] prompt 0 with
  | Err e => Some (Err e)
  | Ok (tcache, row) =>
      match forward draft [] prompt 0 with
      | Err e => Some (Err e)
      | Ok (dcache, _) =>
          spec_loop (S max_tokens) target draft draft_chunk (mkSpec tcache dcache [] (pick row []) (length prompt))
      end
  end.
End Generation.

(** ** The draft *)

(** A file of the models directory, as it is read: its size and its architecture, unless they
    cannot be read. *)
Record ModelFile : Type := { path : string; extension : option string; file_size : option N; architecture : option string }.
Definition MIN_DRAFT_MODEL_BYTES : N := 50000000.
Definition qualifies (target_path : string) (target_size : N) (f : ModelFile) : option N :=
  if String.eqb (path f) target_path then None
  else if negb (bool_decide (extension f = Some "gguf"%string)) then None
  else match file_size f with
  | None => None
  | Some size =>
      if (target_size <=? size)%N || (size <? MIN_DRAFT_MODEL_BYTES)%N then None
      else match architecture f with
      | Some arch => if starts_with "qwen2" (to_ascii_lowercase arch) then Some size else None
      | None => None
      end
  end.
Definition select_draft_model_in (files : list ModelFile) (target_path : string) (target_size : N) : option (string * N) :=
  fold_left (fun best f =>
    match qualifies target_path target_size f with
    | None => best
    | Some size => if match best with Some (_, s) => (size <? s)%N | None => true end then Some (path f, size) else best
    end) files None.

(** The draft is a smallest model that qualifies, and there is none only when none does. *)
Theorem draft_is_smallest files target_path target_size :
  match select_draft_model_in files target_path target_size with
  | Some (p, s) => (exists f, In f files /\ path f = p /\ qualifies target_path target_size f = Some s) /\
      forall f s', In f files -> qualifies target_path target_size f = Some s' -> (s <= s')%N
  | None => forall f, In f files -> qualifies target_path target_size f = None
  end.
Proof.
  unfold select_draft_model_in. induction files as [|f files IH] using rev_ind; [intros ? []|]. rewrite fold_left_app. cbn [fold_left].
  destruct (fold_left _ files None) as [[p s]|]; destruct (qualifies target_path target_size f) as [size|] eqn:E.
  - destruct IH as [(g & Hg & Hp & Hq) Hmin]. destruct (N.ltb_spec size s).
    + split; [exists f; split; [apply in_or_app; right; by left|done]|]. intros h s' [Hh|[<-|[]]]%in_app_or Hs'; [|simplify_eq; lia].
      specialize (Hmin h s' Hh Hs'). lia.
    + split; [exists g; split; [apply in_or_app; by left|done]|]. intros h s' [Hh|[<-|[]]]%in_app_or Hs'; [by apply (Hmin h)|simplify_eq; lia].
  - destruct IH as [(g & Hg & Hp & Hq) Hmin]. split; [exists g; split; [apply in_or_app; by left|done]|].
    intros h s' [Hh|[<-|[]]]%in_app_or Hs'; [by apply (Hmin h)|congruence].
  - split; [exists f; split; [apply in_or_app; right; by left|done]|].
    intros h s' [Hh|[<-|[]]]%in_app_or Hs'; [by rewrite IH in Hs'|simplify_eq; lia].
  - intros h [Hh|[<-|[]]]%in_app_or; [by apply IH|done].
Qed.

(** ** The cache *)

Lemma entries_app a b p : entries (a ++ b) p = entries a p ++ entries b (p + length a).
Proof. unfold entries. rewrite imap_app. f_equal. apply imap_ext. intros i t _. cbn. f_equal. lia. Qed.
Lemma length_entries l p : length (entries l p) = length l.
Proof. apply length_imap. Qed.
Lemma take_entries n l p : take n (entries l p) = entries (take n l) p.
Proof.
  rewrite <- (take_drop n l) at 1. rewrite entries_app. destruct (decide (n <= length l)).
  - rewrite take_app_length'; [done|]. rewrite length_entries, length_take. lia.
  - rewrite drop_ge by lia. cbn. rewrite app_nil_r. apply take_ge. rewrite length_entries, length_take. lia.
Qed.

(** A pass over [x] with the cache in step, and room for it. *)
Lemma forward_all_in_step m l x : x <> [] -> length (l ++ x) <= kv_capacity m ->
  forward_all_logits m (entries l 0) x (length l) =
    Ok (entries (l ++ x) 0, (fun j => kernel m (length x) (entries (l ++ take (S j) x) 0)) <$> seq 0 (length x)).
Proof.
  intros Hx Hcap. rewrite length_app in Hcap. unfold forward_all_logits.
  replace (if length l =? 0 then [] else entries l 0) with (entries l 0) by (by destruct l).
  rewrite length_entries. destruct (Nat.ltb_spec (kv_capacity m) (length l + length x)); [lia|].
  rewrite Nat.eqb_refl, andb_false_r. rewrite (entries_app l x 0). f_equal. f_equal. apply list_fmap_ext. intros i j Hj.
  change (0 + length l) with (length l). rewrite take_app_add' by (by rewrite length_entries).
  by rewrite take_entries, entries_app.
Qed.

Lemma forward_in_step m l x : x <> [] -> length (l ++ x) <= kv_capacity m ->
  forward m (entries l 0) x (length l) = Ok (entries (l ++ x) 0, kernel m (length x) (entries (l ++ x) 0)).
Proof.
  intros Hx Hcap. unfold forward. rewrite forward_all_in_step by done. cbn [result_bind fst snd].
  destruct x as [|x0 x] using rev_ind; [done|]. clear IHx. rewrite length_app, Nat.add_comm. cbn [length]. 
  change (1 + length x) with (S (length x)). rewrite seq_S, fmap_app. cbn [fmap list_fmap]. rewrite last_snoc. cbn [Nat.add].
  rewrite take_ge by (rewrite length_app; cbn; lia). done.
Qed.

(** ** The tokens greedy decoding picks *)

Section Exact.
Context (eos_token_ids : list nat) (max_tokens : nat) (repeat_penalty : F32.t) (repeat_last_n : nat) (cancelled : nat -> bool).
Context (target draft : ModelWeights) (draft_chunk : nat) (prompt : list nat).
Notation is_eos := (is_eos eos_token_ids).
Notation pick := (pick repeat_penalty repeat_last_n).
(** What the comment on kernels asks for: a pass over several tokens picks what passes over
    single tokens pick. *)
Context (Hkernel : forall n ctx window, 0 < n -> pick (kernel target n ctx) window = pick (kernel target 1 ctx) window).
Context (Hcancel : forall n, cancelled n = false).
Context (Hprompt : prompt <> []).
Context (Hchunk : 0 < draft_chunk).
Context (Htarget : length prompt + max_tokens + draft_chunk <= kv_capacity target).
Context (Hdraft : length prompt + max_tokens + draft_chunk <= kv_capacity draft).

Definition greedy_pick (all : list nat) : nat := pick (kernel target 1 (entries (prompt ++ all) 0)) all.
Fixpoint greedy (n : nat) (all : list nat) : list nat :=
  match n with
  | O => all
  | S n' => let t := greedy_pick all in if is_eos t then all ++ [t] else greedy n' (all ++ [t])
  end.

Lemma classic_loop_greedy n l all x : l ++ x = prompt ++ all -> x <> [] -> (all = [] -> l = []) -> (all <> [] -> length x = 1) ->
  length prompt + length all + n <= kv_capacity target + 1 ->
  classic_loop eos_token_ids repeat_penalty repeat_last_n cancelled target prompt n (entries l 0) all x = Ok (greedy n all).
Proof.
  revert l all x. induction n as [|n IH]; intros l all x Hl Hx Hnil Hone Hcap; [done|]. cbn [classic_loop greedy]. rewrite Hcancel.
  assert (Hlen : length l + length x = length prompt + length all) by (rewrite <- !length_app; by f_equal).
  assert (Hpos : (if length all =? 0 then 0 else length prompt + length all - 1) = length l).
  { destruct all as [|a all]; [by rewrite Hnil|]. specialize (Hone ltac:(done)). cbn [length Nat.eqb] in *. lia. }
  rewrite Hpos. rewrite forward_in_step by (rewrite ?length_app; lia || done). cbn [result_bind fst snd]. rewrite Hl.
  rewrite Hkernel by (destruct x; [done|cbn; lia]). fold (greedy_pick all). destruct (is_eos (greedy_pick all)); [done|].
  apply IH; [by rewrite <- app_assoc|done|by destruct all|done|rewrite length_app; cbn; lia].
Qed.

(** Tokens greedy decoding picks one after the other, none but the last ends the text. *)
Fixpoint chain (all ts : list nat) : Prop :=
  match ts with
  | [] => True
  | t :: ts' => t = greedy_pick all /\ (ts' <> [] -> is_eos t = false) /\ chain (all ++ [t]) ts'
  end.

Lemma chain_pointwise all ts : (forall i t, ts !! i = Some t -> t = greedy_pick (all ++ take i ts)) ->
  (forall i t, ts !! i = Some t -> S i < length ts -> is_eos t = false) -> chain all ts.
Proof.
  revert all. induction ts as [|t ts IH]; intros all H1 H2; [done|]. cbn [chain]. split_and!.
  - rewrite (H1 0 t eq_refl). cbn. by rewrite app_nil_r.
  - intros Hne. apply (H2 0 t eq_refl). destruct ts; [done|cbn; lia].
  - apply IH.
    + intros i u Hu. rewrite (H1 (S i) u Hu). cbn. by rewrite <- app_assoc.
    + intros i u Hu Hi. apply (H2 (S i) u Hu). cbn. lia.
Qed.

Lemma chain_take all chunk m c : m <= length chunk ->
  (forall i t, i < m -> chunk !! i = Some t -> t = greedy_pick (all ++ take i chunk) /\ is_eos t = false) ->
  c = greedy_pick (all ++ take m chunk) -> chain all (take m chunk ++ [c]).
Proof.
  intros Hm Hi Hc. assert (Hlen : length (take m chunk) = m) by (rewrite length_take; lia). apply chain_pointwise.
  - intros i t Ht. apply lookup_app_Some in Ht as [Ht|[Hge Ht]].
    + apply lookup_take_Some in Ht as [Ht Hlt]. rewrite take_app_le by (rewrite Hlen; lia). rewrite take_take, Nat.min_l by lia. by apply Hi.
    + apply list_lookup_singleton_Some in Ht as [Hz <-]. replace i with m by lia. by rewrite take_app_length' by done.
  - intros i t Ht Hl. rewrite length_app, Hlen in Hl. cbn in Hl. rewrite lookup_app_l in Ht by (rewrite Hlen; lia).
    apply lookup_take_Some in Ht as [Ht Hlt]. by apply (Hi i t).
Qed.

Lemma emit_chain all ts : chain all ts -> ts <> [] -> length all < max_tokens ->
  let toks := emit eos_token_ids max_tokens ts all in
  if finished eos_token_ids max_tokens toks (default 0 (last ts)) then greedy (max_tokens - length all) all = toks
  else toks = all ++ ts /\ length toks < max_tokens /\ greedy (max_tokens - length all) all = greedy (max_tokens - length toks) toks.
Proof.
  revert all. induction ts as [|t ts IH]; intros all Hc Hne Hlt; [done|]. destruct Hc as (Ht & He & Hc). cbn [emit].
  destruct (Nat.leb_spec max_tokens (length all)); [lia|].
  replace (max_tokens - length all) with (S (max_tokens - length (all ++ [t]))) by (rewrite length_app; cbn; lia).
  cbn [greedy]. rewrite <- Ht. destruct ts as [|t2 ts].
  - change (default 0 (last [t])) with t. unfold finished. destruct (is_eos t) eqn:E; [by rewrite orb_true_r|]. cbn [emit]. rewrite orb_false_r.
    destruct (Nat.leb_spec max_tokens (length (all ++ [t]))); [|done]. by replace (max_tokens - length (all ++ [t])) with 0 by lia.
  - rewrite (He ltac:(done)). destruct (decide (length (all ++ [t]) < max_tokens)) as [Hl|Hl].
    + specialize (IH (all ++ [t]) Hc ltac:(done) Hl). cbn zeta in IH. change (last (t :: t2 :: ts)) with (last (t2 :: ts)).
      destruct (finished _ _ _ _); [done|]. destruct IH as (-> & H2 & H3). by rewrite <- app_assoc in *.
    + cbn [emit]. destruct (Nat.leb_spec max_tokens (length (all ++ [t]))); [|lia]. unfold finished.
      destruct (Nat.leb_spec max_tokens (length (all ++ [t]))); [|lia]. cbn [orb]. by replace (max_tokens - length (all ++ [t])) with 0 by lia.
Qed.

(** ** A round *)

Notation ctx all := (entries (prompt ++ all) 0).
Lemma length_ctx all : length prompt + length all = length (prompt ++ all).
Proof. by rewrite length_app. Qed.

(** Drafting feeds the chunk but for its last token. *)
Lemma draft_chunk_spec n all fed current chunk : length prompt + length all + length fed + n <= kv_capacity draft ->
  exists cs, draft_chunk_from eos_token_ids repeat_penalty repeat_last_n draft n (ctx (all ++ fed)) (length (prompt ++ all ++ fed)) current (all ++ fed) chunk
    = Ok (ctx (all ++ fed ++ removelast (current :: cs)), chunk ++ cs) /\ length cs <= n /\
  forall i t, cs !! i = Some t -> S i < length cs -> is_eos t = false.
Proof.
  revert fed current chunk. induction n as [|n IH]; intros fed current chunk Hcap; cbn [draft_chunk_from].
  { exists []. split_and!; [|done|done]. cbn. by rewrite !app_nil_r. }
  rewrite forward_in_step by (done || (rewrite !length_app; cbn; lia)). cbn [result_bind fst snd].
  set (next := pick _ _). destruct (is_eos next) eqn:E.
  - exists [next]. split_and!; [|cbn; lia|]. { f_equal. f_equal. cbn. by rewrite <- !app_assoc. }
    intros [|i] t; cbn; [lia|done].
  - rewrite <- !app_assoc. replace (S (length (prompt ++ all ++ fed))) with (length (prompt ++ all ++ fed ++ [current])) by (rewrite !length_app; cbn; lia).
    destruct (IH (fed ++ [current]) next (chunk ++ [next])) as (cs & Hcs & Hl & He); [rewrite length_app; cbn; lia|].
    exists (next :: cs). split_and!; [|cbn; lia|].
    + rewrite Hcs, <- !app_assoc. done.
    + intros [|i] t; [by intros [= <-]|]. cbn. intros Ht Hi. apply (He i t Ht). lia.
Qed.

(** The comparison with what the target picks. *)
Lemma find_mismatch_spec all chunk n j0 :
  let rows := (fun j => kernel target (length chunk) (entries ((prompt ++ all) ++ take (S j) chunk) 0)) <$> seq 0 (length chunk) in
  j0 + n = length chunk - 1 ->
  match find_mismatch repeat_penalty repeat_last_n rows all chunk (seq j0 n) with
  | None => forall j, j0 <= j < length chunk - 1 -> chunk !! S j = Some (greedy_pick (all ++ take (S j) chunk))
  | Some (m, corrective) => j0 < m < length chunk /\ corrective = greedy_pick (all ++ take m chunk) /\
      forall j, j0 <= j -> S j < m -> chunk !! S j = Some (greedy_pick (all ++ take (S j) chunk))
  end.
Proof.
  intros rows. revert j0. induction n as [|n IH]; intros j0 Hn; cbn [seq find_mismatch]; [intros j; lia|].
  assert (Hrow : pick (default [] (rows !! j0)) (all ++ take (S j0) chunk) = greedy_pick (all ++ take (S j0) chunk)).
  { transitivity (pick (kernel target (length chunk) (entries ((prompt ++ all) ++ take (S j0) chunk) 0)) (all ++ take (S j0) chunk)).
    - unfold rows. rewrite list_lookup_fmap, lookup_seq_lt by lia. done.
    - unfold greedy_pick. rewrite (Hkernel (length chunk)) by lia. by rewrite <- app_assoc. }
  rewrite Hrow. destruct (bool_decide _) eqn:E; bool_to_prop.
  - specialize (IH (S j0) ltac:(lia)). destruct (find_mismatch _ _ rows all chunk (seq (S j0) n)) as [[m c]|].
    + destruct IH as (H1 & H2 & H3). split_and!; [lia|lia|done|]. intros j Hj Hm. destruct (decide (j = j0)) as [->|]; [done|apply H3; lia].
    + intros j Hj. destruct (decide (j = j0)) as [->|]; [done|apply IH; lia].
  - split_and!; [lia|lia|done|intros; lia].
Qed.

(** Both caches hold the prompt and what was generated, the anchor is the next token. *)
Record in_step (s : SpecState) : Prop := {
  s_target : target_cache s = ctx (all_tokens s);
  s_draft : draft_cache s = ctx (all_tokens s);
  s_anchor : anchor s = greedy_pick (all_tokens s);
  s_pos : pos s = length (prompt ++ all_tokens s);
}.
(** A text and the same text without the token that ends it. *)
Definition but_for_end (g toks : list nat) : Prop := g = toks \/ exists e, is_eos e = true /\ g = toks ++ [e].
Notation rest s := (greedy (max_tokens - length (all_tokens s)) (all_tokens s)).

Lemma emit_more ts all : length all <= length (emit eos_token_ids max_tokens ts all).
Proof.
  revert all. induction ts as [|t ts IH]; intros all; [done|]. cbn [emit]. destruct (_ <=? _); [done|].
  destruct (is_eos t); [rewrite length_app; cbn; lia|]. etrans; [|apply IH]. rewrite length_app. lia.
Qed.

Lemma last_default (ts : list nat) a : ts <> [] -> default a (last ts) = default 0 (last ts).
Proof. destruct ts as [|t ts] using rev_ind; [done|]. by rewrite last_snoc. Qed.

Lemma round_spec s : in_step s -> length (all_tokens s) <= max_tokens ->
  match round eos_token_ids max_tokens repeat_penalty repeat_last_n cancelled target draft draft_chunk s with
  | Err _ => False
  | Ok (Return toks) => but_for_end (rest s) toks
  | Ok (Next s') => in_step s' /\ length (all_tokens s) < length (all_tokens s') <= max_tokens /\ rest s = rest s'
  end.
Proof.
  intros [Ht Hd Ha Hp] Hle. unfold round. destruct (Nat.leb_spec max_tokens (length (all_tokens s))) as [Hge|Hlt].
  { left. by replace (max_tokens - length (all_tokens s)) with 0 by lia. }
  rewrite Hcancel. destruct (is_eos (anchor s)) eqn:Eeos.
  { right. exists (anchor s). split; [done|]. replace (max_tokens - length (all_tokens s)) with (S (max_tokens - length (all_tokens s) - 1)) by lia.
    cbn [greedy]. by rewrite <- Ha, Eeos. }
  set (all := all_tokens s) in *. set (a := anchor s) in *.
  destruct (draft_chunk_spec (draft_chunk - 1) all [] a [a]) as (cs & Hcs & Hlen & Hne); [cbn; lia|].
  rewrite !app_nil_r in Hcs. cbn [app] in Hcs. rewrite Hd, Hp, Hcs. cbn [result_bind]. set (chunk := a :: cs) in *.
  assert (length chunk <= draft_chunk /\ chunk <> []) as [Hcl Hcn] by (split; [cbn; lia|done]).
  assert (Hend : forall i t, chunk !! i = Some t -> S i < length chunk -> is_eos t = false).
  { intros [|i] t; [by intros [= <-]|]. cbn. intros Hi Hl. apply (Hne i t Hi). lia. }
  assert (Hhd : chunk !! 0 = Some a) by done. clearbody chunk.
  rewrite Ht, forward_all_in_step by (done || (rewrite !length_app; lia)). cbn [result_bind].
  pose proof (find_mismatch_spec all chunk (length chunk - 1) 0 ltac:(lia)) as Hm. cbn zeta in Hm.
  destruct (find_mismatch _ _ _ all chunk _) as [[m c]|].
  - destruct Hm as (Hm1 & Hc & Hm2). set (ts := take m chunk ++ [c]).
    assert (chain all ts) as Hch.
    { apply chain_take; [lia| |done]. intros [|i] t Hi Hit; (split; [|apply (Hend _ t Hit); lia]).
      - rewrite Hhd in Hit. injection Hit as <-. cbn. by rewrite app_nil_r.
      - rewrite (Hm2 i ltac:(lia) ltac:(lia)) in Hit. by injection Hit. }
    pose proof (emit_chain all ts Hch ltac:(unfold ts; by destruct (take m chunk)) Hlt) as He. cbn zeta in He.
    replace (default 0 (last ts)) with c in He by (unfold ts; by rewrite last_snoc).
    fold ts. destruct (finished _ _ _ c); [by left|]. destruct He as (He1 & He2 & He3). rewrite He1 in *.
    assert (Hlts : length ts = S m) by (unfold ts; rewrite length_app, length_take; cbn; lia). rewrite length_app in He2.
    replace (length (prompt ++ all) + m) with (length ((prompt ++ all) ++ take m chunk)) by (rewrite (length_app (prompt ++ all)), length_take; lia).
    assert (Hcut : forall l, m <= length l -> take m l = take m chunk ->
      truncate_kv_cache (entries ((prompt ++ all) ++ l) 0) (length ((prompt ++ all) ++ take m chunk)) = entries ((prompt ++ all) ++ take m chunk) 0).
    { intros l Hl Hml. unfold truncate_kv_cache. rewrite take_entries. f_equal. rewrite length_app, length_take, Nat.min_l by lia.
      by rewrite take_app_add, Hml. }
    rewrite Hcut by (done || lia). rewrite forward_in_step by (done || (rewrite !length_app, length_take; cbn; lia)). cbn [result_bind fst snd].
    rewrite (app_assoc prompt all), Hcut.
    2: { rewrite removelast_firstn_len, length_take. lia. }
    2: { rewrite removelast_firstn_len, take_take. f_equal. lia. }
    rewrite forward_in_step by (done || (rewrite !length_app, length_take; cbn; lia)). cbn [result_bind fst snd].
    split_and!; [split; cbn|cbn; rewrite length_app; lia|cbn; rewrite length_app; lia|done].
    + unfold ts. by rewrite !app_assoc.
    + unfold ts. by rewrite !app_assoc.
    + unfold greedy_pick, ts. by rewrite !app_assoc.
    + unfold ts. rewrite !length_app. cbn. lia.
  - destruct (exists_last Hcn) as (ini & z & Hz). assert (Hini : length chunk = S (length ini)) by (rewrite Hz, length_app; cbn; lia).
    assert (take (length ini) chunk = ini) as Htk by (rewrite Hz; by apply take_app_length').
    assert (chain all chunk) as Hch.
    { rewrite Hz. rewrite <- Htk. apply chain_take; [lia| |].
      - intros [|i] t Hi Hit; (split; [|apply (Hend _ t Hit); lia]).
        + rewrite Hhd in Hit. injection Hit as <-. cbn. by rewrite app_nil_r.
        + rewrite (Hm i ltac:(lia)) in Hit. by injection Hit.
      - assert (Hzk : chunk !! length ini = Some z) by (by rewrite Hz, list_lookup_middle).
        destruct (length ini) as [|i] eqn:Ei; [rewrite Hhd in Hzk; injection Hzk as <-; cbn; by rewrite app_nil_r|].
        rewrite (Hm i ltac:(lia)) in Hzk. by injection Hzk. }
    pose proof (emit_chain all chunk Hch Hcn Hlt) as He. cbn zeta in He. rewrite (last_default chunk a Hcn).
    replace (default 0 (last chunk)) with z in * by (by rewrite Hz, last_snoc).
    destruct (finished _ _ _ z); [by left|]. destruct He as (He1 & He2 & He3). rewrite He1 in *. rewrite length_app in He2.
    replace (removelast chunk) with ini by (by rewrite Hz, removelast_last).
    replace (length (prompt ++ all) + length chunk - 1) with (length (prompt ++ all ++ ini)) by (rewrite !length_app; lia).
    rewrite forward_in_step by (done || (rewrite !length_app; cbn; lia)). cbn [result_bind fst snd].
    split_and!; [split; cbn|cbn; rewrite length_app; lia|cbn; rewrite length_app; lia|done].
    + by rewrite <- app_assoc.
    + by rewrite Hz, <- !app_assoc.
    + rewrite list_lookup_fmap, lookup_seq_lt by lia. cbn. unfold greedy_pick. rewrite (Hkernel (length chunk)) by lia.
      rewrite take_ge by lia. by rewrite <- app_assoc.
    + rewrite !length_app. lia.
Qed.

Lemma spec_loop_spec fuel s : in_step s -> length (all_tokens s) <= max_tokens -> max_tokens - length (all_tokens s) < fuel ->
  exists toks, spec_loop eos_token_ids max_tokens repeat_penalty repeat_last_n cancelled fuel target draft draft_chunk s = Some (Ok toks) /\
    but_for_end (rest s) toks.
Proof.
  revert s. induction fuel as [|f IH]; intros s Hs Hl Hf; [lia|]. cbn [spec_loop]. pose proof (round_spec s Hs Hl) as Hr.
  destruct (round _ _ _ _ _ _ _ _ s) as [[toks|s']|]; [by exists toks| |done].
  destruct Hr as (Hs' & Hlt & ->). apply IH; [done|lia|lia].
Qed.

(** C24. Speculative decoding is exact where the target's kernel is: when a pass over several
    tokens picks what a pass over the last of them alone picks (batched matrix kernels need
    not, see [kernels_must_agree]), nothing cancels the task, the prompt and the draft chunk
    are not empty, and both caches have room for the prompt, the tokens asked for and one
    draft chunk, it returns, whatever the draft model proposes, the tokens plain greedy
    decoding of the target returns, but for the token that ends the text, which it may leave
    out; both always end. *)
Theorem speculation_is_exact :
  exists g toks, classic eos_token_ids max_tokens repeat_penalty repeat_last_n cancelled target prompt = Ok g /\
    spec_run eos_token_ids max_tokens repeat_penalty repeat_last_n cancelled target draft draft_chunk prompt = Some (Ok toks) /\
    but_for_end g toks.
Proof.
  assert (Hl : length prompt <> 0) by (by destruct prompt).
  exists (greedy max_tokens []). unfold spec_run.
  pose proof (forward_in_step target [] prompt Hprompt ltac:(cbn; lia)) as Ht. pose proof (forward_in_step draft [] prompt Hprompt ltac:(cbn; lia)) as Hd.
  change (entries [] 0) with (@nil (nat * nat)) in Ht, Hd. cbn [length app] in Ht, Hd. rewrite Ht, Hd.
  destruct (spec_loop_spec (S max_tokens) (mkSpec (entries prompt 0) (entries prompt 0) [] (pick (kernel target (length prompt) (entries prompt 0)) []) (length prompt)))
    as (toks & Hr & Hb); [split; cbn; rewrite ?app_nil_r; try done|cbn; lia|cbn; lia|].
  { unfold greedy_pick. rewrite app_nil_r. apply Hkernel. lia. }
  exists toks. split_and!; [|done|by rewrite Nat.sub_0_r in Hb].
  unfold classic. change (@nil (nat * nat)) with (entries [] 0) at 1. apply classic_loop_greedy; try done; [by rewrite app_nil_r|cbn; lia].
Qed.
End Exact.

(** ** Witnesses *)

(** The logits that pick [t] among six tokens. *)
Definition one_hot (t : nat) : list F32.t := (fun i => if i =? t then F32.one else F32.zero) <$> seq 0 6.
Definition last_token (c : list (nat * nat)) : nat := default 0 (fst <$> last c).
(** It counts up to 5; the draft says 0 after 2. *)
Definition counter (cap : nat) : ModelWeights := {| kernel _ c := one_hot (S (last_token c)); kv_capacity := cap |}.
Definition bad_counter (cap : nat) : ModelWeights :=
  {| kernel _ c := one_hot (if last_token c =? 2 then 0 else S (last_token c)); kv_capacity := cap |}.
Definition no_penalty : F32.t := F32.one.
Definition never (_ : nat) : bool := false.

Example speculation_is_exact_witness :
  classic [5] 10 no_penalty 64 never (counter 20) [0] = Ok [1; 2; 3; 4; 5] /\
  spec_run [5] 10 no_penalty 64 never (counter 20) (bad_counter 20) 4 [0] = Some (Ok [1; 2; 3; 4; 5]) /\
  exists g toks, classic [5] 10 no_penalty 64 never (counter 20) [0] = Ok g /\
    spec_run [5] 10 no_penalty 64 never (counter 20) (bad_counter 20) 4 [0] = Some (Ok toks) /\ but_for_end [5] g toks.
Proof.
  split; [vm_compute; reflexivity|]. split; [vm_compute; reflexivity|].
  apply (speculation_is_exact [5] 10 no_penalty 64 never (counter 20) (bad_counter 20) 4 [0]);
    [intros n c window _; reflexivity|reflexivity|discriminate|lia|cbn; lia|cbn; lia].
Defined.

(** ** What the model shows besides *)

(** The token that ends the text is generated by the plain loop and not by the speculative one,
    when it is the anchor of a round. *)
Lemma end_token_is_dropped :
  classic [3] 10 no_penalty 64 never (counter 20) [0] = Ok [1; 2; 3] /\
  spec_run [3] 10 no_penalty 64 never (counter 20) (counter 20) 2 [0] = Some (Ok [1; 2]).
Proof. split; vm_compute; reflexivity. Qed.

(** Verification needs room for a whole chunk: where the plain loop just fits, it fails. *)
Lemma speculation_needs_more_room :
  classic [9] 3 no_penalty 64 never (counter 3) [0] = Ok [1; 2; 3] /\
  spec_run [9] 3 no_penalty 64 never (counter 3) (counter 20) 4 [0] = Some (Err (CapacityExceeded 5)).
Proof. split; vm_compute; reflexivity. Qed.

(** When a pass over several tokens runs kernels that answer differently, as the test in the
    same file says they do, the two loops differ. *)
Lemma kernels_must_agree :
  let m := {| kernel n c := if 1 <? n then one_hot 0 else one_hot (S (last_token c)); kv_capacity := 20 |} in
  classic [5] 3 no_penalty 64 never m [1; 0] = Ok [0; 1; 2] /\
  spec_run [5] 3 no_penalty 64 never m (bad_counter 20) 4 [1; 0] = Some (Ok [0; 0; 1]).
Proof. split; vm_compute; reflexivity. Qed.
