(* ===== verification/AuditChain.v ===== *)
(** * AuditChain: the signed audit log
    ([crates/susi-sandbox-client/src/audit_chain.rs])

    Each entry carries the hash of the one before it, its own hash and a seal of that hash
    under the host key.  A log is the lines of its file, as [serde_json] reads them, and the
    checkpoint beside it; the locks make appends one at a time.  SHA-256 and hexadecimal text
    are those of [ClusterKey]. *)

From stdpp Require Import pretty.
From S2P Require Import Prelude Text ClusterKey.

Local Open Scope string_scope.
Local Open Scope list_scope.
Local Open Scope N_scope.

(** ** Lines *)

Definition GENESIS : string := "SUSI_AUDIT_GENESIS_v1".

Record Value : Type := mkValue {
  v_ts : option N;
  v_level : option string;
  v_type : option string;
  v_details : option string;
  v_pid : option N;
  v_prev_hash : option string;
  v_entry_hash : option string;
  v_hmac : option string;
}.
Inductive Line : Type :=
| Blank
| Invalid
| Json (v : Value).

Record Entry : Type := { level : string; event_type : string; details : string; pid : N }.
(** What is hashed. *)
Definition message (prev : string) (ts : N) (e : Entry) : string :=
  prev +:+ "|" +:+ (pretty ts +:+ "|" +:+ (level e +:+ "|" +:+ (event_type e +:+ "|" +:+ (details e +:+ "|" +:+ pretty (pid e))))).

Inductive VerifyError : Type :=
| InvalidJson (line : nat)
| UnsignedAfterSigned (line : nat)
| LinkBreak (line : nat) (expected got : string)
| HashMismatch (line : nat)
| BadSeal (line : nat)
| Unreadable.

Section Chain.
Context `{C : Crypto}.

Definition entry_hash_of (prev : string) (ts : N) (e : Entry) : string := hex_encode (sha256 (bytes_of (message prev ts e))).
Definition mac_hex (key : list N) (entry_hash : string) : string := hmac_sha256_hex key (bytes_of entry_hash).

Definition entry_of (v : Value) : Entry :=
  {| level := default "" (v_level v); event_type := default "" (v_type v); details := default "" (v_details v); pid := default 0 (v_pid v) |}.
Definition prev_of (v : Value) : string := default "" (v_prev_hash v).
Definition ts_of (v : Value) : N := default 0 (v_ts v).

Record Progress : Type := mkProgress { expected_prev : string; signed_count : nat; matching_count : nat }.
(** One line of the loop of [verify_content]. *)
Definition verify_line (key : list N) (since : option N) (idx : nat) (l : Line) (p : Progress) : result Progress VerifyError :=
  match l with
  | Blank => Ok p
  | Invalid => Err (InvalidJson (S idx))
  | Json v =>
      match v_entry_hash v with
      | None => if (0 <? signed_count p)%nat then Err (UnsignedAfterSigned (S idx)) else Ok p
      | Some entry_hash =>
          let expected := if (signed_count p =? 0)%nat && String.eqb (prev_of v) GENESIS then GENESIS else expected_prev p in
          if negb (String.eqb (prev_of v) expected) then Err (LinkBreak (S idx) expected (prev_of v))
          else if negb (String.eqb (entry_hash_of (prev_of v) (ts_of v) (entry_of v)) entry_hash) then Err (HashMismatch (S idx))
          else if negb (String.eqb (mac_hex key entry_hash) (default "" (v_hmac v))) then Err (BadSeal (S idx))
          else Ok (mkProgress entry_hash (S (signed_count p))
            (if match since with Some minimum => minimum <=? ts_of v | None => true end then S (matching_count p) else matching_count p))
      end
  end.
Fixpoint verify_lines (key : list N) (since : option N) (idx : nat) (ls : list Line) (p : Progress) : result Progress VerifyError :=
  match ls with
  | [] => Ok p
  | l :: ls' => result_bind (verify_line key since idx l p) (verify_lines key since (S idx) ls')
  end.
Definition verify_content (key : list N) (since : option N) (content : list Line) : result nat VerifyError :=
  result_bind (verify_lines key since 0 content (mkProgress GENESIS 0 0)) (fun p => Ok (matching_count p)).

(** ** Appending *)

(** How many bytes a line takes in the file. *)
Context (line_len : Line -> N).

(** The checkpoint: absent, unreadable or malformed, or what its two fields hold. *)
Inductive Tip : Type :=
| NoTip
| TipAt (entry_hash : option string) (log_len : option N).
Record Log : Type := mkLog { file : option (list Line); tip : Tip }.
Definition empty_log : Log := mkLog None NoTip.
Definition log_len (ls : list Line) : N := sum_of (line_len <$> ls).

Definition hash_on (l : Line) : option string := match l with Json v => v_entry_hash v | _ => None end.
Definition last_hash (key : list N) (l : Log) : result string VerifyError :=
  match file l with
  | None => Ok GENESIS
  | Some ls =>
      let checkpoint := match tip l with
        | TipAt (Some hash) (Some n) => if (n =? log_len ls) && (String.length hash =? 64)%nat then Some hash else None
        | _ => None end in
      match checkpoint with
      | Some hash => Ok hash
      | None => result_bind (verify_content key None ls) (fun _ => Ok (default GENESIS (head (omap hash_on (reverse ls)))))
      end
  end.

(** How the file operations of an append end. *)
Inductive Io : Type :=
| OpenFails
| TornWrite
| SyncFails
| TipFails
| AllWell.
Inductive AppendError : Type :=
| Refused (why : VerifyError)
| IoError.
Definition signed_value (key : list N) (now : N) (e : Entry) (prev : string) : Value :=
  let h := entry_hash_of prev now e in
  mkValue (Some now) (Some (level e)) (Some (event_type e)) (Some (details e)) (Some (pid e)) (Some prev) (Some h) (Some (mac_hex key h)).
Definition append_with_key (key : list N) (now : N) (e : Entry) (io : Io) (l : Log) : Log * result string AppendError :=
  match last_hash key l with
  | Err why => (l, Err (Refused why))
  | Ok prev =>
      let v := signed_value key now e prev in
      let h := entry_hash_of prev now e in
      let ls := default [] (file l) in
      match io with
      | OpenFails => (l, Err IoError)
      | TornWrite => (mkLog (Some (ls ++ [Invalid])) (tip l), Err IoError)
      | SyncFails | TipFails => (mkLog (Some (ls ++ [Json v])) (tip l), Err IoError)
      | AllWell => (mkLog (Some (ls ++ [Json v])) (TipAt (Some h) (Some (log_len (ls ++ [Json v])))), Ok h)
      end
  end.
Fixpoint appends (key : list N) (ops : list (N * Entry * Io)) (l : Log) : Log :=
  match ops with
  | [] => l
  | (now, e, io) :: ops' => appends key ops' (append_with_key key now e io l).1
  end.
Definition verify_chain (key : list N) (l : Log) : result nat VerifyError :=
  match file l with Some ls => verify_content key None ls | None => Err Unreadable end.
End Chain.

(** ** What a verified log says *)

Section Links.
Context `{C : Crypto}.

Definition value_message (v : Value) : string := message (prev_of v) (ts_of v) (entry_of v).
Definition value_hash (v : Value) : string := entry_hash_of (prev_of v) (ts_of v) (entry_of v).
Definition signed_values (ls : list Line) : list Value :=
  omap (fun l => match l with Json v => (fun _ => v) <$> v_entry_hash v | _ => None end) ls.
(** A value whose hash and seal are its own. *)
Definition genuine (key : list N) (v : Value) : Prop :=
  v_entry_hash v = Some (value_hash v) /\ default "" (v_hmac v) = mac_hex key (value_hash v).
Fixpoint links (key : list N) (prev : string) (vs : list Value) : Prop :=
  match vs with
  | [] => True
  | v :: vs' => prev_of v = prev /\ genuine key v /\ links key (value_hash v) vs'
  end.

Lemma verify_line_Ok key since idx l p p' : verify_line key since idx l p = Ok p' -> (signed_count p = 0%nat -> expected_prev p = GENESIS) ->
  match signed_values [l] with
  | [] => p' = p
  | v :: _ => prev_of v = expected_prev p /\ genuine key v /\ expected_prev p' = value_hash v /\ signed_count p' = S (signed_count p)
  end.
Proof.
  unfold verify_line, genuine, value_hash. destruct l as [| |v]; [by intros [= <-]|done|].
  unfold signed_values. cbn [omap list_omap]. destruct (v_entry_hash v) as [h|] eqn:Eh; cbn [fmap option_fmap option_map].
  2: { destruct (0 <? signed_count p)%nat; [done|by intros [= <-]]. }
  intros H Hg.
  assert (Hexp : (if (signed_count p =? 0)%nat && String.eqb (prev_of v) GENESIS then GENESIS else expected_prev p) = expected_prev p).
  { destruct (Nat.eqb_spec (signed_count p) 0) as [E|]; [|done]. rewrite (Hg E). by destruct (String.eqb (prev_of v) GENESIS). }
  rewrite Hexp in H. destruct (String.eqb_spec (prev_of v) (expected_prev p)) as [He|]; [|done].
  destruct (String.eqb_spec (entry_hash_of (prev_of v) (ts_of v) (entry_of v)) h) as [Hh|]; [|done]. subst h.
  destruct (String.eqb_spec (mac_hex key (entry_hash_of (prev_of v) (ts_of v) (entry_of v))) (default "" (v_hmac v))) as [Hm|]; [|done].
  injection H as <-. by split_and!.
Qed.

Lemma signed_values_cons l ls : signed_values (l :: ls) = signed_values [l] ++ signed_values ls.
Proof. unfold signed_values. by rewrite <- omap_app. Qed.

Lemma verify_lines_links key since idx ls p p' : verify_lines key since idx ls p = Ok p' -> (signed_count p = 0%nat -> expected_prev p = GENESIS) ->
  links key (expected_prev p) (signed_values ls).
Proof.
  revert idx p. induction ls as [|l ls IH]; intros idx p; [done|]. cbn [verify_lines].
  destruct (verify_line key since idx l p) as [q|] eqn:E; [|done]. cbn [result_bind]. intros H Hg.
  pose proof (verify_line_Ok _ _ _ _ _ _ E Hg) as Hl. rewrite signed_values_cons.
  unfold signed_values in Hl at 1. destruct (signed_values [l]) as [|v vs] eqn:Es; unfold signed_values in Es; rewrite Es in Hl.
  - subst q. by apply (IH (S idx)).
  - destruct Hl as (H1 & H2 & H3 & H4). assert (vs = []) as ->.
    { cbn in Es. destruct l as [| |w]; try done. destruct (v_entry_hash w); [by injection Es as _ <-|done]. }
    cbn [app links]. split_and!; [done|done|]. rewrite <- H3. apply (IH (S idx)); [done|]. intros H0. congruence.
Qed.

Lemma links_lookup key prev vs i v : links key prev vs -> vs !! i = Some v ->
  genuine key v /\ match i with O => prev_of v = prev | S j => exists u, vs !! j = Some u /\ prev_of v = value_hash u end.
Proof.
  revert prev i. induction vs as [|w vs IH]; intros prev i; [done|]. intros (H1 & H2 & H3) Hv. destruct i as [|i].
  - injection Hv as <-. done.
  - cbn in Hv. destruct (IH _ i H3 Hv) as [Hg Hp]. split; [done|]. destruct i as [|i]; [by exists w|done].
Qed.
End Links.

(** ** Messages *)

Lemma pretty_digits (n : N) : Forall (fun c => 48 <= c <= 57) (bytes_of (pretty n)).
Proof.
  assert (Hgo : forall (n : N) s, Forall (fun c => 48 <= c <= 57) (bytes_of s) -> Forall (fun c => 48 <= c <= 57) (bytes_of (pretty_N_go n s))).
  { intros m. induction (N.lt_wf_0 m) as [m _ IH]. intros s Hs. destruct (decide (m = 0)) as [->|Hn]; [by rewrite pretty_N_go_0|].
    rewrite pretty_N_go_step by lia. apply IH; [apply N.div_lt; lia|]. change (bytes_of (String (pretty_N_char (m mod 10)) s)) with
      (Ascii.N_of_ascii (pretty_N_char (m mod 10)) :: bytes_of s). constructor; [|done].
    pose proof (N.mod_lt m 10 ltac:(lia)). unfold pretty_N_char. set (d := m mod 10) in *. clearbody d.
    assert (In d (N.of_nat <$> seq 0 10)) as Hin by (apply list_elem_of_In, list_elem_of_fmap; exists (N.to_nat d); split; [lia|apply elem_of_seq; lia]).
    cbn in Hin. repeat (destruct Hin as [<-|Hin]; [split; by vm_compute|]). done. }
  unfold pretty, pretty_N. destruct (decide (n = 0)); [by repeat constructor|]. apply Hgo. constructor.
Qed.

Definition bar : N := 124.
Lemma bytes_bar a b : bytes_of (a +:+ "|" +:+ b) = bytes_of a ++ bar :: bytes_of b.
Proof. by rewrite !bytes_of_app. Qed.
Lemma pretty_no_bar (n : N) : bar ∉ bytes_of (pretty n).
Proof. intros H. pose proof (pretty_digits n) as Hd. rewrite Forall_forall in Hd. specialize (Hd _ H). unfold bar in Hd. lia. Qed.

(** The part before the first bar of a text. *)
Lemma bar_split a b c d : bar ∉ bytes_of a -> bar ∉ bytes_of c -> a +:+ "|" +:+ b = c +:+ "|" +:+ d -> a = c /\ b = d.
Proof.
  intros Ha Hc H. apply (f_equal bytes_of) in H. rewrite !bytes_bar in H. apply first_part_inj in H as [H1 H2]; [|done|done].
  split; by apply bytes_of_inj.
Qed.

(** A text names its fields when the level and the type hold no bar. *)
Definition plain (e : Entry) : Prop := bar ∉ bytes_of (level e) /\ bar ∉ bytes_of (event_type e).
Lemma message_inj prev prev' ts ts' e e' : bar ∉ bytes_of prev -> bar ∉ bytes_of prev' -> message prev ts e = message prev' ts' e' ->
  prev = prev' /\ ts = ts' /\ (plain e -> plain e' -> e = e').
Proof.
  intros Hp Hp' H. unfold message in H. apply bar_split in H as [-> H]; [|done|done].
  apply bar_split in H as [Hts H]; [|apply pretty_no_bar|apply pretty_no_bar]. apply (inj pretty) in Hts as ->. split_and!; [done|done|].
  destruct e as [l t d p], e' as [l' t' d' p']. intros [Hl Ht] [Hl' Ht']. cbn in *.
  apply bar_split in H as [-> H]; [|done|done]. apply bar_split in H as [-> H]; [|done|done].
  apply (f_equal bytes_of) in H. rewrite !bytes_bar in H.
  assert (Hd : bytes_of (pretty p) = bytes_of (pretty p')) by (apply (last_part_inj bar _ _ _ _ (pretty_no_bar p) (pretty_no_bar p') H)).
  rewrite Hd in H. apply app_inv_tail in H. apply bytes_of_inj in Hd. apply (inj pretty) in Hd as ->. by apply bytes_of_inj in H as ->.
Qed.

Section Tamper.
Context `{C : Crypto} `{!CryptoLaws C}.

Lemma value_hash_hex v : String.length (value_hash v) = 64%nat /\ bar ∉ bytes_of (value_hash v).
Proof.
  unfold value_hash, entry_hash_of. destruct (sha256_bytes (bytes_of (message (prev_of v) (ts_of v) (entry_of v)))) as [Hl Hb]. split.
  - by rewrite hex_length, Hl.
  - intros H. pose proof (hex_alphabet _ Hb) as Ha. rewrite Forall_forall in Ha. specialize (Ha _ H). unfold bar in Ha. lia.
Qed.
Lemma genesis_no_bar : bar ∉ bytes_of GENESIS.
Proof. apply (bool_decide_eq_true_1 _). by vm_compute. Qed.
Lemma genesis_not_hash v : value_hash v <> GENESIS.
Proof. intros H. pose proof (proj1 (value_hash_hex v)) as Hl. rewrite H in Hl. done. Qed.

Lemma links_prev_no_bar key vs i v : links key GENESIS vs -> vs !! i = Some v -> bar ∉ bytes_of (prev_of v).
Proof.
  intros Hl Hv. destruct (links_lookup _ _ _ _ _ Hl Hv) as [_ Hp]. destruct i as [|i]; [rewrite Hp; apply genesis_no_bar|].
  destruct Hp as (u & _ & ->). apply value_hash_hex.
Qed.

Lemma fmap_prefix {A B} (f : A -> B) a b : a `prefix_of` b -> (f <$> a) `prefix_of` (f <$> b).
Proof. intros [k ->]. rewrite fmap_app. by exists (f <$> k). Qed.

Lemma same_fields key cs ws k : links key GENESIS cs -> links key GENESIS ws ->
  value_message <$> cs = value_message <$> take k ws -> Forall (fun v => plain (entry_of v)) (cs ++ ws) ->
  ((fun v => (ts_of v, entry_of v)) <$> cs) = ((fun v => (ts_of v, entry_of v)) <$> take k ws).
Proof.
  intros Hc Hw Hm Hp. rewrite Forall_forall in Hp. apply list_eq. intros i. apply (f_equal (.!! i)) in Hm. rewrite !list_lookup_fmap in *.
  destruct (cs !! i) as [c|] eqn:Ec, (take k ws !! i) as [u|] eqn:Eu; try done. cbn in *. injection Hm as Hm.
  apply lookup_take_Some in Eu as [Eu _].
  destruct (message_inj _ _ _ _ _ _ (links_prev_no_bar _ _ _ _ Hc Ec) (links_prev_no_bar _ _ _ _ Hw Eu) Hm) as (_ & Hts & He).
  rewrite Hts, He; [done| |]; apply Hp, elem_of_app; [left|right]; by eapply list_elem_of_lookup_2.
Qed.

(** No two of the messages share a hash. *)
Definition collision_free (ms : list string) : Prop :=
  forall a b, a ∈ ms -> b ∈ ms -> sha256 (bytes_of a) = sha256 (bytes_of b) -> a = b.

(** Two chains that hold one hash have the same past. *)
Lemma same_past key cs hs i j c h : links key GENESIS cs -> links key GENESIS hs ->
  collision_free (value_message <$> cs ++ hs) -> cs !! i = Some c -> hs !! j = Some h -> value_hash c = value_hash h ->
  value_message <$> take (S i) cs = value_message <$> take (S j) hs.
Proof.
  intros Hc Hh Hcf. revert j c h. induction i as [|i IH]; intros j c h Hci Hhj Heq.
  all: assert (Hm : value_message c = value_message h) by (apply Hcf;
    [apply list_elem_of_fmap_2, elem_of_app; left; by eapply list_elem_of_lookup_2|apply list_elem_of_fmap_2, elem_of_app; right; by eapply list_elem_of_lookup_2|];
    unfold value_hash, entry_hash_of in Heq; apply hex_encode_inj in Heq; [done|apply sha256_bytes..]).
  all: pose proof (message_inj _ _ _ _ _ _ (links_prev_no_bar _ _ _ _ Hc Hci) (links_prev_no_bar _ _ _ _ Hh Hhj) Hm) as (Hp & _ & _).
  all: destruct (links_lookup _ _ _ _ _ Hc Hci) as [_ Hpc]; destruct (links_lookup _ _ _ _ _ Hh Hhj) as [_ Hph].
  - destruct j as [|j].
    + destruct cs, hs; try done. cbn in *. simplify_eq. by rewrite Hm.
    + destruct Hph as (u & _ & Hu). destruct (genesis_not_hash u). congruence.
  - destruct Hpc as (v & Hv & Hpv). destruct j as [|j]; [destruct (genesis_not_hash v); congruence|].
    destruct Hph as (u & Hu & Hpu). assert (value_hash v = value_hash u) as Hvu by congruence.
    pose proof (IH j v u Hv Hu Hvu) as Hpast. rewrite (take_S_r _ _ _ Hci), (take_S_r _ _ _ Hhj), !fmap_app, Hpast. cbn. by rewrite Hm.
Qed.

(** C20. The signed entries of a log that verifies say nothing its writer did not: when every
    seal they carry is one the writer made, in this log or another under the key, and no
    hashes collide, they are the first entries of one of those logs, in order: the texts
    that were hashed, and field by field when levels and types hold no bar (a bar moved
    between two fields leaves the hashed text as it was, [moved_bar_goes_unnoticed]). Lines
    without a hash that come before the first signed entry are not covered: they pass
    unchecked. *)
Theorem verified_log_is_genuine key content n written :
  verify_content key None content = Ok n ->
  Forall (links key GENESIS) written ->
  (forall v, v ∈ signed_values content -> default "" (v_hmac v) = mac_hex key (value_hash v) ->
    exists w u, w ∈ written /\ u ∈ w /\ value_hash u = value_hash v) ->
  collision_free (value_message <$> signed_values content ++ mjoin written) ->
  signed_values content = [] \/ exists w, w ∈ written /\
    (value_message <$> signed_values content) `prefix_of` (value_message <$> w) /\
    (Forall (fun v => plain (entry_of v)) (signed_values content ++ w) ->
     ((fun v => (ts_of v, entry_of v)) <$> signed_values content) `prefix_of` ((fun v => (ts_of v, entry_of v)) <$> w)).
Proof.
  intros Hv Hw Hforge Hcf. set (cs := signed_values content) in *.
  assert (links key GENESIS cs) as Hc.
  { unfold verify_content in Hv. destruct (verify_lines key None 0 content (mkProgress GENESIS 0 0)) as [p|] eqn:E; [|done].
    by apply (verify_lines_links _ _ _ _ _ _ E). }
  destruct (decide (cs = [])) as [->|Hne]; [by left|right]. destruct (exists_last Hne) as (ini & c & Hcs).
  assert (Hlast : cs !! length ini = Some c) by (by rewrite Hcs, list_lookup_middle).
  destruct (links_lookup _ _ _ _ _ Hc Hlast) as [[_ Hmac] _].
  destruct (Hforge c (list_elem_of_lookup_2 _ _ _ Hlast) Hmac) as (w & u & Hww & Hu & Heq). apply list_elem_of_lookup in Hu as [j Hj].
  rewrite Forall_forall in Hw. specialize (Hw w Hww). exists w. split; [done|].
  assert (Hpast : value_message <$> take (S (length ini)) cs = value_message <$> take (S j) w).
  { apply (same_past key cs w (length ini) j c u Hc Hw); [|done|done|done]. intros a b Ha Hb. apply Hcf.
    all: rewrite fmap_app, elem_of_app, !list_elem_of_fmap in *; setoid_rewrite list_elem_of_join; naive_solver. }
  rewrite take_ge in Hpast by (rewrite Hcs, length_app; cbn; lia). split.
  - rewrite Hpast. apply fmap_prefix, prefix_take.
  - intros Hplain. assert (((fun v => (ts_of v, entry_of v)) <$> cs) = ((fun v => (ts_of v, entry_of v)) <$> take (S j) w)) as ->; [|apply fmap_prefix, prefix_take].
    by apply (same_fields key).
Qed.
End Tamper.

(** ** Appending keeps the chain *)

Section Honest.
Context `{C : Crypto} `{!CryptoLaws C} (line_len : Line -> N) (Hlen : forall l, 0 < line_len l) (key : list N).
Notation fields v := (ts_of v, entry_of v).

Lemma links_app prev a b : links key prev (a ++ b) <-> links key prev a /\ links key (default prev (value_hash <$> last a)) b.
Proof.
  revert prev. induction a as [|v a IH]; intros prev; cbn [app links]; [tauto|]. rewrite IH.
  replace (default prev (value_hash <$> last (v :: a))) with (default (value_hash v) (value_hash <$> last a)); [tauto|].
  rewrite last_cons. by destruct (last a).
Qed.

Lemma verify_links idx prev vs m : links key prev vs -> (m = 0%nat -> prev = GENESIS) ->
  verify_lines key None idx (Json <$> vs) (mkProgress prev m m) =
    Ok (mkProgress (default prev (value_hash <$> last vs)) (m + length vs) (m + length vs)).
Proof.
  revert idx prev m. induction vs as [|v vs IH]; intros idx prev m; [by rewrite Nat.add_0_r|]. intros (Hp & [Hh Hm] & Hl) Hg.
  cbn [fmap list_fmap verify_lines verify_line]. rewrite Hh. cbn [signed_count expected_prev matching_count].
  replace (if (m =? 0)%nat && String.eqb (prev_of v) GENESIS then GENESIS else prev) with prev.
  2: { destruct (Nat.eqb_spec m 0) as [E|]; [|done]. rewrite (Hg E). by destruct (String.eqb (prev_of v) GENESIS). }
  rewrite Hp at 1. rewrite String.eqb_refl. cbn [negb]. unfold value_hash at 1. rewrite String.eqb_refl. cbn [negb].
  rewrite Hm, String.eqb_refl. cbn [negb result_bind]. change (list_fmap Value Line Json vs) with (Json <$> vs). rewrite (IH (S idx) (value_hash v) (S m) Hl) by done.
  rewrite last_cons. cbn [length]. replace (m + S (length vs))%nat with (S m + length vs)%nat by lia. by destruct (last vs).
Qed.

(** The log holds the entries written, linked, and its checkpoint is not ahead of it. *)
Definition kept (l : Log) (es : list (N * Entry)) : Prop :=
  match file l with
  | None => es = [] /\ tip l = NoTip
  | Some ls => exists vs, ls = Json <$> vs /\ (fun v => fields v) <$> vs = es /\ links key GENESIS vs /\
      forall h n, tip l = TipAt (Some h) (Some n) -> n <= log_len line_len ls /\ (n = log_len line_len ls -> Some h = value_hash <$> last vs)
  end.

Lemma last_hash_on vs : links key GENESIS vs -> head (omap hash_on (reverse (Json <$> vs))) = value_hash <$> last vs.
Proof.
  destruct vs as [|v vs _] using rev_ind; [done|]. intros Hl. apply links_app in Hl as [_ (_ & [Hh _] & _)].
  rewrite fmap_app, reverse_app, last_snoc. cbn. by rewrite Hh.
Qed.

Lemma last_hash_kept l es : kept l es -> last_hash line_len key l = Ok (match file l with
  | None => GENESIS | Some ls => default GENESIS (head (omap hash_on (reverse ls))) end).
Proof.
  unfold kept, last_hash. destruct (file l) as [ls|]; [|done]. intros (vs & -> & _ & Hl & Ht).
  assert (Hv : verify_content key None (Json <$> vs) = Ok (length vs)) by (unfold verify_content; by rewrite (verify_links 0 GENESIS vs 0 Hl)).
  destruct (tip l) as [|[h|] [n|]]; try by rewrite Hv. destruct (N.eqb_spec n (log_len line_len (Json <$> vs))) as [E|]; [|by rewrite Hv].
  destruct (String.length h =? 64)%nat; [|by rewrite Hv]. cbn [andb]. rewrite (last_hash_on vs Hl).
  destruct (Ht h n eq_refl) as [_ Hh]. by rewrite <- (Hh E).
Qed.

Lemma log_len_snoc ls l : log_len line_len (ls ++ [l]) = log_len line_len ls + line_len l.
Proof. unfold log_len. rewrite fmap_app, sum_of_app. unfold sum_of. cbn. lia. Qed.

Lemma append_kept l es now e io : kept l es -> io <> TornWrite ->
  kept (append_with_key line_len key now e io l).1 (es ++ match io with OpenFails => [] | _ => [(now, e)] end) /\
  match (append_with_key line_len key now e io l).2 with Ok _ => io = AllWell | Err why => why = IoError end.
Proof.
  intros Hk Hio. unfold append_with_key. rewrite (last_hash_kept l es Hk).
  set (prev := match file l with None => _ | Some _ => _ end). set (v := signed_value key now e prev).
  assert (exists vs, default [] (file l) = Json <$> vs /\ (fun v => fields v) <$> vs = es /\ links key GENESIS vs /\
    prev = default GENESIS (value_hash <$> last vs) /\
    forall h n, tip l = TipAt (Some h) (Some n) -> n <= log_len line_len (default [] (file l))) as (vs & Hf & He & Hl & Hp & Ht).
  { unfold kept in Hk. unfold prev. destruct (file l) as [ls|]; [|destruct Hk as [-> ->]; by exists []].
    destruct Hk as (vs & -> & He & Hl & Ht). exists vs. split_and!; try done; [by rewrite last_hash_on|]. intros h n Hn. by apply Ht in Hn as [? _]. }
  assert (value_hash v = entry_hash_of prev now e /\ fields v = (now, e)) as [Hvh Hvf] by (unfold v, value_hash; by destruct e).
  assert (links key GENESIS (vs ++ [v])) as Hl2.
  { apply links_app. split; [done|]. cbn [links]. split_and!; [by rewrite <- Hp| |done]. split; by rewrite Hvh. }
  assert (Hgrow : forall t, (forall h n, t = TipAt (Some h) (Some n) -> n <= log_len line_len (default [] (file l)) \/ 
      (n = log_len line_len (default [] (file l) ++ [Json v]) /\ h = value_hash v)) ->
    kept (mkLog (Some (default [] (file l) ++ [Json v])) t) (es ++ [(now, e)])).
  { intros t Htt. exists (vs ++ [v]). cbn [file tip]. rewrite Hf, fmap_app, fmap_app, He. cbn [fmap list_fmap]. rewrite Hvf. split_and!; try done.
    intros h n Hn. rewrite last_snoc. destruct (Htt h n Hn) as [Hle|[-> ->]]; rewrite ?Hf, ?log_len_snoc in *; pose proof (Hlen (Json v)); (split; [lia|]); [lia|done]. }
  destruct io; try done; (split; [|done]); cbn [fst].
  - by rewrite app_nil_r.
  - apply Hgrow. intros h n Hn. left. by apply (Ht h n).
  - apply Hgrow. intros h n Hn. left. by apply (Ht h n).
  - apply Hgrow. intros h n [= <- <-]. right. by rewrite Hvh.
Qed.

(** The entries an honest run wrote. *)
Definition written_by (ops : list (N * Entry * Io)) : list (N * Entry) :=
  omap (fun op => match op.2 with OpenFails => None | _ => Some op.1 end) ops.

(** However the writes of a log go, short of one that tears a line: what it holds is the
    entries whose write was made, in order, and it verifies; and the next append is taken,
    whatever the checkpoint says. *)
Theorem log_verifies ops : Forall (fun op => op.2 <> TornWrite) ops ->
  let l := appends line_len key ops empty_log in
  (forall now e, exists h, (append_with_key line_len key now e AllWell l).2 = Ok h) /\
  match file l with
  | None => written_by ops = []
  | Some ls => exists vs, ls = Json <$> vs /\ (fun v => fields v) <$> vs = written_by ops /\ verify_chain key l = Ok (length (written_by ops))
  end.
Proof.
  intros Hops. assert (Hkept : forall l es, kept l es -> kept (appends line_len key ops l) (es ++ written_by ops)).
  { induction Hops as [|[[now e] io] ops Hio _ IH]; intros l es Hk; [by rewrite app_nil_r|]. cbn [appends].
    destruct (append_kept l es now e io Hk Hio) as [Hk' _]. apply IH in Hk'. rewrite <- app_assoc in Hk'. by destruct io. }
  specialize (Hkept empty_log [] ltac:(done)). cbn zeta. split.
  { intros now e. destruct (append_kept _ _ now e AllWell Hkept ltac:(done)) as [_ Ha].
    destruct (append_with_key line_len key now e AllWell _) as [l' [h|why]] eqn:E; [by exists h|]. cbn in Ha. subst why.
    unfold append_with_key in E. by destruct (last_hash _ _ _). }
  unfold kept in Hkept. unfold verify_chain. cbn [app] in Hkept.
  destruct (file _) as [ls|]; [|tauto]. destruct Hkept as (vs & -> & He & Hl & _). exists vs. split_and!; [done|done|].
  unfold verify_content. rewrite (verify_links 0 GENESIS vs 0 Hl) by done. cbn. by rewrite <- He, length_fmap.
Qed.
End Honest.

(** ** Witnesses *)

Import ClusterKey.Toy.

Lemma collision_free_NoDup `{C : Crypto} ms ms' : (forall a, a ∈ ms -> a ∈ ms') -> NoDup ((fun m => sha256 (bytes_of m)) <$> ms') -> collision_free ms.
Proof.
  intros Hs Hn a b [i Ha]%Hs%list_elem_of_lookup [j Hb]%Hs%list_elem_of_lookup H.
  assert (i = j) as <-; [|congruence]. apply (NoDup_lookup _ i j (sha256 (bytes_of a)) Hn); rewrite list_lookup_fmap; [by rewrite Ha|by rewrite Hb, H].
Qed.

Definition entry_a : Entry := {| level := "Info"; event_type := "START"; details := "a|b"; pid := 7 |}.
Definition entry_b : Entry := {| level := "Warn"; event_type := "STOP"; details := ""; pid := 7 |}.
Definition unit_len (_ : Line) : N := 1.
(** The checkpoint of the second entry is never written; the last append finds the file anyway. *)
Definition toy_ops : list (N * Entry * Io) := [(5, entry_a, AllWell); (6, entry_b, TipFails); (6, entry_a, OpenFails); (7, entry_a, AllWell)].

Example log_verifies_witness :
  let l := appends unit_len [1; 2] toy_ops empty_log in
  verify_chain [1; 2] l = Ok 3%nat /\ exists ls vs, file l = Some ls /\ ls = Json <$> vs /\ entry_of <$> vs = [entry_a; entry_b; entry_a].
Proof.
  cbn zeta. pose proof (log_verifies unit_len ltac:(intros ?; reflexivity) [1; 2] toy_ops ltac:(repeat constructor; discriminate)) as [_ H].
  cbn zeta in H. destruct (file (appends unit_len [1; 2] toy_ops empty_log)) as [ls|] eqn:E; [|vm_compute in H; discriminate].
  destruct H as (vs & Hls & Hvs & Hv). split; [exact Hv|]. exists ls, vs. split; [reflexivity|]. split; [exact Hls|].
  apply (f_equal (fmap snd)) in Hvs. rewrite <- list_fmap_compose in Hvs. exact Hvs.
Defined.

(** The second line was deleted: what is left verifies, and is the first of the two entries. *)
Definition two_values : list Value :=
  let v := signed_value [1; 2] 5 entry_a GENESIS in [v; signed_value [1; 2] 6 entry_b (value_hash v)].
Example verified_log_is_genuine_witness :
  verify_content [1; 2] None (Json <$> two_values) = Ok 2%nat /\ verify_content [1; 2] None (take 1 (Json <$> two_values)) = Ok 1%nat /\
  exists w, w ∈ [two_values] /\ (value_message <$> signed_values (take 1 (Json <$> two_values))) `prefix_of` (value_message <$> w).
Proof.
  split; [vm_compute; reflexivity|]. assert (verify_content [1; 2] None (take 1 (Json <$> two_values)) = Ok 1%nat) as Hv by (vm_compute; reflexivity).
  split; [exact Hv|].
  destruct (verified_log_is_genuine [1; 2] _ _ [two_values] Hv) as [H|(w & Hw & Hp & _)]; [| | |vm_compute in H; discriminate|exists w; split; [exact Hw|exact Hp]].
  - repeat constructor; vm_compute; reflexivity.
  - intros v Hv' _. exists two_values, v. split; [left|]. split; [|reflexivity]. unfold signed_values in Hv'. cbn in Hv'.
    apply list_elem_of_singleton in Hv' as ->. left.
  - apply (collision_free_NoDup _ (value_message <$> two_values)).
    + intros a (v & -> & [Hin|Hin]%elem_of_app)%list_elem_of_fmap; apply list_elem_of_fmap_2.
      * apply list_elem_of_singleton in Hin as ->. left.
      * exact Hin.
    + apply (bool_decide_eq_true_1 _). vm_compute. reflexivity.
Defined.

(** ** What the model shows besides *)

(** Deleting the last entries leaves a log that verifies, with fewer of them. *)
Lemma deleted_end_goes_unnoticed : forall k, (k <= 2)%nat ->
  verify_content [1; 2] None (take k (Json <$> two_values)) = Ok k.
Proof. intros [|[|[|k]]] Hk; [vm_compute; reflexivity..|lia]. Qed.

(** A bar moved between two fields leaves the text that is hashed as it was, so an entry can be
    given another level, type and details under the same hash and seal. *)
Definition with_fields (v : Value) (l t d : string) : Value :=
  mkValue (v_ts v) (Some l) (Some t) (Some d) (v_pid v) (v_prev_hash v) (v_entry_hash v) (v_hmac v).
Lemma moved_bar_goes_unnoticed `{C : Crypto} key since idx p v l t u d :
  verify_line key since idx (Json (with_fields v l (t +:+ "|" +:+ u) d)) p = verify_line key since idx (Json (with_fields v (l +:+ "|" +:+ t) u d)) p /\
  verify_line key since idx (Json (with_fields v l t (u +:+ "|" +:+ d))) p = verify_line key since idx (Json (with_fields v l (t +:+ "|" +:+ u) d)) p.
Proof.
  unfold verify_line. cbn [v_entry_hash with_fields].
  assert (Hm : forall a b, message (prev_of v) (ts_of v) a = message (prev_of v) (ts_of v) b ->
    entry_hash_of (prev_of v) (ts_of v) a = entry_hash_of (prev_of v) (ts_of v) b) by (intros a b H; unfold entry_hash_of; by rewrite H).
  split; destruct (v_entry_hash v) as [h|]; try done; unfold entry_of, prev_of, ts_of; cbn;
    fold (prev_of v) (ts_of v); (erewrite Hm; [reflexivity|]); unfold message; cbn; by rewrite !append_assoc.
Qed.

(** After a torn write every append is refused, and the log stays as it is. *)
Lemma torn_write_stops_the_log : 
  let l := appends unit_len [1; 2] [(5, entry_a, AllWell); (6, entry_b, TornWrite)] empty_log in
  append_with_key unit_len [1; 2] 7 entry_a AllWell l = (l, Err (Refused (InvalidJson 2))).
Proof. vm_compute. reflexivity. Qed.
