(* ===== verification/AgentTx.v ===== *)
(** * AgentTx: snapshots with rollback
    ([crates/susi-core/src/agent_tx.rs])

    A transaction holds the files of a workspace as they were when it began; an abort writes
    them back.  Each process has its own registry; the journal of a workspace, one file per
    transaction, is shared.  Ids are the numbers in the names [tx-N].  How a path resolves and
    whether a file operation succeeds are arguments; each call is one step. *)

From S2P Require Import Prelude Text.

Local Open Scope string_scope.
Local Open Scope list_scope.
Local Open Scope N_scope.

(** ** Data *)

Inductive TxStatus : Type :=
| Open
| Committed
| Aborted.
Record FileSnapshot : Type := { rel_path : string; content : option string }.
Record AgentTransaction : Type := mkTx {
  tx_id : N;
  workspace : string;
  description : string;
  status : TxStatus;
  files : list FileSnapshot;
  blackboard : gmap string string;
  created_at : N;
  closed_at : option N;
}.
(** [TxManager], one for each process. *)
Record TxManager : Type := mkManager { open : gmap N AgentTransaction; next_id : N }.
Definition TxManager_new : TxManager := mkManager ∅ 1.

Inductive Node : Type :=
| File (text : string)
| Binary
| Directory.
#[export] Instance Node_eq_dec : EqDecision Node.
Proof. solve_decision. Defined.
Notation Fs := (gmap string Node) (only parsing).
(** A file of the journal: claimed, or the transaction written over the claim. *)
Inductive Row : Type :=
| Claimed
| Saved (tx : AgentTransaction).
Notation Journal := (gmap N Row) (only parsing).

Inductive TxError : Type :=
| PathEscape (rel : string)
| SnapshotFails (rel : string)
| NoFreeId
| Io (why : string)
| UnknownTx
| NotOpen
| OtherWorkspace
| RestoreFails (rel : string).

Section Tx.
(** [Path::canonicalize], or the path itself, and [confined_workspace_join] under a canonical
    workspace. *)
Context (canonical : string -> string) (confined_workspace_join : string -> string -> option string).

Definition confined (ws rel : string) : result string TxError :=
  let rel := replace_backslashes rel in
  let rel := strip_all (String.length rel) ["/"] rel in
  if String.eqb rel "" || contains ".." rel then Err (PathEscape rel)
  else match confined_workspace_join (canonical ws) rel with Some path => Ok path | None => Err (PathEscape rel) end.

(** ** Beginning *)

Fixpoint snapshot (fs : Fs) (ws : string) (rels : list string) : result (list FileSnapshot) TxError :=
  match rels with
  | [] => Ok []
  | rel :: rels' =>
      result_bind (confined ws rel) (fun path =>
        match fs !! path with
        | Some Binary => Err (SnapshotFails rel)
        | Some (File text) => result_bind (snapshot fs ws rels') (fun l => Ok ({| rel_path := rel; content := Some text |} :: l))
        | _ => result_bind (snapshot fs ws rels') (fun l => Ok ({| rel_path := rel; content := None |} :: l))
        end)
  end.

(** [reserve_id]: up to [n] claims. *)
Fixpoint reserve_from (n : nat) (journal : Journal) (next : N) : N * option N :=
  match n with
  | O => (next, None)
  | S n' => if bool_decide (journal !! next = None) then (wrapping_add next 1, Some next) else reserve_from n' journal (wrapping_add next 1)
  end.
Definition ATTEMPTS : nat := N.to_nat 10000.

Record World : Type := mkWorld {
  fs : Fs;
  journals : gmap string Journal;
  managers : gmap nat TxManager;
}.
Definition manager (w : World) (p : nat) : TxManager := default TxManager_new (managers w !! p).
Definition journal (w : World) (ws : string) : Journal := default ∅ (journals w !! canonical ws).
Definition set_manager (p : nat) (m : TxManager) (w : World) : World := mkWorld (fs w) (journals w) (<[p := m]> (managers w)).
Definition set_row (ws : string) (i : N) (r : Row) (w : World) : World :=
  mkWorld (fs w) (<[canonical ws := <[i := r]> (journal w ws)]> (journals w)) (managers w).
(** [persist], when the write succeeds. *)
Definition persist (tx : AgentTransaction) (w : World) : World := set_row (workspace tx) (tx_id tx) (Saved tx) w.

(** Which file operations of a call succeed. *)
Record Io_outcome : Type := { claims : bool; persists : bool; replaces : string -> bool; removes : string -> bool }.

Definition begin (p : nat) (ws desc : string) (file_rels : list string) (bb : gmap string string) (now : N) (io : Io_outcome) (w : World) :
    World * result AgentTransaction TxError :=
  match snapshot (fs w) ws file_rels with
  | Err e => (w, Err e)
  | Ok snaps =>
      if negb (claims io) then (w, Err (Io "create"))
      else
        let m := manager w p in
        match reserve_from ATTEMPTS (journal w ws) (next_id m) with
        | (next, None) => (set_manager p (mkManager (open m) next) w, Err NoFreeId)
        | (next, Some i) =>
            let w := set_manager p (mkManager (open m) next) (set_row ws i Claimed w) in
            let tx := mkTx i ws desc Open snaps bb now None in
            if negb (persists io) then (w, Err (Io "persist"))
            else (set_manager p (mkManager (<[i := tx]> (open m)) next) (persist tx w), Ok tx)
        end
  end.

(** ** Closing *)

Definition closed (tx : AgentTransaction) (s : TxStatus) (now : N) : AgentTransaction :=
  mkTx (tx_id tx) (workspace tx) (description tx) s (files tx) (blackboard tx) (created_at tx) (Some now).
(** Status and workspace, which [commit] and [abort] check first. *)
Definition lookup_open (m : TxManager) (i : N) (ws : string) : result AgentTransaction TxError :=
  match open m !! i with
  | None => Err UnknownTx
  | Some tx =>
      match status tx with
      | Open => if String.eqb (canonical (workspace tx)) (canonical ws) then Ok tx else Err OtherWorkspace
      | _ => Err NotOpen
      end
  end.
Definition close (p : nat) (tx : AgentTransaction) (s : TxStatus) (now : N) (io : Io_outcome) (w : World) : World * result AgentTransaction TxError :=
  let m := manager w p in
  let out := closed tx s now in
  let w := set_manager p (mkManager (delete (tx_id tx) (open m)) (next_id m)) w in
  if negb (persists io) then (w, Err (Io "persist")) else (persist out w, Ok out).
Definition commit (p : nat) (i : N) (ws : string) (now : N) (io : Io_outcome) (w : World) : World * result AgentTransaction TxError :=
  match lookup_open (manager w p) i ws with
  | Err e => (w, Err e)
  | Ok tx => close p tx Committed now io w
  end.

(** The files written back, up to the first that fails. *)
Fixpoint restore (io : Io_outcome) (ws : string) (snaps : list FileSnapshot) (f : Fs) : Fs * option TxError :=
  match snaps with
  | [] => (f, None)
  | snap :: snaps' =>
      match confined ws (rel_path snap) with
      | Err e => (f, Some e)
      | Ok path =>
          match content snap with
          | Some text =>
              if replaces io path && negb (bool_decide (f !! path = Some Directory)) then restore io ws snaps' (<[path := File text]> f)
              else (f, Some (RestoreFails (rel_path snap)))
          | None =>
              let f := if bool_decide (f !! path = Some Directory) || negb (removes io path) then f else delete path f in
              restore io ws snaps' f
          end
      end
  end.
Definition set_fs (f : Fs) (w : World) : World := mkWorld f (journals w) (managers w).
Definition abort (p : nat) (i : N) (ws : string) (now : N) (io : Io_outcome) (w : World) : World * result AgentTransaction TxError :=
  match lookup_open (manager w p) i ws with
  | Err e => (w, Err e)
  | Ok tx =>
      match restore io ws (files tx) (fs w) with
      | (f, Some e) => (set_fs f w, Err e)
      | (f, None) => close p tx Aborted now io (set_fs f w)
      end
  end.

(** ** The journal *)

Definition hydrate_row (m : TxManager) (r : Row) : TxManager :=
  match r with
  | Claimed => m
  | Saved tx =>
      mkManager (match status tx with Open => <[tx_id tx := tx]> (open m) | _ => delete (tx_id tx) (open m) end)
        (N.max (next_id m) (tx_id tx + 1))
  end.
Definition hydrate (p : nat) (ws : string) (w : World) : World :=
  set_manager p (fold_left hydrate_row (snd <$> map_to_list (journal w ws)) (manager w p)) w.

(** ** Processes at work *)

Inductive Op : Type :=
| Begin (p : nat) (ws desc : string) (rels : list string) (bb : gmap string string) (now : N) (io : Io_outcome)
| Commit (p : nat) (i : N) (ws : string) (now : N) (io : Io_outcome)
| Abort (p : nat) (i : N) (ws : string) (now : N) (io : Io_outcome)
| Hydrate (p : nat) (ws : string)
| Restart (p : nat)
| Write (path : string) (node : option Node).
Definition run_op (w : World) (o : Op) : World :=
  match o with
  | Begin p ws desc rels bb now io => (begin p ws desc rels bb now io w).1
  | Commit p i ws now io => (commit p i ws now io w).1
  | Abort p i ws now io => (abort p i ws now io w).1
  | Hydrate p ws => hydrate p ws w
  | Restart p => set_manager p TxManager_new w
  | Write path node => set_fs (partial_alter (fun _ => node) path (fs w)) w
  end.
Definition run_ops (ops : list Op) (w : World) : World := fold_left run_op ops w.
End Tx.

(** ** Snapshots are kept *)

Section Kept.
Context (canonical : string -> string) (join : string -> string -> option string).
Notation begin := (begin canonical join).
Notation abort := (abort canonical join).
Notation commit := (commit canonical).
Notation hydrate := (hydrate canonical).
Notation journal := (journal canonical).
Notation run_op := (run_op canonical join).
Notation run_ops := (run_ops canonical join).

(** What no later call may change. *)
Definition same_snapshot (a b : AgentTransaction) : Prop :=
  tx_id a = tx_id b /\ workspace a = workspace b /\ description a = description b /\ files a = files b /\
  blackboard a = blackboard b /\ created_at a = created_at b.

Record sound (w : World) : Prop := {
  rows_sound ws i tx : journal w ws !! i = Some (Saved tx) -> tx_id tx = i /\ canonical (workspace tx) = canonical ws;
  open_sound p i tx : open (manager w p) !! i = Some tx -> tx_id tx = i /\ status tx = Open /\
    exists tx', journal w (workspace tx) !! i = Some (Saved tx') /\ same_snapshot tx tx';
}.
(** Every saved transaction is still there, with its snapshot. *)
Definition grows (w w' : World) : Prop := forall ws i tx, journal w ws !! i = Some (Saved tx) ->
  exists tx', journal w' ws !! i = Some (Saved tx') /\ same_snapshot tx tx'.

Lemma same_refl a : same_snapshot a a.
Proof. done. Qed.
Lemma same_sym a b : same_snapshot a b -> same_snapshot b a.
Proof. unfold same_snapshot. naive_solver. Qed.
Lemma same_trans a b c : same_snapshot a b -> same_snapshot b c -> same_snapshot a c.
Proof. unfold same_snapshot. naive_solver congruence. Qed.
Lemma grows_refl w : grows w w.
Proof. intros ws i tx H. by exists tx. Qed.
Lemma grows_manager p m w : grows w (set_manager p m w).
Proof. intros ws i tx H. by exists tx. Qed.
Lemma grows_trans a b c : grows a b -> grows b c -> grows a c.
Proof. intros H1 H2 ws i tx H. destruct (H1 _ _ _ H) as (t & Ht & Hs). destruct (H2 _ _ _ Ht) as (u & Hu & Hs'). exists u. split; [done|by eapply same_trans]. Qed.

Lemma manager_set p m w q : manager (set_manager p m w) q = if decide (q = p) then m else manager w q.
Proof. unfold manager, set_manager. cbn. destruct (decide (q = p)) as [->|]; [by rewrite lookup_insert_eq|by rewrite lookup_insert_ne]. Qed.
Lemma journal_set_row ws i r w ws' : journal (set_row canonical ws i r w) ws' =
  if decide (canonical ws' = canonical ws) then <[i := r]> (journal w ws) else journal w ws'.
Proof.
  unfold AgentTx.journal, set_row. cbn. destruct (decide (canonical ws' = canonical ws)) as [->|]; [by rewrite lookup_insert_eq|by rewrite lookup_insert_ne].
Qed.
Lemma journal_canonical w ws ws' : canonical ws = canonical ws' -> journal w ws = journal w ws'.
Proof. unfold AgentTx.journal. by intros ->. Qed.

(** A registry all of whose entries are saved. *)
Lemma sound_set_manager p m w : sound w -> (forall i tx, open m !! i = Some tx -> tx_id tx = i /\ status tx = Open /\
    exists tx', journal w (workspace tx) !! i = Some (Saved tx') /\ same_snapshot tx tx') -> sound (set_manager p m w).
Proof.
  intros [H1 H2] Hm. split; [exact H1|]. intros q i tx. rewrite manager_set. destruct (decide (q = p)); [apply Hm|apply H2].
Qed.
Lemma sound_set_fs f w : sound w -> sound (set_fs f w).
Proof. by intros [H1 H2]. Qed.

(** A row is written where there was none, or over the same snapshot. *)
Lemma set_row_grows ws i r w : (forall tx, journal w ws !! i = Some (Saved tx) -> exists tx', r = Saved tx' /\ same_snapshot tx tx') ->
  grows w (set_row canonical ws i r w).
Proof.
  intros Hr ws' j tx Hj. rewrite journal_set_row. destruct (decide (canonical ws' = canonical ws)) as [E|]; [|by exists tx].
  rewrite (journal_canonical w ws' ws E) in Hj. destruct (decide (j = i)) as [->|Hne].
  - destruct (Hr tx Hj) as (tx' & -> & Hs). exists tx'. by rewrite lookup_insert_eq.
  - exists tx. by rewrite lookup_insert_ne.
Qed.

Lemma sound_set_row ws i r w : sound w -> (forall tx, journal w ws !! i = Some (Saved tx) -> exists tx', r = Saved tx' /\ same_snapshot tx tx') ->
  (forall tx, r = Saved tx -> tx_id tx = i /\ canonical (workspace tx) = canonical ws) -> sound (set_row canonical ws i r w).
Proof.
  intros [H1 H2] Hr Hid. pose proof (set_row_grows ws i r w Hr) as Hg. split.
  - intros ws' j tx. rewrite journal_set_row. destruct (decide (canonical ws' = canonical ws)) as [E|]; [|apply H1].
    rewrite E. destruct (decide (j = i)) as [->|Hne]; [rewrite lookup_insert_eq; intros [= ->]; by apply Hid|]. rewrite lookup_insert_ne by done. apply H1.
  - intros p j tx Hj. destruct (H2 p j tx Hj) as (E & Ho & tx' & Htx' & Hs). split_and!; [done|done|].
    destruct (Hg _ _ _ Htx') as (tx'' & Htx'' & Hs'). exists tx''. split; [done|by eapply same_trans].
Qed.

(** *** The calls *)

Lemma reserve_from_free n j next next' i : reserve_from n j next = (next', Some i) -> j !! i = None.
Proof.
  revert next. induction n as [|n IH]; intros next; cbn [reserve_from]; [done|]. destruct (bool_decide _) eqn:E; [|apply IH].
  intros [= _ <-]. by bool_to_prop.
Qed.

Lemma begin_sound p ws desc rels bb now io w : sound w -> let '(w', r) := begin p ws desc rels bb now io w in
  sound w' /\ grows w w' /\ match r with
  | Ok tx => journal w' ws !! tx_id tx = Some (Saved tx) /\ workspace tx = ws /\ snapshot canonical join (fs w) ws rels = Ok (files tx)
  | Err _ => True
  end.
Proof.
  intros Hs. unfold AgentTx.begin. destruct (snapshot _ _ (fs w) ws rels) as [snaps|e]; [|by split_and!; [|apply grows_refl|]].
  destruct (claims io); cbn [negb]; [|by split_and!; [|apply grows_refl|]].
  destruct (reserve_from ATTEMPTS (journal w ws) (next_id (manager w p))) as [next [i|]] eqn:Er.
  2: { split_and!; [|apply grows_manager|done]. apply sound_set_manager; [done|]. cbn. by apply (open_sound w Hs p). }
  apply reserve_from_free in Er. set (w1 := set_row canonical ws i Claimed w).
  assert (sound w1 /\ grows w w1) as [Hs1 Hg1].
  { split; [apply sound_set_row; [done|intros tx Htx; congruence|done]|apply set_row_grows; intros tx Htx; congruence]. }
  set (w2 := set_manager p (mkManager (open (manager w p)) next) w1).
  assert (sound w2) as Hs2 by (apply sound_set_manager; [done|]; cbn; by apply (open_sound w1 Hs1 p)).
  destruct (persists io); cbn [negb]; [|by split_and!; [|exact Hg1|]].
  set (tx := mkTx i ws desc Open snaps bb now None). assert (Hrow : journal w2 ws !! i = Some Claimed).
  { change (journal w1 ws !! i = Some Claimed). unfold w1. rewrite journal_set_row, decide_True by done. apply lookup_insert_eq. }
  assert (Hp : sound (persist canonical tx w2) /\ grows w2 (persist canonical tx w2)).
  { split; [apply sound_set_row|apply set_row_grows]; try done; cbn; intros t Ht; [congruence|by injection Ht as <-|congruence]. }
  destruct Hp as [Hs3 Hg3]. assert (Hin : journal (persist canonical tx w2) ws !! i = Some (Saved tx)).
  { unfold persist. rewrite journal_set_row, decide_True by done. apply lookup_insert_eq. }
  split_and!; [|by eapply grows_trans|done|done|done]. apply sound_set_manager; [done|]. cbn [open]. intros j t Ht.
  apply lookup_insert_Some in Ht as [[<- <-]|[Hne Ht]].
  - split_and!; [done|done|]. exists tx. split; [exact Hin|done].
  - apply (open_sound _ Hs3 p j t). change (open (manager w2 p) !! j = Some t). unfold w2. by rewrite manager_set, decide_True.
Qed.

Lemma lookup_open_Ok m i ws tx : lookup_open canonical m i ws = Ok tx ->
  open m !! i = Some tx /\ status tx = Open /\ canonical (workspace tx) = canonical ws.
Proof.
  unfold lookup_open. destruct (open m !! i) as [t|]; [|done]. destruct (status t) eqn:E; try done.
  destruct (String.eqb_spec (canonical (workspace t)) (canonical ws)); [|done]. by intros [= <-].
Qed.

Lemma close_sound p i tx s now io w : sound w -> open (manager w p) !! i = Some tx -> let '(w', r) := close canonical p tx s now io w in
  sound w' /\ grows w w' /\ fs w' = fs w /\ match r with Ok out => out = closed tx s now | Err _ => True end.
Proof.
  intros Hs Hi. destruct (open_sound w Hs p i tx Hi) as (<- & _ & tx' & Hrow & Hsame). unfold close.
  set (w1 := set_manager p _ w). assert (sound w1) as Hs1.
  { apply sound_set_manager; [done|]. cbn. intros j t Ht. apply lookup_delete_Some in Ht as [_ Ht]. by apply (open_sound w Hs p). }
  destruct (persists io); cbn [negb]; [|by split_and!; [|apply grows_manager|done|]].
  assert (Hover : forall t, journal w1 (workspace (closed tx s now)) !! tx_id (closed tx s now) = Some (Saved t) ->
    exists t', Saved (closed tx s now) = Saved t' /\ same_snapshot t t').
  { intros t Ht. exists (closed tx s now). split; [done|]. assert (t = tx') as -> by (change (journal w (workspace tx) !! tx_id tx = Some (Saved t)) in Ht; congruence).
    by apply same_sym in Hsame. }
  split_and!; [|apply (grows_trans _ w1); [apply grows_manager|by apply (set_row_grows (workspace (closed tx s now)))]|done|done]. apply sound_set_row; [done|done|]. by intros t [= <-].
Qed.

Lemma hydrate_sound p ws w : sound w -> sound (hydrate p ws w).
Proof.
  intros Hs. apply sound_set_manager; [done|]. assert (Hrows : Forall (fun r => forall tx, r = Saved tx -> journal w ws !! tx_id tx = Some (Saved tx)) (snd <$> map_to_list (journal w ws))).
  { apply Forall_forall. intros r ([i r'] & -> & Hin)%list_elem_of_fmap tx Hr. cbn in Hr. subst r'. apply elem_of_map_to_list in Hin.
    destruct (rows_sound w Hs ws i tx Hin) as [-> _]. done. }
  assert (Hm : forall i tx, open (manager w p) !! i = Some tx -> tx_id tx = i /\ status tx = Open /\
    exists tx', journal w (workspace tx) !! i = Some (Saved tx') /\ same_snapshot tx tx') by apply (open_sound w Hs p).
  revert Hm. generalize (manager w p). induction Hrows as [|r rows Hr _ IH]; intros m Hm; [exact Hm|]. cbn [fold_left]. apply IH.
  destruct r as [|tx]; [exact Hm|]. cbn [hydrate_row open]. intros i t Ht. specialize (Hr tx eq_refl).
  destruct (status tx) eqn:E; try (apply lookup_delete_Some in Ht as [_ Ht]; by apply Hm).
  apply lookup_insert_Some in Ht as [[<- <-]|[_ Ht]]; [|by apply Hm]. split_and!; [done|done|]. exists tx. split; [|done].
  by rewrite (journal_canonical w _ ws (proj2 (rows_sound w Hs ws _ tx Hr))).
Qed.

Lemma run_op_sound o w : sound w -> sound (run_op w o) /\ grows w (run_op w o).
Proof.
  intros Hs. destruct o as [p ws desc rels bb now io|p i ws now io|p i ws now io|p ws|p|path node]; cbn [AgentTx.run_op].
  - pose proof (begin_sound p ws desc rels bb now io w Hs) as H. destruct (begin _ _ _ _ _ _ _ _) as [w' r]. tauto.
  - unfold AgentTx.commit. destruct (lookup_open canonical (manager w p) i ws) as [tx|] eqn:E; [|split; [exact Hs|exact (grows_refl w)]].
    apply lookup_open_Ok in E as (E & _ & _). pose proof (close_sound p i tx Committed now io w Hs E) as H.
    destruct (close _ _ _ _ _ _ _) as [w' r]. tauto.
  - unfold AgentTx.abort. destruct (lookup_open canonical (manager w p) i ws) as [tx|] eqn:E; [|split; [done|apply grows_refl]].
    apply lookup_open_Ok in E as (E & _ & _). destruct (restore canonical join io ws (files tx) (fs w)) as [f [e|]]; [split; [by apply sound_set_fs|exact (grows_refl w)]|].
    pose proof (close_sound p i tx Aborted now io (set_fs f w) (sound_set_fs f w Hs) E) as H. destruct (close _ _ _ _ _ _ _) as [w' r]. tauto.
  - split; [by apply hydrate_sound|apply grows_manager].
  - split; [|apply grows_manager]. by apply sound_set_manager.
  - split; [by apply sound_set_fs|exact (grows_refl w)].
Qed.

Lemma run_ops_sound ops w : sound w -> sound (run_ops ops w) /\ grows w (run_ops ops w).
Proof.
  revert w. induction ops as [|o ops IH]; intros w Hs; [split; [done|apply grows_refl]|]. destruct (run_op_sound o w Hs) as [H1 H2].
  destruct (IH _ H1) as [H3 H4]. split; [done|by eapply grows_trans].
Qed.

Lemma empty_sound f : sound (mkWorld f ∅ ∅).
Proof. split; [intros ws i tx|intros p i tx]; by rewrite ?lookup_empty. Qed.

(** *** Writing back *)

Definition is_file (n : option Node) : Prop := match n with Some (File _) | Some Binary => True | _ => False end.
Definition as_was (io : Io_outcome) (expect : string -> option string) (path : string) (f : Fs) : Prop :=
  match expect path with
  | Some text => f !! path = Some (File text)
  | None => removes io path = true -> ~ is_file (f !! path)
  end.

Lemma restore_as_was io ws expect snaps f f' :
  (forall snap path, snap ∈ snaps -> confined canonical join ws (rel_path snap) = Ok path -> content snap = expect path) ->
  restore canonical join io ws snaps f = (f', None) ->
  (forall snap path, snap ∈ snaps -> confined canonical join ws (rel_path snap) = Ok path -> as_was io expect path f') /\
  forall path, as_was io expect path f -> as_was io expect path f'.
Proof.
  revert f. induction snaps as [|snap snaps IH]; intros f Hexp; cbn [restore].
  { intros [= <-]. split; [|done]. intros snap path H. by apply not_elem_of_nil in H. }
  destruct (confined canonical join ws (rel_path snap)) as [path|] eqn:E; [|done].
  pose proof (Hexp snap path ltac:(left) E) as Hc.
  assert (Hstep : forall f1, as_was io expect path f1 -> (forall q, q <> path -> f1 !! q = f !! q) -> restore canonical join io ws snaps f1 = (f', None) ->
    (forall s q, s ∈ snap :: snaps -> confined canonical join ws (rel_path s) = Ok q -> as_was io expect q f') /\
    forall q, as_was io expect q f -> as_was io expect q f').
  { intros f1 H1 Hother Hr. destruct (IH f1 ltac:(intros s q Hs; apply Hexp; by right) Hr) as [Ha Hk]. split.
    - intros s q [->|Hs]%elem_of_cons Hq; [|by apply (Ha s)]. apply Hk. congruence.
    - intros q Hq. apply Hk. destruct (decide (q = path)) as [->|Hne]; [done|]. unfold as_was in *. by rewrite (Hother q Hne). }
  destruct (content snap) as [text|].
  - destruct (replaces io path && _); [|done]. apply Hstep; [unfold as_was; rewrite <- Hc; apply lookup_insert_eq|].
    intros q Hq. by rewrite lookup_insert_ne.
  - destruct (bool_decide _) eqn:Ed; bool_to_prop; cbn [orb].
    + apply Hstep; [|done]. unfold as_was. rewrite <- Hc, Ed. by intros _ [].
    + destruct (removes io path) eqn:Er; cbn [negb]; apply Hstep; try done; unfold as_was; rewrite <- ?Hc.
      * rewrite lookup_delete_eq. by intros _ [].
      * intros q Hq. by rewrite lookup_delete_ne.
      * congruence.
Qed.

Lemma snapshot_expect f ws rels snaps : snapshot canonical join f ws rels = Ok snaps ->
  rel_path <$> snaps = rels /\ forall snap path, snap ∈ snaps -> confined canonical join ws (rel_path snap) = Ok path ->
    content snap = (match f !! path with Some (File text) => Some text | _ => None end) /\ f !! path <> Some Binary.
Proof.
  revert snaps. induction rels as [|rel rels IH]; intros snaps; cbn [snapshot].
  { intros [= <-]. split; [done|]. intros snap path H. by apply not_elem_of_nil in H. }
  destruct (confined canonical join ws rel) as [path|] eqn:E; [|done]. cbn [result_bind].
  destruct (f !! path) as [[text| |]|] eqn:Ef; try done; destruct (snapshot canonical join f ws rels) as [l|]; try done; cbn [result_bind];
    intros [= <-]; destruct (IH l eq_refl) as [<- Hl]; (split; [done|]); intros snap q [->|Hs]%elem_of_cons Hq; try (by apply Hl);
    cbn in *; rewrite E in Hq; injection Hq as <-; rewrite Ef; done.
Qed.

(** C18. From a state these operations lead to ([sound]), an abort that succeeds, in
    whatever process and whatever happened since, writes back what the transaction listed
    when it began: a text file is again what it was, and where there was none there is none,
    unless removing what was created there fails, which the code does not report
    ([created_file_may_stay]). *)
Theorem abort_restores w p ws desc rels bb now io w1 tx ops p' ws' now' io' w3 tx' :
  sound w -> begin p ws desc rels bb now io w = (w1, Ok tx) ->
  abort p' (tx_id tx) ws' now' io' (run_ops ops w1) = (w3, Ok tx') -> canonical ws' = canonical ws ->
  forall rel path, rel ∈ rels -> confined canonical join ws rel = Ok path ->
    match fs w !! path with
    | Some (File text) => fs w3 !! path = Some (File text)
    | _ => removes io' path = true -> ~ is_file (fs w3 !! path)
    end.
Proof.
  intros Hs Hb Ha Hws rel path Hrel Hpath. pose proof (begin_sound p ws desc rels bb now io w Hs) as H. rewrite Hb in H.
  destruct H as (Hs1 & _ & Hrow & Hwtx & Hsnap). destruct (run_ops_sound ops w1 Hs1) as [Hs2 Hg]. set (w2 := run_ops ops w1) in *.
  destruct (Hg _ _ _ Hrow) as (r & Hr & Hsame). unfold AgentTx.abort in Ha.
  destruct (lookup_open canonical (manager w2 p') (tx_id tx) ws') as [t|] eqn:E; [|done]. apply lookup_open_Ok in E as (E & _ & Hc).
  destruct (open_sound w2 Hs2 p' _ t E) as (_ & _ & r' & Hr' & Hsame').
  assert (r' = r) as -> by (rewrite (journal_canonical w2 (workspace t) ws) in Hr' by congruence; congruence).
  assert (Hfiles : files t = files tx) by (unfold same_snapshot in *; destruct Hsame as (_ & _ & _ & -> & _), Hsame' as (_ & _ & _ & -> & _); done).
  rewrite Hfiles in Ha. destruct (restore canonical join io' ws' (files tx) (fs w2)) as [f [e|]] eqn:Er; [done|].
  pose proof (close_sound p' (tx_id tx) t Aborted now' io' (set_fs f w2) (sound_set_fs f w2 Hs2) E) as Hcl. rewrite Ha in Hcl.
  destruct Hcl as (_ & _ & Hfs & _). rewrite Hfs. cbn [fs set_fs].
  assert (Hconf : forall rel, confined canonical join ws' rel = confined canonical join ws rel) by (intros r0; unfold confined; by rewrite Hws).
  destruct (snapshot_expect _ _ _ _ Hsnap) as [Hrels Hexp].
  destruct (restore_as_was io' ws' (fun q => match fs w !! q with Some (File text) => Some text | _ => None end) (files tx) (fs w2) f) as [Hall _]; [|done|].
  { intros snap q Hin Hq. rewrite Hconf in Hq. by apply (Hexp snap q Hin). }
  rewrite <- Hrels in Hrel. apply list_elem_of_fmap in Hrel as (snap & -> & Hin).
  specialize (Hall snap path Hin ltac:(by rewrite Hconf)). unfold as_was in Hall. by destruct (fs w !! path) as [[]|].
Qed.

(** The snapshot of a transaction is never lost or overwritten: whatever any process does,
    the journal keeps it under its id. *)
Theorem snapshot_is_kept f ops more ws i tx :
  journal (run_ops ops (mkWorld f ∅ ∅)) ws !! i = Some (Saved tx) ->
  exists tx', journal (run_ops more (run_ops ops (mkWorld f ∅ ∅))) ws !! i = Some (Saved tx') /\ same_snapshot tx tx'.
Proof.
  intros H. destruct (run_ops_sound ops _ (empty_sound f)) as [Hs _]. by apply (run_ops_sound more _ Hs).
Qed.
End Kept.

(** ** Witnesses *)

Definition plain_join (ws rel : string) : option string := Some (ws +:+ "/" +:+ rel).
Definition itself (ws : string) : string := ws.
Definition all_well : Io_outcome := {| claims := true; persists := true; replaces _ := true; removes _ := true |}.
Definition no_journal : Io_outcome := {| claims := true; persists := false; replaces _ := true; removes _ := true |}.
Definition no_removal : Io_outcome := {| claims := true; persists := true; replaces _ := true; removes _ := false |}.
Definition disk : gmap string Node := {["w/a" := File "v1"]}.
Definition start : World := mkWorld disk ∅ ∅.
Definition step1 := begin itself plain_join 0 "w" "edit" ["a"; "new"] ∅ 5 all_well start.
Definition edits : list Op := [Write "w/a" (Some (File "v2")); Write "w/new" (Some (File "x")); Hydrate 1 "w"].
Definition later : World := run_ops itself plain_join edits step1.1.

(** Another process aborts what the first began. *)
Example abort_restores_witness : 
  fs later !! "w/a" = Some (File "v2") /\ fs (abort itself plain_join 1 1 "w" 9 all_well later).1 !! "w/a" = Some (File "v1") /\
  ~ is_file (fs (abort itself plain_join 1 1 "w" 9 all_well later).1 !! "w/new").
Proof.
  split; [vm_compute; reflexivity|].
  destruct step1 as [w1 [tx|]] eqn:E1; [|vm_compute in E1; discriminate].
  assert (later = run_ops itself plain_join edits w1) as Hl by (unfold later; rewrite E1; reflexivity).
  assert (tx_id tx = 1) as Hid by (apply (f_equal (fun r => match r.2 with Ok t => tx_id t | Err _ => 0 end)) in E1; vm_compute in E1; symmetry; exact E1).
  destruct (abort itself plain_join 1 1 "w" 9 all_well later) as [w3 [tx'|]] eqn:E3.
  2: { apply (f_equal (fun r => match r.2 with Ok _ => true | Err _ => false end)) in E3. vm_compute in E3. discriminate. }
  rewrite Hl in E3. rewrite <- Hid in E3 at 1.
  pose proof (abort_restores itself plain_join start 0 "w" "edit" ["a"; "new"] ∅ 5 all_well w1 tx edits 1 "w" 9 all_well w3 tx'
    (empty_sound itself disk) E1 E3 eq_refl) as H.
  split.
  - exact (H "a" "w/a" ltac:(left) eq_refl).
  - exact (H "new" "w/new" ltac:(right; left) eq_refl eq_refl).
Defined.

Example snapshot_is_kept_witness : exists tx tx',
  journal itself (run_ops itself plain_join [Begin 0 "w" "edit" ["a"] ∅ 5 all_well] start) "w" !! 1 = Some (Saved tx) /\
  journal itself (run_ops itself plain_join [Begin 1 "w" "other" ["a"] ∅ 6 all_well; Abort 0 1 "w" 7 all_well]
    (run_ops itself plain_join [Begin 0 "w" "edit" ["a"] ∅ 5 all_well] start)) "w" !! 1 = Some (Saved tx') /\ files tx' = files tx.
Proof.
  destruct (journal itself (run_ops itself plain_join [Begin 0 "w" "edit" ["a"] ∅ 5 all_well] start) "w" !! 1) as [[|tx]|] eqn:E;
    [vm_compute in E; discriminate| |vm_compute in E; discriminate].
  destruct (snapshot_is_kept itself plain_join disk [Begin 0 "w" "edit" ["a"] ∅ 5 all_well]
    [Begin 1 "w" "other" ["a"] ∅ 6 all_well; Abort 0 1 "w" 7 all_well] "w" 1 tx E) as (tx' & H1 & H2).
  exists tx, tx'. split; [reflexivity|]. split; [exact H1|]. symmetry. exact (proj1 (proj2 (proj2 (proj2 H2)))).
Defined.

(** ** What the model shows besides *)

Definition answer (r : World * result AgentTransaction TxError) : option TxError := match r.2 with Ok _ => None | Err e => Some e end.

(** The registry is keyed by the id alone, and ids are per workspace: reading the journal of one
    workspace drops an open transaction of another. *)
Lemma hydrate_evicts_another_workspace :
  let w := run_ops itself plain_join [Begin 0 "w" "mine" ["a"] ∅ 5 all_well; Begin 1 "v" "theirs" [] ∅ 6 all_well; Commit 1 1 "v" 7 all_well] start in
  answer (abort itself plain_join 0 1 "w" 9 all_well w) = None /\
  answer (abort itself plain_join 0 1 "w" 9 all_well (hydrate itself 0 "v" w)) = Some UnknownTx.
Proof. vm_compute. split; reflexivity. Qed.

(** A process that read the journal before the commit still rolls the work back after it. *)
Lemma stale_process_rolls_back_committed_work :
  let w := run_ops itself plain_join [Begin 0 "w" "edit" ["a"] ∅ 5 all_well; Hydrate 1 "w"; Write "w/a" (Some (File "v2")); Commit 0 1 "w" 7 all_well] start in
  answer (abort itself plain_join 1 1 "w" 9 all_well w) = None /\
  fs (abort itself plain_join 1 1 "w" 9 all_well w).1 !! "w/a" = Some (File "v1").
Proof. vm_compute. split; reflexivity. Qed.

(** An abort whose record cannot be written is reported as failed and forgotten, and stays open on
    disk: the next process rolls back what was written since. *)
Lemma unrecorded_abort_runs_again :
  let r := abort itself plain_join 0 1 "w" 7 no_journal (run_ops itself plain_join [Begin 0 "w" "edit" ["a"] ∅ 5 all_well; Write "w/a" (Some (File "v2"))] start) in
  answer r = Some (Io "persist") /\ answer (abort itself plain_join 0 1 "w" 8 all_well r.1) = Some UnknownTx /\
  let w := run_ops itself plain_join [Write "w/a" (Some (File "v3")); Restart 0; Hydrate 0 "w"; Abort 0 1 "w" 9 all_well] r.1 in
  fs w !! "w/a" = Some (File "v1").
Proof. vm_compute. repeat split. Qed.

(** A created file that cannot be removed stays, and the abort succeeds. *)
Lemma created_file_may_stay :
  let r := abort itself plain_join 0 1 "w" 7 no_removal (run_ops itself plain_join [Begin 0 "w" "edit" ["new"] ∅ 5 all_well; Write "w/new" (Some (File "x"))] start) in
  answer r = None /\ fs r.1 !! "w/new" = Some (File "x").
Proof. vm_compute. split; reflexivity. Qed.
