(* ===== verification/ServiceSupervision.v ===== *)
(** * ServiceSupervision: the long-lived workers of the daemon
    ([crates/susi-daemon/src/service_supervision.rs], [watchdog.rs])

    A thread is named by the closure that built it and by which of its runs it is; a closure
    is the one a registration was given.  What the operating system and the workers do is the
    [World] around a [Supervisor]: the threads started so far, those that ended and how, the
    joins under way, and the registrations.  A call that holds one lock is one step; a join is
    two, since it lets go of the registry while it waits, and so is a supervision round, which
    reads the watchdog first.  [Instant]s are nanoseconds.  The locks recover from poisoning,
    the log lines and the JSON of the report are not modelled. *)

From S2P Require Import Prelude.
From stdpp Require Import pretty.

Local Open Scope string_scope.
Local Open Scope list_scope.
Local Open Scope N_scope.

(** ** The watchdog *)

Record WatchdogManager : Type := mkWatchdog {
  heartbeats : gmap string N;
  timeout : N;
}.
Definition WatchdogManager_new (t : N) : WatchdogManager := mkWatchdog ∅ t.
Definition register_cell (w : WatchdogManager) (cell_id : string) (now : N) : WatchdogManager :=
  mkWatchdog (<[cell_id := now]> (heartbeats w)) (timeout w).
Definition ping (w : WatchdogManager) (cell_id : string) (now : N) : result WatchdogManager string :=
  match heartbeats w !! cell_id with
  | Some _ => Ok (mkWatchdog (<[cell_id := now]> (heartbeats w)) (timeout w))
  | None => Err ("Cell " +:+ cell_id +:+ " is not registered with the watchdog")
  end.
Definition unregister_cell (w : WatchdogManager) (cell_id : string) : WatchdogManager :=
  mkWatchdog (delete cell_id (heartbeats w)) (timeout w).
Definition find_dead_cells (w : WatchdogManager) (now : N) : gset string :=
  dom (filter (fun '(_, last_seen) => timeout w < now - last_seen) (heartbeats w)).

(** ** The registry *)

Definition DONE_VISIBLE_FOR : N := 300 * 1000000000.

Record RestartEvent : Type := mkRestart {
  ev_name : string;
  attempt : N;
}.
Inductive WorkerState : Type :=
| Running
| Hung
| Down
| Done.
Inductive WorkerKind : Type :=
| LongLived
| OneShot.
#[export] Instance kind_eq_dec : EqDecision WorkerKind.
Proof. solve_decision. Defined.

(** A thread: its closure, and which run of it. *)
Notation Thread := (nat * N)%type (only parsing).

Record SupervisedService : Type := mkService {
  name : string;
  kind : WorkerKind;
  healthy : bool;
  done : bool;
  max_restarts : N;
  restarts : N;
  factory : nat;
  handle : option Thread;
  heartbeat_timeout : option N;
  last_heartbeat : N;
  done_since : option N;
}.
Record Supervisor : Type := mkSupervisor {
  services : gmap string SupervisedService;
  log : list RestartEvent;
  watchdog : option WatchdogManager;
}.
Definition Supervisor_new : Supervisor := mkSupervisor ∅ [] None.
Definition with_services (s : Supervisor) (m : gmap string SupervisedService) : Supervisor :=
  mkSupervisor m (log s) (watchdog s).
Definition with_watchdog (s : Supervisor) (f : WatchdogManager -> WatchdogManager) : Supervisor :=
  mkSupervisor (services s) (log s) (f <$> watchdog s).

(** [spawn_for]; [can] is whether the closure still builds a body and the system starts it. *)
Definition spawn_for (svc : SupervisedService) (can : bool) : option Thread :=
  if can then Some (factory svc, restarts svc) else None.

Definition worker_state (svc : SupervisedService) : WorkerState :=
  if done svc then if healthy svc then Done else Down
  else if healthy svc then Running
  else if bool_decide (is_Some (handle svc)) then Hung else Down.

(** [status]: name, health, restarts, budget and state, by name. *)
Definition status (s : Supervisor) : list (string * bool * N * N * WorkerState) :=
  (fun svc => (name svc, healthy svc, restarts svc, max_restarts svc, worker_state svc)) <$> btree_values (services s).

(** ** Registering *)

Definition taken (m : gmap string SupervisedService) (n : string) : bool :=
  match m !! n with Some svc => negb (done svc) | None => false end.
Definition instance_name (n : string) (i : N) : string := n +:+ "#" +:+ pretty i.
Fixpoint free_name (m : gmap string SupervisedService) (n unique : string) (i : N) (fuel : nat) : option string :=
  match fuel with
  | O => None
  | S fuel' => if taken m unique then free_name m n (instance_name n i) (i + 1) fuel' else Some unique
  end.
Definition unique_name (m : gmap string SupervisedService) (n : string) : option string :=
  free_name m n n 2 (S (size m)).

Record WorkerOpts : Type := mkOpts {
  opt_kind : WorkerKind;
  opt_max_restarts : N;
  opt_heartbeat_timeout : option N;
}.
(** The record [register_worker] inserts under [unique] for the closure [f]. *)
Definition new_service (unique : string) (opts : WorkerOpts) (f : nat) (can : bool) (now : N) : SupervisedService :=
  let svc := mkService unique (opt_kind opts) true false (opt_max_restarts opts) 0 f None (opt_heartbeat_timeout opts) now None in
  match spawn_for svc can with
  | Some h => mkService unique (opt_kind opts) true false (opt_max_restarts opts) 0 f (Some h) (opt_heartbeat_timeout opts) now None
  | None => mkService unique (opt_kind opts) false true (opt_max_restarts opts) 0 f None (opt_heartbeat_timeout opts) now (Some now)
  end.
Definition register_worker (s : Supervisor) (n : string) (opts : WorkerOpts) (f : nat) (can : bool) (now : N) : option (Supervisor * string) :=
  unique ← unique_name (services s) n;
  Some (with_watchdog (with_services s (<[unique := new_service unique opts f can now]> (services s)))
          (fun w => register_cell w unique now), unique).

Definition attach_watchdog (s : Supervisor) (w : WatchdogManager) (now : N) : Supervisor :=
  mkSupervisor (services s) (log s) (Some (fold_left (fun w n => register_cell w n now) (btree_entries (services s)).*1 w)).

(** ** Heartbeats, retiring and joining *)

Definition touch (now : N) (svc : SupervisedService) : SupervisedService :=
  mkService (name svc) (kind svc) (healthy svc) (done svc) (max_restarts svc) (restarts svc) (factory svc) (handle svc)
    (heartbeat_timeout svc) now (done_since svc).
Definition retired (h : bool) (now : N) (svc : SupervisedService) : SupervisedService :=
  mkService (name svc) (kind svc) h true (max_restarts svc) (restarts svc) (factory svc) (handle svc)
    (heartbeat_timeout svc) (last_heartbeat svc) (Some now).
Definition with_handle (svc : SupervisedService) (h : option Thread) : SupervisedService :=
  mkService (name svc) (kind svc) (healthy svc) (done svc) (max_restarts svc) (restarts svc) (factory svc) h
    (heartbeat_timeout svc) (last_heartbeat svc) (done_since svc).

Definition heartbeat (s : Supervisor) (n : string) (now : N) : Supervisor :=
  let s := with_watchdog s (fun w => match ping w n now with Ok w' => w' | Err _ => w end) in
  with_services s (alter (touch now) n (services s)).
Definition retire (s : Supervisor) (n : string) (now : N) : Supervisor :=
  let s := with_services s (alter (fun svc => retired (healthy svc) now svc) n (services s)) in
  with_watchdog s (fun w => unregister_cell w n).

(** [join]: the handle is taken under the lock, and the record is settled once the thread has
    ended. *)
Definition take_handle (s : Supervisor) (n : string) : option (Supervisor * Thread) :=
  svc ← services s !! n; h ← handle svc;
  Some (with_services s (<[n := with_handle svc None]> (services s)), h).
Definition joined (s : Supervisor) (n : string) (panicked : bool) (now : N) : Supervisor :=
  with_services s (alter (fun svc =>
    if bool_decide (kind svc = OneShot) && bool_decide (handle svc = None) then retired (negb panicked) now svc else svc)
    n (services s)).

(** ** A supervision round *)

(** What the round does to one worker: its record, the thread it started and the restart it
    logs.  [ended] says which threads have ended, and whether they panicked. *)
Definition visit (dead : gset string) (watchdog_timeout : option N) (now : N) (ended : gmap Thread bool) (can : bool)
    (svc : SupervisedService) : SupervisedService * option RestartEvent :=
  if done svc then (svc, None)
  else match (h ← handle svc; ended !! h) with
  | Some panicked =>
      let restartable := match kind svc with LongLived => true | OneShot => panicked end in
      if restartable && (restarts svc <? max_restarts svc) then
        let svc := mkService (name svc) (kind svc) (healthy svc) (done svc) (max_restarts svc) (restarts svc + 1) (factory svc)
                     None (heartbeat_timeout svc) now (done_since svc) in
        match spawn_for svc can with
        | None => (retired false now svc, None)
        | Some h =>
            (mkService (name svc) (kind svc) true (done svc) (max_restarts svc) (restarts svc) (factory svc) (Some h)
               (heartbeat_timeout svc) (last_heartbeat svc) (done_since svc),
             Some (mkRestart (name svc) (restarts svc)))
        end
      else (retired (bool_decide (kind svc = OneShot) && negb panicked) now (with_handle svc None), None)
  | None =>
      let stale_heartbeat := match heartbeat_timeout svc with Some t => t <? now - last_heartbeat svc | None => false end in
      let dead_cell :=
        match heartbeat_timeout svc, watchdog_timeout with Some own, Some wd => own <=? wd | _, _ => false end
        && bool_decide (name svc ∈ dead) in
      (mkService (name svc) (kind svc) (negb (stale_heartbeat || dead_cell)) (done svc) (max_restarts svc) (restarts svc)
         (factory svc) (handle svc) (heartbeat_timeout svc) (last_heartbeat svc) (done_since svc), None)
  end.

Definition prunable (now : N) (svc : SupervisedService) : bool :=
  bool_decide (kind svc = OneShot) && done svc
  && match done_since svc with Some t => DONE_VISIBLE_FOR <? now - t | None => false end.
Definition retain_visible (now : N) (m : gmap string SupervisedService) : gmap string SupervisedService :=
  filter (fun '(_, svc) => prunable now svc = false) m.

Definition visit_at (dead : gset string) (wt : option N) (now : N) (ended : gmap Thread bool) (can : string -> bool)
    (s : Supervisor) (n : string) : Supervisor :=
  match services s !! n with
  | None => s
  | Some svc =>
      let '(svc', ev) := visit dead wt now ended (can n) svc in
      mkSupervisor (<[n := svc']> (services s)) (log s ++ match ev with Some e => [e] | None => [] end) (watchdog s)
  end.
(** The part of [supervise] under the lock of the registry, and the log it then extends. *)
Definition pass (dead : gset string) (wt : option N) (now : N) (ended : gmap Thread bool) (can : string -> bool) (s : Supervisor) : Supervisor :=
  let m := retain_visible now (services s) in
  fold_left (visit_at dead wt now ended can) (btree_entries m).*1 (with_services s m).
(** What [supervise] reads of the watchdog before it locks the registry. *)
Definition read_watchdog (s : Supervisor) (now : N) : gset string * option N :=
  match watchdog s with
  | Some w => (find_dead_cells w now, Some (timeout w))
  | None => (∅, None)
  end.
Definition supervise (read_at now : N) (ended : gmap Thread bool) (can : string -> bool) (s : Supervisor) : Supervisor :=
  let '(dead, wt) := read_watchdog s read_at in pass dead wt now ended can s.

(** ** The world *)

Record World : Type := mkWorld {
  sup : Supervisor;
  bodies : list (string * N);
  started : list Thread;
  ended : gmap Thread bool;
  joins : list (string * Thread);
}.
Definition World_new : World := mkWorld Supervisor_new [] [] ∅ [].

Inductive Event : Type :=
| Register (n : string) (opts : WorkerOpts) (can : bool) (now : N)
| Attach (w : WatchdogManager) (now : N)
| Beat (n : string) (now : N)
| Retire (n : string) (now : N)
| JoinTakes (n : string)
| JoinReturns (i : nat) (now : N)
| Round (dead : gset string) (watchdog_timeout : option N) (now : N) (can : string -> bool)
| Ends (t : Thread) (panicked : bool).

(** The thread a visit started. *)
Definition launched (old new : option SupervisedService) : list Thread :=
  match new ≫= handle with
  | Some h => if bool_decide (old ≫= handle = Some h) then [] else [h]
  | None => []
  end.
Definition visit_world (dead : gset string) (wt : option N) (now : N) (can : string -> bool) (w : World) (n : string) : World :=
  let s := visit_at dead wt now (ended w) can (sup w) n in
  mkWorld s (bodies w) (started w ++ launched (services (sup w) !! n) (services s !! n)) (ended w) (joins w).
Definition with_sup (w : World) (s : Supervisor) : World := mkWorld s (bodies w) (started w) (ended w) (joins w).

Definition step (w : World) (e : Event) : World :=
  match e with
  | Register n opts can now =>
      match register_worker (sup w) n opts (length (bodies w)) can now with
      | Some (s, unique) =>
          mkWorld s (bodies w ++ [(unique, opt_max_restarts opts)])
            (started w ++ option_list (services s !! unique ≫= handle)) (ended w) (joins w)
      | None => w
      end
  | Attach wd now => with_sup w (attach_watchdog (sup w) wd now)
  | Beat n now => with_sup w (heartbeat (sup w) n now)
  | Retire n now => with_sup w (retire (sup w) n now)
  | JoinTakes n =>
      match take_handle (sup w) n with
      | Some (s, h) => mkWorld s (bodies w) (started w) (ended w) (joins w ++ [(n, h)])
      | None => w
      end
  | JoinReturns i now =>
      match joins w !! i with
      | Some (n, h) =>
          match ended w !! h with
          | Some panicked => mkWorld (joined (sup w) n panicked now) (bodies w) (started w) (ended w) (delete i (joins w))
          | None => w
          end
      | None => w
      end
  | Round dead wt now can =>
      let m := retain_visible now (services (sup w)) in
      fold_left (visit_world dead wt now can) (btree_entries m).*1 (with_sup w (with_services (sup w) m))
  | Ends t panicked =>
      if bool_decide (t ∈ started w) && bool_decide (ended w !! t = None)
      then mkWorld (sup w) (bodies w) (started w) (<[t := panicked]> (ended w)) (joins w) else w
  end.
Definition run_events (es : list Event) : World := fold_left step es World_new.

Definition live (w : World) (t : Thread) : Prop := t ∈ started w /\ ended w !! t = None.
(** The runs of a closure, in order. *)
Definition runs (f : nat) (l : list Thread) : list N := (filter (fun t => t.1 = f) l).*2.
(** The restart a thread is, unless it is the first run of its closure. *)
Definition event_of (bodies : list (string * N)) (t : Thread) : option RestartEvent :=
  if t.2 =? 0 then None else (fun b => mkRestart b.1 t.2) <$> bodies !! t.1.

(** ** Names *)

Fixpoint candidates (n : string) (i : N) (fuel : nat) : list string :=
  match fuel with O => [] | S fuel' => instance_name n i :: candidates n (i + 1) fuel' end.

Lemma instance_name_inj n i j : instance_name n i = instance_name n j -> i = j.
Proof. unfold instance_name. intros H. apply (inj (pretty (A := N))). by apply (inj (String.append n)), (inj (String.append "#")) in H. Qed.
Lemma candidates_elem n i fuel x : x ∈ candidates n i fuel -> exists j, i <= j /\ x = instance_name n j.
Proof.
  revert i. induction fuel as [|fuel IH]; intros i; cbn; [set_solver|].
  intros [->|H]%elem_of_cons; [by exists i|]. destruct (IH _ H) as (j & Hj & ->). exists j. split; [lia|done].
Qed.
Lemma candidates_NoDup n i fuel : NoDup (candidates n i fuel).
Proof.
  revert i. induction fuel as [|fuel IH]; intros i; cbn; constructor; [|done].
  intros (j & Hj & E)%candidates_elem. apply instance_name_inj in E. lia.
Qed.
Lemma instance_name_new n i : instance_name n i <> n.
Proof.
  unfold instance_name. intros H. apply (f_equal (fun s => length (bytes_of s))) in H.
  rewrite !bytes_of_app, !length_app in H. cbn in H. lia.
Qed.

Lemma free_name_Some m n u i fuel x : free_name m n u i fuel = Some x -> taken m x = false.
Proof. revert u i. induction fuel as [|fuel IH]; intros u i; cbn; [done|]. destruct (taken m u) eqn:E; [apply IH|by intros [= <-]]. Qed.
Lemma free_name_None m n u i fuel : free_name m n u i (S fuel) = None ->
  forall x, x ∈ u :: candidates n i fuel -> taken m x = true.
Proof.
  revert u i. induction fuel as [|fuel IH]; intros u i; cbn [free_name]; destruct (taken m u) eqn:E; try done.
  - intros _ x Hx%list_elem_of_singleton. by subst.
  - intros H x [->|Hx]%elem_of_cons; [done|]. by apply (IH _ _ H).
Qed.
Lemma unique_name_total m n : exists u, unique_name m n = Some u /\ taken m u = false.
Proof.
  destruct (unique_name m n) as [u|] eqn:E; [exists u; split; [done|by apply free_name_Some in E]|].
  exfalso. unfold unique_name in E. set (l := n :: candidates n 2 (size m)).
  assert (forall x, x ∈ l -> taken m x = true) as Ht by (by apply free_name_None). 
  assert (NoDup l) as Hl.
  { constructor; [|apply candidates_NoDup]. intros (j & _ & Hj)%candidates_elem. by destruct (instance_name_new n j). }
  assert (list_to_set l ⊆ dom m) as Hs.
  { intros x Hx%elem_of_list_to_set. apply Ht in Hx. unfold taken in Hx. destruct (m !! x) eqn:Em; [|done].
    apply elem_of_dom. by rewrite Em. }
  apply subseteq_size in Hs. rewrite size_list_to_set, size_dom in Hs by done.
  assert (length l = S (size m)); [|lia]. unfold l. cbn. f_equal. generalize 2. clear.
  induction (size m) as [|k IH]; intros i; cbn; [done|]. by rewrite IH.
Qed.

(** ** A round, worker by worker *)

Lemma visit_name dead wt now ended can svc : name (visit dead wt now ended can svc).1 = name svc.
Proof. unfold visit, spawn_for. repeat break_goal; done. Qed.

Lemma fold_visit_lookup dead wt now ended can ks s k : NoDup ks ->
  services (fold_left (visit_at dead wt now ended can) ks s) !! k =
  if bool_decide (k ∈ ks) then (fun svc => (visit dead wt now ended (can k) svc).1) <$> services s !! k else services s !! k.
Proof.
  revert s. induction ks as [|n ks IH]; intros s Hnd; [done|]. apply NoDup_cons in Hnd as [Hn Hks].
  cbn [fold_left]. rewrite IH by done. unfold visit_at at 1 2.
  destruct (decide (k = n)) as [->|Hk].
  - rewrite (bool_decide_false (n ∈ ks)), (bool_decide_true (n ∈ n :: ks)) by (done || left).
    destruct (services s !! n) as [svc|] eqn:E; [|by rewrite E]. destruct (visit _ _ _ _ _ svc) as [svc' ev] eqn:V. cbn.
    by rewrite lookup_insert_eq, V.
  - assert (services (visit_at dead wt now ended can s n) !! k = services s !! k) as Hf.
    { unfold visit_at. destruct (services s !! n) as [svc|]; [|done]. destruct (visit _ _ _ _ _ svc). cbn. by apply lookup_insert_ne. }
    fold (visit_at dead wt now ended can s n). rewrite Hf.
    destruct (decide (k ∈ ks)); [rewrite !bool_decide_true by (done || by right)|rewrite !bool_decide_false by set_solver]; done.
Qed.
Lemma pass_lookup dead wt now ended can s k :
  services (pass dead wt now ended can s) !! k =
  (fun svc => (visit dead wt now ended (can k) svc).1) <$> retain_visible now (services s) !! k.
Proof.
  unfold pass. rewrite fold_visit_lookup by apply btree_entries_NoDup. cbn. case_bool_decide as H; [done|].
  destruct (retain_visible now (services s) !! k) as [svc|] eqn:E; [|done]. destruct H.
  apply list_elem_of_fmap. exists (k, svc). split; [done|]. by apply list_elem_of_In, btree_entries_In.
Qed.
Lemma fold_visit_sup dead wt now can ks w :
  sup (fold_left (visit_world dead wt now can) ks w) = fold_left (visit_at dead wt now (ended w) can) ks (sup w).
Proof. revert w. induction ks as [|k ks IH]; intros w; [done|]. cbn [fold_left]. by rewrite IH. Qed.
Lemma round_sup w dead wt now can : sup (step w (Round dead wt now can)) = pass dead wt now (ended w) can (sup w).
Proof. cbn. by rewrite fold_visit_sup. Qed.

(** ** The invariant *)

Definition upto (n : N) : list N := N.of_nat <$> seq 0 (N.to_nat n).
Lemma upto_succ n : upto (n + 1) = upto n ++ [n].
Proof.
  unfold upto. replace (N.to_nat (n + 1)) with (S (N.to_nat n)) by lia.
  rewrite seq_S, fmap_app. cbn. by rewrite N2Nat.id.
Qed.
Lemma upto_elem n r : r ∈ upto n <-> r < n.
Proof.
  unfold upto. rewrite list_elem_of_fmap. split.
  - intros (i & -> & Hi%elem_of_seq). lia.
  - intros Hr. exists (N.to_nat r). split; [lia|]. apply elem_of_seq. lia.
Qed.
Lemma upto_length n : N.of_nat (length (upto n)) = n.
Proof. unfold upto. rewrite length_fmap, length_seq. lia. Qed.
Lemma upto_inj n m : upto n = upto m -> n = m.
Proof. intros H. by rewrite <- (upto_length n), H, upto_length. Qed.

Lemma runs_snoc f l t : runs f (l ++ [t]) = runs f l ++ (if decide (t.1 = f) then [t.2] else []).
Proof. unfold runs. rewrite filter_app, fmap_app. f_equal. by destruct (decide (t.1 = f)) as [H|H]; [rewrite filter_cons_True|rewrite filter_cons_False]. Qed.
Lemma runs_elem f r l : r ∈ runs f l <-> (f, r) ∈ l.
Proof.
  unfold runs. rewrite list_elem_of_fmap. split.
  - intros ([g q] & -> & [Hg Hl]%list_elem_of_filter). cbn in *. by subst.
  - intros H. exists (f, r). split; [done|]. by apply list_elem_of_filter.
Qed.

Definition allowed (w : World) (f : nat) : N := match bodies w !! f with Some b => b.2 + 1 | None => 0 end.

Record service_inv (w : World) (k : string) (s : SupervisedService) : Prop := {
  si_name : name s = k;
  si_body : bodies w !! factory s = Some (k, max_restarts s);
  si_budget : restarts s <= max_restarts s;
  si_runs : done s = false -> runs (factory s) (started w) = upto (restarts s + 1);
  si_handle : done s = false -> forall h, handle s = Some h -> h = (factory s, restarts s);
}.
Record runs_inv (w : World) (f : nat) : Prop := {
  ri_runs : exists n, runs f (started w) = upto n /\ n <= allowed w f;
  ri_ended : forall r, r + 1 ∈ runs f (started w) -> is_Some (ended w !! (f, r));
}.
Record Inv (w : World) : Prop := {
  inv_service : forall k s, services (sup w) !! k = Some s -> service_inv w k s;
  inv_runs : forall f, runs_inv w f;
  inv_log : log (sup w) = omap (event_of (bodies w)) (started w);
}.

(** What every operation but a restart does to a record. *)
Record tamer (s' s : SupervisedService) : Prop := {
  t_name : name s' = name s;
  t_factory : factory s' = factory s;
  t_max : max_restarts s' = max_restarts s;
  t_budget : restarts s <= max_restarts s -> restarts s' <= max_restarts s';
  t_handle : handle s' = handle s \/ handle s' = None;
  t_open : done s' = false -> done s = false /\ restarts s' = restarts s;
}.
#[export] Instance tamer_refl : Reflexive tamer.
Proof. intros s. split; auto. Qed.

Lemma tamer_inv w w' k s s' : bodies w' = bodies w -> started w' = started w -> tamer s' s ->
  service_inv w k s -> service_inv w' k s'.
Proof.
  intros Hb Hst [] [].
  split; rewrite ?Hb, ?Hst; try congruence; auto.
  - intros Hd. destruct (t_open0 Hd) as [? ->]. rewrite t_factory0. auto.
  - intros Hd h Hh. destruct (t_open0 Hd) as [? ->]. rewrite t_factory0. apply si_handle0; [done|]. destruct t_handle0; congruence.
Qed.
Lemma tamer_world w w' : Inv w -> bodies w' = bodies w -> started w' = started w -> log (sup w') = log (sup w) ->
  ended w ⊆ ended w' ->
  (forall k s', services (sup w') !! k = Some s' -> exists s, services (sup w) !! k = Some s /\ tamer s' s) -> Inv w'.
Proof.
  intros [Hs Hr Hl] Hb Hst Hlog He Ht. split.
  - intros k s' Hk. destruct (Ht k s' Hk) as (s & Hs0 & T). by eapply tamer_inv, Hs.
  - intros f. destruct (Hr f) as [R E]. unfold allowed in R. split; [unfold allowed|]; rewrite Hst, ?Hb; [done|].
    intros r [b Hb']%E. exists b. by eapply lookup_weaken.
  - by rewrite Hlog, Hl, Hb, Hst.
Qed.
Lemma alter_tamer (g : SupervisedService -> SupervisedService) (n : string) (m : gmap string SupervisedService) k s' : (forall s, tamer (g s) s) ->
  alter g n m !! k = Some s' -> exists s, m !! k = Some s /\ tamer s' s.
Proof.
  intros Hg. rewrite lookup_alter. case_decide as E; [|intros H; by exists s'].
  subst k. intros (s & H & ->)%fmap_Some. by exists s.
Qed.

Lemma touch_tamer now s : tamer (touch now s) s.
Proof. by split; auto. Qed.
Lemma retired_tamer h now s : tamer (retired h now s) s.
Proof. by split; auto. Qed.
Lemma with_handle_tamer s : tamer (with_handle s None) s.
Proof. by split; auto. Qed.

(** A visit is tame, or a restart. *)
Lemma visit_cases dead wt now ended can s s' ev : visit dead wt now ended can s = (s', ev) ->
  tamer s' s /\ ev = None \/
  done s = false /\ (exists h, handle s = Some h /\ is_Some (ended !! h)) /\ restarts s < max_restarts s /\
  s' = mkService (name s) (kind s) true false (max_restarts s) (restarts s + 1) (factory s)
         (Some (factory s, restarts s + 1)) (heartbeat_timeout s) now (done_since s) /\
  ev = Some (mkRestart (name s) (restarts s + 1)).
Proof.
  unfold visit, spawn_for. destruct (done s) eqn:D; [intros [= <- <-]; by left|].
  destruct (h ← handle s; ended !! h) as [p|] eqn:E.
  - apply bind_Some in E as (h & Hh & Hp). destruct (_ && _) eqn:R.
    + apply andb_true_iff in R as [_ R%N.ltb_lt]. destruct can; cbn; intros [= <- <-].
      * right. eauto 10.
      * left. split; [|done]. split; cbn; auto; lia || done.
    + intros [= <- <-]. left. split; [|done]. by split; auto.
  - intros [= <- <-]. left. split; [|done]. by split; auto.
Qed.

Lemma event_of_snoc l f r b : event_of (l ++ [b]) (f, r) = if decide (f = length l) then (if r =? 0 then None else Some (mkRestart b.1 r)) else event_of l (f, r).
Proof.
  unfold event_of. cbn. destruct (decide (f = length l)) as [->|Hf].
  - by rewrite lookup_app_r, Nat.sub_diag by lia.
  - destruct (decide (f < length l)%nat); [by rewrite lookup_app_l by lia|].
    by rewrite !lookup_ge_None_2 by (rewrite ?length_app; cbn; lia).
Qed.

Lemma launched_tamer s s' : tamer s' s -> launched (Some s) (Some s') = [].
Proof.
  intros T. unfold launched. cbn. destruct (t_handle _ _ T) as [->| ->]; [|done].
  destruct (handle s) as [h|]; [|done]. by rewrite bool_decide_true.
Qed.

Lemma restart_inv w k s h now : Inv w -> services (sup w) !! k = Some s -> done s = false ->
  handle s = Some h -> is_Some (ended w !! h) -> restarts s < max_restarts s ->
  let s' := mkService (name s) (kind s) true false (max_restarts s) (restarts s + 1) (factory s)
              (Some (factory s, restarts s + 1)) (heartbeat_timeout s) now (done_since s) in
  Inv (mkWorld (mkSupervisor (<[k := s']> (services (sup w))) (log (sup w) ++ [mkRestart (name s) (restarts s + 1)]) (watchdog (sup w)))
         (bodies w) (started w ++ [(factory s, restarts s + 1)]) (ended w) (joins w)).
Proof.
  intros [Hs Hr Hl] Hk Hd Hh He Hlt s'. destruct (Hs k s Hk) as [Hn Hb _ Hruns Hhandle].
  specialize (Hruns Hd). rewrite (Hhandle Hd h Hh) in He.
  assert (runs (factory s) (started w ++ [(factory s, restarts s + 1)]) = upto (restarts s + 1 + 1)) as Hnew.
  { rewrite runs_snoc, decide_True, Hruns by done. by rewrite (upto_succ (restarts s + 1)). }
  split; cbn [sup services log started bodies].
  - intros k' s0. destruct (decide (k' = k)) as [->|Hne].
    + rewrite lookup_insert_eq. intros [= <-]. subst s'. split; cbn [name factory max_restarts restarts done handle bodies started ended]; try done; [lia|by intros _ ? [= <-]].
    + rewrite lookup_insert_ne by done. intros [Hn0 Hb0 Hx Hruns0 Hh0]%Hs. split; cbn [name factory max_restarts restarts done handle bodies started ended]; try done.
      intros Hd0. rewrite runs_snoc, decide_False, app_nil_r by (intros E; cbn in E; congruence). by apply Hruns0.
  - intros f. destruct (decide (factory s = f)) as [<-|Hf].
    + split; cbn [started ended].
      * exists (restarts s + 1 + 1). split; [done|]. unfold allowed. cbn. rewrite Hb. cbn. lia.
      * rewrite Hnew. intros r Hin%upto_elem. destruct (decide (r = restarts s)) as [->|Hr0]; [done|].
        apply (ri_ended _ _ (Hr (factory s))). rewrite Hruns. apply upto_elem. lia.
    + destruct (Hr f) as [R E]. split; cbn [started ended]; rewrite runs_snoc, decide_False, app_nil_r by done; done.
  - rewrite omap_app, Hl. f_equal. cbn. unfold event_of. cbn. rewrite Hb, Hn. cbn.
    destruct (N.eqb_spec (restarts s + 1) 0); [lia|done].
Qed.

Lemma visit_inv dead wt now can w k : Inv w -> Inv (visit_world dead wt now can w k).
Proof.
  intros HI. unfold visit_world, visit_at. destruct (services (sup w) !! k) as [s|] eqn:Hk.
  - destruct (visit dead wt now (ended w) (can k) s) as [s' ev] eqn:V. cbn [services]. rewrite lookup_insert_eq.
    apply visit_cases in V as [[T ->]|(Hd & (h & Hh & He) & Hlt & -> & ->)].
    + rewrite (launched_tamer _ _ T), !app_nil_r. apply (tamer_world w); try done.
      intros k' s0. cbn. destruct (decide (k' = k)) as [->|Hne].
      * rewrite lookup_insert_eq. intros [= <-]. by exists s.
      * rewrite lookup_insert_ne by done. intros H. by exists s0.
    + pose proof (restart_inv w k s h now HI Hk Hd Hh He Hlt) as Hi. unfold launched. cbn.
      rewrite bool_decide_false; [done|]. rewrite Hh, (si_handle _ _ _ (inv_service _ HI _ _ Hk) Hd _ Hh).
      intros [= E]. lia.
  - cbn. rewrite Hk. cbn. rewrite app_nil_r. apply (tamer_world w); try done. intros k' s' H. by exists s'.
Qed.

Lemma started_known w t : Inv w -> t ∈ started w -> (t.1 < length (bodies w))%nat.
Proof.
  intros HI Ht. destruct t as [f r]. apply runs_elem in Ht. destruct (inv_runs _ HI f) as [(n & E & Hn) _].
  rewrite E in Ht. apply upto_elem in Ht. unfold allowed in Hn.
  destruct (bodies w !! f) eqn:B; [by apply lookup_lt_Some in B|lia].
Qed.
Lemma new_runs w : Inv w -> runs (length (bodies w)) (started w) = [].
Proof.
  intros HI. destruct (inv_runs _ HI (length (bodies w))) as [(n & E & Hn) _]. rewrite E.
  unfold allowed in Hn. rewrite lookup_ge_None_2 in Hn by lia. by replace n with 0 by lia.
Qed.
Lemma omap_ext_in {A B} (g h : A -> option B) (l : list A) : (forall x, x ∈ l -> g x = h x) -> omap g l = omap h l.
Proof.
  induction l as [|x l IH]; intros H; [done|]. cbn. rewrite (H x) by left. rewrite IH; [done|]. intros y Hy. apply H. by right.
Qed.

Lemma new_service_shape u opts f can now : new_service u opts f can now =
  mkService u (opt_kind opts) can (negb can) (opt_max_restarts opts) 0 f (if can then Some (f, 0) else None)
    (opt_heartbeat_timeout opts) now (if can then None else Some now).
Proof. by destruct can. Qed.

Lemma register_inv w n opts can now : Inv w -> Inv (step w (Register n opts can now)).
Proof.
  intros HI. unfold step, register_worker. destruct (unique_name_total (services (sup w)) n) as (u & -> & _).
  cbn [mbind option_bind].
  cbn [services with_watchdog with_services]. rewrite lookup_insert_eq, new_service_shape. cbn [mbind option_bind handle].
  set (f := length (bodies w)).
  replace (option_list (if can then Some (f, 0) else None)) with (if can then [(f, 0)] else []) by by destruct can.
  set (l := if can then [(f, 0)] else []).
  assert (forall g, g <> f -> runs g (started w ++ l) = runs g (started w)) as Hold.
  { intros g Hg. unfold l. destruct can; [|by rewrite app_nil_r]. by rewrite runs_snoc, decide_False, app_nil_r by (intros E; cbn in E; congruence). }
  assert (runs f (started w ++ l) = upto (if can then 1 else 0)) as Hnew.
  { unfold l, f. destruct can; [rewrite runs_snoc, decide_True by done|rewrite app_nil_r]; by rewrite new_runs. }
  split; cbn [sup services log started bodies with_watchdog with_services].
  - intros k s. destruct (decide (k = u)) as [->|Hne].
    + rewrite lookup_insert_eq. intros [= <-]. split; cbn [name factory max_restarts restarts done handle bodies started]; try done.
      * by rewrite lookup_app_r, Nat.sub_diag by (unfold f; lia).
      * lia.
      * destruct can; [|done]. intros _. by rewrite Hnew.
      * destruct can; [|done]. by intros _ ? [= <-].
    + rewrite lookup_insert_ne by done. intros [H1 H2 H3 H4 H5]%(inv_service _ HI). split; cbn [name factory max_restarts restarts done handle bodies started ended]; try done.
      * by apply lookup_app_l_Some.
      * intros Hd. rewrite Hold; [by apply H4|]. apply lookup_lt_Some in H2. unfold f. lia.
  - intros g. destruct (decide (g = f)) as [->|Hg].
    + split; cbn [started ended]; rewrite Hnew.
      * eexists. split; [done|]. unfold allowed, f. cbn. rewrite lookup_app_r, Nat.sub_diag by lia. cbn. destruct can; lia.
      * intros r Hr%upto_elem. destruct can; lia.
    + destruct (inv_runs _ HI g) as [(m & R & Hm) E]. split; cbn [started ended]; rewrite Hold by done; [|done].
      exists m. split; [done|]. unfold allowed in *. cbn. destruct (bodies w !! g) as [b|] eqn:B.
      * by rewrite (lookup_app_l_Some _ _ _ _ B).
      * lia.
  - rewrite omap_app, (inv_log _ HI). rewrite <- (app_nil_r (omap _ (started w))) at 1. f_equal.
    + apply omap_ext_in. intros [g r] Hg%(started_known w); [|done]. rewrite event_of_snoc, decide_False; [done|]. cbn in Hg. lia.
    + unfold l. by destruct can.
Qed.

Lemma round_inv w dead wt now can : Inv w -> Inv (step w (Round dead wt now can)).
Proof.
  intros HI. cbn [step]. set (m := retain_visible now (services (sup w))). generalize (btree_entries m).*1 as ks. intros ks.
  assert (Inv (with_sup w (with_services (sup w) m))) as HI'.
  { apply (tamer_world w); try done. intros k s [H _]%map_lookup_filter_Some. by exists s. }
  revert HI'. generalize (with_sup w (with_services (sup w) m)) as v.
  induction ks as [|k ks IH]; intros v Hv; [done|]. cbn [fold_left]. apply IH. by apply visit_inv.
Qed.

Lemma registry_step_inv w e : Inv w -> Inv (step w e).
Proof.
  intros HI. destruct e as [n opts can now|wd now|n now|n now|n|i now|dead wt now can|t p].
  - by apply register_inv.
  - apply (tamer_world w); try done. intros k s Hs. by exists s.
  - apply (tamer_world w); try done. intros k s. apply alter_tamer, touch_tamer.
  - apply (tamer_world w); try done. intros k s. apply alter_tamer. intros s0. apply retired_tamer.
  - cbn. unfold take_handle. destruct (services (sup w) !! n) as [s|] eqn:Hn; [|exact HI]. cbn.
    destruct (handle s) as [h|]; [|exact HI]. apply (tamer_world w); try done. intros k s'. cbn.
    destruct (decide (k = n)) as [->|Hk].
    + rewrite lookup_insert_eq. intros [= <-]. exists s. split; [done|apply with_handle_tamer].
    + rewrite lookup_insert_ne by done. intros H. by exists s'.
  - cbn. destruct (joins w !! i) as [[n h]|]; [|done]. destruct (ended w !! h) as [p|]; [|done].
    apply (tamer_world w); try done. intros k s. apply alter_tamer. intros s0.
    destruct (_ && _); [apply retired_tamer|done].
  - by apply round_inv.
  - cbn. destruct (_ && _) eqn:E; [|done]. bool_to_prop. apply (tamer_world w); try done.
    + by apply insert_subseteq.
    + intros k s Hs. by exists s.
Qed.

Lemma registry_inv es : Inv (run_events es).
Proof.
  unfold run_events. assert (Inv World_new) as HI.
  { split; [done| |done]. intros f. split; [exists 0; split; [done|cbn; lia]|intros r Hr; by apply not_elem_of_nil in Hr]. }
  revert HI. generalize World_new. induction es as [|e es IH]; intros w HI; [done|]. by apply IH, registry_step_inv.
Qed.

(** Only a started thread ends. *)
Lemma fold_visit_ended dead wt now can ks w : ended (fold_left (visit_world dead wt now can) ks w) = ended w.
Proof. revert w. induction ks as [|k ks IH]; intros w; [done|]. cbn [fold_left]. by rewrite IH. Qed.
Lemma fold_visit_started dead wt now can ks w : started w ⊆ started (fold_left (visit_world dead wt now can) ks w).
Proof.
  revert w. induction ks as [|k ks IH]; intros w; [done|]. cbn [fold_left]. rewrite <- IH. cbn. set_solver.
Qed.
Definition ends_started (w : World) : Prop := forall t, is_Some (ended w !! t) -> t ∈ started w.
Lemma ends_started_step w e : ends_started w -> ends_started (step w e).
Proof.
  intros H. destruct e as [n opts can now|wd now|n now|n now|n|i now|dead wt now can|t p]; try exact H.
  - unfold step. destruct (register_worker _ _ _ _ _ _) as [[s u]|]; [|done]. intros t Ht%H. cbn. set_solver.
  - unfold step. destruct (take_handle _ _) as [[s h]|]; done.
  - unfold step. destruct (joins w !! i) as [[n h]|]; [|done]. destruct (ended w !! h); done.
  - unfold step. intros t. rewrite fold_visit_ended. intros Ht%H. by apply fold_visit_started.
  - unfold step. destruct (_ && _) eqn:E; [|done]. bool_to_prop. intros t' [q Hq]. cbn in *.
    apply lookup_insert_Some in Hq as [[<- _]|[_ Hq]]; [done|apply H; by rewrite Hq].
Qed.
Lemma reachable_ends es : ends_started (run_events es).
Proof.
  unfold run_events. assert (ends_started World_new) as H by by intros t [? ?].
  revert H. generalize World_new. induction es as [|e es IH]; intros w H; [done|]. by apply IH, ends_started_step.
Qed.

(** ** What the registry promises *)

(** C30. However calls, joins, rounds and thread exits are interleaved, a registered worker
    never has two live threads: a hung worker is never doubled, and a restart only follows the
    exit of the run before. *)
Theorem one_live_thread_per_worker es t t' :
  live (run_events es) t -> live (run_events es) t' -> t.1 = t'.1 -> t = t'.
Proof.
  destruct t as [f r], t' as [f' r']. cbn. intros [Hin Hl] [Hin' Hl'] ->.
  destruct (inv_runs _ (registry_inv es) f') as [(n & E & _) He].
  apply runs_elem in Hin, Hin'. rewrite E in *. apply upto_elem in Hin, Hin'.
  assert (forall q, q < n -> ended (run_events es) !! (f', q) = None -> q + 1 = n) as Hlast.
  { intros q Hq Hn. destruct (decide (q + 1 = n)); [done|]. destruct (He q) as [b Hb]; [apply upto_elem; lia|congruence]. }
  specialize (Hlast r Hin Hl) as H1. specialize (Hlast r' Hin' Hl') as H2. f_equal. lia.
Qed.

(** The restart log of every reachable registry is exactly the runs after the first, each
    with its number, in the order they were started; and no worker is run more often than its
    budget allows. *)
Theorem restarts_are_logged_and_bounded es :
  let w := run_events es in
  log (sup w) = omap (event_of (bodies w)) (started w) /\
  forall f n budget, bodies w !! f = Some (n, budget) -> N.of_nat (length (runs f (started w))) <= budget + 1.
Proof.
  intros w. split; [apply inv_log, registry_inv|]. intros f n budget Hb.
  destruct (inv_runs _ (registry_inv es) f) as [(m & E & Hm) _]. fold w in E, Hm. unfold allowed in Hm. rewrite Hb in Hm.
  rewrite E, upto_length. exact Hm.
Qed.

(** Registering always finds a name that no worker in service holds, by at most one try
    more than there are records. *)
Theorem registration_finds_a_name s n opts f can now : exists s' unique,
  register_worker s n opts f can now = Some (s', unique) /\ taken (services s) unique = false /\
  services s' !! unique = Some (new_service unique opts f can now) /\
  forall k svc, services s !! k = Some svc -> done svc = false -> services s' !! k = Some svc.
Proof.
  destruct (unique_name_total (services s) n) as (u & E & Hu). unfold register_worker. rewrite E.
  eexists _, u. split; [done|]. split; [done|]. cbn. split; [apply lookup_insert_eq|].
  intros k svc Hk Hd. rewrite lookup_insert_ne; [done|]. intros ->. unfold taken in Hu. rewrite Hk, Hd in Hu. done.
Qed.

(** What a visit makes of a record in service; a round does it to each. *)
Lemma round_lookup w k s dead wt now can : services (sup w) !! k = Some s -> done s = false ->
  services (sup (step w (Round dead wt now can))) !! k = Some (visit dead wt now (ended w) (can k) s).1.
Proof.
  intros Hk Hd. rewrite round_sup, pass_lookup. unfold retain_visible. rewrite (proj2 (map_lookup_filter_Some _ _ _ s)); [done|].
  split; [done|]. unfold prunable. by rewrite Hd, andb_false_r.
Qed.

(** A round settles every worker whose thread has ended: one that may restart (any exit of
    a long-lived worker, a panic of a one-shot), has budget left and can be started runs again,
    in a live thread; a one-shot that returned is done; every other is reported down. *)
Theorem exited_worker_is_settled es k s h panicked dead wt now can :
  let w := run_events es in
  let w' := step w (Round dead wt now can) in
  services (sup w) !! k = Some s -> done s = false -> handle s = Some h -> ended w !! h = Some panicked ->
  exists s', services (sup w') !! k = Some s' /\
    worker_state s' = (if bool_decide (kind s = LongLived) || panicked
                       then if (restarts s <? max_restarts s) && can k then Running else Down
                       else Done) /\
    (worker_state s' = Running -> handle s' = Some (factory s, restarts s + 1) /\ live w' (factory s, restarts s + 1)).
Proof.
  intros w w' Hk Hd Hh He. pose proof (round_lookup w k s dead wt now can Hk Hd) as Hk'. fold w' in Hk'.
  eexists. split; [exact Hk'|].
  pose proof (si_runs _ _ _ (inv_service _ (registry_inv es) _ _ Hk) Hd) as Hruns. fold w in Hruns.
  pose proof (inv_service _ (round_inv w dead wt now can (registry_inv es)) _ _ Hk') as [_ _ _ Hruns' _]. fold w' in Hruns'.
  revert Hruns'. unfold visit. rewrite Hd, Hh. cbn [mbind option_bind]. rewrite He.
  replace (match kind s with LongLived => true | OneShot => panicked end)
    with (bool_decide (kind s = LongLived) || panicked) by by destruct (kind s).
  destruct (bool_decide (kind s = LongLived) || panicked) eqn:R; cbn [andb].
  - destruct (restarts s <? max_restarts s); [|by destruct (kind s), panicked].
    destruct (can k); cbn; [|done]. intros Hruns'. split; [done|]. intros _. split; [done|]. split.
    + apply runs_elem. rewrite Hruns' by done. apply upto_elem. lia.
    + unfold w'. cbn. rewrite fold_visit_ended. cbn. apply eq_None_not_Some. intros Hs%reachable_ends.
      apply runs_elem in Hs. fold w in Hs. rewrite Hruns in Hs. apply upto_elem in Hs. lia.
  - intros _. apply orb_false_iff in R as [R ->]. destruct (kind s); done.
Qed.

(** A round never touches the thread of a worker that still runs: it keeps its handle, no
    thread of it is started, and it is reported hung exactly when it asked for heartbeats and
    was silent for longer than its own bound, or its watchdog cell is dead and its bound is no
    looser than the watchdog's. *)
Theorem live_worker_is_never_doubled es k s h dead wt now can :
  let w := run_events es in
  let w' := step w (Round dead wt now can) in
  services (sup w) !! k = Some s -> done s = false -> handle s = Some h -> ended w !! h = None ->
  exists s', services (sup w') !! k = Some s' /\ handle s' = Some h /\
    runs (factory s) (started w') = runs (factory s) (started w) /\
    (worker_state s' = Hung <->
     exists own, heartbeat_timeout s = Some own /\
       (own < now - last_heartbeat s \/ exists wd, wt = Some wd /\ own <= wd /\ k ∈ dead)) /\
    (worker_state s' <> Hung -> worker_state s' = Running).
Proof.
  intros w w' Hk Hd Hh He. pose proof (round_lookup w k s dead wt now can Hk Hd) as Hk'. fold w' in Hk'.
  eexists. split; [exact Hk'|].
  pose proof (inv_service _ (registry_inv es) _ _ Hk) as [Hn _ _ Hruns _]. fold w in Hruns.
  pose proof (inv_service _ (round_inv w dead wt now can (registry_inv es)) _ _ Hk') as [_ _ _ Hruns' _]. fold w' in Hruns'.
  revert Hruns'. unfold visit. rewrite Hd, Hh. cbn [mbind option_bind]. rewrite He. cbn [fst factory handle restarts done].
  intros Hruns'. split; [done|]. split; [by rewrite Hruns, Hruns' by done|].
  unfold worker_state. cbn [done healthy handle]. rewrite Hn.
  destruct (heartbeat_timeout s) as [own|]; cbn [orb].
  - destruct (N.ltb_spec own (now - last_heartbeat s)) as [Hst|Hst]; cbn.
    + split; [|done]. split; [|done]. intros _. exists own. split; [done|by left].
    + destruct wt as [wd|]; cbn; [|split; [|done]; split; [done|]; intros (? & [= <-] & [?|(? & [=] & _)]); lia].
      destruct (N.leb_spec own wd); cbn; [case_bool_decide; cbn|]; (split; [|done]); split; try done.
      * intros _. exists own. split; [done|]. right. by exists wd.
      * intros (? & [= <-] & [?|(? & [= <-] & _ & ?)]); [lia|done].
      * intros (? & [= <-] & [?|(? & [= <-] & ? & _)]); lia.
  - cbn. split; [|done]. split; [done|]. by intros (? & [=] & _).
Qed.

(** ** Examples *)

Definition every (_ : string) : bool := true.
Definition loop_opts : WorkerOpts := mkOpts LongLived 2 (Some 120).
Definition crashed : list Event :=
  [Register "cell-watcher" loop_opts true 0; Register "cell-watcher" loop_opts true 1; Ends (0%nat, 0) true].

Lemma one_live_thread_per_worker_witness :
  let es := crashed ++ [Round ∅ None 10 every] in
  live (run_events es) (0%nat, 1) /\ (0%nat, 1) = (0%nat, 1).
Proof.
  intros es. assert (live (run_events es) (0%nat, 1)) as H.
  { split; [apply (bool_decide_unpack _); vm_compute; reflexivity|vm_compute; reflexivity]. }
  split; [exact H|]. exact (one_live_thread_per_worker es (0%nat, 1) (0%nat, 1) H H eq_refl).
Defined.
Lemma exited_worker_is_settled_witness : exists s', services (sup (run_events (crashed ++ [Round ∅ None 10 every]))) !! "cell-watcher" = Some s' /\
  worker_state s' = Running /\ handle s' = Some (0%nat, 1).
Proof.
  destruct (exited_worker_is_settled crashed "cell-watcher"
              (mkService "cell-watcher" LongLived true false 2 0 0%nat (Some (0%nat, 0)) (Some 120) 0 None) (0%nat, 0) true ∅ None 10 every
              eq_refl eq_refl eq_refl eq_refl) as (s' & H1 & H2 & H3).
  exists s'. split; [exact H1|]. split; [exact H2|]. exact (proj1 (H3 H2)).
Defined.
Lemma live_worker_is_never_doubled_witness : exists s',
  services (sup (run_events (crashed ++ [Round ∅ None 200 every]))) !! "cell-watcher#2" = Some s' /\
  handle s' = Some (1%nat, 0) /\ worker_state s' = Hung.
Proof.
  destruct (live_worker_is_never_doubled crashed "cell-watcher#2"
              (mkService "cell-watcher#2" LongLived true false 2 0 1%nat (Some (1%nat, 0)) (Some 120) 1 None) (1%nat, 0) ∅ None 200 every
              eq_refl eq_refl eq_refl eq_refl) as (s' & H1 & H2 & _ & H3 & _).
  exists s'. split; [exact H1|]. split; [exact H2|]. apply H3. exists 120. split; [reflexivity|]. left. reflexivity.
Defined.

(** What the status surface says of each worker. *)
Definition states (w : World) : list (string * WorkerState) := (fun '(n, _, _, _, st) => (n, st)) <$> status (sup w).

(** A heartbeat goes to the name in the worker's own code, so the second worker of a name is
    reported hung while it beats, and its beats cover for the first. *)
Lemma twin_beats_for_the_first :
  states (run_events [Register "cell-watcher" loop_opts true 0; Register "cell-watcher" loop_opts true 0;
                      Beat "cell-watcher" 150; Round ∅ None 200 every])
  = [("cell-watcher", Running); ("cell-watcher#2", Hung)].
Proof. vm_compute. reflexivity. Qed.

(** A joined long-lived worker whose thread is gone is reported running, round after round, and
    is not restarted. *)
Lemma joined_long_lived_reads_running :
  let w := run_events [Register "monitor" (mkOpts LongLived 5 None) true 0; JoinTakes "monitor"; Ends (0%nat, 0) false;
                       JoinReturns 0 5; Round ∅ None 10 every; Round ∅ None 20 every] in
  states w = [("monitor", Running)] /\ started w = [(0%nat, 0)] /\ is_Some (ended w !! (0%nat, 0)).
Proof. split; [vm_compute; reflexivity|]. split; [vm_compute; reflexivity|]. exists false. vm_compute. reflexivity. Qed.

(** A one-shot that panics while somebody joins it is down with its restarts unspent; a round
    would have restarted it. *)
Lemma joined_panic_is_not_restarted :
  let es := [Register "providers" (mkOpts OneShot 1 None) true 0; Ends (0%nat, 0) true] in
  states (run_events (es ++ [JoinTakes "providers"; JoinReturns 0 5; Round ∅ None 10 every])) = [("providers", Down)] /\
  states (run_events (es ++ [Round ∅ None 10 every])) = [("providers", Running)].
Proof. split; vm_compute; reflexivity. Qed.

(** A hung worker that is retired on purpose is reported down. *)
Lemma retired_hung_worker_reads_down :
  states (run_events [Register "cell-watcher" loop_opts true 0; Round ∅ None 200 every; Retire "cell-watcher" 210])
  = [("cell-watcher", Down)].
Proof. vm_compute. reflexivity. Qed.

(** The watchdog keeps the cell of a one-shot the registry has pruned, and reports it dead. *)
Lemma pruned_worker_stays_a_dead_cell :
  let w := run_events [Attach (WatchdogManager_new 5) 0; Register "reap:gemi" (mkOpts OneShot 0 None) true 0;
                       Ends (0%nat, 0) false; Round ∅ None 10 every; Round ∅ None (DONE_VISIBLE_FOR + 20) every] in
  states w = [] /\ elements (read_watchdog (sup w) (DONE_VISIBLE_FOR + 20)).1 = ["reap:gemi"].
Proof. split; vm_compute; reflexivity. Qed.

(** The watchdog's verdict alone never marks a server worker, which beats to nobody. *)
Example silent_server_runs :
  states (run_events [Attach (WatchdogManager_new 5) 0; Register "gemi-http" (mkOpts LongLived 5 None) true 0;
                      Round {["gemi-http"]} (Some 5) 1000 every]) = [("gemi-http", Running)].
Proof. vm_compute. reflexivity. Qed.
