(* ===== verification/Redact.v ===== *)
(** * Redact: masking credentials in text ([crates/susi-error/src/redact.rs])

    [str::replace] and [String::truncate] on UTF-8 bytes, and the masking of the values of
    credential variables that error messages and observations go through. *)

From S2P Require Import Prelude Text.
From Stdlib Require Import Ascii String.

Local Open Scope string_scope.

(** ** [str] methods *)

(** [str::replace]: the occurrences of [pat], from the left and disjoint.  A string has at
    most as many of them as bytes. *)
Fixpoint replace_from (fuel : nat) (pat to s : string) : string :=
  match fuel with
  | O => s
  | S fuel' =>
      match strip_prefix pat s with
      | Some rest => to +:+ replace_from fuel' pat to rest
      | None =>
          match s with
          | EmptyString => EmptyString
          | String c s' => String c (replace_from fuel' pat to s')
          end
      end
  end.
Definition replace_all (pat to s : string) : string := replace_from (S (String.length s)) pat to s.

(** [String::truncate], [None] where it panics: the new end lies inside a character. *)
Definition is_continuation (c : ascii) : bool := ((128 <=? nat_of_ascii c) && (nat_of_ascii c <? 192))%nat.
Definition is_char_boundary (n : nat) (s : string) : bool :=
  match String.get n s with Some c => negb (is_continuation c) | None => true end.
Definition truncate (n : nat) (s : string) : option string :=
  if (String.length s <=? n)%nat then Some s
  else if is_char_boundary n s then Some (substring 0 n s) else None.

(** ** Masking *)

Definition ends_with (p s : string) : bool := match strip_suffix p s with Some _ => true | None => false end.
Definition REDACTED : string := "[REDACTED]".
(** Whether the value of a variable is masked. *)
Definition is_credential (var : string * string) : bool :=
  (8 <=? String.length var.2)%nat
  && (ends_with "_API_KEY" var.1 || ends_with "_TOKEN" var.1 || ends_with "_SECRET" var.1).
Definition mask_credentials_from (text : string) (vars : list (string * string)) : string :=
  fold_left (fun result var => if is_credential var then replace_all var.2 REDACTED result else result) vars text.

(** ** What is left of a secret *)

Lemma contains_iff p s : contains p s = true <-> exists a b, s = a +:+ p +:+ b.
Proof.
  split.
  - induction s as [|c s IH]; cbn [contains]; rewrite orb_true_iff; intros [H|H]; try done.
    + apply starts_with_iff in H as [r H]. by exists EmptyString, r.
    + apply starts_with_iff in H as [r H]. by exists EmptyString, r.
    + destruct (IH H) as (a & b & ->). by exists (String c a), b.
  - intros (a & b & ->). induction a as [|c a IH].
    + assert (starts_with p (p +:+ b) = true) as H by (apply starts_with_iff; by exists b).
      change (EmptyString +:+ (p +:+ b)) with (p +:+ b). destruct (p +:+ b) eqn:E; cbn [contains]; by rewrite H.
    + cbn [contains String.append]. rewrite append_cons. cbn [contains]. by rewrite IH, orb_true_r.
Qed.
Lemma contains_prefix p s t : contains p s = true -> contains p (s +:+ t) = true.
Proof. rewrite !contains_iff. intros (a & b & ->). exists a, (b +:+ t). by rewrite !append_assoc. Qed.
Lemma contains_cons p c s : contains p (String c s) = starts_with p (String c s) || contains p s.
Proof. done. Qed.

(** No byte of [p] is the byte [x]. *)
Definition free_of (x : ascii) (p : string) : Prop := forall a b, p <> a +:+ String x b.
Definition bracket_free (p : string) : Prop := free_of "[" p /\ free_of "]" p.
(** A secret that masking hides: not empty, no bracket in it, and not a part of the mask. *)
Record maskable (p : string) : Prop := {
  m_nonempty : p <> EmptyString;
  m_brackets : bracket_free p;
  m_mask : contains p "REDACTED" = false;
}.

Lemma free_of_cons x c p : free_of x (String c p) -> c <> x /\ free_of x p.
Proof.
  intros H. split.
  - intros ->. by apply (H EmptyString p).
  - intros a b ->. by apply (H (String c a) b).
Qed.
Lemma starts_with_cons c p d s : starts_with (String c p) (String d s) = Ascii.eqb c d && starts_with p s.
Proof. unfold starts_with. cbn. by destruct (Ascii.eqb c d). Qed.

(** What a replaced text begins with, unless it is the mask, the text began with. *)
Lemma replace_starts fuel pat q s : bracket_free q -> starts_with q (replace_from fuel pat REDACTED s) = true -> starts_with q s = true.
Proof.
  revert q s. induction fuel as [|fuel IH]; intros q s Hq; cbn [replace_from]; [done|].
  destruct q as [|c q]; [done|]. destruct (free_of_cons _ _ _ (proj1 Hq)) as [Hc H1], (free_of_cons _ _ _ (proj2 Hq)) as [_ H2].
  destruct (strip_prefix pat s) as [rest|].
  - change (REDACTED +:+ ?x) with (String "[" ("REDACTED]" +:+ x)). rewrite starts_with_cons.
    intros [E%Ascii.eqb_eq _]%andb_true_iff. done.
  - destruct s as [|d s]; [done|]. rewrite !starts_with_cons. intros [E H]%andb_true_iff. rewrite E. by apply IH.
Qed.

(** A bracket-free text that begins inside a text that a bracket ends, ends there too. *)
Lemma starts_before_bracket q w t : bracket_free q -> q <> EmptyString -> starts_with q (w +:+ String "]" t) = true -> starts_with q w = true.
Proof.
  intros Hq. revert q Hq. induction w as [|c w IH]; intros [|d q] Hq Hne; try done.
  - destruct (free_of_cons _ _ _ (proj2 Hq)) as [Hd _]. change (EmptyString +:+ ?x) with x.
    rewrite starts_with_cons. intros [E%Ascii.eqb_eq _]%andb_true_iff. done.
  - destruct (free_of_cons _ _ _ (proj1 Hq)) as [_ H1], (free_of_cons _ _ _ (proj2 Hq)) as [_ H2].
    rewrite append_cons, !starts_with_cons. intros [E H]%andb_true_iff. rewrite E. destruct q as [|e q]; [done|].
    by apply IH.
Qed.
Lemma contains_in_mask p w t : bracket_free p -> p <> EmptyString -> contains p w = false -> contains p t = false ->
  contains p (w +:+ String "]" t) = false.
Proof.
  intros Hp Hne Hw Ht. induction w as [|c w IH].
  - change (EmptyString +:+ ?x) with x. rewrite contains_cons, Ht, orb_false_r.
    destruct (starts_with p (String "]" t)) eqn:E; [|done].
    change (String "]" t) with (EmptyString +:+ String "]" t) in E. apply starts_before_bracket in E; [|done..].
    by destruct p.
  - rewrite contains_cons in Hw. apply orb_false_iff in Hw as [H1 H2]. rewrite append_cons, contains_cons, IH, orb_false_r by done.
    destruct (starts_with p (String c (w +:+ String "]" t))) eqn:E; [|done].
    rewrite <- append_cons in E. apply starts_before_bracket in E; [|done..]. congruence.
Qed.

Lemma replace_hides_from fuel p s : maskable p -> (String.length s < fuel)%nat -> contains p (replace_from fuel p REDACTED s) = false.
Proof.
  intros [Hne Hb Hm]. revert s. induction fuel as [|fuel IH]; intros s Hlen; [lia|]. cbn [replace_from].
  destruct (strip_prefix p s) as [rest|] eqn:E.
  - apply strip_prefix_Some in E as ->.
    assert (contains p (replace_from fuel p REDACTED rest) = false) as Hr.
    { apply IH. destruct p as [|c p]; [done|]. clear -Hlen. rewrite append_cons in Hlen. cbn in Hlen.
      assert (String.length rest <= String.length (p +:+ rest))%nat; [|lia]. clear. induction p; [done|]. rewrite append_cons. cbn. lia. }
    change (REDACTED +:+ ?x) with (String "[" ("REDACTED" +:+ String "]" x)). rewrite contains_cons.
    rewrite contains_in_mask by done. rewrite orb_false_r. destruct p as [|c p]; [done|].
    destruct (free_of_cons _ _ _ (proj1 Hb)) as [Hc _]. rewrite starts_with_cons. by destruct (Ascii.eqb_spec c "[").
  - destruct s as [|d s]; [by destruct p|]. rewrite contains_cons, IH by (cbn in Hlen; lia). rewrite orb_false_r.
    destruct (starts_with p (String d (replace_from fuel p REDACTED s))) eqn:Es; [|done]. exfalso.
    assert (starts_with p (String d s) = true) as Hs.
    { destruct p as [|c p]; [done|]. rewrite !starts_with_cons in *. apply andb_true_iff in Es as [Ec Es]. rewrite Ec.
      apply replace_starts in Es; [done|]. split; [apply (free_of_cons _ _ _ (proj1 Hb))|apply (free_of_cons _ _ _ (proj2 Hb))]. }
    unfold starts_with in Hs. by rewrite E in Hs.
Qed.
(** Replacing a maskable text leaves none of it. *)
Lemma replace_hides p s : maskable p -> contains p (replace_all p REDACTED s) = false.
Proof. intros Hp. apply replace_hides_from; [done|lia]. Qed.

Lemma substring_prefix n s : exists t, s = substring 0 n s +:+ t.
Proof.
  revert s. induction n as [|n IH]; intros [|c s]; cbn; [by exists EmptyString|by exists (String c s)|by exists EmptyString|].
  destruct (IH s) as [t Ht]. exists t. rewrite append_cons. by rewrite <- Ht.
Qed.
Lemma truncate_hides p n s t : truncate n s = Some t -> contains p s = false -> contains p t = false.
Proof.
  unfold truncate. destruct (_ <=? _)%nat; [by intros [= ->]|]. destruct (is_char_boundary n s); [|done]. intros [= <-] H.
  destruct (substring_prefix n s) as [r Hr]. destruct (contains p (substring 0 n s)) eqn:E; [|done].
  apply (contains_prefix _ _ r) in E. congruence.
Qed.

Example replace_example : replace_all "aa" "b" "aaaca" = "baca".
Proof. reflexivity. Qed.
Example mask_example : mask_credentials_from "key=sk-live-99 " [("OPENAI_API_KEY", "sk-live-99")] = "key=[REDACTED] ".
Proof. reflexivity. Qed.
