(* ===== verification/CloudEligibility.v ===== *)
(** * CloudEligibility: what provider evidence says about a credential and a model
    ([crates/susi-vendor-models/src/cloud_eligibility.rs])

    SHA-256 and its hexadecimal form are a parameter, [sha_hex]; the environment whose
    credentials are masked is an argument.  Times are Unix seconds, and additions to them
    wrap as in a release build.  An operation that panics is [None]. *)

From S2P Require Import Prelude Text Redact.

Local Open Scope string_scope.
Local Open Scope list_scope.
Local Open Scope N_scope.

Inductive EligibilityKind : Type :=
| Usable
| Unknown
| InvalidCredential
| InsufficientCredit
| QuotaExhausted
| RateLimited
| ServiceUnavailable
| AccessDenied
| UnsupportedRequest.
#[export] Instance eligibility_kind_eq_dec : EqDecision EligibilityKind.
Proof. solve_decision. Defined.

Inductive ScopeLevel : Type :=
| Credential
| Account
| Model
| Region.
#[export] Instance scope_level_eq_dec : EqDecision ScopeLevel.
Proof. solve_decision. Defined.

Inductive Provenance : Type :=
| Inference
| Probe
| Manual.
#[export] Instance provenance_eq_dec : EqDecision Provenance.
Proof. solve_decision. Defined.

Record Observation : Type := mkObservation {
  o_kind : EligibilityKind;
  o_level : ScopeLevel;
  o_provider : string;
  o_credential : string;
  o_account : string;
  o_model : string;
  o_region : string;
  o_reason : string;
  observed_unix : N;
  expires_unix : option N;
  provenance : Provenance;
}.

Inductive InferenceResult : Type :=
| Success
| Failed (status : option N) (body_snippet : string) (retry_after_secs : option N).

Record Subject : Type := mkSubject {
  s_provider : string;
  api_key : string;
  s_account : option string;
  s_region : option string;
  s_model : string;
}.
Record Verdict : Type := mkVerdict {
  v_kind : EligibilityKind;
  v_reason : string;
  v_observed : N;
}.

Definition REASON_CAP : nat := 240.
Definition DEFAULT_CAP : nat := 4096.
Definition USABLE_TTL_SECS : N := 3600.
Definition RATE_LIMIT_TTL_SECS : N := 300.
Definition UNAVAILABLE_TTL_SECS : N := 900.
Definition QUOTA_TTL_SECS : N := 86400.

Definition level_tag (level : ScopeLevel) : string :=
  match level with Credential => "cred" | Account => "acct" | Model => "model" | Region => "region" end.
Definition key_of (o : Observation) : string :=
  o_provider o +:+ "|" +:+ level_tag (o_level o) +:+ "|" +:+ o_credential o +:+ "|" +:+ o_account o +:+ "|"
  +:+ o_model o +:+ "|" +:+ o_region o.

(** ** Classification *)

Definition says (b : string) (needles : list string) : bool := existsb (fun n => contains n b) needles.
Definition classify_failure (status : option N) (body : string) : EligibilityKind * ScopeLevel :=
  let b := to_ascii_lowercase body in
  if says b ["insufficient_quota"; "exceeded your current quota"; "quota exhausted"; "usage limit"]
  then (QuotaExhausted, Account)
  else if says b ["insufficient credit"; "credit balance"; "billing"; "payment required"; "out of credits"]
  then (InsufficientCredit, Account)
  else if says b ["does not have access"; "no access to"; "model_not_found"] && says b ["model"]
  then (AccessDenied, Model)
  else match status with
  | Some s =>
      if s =? 401 then (InvalidCredential, Credential)
      else if s =? 402 then (InsufficientCredit, Account)
      else if s =? 403 then (InvalidCredential, Credential)
      else if s =? 429 then (RateLimited, Credential)
      else if (s =? 400) || (s =? 404) || (s =? 422) then (UnsupportedRequest, Model)
      else if 500 <=? s then (ServiceUnavailable, Region)
      else (Unknown, Credential)
  | None => (ServiceUnavailable, Region)
  end.

(** ** The store *)

Record EligibilityStore : Type := mkStore {
  observations : gmap string Observation;
  cap : nat;
  usable_ttl_secs : N;
}.
Definition EligibilityStore_new : EligibilityStore := mkStore ∅ DEFAULT_CAP USABLE_TTL_SECS.
Definition with_capacity (c : nat) : EligibilityStore := mkStore ∅ (Nat.max c 1) USABLE_TTL_SECS.
Definition with_observations (s : EligibilityStore) (m : gmap string Observation) : EligibilityStore :=
  mkStore m (cap s) (usable_ttl_secs s).

(** [iter().min_by_key]: the first of the least. *)
Fixpoint first_min_from {A} (k : A -> N) (best : A) (l : list A) : A :=
  match l with
  | [] => best
  | x :: l' => first_min_from k (if k x <? k best then x else best) l'
  end.
Definition first_min_by {A} (k : A -> N) (l : list A) : option A :=
  match l with [] => None | x :: l' => Some (first_min_from k x l') end.

Definition live (now : N) (o : Observation) : bool := match expires_unix o with Some e => now <? e | None => true end.
Fixpoint evict_oldest (fuel : nat) (c : nat) (m : gmap string Observation) : gmap string Observation :=
  match fuel with
  | O => m
  | S fuel' =>
      if (c <? size m)%nat then
        match first_min_by (fun '(_, o) => observed_unix o) (btree_entries m) with
        | Some (k, _) => evict_oldest fuel' c (delete k m)
        | None => m
        end
      else m
  end.
Definition evict (s : EligibilityStore) (now : N) : EligibilityStore :=
  let m := filter (fun '(_, o) => live now o = true) (observations s) in
  with_observations s (evict_oldest (size m) (cap s) m).
Definition prune (s : EligibilityStore) (now : N) : EligibilityStore := evict s now.

(** What is stored of a reason. *)
Definition redacted (env : list (string * string)) (secret : option string) (reason : string) : option string :=
  let reason := mask_credentials_from reason env in
  let reason := match secret with
                | Some k => if bool_decide (k = "") then reason else replace_all k REDACTED reason
                | None => reason
                end in
  truncate REASON_CAP reason.
Definition with_reason (o : Observation) (r : string) : Observation :=
  mkObservation (o_kind o) (o_level o) (o_provider o) (o_credential o) (o_account o) (o_model o) (o_region o) r
    (observed_unix o) (expires_unix o) (provenance o).
(** [record], at wall clock [wall]. *)
Definition record (s : EligibilityStore) (o : Observation) (secret : option string) (env : list (string * string)) (wall : N) :
    option EligibilityStore :=
  r ← redacted env secret (o_reason o);
  let o := with_reason o r in
  let s := with_observations s (<[key_of o := o]> (observations s)) in
  Some (if (cap s <? size (observations s))%nat then evict s wall else s).

Section Credentials.
Context (sha_hex : string -> string).

Definition credential_fingerprint (key : string) : string := if bool_decide (key = "") then "" else sha_hex key.
Definition account_of (s : Subject) : string := default "" (s_account s).
Definition region_of (s : Subject) : string := default "" (s_region s).
Definition fp_of (s : Subject) : string := credential_fingerprint (api_key s).

(** The observation an attempt's outcome is recorded as. *)
Definition observe_inference (ttl : N) (s : Subject) (r : InferenceResult) (now : N) : Observation :=
  match r with
  | Success =>
      mkObservation Usable Model (s_provider s) (fp_of s) (account_of s) (s_model s) (region_of s)
        "authenticated inference succeeded" now (Some (wrapping_add now ttl)) Inference
  | Failed status body_snippet retry_after_secs =>
      let '(kind, level) := classify_failure status body_snippet in
      let credential :=
        match level with
        | Model => if bool_decide (kind = UnsupportedRequest) then "*" else fp_of s
        | Region => "*"
        | Credential | Account => fp_of s
        end in
      let expires :=
        match kind with
        | RateLimited => Some (wrapping_add now (default RATE_LIMIT_TTL_SECS retry_after_secs))
        | ServiceUnavailable => Some (wrapping_add now UNAVAILABLE_TTL_SECS)
        | QuotaExhausted | InsufficientCredit => Some (wrapping_add now QUOTA_TTL_SECS)
        | _ => None
        end in
      mkObservation kind level (s_provider s) credential (account_of s) (s_model s) (region_of s) body_snippet now expires Inference
  end.
Definition record_inference (st : EligibilityStore) (s : Subject) (r : InferenceResult) (now : N)
    (env : list (string * string)) (wall : N) : option EligibilityStore :=
  record st (observe_inference (usable_ttl_secs st) s r now) (Some (api_key s)) env wall.

(** [record_probe] reads the clock for each of its times; one reading stands for them. *)
Definition observe_probe (provider key : string) (status : option N) (detail : string) (now : N) : option Observation :=
  let '(kind, level) := classify_failure status detail in
  if bool_decide (kind = Unknown) then None
  else Some (mkObservation kind level provider (if bool_decide (level = Region) then "*" else credential_fingerprint key) "" "" "" detail now
         match kind with
         | RateLimited => Some (wrapping_add now RATE_LIMIT_TTL_SECS)
         | ServiceUnavailable => Some (wrapping_add now UNAVAILABLE_TTL_SECS)
         | QuotaExhausted | InsufficientCredit => Some (wrapping_add now QUOTA_TTL_SECS)
         | _ => None
         end Probe).
Definition record_probe (st : EligibilityStore) (provider key : string) (status : option N) (detail : string) (now : N)
    (env : list (string * string)) (wall : N) : option EligibilityStore :=
  match observe_probe provider key status detail now with
  | None => Some st
  | Some o => record st o (Some key) env wall
  end.

(** ** Resolution *)

Definition same_provider (o : Observation) (s : Subject) : bool :=
  String.eqb (to_ascii_lowercase (o_provider o)) (to_ascii_lowercase (s_provider s)).
Definition candidates (st : EligibilityStore) (s : Subject) (now : N) : list Observation :=
  List.filter (fun o => same_provider o s && live now o) (btree_values (observations st)).
Definition verdict_of (o : Observation) : Verdict := mkVerdict (o_kind o) (o_reason o) (observed_unix o).
(** The newest of the observations that satisfy [pred]. *)
Definition pick (l : list Observation) (pred : Observation -> bool) : option Verdict :=
  verdict_of <$> last_max_by observed_unix (List.filter pred l).

Definition of_kind (k : EligibilityKind) (o : Observation) : bool := bool_decide (o_kind o = k).
Definition at_level (l : ScopeLevel) (o : Observation) : bool := bool_decide (o_level o = l).
Definition same_credential (s : Subject) (o : Observation) : bool := String.eqb (o_credential o) (fp_of s).
Definition same_model (s : Subject) (o : Observation) : bool := String.eqb (o_model o) (s_model s).

Definition proven (s : Subject) (o : Observation) : bool :=
  of_kind Usable o && at_level Model o && same_credential s o && same_model s o && bool_decide (provenance o = Inference).
Definition bad_key (s : Subject) (o : Observation) : bool := at_level Credential o && same_credential s o && of_kind InvalidCredential o.
Definition exhausted (s : Subject) (o : Observation) : bool :=
  (of_kind InsufficientCredit o || of_kind QuotaExhausted o)
  && match o_level o with
     | Account => same_credential s o || (negb (String.eqb (account_of s) "") && String.eqb (o_account o) (account_of s))
     | Credential => same_credential s o
     | Model | Region => false
     end.
Definition denied (s : Subject) (o : Observation) : bool :=
  at_level Model o && same_model s o && (of_kind AccessDenied o || of_kind UnsupportedRequest o)
  && (same_credential s o || String.eqb (o_credential o) "*").
Definition throttled (s : Subject) (o : Observation) : bool := at_level Credential o && same_credential s o && of_kind RateLimited o.
Definition outage (s : Subject) (o : Observation) : bool :=
  of_kind ServiceUnavailable o && (String.eqb (o_region o) "" || String.eqb (o_region o) (region_of s)).

Definition no_observations : Verdict := mkVerdict Unknown "no observations" 0.
(** The first of [preds] with an observation no later success supersedes. *)
Fixpoint first_block (l : list Observation) (fresh_usable : option N) (preds : list (Observation -> bool)) : option Verdict :=
  match preds with
  | [] => None
  | p :: preds' =>
      match pick l p with
      | Some v =>
          if match fresh_usable with Some u => v_observed v <? u | None => false end
          then first_block l fresh_usable preds' else Some v
      | None => first_block l fresh_usable preds'
      end
  end.
Definition blocks (s : Subject) : list (Observation -> bool) := [bad_key s; exhausted s; denied s; throttled s; outage s].
Definition resolve_in (l : list Observation) (s : Subject) : Verdict :=
  let fresh_usable := max_key observed_unix (List.filter (proven s) l) in
  match first_block l fresh_usable (blocks s) with
  | Some v => v
  | None => default no_observations (pick l (proven s))
  end.
Definition resolve (st : EligibilityStore) (s : Subject) (now : N) : Verdict := resolve_in (candidates st s now) s.

(** ** Histories *)

Inductive Op : Type :=
| Infer (s : Subject) (r : InferenceResult) (now wall : N) (env : list (string * string))
| ProbeKey (provider key : string) (status : option N) (detail : string) (now wall : N) (env : list (string * string))
| Prune (now : N).
Definition apply (st : EligibilityStore) (op : Op) : option EligibilityStore :=
  match op with
  | Infer s r now wall env => record_inference st s r now env wall
  | ProbeKey provider key status detail now wall env => record_probe st provider key status detail now env wall
  | Prune now => Some (prune st now)
  end.
Fixpoint run (st : EligibilityStore) (ops : list Op) : option EligibilityStore :=
  match ops with
  | [] => Some st
  | op :: ops' => st' ← apply st op; run st' ops'
  end.
(** The observation an operation makes, and the key material it holds. *)
Definition produced (ttl : N) (op : Op) : option Observation :=
  match op with
  | Infer s r now _ _ => Some (observe_inference ttl s r now)
  | ProbeKey provider key status detail now _ _ => observe_probe provider key status detail now
  | Prune _ => None
  end.
Definition secret_of (op : Op) : string :=
  match op with Infer s _ _ _ _ => api_key s | ProbeKey _ key _ _ _ _ _ => key | Prune _ => "" end.

(** ** Lists and maps of observations *)

Lemma first_min_from_In {A} (k : A -> N) best l : first_min_from k best l = best \/ In (first_min_from k best l) l.
Proof.
  revert best. induction l as [|x l IH]; intros best; cbn; [by left|].
  destruct (IH (if k x <? k best then x else best)) as [->|H]; [destruct (_ <? _); auto|by right; right].
Qed.
Lemma first_min_by_In {A} (k : A -> N) l x : first_min_by k l = Some x -> In x l.
Proof. destruct l as [|y l]; [done|]. cbn. intros [= <-]. destruct (first_min_from_In k y l) as [->|H]; [by left|by right]. Qed.
Lemma first_min_by_None {A} (k : A -> N) l : first_min_by k l = None <-> l = [].
Proof. by destruct l. Qed.

Lemma evict_oldest_sub fuel c m : evict_oldest fuel c m ⊆ m.
Proof.
  revert m. induction fuel as [|fuel IH]; intros m; cbn [evict_oldest]; [done|]. destruct (c <? size m)%nat; [|done].
  destruct (first_min_by _ _) as [[k o]|]; [|done]. transitivity (delete k m); [apply IH|apply delete_subseteq].
Qed.
Lemma evict_oldest_size fuel c m : (size m <= c + fuel)%nat -> (size (evict_oldest fuel c m) <= c)%nat.
Proof.
  revert m. induction fuel as [|fuel IH]; intros m Hm; cbn [evict_oldest]; [lia|]. destruct (Nat.ltb_spec c (size m)); [|lia].
  destruct (first_min_by _ _) as [[k o]|] eqn:E.
  - apply IH. apply first_min_by_In, btree_entries_In in E. rewrite map_size_delete, E. lia.
  - apply first_min_by_None in E. assert (m = ∅) as ->; [|rewrite map_size_empty; lia].
    apply map_eq. intros k. rewrite lookup_empty. apply eq_None_not_Some. intros [o Ho%btree_entries_In]. by rewrite E in Ho.
Qed.
Lemma evict_sub s now : observations (evict s now) ⊆ observations s.
Proof. unfold evict. cbn. etrans; [apply evict_oldest_sub|apply map_filter_subseteq]. Qed.
Lemma evict_size s now : (size (observations (evict s now)) <= cap s)%nat.
Proof. unfold evict. cbn. apply evict_oldest_size. lia. Qed.

Lemma record_Some s o secret env wall s' : record s o secret env wall = Some s' ->
  exists r, redacted env secret (o_reason o) = Some r /\ cap s' = cap s /\ usable_ttl_secs s' = usable_ttl_secs s /\
    observations s' ⊆ <[key_of o := with_reason o r]> (observations s) /\
    ((size (observations s) < cap s)%nat -> observations s' = <[key_of o := with_reason o r]> (observations s)) /\
    (size (observations s') <= cap s)%nat.
Proof.
  unfold record. intros (r & Hr & H)%bind_Some. exists r. split; [done|].
  change (key_of (with_reason o r)) with (key_of o) in H. cbn [with_observations observations cap] in H.
  set (m := <[key_of o := with_reason o r]> (observations s)) in *.
  destruct (Nat.ltb_spec (cap s) (size m)) as [Hlt|Hge]; injection H as <-.
  - split; [done|]. split; [done|]. split; [apply evict_sub|]. split; [|apply (evict_size (with_observations s m))].
    intros Hs. exfalso. unfold m in Hlt. rewrite map_size_insert in Hlt. destruct (observations s !! _); cbn in Hlt; lia.
  - split; [done|]. split; [done|]. cbn. split; [done|]. split; [done|lia].
Qed.

(** ** Where an observation comes from *)

Record lineage (ttl : N) (ops : list Op) (k : string) (o : Observation) : Prop := {
  l_key : k = key_of o;
  l_op : exists op o0 env r, op ∈ ops /\ produced ttl op = Some o0 /\
    redacted env (Some (secret_of op)) (o_reason o0) = Some r /\ o = with_reason o0 r;
}.
Lemma lineage_more ttl ops op k o : lineage ttl ops k o -> lineage ttl (ops ++ [op]) k o.
Proof. intros [Hk (op0 & o0 & env & r & Hin & H)]. split; [done|]. exists op0, o0, env, r. split; [set_solver|done]. Qed.

Record store_inv (c : nat) (ops : list Op) (st : EligibilityStore) : Prop := {
  i_cap : cap st = c;
  i_ttl : usable_ttl_secs st = USABLE_TTL_SECS;
  i_size : (size (observations st) <= c)%nat;
  i_lineage : forall k o, observations st !! k = Some o -> lineage USABLE_TTL_SECS ops k o;
}.
Lemma record_inv_step c ops op st o st' env wall : store_inv c ops st -> produced USABLE_TTL_SECS op = Some o ->
  record st o (Some (secret_of op)) env wall = Some st' -> store_inv c (ops ++ [op]) st'.
Proof.
  intros [Hc Ht Hs Hl] Hp (r & Hr & Hc' & Ht' & Hsub & _ & Hsize)%record_Some.
  split; [congruence|congruence|by rewrite Hc in Hsize|].
  intros k x Hk. apply (lookup_weaken _ _ _ _ Hk) in Hsub. apply lookup_insert_Some in Hsub as [[<- <-]|[_ Hx]].
  - split; [done|]. exists op, o, env, r. split; [set_solver|done].
  - by apply lineage_more, Hl.
Qed.
Lemma apply_inv c ops op st st' : store_inv c ops st -> apply st op = Some st' -> store_inv c (ops ++ [op]) st'.
Proof.
  intros HI. destruct op as [s r now wall env|provider key status detail now wall env|now]; cbn [apply].
  - unfold record_inference. rewrite (i_ttl _ _ _ HI). intros H.
    by apply (record_inv_step c ops (Infer s r now wall env) _ _ _ _ _ HI eq_refl H).
  - unfold record_probe. destruct (observe_probe _ _ _ _ _) as [o|] eqn:E.
    + intros H. by apply (record_inv_step c ops (ProbeKey provider key status detail now wall env) st o _ env wall HI E).
    + intros [= <-]. destruct HI. split; [done..|]. intros k o H. by apply lineage_more, i_lineage0.
  - intros [= <-]. destruct HI as [? ? ? Hl]. split; [done|done|etrans; [apply map_subseteq_size, evict_sub|done]|].
    intros k o H. apply lineage_more, Hl. by eapply lookup_weaken, evict_sub.
Qed.
Lemma run_inv_from c ops0 ops st st' : store_inv c ops0 st -> run st ops = Some st' -> store_inv c (ops0 ++ ops) st'.
Proof.
  revert ops0 st. induction ops as [|op ops IH]; intros ops0 st HI; cbn [run].
  - intros [= <-]. by rewrite app_nil_r.
  - intros (st1 & H1 & H2)%bind_Some. rewrite cons_middle, app_assoc. eapply IH; [by eapply apply_inv|done].
Qed.
Lemma run_store_inv c ops st : run (with_capacity c) ops = Some st -> store_inv (Nat.max c 1) ops st.
Proof. apply (run_inv_from _ []). split; [done|done|cbn; rewrite map_size_empty; lia|]. intros k o H. cbn in H. by rewrite lookup_empty in H. Qed.

(** ** Picking *)

Lemma pick_inv l p v : pick l p = Some v -> exists o, In o l /\ p o = true /\ v = verdict_of o.
Proof.
  unfold pick. intros (o & H & ->)%fmap_Some. apply last_max_by_Some in H as [H _]. apply List.filter_In in H as [H1 H2]. by exists o.
Qed.
Lemma pick_kind l p k v : (forall o, p o = true -> o_kind o <> k) -> pick l p = Some v -> v_kind v <> k.
Proof. intros Hp (o & _ & Ho & ->)%pick_inv. by apply Hp. Qed.
Lemma candidates_In st s now o : In o (candidates st s now) <->
  (exists k, observations st !! k = Some o) /\ same_provider o s = true /\ live now o = true.
Proof. unfold candidates. rewrite List.filter_In, btree_values_In, andb_true_iff. done. Qed.

Ltac bools := unfold of_kind, at_level, same_credential, same_model in *;
  repeat match goal with
  | H : (_ && _) = true |- _ => apply andb_true_iff in H as [? ?]
  | H : (_ || _) = true |- _ => apply orb_true_iff in H as [?|?]
  | H : bool_decide _ = true |- _ => apply bool_decide_eq_true in H
  | H : String.eqb _ _ = true |- _ => apply String.eqb_eq in H
  end.

Lemma blocks_not_usable s p o : In p (blocks s) -> p o = true -> o_kind o <> Usable.
Proof.
  intros Hin Hp. cbn in Hin. destruct Hin as [<-|[<-|[<-|[<-|[<-|[]]]]]];
    unfold bad_key, exhausted, denied, throttled, outage in Hp; bools; congruence.
Qed.
Lemma first_block_Some l u ps v : first_block l u ps = Some v -> exists p, In p ps /\ pick l p = Some v.
Proof.
  induction ps as [|p ps IH]; cbn; [done|]. destruct (pick l p) as [w|] eqn:E.
  - destruct (match u with Some u => _ | None => false end); [|intros [= <-]; exists p; auto]. intros H.
    destruct (IH H) as (q & ? & ?). exists q. auto.
  - intros H. destruct (IH H) as (q & ? & ?). exists q. auto.
Qed.
Lemma resolve_usable l s : v_kind (resolve_in l s) = Usable -> exists o, In o l /\ proven s o = true.
Proof.
  unfold resolve_in. destruct (first_block _ _ _) as [v|] eqn:E.
  - intros Hk. apply first_block_Some in E as (p & Hin & (o & _ & Ho & ->)%pick_inv). by destruct (blocks_not_usable s p o Hin Ho).
  - destruct (pick l (proven s)) as [v|] eqn:Ep; [|done]. intros _. apply pick_inv in Ep as (o & ? & ? & _). by exists o.
Qed.

(** ** What the store promises *)

(** A pair resolves to usable only while some authenticated inference of that credential and
    model, on that provider, succeeded less than its lifetime ago: no listing, probe or
    configured key makes anything usable. *)
Theorem usable_is_earned c ops st s now : run (with_capacity c) ops = Some st -> v_kind (resolve st s now) = Usable ->
  exists s' t wall env, Infer s' Success t wall env ∈ ops /\
    to_ascii_lowercase (s_provider s') = to_ascii_lowercase (s_provider s) /\ fp_of s' = fp_of s /\ s_model s' = s_model s /\
    now < wrapping_add t USABLE_TTL_SECS.
Proof.
  intros HI%run_store_inv (o & Hin & Hp)%resolve_usable. apply candidates_In in Hin as ((k & Hk) & Hprov & Hlive).
  destruct (i_lineage _ _ _ HI _ _ Hk) as [_ (op & o0 & env & r & Hop & Hpr & _ & ->)].
  unfold proven in Hp. bools. cbn in *. destruct op as [s' res t wall env'|provider key status detail t wall env'|t]; cbn in Hpr.
  - injection Hpr as <-. destruct res as [|status body retry]; cbn in *.
    + exists s', t, wall, env'. unfold same_provider, live in *. cbn in *. split; [done|]. split; [by apply String.eqb_eq|].
      split; [done|]. split; [done|]. by apply N.ltb_lt.
    + destruct (classify_failure status body) as [k' l'] eqn:Ec. cbn in *. subst k'.
      exfalso. revert Ec. unfold classify_failure. repeat break_goal; congruence.
  - unfold observe_probe in Hpr. destruct (classify_failure status detail) as [k' l']. case_bool_decide; [done|].
    injection Hpr as <-. done.
  - done.
Qed.

(** The store never holds more than its capacity, and what it keeps of a provider's words
    never holds the credential the words were about. *)
Theorem stored_reasons_hide_keys c ops st k o : run (with_capacity c) ops = Some st -> observations st !! k = Some o ->
  (size (observations st) <= Nat.max c 1)%nat /\
  exists op o0, op ∈ ops /\ produced USABLE_TTL_SECS op = Some o0 /\ o_kind o = o_kind o0 /\ k = key_of o /\
    (maskable (secret_of op) -> contains (secret_of op) (o_reason o) = false).
Proof.
  intros HI%run_store_inv Hk. split; [apply (i_size _ _ _ HI)|].
  destruct (i_lineage _ _ _ HI _ _ Hk) as [Hkey (op & o0 & env & r & Hop & Hpr & Hr & ->)].
  exists op, o0. split; [done|]. split; [done|]. split; [done|]. split; [done|]. intros Hm. cbn.
  unfold redacted in Hr. rewrite bool_decide_false in Hr by apply (m_nonempty _ Hm). eapply truncate_hides; [done|]. by apply replace_hides.
Qed.

Lemma max_key_ge {A} (f : A -> N) l x : In x l -> exists m, max_key f l = Some m /\ f x <= m.
Proof.
  intros Hx. destruct (max_key f l) as [m|] eqn:E.
  - exists m. split; [done|]. by apply max_key_Some in E as [_ H]; apply H.
  - apply max_key_None in E as ->. done.
Qed.
Lemma first_block_superseded l u ps : (forall o, In o l -> observed_unix o < u \/ forall p, In p ps -> p o = false) ->
  first_block l (Some u) ps = None.
Proof.
  intros H. induction ps as [|p ps IH]; [done|]. cbn. destruct (pick l p) as [v|] eqn:E.
  - apply pick_inv in E as (o & Hin & Hp & ->). cbn. destruct (H o Hin) as [Hlt|Hno].
    + rewrite (proj2 (N.ltb_lt _ _)) by done. apply IH. intros x Hx. destruct (H x Hx) as [?|?]; [by left|]. right. intros q Hq. auto with *.
    + rewrite (Hno p (or_introl eq_refl)) in Hp. done.
  - apply IH. intros x Hx. destruct (H x Hx) as [?|?]; [by left|]. right. intros q Hq. auto with *.
Qed.
Lemma proven_pick l s o : In o l -> proven s o = true -> exists v, pick l (proven s) = Some v /\ v_kind v = Usable.
Proof.
  intros Hin Hp. unfold pick. destruct (last_max_by observed_unix (List.filter (proven s) l)) as [x|] eqn:E.
  - exists (verdict_of x). split; [done|]. apply last_max_by_Some in E as [H _]. apply List.filter_In in H as [_ H].
    unfold proven in H. by bools.
  - apply last_max_by_None in E. exfalso. assert (In o (List.filter (proven s) l)) as H by by apply List.filter_In. by rewrite E in H.
Qed.

(** A success lifts every block: once an inference of a pair has succeeded, later than all
    that was observed before, the pair is usable for the lifetime of the success, unless the
    record was too full to take it. *)
Theorem success_lifts_every_block st st' s now env wall later :
  record_inference st s Success now env wall = Some st' -> (size (observations st) < cap st)%nat ->
  (forall k o, observations st !! k = Some o -> observed_unix o < now) ->
  later < wrapping_add now (usable_ttl_secs st) ->
  v_kind (resolve st' s later) = Usable.
Proof.
  intros (r & _ & _ & _ & _ & Hfull & _)%record_Some Hsize Hold Hlater. specialize (Hfull Hsize).
  set (o := with_reason _ r) in Hfull.
  assert (In o (candidates st' s later)) as Hin.
  { apply candidates_In. split; [eexists; rewrite Hfull; apply lookup_insert_eq|]. split.
    - unfold same_provider. cbn. apply String.eqb_refl.
    - unfold live. cbn. by apply N.ltb_lt. }
  assert (proven s o = true) as Hp.
  { unfold proven, of_kind, at_level, same_credential, same_model. cbn. by rewrite !String.eqb_refl. }
  unfold resolve, resolve_in.
  destruct (max_key_ge observed_unix (List.filter (proven s) (candidates st' s later)) o) as (u & -> & Hu); [by apply List.filter_In|].
  change (observed_unix o) with now in Hu. rewrite first_block_superseded.
  - destruct (proven_pick _ _ _ Hin Hp) as (v & -> & Hv). done.
  - intros x Hx. apply candidates_In in Hx as ((k & Hk) & _ & _). rewrite Hfull in Hk.
    apply lookup_insert_Some in Hk as [[_ <-]|[_ Hk]]; [|left; apply Hold in Hk; lia].
    right. intros p Hin'. destruct (p o) eqn:E; [|done]. by destruct (blocks_not_usable s p o Hin' E).
Qed.

(** ** Scopes *)

(** A block observed at a level concerns what that level names. *)
Definition in_scope (s : Subject) (o : Observation) : bool :=
  same_provider o s &&
  match o_level o with
  | Credential => same_credential s o
  | Account => same_credential s o || (negb (String.eqb (account_of s) "") && String.eqb (o_account o) (account_of s))
  | Model => same_model s o && (same_credential s o || String.eqb (o_credential o) "*")
  | Region => String.eqb (o_region o) "" || String.eqb (o_region o) (region_of s)
  end.
(** Outages, and nothing else, are observed of regions. *)
Definition fits (o : Observation) : Prop := o_kind o = ServiceUnavailable <-> o_level o = Region.

Lemma classify_fits status body : (classify_failure status body).1 = ServiceUnavailable <-> (classify_failure status body).2 = Region.
Proof. unfold classify_failure. repeat break_goal; cbn; done. Qed.
Lemma produced_fits ttl op o r : produced ttl op = Some o -> fits (with_reason o r).
Proof.
  destruct op as [s res t wall env'|provider key status detail t wall env'|t]; cbn; [| |done].
  - intros [= <-]. destruct res as [|status body retry]; cbn; [done|]. pose proof (classify_fits status body) as H.
    destruct (classify_failure status body) as [k l]. exact H.
  - unfold observe_probe. pose proof (classify_fits status detail) as H. destruct (classify_failure status detail) as [k l].
    case_bool_decide; [done|]. intros [= <-]. exact H.
Qed.

Lemma pred_in_scope s p o : In p (proven s :: blocks s) -> fits o -> same_provider o s = true -> p o = true -> in_scope s o = true.
Proof.
  intros Hin Hf Hs Hp. unfold in_scope. rewrite Hs. cbn [andb]. unfold fits in Hf.
  destruct Hin as [<-|[<-|[<-|[<-|[<-|[<-|[]]]]]]]; unfold proven, bad_key, exhausted, denied, throttled, outage in Hp.
  - bools. repeat match goal with H : o_level o = _ |- _ => rewrite H | H : o_model o = _ |- _ => rewrite H | H : o_credential o = _ |- _ => rewrite H end.
    by rewrite !String.eqb_refl.
  - apply andb_true_iff in Hp as [Hp _]. apply andb_true_iff in Hp as [Hl Hc]. apply bool_decide_eq_true in Hl. by rewrite Hl.
  - apply andb_true_iff in Hp as [_ Hp]. destruct (o_level o); done.
  - apply andb_true_iff in Hp as [Hp Hc]. apply andb_true_iff in Hp as [Hp _]. apply andb_true_iff in Hp as [Hl Hm].
    apply bool_decide_eq_true in Hl. by rewrite Hl, Hm, Hc.
  - apply andb_true_iff in Hp as [Hp _]. apply andb_true_iff in Hp as [Hl Hc]. apply bool_decide_eq_true in Hl. by rewrite Hl.
  - apply andb_true_iff in Hp as [Hk Hr]. apply bool_decide_eq_true, Hf in Hk. by rewrite Hk.
Qed.

Lemma filter_refine {A} (p q : A -> bool) l : (forall x, In x l -> p x = true -> q x = true) -> List.filter p l = List.filter p (List.filter q l).
Proof.
  induction l as [|x l IH]; intros H; [done|]. cbn. rewrite IH by (intros y Hy; apply H; by right).
  destruct (q x) eqn:Eq; cbn; [done|]. destruct (p x) eqn:Ep; [|done]. rewrite (H x (or_introl eq_refl) Ep) in Eq. done.
Qed.
(** Only the observations in scope matter. *)
Lemma resolve_in_scope l s : (forall o, In o l -> fits o /\ same_provider o s = true) ->
  resolve_in l s = resolve_in (List.filter (in_scope s) l) s.
Proof.
  intros H.
  assert (forall p, In p (proven s :: blocks s) -> List.filter p l = List.filter p (List.filter (in_scope s) l)) as Hf.
  { intros p Hp. apply filter_refine. intros x Hx. destruct (H x Hx). by apply pred_in_scope. }
  assert (forall p, In p (proven s :: blocks s) -> pick l p = pick (List.filter (in_scope s) l) p) as Hpick.
  { intros p Hp. unfold pick. by rewrite (Hf p Hp). }
  unfold resolve_in. rewrite <- (Hf (proven s)), <- (Hpick (proven s)) by by left.
  assert (forall ps u, (forall p, In p ps -> In p (blocks s)) -> first_block l u ps = first_block (List.filter (in_scope s) l) u ps) as Hb.
  { induction ps as [|p ps IH]; intros u Hps; [done|]. cbn [first_block]. rewrite <- (Hpick p) by (right; apply Hps; by left).
    rewrite IH by (intros q Hq; apply Hps; by right). done. }
  by rewrite <- (Hb (blocks s)).
Qed.

(** The fields of a key are parted by bars: where they hold none, it tells them apart. *)
Definition bar_free (s : string) : Prop := 124 ∉ bytes_of s.
Record plain_fields (o : Observation) : Prop := {
  pf_provider : bar_free (o_provider o);
  pf_credential : bar_free (o_credential o);
  pf_account : bar_free (o_account o);
  pf_model : bar_free (o_model o);
}.
Lemma bar_part_inj a b c d : bar_free a -> bar_free c -> a +:+ "|" +:+ b = c +:+ "|" +:+ d -> a = c /\ b = d.
Proof.
  intros Ha Hc H. apply (f_equal bytes_of) in H. rewrite !bytes_of_app in H.
  change (bytes_of "|") with [124] in H. cbn [app] in H. apply first_part_inj in H as [H1 H2]; [|done..].
  split; by apply bytes_of_inj.
Qed.
Lemma level_tag_inj l l' : level_tag l = level_tag l' -> l = l'.
Proof. by destruct l, l'. Qed.
Lemma level_tag_plain l : bar_free (level_tag l).
Proof. apply (bool_decide_unpack _). by destruct l. Qed.
Lemma slot_key_inj o o' : plain_fields o -> plain_fields o' -> key_of o = key_of o' ->
  o_provider o = o_provider o' /\ o_level o = o_level o' /\ o_credential o = o_credential o' /\ o_account o = o_account o' /\
  o_model o = o_model o' /\ o_region o = o_region o'.
Proof.
  intros [P C A M] [P' C' A' M']. unfold key_of. intros H.
  apply bar_part_inj in H as [-> H]; [|done..]. apply bar_part_inj in H as [Hl H]; [|apply level_tag_plain..].
  apply bar_part_inj in H as [-> H]; [|done..]. apply bar_part_inj in H as [-> H]; [|done..].
  apply bar_part_inj in H as [-> ->]; [|done..]. by apply level_tag_inj in Hl as ->.
Qed.

(** Fingerprints are hexadecimal, and the names in use hold no bar. *)
Definition hexadecimal : Prop := forall k, bar_free (sha_hex k) /\ sha_hex k <> "*".
Definition plain_subject (s : Subject) : Prop := bar_free (s_provider s) /\ bar_free (account_of s) /\ bar_free (s_model s).
Definition plain_op (op : Op) : Prop :=
  match op with Infer s _ _ _ _ => plain_subject s | ProbeKey provider _ _ _ _ _ _ => bar_free provider | Prune _ => True end.
Lemma bar_free_nil : bar_free "".
Proof. by apply (bool_decide_unpack _). Qed.
Lemma fingerprint_plain k : hexadecimal -> bar_free (credential_fingerprint k) /\ credential_fingerprint k <> "*".
Proof. intros H. unfold credential_fingerprint. case_bool_decide; [split; [apply bar_free_nil|done]|apply H]. Qed.
Lemma produced_plain ttl op o : hexadecimal -> plain_op op -> produced ttl op = Some o -> plain_fields o.
Proof.
  intros Hh Hp. assert (bar_free "*") as Hstar by by apply (bool_decide_unpack _).
  destruct op as [s res t wall env'|provider key status detail t wall env'|t]; cbn in *; [| |done].
  - destruct Hp as (P & A & M). destruct (fingerprint_plain (api_key s) Hh) as [F _]. intros [= <-].
    destruct res as [|status body retry]; cbn; [by split|]. destruct (classify_failure status body) as [k l].
    split; cbn; try done. destruct l; try done. by case_bool_decide.
  - destruct (fingerprint_plain key Hh) as [F _]. unfold observe_probe. destruct (classify_failure status detail) as [k l].
    case_bool_decide; [done|]. intros [= <-]. pose proof bar_free_nil. split; cbn; try done. by case_bool_decide.
Qed.

Lemma in_scope_fields s o o' : o_provider o = o_provider o' -> o_level o = o_level o' -> o_credential o = o_credential o' ->
  o_account o = o_account o' -> o_model o = o_model o' -> o_region o = o_region o' -> in_scope s o = in_scope s o'.
Proof.
  intros H1 H2 H3 H4 H5 H6. unfold in_scope, same_provider, same_credential, same_model. by rewrite H1, H2, H3, H4, H5, H6.
Qed.

Lemma resolve_scope_map c ops st t later : store_inv c ops st ->
  resolve st t later = resolve_in (btree_values (filter (fun '(_, o) => (same_provider o t && live later o) && in_scope t o = true) (observations st))) t.
Proof.
  intros HI. unfold resolve. rewrite resolve_in_scope.
  - f_equal. unfold candidates. rewrite <- btree_values_filter. generalize (btree_values (observations st)) as l.
    induction l as [|o l IH]; [done|]. cbn. destruct (same_provider o t && live later o); cbn; [|done].
    destruct (in_scope t o); by rewrite IH.
  - intros o ((k & Hk) & Hs & _)%candidates_In. split; [|done].
    destruct (i_lineage _ _ _ HI _ _ Hk) as [_ (op & o0 & env & r & _ & Hp & _ & ->)]. by eapply produced_fits.
Qed.

(** C9. A failure is held against no more than its evidence is about, in a store below its
    capacity (a full one evicts another verdict) whose providers, accounts and models hold
    no bar and whose digests hold none and are not [*]: if recording one changes what a pair
    resolves to, the pair is on that provider and shares the credential that was rejected or
    throttled, the account that is exhausted, the model that was denied (by that credential,
    or by everybody when the request is unsupported), or the region that is down (any
    region, when the failed one named none). *)
Theorem failure_blocks_only_its_scope c ops st s status body retry now env wall st' t later :
  hexadecimal -> Forall plain_op ops -> plain_subject s ->
  run (with_capacity c) ops = Some st -> (size (observations st) < Nat.max c 1)%nat ->
  record_inference st s (Failed status body retry) now env wall = Some st' ->
  resolve st' t later <> resolve st t later ->
  to_ascii_lowercase (s_provider s) = to_ascii_lowercase (s_provider t) /\
  match classify_failure status body with
  | (_, Credential) => fp_of t = fp_of s
  | (_, Account) => fp_of t = fp_of s \/ (account_of t <> "" /\ account_of t = account_of s)
  | (kind, Model) => s_model t = s_model s /\ (fp_of t = fp_of s \/ kind = UnsupportedRequest)
  | (_, Region) => region_of s = "" \/ region_of s = region_of t
  end.
Proof.
  intros Hh Hops Hs Hrun Hsize Hrec Hne. pose proof (run_store_inv _ _ _ Hrun) as HI.
  set (op := Infer s (Failed status body retry) now wall env).
  assert (produced USABLE_TTL_SECS op = Some (observe_inference USABLE_TTL_SECS s (Failed status body retry) now)) as Hp by done.
  unfold record_inference in Hrec. rewrite (i_ttl _ _ _ HI) in Hrec.
  set (o := observe_inference _ s _ now) in *.
  assert (store_inv (Nat.max c 1) (ops ++ [op]) st') as HI' by by apply (record_inv_step _ ops op st o st' env wall HI Hp).
  assert (in_scope t o = true) as Hin.
  { destruct (in_scope t o) eqn:Hout; [done|]. exfalso. apply Hne.
    rewrite (resolve_scope_map _ _ _ _ _ HI), (resolve_scope_map _ _ _ _ _ HI'). f_equal. f_equal.
    apply record_Some in Hrec as (r & _ & _ & _ & _ & Hfull & _). rewrite Hfull by (rewrite (i_cap _ _ _ HI); done).
    assert (in_scope t (with_reason o r) = false) as Hout' by (rewrite <- Hout; by apply in_scope_fields).
    assert (forall old, observations st !! key_of o = Some old -> in_scope t old = false) as Hold.
    { intros old Hk. destruct (i_lineage _ _ _ HI _ _ Hk) as [Hkey (op' & o0 & env' & r' & Hin & Hp' & _ & ->)].
      rewrite <- Hout. change (key_of (with_reason o0 r')) with (key_of o0) in Hkey. symmetry.
      rewrite Forall_forall in Hops. apply slot_key_inj in Hkey as (? & ? & ? & ? & ? & ?).
      - by apply in_scope_fields.
      - apply (produced_plain _ op _ Hh Hs Hp).
      - apply (produced_plain _ op' _ Hh (Hops _ Hin) Hp'). }
    apply map_eq. intros k. destruct (decide (k = key_of o)) as [->|Hk].
    - transitivity (@None Observation); [|symmetry]; apply map_lookup_filter_None; right.
      + intros x. rewrite lookup_insert_eq. intros [= <-]. by rewrite Hout', andb_false_r.
      + intros x Hx. by rewrite (Hold _ Hx), andb_false_r.
    - apply option_eq. intros x. rewrite !map_lookup_filter_Some, lookup_insert_ne by done. done. }
  unfold in_scope, same_provider, same_credential, same_model in Hin. apply andb_true_iff in Hin as [Hprov Hin].
  apply String.eqb_eq in Hprov. unfold o in *. cbn [observe_inference] in *.
  destruct (classify_failure status body) as [kind level]. cbn in *. split; [done|].
  destruct level.
  - bools. congruence.
  - apply orb_true_iff in Hin as [H%String.eqb_eq|H]; [left; congruence|right].
    apply andb_true_iff in H as [H1 H2]. apply negb_true_iff, String.eqb_neq in H1. apply String.eqb_eq in H2. done.
  - apply andb_true_iff in Hin as [H1%String.eqb_eq H2]. split; [done|].
    case_bool_decide; [by right|left]. apply orb_true_iff in H2 as [H2%String.eqb_eq|H2%String.eqb_eq]; [done|].
    by destruct (proj2 (fingerprint_plain (api_key s) Hh)).
  - apply orb_true_iff in Hin as [H%String.eqb_eq|H%String.eqb_eq]; auto.
Qed.

End Credentials.

(** ** Examples *)

(** A fingerprint for the examples. *)
Definition toy_char (c : Ascii.ascii) : Ascii.ascii := if is_ascii_alphanumeric c then c else Ascii.ascii_of_N 48.
Definition toy (k : string) : string := String (Ascii.ascii_of_N 102) (map_string toy_char k).
Lemma toy_hexadecimal : hexadecimal toy.
Proof.
  intros k. split; [|done]. unfold toy, bar_free. change (bytes_of (String (Ascii.ascii_of_N 102) ?x)) with (102 :: bytes_of x).
  intros [H|H]%elem_of_cons; [done|]. revert H. induction k as [|c k IH]; [by intros ?%not_elem_of_nil|].
  cbn [map_string]. change (bytes_of (String ?a ?x)) with (Ascii.N_of_ascii a :: bytes_of x).
  intros [H|H]%elem_of_cons; [|by apply IH]. clear IH. revert c H.
  assert (forall c, bool_decide (124 = Ascii.N_of_ascii (toy_char c)) = false) as Hc.
  { intros [[] [] [] [] [] [] [] []]; reflexivity. }
  intros c H. specialize (Hc c). by apply bool_decide_eq_false in Hc.
Qed.

Definition alice : Subject := mkSubject "openai" "sk-alice-1" (Some "acme") None "gpt-4o".
Definition bob : Subject := mkSubject "openai" "sk-bob-22" (Some "acme") None "gpt-4o".
Definition busy : InferenceResult := Failed (Some 429) "slow down" (Some 60).

Lemma usable_is_earned_witness : exists s' t wall env,
  Infer s' Success t wall env ∈ [Infer alice Success 100 100 []] /\ 200 < wrapping_add t USABLE_TTL_SECS.
Proof.
  destruct (usable_is_earned toy 10 [Infer alice Success 100 100 []] _ alice 200 eq_refl eq_refl) as (s' & t & wall & env & H1 & _ & _ & _ & H2).
  exists s', t, wall, env. split; [exact H1|exact H2].
Defined.
Definition echoed : list Op := [Infer alice (Failed (Some 401) "bad key sk-alice-1!" None) 5 5 []].
Definition echo_of (r : string) : Observation := mkObservation InvalidCredential Credential "openai" (toy "sk-alice-1") "acme" "gpt-4o" "" r 5 None Inference.
Lemma stored_reasons_hide_keys_witness : exists op o0, op ∈ echoed /\ produced toy USABLE_TTL_SECS op = Some o0 /\
  contains "sk-alice-1" "bad key [REDACTED]!" = false.
Proof.
  destruct (stored_reasons_hide_keys toy 10 echoed _ (key_of (echo_of "")) (echo_of "bad key [REDACTED]!") eq_refl eq_refl)
    as [_ (op & o0 & H1 & H2 & _)].
  exists op, o0. split; [exact H1|]. split; [exact H2|]. reflexivity.
Defined.
Lemma success_lifts_every_block_witness : exists st, record_inference toy (with_capacity 4) alice Success 100 [] 100 = Some st /\
  v_kind (resolve toy st alice 200) = Usable.
Proof.
  eexists. split; [reflexivity|]. eapply (success_lifts_every_block toy (with_capacity 4) _ alice 100 [] 100 200); [reflexivity|vm_compute; lia| |reflexivity].
  intros k o H. discriminate H.
Defined.
Lemma failure_blocks_only_its_scope_witness : exists st', record_inference toy (with_capacity 4) alice busy 100 [] 100 = Some st' /\
  fp_of toy alice = fp_of toy alice.
Proof.
  eexists. split; [reflexivity|].
  assert (plain_subject alice) as Hp by (repeat split; apply (bool_decide_unpack _); reflexivity).
  refine (proj2 (failure_blocks_only_its_scope toy 4 [] (with_capacity 4) alice (Some 429) "slow down" (Some 60) 100 [] 100 _ alice 120
            toy_hexadecimal (List.Forall_nil _) Hp eq_refl _ eq_refl _)); [vm_compute; lia|vm_compute; discriminate].
Defined.

(** Two keys of one account: a throttle holds one, an exhausted quota both. *)
Example throttle_is_per_key : (v_kind <$> ((fun st => resolve toy st bob 110) <$> run toy (with_capacity 4) [Infer alice busy 100 100 []])) = Some Unknown.
Proof. vm_compute. reflexivity. Qed.
Example quota_is_per_account :
  (v_kind <$> ((fun st => resolve toy st bob 110) <$> run toy (with_capacity 4) [Infer alice (Failed (Some 429) "You exceeded your current quota" None) 100 100 []]))
  = Some QuotaExhausted.
Proof. vm_compute. reflexivity. Qed.

(** A reason whose 240th byte lies inside a character panics. *)
Definition long_umlauts : string := String (Ascii.ascii_of_N 120) (string_of_bytes (flat_map (fun _ => [195; 164]%nat) (seq 0 130))).
Lemma long_reason_panics : record_inference toy (with_capacity 4) alice (Failed (Some 500) long_umlauts None) 100 [] 100 = None.
Proof. vm_compute. reflexivity. Qed.

(** A throttle the provider asks to hold for very long does not hold at all. *)
Lemma huge_retry_after_is_dropped :
  (v_kind <$> ((fun st => resolve toy st alice 1001) <$>
     run toy (with_capacity 4) [Infer alice (Failed (Some 429) "slow down" (Some u64_max)) 1000 1000 []])) = Some Unknown.
Proof. vm_compute. reflexivity. Qed.

(** A success in the second of a failure, and after it, does not lift the block. *)
Lemma same_second_success_does_not_lift :
  (v_kind <$> ((fun st => resolve toy st alice 101) <$>
     run toy (with_capacity 4) [Infer alice (Failed (Some 402) "no funds" None) 100 100 []; Infer alice Success 100 100 []])) = Some InsufficientCredit.
Proof. vm_compute. reflexivity. Qed.
