(* ===== verification/CloudQuota.v ===== *)
(** * CloudQuota: what providers said of remaining capacity
    ([crates/susi-vendor-models/src/cloud_quota.rs])

    Header values are read as bytes.  Observations are kept in a list, as in the source; the
    fingerprint of a credential is a parameter, as in [CloudEligibility]. *)

From S2P Require Import Prelude Text Money Pacer CloudEligibility.
From stdpp Require Import pretty.

Local Open Scope string_scope.
Local Open Scope list_scope.
Local Open Scope N_scope.

Inductive QuotaAmount : Type :=
| AmountUnknown
| Limited (n : N)
| Unlimited.
#[export] Instance quota_amount_eq_dec : EqDecision QuotaAmount.
Proof. solve_decision. Defined.
Inductive QuotaKind : Type :=
| Requests
| Tokens
| Credits
| FreeAllowance.
#[export] Instance quota_kind_eq_dec : EqDecision QuotaKind.
Proof. solve_decision. Defined.
Inductive QuotaSource : Type :=
| Headers
| Metadata.

Record QuotaObservation : Type := mkQuota {
  q_provider : string;
  q_credential : string;
  q_account : string;
  q_model : string;
  q_kind : QuotaKind;
  q_amount : QuotaAmount;
  resets_at_unix : option N;
  retry_after_secs : option N;
  q_observed : N;
  stale_after_secs : N;
  q_source : QuotaSource;
}.

Inductive Headroom : Type :=
| HeadroomUnknown
| HeadroomExhausted (kind : QuotaKind) (resets : option N) (retry_after : option N)
| HeadroomLimited (remaining : N)
| HeadroomUnlimited.

Definition CLOCK_SKEW_TOLERANCE_SECS : N := 300.
Definition QUOTA_FRESH_SECS : N := 3600.

Definition kind_debug (k : QuotaKind) : string :=
  match k with Requests => "Requests" | Tokens => "Tokens" | Credits => "Credits" | FreeAllowance => "FreeAllowance" end.
Definition key_of (o : QuotaObservation) : string :=
  q_provider o +:+ "|" +:+ q_credential o +:+ "|" +:+ q_account o +:+ "|" +:+ q_model o +:+ "|" +:+ kind_debug (q_kind o).

(** ** Headers *)

Definition header_u64 (v : option string) : option N := s ← v; Pacer.parse_u64 (bytes_of (Text.trim s)).
Definition parse_reset (v : option string) (now : N) : option N :=
  n ← header_u64 v; Some (if 1000000000 <? n then n else saturating_add now n).

Definition or_else (a b : option string) : option string := match a with Some _ => a | None => b end.
Section Headers.
Context (sha_hex : string -> string) (subject : Subject) (headers : list (string * string)) (now : N).

Definition get (name : string) : option string :=
  snd <$> List.find (fun h => String.eqb (to_ascii_lowercase h.1) (to_ascii_lowercase name)) headers.
Definition present (v : option string) : bool := match v with Some _ => true | None => false end.
Definition observation (kind : QuotaKind) (amount : QuotaAmount) (reset : option N) (source : QuotaSource) : QuotaObservation :=
  mkQuota (s_provider subject) (fp_of sha_hex subject) (account_of subject) (s_model subject) kind amount reset
    (header_u64 (get "retry-after")) now QUOTA_FRESH_SECS source.
Definition amount_of (remaining limit : option string) : QuotaAmount :=
  match header_u64 remaining with
  | Some n => Limited n
  | None => match header_u64 limit with Some n => if n =? u64_max then Unlimited else AmountUnknown | None => AmountUnknown end
  end.
Definition balance_of (v : string) : QuotaAmount := match header_u64 (Some v) with Some n => Limited n | None => AmountUnknown end.

Definition parse_quota_headers : list QuotaObservation :=
  let requests := or_else (get "x-ratelimit-remaining-requests") (get "x-ratelimit-remaining") in
  (if present requests || present (get "x-ratelimit-limit-requests")
   then [observation Requests (amount_of requests (get "x-ratelimit-limit-requests"))
           (parse_reset (or_else (get "x-ratelimit-reset-requests") (get "x-ratelimit-reset")) now) Headers]
   else [])
  ++ (if present (get "x-ratelimit-remaining-tokens") || present (get "x-ratelimit-limit-tokens")
      then [observation Tokens (amount_of (get "x-ratelimit-remaining-tokens") (get "x-ratelimit-limit-tokens"))
              (parse_reset (or_else (get "x-ratelimit-reset-tokens") (get "x-ratelimit-reset")) now) Headers]
      else [])
  ++ (match or_else (get "x-credits-remaining") (or_else (get "x-balance-remaining") (get "x-openrouter-credits-remaining")) with
      | Some v => [observation Credits (balance_of v) None Metadata]
      | None => []
      end)
  ++ (match or_else (get "x-free-remaining") (get "x-free-tier-remaining") with
      | Some v => [observation FreeAllowance (balance_of v)
                     (parse_reset (or_else (get "x-free-reset") (get "x-free-tier-reset")) now) Headers]
      | None => []
      end).
End Headers.

(** ** The inventory *)

Record QuotaInventory : Type := mkInventory {
  quotas : list QuotaObservation;
  cap : nat;
}.
Definition QuotaInventory_with_capacity (c : nat) : QuotaInventory := mkInventory [] (Nat.max c 1).
Definition QuotaInventory_new : QuotaInventory := QuotaInventory_with_capacity 2048.

Definition stale (now : N) (o : QuotaObservation) : bool := saturating_add (q_observed o) (stale_after_secs o) <? now.
Definition reset_passed (now : N) (o : QuotaObservation) : bool :=
  match resets_at_unix o with Some r => wrapping_add r CLOCK_SKEW_TOLERANCE_SECS <? now | None => false end.
Definition prune (inv : QuotaInventory) (now : N) : QuotaInventory :=
  mkInventory (List.filter (fun o => negb (stale now o || reset_passed now o)) (quotas inv)) (cap inv).
(** The first slot of [o]'s key, replaced unless it is newer. *)
Fixpoint replace_slot (l : list QuotaObservation) (o : QuotaObservation) : option (list QuotaObservation) :=
  match l with
  | [] => None
  | x :: l' =>
      if String.eqb (key_of x) (key_of o)
      then Some ((if q_observed x <=? q_observed o then o else x) :: l')
      else cons x <$> replace_slot l' o
  end.
Definition record (inv : QuotaInventory) (o : QuotaObservation) (now : N) : QuotaInventory :=
  let inv := prune inv now in
  match replace_slot (quotas inv) o with
  | Some l => mkInventory l (cap inv)
  | None =>
      let l := quotas inv ++ [o] in
      if (cap inv <? length l)%nat
      then mkInventory (drop (length l - cap inv) (sort_by_key q_observed l)) (cap inv)
      else mkInventory l (cap inv)
  end.

Section Credentials.
Context (sha_hex : string -> string).

Definition concerns (s : Subject) (kind : QuotaKind) (now : N) (o : QuotaObservation) : bool :=
  String.eqb (q_provider o) (s_provider s) && bool_decide (q_kind o = kind)
  && (String.eqb (q_credential o) (fp_of sha_hex s) || (negb (String.eqb (q_account o) "") && String.eqb (q_account o) (account_of s)))
  && (String.eqb (q_model o) "" || String.eqb (q_model o) (s_model s))
  && (now <=? saturating_add (q_observed o) (stale_after_secs o)).
Definition latest (inv : QuotaInventory) (s : Subject) (kind : QuotaKind) (now : N) : option QuotaObservation :=
  last_max_by q_observed (List.filter (concerns s kind now) (quotas inv)).

Definition kinds : list QuotaKind := [Requests; Tokens; Credits; FreeAllowance].
(** The loop of [resolve] over the kinds to go. *)
Fixpoint resolve_kinds (inv : QuotaInventory) (s : Subject) (now : N) (ks : list QuotaKind) (saw_known saw_unlimited_only : bool) (tightest : N) : Headroom :=
  match ks with
  | [] => if negb saw_known then HeadroomUnknown else if saw_unlimited_only then HeadroomUnlimited else HeadroomLimited tightest
  | kind :: ks' =>
      match latest inv s kind now with
      | None => resolve_kinds inv s now ks' saw_known saw_unlimited_only tightest
      | Some o =>
          match q_amount o with
          | AmountUnknown => resolve_kinds inv s now ks' saw_known saw_unlimited_only tightest
          | Unlimited => resolve_kinds inv s now ks' true saw_unlimited_only tightest
          | Limited 0 => HeadroomExhausted kind (resets_at_unix o) (retry_after_secs o)
          | Limited n => resolve_kinds inv s now ks' true false (N.min tightest n)
          end
      end
  end.
Definition resolve (inv : QuotaInventory) (s : Subject) (now : N) : Headroom := resolve_kinds inv s now kinds false true u64_max.

(** ** Export *)

Definition debug_option (o : option N) : string := match o with Some n => "Some(" +:+ pretty n +:+ ")" | None => "None" end.
(** What an observation tells the eligibility store at [now]. *)
Definition export (o : QuotaObservation) (now : N) : option Observation :=
  if saturating_add (q_observed o) (stale_after_secs o) <? now then None
  else
    k ← match q_amount o with
        | Limited 0 => Some (QuotaExhausted, (fun r => saturating_add r CLOCK_SKEW_TOLERANCE_SECS) <$> resets_at_unix o)
        | Limited _ | AmountUnknown =>
            secs ← retry_after_secs o;
            if now <? saturating_add (q_observed o) secs then Some (RateLimited, Some (saturating_add (q_observed o) secs)) else None
        | Unlimited => None
        end;
    let '(kind, expires) := k in
    Some (mkObservation kind (if String.eqb (q_account o) "" then Credential else Account) (q_provider o) (q_credential o) (q_account o)
            (q_model o) ""
            (if bool_decide (kind = QuotaExhausted) then "quota " +:+ kind_debug (q_kind o) +:+ " exhausted per provider headers"
             else "provider asked to retry after " +:+ debug_option (retry_after_secs o) +:+ "s")
            now expires Inference).
Definition sync_into_eligibility (inv : QuotaInventory) (st : EligibilityStore) (now : N) (env : list (string * string)) (wall : N) : option EligibilityStore :=
  fold_left (fun st o => st ← st; match export o now with Some ob => CloudEligibility.record st ob None env wall | None => Some st end)
    (quotas inv) (Some st).
(** [record_quota_headers]: the inventory read from disk, and the store, afterwards. *)
Definition record_quota_headers (inv : QuotaInventory) (st : EligibilityStore) (s : Subject) (headers : list (string * string)) (now : N)
    (env : list (string * string)) (wall : N) : QuotaInventory * option EligibilityStore :=
  let inv := fold_left (fun inv o => record inv o now) (parse_quota_headers sha_hex s headers now) inv in
  (inv, sync_into_eligibility inv st now env wall).
End Credentials.

(** ** The inventory is bounded and keeps one figure per key *)

Lemma replace_slot_keys l o l' : replace_slot l o = Some l' -> key_of <$> l' = key_of <$> l.
Proof.
  revert l'. induction l as [|x l IH]; intros l'; cbn; [done|]. destruct (String.eqb_spec (key_of x) (key_of o)) as [E|_].
  - intros [= <-]. cbn. f_equal. by destruct (_ <=? _).
  - intros (m & Hm & ->)%fmap_Some. cbn. f_equal. by apply IH.
Qed.
Lemma replace_slot_None l o : replace_slot l o = None -> key_of o ∉ key_of <$> l.
Proof.
  induction l as [|x l IH]; cbn; [intros _; apply not_elem_of_nil|]. destruct (String.eqb_spec (key_of x) (key_of o)) as [|Hne]; [done|].
  intros H%fmap_None%IH. rewrite not_elem_of_cons. done.
Qed.
Record inventory_inv (c : nat) (inv : QuotaInventory) : Prop := {
  v_cap : cap inv = c;
  v_size : (length (quotas inv) <= c)%nat;
  v_keys : NoDup (key_of <$> quotas inv);
}.
Lemma prune_inv c inv now : inventory_inv c inv -> inventory_inv c (prune inv now).
Proof.
  intros [Hc Hs Hk]. split; [done| |by apply NoDup_filter_fmap]. cbn. etrans; [apply List.filter_length_le|done].
Qed.
(** However observations arrive, the inventory holds no more than its capacity and one
    figure per provider, credential, account, model and dimension. *)
Theorem inventory_keeps_one_figure c inv o now : inventory_inv c inv -> inventory_inv c (record inv o now).
Proof.
  intros HI. apply (prune_inv c inv now) in HI as [Hc Hs Hk]. unfold record.
  destruct (replace_slot (quotas (prune inv now)) o) as [l|] eqn:E.
  - apply replace_slot_keys in E. split; [done| |cbn; by rewrite E]. cbn. rewrite <- (length_fmap key_of), E, length_fmap. exact Hs.
  - apply replace_slot_None in E.
    assert (NoDup (key_of <$> (quotas (prune inv now) ++ [o]))) as Hn.
    { rewrite fmap_app, NoDup_app. split; [done|]. split; [|cbn; repeat constructor; apply not_elem_of_nil].
      intros k Hin H. cbn in H. apply list_elem_of_singleton in H. by subst. }
    destruct (Nat.ltb_spec (cap (prune inv now)) (length (quotas (prune inv now) ++ [o]))) as [Hlt|Hge]; split; cbn [cap quotas]; try done; try lia.
    + rewrite length_drop, (Permutation_length (sort_by_key_perm q_observed _)). lia.
    + rewrite fmap_drop. eapply sublist_NoDup; [|apply sublist_drop]. by rewrite (sort_by_key_perm q_observed _).
Qed.

Section Figures.
Context (sha_hex : string -> string).

(** The amount on record for a dimension. *)
Definition figure (inv : QuotaInventory) (s : Subject) (now : N) (k : QuotaKind) : option QuotaAmount := q_amount <$> latest sha_hex inv s k now.

(** The loop, after the kinds [past]. *)
Record seen_so_far (inv : QuotaInventory) (s : Subject) (now : N) (past : list QuotaKind) (known only : bool) (tight : N) : Prop := {
  f_zero : forall k, k ∈ past -> figure inv s now k <> Some (Limited 0);
  f_known : known = false -> forall k, k ∈ past -> figure inv s now k = None \/ figure inv s now k = Some AmountUnknown;
  f_only : only = true -> tight = u64_max /\ (forall k n, k ∈ past -> figure inv s now k <> Some (Limited n)) /\
             (known = true -> exists k, figure inv s now k = Some Unlimited);
  f_tight : only = false -> known = true /\ (exists k, k ∈ past /\ figure inv s now k = Some (Limited tight)) /\
              (forall k m, k ∈ past -> figure inv s now k = Some (Limited m) -> tight <= m);
}.
Definition headroom_spec (inv : QuotaInventory) (s : Subject) (now : N) (all : list QuotaKind) (h : Headroom) : Prop :=
  match h with
  | HeadroomExhausted k _ _ => figure inv s now k = Some (Limited 0)
  | HeadroomLimited n => 0 < n /\ (exists k, figure inv s now k = Some (Limited n)) /\ (forall k m, k ∈ all -> figure inv s now k = Some (Limited m) -> n <= m)
  | HeadroomUnlimited => (exists k, figure inv s now k = Some Unlimited) /\ (forall k n, k ∈ all -> figure inv s now k <> Some (Limited n))
  | HeadroomUnknown => forall k, k ∈ all -> figure inv s now k = None \/ figure inv s now k = Some AmountUnknown
  end.
Lemma elem_snoc {A} (P : A -> Prop) l x : (forall j, j ∈ l -> P j) -> P x -> forall j, j ∈ l ++ [x] -> P j.
Proof. intros H1 H2 j [H|H%list_elem_of_singleton]%elem_of_app; [by apply H1|by subst]. Qed.
(** A dimension without a count. *)
Lemma seen_skip inv s now past known only tight k : seen_so_far inv s now past known only tight ->
  (forall n, figure inv s now k <> Some (Limited n)) ->
  seen_so_far inv s now (past ++ [k]) (bool_decide (figure inv s now k = Some Unlimited) || known) only tight.
Proof.
  intros [Hz Hk Ho Ht] Hf. split.
  - apply elem_snoc; [done|apply Hf].
  - intros [Hu Hkn]%orb_false_iff. apply bool_decide_eq_false in Hu. apply elem_snoc; [exact (Hk Hkn)|].
    destruct (figure inv s now k) as [[|n|]|]; [by right|by destruct (Hf n)|done|by left].
  - intros H. destruct (Ho H) as (H1 & H2 & H3). split; [done|]. split.
    + intros j n Hj. revert j Hj. apply elem_snoc; [intros j; apply H2|apply Hf].
    + intros [Hu|Hkn]%orb_true_iff; [|by apply H3]. exists k. by apply bool_decide_eq_true in Hu.
  - intros H. destruct (Ht H) as (-> & (j & Hj & Hj') & H3). rewrite orb_true_r. split; [done|]. split; [exists j; set_solver|].
    intros j' m Hj''. revert j' Hj''. apply (elem_snoc (fun j' => figure inv s now j' = Some (Limited m) -> tight <= m)); [intros; by eapply H3|].
    intros E. by destruct (Hf m).
Qed.
(** A count that is not zero. *)
Lemma seen_count inv s now past known only tight k n : seen_so_far inv s now past known only tight ->
  figure inv s now k = Some (Limited n) -> n <> 0 -> n <= u64_max ->
  seen_so_far inv s now (past ++ [k]) true false (N.min tight n).
Proof.
  intros [Hz Hk Ho Ht] Hf Hn0 Hb. split; [|done|done|].
  - apply elem_snoc; [done|]. rewrite Hf. by intros [= E].
  - intros _. split; [done|]. destruct only.
    + destruct (Ho eq_refl) as (-> & H2 & _). rewrite N.min_r by lia. split; [exists k; set_solver|].
      intros j m Hj. revert j Hj. apply (elem_snoc (fun j => figure inv s now j = Some (Limited m) -> n <= m)).
      * intros j Hj HH. by destruct (H2 j m Hj).
      * rewrite Hf. by intros [= ->].
    + destruct (Ht eq_refl) as (_ & (j & Hj & Hj') & H3). split.
      * destruct (N.le_gt_cases tight n); [rewrite N.min_l by lia; exists j; set_solver|rewrite N.min_r by lia; exists k; set_solver].
      * intros j' m Hj''. revert j' Hj''. apply (elem_snoc (fun j' => figure inv s now j' = Some (Limited m) -> N.min tight n <= m)).
        -- intros j' Hj1 Hj2. specialize (H3 j' m Hj1 Hj2). lia.
        -- rewrite Hf. intros [= ->]. lia.
Qed.
Lemma resolve_kinds_exact inv s now ks : (forall k n, figure inv s now k = Some (Limited n) -> n <= u64_max) ->
  forall past known only tight, seen_so_far inv s now past known only tight ->
  headroom_spec inv s now (past ++ ks) (resolve_kinds sha_hex inv s now ks known only tight).
Proof.
  intros Hb. induction ks as [|k ks IH]; intros past known only tight HS; cbn [resolve_kinds].
  - rewrite app_nil_r. destruct HS as [Hz Hk Ho Ht]. destruct known; cbn [negb]; [|exact (Hk eq_refl)]. destruct only; cbn.
    + destruct (Ho eq_refl) as (_ & H & Hu). split; [by apply Hu|done].
    + destruct (Ht eq_refl) as (_ & (k & Hin & Hfig) & Hle). split; [|split; [by exists k|done]].
      destruct (N.eq_dec tight 0) as [->|]; [by destruct (Hz k Hin)|lia].
  - assert (figure inv s now k = q_amount <$> latest sha_hex inv s k now) as Hfig by done.
    rewrite cons_middle, app_assoc. pose proof (seen_skip inv s now past known only tight k HS) as Hskip.
    destruct (latest sha_hex inv s k now) as [o|]; cbn [fmap option_fmap option_map] in Hfig; [destruct (q_amount o) as [|n|] eqn:Ea|];
      rewrite Hfig in Hskip.
    + by apply IH, Hskip.
    + destruct (N.eq_dec n 0) as [->|Hn0]; [done|]. pose proof (seen_count inv s now past known only tight k n HS Hfig Hn0 (Hb k n Hfig)) as Hc.
      destruct n; [done|]. by apply IH.
    + by apply IH, Hskip.
    + by apply IH, Hskip.
Qed.

(** What [resolve] answers is what the latest figures on record say. Exhausted: some
    dimension's is zero. Limited: it is the least of them, and none is zero. Unlimited: some
    figure says so and none is a count. Unknown: no dimension has a figure; it is read neither
    as zero nor as unlimited. *)
Theorem headroom_is_exact inv s now : (forall k n, figure inv s now k = Some (Limited n) -> n <= u64_max) ->
  match resolve sha_hex inv s now with
  | HeadroomExhausted k _ _ => figure inv s now k = Some (Limited 0)
  | HeadroomLimited n => 0 < n /\ (exists k, figure inv s now k = Some (Limited n)) /\ (forall k m, figure inv s now k = Some (Limited m) -> n <= m)
  | HeadroomUnlimited => (exists k, figure inv s now k = Some Unlimited) /\ (forall k n, figure inv s now k <> Some (Limited n))
  | HeadroomUnknown => forall k, figure inv s now k = None \/ figure inv s now k = Some AmountUnknown
  end.
Proof.
  intros Hb. assert (seen_so_far inv s now [] false true u64_max) as H0.
  { split; [intros k Hk; by apply not_elem_of_nil in Hk|intros _ k Hk; by apply not_elem_of_nil in Hk| |done].
    intros _. split; [done|]. split; [intros k n Hk; by apply not_elem_of_nil in Hk|done]. }
  pose proof (resolve_kinds_exact inv s now kinds Hb [] false true u64_max H0) as H. unfold resolve.
  assert (forall k, k ∈ [] ++ kinds) as Hall by (intros []; set_solver).
  destruct (resolve_kinds sha_hex inv s now kinds false true u64_max); cbn in H; intuition eauto.
Qed.
End Figures.

(** ** Examples *)

Definition reply (hs : list (string * string)) (now : N) : list QuotaObservation := parse_quota_headers toy alice hs now.
Definition heard (hs : list (string * string)) (now : N) : QuotaInventory :=
  fold_left (fun inv o => record inv o now) (reply hs now) QuotaInventory_new.

Lemma inventory_keeps_one_figure_witness : inventory_inv 1 (record (QuotaInventory_with_capacity 1) (observation toy alice [] 100 Requests (Limited 0) None Headers) 100).
Proof.
  apply (inventory_keeps_one_figure 1). split; [reflexivity|apply Nat.leb_le; reflexivity|constructor].
Defined.
Definition three_hundred : QuotaInventory :=
  heard [("X-RateLimit-Remaining-Requests", "300"); ("x-ratelimit-remaining-tokens", " 12 "); ("x-credits-remaining", "1e3")] 100.
Lemma headroom_is_exact_witness : exists k, figure toy three_hundred alice 150 k = Some (Limited 12).
Proof.
  assert (forall k n, figure toy three_hundred alice 150 k = Some (Limited n) -> n <= u64_max) as Hb.
  { intros k n H. assert (match figure toy three_hundred alice 150 k with Some (Limited m) => m <=? u64_max | _ => true end = true) as E by (destruct k; vm_compute; reflexivity).
    rewrite H in E. by apply N.leb_le. }
  pose proof (headroom_is_exact toy three_hundred alice 150 Hb) as H.
  assert (resolve toy three_hundred alice 150 = HeadroomLimited 12) as E by (vm_compute; reflexivity).
  rewrite E in H. exact (proj1 (proj2 H)).
Defined.

(** A dimension the provider left open beside one without a cap reads as unlimited. *)
Lemma unknown_beside_unlimited :
  resolve toy (heard [("x-ratelimit-remaining-requests", "soon"); ("x-ratelimit-limit-tokens", "18446744073709551615")] 100) alice 150 = HeadroomUnlimited.
Proof. vm_compute. reflexivity. Qed.
(** A window that has reset holds its zero until the figure is stale, unless something else is
    recorded. *)
Definition spent : list (string * string) := [("x-ratelimit-remaining-requests", "0"); ("x-ratelimit-reset-requests", "60")].
Lemma passed_reset_still_blocks :
  resolve toy (heard spent 100) alice 3000 = HeadroomExhausted Requests (Some 160) None /\
  resolve toy (prune (heard spent 100) 3000) alice 3000 = HeadroomUnknown.
Proof. split; vm_compute; reflexivity. Qed.

Definition gemma : Subject := mkSubject "openai" "sk-alice-1" (Some "acme") None "gemma".
Definition after (inv : QuotaInventory) (st : option EligibilityStore) (s : Subject) (now : N) : option EligibilityKind :=
  (fun st => v_kind (CloudEligibility.resolve toy st s now)) <$> st.
(** A zero without a reset time is exported as a block that never ends. *)
Lemma exhaustion_without_reset_never_ends :
  let '(inv, st) := record_quota_headers toy QuotaInventory_new (CloudEligibility.with_capacity 8) alice [("x-ratelimit-remaining-requests", "0")] 100 [] 100 in
  after inv st alice 100000000 = Some QuotaExhausted.
Proof. vm_compute. reflexivity. Qed.
(** An old zero is exported again, as new, with every later reply: it outranks the success that
    came after it. *)
Lemma old_exhaustion_outranks_success :
  let '(inv, st) := record_quota_headers toy QuotaInventory_new (CloudEligibility.with_capacity 8) alice [("x-ratelimit-remaining-requests", "0")] 100 [] 100 in
  let st := st ≫= fun st => record_inference toy st alice Success 200 [] 200 in
  after inv st alice 250 = Some Usable /\
  (let '(inv, st') := match st with Some st => record_quota_headers toy inv st gemma [("x-ratelimit-remaining-requests", "7")] 300 [] 300 | None => (inv, None) end in
   after inv st' alice 350 = Some QuotaExhausted).
Proof. split; vm_compute; reflexivity. Qed.
