(* ===== verification/CloudBudget.v ===== *)
(** * CloudBudget: what parallel attempts may spend ([crates/susi-gawd-agents/src/cloud_budget.rs])

    The ledger is behind one mutex, so the attempts of any number of workers are a sequence
    of operations on it.  Reservation ids come from one counter of the process, here part of
    the ledger.  Sums wrap as in a release build. *)

From S2P Require Import Prelude.

Local Open Scope list_scope.
Local Open Scope N_scope.

Inductive SpendPolicy : Type :=
| FreeOnly
| PaidAuthorized (max_spend_micro : N)
| AskFirst (max_spend_micro : N).

Inductive Denial : Type :=
| FreeExhausted
| OverBudget (held_plus_committed requested cap : N)
| NeedsConsent (estimate : N)
| NeedsPriceConsent (worst_case : N).

Inductive FreeHeadroom : Type :=
| Available
| Exhausted
| HeadroomUnknown.

Record Held : Type := mkHeld {
  h_account : string;
  h_estimate : N;
}.
(** The request, less the fields no rule looks at. *)
Record ReserveRequest : Type := mkRequest {
  account : string;
  policy : SpendPolicy;
  is_free_candidate : bool;
  free_headroom : FreeHeadroom;
  estimate : N;
}.
Record Ledger : Type := mkLedger {
  committed : gmap string N;
  held : gmap N Held;
  next_id : N;
}.
Definition Ledger_new : Ledger := mkLedger ∅ ∅ 1.

Definition held_by (g : Ledger) (a : string) : list N :=
  h_estimate <$> filter (fun h => h_account h = a) (map_to_list (held g)).*2.
Definition committed_to (g : Ledger) (a : string) : N := default 0 (committed g !! a).
Definition account_exposure (g : Ledger) (a : string) : N := wrapping_add (committed_to g a) (sum_u64 (held_by g a)).

Definition new_hold (g : Ledger) (a : string) (e : N) : Ledger * N :=
  (mkLedger (committed g) (<[next_id g := mkHeld a e]> (held g)) (next_id g + 1), next_id g).

Definition reserve (g : Ledger) (req : ReserveRequest) : result (Ledger * N) Denial :=
  let exposure := saturating_add (committed_to g (account req)) (sum_u64 (held_by g (account req))) in
  if is_free_candidate req && match free_headroom req with Exhausted => false | _ => true end
  then Ok (new_hold g (account req) 0)
  else match policy req with
  | FreeOnly => Err FreeExhausted
  | AskFirst _ => if estimate req =? 0 then Err (NeedsPriceConsent u64_max) else Err (NeedsConsent (estimate req))
  | PaidAuthorized max_spend_micro =>
      if estimate req =? 0 then
        if exposure <? max_spend_micro then Ok (new_hold g (account req) (max_spend_micro - exposure))
        else Err (OverBudget exposure 0 max_spend_micro)
      else if max_spend_micro <? saturating_add exposure (estimate req)
      then Err (OverBudget exposure (estimate req) max_spend_micro)
      else Ok (new_hold g (account req) (estimate req))
  end.

(** [commit]: the usage reported, or the estimate. *)
Definition commit (g : Ledger) (res : N) (actual : option N) : Ledger :=
  match held g !! res with
  | Some h =>
      mkLedger (<[h_account h := wrapping_add (committed_to g (h_account h)) (default (h_estimate h) actual)]> (committed g))
        (delete res (held g)) (next_id g)
  | None => g
  end.
Definition release (g : Ledger) (res : N) : Ledger := mkLedger (committed g) (delete res (held g)) (next_id g).

Definition consent_granted (p : SpendPolicy) : SpendPolicy :=
  match p with AskFirst m => PaidAuthorized m | FreeOnly | PaidAuthorized _ => p end.

(** ** Histories *)

Inductive Op : Type :=
| Reserve (req : ReserveRequest)
| Commit (res : N) (actual : option N)
| Release (res : N).
Definition apply (g : Ledger) (op : Op) : Ledger :=
  match op with
  | Reserve req => match reserve g req with Ok (g', _) => g' | Err _ => g end
  | Commit res actual => commit g res actual
  | Release res => release g res
  end.
Definition run (ops : list Op) : Ledger := fold_left apply ops Ledger_new.

(** What an operation charges an account beyond what was held for it. *)
Definition overrun (a : string) (g : Ledger) (op : Op) : N :=
  match op with
  | Commit res (Some actual) =>
      match held g !! res with
      | Some h => if bool_decide (h_account h = a) then actual - h_estimate h else 0
      | None => 0
      end
  | _ => 0
  end.
Fixpoint overruns (a : string) (g : Ledger) (ops : list Op) : N :=
  match ops with
  | [] => 0
  | op :: ops' => overrun a g op + overruns a (apply g op) ops'
  end.
(** No reservation for the account is authorized beyond [cap]. *)
Definition capped (a : string) (cap : N) (op : Op) : Prop :=
  match op with
  | Reserve req => account req = a -> match policy req with PaidAuthorized m => m <= cap | _ => True end
  | _ => True
  end.

(** ** Sums *)

(** The exposure, as the sum it stands for. *)
Definition exposure_of (g : Ledger) (a : string) : N := committed_to g a + sum_of (held_by g a).

Lemma held_by_insert g a k h : held g !! k = None ->
  sum_of (held_by (mkLedger (committed g) (<[k := h]> (held g)) (next_id g + 1)) a)
  = (if bool_decide (h_account h = a) then h_estimate h else 0) + sum_of (held_by g a).
Proof.
  intros Hk. unfold held_by. cbn [held]. rewrite (sum_of_perm _ (h_estimate <$> filter (fun h => h_account h = a) (h :: (map_to_list (held g)).*2))).
  - case_bool_decide; [rewrite filter_cons_True by done|rewrite filter_cons_False by done]; cbn; done.
  - by rewrite map_to_list_insert.
Qed.
Lemma held_by_delete m m' n n' g0 g1 a k h : g0 = mkLedger m g1 n -> g1 !! k = Some h ->
  sum_of (held_by g0 a) = (if bool_decide (h_account h = a) then h_estimate h else 0) + sum_of (held_by (mkLedger m' (delete k g1) n') a).
Proof.
  intros -> Hk. unfold held_by. cbn [held].
  rewrite (sum_of_perm _ (h_estimate <$> filter (fun h => h_account h = a) (h :: (map_to_list (delete k g1)).*2))).
  - case_bool_decide; [rewrite filter_cons_True by done|rewrite filter_cons_False by done]; cbn; done.
  - rewrite <- (map_to_list_delete g1 k h) by done. done.
Qed.

(** ** What the ledger promises *)

Definition raw_exposure (g : Ledger) (a : string) : N := saturating_add (committed_to g a) (sum_u64 (held_by g a)).
(** What an admitted reservation holds. *)
Lemma reserve_Ok g req r : reserve g req = Ok r -> exists e, r = new_hold g (account req) e /\
  (e = 0 \/ exists m, policy req = PaidAuthorized m /\
     (raw_exposure g (account req) + e = m \/ saturating_add (raw_exposure g (account req)) e <= m)).
Proof.
  unfold reserve. fold (raw_exposure g (account req)). destruct (_ && _); [intros [= <-]; eauto|].
  destruct (policy req) as [|m|m]; [done| |by destruct (_ =? _)]. destruct (N.eqb_spec (estimate req) 0).
  - destruct (N.ltb_spec (raw_exposure g (account req)) m); [|done]. intros [= <-]. eexists. split; [done|]. right. exists m. split; [done|]. left. lia.
  - destruct (N.ltb_spec m (saturating_add (raw_exposure g (account req)) (estimate req))); [done|]. intros [= <-].
    eexists. split; [done|]. right. exists m. auto.
Qed.
(** An operation on a reservation is a new hold, or leaves the ledger as it is. *)
Lemma apply_reserve g req : apply g (Reserve req) = g \/ exists e, apply g (Reserve req) = (new_hold g (account req) e).1 /\ reserve g req = Ok (new_hold g (account req) e).
Proof.
  cbn [apply]. destruct (reserve g req) as [[g' n]|] eqn:E; [|by left]. right.
  destruct (reserve_Ok _ _ _ E) as (e & H & _). exists e. by rewrite <- H.
Qed.

Definition fresh_ids (g : Ledger) : Prop := forall k h, held g !! k = Some h -> k < next_id g.
Lemma fresh_apply g op : fresh_ids g -> fresh_ids (apply g op).
Proof.
  intros Hf. destruct op as [req|res actual|res].
  - destruct (apply_reserve g req) as [->|(e & -> & _)]; [done|]. intros k hh. cbn. intros [[<- _]|[_ H%Hf]]%lookup_insert_Some; lia.
  - cbn. unfold commit. destruct (held g !! res); [|done]. intros k hh. cbn. intros [_ H%Hf]%lookup_delete_Some. lia.
  - intros k hh. cbn. intros [_ H%Hf]%lookup_delete_Some. lia.
Qed.

Lemma exposure_new_hold g a b e : fresh_ids g ->
  exposure_of (new_hold g b e).1 a = (if bool_decide (b = a) then e else 0) + exposure_of g a.
Proof.
  intros Hf. unfold exposure_of, new_hold. cbn [fst]. rewrite held_by_insert; [cbn; unfold committed_to; cbn; lia|].
  apply eq_None_not_Some. intros [h Hh%Hf]. lia.
Qed.
Lemma exposure_release g a res : exposure_of (release g res) a <= exposure_of g a.
Proof.
  unfold exposure_of, release. unfold committed_to. cbn [committed]. destruct (held g !! res) as [h|] eqn:E.
  - destruct g as [m gh n]. cbn in *. rewrite (held_by_delete m m n n _ gh a res h eq_refl E). cbn [held]. lia.
  - rewrite delete_id by done. destruct g. cbn. lia.
Qed.
Lemma exposure_commit g a res actual : exposure_of g a + overrun a g (Commit res actual) <= u64_max ->
  exposure_of (commit g res actual) a <= exposure_of g a + overrun a g (Commit res actual).
Proof.
  unfold commit, overrun. destruct (held g !! res) as [h|] eqn:E; [|intros _; destruct actual; lia].
  destruct g as [m gh n]. cbn [held committed next_id] in *. unfold exposure_of.
  rewrite (held_by_delete m (<[h_account h := wrapping_add (committed_to (mkLedger m gh n) (h_account h)) (default (h_estimate h) actual)]> m) n n _ gh a res h eq_refl E).
  unfold committed_to. cbn [committed]. case_bool_decide as Ha.
  - subst a. rewrite lookup_insert_eq. cbn [default]. intros Hb. destruct actual as [c|]; cbn in *.
    + rewrite wrapping_add_exact by lia. lia.
    + rewrite wrapping_add_exact by lia. lia.
  - rewrite lookup_insert_ne by done. intros _. destruct actual; cbn; lia.
Qed.

Lemma exposure_reserve g a cap req : fresh_ids g -> exposure_of g a <= u64_max -> cap < u64_max ->
  capped a cap (Reserve req) -> exposure_of (apply g (Reserve req)) a <= N.max cap (exposure_of g a).
Proof.
  intros Hf Hx Hcap Hc. destruct (apply_reserve g req) as [->|(e & -> & Hr)]; [lia|]. rewrite exposure_new_hold by done.
  case_bool_decide as Ha; [|lia]. apply reserve_Ok in Hr as (e' & He & Hr).
  assert (e = e') as <- by (apply (f_equal (fun r => h_estimate <$> held r.1 !! next_id g)) in He; cbn in He; rewrite !lookup_insert_eq in He; by injection He).
  destruct Hr as [->|(m & Hp & Hm)]; [lia|]. specialize (Hc Ha). rewrite Hp in Hc. rewrite Ha in Hm. unfold raw_exposure in Hm.
  assert (saturating_add (committed_to g a) (sum_u64 (held_by g a)) = exposure_of g a) as Hraw.
  { unfold exposure_of in *. rewrite sum_u64_exact by lia. apply saturating_add_exact. lia. }
  rewrite Hraw in Hm. unfold saturating_add in Hm. lia.
Qed.

Lemma exposure_step g a cap op B : fresh_ids g -> cap <= B -> cap < u64_max -> exposure_of g a <= B ->
  B + overrun a g op <= u64_max -> capped a cap op -> exposure_of (apply g op) a <= B + overrun a g op.
Proof.
  intros Hf HB Hcap Hx Ho Hc. destruct op as [req|res actual|res].
  - pose proof (exposure_reserve g a cap req Hf ltac:(cbn in Ho; lia) Hcap Hc). cbn [overrun] in *. lia.
  - pose proof (exposure_commit g a res actual ltac:(lia)) as H. cbn [apply]. lia.
  - pose proof (exposure_release g a res). cbn [apply overrun] in *. lia.
Qed.
Lemma exposure_run a cap ops : forall g B, fresh_ids g -> cap <= B -> cap < u64_max -> exposure_of g a <= B ->
  B + overruns a g ops <= u64_max -> Forall (capped a cap) ops -> exposure_of (fold_left apply ops g) a <= B + overruns a g ops.
Proof.
  induction ops as [|op ops IH]; intros g B Hf HB Hcap Hx Ho Hc; cbn [fold_left overruns] in *; [lia|].
  apply Forall_cons in Hc as [Hc1 Hc]. pose proof (exposure_step g a cap op B Hf HB Hcap Hx ltac:(lia) Hc1).
  specialize (IH (apply g op) (B + overrun a g op) (fresh_apply g op Hf) ltac:(lia) Hcap ltac:(lia) ltac:(lia) Hc). lia.
Qed.

(** However many workers reserve, commit and release against one account, what is committed
    and held for it stays within the largest spend any of them was authorized to, plus what
    providers reported beyond what was held: no interleaving overruns a cap. With nothing
    authorized (free only, or consent not given) nothing is held at all. *)
Theorem cap_is_shared_by_all_workers a cap ops : cap < u64_max -> cap + overruns a Ledger_new ops <= u64_max ->
  Forall (capped a cap) ops -> account_exposure (run ops) a <= cap + overruns a Ledger_new ops.
Proof.
  intros Hcap Ho Hc. assert (exposure_of (run ops) a <= cap + overruns a Ledger_new ops) as H.
  { apply (exposure_run a cap ops Ledger_new cap); [|lia|done|unfold exposure_of; change (held_by Ledger_new a) with (@nil N); change (committed_to Ledger_new a) with 0; cbn; lia|done|done]. intros k h. cbn. by rewrite lookup_empty. }
  unfold account_exposure. unfold exposure_of in H. rewrite sum_u64_exact by lia. rewrite wrapping_add_exact by lia. exact H.
Qed.

Lemma next_id_mono g op : next_id g <= next_id (apply g op).
Proof.
  destruct op as [req|res actual|res]; [|cbn; unfold commit; destruct (held g !! res); cbn; lia|cbn; lia].
  destruct (apply_reserve g req) as [->|(e & -> & _)]; cbn; lia.
Qed.
Lemma settled_stays g op res : fresh_ids g -> res < next_id g -> held g !! res = None -> held (apply g op) !! res = None.
Proof.
  intros Hf Hr Hn. destruct op as [req|res' actual|res'].
  - destruct (apply_reserve g req) as [->|(e & -> & _)]; [done|]. cbn. by rewrite lookup_insert_ne by lia.
  - cbn. unfold commit. destruct (held g !! res'); [|done]. cbn. rewrite lookup_delete_None. by right.
  - cbn. rewrite lookup_delete_None. by right.
Qed.
Lemma fresh_run ops g : fresh_ids g -> fresh_ids (fold_left apply ops g).
Proof. revert g. induction ops as [|op ops IH]; intros g Hf; [done|]. cbn. by apply IH, fresh_apply. Qed.

(** A reservation is settled at most once: after it was committed or released, whatever
    happens, committing or releasing it again changes nothing. *)
Theorem reservation_settles_once ops ops' op res actual : res < next_id (run ops) ->
  (op = Release res \/ exists x, op = Commit res x) ->
  let g := run (ops ++ op :: ops') in commit g res actual = g /\ release g res = g.
Proof.
  intros Hr Hop g.
  assert (held g !! res = None) as Hn.
  { unfold g, run. rewrite fold_left_app. cbn. fold (run ops).
    assert (fresh_ids (run ops)) as Hf by (apply fresh_run; intros k h; cbn; by rewrite lookup_empty).
    assert (held (apply (run ops) op) !! res = None) as Hn.
    { destruct Hop as [->|[x ->]]; cbn; [apply lookup_delete_eq|]. unfold commit. destruct (held (run ops) !! res) eqn:E; [|done]. cbn. apply lookup_delete_eq. }
    assert (res < next_id (apply (run ops) op)) as Hlt by (pose proof (next_id_mono (run ops) op); lia).
    apply fresh_apply with (op := op) in Hf. revert Hn Hlt Hf. generalize (apply (run ops) op) as g'. clear.
    induction ops' as [|op' ops' IH]; intros g' Hn Hlt Hf; [done|]. cbn. apply IH.
    - by apply settled_stays.
    - pose proof (next_id_mono g' op'). lia.
    - by apply fresh_apply. }
  unfold commit, release. rewrite Hn. split; [done|]. rewrite delete_id by done. by destruct g.
Qed.

(** ** Examples *)

Definition paid (e : N) : ReserveRequest := mkRequest "acme" (PaidAuthorized 100) false HeadroomUnknown e.
Definition two_workers : list Op := [Reserve (paid 60); Reserve (paid 60); Reserve (paid 40); Commit 1 (Some 70)].

Lemma cap_is_shared_by_all_workers_witness : account_exposure (run two_workers) "acme" <= 100 + 10.
Proof.
  apply (cap_is_shared_by_all_workers "acme" 100 two_workers); [reflexivity|vm_compute; discriminate|].
  repeat constructor; vm_compute; discriminate.
Defined.
Lemma reservation_settles_once_witness :
  let g := run (two_workers ++ [Reserve (paid 1)]) in commit g 1 (Some 5) = g /\ release g 1 = g.
Proof.
  apply (reservation_settles_once [Reserve (paid 60); Reserve (paid 60); Reserve (paid 40)] [Reserve (paid 1)] (Commit 1 (Some 70)) 1 (Some 5)).
  - reflexivity.
  - right. exists (Some 70). reflexivity.
Defined.
Example second_worker_is_refused : reserve (run [Reserve (paid 60)]) (paid 60) = Err (OverBudget 60 60 100).
Proof. vm_compute. reflexivity. Qed.
(** A price nobody knows holds all that is left, and unreported usage is charged at that. *)
Example unknown_price_takes_the_rest : account_exposure (run [Reserve (paid 60); Reserve (paid 0); Commit 2 None]) "acme" = 100.
Proof. vm_compute. reflexivity. Qed.
