(* ===== verification/CloudLockout.v ===== *)
(** * CloudLockout: when a target may be tried again
    ([crates/susi-gawd-swarm/src/cloud_lockout.rs])

    Milliseconds; the clock is an argument of each operation.  The tracker is shared behind a
    mutex, so the workers' calls are a sequence.  Persisting it as JSON is not modelled. *)

From S2P Require Import Prelude PulseQueue CloudEligibility.
From stdpp Require Import pretty.

Local Open Scope string_scope.
Local Open Scope list_scope.
Local Open Scope N_scope.

Record LockoutPolicy : Type := mkPolicy {
  base_cooldown_ms : N;
  max_cooldown_ms : N;
  max_consecutive_failures : N;
  half_open_probes : N;
  jitter_ppt : N;
}.
Definition LockoutPolicy_default : LockoutPolicy := mkPolicy 1000 300000 3 1 200.

Inductive Circuit : Type :=
| Closed
| Open
| HalfOpen.
#[export] Instance circuit_eq_dec : EqDecision Circuit.
Proof. solve_decision. Defined.

Inductive Permit : Type :=
| Allowed
| Cooldown (retry_at_ms : N)
| CircuitOpen (retry_at_ms : N)
| ProbesExhausted
| Permanent (reason : string).

Record Entry : Type := mkEntry {
  circuit : Circuit;
  consecutive_failures : N;
  cooldown_until_ms : N;
  retry_after_until_ms : N;
  probes_in_flight : N;
  permanent : option string;
  permanent_kind : option EligibilityKind;
  last_kind : option EligibilityKind;
  last_seen_ms : N;
}.
Definition Entry_default : Entry := mkEntry Closed 0 0 0 0 None None None 0.

Record LockoutTracker : Type := mkTracker {
  entries : gmap string Entry;
  cap : nat;
  lpolicy : LockoutPolicy;
}.
Definition LockoutTracker_new (p : LockoutPolicy) : LockoutTracker := mkTracker ∅ 4096 p.
Definition with_capacity (c : nat) (p : LockoutPolicy) : LockoutTracker := mkTracker ∅ (Nat.max c 1) p.
Definition with_entries (t : LockoutTracker) (m : gmap string Entry) : LockoutTracker := mkTracker m (cap t) (lpolicy t).

(** ** Backoff *)

Definition saturating_add_u32 (a b : N) : N := N.min (a + b) u32_max.
Definition jitter_ms (scope : string) (attempt : N) : N :=
  fold_left (fun h b => N.lxor ((h * 1099511628211) mod 2 ^ 64) b) (bytes_of scope) (N.lxor 11400714819323198485 attempt) mod 1000.
Definition backoff_ms (p : LockoutPolicy) (scope : string) (failures : N) : N :=
  let shift := N.min (failures - 1) 16 in
  let base := saturating_mul (base_cooldown_ms p) (N.shiftl 1 shift) in
  let jitter := saturating_mul base (N.min (jitter_ppt p) 1000) / 1000 * jitter_ms scope failures / 1000 in
  N.min (saturating_add base jitter) (max_cooldown_ms p).

(** ** Entries *)

Definition until_of (e : Entry) : N := N.max (cooldown_until_ms e) (retry_after_until_ms e).
Definition seen (now : N) (e : Entry) : Entry :=
  mkEntry (circuit e) (consecutive_failures e) (cooldown_until_ms e) (retry_after_until_ms e) (probes_in_flight e)
    (permanent e) (permanent_kind e) (last_kind e) (N.max (last_seen_ms e) now).
(** [entry], and what the caller makes of the entry it returns. *)
Definition make_room (t : LockoutTracker) (scope : string) : gmap string Entry :=
  if bool_decide (entries t !! scope = None) && (cap t <=? size (entries t))%nat then
    match first_min_by (fun '(_, e) => last_seen_ms e) (btree_entries (entries t)) with
    | Some (oldest, _) => delete oldest (entries t)
    | None => entries t
    end
  else entries t.
Definition entry (t : LockoutTracker) (scope : string) (now : N) : Entry := seen now (default Entry_default (make_room t scope !! scope)).
Definition update (t : LockoutTracker) (scope : string) (now : N) (f : Entry -> Entry) : LockoutTracker :=
  with_entries t (<[scope := f (entry t scope now)]> (make_room t scope)).

Definition set_last_kind (k : EligibilityKind) (e : Entry) : Entry :=
  mkEntry (circuit e) (consecutive_failures e) (cooldown_until_ms e) (retry_after_until_ms e) (probes_in_flight e)
    (permanent e) (permanent_kind e) (Some k) (last_seen_ms e).
Definition set_permanent (why : string) (k : EligibilityKind) (e : Entry) : Entry :=
  mkEntry (circuit e) (consecutive_failures e) (cooldown_until_ms e) (retry_after_until_ms e) 0
    (Some why) (Some k) (last_kind e) (last_seen_ms e).
Definition count_failure (e : Entry) : Entry :=
  mkEntry (circuit e) (saturating_add_u32 (consecutive_failures e) 1) (cooldown_until_ms e) (retry_after_until_ms e) 0
    (permanent e) (permanent_kind e) (last_kind e) (last_seen_ms e).
Definition set_cooldown (until : N) (e : Entry) : Entry :=
  mkEntry (circuit e) (consecutive_failures e) until (retry_after_until_ms e) (probes_in_flight e)
    (permanent e) (permanent_kind e) (last_kind e) (last_seen_ms e).
Definition set_retry_after (until : N) (e : Entry) : Entry :=
  mkEntry (circuit e) (consecutive_failures e) (cooldown_until_ms e) until (probes_in_flight e)
    (permanent e) (permanent_kind e) (last_kind e) (last_seen_ms e).
Definition set_circuit (c : Circuit) (e : Entry) : Entry :=
  mkEntry c (consecutive_failures e) (cooldown_until_ms e) (retry_after_until_ms e) (probes_in_flight e)
    (permanent e) (permanent_kind e) (last_kind e) (last_seen_ms e).
Definition set_probes (n : N) (e : Entry) : Entry :=
  mkEntry (circuit e) (consecutive_failures e) (cooldown_until_ms e) (retry_after_until_ms e) n
    (permanent e) (permanent_kind e) (last_kind e) (last_seen_ms e).

(** ** Permits *)

Definition now_ms (clock : N) : N := saturating_mul clock 1000.
Definition hard_rejection : string := "hard provider rejection (auth/credit/access)".
Definition is_permanent_kind (k : EligibilityKind) : bool :=
  match k with InvalidCredential | InsufficientCredit | AccessDenied | UnsupportedRequest => true | _ => false end.
Definition permit (t : LockoutTracker) (clock : N) (scope : string) (verdict : EligibilityKind) : Permit :=
  let now := now_ms clock in
  match entries t !! scope with
  | None => Allowed
  | Some e =>
      if bool_decide (is_Some (permanent e)) || is_permanent_kind verdict then Permanent hard_rejection
      else match circuit e with
      | Closed => Allowed
      | Open => if until_of e <=? now then Allowed else CircuitOpen (until_of e)
      | HalfOpen =>
          if now <? until_of e then Cooldown (until_of e)
          else if half_open_probes (lpolicy t) <=? probes_in_flight e then ProbesExhausted else Allowed
      end
  end.

(** ** Probes and attempts *)

Definition acquire_probe (t : LockoutTracker) (clock : N) (scope : string) : LockoutTracker * bool :=
  let now := now_ms clock in
  let e := entry t scope now in
  if bool_decide (circuit e = HalfOpen) && (probes_in_flight e <? half_open_probes (lpolicy t))
  then (update t scope now (set_probes (probes_in_flight e + 1)), true)
  else (update t scope now id, bool_decide (circuit e = Closed)).
Definition release_probe (t : LockoutTracker) (clock : N) (scope : string) : LockoutTracker :=
  update t scope (now_ms clock) (fun e => set_probes (probes_in_flight e - 1) e).
Definition half_open_due (now : N) (e : Entry) : Entry :=
  if bool_decide (circuit e = Open) && (until_of e <=? now) then set_circuit HalfOpen e else e.
Definition note_attempt (t : LockoutTracker) (clock : N) (scope : string) : LockoutTracker :=
  update t scope (now_ms clock) (half_open_due (now_ms clock)).
Definition tick (t : LockoutTracker) (clock : N) : LockoutTracker :=
  with_entries t (half_open_due (now_ms clock) <$> entries t).
Definition lift (t : LockoutTracker) (scope : string) : LockoutTracker := with_entries t (delete scope (entries t)).
Definition lift_if_fresh_evidence (t : LockoutTracker) (scope : string) (usable : bool) : LockoutTracker :=
  if usable then lift t scope else t.

(** ** Outcomes *)

Definition trip_if_needed (t : LockoutTracker) (scope : string) (until_ms : N) : LockoutTracker :=
  update t scope until_ms (fun e =>
    set_circuit (if max_consecutive_failures (lpolicy t) <=? consecutive_failures e then Open else HalfOpen) e).
Definition kind_name (k : EligibilityKind) : string :=
  match k with
  | Usable => "Usable" | Unknown => "Unknown" | InvalidCredential => "InvalidCredential" | InsufficientCredit => "InsufficientCredit"
  | QuotaExhausted => "QuotaExhausted" | RateLimited => "RateLimited" | ServiceUnavailable => "ServiceUnavailable"
  | AccessDenied => "AccessDenied" | UnsupportedRequest => "UnsupportedRequest"
  end.
(** The end of the cooldown a transient failure asks for. *)
Definition asked_until (retry_after_secs : option N) (now backoff : N) : N :=
  match retry_after_secs with Some s => saturating_add now (saturating_mul s 1000) | None => saturating_add now backoff end.
Definition record_failure (t : LockoutTracker) (now : N) (scope : string) (kind : EligibilityKind) (retry_after_secs : option N) : LockoutTracker :=
  let t := update t scope now (set_last_kind kind) in
  let cool (set : N -> Entry -> Entry) (until : N -> N) :=
    let failures := consecutive_failures (count_failure (entry t scope now)) in
    let t := update t scope now count_failure in
    let until := until failures in
    trip_if_needed (update t scope now (set until)) scope until in
  match kind with
  | InvalidCredential | InsufficientCredit | AccessDenied | UnsupportedRequest => update t scope now (set_permanent (kind_name kind) kind)
  | RateLimited => cool set_retry_after (fun failures => asked_until retry_after_secs now (backoff_ms (lpolicy t) scope failures))
  | ServiceUnavailable | Unknown => cool set_cooldown (fun failures => saturating_add now (backoff_ms (lpolicy t) scope failures))
  | QuotaExhausted => cool set_cooldown (fun failures => asked_until retry_after_secs now (backoff_ms (lpolicy t) scope failures))
  | Usable => lift t scope
  end.
Definition record (t : LockoutTracker) (clock : N) (scope : string) (result : InferenceResult) : LockoutTracker :=
  match result with
  | Success => lift t scope
  | Failed status body_snippet retry_after_secs =>
      record_failure t (now_ms clock) scope (classify_failure status body_snippet).1 retry_after_secs
  end.

(** ** Health *)

Definition class_of (k : EligibilityKind) : FailureClass :=
  match k with
  | RateLimited => PulseQueue.RateLimited
  | QuotaExhausted | InsufficientCredit => InsufficientQuota
  | InvalidCredential | AccessDenied => PulseQueue.InvalidCredential
  | ServiceUnavailable => ServiceError
  | UnsupportedRequest => Unsupported
  | Usable | Unknown => UnknownFailure
  end.
Definition permanent_class (e : Entry) : FailureClass :=
  match permanent_kind e with
  | Some kind => class_of kind
  | None =>
      let reason := default "" (permanent e) in
      if Text.contains "InsufficientCredit" reason then InsufficientQuota
      else if Text.contains "Unsupported" reason then Unsupported
      else PulseQueue.InvalidCredential
  end.
Definition dead_class (k : EligibilityKind) : option FailureClass :=
  match k with
  | InvalidCredential | AccessDenied => Some PulseQueue.InvalidCredential
  | InsufficientCredit => Some InsufficientQuota
  | UnsupportedRequest => Some Unsupported
  | _ => None
  end.
Definition health (t : LockoutTracker) (clock : N) (scope : string) (verdict : EligibilityKind) : ModelHealth :=
  let now := now_ms clock in
  match entries t !! scope with
  | None =>
      match dead_class verdict with
      | Some c => Dead c
      | None =>
          match verdict with
          | Usable => Healthy
          | QuotaExhausted => Unhealthy InsufficientQuota "out of quota until provider reset"
          | RateLimited => Unhealthy PulseQueue.RateLimited "rate limited"
          | ServiceUnavailable => Degraded "timeouts or provider 5xx"
          | _ => PulseQueue.Unknown
          end
      end
  | Some e =>
      if bool_decide (is_Some (permanent e)) then Dead (permanent_class e)
      else
        let kind := if bool_decide (verdict = Unknown) then default Unknown (last_kind e) else verdict in
        match dead_class kind with
        | Some c => Dead c
        | None =>
            let until := until_of e in
            let cooling := now <? until in
            if bool_decide (kind = RateLimited) then
              Unhealthy PulseQueue.RateLimited
                (if cooling then "cooling until " +:+ pretty until +:+ " ms (Retry-After honoured)" else "rate limited")
            else if bool_decide (kind = QuotaExhausted) then
              Unhealthy InsufficientQuota (if cooling then "out of quota until " +:+ pretty until +:+ " ms" else "out of quota")
            else if bool_decide (circuit e = Open) && cooling then
              Unhealthy ServiceError ("circuit open until " +:+ pretty until +:+ " ms")
            else if 0 <? consecutive_failures e then
              Degraded (if cooling then "intermittent failures; recovering at " +:+ pretty until +:+ " ms" else "intermittent failures")
            else match kind with
            | Usable => Healthy
            | ServiceUnavailable => Degraded "timeouts or provider 5xx"
            | _ => PulseQueue.Unknown
            end
        end
  end.

(** ** Histories *)

Inductive Op : Type :=
| Acquire (clock : N) (scope : string)
| ReleaseProbe (clock : N) (scope : string)
| NoteAttempt (clock : N) (scope : string)
| Tick (clock : N)
| Lift (scope : string) (usable : bool)
| Record (clock : N) (scope : string) (r : InferenceResult).
Definition apply (t : LockoutTracker) (op : Op) : LockoutTracker :=
  match op with
  | Acquire clock scope => (acquire_probe t clock scope).1
  | ReleaseProbe clock scope => release_probe t clock scope
  | NoteAttempt clock scope => note_attempt t clock scope
  | Tick clock => tick t clock
  | Lift scope usable => lift_if_fresh_evidence t scope usable
  | Record clock scope r => record t clock scope r
  end.
Definition run (t : LockoutTracker) (ops : list Op) : LockoutTracker := fold_left apply ops t.
Definition scope_of (op : Op) : option string :=
  match op with
  | Acquire _ s | ReleaseProbe _ s | NoteAttempt _ s | Lift s _ | Record _ s _ => Some s
  | Tick _ => None
  end.
Definition scopes_of (ops : list Op) : gset string := list_to_set (omap scope_of ops).

(** ** One update *)

Lemma make_room_subset t s : make_room t s ⊆ entries t.
Proof.
  unfold make_room. destruct (_ && _); [|done]. destruct (first_min_by _ _) as [[k e]|]; [|done]. apply delete_subseteq.
Qed.
Lemma update_cap t s now f : cap (update t s now f) = cap t /\ lpolicy (update t s now f) = lpolicy t.
Proof. done. Qed.
Lemma update_size t s now f : (0 < cap t)%nat -> (size (entries t) <= cap t)%nat -> (size (entries (update t s now f)) <= cap t)%nat.
Proof.
  intros Hc Hs. unfold update. cbn [entries with_entries]. rewrite map_size_insert.
  pose proof (map_subseteq_size _ _ (make_room_subset t s)) as Hle.
  destruct (make_room t s !! s) eqn:E; cbn; [lia|]. revert E Hle. unfold make_room.
  destruct (entries t !! s) as [e|] eqn:Es; [rewrite bool_decide_false by done; cbn [andb]; by rewrite Es|].
  rewrite bool_decide_true by done. cbn [andb].
  destruct (Nat.leb_spec (cap t) (size (entries t))) as [Hf|Hf]; [|intros; lia].
  destruct (first_min_by _ _) as [[k e]|] eqn:E.
  - intros _ _. apply first_min_by_In, btree_entries_In in E. rewrite map_size_delete, E. lia.
  - apply first_min_by_None in E. assert (entries t = ∅) as H.
    { apply map_eq. intros k. rewrite lookup_empty. apply eq_None_not_Some. intros [o Ho%btree_entries_In]. by rewrite E in Ho. }
    rewrite H, map_size_empty in Hf. lia.
Qed.

(** What an update leaves at each scope, when nothing has to make room. *)
Definition roomy (t : LockoutTracker) (ss : gset string) : Prop := (size (dom (entries t) ∪ ss) <= cap t)%nat.
Lemma roomy_make_room t s ss : roomy t ss -> s ∈ ss -> make_room t s = entries t.
Proof.
  unfold roomy, make_room. intros Hr Hs. case_bool_decide as Hn; [|done]. cbn [andb].
  destruct (Nat.leb_spec (cap t) (size (entries t))) as [Hf|Hf]; [|done]. exfalso.
  rewrite <- size_dom in Hf. assert (size ({[s]} ∪ dom (entries t)) <= size (dom (entries t) ∪ ss))%nat as Hle by (apply subseteq_size; set_solver).
  rewrite size_union, size_singleton in Hle by (apply not_elem_of_dom in Hn; set_solver). lia.
Qed.
Lemma roomy_update t s now f ss : roomy t ss -> s ∈ ss -> roomy (update t s now f) ss.
Proof.
  intros Hr Hs. unfold roomy. cbn [update entries with_entries cap]. rewrite (roomy_make_room t s ss) by done.
  rewrite dom_insert_L. replace ({[s]} ∪ dom (entries t) ∪ ss) with (dom (entries t) ∪ ss) by set_solver. exact Hr.
Qed.
Lemma roomy_lift t s ss : roomy t ss -> roomy (lift t s) ss.
Proof.
  intros Hr. unfold roomy in *. cbn. rewrite dom_delete_L. etrans; [|exact Hr]. apply subseteq_size. set_solver.
Qed.
Lemma update_lookup t s now f ss k : roomy t ss -> s ∈ ss -> entries (update t s now f) !! k =
  if bool_decide (k = s) then Some (f (seen now (default Entry_default (entries t !! s)))) else entries t !! k.
Proof.
  intros Hr Hs. cbn [update entries with_entries]. unfold entry. rewrite (roomy_make_room t s ss) by done.
  case_bool_decide; [subst; by rewrite lookup_insert_eq|by rewrite lookup_insert_ne].
Qed.

(** A recorded failure, as one change of the entry. *)
Definition cool_entry (set : N -> Entry -> Entry) (until : N -> N) (p : LockoutPolicy) (now : N) (e : Entry) : Entry :=
  let e := count_failure (seen now e) in
  let u := until (consecutive_failures e) in
  let e := seen u (set u (seen now e)) in
  set_circuit (if max_consecutive_failures p <=? consecutive_failures e then Open else HalfOpen) e.
Definition fail_entry (p : LockoutPolicy) (scope : string) (now : N) (kind : EligibilityKind) (retry : option N) (e : Entry) : Entry :=
  let e := set_last_kind kind (seen now e) in
  match kind with
  | InvalidCredential | InsufficientCredit | AccessDenied | UnsupportedRequest => set_permanent (kind_name kind) kind (seen now e)
  | RateLimited => cool_entry set_retry_after (fun n => asked_until retry now (backoff_ms p scope n)) p now e
  | QuotaExhausted => cool_entry set_cooldown (fun n => asked_until retry now (backoff_ms p scope n)) p now e
  | _ => cool_entry set_cooldown (fun n => saturating_add now (backoff_ms p scope n)) p now e
  end.
Lemma classify_never_usable status body : (classify_failure status body).1 <> Usable.
Proof. unfold classify_failure. repeat break_goal; done. Qed.

Lemma make_room_known t s e : entries t !! s = Some e -> make_room t s = entries t.
Proof. intros H. unfold make_room. rewrite H, bool_decide_false by done. reflexivity. Qed.
Lemma update_known t s e now f : entries t !! s = Some e -> update t s now f = with_entries t (<[s := f (seen now e)]> (entries t)).
Proof. intros H. unfold update, entry. by rewrite (make_room_known t s e H), H. Qed.
Lemma update_over t m s x now f : update (with_entries t (<[s := x]> m)) s now f = with_entries t (<[s := f (seen now x)]> m).
Proof. rewrite (update_known _ s x) by (cbn; by rewrite lookup_insert_eq). unfold with_entries. cbn. by rewrite insert_insert_eq. Qed.
Lemma record_failure_entries t now s kind retry : kind <> Usable -> record_failure t now s kind retry =
  with_entries t (<[s := fail_entry (lpolicy t) s now kind retry (default Entry_default (make_room t s !! s))]> (make_room t s)).
Proof.
  intros Hk. unfold record_failure, fail_entry, trip_if_needed. cbv zeta.
  set (e := default Entry_default (make_room t s !! s)).
  change (update t s now (set_last_kind kind)) with (with_entries t (<[s := set_last_kind kind (seen now e)]> (make_room t s))).
  set (e1 := set_last_kind kind (seen now e)).
  assert (entry (with_entries t (<[s := e1]> (make_room t s))) s now = seen now e1) as ->.
  { unfold entry. rewrite (make_room_known _ s e1) by (cbn; by rewrite lookup_insert_eq). cbn. by rewrite lookup_insert_eq. }
  cbn [lpolicy with_entries].
  destruct kind; [congruence| | | | | | | |]; by rewrite !update_over.
Qed.
Lemma record_failure_room t now s kind retry ss : roomy t ss -> s ∈ ss -> kind <> Usable ->
  roomy (record_failure t now s kind retry) ss /\
  forall k, entries (record_failure t now s kind retry) !! k =
    if bool_decide (k = s) then Some (fail_entry (lpolicy t) s now kind retry (default Entry_default (entries t !! s))) else entries t !! k.
Proof.
  intros Hr Hs Hk. rewrite (record_failure_entries t now s kind retry Hk), (roomy_make_room t s ss Hr Hs). split.
  - unfold roomy in *. cbn. rewrite dom_insert_L. replace ({[s]} ∪ dom (entries t) ∪ ss) with (dom (entries t) ∪ ss) by set_solver. exact Hr.
  - intros k. cbn. case_bool_decide; [subst; by rewrite lookup_insert_eq|by rewrite lookup_insert_ne].
Qed.

(** ** Operations on one scope *)

Definition in_scopes (ss : gset string) (op : Op) : Prop := match scope_of op with Some s => s ∈ ss | None => True end.
(** Neither a success nor fresh evidence for the scope. *)
Definition no_success (s : string) (op : Op) : Prop :=
  match op with Record _ s' Success => s' <> s | Lift s' usable => usable = true -> s' <> s | _ => True end.
Definition no_record (s : string) (op : Op) : Prop := match op with Record _ s' _ => s' <> s | _ => True end.
(** What everything but a record leaves of an entry. *)
Record kept (e e' : Entry) : Prop := {
  k_until : until_of e' = until_of e;
  k_circuit : circuit e <> Closed -> circuit e' <> Closed;
  k_permanent : permanent e' = permanent e;
}.
Lemma kept_seen now e : kept e (seen now e).
Proof. done. Qed.
Lemma kept_half_open now e : kept e (half_open_due now e).
Proof. unfold half_open_due. destruct (_ && _); [|done]. split; [done| |done]. by intros _. Qed.

Lemma apply_room t op ss : roomy t ss -> in_scopes ss op -> roomy (apply t op) ss /\ lpolicy (apply t op) = lpolicy t.
Proof.
  intros Hr Hin. destruct op as [c s|c s|c s|c|s u|c s r]; unfold in_scopes in Hin; cbn [scope_of] in Hin; cbn [apply].
  - unfold acquire_probe. destruct (_ && _); split; try done; by apply roomy_update.
  - split; [by apply roomy_update|done].
  - split; [by apply roomy_update|done].
  - split; [|done]. unfold roomy, tick in *. cbn. by rewrite dom_fmap_L.
  - destruct u; [split; [by apply roomy_lift|done]|done].
  - destruct r as [|status body retry]; cbn; [split; [by apply roomy_lift|done]|]. split.
    + apply (record_failure_room t (now_ms c) s _ retry ss Hr Hin), classify_never_usable.
    + unfold record_failure. destruct (classify_failure status body).1; done.
Qed.

Lemma apply_other t op ss s e : roomy t ss -> in_scopes ss op -> s ∈ ss -> entries t !! s = Some e -> scope_of op <> Some s ->
  exists e', entries (apply t op) !! s = Some e' /\ kept e e'.
Proof.
  intros Hr Hin Hs He Hne. destruct op as [c s'|c s'|c s'|c|s' u|c s' r]; unfold in_scopes in Hin; cbn [scope_of] in Hin, Hne; cbn [apply].
  - exists e. split; [|done]. unfold acquire_probe; cbv zeta; destruct (_ && _); cbn [fst];
      rewrite (update_lookup t s' _ _ ss s Hr Hin), bool_decide_false by congruence; done.
  - exists e. split; [|done]. unfold release_probe. rewrite (update_lookup t s' _ _ ss s Hr Hin), bool_decide_false by congruence. done.
  - exists e. split; [|done]. unfold note_attempt. rewrite (update_lookup t s' _ _ ss s Hr Hin), bool_decide_false by congruence. done.
  - exists (half_open_due (now_ms c) e). split; [|apply kept_half_open]. unfold tick. cbn. by rewrite lookup_fmap, He.
  - exists e. split; [|done]. destruct u; [|done]. cbn. rewrite lookup_delete_ne by congruence. done.
  - exists e. split; [|done]. destruct r as [|status body retry]; cbn [record]; [cbn; by rewrite lookup_delete_ne by congruence|].
    destruct (record_failure_room t (now_ms c) s' _ retry ss Hr Hin (classify_never_usable status body)) as [_ ->].
    by rewrite bool_decide_false by congruence.
Qed.
Lemma apply_quiet t op ss s e : roomy t ss -> in_scopes ss op -> s ∈ ss -> entries t !! s = Some e -> no_success s op -> no_record s op ->
  exists e', entries (apply t op) !! s = Some e' /\ kept e e'.
Proof.
  intros Hr Hin Hs He Hns Hnr. destruct (decide (scope_of op = Some s)) as [Hsc|Hsc]; [|by eapply apply_other].
  destruct op as [c s'|c s'|c s'|c|s' u|c s' r]; cbn [scope_of] in Hsc; cbn [no_success no_record] in Hns, Hnr; cbn [apply]; try congruence; injection Hsc as ->.
  - unfold acquire_probe; cbv zeta; destruct (_ && _); cbn [fst]; rewrite (update_lookup t s _ _ ss s Hr Hs), bool_decide_true, He by done; by eexists.
  - unfold release_probe. rewrite (update_lookup t s _ _ ss s Hr Hs), bool_decide_true, He by done. by eexists.
  - unfold note_attempt. rewrite (update_lookup t s _ _ ss s Hr Hs), bool_decide_true, He by done. cbn [default].
    eexists. split; [done|]. destruct (kept_half_open (now_ms c) (seen (now_ms c) e)) as [? ? ?]. by split.
  - destruct u; [by destruct (Hns eq_refl)|]. by exists e.
Qed.

Lemma cool_permanent set until p now e : (forall u e, permanent (set u e) = permanent e) -> permanent (cool_entry set until p now e) = permanent e.
Proof. intros H. unfold cool_entry. cbn. by rewrite H. Qed.
Lemma fail_permanent p s now kind retry e : is_Some (permanent e) -> is_Some (permanent (fail_entry p s now kind retry e)).
Proof. intros H. unfold fail_entry. destruct kind; try (by eexists); by rewrite cool_permanent. Qed.
Lemma apply_permanent t op ss s e : roomy t ss -> in_scopes ss op -> s ∈ ss -> entries t !! s = Some e -> no_success s op ->
  is_Some (permanent e) -> exists e', entries (apply t op) !! s = Some e' /\ is_Some (permanent e').
Proof.
  intros Hr Hin Hs He Hns Hp. destruct op as [c s'|c s'|c s'|c|s' u|c s' r].
  6: destruct (decide (s' = s)) as [->|Hne].
  6: { cbn in Hns. destruct r as [|status body retry]; [done|]. cbn [apply record].
       destruct (record_failure_room t (now_ms c) s _ retry ss Hr Hs (classify_never_usable status body)) as [_ ->].
       rewrite bool_decide_true, He by done. eexists. split; [done|]. by apply fail_permanent. }
  all: match goal with |- context [apply _ ?op] => destruct (apply_quiet t op ss s e Hr Hin Hs He Hns ltac:(done)) as (e' & H & K) end;
    exists e'; split; [done|]; by rewrite (k_permanent _ _ K).
Qed.

(** A credential the provider rejected for good stays rejected: whatever is recorded,
    probed or ticked afterwards, for this scope or others, it is refused at every time, until
    something succeeds with it; as long as the tracker has room for the scopes in use. *)
Theorem rejected_stays_rejected t ops s status body retry c clock verdict :
  is_permanent_kind (classify_failure status body).1 = true ->
  (size (dom (entries t) ∪ ({[s]} ∪ scopes_of ops)) <= cap t)%nat ->
  Forall (no_success s) ops ->
  permit (run (record t c s (Failed status body retry)) ops) clock s verdict = Permanent hard_rejection.
Proof.
  intros Hk Hroom Hns. set (ss := {[s]} ∪ scopes_of ops) in Hroom.
  assert (s ∈ ss) as Hs by set_solver. assert (Forall (in_scopes ss) ops) as Hin.
  { apply Forall_forall. intros op Hop. unfold in_scopes. destruct (scope_of op) as [k|] eqn:E; [|done].
    apply elem_of_union_r, elem_of_list_to_set, list_elem_of_omap. by exists op. }
  assert (exists e, entries (record t c s (Failed status body retry)) !! s = Some e /\ is_Some (permanent e)) as (e & He & Hp).
  { cbn [record]. destruct (record_failure_room t (now_ms c) s _ retry ss Hroom Hs (classify_never_usable status body)) as [_ ->].
    rewrite bool_decide_true by done. eexists. split; [done|]. unfold fail_entry. by destruct (classify_failure status body).1. }
  assert (roomy (record t c s (Failed status body retry)) ss) as Hr.
  { cbn [record]. apply (record_failure_room t (now_ms c) s _ retry ss Hroom Hs (classify_never_usable status body)). }
  clearbody ss. revert e He Hp Hr. generalize (record t c s (Failed status body retry)) as t0. clear Hroom Hk.
  induction ops as [|op ops IH]; intros t0 e He Hp Hr.
  - cbn. unfold permit. rewrite He, bool_decide_true by done. done.
  - apply Forall_cons in Hns as [Hn1 Hns], Hin as [Hi1 Hin]. cbn. 
    destruct (apply_permanent t0 op ss s e Hr Hi1 Hs He Hn1 Hp) as (e' & He' & Hp').
    apply (IH Hns Hin _ e'); [done|done|]. by apply apply_room.
Qed.

(** ** Cooldowns *)

(** The end of the cooldown of a transient failure, the [n]th in a row. *)
Definition cooldown_end (p : LockoutPolicy) (s : string) (kind : EligibilityKind) (retry : option N) (now n : N) : N :=
  match kind with
  | RateLimited | QuotaExhausted => asked_until retry now (backoff_ms p s n)
  | _ => saturating_add now (backoff_ms p s n)
  end.
Lemma cooled p s now kind retry e : is_permanent_kind kind = false -> 
  let e' := fail_entry p s now kind retry e in
  circuit e' <> Closed /\
  cooldown_end p s kind retry now (saturating_add_u32 (consecutive_failures e) 1) <= until_of e'.
Proof.
  intros Hk e'. unfold e', fail_entry. destruct kind; try done; unfold cool_entry, until_of; cbv zeta;
    (split; [cbn [circuit set_circuit]; by destruct (_ <=? _)|]);
    cbn [cooldown_until_ms retry_after_until_ms set_circuit seen set_cooldown set_retry_after count_failure set_last_kind consecutive_failures cooldown_end];
    lia.
Qed.

Lemma quiet_run ss ops s t e : roomy t ss -> s ∈ ss -> Forall (in_scopes ss) ops -> Forall (no_success s) ops -> Forall (no_record s) ops ->
  entries t !! s = Some e -> exists e', entries (run t ops) !! s = Some e' /\ kept e e'.
Proof.
  intros Hr Hs. revert t e Hr. induction ops as [|op ops IH]; intros t e Hr Hin Hns Hnr He; [by exists e|].
  apply Forall_cons in Hin as [Hi1 Hin], Hns as [Hn1 Hns], Hnr as [Hr1 Hnr]. cbn.
  destruct (apply_quiet t op ss s e Hr Hi1 Hs He Hn1 Hr1) as (e1 & He1 & K1).
  destruct (IH _ e1 (proj1 (apply_room t op ss Hr Hi1)) Hin Hns Hnr He1) as (e2 & He2 & K2). exists e2. split; [done|].
  destruct K1, K2. split; [congruence|auto|congruence].
Qed.
Lemma in_scopes_of ops ss : scopes_of ops ⊆ ss -> Forall (in_scopes ss) ops.
Proof.
  intros H. apply Forall_forall. intros op Hop. unfold in_scopes. destruct (scope_of op) as [k|] eqn:E; [|done].
  apply H, elem_of_list_to_set, list_elem_of_omap. by exists op.
Qed.


Lemma jitter_small s n : jitter_ms s n < 1000.
Proof. unfold jitter_ms. by apply N.mod_lt. Qed.
Lemma jitter_share base ppt j : ppt <= 1000 -> j < 1000 -> saturating_mul base ppt / 1000 * j / 1000 <= base /\ (0 < base -> saturating_mul base ppt / 1000 * j / 1000 < base).
Proof.
  intros Hp Hj. set (q := saturating_mul base ppt / 1000).
  assert (q <= base) as Hq.
  { unfold q. etrans; [apply (N.Div0.div_le_mono _ (base * 1000) 1000); unfold saturating_mul; nia|]. rewrite N.div_mul by done. lia. }
  assert (q * j / 1000 <= q) as H1 by (apply N.Div0.div_le_upper_bound; nia). split; [lia|]. intros Hb.
  apply N.Div0.div_lt_upper_bound. destruct (N.eq_dec q 0) as [->|Hq0]; [lia|]. nia.
Qed.

(** A backoff lies between the base cooldown and the cap, and the next failure's is never
    shorter, for the sixteen failures over which it grows; the arithmetic never wraps. *)
Theorem backoff_grows_within_bounds p s n : base_cooldown_ms p <= u64_max -> max_cooldown_ms p <= u64_max -> 1 <= n <= 16 ->
  N.min (base_cooldown_ms p) (max_cooldown_ms p) <= backoff_ms p s n <= max_cooldown_ms p /\
  backoff_ms p s n <= backoff_ms p s (n + 1) /\
  saturating_mul (saturating_mul (base_cooldown_ms p) (N.shiftl 1 (N.min (n - 1) 16))) (N.min (jitter_ppt p) 1000) / 1000 * jitter_ms s n <= u64_max.
Proof.
  intros Hb Hm Hn. set (b := base_cooldown_ms p) in *.
  assert (N.shiftl 1 (N.min (n + 1 - 1) 16) = 2 * N.shiftl 1 (N.min (n - 1) 16)) as Hs.
  { rewrite !N.min_l by lia. rewrite !N.shiftl_1_l. replace (n + 1 - 1) with (N.succ (n - 1)) by lia. apply N.pow_succ_r'. }
  assert (1 <= N.shiftl 1 (N.min (n - 1) 16)) as Hp1 by (rewrite N.shiftl_1_l; pose proof (N.pow_nonzero 2 (N.min (n - 1) 16) ltac:(done)); lia).
  unfold backoff_ms. fold b. rewrite Hs. set (k := N.shiftl 1 (N.min (n - 1) 16)) in *.
  set (base := saturating_mul b k). set (base' := saturating_mul b (2 * k)).
  assert (base <= u64_max) as Hbase by (unfold base, saturating_mul; lia).
  assert (base' = u64_max \/ base' = 2 * base) as Hbase' by (unfold base', base, saturating_mul; nia).
  assert (b <= base) as Hbb by (unfold base, saturating_mul; nia).
  set (ppt := N.min (jitter_ppt p) 1000). assert (ppt <= 1000) as Hppt by (unfold ppt; lia).
  destruct (jitter_share base ppt (jitter_ms s n) Hppt (jitter_small s n)) as [Hj1 Hj2].
  set (j := saturating_mul base ppt / 1000 * jitter_ms s n / 1000) in *.
  set (j' := saturating_mul base' ppt / 1000 * jitter_ms s (n + 1) / 1000).
  split; [unfold saturating_add; lia|]. split; [unfold saturating_add; lia|].
  pose proof (jitter_small s n) as Hjs. assert (saturating_mul base ppt <= u64_max) as Hsat by (unfold saturating_mul; lia).
  apply (N.Div0.div_le_mono _ _ 1000) in Hsat. transitivity (u64_max / 1000 * 999); [apply N.mul_le_mono; [exact Hsat|lia]|vm_compute; discriminate].
Qed.

(** ** Size and health *)

Lemma apply_frame t op : cap (apply t op) = cap t.
Proof.
  destruct op as [c s|c s|c s|c|s u|c s r]; cbn [apply]; try done.
  - unfold acquire_probe; cbv zeta; by destruct (_ && _).
  - by destruct u.
  - destruct r as [|status body retry]; [done|]. cbn [record]. by rewrite record_failure_entries by apply classify_never_usable.
Qed.
Lemma record_failure_size t now s kind retry : kind <> Usable -> (0 < cap t)%nat -> (size (entries t) <= cap t)%nat ->
  (size (entries (record_failure t now s kind retry)) <= cap t)%nat.
Proof.
  intros Hk Hc Hs. rewrite record_failure_entries by done.
  exact (update_size t s now (fun _ => fail_entry (lpolicy t) s now kind retry (default Entry_default (make_room t s !! s))) Hc Hs).
Qed.
Lemma apply_size t op : (0 < cap t)%nat -> (size (entries t) <= cap t)%nat -> (size (entries (apply t op)) <= cap t)%nat.
Proof.
  intros Hc Hs. assert (forall k, size (delete k (entries t)) <= cap t)%nat as Hd.
  { intros k. etrans; [apply map_subseteq_size, delete_subseteq|done]. }
  destruct op as [c s|c s|c s|c|s u|c s r]; cbn [apply].
  - unfold acquire_probe; cbv zeta; destruct (_ && _); by apply update_size.
  - by apply update_size.
  - by apply update_size.
  - unfold tick. cbn. by rewrite map_size_fmap.
  - destruct u; [apply Hd|done].
  - destruct r as [|status body retry]; [apply Hd|]. cbn [record]. by apply record_failure_size; [apply classify_never_usable| |].
Qed.

(** A failure that is for good is remembered as one. *)
Definition entry_wf (e : Entry) : Prop := forall k, last_kind e = Some k -> is_permanent_kind k = true -> is_Some (permanent e).
Definition tracker_wf (t : LockoutTracker) : Prop := forall s e, entries t !! s = Some e -> entry_wf e.
Lemma make_room_wf t s : tracker_wf t -> entry_wf (default Entry_default (make_room t s !! s)).
Proof.
  intros Hw. destruct (make_room t s !! s) as [e|] eqn:E; [|done]. apply (Hw s). by eapply lookup_weaken, make_room_subset.
Qed.
Lemma update_wf t s now f : tracker_wf t -> (forall e, entry_wf e -> entry_wf (f (seen now e))) -> tracker_wf (update t s now f).
Proof.
  intros Hw Hf k e. cbn. intros [[<- <-]|[_ H]]%lookup_insert_Some; [by apply Hf, make_room_wf|].
  apply (Hw k). by eapply lookup_weaken, make_room_subset.
Qed.
Lemma half_open_wf now e : entry_wf e -> entry_wf (half_open_due now e).
Proof. intros H. unfold half_open_due. by destruct (_ && _). Qed.
Lemma delete_wf t s : tracker_wf t -> tracker_wf (lift t s).
Proof. intros Hw k e. cbn. intros [_ H]%lookup_delete_Some. by eapply Hw. Qed.
Lemma fail_wf p s now kind retry e : kind <> Usable -> entry_wf (fail_entry p s now kind retry e).
Proof.
  intros Hk k Hl Hp. destruct kind; unfold fail_entry, cool_entry in *; cbv zeta in *; cbn in Hl |- *; injection Hl as <-;
    first [discriminate Hp|eexists; reflexivity].
Qed.
Lemma apply_wf t op : tracker_wf t -> tracker_wf (apply t op).
Proof.
  intros Hw. destruct op as [c s|c s|c s|c|s u|c s r]; cbn [apply].
  - unfold acquire_probe; cbv zeta; destruct (_ && _); apply update_wf; try done; intros e H k Hk; exact (H k Hk).
  - by apply update_wf.
  - apply update_wf; [done|]. intros e H. by apply half_open_wf.
  - intros k e. cbn. rewrite lookup_fmap. intros (e0 & H & ->)%fmap_Some. apply half_open_wf. by eapply Hw.
  - destruct u; [by apply delete_wf|done].
  - destruct r as [|status body retry]; [by apply delete_wf|]. cbn [record]. rewrite record_failure_entries by apply classify_never_usable.
    intros k e. cbn. intros [[<- <-]|[_ H]]%lookup_insert_Some; [apply fail_wf, classify_never_usable|].
    apply (Hw k). by eapply lookup_weaken, make_room_subset.
Qed.

Lemma run_tracker t ops : tracker_wf t -> (0 < cap t)%nat -> (size (entries t) <= cap t)%nat ->
  tracker_wf (run t ops) /\ (size (entries (run t ops)) <= cap t)%nat.
Proof.
  revert t. induction ops as [|op ops IH]; intros t Hw Hc Hs; [done|]. cbn.
  rewrite <- (apply_frame t op) in *. apply IH; [by apply apply_wf|done|]. rewrite apply_frame in *. by apply apply_size.
Qed.

(** The tracker never holds more scopes than its capacity, and for a scope it tracks the
    two views agree: a target is reported dead exactly when it is refused for good. *)
Theorem health_mirrors_permit c p ops clock scope verdict e :
  let t := run (with_capacity c p) ops in
  entries t !! scope = Some e ->
  (size (entries t) <= Nat.max c 1)%nat /\
  ((exists class, health t clock scope verdict = Dead class) <-> permit t clock scope verdict = Permanent hard_rejection).
Proof.
  intros t He. destruct (run_tracker (with_capacity c p) ops) as [Hw Hsize]; [by intros k x; cbn; rewrite lookup_empty|cbn; lia|cbn; rewrite map_size_empty; lia|].
  fold t in Hw, Hsize. split; [exact Hsize|].
  unfold health, permit. rewrite He. destruct (permanent e) as [why|] eqn:Hp.
  - rewrite !bool_decide_true by done. split; [done|]. intros _. by eexists.
  - rewrite bool_decide_false by (by intros [? ?]). cbn [orb].
    assert (is_permanent_kind (if bool_decide (verdict = Unknown) then default Unknown (last_kind e) else verdict) = is_permanent_kind verdict) as Hk.
    { case_bool_decide as Hv; [|done]. subst verdict. destruct (last_kind e) as [k|] eqn:Hl; [|done]. cbn.
      destruct (is_permanent_kind k) eqn:E; [|done]. destruct (Hw _ _ He k Hl E) as [w Hw']. congruence. }
    rewrite <- Hk. set (kind := if bool_decide (verdict = Unknown) then _ else _) in *. clearbody kind. clear Hk.
    assert (is_permanent_kind kind = bool_decide (is_Some (dead_class kind))) as -> by by destruct kind.
    destruct (dead_class kind) as [cl|] eqn:Hd.
    + rewrite (bool_decide_true (is_Some (Some cl))) by done. split; [done|]. intros _. by exists cl.
    + rewrite (bool_decide_false (is_Some None)) by (by intros [? ?]). split.
      * intros [class H]. exfalso. revert H. repeat break_goal; done.
      * repeat break_goal; done.
Qed.

(** ** Examples *)

Definition slow : InferenceResult := Failed (Some 429) "slow down" (Some 60).
Definition throttled : InferenceResult := Failed (Some 429) "slow down" None.
Definition down : InferenceResult := Failed (Some 503) "down" None.
Definition no_key : InferenceResult := Failed (Some 401) "bad key" None.
Definition tracker : LockoutTracker := LockoutTracker_new LockoutPolicy_default.

Lemma rejected_stays_rejected_witness :
  permit (run (record tracker 5 "openai/gpt-4o/aa" no_key) [Record 6 "groq/llama/bb" down; Record 9 "openai/gpt-4o/aa" slow; Tick 90]) 1000000
    "openai/gpt-4o/aa" Unknown = Permanent hard_rejection.
Proof.
  apply (rejected_stays_rejected tracker [Record 6 "groq/llama/bb" down; Record 9 "openai/gpt-4o/aa" slow; Tick 90]).
  - reflexivity.
  - apply Nat.leb_le. vm_compute. reflexivity.
  - repeat constructor.
Defined.
Lemma backoff_grows_within_bounds_witness : backoff_ms LockoutPolicy_default "groq" 2 <= backoff_ms LockoutPolicy_default "groq" 3.
Proof.
  destruct (backoff_grows_within_bounds LockoutPolicy_default "groq" 2) as (_ & H & _); [vm_compute; discriminate|vm_compute; discriminate|split; vm_compute; discriminate|exact H].
Defined.
Lemma health_mirrors_permit_witness :
  (size (entries (run (with_capacity 4 LockoutPolicy_default) [Record 5 "groq" no_key])) <= 4)%nat.
Proof.
  destruct (entries (run (with_capacity 4 LockoutPolicy_default) [Record 5 "groq" no_key]) !! "groq") as [e|] eqn:E; [|discriminate E].
  exact (proj1 (health_mirrors_permit 4 LockoutPolicy_default [Record 5 "groq" no_key] 6 "groq" Unknown e E)).
Defined.

(** A full tracker forgets a rejected key to make room. *)
Lemma full_tracker_forgets_a_rejection :
  permit (run (with_capacity 1 LockoutPolicy_default) [Record 5 "groq" no_key; Record 6 "openai" down]) 7 "groq" Unknown = Allowed.
Proof. vm_compute. reflexivity. Qed.
(** A verdict that the key is dead refuses nothing in a scope the tracker has not seen; the
    health view says dead. *)
Lemma untracked_dead_key_is_allowed :
  permit tracker 5 "groq" InvalidCredential = Allowed /\ health tracker 5 "groq" InvalidCredential = Dead PulseQueue.InvalidCredential.
Proof. split; vm_compute; reflexivity. Qed.
(** A later throttle that names no time cuts the wait a provider asked for. *)
Lemma later_throttle_cuts_the_wait :
  permit (run tracker [Record 100 "groq" slow]) 130 "groq" Unknown = Cooldown 160000 /\
  permit (run tracker [Record 100 "groq" slow; Record 101 "groq" throttled]) 130 "groq" Unknown = Allowed.
Proof. split; vm_compute; reflexivity. Qed.
(** A wait a provider asks for is not capped. *)
Lemma asked_wait_is_not_capped :
  permit (run tracker [Record 100 "groq" (Failed (Some 429) "slow down" (Some 1000000))]) 900000 "groq" Unknown = Cooldown 1000100000.
Proof. vm_compute. reflexivity. Qed.
(** The clock set back prolongs a cooldown by as much. *)
Lemma clock_set_back_prolongs :
  permit (run tracker [Record 10000 "groq" down]) 10002 "groq" Unknown = Allowed /\
  (exists at_ms, permit (run tracker [Record 10000 "groq" down]) 6402 "groq" Unknown = Cooldown at_ms).
Proof. split; [vm_compute; reflexivity|eexists; vm_compute; reflexivity]. Qed.
(** The late release of one probe frees the slot of another: two run under a budget of one. *)
Lemma late_release_frees_another_probe :
  let t := run tracker [Record 100 "groq" down; Acquire 110 "groq"; Record 111 "groq" down; Acquire 200 "groq"; ReleaseProbe 201 "groq"] in
  (acquire_probe t 202 "groq").2 = true.
Proof. vm_compute. reflexivity. Qed.
