(* ===== verification/CloudIntent.v ===== *)
(** * CloudIntent: which credential and model serve a request
    ([crates/susi-gawd-agents/src/cloud_intent.rs])

    Scores are [f64]s, computed in binary64 with the Standard Library's [SpecFloat].  The
    fingerprint of a credential is a parameter, as in [CloudEligibility]; where the code
    slices a string out of its bounds, or inside a character, the answer is [None]. *)

From S2P Require Import Prelude Text Redact CloudEligibility CloudQuota.
From Stdlib Require Import Floats.SpecFloat.

Local Open Scope string_scope.
Local Open Scope list_scope.
Local Open Scope N_scope.

Module F64.
Definition t : Type := spec_float.
Definition add : t -> t -> t := SFadd 53 1024.
Definition sub : t -> t -> t := SFsub 53 1024.
Definition mul : t -> t -> t := SFmul 53 1024.
Definition div : t -> t -> t := SFdiv 53 1024.
Definition lt : t -> t -> bool := SFltb.
(** [n as f64]. *)
Definition of_N (n : N) : t := binary_normalize 53 1024 (Z.of_N n) 0 false.
Definition half : t := binary_normalize 53 1024 1 (-1) false.
(** [clamp(0.0, 1.0)]. *)
Definition clamp01 (x : t) : t :=
  let x := if lt x (of_N 0) then of_N 0 else x in if lt (of_N 1) x then of_N 1 else x.
(** The order of [f64::total_cmp]: the number itself in units of the last place, with the two
    zeros apart and what is not finite outside. *)
Definition rank (x : t) : Z :=
  match x with
  | S754_zero s => if s then -1 else 0
  | S754_finite s m e => let v := (Zpos m * 2 ^ (e + 1074))%Z in if s then (- v - 1)%Z else v
  | S754_infinity s => if s then (- 2 ^ 3000)%Z else (2 ^ 3000)%Z
  | S754_nan => (2 ^ 3001)%Z
  end.
Definition total_cmp (x y : t) : comparison := Z.compare (rank x) (rank y).
End F64.

Inductive PinFallback : Type :=
| Allow
| Deny.
#[export] Instance pin_fallback_eq_dec : EqDecision PinFallback.
Proof. solve_decision. Defined.
Record IntentConstraints : Type := mkIntent {
  task_class : string;
  min_context_tokens : N;
  modalities : list string;
  needs_tools : bool;
  needs_structured_output : bool;
  residency : option string;
  max_latency_ms : option N;
  max_cost_per_mtok : option F64.t;
  pinned_model : option string;
  pin_fallback : PinFallback;
  discovery_budget : nat;
}.
Definition IntentConstraints_default : IntentConstraints := mkIntent "" 0 [] false false None None None None Allow 2.

Record Candidate : Type := mkCandidate {
  c_provider : string;
  c_api_key : string;
  c_account : option string;
  c_region : option string;
  c_model : string;
  context_tokens : N;
  c_modalities : list string;
  supports_tools : bool;
  supports_structured_output : bool;
  c_residency : option string;
  est_latency_ms : N;
  cost_per_mtok : option F64.t;
  quality : gmap string (N * N);
}.
Definition subject (c : Candidate) : Subject := mkSubject (c_provider c) (c_api_key c) (c_account c) (c_region c) (c_model c).
(** [&s[..8]]. *)
Definition first_eight (s : string) : option string :=
  if (8 <=? String.length s)%nat && is_char_boundary 8 s then Some (String.substring 0 8 s) else None.
Definition quality_score (c : Candidate) (class : string) : option F64.t :=
  match quality c !! class with
  | Some (ok, n) => if 0 <? n then Some (F64.div (F64.of_N ok) (F64.of_N n)) else None
  | None => None
  end.

Inductive BlockReason : Type :=
| Availability (kind : EligibilityKind)
| QuotaSpent
| ContextTooSmall (has needs : N)
| MissingModality (m : string)
| NoTools
| NoStructuredOutput
| ResidencyMismatch (required actual : string)
| OverDeadline (est_ms max_ms : N)
| OverBudget
| PinMismatch.
Record Rejection : Type := mkRejection {
  x_candidate : string;
  x_reason : BlockReason;
}.
Record Ranked : Type := mkRanked {
  index : nat;
  r_candidate : string;
  discovery : bool;
  pinned : bool;
  r_score : F64.t;
}.
Record Selection : Type := mkSelection {
  ranked : list Ranked;
  rejected : list Rejection;
}.
Definition next_after (sel : Selection) (attempted : list nat) : option Ranked :=
  List.find (fun r => negb (bool_decide (index r ∈ attempted))) (ranked sel).

Definition dispatchable (k : EligibilityKind) : bool := match k with Usable | Unknown => true | _ => false end.

(** ** Filters *)

Definition capability_block (intent : IntentConstraints) (c : Candidate) : option BlockReason :=
  if context_tokens c <? min_context_tokens intent then Some (ContextTooSmall (context_tokens c) (min_context_tokens intent))
  else match List.find (fun m => negb (existsb (String.eqb m) (c_modalities c))) (modalities intent) with
  | Some m => Some (MissingModality m)
  | None =>
      if needs_tools intent && negb (supports_tools c) then Some NoTools
      else if needs_structured_output intent && negb (supports_structured_output c) then Some NoStructuredOutput
      else match (match residency intent with
                  | Some req => let actual := default "" (c_residency c) in if String.eqb actual req then None else Some (ResidencyMismatch req actual)
                  | None => None
                  end) with
      | Some r => Some r
      | None =>
          match (match max_latency_ms intent with
                 | Some max_ms => if max_ms <? est_latency_ms c then Some (OverDeadline (est_latency_ms c) max_ms) else None
                 | None => None
                 end) with
          | Some r => Some r
          | None =>
              match max_cost_per_mtok intent with
              | Some cap => if F64.lt cap (default (F64.of_N 0) (cost_per_mtok c)) then Some OverBudget else None
              | None => None
              end
          end
      end
  end.

Definition score (intent : IntentConstraints) (c : Candidate) : F64.t :=
  let q := default F64.half (quality_score c (task_class intent)) in
  let horizon := F64.of_N (N.max (default 60000 (max_latency_ms intent)) 1) in
  let latency := F64.sub (F64.of_N 1) (F64.clamp01 (F64.div (F64.of_N (est_latency_ms c)) horizon)) in
  let cost := match cost_per_mtok c with None => F64.of_N 1 | Some v => F64.div (F64.of_N 1) (F64.add (F64.of_N 1) v) end in
  F64.add (F64.add (F64.mul q (F64.of_N 100)) (F64.mul latency (F64.of_N 10))) cost.

(** ** The order of candidates *)

Definition then_with (a b : comparison) : comparison := match a with Eq => b | _ => a end.
Definition bool_cmp (a b : bool) : comparison := N.compare (N.b2n a) (N.b2n b).
Definition ranked_cmp (a b : Ranked) : comparison :=
  then_with (bool_cmp (pinned b) (pinned a))
    (then_with (bool_cmp (discovery a) (discovery b))
       (then_with (F64.total_cmp (r_score b) (r_score a)) (String.compare (r_candidate a) (r_candidate b)))).
Definition ranked_le (a b : Ranked) : Prop := ranked_cmp a b <> Gt.
#[export] Instance ranked_le_dec : RelDecision ranked_le.
Proof. intros a b. unfold ranked_le. destruct (ranked_cmp a b); [left|left|right]; congruence. Defined.

(** The unknown candidates among [l] after [seen] of them. *)
Fixpoint bound_discovery (budget seen : nat) (l : list Ranked) : list Ranked :=
  match l with
  | [] => []
  | r :: l' =>
      if discovery r
      then let seen := S seen in if (seen <=? budget)%nat then r :: bound_discovery budget seen l' else bound_discovery budget seen l'
      else r :: bound_discovery budget seen l'
  end.

Section Select.
Context (sha_hex : string -> string) (intent : IntentConstraints) (eligibility : EligibilityStore) (quotas : QuotaInventory) (now : N).

Definition opaque_id (c : Candidate) : option string :=
  fp ← first_eight (credential_fingerprint sha_hex (c_api_key c)); Some (c_provider c +:+ "/" +:+ c_model c +:+ "/" +:+ fp).
Definition is_pin (c : Candidate) : bool := match pinned_model intent with Some pin => String.eqb (c_model c) pin | None => false end.
Definition verdict (c : Candidate) : EligibilityKind := v_kind (CloudEligibility.resolve sha_hex eligibility (subject c) now).
(** What keeps a candidate out, in the order the code looks. *)
Definition block_reason (c : Candidate) : option BlockReason :=
  if bool_decide (is_Some (pinned_model intent)) && negb (is_pin c) && bool_decide (pin_fallback intent = Deny) then Some PinMismatch
  else match capability_block intent c with
  | Some r => Some r
  | None =>
      if negb (dispatchable (verdict c)) then Some (Availability (verdict c))
      else match CloudQuota.resolve sha_hex quotas (subject c) now with
      | HeadroomExhausted _ _ _ => Some QuotaSpent
      | _ => None
      end
  end.
Fixpoint collect (i : nat) (cs : list Candidate) : option Selection :=
  match cs with
  | [] => Some (mkSelection [] [])
  | c :: cs' =>
      id ← opaque_id c; sel ← collect (S i) cs';
      Some match block_reason c with
           | Some r => mkSelection (ranked sel) (mkRejection id r :: rejected sel)
           | None => mkSelection (mkRanked i id (bool_decide (verdict c = Unknown)) (is_pin c) (score intent c) :: ranked sel) (rejected sel)
           end
  end.
Definition select (cs : list Candidate) : option Selection :=
  sel ← collect 0 cs;
  Some (mkSelection (bound_discovery (discovery_budget intent) 0 (merge_sort ranked_le (ranked sel))) (rejected sel)).
End Select.

(** ** The order is total *)

(** A comparator that comes from a total preorder. *)
Record ordered {A} (f : A -> A -> comparison) : Prop := {
  o_anti : forall x y, f y x = CompOpp (f x y);
  o_trans : forall x y z, f x y <> Gt -> f y z <> Gt -> f x z <> Gt;
}.
Lemma ordered_then {A} (f g : A -> A -> comparison) : ordered f -> ordered g -> ordered (fun x y => then_with (f x y) (g x y)).
Proof.
  intros [Fa Ft] [Ga Gt']. split.
  - intros x y. rewrite (Fa x y), (Ga x y). by destruct (f x y).
  - intros x y z H1 H2.
    assert (f x y <> Gt) as F1 by (by destruct (f x y)). assert (f y z <> Gt) as F2 by (by destruct (f y z)).
    pose proof (Ft x y z F1 F2) as F3. destruct (f x z) eqn:Exz; [|done|done].
    (* nothing between is strict, so the second comparator decides *)
    assert (f z x <> Gt) as F4 by (by rewrite (Fa x z), Exz).
    pose proof (Ft y z x F2 F4) as Hyx. pose proof (Ft z x y F4 F1) as Hzy.
    rewrite (Fa x y) in Hyx. rewrite (Fa y z) in Hzy.
    destruct (f x y); [|done..]. destruct (f y z); [|done..]. cbn [then_with] in *. by eapply Gt'.
Qed.
Lemma ordered_on {A B} (f : B -> B -> comparison) (k : A -> B) : ordered f -> ordered (fun x y => f (k x) (k y)).
Proof. intros [Fa Ft]. split; [intros x y; apply Fa|intros x y z; apply Ft]. Qed.
Lemma ordered_flip {A} (f : A -> A -> comparison) : ordered f -> ordered (fun x y => f y x).
Proof. intros [Fa Ft]. split; [intros x y; apply Fa|intros x y z H1 H2; by eapply Ft]. Qed.
Lemma ordered_N : ordered N.compare.
Proof. split; [intros x y; apply N.compare_antisym|intros x y z; rewrite !N.compare_le_iff; lia]. Qed.
Lemma ordered_Z : ordered Z.compare.
Proof. split; [intros x y; apply Z.compare_antisym|intros x y z; rewrite !Z.compare_le_iff; lia]. Qed.
Lemma ordered_string : ordered String.compare.
Proof.
  split; [intros x y; apply String.compare_antisym|].
  assert (forall x y, String.compare x y <> Gt <-> String.le x y) as H.
  { intros x y. unfold String.le, String.leb. by destruct (String.compare x y). }
  intros x y z. rewrite !H. apply (transitivity (R := String.le)).
Qed.
Lemma ordered_ranked : ordered ranked_cmp.
Proof.
  unfold ranked_cmp. apply ordered_then; [|apply ordered_then; [|apply ordered_then]].
  - apply (ordered_flip (fun a b => bool_cmp (pinned a) (pinned b))), (ordered_on N.compare (fun r => N.b2n (pinned r))), ordered_N.
  - apply (ordered_on N.compare (fun r => N.b2n (discovery r))), ordered_N.
  - apply (ordered_flip (fun a b => F64.total_cmp (r_score a) (r_score b))), (ordered_on Z.compare (fun r => F64.rank (r_score r))), ordered_Z.
  - apply (ordered_on String.compare r_candidate), ordered_string.
Qed.
#[export] Instance ranked_le_trans : Transitive ranked_le.
Proof. intros x y z. apply (o_trans _ ordered_ranked). Qed.
#[export] Instance ranked_le_total : Total ranked_le.
Proof. intros x y. unfold ranked_le. rewrite (o_anti _ ordered_ranked x y). destruct (ranked_cmp x y); [by left|by left|by right]. Qed.

(** ** The bound on discovery *)

Definition discoveries (l : list Ranked) : nat := length (List.filter discovery l).

Lemma bound_discovery_sublist budget seen l : bound_discovery budget seen l `sublist_of` l.
Proof.
  revert seen. induction l as [|r l IH]; intros seen; cbn [bound_discovery]; [done|].
  destruct (discovery r); [destruct (S seen <=? budget)%nat|]; [by apply sublist_skip|by apply sublist_cons|by apply sublist_skip].
Qed.
Lemma bound_discovery_over budget k l : (budget <= k)%nat -> bound_discovery budget k l = List.filter (fun r => negb (discovery r)) l.
Proof.
  revert k. induction l as [|r l IH]; intros k Hk; cbn [bound_discovery List.filter]; [done|]. destruct (discovery r); cbn [negb].
  - destruct (Nat.leb_spec (S k) budget); [lia|]. apply IH. lia.
  - by rewrite IH.
Qed.
Lemma no_discoveries l : List.filter discovery (List.filter (fun r => negb (discovery r)) l) = [].
Proof. induction l as [|r l IH]; [done|]. cbn. destruct (discovery r) eqn:E; cbn; [done|]. by rewrite E. Qed.
Lemma bound_discovery_count budget seen l : (seen <= budget)%nat -> (seen + discoveries (bound_discovery budget seen l) <= budget)%nat.
Proof.
  revert seen. induction l as [|r l IH]; intros seen Hs; cbn [bound_discovery]; [cbn; lia|]. unfold discoveries in *.
  destruct (discovery r) eqn:Hd; [destruct (Nat.leb_spec (S seen) budget)|].
  - cbn [List.filter]. rewrite Hd. cbn [length]. specialize (IH (S seen)). lia.
  - rewrite bound_discovery_over, no_discoveries by lia. cbn. lia.
  - cbn [List.filter]. rewrite Hd. by apply IH.
Qed.
(** What is left out is unknown, and follows as many unknown candidates as are allowed. *)
Lemma bound_discovery_omits budget l : forall seen r, (seen <= budget)%nat -> StronglySorted ranked_le l -> r ∈ l ->
  r ∈ bound_discovery budget seen l \/
  (discovery r = true /\ (seen + discoveries (bound_discovery budget seen l) = budget)%nat /\
   forall r', r' ∈ bound_discovery budget seen l -> discovery r' = true -> ranked_le r' r).
Proof.
  unfold discoveries. induction l as [|x l IH]; intros seen r Hs Hl Hr; [by apply not_elem_of_nil in Hr|].
  apply StronglySorted_inv in Hl as [Hl Hx]. rewrite Forall_forall in Hx. cbn [bound_discovery].
  destruct (discovery x) eqn:Hd.
  - destruct (Nat.leb_spec (S seen) budget) as [Hlt|Hge].
    + apply elem_of_cons in Hr as [->|Hr]; [left; apply elem_of_cons; by left|].
      destruct (IH (S seen) r Hlt Hl Hr) as [H|(H1 & H2 & H3)]; [left; apply elem_of_cons; by right|right]. split; [done|].
      cbn [List.filter]. rewrite Hd. cbn [length]. split; [lia|]. intros r' [->|H]%elem_of_cons Hd'; [by apply Hx|by apply H3].
    + rewrite bound_discovery_over by lia. destruct (discovery r) eqn:Hdr; [right|left].
      * split; [done|]. rewrite no_discoveries. split; [cbn; lia|]. intros r' [_ H]%list_elem_of_In%filter_In Hd'. by rewrite Hd' in H.
      * apply elem_of_cons in Hr as [->|Hr]; [congruence|]. apply list_elem_of_In, filter_In. rewrite Hdr. split; [by apply list_elem_of_In|done].
  - apply elem_of_cons in Hr as [->|Hr]; [left; apply elem_of_cons; by left|]. cbn [List.filter]. rewrite Hd.
    destruct (IH seen r Hs Hl Hr) as [H|(H1 & H2 & H3)]; [left; apply elem_of_cons; by right|right]. split; [done|]. split; [done|].
    intros r' [->|H]%elem_of_cons Hd'; [congruence|by apply H3].
Qed.

(** ** What a selection promises *)

Section Promise.
Context (sha_hex : string -> string) (intent : IntentConstraints) (eligibility : EligibilityStore) (quotas : QuotaInventory) (now : N).

(** The candidate can do what the request needs. *)
Record serves (c : Candidate) : Prop := {
  sv_context : min_context_tokens intent <= context_tokens c;
  sv_modalities : forall m, m ∈ modalities intent -> m ∈ c_modalities c;
  sv_tools : needs_tools intent = true -> supports_tools c = true;
  sv_structured : needs_structured_output intent = true -> supports_structured_output c = true;
  sv_residency : forall r, residency intent = Some r -> default "" (c_residency c) = r;
  sv_latency : forall m, max_latency_ms intent = Some m -> est_latency_ms c <= m;
  sv_cost : forall cap, max_cost_per_mtok intent = Some cap -> F64.lt cap (default (F64.of_N 0) (cost_per_mtok c)) = false;
}.
Definition pin_allows (c : Candidate) : Prop := forall p, pinned_model intent = Some p -> pin_fallback intent = Deny -> c_model c = p.
(** Nothing on record says it cannot be used now. *)
Definition available (c : Candidate) : Prop :=
  (verdict sha_hex eligibility now c = Usable \/ verdict sha_hex eligibility now c = Unknown) /\
  (forall k r a, CloudQuota.resolve sha_hex quotas (subject c) now <> HeadroomExhausted k r a).
Definition eligible (c : Candidate) : Prop := pin_allows c /\ serves c /\ available c.

Lemma missing_None (ms have : list string) : List.find (fun m => negb (existsb (String.eqb m) have)) ms = None <-> (forall m, m ∈ ms -> m ∈ have).
Proof.
  split.
  - intros H m Hm. apply list_elem_of_In in Hm. pose proof (find_none _ _ H _ Hm) as Hn. cbn in Hn.
    apply negb_false_iff, existsb_exists in Hn as (x & Hx & ->%String.eqb_eq). by apply list_elem_of_In.
  - intros H. apply eq_None_not_Some. intros [m Hm]. apply find_some in Hm as [Hm Hn]. apply negb_true_iff in Hn.
    assert (existsb (String.eqb m) have = true) as E; [|congruence]. apply existsb_exists. exists m. split; [|apply String.eqb_refl].
    by apply list_elem_of_In, H, list_elem_of_In.
Qed.
Lemma capability_block_None c : capability_block intent c = None <-> serves c.
Proof.
  unfold capability_block. split.
  - destruct (N.ltb_spec (context_tokens c) (min_context_tokens intent)) as [|Hctx]; [done|].
    destruct (List.find _ _) eqn:Hm; [done|]. rewrite missing_None in Hm.
    destruct (needs_tools intent && negb (supports_tools c)) eqn:Ht; [done|].
    destruct (needs_structured_output intent && negb (supports_structured_output c)) eqn:Hs; [done|]. intros H.
    split; [done|done| | | | |].
    + intros E. rewrite E in Ht. by apply negb_false_iff.
    + intros E. rewrite E in Hs. by apply negb_false_iff.
    + intros r E. rewrite E in H. destruct (String.eqb_spec (default "" (c_residency c)) r); [done|discriminate H].
    + intros m E. rewrite E in H. destruct (match residency intent with Some _ => _ | None => _ end); [discriminate H|].
      destruct (N.ltb_spec m (est_latency_ms c)); [discriminate H|done].
    + intros cap E. rewrite E in H. destruct (match residency intent with Some _ => _ | None => _ end); [discriminate H|].
      destruct (match max_latency_ms intent with Some _ => _ | None => _ end); [discriminate H|]. by destruct (F64.lt _ _).
  - intros [Hc Hm Ht Hs Hr Hl Hk]. destruct (N.ltb_spec (context_tokens c) (min_context_tokens intent)); [lia|].
    rewrite (proj2 (missing_None _ _) Hm).
    destruct (needs_tools intent) eqn:Et; [rewrite Ht by done|]; cbn [andb negb];
      (destruct (needs_structured_output intent) eqn:Es; [rewrite Hs by done|]; cbn [andb negb]);
      (destruct (residency intent) as [r|]; [rewrite (Hr r eq_refl), String.eqb_refl|]);
      (destruct (max_latency_ms intent) as [m|]; [rewrite (proj2 (N.ltb_ge _ _) (Hl m eq_refl))|]);
      (destruct (max_cost_per_mtok intent) as [k|]; [by rewrite (Hk k eq_refl)|done]).
Qed.
Lemma pin_allows_iff c : bool_decide (is_Some (pinned_model intent)) && negb (is_pin intent c) && bool_decide (pin_fallback intent = Deny) = false <-> pin_allows c.
Proof.
  unfold pin_allows, is_pin. destruct (pinned_model intent) as [p|]; [|by split].
  change (bool_decide (is_Some (Some p))) with true. cbn [andb]. destruct (String.eqb_spec (c_model c) p) as [E|E]; cbn [negb andb].
  - split; [intros _ ? [= <-] _; done|done].
  - rewrite bool_decide_eq_false. split; [intros H ? [= <-] Hd; by destruct H|intros H Hd; by destruct (E (H p eq_refl Hd))].
Qed.
Lemma block_reason_None c : block_reason sha_hex intent eligibility quotas now c = None <-> eligible c.
Proof.
  unfold block_reason, eligible, available. rewrite <- pin_allows_iff, <- capability_block_None.
  destruct (_ && bool_decide (pin_fallback intent = Deny)); [split; [done|intros [? _]; done]|].
  destruct (capability_block intent c); [split; [done|intros (_ & ? & _); done]|].
  destruct (verdict sha_hex eligibility now c); cbn [dispatchable negb];
    try (split; [done|intros (_ & _ & [?|?] & _); done]);
    (destruct (CloudQuota.resolve sha_hex quotas (subject c) now) eqn:E;
     (split; [intros H; try discriminate H; repeat split; try done; eauto|intros (_ & _ & _ & H); try done; by destruct (H kind resets retry_after)])).
Qed.

(** The entry of an eligible candidate. *)
Definition ranks (c : Candidate) (r : Ranked) : Prop :=
  opaque_id sha_hex c = Some (r_candidate r) /\ discovery r = bool_decide (verdict sha_hex eligibility now c = Unknown) /\
  pinned r = is_pin intent c /\ r_score r = score intent c.
Lemma collect_ranked cs : forall i sel, collect sha_hex intent eligibility quotas now i cs = Some sel ->
  (forall r, r ∈ ranked sel <-> exists j c, cs !! j = Some c /\ index r = (i + j)%nat /\ eligible c /\ ranks c r) /\
  NoDup (index <$> ranked sel).
Proof.
  induction cs as [|c cs IH]; intros i sel; cbn [collect].
  - intros [= <-]. cbn. split; [|constructor]. intros r. split; [by intros ?%not_elem_of_nil|by intros (j & c & H & _)].
  - destruct (opaque_id sha_hex c) as [id|] eqn:Hid; [|done]. cbn [mbind option_bind]. destruct (collect _ _ _ _ _ (S i) cs) as [sel'|] eqn:E; [|done].
    cbn. intros [= <-]. destruct (IH (S i) sel' E) as [Hr Hn].
    assert (forall r, (exists j d, (c :: cs) !! j = Some d /\ index r = (i + j)%nat /\ eligible d /\ ranks d r) <->
      (index r = i /\ eligible c /\ ranks c r) \/ r ∈ ranked sel') as Hstep.
    { intros r. rewrite Hr. split.
      - intros ([|j] & d & H & Hi & Hd); cbn in H; [injection H as <-; left; split; [lia|done]|right; exists j, d; repeat split; try apply Hd; [done|lia]].
      - intros [(Hi & Hd)|(j & d & H & Hi & Hd)]; [exists 0%nat, c; repeat split; try apply Hd; lia|exists (S j), d; repeat split; try apply Hd; [done|lia]]. }
    destruct (block_reason sha_hex intent eligibility quotas now c) eqn:Eb; cbn [ranked]; (split; [intros r; rewrite Hstep|]).
    + split; [by right|intros [(_ & Hel%block_reason_None & _)|?]; [congruence|done]].
    + done.
    + apply block_reason_None in Eb. rewrite elem_of_cons. split.
      * intros [->|?]; [left|by right]. split; [done|]. split; [done|]. by repeat split.
      * intros [(Hi & _ & H1 & H2 & H3 & H4)|?]; [left|by right]. destruct r. cbn in *. f_equal; congruence.
    + cbn. constructor; [|done]. intros (r & -> & (j & d & _ & Hi & _)%Hr)%list_elem_of_fmap. lia.
Qed.
Lemma collect_ids cs : forall k sel i c, collect sha_hex intent eligibility quotas now k cs = Some sel -> cs !! i = Some c -> is_Some (opaque_id sha_hex c).
Proof.
  induction cs as [|d cs IH]; intros k sel i c; [done|]. cbn [collect]. destruct (opaque_id sha_hex d) eqn:Ed; [|done]. cbn.
  destruct (collect _ _ _ _ _ (S k) cs) eqn:Es; [|done]. intros _. destruct i as [|i]; cbn; [intros [= <-]; eauto|by eapply IH].
Qed.

Lemma select_sound cs sel : select sha_hex intent eligibility quotas now cs = Some sel ->
  (forall r, r ∈ ranked sel -> exists c, cs !! index r = Some c /\ eligible c /\ ranks c r) /\ NoDup (index <$> ranked sel).
Proof.
  unfold select. destruct (collect _ _ _ _ _ 0 cs) as [sel0|] eqn:E; [|done]. cbn. intros [= <-]. cbn [ranked].
  destruct (collect_ranked cs 0 sel0 E) as [Hr Hn]. pose proof (merge_sort_Permutation ranked_le (ranked sel0)) as Hp.
  set (l := merge_sort ranked_le (ranked sel0)) in *. pose proof (bound_discovery_sublist (discovery_budget intent) 0 l) as Hsub. split.
  - intros r H. pose proof (elem_of_submseteq _ _ _ H (sublist_submseteq _ _ Hsub)) as Hl. rewrite Hp in Hl.
    apply Hr in Hl as (j & c & Hc & -> & Hd). by exists c.
  - eapply sublist_NoDup; [|by apply (fmap_sublist index)]. by rewrite Hp.
Qed.

(** C19. A selection is exact. Every candidate in the order can serve the request, is not
    barred by the pin, and is held back neither by the eligibility evidence nor by an
    exhausted quota; none appears twice. The order is: the pin, then the proven, then the
    unknown, each by score. Every eligible candidate that is proven is in it, and so is every
    unknown one as long as the discovery budget lasts: one left out follows a full budget of
    unknown ones. *)
Theorem selection_is_exact cs sel : select sha_hex intent eligibility quotas now cs = Some sel ->
  (forall r, r ∈ ranked sel -> exists c, cs !! index r = Some c /\ eligible c /\ ranks c r) /\
  NoDup (index <$> ranked sel) /\
  StronglySorted ranked_le (ranked sel) /\
  (discoveries (ranked sel) <= discovery_budget intent)%nat /\
  (forall i c, cs !! i = Some c -> eligible c -> exists r, index r = i /\ ranks c r /\
     (r ∈ ranked sel \/
      (verdict sha_hex eligibility now c = Unknown /\ discoveries (ranked sel) = discovery_budget intent /\
       forall r', r' ∈ ranked sel -> discovery r' = true -> ranked_le r' r))).
Proof.
  intros Hsel. destruct (select_sound cs sel Hsel) as [H1 H2]. split; [exact H1|]. split; [exact H2|]. clear H1 H2. revert Hsel.
  unfold select. destruct (collect _ _ _ _ _ 0 cs) as [sel0|] eqn:E; [|done]. cbn. intros [= <-]. cbn [ranked].
  destruct (collect_ranked cs 0 sel0 E) as [Hr _].
  pose proof (StronglySorted_merge_sort ranked_le (ranked sel0)) as Hs. pose proof (merge_sort_Permutation ranked_le (ranked sel0)) as Hp.
  set (l := merge_sort ranked_le (ranked sel0)) in *. pose proof (bound_discovery_sublist (discovery_budget intent) 0 l) as Hsub.
  split; [|split].
  - by eapply sorted_sublist.
  - pose proof (bound_discovery_count (discovery_budget intent) 0 l ltac:(lia)). lia.
  - intros i c Hc He. destruct (collect_ids cs 0 sel0 i c E Hc) as [id Hid].
    set (r := mkRanked i id (bool_decide (verdict sha_hex eligibility now c = Unknown)) (is_pin intent c) (score intent c)).
    exists r. split; [done|]. split; [by repeat split|]. assert (r ∈ l) as Hin by (rewrite Hp; apply Hr; exists i, c; split; [done|]; split; [done|]; split; [done|]; by repeat split).
    destruct (bound_discovery_omits (discovery_budget intent) l 0 r ltac:(lia) Hs Hin) as [?|(H1 & H2 & H3)]; [by left|right].
    split; [by apply bool_decide_eq_true in H1|by split].
Qed.

(** With fingerprints of at least eight ASCII characters a selection fails exactly when some
    candidate has no key. *)
Theorem selection_fails_without_key cs : (forall k, is_Some (first_eight (sha_hex k))) ->
  select sha_hex intent eligibility quotas now cs = None <-> exists c, c ∈ cs /\ c_api_key c = "".
Proof.
  intros Hk. unfold select. assert (forall i, collect sha_hex intent eligibility quotas now i cs = None <-> exists c, c ∈ cs /\ c_api_key c = "") as H.
  { induction cs as [|c cs IH]; intros i; cbn [collect]; [split; [done|by intros (c & ?%not_elem_of_nil & _)]|].
    unfold opaque_id, credential_fingerprint. destruct (bool_decide_reflect (c_api_key c = "")) as [Hc|Hc].
    - split; [intros _; exists c; split; [apply elem_of_cons; by left|done]|done].
    - destruct (Hk (c_api_key c)) as [p ->]. cbn. specialize (IH (S i)).
      destruct (collect sha_hex intent eligibility quotas now (S i) cs); cbn.
      + split; [done|]. intros (d & [->|Hd]%elem_of_cons & Hd'); [done|]. discriminate (proj2 IH (ex_intro _ d (conj Hd Hd'))).
      + split; [intros _|done]. destruct (proj1 IH eq_refl) as (d & Hd & Hd'). exists d. split; [apply elem_of_cons; by right|done]. }
  specialize (H 0%nat). destruct (collect _ _ _ _ _ 0 cs); cbn; rewrite <- H; done.
Qed.
End Promise.

(** ** Examples *)

Definition fingerprint (k : string) : string := toy ("0000000" +:+ k).
Lemma fingerprint_is_long k : is_Some (first_eight (fingerprint k)).
Proof.
  assert (is_char_boundary 8 (fingerprint k) = true) as H.
  { destruct k as [|c k]; [reflexivity|]. change (negb (is_continuation (toy_char c)) = true).
    by destruct c as [[] [] [] [] [] [] [] []]. }
  unfold first_eight. change (8 <=? String.length (fingerprint k))%nat with true. rewrite H. by eexists.
Qed.
Definition candidate (key model : string) (cost : option F64.t) (won tried : N) : Candidate :=
  mkCandidate "openai" key (Some "acme") None model 128000 [] true true None 800 cost {[ "coding" := (won, tried) ]}.
Definition coding (discovery : nat) : IntentConstraints := mkIntent "coding" 1000 [] true false None None None None Allow discovery.
Definition dear : F64.t := F64.of_N 30.
Definition nothing_known : EligibilityStore := EligibilityStore_new.
Definition order (intent : IntentConstraints) (st : EligibilityStore) (cs : list Candidate) : option (list nat) :=
  (fun sel => index <$> ranked sel) <$> select fingerprint intent st QuotaInventory_new 100 cs.
Definition after_success (c : Candidate) : EligibilityStore :=
  default nothing_known (record_inference fingerprint nothing_known (subject c) Success 100 [] 100).
Definition two : list Candidate := [candidate "sk-1" "small" None 1 10; candidate "sk-2" "big" (Some dear) 9 10].

(** The better model leads, and of two unknown ones a budget of one keeps the better. *)
Example better_first : order (coding 2) nothing_known two = Some [1; 0]%nat /\ order (coding 1) nothing_known two = Some [1]%nat.
Proof. split; vm_compute; reflexivity. Qed.
(** A proven one goes before a better one that is unknown. *)
Example proven_first : order (coding 1) (after_success (candidate "sk-1" "small" None 1 10)) two = Some [0; 1]%nat.
Proof. vm_compute. reflexivity. Qed.

Lemma selection_is_exact_witness : exists sel, select fingerprint (coding 1) nothing_known QuotaInventory_new 100 two = Some sel /\
  (discoveries (ranked sel) <= 1)%nat /\ StronglySorted ranked_le (ranked sel).
Proof.
  destruct (select fingerprint (coding 1) nothing_known QuotaInventory_new 100 two) as [sel|] eqn:E; [|discriminate E].
  exists sel. split; [reflexivity|].
  pose proof (selection_is_exact fingerprint (coding 1) nothing_known QuotaInventory_new 100 two sel E) as (_ & _ & Hs & Hd & _).
  split; [exact Hd|exact Hs].
Defined.
(** One candidate without a key and nothing can be selected. *)
Lemma selection_fails_without_key_witness :
  select fingerprint (coding 1) nothing_known QuotaInventory_new 100 [candidate "sk-1" "small" None 1 10; candidate "" "local" None 9 10] = None.
Proof.
  apply (proj2 (selection_fails_without_key fingerprint (coding 1) nothing_known QuotaInventory_new 100 _ fingerprint_is_long)).
  exists (candidate "" "local" None 9 10). split; [apply list_elem_of_In; right; left; reflexivity|reflexivity].
Defined.

(** A free candidate goes before one with the better record, 500 wins in a thousand against
    505. *)
Lemma free_beats_better_quality : order (coding 2) nothing_known
    [candidate "sk-2" "big" (Some dear) 505 1000; candidate "sk-1" "small" None 500 1000] = Some [1; 0]%nat.
Proof. vm_compute. reflexivity. Qed.
