(* ===== verification/CloudFailover.v ===== *)
(** * CloudFailover: dispatching a request over a selection
    ([crates/susi-gawd-swarm/src/cloud_failover.rs], with [reserve_dispatch] of
    [crates/susi-gawd-agents/src/cloud_budget.rs])

    The runner that performs an attempt is a parameter: what it answers may depend on the
    attempts before, on the candidate and on the time left.  So are the clocks the stores
    read, by the number of candidates passed.  The ledger is the run's view of the shared
    one: [CloudBudget] has what holds when other workers use it in between. *)

From S2P Require Import Prelude Text CloudEligibility CloudQuota CloudBudget CloudLockout CloudIntent.
From Stdlib Require Import Floats.SpecFloat.

Local Open Scope string_scope.
Local Open Scope list_scope.
Local Open Scope N_scope.

Inductive AttemptOutcome : Type :=
| Succeeded (text : string)
| PreDispatch (r : InferenceResult)
| WorkerFailed (why : string)
| MidStream (r : InferenceResult) (partial : string)
| Ambiguous (r : InferenceResult).
Record AttemptRecord : Type := mkAttempt {
  a_candidate : string;
  a_outcome : string;
}.
(** [Admission] is only made by [parallel_dispatch.rs]. *)
Inductive FailoverStop : Type :=
| NoEligibleCandidates
| AttemptBudgetExhausted (used : N)
| DeadlineExceeded
| BudgetExhausted
| AllLockedOut
| Admission (why : string).
Record FailoverResult : Type := mkResult {
  output : option string;
  winner : option nat;
  attempts : list AttemptRecord;
  prior_ambiguous : bool;
  stop : option FailoverStop;
}.
Record Stores : Type := mkStores {
  eligibility : EligibilityStore;
  quota : QuotaInventory;
  lockouts : LockoutTracker;
  ledger : Ledger;
}.
Record FailoverBudget : Type := mkFailoverBudget {
  max_attempts : N;
  deadline_ms : option N;
  spend : SpendPolicy;
  attempt_estimate_micros : N;
  start_ms : N;
}.

(** [reserve_dispatch] of the ledger. *)
Definition reserve_dispatch (g : Ledger) (c : Candidate) (h : FreeHeadroom) (e : N) (p : SpendPolicy) : result (Ledger * N) Denial :=
  reserve g (mkRequest (default "" (c_account c)) p (SFeqb (default (F64.of_N 0) (cost_per_mtok c)) (F64.of_N 0)) h e).
Definition as_u32 (n : nat) : N := N.of_nat n mod 2 ^ 32.

(** The variables of the loop. *)
Record Progress : Type := mkProgress {
  p_stores : Stores;
  p_now : N;
  p_attempted : list nat;
  p_attempts : list AttemptRecord;
  p_ambiguous : bool;
  p_lockout : bool;
  p_denial : bool;
  p_stop : option FailoverStop;
}.
Inductive Halt : Type :=
| Panic
| OutOfFuel.
Inductive Turn : Type :=
| Return (r : FailoverResult) (s : Stores)
| Continue (p : Progress).

Section Failover.
Context (sha_hex : string -> string) (env : list (string * string)).
Context (permit_clock record_clock wall : nat -> N).
(** The attempts before, the candidate, the time left; the answer, and the usage reported. *)
Context (runner : nat -> nat -> N -> AttemptOutcome * option N).
Context (sel : Selection) (candidates : list Candidate) (budget : FailoverBudget).

Definition stopped (p : Progress) (why : FailoverStop) : Turn :=
  Return (mkResult None None (p_attempts p) (p_ambiguous p) (Some why)) (p_stores p).
(** Nothing is left to attempt. *)
Definition finish (p : Progress) : Turn :=
  stopped p (if p_lockout p then AllLockedOut else if p_denial p then BudgetExhausted else AttemptBudgetExhausted (as_u32 (length (p_attempts p)))).

Definition skip (r : Ranked) (p : Progress) (lockout denial : bool) (stop : option FailoverStop) : Progress :=
  mkProgress (p_stores p) (p_now p) (p_attempted p ++ [index r]) (p_attempts p) (p_ambiguous p) lockout denial stop.
(** The evidence of an attempt, in both stores; [None]: recording it panics. *)
Definition learn (n : nat) (c : Candidate) (scope : string) (res : InferenceResult) (now : N) (s : Stores) : option Stores :=
  st ← record_inference sha_hex (eligibility s) (subject c) res (now / 1000) env (wall n);
  Some (mkStores st (quota s) (CloudLockout.record (lockouts s) (record_clock n) scope res) (ledger s)).
Definition with_ledger (s : Stores) (g : Ledger) : Stores := mkStores (eligibility s) (quota s) (lockouts s) g.
(** After an attempt that did not succeed. *)
Definition failed (r : Ranked) (p : Progress) (what : string) (ambiguous : bool) (s : Stores) : Progress :=
  mkProgress s (saturating_add (p_now p) 1) (p_attempted p ++ [index r]) (p_attempts p ++ [mkAttempt (r_candidate r) what])
    (p_ambiguous p || ambiguous) (p_lockout p) (p_denial p) (p_stop p).

Definition dispatch (r : Ranked) (c : Candidate) (p : Progress) (g : Ledger) (reservation : N) : result Turn Halt :=
  let n := length (p_attempted p) in
  let scope := r_candidate r in
  let remaining := match deadline_ms budget with Some dl => dl - p_now p | None => u64_max end in
  let '(outcome, usage) := runner (length (p_attempts p)) (index r) remaining in
  let s := with_ledger (p_stores p) g in
  let learned (res : InferenceResult) := learn n c scope res (p_now p) s in
  let charged (s : Stores) := with_ledger s (commit (ledger s) reservation usage) in
  let released (s : Stores) := with_ledger s (release (ledger s) reservation) in
  match outcome with
  | Succeeded text =>
      match learned Success with
      | Some s => Ok (Return (mkResult (Some text) (Some (index r)) (p_attempts p ++ [mkAttempt scope "success"]) (p_ambiguous p) (p_stop p)) (charged s))
      | None => Err Panic
      end
  | PreDispatch res => match learned res with Some s => Ok (Continue (failed r p "pre_dispatch" false (released s))) | None => Err Panic end
  | WorkerFailed _ => Ok (Continue (failed r p "worker_failed" false (released s)))
  | MidStream res _ => match learned res with Some s => Ok (Continue (failed r p "mid_stream" false (charged s))) | None => Err Panic end
  | Ambiguous res => match learned res with Some s => Ok (Continue (failed r p "ambiguous" true (charged s))) | None => Err Panic end
  end.

(** One round of the loop over the candidate it found. *)
Definition turn (r : Ranked) (p : Progress) : result Turn Halt :=
  if max_attempts budget <=? as_u32 (length (p_attempts p)) then Ok (stopped p (AttemptBudgetExhausted (as_u32 (length (p_attempts p)))))
  else if match deadline_ms budget with Some dl => dl <=? p_now p | None => false end then Ok (stopped p DeadlineExceeded)
  else match candidates !! index r with
  | None => Err Panic
  | Some c =>
      match permit (lockouts (p_stores p)) (permit_clock (length (p_attempted p))) (r_candidate r) Unknown with
      | Cooldown _ | CircuitOpen _ | ProbesExhausted => Ok (Continue (skip r p true (p_denial p) (p_stop p)))
      | Permanent _ => Ok (Continue (skip r p (p_lockout p) (p_denial p) (p_stop p)))
      | Allowed =>
          match reserve_dispatch (ledger (p_stores p)) c HeadroomUnknown (attempt_estimate_micros budget) (spend budget) with
          | Ok (g, reservation) => dispatch r c p g reservation
          | Err _ => Ok (Continue (skip r p (p_lockout p) true (Some BudgetExhausted)))
          end
      end
  end.
Fixpoint loop (fuel : nat) (p : Progress) : result (FailoverResult * Stores) Halt :=
  match fuel with
  | O => Err OutOfFuel
  | S fuel' =>
      match (match next_after sel (p_attempted p) with Some r => turn r p | None => Ok (finish p) end) with
      | Ok (Return r s) => Ok (r, s)
      | Ok (Continue p') => loop fuel' p'
      | Err h => Err h
      end
  end.
Definition run_selection (s : Stores) : result (FailoverResult * Stores) Halt :=
  match ranked sel with
  | [] => Ok (mkResult None None [] false (Some NoEligibleCandidates), s)
  | _ => loop (S (length (ranked sel))) (mkProgress s (start_ms budget) [] [] false false false None)
  end.
End Failover.

Definition run (sha_hex : string -> string) (env : list (string * string)) (permit_clock record_clock wall : nat -> N)
    (runner : nat -> nat -> N -> AttemptOutcome * option N) (intent : IntentConstraints) (candidates : list Candidate)
    (budget : FailoverBudget) (s : Stores) : result (FailoverResult * Stores) Halt :=
  match select sha_hex intent (eligibility s) (quota s) (start_ms budget / 1000) candidates with
  | Some sel => run_selection sha_hex env permit_clock record_clock wall runner sel candidates budget s
  | None => Err Panic
  end.

(** ** The loop walks the order once *)

Section Walk.
Context (sha_hex : string -> string) (env : list (string * string)).
Context (permit_clock record_clock wall : nat -> N).
Context (runner : nat -> nat -> N -> AttemptOutcome * option N).
Context (sel : Selection) (candidates : list Candidate) (budget : FailoverBudget).

Notation turn := (turn sha_hex env permit_clock record_clock wall runner candidates budget).
Notation dispatch := (dispatch sha_hex env record_clock wall runner budget).
Notation loop := (loop sha_hex env permit_clock record_clock wall runner sel candidates budget).

Fixpoint walk (l : list Ranked) (p : Progress) : result (FailoverResult * Stores) Halt :=
  match l with
  | [] => match finish p with Return r s => Ok (r, s) | Continue _ => Err OutOfFuel end
  | r :: l' =>
      match turn r p with
      | Ok (Return res s) => Ok (res, s)
      | Ok (Continue p') => walk l' p'
      | Err h => Err h
      end
  end.

(** The ways an attempt goes on. *)
Inductive attempted_on (r : Ranked) (p p' : Progress) : Prop :=
| went_on what ambiguous s : what <> "success" -> (ambiguous = true <-> what = "ambiguous") ->
    p' = failed r p what ambiguous s -> attempted_on r p p'.
Lemma dispatch_Continue r c p g res p' : dispatch r c p g res = Ok (Continue p') -> attempted_on r p p'.
Proof.
  unfold dispatch. destruct (runner _ _ _) as [[text|x|why|x partial|x] usage]; try destruct (learn _ _ _ _ _ _ _ _ _ _);
    intros H; try discriminate H; injection H as <-; eapply went_on; try reflexivity; done.
Qed.
Inductive turned (r : Ranked) (p p' : Progress) : Prop :=
| turn_skips lockout denial why : p' = skip r p lockout denial why -> turned r p p'
| turn_attempts : as_u32 (length (p_attempts p)) < max_attempts budget -> attempted_on r p p' -> turned r p p'.
Lemma turn_Continue r p p' : turn r p = Ok (Continue p') -> turned r p p'.
Proof.
  unfold turn. destruct (N.leb_spec (max_attempts budget) (as_u32 (length (p_attempts p)))); [done|].
  destruct (match deadline_ms budget with Some _ => _ | None => _ end); [done|]. destruct (candidates !! index r) as [c|]; [|done].
  destruct (permit _ _ _ _); try (intros [= <-]; by eapply turn_skips).
  destruct (reserve_dispatch _ _ _ _ _) as [[g res]|]; [|intros [= <-]; by eapply turn_skips].
  intros Hd%dispatch_Continue. by apply turn_attempts.
Qed.
Lemma turned_attempted r p p' : turned r p p' -> p_attempted p' = p_attempted p ++ [index r].
Proof. by intros [? ? ? ->|_ [? ? ? _ _ ->]]. Qed.

Lemma next_after_head pre l : ranked sel = pre ++ l -> NoDup (index <$> ranked sel) -> next_after sel (index <$> pre) = head l.
Proof.
  intros E Hn. unfold next_after. rewrite E in *. clear E. rewrite fmap_app in Hn. apply NoDup_app in Hn as (_ & Hd & Hl).
  assert (List.find (fun r => negb (bool_decide (index r ∈ index <$> pre))) (pre ++ l)
    = List.find (fun r => negb (bool_decide (index r ∈ index <$> pre))) l) as ->.
  { assert (forall q, (forall r, r ∈ q -> r ∈ pre) -> List.find (fun r => negb (bool_decide (index r ∈ index <$> pre))) (q ++ l)
      = List.find (fun r => negb (bool_decide (index r ∈ index <$> pre))) l) as H; [|by apply H].
    induction q as [|r q IH]; intros Hq; [done|]. cbn. rewrite bool_decide_true by (apply list_elem_of_fmap; exists r; split; [done|apply Hq, elem_of_cons; by left]).
    cbn. apply IH. intros r' Hr'. apply Hq, elem_of_cons. by right. }
  destruct l as [|r l]; [done|]. cbn. rewrite bool_decide_false; [done|]. intros H. apply (Hd (index r) H). cbn. apply elem_of_cons. by left.
Qed.
Lemma loop_walk l : forall pre p, ranked sel = pre ++ l -> NoDup (index <$> ranked sel) -> p_attempted p = index <$> pre ->
  loop (S (length l)) p = walk l p.
Proof.
  induction l as [|r l IH]; intros pre p E Hn Hp.
  - cbn [loop walk length]. rewrite Hp, (next_after_head pre [] E Hn). cbn. done.
  - change (loop (S (length (r :: l))) p) with
      (match (match next_after sel (p_attempted p) with Some r => turn r p | None => Ok (finish p) end) with
       | Ok (Return r s) => Ok (r, s) | Ok (Continue p') => loop (S (length l)) p' | Err h => Err h end).
    rewrite Hp, (next_after_head pre (r :: l) E Hn). cbn [head walk]. destruct (turn r p) as [[res s|p']|h] eqn:Et; [done| |done].
    apply (IH (pre ++ [r])); [by rewrite <- app_assoc|done|]. by rewrite (turned_attempted r p p' (turn_Continue r p p' Et)), Hp, fmap_app.
Qed.

(** A property of the walk, by its turns. *)
Lemma walk_rule (Inv : list Ranked -> Progress -> Prop) (Post : FailoverResult -> Stores -> Prop) :
  (forall r l p p', Inv (r :: l) p -> turn r p = Ok (Continue p') -> Inv l p') ->
  (forall r l p res s, Inv (r :: l) p -> turn r p = Ok (Return res s) -> Post res s) ->
  (forall p res s, Inv [] p -> finish p = Return res s -> Post res s) ->
  forall l p, Inv l p -> forall res s, walk l p = Ok (res, s) -> Post res s.
Proof.
  intros Hc Hr Hf. induction l as [|r l IH]; intros p HI res s; cbn [walk].
  - destruct (finish p) eqn:E; intros [= <- <-]. by eapply Hf.
  - destruct (turn r p) as [[res' s'|p']|h] eqn:E; [intros [= <- <-]; by eapply Hr|apply IH; by eapply Hc|done].
Qed.
Lemma walk_ends l p : walk l p <> Err OutOfFuel.
Proof.
  revert p. induction l as [|r l IH]; intros p; cbn [walk]; [by unfold finish, stopped|].
  destruct (turn r p) as [[res s|p']|h] eqn:E; [done|apply IH|]. intros [= ->]. revert E.
  unfold turn. destruct (_ <=? _); [done|]. destruct (match deadline_ms budget with Some _ => _ | None => _ end); [done|].
  destruct (candidates !! index r) as [c|]; [|done]. destruct (permit _ _ _ _); try done.
  destruct (reserve_dispatch _ _ _ _ _) as [[g res]|]; [|done]. unfold dispatch.
  destruct (runner _ _ _) as [[text|x|why|x partial|x] usage]; try done; by destruct (learn _ _ _ _ _ _ _ _ _ _).
Qed.

Lemma as_u32_small n : N.of_nat n <= u32_max -> as_u32 n = N.of_nat n.
Proof. intros H. unfold as_u32. apply N.mod_small. unfold u32_max in H. lia. Qed.

(** How far the walk has come. *)
Record within (l : list Ranked) (p : Progress) : Prop := {
  w_count : N.of_nat (length (p_attempts p)) <= max_attempts budget;
  w_order : exists pre, ranked sel = pre ++ l /\ a_candidate <$> p_attempts p `sublist_of` r_candidate <$> pre;
}.
Lemma within_turn r l p p' : max_attempts budget <= u32_max -> within (r :: l) p -> turn r p = Ok (Continue p') -> within l p'.
Proof.
  intros Hm [Hc (pre & E & Hs)] [lo de why ->|Hlt [what am s _ _ ->]]%turn_Continue.
  - split; [done|]. exists (pre ++ [r]). split; [by rewrite <- app_assoc|]. cbn. rewrite fmap_app. by apply sublist_inserts_r.
  - rewrite as_u32_small in Hlt by lia. split; [cbn; rewrite length_app; cbn; lia|]. exists (pre ++ [r]). split; [by rewrite <- app_assoc|].
    cbn. rewrite !fmap_app. by apply sublist_app.
Qed.
Lemma turn_Return r p res s : turn r p = Ok (Return res s) ->
  (output res = None /\ winner res = None /\ is_Some (stop res) /\ attempts res = p_attempts p /\ prior_ambiguous res = p_ambiguous p) \/
  (as_u32 (length (p_attempts p)) < max_attempts budget /\ exists text remaining usage,
     runner (length (p_attempts p)) (index r) remaining = (Succeeded text, usage) /\ output res = Some text /\ winner res = Some (index r) /\
     attempts res = p_attempts p ++ [mkAttempt (r_candidate r) "success"] /\ prior_ambiguous res = p_ambiguous p).
Proof.
  unfold turn. destruct (N.leb_spec (max_attempts budget) (as_u32 (length (p_attempts p)))); [intros [= <- <-]; left; cbn; eauto 10|].
  destruct (match deadline_ms budget with Some _ => _ | None => _ end); [intros [= <- <-]; left; cbn; eauto 10|].
  destruct (candidates !! index r) as [c|]; [|done]. destruct (permit _ _ _ _); try done.
  destruct (reserve_dispatch _ _ _ _ _) as [[g k]|]; [|done]. unfold dispatch.
  destruct (runner _ _ _) as [[text|x|why|x partial|x] usage] eqn:Er; try destruct (learn _ _ _ _ _ _ _ _ _ _); intros Hret; try discriminate Hret.
  injection Hret as <- <-. right. split; [done|]. eexists _, _, _. split; [exact Er|]. cbn. eauto.
Qed.
End Walk.

(** ** What a run promises *)

Section Runs.
Context (sha_hex : string -> string) (env : list (string * string)).
Context (permit_clock record_clock wall : nat -> N).
Context (runner : nat -> nat -> N -> AttemptOutcome * option N).
Context (intent : IntentConstraints) (candidates : list Candidate) (budget : FailoverBudget) (s : Stores).

Notation run := (run sha_hex env permit_clock record_clock wall runner intent candidates budget s).
Notation turn := (turn sha_hex env permit_clock record_clock wall runner candidates budget).
Notation walk := (walk sha_hex env permit_clock record_clock wall runner candidates budget).
Notation selected := (select sha_hex intent (eligibility s) (quota s) (start_ms budget / 1000) candidates).
Definition start : Progress := mkProgress s (start_ms budget) [] [] false false false None.

Lemma run_walk sel : selected = Some sel ->
  run = match ranked sel with [] => Ok (mkResult None None [] false (Some NoEligibleCandidates), s) | _ => walk (ranked sel) start end.
Proof.
  intros E. unfold run, run_selection. rewrite E. destruct (select_sound _ _ _ _ _ _ _ E) as [_ Hn].
  destruct (ranked sel) as [|r l] eqn:El; [done|]. rewrite <- El in Hn |- *. exact (loop_walk _ _ _ _ _ _ sel candidates budget (ranked sel) [] start eq_refl Hn eq_refl).
Qed.
(** A property of the results, by the turns of the walk. *)
Lemma run_rule (Inv : Selection -> list Ranked -> Progress -> Prop) (Post : FailoverResult -> Stores -> Prop) :
  (forall sel, selected = Some sel -> ranked sel = [] -> Post (mkResult None None [] false (Some NoEligibleCandidates)) s) ->
  (forall sel, selected = Some sel -> Inv sel (ranked sel) start) ->
  (forall sel r l p p', Inv sel (r :: l) p -> turn r p = Ok (Continue p') -> Inv sel l p') ->
  (forall sel r l p res s', Inv sel (r :: l) p -> turn r p = Ok (Return res s') -> Post res s') ->
  (forall sel p res s', Inv sel [] p -> finish p = Return res s' -> Post res s') ->
  forall res s', run = Ok (res, s') -> Post res s'.
Proof.
  intros He Hs Hc Hr Hf res s'. destruct selected as [sel|] eqn:E; [|unfold run; by rewrite E]. rewrite (run_walk sel E).
  destruct (ranked sel) as [|r l] eqn:El; [intros [= <- <-]; by apply (He sel)|]. rewrite <- El. revert res s'.
  apply (walk_rule _ _ _ _ _ _ _ _ (Inv sel) Post (Hc sel) (Hr sel) (Hf sel)). by apply Hs.
Qed.

(** A run always ends, having made no more attempts than it may, each of another candidate
    of the selection and in its order. *)
Theorem failover_is_bounded : max_attempts budget <= u32_max ->
  run <> Err OutOfFuel /\
  (forall res s', run = Ok (res, s') -> N.of_nat (length (attempts res)) <= max_attempts budget /\
     exists sel, selected = Some sel /\ NoDup (index <$> ranked sel) /\ a_candidate <$> attempts res `sublist_of` r_candidate <$> ranked sel).
Proof.
  intros Hm. split.
  - destruct selected as [sel|] eqn:E; [|unfold run; by rewrite E]. rewrite (run_walk sel E).
    destruct (ranked sel) eqn:El; [done|]. rewrite <- El. apply walk_ends.
  - apply (run_rule (fun sel l p => selected = Some sel /\ within sel budget l p)).
    + intros sel E El. cbn. split; [lia|]. exists sel. split; [done|]. split; [by eapply select_sound|apply sublist_nil_l].
    + intros sel E. split; [done|]. split; [cbn; lia|]. exists []. split; [done|apply sublist_nil_l].
    + intros sel r l p p' [E HI] Ht. split; [done|]. by eapply within_turn.
    + intros sel r l p res s' [E [Hc (pre & El & Hs)]] Ht. destruct (select_sound _ _ _ _ _ _ _ E) as [_ Hn].
      apply turn_Return in Ht as [(_ & _ & _ & -> & _)|(Hlt & text & rem & u & _ & _ & _ & -> & _)].
      * split; [done|]. exists sel. split; [done|]. split; [done|]. rewrite El, fmap_app. by apply sublist_inserts_r.
      * rewrite as_u32_small in Hlt by lia. split; [rewrite length_app; cbn; lia|]. exists sel. split; [done|]. split; [done|].
        rewrite El, !fmap_app. apply sublist_app; [done|]. cbn. apply sublist_skip, sublist_nil_l.
    + intros sel p res s' [E [Hc (pre & El & Hs)]] [= <- <-]. split; [done|]. exists sel. split; [done|]. split; [by eapply select_sound|].
      cbn. rewrite El, app_nil_r. exact Hs.
Qed.

(** The walk has no output yet. *)
Record honest (p : Progress) : Prop := {
  t_failed : Forall (fun a => a_outcome a <> "success") (p_attempts p);
  t_ambiguous : p_ambiguous p = true <-> exists a, a ∈ p_attempts p /\ a_outcome a = "ambiguous";
}.
Lemma honest_turn r p p' : honest p -> turn r p = Ok (Continue p') -> honest p'.
Proof.
  intros [Hf Ha] Ht. apply turn_Continue in Ht as [lo de why ->|_ [what am st Hw Hwa ->]]; [done|]. split; cbn.
  - apply Forall_app. split; [done|]. by constructor.
  - rewrite orb_true_iff, Ha, Hwa. split.
    + intros [(a & H & E)| ->]; [exists a; split; [apply elem_of_app; by left|done]|eexists; split; [apply elem_of_app; right; by apply list_elem_of_singleton|done]].
    + intros (a & [H|H%list_elem_of_singleton]%elem_of_app & E); [left; by exists a|right; by subst a].
Qed.

(** An answer is the whole text of the attempt that succeeded, which was the last one and
    of the candidate that is named the winner; whatever the attempts before produced is in no
    answer. A run without an answer says why it stopped. That an outcome was ambiguous is
    reported exactly when one was. *)
Theorem output_is_the_winners : forall res s', run = Ok (res, s') ->
  (prior_ambiguous res = true <-> exists a, a ∈ attempts res /\ a_outcome a = "ambiguous") /\
  match output res with
  | Some text => exists before r remaining usage, attempts res = before ++ [mkAttempt (r_candidate r) "success"] /\
      Forall (fun a => a_outcome a <> "success") before /\ winner res = Some (index r) /\
      runner (length before) (index r) remaining = (Succeeded text, usage)
  | None => winner res = None /\ is_Some (stop res) /\ Forall (fun a => a_outcome a <> "success") (attempts res)
  end.
Proof.
  apply (run_rule (fun _ _ p => honest p)).
  - intros sel E El. cbn. split; [|split; [done|split; [by eexists|constructor]]]. split; [done|]. by intros (a & ?%not_elem_of_nil & _).
  - intros sel E. split; cbn; [constructor|]. split; [done|]. by intros (a & ?%not_elem_of_nil & _).
  - intros sel r l p p'. apply honest_turn.
  - intros sel r l p res s' [Hf Ha] Ht.
    apply turn_Return in Ht as [(-> & -> & Hst & -> & ->)|(_ & text & rem & u & Hr & -> & -> & -> & ->)]; [by split|]. split.
    + rewrite Ha. split.
      * intros (a & H & E). exists a. split; [apply elem_of_app; by left|done].
      * intros (a & [H|H%list_elem_of_singleton]%elem_of_app & E); [by exists a|subst a; discriminate E].
    + by exists (p_attempts p), r, rem, u.
  - intros sel p res s' [Hf Ha] [= <- <-]. cbn. split; [done|]. split; [done|]. split; [by eexists|done].
Qed.

(** ** The ledger *)

(** What a turn did to the ledger. *)
Definition settles (g g' : Ledger) : Prop :=
  g' = g \/ exists c k, reserve_dispatch g c HeadroomUnknown (attempt_estimate_micros budget) (spend budget) = Ok (g', k).
Inductive settled (g g' : Ledger) : Prop :=
| untouched : g' = g -> settled g g'
| reserved c g1 k actual : reserve_dispatch g c HeadroomUnknown (attempt_estimate_micros budget) (spend budget) = Ok (g1, k) ->
    g' = release g1 k \/ g' = commit g1 k actual -> settled g g'.
Lemma turn_ledger r p o : turn r p = Ok o -> settled (ledger (p_stores p)) (ledger (match o with Return _ st => st | Continue p' => p_stores p' end)).
Proof.
  unfold turn. destruct (_ <=? _); [intros [= <-]; by left|].
  destruct (match deadline_ms budget with Some _ => _ | None => _ end); [intros [= <-]; by left|].
  destruct (candidates !! index r) as [c|]; [|done]. destruct (permit _ _ _ _); try (intros [= <-]; by left).
  destruct (reserve_dispatch _ _ _ _ _) as [[g k]|] eqn:Er; [|intros [= <-]; by left]. unfold dispatch.
  destruct (runner _ _ _) as [[text|x|why|x partial|x] usage];
    try (destruct (learn _ _ _ _ _ _ _ _ _ _) as [st|] eqn:El; [|done]; revert El; unfold learn;
         destruct (record_inference _ _ _ _ _ _ _); [|done]; intros [= <-]); intros [= <-]; cbn; apply (reserved _ _ c g k usage Er); auto.
Qed.
Lemma settled_held g g' : fresh_ids g -> settled g g' -> held g' = held g /\ fresh_ids g'.
Proof.
  intros Hf [->|c g1 k actual Hr H]; [done|]. unfold reserve_dispatch in Hr.
  destruct (reserve_Ok _ _ _ Hr) as (e & He & _). unfold new_hold in He. injection He as -> ->.
  set (req := mkRequest _ _ _ _ _) in Hr.
  assert (fresh_ids (CloudBudget.apply g (Reserve req))) as Hf1 by (by apply fresh_apply). cbn [CloudBudget.apply] in Hf1. rewrite Hr in Hf1.
  assert (held g !! next_id g = None) as Hn by (apply eq_None_not_Some; intros [h Hh%Hf]; lia).
  destruct H as [->| ->].
  - split; [cbn; by rewrite delete_insert_id|]. exact (fresh_apply _ (Release (next_id g)) Hf1).
  - split; [unfold commit; cbn; rewrite lookup_insert_eq; cbn; by rewrite delete_insert_id|]. exact (fresh_apply _ (Commit (next_id g) actual) Hf1).
Qed.
Definition authorized : N := match spend budget with PaidAuthorized m => m | _ => 0 end.
Lemma settled_ops g g' : settled g g' -> exists ops, g' = fold_left CloudBudget.apply ops g /\ forall a, Forall (capped a authorized) ops.
Proof.
  intros [->|c g1 k actual Hr H]; [by exists []|]. unfold reserve_dispatch in Hr. set (req := mkRequest _ _ _ _ _) in Hr.
  assert (forall a, capped a authorized (Reserve req)) as Hc by (intros a _; cbn; unfold authorized; by destruct (spend budget)).
  destruct H as [->| ->]; [exists [Reserve req; Release k]|exists [Reserve req; Commit k actual]]; cbn; rewrite Hr; (split; [done|]);
    intros a; repeat constructor; apply Hc.
Qed.
Lemma settled_run : fresh_ids (ledger s) -> forall res s', run = Ok (res, s') ->
  (held (ledger s') = held (ledger s) /\ fresh_ids (ledger s')) /\
  exists ops, ledger s' = fold_left CloudBudget.apply ops (ledger s) /\ forall a, Forall (capped a authorized) ops.
Proof.
  intros Hf. set (good := fun g => (held g = held (ledger s) /\ fresh_ids g) /\
    exists ops, g = fold_left CloudBudget.apply ops (ledger s) /\ forall a, Forall (capped a authorized) ops).
  assert (forall g g', good g -> settled g g' -> good g') as Hstep.
  { intros g g' [[Hh Hg] (ops & E & Hc)] Hs. destruct (settled_held g g' Hg Hs) as [Hh' Hg']. destruct (settled_ops g g' Hs) as (ops' & E' & Hc').
    split; [by rewrite Hh'|]. exists (ops ++ ops'). split; [by rewrite fold_left_app, <- E|]. intros a. apply Forall_app. auto. }
  assert (good (ledger s)) as H0 by (split; [done|by exists []]).
  apply (run_rule (fun _ _ p => good (ledger (p_stores p)))).
  - done.
  - done.
  - intros sel r l p p' HI Ht. exact (Hstep _ _ HI (turn_ledger r p _ Ht)).
  - intros sel r l p res s' HI Ht. exact (Hstep _ _ HI (turn_ledger r p _ Ht)).
  - intros sel p res s' HI [= <- <-]. done.
Qed.

(** A run that ends leaves no spend reserved: every reservation it took was released or
    charged.  What it did to the ledger are operations whose every reservation is within the
    spend authorized for the run, and so within what [CloudBudget] shows of all workers
    together. *)
Theorem failover_settles_spend : fresh_ids (ledger s) -> forall res s', run = Ok (res, s') ->
  held (ledger s') = held (ledger s) /\
  exists ops, ledger s' = fold_left CloudBudget.apply ops (ledger s) /\
    forall a, authorized < u64_max -> N.max authorized (exposure_of (ledger s) a) + overruns a (ledger s) ops <= u64_max ->
      exposure_of (ledger s') a <= N.max authorized (exposure_of (ledger s) a) + overruns a (ledger s) ops.
Proof.
  intros Hf res s' Hr. destruct (settled_run Hf res s' Hr) as [[Hh _] (ops & E & Hc)]. split; [done|]. exists ops. split; [done|].
  intros a Ha Hb. rewrite E. apply (exposure_run a authorized); try done; lia.
Qed.

(** ** A working alternative *)

(** A candidate no store and no budget holds back, and that would answer. *)
Record works (sel : Selection) (r : Ranked) : Prop := {
  k_ranked : r ∈ ranked sel;
  k_untracked : entries (lockouts s) !! r_candidate r = None;
  k_free : forall c, candidates !! index r = Some c -> SFeqb (default (F64.of_N 0) (cost_per_mtok c)) (F64.of_N 0) = true;
  k_answers : forall n remaining, exists text usage, runner n (index r) remaining = (Succeeded text, usage);
}.
Lemma record_untracked t c k r k' : entries t !! k' = None -> k <> k' -> entries (CloudLockout.record t c k r) !! k' = None.
Proof.
  intros Hn Hne. destruct r as [|status body retry]; [cbn; by rewrite lookup_delete_ne|].
  change (CloudLockout.record t c k (Failed status body retry)) with (record_failure t (now_ms c) k (classify_failure status body).1 retry).
  rewrite record_failure_entries by apply classify_never_usable. cbn. rewrite lookup_insert_ne by done.
  destruct (make_room t k !! k') eqn:E; [|done]. eapply lookup_weaken in E; [|apply make_room_subset]. congruence.
Qed.

(** The walk on its way to [good]. *)
Record on_the_way (good : Ranked) (p : Progress) (l : list Ranked) : Prop := {
  y_ahead : good ∈ l;
  y_alone : forall r, r ∈ l -> r <> good -> r_candidate r <> r_candidate good;
  y_untracked : entries (lockouts (p_stores p)) !! r_candidate good = None;
  y_attempts : N.of_nat (length (p_attempts p) + length l) <= max_attempts budget;
  y_deadline : forall dl, deadline_ms budget = Some dl -> p_now p + N.of_nat (length l) <= dl;
}.
Lemma skip_way good r l p lo de why : on_the_way good p (r :: l) -> r <> good -> on_the_way good (skip r p lo de why) l.
Proof.
  intros [Ha Hl Hu Hn Hd] Hne. split.
  - apply elem_of_cons in Ha as [->|?]; done.
  - intros r' Hr'. apply Hl. apply elem_of_cons. by right.
  - done.
  - cbn in *. lia.
  - intros dl E. specialize (Hd dl E). cbn in *. lia.
Qed.
Lemma failed_way good r l p what am st : on_the_way good p (r :: l) -> r <> good ->
  entries (lockouts st) !! r_candidate good = None -> on_the_way good (failed r p what am st) l.
Proof.
  intros [Ha Hl Hu Hn Hd] Hne Hst. split.
  - apply elem_of_cons in Ha as [->|?]; done.
  - intros r' Hr'. apply Hl. apply elem_of_cons. by right.
  - done.
  - cbn in *. rewrite length_app. cbn. lia.
  - intros dl E. specialize (Hd dl E). cbn in *. unfold saturating_add. lia.
Qed.
Lemma learn_untracked n c k r now st st' k' : learn sha_hex env record_clock wall n c k r now st = Some st' ->
  entries (lockouts st) !! k' = None -> k <> k' -> entries (lockouts st') !! k' = None.
Proof. unfold learn. destruct (record_inference _ _ _ _ _ _ _); [|done]. intros [= <-] Hn Hne. cbn. by apply record_untracked. Qed.
Lemma turn_way good r l p p' : on_the_way good p (r :: l) -> r <> good -> turn r p = Ok (Continue p') -> on_the_way good p' l.
Proof.
  intros HY Hne. assert (r_candidate r <> r_candidate good) as Hc by (apply (y_alone _ _ _ HY); [apply elem_of_cons; by left|done]).
  pose proof (y_untracked _ _ _ HY) as Hu. unfold turn. destruct (_ <=? _); [done|].
  destruct (match deadline_ms budget with Some _ => _ | None => _ end); [done|].
  destruct (candidates !! index r) as [c|]; [|done]. destruct (permit _ _ _ _); try (intros [= <-]; by apply skip_way).
  destruct (reserve_dispatch _ _ _ _ _) as [[g k]|]; [|intros [= <-]; by apply skip_way]. unfold dispatch.
  destruct (runner _ _ _) as [[text|x|why|x partial|x] usage]; try (destruct (learn _ _ _ _ _ _ _ _ _ _) as [st|] eqn:El; [|done]);
    intros Ht; try discriminate Ht; injection Ht as <-; apply failed_way; try done; by eapply (learn_untracked _ _ _ _ _ _ _ _ El).
Qed.
Lemma turn_small (r : Ranked) (l : list Ranked) p : N.of_nat (length (p_attempts p) + length (r :: l)) <= max_attempts budget ->
  (forall dl, deadline_ms budget = Some dl -> p_now p + N.of_nat (length (r :: l)) <= dl) -> max_attempts budget <= u32_max ->
  max_attempts budget <=? as_u32 (length (p_attempts p)) = false /\
  match deadline_ms budget with Some dl => dl <=? p_now p | None => false end = false.
Proof.
  cbn [length]. intros Hn Hd Hm. split.
  - apply N.leb_gt. rewrite as_u32_small by lia. lia.
  - destruct (deadline_ms budget) as [dl|]; [|done]. apply N.leb_gt. specialize (Hd dl eq_refl). lia.
Qed.
Lemma turn_answers r p res st : max_attempts budget <=? as_u32 (length (p_attempts p)) = false ->
  match deadline_ms budget with Some dl => dl <=? p_now p | None => false end = false -> turn r p = Ok (Return res st) -> is_Some (output res).
Proof.
  unfold turn. intros -> ->. destruct (candidates !! index r) as [c|]; [|done]. destruct (permit _ _ _ _); try done.
  destruct (reserve_dispatch _ _ _ _ _) as [[g k]|]; [|done]. unfold dispatch.
  destruct (runner _ _ _) as [[text|x|why|x partial|x] usage]; try destruct (learn _ _ _ _ _ _ _ _ _ _); intros H; try discriminate H.
  injection H as <- _. by eexists.
Qed.
Lemma walk_reaches sel good : works sel good -> max_attempts budget <= u32_max -> forall l p, on_the_way good p l ->
  forall res s', walk l p = Ok (res, s') -> is_Some (output res).
Proof.
  intros HW Hm. induction l as [|r l IH]; intros p HY res s'; [by destruct (not_elem_of_nil good); apply (y_ahead _ _ _ HY)|]. cbn [walk].
  destruct (turn_small r l p (y_attempts _ _ _ HY) (y_deadline _ _ _ HY) Hm) as [Hn Hd].
  destruct (turn r p) as [[res1 s1|p1]|h] eqn:Et; [|intros Hw|done].
  - intros [= <- <-]. by eapply turn_answers.
  - eapply IH, Hw. apply (turn_way good r l p p1 HY); [|exact Et]. intros ->. revert Et. unfold turn. rewrite Hn, Hd.
    destruct (candidates !! index good) as [c|] eqn:Ec; [|done]. unfold permit. rewrite (y_untracked _ _ _ HY).
    unfold reserve_dispatch, reserve. cbn [is_free_candidate free_headroom]. rewrite (k_free _ _ HW c Ec). cbn [andb]. unfold new_hold, dispatch.
    destruct (k_answers _ _ HW (length (p_attempts p)) (match deadline_ms budget with Some dl => dl - p_now p | None => u64_max end)) as (text & usage & Er).
    destruct (runner _ _ _) as [[text'|x|why|x partial|x] usage']; try discriminate Er. by destruct (learn _ _ _ _ _ _ _ _ _ _).
Qed.

(** What an outcome reports to the eligibility store. *)
Definition reported (o : AttemptOutcome) : option InferenceResult :=
  match o with
  | Succeeded _ => Some Success
  | PreDispatch res | MidStream res _ | Ambiguous res => Some res
  | WorkerFailed _ => None
  end.
(** Some result the runner reports cannot be stored: its text would be cut inside a
    character. *)
Definition unstorable : Prop := exists n i remaining res st c now k,
  reported (runner n i remaining).1 = Some res /\
  record_inference sha_hex st (subject c) res now env (wall k) = None.

Lemma learn_panics n c k o usage m i rem now st res : runner m i rem = (o, usage) -> reported o = Some res ->
  learn sha_hex env record_clock wall n c k res now st = None -> unstorable.
Proof.
  unfold learn. intros Hr Ho. destruct (record_inference _ _ _ _ _ _ _) eqn:E; [done|]. intros _.
  exists m, i, rem, res, (eligibility st), c, (now / 1000), n. by rewrite Hr.
Qed.

Lemma turn_panics r p h : is_Some (candidates !! index r) -> turn r p = Err h -> unstorable.
Proof.
  intros [c Hc]. unfold turn. destruct (_ <=? _); [done|].
  destruct (match deadline_ms budget with Some _ => _ | None => _ end); [done|]. rewrite Hc.
  destruct (permit _ _ _ _); try done. destruct (reserve_dispatch _ _ _ _ _) as [[g k]|]; [|done]. unfold dispatch.
  destruct (runner _ _ _) as [o usage] eqn:Er.
  destruct o as [text|x|why|x partial|x]; try done;
    destruct (learn _ _ _ _ _ _ _ _ _ _) eqn:El; try done; intros _;
    (eapply learn_panics; [exact Er|reflexivity|exact El]).
Qed.

Lemma walk_panics l : (forall r, r ∈ l -> is_Some (candidates !! index r)) -> forall p, walk l p = Err Panic -> unstorable.
Proof.
  induction l as [|r l IH]; intros Hl p; cbn [walk]; [done|].
  destruct (turn r p) as [[res st|p1]|h] eqn:Et; [done| |].
  - apply IH. intros r' Hr'. apply Hl, elem_of_cons. by right.
  - intros _. eapply turn_panics; [|exact Et]. apply Hl, elem_of_cons. by left.
Qed.

(** C25. A candidate that works is reached whatever fails before it.  Where the selection
    holds a free candidate that would answer, whose opaque id no other selected candidate has
    and no lockout entry is on record for, and the attempts and the deadline (of which an
    attempt is charged one millisecond) are enough for the whole selection, the run has an
    answer; the one exception is a panic while a reported text that cannot be stored, cut
    inside a character, is recorded ([long_reason_panics]). *)
Theorem working_alternative_is_reached sel good : selected = Some sel -> works sel good ->
  (forall r, r ∈ ranked sel -> r <> good -> r_candidate r <> r_candidate good) ->
  N.of_nat (length (ranked sel)) <= max_attempts budget <= u32_max ->
  (forall dl, deadline_ms budget = Some dl -> start_ms budget + N.of_nat (length (ranked sel)) <= dl) ->
  (exists res s', run = Ok (res, s') /\ is_Some (output res)) \/ (run = Err Panic /\ unstorable).
Proof.
  intros E HW Ha [Hn Hm] Hd. rewrite (run_walk sel E). pose proof (k_ranked _ _ HW) as Hg.
  destruct (select_sound _ _ _ _ _ _ _ E) as [Hin _].
  destruct (ranked sel) as [|r0 l0] eqn:El; [by apply not_elem_of_nil in Hg|]. rewrite <- El in *.
  destruct (walk (ranked sel) start) as [[res s']|[]] eqn:Er; [left|right|by destruct (walk_ends sha_hex env permit_clock record_clock wall runner candidates budget (ranked sel) start)].
  - exists res, s'. split; [done|]. eapply (walk_reaches sel good HW Hm (ranked sel) start); [|exact Er]. split; cbn; try done. apply (k_untracked _ _ HW).
  - split; [done|]. apply (walk_panics (ranked sel)) with start; [|exact Er].
    intros r Hr. destruct (Hin r Hr) as (c & Hc & _). by exists c.
Qed.
End Runs.

(** ** Examples *)

Definition fresh : Stores := mkStores nothing_known QuotaInventory_new tracker Ledger_new.
Definition a_minute (spend : SpendPolicy) : FailoverBudget := mkFailoverBudget 4 (Some 160000) spend 50 100000.
Definition outage_500 : InferenceResult := Failed (Some 500) "down" None.
(** The first candidate breaks off, the others answer. *)
Definition breaks_off (n i : nat) (remaining : N) : AttemptOutcome * option N :=
  match i with O => (MidStream outage_500 "half an", None) | _ => (Succeeded "an answer", Some 7) end.
Definition always_down (n i : nat) (remaining : N) : AttemptOutcome * option N := (PreDispatch outage_500, None).
Definition at_100 (_ : nat) : N := 100.
Definition go (runner : nat -> nat -> N -> AttemptOutcome * option N) (cs : list Candidate) (b : FailoverBudget) (s : Stores) :=
  run fingerprint [] at_100 at_100 at_100 runner (coding 2) cs b s.
Definition frees : list Candidate := [candidate "sk-1" "small" None 9 10; candidate "sk-2" "other" None 1 10].

Example breaks_off_then_answers : exists s', go breaks_off frees (a_minute FreeOnly) fresh =
  Ok (mkResult (Some "an answer") (Some 1%nat) [mkAttempt "openai/small/f0000000" "mid_stream"; mkAttempt "openai/other/f0000000" "success"] false None, s').
Proof. eexists. vm_compute. reflexivity. Qed.

Lemma fresh_has_no_ids : fresh_ids (ledger fresh).
Proof. intros k h. cbn. by rewrite lookup_empty. Qed.
Lemma failover_is_bounded_witness : go always_down frees (a_minute FreeOnly) fresh <> Err OutOfFuel.
Proof. refine (proj1 (failover_is_bounded fingerprint [] at_100 at_100 at_100 always_down (coding 2) frees (a_minute FreeOnly) fresh _)). vm_compute. discriminate. Defined.
Lemma output_is_the_winners_witness : exists res s' before r remaining usage, go breaks_off frees (a_minute FreeOnly) fresh = Ok (res, s') /\
  attempts res = before ++ [mkAttempt (r_candidate r) "success"] /\ breaks_off (length before) (index r) remaining = (Succeeded "an answer", usage).
Proof.
  destruct (go breaks_off frees (a_minute FreeOnly) fresh) as [[res s']|h] eqn:E; [|vm_compute in E; discriminate E].
  pose proof (output_is_the_winners fingerprint [] at_100 at_100 at_100 breaks_off (coding 2) frees (a_minute FreeOnly) fresh res s' E) as [_ H].
  assert (output res = Some "an answer") as Ho by (apply (f_equal (fun o => match o with Ok (r, _) => output r | Err _ => None end)) in E; rewrite <- E; vm_compute; reflexivity).
  rewrite Ho in H. destruct H as (before & r & remaining & usage & H1 & _ & _ & H2). exists res, s', before, r, remaining, usage. auto.
Defined.
Lemma failover_settles_spend_witness : exists res s', go breaks_off frees (a_minute FreeOnly) fresh = Ok (res, s') /\ held (ledger s') = held (ledger fresh).
Proof.
  destruct (go breaks_off frees (a_minute FreeOnly) fresh) as [[res s']|h] eqn:E; [|vm_compute in E; discriminate E].
  exists res, s'. split; [reflexivity|].
  exact (proj1 (failover_settles_spend fingerprint [] at_100 at_100 at_100 breaks_off (coding 2) frees (a_minute FreeOnly) fresh fresh_has_no_ids res s' E)).
Defined.
Definition second : Ranked := mkRanked 1 "openai/other/f0000000" true false (score (coding 2) (candidate "sk-2" "other" None 1 10)).
Lemma working_alternative_is_reached_witness :
  (exists res s', go breaks_off frees (a_minute FreeOnly) fresh = Ok (res, s') /\ is_Some (output res)) \/
  (go breaks_off frees (a_minute FreeOnly) fresh = Err Panic /\ unstorable fingerprint [] at_100 breaks_off).
Proof.
  destruct (select fingerprint (coding 2) nothing_known QuotaInventory_new 100 frees) as [sel|] eqn:E; [|vm_compute in E; discriminate E].
  assert (ranked sel = [mkRanked 0 "openai/small/f0000000" true false (score (coding 2) (candidate "sk-1" "small" None 9 10)); second]) as Hr.
  { apply (f_equal (fun o => match o with Some sel => ranked sel | None => [] end)) in E. rewrite <- E. vm_compute. reflexivity. }
  apply (working_alternative_is_reached fingerprint [] at_100 at_100 at_100 breaks_off (coding 2) frees (a_minute FreeOnly) fresh sel second E).
  - split; [rewrite Hr; apply list_elem_of_In; right; left; reflexivity|reflexivity| |].
    + intros c. vm_compute. intros [= <-]. reflexivity.
    + intros n remaining. exists "an answer", (Some 7). reflexivity.
  - rewrite Hr. intros r Hin Hne. apply list_elem_of_In in Hin as [<-|[<-|[]]]; [discriminate|]. destruct (Hne eq_refl).
  - rewrite Hr. vm_compute. split; discriminate.
  - rewrite Hr. intros dl [= <-]. vm_compute. discriminate.
Defined.

(** An answer can come with the reason of a stop. *)
Lemma answer_with_a_stop : exists attempts s', go breaks_off [candidate "sk-1" "big" (Some dear) 9 10; candidate "sk-2" "other" None 1 10]
    (mkFailoverBudget 4 None FreeOnly 50 100000) fresh = Ok (mkResult (Some "an answer") (Some 1%nat) attempts false (Some BudgetExhausted), s').
Proof. eexists _, _. vm_compute. reflexivity. Qed.
(** One target locked out and the other tried in vain is reported as all locked out; a target
    refused for good, as attempts that ran out, with none used. *)
Definition locked (r : InferenceResult) : Stores := mkStores nothing_known QuotaInventory_new (record tracker 100 "openai/small/f0000000" r) Ledger_new.
Definition stops (runner : nat -> nat -> N -> AttemptOutcome * option N) (cs : list Candidate) (s : Stores) : option (nat * option FailoverStop) :=
  match go runner cs (a_minute FreeOnly) s with Ok (res, _) => Some (length (attempts res), stop res) | Err _ => None end.
Lemma stop_hides_what_happened : stops always_down frees (locked slow) = Some (1%nat, Some AllLockedOut) /\
  stops always_down [candidate "sk-1" "small" None 9 10] (locked no_key) = Some (0%nat, Some (AttemptBudgetExhausted 0)).
Proof. split; vm_compute; reflexivity. Qed.
(** An attempt that takes an hour costs a millisecond of the deadline. *)
Lemma deadline_does_not_pass : exists s', run fingerprint [] (fun n => 100 + 3600 * N.of_nat n) (fun n => 3700 + 3600 * N.of_nat n) (fun _ => 100) always_down
    (coding 2) frees (a_minute FreeOnly) fresh
  = Ok (mkResult None None [mkAttempt "openai/small/f0000000" "pre_dispatch"; mkAttempt "openai/other/f0000000" "pre_dispatch"] false (Some (AttemptBudgetExhausted 2)), s').
Proof. eexists. vm_compute. reflexivity. Qed.
