(* ===== verification/ParallelDispatch.v ===== *)
(** * ParallelDispatch: a batch of jobs over several targets at once
    ([crates/susi-gawd-swarm/src/parallel_dispatch.rs])

    Workers share the evidence, the lockouts, the ledger, the marks of busy pools and the
    admission controller, each behind its own lock and never more than one critical section
    at a time.  A job is a sequence of such sections, its [Phase]; a [step] is one section of
    one job, and the workers' interleavings are the sequences of steps.  What the runner
    answers, the clocks and whether a file could be written come with the step. *)

From S2P Require Import Prelude Text PulseQueue CloudEligibility CloudQuota ParallelAdmission CloudBudget CloudLockout CloudIntent CloudFailover.
From stdpp Require Import pretty.
From Stdlib Require Import Floats.SpecFloat.

Local Open Scope string_scope.
Local Open Scope list_scope.
Local Open Scope N_scope.

Record Job : Type := mkJob {
  j_id : string;
  j_intent : IntentConstraints;
}.
Record JobOutcome : Type := mkOutcome {
  o_job : string;
  o_output : option string;
  o_winner : option string;
  o_pool : option string;
  o_attempts : list AttemptRecord;
  o_stop : option FailoverStop;
  o_ambiguous : bool;
  o_health : gmap string ModelHealth;
}.
Record Shared : Type := mkShared {
  eligibility : EligibilityStore;
  lockouts : LockoutTracker;
  ledger : Ledger;
  active_pools : gmap string N;
  admission : option Controller;
}.
Record DispatchPlan : Type := mkPlan {
  max_workers : nat;
  plan_mission : string;
  per_job : FailoverBudget;
  job_needs : LocalCapacity;
}.

Definition pool_of (c : Candidate) : string := c_provider c +:+ ":" +:+ default "-" (c_account c).

(** The variables of [run_job]'s loop. *)
Record Local : Type := mkVars {
  v_ticket : option N;
  v_selection : Selection;
  v_attempted : list nat;
  v_lockout : bool;
  v_now : N;
  v_out : JobOutcome;
}.
(** What is left to do before the job goes on. *)
Inductive Work : Type :=
| Unmark (pool : string)
| Evidence (c : Candidate) (scope : string) (r : InferenceResult) (reported : bool) (now : N)
| Charge (reservation : N)
| Refund (reservation : N)
| DropTicket (ticket : N).
(** How: to the next candidate, to the end of the job, or unwinding a panic. *)
Inductive Way : Type :=
| Again
| Leave
| Unwind.
Inductive Phase : Type :=
| Waiting
| Admitting (spins : N)
| Selecting (ticket : option N)
| Choosing (v : Local)
| Gating (v : Local) (r : Ranked) (c : Candidate)
| Scoping (v : Local) (r : Ranked) (c : Candidate)
| Reserving (v : Local) (r : Ranked) (c : Candidate) (ticket : option N)
| Calling (v : Local) (r : Ranked) (c : Candidate) (ticket : option N) (reservation : N)
| Working (todo : list Work) (v : Local) (way : Way)
| Ended (out : option JobOutcome).

Definition with_eligibility (s : Shared) (e : EligibilityStore) : Shared := mkShared e (lockouts s) (ledger s) (active_pools s) (admission s).
Definition with_lockouts (s : Shared) (t : LockoutTracker) : Shared := mkShared (eligibility s) t (ledger s) (active_pools s) (admission s).
Definition with_spend (s : Shared) (g : Ledger) : Shared := mkShared (eligibility s) (lockouts s) g (active_pools s) (admission s).
Definition with_pools (s : Shared) (m : gmap string N) : Shared := mkShared (eligibility s) (lockouts s) (ledger s) m (admission s).
Definition with_admission (s : Shared) (a : option Controller) : Shared := mkShared (eligibility s) (lockouts s) (ledger s) (active_pools s) a.
Definition marks (s : Shared) (pool : string) : N := default 0 (active_pools s !! pool).
Definition mark (s : Shared) (pool : string) : Shared := with_pools s (<[pool := marks s pool + 1]> (active_pools s)).
(** [Drop for PoolMark]. *)
Definition unmark (s : Shared) (pool : string) : Shared :=
  match active_pools s !! pool with
  | Some n => with_pools s (<[pool := n - 1]> (active_pools s))
  | None => s
  end.

Definition new_outcome (j : Job) : JobOutcome := mkOutcome (j_id j) None None None [] None false ∅.
Definition stopped_by (why : FailoverStop) (o : JobOutcome) : JobOutcome :=
  mkOutcome (o_job o) (o_output o) (o_winner o) (o_pool o) (o_attempts o) (Some why) (o_ambiguous o) (o_health o).
Definition with_health (scope : string) (h : ModelHealth) (o : JobOutcome) : JobOutcome :=
  mkOutcome (o_job o) (o_output o) (o_winner o) (o_pool o) (o_attempts o) (o_stop o) (o_ambiguous o) (<[scope := h]> (o_health o)).
Definition attempted_by (candidate what : string) (ambiguous : bool) (o : JobOutcome) : JobOutcome :=
  mkOutcome (o_job o) (o_output o) (o_winner o) (o_pool o) (o_attempts o ++ [mkAttempt candidate what]) (o_stop o) (o_ambiguous o || ambiguous) (o_health o).
Definition won_by (r : Ranked) (pool text : string) (o : JobOutcome) : JobOutcome :=
  mkOutcome (o_job o) (Some text) (Some (r_candidate r)) (Some pool) (o_attempts o ++ [mkAttempt (r_candidate r) "success"]) (o_stop o) (o_ambiguous o)
    (<[r_candidate r := PulseQueue.Healthy]> (o_health o)).
Definition set_out (v : Local) (o : JobOutcome) : Local := mkVars (v_ticket v) (v_selection v) (v_attempted v) (v_lockout v) (v_now v) o.
(** The candidate is done with; [lockout]: a lockout was seen. *)
Definition pass (v : Local) (r : Ranked) (lockout : bool) : Local :=
  mkVars (v_ticket v) (v_selection v) (v_attempted v ++ [index r]) (v_lockout v || lockout) (v_now v) (v_out v).
Definition tick_ms (v : Local) : Local := mkVars (v_ticket v) (v_selection v) (v_attempted v) (v_lockout v) (saturating_add (v_now v) 1) (v_out v).
Definition drop_of (t : option N) : list Work := match t with Some t => [DropTicket t] | None => [] end.
Definition is_drop (w : Work) : bool := match w with DropTicket _ => true | _ => false end.

Definition MAX_ADMIT_SPINS : N := 4096.
(** The refusals [admit_bounded] waits out. *)
Definition clears (b : Backpressure) : bool := match b with Queued _ | GlobalFull | MissionFull | LocalExhausted => true | ScopeFull _ | QueueFull => false end.
(** [{:?}]; a job asks for no scope, so that none is ever full for it. *)
Definition backpressure_debug (b : Backpressure) : string :=
  match b with
  | Queued n => "Queued { position: " +:+ pretty (N.of_nat n) +:+ " }"
  | ScopeFull s => "ScopeFull { scope: " +:+ s +:+ " }"
  | LocalExhausted => "LocalExhausted" | MissionFull => "MissionFull" | GlobalFull => "GlobalFull" | QueueFull => "QueueFull"
  end.

(** What comes with a step: the job whose turn it is, the admission controller's time, the
    seconds the evidence stores read, whether a file was written, the runner's answer. *)
Record Event : Type := mkEvent {
  e_job : nat;
  e_ms : N;
  e_clock : N;
  e_wrote : bool;
  e_outcome : AttemptOutcome;
}.

Section Dispatch.
Context (sha_hex : string -> string) (env : list (string * string)) (limits : AdmissionLimits).
Context (quotas : QuotaInventory) (candidates : list Candidate) (plan : DispatchPlan) (jobs : list Job).

Definition pool_at (r : Ranked) : string := match candidates !! index r with Some c => pool_of c | None => "" end.
(** The loop of [pick_next]. *)
Fixpoint pick_from (s : Shared) (attempted : list nat) (first_active : option Ranked) (l : list Ranked) : option Ranked :=
  match l with
  | [] => first_active
  | r :: l' =>
      if bool_decide (index r ∈ attempted) then pick_from s attempted first_active l'
      else if 0 <? marks s (pool_at r) then pick_from s attempted (match first_active with None => Some r | Some _ => first_active end) l'
      else Some r
  end.
Definition pick_next (s : Shared) (v : Local) : option Ranked := pick_from s (v_attempted v) None (ranked (v_selection v)).

Definition job_request (j : Job) : AdmitRequest := ParallelAdmission.mkRequest (plan_mission plan) (j_id j) [] (job_needs plan) true.
Definition attempt_request (j : Job) (r : Ranked) (c : Candidate) : AdmitRequest :=
  ParallelAdmission.mkRequest (plan_mission plan) (j_id j +:+ ":" +:+ r_candidate r)
    [mkScopeRequest (pool_of c) 1 (attempt_estimate_micros (per_job plan) / 1000); mkScopeRequest (r_candidate r) 1 0;
     mkScopeRequest ("cred:" +:+ credential_fingerprint sha_hex (c_api_key c)) 1 0]
    LocalCapacity_default false.

(** The return of a job that is out of candidates, attempts or time. *)
Definition leave_with (v : Local) (why : FailoverStop) : Phase := Working (drop_of (v_ticket v)) (set_out v (stopped_by why (v_out v))) Leave.
Definition spent (v : Local) : FailoverStop := AttemptBudgetExhausted (as_u32 (length (o_attempts (v_out v)))).
(** The rest of the drops when a panic unwinds. *)
Definition unwind (todo : list Work) (v : Local) (way : Way) : Phase :=
  Working (List.filter is_drop todo ++ match way with Again => drop_of (v_ticket v) | Leave | Unwind => [] end) v Unwind.

(** The answer of the runner: the mark goes first, then the evidence, the spend, the tickets. *)
Definition answered (e : Event) (v : Local) (r : Ranked) (c : Candidate) (ticket : option N) (reservation : N) : Phase :=
  let scope := r_candidate r in
  let now := v_now v / 1000 in
  let go_on what ambiguous := tick_ms (set_out v (attempted_by scope what ambiguous (v_out v))) in
  match e_outcome e with
  | Succeeded text =>
      Working (Unmark (pool_of c) :: Evidence c scope Success false now :: Charge reservation :: drop_of ticket ++ drop_of (v_ticket v))
        (set_out v (won_by r (pool_of c) text (v_out v))) Leave
  | PreDispatch res => Working (Unmark (pool_of c) :: Evidence c scope res true now :: Refund reservation :: drop_of ticket) (go_on "pre_dispatch" false) Again
  | WorkerFailed _ => Working (Unmark (pool_of c) :: Refund reservation :: drop_of ticket) (go_on "worker_failed" false) Again
  | MidStream res _ => Working (Unmark (pool_of c) :: Evidence c scope res true now :: Charge reservation :: drop_of ticket) (go_on "mid_stream" false) Again
  | Ambiguous res => Working (Unmark (pool_of c) :: Evidence c scope res true now :: Charge reservation :: drop_of ticket) (go_on "ambiguous" true) Again
  end.

(** One piece of the work left. *)
Definition do_work (e : Event) (s : Shared) (w : Work) (todo : list Work) (v : Local) (way : Way) : Shared * Phase :=
  match w with
  | Unmark pool => (unmark s pool, Working todo v way)
  | Evidence c scope r reported now =>
      match record_inference sha_hex (eligibility s) (subject c) r now env (e_clock e) with
      | None => (s, unwind todo v way)
      | Some st =>
          let t := CloudLockout.record (lockouts s) (e_clock e) scope r in
          (with_lockouts (with_eligibility s st) t,
           Working todo (if reported then set_out v (with_health scope (health t (e_clock e) scope Unknown) (v_out v)) else v) way)
      end
  | Charge k => (with_spend s (commit (ledger s) k None), Working todo v way)
  | Refund k => (with_spend s (release (ledger s) k), Working todo v way)
  | DropTicket t => (with_admission s ((fun k => drop_ticket k t (e_wrote e)) <$> admission s), Working todo v way)
  end.

Definition advance (e : Event) (j : Job) (s : Shared) (ph : Phase) : Shared * Phase :=
  match ph with
  | Waiting => (s, Admitting 0)
  | Admitting spins =>
      match admission s with
      | None => (s, Selecting None)
      | Some k =>
          let '(answer, k) := admit_ limits k (job_request j) (e_ms e) (e_wrote e) in
          (with_admission s (Some k),
           match answer with
           | Ok t => Selecting (Some t)
           | Err why =>
               if clears why && (spins <? MAX_ADMIT_SPINS) then Admitting (spins + 1)
               else Ended (Some (stopped_by (Admission (backpressure_debug why)) (new_outcome j)))
           end)
      end
  | Selecting t =>
      match select sha_hex (j_intent j) (eligibility s) quotas (start_ms (per_job plan) / 1000) candidates with
      | None => (s, Working (drop_of t) (mkVars t (mkSelection [] []) [] false 0 (new_outcome j)) Unwind)
      | Some sel =>
          let v := mkVars t sel [] false (start_ms (per_job plan)) (new_outcome j) in
          (s, match ranked sel with [] => leave_with v NoEligibleCandidates | _ => Choosing v end)
      end
  | Choosing v =>
      match pick_next s v with
      | None => (s, leave_with v (if v_lockout v then AllLockedOut else spent v))
      | Some r =>
          match candidates !! index r with
          | None => (s, unwind [] v Again)
          | Some c =>
              (mark s (pool_of c),
               if max_attempts (per_job plan) <=? as_u32 (length (o_attempts (v_out v))) then leave_with v (spent v)
               else if match deadline_ms (per_job plan) with Some dl => dl <=? v_now v | None => false end then leave_with v DeadlineExceeded
               else Gating v r c)
          end
      end
  | Gating v r c =>
      let seen := set_out v (with_health (r_candidate r) (health (lockouts s) (e_clock e) (r_candidate r) Unknown) (v_out v)) in
      (s, match permit (lockouts s) (e_clock e) (r_candidate r) Unknown with
          | Allowed => Scoping v r c
          | Cooldown _ | CircuitOpen _ | ProbesExhausted => Working [Unmark (pool_of c)] (pass seen r true) Again
          | Permanent _ => Working [Unmark (pool_of c)] (pass seen r false) Again
          end)
  | Scoping v r c =>
      match admission s with
      | None => (s, Reserving v r c None)
      | Some k =>
          let '(answer, k) := admit_ limits k (attempt_request j r c) (e_ms e) (e_wrote e) in
          (with_admission s (Some k),
           match answer with Ok t => Reserving v r c (Some t) | Err _ => Working [Unmark (pool_of c)] (pass v r false) Again end)
      end
  | Reserving v r c t =>
      match reserve_dispatch (ledger s) c HeadroomUnknown (attempt_estimate_micros (per_job plan)) (spend (per_job plan)) with
      | Ok (g, k) => (with_spend s g, Calling (pass v r false) r c t k)
      | Err _ => (s, Working (drop_of t ++ [Unmark (pool_of c)]) (pass v r false) Again)
      end
  | Calling v r c t k => (s, answered e v r c t k)
  | Working (w :: todo) v way => do_work e s w todo v way
  | Working [] v way => (s, match way with Again => Choosing v | Leave => Ended (Some (v_out v)) | Unwind => Ended None end)
  | Ended o => (s, Ended o)
  end.

(** ** The workers *)

Record World : Type := mkWorld {
  shared : Shared;
  phases : list Phase;
  finished : list JobOutcome;
}.
(** A worker that panicked takes no other job. *)
Definition occupies (ph : Phase) : bool := match ph with Waiting | Ended (Some _) => false | _ => true end.
Definition is_waiting (ph : Phase) : bool := match ph with Waiting => true | _ => false end.
Definition workers : nat := Nat.min (Nat.max (max_workers plan) 1) (Nat.max (length jobs) 1).
(** Job [i] is the next one, and a worker is free. *)
Definition may_start (w : World) (i : nat) : bool :=
  forallb (fun ph => negb (is_waiting ph)) (take i (phases w)) && (length (List.filter occupies (phases w)) <? workers)%nat.
Definition outcome_of (ph : Phase) : list JobOutcome := match ph with Ended (Some o) => [o] | _ => [] end.
Definition step (e : Event) (w : World) : option World :=
  ph ← phases w !! e_job e; j ← jobs !! e_job e;
  match ph with
  | Ended _ => None
  | _ =>
      if is_waiting ph && negb (may_start w (e_job e)) then None
      else let '(s, ph') := advance e j (shared w) ph in
           Some (mkWorld s (<[e_job e := ph']> (phases w)) (finished w ++ outcome_of ph'))
  end.
Fixpoint steps (es : list Event) (w : World) : option World :=
  match es with [] => Some w | e :: es' => w ← step e w; steps es' w end.
Definition launch (s : Shared) : World := mkWorld s ((fun _ => Waiting) <$> jobs) [].
(** The place of a job in the batch. *)
Definition place (o : JobOutcome) : N :=
  match list_find (fun j => j_id j = o_job o) jobs with Some (i, _) => N.of_nat i | None => u64_max end.
(** What [run_jobs] returns, once every worker has ended. *)
Definition report (w : World) : list JobOutcome := sort_by_key place (finished w).
End Dispatch.

(** ** Picking *)

Section Facts.
Context (sha_hex : string -> string) (env : list (string * string)) (limits : AdmissionLimits).
Context (quotas : QuotaInventory) (candidates : list Candidate) (plan : DispatchPlan) (jobs : list Job).

Notation advance := (advance sha_hex env limits quotas candidates plan).
Notation step := (step sha_hex env limits quotas candidates plan jobs).
Notation steps := (steps sha_hex env limits quotas candidates plan jobs).
Notation pick_next := (pick_next candidates).
Notation pool_at := (pool_at candidates).

Definition untried (v : Local) (r : Ranked) : Prop := r ∈ ranked (v_selection v) /\ index r ∉ v_attempted v.
Lemma pick_from_spec s attempted l : forall first r, pick_from candidates s attempted first l = Some r ->
  (r ∈ l /\ index r ∉ attempted /\ marks s (pool_at r) = 0) \/
  ((forall r', r' ∈ l -> index r' ∉ attempted -> 0 < marks s (pool_at r')) /\
   (first = Some r \/ (first = None /\ r ∈ l /\ index r ∉ attempted))).
Proof.
  induction l as [|x l IH]; intros first r; cbn [pick_from].
  - intros ->. right. split; [by intros ? ?%not_elem_of_nil|by left].
  - case_bool_decide as Hin; [|destruct (N.ltb_spec 0 (marks s (pool_at x)))].
    + intros [(H1 & H2)|(H1 & H2)]%IH; [left; split; [apply elem_of_cons; by right|done]|right]. split.
      * intros r' [->|H]%elem_of_cons; [done|by apply H1].
      * destruct H2 as [?|(? & ? & ?)]; [by left|right]. split; [done|]. split; [apply elem_of_cons; by right|done].
    + intros [(H1 & H2)|(H1 & H2)]%IH; [left; split; [apply elem_of_cons; by right|done]|right]. split.
      * intros r' [->|Hr]%elem_of_cons; [done|by apply H1].
      * destruct first as [y|]; [destruct H2 as [?|(? & _)]; [by left|done]|right]. split; [done|].
        destruct H2 as [[= ->]|(? & _)]; [split; [apply elem_of_cons; by left|done]|done].
    + intros [= <-]. left. split; [apply elem_of_cons; by left|]. split; [done|lia].
Qed.
Lemma pick_next_spec s v r : pick_next s v = Some r -> untried v r /\
  (marks s (pool_at r) = 0 \/ forall r', untried v r' -> 0 < marks s (pool_at r')).
Proof.
  intros [(H1 & H2 & H3)|(H1 & [H|(_ & H2 & H3)])]%pick_from_spec; [split; [by split|by left]|done|].
  split; [by split|]. right. intros r' [H4 H5]. by apply H1.
Qed.

(** ** What a job's variables keep *)

Record vars_ok (v : Local) : Prop := {
  b_distinct : NoDup (index <$> ranked (v_selection v));
  b_inside : forall r, r ∈ ranked (v_selection v) -> (index r < length candidates)%nat;
  b_once : NoDup (v_attempted v);
  b_ranked : v_attempted v ⊆ index <$> ranked (v_selection v);
  b_attempts : (length (o_attempts (v_out v)) <= length (v_attempted v))%nat;
}.
Definition picked (v : Local) (r : Ranked) (c : Candidate) : Prop := untried v r /\ candidates !! index r = Some c.
Definition phase_ok (ph : Phase) : Prop :=
  match ph with
  | Choosing v | Working _ v _ => vars_ok v
  | Gating v r c | Scoping v r c | Reserving v r c _ => vars_ok v /\ picked v r c
  | Calling v _ _ _ _ => vars_ok v /\ (length (o_attempts (v_out v)) < length (v_attempted v))%nat
  | _ => True
  end.

Lemma vars_ok_out v o : vars_ok v -> (length (o_attempts o) <= length (v_attempted v))%nat -> vars_ok (set_out v o).
Proof. intros [H1 H2 H3 H4 _] H5. by split. Qed.
Lemma vars_ok_pass v r lockout : vars_ok v -> untried v r -> vars_ok (pass v r lockout) /\ (length (o_attempts (v_out v)) < length (v_attempted (pass v r lockout)))%nat.
Proof.
  intros [H1 H2 H3 H4 H5] [H6 H7]. assert (length (o_attempts (v_out v)) < length (v_attempted (pass v r lockout)))%nat as Hl by (cbn; rewrite length_app; cbn; lia).
  split; [|done]. split; try done.
  - cbn. apply NoDup_app. split; [done|]. split; [|apply NoDup_singleton]. intros x Hx Hx'%list_elem_of_singleton. by subst x.
  - cbn. intros i [Hi|Hi%list_elem_of_singleton]%elem_of_app; [by apply H4|subst i]. apply list_elem_of_fmap. by exists r.
  - cbn in *. lia.
Qed.
Lemma vars_ok_tick v : vars_ok v -> vars_ok (tick_ms v).
Proof. by intros [H1 H2 H3 H4 H5]. Qed.
Lemma vars_ok_empty t out : vars_ok (mkVars t (mkSelection [] []) [] false 0 out) <-> (length (o_attempts out) <= 0)%nat.
Proof. split; [by intros [_ _ _ _ H]|]. intros H. split; cbn; try constructor; try done. by intros r ?%not_elem_of_nil. Qed.
Lemma vars_ok_start t j sel elig now : select sha_hex (j_intent j) elig quotas now candidates = Some sel ->
  vars_ok (mkVars t sel [] false (start_ms (per_job plan)) (new_outcome j)).
Proof.
  intros H. destruct (select_sound _ _ _ _ _ _ _ H) as [H1 H2].
  split; cbn; [done| |constructor|by intros ? ?%not_elem_of_nil|lia].
  intros r Hr. destruct (H1 r Hr) as (c & Hc & _). by eapply lookup_lt_Some.
Qed.
Lemma answered_ok e v r c t k : vars_ok v -> (length (o_attempts (v_out v)) < length (v_attempted v))%nat -> phase_ok (answered e v r c t k).
Proof.
  intros Hv Hl. unfold answered. destruct (e_outcome e); cbn [phase_ok]; try apply vars_ok_tick; apply vars_ok_out; try done;
    unfold won_by, attempted_by; cbn [o_attempts]; rewrite length_app; cbn [length]; lia.
Qed.
Lemma advance_ok e j s ph : phase_ok ph -> phase_ok (advance e j s ph).2.
Proof.
  destruct ph as [|spins|t|v|v r c|v r c|v r c t|v r c t k|[|w todo] v way|o]; cbn [phase_ok]; intros H; try done.
  - cbn. destruct (admission s) as [k|]; [|done]. destruct (admit_ _ _ _ _ _) as [[t|why] k']; [done|]. cbn. by destruct (_ && _).
  - cbn. destruct (select _ _ _ _ _ _) as [sel|] eqn:E; [|by apply vars_ok_empty]. apply (vars_ok_start t) in E. cbn.
    destruct (ranked sel) eqn:El; [|done]. by apply vars_ok_out, Nat.le_0_l.
  - cbn. destruct (pick_next s v) as [r|] eqn:Ep; [|by apply vars_ok_out; [|apply (b_attempts _ H)]]. apply pick_next_spec in Ep as [Hr _].
    destruct (candidates !! index r) as [c|] eqn:Ec; [|done]. cbn.
    destruct (_ <=? _); [by apply vars_ok_out; [|apply (b_attempts _ H)]|].
    destruct (match deadline_ms (per_job plan) with Some _ => _ | None => _ end); [by apply vars_ok_out; [|apply (b_attempts _ H)]|]. by split.
  - destruct H as [Hv [Hr Hc]]. cbn.
    assert (vars_ok (set_out v (with_health (r_candidate r) (health (lockouts s) (e_clock e) (r_candidate r) Unknown) (v_out v)))) as Hs
      by (apply vars_ok_out; [done|apply (b_attempts _ Hv)]).
    destruct (permit _ _ _ _); try (by apply vars_ok_pass). by split.
  - destruct H as [Hv [Hr Hc]]. cbn. destruct (admission s) as [k|]; [|by split]. destruct (admit_ _ _ _ _ _) as [[t|why] k']; [by split|by apply vars_ok_pass].
  - destruct H as [Hv [Hr Hc]]. cbn. destruct (reserve_dispatch _ _ _ _ _) as [[g k]|]; [exact (vars_ok_pass v r false Hv Hr)|by apply vars_ok_pass].
  - destruct H as [Hv Hl]. by apply answered_ok.
  - cbn. by destruct way.
  - cbn. destruct w; try done. cbn. destruct (record_inference _ _ _ _ _ _ _); [|done]. cbn. destruct reported; [|done].
    by apply vars_ok_out; [|apply (b_attempts _ H)].
Qed.

(** ** A batch ends *)

Definition left_over (v : Local) : nat := length (List.filter (fun r => negb (bool_decide (index r ∈ v_attempted v))) (ranked (v_selection v))).
Definition round (n : nat) : N := 20 * N.of_nat n + 20.
Definition whole : N := round (length candidates) + 10.
(** More steps than a job has left to take. *)
Definition weight (ph : Phase) : N :=
  match ph with
  | Waiting => whole + 4100
  | Admitting spins => whole + 2 + (4097 - spins)
  | Selecting _ => whole
  | Choosing v => round (left_over v)
  | Gating v _ _ => round (left_over v) - 1
  | Scoping v _ _ => round (left_over v) - 2
  | Reserving v _ _ _ => round (left_over v) - 3
  | Calling v _ _ _ _ => round (left_over v) + 16
  | Working todo v way => N.of_nat (length todo) + 1 + match way with Again => round (left_over v) | Leave | Unwind => 0 end
  | Ended _ => 0
  end.
Lemma left_over_pass v r lockout : untried v r -> (S (left_over (pass v r lockout)) <= left_over v)%nat.
Proof.
  intros [Hr Hn]. unfold left_over. cbn [pass v_selection v_attempted]. revert Hr. generalize (ranked (v_selection v)) as l.
  assert (forall l, (length (List.filter (fun x => negb (bool_decide (index x ∈ v_attempted v ++ [index r]))) l)
    <= length (List.filter (fun x => negb (bool_decide (index x ∈ v_attempted v))) l))%nat) as Hle.
  { induction l as [|x l IH]; cbn; [done|]. destruct (bool_decide_reflect (index x ∈ v_attempted v)) as [Hx|Hx].
    - rewrite bool_decide_true by (apply elem_of_app; by left). done.
    - destruct (bool_decide _); cbn; lia. }
  induction l as [|x l IH]; [by intros ?%not_elem_of_nil|]. intros [->|Hx]%elem_of_cons; cbn.
  - rewrite bool_decide_true by (apply elem_of_app; right; by apply list_elem_of_singleton). rewrite bool_decide_false by done. cbn.
    apply le_n_S, Hle.
  - specialize (IH Hx). destruct (bool_decide_reflect (index x ∈ v_attempted v)) as [Hi|Hi].
    + rewrite bool_decide_true by (apply elem_of_app; by left). done.
    + destruct (bool_decide _); cbn; lia.
Qed.
Lemma left_over_start t sel now out : NoDup (index <$> ranked sel) -> (forall r, r ∈ ranked sel -> (index r < length candidates)%nat) ->
  (left_over (mkVars t sel [] false now out) <= length candidates)%nat.
Proof.
  intros Hn Hi. unfold left_over. etrans; [apply List.filter_length_le|]. cbn. rewrite <- (length_fmap index), <- (length_seq (length candidates) 0).
  apply submseteq_length, NoDup_submseteq; [done|]. intros i (r & -> & Hr)%list_elem_of_fmap. apply elem_of_seq. specialize (Hi r Hr). lia.
Qed.
Lemma drop_of_length t : (length (drop_of t) <= 1)%nat.
Proof. destruct t; cbn; lia. Qed.
Lemma leave_with_weight v why : weight (leave_with v why) <= 2.
Proof. unfold leave_with, weight. pose proof (drop_of_length (v_ticket v)). lia. Qed.
Lemma unwind_weight todo v way : weight (unwind todo v way) <= N.of_nat (length todo) + 2.
Proof.
  unfold unwind, weight. rewrite length_app. pose proof (List.filter_length_le is_drop todo). pose proof (drop_of_length (v_ticket v)).
  destruct way; cbn [length]; lia.
Qed.
Lemma answered_weight e v r c t k : weight (answered e v r c t k) < round (left_over v) + 16.
Proof.
  pose proof (drop_of_length t). pose proof (drop_of_length (v_ticket v)).
  unfold answered. destruct (e_outcome e); cbn [weight length]; rewrite ?length_app;
    repeat match goal with |- context [round (left_over (tick_ms (set_out v ?o)))] => change (left_over (tick_ms (set_out v o))) with (left_over v) end; lia.
Qed.
Lemma do_work_weight e s w todo v way : weight (do_work sha_hex env e s w todo v way).2 < weight (Working (w :: todo) v way).
Proof.
  destruct w as [pool|c scope r reported now|k|k|t]; cbn [do_work snd weight length]; try (destruct way; lia).
  destruct (record_inference _ _ _ _ _ _ _).
  - assert (left_over (if reported then set_out v (with_health scope (health (CloudLockout.record (lockouts s) (e_clock e) scope r) (e_clock e) scope Unknown) (v_out v)) else v) = left_over v)
      as E by by destruct reported. cbn [snd weight]. destruct way; rewrite ?E; lia.
  - pose proof (unwind_weight todo v way) as H. destruct way; cbn [snd weight] in *; try lia.
    + unfold round. lia.
    + unfold unwind, weight. rewrite app_nil_r. pose proof (List.filter_length_le is_drop todo). lia.
    + unfold unwind, weight. rewrite app_nil_r. pose proof (List.filter_length_le is_drop todo). lia.
Qed.
Lemma pass_weight v r lockout out : untried v r -> round (left_over (pass (set_out v out) r lockout)) + 20 <= round (left_over v).
Proof.
  intros H. pose proof (left_over_pass v r lockout H) as Hl. change (left_over (pass (set_out v out) r lockout)) with (left_over (pass v r lockout)).
  unfold round. lia.
Qed.
Lemma round_small n : 20 <= round n.
Proof. unfold round. lia. Qed.
Lemma advance_weight e j s ph : phase_ok ph -> (forall o, ph <> Ended o) -> weight (advance e j s ph).2 < weight ph.
Proof.
  destruct ph as [|spins|t|v|v r c|v r c|v r c t|v r c t k|[|w todo] v way|o]; cbn [phase_ok]; intros H Hne.
  - cbn [advance snd weight]. lia.
  - cbn [advance]. destruct (admission s) as [k|]; [|cbn [snd weight]; lia]. destruct (admit_ _ _ _ _ _) as [[t|why] k']; cbn [snd]; [cbn [weight]; lia|].
    destruct (clears why); cbn [andb]; [|cbn [weight]; lia]. destruct (N.ltb_spec spins MAX_ADMIT_SPINS); cbn [weight]; unfold MAX_ADMIT_SPINS in *; lia.
  - cbn [advance]. destruct (select _ _ _ _ _ _) as [sel|] eqn:E.
    + pose proof (vars_ok_start t j sel _ _ E) as Hv. pose proof (left_over_start t sel (start_ms (per_job plan)) (new_outcome j) (b_distinct _ Hv) (b_inside _ Hv)) as Hl.
      cbn [snd]. destruct (ranked sel); [pose proof (leave_with_weight (mkVars t sel [] false (start_ms (per_job plan)) (new_outcome j)) NoEligibleCandidates);
        cbn [weight]; unfold whole, round; lia|cbn [weight]; unfold whole, round; lia].
    + cbn [snd weight]. pose proof (drop_of_length t). unfold whole, round. lia.
  - cbn [advance weight]. pose proof (round_small (left_over v)) as Hs. destruct (pick_next s v) as [r|] eqn:Ep.
    + destruct (candidates !! index r) as [c|]; cbn [snd].
      * destruct (_ <=? _); [pose proof (leave_with_weight v (spent v)); lia|].
        destruct (match deadline_ms (per_job plan) with Some _ => _ | None => _ end); [pose proof (leave_with_weight v DeadlineExceeded); lia|].
        cbn [weight]. lia.
      * pose proof (unwind_weight [] v Again). cbn [length] in *. lia.
    + cbn [snd]. pose proof (leave_with_weight v (if v_lockout v then AllLockedOut else spent v)). lia.
  - destruct H as [Hv [Hr Hc]]. cbn [advance snd weight].
    set (out := with_health (r_candidate r) (health (lockouts s) (e_clock e) (r_candidate r) Unknown) (v_out v)).
    pose proof (pass_weight v r true out Hr). pose proof (pass_weight v r false out Hr). destruct (permit _ _ _ _); cbn [weight length]; lia.
  - destruct H as [Hv [Hr Hc]]. pose proof (pass_weight v r false (v_out v) Hr) as Hp. cbn [advance weight]. destruct (admission s) as [k|]; [|cbn [snd weight]; lia].
    destruct (admit_ _ _ _ _ _) as [[t|why] k']; cbn [snd weight length]; [lia|]. change (left_over (pass (set_out v (v_out v)) r false)) with (left_over (pass v r false)) in Hp. lia.
  - destruct H as [Hv [Hr Hc]]. pose proof (pass_weight v r false (v_out v) Hr) as Hp.
    change (left_over (pass (set_out v (v_out v)) r false)) with (left_over (pass v r false)) in Hp. pose proof (drop_of_length t).
    cbn [advance weight]. destruct (reserve_dispatch _ _ _ _ _) as [[g k]|]; cbn [snd weight]; rewrite ?length_app; cbn [length]; lia.
  - cbn [advance snd weight]. apply answered_weight.
  - cbn [advance snd weight length]. destruct way; cbn [weight]; lia.
  - cbn [advance]. apply do_work_weight.
  - by destruct (Hne o).
Qed.

(** ** Steps *)

Lemma step_cases e w w' : step e w = Some w' -> exists ph j s ph', phases w !! e_job e = Some ph /\ jobs !! e_job e = Some j /\
  (forall o, ph <> Ended o) /\ (ph = Waiting -> may_start plan jobs w (e_job e) = true) /\ advance e j (shared w) ph = (s, ph') /\
  w' = mkWorld s (<[e_job e := ph']> (phases w)) (finished w ++ outcome_of ph').
Proof.
  unfold ParallelDispatch.step. destruct (phases w !! e_job e) as [ph|]; [|done]. destruct (jobs !! e_job e) as [j|]; [|done]. cbn [mbind option_bind].
  intros H. assert (forall o, ph <> Ended o) as Hne by (intros o ->; discriminate H).
  assert ((if is_waiting ph && negb (may_start plan jobs w (e_job e)) then None
    else let '(s, ph') := advance e j (shared w) ph in Some (mkWorld s (<[e_job e := ph']> (phases w)) (finished w ++ outcome_of ph'))) = Some w') as H'
    by (destruct ph; try exact H; by destruct (Hne out)). clear H.
  destruct (is_waiting ph && negb (may_start plan jobs w (e_job e))) eqn:Ew; [done|]. destruct (advance e j (shared w) ph) as [s ph'] eqn:Ea.
  injection H' as <-. exists ph, j, s, ph'. split; [done|]. split; [done|]. split; [done|]. split; [|done].
  intros ->. cbn in Ew. by apply negb_false_iff.
Qed.
Lemma steps_rule (Inv : World -> Prop) : (forall e w w', Inv w -> step e w = Some w' -> Inv w') ->
  forall es w w', Inv w -> steps es w = Some w' -> Inv w'.
Proof.
  intros Hs. induction es as [|e es IH]; intros w w' Hw; cbn [ParallelDispatch.steps]; [by intros [= <-]|].
  destruct (step e w) as [w1|] eqn:E; [|done]. cbn. apply IH. by eapply Hs.
Qed.
Record world_ok (w : World) : Prop := {
  x_length : length (phases w) = length jobs;
  x_phases : Forall phase_ok (phases w);
}.
Lemma step_ok e w w' : world_ok w -> step e w = Some w' -> world_ok w'.
Proof.
  intros [Hl Hp] (ph & j & s & ph' & E & _ & _ & _ & Ha & ->)%step_cases. split; cbn; [by rewrite length_insert|].
  apply Forall_insert; [done|]. pose proof (advance_ok e j (shared w) ph) as H. rewrite Ha in H. apply H. rewrite Forall_forall in Hp.
  apply Hp. by eapply list_elem_of_lookup_2.
Qed.
Lemma launch_ok s : world_ok (launch jobs s).
Proof. split; cbn; [by rewrite length_fmap|]. apply Forall_fmap, Forall_forall. by intros. Qed.
Lemma steps_ok es s w : steps es (launch jobs s) = Some w -> world_ok w.
Proof. apply (steps_rule world_ok step_ok), launch_ok. Qed.

Definition total (w : World) : N := sum_of (weight <$> phases w).
Lemma step_total e w w' : world_ok w -> step e w = Some w' -> total w' < total w.
Proof.
  intros [_ Hp] (ph & j & s & ph' & E & _ & Hne & _ & Ha & ->)%step_cases. unfold total. cbn [phases].
  pose proof (sum_of_update weight (phases w) (e_job e) ph ph' E) as Hs. rewrite Forall_forall in Hp.
  pose proof (advance_weight e j (shared w) ph (Hp ph (list_elem_of_lookup_2 _ _ _ E)) Hne) as H. rewrite Ha in H. cbn in H. lia.
Qed.
Lemma steps_bound es w w' : world_ok w -> steps es w = Some w' -> N.of_nat (length es) <= total w.
Proof.
  revert w. induction es as [|e es IH]; intros w Hw; cbn [ParallelDispatch.steps length]; [lia|]. destruct (step e w) as [w1|] eqn:E; [|done]. cbn.
  intros H. pose proof (step_total e w w1 Hw E). specialize (IH w1 (step_ok e w w1 Hw E) H). lia.
Qed.
Lemma launch_total s : total (launch jobs s) = N.of_nat (length jobs) * (whole + 4100).
Proof.
  unfold total, launch. cbn [phases]. induction jobs as [|j l IH]; [done|]. cbn [fmap list_fmap length]. unfold sum_of in *. cbn [foldr]. rewrite IH. cbn [weight]. lia.
Qed.

(** What can still move. *)
Definition stuck (w : World) : Prop := forall e, step e w = None.
Lemma step_moves i w ph j ms clock wrote o : phases w !! i = Some ph -> jobs !! i = Some j -> (forall x, ph <> Ended x) ->
  (ph = Waiting -> may_start plan jobs w i = true) -> step (mkEvent i ms clock wrote o) w <> None.
Proof.
  intros Hp Hj Hne Hw. unfold ParallelDispatch.step. cbn [e_job]. rewrite Hp, Hj. cbn [mbind option_bind].
  assert (is_waiting ph && negb (may_start plan jobs w i) = false) as E.
  { destruct (is_waiting ph) eqn:Ew; [|done]. rewrite Hw by (by destruct ph). done. }
  destruct ph; rewrite ?E; try (by destruct (Hne out)); by destruct (advance _ j (shared w) _).
Qed.
Lemma stuck_phases w ph : world_ok w -> stuck w -> ph ∈ phases w -> ph = Waiting \/ exists o, ph = Ended o.
Proof.
  intros [Hl _] Hs [i Hi]%list_elem_of_lookup. destruct (lookup_lt_is_Some_2 jobs i) as [j Hj]; [rewrite <- Hl; by eapply lookup_lt_Some|].
  specialize (Hs (mkEvent i 0 0 true (WorkerFailed ""))).
  destruct ph; try (by left); try (by right; eexists); exfalso; revert Hs; (eapply (step_moves i w _ j); [exact Hi|exact Hj|done|done]).
Qed.
Lemma first_waiting l : Waiting ∈ l -> exists i, l !! i = Some Waiting /\ forallb (fun ph => negb (is_waiting ph)) (take i l) = true.
Proof.
  induction l as [|ph l IH]; [by intros ?%not_elem_of_nil|]. destruct (is_waiting ph) eqn:E; [intros _; exists 0%nat; by destruct ph|].
  intros [<-|H]%elem_of_cons; [done|]. destruct (IH H) as (i & Hi & Ht). exists (S i). cbn. by rewrite E.
Qed.
Definition panicked (ph : Phase) : bool := match ph with Ended None => true | _ => false end.

(** However the steps of the workers interleave, and whatever the runners, the clocks and the
    disk answer, a batch takes no more than so many steps; where none is left to take every job
    has ended, unless every worker has died of a panic. *)
Theorem batch_ends es s w : steps es (launch jobs s) = Some w ->
  N.of_nat (length es) <= N.of_nat (length jobs) * (20 * N.of_nat (length candidates) + 4130) /\
  (stuck w -> (forall ph, ph ∈ phases w -> exists o, ph = Ended o) \/ (workers plan jobs <= length (List.filter panicked (phases w)))%nat).
Proof.
  intros H. split.
  - pose proof (steps_bound es _ w (launch_ok s) H) as Hb. rewrite launch_total in Hb. unfold whole, round in Hb. lia.
  - intros Hs. pose proof (steps_ok es s w H) as Hok. destruct (decide (Exists (fun ph => is_waiting ph = true) (phases w))) as [Hw|Hw].
    + right. apply Exists_exists in Hw as (ph & Hin & Hph). assert (ph = Waiting) as -> by by destruct ph.
      destruct (first_waiting _ Hin) as (i & Hi & Ht). destruct (lookup_lt_is_Some_2 jobs i) as [j Hj]; [rewrite <- (x_length _ Hok); by eapply lookup_lt_Some|].
      destruct (Nat.le_gt_cases (workers plan jobs) (length (List.filter occupies (phases w)))) as [Hle|Hlt].
      * etrans; [exact Hle|]. rewrite (List.filter_ext_in occupies panicked); [done|]. intros ph Hph'%list_elem_of_In.
        by destruct (stuck_phases w ph Hok Hs Hph') as [->|[[o|] ->]].
      * exfalso. specialize (Hs (mkEvent i 0 0 true (WorkerFailed ""))). revert Hs. apply (step_moves i w Waiting j); try done.
        intros _. unfold may_start. rewrite Ht. cbn. by apply Nat.ltb_lt.
    + left. intros ph Hph. destruct (stuck_phases w ph Hok Hs Hph) as [->|?]; [|done]. destruct Hw. apply Exists_exists. by exists Waiting.
Qed.

(** ** The ledger *)

Definition settling (w : Work) : list N := match w with Charge k | Refund k => [k] | _ => [] end.
(** The reservations a job has yet to settle. *)
Definition outstanding (ph : Phase) : list N :=
  match ph with Calling _ _ _ _ k => [k] | Working todo _ _ => flat_map settling todo | _ => [] end.
Definition dying (ph : Phase) : bool := match ph with Working _ _ Unwind | Ended None => true | _ => false end.

(** What a step does to the ledger, and to what its job has yet to settle. *)
Inductive spends (g g' : Ledger) (ph ph' : Phase) : Prop :=
| keeps : g' = g -> outstanding ph' ⊆ outstanding ph -> dying ph' = true \/ outstanding ph ⊆ outstanding ph' -> spends g g' ph ph'
| takes c k : reserve_dispatch g c HeadroomUnknown (attempt_estimate_micros (per_job plan)) (spend (per_job plan)) = Ok (g', k) ->
    outstanding ph = [] -> outstanding ph' = [k] -> spends g g' ph ph'
| settles_one k : g' = commit g k None \/ g' = release g k -> k ∈ outstanding ph -> outstanding ph' ⊆ outstanding ph ->
    outstanding ph ⊆ k :: outstanding ph' -> spends g g' ph ph'.

Lemma drops_settle_nothing t : flat_map settling (drop_of t) = [].
Proof. by destruct t. Qed.
Lemma is_drop_settles_nothing todo : flat_map settling (List.filter is_drop todo) = [].
Proof. induction todo as [|[] todo IH]; done. Qed.
Lemma leave_with_outstanding v why : outstanding (leave_with v why) = [].
Proof. apply drops_settle_nothing. Qed.
Lemma unwind_outstanding todo v way : outstanding (unwind todo v way) = [] /\ dying (unwind todo v way) = true.
Proof.
  split; [|done]. cbn. rewrite flat_map_app, is_drop_settles_nothing. destruct way; [apply drops_settle_nothing|done..].
Qed.
Lemma quiet g ph ph' : outstanding ph = [] -> outstanding ph' = [] -> spends g g ph ph'.
Proof. intros E E'. apply keeps; rewrite ?E, ?E'; [done| |right]; by intros ? ?%not_elem_of_nil. Qed.
Lemma answered_outstanding e v r c t k : outstanding (answered e v r c t k) = [k].
Proof. unfold answered. destruct (e_outcome e); cbn; rewrite ?flat_map_app, ?drops_settle_nothing; done. Qed.
Lemma advance_spends e j s ph : spends (ledger s) (ledger (advance e j s ph).1) ph (advance e j s ph).2.
Proof.
  destruct ph as [|spins|t|v|v r c|v r c|v r c t|v r c t k|[|w todo] v way|o].
  - by apply quiet.
  - cbn. destruct (admission s) as [k|]; [|by apply quiet]. destruct (admit_ _ _ _ _ _) as [[t|why] k']; [by apply quiet|]. cbn.
    destruct (_ && _); by apply quiet.
  - cbn. destruct (select _ _ _ _ _ _) as [sel|]; cbn; [destruct (ranked sel)|]; apply quiet; try done; apply drops_settle_nothing.
  - cbn. destruct (pick_next s v) as [r|]; [|apply quiet; [done|apply leave_with_outstanding]].
    destruct (candidates !! index r) as [c|]; cbn; [|apply quiet; [done|apply (unwind_outstanding [] v Again)]].
    destruct (_ <=? _); [apply quiet; [done|apply leave_with_outstanding]|].
    destruct (match deadline_ms (per_job plan) with Some _ => _ | None => _ end); apply quiet; try done; apply leave_with_outstanding.
  - cbn. destruct (permit _ _ _ _); by apply quiet.
  - cbn. destruct (admission s) as [k|]; [|by apply quiet]. destruct (admit_ _ _ _ _ _) as [[t|why] k']; by apply quiet.
  - cbn. destruct (reserve_dispatch _ _ _ _ _) as [[g k]|] eqn:E; [by eapply takes|]. apply quiet; [done|]. cbn. by rewrite flat_map_app, drops_settle_nothing.
  - cbn [ParallelDispatch.advance fst snd]. apply keeps; rewrite ?answered_outstanding; [done..|by right].
  - cbn. destruct way; by apply quiet.
  - cbn [ParallelDispatch.advance]. destruct w as [pool|c scope r reported now|k|k|t]; cbn [do_work].
    + apply keeps; [|done|by right]. unfold unmark. by destruct (active_pools s !! pool).
    + destruct (record_inference _ _ _ _ _ _ _); cbn [fst snd]; [apply keeps; [done|done|by right]|].
      destruct (unwind_outstanding todo v way) as [Hu Hd]. apply keeps; [done|rewrite Hu; by intros ? ?%not_elem_of_nil|by left].
    + apply (settles_one _ _ _ _ k); [by left|cbn; apply elem_of_cons; by left|cbn; intros x Hx; apply elem_of_cons; by right|done].
    + apply (settles_one _ _ _ _ k); [by right|cbn; apply elem_of_cons; by left|cbn; intros x Hx; apply elem_of_cons; by right|done].
    + apply keeps; [done|done|by right].
  - cbn. by apply keeps; [| |right].
Qed.
Lemma advance_dying e j s ph : dying ph = true -> dying (advance e j s ph).2 = true.
Proof.
  destruct ph as [| | | | | | | |[|w todo] v []|[|]]; cbn; try done. intros _. destruct w; try done. cbn. by destruct (record_inference _ _ _ _ _ _ _).
Qed.

(** The step as an operation on the ledger. *)
Lemma spends_op g g' ph ph' : spends g g' ph ph' -> g' = g \/ exists op, g' = CloudBudget.apply g op /\
  (forall a, capped a (authorized (per_job plan)) op /\ overrun a g op = 0).
Proof.
  intros [-> _ _|c k Hr _ _|k [->| ->] _ _ _]; [by left|right..].
  - unfold reserve_dispatch in Hr. set (req := CloudBudget.mkRequest _ _ _ _ _) in Hr. exists (CloudBudget.Reserve req). cbn. rewrite Hr. split; [done|]. intros a.
    split; [|done]. intros _. unfold authorized. by destruct (spend (per_job plan)).
  - by exists (CloudBudget.Commit k None).
  - by exists (CloudBudget.Release k).
Qed.
Lemma spends_fresh g g' ph ph' : spends g g' ph ph' -> fresh_ids g -> fresh_ids g' /\ next_id g <= next_id g'.
Proof. intros [->|(op & -> & _)]%spends_op Hf; [done|]. split; [by apply fresh_apply|apply next_id_mono]. Qed.

Section Spend.
Context (s0 : Shared) (Hfresh : fresh_ids (ledger s0)).
Notation n0 := (next_id (ledger s0)).

Record spend_ok (w : World) : Prop := {
  d_fresh : fresh_ids (ledger (shared w));
  d_next : n0 <= next_id (ledger (shared w));
  d_old : forall k, k < n0 -> held (ledger (shared w)) !! k = held (ledger s0) !! k;
  d_ids : forall i ph k, phases w !! i = Some ph -> k ∈ outstanding ph -> n0 <= k;
  d_new : forall k h, held (ledger (shared w)) !! k = Some h -> n0 <= k ->
            exists i ph, phases w !! i = Some ph /\ (k ∈ outstanding ph \/ dying ph = true);
}.
Lemma reserve_dispatch_Ok g c h e p g' k : reserve_dispatch g c h e p = Ok (g', k) -> k = next_id g /\ exists x, held g' = <[k := x]> (held g).
Proof.
  unfold reserve_dispatch. intros H. apply reserve_Ok in H as (x & Hx & _). unfold new_hold in Hx. injection Hx as -> ->. cbn. split; [done|by eexists].
Qed.
(** The ids below [n0] and those still to be settled, over one step. *)
Lemma spends_held g g' ph ph' : spends g g' ph ph' -> fresh_ids g -> n0 <= next_id g -> (forall k, k ∈ outstanding ph -> n0 <= k) ->
  (forall k, k ∈ outstanding ph' -> n0 <= k) /\ (forall k, k < n0 -> held g' !! k = held g !! k) /\
  (forall k h, held g' !! k = Some h -> (held g !! k = Some h /\ (k ∈ outstanding ph -> k ∈ outstanding ph' \/ dying ph' = true)) \/ k ∈ outstanding ph').
Proof.
  intros Hs Hf Hn Hi. destruct Hs as [-> Hsub Hd|c k Hr E E'|k Hg Hk Hsub Hle].
  - split; [by intros k Hk; apply Hi, Hsub|]. split; [done|]. intros k h Hh. left. split; [done|]. intros Ho. destruct Hd as [?|Hd]; [by right|left; by apply Hd].
  - destruct (reserve_dispatch_Ok _ _ _ _ _ _ _ Hr) as (-> & x & Hx). rewrite E'. split; [intros k ->%list_elem_of_singleton; done|]. split.
    + intros k Hk. rewrite Hx, lookup_insert_ne by lia. done.
    + intros k h. rewrite Hx. intros [[<- _]|[_ Hh]]%lookup_insert_Some; [right; by apply list_elem_of_singleton|left]. split; [done|]. rewrite E. by intros ?%not_elem_of_nil.
  - assert (forall k', held g' !! k' = if decide (k = k') then None else held g !! k') as Hl.
    { intros k'. destruct Hg as [->| ->]; [unfold commit|].
      - destruct (held g !! k) as [h|] eqn:E; cbn; [by rewrite lookup_delete|]. destruct (decide (k = k')) as [<-|]; done.
      - cbn. by rewrite lookup_delete. }
    split; [by intros k' Hk'; apply Hi, Hsub|]. split.
    + intros k' Hk'. rewrite Hl. destruct (decide (k = k')) as [<-|]; [|done]. specialize (Hi k Hk). lia.
    + intros k' h. rewrite Hl. destruct (decide (k = k')) as [|Hne]; [done|]. intros Hh. left. split; [done|]. intros Ho.
      apply Hle, elem_of_cons in Ho as [->|?]; [done|by left].
Qed.
Lemma spend_step e w w' : spend_ok w -> step e w = Some w' -> spend_ok w'.
Proof.
  intros [Hf Hn Ho Hi Hnew] (ph & j & s & ph' & E & _ & _ & _ & Ha & ->)%step_cases.
  pose proof (advance_spends e j (shared w) ph) as Hs. pose proof (advance_dying e j (shared w) ph) as Hd. rewrite Ha in Hs, Hd. cbn [fst snd] in Hs, Hd.
  destruct (spends_fresh _ _ _ _ Hs Hf) as [Hf' Hn']. destruct (spends_held _ _ _ _ Hs Hf Hn (fun k => Hi _ ph k E)) as (H1 & H2 & H3).
  assert (e_job e < length (phases w))%nat as Hlt by (by eapply lookup_lt_Some).
  split; cbn [shared phases]; [done|lia|..].
  - intros k Hk. by rewrite H2, Ho.
  - intros i ph1 k [(<- & <- & _)|(_ & Hl)]%list_lookup_insert_Some Hk; [by apply H1|by eapply Hi].
  - intros k h Hh Hk. destruct (H3 k h Hh) as [[Hh' Hkeep]|Hin].
    + destruct (Hnew k h Hh' Hk) as (i & ph1 & Hl & Hout). destruct (decide (e_job e = i)) as [<-|Hne].
      * exists (e_job e), ph'. rewrite list_lookup_insert_eq by done. split; [done|]. rewrite E in Hl. injection Hl as <-.
        destruct Hout as [Hout|Hdy]; [by apply Hkeep|right; by apply Hd].
      * exists i, ph1. by rewrite list_lookup_insert_ne by done.
    + exists (e_job e), ph'. rewrite list_lookup_insert_eq by done. auto.
Qed.
Lemma spend_launch : spend_ok (launch jobs s0).
Proof.
  split; cbn; [done|lia|done| |].
  - intros i ph k Hl. rewrite list_lookup_fmap in Hl. destruct (jobs !! i); [|done]. injection Hl as <-. by intros ?%not_elem_of_nil.
  - intros k h Hh%Hfresh Hk. lia.
Qed.
Lemma exposure_steps a es w : authorized (per_job plan) < u64_max -> exposure_of (ledger s0) a <= u64_max -> steps es (launch jobs s0) = Some w ->
  fresh_ids (ledger (shared w)) /\ exposure_of (ledger (shared w)) a <= N.max (authorized (per_job plan)) (exposure_of (ledger s0) a).
Proof.
  intros Ha Hb. apply (steps_rule (fun w => fresh_ids (ledger (shared w)) /\ exposure_of (ledger (shared w)) a <= N.max (authorized (per_job plan)) (exposure_of (ledger s0) a))).
  - intros e w1 w2 [Hf Hx] (ph & j & s & ph' & _ & _ & _ & _ & Hadv & ->)%step_cases. cbn [shared].
    pose proof (advance_spends e j (shared w1) ph) as Hs. rewrite Hadv in Hs. cbn [fst snd] in Hs. split; [by eapply spends_fresh|].
    destruct (spends_op _ _ _ _ Hs) as [->|(op & -> & Hop)]; [done|]. destruct (Hop a) as [Hc Ho].
    pose proof (exposure_step (ledger (shared w1)) a (authorized (per_job plan)) op (N.max (authorized (per_job plan)) (exposure_of (ledger s0) a))) as H.
    rewrite Ho, N.add_0_r in H. apply H; try done; lia.
  - cbn. split; [done|lia].
Qed.
End Spend.

(** C38. However many workers run at once, what is committed and reserved for an account never
    passes the spend authorized, or what it was; and when every job has ended, no worker
    having panicked, nothing the batch reserved is still reserved. *)
Theorem batch_spend_is_capped_and_settled es s w : fresh_ids (ledger s) -> steps es (launch jobs s) = Some w ->
  (forall a, authorized (per_job plan) < u64_max -> exposure_of (ledger s) a <= u64_max ->
     exposure_of (ledger (shared w)) a <= N.max (authorized (per_job plan)) (exposure_of (ledger s) a)) /\
  ((forall ph, ph ∈ phases w -> exists o, ph = Ended (Some o)) -> held (ledger (shared w)) = held (ledger s)).
Proof.
  intros Hf H. split; [intros a Ha Hb; by eapply exposure_steps|]. intros Hend.
  pose proof (steps_rule (spend_ok s) (spend_step s) es _ w (spend_launch s Hf) H) as [_ _ Ho _ Hn].
  apply map_eq. intros k. destruct (N.lt_ge_cases k (next_id (ledger s))) as [Hk|Hk]; [by apply Ho|].
  assert (held (ledger s) !! k = None) as -> by (apply eq_None_not_Some; intros [h Hh%Hf]; lia).
  apply eq_None_not_Some. intros [h Hh]. destruct (Hn k h Hh Hk) as (i & ph & Hl & Hbad).
  destruct (Hend ph (list_elem_of_lookup_2 _ _ _ Hl)) as [o ->]. destruct Hbad as [Hbad|Hbad]; [by apply not_elem_of_nil in Hbad|done].
Qed.

(** ** The marks of busy pools *)

Definition mark_in (p : string) (w : Work) : N := match w with Unmark q => if bool_decide (q = p) then 1 else 0 | _ => 0 end.
(** The marks a job holds on a pool. *)
Definition uses (p : string) (ph : Phase) : N :=
  match ph with
  | Gating _ _ c | Scoping _ _ c | Reserving _ _ c _ | Calling _ _ c _ _ => if bool_decide (pool_of c = p) then 1 else 0
  | Working todo _ _ => sum_of (mark_in p <$> todo)
  | _ => 0
  end.
Definition users (p : string) (w : World) : N := sum_of (uses p <$> phases w).
(** Evidence is recorded when the mark is gone. *)
Fixpoint tidy (todo : list Work) : Prop :=
  match todo with
  | [] => True
  | w :: l => (match w with Evidence _ _ _ _ _ => forall p, sum_of (mark_in p <$> l) = 0 | _ => True end) /\ tidy l
  end.
Definition phase_tidy (ph : Phase) : Prop := match ph with Working todo _ _ => tidy todo | _ => True end.

Lemma drops_tidy t : tidy (drop_of t) /\ forall p, sum_of (mark_in p <$> drop_of t) = 0.
Proof. by destruct t. Qed.
Lemma tidy_app l l' : tidy l -> tidy l' -> (forall p, sum_of (mark_in p <$> l') = 0) -> tidy (l ++ l').
Proof.
  intros Hl Hl' Hn. induction l as [|w l IH]; [done|]. destruct Hl as [Hw Hl]. split; [|by apply IH]. destruct w; try done.
  intros p. rewrite fmap_app, sum_of_app, Hn, Hw. done.
Qed.
Lemma filter_drops todo : tidy (List.filter is_drop todo) /\ forall p, sum_of (mark_in p <$> List.filter is_drop todo) = 0.
Proof. induction todo as [|[] todo [IH1 IH2]]; cbn; try done. Qed.
Lemma unwind_tidy todo v way : phase_tidy (unwind todo v way) /\ forall p, uses p (unwind todo v way) = 0.
Proof.
  destruct (filter_drops todo) as [H1 H2]. unfold unwind. cbn.
  assert (tidy (match way with Again => drop_of (v_ticket v) | Leave | Unwind => [] end) /\
    forall p, sum_of (mark_in p <$> match way with Again => drop_of (v_ticket v) | Leave | Unwind => [] end) = 0) as [H3 H4] by (destruct way; [apply drops_tidy|done..]).
  split; [by apply tidy_app|]. intros p. by rewrite fmap_app, sum_of_app, H2, H4.
Qed.
Lemma leave_with_tidy v why : phase_tidy (leave_with v why) /\ forall p, uses p (leave_with v why) = 0.
Proof. apply drops_tidy. Qed.
Lemma answered_tidy e v r c t k : phase_tidy (answered e v r c t k) /\ forall p, uses p (answered e v r c t k) = if bool_decide (pool_of c = p) then 1 else 0.
Proof.
  destruct (drops_tidy t) as [H1 H2]. destruct (drops_tidy (v_ticket v)) as [H3 H4].
  assert (forall p, sum_of (mark_in p <$> drop_of t ++ drop_of (v_ticket v)) = 0) as H5 by (intros p; by rewrite fmap_app, sum_of_app, H2, H4).
  pose proof (tidy_app _ _ H1 H3 H4) as H6. unfold answered. destruct (e_outcome e); cbn [phase_tidy tidy uses fmap list_fmap mark_in];
    (split; [repeat split; try done; intros p; unfold sum_of in *; cbn [fmap list_fmap foldr mark_in]; by rewrite ?H5, ?H2|]);
    intros p; unfold sum_of in *; cbn [foldr fmap list_fmap mark_in]; rewrite ?H5, ?H2; lia.
Qed.

Lemma marks_mark s p q : marks (mark s p) q = marks s q + if bool_decide (p = q) then 1 else 0.
Proof.
  unfold marks, mark, with_pools. cbn [active_pools]. case_bool_decide as H; [subst q; rewrite lookup_insert_eq; done|].
  rewrite lookup_insert_ne by done. lia.
Qed.
Lemma marks_unmark s p q : 0 < marks s p -> marks (unmark s p) q + (if bool_decide (p = q) then 1 else 0) = marks s q.
Proof.
  unfold marks, unmark, with_pools. destruct (active_pools s !! p) as [n|] eqn:E; cbn [from_option id active_pools]; [|lia]. intros Hn.
  case_bool_decide as H; [subst q; rewrite lookup_insert_eq, E; cbn [from_option id]; unfold id in *; lia|]. rewrite lookup_insert_ne by done. lia.
Qed.

Section Pools.
Context (Hroom : N.of_nat (length candidates) <= max_attempts (per_job plan) <= u32_max).
Context (Htime : forall dl, deadline_ms (per_job plan) = Some dl -> start_ms (per_job plan) + N.of_nat (length candidates) <= dl).

(** A job's clock: a millisecond for each of its attempts. *)
Definition timely (v : Local) : Prop := v_now v <= start_ms (per_job plan) + N.of_nat (length (o_attempts (v_out v))).
Definition phase_timely (ph : Phase) : Prop :=
  match ph with
  | Choosing v | Working _ v _ | Gating v _ _ | Scoping v _ _ | Reserving v _ _ _ | Calling v _ _ _ _ => timely v
  | _ => True
  end.
Lemma answered_timely e v r c t k : timely v -> phase_timely (answered e v r c t k).
Proof.
  unfold timely, answered. intros H.
  destruct (e_outcome e); cbn [phase_timely]; unfold timely; cbn [tick_ms set_out v_now v_out attempted_by won_by o_attempts];
    rewrite length_app; cbn [length]; unfold saturating_add; lia.
Qed.
Lemma advance_timely e j s ph : phase_timely ph -> phase_timely (advance e j s ph).2.
Proof.
  destruct ph as [|spins|t|v|v r c|v r c|v r c t|v r c t k|[|w todo] v way|o]; intros H; try done.
  - cbn. destruct (admission s) as [k|]; [|done]. destruct (admit_ _ _ _ _ _) as [[t|why] k']; [done|]. cbn. by destruct (_ && _).
  - cbn. destruct (select _ _ _ _ _ _) as [sel|]; cbn; [|unfold timely; cbn; lia].
    destruct (ranked sel); cbn; unfold timely; cbn; lia.
  - cbn. destruct (pick_next s v) as [r|]; [|exact H]. destruct (candidates !! index r) as [c|]; [|exact H]. cbn.
    destruct (_ <=? _); [exact H|]. by destruct (match deadline_ms (per_job plan) with Some _ => _ | None => _ end).
  - cbn. by destruct (permit _ _ _ _).
  - cbn. destruct (admission s) as [k|]; [|done]. by destruct (admit_ _ _ _ _ _) as [[t|why] k'].
  - cbn. by destruct (reserve_dispatch _ _ _ _ _) as [[g k]|].
  - by apply answered_timely.
  - cbn. by destruct way.
  - cbn. destruct w; try done. cbn. destruct (record_inference _ _ _ _ _ _ _); [|done]. cbn. by destruct reported.
Qed.

(** Attempts and time never run out before the candidates do. *)
Lemma candidate_left v r : vars_ok v -> untried v r -> (length (o_attempts (v_out v)) < length candidates)%nat.
Proof.
  intros [H1 H2 H3 H4 H5] [Hr Hn]. assert (S (length (v_attempted v)) <= length candidates)%nat as Hl; [|lia].
  change (S (length (v_attempted v))) with (length (index r :: v_attempted v)). rewrite <- (length_seq (length candidates) 0).
  apply submseteq_length, NoDup_submseteq; [by constructor|]. intros i [->|Hi]%elem_of_cons; apply elem_of_seq; [specialize (H2 r Hr); lia|].
  apply H4, list_elem_of_fmap in Hi as (r' & -> & Hr'). specialize (H2 r' Hr'). lia.
Qed.
Lemma attempts_left v r : vars_ok v -> untried v r -> max_attempts (per_job plan) <=? as_u32 (length (o_attempts (v_out v))) = false.
Proof. intros H Hr. pose proof (candidate_left v r H Hr). apply N.leb_gt. rewrite as_u32_small by lia. lia. Qed.
Lemma time_left v r : vars_ok v -> timely v -> untried v r ->
  match deadline_ms (per_job plan) with Some dl => dl <=? v_now v | None => false end = false.
Proof.
  intros H Ht Hr. pose proof (candidate_left v r H Hr). unfold timely in Ht.
  destruct (deadline_ms (per_job plan)) as [dl|]; [|done]. specialize (Htime dl eq_refl). apply N.leb_gt. lia.
Qed.
Lemma advance_tidy e j s ph : phase_tidy ph -> phase_tidy (advance e j s ph).2.
Proof.
  destruct ph as [|spins|t|v|v r c|v r c|v r c t|v r c t k|[|w todo] v way|o]; intros H; try done.
  - cbn. destruct (admission s) as [k|]; [|done]. destruct (admit_ _ _ _ _ _) as [[t|why] k']; [done|]. cbn. by destruct (_ && _).
  - cbn. destruct (select _ _ _ _ _ _) as [sel|]; cbn; [destruct (ranked sel)|]; try done; apply drops_tidy.
  - cbn. destruct (pick_next s v) as [r|]; [|apply leave_with_tidy].
    destruct (candidates !! index r) as [c|]; cbn; [|apply (unwind_tidy [] v Again)].
    destruct (_ <=? _); [apply leave_with_tidy|]. destruct (match deadline_ms (per_job plan) with Some _ => _ | None => _ end); [apply leave_with_tidy|done].
  - cbn. by destruct (permit _ _ _ _).
  - cbn. destruct (admission s) as [k|]; [|done]. by destruct (admit_ _ _ _ _ _) as [[t|why] k'].
  - cbn. destruct (reserve_dispatch _ _ _ _ _) as [[g k]|]; [done|]. destruct t; done.
  - apply answered_tidy.
  - cbn. by destruct way.
  - destruct H as [_ H]. cbn. destruct w; try done. cbn. destruct (record_inference _ _ _ _ _ _ _); [done|apply unwind_tidy].
Qed.
(** A step moves a mark between the table and its job, and no other. *)
Lemma advance_marks e j s ph p M : phase_ok ph -> phase_timely ph -> phase_tidy ph -> marks s p = M + uses p ph -> (forall q, uses q ph <= marks s q) ->
  marks (advance e j s ph).1 p = M + uses p (advance e j s ph).2.
Proof.
  intros Hok Hti Ht Hm Hle. destruct ph as [|spins|t|v|v r c|v r c|v r c t|v r c t k|[|w todo] v way|o]; cbn [uses phase_ok phase_timely] in *; try done.
  - cbn. destruct (admission s) as [k|]; [|done]. destruct (admit_ _ _ _ _ _) as [[t|why] k']; [done|]. cbn. by destruct (_ && _).
  - cbn. destruct (select _ _ _ _ _ _) as [sel|]; cbn [fst snd].
    + destruct (ranked sel); [|done]. by rewrite (proj2 (leave_with_tidy _ _)).
    + cbn [uses]. by rewrite (proj2 (drops_tidy t)).
  - cbn [ParallelDispatch.advance]. destruct (pick_next s v) as [r|] eqn:Ep; [|cbn [fst snd]; by rewrite (proj2 (leave_with_tidy _ _))].
    apply pick_next_spec in Ep as [Hr _]. destruct (candidates !! index r) as [c|]; cbn [fst snd]; [|by rewrite (proj2 (unwind_tidy _ _ _))].
    rewrite (attempts_left v r Hok Hr), (time_left v r Hok Hti Hr). cbn [uses]. rewrite marks_mark. lia.
  - cbn [ParallelDispatch.advance fst snd]. destruct (permit _ _ _ _); cbn [uses fmap list_fmap mark_in]; unfold sum_of; cbn [foldr]; lia.
  - cbn [ParallelDispatch.advance]. destruct (admission s) as [k|]; [|done]. destruct (admit_ _ _ _ _ _) as [[t|why] k']; cbn [fst snd uses]; [done|].
    change (marks (with_admission s (Some k')) p) with (marks s p). unfold sum_of. cbn. lia.
  - cbn [ParallelDispatch.advance]. destruct (reserve_dispatch _ _ _ _ _) as [[g k]|]; cbn [fst snd uses]; [done|].
    rewrite fmap_app, sum_of_app, (proj2 (drops_tidy t)). unfold sum_of. cbn. lia.
  - cbn [ParallelDispatch.advance fst snd]. by rewrite (proj2 (answered_tidy _ _ _ _ _ _)).
  - cbn. by destruct way.
  - cbn [ParallelDispatch.advance]. unfold sum_of in *. cbn [fmap list_fmap foldr] in *. destruct w as [q|c scope r reported now|k|k|t]; cbn [do_work mark_in] in *.
    + cbn [fst snd uses]. assert (0 < marks s q) as Hq by (specialize (Hle q); rewrite bool_decide_true in Hle by done; lia).
      pose proof (marks_unmark s q p Hq). unfold sum_of. lia.
    + destruct Ht as [Hz _]. destruct (record_inference _ _ _ _ _ _ _); cbn [fst snd uses]; [done|].
      rewrite (proj2 (unwind_tidy _ _ _)). specialize (Hz p). unfold sum_of in Hz. lia.
    + done.
    + done.
    + done.
Qed.
(** [M0] is what is marked when the batch starts. *)
Record pools_ok (M0 : string -> N) (w : World) : Prop := {
  u_world : world_ok w;
  u_timely : Forall phase_timely (phases w);
  u_tidy : Forall phase_tidy (phases w);
  u_marks : forall p, marks (shared w) p = M0 p + users p w;
}.
Arguments u_world {M0 w}. Arguments u_marks {M0 w}.
Lemma pools_step M0 e w w' : pools_ok M0 w -> step e w = Some w' -> pools_ok M0 w'.
Proof.
  intros [Hw Hti Ht Hm] Hs. split; [by eapply step_ok|..]; apply step_cases in Hs as (ph & j & s & ph' & E & _ & _ & _ & Ha & ->); cbn [phases shared].
  - apply Forall_insert; [done|]. pose proof (advance_timely e j (shared w) ph) as H. rewrite Ha in H. apply H. rewrite Forall_forall in Hti.
    apply Hti. by eapply list_elem_of_lookup_2.
  - apply Forall_insert; [done|]. pose proof (advance_tidy e j (shared w) ph) as H. rewrite Ha in H. apply H. rewrite Forall_forall in Ht.
    apply Ht. by eapply list_elem_of_lookup_2.
  - intros p. unfold users. cbn [phases]. pose proof (sum_of_update (uses p) (phases w) (e_job e) ph ph' E) as Hsum.
    pose proof (sum_of_ge (uses p) (phases w) (e_job e) ph E) as Hge.
    pose proof (advance_marks e j (shared w) ph p (marks (shared w) p - uses p ph)) as H. rewrite Ha in H. cbn [fst snd] in H.
    rewrite Forall_forall in Ht, Hti. pose proof (x_phases _ Hw) as Hp. rewrite Forall_forall in Hp.
    pose proof (list_elem_of_lookup_2 _ _ _ E) as Hin.
    specialize (H (Hp ph Hin) (Hti ph Hin) (Ht ph Hin)). pose proof (Hm p) as Hmp. unfold users in Hmp. rewrite H.
    + lia.
    + lia.
    + intros q. rewrite (Hm q). pose proof (sum_of_ge (uses q) (phases w) (e_job e) ph E). unfold users. lia.
Qed.
Lemma pools_launch s : pools_ok (marks s) (launch jobs s).
Proof.
  split; [apply launch_ok| | |].
  - cbn. apply Forall_fmap, Forall_forall. by intros.
  - cbn. apply Forall_fmap, Forall_forall. by intros.
  - intros p. assert (users p (launch jobs s) = 0) as ->; [|cbn; lia].
    unfold users. cbn. induction jobs as [|j l IH]; [done|exact IH].
Qed.

(** C32. Where the attempts allowed and the time to the deadline (if one is set) suffice for
    every candidate, the marks are exact at every moment: a pool carries the marks it had when
    the batch was launched, and one for each attempt under way on it.  So a worker that picks a
    candidate of a marked pool found every candidate it had left in a marked pool: when no pool
    was marked at the launch, no pool waits while two workers share another.  (Marks an earlier
    batch leaked, [stopped_job_leaks_a_mark], count as attempts under way.) *)
Theorem idle_pools_go_first es s w : steps es (launch jobs s) = Some w ->
  (forall p, marks (shared w) p = marks s p + users p w) /\
  (forall e w' v v' r c, phases w !! e_job e = Some (Choosing v) -> step e w = Some w' -> phases w' !! e_job e = Some (Gating v' r c) ->
     marks s (pool_of c) + users (pool_of c) w = 0 \/
     forall r', untried v r' -> 0 < marks s (pool_at r') + users (pool_at r') w).
Proof.
  intros H. pose proof (steps_rule (pools_ok (marks s)) (pools_step (marks s)) es _ w (pools_launch s) H) as Hpo.
  pose proof (u_marks Hpo) as Hm. split; [done|].
  intros e w' v v' r c Hph (ph & j & s' & ph' & E & _ & _ & _ & Ha & ->)%step_cases Hg. rewrite Hph in E. injection E as <-.
  cbn [phases] in Hg. rewrite list_lookup_insert_eq in Hg by (by eapply lookup_lt_Some). injection Hg as ->.
  cbn [ParallelDispatch.advance] in Ha. destruct (pick_next (shared w) v) as [r1|] eqn:Ep; [|discriminate Ha]. apply pick_next_spec in Ep as [_ Hp].
  destruct (candidates !! index r1) as [c1|] eqn:Ec; [|discriminate Ha].
  destruct (_ <=? _); [discriminate Ha|]. destruct (match deadline_ms (per_job plan) with Some _ => _ | None => _ end); [discriminate Ha|]. injection Ha as _ <- <- <-.
  unfold ParallelDispatch.pool_at in Hp at 1. rewrite Ec in Hp. destruct Hp as [Hp|Hp]; [left; by rewrite <- Hm|right]. intros r' Hr'. rewrite <- Hm. by apply Hp.
Qed.
End Pools.

(** ** The report *)

(** What is known of a job's outcome while it runs, and when it has ended. *)
Definition concluded (o : JobOutcome) : Prop :=
  (is_Some (o_output o) /\ is_Some (o_winner o) /\ is_Some (o_pool o)) \/ (o_output o = None /\ o_winner o = None /\ is_Some (o_stop o)).
Definition open_outcome (id : string) (o : JobOutcome) : Prop := o_job o = id /\ o_output o = None /\ o_winner o = None.
Definition named (id : string) (ph : Phase) : Prop :=
  match ph with
  | Choosing v | Gating v _ _ | Scoping v _ _ | Reserving v _ _ _ | Calling v _ _ _ _ | Working _ v Again => open_outcome id (v_out v)
  | Working _ v Leave => o_job (v_out v) = id /\ concluded (v_out v)
  | Ended (Some o) => o_job o = id /\ concluded o
  | _ => True
  end.
Lemma leave_with_named id v why : open_outcome id (v_out v) -> named id (leave_with v why).
Proof. intros (H1 & H2 & H3). split; [done|]. right. cbn. split; [done|]. split; [done|by eexists]. Qed.
Lemma answered_named id e v r c t k : open_outcome id (v_out v) -> named id (answered e v r c t k).
Proof. intros H. unfold answered. destruct (e_outcome e); cbn; try exact H. destruct H as (H1 & _). split; [done|]. left. repeat split; by eexists. Qed.
Lemma advance_named e j s ph : named (j_id j) ph -> named (j_id j) (advance e j s ph).2.
Proof.
  destruct ph as [|spins|t|v|v r c|v r c|v r c t|v r c t k|[|w todo] v way|o]; intros H; try done.
  - cbn. destruct (admission s) as [k|]; [|done]. destruct (admit_ _ _ _ _ _) as [[t|why] k']; [done|]. cbn. destruct (_ && _); [done|].
    split; [done|]. right. split; [done|]. split; [done|by eexists].
  - cbn. destruct (select _ _ _ _ _ _) as [sel|]; cbn; [|done]. destruct (ranked sel); [by apply leave_with_named|done].
  - cbn. destruct (pick_next s v) as [r|]; [|by apply leave_with_named]. destruct (candidates !! index r) as [c|]; cbn; [|done].
    destruct (_ <=? _); [by apply leave_with_named|]. destruct (match deadline_ms (per_job plan) with Some _ => _ | None => _ end); [by apply leave_with_named|done].
  - cbn. by destruct (permit _ _ _ _).
  - cbn. destruct (admission s) as [k|]; [|done]. by destruct (admit_ _ _ _ _ _) as [[t|why] k'].
  - cbn. by destruct (reserve_dispatch _ _ _ _ _) as [[g k]|].
  - by apply answered_named.
  - cbn. destruct way; done.
  - cbn. destruct w as [pool|c scope r reported now|k|k|t]; try done. cbn. destruct (record_inference _ _ _ _ _ _ _); [|done]. cbn. by destruct reported, way.
Qed.
Record report_ok (w : World) : Prop := {
  z_length : length (phases w) = length jobs;
  z_named : forall i ph j, phases w !! i = Some ph -> jobs !! i = Some j -> named (j_id j) ph;
  z_finished : finished w ≡ₚ flat_map outcome_of (phases w);
}.
Lemma flat_map_update (l : list Phase) i (x y : Phase) : l !! i = Some x -> outcome_of x = [] -> flat_map outcome_of (<[i := y]> l) ≡ₚ flat_map outcome_of l ++ outcome_of y.
Proof.
  revert i. induction l as [|z l IH]; intros [|i] H E; try done.
  - injection H as ->. cbn. rewrite E. cbn. apply Permutation_app_comm.
  - change (<[S i := y]> (z :: l)) with (z :: <[i := y]> l). cbn. rewrite (IH i H E). by rewrite app_assoc.
Qed.
Lemma report_step e w w' : report_ok w -> step e w = Some w' -> report_ok w'.
Proof.
  intros [Hl Hn Hf] (ph & j & s & ph' & E & Ej & Hne & _ & Ha & ->)%step_cases. split; cbn [phases finished].
  - by rewrite length_insert.
  - intros i ph1 j1 [(<- & <- & _)|(_ & Hi)]%list_lookup_insert_Some Hj; [|by eapply Hn].
    rewrite Hj in Ej. injection Ej as ->. pose proof (advance_named e j (shared w) ph) as H. rewrite Ha in H. apply H. by eapply Hn.
  - rewrite Hf. symmetry. apply (flat_map_update _ _ ph); [done|]. by destruct ph as [| | | | | | | | |o]; [..|destruct (Hne o)].
Qed.
Lemma report_launch s : report_ok (launch jobs s).
Proof.
  split; cbn.
  - by rewrite length_fmap.
  - intros i ph j Hl Hj. rewrite list_lookup_fmap, Hj in Hl. by injection Hl as <-.
  - induction jobs as [|j l IH]; [done|exact IH].
Qed.
Lemma place_at i o j : NoDup (j_id <$> jobs) -> jobs !! i = Some j -> o_job o = j_id j -> place jobs o = N.of_nat i.
Proof.
  intros Hn Hj Ho. unfold place. destruct (list_find (fun j => j_id j = o_job o) jobs) as [[i' j']|] eqn:E.
  - apply list_find_Some in E as (Hj' & Hid & _). f_equal. apply (NoDup_lookup (j_id <$> jobs) _ _ (j_id j) Hn); rewrite list_lookup_fmap, ?Hj, ?Hj'; cbn; congruence.
  - apply list_find_None in E. rewrite Forall_forall in E. destruct (E j (list_elem_of_lookup_2 _ _ _ Hj)). done.
Qed.
Lemma all_ended (l : list Phase) : (forall ph, ph ∈ l -> exists o, ph = Ended (Some o)) -> exists os : list JobOutcome, l = (fun o => Ended (Some o)) <$> os.
Proof.
  induction l as [|ph l IH]; intros H; [by exists []|]. destruct (H ph (list_elem_of_here _ _)) as [o ->].
  destruct IH as [os ->]; [intros ph Hph; apply H, elem_of_cons; by right|]. by exists (o :: os).
Qed.

(** When every job has ended and no worker panicked, the report has one outcome for each
    job, in the order of the batch, and each has an answer with its winner, or a reason. *)
Theorem report_is_complete es s w : NoDup (j_id <$> jobs) -> steps es (launch jobs s) = Some w ->
  (forall ph, ph ∈ phases w -> exists o, ph = Ended (Some o)) ->
  o_job <$> report jobs w = j_id <$> jobs /\ Forall concluded (report jobs w).
Proof.
  intros Hn H Hend. pose proof (steps_rule report_ok report_step es _ w (report_launch s) H) as [Hl Hnm Hf].
  destruct (all_ended _ Hend) as [os Hos]. rewrite Hos in Hl, Hf. rewrite length_fmap in Hl.
  assert (flat_map outcome_of ((fun o => Ended (Some o)) <$> os) = os) as E by (clear; induction os as [|o os IH]; [done|cbn; by f_equal]).
  rewrite E in Hf. clear E.
  assert (forall i o j, os !! i = Some o -> jobs !! i = Some j -> o_job o = j_id j /\ concluded o) as Ho.
  { intros i o j Hi Hj. specialize (Hnm i (Ended (Some o)) j). rewrite Hos, list_lookup_fmap, Hi in Hnm. by apply Hnm. }
  assert (forall i o, os !! i = Some o -> exists j, jobs !! i = Some j) as Hj.
  { intros i o Hi. apply lookup_lt_is_Some_2. rewrite <- Hl. by eapply lookup_lt_Some. }
  unfold report. pose proof (sort_by_key_perm (place jobs) (finished w)) as Hp. pose proof (sort_by_key_sorted (place jobs) (finished w)) as Hs.
  set (r := sort_by_key (place jobs) (finished w)) in *. rewrite Hf in Hp.
  assert (place jobs <$> os = N.of_nat <$> seq 0 (length os)) as Hplace.
  { apply list_eq. intros i. rewrite !list_lookup_fmap. destruct (os !! i) as [o|] eqn:Hi.
    - rewrite lookup_seq_lt by (by eapply lookup_lt_Some). cbn. destruct (Hj i o Hi) as [j Hji]. f_equal. apply (place_at i o j Hn Hji). by apply (Ho i).
    - rewrite lookup_seq_ge by (by apply lookup_ge_None). done. }
  assert (place jobs <$> r = N.of_nat <$> seq 0 (length os)) as Hr.
  { rewrite <- Hplace. apply (StronglySorted_unique N.le).
    - clear -Hs. induction Hs as [|o r Hr IH Ho]; [constructor|]. cbn. constructor; [done|]. by apply Forall_fmap.
    - rewrite Hplace. clear. generalize 0%nat. induction (length os) as [|n IH]; intros k; [constructor|]. cbn. constructor; [apply IH|].
      apply Forall_fmap, Forall_forall. intros i Hi%elem_of_seq. cbn. lia.
    - by rewrite Hp. }
  assert (forall i o, r !! i = Some o -> exists j, jobs !! i = Some j /\ o_job o = j_id j /\ concluded o) as Hat.
  { intros i o Hi. assert (o ∈ os) as (k & Hk)%list_elem_of_lookup by (rewrite <- Hp; by eapply list_elem_of_lookup_2).
    destruct (Hj k o Hk) as [j Hjk]. destruct (Ho k o j Hk Hjk) as [Hid Hc]. exists j. split; [|done].
    assert (place jobs o = N.of_nat i) as Hpi.
    { apply (f_equal (fun l => l !! i)) in Hr. rewrite !list_lookup_fmap, Hi in Hr. cbn in Hr.
      rewrite lookup_seq_lt in Hr by (rewrite <- (Permutation_length Hp); by eapply lookup_lt_Some). cbn in Hr. by injection Hr. }
    rewrite (place_at k o j Hn Hjk Hid) in Hpi. by replace i with k by lia. }
  split.
  - apply list_eq. intros i. rewrite !list_lookup_fmap. destruct (r !! i) as [o|] eqn:Hi.
    + destruct (Hat i o Hi) as (j & -> & Hid & _). cbn. by f_equal.
    + apply lookup_ge_None in Hi. rewrite (Permutation_length Hp), Hl in Hi. by rewrite (proj2 (lookup_ge_None jobs i)).
  - apply Forall_forall. intros o [i Hi]%list_elem_of_lookup. by destruct (Hat i o Hi) as (_ & _ & _ & ?).
Qed.
End Facts.

(** ** Examples *)

Definition in_account (a : string) (c : Candidate) : Candidate :=
  mkCandidate (c_provider c) (c_api_key c) (Some a) (c_region c) (c_model c) (context_tokens c) (c_modalities c) (supports_tools c)
    (supports_structured_output c) (c_residency c) (est_latency_ms c) (cost_per_mtok c) (quality c).
Definition two_pools : list Candidate := [candidate "sk-1" "small" None 9 10; in_account "other" (candidate "sk-2" "other" None 1 10)].
Definition plan_of (attempts : N) : DispatchPlan := mkPlan 2 "m" (mkFailoverBudget attempts None FreeOnly 50 100000) LocalCapacity_default.
Definition batch : list Job := [mkJob "a" (coding 2); mkJob "b" (coding 2)].
Definition idle : Shared := mkShared nothing_known tracker Ledger_new ∅ None.
Definition ev (i : nat) (o : AttemptOutcome) : Event := mkEvent i 100000 100 true o.
(** Both jobs in turn, [n] times. *)
Fixpoint turns (n : nat) : list Event :=
  match n with O => [] | S n' => ev 0 (Succeeded "zero") :: ev 1 (Succeeded "one") :: turns n' end.
Notation go_on p es js := (steps fingerprint [] AdmissionLimits_default QuotaInventory_new two_pools p js es (launch js idle)).

Definition held_marks (w : World) : list N := [marks (shared w) "openai:acme"; marks (shared w) "openai:other"].
(** Each takes a pool of its own, and both are done after twelve steps. *)
Example side_by_side : held_marks <$> go_on (plan_of 4) (turns 5) batch = Some [1; 1].
Proof. vm_compute. reflexivity. Qed.
Example both_answer : (fun w => (fun o => (o_job o, o_output o, o_pool o)) <$> report batch w) <$> go_on (plan_of 4) (turns 12) batch =
  Some [("a", Some "zero", Some "openai:acme"); ("b", Some "one", Some "openai:other")].
Proof. vm_compute. reflexivity. Qed.

Lemma batch_ends_witness : exists w, go_on (plan_of 4) (turns 12) batch = Some w /\ N.of_nat (length (turns 12)) <= 2 * (20 * 2 + 4130).
Proof.
  destruct (steps fingerprint [] AdmissionLimits_default QuotaInventory_new two_pools (plan_of 4) batch (turns 12) (launch batch idle)) as [w|] eqn:E; [|vm_compute in E; discriminate E].
  exists w. split; [reflexivity|]. pose proof (batch_ends fingerprint [] AdmissionLimits_default QuotaInventory_new two_pools (plan_of 4) batch (turns 12) idle w E) as [H _]. exact H.
Defined.
Lemma idle_has_no_ids : fresh_ids (ledger idle).
Proof. intros k h. cbn. by rewrite lookup_empty. Qed.
(** All jobs of a world have ended well. *)
Definition all_well (w : World) : bool := forallb (fun ph => match ph with Ended (Some _) => true | _ => false end) (phases w).
Lemma all_well_ended w : all_well w = true -> forall ph, ph ∈ phases w -> exists o, ph = Ended (Some o).
Proof. unfold all_well. rewrite forallb_forall. intros H ph Hph%list_elem_of_In. specialize (H ph Hph). destruct ph as [| | | | | | | | |[o|]]; try done. by exists o. Qed.
Lemma run_well : exists w, go_on (plan_of 4) (turns 12) batch = Some w /\ all_well w = true.
Proof.
  destruct (go_on (plan_of 4) (turns 12) batch) as [w|] eqn:E; [|vm_compute in E; discriminate E]. exists w. split; [done|].
  apply (f_equal (fun o => match o with Some w => all_well w | None => true end)) in E. rewrite <- E. vm_compute. reflexivity.
Qed.
Lemma batch_spend_is_capped_and_settled_witness : exists w, go_on (plan_of 4) (turns 12) batch = Some w /\ held (ledger (shared w)) = held (ledger idle).
Proof.
  destruct run_well as (w & E & Hw).  exists w. split; [exact E|].
  pose proof (batch_spend_is_capped_and_settled fingerprint [] AdmissionLimits_default QuotaInventory_new two_pools (plan_of 4) batch (turns 12) idle w idle_has_no_ids E) as [_ H].
  exact (H (all_well_ended w Hw)).
Defined.
Definition timed_plan : DispatchPlan := mkPlan 2 "m" (mkFailoverBudget 4 (Some 160000) FreeOnly 50 100000) LocalCapacity_default.
Lemma idle_pools_go_first_witness : exists w, go_on timed_plan (turns 5) batch = Some w /\ forall p, marks (shared w) p = users p w.
Proof.
  destruct (steps fingerprint [] AdmissionLimits_default QuotaInventory_new two_pools timed_plan batch (turns 5) (launch batch idle)) as [w|] eqn:E; [|vm_compute in E; discriminate E].
  exists w. split; [reflexivity|].
  assert (N.of_nat (length two_pools) <= max_attempts (per_job timed_plan) <= u32_max) as Hr by (split; vm_compute; discriminate).
  assert (forall dl, deadline_ms (per_job timed_plan) = Some dl -> start_ms (per_job timed_plan) + N.of_nat (length two_pools) <= dl) as Ht
    by (intros dl [= <-]; vm_compute; discriminate).
  pose proof (idle_pools_go_first fingerprint [] AdmissionLimits_default QuotaInventory_new two_pools timed_plan batch Hr Ht (turns 5) idle w E) as [H _].
  exact H.
Defined.
Lemma report_is_complete_witness : exists w, go_on (plan_of 4) (turns 12) batch = Some w /\ o_job <$> report batch w = ["a"; "b"].
Proof.
  destruct run_well as (w & E & Hw).  exists w. split; [exact E|].
  assert (NoDup (j_id <$> batch)) as Hn by (apply (bool_decide_unpack _); reflexivity).
  pose proof (report_is_complete fingerprint [] AdmissionLimits_default QuotaInventory_new two_pools (plan_of 4) batch (turns 12) idle w Hn E (all_well_ended w Hw)) as [H _]. exact H.
Defined.

Definition alone (n : nat) (o : AttemptOutcome) : list Event := repeat (ev 0 o) n.
Definition ended_with (w : World) : list (option string * nat * option FailoverStop) := (fun o => (o_output o, length (o_attempts o), o_stop o)) <$> finished w.
(** A job that stops for its attempt budget leaves the pool it had just picked marked. *)
Lemma stopped_job_leaks_a_mark :
  (fun w => (held_marks w, ended_with w)) <$> go_on (plan_of 1) (alone 14 (PreDispatch outage_500)) [mkJob "a" (coding 2)] =
  Some ([0; 1], [(None, 1%nat, Some (AttemptBudgetExhausted 1))]).
Proof. vm_compute. reflexivity. Qed.
(** Candidates the spend policy denies read as attempts that ran out, with none used. *)
Lemma denial_reads_as_attempts :
  (fun w => ended_with w) <$> steps fingerprint [] AdmissionLimits_default QuotaInventory_new [candidate "sk-2" "big" (Some dear) 9 10] (plan_of 4) [mkJob "a" (coding 2)]
    (alone 11 (Succeeded "")) (launch [mkJob "a" (coding 2)] idle) = Some [(None, 0%nat, Some (AttemptBudgetExhausted 0))].
Proof. vm_compute. reflexivity. Qed.
(** A panic while evidence is recorded keeps the spend of the attempt reserved for good, and the
    job has no outcome. *)
Lemma panic_keeps_a_reservation :
  (fun w => (size (held (ledger (shared w))), length (finished w), List.filter panicked (phases w))) <$>
    go_on (plan_of 4) (alone 11 (PreDispatch (Failed (Some 500) long_umlauts None))) [mkJob "a" (coding 2)] = Some (1%nat, 0%nat, [Ended None]).
Proof. vm_compute. reflexivity. Qed.
(** A job the admission controller turned away stays in its queue. *)
Definition closed : AdmissionLimits := mkLimits ScopeLimits_default ∅ (mkLocal 1 1 1 1) 0 0 8 1000.
Lemma refused_job_stays_queued :
  (fun w => (ended_with w, (fun k => queue (state k)) <$> admission (shared w))) <$>
    steps fingerprint [] closed QuotaInventory_new two_pools (plan_of 4) [mkJob "a" (coding 2)] (alone 4098 (Succeeded ""))
      (launch [mkJob "a" (coding 2)] (with_admission idle (Some (mkController State_default None)))) =
  Some ([(None, 0%nat, Some (Admission "GlobalFull"))], Some ["a"]).
Proof. vm_compute. reflexivity. Qed.
