(* ===== verification/CloudCredentials.v ===== *)
(** * CloudCredentials: the keys a user stored, one record each
    ([crates/susi-vendor-models/src/cloud_credentials.rs])

    The store is the directory [cloud-credentials], by the stem of each [.json] file.  A file
    is its length and the record it parses to.  SHA-256 and serde_json are arguments: [digest]
    is the hexadecimal digest of the bytes, [file_len] the length of an encoded record, and
    [reread] what a figure written to JSON reads back as.  Whether the lock was had and whether
    the file operation went well are arguments of a call. *)

From S2P Require Import Prelude Text.
From Stdlib Require Import Ascii SpecFloat.

Local Open Scope string_scope.
Local Open Scope list_scope.
Local Open Scope N_scope.
Local Open Scope susi_scope.

Record Credential : Type := mkCredential {
  id : string;
  vendor_env : string;
  key : string;
  max_budget_usd : option spec_float;
  current_spend_usd : option spec_float;
  label : option string;
  encrypted : option bool;
}.
Record File : Type := mkFile {
  len : N;
  parsed : option Credential;
}.
Notation Dir := (gmap string File).

(** [mask_key]; [None]: an index that is not a character boundary panics. *)
Definition boundary (s : string) : bool :=
  match s with EmptyString => true | String c _ => negb ((128 <=? nat_of_ascii c)%nat && (nat_of_ascii c <=? 191)%nat) end.
Fixpoint drop_bytes (n : nat) (s : string) : string :=
  match n, s with S n', String _ s' => drop_bytes n' s' | _, _ => s end.
Definition mask_key (c : Credential) : option string :=
  let k := trim (key c) in
  if (String.length k <=? 8)%nat then Some "***"
  else
    let tail := drop_bytes (String.length k - 4) k in
    if boundary (drop_bytes 4 k) && boundary tail then Some (take_chars 4 k +:+ "..." +:+ tail) else None.

Definition is_budget_exceeded (c : Credential) : bool :=
  match max_budget_usd c, current_spend_usd c with
  | Some m, Some s => SFleb m s
  | _, _ => false
  end.

Inductive StoreError : Type :=
| InvalidCredential
| LockUnavailable
| Full
| Io
| InventoryLimit
| InvalidInventory
| NegativeSpend
| NotFound
| InvalidRecord
| InvalidId.

(** [char::is_control]: C0, DEL, and C1, which is two bytes of UTF-8. *)
Fixpoint has_control (s : string) : bool :=
  match s with
  | EmptyString => false
  | String c s' =>
      (nat_of_ascii c <? 32)%nat || (nat_of_ascii c =? 127)%nat
      || match s' with
         | String d _ => (nat_of_ascii c =? 194)%nat && (128 <=? nat_of_ascii d)%nat && (nat_of_ascii d <=? 159)%nat
         | EmptyString => false
         end
      || has_control s'
  end.
Definition name_char (c : ascii) : bool := is_ascii_alphanumeric c || Ascii.eqb c "_".
Definition hex_char (c : ascii) : bool := is_digit c || is_between "a" "f" c || is_between "A" "F" c.
Definition is_digest (s : string) : bool := (String.length s =? 64)%nat && all_chars hex_char s.

Definition accepts (vendor_env key : string) : bool :=
  negb ((key =? "")%string || (8192 <? N.of_nat (String.length key)) || has_control key
        || (vendor_env =? "")%string || (128 <? N.of_nat (String.length vendor_env))
        || negb (all_chars name_char vendor_env)).

Definition CAPACITY : N := 1024.
Definition MAX_RECORD : N := 16 * 1024.

Section Store.
Context (digest : string -> string) (file_len : Credential -> N) (reread : spec_float -> option spec_float).

(** The record of a key; the byte 0 keeps the name apart from the key. *)
Definition id_of (vendor_env key : string) : string := digest (vendor_env +:+ String (byte 0) key).

(** A record after it was written and read back. *)
Definition written (c : Credential) : File :=
  mkFile (file_len c)
    (Some (mkCredential (id c) (vendor_env c) (key c) (max_budget_usd c ≫= reread)
             (current_spend_usd c ≫= reread) (label c) (encrypted c))).

Definition save_with_options (lock read write : bool) (dir : Dir) (vendor_env key : string)
    (max_budget_usd : option spec_float) (label : option string) : result (Dir * string) StoreError :=
  if negb (accepts vendor_env key) then Err InvalidCredential
  else if negb lock then Err LockUnavailable
  else
    let i := id_of vendor_env key in
    match dir !! i with
    | None =>
        if negb read then Err Io
        else if CAPACITY <=? N.of_nat (size dir) then Err Full
        else if negb write then Err Io
        else Ok (<[i := written (mkCredential i vendor_env key max_budget_usd (Some (S754_zero false)) label (Some false))]> dir, i)
    | Some f =>
        let existing := if read then parsed f ≫= current_spend_usd else None in
        if negb write then Err Io
        else Ok (<[i := written (mkCredential i vendor_env key max_budget_usd
                                   (Some (default (S754_zero false) existing)) label (Some false))]> dir, i)
    end.
Definition save (lock read write : bool) (dir : Dir) (vendor_env key : string) : result (Dir * string) StoreError :=
  save_with_options lock read write dir vendor_env key None None.

(** [list_all], on the files in the order the system lists them. *)
Fixpoint read_all (files : list (string * File)) (records : list Credential) : result (list Credential) StoreError :=
  match files with
  | [] => Ok records
  | (_, f) :: rest =>
      if (CAPACITY <=? N.of_nat (length records)) || (MAX_RECORD <? len f) then Err InventoryLimit
      else match parsed f with
           | None => Err InvalidInventory
           | Some c => read_all rest (records ++ [c])
           end
  end.
Definition id_le (a b : Credential) : Prop := String.le (id a) (id b).
#[local] Instance id_le_dec : RelDecision id_le.
Proof. intros a b. unfold id_le. apply _. Defined.
Definition list_all (files : list (string * File)) : result (list Credential) StoreError :=
  let? records := read_all files [] in Ok (merge_sort id_le records).
Definition listed (files : list (string * File)) (v : string) : result (list Credential) StoreError :=
  let? all := list_all files in Ok (List.filter (fun c => (vendor_env c =? v)%string) all).

Definition get_by_id (read : bool) (dir : Dir) (i : string) : result (option Credential) StoreError :=
  match dir !! i with
  | None => Ok None
  | Some f => if negb read then Err Io else match parsed f with Some c => Ok (Some c) | None => Err InvalidRecord end
  end.

Definition record_spend (lock read write : bool) (dir : Dir) (i : string) (amount_usd : spec_float) :
    result (Dir * spec_float) StoreError :=
  if SFltb amount_usd (S754_zero false) then Err NegativeSpend
  else if negb lock then Err LockUnavailable
  else match dir !! i with
  | None => Err NotFound
  | Some f =>
      if negb read then Err Io
      else match parsed f with
      | None => Err InvalidRecord
      | Some c =>
          let new_spend := SFadd 53 1024 (default (S754_zero false) (current_spend_usd c)) amount_usd in
          if negb write then Err Io
          else Ok (<[i := written (mkCredential (id c) (vendor_env c) (key c) (max_budget_usd c) (Some new_spend) (label c) (encrypted c))]> dir,
                   new_spend)
      end
  end.

(** The loop of [remove_vendor] returns at the first record whose identifier is not a digest;
    a file that is not removed ([gone]) is not reported. *)
Fixpoint remove_each (gone : string -> bool) (l : list Credential) (dir : Dir) : Dir * option StoreError :=
  match l with
  | [] => (dir, None)
  | c :: rest =>
      if negb (is_digest (id c)) then (dir, Some InvalidId)
      else remove_each gone rest (if gone (id c) then base.delete (id c) dir else dir)
  end.
Definition remove_vendor (lock : bool) (gone : string -> bool) (files : list (string * File)) (dir : Dir) (v : string) :
    Dir * option StoreError :=
  if negb lock then (dir, Some LockUnavailable)
  else match listed files v with
       | Err e => (dir, Some e)
       | Ok l => remove_each gone l dir
       end.
Definition remove_by_id (lock write : bool) (dir : Dir) (i : string) : result Dir StoreError :=
  if negb (is_digest i) then Err InvalidId
  else if negb lock then Err LockUnavailable
  else match dir !! i with
       | None => Ok dir
       | Some _ => if write then Ok (base.delete i dir) else Err Io
       end.
Definition cli_keys_remove (lock write : bool) (gone : string -> bool) (files : list (string * File)) (dir : Dir) (target : string) :
    Dir * option StoreError :=
  if is_digest target then match remove_by_id lock write dir target with Ok d => (d, None) | Err e => (dir, Some e) end
  else remove_vendor lock gone files dir target.

(** ** Invariants *)

(** Every file holds a record named by the digest of its vendor and key. *)
Definition well_named (dir : Dir) : Prop :=
  forall i f, dir !! i = Some f -> exists c, parsed f = Some c /\ id c = i /\ i = id_of (vendor_env c) (key c).
(** What [list_all] reads. *)
Definition readable (dir : Dir) : Prop :=
  N.of_nat (size dir) <= CAPACITY /\ forall i f, dir !! i = Some f -> len f <= MAX_RECORD /\ is_Some (parsed f).
Definition listing (dir : Dir) (files : list (string * File)) : Prop := files ≡ₚ map_to_list dir.
Definition spend_of (dir : Dir) (i : string) : option spec_float := (dir !! i ≫= parsed) ≫= current_spend_usd.
Definition cap_of (dir : Dir) (i : string) : option spec_float := (dir !! i ≫= parsed) ≫= max_budget_usd.


(** ** The listing *)

#[local] Instance id_le_total : Total id_le.
Proof. intros a b. apply (total String.le (id a) (id b)). Qed.
#[local] Instance id_le_trans : Transitive id_le.
Proof. intros a b c. apply (transitivity (R := String.le)). Qed.

Lemma read_all_ok files acc :
  N.of_nat (length acc + length files) <= CAPACITY -> Forall (fun p => len p.2 <= MAX_RECORD /\ is_Some (parsed p.2)) files ->
  read_all files acc = Ok (acc ++ omap (fun p => parsed p.2) files).
Proof.
  revert acc. induction files as [|[i f] files IH]; intros acc Hn Hf; cbn; [by rewrite app_nil_r|].
  apply Forall_cons in Hf as [[Hl [c Hc]] Hf]. cbn in Hl, Hc, Hn.
  destruct (CAPACITY <=? _) eqn:E; [apply N.leb_le in E; lia|]. cbn [orb].
  destruct (MAX_RECORD <? len f) eqn:E'; [apply N.ltb_lt in E'; lia|]. rewrite Hc.
  rewrite IH by (rewrite ?length_app; cbn; done || lia). by rewrite <- app_assoc.
Qed.

Lemma listing_fit dir files : listing dir files -> readable dir ->
  N.of_nat (length files) <= CAPACITY /\ Forall (fun p => len p.2 <= MAX_RECORD /\ is_Some (parsed p.2)) files.
Proof.
  intros Hl [Hn Hr]. split; [by rewrite (Permutation_length Hl), (length_map_to_list (dir : gmap string File))|]. apply Forall_forall. intros [i f] Hin.
  rewrite Hl in Hin. apply elem_of_map_to_list in Hin. by apply (Hr i).
Qed.

(** The records of a store, by identifier. *)
Definition contents (dir : Dir) : list Credential := omap (fun p => parsed p.2) (map_to_list dir).
Definition records_of (dir : Dir) : list Credential := merge_sort id_le (contents dir).
(** Every record is in the file of its identifier. *)
Definition in_place (dir : Dir) : Prop := forall i f c, dir !! i = Some f -> parsed f = Some c -> id c = i.

Lemma contents_elem dir c : c ∈ contents dir <-> exists i f, dir !! i = Some f /\ parsed f = Some c.
Proof.
  unfold contents. rewrite list_elem_of_omap. split.
  - intros ([i f] & Hin & Hp). apply elem_of_map_to_list in Hin. by exists i, f.
  - intros (i & f & Hi & Hp). exists (i, f). split; [by apply elem_of_map_to_list|done].
Qed.

Lemma contents_NoDup dir : in_place dir -> NoDup (contents dir).
Proof.
  intros Hin. unfold contents. assert (H : forall p, p ∈ map_to_list dir -> forall c, parsed p.2 = Some c -> id c = p.1).
  { intros [i f] Hp c Hc. apply elem_of_map_to_list in Hp. by apply (Hin i f). }
  pose proof (NoDup_fst_map_to_list dir) as Hnd. induction (map_to_list dir) as [|[i f] l IH]; [constructor|].
  apply NoDup_cons in Hnd as [Hi Hnd]. cbn [fmap list_fmap] in *.
  assert (Hl : NoDup (omap (fun p => parsed p.2) l)) by (apply IH; [intros p Hp; apply H; by right|done]).
  cbn. destruct (parsed f) as [c|] eqn:Ec; [|done]. constructor; [|done]. intros (p & Hp & Hc)%list_elem_of_omap.
  apply Hi. apply list_elem_of_fmap. exists p. split; [|done].
  pose proof (H p ltac:(by right) _ Hc). pose proof (H (i, f) ltac:(left) _ Ec). by etrans.
Qed.

Lemma id_le_antisym dir a b : in_place dir -> a ∈ contents dir -> b ∈ contents dir -> id_le a b -> id_le b a -> a = b.
Proof.
  intros Hin (i & f & Hi & Hf)%contents_elem (j & g & Hj & Hg)%contents_elem Hab Hba.
  assert (id a = id b) by (by apply (anti_symm String.le)).
  assert (i = j) by (rewrite <- (Hin _ _ _ Hi Hf), <- (Hin _ _ _ Hj Hg); done). by simplify_eq.
Qed.

Lemma sorted_records_unique dir l l' : in_place dir -> l ≡ₚ l' -> (forall c, c ∈ l -> c ∈ contents dir) ->
  StronglySorted id_le l -> StronglySorted id_le l' -> l = l'.
Proof.
  intros Hin Hp Hl H1 H2. apply (StronglySorted_unique_strong id_le); try done. intros a b Ha Hb. apply (id_le_antisym dir); try done;
    apply Hl; [done|by rewrite Hp].
Qed.

Lemma list_all_records dir files : listing dir files -> readable dir -> in_place dir -> list_all files = Ok (records_of dir).
Proof.
  intros Hl Hr Hin. destruct (listing_fit dir files Hl Hr) as [Hn Hf]. unfold list_all. rewrite (read_all_ok files []) by done.
  cbn. f_equal. unfold records_of. apply (sorted_records_unique dir); [done| | |apply (StronglySorted_merge_sort _)|apply (StronglySorted_merge_sort _)].
  - rewrite !merge_sort_Permutation. unfold contents. by rewrite Hl.
  - intros c. rewrite merge_sort_Permutation. unfold contents. by rewrite Hl.
Qed.

Lemma listed_records dir files v : listing dir files -> readable dir -> in_place dir ->
  listed files v = Ok (List.filter (fun c => (vendor_env c =? v)%string) (records_of dir)).
Proof. intros. unfold listed. by rewrite (list_all_records dir). Qed.

Lemma records_elem dir c : c ∈ records_of dir <-> c ∈ contents dir.
Proof. unfold records_of. by rewrite merge_sort_Permutation. Qed.

(** ** What each call does *)

Lemma save_ok lock read write dir v k cap lab dir' i : save_with_options lock read write dir v k cap lab = Ok (dir', i) ->
  accepts v k = true /\ i = id_of v k /\ (dir !! i = None -> N.of_nat (size dir) < CAPACITY) /\
  dir' = <[i := written (mkCredential i v k cap
                   (Some (default (S754_zero false) (if read then spend_of dir i else None))) lab (Some false))]> dir.
Proof.
  unfold save_with_options, spend_of. destruct (accepts v k); [|done]. destruct lock; [|done]. cbn [negb].
  destruct (dir !! id_of v k) as [f|] eqn:E.
  - destruct write; [|done]. cbn. intros [= <- <-]. rewrite E. cbn. by destruct read.
  - destruct read; [|done]. cbn [negb]. destruct (CAPACITY <=? _) eqn:Ec; [done|]. apply N.leb_gt in Ec.
    destruct write; [|done]. cbn. intros [= <- <-]. by rewrite E.
Qed.

Lemma spend_ok lock read write dir i x dir' y : record_spend lock read write dir i x = Ok (dir', y) ->
  exists f c, dir !! i = Some f /\ parsed f = Some c /\ y = SFadd 53 1024 (default (S754_zero false) (current_spend_usd c)) x /\
    dir' = <[i := written (mkCredential (id c) (vendor_env c) (key c) (max_budget_usd c) (Some y) (label c) (encrypted c))]> dir.
Proof.
  unfold record_spend. destruct (SFltb _ _); [done|]. destruct lock; [|done]. cbn [negb]. destruct (dir !! i) as [f|]; [|done].
  destruct read; [|done]. cbn [negb]. destruct (parsed f) as [c|] eqn:Ec; [|done]. destruct write; [|done]. cbn. intros [= <- <-].
  by exists f, c.
Qed.

Lemma remove_each_lookup gone l dir : Forall (fun c => is_digest (id c) = true) l ->
  (remove_each gone l dir).2 = None /\
  forall j, (remove_each gone l dir).1 !! j = if decide (gone j = true /\ j ∈ id <$> l) then None else dir !! j.
Proof.
  revert dir. induction l as [|c l IH]; intros dir Hd; cbn; [split; [done|]|].
  { intros j. case_decide as H; [|done]. destruct H as [_ H]. by apply not_elem_of_nil in H. }
  apply Forall_cons in Hd as [Hc Hd]. rewrite Hc. cbn [negb]. destruct (IH (if gone (id c) then base.delete (id c) dir else dir) Hd) as [H1 H2].
  split; [done|]. intros j. rewrite H2. destruct (decide (j = id c)) as [->|Hn].
  - destruct (gone (id c)); [|by rewrite !decide_False by naive_solver].
    rewrite lookup_delete_eq, (decide_True (P := _ /\ id c ∈ id c :: _)) by (split; [done|left]). by case_decide.
  - replace ((if gone (id c) then base.delete (id c) dir else dir) !! j) with (dir !! j)
      by (destruct (gone (id c)); [by rewrite lookup_delete_ne|done]).
    apply decide_ext. rewrite elem_of_cons. naive_solver.
Qed.

(** ** The stores the calls make *)

Definition short (c : Credential) : Prop := file_len c <= MAX_RECORD.

Inductive reachable : Dir -> Prop :=
| r_empty : reachable ∅
| r_save dir lock read write v k cap lab dir' i : reachable dir ->
    save_with_options lock read write dir v k cap lab = Ok (dir', i) ->
    (forall s, short (mkCredential i v k cap s lab (Some false))) -> reachable dir'
| r_spend dir lock read write i x dir' y : reachable dir -> record_spend lock read write dir i x = Ok (dir', y) ->
    (forall f c, dir !! i = Some f -> parsed f = Some c ->
       short (mkCredential (id c) (vendor_env c) (key c) (max_budget_usd c) (Some y) (label c) (encrypted c))) -> reachable dir'
| r_remove dir lock write gone files target : reachable dir -> listing dir files ->
    reachable (cli_keys_remove lock write gone files dir target).1.

Record store_ok (dir : Dir) : Prop := {
  s_size : N.of_nat (size dir) <= CAPACITY;
  s_file : forall i f, dir !! i = Some f -> len f <= MAX_RECORD /\
    exists c, parsed f = Some c /\ id c = i /\ i = id_of (vendor_env c) (key c) /\ accepts (vendor_env c) (key c) = true;
}.

Lemma store_readable dir : store_ok dir -> readable dir.
Proof. intros [H1 H2]. split; [done|]. intros i f Hf. destruct (H2 i f Hf) as (? & c & ? & _). eauto. Qed.
Lemma store_in_place dir : store_ok dir -> in_place dir.
Proof. intros [H1 H2] i f c Hf Hc. destruct (H2 i f Hf) as (_ & c' & Hc' & ? & _). by simplify_eq. Qed.

Lemma store_insert dir i c : store_ok dir -> (dir !! i = None -> N.of_nat (size dir) < CAPACITY) -> short c -> id c = i ->
  i = id_of (vendor_env c) (key c) -> accepts (vendor_env c) (key c) = true -> store_ok (<[i := written c]> dir).
Proof.
  intros [H1 H2] Hn Hs Hi Hd Ha. split.
  - destruct (dir !! i) eqn:E; [rewrite map_size_insert_Some by eauto; done|rewrite map_size_insert_None by done]. pose proof (Hn eq_refl). lia.
  - intros j f. destruct (decide (j = i)) as [->|Hj]; [rewrite lookup_insert_eq; intros [= <-]|rewrite lookup_insert_ne by done; apply H2].
    cbn. split; [done|]. eexists. by split_and!.
Qed.

Lemma store_shrink dir dir' : store_ok dir -> (forall j, dir' !! j = None \/ dir' !! j = dir !! j) -> store_ok dir'.
Proof.
  intros [H1 H2] Hs. assert (Hsub : dir' ⊆ dir).
  { apply map_subseteq_spec. intros j f Hf. destruct (Hs j) as [E|E]; congruence. }
  split; [pose proof (map_subseteq_size _ _ Hsub); lia|]. intros i f Hf. apply H2. by apply (lookup_weaken _ _ _ _ Hf).
Qed.

Section Digests.
Context (digest_hex : forall s, is_digest (digest s) = true).

Lemma store_digests dir c : store_ok dir -> c ∈ contents dir -> is_digest (id c) = true.
Proof. intros [_ H] (i & f & Hi & Hf)%contents_elem. destruct (H i f Hi) as (_ & c' & Hc' & E & Hd & _). simplify_eq. rewrite Hd. apply digest_hex. Qed.

Lemma removed_digests dir v : store_ok dir -> Forall (fun c => is_digest (id c) = true) (List.filter (fun c => (vendor_env c =? v)%string) (records_of dir)).
Proof. intros H. apply Forall_forall. intros c [Hc _]%list_elem_of_In%filter_In. apply (store_digests dir); [done|]. by apply records_elem, list_elem_of_In. Qed.

Lemma remove_vendor_lookup lock gone dir files v : store_ok dir -> listing dir files ->
  (remove_vendor lock gone files dir v).2 = (if lock then None else Some LockUnavailable) /\
  forall j, (remove_vendor lock gone files dir v).1 !! j =
    if decide (lock = true /\ gone j = true /\ j ∈ id <$> List.filter (fun c => (vendor_env c =? v)%string) (records_of dir)) then None else dir !! j.
Proof.
  intros Hs Hl. unfold remove_vendor. destruct lock; cbn [negb]; [|split; [done|]; intros j; by rewrite decide_False by naive_solver].
  rewrite (listed_records dir) by (done || by apply store_readable || by apply store_in_place).
  destruct (remove_each_lookup gone _ dir (removed_digests dir v Hs)) as [H1 H2]. split; [done|]. intros j. rewrite H2. apply decide_ext. naive_solver.
Qed.

Lemma remove_shrinks lock write gone files dir target : store_ok dir -> listing dir files ->
  forall j, (cli_keys_remove lock write gone files dir target).1 !! j = None \/ (cli_keys_remove lock write gone files dir target).1 !! j = dir !! j.
Proof.
  intros Hs Hl j. unfold cli_keys_remove. destruct (is_digest target) eqn:Ed.
  - unfold remove_by_id. rewrite Ed. cbn [negb]. destruct lock; [|by right]. cbn [negb]. destruct (dir !! target); [|by right].
    destruct write; [|by right]. cbn. destruct (decide (j = target)) as [->|]; [left; apply lookup_delete_eq|right; by apply lookup_delete_ne].
  - destruct (remove_vendor_lookup lock gone dir files target Hs Hl) as [_ ->]. case_decide; [by left|by right].
Qed.

Lemma reachable_ok dir : reachable dir -> store_ok dir.
Proof.
  induction 1 as [|dir lock read write v k cap lab dir' i _ IH Hs Hf|dir lock read write i x dir' y _ IH Hs Hf|dir lock write gone files target _ IH Hl].
  - split; [by rewrite map_size_empty|]. intros i f. by rewrite lookup_empty.
  - apply save_ok in Hs as (Ha & Hi & Hn & ->). by apply store_insert.
  - apply spend_ok in Hs as (f & c & Hi & Hc & Hy & ->). destruct (s_file _ IH i f Hi) as (_ & c' & Hc' & E & Hd & Ha). simplify_eq.
    apply store_insert; try done; [intros E; congruence|by apply (Hf f)].
  - apply (store_shrink dir); [done|]. by apply remove_shrinks.
Qed.

Lemma contents_insert dir i c c' : in_place dir -> c' ∈ contents (<[i := written c]> dir) <->
  parsed (written c) = Some c' \/ (c' ∈ contents dir /\ id c' <> i).
Proof.
  intros Hin. rewrite !contents_elem. split.
  - intros (j & f & Hj & Hf). apply lookup_insert_Some in Hj as [[<- <-]|[Hn Hj]]; [by left|right].
    split; [by exists j, f|]. by rewrite (Hin _ _ _ Hj Hf).
  - intros [Hc|[(j & f & Hj & Hf) Hn]]; [exists i, (written c); by rewrite lookup_insert_eq|].
    exists j, f. rewrite lookup_insert_ne; [done|]. by rewrite <- (Hin _ _ _ Hj Hf).
Qed.

Lemma records_NoDup dir : in_place dir -> NoDup (records_of dir).
Proof. intros H. unfold records_of. rewrite merge_sort_Permutation. by apply contents_NoDup. Qed.
Lemma records_sorted dir : StronglySorted id_le (records_of dir).
Proof. apply (StronglySorted_merge_sort _). Qed.

Lemma filter_twice {A} (p q : A -> bool) l : List.filter p (List.filter q l) = List.filter (fun x => q x && p x) l.
Proof. induction l as [|a l IH]; [done|]. cbn. destruct (q a); cbn; [destruct (p a)|]; by rewrite IH. Qed.

(** Two selections of the same records are the same listing. *)
Lemma selections_agree dir dir' (p q : Credential -> bool) : in_place dir -> in_place dir' ->
  (forall c, c ∈ contents dir /\ p c = true <-> c ∈ contents dir' /\ q c = true) ->
  List.filter p (records_of dir) = List.filter q (records_of dir').
Proof.
  intros H H' Heq. apply (sorted_records_unique dir); [done| | |apply sorted_list_filter, records_sorted..].
  - apply NoDup_Permutation; [apply NoDup_list_filter, records_NoDup; done..|]. intros c.
    rewrite !list_elem_of_In, !filter_In, <- !list_elem_of_In, !records_elem. apply Heq.
  - intros c [Hc _]%list_elem_of_In%filter_In. by apply records_elem, list_elem_of_In.
Qed.

(** C21. What a save does to the listings, in whatever order the system lists the directory:
    the record of the key replaces the one of the same vendor and key, or is added, and no
    other record of any vendor changes. This is for a directory the calls made from an empty
    one with records that fit ([reachable]), when the saved record fits the 16 KiB a listing
    reads, whatever its spend ([short]; a longer label blocks the inventory,
    [long_label_blocks_the_inventory]), and no record of another vendor or key has its
    digest. *)
Theorem saved_key_is_listed lock read write dir v k cap lab dir' i files files' : reachable dir ->
  (forall c, c ∈ contents dir -> id c = id_of v k -> vendor_env c = v /\ key c = k) ->
  (forall s, short (mkCredential i v k cap s lab (Some false))) ->
  save_with_options lock read write dir v k cap lab = Ok (dir', i) -> listing dir files -> listing dir' files' ->
  (exists c l l', id c = i /\ vendor_env c = v /\ key c = k /\ max_budget_usd c = cap ≫= reread /\
     listed files v = Ok l /\ listed files' v = Ok l' /\ l' ≡ₚ c :: List.filter (fun c => negb (key c =? k)%string) l) /\
  forall v', v' <> v -> listed files' v' = listed files v'.
Proof.
  intros Hr Hcol Hs Hsave Hl Hl'. pose proof (reachable_ok _ Hr) as Hd. pose proof (reachable_ok _ (r_save _ _ _ _ _ _ _ _ _ _ Hr Hsave Hs)) as Hd'.
  pose proof (store_in_place _ Hd) as Hp. pose proof (store_in_place _ Hd') as Hp'.
  pose proof (listed_records dir files) as Hlist. pose proof (listed_records dir' files') as Hlist'.
  apply save_ok in Hsave as (_ & Hi & _ & Hdir). set (c0 := mkCredential _ _ _ _ _ _ _) in Hdir.
  set (c1 := mkCredential i v k (cap ≫= reread) (current_spend_usd c0 ≫= reread) lab (Some false)).
  assert (Hw : parsed (written c0) = Some c1) by done.
  assert (Hold : forall c, c ∈ contents dir -> id c = i -> vendor_env c = v /\ key c = k) by (intros c Hc E; apply Hcol; congruence).
  assert (Hnamed : forall c, c ∈ contents dir -> vendor_env c = v -> key c = k -> id c = i).
  { intros c (j & f & Hj & Hf)%contents_elem E1 E2. destruct (s_file _ Hd j f Hj) as (_ & c' & Hc' & E & Hj' & _). simplify_eq. congruence. }
  split.
  - exists c1. do 2 eexists. split_and!; [done..|apply Hlist; by (done || apply store_readable)|apply Hlist'; by (done || apply store_readable)|].
    apply NoDup_Permutation; [apply NoDup_list_filter, records_NoDup; done| |].
    + constructor; [|apply NoDup_list_filter, NoDup_list_filter, records_NoDup; done].
      intros [_ H]%list_elem_of_In%filter_In. cbn in H. by rewrite String.eqb_refl in H.
    + intros c. rewrite elem_of_cons, !list_elem_of_In, !filter_In, <- !list_elem_of_In, !records_elem, Hdir, (contents_insert dir _ _ _ Hp), Hw.
      rewrite negb_true_iff, String.eqb_neq, String.eqb_eq. split.
      * intros [[[= ->]|[Hc Hn]] Hv]; [by left|right]. split; [by split|]. intros Hk. by apply Hn, Hnamed.
      * intros [->|[[Hc Hv] Hk]]; [by split; [left|]|]. split; [|done]. right. split; [done|]. intros E. by destruct (Hold c Hc E).
  - intros v' Hv'. rewrite Hlist, Hlist' by (done || by apply store_readable). f_equal. symmetry. apply selections_agree; [done..|].
    intros c. rewrite Hdir, (contents_insert dir _ _ _ Hp), Hw, String.eqb_eq. split.
    + intros [Hc Hv]. split; [right; split; [done|]|done]. intros E. destruct (Hold c Hc E). congruence.
    + intros [[[= <-]|[Hc _]] Hv]; [exfalso; apply Hv'; by rewrite <- Hv|done].
Qed.

(** Removing a vendor removes its records and no other, whatever the listing order, and a
    file that cannot be removed is left as it is. *)
Theorem remove_vendor_is_exact gone dir files v dir' files' : reachable dir -> listing dir files ->
  dir' = (remove_vendor true gone files dir v).1 -> listing dir' files' ->
  (remove_vendor true gone files dir v).2 = None /\
  (exists l, listed files v = Ok l /\ listed files' v = Ok (List.filter (fun c => negb (gone (id c))) l)) /\
  forall v', v' <> v -> listed files' v' = listed files v'.
Proof.
  intros Hr Hl Hdir Hl'. pose proof (reachable_ok _ Hr) as Hd. destruct (remove_vendor_lookup true gone dir files v Hd Hl) as [He Hlook].
  rewrite <- Hdir in Hlook.
  assert (Hd' : store_ok dir') by (apply (store_shrink dir); [done|]; intros j; rewrite Hlook; destruct (decide _); [by left|by right]).
  pose proof (store_in_place _ Hd) as Hp. pose proof (store_in_place _ Hd') as Hp'.
  assert (Hin : forall c, c ∈ contents dir' <-> c ∈ contents dir /\ ~ (vendor_env c = v /\ gone (id c) = true)).
  { intros c. rewrite !contents_elem. split.
    - intros (j & f & Hj & Hf). rewrite Hlook in Hj. destruct (decide _) as [|Hn] in Hj; [done|]. split; [by exists j, f|]. intros [Hv Hg]. apply Hn.
      rewrite <- (Hp _ _ _ Hj Hf). split_and!; [done..|]. apply list_elem_of_fmap_2, list_elem_of_In, filter_In.
      rewrite String.eqb_eq. split; [|done]. apply list_elem_of_In, records_elem, contents_elem. by exists j, f.
    - intros [(j & f & Hj & Hf) Hn]. exists j, f. rewrite Hlook, decide_False; [done|]. intros (_ & Hg & Hc). apply Hn.
      apply list_elem_of_fmap in Hc as (c' & -> & [Hc' Hv]%list_elem_of_In%filter_In).
      apply list_elem_of_In, records_elem, contents_elem in Hc' as (j' & f' & Hj' & Hf'). pose proof (Hp _ _ _ Hj' Hf').
      simplify_eq. split; [by apply String.eqb_eq|]. pose proof (Hp _ _ _ Hj Hf). congruence. }
  split; [done|]. split.
  - exists (List.filter (fun c => (vendor_env c =? v)%string) (records_of dir)). rewrite (listed_records dir files), (listed_records dir' files') by (done || by apply store_readable).
    split; [done|]. f_equal. rewrite filter_twice. apply selections_agree; [done..|]. intros c. rewrite Hin, andb_true_iff, negb_true_iff, String.eqb_eq.
    destruct (gone (id c)); naive_solver.
  - intros v' Hv'. rewrite (listed_records dir files), (listed_records dir' files') by (done || by apply store_readable). f_equal.
    apply selections_agree; [done..|]. intros c. rewrite Hin, String.eqb_eq. naive_solver.
Qed.
End Digests.

Lemma omap_at_most {A B} (f : A -> option B) l : (length (omap f l) <= length l)%nat.
Proof. induction l as [|a l IH]; cbn; [done|]. destruct (f a); cbn; lia. Qed.

(** However the store came about, its listing succeeds in any order of the directory and
    gives each record once, by identifier, with the digest of its vendor and key. *)
Theorem inventory_is_always_listable dir files : (forall s, is_digest (digest s) = true) -> reachable dir -> listing dir files ->
  exists l, list_all files = Ok l /\ N.of_nat (length l) <= CAPACITY /\ StronglySorted id_le l /\ NoDup (id <$> l) /\
    (forall c, c ∈ l <-> exists f, dir !! id c = Some f /\ parsed f = Some c) /\
    Forall (fun c => id c = id_of (vendor_env c) (key c) /\ accepts (vendor_env c) (key c) = true) l.
Proof.
  intros Hdig Hr Hl. pose proof (reachable_ok Hdig _ Hr) as Hd. pose proof (store_in_place _ Hd) as Hp. exists (records_of dir).
  assert (Hel : forall c, c ∈ records_of dir <-> exists f, dir !! id c = Some f /\ parsed f = Some c).
  { intros c. rewrite records_elem, contents_elem. split; [intros (i & f & Hi & Hf); exists f; by rewrite (Hp _ _ _ Hi Hf)|intros (f & Hf); by exists (id c), f]. }
  split_and!; [by apply list_all_records; [|apply store_readable|]| |apply records_sorted| |done|].
  - destruct (listing_fit dir files Hl (store_readable _ Hd)) as [Hn _]. unfold records_of, contents. rewrite merge_sort_Permutation.
    pose proof (omap_at_most (fun p => parsed p.2) (map_to_list dir)). rewrite (Permutation_length Hl) in Hn. lia.
  - apply NoDup_fmap_2_strong; [|by apply records_NoDup]. intros a b Ha%Hel Hb%Hel E. destruct Ha as (f & Hf & ?), Hb as (g & Hg & ?).
    rewrite E in Hf. by simplify_eq.
  - apply Forall_forall. intros c (f & Hf & Hc)%Hel. destruct (s_file _ Hd _ _ Hf) as (_ & c' & Hc' & _ & Hi & Ha). by simplify_eq.
Qed.

(** Spend is added to the record of one key, and what is kept is what the figure reads back as. *)
Theorem spend_is_added_to_one_key lock read write dir i x dir' y : record_spend lock read write dir i x = Ok (dir', y) ->
  y = SFadd 53 1024 (default (S754_zero false) (spend_of dir i)) x /\ spend_of dir' i = reread y /\
  cap_of dir' i = cap_of dir i ≫= reread /\ forall j, j <> i -> dir' !! j = dir !! j.
Proof.
  intros (f & c & Hi & Hc & Hy & ->)%spend_ok. unfold spend_of, cap_of. rewrite lookup_insert_eq, Hi. cbn. rewrite Hc. cbn.
  split_and!; [done..|]. intros j Hj. by apply lookup_insert_ne.
Qed.

(** ** What the store loses *)

(** Saving a key again, as a registration does, drops the cap and the label it was given. *)
Lemma saving_again_drops_the_cap dir v k dir' i : save true true true dir v k = Ok (dir', i) ->
  cap_of dir' i = None /\ exists c, dir' !! i ≫= parsed = Some c /\ label c = None /\ is_budget_exceeded c = false.
Proof.
  unfold save. intros (_ & -> & _ & ->)%save_ok. unfold cap_of. rewrite lookup_insert_eq. cbn.
  split; [done|]. by eexists.
Qed.

(** An amount that is not a number passes the guard; it is written as null, and the spend
    starts from nothing again. *)
Lemma nan_erases_the_spend dir i f c : reread S754_nan = None -> dir !! i = Some f -> parsed f = Some c ->
  exists dir', record_spend true true true dir i S754_nan = Ok (dir', S754_nan) /\ spend_of dir' i = None.
Proof.
  intros Hn Hi Hc. unfold record_spend. cbn. rewrite Hi. cbn. rewrite Hc.
  assert (Ha : SFadd 53 1024 (default (S754_zero false) (current_spend_usd c)) S754_nan = S754_nan)
    by (by destruct (default _ _)).
  rewrite Ha. eexists. split; [done|]. unfold spend_of. rewrite lookup_insert_eq. cbn. by rewrite Hn.
Qed.

(** A label has no bound of its own.  One longer than a listing reads is stored, and then no
    vendor can be listed and no vendor's keys can be removed. *)
Lemma long_label_blocks_the_inventory dir v k lab dir' i :
  (forall c l, label c = Some l -> N.of_nat (String.length l) <= file_len c) ->
  save_with_options true true true dir v k None (Some lab) = Ok (dir', i) -> MAX_RECORD < N.of_nat (String.length lab) ->
  forall files, listing dir' files -> is_ok (list_all files) = false /\
    forall gone v', (remove_vendor true gone files dir' v').1 = dir' /\ is_Some (remove_vendor true gone files dir' v').2.
Proof.
  intros Hlen (_ & -> & _ & ->)%save_ok Hlab files Hl. set (c0 := mkCredential _ _ _ _ _ _ _) in *.
  assert (Hbig : MAX_RECORD < file_len c0) by (pose proof (Hlen c0 lab eq_refl); lia).
  assert (Hin : (id_of v k, written c0) ∈ files) by (rewrite Hl; apply elem_of_map_to_list, lookup_insert_eq).
  assert (Herr : forall acc, is_ok (read_all files acc) = false).
  { clear Hl. induction files as [|[j f] files IH]; intros acc; [by apply not_elem_of_nil in Hin|]. cbn.
    apply elem_of_cons in Hin as [[= <- <-]|Hin].
    - cbn. replace (MAX_RECORD <? file_len c0) with true by (symmetry; by apply N.ltb_lt). by rewrite orb_true_r.
    - destruct (_ || _); [done|]. destruct (parsed f); [by apply IH|done]. }
  pose proof (Herr []) as H. unfold list_all. destruct (read_all files []) eqn:E; [done|]. split; [done|].
  intros gone v'. unfold remove_vendor, listed, list_all. rewrite E. cbn. by split.
Qed.
End Store.

(** Key material of bytes above ASCII can be cut in the middle of a character, which panics;
    the preview is also what [Debug] prints. *)
Definition accented : Credential :=
  mkCredential "" "OPENAI_API_KEY" ("abc" +:+ string_of_bytes [195; 169]%nat +:+ "defgh") None None None None.
Lemma preview_panics : accepts (vendor_env accented) (key accented) = true /\ mask_key accented = None.
Proof. by vm_compute. Qed.
Example preview : mask_key (mkCredential "" "A" "sk-ant-456789" None None None None) = Some "sk-a...6789".
Proof. reflexivity. Qed.

(** ** A store of three keys *)

Definition ones : string := "1111111111111111111111111111111111111111111111111111111111111111".
Definition twos : string := "2222222222222222222222222222222222222222222222222222222222222222".
Definition threes : string := "3333333333333333333333333333333333333333333333333333333333333333".
Definition toy_digest (s : string) : string :=
  if contains "one" s then ones else if contains "two" s then twos else threes.
Lemma toy_digest_hex s : is_digest (toy_digest s) = true.
Proof. unfold toy_digest. by repeat destruct (contains _ _). Qed.
Definition toy_len (c : Credential) : N := 200 + N.of_nat (String.length (key c)).
Definition toy_reread (x : spec_float) : option spec_float :=
  match x with S754_zero _ | S754_finite _ _ _ => Some x | _ => None end.

Definition saved (dir : gmap string File) (v k : string) : gmap string File :=
  match save toy_digest toy_len toy_reread true true true dir v k with Ok (d, _) => d | Err _ => dir end.
Definition two_keys : gmap string File := saved (saved ∅ "OPENAI_API_KEY" "key-one") "GROQ_API_KEY" "key-two".
Definition three_keys : gmap string File := saved two_keys "OPENAI_API_KEY" "key-three".

Lemma two_keys_reachable : reachable toy_digest toy_len toy_reread two_keys.
Proof.
  eapply (r_save _ _ _ (saved ∅ "OPENAI_API_KEY" "key-one") true true true "GROQ_API_KEY" "key-two" None None _ twos);
    [eapply (r_save _ _ _ ∅ true true true "OPENAI_API_KEY" "key-one" None None _ ones); [apply r_empty|reflexivity|by intros s]|reflexivity|by intros s].
Qed.

Lemma inventory_is_always_listable_witness : exists l, list_all (map_to_list two_keys) = Ok l /\ length l = 2%nat.
Proof.
  destruct (inventory_is_always_listable toy_digest toy_len toy_reread two_keys (map_to_list two_keys) toy_digest_hex two_keys_reachable
    (Permutation_refl _)) as (l & Hl & _).
  exists l. split; [done|]. vm_compute in Hl. by injection Hl as <-.
Defined.

Lemma saved_key_is_listed_witness :
  (exists c l l', vendor_env c = "OPENAI_API_KEY" /\ key c = "key-three" /\ listed (map_to_list two_keys) "OPENAI_API_KEY" = Ok l /\
     listed (map_to_list three_keys) "OPENAI_API_KEY" = Ok l' /\ l' ≡ₚ c :: List.filter (fun c => negb (key c =? "key-three")%string) l) /\
  listed (map_to_list three_keys) "GROQ_API_KEY" = listed (map_to_list two_keys) "GROQ_API_KEY".
Proof.
  destruct (saved_key_is_listed toy_digest toy_len toy_reread toy_digest_hex true true true two_keys "OPENAI_API_KEY" "key-three"
    None None three_keys threes (map_to_list two_keys) (map_to_list three_keys)) as [(c & l & l' & _ & H1 & H2 & _ & H3) H4].
  - apply two_keys_reachable.
  - intros c Hc E. exfalso. unfold contents in Hc. vm_compute in Hc. apply list_elem_of_In in Hc. cbn in Hc.
    destruct Hc as [<-|[<-|[]]]; vm_compute in E; discriminate.
  - by intros s.
  - reflexivity.
  - apply Permutation_refl.
  - apply Permutation_refl.
  - split; [by exists c, l, l'|by apply H4].
Defined.

Lemma remove_vendor_is_exact_witness :
  let dir' := (remove_vendor true (fun _ => true) (map_to_list three_keys) three_keys "OPENAI_API_KEY").1 in
  listed (map_to_list dir') "OPENAI_API_KEY" = Ok [] /\ listed (map_to_list dir') "GROQ_API_KEY" = listed (map_to_list three_keys) "GROQ_API_KEY".
Proof.
  intros dir'. assert (Hr : reachable toy_digest toy_len toy_reread three_keys).
  { eapply (r_save _ _ _ two_keys true true true "OPENAI_API_KEY" "key-three" None None _ threes); [apply two_keys_reachable|reflexivity|by intros s]. }
  destruct (remove_vendor_is_exact toy_digest toy_len toy_reread toy_digest_hex (fun _ => true) three_keys (map_to_list three_keys)
    "OPENAI_API_KEY" dir' (map_to_list dir') Hr (Permutation_refl _) eq_refl (Permutation_refl _)) as (_ & (l & _ & H) & H').
  split; [|by apply H']. rewrite H. f_equal. clear. by induction l.
Defined.
