(* ===== verification/KeyFile.v ===== *)
(** * KeyFile: the file of cloud API keys and what writes it
    ([crates/susi-config/src/cloud_env.rs], [key_rotation.rs],
    [crates/susi-vendor-models/src/cloud.rs], [upsert_cloud_budget_env] of
    [crates/susi-daemon/src/provider_ops.rs])

    [cloud.env] is read as text; a file that is not UTF-8 reads as none.  The host is that file
    with its mode, the staging file of a rotation, the ages, the quarantine flags by vendor, and
    the credential store of [CloudCredentials].  How each file operation went is an argument.
    The vendors are the catalogue of the active pack.  [join("\n")] with the line end after it
    is the lines each followed by one.  Only Unix modes are modelled. *)

From stdpp Require Import pretty.
From Stdlib Require Import Ascii.
From S2P Require Import Prelude Text CloudCredentials.

Local Open Scope string_scope.
Local Open Scope list_scope.
Local Open Scope N_scope.
Local Open Scope susi_scope.

(** ** Reading *)

(** [str::lines]. *)
Fixpoint split_inclusive (s : string) : list string :=
  match s with
  | EmptyString => []
  | String c s' =>
      if Ascii.eqb c LF then String LF EmptyString :: split_inclusive s'
      else match split_inclusive s' with
           | [] => [String c EmptyString]
           | p :: rest => String c p :: rest
           end
  end.
Definition line_body (p : string) : string :=
  match strip_suffix (String LF EmptyString) p with
  | None => p
  | Some l => default l (strip_suffix (String CR EmptyString) l)
  end.
Definition lines (s : string) : list string := line_body <$> split_inclusive s.

Fixpoint split_once (c : ascii) (s : string) : option (string * string) :=
  match s with
  | EmptyString => None
  | String a s' => if Ascii.eqb a c then Some (EmptyString, s') else (fun '(x, y) => (String a x, y)) <$> split_once c s'
  end.
Definition has_white_space (s : string) : bool := existsb (fun w => contains w s) white_space.
Definition QUOTE : ascii := "'"%char.
Definition DQUOTE : ascii := ascii_of_nat 34.
Definition HASH : ascii := "#"%char.
Definition EXPORT : string := "export ".

Definition parse_env_value (raw : string) : option string :=
  match trim raw with
  | EmptyString => None
  | String q rest =>
      let value := if Ascii.eqb q QUOTE || Ascii.eqb q DQUOTE then strip_suffix (String q EmptyString) rest
                   else Some (String q rest) in
      match value with Some EmptyString => None | v => v end
  end.

(** The name a line sets, as the writers find it. *)
Definition unexported (s : string) : string := default s (strip_prefix EXPORT s).
Definition setting_name (raw : string) : option string :=
  (fun '(k, _) => trim k) <$> split_once equals (unexported (trim raw)).

(** The body of the loop of [parse_env_file]. *)
Definition read_setting (raw : string) : option (string * string) :=
  let line := trim raw in
  if (line =? "")%string || starts_with (String HASH EmptyString) line then None
  else match split_once equals (trim (unexported line)) with
       | None => None
       | Some (k, v) =>
           let k := trim k in
           if (k =? "")%string || has_white_space k then None else (fun v => (k, v)) <$> parse_env_value v
       end.
Definition parse_env_file (content : string) : list (string * string) := omap read_setting (lines content).

(** ** The host *)

Record EnvFile : Type := mkEnv {
  text : option string;
  mode : N;
}.
(** [KeyAges]; [None] inside is a file that is unreadable or corrupt. *)
Definition AgesFile : Type := option (option (gmap string N)).
Record Host : Type := mkHost {
  env : option EnvFile;
  staging : option EnvFile;
  ages : AgesFile;
  flags : gset string;
  creds : gmap string File;
}.
Definition read_env (h : Host) : string := default "" (env h ≫= text).
Definition entries (h : Host) : list (string * string) := parse_env_file (read_env h).
Definition OWNER_ONLY : N := 6 * 64.
Definition ANYONE : N := 6 * 64 + 6 * 8 + 6.

Definition with_env (h : Host) (body : string) : Host :=
  mkHost (Some (mkEnv (Some body) OWNER_ONLY)) (staging h) (ages h) (flags h) (creds h).
Definition with_creds (h : Host) (c : gmap string File) : Host := mkHost (env h) (staging h) (ages h) (flags h) c.

(** [lines.join("\n") + "\n"], of at least one line. *)
Fixpoint unlines (ls : list string) : string :=
  match ls with [] => EmptyString | l :: rest => l +:+ String LF (unlines rest) end.

(** The writers look for a name with an equality of their own, and put [line] for each. *)
Definition sets (same : string -> string -> bool) (name raw : string) : bool :=
  match setting_name raw with Some k => same k name | None => false end.
Definition replaced (same : string -> string -> bool) (name line : string) (ls : list string) : list string :=
  (fun raw => if sets same name raw then line else raw) <$> ls.

(** ** Ages *)

Definition DEFAULT_MAX_AGE_DAYS : N := 90.
Definition load_ages (a : AgesFile) : option (gmap string N) := match a with None => Some ∅ | Some m => m end.
Definition stamp (m : gmap string N) (key : string) (now : N) : gmap string N := <[key := now]> m.
Definition age_days (m : gmap string N) (key : string) (now : N) : option N := (fun set => (now - set) / 86400) <$> m !! key.

Record KeyStatus : Type := mkStatus {
  ks_key : string;
  set_unix : option N;
  ks_age_days : option N;
  needs_rotation : bool;
}.
Definition key_statuses (env_text : string) (m : gmap string N) (now max_age_days : N) : list KeyStatus :=
  (fun '(k, _) =>
     let age := age_days m k now in
     mkStatus k (m !! k) age (match age with Some d => max_age_days <? d | None => false end)) <$> parse_env_file env_text.
Definition format_status (s : KeyStatus) : string :=
  ks_key s +:+ "  set " +:+ match ks_age_days s with Some d => pretty d | None => "?" end +:+ "d ago"
  +:+ (if needs_rotation s then "  <- ROTATE (key older than policy)" else "") +:+ String LF EmptyString.
Definition format_keys_list (l : list KeyStatus) : string := foldr (fun s out => format_status s +:+ out) "" l.

(** ** Rotation *)

Inductive KeyError : Type :=
| NotSet
| IoError
| CorruptAges
| EmptyKey
| ControlCharacters
| UnclosedQuote
| EmptyVendor
| InvalidName
| NotRegistered
| Store (e : StoreError).

(** How the file operations of a rotation go: [Some torn] is a write that fails and leaves
    [torn] behind. *)
Record Outcome : Type := mkOutcome {
  staged : option (option EnvFile);
  renamed : bool;
  ages_saved : option AgesFile;
  flag_removed : bool;
}.
Definition all_well : Outcome := mkOutcome None true None true.
(** [fs::write]: a file that exists keeps its mode. *)
Definition plain_write (umask : N) (old : option EnvFile) (body : string) : EnvFile :=
  mkEnv (Some body) (match old with Some f => mode f | None => N.ldiff ANYONE umask end).

Definition rotate_key (o : Outcome) (umask : N) (key vendor new_value : string) (now : N) (h : Host) : Host * option KeyError :=
  let ls := lines (read_env h) in
  if negb (existsb (sets String.eqb key) ls) then (h, Some NotSet)
  else
    let body := unlines (replaced String.eqb key (key +:+ "=" +:+ new_value) ls) in
    match staged o with
    | Some torn => (mkHost (env h) torn (ages h) (flags h) (creds h), Some IoError)
    | None =>
        let tmp := plain_write umask (staging h) body in
        if negb (renamed o) then (mkHost (env h) (Some tmp) (ages h) (flags h) (creds h), Some IoError)
        else
          let h1 := mkHost (Some tmp) None (ages h) (flags h) (creds h) in
          match load_ages (ages h) with
          | None => (h1, Some CorruptAges)
          | Some m =>
              match ages_saved o with
              | Some torn => (mkHost (env h1) None torn (flags h) (creds h), Some IoError)
              | None =>
                  let h2 := mkHost (env h1) None (Some (Some (stamp m key now))) (flags h) (creds h) in
                  if negb (bool_decide (vendor ∈ flags h)) then (h2, None)
                  else if flag_removed o then (mkHost (env h2) None (ages h2) (flags h ∖ {[vendor]}) (creds h), None)
                  else (h2, Some IoError)
              end
          end
    end.

(** ** Registration *)

Definition upper (c : ascii) : ascii := if is_lower c then ascii_of_nat (nat_of_ascii c - 32) else c.
Definition to_ascii_uppercase : string -> string := map_string upper.
Definition eq_ignore_ascii_case (a b : string) : bool := (to_ascii_lowercase a =? to_ascii_lowercase b)%string.

Record CloudVendorEntry : Type := mkVendor {
  v_id : string;
  aliases : list string;
  api_key_env : string;
  api_key_env_alts : list string;
}.
Definition vendor_in (vendors : list CloudVendorEntry) (needle : string) : option CloudVendorEntry :=
  List.find (fun v => eq_ignore_ascii_case (v_id v) needle || existsb (fun a => eq_ignore_ascii_case a needle) (aliases v)) vendors.

(** One character of the result for each character of the name: the bytes that continue one
    give none. *)
Fixpoint screaming (s : string) : string :=
  match s with
  | EmptyString => EmptyString
  | String c s' =>
      if is_ascii_alphanumeric c then String (upper c) (screaming s')
      else if (128 <=? nat_of_ascii c)%nat && (nat_of_ascii c <=? 191)%nat then screaming s'
      else String "_" (screaming s')
  end.
(** [trim_matches('_')] and [replace("__", "_")]. *)
Definition trim_underscores (s : string) : string :=
  let front x := strip_all (String.length x) ["_"] x in rev_string (front (rev_string (front s))).
Fixpoint squeeze (s : string) : string :=
  match s with
  | String "_" (String "_" s') => String "_" (squeeze s')
  | String c s' => String c (squeeze s')
  | EmptyString => EmptyString
  end.
Definition generic_vendor_api_key_env (vendor : string) : string :=
  squeeze (trim_underscores (screaming vendor)) +:+ "_API_KEY".

Definition ends_with (p s : string) : bool := match strip_suffix p s with Some _ => true | None => false end.
Definition resolve_vendor_env_name (vendors : list CloudVendorEntry) (vendor : string) : option string :=
  let trimmed := trim vendor in
  if (trimmed =? "")%string then None
  else
    let up := map_string (fun c => if Ascii.eqb c "-" then "_"%char else c) (to_ascii_uppercase trimmed) in
    if existsb (fun p => ends_with p up) ["_API_KEY"; "_KEY"; "_ID"; "_TOKEN"] then Some up
    else match vendor_in vendors trimmed with
         | Some e => Some (api_key_env e)
         | None => Some (generic_vendor_api_key_env trimmed)
         end.

(** [upsert_cloud_env_key], and [upsert_cloud_budget_env] for the name [SUSI_BUDGET]. *)
Definition upsert (name value : string) (h : Host) : Host :=
  let line := name +:+ "=" +:+ value in
  let ls := lines (read_env h) in
  with_env h (unlines (replaced eq_ignore_ascii_case name line ls
                       ++ if existsb (sets eq_ignore_ascii_case name) ls then [] else [line])).

Section Registration.
Context (digest : string -> string) (file_len : Credential -> N) (reread : SpecFloat.spec_float -> option SpecFloat.spec_float)
  (vendors : list CloudVendorEntry).

(** How each save of a credential goes: the lock, the reads, the write. *)
Definition save_credential (io : bool * bool * bool) (c : gmap string File) (name key : string) : result (gmap string File) KeyError :=
  let '(lock, read, write) := io in
  match save digest file_len reread lock read write c name key with Ok (c', _) => Ok c' | Err e => Err (Store e) end.
(** The loop over the values the file had for the name; a save that fails ends the call. *)
Fixpoint save_previous (ios : nat -> bool * bool * bool) (name : string) (l : list (string * string)) (c : gmap string File) :
    gmap string File * option KeyError :=
  match l with
  | [] => (c, None)
  | (k, previous) :: rest =>
      if ((k =? name) && negb (previous =? ""))%string then
        match save_credential (ios (List.length rest)) c name previous with
        | Ok c' => save_previous ios name rest c'
        | Err e => (c, Some e)
        end
      else save_previous ios name rest c
  end.

(** [register_api_key]; [wrote] is whether the directories were made and the file written. *)
Definition register_api_key (ios : nat -> bool * bool * bool) (wrote : bool) (last : bool * bool * bool) (vendor api_key : string)
    (h : Host) : Host * result string KeyError :=
  let key := trim api_key in
  if (key =? "")%string then (h, Err EmptyKey)
  else if has_control key then (h, Err ControlCharacters)
  else match parse_env_value key with
  | None => (h, Err UnclosedQuote)
  | Some decoded_key =>
      match resolve_vendor_env_name vendors vendor with
      | None => (h, Err EmptyVendor)
      | Some name =>
          if negb (all_chars name_char name) then (h, Err InvalidName)
          else
            match save_previous ios name (entries h) (creds h) with
            | (c, Some e) => (with_creds h c, Err e)
            | (c, None) =>
                if negb wrote then (with_creds h c, Err IoError)
                else
                  let h1 := upsert name key (with_creds h c) in
                  match save_credential last (creds h1) name decoded_key with
                  | Err e => (h1, Err e)
                  | Ok c' => (with_creds h1 c', Ok name)
                  end
            end
      end
  end.

(** [remove_api_key]; [in_process] says whether the process environment has a value that is not
    empty for a name.  An error of the store is reported after the file was written. *)
Definition remove_api_key (in_process : string -> bool) (wrote lock : bool) (gone : string -> bool)
    (files : list (string * File)) (vendor : string) (h : Host) : Host * result string KeyError :=
  match resolve_vendor_env_name vendors vendor with
  | None => (h, Err EmptyVendor)
  | Some name =>
      let ls := lines (read_env h) in
      if negb (existsb (sets eq_ignore_ascii_case name) ls)
         && negb (in_process name || existsb (fun e => (e.1 =? name)%string) (entries h)) then (h, Err NotRegistered)
      else if negb wrote then (h, Err IoError)
      else
        let h1 := with_env h (unlines (List.filter (fun raw => negb (sets eq_ignore_ascii_case name raw)) ls)) in
        match remove_vendor lock gone files (creds h1) name with
        | (c, Some e) => (with_creds h1 c, Err (Store e))
        | (c, None) => (with_creds h1 c, Ok name)
        end
  end.

Definition list_api_key_status (in_process : string -> bool) (h : Host) : list (string * string * bool) :=
  (fun v => (v_id v, api_key_env v, existsb (fun e => (e.1 =? api_key_env v)%string) (entries h) || in_process (api_key_env v))) <$> vendors.
End Registration.

Example read_example : parse_env_file (unlines ["# c"; " export A='x' "; "B=y'"; "C='z"; "=v"; "D E=1"; "F="]) = [("A", "x"); ("B", "y'")].
Proof. by vm_compute. Qed.
Example vendor_names : (resolve_vendor_env_name [] <$> ["my--vendor"; "devin-org-id"; "-"]) = [Some "MY_VENDOR_API_KEY"; Some "DEVIN_ORG_ID"; Some "_API_KEY"].
Proof. by vm_compute. Qed.

(** ** Lines *)

Definition no_LF (s : string) : Prop := all_chars (not_char LF) s = true.

Lemma strip_suffix_app p s : strip_suffix p (s +:+ p) = Some s.
Proof.
  unfold strip_suffix. rewrite rev_string_app. replace (strip_prefix (rev_string p) (rev_string p +:+ rev_string s)) with (Some (rev_string s)).
  - cbn. by rewrite rev_string_rev.
  - symmetry. by apply strip_prefix_Some.
Qed.

Lemma split_inclusive_line l rest : no_LF l -> split_inclusive (l +:+ String LF rest) = (l +:+ String LF EmptyString) :: split_inclusive rest.
Proof.
  unfold no_LF. induction l as [|c l IH].
  - intros _. change (EmptyString +:+ String LF rest) with (String LF rest). reflexivity.
  - rewrite !append_cons. cbn [split_inclusive all_chars]. unfold not_char at 1. intros [Hc Hl]%andb_true_iff. apply negb_true_iff in Hc.
    by rewrite Hc, IH.
Qed.

Lemma split_inclusive_pieces s : Forall (fun p => exists x, no_LF x /\ (p = x \/ p = x +:+ String LF EmptyString)) (split_inclusive s).
Proof.
  induction s as [|c s IH]; cbn; [constructor|]. destruct (Ascii.eqb c LF) eqn:E.
  - constructor; [|done]. exists EmptyString. split; [done|by right].
  - assert (Hc : forall x, no_LF x -> no_LF (String c x)) by (intros x Hx; unfold no_LF; cbn; unfold not_char at 1; by rewrite E, Hx).
    destruct (split_inclusive s) as [|p rest]; [constructor; [|constructor]; exists (String c EmptyString); split; [by apply Hc|by left]|].
    apply Forall_cons in IH as [(x & Hx & Hp) Hr]. constructor; [|done]. exists (String c x). split; [by apply Hc|].
    destruct Hp as [->| ->]; [by left|by right].
Qed.

Definition without_CR (l : string) : string := default l (strip_suffix (String CR EmptyString) l).
Lemma without_CR_spec l : l = without_CR l \/ l = without_CR l +:+ String CR EmptyString.
Proof. unfold without_CR. destruct (strip_suffix _ l) eqn:E; [right; by apply strip_suffix_Some|by left]. Qed.

Lemma line_body_LF l : line_body (l +:+ String LF EmptyString) = without_CR l.
Proof. unfold line_body. by rewrite strip_suffix_app. Qed.

Lemma line_body_no_LF x : no_LF x -> line_body x = x.
Proof.
  intros Hx. unfold line_body. destruct (strip_suffix _ x) as [l|] eqn:E; [|done]. apply strip_suffix_Some in E as ->.
  unfold no_LF in Hx. rewrite all_chars_app in Hx. by apply andb_true_iff in Hx as [_ ?].
Qed.

Lemma lines_no_LF s : Forall no_LF (lines s).
Proof.
  unfold lines. apply Forall_fmap. eapply Forall_impl; [apply split_inclusive_pieces|]. intros p (x & Hx & [->| ->]); cbn.
  - by rewrite line_body_no_LF.
  - rewrite line_body_LF. destruct (without_CR_spec x) as [E|E]; [by rewrite <- E|]. rewrite E in Hx. unfold no_LF in Hx.
    rewrite all_chars_app in Hx. by apply andb_true_iff in Hx as [? _].
Qed.

Lemma lines_unlines ls : Forall no_LF ls -> lines (unlines ls) = without_CR <$> ls.
Proof.
  unfold lines. induction 1 as [|l ls Hl _ IH]; [done|]. cbn [unlines]. rewrite split_inclusive_line by done. cbn [fmap list_fmap].
  rewrite line_body_LF. by f_equal.
Qed.

Lemma trim_without_CR l : trim (without_CR l) = trim l.
Proof. destruct (without_CR_spec l) as [E|E]; [by rewrite <- E|]. rewrite E at 2. by rewrite trim_CR. Qed.
Lemma read_without_CR l : read_setting (without_CR l) = read_setting l.
Proof. unfold read_setting. by rewrite trim_without_CR. Qed.
Lemma name_without_CR l : setting_name (without_CR l) = setting_name l.
Proof. unfold setting_name. by rewrite trim_without_CR. Qed.

(** What is read back of a file the writers made. *)
Lemma parse_unlines ls : Forall no_LF ls -> parse_env_file (unlines ls) = omap read_setting ls.
Proof.
  intros H. unfold parse_env_file. rewrite lines_unlines by done. clear H. induction ls as [|l ls IH]; [done|].
  cbn [fmap list_fmap omap list_omap] in *. by rewrite read_without_CR, IH.
Qed.

(** ** One line *)

Lemma split_once_Some c s x y : split_once c s = Some (x, y) <-> s = x +:+ String c y /\ all_chars (not_char c) x = true.
Proof.
  revert x y. induction s as [|a s IH]; intros x y; cbn.
  - split; [done|]. intros [H _]. destruct x; by rewrite ?append_cons in H.
  - destruct (Ascii.eqb a c) eqn:E.
    + apply Ascii.eqb_eq in E as ->. split; [by intros [= <- <-]|]. intros [H Hx]. destruct x as [|b x]; [by injection H as ->|].
      rewrite append_cons in H. injection H as <- _. cbn in Hx. unfold not_char at 1 in Hx. by rewrite Ascii.eqb_refl in Hx.
    + destruct (split_once c s) as [[x' y']|] eqn:Es; cbn.
      * destruct (proj1 (IH x' y') eq_refl) as [-> Hx']. split.
        { intros [= <- <-]. split; [done|]. cbn. unfold not_char at 1. by rewrite E. }
        intros [H Hx]. destruct x as [|b x]; [injection H as -> _; by rewrite Ascii.eqb_refl in E|]. rewrite append_cons in H. injection H as <- H.
        cbn in Hx. apply andb_true_iff in Hx as [_ Hx]. assert (Some (x', y') = Some (x, y)) as [= -> ->] by (by apply IH). done.
      * split; [done|]. intros [H Hx]. destruct x as [|b x]; [injection H as -> _; by rewrite Ascii.eqb_refl in E|]. rewrite append_cons in H. injection H as <- H.
        cbn in Hx. apply andb_true_iff in Hx as [_ Hx]. by assert (None = Some (x, y)) by (by apply IH).
Qed.

Lemma split_once_None c s : split_once c s = None -> all_chars (not_char c) s = true.
Proof.
  induction s as [|a s IH]; cbn; [done|]. destruct (Ascii.eqb a c) eqn:E; [done|]. destruct (split_once c s); [done|]. intros _.
  unfold not_char at 1. rewrite E. by apply IH.
Qed.

Lemma split_once_absent c s : all_chars (not_char c) s = true -> split_once c s = None.
Proof.
  intros H. destruct (split_once c s) as [[x y]|] eqn:E; [|done]. apply split_once_Some in E as [-> _].
  rewrite all_chars_app in H. apply andb_true_iff in H as [_ H]. cbn in H. unfold not_char at 1 in H. by rewrite Ascii.eqb_refl in H.
Qed.

(** The writers find the name the reader finds. *)
Lemma read_setting_name raw k v : read_setting raw = Some (k, v) -> setting_name raw = Some k.
Proof.
  unfold read_setting, setting_name. destruct (_ || _); [done|]. set (inner := unexported (trim raw)).
  destruct (split_once equals (trim inner)) as [[k1 v1]|] eqn:E; [|done]. destruct (_ || _); [done|].
  destruct (parse_env_value v1); [|done]. intros [= <- _].
  destruct (split_once equals inner) as [[k2 v2]|] eqn:E2.
  - cbn. f_equal. apply split_once_Some in E2 as [Hin Hk2]. rewrite Hin, trim_equals in E.
    assert (H : split_once equals (trim_start k2 +:+ String equals (trim_end v2)) = Some (trim_start k2, trim_end v2)).
    { apply split_once_Some. split; [done|]. apply stripped_all_chars; auto with susi. }
    rewrite H in E. injection E as <- _. unfold trim. by rewrite trim_start_idem.
  - apply split_once_None, (trim_all_chars _ inner), split_once_absent in E2. by rewrite E2 in E.
Qed.

Lemma name_char_not_space c s : name_char c = true -> strip_any white_space (String c s) = None /\ strip_any rev_white_space (String c s) = None.
Proof. destruct c as [[] [] [] [] [] [] [] []]; intros H; first [done|discriminate H]. Qed.

(** A name the store accepts. *)
Definition proper_name (s : string) : Prop := s <> EmptyString /\ all_chars name_char s = true.

Lemma proper_trim_start s : proper_name s -> trim_start s = s.
Proof.
  intros [Hn Hs]. destruct s as [|c s]; [done|]. cbn in Hs. apply andb_true_iff in Hs as [Hc _].
  rewrite trim_start_stripped. apply stripped_id; [auto with susi|exact (proj1 (name_char_not_space c s Hc))].
Qed.
Lemma proper_trim_end s : proper_name s -> trim_end s = s.
Proof.
  intros [Hn Hs]. rewrite trim_end_stripped, stripped_id; [by rewrite rev_string_rev|auto with susi|].
  rewrite <- (all_chars_rev name_char) in Hs. destruct (rev_string s) as [|c r] eqn:E.
  - exfalso. apply Hn. rewrite <- (rev_string_rev s), E. done.
  - cbn in Hs. apply andb_true_iff in Hs as [Hc _]. exact (proj2 (name_char_not_space c r Hc)).
Qed.
Lemma proper_trim s : proper_name s -> trim s = s.
Proof. intros H. unfold trim. rewrite proper_trim_start by done. by apply proper_trim_end. Qed.

Lemma name_chars_lack c s : name_char c = false -> all_chars name_char s = true -> all_chars (not_char c) s = true.
Proof.
  intros Hc. apply all_chars_impl. intros a Ha. unfold not_char. destruct (Ascii.eqb a c) eqn:E; [|done].
  apply Ascii.eqb_eq in E as ->. congruence.
Qed.

Lemma contains_first a w s : contains (String a w) s = true -> all_chars (not_char a) s = false.
Proof.
  induction s as [|c s IH]; [done|]. cbn [contains all_chars]. intros [H|H]%orb_true_iff.
  - unfold starts_with in H. cbn in H. unfold not_char at 1. rewrite Ascii.eqb_sym. by destruct (Ascii.eqb a c).
  - rewrite (IH H). apply andb_false_r.
Qed.

Lemma proper_no_space s : proper_name s -> has_white_space s = false.
Proof.
  intros [_ Hs]. unfold has_white_space. apply existsb_false. intros w Hw. destruct (contains w s) eqn:E; [|done]. exfalso.
  assert (H : forallb (fun w => match w with String a _ => negb (name_char a) | _ => false end) white_space = true) by by vm_compute.
  rewrite forallb_forall in H. specialize (H w Hw). destruct w as [|a w]; [done|]. apply negb_true_iff in H.
  apply contains_first in E. by rewrite (name_chars_lack a s) in E.
Qed.

Lemma proper_not_exported s t : proper_name s -> strip_prefix EXPORT (s +:+ String equals t) = None.
Proof.
  intros [_ Hs]. rewrite strip_prefix_before by (by right). destruct (strip_prefix EXPORT s) as [r|] eqn:E; [|done]. exfalso.
  apply strip_prefix_Some in E as ->. by rewrite all_chars_app in Hs.
Qed.

Lemma setting_line name value d : proper_name name -> trim value = value -> parse_env_value value = Some d ->
  read_setting (name +:+ "=" +:+ value) = Some (name, d) /\ setting_name (name +:+ "=" +:+ value) = Some name.
Proof.
  intros Hn Hv Hd. change ("=" +:+ value) with (String equals value).
  assert (Hve : trim_end value = value) by (rewrite <- Hv at 1; unfold trim; by rewrite trim_end_idem).
  assert (Ht : trim (name +:+ String equals value) = name +:+ String equals value) by (by rewrite trim_equals, proper_trim_start, Hve).
  assert (Hr : read_setting (name +:+ String equals value) = Some (name, d)); [|split; [done|by apply (read_setting_name _ _ d)]].
  unfold read_setting. rewrite Ht. destruct Hn as [Hne Hc]. destruct (_ || _) eqn:E.
  - exfalso. apply orb_true_iff in E as [E|E]; destruct name as [|a s]; try done. rewrite append_cons in E. unfold starts_with in E.
    cbn [strip_prefix] in E. destruct (Ascii.eqb HASH a) eqn:Ea; [|done]. by apply Ascii.eqb_eq in Ea as <-.
  - unfold unexported. rewrite proper_not_exported by done. cbn [default from_option]. rewrite Ht.
    replace (split_once equals (name +:+ String equals value)) with (Some (name, value)).
    + rewrite (proper_trim name), proper_no_space by done. apply String.eqb_neq in Hne. rewrite Hne. cbn. by rewrite Hd.
    + symmetry. apply split_once_Some. split; [done|]. by apply name_chars_lack.
Qed.

(** ** A file with the lines of a name replaced *)

Section Replacing.
Context (same : string -> string -> bool) (name line d : string)
  (Hread : read_setting line = Some (name, d)) (Hrefl : same name name = true).

Definition others (l : list (string * string)) : list (string * string) := List.filter (fun e => negb (same e.1 name)) l.

Lemma replaced_others ls : others (omap read_setting (replaced same name line ls)) = others (omap read_setting ls).
Proof.
  unfold others. induction ls as [|raw ls IH]; [done|]. cbn [replaced fmap list_fmap]. unfold sets at 1.
  destruct (setting_name raw) as [k|] eqn:Ek; [destruct (same k name) eqn:Es|].
  - cbn [omap list_omap]. rewrite Hread. cbn [List.filter fst]. rewrite Hrefl. cbn [negb]. fold (replaced same name line ls). rewrite IH.
    destruct (read_setting raw) as [[k' v]|] eqn:Er; [|done]. apply read_setting_name in Er as E. rewrite Ek in E. injection E as <-.
    cbn. by rewrite Es.
  - cbn [omap list_omap]. fold (replaced same name line ls). destruct (read_setting raw); [cbn [List.filter]; by rewrite IH|done].
  - cbn [omap list_omap]. fold (replaced same name line ls). destruct (read_setting raw); [cbn [List.filter]; by rewrite IH|done].
Qed.

Lemma replaced_own ls : Forall (fun e => same e.1 name = true -> e = (name, d)) (omap read_setting (replaced same name line ls)).
Proof.
  induction ls as [|raw ls IH]; [constructor|]. cbn [replaced fmap list_fmap]. unfold sets at 1. fold (replaced same name line ls).
  destruct (setting_name raw) as [k|] eqn:Ek; [destruct (same k name) eqn:Es|]; cbn [omap list_omap].
  - rewrite Hread. by constructor.
  - destruct (read_setting raw) as [[k' v]|] eqn:Er; [|done]. constructor; [|done]. cbn. intros H. apply read_setting_name in Er. congruence.
  - destruct (read_setting raw) as [[k' v]|] eqn:Er; [|done]. apply read_setting_name in Er. congruence.
Qed.

Lemma replaced_present ls : existsb (sets same name) ls = true -> (name, d) ∈ omap read_setting (replaced same name line ls).
Proof.
  induction ls as [|raw ls IH]; [done|]. cbn [existsb replaced fmap list_fmap omap list_omap]. destruct (sets same name raw).
  - intros _. rewrite Hread. left.
  - cbn [orb]. intros H. specialize (IH H). destruct (read_setting raw); [right|]; done.
Qed.

Lemma replaced_no_LF ls : no_LF line -> Forall no_LF ls -> Forall no_LF (replaced same name line ls).
Proof. intros Hl H. unfold replaced. apply Forall_fmap. eapply Forall_impl; [done|]. intros raw Hr. cbn. by destruct (sets same name raw). Qed.
End Replacing.

(** The value a lookup of the file finds. *)
Definition lookup_entry (name : string) (l : list (string * string)) : option string :=
  snd <$> List.find (fun e => (e.1 =? name)%string) l.

Lemma lookup_own name d l : Forall (fun e => e.1 = name -> e = (name, d)) l -> (name, d) ∈ l -> lookup_entry name l = Some d.
Proof.
  intros Hf Hin. unfold lookup_entry. destruct (List.find _ l) as [e|] eqn:E.
  - apply find_Some_In in E as [He Hn]. apply String.eqb_eq in Hn. rewrite Forall_forall in Hf. apply list_elem_of_In in He.
    by rewrite (Hf e He Hn).
  - apply list_elem_of_In in Hin. pose proof (proj1 (find_None_all _ _) E _ Hin) as H. cbn in H. by rewrite String.eqb_refl in H.
Qed.

(** ** What the writers write *)

Lemma strip_any_more ps x r z : strip_any ps x = Some r -> is_Some (strip_any ps (x +:+ z)).
Proof.
  induction ps as [|p l IH]; cbn; [done|]. destruct (strip_prefix p x) eqn:E.
  - intros _. apply strip_prefix_Some in E as ->. replace (strip_prefix p ((p +:+ s) +:+ z)) with (Some (s +:+ z)); [by eexists|].
    symmetry. apply strip_prefix_Some. by rewrite append_assoc.
  - destruct (strip_prefix p (x +:+ z)); [by eexists|done].
Qed.

Lemma trim_idem s : trim (trim s) = trim s.
Proof.
  unfold trim at 1. replace (trim_start (trim s)) with (trim s); [unfold trim; by rewrite trim_end_idem|].
  symmetry. rewrite trim_start_stripped. apply stripped_id; [auto with susi|]. unfold trim. set (y := trim_start s).
  assert (Hy : strip_any white_space y = None) by (apply stripped_end; auto with susi).
  destruct (strip_any white_space (trim_end y)) eqn:E; [|done]. exfalso.
  destruct (stripped_suffix rev_white_space rev_white_space_nonempty (rev_string y)) as [x Hx]. rewrite trim_end_stripped in E.
  destruct (strip_any_more _ _ _ (rev_string x) E) as [r Hr]. rewrite <- rev_string_app, <- Hx, rev_string_rev in Hr. congruence.
Qed.

Lemma no_control_no_LF s : has_control s = false -> no_LF s.
Proof.
  unfold no_LF. induction s as [|c s IH]; [done|]. cbn [has_control all_chars]. rewrite !orb_false_iff. intros [[[Hc _] _] Hs].
  rewrite IH by done. rewrite andb_true_r. unfold not_char. destruct (Ascii.eqb c LF) eqn:E; [|done]. by apply Ascii.eqb_eq in E as ->.
Qed.

Lemma line_no_LF name value : proper_name name -> no_LF value -> no_LF (name +:+ "=" +:+ value).
Proof.
  intros [_ Hn] Hv. unfold no_LF. rewrite all_chars_app, (name_chars_lack LF) by done. change ("=" +:+ value) with (String equals value). cbn. done.
Qed.

Lemma lower_refl name : eq_ignore_ascii_case name name = true.
Proof. apply String.eqb_refl. Qed.

(** What a file reads as once the lines of a name were replaced, or one was added. *)
Lemma written_entries same name value d text (add : bool) : proper_name name -> trim value = value -> no_LF value ->
  parse_env_value value = Some d -> same name name = true ->
  (add = negb (existsb (sets same name) (lines text))) ->
  let line := name +:+ "=" +:+ value in
  let new := parse_env_file (unlines (replaced same name line (lines text) ++ if add then [line] else [])) in
  others same name new = others same name (parse_env_file text) /\
  Forall (fun e => same e.1 name = true -> e = (name, d)) new /\ (name, d) ∈ new.
Proof.
  intros Hn Ht Hlf Hd Hrefl Hadd line new. destruct (setting_line name value d Hn Ht Hd) as [Hr _]. fold line in Hr.
  assert (Hl : no_LF line) by by apply line_no_LF.
  assert (Hnew : new = omap read_setting (replaced same name line (lines text)) ++ if add then [(name, d)] else []).
  { unfold new. rewrite parse_unlines.
    - rewrite omap_app. f_equal. destruct add; [|done]. cbn [omap list_omap]. by rewrite Hr.
    - apply Forall_app. split; [apply replaced_no_LF; [done|apply lines_no_LF]|]. destruct add; [by constructor|constructor]. }
  rewrite Hnew. split_and!.
  - unfold others. rewrite List.filter_app. fold (others same name (omap read_setting (replaced same name line (lines text)))).
    rewrite (replaced_others same name line d) by done. replace (List.filter _ (if add then _ else _)) with (@nil (string * string)); [apply app_nil_r|].
    destruct add; [|done]. cbn. by rewrite Hrefl.
  - apply Forall_app. split; [by apply replaced_own|]. destruct add; by repeat constructor.
  - apply elem_of_app. destruct add; [right; left|left]. apply (replaced_present same name line d); [done|].
    by destruct (existsb _ _).
Qed.

Lemma lookup_written same name d l : same name name = true -> Forall (fun e => same e.1 name = true -> e = (name, d)) l ->
  (name, d) ∈ l -> lookup_entry name l = Some d.
Proof. intros Hs Hf. apply lookup_own. eapply Forall_impl; [done|]. intros e He E. apply He. by rewrite E. Qed.

(** A rotation that succeeds leaves the key with the new value for every lookup, every other
    entry of the file as it was and in its place, the key stamped, and the vendor out of
    quarantine and nobody else. *)
Theorem rotation_sets_one_key o umask key vendor value d now h h' : rotate_key o umask key vendor value now h = (h', None) ->
  proper_name key -> trim value = value -> no_LF value -> parse_env_value value = Some d ->
  lookup_entry key (entries h') = Some d /\ others String.eqb key (entries h') = others String.eqb key (entries h) /\
  (exists m, load_ages (ages h) = Some m /\ load_ages (ages h') = Some (stamp m key now) /\ age_days (stamp m key now) key now = Some 0) /\
  (forall v, v ∈ flags h' <-> v ∈ flags h /\ v <> vendor) /\ staging h' = None /\ creds h' = creds h.
Proof.
  intros Hrot Hk Ht Hlf Hd. unfold rotate_key in Hrot. destruct (existsb _ _) eqn:Eex; [|done]. cbn [negb] in Hrot.
  destruct (staged o); [done|]. destruct (renamed o); [|done]. cbn [negb] in Hrot. destruct (load_ages (ages h)) as [m|] eqn:Em; [|done].
  destruct (ages_saved o); [done|].
  pose proof (written_entries String.eqb key value d (read_env h) false Hk Ht Hlf Hd (String.eqb_refl _)) as Hw. rewrite Eex in Hw. cbv match zeta in Hw. rewrite app_nil_r in Hw.
  specialize (Hw eq_refl) as (Ho & Hf & Hin).
  assert (Hfl : env h' = Some (plain_write umask (staging h) (unlines (replaced String.eqb key (key +:+ "=" +:+ value) (lines (read_env h))))) /\
    ages h' = Some (Some (stamp m key now)) /\ flags h' = flags h ∖ {[vendor]} /\ staging h' = None /\ creds h' = creds h).
  { destruct (bool_decide _) eqn:Ev; cbn [negb] in Hrot.
    - destruct (flag_removed o); [|done]. by injection Hrot as <-.
    - apply bool_decide_eq_false in Ev. injection Hrot as <-. split_and!; try done. cbn. set_solver. }
  destruct Hfl as (He & Ha & Hfl & Hs & Hc). unfold entries at 1 2, read_env at 1. rewrite He. cbn [mbind option_bind text plain_write default from_option].
  split_and!; [by apply (lookup_written String.eqb); [apply String.eqb_refl|..]| | | |done|done].
  - unfold read_env at 1. rewrite He. cbn. exact Ho.
  - exists m. rewrite Ha. split_and!; [done|done|]. unfold age_days, stamp. rewrite lookup_insert_eq. cbn. by rewrite N.sub_diag.
  - intros v. rewrite Hfl. set_solver.
Qed.

(** However its file operations go, a rotation leaves the key file as it was or wholly
    rewritten; the age changes only with the file, the flag falls only on success, and a key
    the file does not set changes nothing. *)
Theorem rotation_is_atomic o umask key vendor value now h h' e : rotate_key o umask key vendor value now h = (h', e) ->
  let body := unlines (replaced String.eqb key (key +:+ "=" +:+ value) (lines (read_env h))) in
  (env h' = env h \/ env h' = Some (plain_write umask (staging h) body)) /\
  (ages h' <> ages h \/ e = None -> env h' = Some (plain_write umask (staging h) body)) /\
  (flags h' <> flags h -> e = None /\ flags h' = flags h ∖ {[vendor]}) /\
  (existsb (sets String.eqb key) (lines (read_env h)) = false -> h' = h /\ e = Some NotSet) /\ creds h' = creds h.
Proof.
  unfold rotate_key. destruct (existsb _ _); cbn [negb]; [|intros [= <- <-]; split_and!; try naive_solver; by left].
  destruct (staged o); [intros [= <- <-]; split_and!; try naive_solver; by left|].
  destruct (renamed o); cbn [negb]; [|intros [= <- <-]; split_and!; try naive_solver; by left].
  destruct (load_ages (ages h)); [|intros [= <- <-]; cbn; split_and!; try naive_solver; by right].
  destruct (ages_saved o); [intros [= <- <-]; cbn; split_and!; try naive_solver; by right|].
  destruct (bool_decide _); cbn [negb]; [|intros [= <- <-]; cbn; split_and!; try naive_solver; by right].
  destruct (flag_removed o); intros [= <- <-]; cbn; split_and!; try naive_solver; by right.
Qed.

Section Registering.
Context (digest : string -> string) (file_len : Credential -> N) (reread : SpecFloat.spec_float -> option SpecFloat.spec_float)
  (vendors : list CloudVendorEntry).

(** The store has the key under the name. *)
Definition kept (c : gmap string File) (name k : string) : Prop :=
  exists f r, c !! id_of digest name k = Some f /\ parsed f = Some r /\ vendor_env r = name /\ key r = k.

Lemma save_keeps io c name k c' : save_credential digest file_len reread io c name k = Ok c' ->
  kept c' name k /\ (forall k', kept c name k' -> (id_of digest name k' = id_of digest name k -> k' = k) -> kept c' name k') /\
  cap_of c' (id_of digest name k) = None.
Proof.
  destruct io as [[lock read] write]. unfold save_credential. destruct (save _ _ _ _ _ _ _ _ _) as [[d i]|] eqn:E; [|done]. intros [= ->].
  apply save_ok in E as (_ & -> & _ & ->). split_and!.
  - do 2 eexists. rewrite lookup_insert_eq. by split_and!.
  - intros k' (f & r & Hf & Hr) Hinj. destruct (decide (id_of digest name k' = id_of digest name k)) as [E|E].
    + apply Hinj in E as ->. do 2 eexists. rewrite lookup_insert_eq. by split_and!.
    + exists f, r. by rewrite lookup_insert_ne.
  - unfold cap_of. by rewrite lookup_insert_eq.
Qed.

(** No two of the keys have one digest. *)
Definition distinct (name : string) (ks : list string) : Prop :=
  forall k k', k ∈ ks -> k' ∈ ks -> id_of digest name k = id_of digest name k' -> k = k'.

Lemma save_previous_keeps ios name ks l c c' : distinct name ks -> (forall v, (name, v) ∈ l -> v ∈ ks) ->
  save_previous digest file_len reread ios name l c = (c', None) ->
  (forall k, k ∈ ks -> kept c name k -> kept c' name k) /\ (forall v, (name, v) ∈ l -> v <> "" -> kept c' name v).
Proof.
  intros Hd. revert c. induction l as [|[k previous] l IH]; intros c Hl; cbn.
  - intros [= ->]. split; [done|]. by intros v ?%not_elem_of_nil.
  - assert (Hl' : forall v, (name, v) ∈ l -> v ∈ ks) by (intros v Hv; apply Hl; by right).
    destruct ((k =? name)%string && negb (previous =? "")%string) eqn:Ek.
    + apply andb_true_iff in Ek as [->%String.eqb_eq Hp]. assert (Hpk : previous ∈ ks) by (apply Hl; left).
      destruct (save_credential _ _ _ _ _ _ _) as [c1|] eqn:Es; [|done]. intros Hs. apply save_keeps in Es as (Hk1 & Hk2 & _).
      destruct (IH c1 Hl' Hs) as [H1 H2]. split.
      * intros k Hk Hc. apply H1; [done|]. apply Hk2; [done|]. by apply Hd.
      * intros v Hv Hne. apply elem_of_cons in Hv as [[= ->]|Hv]; [by apply H1|by apply H2].
    + intros Hs. destruct (IH c Hl' Hs) as [H1 H2]. split; [done|]. intros v Hv Hne. apply elem_of_cons in Hv as [[= <- ->]|Hv]; [|by apply H2].
      exfalso. rewrite String.eqb_refl in Ek. cbn in Ek. apply negb_false_iff, String.eqb_eq in Ek. done.
Qed.

Lemma register_ok ios wrote last vendor api_key name h h' :
  register_api_key digest file_len reread vendors ios wrote last vendor api_key h = (h', Ok name) ->
  exists d c c', parse_env_value (trim api_key) = Some d /\ has_control (trim api_key) = false /\ all_chars name_char name = true /\
    save_previous digest file_len reread ios name (entries h) (creds h) = (c, None) /\
    save_credential digest file_len reread last c name d = Ok c' /\ h' = with_creds (upsert name (trim api_key) (with_creds h c)) c'.
Proof.
  unfold register_api_key. destruct (_ =? "")%string; [done|]. destruct (has_control _) eqn:Ec; [done|].
  destruct (parse_env_value (trim api_key)) as [d|] eqn:Ed; [|done]. destruct (resolve_vendor_env_name vendors vendor) as [n|]; [|done].
  destruct (all_chars name_char n) eqn:En; [|done]. cbn [negb]. destruct (save_previous _ _ _ _ _ _ _) as [c [e|]] eqn:Ep; [done|].
  destruct wrote; [|done]. cbn [negb]. destruct (save_credential _ _ _ _ _ _ _) as [c'|] eqn:Es; [|done]. intros [= <- ->].
  by exists d, c, c'.
Qed.

Lemma upsert_entries name key d c c' h : proper_name name -> has_control (trim key) = false -> parse_env_value (trim key) = Some d ->
  let new := entries (with_creds (upsert name (trim key) (with_creds h c)) c') in
  others eq_ignore_ascii_case name new = others eq_ignore_ascii_case name (entries h) /\
  Forall (fun e => eq_ignore_ascii_case e.1 name = true -> e = (name, d)) new /\ lookup_entry name new = Some d.
Proof.
  intros Hn Hc Hd new.
  pose proof (written_entries eq_ignore_ascii_case name (trim key) d (read_env h)
    (negb (existsb (sets eq_ignore_ascii_case name) (lines (read_env h)))) Hn (trim_idem _) (no_control_no_LF _ Hc) Hd
    (lower_refl name) eq_refl) as (Ho & Hf & Hin).
  assert (Hent : new = parse_env_file (unlines (replaced eq_ignore_ascii_case name (name +:+ "=" +:+ trim key) (lines (read_env h)) ++
      if negb (existsb (sets eq_ignore_ascii_case name) (lines (read_env h))) then [name +:+ "=" +:+ trim key] else []))).
  { unfold new, entries, read_env at 1. cbn [env with_creds upsert with_env mbind option_bind text default from_option].
    change (read_env (with_creds h c)) with (read_env h). f_equal. f_equal. f_equal. by destruct (existsb _ _). }
  rewrite Hent. split_and!; [done|done|]. apply (lookup_written eq_ignore_ascii_case); [apply lower_refl|done|done].
Qed.

(** C16. A registration that succeeds under a name that is not empty leaves the name with the
    decoded key for every lookup, every entry the file had under a name that differs by more
    than ASCII case as it was, no other entry of the name in any case, the file private, and
    both the key and every key the name had before (when no two of the keys have one digest)
    in the credential store: nothing of the value can set a second name. An entry of the
    name in another case is dropped ([other_case_is_lost]), and a file that is not UTF-8
    reads as one without entries and is replaced
    ([registration_wipes_an_unreadable_file]). *)
Theorem registration_sets_one_key ios wrote last vendor api_key name h h' :
  register_api_key digest file_len reread vendors ios wrote last vendor api_key h = (h', Ok name) -> name <> "" ->
  exists d, parse_env_value (trim api_key) = Some d /\ lookup_entry name (entries h') = Some d /\
    others eq_ignore_ascii_case name (entries h') = others eq_ignore_ascii_case name (entries h) /\
    Forall (fun e => eq_ignore_ascii_case e.1 name = true -> e = (name, d)) (entries h') /\
    mode <$> env h' = Some OWNER_ONLY /\ kept (creds h') name d /\
    forall v, (name, v) ∈ entries h -> v <> "" -> distinct name (d :: (entries h).*2) -> kept (creds h') name v.
Proof.
  intros (d & c & c' & Hd & Hc & Hn & Ep & Es & ->)%register_ok Hne.
  destruct (upsert_entries name api_key d c c' h (conj Hne Hn) Hc Hd) as (Ho & Hf & Hl). exists d.
  split_and!; [done..|exact (proj1 (save_keeps _ _ _ _ _ Es))|].
  intros v Hv Hnv Hdis. apply save_keeps in Es as (_ & Hk & _). apply Hk.
  - apply (save_previous_keeps ios name _ _ _ _ Hdis) in Ep as [_ H]; [by apply H|].
    intros v' Hv'. right. apply list_elem_of_fmap. by exists (name, v').
  - apply Hdis; [right; apply list_elem_of_fmap; by exists (name, v)|left].
Qed.

(** A removal that succeeds leaves no entry of the name, in any spelling of its case, every
    other entry as it was, and none of the vendor's keys in the store, which keeps all others. *)
Theorem removal_clears_the_key in_process lock gone files vendor name h h' files' :
  (forall s, is_digest (digest s) = true) -> reachable digest file_len reread (creds h) -> listing (creds h) files ->
  remove_api_key vendors in_process true lock gone files vendor h = (h', Ok name) -> listing (creds h') files' ->
  lookup_entry name (entries h') = None /\
  entries h' = others eq_ignore_ascii_case name (entries h) /\
  (exists l, listed files name = Ok l /\ listed files' name = Ok (List.filter (fun c => negb (gone (id c))) l)) /\
  forall v, v <> name -> listed files' v = listed files v.
Proof.
  intros Hdig Hr Hl Hrm Hl'. unfold remove_api_key in Hrm. destruct (resolve_vendor_env_name vendors vendor) as [n|]; [|done].
  destruct (_ && _); [done|]. cbn [negb] in Hrm. change (creds (with_env h _)) with (creds h) in Hrm.
  destruct (remove_vendor lock gone files (creds h) n) as [c [e|]] eqn:Ev; [done|]. injection Hrm as Hh ->.
  destruct lock; [|by unfold remove_vendor in Ev].
  assert (Hent : entries h' = others eq_ignore_ascii_case name (entries h)).
  { assert (Hb : read_env h' = unlines (List.filter (fun raw => negb (sets eq_ignore_ascii_case name raw)) (lines (read_env h)))) by (by rewrite <- Hh).
    unfold entries at 1. rewrite Hb, parse_unlines.
    - unfold others, entries, parse_env_file. generalize (lines (read_env h)). clear. intros ls. induction ls as [|raw ls IH]; [done|]. cbn [List.filter]. unfold sets at 1.
      destruct (read_setting raw) as [[k v]|] eqn:Er.
      + rewrite (read_setting_name raw k v Er). cbn [omap list_omap]. rewrite Er. cbn [List.filter fst]. destruct (eq_ignore_ascii_case k name); cbn [negb].
        * exact IH.
        * cbn [omap list_omap]. rewrite Er. f_equal. exact IH.
      + cbn [omap list_omap]. rewrite Er. destruct (negb _); [|exact IH]. cbn [omap list_omap]. rewrite Er. exact IH.
    - apply Forall_forall. intros l [Hin _]%list_elem_of_In%filter_In. apply list_elem_of_In in Hin. pose proof (lines_no_LF (read_env h)) as H.
      rewrite Forall_forall in H. by apply H. }
  destruct (remove_vendor_is_exact digest file_len reread Hdig gone (creds h) files name (creds h') files' Hr Hl) as (_ & H1 & H2);
    [rewrite Ev; by rewrite <- Hh|done|].
  split_and!; [|done|done|done].
  unfold lookup_entry. destruct (List.find _ _) as [[k v]|] eqn:E; [|done]. exfalso. apply find_Some_In in E as [Hin Hk].
  rewrite Hent in Hin. apply filter_In in Hin as [_ Hn]. cbn [fst] in Hk, Hn. apply String.eqb_eq in Hk as ->. by rewrite lower_refl in Hn.
Qed.

(** ** What is lost *)

(** A file with a byte that is not UTF-8 reads as empty: a registration then leaves only its own
    line, and a rotation reports that the key is not set. *)
Lemma registration_wipes_an_unreadable_file ios wrote last vendor api_key name h h' m : env h = Some (mkEnv None m) ->
  register_api_key digest file_len reread vendors ios wrote last vendor api_key h = (h', Ok name) ->
  env h' = Some (mkEnv (Some (unlines [name +:+ "=" +:+ trim api_key])) OWNER_ONLY).
Proof. intros He (d & c & c' & _ & _ & _ & _ & _ & ->)%register_ok. cbn. unfold read_env. cbn. by rewrite He. Qed.
End Registering.

(** A rotation whose staging file is new gives the key file the mode of any new file, where the
    registration and the removal keep it the owner's. *)
Lemma rotation_opens_the_key_file umask key vendor value now h h' : staging h = None ->
  rotate_key all_well umask key vendor value now h = (h', None) -> mode <$> env h' = Some (N.ldiff ANYONE umask).
Proof.
  intros Hs. unfold rotate_key. destruct (existsb _ _); [|done]. cbn. destruct (load_ages (ages h)); [|done].
  destruct (bool_decide _); cbn; intros [= <-]; by rewrite Hs.
Qed.
Example usual_mode : N.ldiff ANYONE (2 * 8 + 2) = 6 * 64 + 4 * 8 + 4.
Proof. reflexivity. Qed.

(** With a corrupt ages file the key is rotated, and the rotation fails with the vendor still in
    quarantine, every time. *)
Lemma corrupt_ages_fail_after_the_fact umask key vendor value now h : ages h = Some None ->
  existsb (sets String.eqb key) (lines (read_env h)) = true ->
  exists h', rotate_key all_well umask key vendor value now h = (h', Some CorruptAges) /\ flags h' = flags h /\ ages h' = ages h /\
    read_env h' = unlines (replaced String.eqb key (key +:+ "=" +:+ value) (lines (read_env h))).
Proof. intros Ha Hex. unfold rotate_key. rewrite Hex. cbn. rewrite Ha. cbn. eexists. by split_and!. Qed.

(** The lines of a file that end in a bare line feed, the last one too, are kept byte for byte. *)
Definition plain (l : string) : Prop := no_LF l /\ without_CR l = l.
Lemma plain_lines_are_kept umask key vendor value now h h' ls : Forall plain ls -> read_env h = unlines ls ->
  rotate_key all_well umask key vendor value now h = (h', None) ->
  read_env h' = unlines (replaced String.eqb key (key +:+ "=" +:+ value) ls).
Proof.
  intros Hp Hr. unfold rotate_key. rewrite Hr, lines_unlines by (eapply Forall_impl; [done|]; by intros l [? _]).
  assert (E : without_CR <$> ls = ls) by (clear Hr; induction Hp as [|l ls [_ Hl] _ IH]; [done|]; cbn [fmap list_fmap]; congruence).
  rewrite E. destruct (existsb _ _); [|done]. cbn. destruct (load_ages (ages h)); [|done]. destruct (bool_decide _); cbn; by intros [= <-].
Qed.

Definition host (body : string) : Host := mkHost (Some (mkEnv (Some body) OWNER_ONLY)) None None {["openai"]} ∅.
Definition rotated (value body : string) : string :=
  read_env (rotate_key all_well 18 "OPENAI_API_KEY" "openai" value 5000 (host body)).1.

(** Lines that end in a carriage return and a line feed, and a last line without an end, are not. *)
Definition windows : string := "A=1" +:+ String CR (String LF ("OPENAI_API_KEY=old" +:+ String CR (String LF "B=2"))).
Lemma other_lines_change : rotated "new" windows = unlines ["A=1"; "OPENAI_API_KEY=new"; "B=2"] /\
  starts_with ("A=1" +:+ String CR "") windows = true.
Proof. by vm_compute. Qed.

(** A rotation does not look at the value: a line feed in it sets a second name, and an
    unfinished quote unsets the key, where a registration refuses both. *)
Lemma rotation_takes_any_value :
  lookup_entry "LD_PRELOAD" (parse_env_file (rotated ("sk-1" +:+ String LF "LD_PRELOAD=/tmp/x.so") (unlines ["OPENAI_API_KEY=old"]))) = Some "/tmp/x.so" /\
  lookup_entry "OPENAI_API_KEY" (parse_env_file (rotated "'sk-1" (unlines ["OPENAI_API_KEY=old"]))) = None.
Proof. by vm_compute. Qed.

(** ** Keys on a host *)

Definition toy_register (vendor api_key : string) (h : Host) : Host * result string KeyError :=
  register_api_key toy_digest toy_len toy_reread [] (fun _ => (true, true, true)) true (true, true, true) vendor api_key h.

(** The lines of a name in another case are replaced, and the value they had is not stored. *)
Lemma other_case_is_lost :
  let h := host (unlines ["openai_api_key=key-one"]) in
  let h' := (toy_register "openai" "key-two" h).1 in
  lookup_entry "openai_api_key" (entries h) = Some "key-one" /\ entries h' = [("OPENAI_API_KEY", "key-two")] /\ length (map_to_list (creds h')) = 1%nat.
Proof. by vm_compute. Qed.

(** A key that only the process environment has is reported as removed from the file. *)
Lemma nothing_is_removed :
  let r := remove_api_key [] (fun n => n =? "OPENAI_API_KEY")%string true true (fun _ => true) [] "openai" (host (unlines ["B=2"])) in
  r.2 = Ok "OPENAI_API_KEY" /\ entries r.1 = [("B", "2")].
Proof. by vm_compute. Qed.

Definition stocked : Host := (toy_register "openai" "'key-one'" (host (unlines ["# keys"; "export B='2'"]))).1.
Example stocked_file : read_env stocked = unlines ["# keys"; "export B='2'"; "OPENAI_API_KEY='key-one'"].
Proof. by vm_compute. Qed.
Example stocked_status :
  format_keys_list (key_statuses (read_env stocked) {["B" := 0]} (91 * 86400) DEFAULT_MAX_AGE_DAYS) =
  unlines ["B  set 91d ago  <- ROTATE (key older than policy)"; "OPENAI_API_KEY  set ?d ago"].
Proof. by vm_compute. Qed.

Lemma rotation_sets_one_key_witness :
  let h' := (rotate_key all_well 18 "OPENAI_API_KEY" "openai" "key-two" 5000 stocked).1 in
  lookup_entry "OPENAI_API_KEY" (entries h') = Some "key-two" /\ (forall v, v ∈ flags h' <-> v ∈ flags stocked /\ v <> "openai").
Proof.
  assert (Hc : trim "key-two" = "key-two" /\ no_LF "key-two" /\ parse_env_value "key-two" = Some "key-two") by by vm_compute.
  destruct Hc as (Ht & Hl & Hd). assert (Hp : proper_name "OPENAI_API_KEY") by by split. intros h'.
  assert (Er : rotate_key all_well 18 "OPENAI_API_KEY" "openai" "key-two" 5000 stocked = (h', None)) by (vm_compute; reflexivity).
  destruct (rotation_sets_one_key all_well 18 "OPENAI_API_KEY" "openai" "key-two" "key-two" 5000 stocked h' Er Hp Ht Hl Hd) as (H1 & _ & _ & H2 & _).
  exact (conj H1 H2).
Defined.

Lemma rotation_is_atomic_witness :
  let r := rotate_key (mkOutcome None false None true) 18 "OPENAI_API_KEY" "openai" "key-two" 5000 stocked in
  flags r.1 = flags stocked /\ creds r.1 = creds stocked.
Proof.
  intros r. destruct (rotation_is_atomic (mkOutcome None false None true) 18 "OPENAI_API_KEY" "openai" "key-two" 5000 stocked r.1 r.2
    (surjective_pairing _)) as (_ & _ & _ & _ & H). by split.
Defined.

Lemma registration_sets_one_key_witness :
  let h' := (toy_register "openai" "key-two" stocked).1 in
  lookup_entry "OPENAI_API_KEY" (entries h') = Some "key-two" /\ kept toy_digest (creds h') "OPENAI_API_KEY" "key-one".
Proof.
  intros h'. destruct (registration_sets_one_key toy_digest toy_len toy_reread [] (fun _ => (true, true, true)) true (true, true, true)
    "openai" "key-two" "OPENAI_API_KEY" stocked h') as (d & Hd & H1 & _ & _ & _ & _ & H2); [vm_compute; reflexivity|discriminate|].
  vm_compute in Hd. injection Hd as <-. split; [done|]. apply H2; [apply list_elem_of_In; vm_compute; tauto|done|].
  intros k k' Hk Hk' E. apply list_elem_of_In in Hk, Hk'. vm_compute in Hk, Hk'.
  repeat match goal with H : _ \/ _ |- _ => destruct H | H : False |- _ => destruct H end; subst; first [done|vm_compute in E; discriminate].
Defined.

Lemma removal_clears_the_key_witness :
  let h' := (remove_api_key [] (fun _ => false) true true (fun _ => true) (map_to_list (creds stocked)) "openai" stocked).1 in
  lookup_entry "OPENAI_API_KEY" (entries h') = None /\ entries h' = [("B", "2")].
Proof.
  intros h'. assert (Hr : reachable toy_digest toy_len toy_reread (creds stocked)).
  { eapply (r_save _ _ _ ∅ true true true "OPENAI_API_KEY" "key-one" None None _ ones); [apply r_empty|vm_compute; reflexivity|intros s; vm_compute; discriminate]. }
  destruct (removal_clears_the_key toy_digest toy_len toy_reread [] (fun _ => false) true (fun _ => true) (map_to_list (creds stocked)) "openai"
    "OPENAI_API_KEY" stocked h' (map_to_list (creds h')) toy_digest_hex Hr (Permutation_refl _)) as (H1 & H2 & _);
    [by vm_compute|apply Permutation_refl|]. split; [done|]. rewrite H2. by vm_compute.
Defined.
