(* ===== verification/KeyLookup.v ===== *)
(** * KeyLookup: how a key is named and found
    ([crates/susi-config/src/cloud_env.rs], [key_scope.rs], [credential.rs], [secret_ref.rs],
    [extensions.rs], [crates/susi-vendor-models/src/cloud.rs],
    [crates/susi-gawd-agents/src/agents/native.rs])

    A lookup reads the process environment, the key file as [KeyFile] parses it, and the files of
    the configuration directory.  A file is its text, [None] when it cannot be read as text.  The
    configuration's own store and the vendor catalogue are arguments.  A vault is the map its
    boundaries share. *)

From Stdlib Require Import Ascii.
From S2P Require Import Prelude Text CloudCredentials KeyFile.

Local Open Scope string_scope.
Local Open Scope list_scope.
Local Open Scope N_scope.
Local Open Scope susi_scope.

(** ** The process environment and the key file *)

Inductive VarError : Type :=
| NotPresent
| NotUnicode.
Definition Var : Type := result string VarError.

Record Machine : Type := mkMachine {
  process : string -> Var;
  cloud_env : option string;
  config_files : gmap string (option string);
}.
Definition cloud_env_entries (m : Machine) : list (string * string) :=
  match cloud_env m with Some t => parse_env_file t | None => [] end.
Definition env_or_cloud_env (m : Machine) (name : string) : Var :=
  let other := process m name in
  match other with
  | Ok value => if negb (value =? "")%string then other else
      match lookup_entry name (cloud_env_entries m) with Some v => Ok v | None => other end
  | Err _ => match lookup_entry name (cloud_env_entries m) with Some v => Ok v | None => other end
  end.
(** [var_os(..).is_some_and(|v| !v.is_empty())]; a value that is not Unicode is not empty. *)
Definition is_set (m : Machine) (name : string) : bool :=
  match process m name with Ok v => negb (v =? "")%string | Err NotPresent => false | Err NotUnicode => true end.
Definition cloud_env_overlay_from (entries : list (string * string)) (is_already_set : string -> bool) : list (string * string) :=
  List.filter (fun e => negb (is_already_set e.1)) entries.
Definition cloud_env_overlay (m : Machine) : list (string * string) := cloud_env_overlay_from (cloud_env_entries m) (is_set m).
Definition env_nonempty (m : Machine) (name : string) : option string :=
  match env_or_cloud_env m name with Ok v => if (v =? "")%string then None else Some v | Err _ => None end.

(** ** References *)

Inductive KeyScope : Type :=
| Env
| CloudEnv
| HostFile.
Record KeyRef : Type := mkKeyRef {
  scope : KeyScope;
  kr_name : string;
}.
Inductive RefError : Type :=
| MissingSlash
| NotOneSegment
| UnknownScope
| NotAnEnvName
| SecretNotSet (uri : string)
| CloudEnvMissing
| AliasNotFound
| HostFileUnreadable
| HostFileEmpty
| NoCredential
| EmbedsAValue
| NeedsABoundary
| NeedsNoBoundary
| OutsideScope
| MissingSecret.

Definition SLASH : ascii := "/"%char.
Definition lacks (c : ascii) (s : string) : bool := all_chars (not_char c) s.
Definition is_alphabetic (c : ascii) : bool := is_upper c || is_lower c.
Definition env_name (s : string) : bool :=
  match s with EmptyString => false | String c s' => (is_alphabetic c || Ascii.eqb c "_") && all_chars name_char s' end.

Definition scope_of (s : string) : option KeyScope :=
  if (s =? "env")%string then Some Env else if (s =? "cloud")%string then Some CloudEnv else if (s =? "host")%string then Some HostFile else None.
Definition scope_name (s : KeyScope) : string := match s with Env => "env" | CloudEnv => "cloud" | HostFile => "host" end.

(** [KeyRef::parse]. *)
Definition parse_key_ref (raw : string) : result KeyRef RefError :=
  let raw := trim raw in
  match strip_prefix "key://" raw with
  | Some rest =>
      match split_once SLASH rest with
      | None => Err MissingSlash
      | Some (s, name) =>
          let name := trim name in
          if (name =? "")%string || negb (lacks SLASH name) then Err NotOneSegment
          else match scope_of s with Some k => Ok (mkKeyRef k name) | None => Err UnknownScope end
      end
  | None => if env_name raw then Ok (mkKeyRef Env raw) else Err NotAnEnvName
  end.
Definition uri (r : KeyRef) : string := "key://" +:+ scope_name (scope r) +:+ String SLASH (kr_name r).

Record ScopedSecret : Type := mkSecret {
  reference : KeyRef;
  value : string;
}.
Definition render (s : ScopedSecret) : string := uri (reference s) +:+ " = [redacted]".

(** [resolve_key_ref]; the directory given may have a key file of its own. *)
Definition resolve_key_ref (m : Machine) (r : KeyRef) : result ScopedSecret RefError :=
  let? v := match scope r with
    | Env => match env_or_cloud_env m (kr_name r) with Ok v => Ok v | Err _ => Err (SecretNotSet (uri r)) end
    | CloudEnv =>
        match (match config_files m !! "cloud.env" with Some t => t | None => cloud_env m end) with
        | None => Err CloudEnvMissing
        | Some t => match lookup_entry (kr_name r) (parse_env_file t) with Some v => Ok v | None => Err AliasNotFound end
        end
    | HostFile =>
        match config_files m !! kr_name r with
        | Some (Some t) => if (trim t =? "")%string then Err HostFileEmpty else Ok (trim t)
        | _ => Err HostFileUnreadable
        end
    end in Ok (mkSecret r v).

(** [resolve_api_key_env], and the vendor's names in order. *)
Definition resolve_api_key_env (m : Machine) (api_key_env : string) : result (option ScopedSecret) RefError :=
  if (trim api_key_env =? "")%string then Ok None
  else let? r := parse_key_ref api_key_env in let? s := resolve_key_ref m r in Ok (Some s).
Fixpoint first_key (m : Machine) (names : list string) (last_err : option RefError) : result (option ScopedSecret) RefError :=
  match names with
  | [] => match last_err with Some e => Err e | None => Ok None end
  | n :: rest =>
      if (trim n =? "")%string then first_key m rest last_err
      else match resolve_api_key_env m n with
           | Ok (Some s) => Ok (Some s)
           | Ok None => first_key m rest last_err
           | Err e => first_key m rest (Some e)
           end
  end.
Definition vendor_resolve_api_key (m : Machine) (v : CloudVendorEntry) : result (option ScopedSecret) RefError :=
  first_key m (api_key_env v :: api_key_env_alts v) None.

(** ** Vaults and boundaries *)

Record SecretRef : Type := mkSecretRef {
  sr_scope : string;
  sr_name : string;
}.
Definition parse_secret_ref (s : string) : option SecretRef :=
  match strip_prefix "secret://" s with
  | None => None
  | Some rest =>
      match split_once SLASH rest with
      | None => None
      | Some (sc, n) => if (sc =? "")%string || (n =? "")%string then None else Some (mkSecretRef sc n)
      end
  end.
Definition display (r : SecretRef) : string := "secret://" +:+ sr_scope r +:+ String SLASH (sr_name r).

Notation Vault := (gmap (string * string) string).
Definition put (v : Vault) (sc name body : string) : Vault := <[(sc, name) := body]> v.
(** [ScopeBoundary::resolve] of the boundary issued for [bound]. *)
Definition boundary_resolve (v : Vault) (bound : string) (r : SecretRef) : result string RefError :=
  if negb (sr_scope r =? bound)%string then Err OutsideScope
  else match v !! (sr_scope r, sr_name r) with Some b => Ok b | None => Err MissingSecret end.

Inductive CredentialRef : Type :=
| Scoped (r : SecretRef)
| Key (r : KeyRef).
(** The methods of [SusiConfig]; [stored] is what the configuration has under the name. *)
Definition credential_ref (stored : option string) : result CredentialRef RefError :=
  match stored with
  | None => Err NoCredential
  | Some raw =>
      match parse_secret_ref (trim raw) with
      | Some r => Ok (Scoped r)
      | None => match parse_key_ref (trim raw) with Ok r => Ok (Key r) | Err _ => Err EmbedsAValue end
      end
  end.
Definition display_ref (c : CredentialRef) : string := match c with Scoped r => display r | Key r => uri r end.
Definition resolve_credential (m : Machine) (stored : option string) : result ScopedSecret RefError :=
  let? c := credential_ref stored in
  match c with Key r => resolve_key_ref m r | Scoped _ => Err NeedsABoundary end.
Definition resolve_scoped_credential (v : Vault) (bound : string) (stored : option string) : result string RefError :=
  let? c := credential_ref stored in
  match c with Scoped r => boundary_resolve v bound r | Key _ => Err NeedsNoBoundary end.

(** ** Keys and addresses of an endpoint *)

Fixpoint first_some (lookup : string -> option string) (names : list string) : option string :=
  match names with
  | [] => None
  | n :: rest => match lookup n with Some v => Some v | None => first_some lookup rest end
  end.
Definition resolve_key_with (api_key_env endpoint_name : string) (vendor : option CloudVendorEntry) (lookup : string -> option string) : string :=
  match (if (api_key_env =? "")%string then None else lookup api_key_env) with
  | Some v => v
  | None =>
      match vendor ≫= (fun e => first_some lookup (KeyFile.api_key_env e :: api_key_env_alts e)) with
      | Some v => v
      | None =>
          let generic := generic_vendor_api_key_env endpoint_name in
          match (if (generic =? "")%string then None else lookup generic) with Some v => v | None => "" end
      end
  end.
Definition resolve_api_key (m : Machine) (vendors : list CloudVendorEntry) (api_key_env endpoint_name : string) : string :=
  resolve_key_with api_key_env endpoint_name (vendor_in vendors endpoint_name) (env_nonempty m).

(** [trim_end_matches("_API_KEY")], every one of them. *)
Fixpoint trim_end_matches (fuel : nat) (p s : string) : string :=
  match fuel with
  | O => s
  | S f => match strip_suffix p s with Some s' => trim_end_matches f p s' | None => s end
  end.
Definition prefix (name : string) : string :=
  let g := generic_vendor_api_key_env name in trim_end_matches (String.length g) "_API_KEY" g.
Definition prefixes_of (endpoint_name : string) (vendor : option CloudVendorEntry) : list string :=
  prefix endpoint_name ::
  match vendor with
  | None => []
  | Some e => prefix (v_id e) :: omap (strip_suffix "_API_KEY") (KeyFile.api_key_env e :: api_key_env_alts e)
  end.
Definition BASE_SUFFIXES : list string := ["API_BASE"; "BASE_URL"; "API_BASE_URL"].
Definition base_names (p : string) : list string := (fun s => p +:+ "_" +:+ s) <$> BASE_SUFFIXES.
(** The loop, which skips an empty name and one it has seen. *)
Fixpoint base_from (lookup : string -> option string) (seen : gset string) (prefixes : list string) : option string :=
  match prefixes with
  | [] => None
  | p :: rest =>
      if (p =? "")%string || bool_decide (p ∈ seen) then base_from lookup seen rest
      else match first_some lookup (base_names p) with
           | Some v => Some v
           | None => base_from lookup ({[p]} ∪ seen) rest
           end
  end.
Definition base_with_vendor (api_base_default endpoint_name : string) (vendor : option CloudVendorEntry) (lookup : string -> option string) : string :=
  default api_base_default (base_from lookup ∅ (prefixes_of endpoint_name vendor)).

(** [resolve_inference_key] of the agents: it looks the file through again, with a parser of its
    own. *)
Definition trim_matches (c : ascii) (s : string) : string :=
  let front x := strip_all (String.length x) [String c EmptyString] x in rev_string (front (rev_string (front s))).
Definition loose_setting (name raw : string) : option string :=
  match split_once equals (trim (unexported (trim raw))) with
  | None => None
  | Some (k, v) =>
      if (trim k =? name)%string then
        let v := trim_matches QUOTE (trim_matches DQUOTE (trim v)) in if (v =? "")%string then None else Some v
      else None
  end.
Definition resolve_inference_key (m : Machine) (api_key_env : string) : option string :=
  if (trim api_key_env =? "")%string then None
  else
    let fallback := match cloud_env m with None => None | Some t => head (omap (loose_setting api_key_env) (lines t)) end in
    match env_or_cloud_env m api_key_env with
    | Ok v => if negb (trim v =? "")%string then Some v else fallback
    | Err _ => fallback
    end.

(** ** References read back *)

Lemma trim_start_prefix_kept s : strip_any white_space (trim_start s) = None.
Proof. rewrite trim_start_stripped. apply stripped_end. auto with susi. Qed.

Lemma trim_after_slash a s : strip_any white_space a = None -> a <> EmptyString -> trim s = s -> s <> EmptyString ->
  trim (a +:+ String SLASH s) = a +:+ String SLASH s.
Proof.
  intros Ha Hne Hs Hnes. assert (Hsep : separates white_space SLASH /\ separates rev_white_space SLASH).
  { unfold separates. rewrite !Forall_forall.
    assert (H : forallb (fun p => (String.length p =? 1)%nat || all_chars (not_char SLASH) p) white_space = true /\
      forallb (fun p => (String.length p =? 1)%nat || all_chars (not_char SLASH) p) rev_white_space = true) by (split; vm_compute; reflexivity).
    destruct H as [H1 H2]. rewrite forallb_forall in H1, H2. split; intros p Hp%list_elem_of_In; [apply H1 in Hp|apply H2 in Hp];
      apply orb_true_iff in Hp as [Hp|Hp]; [left; by apply Nat.eqb_eq|by right|left; by apply Nat.eqb_eq|by right]. }
  assert (He : trim_end s = s) by (rewrite <- Hs at 1; unfold trim; by rewrite trim_end_idem).
  unfold trim. rewrite (trim_start_stripped (a +:+ _)), stripped_before by (auto with susi || apply Hsep).
  rewrite (stripped_id _ white_space_nonempty a Ha). destruct a as [|c a]; [done|].
  rewrite trim_end_stripped, rev_string_app. change (String SLASH s) with (String SLASH EmptyString +:+ s).
  rewrite rev_string_app, append_assoc. change (rev_string (String SLASH EmptyString) +:+ rev_string (String c a)) with (String SLASH (rev_string (String c a))).
  rewrite stripped_before by (auto with susi || apply Hsep).
  assert (Hr : stripped rev_white_space (rev_string s) = rev_string s) by (rewrite trim_end_stripped in He; rewrite <- He at 2; by rewrite rev_string_rev).
  rewrite Hr. destruct (rev_string s) as [|b r] eqn:E; [exfalso; apply Hnes; by rewrite <- (rev_string_rev s), E|].
  rewrite <- E. change (String SLASH (rev_string (String c a))) with (rev_string (String SLASH EmptyString) +:+ rev_string (String c a)).
  by rewrite !rev_string_app, !rev_string_rev, append_assoc.
Qed.

Lemma key_ref_names raw r : parse_key_ref raw = Ok r -> kr_name r <> "" /\ lacks SLASH (kr_name r) = true /\ trim (kr_name r) = kr_name r.
Proof.
  unfold parse_key_ref. destruct (strip_prefix "key://" (trim raw)) as [rest|].
  - destruct (split_once SLASH rest) as [[s n]|]; [|done]. destruct (_ || _) eqn:E; [done|]. destruct (scope_of s); [|done]. intros [= <-].
    apply orb_false_iff in E as [E1 E2]. apply String.eqb_neq in E1. apply negb_false_iff in E2. cbn. split_and!; [done|done|apply trim_idem].
  - destruct (env_name (trim raw)) eqn:E; [|done]. intros [= <-]. cbn [kr_name]. unfold env_name in E.
    destruct (trim raw) as [|c s] eqn:Et; [done|]. split_and!; [done| |rewrite <- Et; apply trim_idem].
    apply andb_true_iff in E as [Hc Hs]. unfold lacks. apply (name_chars_lack SLASH); [done|]. cbn. rewrite Hs, andb_true_r.
    unfold name_char, is_ascii_alphanumeric, is_alphabetic in *. destruct (is_upper c), (is_lower c), (is_digit c); done.
Qed.

(** A reference printed as its address is read back as itself, whatever it was parsed from. *)
Theorem key_ref_round_trip raw r : parse_key_ref raw = Ok r -> parse_key_ref (uri r) = Ok r.
Proof.
  intros H. destruct (key_ref_names raw r H) as (Hn & Hl & Ht). destruct r as [sc n]. cbn [kr_name] in *.
  assert (Hu : trim (uri (mkKeyRef sc n)) = "key://" +:+ (scope_name sc +:+ String SLASH n)).
  { unfold uri. cbn [scope kr_name]. rewrite <- append_assoc. apply trim_after_slash; [by destruct sc|by destruct sc|done|done]. }
  unfold parse_key_ref. rewrite Hu. replace (strip_prefix "key://" _) with (Some (scope_name sc +:+ String SLASH n)) by (symmetry; by apply strip_prefix_Some).
  replace (split_once SLASH (scope_name sc +:+ String SLASH n)) with (Some (scope_name sc, n))
    by (symmetry; apply split_once_Some; split; [done|by destruct sc]).
  rewrite Ht, Hl. apply String.eqb_neq in Hn. rewrite Hn. by destruct sc.
Qed.

Lemma secret_ref_round_trip s r : parse_secret_ref s = Some r -> display r = s.
Proof.
  unfold parse_secret_ref. destruct (strip_prefix "secret://" s) as [rest|] eqn:E; [|done].
  destruct (split_once SLASH rest) as [[sc n]|] eqn:Es; [|done]. destruct (_ || _); [done|]. intros [= <-].
  apply strip_prefix_Some in E as ->. by apply split_once_Some in Es as [-> _].
Qed.

(** A boundary gives the bodies of its own scope and no other: what a credential resolves to
    through it depends on no other scope of the vault, and is a body stored under that scope. *)
Theorem boundary_confines v v' bound stored : (forall n, v !! (bound, n) = v' !! (bound, n)) ->
  resolve_scoped_credential v bound stored = resolve_scoped_credential v' bound stored /\
  forall body, resolve_scoped_credential v bound stored = Ok body ->
    exists n, v !! (bound, n) = Some body /\ (exists raw, stored = Some raw /\ trim raw = display (mkSecretRef bound n)).
Proof.
  intros Hv. unfold resolve_scoped_credential. destruct (credential_ref stored) as [[r|r]|] eqn:E; cbn; [|done|done].
  unfold boundary_resolve. destruct (sr_scope r =? bound)%string eqn:Eb; cbn [negb]; [|done]. apply String.eqb_eq in Eb.
  rewrite Eb, Hv. split; [done|]. intros body Hb. exists (sr_name r). destruct (v' !! _) eqn:El; [|done]. injection Hb as ->.
  split; [by rewrite Hv|]. unfold credential_ref in E. destruct stored as [raw|]; [|done]. exists raw. split; [done|].
  destruct (parse_secret_ref (trim raw)) as [r'|] eqn:Ep; [|by destruct (parse_key_ref _)]. injection E as ->.
  apply secret_ref_round_trip in Ep. rewrite <- Ep, <- Eb. by destruct r.
Qed.

(** ** What a lookup looks at *)

Lemma first_some_spec lookup names : first_some lookup names = head (omap lookup names).
Proof. induction names as [|n l IH]; cbn; [done|]. by destruct (lookup n). Qed.

Lemma base_from_spec lookup seen prefixes : (forall p, p ∈ seen -> first_some lookup (base_names p) = None) ->
  base_from lookup seen prefixes =
  head (omap (fun p => if (p =? "")%string then None else first_some lookup (base_names p)) prefixes).
Proof.
  revert seen. induction prefixes as [|p l IH]; intros seen Hs; [done|]. cbn [base_from omap list_omap].
  destruct (p =? "")%string; cbn [orb]; [by apply IH|]. destruct (bool_decide (p ∈ seen)) eqn:E.
  - apply bool_decide_eq_true in E. rewrite (Hs p E). by apply IH.
  - destruct (first_some lookup (base_names p)) as [v|] eqn:Ef; [done|]. apply IH. intros q [->%elem_of_singleton|Hq]%elem_of_union; [done|by apply Hs].
Qed.

(** The address of an endpoint is the first of its own overrides, by prefix and then by
    suffix, as if none had been skipped as seen; no other provider's variable can move it. *)
Theorem base_is_its_own api_base_default endpoint_name vendor lookup :
  base_with_vendor api_base_default endpoint_name vendor lookup =
    default api_base_default (head (omap lookup (concat (base_names <$> List.filter (fun p => negb (p =? "")%string) (prefixes_of endpoint_name vendor))))) /\
  forall lookup', (forall p, p ∈ prefixes_of endpoint_name vendor -> Forall (fun n => lookup n = lookup' n) (base_names p)) ->
    base_with_vendor api_base_default endpoint_name vendor lookup = base_with_vendor api_base_default endpoint_name vendor lookup'.
Proof.
  assert (Hspec : forall lk, base_with_vendor api_base_default endpoint_name vendor lk =
    default api_base_default (head (omap lk (concat (base_names <$> List.filter (fun p => negb (p =? "")%string) (prefixes_of endpoint_name vendor)))))).
  { intros lk. unfold base_with_vendor. rewrite base_from_spec by (by intros p ?%elem_of_empty). f_equal.
    induction (prefixes_of endpoint_name vendor) as [|p l IH]; [done|]. cbn [omap list_omap List.filter].
    destruct (p =? "")%string; cbn [negb]; [done|]. cbn [fmap list_fmap concat]. rewrite omap_app, first_some_spec.
    destruct (omap lk (base_names p)); [done|done]. }
  split; [done|]. intros lookup' H. rewrite !Hspec. f_equal. f_equal.
  clear Hspec. revert H. generalize (prefixes_of endpoint_name vendor). intros ls H. induction ls as [|p l IH]; [done|].
  cbn [List.filter]. specialize (IH (fun q Hq => H q (list_elem_of_further _ _ _ Hq))).
  destruct (negb _); [|done]. cbn [fmap list_fmap concat]. rewrite !omap_app, IH. f_equal. specialize (H p (list_elem_of_here _ _)).
  clear IH. induction H as [|n ns Hn _ IH]; [done|]. cbn. by rewrite Hn, IH.
Qed.

(** The key of an endpoint is the first value of its names in order. *)
Lemma resolve_key_with_spec env endpoint vendor lookup :
  resolve_key_with env endpoint vendor lookup =
  default "" (head (omap lookup (List.filter (fun n => negb (n =? "")%string) [env] ++
    match vendor with Some e => KeyFile.api_key_env e :: api_key_env_alts e | None => [] end ++
    List.filter (fun n => negb (n =? "")%string) [generic_vendor_api_key_env endpoint]))).
Proof.
  unfold resolve_key_with. rewrite !omap_app. cbn [List.filter].
  assert (Hsingle : forall n, head (omap lookup (if negb (n =? "")%string then [n] else [])) = if (n =? "")%string then None else lookup n)
    by (intros n; destruct (n =? "")%string; cbn; [done|]; by destruct (lookup n)).
  assert (Hh : forall (a b : list string), head (a ++ b) = match head a with Some x => Some x | None => head b end) by (by intros [|]).
  rewrite !Hh, !Hsingle. destruct (if (env =? "")%string then _ else _); [done|].
  destruct vendor as [e|]; cbn [mbind option_bind]; [rewrite first_some_spec; destruct (head _); [done|]|]; by repeat case_match.
Qed.

(** After a registration every lookup of the name finds the key, unless the process itself
    sets the name; an overlay hands it to child processes in the same case and in no other. *)
Theorem registered_key_is_found digest file_len reread vendors ios wrote last vendor api_key name h h' proc files :
  register_api_key digest file_len reread vendors ios wrote last vendor api_key h = (h', Ok name) -> name <> "" ->
  let m := mkMachine proc (env h' ≫= text) files in
  exists d, parse_env_value (trim api_key) = Some d /\
    env_or_cloud_env m name = (match proc name with Ok v => if (v =? "")%string then Ok d else Ok v | Err _ => Ok d end) /\
    (is_set m name = false -> lookup_entry name (cloud_env_overlay m) = Some d) /\
    (is_set m name = true -> lookup_entry name (cloud_env_overlay m) = None).
Proof.
  intros (d & c & c' & Hd & Hc & Hn & _ & _ & Hh)%register_ok Hne m.
  destruct (upsert_entries name api_key d c c' h (conj Hne Hn) Hc Hd) as (_ & _ & Hl). rewrite <- Hh in Hl. exists d. assert (He : cloud_env_entries m = entries h') by (unfold cloud_env_entries, entries, read_env; cbn; by destruct (env h' ≫= text)).
  assert (Hfind : forall l b, (forall e : string * string, (e.1 =? name)%string = true -> b e.1 = b name) ->
    lookup_entry name (List.filter (fun e => negb (b e.1)) l) = if b name then None else lookup_entry name l).
  { intros l b Hb. unfold lookup_entry. induction l as [|e l IH]; cbn; [by destruct (b name)|].
    destruct (e.1 =? name)%string eqn:Ee.
    - rewrite (Hb e Ee). destruct (b name); cbn [negb]; [done|]. cbn. by rewrite Ee.
    - destruct (b e.1); cbn [negb]; [done|]. cbn. by rewrite Ee. }
  split_and!; [done| | |].
  - unfold env_or_cloud_env. rewrite He, Hl. change (process m name) with (proc name). destruct (proc name) as [v|]; [|done]. by destruct (v =? "")%string.
  - intros Hs. unfold cloud_env_overlay, cloud_env_overlay_from. rewrite Hfind by (by intros e ->%String.eqb_eq). by rewrite Hs, He.
  - intros Hs. unfold cloud_env_overlay, cloud_env_overlay_from. rewrite Hfind by (by intros e ->%String.eqb_eq). by rewrite Hs.
Qed.

(** ** Where a lookup says more than it should *)

Definition bare : Machine := mkMachine (fun _ => Err NotPresent) None ∅.

(** A token of letters, digits and underscores has the shape of a variable's name: it is taken as
    a reference, and the reference that is logged and put in errors is the token. *)
Lemma token_passes_for_a_name :
  let token := "hf_AbCdEf0123456789" in
  credential_ref (Some token) = Ok (Key (mkKeyRef Env token)) /\
  resolve_credential bare (Some token) = Err (SecretNotSet ("key://env/" +:+ token)).
Proof. split; reflexivity. Qed.

(** Any name of the shape is accepted bare. *)
Lemma names_are_references s : env_name s = true -> trim s = s -> strip_prefix "key://" s = None -> parse_key_ref s = Ok (mkKeyRef Env s).
Proof. intros Hn Ht Hp. unfold parse_key_ref. by rewrite Ht, Hp, Hn. Qed.

(** A variable that is set and empty is a key: the alternates of a vendor are not tried. *)
Lemma empty_variable_hides_the_alternates :
  let m := mkMachine (fun n => if (n =? "GEMINI_API_KEY")%string then Ok "" else Err NotPresent) (Some (unlines ["GOOGLE_API_KEY=key-one"])) ∅ in
  vendor_resolve_api_key m (mkVendor "gemini" [] "GEMINI_API_KEY" ["GOOGLE_API_KEY"]) = Ok (Some (mkSecret (mkKeyRef Env "GEMINI_API_KEY") "")) /\
  resolve_api_key m [mkVendor "gemini" [] "GEMINI_API_KEY" ["GOOGLE_API_KEY"]] "" "gemini" = "key-one".
Proof. split; vm_compute; reflexivity. Qed.

(** The agents read the file again with a parser of their own: an unfinished quote, which the
    shared parser refuses, becomes a key. *)
Lemma unfinished_quote_becomes_a_key :
  let m := mkMachine (fun _ => Err NotPresent) (Some (unlines ["A='unfinished"])) ∅ in
  env_or_cloud_env m "A" = Err NotPresent /\ resolve_inference_key m "A" = Some "unfinished".
Proof. split; vm_compute; reflexivity. Qed.

(** ** Lookups on a host *)

Lemma key_ref_round_trip_witness : parse_key_ref " key://host/ api token " = Ok (mkKeyRef HostFile "api token") /\
  parse_key_ref "key://host/api token" = Ok (mkKeyRef HostFile "api token").
Proof.
  assert (H : parse_key_ref " key://host/ api token " = Ok (mkKeyRef HostFile "api token")) by (vm_compute; reflexivity).
  split; [exact H|exact (key_ref_round_trip _ _ H)].
Defined.

Definition deploys : Vault := put (put ∅ "deploy" "token" "abc") "billing" "token" "xyz".
Lemma boundary_confines_witness :
  resolve_scoped_credential deploys "deploy" (Some "secret://deploy/token") =
    resolve_scoped_credential (put deploys "billing" "token" "other") "deploy" (Some "secret://deploy/token") /\
  resolve_scoped_credential deploys "deploy" (Some "secret://deploy/token") = Ok "abc" /\
  resolve_scoped_credential deploys "deploy" (Some "secret://billing/token") = Err OutsideScope.
Proof.
  destruct (boundary_confines deploys (put deploys "billing" "token" "other") "deploy" (Some "secret://deploy/token")) as [H _].
  - intros n. unfold put. by rewrite lookup_insert_ne.
  - split; [exact H|split; reflexivity].
Defined.

Definition openai : CloudVendorEntry := mkVendor "openai" ["gpt"] "OPENAI_API_KEY" ["OPENAI_KEY"].
Definition overrides (n : string) : option string :=
  if (n =? "OPENAI_BASE_URL")%string then Some "https://proxy.invalid" else if (n =? "ANTHROPIC_API_BASE")%string then Some "https://other.invalid" else None.
Example own_base : base_with_vendor "default" "GPT" (Some openai) overrides = "https://proxy.invalid".
Proof. vm_compute. reflexivity. Qed.
Example not_its_base : base_with_vendor "default" "Ollama" None overrides = "default".
Proof. vm_compute. reflexivity. Qed.
Lemma base_is_its_own_witness :
  base_with_vendor "default" "Ollama" None overrides = base_with_vendor "default" "Ollama" None (fun _ => None).
Proof.
  destruct (base_is_its_own "default" "Ollama" None overrides) as [_ H]. apply H. intros p Hp. apply list_elem_of_In in Hp. cbn [In prefixes_of] in Hp.
  destruct Hp as [<-|[]]. unfold base_names. repeat (constructor; [reflexivity|]). constructor.
Defined.

Lemma registered_key_is_found_witness :
  let m := mkMachine (fun _ => Err NotPresent) (env (toy_register "openai" "key-one" (host "")).1 ≫= text) ∅ in
  env_or_cloud_env m "OPENAI_API_KEY" = Ok "key-one" /\ lookup_entry "OPENAI_API_KEY" (cloud_env_overlay m) = Some "key-one".
Proof.
  intros m. destruct (registered_key_is_found toy_digest toy_len toy_reread [] (fun _ => (true, true, true)) true (true, true, true)
    "openai" "key-one" "OPENAI_API_KEY" (host "") (toy_register "openai" "key-one" (host "")).1 (fun _ => Err NotPresent) ∅)
    as (d & Hd & H1 & H2 & _); [vm_compute; reflexivity|discriminate|].
  vm_compute in Hd. injection Hd as <-. split; [exact H1|apply H2; reflexivity].
Defined.
